(* ===== verification/_CoqProject ===== *)
-Q . S2P
Prelude.v
Uuid.v
Text.v
Canonical.v
Knowledge.v
Status.v
Supersession.v
ValidTime.v
Hypothesis.v
Assertions.v
Membership.v
CompactSet.v
Nomination.v
Calendar.v
Components.v
Ast.v
Scan.v
Lexer.v
WellFormed.v
TokenStream.v
ParsePattern.v
ParseExpr.v
ParseClause.v
ParseSpec.v
ParseQuery.v
ReadOnly.v
Grammar.v
Lexical.v
RoundTrip.v
Control.v
Topology.v
Projection.v
Dfs.v
DagTopology.v
Export.v
Neighbors.v
KCore.v
Scc.v
SccCorrect.v
Utf8.v
Numerals.v
Pax.v
Portable.v
Tar.v
PortablePath.v
Inventory.v
Bundle.v
BagTags.v
BundleCorrect.v
BundleSafe.v
TypeIds.v
Catalog.v
Bipartite.v
