(* ===== verification/Prelude.v ===== *)
(** * GraphForge: a verification library

    GraphForge is a Rust workspace ([crates/graphforge-*]) that stores property graphs and
    a ledger of knowledge about them, and runs queries and graph algorithms over both.
    This library models the parts that carry its own logic independently of the Arrow,
    Parquet and DataFusion libraries, and proves them correct.

    ** Parts of the program and their interaction

    - [graphforge-core] gives every other crate UUID derivations and the canonical byte
      grammar: a bounded writer, a strict reader and domain-separated fingerprints.
    - [graphforge-knowledge] keeps append-only ledgers of immutable rows: assertions and
      their graph references, status events, supersession relations, valid-time
      corrections and hypothesis groups.  A ledger is built from rows ([new]), merged with
      a staged ledger ([merge]), queried, and fingerprinted through the canonical writer.
    - [graphforge-storage] reads partitions of UUID-keyed rows.  A join's build side
      nominates its keys into a compact hash set under a memory reservation; the finished
      set prunes the reads of the probe side through the [UuidMembership] trait.  It also
      writes and reads portable packages: one tar file with PAX records whose entries are the
      payloads, an inventory of their digests and the BagIt tags, under rules for portable
      paths and limits on every count and size.
    - [graphforge-value] gives labels, relation types and properties stable integer identities in
      a runtime catalog, and encodes them for the type columns of the topology.
    - [graphforge-rel] evaluates temporal expressions over its own calendar.
    - [graphforge-exec] runs graph algorithms under a control that counts rows and search
      states and polls for cancellation.  Connected components has a serial and a parallel
      path over an adjacency; the other algorithms read a dense graph of node ordinals in
      compressed rows, exported from an adjacency or built from the rows of a projection.
    - [graphforge-cypher] turns the text of a query into the tree of [graphforge-ast]: a
      lexer collects the tokens, a recursive-descent parser with a Pratt core for operators
      builds the tree, and saved queries are admitted only when they read.

    ** Files

    - [Prelude] (this file): Rust's [Result], a state-and-error monad, total orders
      ([Ord]), the stable sort, machine integers with their wrap-around and saturation,
      big-endian bytes, and the tactics and hints the other files use.
    - [Uuid]: [core/src/uuid.rs].  The [uuid] crate is the class [UuidCrate]; [Uuid128] is
      an instance and serves the witnesses.
    - [Text]: Rust strings as scalar values with their UTF-8 bytes.
    - [Canonical]: [core/src/canonical.rs]; SHA-256 is a parameter of the fingerprints.
    - [Knowledge]: what the ledgers share: [KnowledgeError], the identifier checks, the
      scan for repeated identities ([scan_ids]), the merge by identity ([merge_loop]) with
      its specification [merges_to] (the union of two agreeing finite maps), canonical row
      order ([ledger_wf]) and tables of fingerprints.
    - [Status], [Supersession], [ValidTime], [Hypothesis] model [status.rs],
      [supersession.rs], [valid_time.rs] and [hypothesis.rs]; [Assertions] the assertion
      ledger of [lib.rs].  Rows are records with the fields of the Rust structs, ledgers
      are the sorted vectors the structs hold.
    - [Membership], [CompactSet]: [storage/src/uuid_set.rs].  The trait is a record of
      methods ([UuidMembership]) with the laws a pruned read relies on ([MembershipLaws]);
      the tree set, the sorted slice, the intersection filter, the interval and the hash
      set discharge them.
    - [Nomination]: [UuidBuildKeyNomination] of [storage/src/property_join_nomination.rs].
    - [Calendar]: [rel/src/calendar.rs].
    - [Components]: [exec/src/algorithm_cluster/components.rs].  The class [UnionFind]
      states what a pass over the edges needs; the parent array and the hash map of a
      chunk are its instances.
    - [Control]: [exec/src/algorithm_dispatch.rs], the limits, counters and polls of one
      run; the shared counter of search states is a step relation over its calls.
    - [Topology]: [exec/src/algorithm_graph/topology.rs] and the accessors of
      [AdjacencyGraph].  The class [Represents] says which edges the rows of a graph store,
      [GraphOf] adds the labels; the algorithms are proved against them.
    - [Projection], [Export]: the two constructions of an [AdjacencyGraph] in
      [exec/src/algorithm_graph.rs], from the rows of a resolved projection, and from an
      adjacency by a builder, sorted cursors and merges.  Both discharge [Represents].
    - [Dfs], [DagTopology]: [exec/src/algorithm_paths_dfs.rs] and
      [exec/src/algorithm_analyze_dag_topology.rs].
    - [Neighbors], [KCore]: [exec/src/algorithm_neighbors.rs] and
      [exec/src/algorithm_k_core.rs].  [Scc] models [exec/src/algorithm_cluster_scc.rs] and
      states the invariant of the search, [SccCorrect] proves that the code keeps it.
    - [Ast]: [ast/src/ast.rs], node types over the type of their subexpressions and [Expr] as
      their fixed point.  [WellFormed] says which trees the parser may build.
    - [Scan]: the monad of code that reads an input and may fail or panic, its loops, and the
      rules of [wp].  [Lexer]: [cypher/src/lexer.rs] over the scalar values of the text.
    - [TokenStream], [ParsePattern], [ParseExpr], [ParseClause]: [cypher/src/parser/mod.rs],
      [patterns.rs], [expr.rs] and [clauses.rs], function by function.  The functions that
      call each other across files take the record [Rec] of what they call; [knot] ties it.
      [ParseSpec] and [ParseQuery] prove what each function guarantees; the public entry
      points are in [ParseQuery].
    - [ReadOnly]: [cypher/src/read_only.rs].
    - [Grammar], [Lexical], [RoundTrip]: declarative grammars of expressions and of tokens,
      and that the parser and the lexer, alone and composed, read them.
    - [Utf8], [Numerals]: what the readers of packages use of the standard library:
      [str::from_utf8], [str] prefixes, numerals of a radix.
    - [Portable]: [core/src/portable.rs], the error codes, the limits, the order of paths, and
      the outcome of a fallible reader; [PortablePath]: the path rules and [PathSet] of
      [storage/src/project_portable.rs].
    - [Pax], [Tar], [Inventory], [Bundle], [BagTags]: the PAX records, tar headers, digest
      inventory, the scan and the writer of a bundle, and the tag files, of
      [storage/src/project_portable.rs], the files [pax.rs], [inventory.rs], [bag_tags.rs] and
      [research.rs] of its directory, and [project_portable_export/transport.rs].
      [BundleCorrect] proves the scan of what the writer wrote, [BundleSafe] the scan of any
      bytes.
    - [TypeIds], [Catalog]: [value/src/ids.rs] and [value/src/catalog.rs]; an Arrow batch is its
      rows.
    - [Bipartite]: [exec/src/algorithm_analyze_bipartite.rs] and
      [exec/src/algorithm_partition.rs].

    ** What the theorems show

    - Encodings: the strict reader accepts exactly what the writer writes and reads it
      back; fingerprints separate domains and bind rows up to a SHA-256 collision.
    - Ledgers: construction accepts exactly the canonical, valid rows; a merge is the
      union of agreeing rows, never loses or changes a row, and reads back unchanged.
      For status events the last part needs that no superseded event is backdated, which
      the code does not check ([status_merge_reload]; one such merge is
      [status_merge_backdated_unreadable]).  The cycle check
      ends on every relation and decides acyclicity; validity as known at a cutoff never changes by
      later corrections; the selected hypothesis is always a member, and the reported
      state is the replayed one when operations have distinct timestamps
      ([hypothesis_current_state]), which the code does not require (a ledger without them is
      [hypothesis_interleaved_selection]).
    - Key sets: linear probing terminates and implements a finite set; an allocation holds
      exactly the bytes charged for it, or is refused; every byte of a nomination is charged,
      and one that gives up holds nothing; a pruned read loses no wanted row.
    - Calendar: within bounds far beyond the supported years the [i64] conversions do not
      overflow, are inverse to each other and count every day.
    - Components: serial and parallel runs return the same rows, and two nodes share an
      id exactly when a path connects them.
    - Graphs and traversals: a node set is the sorted set of its identifiers and a lookup
      finds the first position ([node_set_exact], [uuid_lookup_first]); a built graph stores
      exactly the selected edges, in an order that does not depend on the order of the input
      ([projection_faithful], [projection_canonical]), and an exported one exactly the rows
      of the adjacency ([edge_uuids_resolved], [export_exact]).  The depth-first search
      emits every reachable node once, in the preorder of the recursive search
      ([dfs_exact]); the topological order is a linear extension, or the graph has a cycle
      and the run says so ([dag_topology_exact]).  Core numbers are the greatest degrees of
      cohesive sets ([k_core_exact]), and labels of strongly connected components agree
      exactly on nodes that reach each other ([scc_exact]).  A bipartite projection exists exactly
      when the graph, or the given partition of it, has two sides ([bipartite_exact]).  The budget of search states is exact
      under every interleaving of its callers, and a retry of one means that another made
      progress ([states_budget_exact], [states_calls_return]).
    - Query front end: tokenizing and parsing any text ends without a panic, errors point
      into the text, and every accepted query is a well-formed tree without placeholders of
      unsupported expressions ([tokenize_total], [parse_terminates], [parse_well_formed]).
      The lexer returns exactly the tokens a text spells, operators are parsed with the
      precedence and associativity of an independent table, and the two compose
      ([tokenize_complete], [parse_expr_complete], [parse_text_complete]).  A saved query is admitted exactly when
      it and all its subqueries only read, with exactly its parameters ([read_only_exact]).
      Where the code departs from its intention is stated too: an unclosed string that ends in
      a backslash ([trailing_backslash_accepted]) and a parenthesised variable before a minus
      sign ([paren_minus_rejected]).
    - Identities: the decoders of type columns accept exactly what encodes an identity of their
      domain ([type_ids_exact]).  The catalog is a finite map from keys to entries with stable,
      distinct identities ([catalog_interning]), and is read back from its rows however they are
      cut ([catalog_persistence]), unless the clock stepped back behind the first sighting of a name,
      which the code does not exclude ([catalog_clock_regression]).
    - Portable packages: a PAX body is read exactly when it is the one record the writer
      writes ([pax_exact]); a set of paths is admitted exactly when no two are one path, and
      none a directory of another, up to case and normalization ([path_set_exact]); the streamed check of the inventory accepts exactly
      the rendered text, however it is cut into chunks ([inventory_exact]).  Every bundle the
      writer writes within the limits is scanned to the entries it was written from
      ([bundle_roundtrip]), and a scan that succeeds has seen entries in canonical order,
      within the limits, whose bytes have the digests it reports ([scan_sound]).  Two readers
      accept more than the text about them says: header fields the writer never produces
      ([other_headers_accepted]) and a carriage return in a tag ([carriage_return_accepted]).

    ** Conventions, bounds and fuel

    Integers are [Z] with the range of their Rust type stated where it matters, [usize] is
    64 bits wide.  A panic (an index out of range, a failed assertion) is [None], and
    in [Calendar] so is an overflow; in [Supersession] it is a recursion that has not ended.  Loops
    that are not structural take fuel: the recursion of the cycle check is bounded by the
    number of keys plus one, probing by the number of slots, [find] by the index it starts
    from, the depth-first search by the slots plus two, the topological order by the nodes
    plus one, peeling and Tarjan's search by the nodes plus the entries plus one, the search of
    a bipartite component by the nodes, scanning loops by the characters or tokens left, the recursion of the parser by the
    number of tokens; the theorems are proved for the fuel the definitions pass, so running
    out of fuel never stands for a result.  The PAX record loop of the writer has as
    many turns as the length of the body has digits, plus two; the streamed readers of a
    package have a turn per byte of their input plus one, and [Stuck] stands for a panic or for
    missing turns, which the theorems exclude.  The depth of the native call stack is not
    bounded in the model.  Maps and sets are [gmap] and [gset]; where the iteration
    order of a [HashMap] could matter it is a parameter.  Third-party code (SHA-256, UUID
    generation, Unicode normalisation, hash seeds, the allocator and the memory pool) is a
    parameter of the definitions that use it.  Cancellation is an oracle over the polls of
    a run.  The tables of letters, digits and upper case
    of the standard library are the class [Unicode], whose laws fix the ASCII range;
    [AsciiOnly] is an instance and serves the witnesses.  Parse errors carry their kind and
    span, not the wording of their message; a token or expression printed in an error is kept
    as a value.  An [f64] is its bit pattern.

    ** Not modelled

    The Arrow batch encodings and schema registries of the ledgers, the evidence,
    confidence and algorithm-run ledgers (floating-point weights and record batches),
    formatting of dates, cancellation and row limits of connected components, the encodings of
    literals and of mixed arrays, the matching and colouring algorithms, the graph algorithms with floating-point scores, the binder and planner of queries, whose operators
    are DataFusion plans, and the crates that are file, network or language bindings.  Of
    portable packages: expanded directories, the planning of an export, the JSON of the
    semantic manifest, the materialization of a package into a project, cancellation during a
    scan, and writes that fail. *)

From stdpp Require Import base list gmap sets strings sorting relations.
From Stdlib Require Import ZArith Lia.

#[global] Open Scope Z_scope.

(** ** Rust's [Result] and fallible code with state *)

(** [Result<A, E>]. *)
Inductive result (E A : Type) : Type :=
| Ok (a : A)
| Err (e : E).
Arguments Ok {E A} a.
Arguments Err {E A} e.

#[global] Instance result_ret E : MRet (result E) := fun A a => Ok a.
#[global] Instance result_bind E : MBind (result E) := fun A B f m =>
  match m with Ok a => f a | Err e => Err e end.
#[global] Instance result_fmap E : FMap (result E) := fun A B f m =>
  match m with Ok a => Ok (f a) | Err e => Err e end.
#[global] Instance result_eq_dec {E A} `{EqDecision E, EqDecision A} : EqDecision (result E A).
Proof. solve_decision. Defined.

(** [Result::map_err]. *)
Definition map_err {E F A} (f : E -> F) (m : result E A) : result F A :=
  match m with Ok a => Ok a | Err e => Err (f e) end.

(** [Option::ok_or]. *)
Definition ok_or {E A} (o : option A) (e : E) : result E A :=
  match o with Some a => Ok a | None => Err e end.

Definition is_ok {E A} (m : result E A) : bool :=
  match m with Ok _ => true | Err _ => false end.

Lemma bind_Ok {E A B} (m : result E A) (f : A -> result E B) b :
  (m ≫= f) = Ok b <-> exists a, m = Ok a /\ f a = Ok b.
Proof. destruct m as [a|e]; simpl; split; [eauto| |done|]; intros (?&?&?); congruence. Qed.

(** [check?; rest]. *)
Lemma bind_unit_Ok {E B} (m : result E unit) (k : result E B) b :
  (m ;; k) = Ok b <-> m = Ok tt /\ k = Ok b.
Proof. destruct m as [[]|e]; simpl; split; [done|by intros []|done|by intros []]. Qed.

(** [if guard { return Err(e) } rest]. *)
Lemma guard_Ok {E A} (g : bool) (e : E) (k : result E A) a :
  (if g then Err e else k) = Ok a <-> g = false /\ k = Ok a.
Proof. destruct g; split; [done|by intros []|done|by intros []]. Qed.

Lemma fmap_Ok {E A B} (m : result E A) (f : A -> B) b :
  (f <$> m) = Ok b <-> exists a, m = Ok a /\ b = f a.
Proof. destruct m as [a|e]; simpl; split; [naive_solver| |done|]; intros (?&?&?); congruence. Qed.

Lemma map_err_Ok {E F A} (f : E -> F) (m : result E A) a :
  map_err f m = Ok a <-> m = Ok a.
Proof. destruct m; simpl; split; congruence. Qed.

Lemma ok_or_Ok {E A} (o : option A) (e : E) a : ok_or o e = Ok a <-> o = Some a.
Proof. destruct o; simpl; split; congruence. Qed.

(** A method [fn m(&mut self, ..) -> Result<A, E>]: the state reached is
    observable on the error path too. *)
Definition SE (E S A : Type) : Type := S -> result E A * S.

#[global] Instance se_ret E S : MRet (SE E S) := fun A a s => (Ok a, s).
#[global] Instance se_bind E S : MBind (SE E S) := fun A B f m s =>
  match m s with
  | (Ok a, s') => f a s'
  | (Err e, s') => (Err e, s')
  end.

Lemma se_bind_Ok {E S A B} (m : SE E S A) (f : A -> SE E S B) s b s'' :
  (m ≫= f) s = (Ok b, s'') <-> exists a s', m s = (Ok a, s') /\ f a s' = (Ok b, s'').
Proof.
  unfold mbind, se_bind. destruct (m s) as [[a|e] s'] eqn:Em; split.
  - eauto.
  - intros (?&?&?&?). congruence.
  - congruence.
  - intros (?&?&?&?). congruence.
Qed.

(** Run a fallible stateful method from a state and keep the final state. *)
Definition exec {E S} (m : SE E S unit) (s : S) : result E S :=
  match m s with (Ok _, s') => Ok s' | (Err e, _) => Err e end.

Lemma exec_Ok {E S} (m : SE E S unit) s s' : exec m s = Ok s' <-> m s = (Ok tt, s').
Proof. unfold exec. destruct (m s) as [[[]|e] s0]; split; congruence. Qed.

(** ** Tactics *)

(** Split every [Ok] hypothesis about a bind, a map or an [ok_or] into its steps. *)
Ltac inv_result :=
  repeat match goal with
  | H : Ok _ = Ok _ |- _ => injection H as H; try subst
  | H : Err _ = Err _ |- _ => injection H as H; try subst
  | H : Ok _ = Err _ |- _ => discriminate H
  | H : Err _ = Ok _ |- _ => discriminate H
  | H : (_, _) = (_, _) |- _ => injection H as H; try subst
  | H : (_ ≫= _) = Ok _ |- _ => apply bind_Ok in H; destruct H as (?&?&H)
  | H : (_ <$> _) = Ok _ |- _ => apply fmap_Ok in H; destruct H as (?&?&H)
  | H : map_err _ _ = Ok _ |- _ => apply map_err_Ok in H
  | H : ok_or _ _ = Ok _ |- _ => apply ok_or_Ok in H
  | H : (_ ≫= _) _ = (Ok _, _) |- _ =>
      apply se_bind_Ok in H; destruct H as (?&?&?&H)
  | H : exec _ _ = Ok _ |- _ => apply exec_Ok in H
  | u : unit |- _ => destruct u
  end.


(** Destruct the scrutinee of every [if] met in [H]. *)
Ltac split_if H :=
  repeat match type of H with
  | context [if ?b then _ else _] => let E := fresh "E" in destruct b eqn:E
  end.

Create HintDb gf.

(** ** Rust's [Ord] trait: a total order with a decidable comparison *)

Class Ord (A : Type) := {
  ord_le : relation A;
  ord_le_dec :: RelDecision ord_le;
  ord_refl : forall a, ord_le a a;
  ord_trans : forall a b c, ord_le a b -> ord_le b c -> ord_le a c;
  ord_antisymm : forall a b, ord_le a b -> ord_le b a -> a = b;
  ord_total : forall a b, ord_le a b \/ ord_le b a;
}.
#[export] Hint Resolve ord_refl ord_trans : gf.

#[global] Instance ord_Z : Ord Z.
Proof.
  refine {| ord_le := Z.le |}; lia.
Defined.

#[global] Instance ord_nat : Ord nat.
Proof.
  refine {| ord_le := Nat.le |}; lia.
Defined.

(** The strict order. *)
Definition ord_lt {A} `{Ord A} (x y : A) : Prop := ord_le x y /\ x <> y.

Lemma ord_lt_trans {A} `{Ord A} (a b c : A) : ord_lt a b -> ord_lt b c -> ord_lt a c.
Proof.
  intros [H1 N1] [H2 N2]. split; [by eapply ord_trans|]. intros ->. apply N1. by apply ord_antisymm.
Qed.

(** Rust compares tuples lexicographically. *)
Section tuple_ord.
Context {A B} `{EqDecision A} `{Ord A} `{Ord B}.

Definition pair_le (p q : A * B) : Prop :=
  (ord_le p.1 q.1 /\ p.1 <> q.1) \/ (p.1 = q.1 /\ ord_le p.2 q.2).

#[global] Instance pair_le_dec : RelDecision pair_le.
Proof. intros p q. unfold pair_le. apply _. Defined.

#[global] Instance ord_pair : Ord (A * B).
Proof.
  refine {| ord_le := pair_le |}; unfold pair_le.
  - intros [a b]. right. auto with gf.
  - intros [a1 b1] [a2 b2] [a3 b3]; simpl.
    intros [[H1 N1]|[-> H1]] [[H2 N2]|[-> H2]]; eauto with gf.
    left. split; [eauto with gf|]. intros ->.
    apply N1, ord_antisymm; auto.
  - intros [a1 b1] [a2 b2]; simpl.
    intros [[H1 N1]|[-> H1]] [[H2 N2]|[Heq H2]]; try congruence.
    + exfalso. apply N1, ord_antisymm; auto.
    + f_equal. apply ord_antisymm; auto.
  - intros [a1 b1] [a2 b2]; simpl.
    destruct (decide (a1 = a2)) as [->|N].
    + destruct (ord_total b1 b2); auto.
    + destruct (ord_total a1 a2); [left|right]; left; auto.
Defined.
End tuple_ord.

(** ** [slice::sort_by_key], [Iterator::max_by_key] *)

Section sorting.
Context {A K : Type} `{Ord K} (key : A -> K).

(** Place [x] before the first element whose key is not smaller. *)
Fixpoint insert_by_key (x : A) (l : list A) : list A :=
  match l with
  | [] => [x]
  | y :: l' =>
      if decide (ord_le (key x) (key y)) then x :: y :: l'
      else y :: insert_by_key x l'
  end.

(** A stable sort by key: equal keys keep their input order. *)
Definition sort_by_key (l : list A) : list A := foldr insert_by_key [] l.

Definition key_le (x y : A) : Prop := ord_le (key x) (key y).
#[global] Instance key_le_dec : RelDecision key_le := fun x y => ord_le_dec _ _.

Lemma insert_by_key_perm x l : insert_by_key x l ≡ₚ x :: l.
Proof.
  induction l as [|y l IH]; simpl; [done|]. case_decide; [done|].
  rewrite IH. apply Permutation_swap.
Qed.

Lemma sort_by_key_perm l : sort_by_key l ≡ₚ l.
Proof.
  induction l as [|x l IH]; simpl; [done|].
  by rewrite insert_by_key_perm, IH.
Qed.

Lemma insert_by_key_sorted x l :
  StronglySorted key_le l -> StronglySorted key_le (insert_by_key x l).
Proof.
  induction 1 as [|y l Hl IH Hy]; simpl; [repeat constructor|].
  case_decide as Hd.
  - constructor; [by constructor|]. constructor; [done|].
    eapply Forall_impl; [done|]. intros z Hz. unfold key_le in *. eauto with gf.
  - constructor; [done|]. rewrite insert_by_key_perm. constructor; [|done].
    unfold key_le. destruct (ord_total (key x) (key y)); tauto.
Qed.

Lemma sort_by_key_sorted l : StronglySorted key_le (sort_by_key l).
Proof. induction l; simpl; [constructor|]. by apply insert_by_key_sorted. Qed.

(** Sorting a list that is already sorted changes nothing. *)
Lemma sort_by_key_id l : StronglySorted key_le l -> sort_by_key l = l.
Proof.
  induction 1 as [|x l Hl IH Hx]; simpl; [done|]. rewrite IH.
  destruct l as [|y l]; simpl; [done|]. rewrite decide_True; [done|].
  by inversion Hx.
Qed.

(** Two sorted arrangements of the same rows are equal when no two rows
    share a key. *)
Lemma sorted_perm_unique l1 l2 :
  NoDup (key <$> l1) -> StronglySorted key_le l1 -> StronglySorted key_le l2 ->
  l1 ≡ₚ l2 -> l1 = l2.
Proof.
  intros Hnd H1 H2 Hp. apply (StronglySorted_unique_strong key_le); [|done..].
  intros x y Hx Hy Hxy Hyx.
  assert (Hkey : key x = key y) by (by apply ord_antisymm).
  rewrite <-Hp in Hy.
  apply list_elem_of_lookup in Hx as [i Hi]. apply list_elem_of_lookup in Hy as [j Hj].
  assert (i = j) as ->.
  { eapply (NoDup_lookup (key <$> l1)); [done| |];
      rewrite list_lookup_fmap; [by rewrite Hi|by rewrite Hj, Hkey]. }
  congruence.
Qed.

Lemma sort_by_key_unique l1 l2 :
  NoDup (key <$> l1) -> l1 ≡ₚ l2 -> sort_by_key l1 = sort_by_key l2.
Proof.
  intros Hnd Hp. apply sorted_perm_unique; try apply sort_by_key_sorted.
  - by rewrite sort_by_key_perm.
  - by rewrite !sort_by_key_perm.
Qed.

(** [max_by_key]: the last element among those with the greatest key. *)
Definition max_by_key (l : list A) : option A :=
  match l with
  | [] => None
  | x :: l' =>
      Some (foldl (fun best y => if decide (key_le best y) then y else best) x l')
  end.

Lemma foldl_max_spec l x :
  let m := foldl (fun best y => if decide (key_le best y) then y else best) x l in
  (m = x \/ m ∈ l) /\ key_le x m /\ Forall (fun y => key_le y m) l.
Proof.
  revert x. induction l as [|y l IH]; intros x; simpl.
  - split; [by left|]. split; [unfold key_le; auto with gf|constructor].
  - case_decide as Hd.
    + destruct (IH y) as (Hm&Hle&Hall). split; [rewrite ?elem_of_cons; tauto|].
      unfold key_le in *. split; [eauto with gf|by constructor].
    + assert (Hyx : key_le y x).
      { unfold key_le in *. destruct (ord_total (key x) (key y)); tauto. }
      destruct (IH x) as (Hm&Hle&Hall). split; [rewrite ?elem_of_cons; tauto|].
      unfold key_le in *. split; [done|]. constructor; [eauto with gf|done].
Qed.

Lemma max_by_key_spec l m :
  max_by_key l = Some m -> m ∈ l /\ Forall (fun y => key_le y m) l.
Proof.
  destruct l as [|x l]; [done|]. cbn [max_by_key]. intros [= <-].
  destruct (foldl_max_spec l x) as (Hm&Hle&Hall).
  split; [rewrite ?elem_of_cons; tauto|]. by constructor.
Qed.

Lemma max_by_key_None l : max_by_key l = None <-> l = [].
Proof. by destruct l. Qed.

(** With distinct keys, [max_by_key] is the greatest element of the set of elements. *)
Lemma max_by_key_iff l m :
  NoDup (key <$> l) -> max_by_key l = Some m <-> m ∈ l /\ Forall (fun y => key_le y m) l.
Proof.
  intros Hnd. split; [apply max_by_key_spec|]. intros [Hm Hall].
  destruct (max_by_key l) as [m'|] eqn:E.
  - apply max_by_key_spec in E as [Hm' Hall']. rewrite Forall_forall in Hall, Hall'.
    assert (Hk : key m' = key m) by (apply ord_antisymm; [by apply Hall|by apply Hall']).
    f_equal. apply list_elem_of_lookup in Hm as [i Hi]. apply list_elem_of_lookup in Hm' as [j Hj].
    assert (i = j) as ->; [|congruence].
    eapply (NoDup_lookup (key <$> l)); [done| |]; rewrite list_lookup_fmap.
    + by rewrite Hi. + rewrite Hj. simpl. by rewrite Hk.
  - apply max_by_key_None in E as ->. by apply not_elem_of_nil in Hm.
Qed.

Lemma max_by_key_ext l l' :
  NoDup (key <$> l) -> NoDup (key <$> l') -> (forall x, x ∈ l <-> x ∈ l') ->
  max_by_key l = max_by_key l'.
Proof.
  intros Hl Hl' Heq. apply option_eq. intros m. rewrite !max_by_key_iff by done.
  rewrite !Forall_forall, Heq. by setoid_rewrite Heq.
Qed.
End sorting.

(** A stable sort commutes with a filter. *)
Section stable_sort.
Context {A K} `{Ord K} (key : A -> K) (P : A -> Prop) `{forall x, Decision (P x)}.

Lemma filter_insert_by_key x l :
  StronglySorted (key_le key) l ->
  filter P (insert_by_key key x l) =
    if decide (P x) then insert_by_key key x (filter P l) else filter P l.
Proof.
  induction 1 as [|y l Hl IH Hy]; cbn [insert_by_key].
  { rewrite filter_cons, filter_nil. by destruct (decide (P x)). }
  destruct (decide (ord_le (key x) (key y))) as [Hle|Hn].
  - rewrite (filter_cons _ x). destruct (decide (P x)) as [Px|]; [|done].
    destruct (filter P (y :: l)) as [|z l'] eqn:E; [done|]. cbn. rewrite decide_True; [done|].
    assert (Hz : z ∈ filter P (y :: l)) by (rewrite E; left).
    apply list_elem_of_filter in Hz as [_ [->|Hz]%elem_of_cons]; [done|].
    rewrite Forall_forall in Hy. specialize (Hy z Hz). unfold key_le in Hy. eauto with gf.
  - rewrite !(filter_cons _ y), IH. destruct (decide (P y)); [|done].
    destruct (decide (P x)); [|done]. cbn. by rewrite decide_False.
Qed.

Lemma filter_sort_by_key l : filter P (sort_by_key key l) = sort_by_key key (filter P l).
Proof.
  induction l as [|x l IH]; [done|]. cbn [sort_by_key foldr].
  rewrite filter_insert_by_key by apply sort_by_key_sorted. fold (sort_by_key key l). rewrite IH.
  rewrite (filter_cons _ x). by destruct (decide (P x)).
Qed.
End stable_sort.

Lemma StronglySorted_impl {A} (R S : relation A) (l : list A) :
  (forall a b, R a b -> S a b) -> StronglySorted R l -> StronglySorted S l.
Proof. intros HRS. induction 1; constructor; [done|]. eapply Forall_impl; [done|]. auto. Qed.

(** ** [Vec::dedup] *)

Section dedup.
Context {A : Type} `{EqDecision A} `{Ord A}.

Fixpoint dedup (l : list A) : list A :=
  match l with
  | a :: ((b :: _) as l') => if decide (a = b) then dedup l' else a :: dedup l'
  | _ => l
  end.

Lemma dedup_cons a b l : dedup (a :: b :: l) = if decide (a = b) then dedup (b :: l) else a :: dedup (b :: l).
Proof. done. Qed.

Lemma dedup_spec l : StronglySorted ord_le l -> StronglySorted ord_lt (dedup l) /\ forall x, x ∈ dedup l <-> x ∈ l.
Proof.
  induction 1 as [|a l Hl [IHa IHx] Ha]; [split; [constructor|done]|].
  destruct l as [|b l]; [split; [repeat constructor|done]|]. rewrite dedup_cons.
  destruct (decide (a = b)) as [->|Hne].
  - split; [done|]. intros x. rewrite IHx, !elem_of_cons. tauto.
  - split; [|intros x; rewrite (elem_of_cons _ x a), IHx, (elem_of_cons (b :: l)); done].
    constructor; [done|]. apply Forall_forall. intros x Hx%IHx. rewrite Forall_forall in Ha.
    split; [by apply Ha|]. intros <-. inversion Hl as [|? ? _ Hb]; subst. rewrite Forall_forall in Hb.
    apply Hne, ord_antisymm; [apply Ha; left|]. apply elem_of_cons in Hx as [->|Hx]; [by apply ord_refl|by apply Hb].
Qed.

(** What [sort_unstable] and [dedup] leave: the elements of the list, strictly ascending. *)
Lemma sort_dedup_spec l :
  StronglySorted ord_lt (dedup (sort_by_key id l)) /\ forall x, x ∈ dedup (sort_by_key id l) <-> x ∈ l.
Proof.
  destruct (dedup_spec (sort_by_key id l)) as [Ha Hx].
  { eapply StronglySorted_impl; [|apply (sort_by_key_sorted id)]. done. }
  split; [done|]. intros x. by rewrite Hx, sort_by_key_perm.
Qed.

Lemma sort_dedup_length l : (length (dedup (sort_by_key id l)) <= length l)%nat.
Proof.
  rewrite <-(Permutation_length (sort_by_key_perm id l)). generalize (sort_by_key id l) as k. clear l.
  intros l. induction l as [|a [|b l] IH]; [done|done|]. rewrite dedup_cons.
  destruct (decide (a = b)); cbn [length] in *; lia.
Qed.
End dedup.

Lemma NoDup_fmap_filter {A B} (f : A -> B) (P : A -> Prop) `{forall x, Decision (P x)} (l : list A) :
  NoDup (f <$> l) -> NoDup (f <$> filter P l).
Proof.
  induction l as [|x l IH]; [done|]. rewrite fmap_cons, NoDup_cons. intros [Hn Hd].
  rewrite filter_cons. case_decide; [|by apply IH]. rewrite fmap_cons, NoDup_cons.
  split; [|by apply IH]. intros (y&Hy&[_ Hin]%list_elem_of_filter)%list_elem_of_fmap.
  apply Hn. rewrite Hy. by apply list_elem_of_fmap_2.
Qed.

Lemma filter_all {A} (P : A -> Prop) `{forall x, Decision (P x)} (l : list A) :
  (forall x, x ∈ l -> P x) -> filter P l = l.
Proof.
  induction l as [|x l IH]; intros Ha; [done|]. rewrite filter_cons_True by (apply Ha; left).
  f_equal. apply IH. intros y Hy. apply Ha. by right.
Qed.

(** ** Machine integers and big-endian bytes *)

Definition u8_max : Z := 2 ^ 8 - 1.
Definition u16_max : Z := 2 ^ 16 - 1.
Definition u32_max : Z := 2 ^ 32 - 1.
Definition u64_max : Z := 2 ^ 64 - 1.
(** [usize] is 64 bits wide on the supported targets. *)
Definition usize_max : Z := u64_max.
Definition i64_min : Z := - 2 ^ 63.
Definition i64_max : Z := 2 ^ 63 - 1.
Definition in_i64 (z : Z) : Prop := i64_min <= z <= i64_max.

(** [usize::checked_add], [usize::checked_mul], [usize::saturating_add],
    [usize::saturating_sub]. *)
Definition checked_add (a b : Z) : option Z :=
  if a + b <=? usize_max then Some (a + b) else None.
Definition checked_mul (a b : Z) : option Z :=
  if a * b <=? usize_max then Some (a * b) else None.
Definition saturating_add (a b : Z) : Z := Z.min (a + b) usize_max.
Definition saturating_mul (a b : Z) : Z := Z.min (a * b) usize_max.
Definition saturating_sub (a b : Z) : Z := Z.max (a - b) 0.
(** [usize::div_ceil]. *)
Definition div_ceil (a b : Z) : Z := (a + b - 1) / b.

(** A length, as the [usize] the source compares. *)
Abbreviation lenZ l := (Z.of_nat (length l)).

(** A byte is an integer in [0, 255]. *)
Definition is_byte (b : Z) : Prop := 0 <= b <= 255.
#[global] Instance is_byte_dec b : Decision (is_byte b).
Proof. unfold is_byte. apply _. Defined.

(** Facts about single bytes by exhaustive evaluation. *)
Lemma byte_cases (P : Z -> bool) :
  forallb P (seqZ 0 256) = true -> forall b, is_byte b -> P b = true.
Proof.
  intros HP b Hb. eapply forallb_forall in HP; [done|].
  apply list_elem_of_In, elem_of_seqZ. unfold is_byte in Hb. lia.
Qed.

(** [to_be_bytes] on [n] bytes: floor division makes this the two's complement
    encoding for a negative [z]. *)
Fixpoint to_be (n : nat) (z : Z) : list Z :=
  match n with
  | O => []
  | S n' => (z / 256 ^ Z.of_nat n') mod 256 :: to_be n' z
  end.

(** [from_be_bytes]. *)
Definition from_be (l : list Z) : Z := foldl (fun acc b => acc * 256 + b) 0 l.

Lemma to_be_length n z : length (to_be n z) = n.
Proof. induction n; simpl; congruence. Qed.

Lemma to_be_bytes n z : Forall is_byte (to_be n z).
Proof.
  induction n; simpl; constructor; [|done].
  unfold is_byte. pose proof (Z.mod_pos_bound (z / 256 ^ Z.of_nat n) 256). lia.
Qed.
#[export] Hint Resolve to_be_bytes : gf.

Lemma from_be_app_acc l acc :
  foldl (fun acc b => acc * 256 + b) acc l = acc * 256 ^ lenZ l + from_be l.
Proof.
  unfold from_be. revert acc. induction l as [|b l IH]; intros acc; [simpl; lia|].
  cbn [foldl length]. rewrite IH, (IH (0 * 256 + b)).
  rewrite Nat2Z.inj_succ, Z.pow_succ_r by lia. lia.
Qed.

Lemma from_be_cons b l : from_be (b :: l) = b * 256 ^ lenZ l + from_be l.
Proof. unfold from_be at 1. cbn [foldl]. rewrite from_be_app_acc. f_equal. Qed.

Lemma from_be_bound l : Forall is_byte l -> 0 <= from_be l < 256 ^ lenZ l.
Proof.
  induction 1 as [|b l Hb Hl IH]; [cbv; split; congruence|].
  rewrite from_be_cons. cbn [length]. rewrite Nat2Z.inj_succ, Z.pow_succ_r by lia.
  unfold is_byte in Hb. split; [nia|].
  assert (b * 256 ^ lenZ l <= 255 * 256 ^ lenZ l) by (apply Z.mul_le_mono_nonneg_r; lia).
  lia.
Qed.

Lemma from_to_be n z : from_be (to_be n z) = z mod 256 ^ Z.of_nat n.
Proof.
  induction n as [|n IH]; [simpl; by rewrite Z.mod_1_r|].
  cbn [to_be]. rewrite from_be_cons, to_be_length, IH.
  rewrite Nat2Z.inj_succ, Z.pow_succ_r, (Z.mul_comm 256) by lia.
  rewrite (Z.rem_mul_r z (256 ^ Z.of_nat n) 256) by lia. lia.
Qed.

(** An unsigned value that fits its width survives the round trip. *)
Lemma from_to_be_id n z : 0 <= z < 256 ^ Z.of_nat n -> from_be (to_be n z) = z.
Proof. intros. rewrite from_to_be. by apply Z.mod_small. Qed.

Lemma from_be_inj l1 l2 :
  Forall is_byte l1 -> Forall is_byte l2 -> length l1 = length l2 ->
  from_be l1 = from_be l2 -> l1 = l2.
Proof.
  intros H1. revert l2. induction H1 as [|b1 l1 Hb1 H1 IH]; intros [|b2 l2] H2 Hlen;
    try done. simpl in Hlen. injection Hlen as Hlen. inversion H2 as [|? ? Hb2 H2']; subst.
  rewrite !from_be_cons, Hlen. intros Heq.
  pose proof (from_be_bound l1 H1). pose proof (from_be_bound l2 H2').
  rewrite Hlen in *.
  assert (b1 = b2) as -> by (unfold is_byte in *; nia).
  f_equal. apply IH; [done..|lia].
Qed.

Lemma to_from_be b : Forall is_byte b -> to_be (length b) (from_be b) = b.
Proof.
  intros Hb. apply from_be_inj; [apply to_be_bytes|done|apply to_be_length|].
  apply from_to_be_id. by apply from_be_bound.
Qed.

Lemma to_be_inj n z1 z2 :
  to_be n z1 = to_be n z2 -> z1 mod 256 ^ Z.of_nat n = z2 mod 256 ^ Z.of_nat n.
Proof. intros H. rewrite <-!from_to_be. by rewrite H. Qed.

Lemma to_be_inj_unsigned n z1 z2 :
  0 <= z1 < 256 ^ Z.of_nat n -> 0 <= z2 < 256 ^ Z.of_nat n ->
  to_be n z1 = to_be n z2 -> z1 = z2.
Proof. intros H1 H2 H. rewrite <-(from_to_be_id n z1), H by done. by apply from_to_be_id. Qed.

Lemma to_be_inj_signed z1 z2 : in_i64 z1 -> in_i64 z2 -> to_be 8 z1 = to_be 8 z2 -> z1 = z2.
Proof.
  unfold in_i64, i64_min, i64_max. intros H1 H2 H%to_be_inj.
  change (256 ^ Z.of_nat 8) with (2 ^ 64) in H.
  pose proof (Z.div_mod z1 (2 ^ 64)). pose proof (Z.div_mod z2 (2 ^ 64)). lia.
Qed.

#[global] Arguments to_be : simpl never.
#[global] Arguments from_be : simpl never.

(** Equal concatenations whose heads have the same length split. *)
Lemma app_inj_length {A} (l1 l2 k1 k2 : list A) :
  length l1 = length l2 -> l1 ++ k1 = l2 ++ k2 -> l1 = l2 /\ k1 = k2.
Proof. intros Hl H. by apply app_inj_1 in H. Qed.

(** ** Strings as UTF-8 byte sequences *)

(** The bytes of a Rust [&str] literal (every literal of the source is ASCII). *)
Definition bytes_of (s : string) : list Z :=
  (fun c => Z.of_N (Ascii.N_of_ascii c)) <$> String.list_ascii_of_string s.

Lemma bytes_of_bytes s : Forall is_byte (bytes_of s).
Proof.
  unfold bytes_of. apply Forall_fmap, Forall_true. intros c. unfold compose, is_byte.
  pose proof (Ascii.N_ascii_bounded c). lia.
Qed.

Lemma bytes_of_inj s1 s2 : bytes_of s1 = bytes_of s2 -> s1 = s2.
Proof.
  unfold bytes_of. intros H.
  rewrite <-(String.string_of_list_ascii_of_string s1),
    <-(String.string_of_list_ascii_of_string s2). f_equal.
  revert H. apply list_fmap_eq_inj. intros c1 c2 Hc.
  rewrite <-(Ascii.ascii_N_embedding c1), <-(Ascii.ascii_N_embedding c2).
  f_equal. lia.
Qed.
#[export] Hint Resolve bytes_of_bytes : gf.

(** ** Lists *)

Lemma filter_ext_in {A} (P Q : A -> Prop) `{!forall x, Decision (P x), !forall x, Decision (Q x)} (l : list A) :
  (forall x, x ∈ l -> P x <-> Q x) -> filter P l = filter Q l.
Proof.
  induction l as [|x l IH]; intros HPQ; [done|]. rewrite !filter_cons.
  assert (P x <-> Q x) by (apply HPQ; by left).
  rewrite IH by (intros; apply HPQ; by right). do 2 case_decide; tauto.
Qed.

Lemma StronglySorted_lookup {A} (R : relation A) (l : list A) i j x y :
  StronglySorted R l -> (i < j)%nat -> l !! i = Some x -> l !! j = Some y -> R x y.
Proof.
  intros Hs. revert i j. induction Hs as [|z l Hs IH Hz]; intros i j Hij Hi Hj; [done|].
  destruct j as [|j]; [lia|]. destruct i as [|i]; simpl in *; simplify_eq.
  - rewrite Forall_lookup in Hz. eauto.
  - eapply IH; [|done..]. lia.
Qed.

Lemma StronglySorted_filter {A} (R : relation A) (P : A -> Prop) `{!forall x, Decision (P x)} (l : list A) :
  StronglySorted R l -> StronglySorted R (filter P l).
Proof.
  induction 1 as [|x l Hs IH Hx]; [constructor|]. rewrite filter_cons. case_decide; [|done].
  constructor; [done|]. apply Forall_forall. intros y [_ Hy]%list_elem_of_filter. rewrite Forall_forall in Hx. auto.
Qed.

Lemma filter_none {A} (P : A -> Prop) `{!forall x, Decision (P x)} (l : list A) :
  (forall x, x ∈ l -> ~ P x) -> filter P l = [].
Proof.
  induction l as [|x l IH]; intros HP; [done|]. rewrite filter_cons_False by (apply HP; by left).
  apply IH. intros y Hy. apply HP. by right.
Qed.

(** Equivalent relations have the same transitive closure. *)
Lemma tc_iff {A} (R S : relation A) x y : (forall a b, R a b <-> S a b) -> tc R x y -> tc S x y.
Proof.
  intros HRS Ht. induction Ht as [a b Hab|a b c Hab _ IH]; apply HRS in Hab.
  - by apply tc_once.
  - by eapply tc_l.
Qed.
