(* ===== verification/Uuid.v ===== *)
(** * UUIDs: the interface of the [uuid] crate and the derivations of
    [crates/graphforge-core/src/uuid.rs].

    The [uuid] crate is third-party code, so it is a class: the operations the
    sources call and the laws its documentation gives (a UUID is 16 bytes, [Uuid]
    is [Eq], [Hash] and [Ord]).  [Uuid128] is a concrete instance, used by the
    witnesses of the whole development. *)

From stdpp Require Import base list gmap strings pretty.
From Stdlib Require Import ZArith Lia.
From S2P Require Import Prelude.

(** What the sources use of the [uuid] crate. *)
Class UuidCrate (U : Type) := {
  uuid_eq_dec :: EqDecision U;
  uuid_countable :: Countable U;
  uuid_ord :: Ord U;
  (** [Uuid::as_bytes], [Uuid::from_bytes] *)
  as_bytes : U -> list Z;
  from_bytes : list Z -> U;
  (** [Uuid::is_nil] *)
  is_nil : U -> bool;
  (** [get_version() == Some(Version::SortRand)] *)
  is_sort_rand : U -> bool;
  (** [Uuid::new_v5] and [Uuid::NAMESPACE_URL] *)
  uuid_new_v5 : U -> list Z -> U;
  NAMESPACE_URL : U;
  as_bytes_length : forall u, length (as_bytes u) = 16%nat;
  as_bytes_bytes : forall u, Forall is_byte (as_bytes u);
  as_from_bytes : forall b, length b = 16%nat -> Forall is_byte b -> as_bytes (from_bytes b) = b;
  from_as_bytes : forall u, from_bytes (as_bytes u) = u;
}.

Lemma as_bytes_inj `{UuidCrate U} (u v : U) : as_bytes u = as_bytes v -> u = v.
Proof. intros Huv. rewrite <-(from_as_bytes u), <-(from_as_bytes v). by f_equal. Qed.
#[export] Hint Resolve as_bytes_length as_bytes_bytes as_bytes_inj : gf.

(** ** Deterministic derivations *)

Section derivations.
Context {U : Type} `{!UuidCrate U}.

Definition PROVENANCE_NAMESPACE : U :=
  from_bytes [159; 108; 42; 30; 123; 66; 77; 136; 163; 16; 94; 12; 145; 51; 119; 210].

Definition new_v5 (namespace : U) (name : list Z) : U := uuid_new_v5 namespace name.

Definition portable_import_generation (operation : U) : U :=
  new_v5 operation (bytes_of "graphforge-portable-import-generation/1").

Definition portable_bootstrap_generation (operation : U) : U :=
  new_v5 operation (bytes_of "graphforge-portable-bootstrap-generation/1").

Definition portable_bootstrap_transaction (operation : U) : U :=
  new_v5 operation (bytes_of "graphforge-portable-bootstrap-transaction/1").

(** [format!("{index}")] is the decimal rendering. *)
Definition composite_delta_operation (operation : U) (index : N) : U :=
  new_v5 operation (bytes_of ("graphforge-composite-delta-operation/1/" +:+ pretty index)).

Definition composite_delta_run (transaction : U) : U :=
  new_v5 transaction (bytes_of "graphforge-composite-delta-run/1").

Definition hub_clone_operation (repository immutable_version : list Z) : U :=
  new_v5 NAMESPACE_URL (repository ++ bytes_of ":" ++ immutable_version).

Definition hub_research_clone_operation
    (repository immutable_version version_uuid identity_digest : list Z) : U :=
  new_v5 (hub_clone_operation repository immutable_version)
    (bytes_of "graphforge-hub-research-clone/1/" ++ version_uuid ++ bytes_of "/"
      ++ identity_digest).

Definition hub_publish_operation
    (repository : list Z) (git_ref : option (list Z)) (version_uuid project_content : list Z) : U :=
  new_v5 NAMESPACE_URL
    (bytes_of "graphforge-hub-publish/1" ++ [0] ++ repository ++ [0] ++ default [] git_ref
      ++ [0] ++ version_uuid ++ [0] ++ project_content).

Definition to_bytes (u : U) : list Z := as_bytes u.
End derivations.

(** Splitting at the first separator is unambiguous when the left part is free of it. *)
Lemma sep_inj (sep : Z) (a b a' b' : list Z) :
  sep ∉ a -> sep ∉ a' -> a ++ [sep] ++ b = a' ++ [sep] ++ b' -> a = a' /\ b = b'.
Proof.
  revert a'. induction a as [|x a IH]; intros [|y a'] Ha Ha' Heq; simpl in *.
  - by injection Heq as Heq.
  - injection Heq as -> _. exfalso. apply Ha'. by left.
  - injection Heq as -> _. exfalso. apply Ha. by left.
  - injection Heq as -> Heq. apply IH in Heq as [-> ->]; [done|rewrite not_elem_of_cons in *; tauto..].
Qed.

(** A collision of the external name-based derivation, at named inputs. *)
Definition v5_collision `{UuidCrate U} (ns1 : U) (n1 : list Z) (ns2 : U) (n2 : list Z) : Prop :=
  (ns1, n1) <> (ns2, n2) /\ uuid_new_v5 ns1 n1 = uuid_new_v5 ns2 n2.

Section unambiguous.
Context {U : Type} `{!UuidCrate U}.
Implicit Types r g v c : list Z.

Definition publish_name r g v c : list Z :=
  bytes_of "graphforge-hub-publish/1" ++ [0] ++ r ++ [0] ++ g ++ [0] ++ v ++ [0] ++ c.

Lemma publish_name_inj r g v c r' g' v' c' :
  0 ∉ r -> 0 ∉ r' -> 0 ∉ g -> 0 ∉ g' -> 0 ∉ v -> 0 ∉ v' ->
  publish_name r g v c = publish_name r' g' v' c' ->
  r = r' /\ g = g' /\ v = v' /\ c = c'.
Proof.
  intros Hr Hr' Hg Hg' Hv Hv' Heq. unfold publish_name in Heq.
  apply app_inj_length in Heq as [_ Heq]; [|done].
  apply app_inj_length in Heq as [_ Heq]; [|done].
  apply sep_inj in Heq as [-> Heq]; [|done..].
  apply sep_inj in Heq as [-> Heq]; [|done..].
  by apply sep_inj in Heq as [-> ->].
Qed.

(** Two publish operations agree only when they name the same repository, ref,
    version and project state, or when the external derivation itself collides
    on the two names.  An absent ref and an empty ref name the same operation. *)
Theorem hub_publish_operation_unambiguous r (g : option (list Z)) v c r' (g' : option (list Z)) v' c' :
  0 ∉ r -> 0 ∉ r' -> 0 ∉ default [] g -> 0 ∉ default [] g' -> 0 ∉ v -> 0 ∉ v' ->
  hub_publish_operation r g v c = hub_publish_operation (U := U) r' g' v' c' ->
  (r = r' /\ default [] g = default [] g' /\ v = v' /\ c = c') \/
  v5_collision (U := U) NAMESPACE_URL (publish_name r (default [] g) v c)
    NAMESPACE_URL (publish_name r' (default [] g') v' c').
Proof.
  intros Hr Hr' Hg Hg' Hv Hv' Heq.
  destruct (decide (publish_name r (default [] g) v c = publish_name r' (default [] g') v' c'))
    as [Hn|Hn].
  - left. by apply publish_name_inj.
  - right. split; [congruence|]. exact Heq.
Qed.
End unambiguous.

(** ** A concrete instance *)

(** A 128-bit unsigned integer, read big-endian. *)
Record Uuid128 := mk128 { uval : Z; uval_ok : (0 <=? uval) && (uval <? 2 ^ 128) = true }.

#[global] Instance uuid128_eq_dec : EqDecision Uuid128.
Proof.
  intros [x Hx] [y Hy]. destruct (decide (x = y)) as [->|N].
  - left. f_equal. apply Eqdep_dec.UIP_dec, Bool.bool_dec.
  - right. congruence.
Defined.

Lemma uval_inj (u v : Uuid128) : uval u = uval v -> u = v.
Proof.
  destruct u as [x Hx], v as [y Hy]; simpl. intros ->. f_equal.
  apply Eqdep_dec.UIP_dec, Bool.bool_dec.
Qed.

Lemma wrap128_ok z : (0 <=? z mod 2 ^ 128) && (z mod 2 ^ 128 <? 2 ^ 128) = true.
Proof. pose proof (Z.mod_pos_bound z (2 ^ 128)). lia. Qed.

Definition of_Z128 (z : Z) : Uuid128 := mk128 (z mod 2 ^ 128) (wrap128_ok z).

Lemma of_Z128_uval u : of_Z128 (uval u) = u.
Proof.
  apply uval_inj. destruct u as [x Hx]; simpl. apply Z.mod_small. lia.
Qed.

#[global] Instance uuid128_countable : Countable Uuid128 :=
  inj_countable' uval of_Z128 of_Z128_uval.

#[global] Instance uuid128_ord : Ord Uuid128.
Proof.
  refine {| ord_le := fun u v => uval u <= uval v |}.
  - intros u v. cbn. apply _.
  - cbn; lia.
  - cbn; lia.
  - cbn; intros. apply uval_inj. lia.
  - cbn; lia.
Defined.

#[global] Instance uuid128_crate : UuidCrate Uuid128.
Proof.
  refine {|
    as_bytes := fun u => to_be 16 (uval u);
    from_bytes := fun b => of_Z128 (from_be b);
    is_nil := fun u => uval u =? 0;
    is_sort_rand := fun u => (uval u / 2 ^ 76) mod 16 =? 7;
    uuid_new_v5 := fun ns name => of_Z128 (uval ns * 31 + from_be name);
    NAMESPACE_URL := of_Z128 0x6ba7b8119dad11d180b400c04fd430c8;
  |}.
  - intros u. apply to_be_length.
  - intros u. apply to_be_bytes.
  - intros b Hl Hb. pose proof (from_be_bound b Hb) as Hbd. rewrite Hl in Hbd.
    apply from_be_inj; [apply to_be_bytes|done|by rewrite to_be_length|].
    rewrite from_to_be. cbn [uval of_Z128].
    change (256 ^ Z.of_nat 16) with (2 ^ 128) in *. rewrite Z.mod_mod by lia.
    by apply Z.mod_small.
  - intros u. rewrite from_to_be. apply uval_inj. cbn [uval of_Z128].
    change (256 ^ Z.of_nat 16) with (2 ^ 128). rewrite Z.mod_mod by lia.
    destruct u as [x Hx]; simpl. apply Z.mod_small. lia.
Defined.

(** A version-7 identifier with the given low bits. *)
Definition uuid7 (seed : Z) : Uuid128 := of_Z128 (7 * 2 ^ 76 + 2 ^ 63 + seed).

Lemma hub_publish_operation_unambiguous_witness :
  let op := hub_publish_operation (U := Uuid128) [97] (Some [109]) [49] [102] in
  op = op /\
  (([97] = [97] /\ [109] = [109] /\ [49] = [49] /\ [102] = [102]) \/
   v5_collision (U := Uuid128) NAMESPACE_URL (publish_name [97] [109] [49] [102])
     NAMESPACE_URL (publish_name [97] [109] [49] [102])).
Proof.
  intros op. split; [done|].
  apply (hub_publish_operation_unambiguous (U := Uuid128) [97] (Some [109]) [49] [102]
    [97] (Some [109]) [49] [102]); [simpl; rewrite list_elem_of_singleton; lia..|reflexivity].
Defined.
