(* ===== verification/Text.v ===== *)
(** * Text: Rust strings as the knowledge rows use them.

    A [str] is the list of its scalar values; [utf8] is its byte representation, which
    [len] and the canonical writer see.  [trim] removes the characters with the Unicode
    [White_Space] property from both ends. *)

From stdpp Require Import base list.
From Stdlib Require Import ZArith Lia.
From S2P Require Import Prelude.

Abbreviation str := (list Z).

(** A Unicode scalar value: what a Rust [char] can be. *)
Definition is_scalar (c : Z) : Prop := 0 <= c <= 0x10FFFF /\ ~ (0xD800 <= c <= 0xDFFF).

(** [char::encode_utf8] *)
Definition utf8_char (c : Z) : list Z :=
  if c <? 0x80 then [c]
  else if c <? 0x800 then [0xC0 + c / 64; 0x80 + c mod 64]
  else if c <? 0x10000 then [0xE0 + c / 4096; 0x80 + c / 64 mod 64; 0x80 + c mod 64]
  else [0xF0 + c / 262144; 0x80 + c / 4096 mod 64; 0x80 + c / 64 mod 64; 0x80 + c mod 64].

Definition utf8 (s : str) : list Z := s ≫= utf8_char.

(** [str::len]: bytes, not characters. *)
Definition str_len (s : str) : Z := lenZ (utf8 s).

(** [char::is_whitespace] *)
Definition is_whitespace (c : Z) : bool :=
  ((0x09 <=? c) && (c <=? 0x0D)) || (c =? 0x20) || (c =? 0x85) || (c =? 0xA0) || (c =? 0x1680) ||
  ((0x2000 <=? c) && (c <=? 0x200A)) || (c =? 0x2028) || (c =? 0x2029) || (c =? 0x202F) ||
  (c =? 0x205F) || (c =? 0x3000).

Fixpoint trim_start (s : str) : str :=
  match s with
  | [] => []
  | c :: s' => if is_whitespace c then trim_start s' else s
  end.

(** [str::trim] *)
Definition trim (s : str) : str := reverse (trim_start (reverse (trim_start s))).

#[local] Ltac Zify.zify_post_hook ::= Z.to_euclidean_division_equations.

(** The encodings of two characters never overlap. *)
Lemma utf8_char_app_inj c1 c2 k1 k2 :
  is_scalar c1 -> is_scalar c2 -> utf8_char c1 ++ k1 = utf8_char c2 ++ k2 -> c1 = c2 /\ k1 = k2.
Proof.
  unfold is_scalar, utf8_char. intros H1 H2 H.
  destruct (Z.ltb_spec c1 0x80), (Z.ltb_spec c2 0x80);
    try (destruct (Z.ltb_spec c1 0x800)); try (destruct (Z.ltb_spec c2 0x800));
    try (destruct (Z.ltb_spec c1 0x10000)); try (destruct (Z.ltb_spec c2 0x10000));
    cbn [app] in H; simplify_eq; try (split; [lia|done]); exfalso; lia.
Qed.

Lemma utf8_char_nonempty c : utf8_char c <> [].
Proof. unfold utf8_char. by repeat case_match. Qed.

(** The byte representation determines the string. *)
Lemma utf8_inj s1 s2 :
  Forall is_scalar s1 -> Forall is_scalar s2 -> utf8 s1 = utf8 s2 -> s1 = s2.
Proof.
  intros H1. revert s2. induction H1 as [|c1 s1 Hc1 _ IH]; intros s2 H2 Heq.
  - destruct H2 as [|c2 s2]; [done|]. unfold utf8 in Heq. rewrite bind_cons in Heq.
    symmetry in Heq. apply app_eq_nil in Heq as [Heq _]. by apply utf8_char_nonempty in Heq.
  - unfold utf8 in Heq. rewrite bind_cons in Heq. destruct H2 as [|c2 s2 Hc2 H2].
    + apply app_eq_nil in Heq as [Heq _]. by apply utf8_char_nonempty in Heq.
    + rewrite bind_cons in Heq. apply utf8_char_app_inj in Heq as [-> Heq]; [|done..].
      f_equal. by apply IH.
Qed.
