(* ===== verification/Canonical.v ===== *)
(** * [graphforge-canonical/1]: [crates/graphforge-core/src/canonical.rs].

    The bounded byte writer and the strict reader of the canonical grammar, the
    closed fingerprint domains, the domain-separated preimage and the UUIDv8
    projection.  SHA-256 is third-party code: a section variable. *)

From stdpp Require Import base list strings.
From Stdlib Require Import ZArith Lia.
From S2P Require Import Prelude Uuid.

Definition CANONICAL_CONTRACT_VERSION : Z := 1.
Definition MAX_CANONICAL_PAYLOAD_BYTES : Z := 2147483648.
Definition MAX_CANONICAL_TEXT_BYTES : Z := 16777216.
Definition MAX_CANONICAL_BINARY_BYTES : Z := 67108864.

(** ** Fingerprint domains *)

Module Domain.
Inductive CanonicalDomain :=
| Schema | Assertion | EvidenceLink | ConfidenceAssessment | Reasoning
| AssertionStatus | AssertionValidity | AssertionSupersession
| HypothesisGroup | HypothesisMembership | HypothesisSelection
| CompositeGraphMutationContent | CompositeRequest | ProvenanceEvent | Lineage
| InvocationDescriptor | GraphProjection | BeliefProjectionPolicy
| BeliefProjectionAttachment | ArrowResult | ResearchSource | ResearchArtifact
| ArtifactDerivation | ArtifactPreference | RetentionDependency | ResearchClaim
| ResearchClaimRelation | ResearchDecision | ResearchClaimSuppression.

Definition as_str (d : CanonicalDomain) : string :=
  match d with
  | Schema => "graphforge/schema"
  | Assertion => "graphforge/assertion"
  | EvidenceLink => "graphforge/evidence-link"
  | ConfidenceAssessment => "graphforge/confidence-assessment"
  | Reasoning => "graphforge/reasoning"
  | AssertionStatus => "graphforge/assertion-status"
  | AssertionValidity => "graphforge/assertion-validity"
  | AssertionSupersession => "graphforge/assertion-supersession"
  | HypothesisGroup => "graphforge/hypothesis-group"
  | HypothesisMembership => "graphforge/hypothesis-membership"
  | HypothesisSelection => "graphforge/hypothesis-selection"
  | CompositeGraphMutationContent => "graphforge/composite-graph-mutation-content"
  | CompositeRequest => "graphforge/composite-request"
  | ProvenanceEvent => "graphforge/provenance-event"
  | Lineage => "graphforge/lineage"
  | InvocationDescriptor => "graphforge/invocation-descriptor"
  | GraphProjection => "graphforge/graph-projection"
  | BeliefProjectionPolicy => "graphforge/belief-projection-policy"
  | BeliefProjectionAttachment => "graphforge/belief-projection-attachment"
  | ArrowResult => "graphforge/arrow-result"
  | ResearchSource => "graphforge/research-source"
  | ResearchArtifact => "graphforge/research-artifact"
  | ArtifactDerivation => "graphforge/artifact-derivation"
  | ArtifactPreference => "graphforge/artifact-preference"
  | RetentionDependency => "graphforge/retention-dependency"
  | ResearchClaim => "graphforge/research-claim"
  | ResearchClaimRelation => "graphforge/research-claim-relation"
  | ResearchDecision => "graphforge/research-decision"
  | ResearchClaimSuppression => "graphforge/research-claim-suppression"
  end.

#[global] Instance domain_eq_dec : EqDecision CanonicalDomain.
Proof. solve_decision. Defined.

Lemma as_str_inj d1 d2 : as_str d1 = as_str d2 -> d1 = d2.
Proof. destruct d1, d2; try done; discriminate. Qed.

(** Every tag fits the [u16] length prefix ([expect] never panics). *)
Lemma as_str_short d : 0 < lenZ (bytes_of (as_str d)) <= 64.
Proof. destruct d; cbv; split; congruence. Qed.
End Domain.
Abbreviation CanonicalDomain := Domain.CanonicalDomain.

(** ** Errors *)

Module CErr.
Inductive CanonicalError :=
| Limit (item : string) (observed limit : Z)
| UnsupportedVersion (version : Z)
| Malformed (message : string).

Definition code (e : CanonicalError) : string :=
  match e with
  | Limit _ _ _ => "GF_CANONICAL_LIMIT"
  | UnsupportedVersion _ => "GF_UNSUPPORTED_CONTRACT_VERSION"
  | Malformed _ => "GF_CANONICAL_INVALID"
  end.
End CErr.
Abbreviation CanonicalError := CErr.CanonicalError.

(** ** [std::str::from_utf8]: the well-formed byte sequences of Unicode *)

Definition cont (b : Z) : bool := (0x80 <=? b) && (b <=? 0xBF).

Fixpoint utf8_valid (l : list Z) : bool :=
  match l with
  | [] => true
  | b0 :: t =>
      if b0 <? 0x80 then utf8_valid t
      else if (0xC2 <=? b0) && (b0 <=? 0xDF) then
        match t with
        | b1 :: t' => cont b1 && utf8_valid t'
        | _ => false
        end
      else if (0xE0 <=? b0) && (b0 <=? 0xEF) then
        match t with
        | b1 :: b2 :: t' =>
            (if b0 =? 0xE0 then (0xA0 <=? b1) && (b1 <=? 0xBF)
             else if b0 =? 0xED then (0x80 <=? b1) && (b1 <=? 0x9F)
             else cont b1) && cont b2 && utf8_valid t'
        | _ => false
        end
      else if (0xF0 <=? b0) && (b0 <=? 0xF4) then
        match t with
        | b1 :: b2 :: b3 :: t' =>
            (if b0 =? 0xF0 then (0x90 <=? b1) && (b1 <=? 0xBF)
             else if b0 =? 0xF4 then (0x80 <=? b1) && (b1 <=? 0x8F)
             else cont b1) && cont b2 && cont b3 && utf8_valid t'
        | _ => false
        end
      else false
  end.

(** ** The reader *)

Record CanonicalReader := mkReader { rbytes : list Z; offset : Z }.

(** [slice::get(a..b)]. *)
Definition slice_get (l : list Z) (a b : Z) : option (list Z) :=
  if (a <=? b) && (b <=? lenZ l)
  then Some (take (Z.to_nat (b - a)) (drop (Z.to_nat a) l)) else None.

Abbreviation R := (SE CanonicalError CanonicalReader).

Definition reader_new (bytes : list Z) : result CanonicalError CanonicalReader :=
  let observed := lenZ bytes in
  if MAX_CANONICAL_PAYLOAD_BYTES <? observed
  then Err (CErr.Limit "payload" observed MAX_CANONICAL_PAYLOAD_BYTES)
  else Ok (mkReader bytes 0).

Definition reader_raw (length : Z) : R (list Z) := fun self =>
  match checked_add (offset self) length with
  | None => (Err (CErr.Malformed "byte range overflow"), self)
  | Some end_ =>
      match slice_get (rbytes self) (offset self) end_ with
      | None => (Err (CErr.Malformed "truncated payload"), self)
      | Some value => (Ok value, mkReader (rbytes self) end_)
      end
  end.

Definition reader_u8 : R Z := b ← reader_raw 1; mret (hd 0 b).
Definition reader_u32 : R Z := b ← reader_raw 4; mret (from_be b).
Definition reader_u64 : R Z := b ← reader_raw 8; mret (from_be b).

Definition throw {E S A} (e : E) : SE E S A := fun s => (Err e, s).

Definition reader_text : R (list Z) :=
  length ← reader_u64;
  if MAX_CANONICAL_TEXT_BYTES <? length
  then throw (CErr.Limit "text" length MAX_CANONICAL_TEXT_BYTES)
  else
    value ← reader_raw length;
    if utf8_valid value then mret value
    else throw (CErr.Malformed "text is not valid UTF-8").

Definition reader_finish (self : CanonicalReader) : result CanonicalError unit :=
  if offset self =? lenZ (rbytes self) then Ok tt
  else Err (CErr.Malformed "trailing bytes").

(** ** The writer *)

Record CanonicalWriter := mkWriter { wbytes : list Z }.

Abbreviation W := (SE CanonicalError CanonicalWriter unit).

Definition writer_new : CanonicalWriter := mkWriter [].

Definition writer_raw (bytes : list Z) : W := fun self =>
  match checked_add (lenZ (wbytes self)) (lenZ bytes) with
  | None => (Err (CErr.Limit "payload" u64_max MAX_CANONICAL_PAYLOAD_BYTES), self)
  | Some next =>
      if MAX_CANONICAL_PAYLOAD_BYTES <? next
      then (Err (CErr.Limit "payload" next MAX_CANONICAL_PAYLOAD_BYTES), self)
      else (Ok tt, mkWriter (wbytes self ++ bytes))
  end.

Definition writer_u8 (value : Z) : W := writer_raw [value].
Definition writer_u16 (value : Z) : W := writer_raw (to_be 2 value).
Definition writer_u32 (value : Z) : W := writer_raw (to_be 4 value).
Definition writer_u64 (value : Z) : W := writer_raw (to_be 8 value).
Definition writer_i64 (value : Z) : W := writer_raw (to_be 8 value).

Definition writer_binary (value : list Z) : W :=
  let length := lenZ value in
  if MAX_CANONICAL_BINARY_BYTES <? length
  then throw (CErr.Limit "binary" length MAX_CANONICAL_BINARY_BYTES)
  else writer_u64 length ;; writer_raw value.

(** [value] holds the UTF-8 bytes of the [&str]. *)
Definition writer_text (value : list Z) : W :=
  let length := lenZ value in
  if MAX_CANONICAL_TEXT_BYTES <? length
  then throw (CErr.Limit "text" length MAX_CANONICAL_TEXT_BYTES)
  else writer_u64 length ;; writer_raw value.

Definition writer_finish (self : CanonicalWriter) : list Z := wbytes self.

(** ** Fingerprints *)

Definition fingerprint_preimage (domain : CanonicalDomain) (contract_version : Z)
    (payload : list Z) : result CanonicalError (list Z) :=
  if negb (contract_version =? CANONICAL_CONTRACT_VERSION)
  then Err (CErr.UnsupportedVersion contract_version)
  else
    let payload_length := lenZ payload in
    if MAX_CANONICAL_PAYLOAD_BYTES <? payload_length
    then Err (CErr.Limit "payload" payload_length MAX_CANONICAL_PAYLOAD_BYTES)
    else
      let domain_bytes := bytes_of (Domain.as_str domain) in
      writer_finish <$> exec
        (writer_raw (bytes_of "GFFP") ;;
         writer_u8 1 ;;
         writer_u16 (lenZ domain_bytes) ;;
         writer_raw domain_bytes ;;
         writer_u32 contract_version ;;
         writer_u64 payload_length ;;
         writer_raw payload) writer_new.

Section fingerprint.
(** SHA-256 of the [sha2] crate. *)
Variable sha256 : list Z -> list Z.

Definition fingerprint (domain : CanonicalDomain) (contract_version : Z)
    (payload : list Z) : result CanonicalError (list Z) :=
  sha256 <$> fingerprint_preimage domain contract_version payload.
End fingerprint.

(** [bytes[i] = f(bytes[i])] on the first 16 bytes of a fingerprint. *)
Definition uuid_v8 `{UuidCrate U} (fingerprint : list Z) : U :=
  let bytes := take 16 fingerprint in
  let bytes := alter (fun b => Z.lor (Z.land b 0x0f) 0x80) 6%nat bytes in
  let bytes := alter (fun b => Z.lor (Z.land b 0x3f) 0x80) 8%nat bytes in
  from_bytes bytes.

(** ** What a writer method appends *)

(** The bound every writer keeps. *)
Definition writer_wf (w : CanonicalWriter) : Prop :=
  lenZ (wbytes w) <= MAX_CANONICAL_PAYLOAD_BYTES.

(** [m] succeeds exactly when [b] still fits the payload bound, and then appends [b]. *)
Definition writes (m : W) (b : list Z) : Prop :=
  forall w w', writer_wf w ->
    m w = (Ok tt, w') <->
    lenZ (wbytes w) + lenZ b <= MAX_CANONICAL_PAYLOAD_BYTES /\ w' = mkWriter (wbytes w ++ b).

Create HintDb writes.

Lemma writes_raw b : writes (writer_raw b) b.
Proof.
  intros w w' _. unfold writer_raw, checked_add, usize_max, u64_max, MAX_CANONICAL_PAYLOAD_BYTES.
  destruct (_ <=? _) eqn:E1; [destruct (_ <? _) eqn:E2|]; split; try congruence;
    intros; destruct_and?; subst; try (exfalso; lia).
  - split; [lia|congruence].
  - done.
Qed.

Lemma writes_nil : writes (mret tt) [].
Proof.
  intros [wb] w' Hwf. unfold writer_wf, mret, se_ret in *. simpl in *. rewrite app_nil_r.
  split; [intros [= <-]; split; [lia|done]|intros [_ ->]; done].
Qed.

Lemma writes_seq m1 m2 b1 b2 :
  writes m1 b1 -> writes m2 b2 -> writes (m1 ;; m2) (b1 ++ b2).
Proof.
  intros H1 H2 w w' Hwf. rewrite se_bind_Ok, length_app. split.
  - intros ([]&w1&Hm1&Hm2). apply H1 in Hm1 as [? ->]; [|done].
    apply H2 in Hm2 as [Hfit ->]; [|unfold writer_wf; simpl; rewrite length_app; lia].
    simpl in *. rewrite length_app in Hfit. split; [lia|by rewrite app_assoc].
  - intros [Hfit ->]. exists tt, (mkWriter (wbytes w ++ b1)). split.
    + apply H1; [done|]. split; [lia|done].
    + apply H2; unfold writer_wf; simpl; rewrite length_app; [lia|].
      split; [lia|by rewrite app_assoc].
Qed.

Lemma writes_text v :
  lenZ v <= MAX_CANONICAL_TEXT_BYTES -> writes (writer_text v) (to_be 8 (lenZ v) ++ v).
Proof.
  intros Hv. unfold writer_text. rewrite (proj2 (Z.ltb_ge _ _)) by done.
  apply writes_seq; apply writes_raw.
Qed.

Lemma writes_u8 z : writes (writer_u8 z) [z].
Proof. apply writes_raw. Qed.
Lemma writes_u16 z : writes (writer_u16 z) (to_be 2 z).
Proof. apply writes_raw. Qed.
Lemma writes_u32 z : writes (writer_u32 z) (to_be 4 z).
Proof. apply writes_raw. Qed.
Lemma writes_u64 z : writes (writer_u64 z) (to_be 8 z).
Proof. apply writes_raw. Qed.
Lemma writes_i64 z : writes (writer_i64 z) (to_be 8 z).
Proof. apply writes_raw. Qed.
#[export] Hint Resolve writes_raw writes_nil writes_seq writes_text writes_u8 writes_u16 writes_u32
  writes_u64 writes_i64 : writes.

(** A text the writer accepted is within its bound. *)
Lemma writer_text_Ok v w w' :
  writer_text v w = (Ok tt, w') -> lenZ v <= MAX_CANONICAL_TEXT_BYTES.
Proof. unfold writer_text, throw. destruct (_ <? _) eqn:E; [done|]. lia. Qed.

Lemma exec_writes m b :
  writes m b -> lenZ b <= MAX_CANONICAL_PAYLOAD_BYTES ->
  exec m writer_new = Ok (mkWriter b).
Proof. intros Hm Hb. apply exec_Ok, Hm; [done|]. simpl. split; [lia|done]. Qed.

Lemma exec_writes_inv m b w :
  writes m b -> exec m writer_new = Ok w ->
  lenZ b <= MAX_CANONICAL_PAYLOAD_BYTES /\ wbytes w = b.
Proof. intros Hm Hw%exec_Ok. apply Hm in Hw as [Hb ->]; [|done]. simpl in *. split; [lia|done]. Qed.

(** ** The preimage *)

Definition preimage_bytes (d : CanonicalDomain) (payload : list Z) : list Z :=
  bytes_of "GFFP" ++ [1] ++ to_be 2 (lenZ (bytes_of (Domain.as_str d)))
    ++ bytes_of (Domain.as_str d) ++ to_be 4 CANONICAL_CONTRACT_VERSION
    ++ to_be 8 (lenZ payload) ++ payload.

Lemma fingerprint_preimage_Ok d v p b :
  fingerprint_preimage d v p = Ok b <->
  v = CANONICAL_CONTRACT_VERSION /\ b = preimage_bytes d p /\
  lenZ b <= MAX_CANONICAL_PAYLOAD_BYTES.
Proof.
  assert (Hw : forall v, writes
    (writer_raw (bytes_of "GFFP") ;; writer_u8 1 ;;
     writer_u16 (lenZ (bytes_of (Domain.as_str d))) ;;
     writer_raw (bytes_of (Domain.as_str d)) ;; writer_u32 v ;;
     writer_u64 (lenZ p) ;; writer_raw p)
    (bytes_of "GFFP" ++ [1] ++ to_be 2 (lenZ (bytes_of (Domain.as_str d)))
      ++ bytes_of (Domain.as_str d) ++ to_be 4 v ++ to_be 8 (lenZ p) ++ p))
    by (intros; eauto 10 with writes).
  unfold fingerprint_preimage. split.
  - destruct (v =? _) eqn:Ev; simpl negb; cbv iota; [|done].
    destruct (_ <? _); [done|]. intros (w&Hex&->)%fmap_Ok.
    eapply exec_writes_inv in Hex as [Hlen Hb]; [|apply Hw].
    apply Z.eqb_eq in Ev as ->. unfold writer_finish. rewrite Hb. by split_and!.
  - intros (->&->&Hlen). simpl negb. cbv iota.
    assert (lenZ p <= lenZ (preimage_bytes d p)).
    { unfold preimage_bytes. rewrite !length_app. lia. }
    rewrite (proj2 (Z.ltb_ge _ _)) by lia.
    by rewrite (exec_writes _ _ (Hw _) Hlen).
Qed.

Lemma preimage_bytes_inj d p d' p' :
  preimage_bytes d p = preimage_bytes d' p' -> d = d' /\ p = p'.
Proof.
  unfold preimage_bytes. intros Heq.
  apply app_inj_length in Heq as [_ Heq]; [|done].
  apply app_inj_length in Heq as [_ Heq]; [|done].
  apply app_inj_length in Heq as [Hl Heq]; [|by rewrite !to_be_length].
  pose proof (Domain.as_str_short d). pose proof (Domain.as_str_short d').
  apply to_be_inj_unsigned in Hl; [|cbn; lia..].
  apply app_inj_length in Heq as [Hd%bytes_of_inj%Domain.as_str_inj Heq]; [|lia].
  apply app_inj_length in Heq as [_ Heq]; [|by rewrite !to_be_length].
  by apply app_inj_length in Heq as [_ Heq]; [|by rewrite !to_be_length].
Qed.

(** A digest over what a writer method appends. *)
Definition write_fingerprint (sha256 : list Z -> list Z) (d : CanonicalDomain) (m : W)
    : result CanonicalError (list Z) :=
  w ← exec m writer_new;
  fingerprint sha256 d CANONICAL_CONTRACT_VERSION (writer_finish w).

Lemma preimage_length d p : lenZ (preimage_bytes d p) <= 128 + lenZ p.
Proof.
  pose proof (Domain.as_str_short d). unfold preimage_bytes.
  rewrite !length_app, !to_be_length. cbn -[Z.of_nat]. lia.
Qed.

(** Short records always have a fingerprint. *)
Lemma write_fingerprint_eq sha256 d m b :
  writes m b -> lenZ b <= 2 ^ 30 ->
  write_fingerprint sha256 d m = Ok (sha256 (preimage_bytes d b)).
Proof.
  intros Hm Hb. unfold write_fingerprint.
  rewrite (exec_writes m b) by (done || unfold MAX_CANONICAL_PAYLOAD_BYTES; lia).
  cbn [mbind result_bind writer_finish wbytes]. unfold fingerprint.
  pose proof (preimage_length d b).
  rewrite (proj2 (fingerprint_preimage_Ok d CANONICAL_CONTRACT_VERSION b (preimage_bytes d b)));
    [done|]. unfold MAX_CANONICAL_PAYLOAD_BYTES. split_and!; try done; lia.
Qed.

(** Equal digests bind the appended bytes, up to a SHA-256 collision. *)
Lemma write_fingerprint_binding sha256 d m1 b1 m2 b2 h :
  writes m1 b1 -> writes m2 b2 ->
  write_fingerprint sha256 d m1 = Ok h -> write_fingerprint sha256 d m2 = Ok h ->
  b1 = b2 \/
  (preimage_bytes d b1 <> preimage_bytes d b2 /\
   sha256 (preimage_bytes d b1) = sha256 (preimage_bytes d b2)).
Proof.
  intros Hm1 Hm2 (w1&Hw1&Hf1)%bind_Ok (w2&Hw2&Hf2)%bind_Ok.
  apply (exec_writes_inv _ _ _ Hm1) in Hw1 as [_ Hb1].
  apply (exec_writes_inv _ _ _ Hm2) in Hw2 as [_ Hb2].
  unfold writer_finish in *. rewrite Hb1 in Hf1. rewrite Hb2 in Hf2.
  apply fmap_Ok in Hf1 as (x&Hx&->). apply fmap_Ok in Hf2 as (y&Hy&Hh).
  apply fingerprint_preimage_Ok in Hx as (_&->&_).
  apply fingerprint_preimage_Ok in Hy as (_&->&_).
  destruct (decide (preimage_bytes d b1 = preimage_bytes d b2)) as [Heq|Hne]; [left|by right].
  by apply preimage_bytes_inj in Heq as [_ ?].
Qed.

(** ** Reading back *)

Definition reader_wf (r : CanonicalReader) : Prop :=
  0 <= offset r <= lenZ (rbytes r) /\ lenZ (rbytes r) <= MAX_CANONICAL_PAYLOAD_BYTES.

(** The bytes not consumed yet. *)
Definition remaining (r : CanonicalReader) : list Z := drop (Z.to_nat (offset r)) (rbytes r).

Lemma remaining_length r : reader_wf r -> lenZ (remaining r) = lenZ (rbytes r) - offset r.
Proof. intros [? ?]. unfold remaining. rewrite length_drop. lia. Qed.

(** One exact read: it succeeds exactly when enough bytes are left. *)
Lemma reader_raw_iff r n b r' :
  reader_wf r -> 0 <= n ->
  reader_raw n r = (Ok b, r') <->
  lenZ b = n /\ remaining r = b ++ remaining r' /\ rbytes r' = rbytes r /\ reader_wf r'.
Proof.
  intros Hwf Hn. pose proof (remaining_length r Hwf) as Hrem. pose proof Hwf as [Ho Hl].
  unfold reader_raw, checked_add, slice_get, usize_max, u64_max, MAX_CANONICAL_PAYLOAD_BYTES in *.
  split.
  - destruct (_ <=? _) eqn:E1; [|done].
    destruct ((offset r <=? offset r + n) && (offset r + n <=? lenZ (rbytes r))) eqn:E2; [|done].
    intros [= <- <-]. unfold reader_wf, remaining, MAX_CANONICAL_PAYLOAD_BYTES in *; simpl.
    split_and!; [|..|lia|lia|done].
    + rewrite length_take. lia.
    + rewrite Z2Nat.inj_add, <-drop_drop by lia.
      replace (Z.to_nat (offset r + n - offset r)) with (Z.to_nat n) by lia.
      by rewrite take_drop.
    + done.
  - intros (Hb&Hsplit&Hrb&Hwf'). pose proof (remaining_length r' Hwf') as Hrem'.
    assert (Hoff : offset r' = offset r + n).
    { apply (f_equal length) in Hsplit. rewrite length_app in Hsplit. rewrite Hrb in Hrem'. lia. }
    destruct Hwf' as [? ?]. rewrite Hrb in *.
    rewrite (proj2 (Z.leb_le _ _)) by (unfold MAX_CANONICAL_PAYLOAD_BYTES in *; lia).
    rewrite (proj2 (andb_true_iff _ _)) by (rewrite !Z.leb_le; lia).
    replace (Z.to_nat (offset r + n - offset r)) with (length b) by lia.
    fold (remaining r). rewrite Hsplit, take_app_length.
    destruct r' as [rb ro]; simpl in *. by subst.
Qed.

(** A sequence of canonical values, as the record schemas are made of. *)
Inductive field := FU8 (z : Z) | FU32 (z : Z) | FU64 (z : Z) | FText (v : list Z).
Inductive shape := SU8 | SU32 | SU64 | SText.

Definition shape_of (f : field) : shape :=
  match f with FU8 _ => SU8 | FU32 _ => SU32 | FU64 _ => SU64 | FText _ => SText end.

(** The values Rust's types admit: [u8], [u32], [u64] and [&str]. *)
Definition field_ok (f : field) : Prop :=
  match f with
  | FU8 z => 0 <= z <= u8_max
  | FU32 z => 0 <= z <= u32_max
  | FU64 z => 0 <= z <= u64_max
  | FText v => utf8_valid v = true /\ Forall is_byte v
  end.

Definition write_field (f : field) : W :=
  match f with
  | FU8 z => writer_u8 z
  | FU32 z => writer_u32 z
  | FU64 z => writer_u64 z
  | FText v => writer_text v
  end.

Definition read_field (s : shape) : R field :=
  match s with
  | SU8 => z ← reader_u8; mret (FU8 z)
  | SU32 => z ← reader_u32; mret (FU32 z)
  | SU64 => z ← reader_u64; mret (FU64 z)
  | SText => v ← reader_text; mret (FText v)
  end.

Fixpoint write_fields (fs : list field) : W :=
  match fs with
  | [] => mret tt
  | f :: fs' => write_field f ;; write_fields fs'
  end.

Fixpoint read_fields (ss : list shape) : R (list field) :=
  match ss with
  | [] => mret []
  | s :: ss' => f ← read_field s; fs ← read_fields ss'; mret (f :: fs)
  end.

(** Open a reader on [bytes], read the schema and reject trailing bytes. *)
Definition decode (ss : list shape) (bytes : list Z) : result CanonicalError (list field) :=
  r ← reader_new bytes;
  match read_fields ss r with
  | (Ok fs, r') => reader_finish r' ;; Ok fs
  | (Err e, _) => Err e
  end.

Definition encode (fs : list field) : result CanonicalError (list Z) :=
  writer_finish <$> exec (write_fields fs) writer_new.

Definition encode_field (f : field) : list Z :=
  match f with
  | FU8 z => [z]
  | FU32 z => to_be 4 z
  | FU64 z => to_be 8 z
  | FText v => to_be 8 (lenZ v) ++ v
  end.

(** The text bound a writer checks before it appends. *)
Definition field_fits (f : field) : Prop :=
  match f with FText v => lenZ v <= MAX_CANONICAL_TEXT_BYTES | _ => True end.

Lemma write_field_writes f : field_fits f -> writes (write_field f) (encode_field f).
Proof. destruct f; simpl; eauto with writes. Qed.

Lemma write_field_fits f w w' : write_field f w = (Ok tt, w') -> field_fits f.
Proof. destruct f; simpl; eauto using writer_text_Ok. Qed.

Lemma write_fields_fits fs w w' : write_fields fs w = (Ok tt, w') -> Forall field_fits fs.
Proof.
  revert w. induction fs as [|f fs IH]; intros w; [constructor|]. cbn [write_fields].
  intros ([]&w1&H1&H2)%se_bind_Ok. constructor; eauto using write_field_fits.
Qed.

Lemma write_fields_writes fs :
  Forall field_fits fs -> writes (write_fields fs) (mjoin (encode_field <$> fs)).
Proof. induction 1; simpl; auto using write_field_writes with writes. Qed.

(** The writer accepts exactly the fields within their bounds, and its output is
    the concatenation of the field encodings. *)
Lemma encode_Ok fs b :
  encode fs = Ok b <->
  Forall field_fits fs /\ b = mjoin (encode_field <$> fs) /\ lenZ b <= MAX_CANONICAL_PAYLOAD_BYTES.
Proof.
  unfold encode. split.
  - intros (w&Hex&->)%fmap_Ok. pose proof Hex as Hfit%exec_Ok%write_fields_fits.
    apply (exec_writes_inv _ _ _ (write_fields_writes _ Hfit)) in Hex as [Hlen Hb].
    unfold writer_finish. rewrite Hb. done.
  - intros (Hfit&->&Hlen). by rewrite (exec_writes _ _ (write_fields_writes _ Hfit) Hlen).
Qed.

(** ** Each field decodes from its own encoding, and from nothing else *)

Lemma from_be_u64_bound b :
  Forall is_byte b -> lenZ b = 8 -> 0 <= from_be b <= u64_max.
Proof. intros Hb Hl. pose proof (from_be_bound b Hb) as H. rewrite Hl in H. unfold u64_max. lia. Qed.

Definition bytes_ok (r : CanonicalReader) : Prop := Forall is_byte (rbytes r).

Lemma remaining_bytes r : bytes_ok r -> Forall is_byte (remaining r).
Proof. intros. by apply Forall_drop. Qed.

(** Fixed-width reads: [n] bytes, decoded by [g], re-encoded by [h]. *)
Lemma read_fixed (n : Z) {A} (g : list Z -> A) r a r' :
  reader_wf r -> 0 <= n ->
  (b ← reader_raw n; mret (g b)) r = (Ok a, r') <->
  exists b, lenZ b = n /\ a = g b /\ remaining r = b ++ remaining r' /\
    rbytes r' = rbytes r /\ reader_wf r'.
Proof.
  intros Hwf Hn. rewrite se_bind_Ok. unfold mret, se_ret. split.
  - intros (b&r1&Hr&[= <- <-]). apply reader_raw_iff in Hr; [|done..].
    exists b. by destruct_and!.
  - intros (b&?&->&?&?&?). exists b, r'. rewrite reader_raw_iff by done. naive_solver.
Qed.

Lemma read_uint (n : nat) (r : CanonicalReader) z r' :
  reader_wf r -> bytes_ok r ->
  (b ← reader_raw (Z.of_nat n); mret (from_be b)) r = (Ok z, r') <->
  0 <= z < 256 ^ Z.of_nat n /\ remaining r = to_be n z ++ remaining r' /\
  rbytes r' = rbytes r /\ reader_wf r'.
Proof.
  intros Hwf Hok. rewrite read_fixed by (done || lia). split.
  - intros (b&Hl&->&Hrem&?&?).
    assert (Hb : Forall is_byte b).
    { pose proof (remaining_bytes r Hok) as Hr. rewrite Hrem in Hr. by apply Forall_app in Hr as [? _]. }
    pose proof (from_be_bound b Hb) as Hbd. rewrite Hl in Hbd.
    assert (length b = n) as <- by lia. by rewrite to_from_be.
  - intros (Hz&?&?&?). exists (to_be n z). rewrite to_be_length, from_to_be_id by done. done.
Qed.

Lemma read_text_iff r v r' :
  reader_wf r -> bytes_ok r ->
  reader_text r = (Ok v, r') <->
  utf8_valid v = true /\ lenZ v <= MAX_CANONICAL_TEXT_BYTES /\
  remaining r = to_be 8 (lenZ v) ++ v ++ remaining r' /\ rbytes r' = rbytes r /\ reader_wf r'.
Proof.
  intros Hwf Hok. unfold reader_text. rewrite se_bind_Ok. unfold reader_u64. split.
  - intros (n&r1&H1&H2). apply (read_uint 8) in H1 as (Hn&Hrem&Hrb&Hwf1); [|done..].
    unfold throw in H2. destruct (_ <? n) eqn:E; [done|].
    apply se_bind_Ok in H2 as (b&r2&Hraw&Hret).
    apply reader_raw_iff in Hraw as (Hb&Hrem1&Hrb1&Hwf2); [|done|lia].
    destruct (utf8_valid b) eqn:Eu; [|done].
    unfold mret, se_ret in Hret. injection Hret as <- <-. subst n.
    rewrite Hrem, Hrem1. split_and!; [done|lia|done|congruence|done].
  - intros (Hu&Hv&Hrem&Hrb&Hwf'). unfold MAX_CANONICAL_TEXT_BYTES in *.
    set (r1 := mkReader (rbytes r) (offset r + 8)).
    pose proof (remaining_length r Hwf) as Hl. rewrite Hrem, !length_app, to_be_length in Hl.
    assert (Hwf1 : reader_wf r1) by (destruct Hwf; unfold r1; split; simpl in *; [lia|done]).
    assert (Hrem1 : remaining r1 = v ++ remaining r').
    { unfold remaining, r1 at 1; simpl. rewrite Z2Nat.inj_add, <-drop_drop by (destruct Hwf; lia).
      fold (remaining r). rewrite Hrem. by rewrite drop_app_length' by (rewrite to_be_length; done). }
    exists (lenZ v), r1. split.
    + apply (read_uint 8); [done..|]. split; [cbn; lia|]. by rewrite Hrem, Hrem1.
    + rewrite (proj2 (Z.ltb_ge _ _)) by done. rewrite se_bind_Ok. exists v, r'.
      rewrite reader_raw_iff by (done || lia). by rewrite Hu.
Qed.

(** A field is read exactly when the unread bytes start with its encoding. *)
Lemma read_field_iff s r f r' :
  reader_wf r -> bytes_ok r ->
  read_field s r = (Ok f, r') <->
  shape_of f = s /\ field_ok f /\ field_fits f /\
  remaining r = encode_field f ++ remaining r' /\ rbytes r' = rbytes r /\ reader_wf r'.
Proof.
  intros Hwf Hok. destruct s; cbn [read_field]; rewrite se_bind_Ok; unfold mret, se_ret.
  - unfold reader_u8. setoid_rewrite (read_fixed 1); [|done..]. split.
    + intros (z&r1&(b&Hl&->&Hrem&?&?)&[= <- <-]). destruct b as [|z [|? ?]]; [done| |simpl in Hl; lia].
      pose proof (remaining_bytes r Hok) as Hr. rewrite Hrem in Hr. inversion Hr as [|? ? Hz ?]; subst.
      unfold is_byte in Hz. split_and!; simpl; unfold u8_max; try done; lia.
    + intros (Hs&Hf&_&Hrem&?&?). destruct f as [z| | |]; try done.
      exists z, r'. split; [|done]. exists [z]. done.
  - unfold reader_u32. setoid_rewrite (read_uint 4); [|done..]. split.
    + intros (z&r1&(Hz&?&?&?)&[= <- <-]). split_and!; simpl; unfold u32_max; try done; lia.
    + intros (Hs&Hf&_&Hrem&?&?). destruct f as [|z| |]; try done.
      exists z, r'. simpl in Hf. unfold u32_max in Hf. split_and!; try done; cbn; lia.
  - unfold reader_u64. setoid_rewrite (read_uint 8); [|done..]. split.
    + intros (z&r1&(Hz&?&?&?)&[= <- <-]). split_and!; simpl; unfold u64_max; try done; lia.
    + intros (Hs&Hf&_&Hrem&?&?). destruct f as [| |z|]; try done.
      exists z, r'. simpl in Hf. unfold u64_max in Hf. split_and!; try done; cbn; lia.
  - setoid_rewrite read_text_iff; [|done..]. split.
    + intros (v&r1&(?&?&Hrem&?&?)&[= <- <-]).
      pose proof (remaining_bytes r Hok) as Hr. rewrite Hrem, !Forall_app in Hr.
      split_and!; try done; cbn [encode_field field_ok]; try tauto; by rewrite <-app_assoc.
    + intros (Hs&Hf&Hfit&Hrem&?&?). destruct f as [| | |v]; try done.
      exists v, r'. cbn [encode_field field_ok field_fits] in *.
      rewrite <-app_assoc in Hrem. by destruct Hf.
Qed.

Lemma read_fields_iff ss r fs r' :
  reader_wf r -> bytes_ok r ->
  read_fields ss r = (Ok fs, r') <->
  shape_of <$> fs = ss /\ Forall field_ok fs /\ Forall field_fits fs /\
  remaining r = mjoin (encode_field <$> fs) ++ remaining r' /\
  rbytes r' = rbytes r /\ reader_wf r' /\ (ss = [] -> r' = r).
Proof.
  revert r fs r'. induction ss as [|s ss IH]; intros r fs r' Hwf Hok; cbn [read_fields].
  - unfold mret, se_ret. split.
    + intros [= <- <-]. done.
    + intros (Hs&_&_&_&_&_&Hr). destruct fs; [|done]. by rewrite Hr.
  - rewrite se_bind_Ok. split.
    + intros (f&r1&Hf&Hrest). apply read_field_iff in Hf as (<-&?&?&Hrem&Hrb&Hwf1); [|done..].
      apply se_bind_Ok in Hrest as (fs'&r2&Hfs&Hret).
      unfold mret, se_ret in Hret. injection Hret as <- <-.
      apply IH in Hfs as (<-&?&?&Hrem'&Hrb'&Hwf2&_); [|done|unfold bytes_ok; by rewrite Hrb].
      split_and!; try done; try (by constructor); [|congruence].
      simpl. by rewrite Hrem, Hrem', app_assoc.
    + intros (Hs&Hok'&Hfits&Hrem&Hrb&Hwf'&_).
      destruct fs as [|f fs]; [done|]. simpl in Hs, Hrem. injection Hs as <- <-.
      apply Forall_cons in Hok' as [??]. apply Forall_cons in Hfits as [??].
      rewrite <-app_assoc in Hrem.
      set (r1 := mkReader (rbytes r) (offset r + lenZ (encode_field f))).
      pose proof (remaining_length r Hwf) as Hl. rewrite Hrem, !length_app in Hl.
      assert (Hwf1 : reader_wf r1) by (destruct Hwf; unfold r1; split; simpl in *; [lia|done]).
      assert (Hrem1 : remaining r1 = mjoin (encode_field <$> fs) ++ remaining r').
      { unfold remaining at 1. simpl. rewrite Z2Nat.inj_add, Nat2Z.id, <-drop_drop
          by (destruct Hwf; lia). fold (remaining r). rewrite Hrem. by rewrite drop_app_length. }
      exists f, r1. rewrite read_field_iff by done. rewrite Hrem1. split; [done|].
      rewrite se_bind_Ok. exists fs, r'. split; [|done]. apply IH; [done..|].
      split_and!; try done. destruct fs; [|done]. intros _. simpl in Hrem1.
      destruct r' as [rb' o']. simpl in *. unfold r1, remaining in Hrem1 |- *. subst rb'.
      f_equal. destruct Hwf1, Hwf'; simpl in *.
      apply (f_equal length) in Hrem1. rewrite !length_drop in Hrem1. simpl in Hrem1. lia.
Qed.

(** Decoding: exactly the byte strings that are the encoding of well-typed fields. *)
Lemma decode_iff ss b fs :
  Forall is_byte b ->
  decode ss b = Ok fs <->
  shape_of <$> fs = ss /\ Forall field_ok fs /\ encode fs = Ok b.
Proof.
  intros Hb. unfold decode. rewrite bind_Ok, encode_Ok. unfold reader_new. split.
  - intros (r&Hnew&Hread). destruct (_ <? _) eqn:E; [done|]. injection Hnew as <-.
    destruct (read_fields _ _) as [[fs'|e] r'] eqn:Er; [|done].
    apply bind_Ok in Hread as ([]&Hfin&[= ->]).
    apply read_fields_iff in Er as (Hs&Hok&Hfit&Hrem&Hrb&Hwf'&_); [|split; simpl; lia|done].
    unfold reader_finish in Hfin. destruct (_ =? _) eqn:Ef; [|done].
    assert (remaining r' = []) as Hnil.
    { apply length_zero_iff_nil. pose proof (remaining_length r' Hwf'). lia. }
    rewrite Hnil, app_nil_r in Hrem. change (b = mjoin (encode_field <$> fs)) in Hrem.
    split_and!; try done. lia.
  - intros (Hs&Hok&Hfit&->&Hlen). rewrite (proj2 (Z.ltb_ge _ _)) by done.
    set (b := mjoin (encode_field <$> fs)) in *.
    exists (mkReader b 0). split; [done|].
    assert (Hr : read_fields ss (mkReader b 0) = (Ok fs, mkReader b (lenZ b))).
    { apply read_fields_iff; [split; simpl; lia|done|]. split_and!; try done.
      - unfold remaining. simpl. by rewrite Nat2Z.id, drop_all, app_nil_r.
      - split; simpl; lia.
      - destruct ss; [|done]. destruct fs; [|done]. done. }
    rewrite Hr. unfold reader_finish. simpl. by rewrite Z.eqb_refl.
Qed.

Lemma encode_bytes fs b : Forall field_ok fs -> encode fs = Ok b -> Forall is_byte b.
Proof.
  intros Hok (_&->&_)%encode_Ok.
  induction Hok as [|f fs Hf Hfs IH]; simpl; [constructor|]. apply Forall_app. split; [|done].
  destruct f; cbn [encode_field field_ok] in *; auto with gf.
  apply Forall_app. destruct Hf; auto with gf.
Qed.

(** ** Properties *)

(** C34 Round trip: fields that Rust's types admit and the writer accepts are
    read back exactly, with nothing left over. *)
Theorem canonical_roundtrip fs b :
  Forall field_ok fs -> encode fs = Ok b -> decode (shape_of <$> fs) b = Ok fs.
Proof. intros Hok Henc. apply decode_iff; eauto using encode_bytes. Qed.

(** C35 Strictness: a byte string that decodes is the only encoding of what it
    decodes to; truncated, over-long or trailing input never decodes. *)
Theorem canonical_decode_strict ss b fs :
  Forall is_byte b -> decode ss b = Ok fs ->
  encode fs = Ok b /\ shape_of <$> fs = ss /\ Forall field_ok fs.
Proof. intros Hb Hdec. apply decode_iff in Hdec as (?&?&?); done. Qed.

(** The writer never exceeds the payload bound, also on its error paths, and
    a refused append leaves the bytes written so far unchanged. *)
Theorem writer_raw_bounded b w :
  writer_wf w ->
  writer_wf (writer_raw b w).2 /\
  (lenZ (wbytes w) + lenZ b <= MAX_CANONICAL_PAYLOAD_BYTES ->
     writer_raw b w = (Ok tt, mkWriter (wbytes w ++ b))) /\
  (MAX_CANONICAL_PAYLOAD_BYTES < lenZ (wbytes w) + lenZ b ->
     exists e, writer_raw b w = (Err e, w) /\ CErr.code e = "GF_CANONICAL_LIMIT").
Proof.
  intros Hwf. unfold writer_wf in *. unfold writer_raw, checked_add, usize_max, u64_max in *.
  destruct (_ <=? _) eqn:E1; [destruct (_ <? _) eqn:E2|]; simpl.
  - split_and!; [done|lia|]. intros _. by eexists.
  - rewrite length_app. split_and!; [lia|done|lia].
  - unfold MAX_CANONICAL_PAYLOAD_BYTES in *. split_and!; [done|lia|]. intros _. by eexists.
Qed.

(** Domain separation: two payloads have the same fingerprint only when domain and
    payload are the same, or else their two preimages are a SHA-256 collision. *)
Theorem fingerprint_domain_separated (sha256 : list Z -> list Z) d v p d' v' p' h :
  fingerprint sha256 d v p = Ok h -> fingerprint sha256 d' v' p' = Ok h ->
  (d = d' /\ v = v' /\ p = p') \/
  (preimage_bytes d p <> preimage_bytes d' p' /\
   sha256 (preimage_bytes d p) = sha256 (preimage_bytes d' p')).
Proof.
  unfold fingerprint. intros (x&Hx&->)%fmap_Ok (y&Hy&Hh)%fmap_Ok.
  apply fingerprint_preimage_Ok in Hx as (->&->&_).
  apply fingerprint_preimage_Ok in Hy as (->&->&_).
  destruct (decide (preimage_bytes d p = preimage_bytes d' p')) as [Heq|Hne].
  - left. apply preimage_bytes_inj in Heq as [-> ->]. done.
  - right. done.
Qed.

(** The preimage of [graphforge-canonical/1], on every branch: another contract
    version and a payload over the bound are refused with their stable code, and
    otherwise the bytes are exactly the frozen envelope. *)
Theorem fingerprint_preimage_spec d v p :
  (v <> CANONICAL_CONTRACT_VERSION ->
     fingerprint_preimage d v p = Err (CErr.UnsupportedVersion v)) /\
  (v = CANONICAL_CONTRACT_VERSION ->
     lenZ (preimage_bytes d p) <= MAX_CANONICAL_PAYLOAD_BYTES ->
     fingerprint_preimage d v p = Ok (preimage_bytes d p)) /\
  (v = CANONICAL_CONTRACT_VERSION ->
     MAX_CANONICAL_PAYLOAD_BYTES < lenZ (preimage_bytes d p) ->
     exists e, fingerprint_preimage d v p = Err e).
Proof.
  split_and!.
  - intros Hv. unfold fingerprint_preimage. by rewrite (proj2 (Z.eqb_neq _ _)).
  - intros -> Hlen. by apply fingerprint_preimage_Ok.
  - intros -> Hlen. destruct (fingerprint_preimage _ _ _) as [b|e] eqn:E; [|eauto].
    apply fingerprint_preimage_Ok in E as (_&->&?). lia.
Qed.

(** The envelope of the frozen vector in the source's own test. *)
Example preimage_frozen_vector :
  fingerprint_preimage Domain.ArrowResult 1 [0x47; 0x46; 0x54; 0x31] =
  Ok ([0x47;0x46;0x46;0x50;0x01;0x00;0x17;0x67;0x72;0x61;0x70;0x68;0x66;0x6f;0x72;0x67;0x65;
       0x2f;0x61;0x72;0x72;0x6f;0x77;0x2d;0x72;0x65;0x73;0x75;0x6c;0x74;0;0;0;1;
       0;0;0;0;0;0;0;4;0x47;0x46;0x54;0x31]).
Proof. vm_compute. reflexivity. Qed.


(** The version and variant bits forced on bytes 6 and 8. *)
Definition v8_version (b : Z) : Z := Z.lor (Z.land b 0x0f) 0x80.
Definition v8_variant (b : Z) : Z := Z.lor (Z.land b 0x3f) 0x80.

Lemma v8_version_spec b :
  is_byte b -> is_byte (v8_version b) /\ v8_version b / 16 = 8 /\ v8_version b mod 16 = b mod 16.
Proof.
  intros Hb.
  pose proof (byte_cases (fun b => (0 <=? v8_version b) && (v8_version b <=? 255) &&
    (v8_version b / 16 =? 8) && (v8_version b mod 16 =? b mod 16)) ltac:(by vm_compute) b Hb) as H.
  simpl in H. unfold is_byte. lia.
Qed.

Lemma v8_variant_spec b :
  is_byte b -> is_byte (v8_variant b) /\ v8_variant b / 64 = 2 /\ v8_variant b mod 64 = b mod 64.
Proof.
  intros Hb.
  pose proof (byte_cases (fun b => (0 <=? v8_variant b) && (v8_variant b <=? 255) &&
    (v8_variant b / 64 =? 2) && (v8_variant b mod 64 =? b mod 64)) ltac:(by vm_compute) b Hb) as H.
  simpl in H. unfold is_byte. lia.
Qed.

(** The UUIDv8 projection of a 32-byte digest keeps the first 16 digest bytes,
    with version 8 and the RFC 9562 variant in the places the RFC gives them. *)
Theorem uuid_v8_spec `{UuidCrate U} (digest : list Z) :
  length digest = 32%nat -> Forall is_byte digest ->
  let bytes := as_bytes (uuid_v8 (U := U) digest) in
  length bytes = 16%nat /\
  (forall i b, (i < 16)%nat -> i <> 6%nat -> i <> 8%nat -> digest !! i = Some b -> bytes !! i = Some b) /\
  (forall b, digest !! 6%nat = Some b ->
     exists b', bytes !! 6%nat = Some b' /\ b' / 16 = 8 /\ b' mod 16 = b mod 16) /\
  (forall b, digest !! 8%nat = Some b ->
     exists b', bytes !! 8%nat = Some b' /\ b' / 64 = 2 /\ b' mod 64 = b mod 64).
Proof.
  intros Hlen Hb bytes. unfold bytes, uuid_v8. clear bytes.
  change (fun b : Z => Z.lor (Z.land b 15) 128) with v8_version.
  change (fun b : Z => Z.lor (Z.land b 63) 128) with v8_variant.
  do 32 (destruct digest as [|? digest]; [done|]). destruct digest; [|done].
  repeat match goal with H : Forall is_byte (_ :: _) |- _ => apply Forall_cons in H as [? H] end.
  rewrite as_from_bytes; [|done|].
  - split; [done|]. split; [|split].
    + intros i b Hi. do 16 (destruct i as [|i]; [done|]). lia.
    + intros b [= <-]. eexists. split; [done|]. by apply v8_version_spec.
    + intros b [= <-]. eexists. split; [done|]. by apply v8_variant_spec.
  - cbn -[v8_version v8_variant].
    repeat (apply Forall_cons_2;
      [first [done|by apply v8_version_spec|by apply v8_variant_spec]|]); constructor.
Qed.

(** ** Witnesses *)

Definition demo_fields : list field := [FU8 7; FText [0x67; 0xC3; 0xA9]; FU32 65536; FU64 3].

Lemma demo_fields_ok : Forall field_ok demo_fields.
Proof.
  unfold demo_fields. repeat apply Forall_cons_2; try apply Forall_nil_2;
    cbn [field_ok]; rewrite ?Forall_cons, ?Forall_nil; unfold is_byte, u32_max, u64_max; lia || split_and!; done || lia.
Qed.

Lemma canonical_roundtrip_witness :
  exists b, encode demo_fields = Ok b /\ decode (shape_of <$> demo_fields) b = Ok demo_fields.
Proof.
  eexists. split; [vm_compute; reflexivity|].
  apply (canonical_roundtrip demo_fields); [apply demo_fields_ok|by vm_compute].
Defined.

Lemma canonical_decode_strict_witness : encode [FU8 9; FU32 258] = Ok [9; 0; 0; 1; 2].
Proof.
  apply (canonical_decode_strict [SU8; SU32]); [|by vm_compute].
  repeat apply Forall_cons_2; try apply Forall_nil_2; unfold is_byte; lia.
Defined.

Lemma writer_raw_bounded_witness : writer_raw [1; 2] (mkWriter [0]) = (Ok tt, mkWriter [0; 1; 2]).
Proof.
  apply (writer_raw_bounded [1; 2] (mkWriter [0])); unfold writer_wf, MAX_CANONICAL_PAYLOAD_BYTES;
    simpl; lia.
Defined.

Lemma fingerprint_domain_separated_witness :
  exists h, fingerprint (take 32) Domain.Schema 1 [5] = Ok h /\
    ((Domain.Schema = Domain.Schema /\ 1 = 1 /\ [5] = [5]) \/
     (preimage_bytes Domain.Schema [5] <> preimage_bytes Domain.Schema [5] /\
      take 32 (preimage_bytes Domain.Schema [5]) = take 32 (preimage_bytes Domain.Schema [5]))).
Proof.
  eexists. split; [vm_compute; reflexivity|].
  eapply (fingerprint_domain_separated (take 32) Domain.Schema 1 [5] Domain.Schema 1 [5]);
    vm_compute; reflexivity.
Defined.

Lemma fingerprint_preimage_spec_witness :
  fingerprint_preimage Domain.Schema 2 [5] = Err (CErr.UnsupportedVersion 2).
Proof. apply (fingerprint_preimage_spec Domain.Schema 2 [5]). by vm_compute. Defined.

Lemma uuid_v8_spec_witness :
  exists b', as_bytes (uuid_v8 (U := Uuid128) (repeat 0xFF 32)) !! 6%nat = Some b' /\ b' / 16 = 8.
Proof.
  destruct (uuid_v8_spec (U := Uuid128) (repeat 0xFF 32)) as (_&_&H6&_);
    [done|repeat constructor; vm_compute; congruence|].
  destruct (H6 0xFF eq_refl) as (b'&?&?&_). by exists b'.
Defined.
