(* ===== verification/Knowledge.v ===== *)
(** * Knowledge rows: what every ledger of [crates/graphforge-knowledge] shares.

    The error type of [lib.rs], the identifier checks, and the two loops every
    append-only participant runs: scanning rows for repeated identities, and merging
    staged rows into existing ones by identity.  A validated ledger is a canonical
    (sorted, duplicate-free) list of rows; [by_id] gives the finite map it stands for. *)

From stdpp Require Import base list gmap strings sorting.
From Stdlib Require Import ZArith Lia.
From S2P Require Import Prelude Uuid Canonical.

Definition MAX_KNOWLEDGE_ROWS : Z := 1000000.

Module KErr.
Inductive KnowledgeError :=
| Invalid (field message : string)
| Limit (participant : string) (observed limit : Z)
| Duplicate (identity : string)
| Dangling (reference : string)
| Conflict (identity : string)
| TransactionConflict (identity : string)
| Canonical (e : CanonicalError)
(** An error of the Arrow library, kept as its message. *)
| Arrow (message : string).

Definition code (e : KnowledgeError) : string :=
  match e with
  | Invalid _ _ => "GF_KNOWLEDGE_INVALID"
  | Limit _ _ _ => "GF_RESOURCE_LIMIT"
  | Duplicate _ => "GF_KNOWLEDGE_DUPLICATE"
  | Dangling _ => "GF_KNOWLEDGE_DANGLING"
  | Conflict _ => "GF_IDEMPOTENCY_CONFLICT"
  | TransactionConflict _ => "GF_TRANSACTION_CONFLICT"
  | Canonical e => CErr.code e
  | Arrow _ => "GF_SCHEMA_MISMATCH"
  end.
End KErr.
Abbreviation KnowledgeError := KErr.KnowledgeError.
Abbreviation K A := (result KnowledgeError A).

Definition invalid (field message : string) : KnowledgeError := KErr.Invalid field message.

Section checks.
Context {U : Type} `{!UuidCrate U}.

Definition require_uuid (value : U) (field : string) : K unit :=
  if is_nil value then Err (invalid field "must not be nil") else Ok tt.

Definition require_v7 (value : U) (field : string) : K unit :=
  if negb (is_sort_rand value) then Err (invalid field "must be UUIDv7")
  else require_uuid value field.

(** [if let Some(value) = v { require_v7(value, field)?; }] *)
Definition require_opt_v7 (value : option U) (field : string) : K unit :=
  match value with Some v => require_v7 v field | None => Ok tt end.

(** The predicate the checks decide. *)
Definition v7 (u : U) : Prop := is_sort_rand u = true /\ is_nil u = false.

Lemma require_uuid_Ok u f : require_uuid u f = Ok tt <-> is_nil u = false.
Proof. unfold require_uuid. by destruct (is_nil u). Qed.

Lemma require_v7_Ok u f : require_v7 u f = Ok tt <-> v7 u.
Proof.
  unfold require_v7, v7. destruct (is_sort_rand u); simpl.
  - rewrite require_uuid_Ok. tauto.
  - split; [done|intros []; done].
Qed.

Lemma require_opt_v7_Ok o f : require_opt_v7 o f = Ok tt <-> from_option v7 True o.
Proof. destruct o; simpl; [apply require_v7_Ok|done]. Qed.

(** [optional_uuid]: a presence byte and, when present, the 16 bytes. *)
Definition optional_uuid (value : option U) : W :=
  match value with
  | Some v => writer_u8 1 ;; writer_raw (as_bytes v)
  | None => writer_u8 0
  end.

Definition opt_uuid_bytes (o : option U) : list Z :=
  match o with Some v => [1] ++ as_bytes v | None => [0] end.

Lemma writes_opt_uuid o : writes (optional_uuid o) (opt_uuid_bytes o).
Proof. destruct o; unfold optional_uuid, opt_uuid_bytes; auto with writes. Qed.

(** [optional_i64]. *)
Definition optional_i64 (value : option Z) : W :=
  match value with
  | Some v => writer_u8 1 ;; writer_i64 v
  | None => writer_u8 0
  end.

Definition opt_i64_bytes (o : option Z) : list Z :=
  match o with Some v => [1] ++ to_be 8 v | None => [0] end.

Lemma writes_opt_i64 o : writes (optional_i64 o) (opt_i64_bytes o).
Proof. destruct o; unfold optional_i64, opt_i64_bytes; auto with writes. Qed.

(** The tagged encodings are prefix-free: equal streams start with equal values. *)
Lemma as_bytes_app_inj (u v : U) k1 k2 :
  as_bytes u ++ k1 = as_bytes v ++ k2 -> u = v /\ k1 = k2.
Proof.
  intros H. apply app_inj_length in H as [Hu ->]; [|by rewrite !as_bytes_length].
  split; [by apply as_bytes_inj|done].
Qed.

Lemma opt_uuid_app_inj (o1 o2 : option U) k1 k2 :
  opt_uuid_bytes o1 ++ k1 = opt_uuid_bytes o2 ++ k2 -> o1 = o2 /\ k1 = k2.
Proof.
  destruct o1, o2; simpl; intros H; try discriminate; injection H as H; [|done].
  apply as_bytes_app_inj in H as [-> ->]. done.
Qed.

Lemma i64_app_inj z1 z2 k1 k2 :
  in_i64 z1 -> in_i64 z2 -> to_be 8 z1 ++ k1 = to_be 8 z2 ++ k2 -> z1 = z2 /\ k1 = k2.
Proof.
  intros H1 H2 H. apply app_inj_length in H as [Hz ->]; [|by rewrite !to_be_length].
  split; [by apply to_be_inj_signed|done].
Qed.

Lemma opt_i64_app_inj o1 o2 k1 k2 :
  from_option in_i64 True o1 -> from_option in_i64 True o2 ->
  opt_i64_bytes o1 ++ k1 = opt_i64_bytes o2 ++ k2 -> o1 = o2 /\ k1 = k2.
Proof.
  destruct o1, o2; cbn [opt_i64_bytes from_option]; intros H1 H2 H; try discriminate;
    rewrite <-?app_assoc in H; apply app_inj_length in H as [_ H]; try done.
  apply i64_app_inj in H as [-> ->]; done.
Qed.

(** A text field, with the length prefix the writer gives it. *)
Definition text_bytes (v : list Z) : list Z := to_be 8 (lenZ v) ++ v.

Lemma text_app_inj v1 v2 k1 k2 :
  lenZ v1 <= MAX_CANONICAL_TEXT_BYTES -> lenZ v2 <= MAX_CANONICAL_TEXT_BYTES ->
  text_bytes v1 ++ k1 = text_bytes v2 ++ k2 -> v1 = v2 /\ k1 = k2.
Proof.
  unfold text_bytes, MAX_CANONICAL_TEXT_BYTES. intros H1 H2 H. rewrite <-!app_assoc in H.
  apply app_inj_length in H as [Hl H]; [|by rewrite !to_be_length].
  apply to_be_inj_unsigned in Hl; [|cbn; lia..]. apply app_inj_length in H; [done|lia].
Qed.
End checks.
#[export] Hint Resolve writes_opt_uuid writes_opt_i64 : writes.

(** ** Scanning rows for repeated identities *)

Section rows.
Context {U Row : Type} `{!UuidCrate U} `{!EqDecision Row}.
Context (row_id : Row -> U).

(** [for row in &rows { validate(row)?; if !ids.insert(id) { return Err(dup) } }] *)
Fixpoint scan_ids (validate : Row -> K unit) (dup : KnowledgeError) (ids : gset U)
    (rows : list Row) : K unit :=
  match rows with
  | [] => Ok tt
  | row :: rows' =>
      validate row ;;
      if decide (row_id row ∈ ids) then Err dup
      else scan_ids validate dup ({[row_id row]} ∪ ids) rows'
  end.

Lemma scan_ids_Ok validate dup ids rows :
  scan_ids validate dup ids rows = Ok tt <->
  Forall (fun r => validate r = Ok tt) rows /\ NoDup (row_id <$> rows) /\
  Forall (fun r => row_id r ∉ ids) rows.
Proof.
  revert ids. induction rows as [|r rows IH]; intros ids; simpl.
  - split; [|done]. intros _. split_and!; constructor.
  - rewrite bind_Ok. rewrite !Forall_cons, NoDup_cons. split.
    + intros ([]&Hv&Hrest). case_decide as Hin; [done|].
      apply IH in Hrest as (?&?&Hall). rewrite Forall_forall in Hall.
      split_and!; try done.
      * intros (x&Heq&Hx)%list_elem_of_fmap. specialize (Hall x Hx).
        rewrite not_elem_of_union, not_elem_of_singleton in Hall. destruct Hall; congruence.
      * apply Forall_forall. intros x Hx. specialize (Hall x Hx).
        rewrite not_elem_of_union in Hall. tauto.
    + intros ([Hv ?]&[Hnin ?]&[Hin Hall]). exists tt. split; [done|].
      rewrite decide_False by done. apply IH. split_and!; try done.
      apply Forall_forall. intros x Hx. rewrite Forall_forall in Hall.
      assert (row_id x <> row_id r).
      { intros Heq. apply Hnin. rewrite <-Heq. by apply list_elem_of_fmap_2. }
      specialize (Hall x Hx). rewrite not_elem_of_union, not_elem_of_singleton. done.
Qed.

(** ** Rows indexed by identity *)

(** [rows.map(|row| (row.id, row)).collect::<HashMap<_, _>>()] *)
Definition by_id (rows : list Row) : gmap U Row :=
  foldl (fun m r => <[row_id r := r]> m) ∅ rows.

Lemma foldl_insert_lookup rows (m : gmap U Row) i :
  NoDup (row_id <$> rows) ->
  foldl (fun m r => <[row_id r := r]> m) m rows !! i =
  match list_find (fun r => row_id r = i) rows with
  | Some (_, r) => Some r
  | None => m !! i
  end.
Proof.
  revert m. induction rows as [|r rows IH]; intros m Hnd; [done|]. cbn [foldl fmap list_fmap] in *.
  apply NoDup_cons in Hnd as [Hnin Hnd]. rewrite IH by done. cbn [list_find].
  case_decide as Hr.
  - destruct (list_find _ rows) as [[j r']|] eqn:Ef.
    + apply list_find_Some in Ef as (Hj&Hid&_). exfalso. apply Hnin.
      rewrite Hr, <-Hid. by eapply list_elem_of_fmap_2, list_elem_of_lookup_2.
    + subst i. by rewrite lookup_insert_eq.
  - destruct (list_find _ rows) as [[j r']|]; [done|]. simpl. by rewrite lookup_insert_ne.
Qed.

Lemma by_id_Some rows i r :
  NoDup (row_id <$> rows) -> by_id rows !! i = Some r <-> r ∈ rows /\ row_id r = i.
Proof.
  intros Hnd. unfold by_id. rewrite foldl_insert_lookup by done. split.
  - destruct (list_find _ rows) as [[j r']|] eqn:Ef; [|by rewrite lookup_empty].
    intros [= ->]. apply list_find_Some in Ef as (Hj&Hid&_).
    split; [by eapply list_elem_of_lookup_2|done].
  - intros [Hin Hid]. destruct (list_find _ rows) as [[j r']|] eqn:Ef.
    + apply list_find_Some in Ef as (Hj&Hid'&_). f_equal.
      apply list_elem_of_lookup in Hin as [j' Hj'].
      assert (j = j') as ->.
      { eapply (NoDup_lookup (row_id <$> rows)); [done| |]; rewrite list_lookup_fmap.
        - by rewrite Hj. - rewrite Hj'. simpl. congruence. }
      congruence.
    + apply list_find_None in Ef. rewrite Forall_forall in Ef. by apply Ef in Hin.
Qed.

Lemma by_id_None rows i :
  NoDup (row_id <$> rows) -> by_id rows !! i = None <-> i ∉ row_id <$> rows.
Proof.
  intros Hnd. rewrite eq_None_not_Some. split.
  - intros Hn (r&Heq&Hr)%list_elem_of_fmap. subst i. apply Hn. exists r. by apply by_id_Some.
  - intros Hn [r (Hr&<-)%by_id_Some]; [|done]. apply Hn. by apply list_elem_of_fmap_2.
Qed.

Lemma by_id_perm rows rows' :
  NoDup (row_id <$> rows) -> rows ≡ₚ rows' -> by_id rows = by_id rows'.
Proof.
  intros Hnd Hp. apply map_eq. intros i. apply option_eq. intros r.
  rewrite !by_id_Some; [|by rewrite <-Hp|done]. by rewrite Hp.
Qed.

(** ** Merging staged rows by identity *)

(** [for row in &staged { if let Some(existing) = by_id.get(&id) { if existing != row
    { return Err(conflict) } } else { check(row)?; rows.push(row); by_id.insert(id, row) } }] *)
Fixpoint merge_loop (check : Row -> K unit) (conflict : KnowledgeError)
    (staged events : list Row) (m : gmap U Row) : K (list Row) :=
  match staged with
  | [] => Ok events
  | row :: staged' =>
      match m !! row_id row with
      | Some existing =>
          if decide (existing = row) then merge_loop check conflict staged' events m
          else Err conflict
      | None =>
          check row ;;
          merge_loop check conflict staged' (events ++ [row]) (<[row_id row := row]> m)
      end
  end.

(** The staged rows whose identity is not known yet. *)
Definition new_rows (m : gmap U Row) (staged : list Row) : list Row :=
  filter (fun r => m !! row_id r = None) staged.

(** Every staged row with a known identity is an exact replay. *)
Definition replays (m : gmap U Row) (staged : list Row) : Prop :=
  Forall (fun r => forall r', m !! row_id r = Some r' -> r' = r) staged.

Lemma merge_loop_Ok check conflict staged events m out :
  NoDup (row_id <$> staged) ->
  merge_loop check conflict staged events m = Ok out <->
  replays m staged /\ Forall (fun r => check r = Ok tt) (new_rows m staged) /\
  out = events ++ new_rows m staged.
Proof.
  revert events m. induction staged as [|r staged IH]; intros events m Hnd; simpl.
  { unfold replays, new_rows. rewrite filter_nil, app_nil_r. split; [|by intros (_&_&->)].
    intros [= ->]. split_and!; constructor. }
  apply NoDup_cons in Hnd as [Hnin Hnd]. unfold new_rows, replays in *.
  rewrite filter_cons, Forall_cons.
  destruct (m !! row_id r) as [r'|] eqn:Er.
  - rewrite (decide_False (P := Some r' = None)) by done. case_decide as Heq.
    + subst r'. rewrite IH by done. split; [|tauto]. intros (?&?&?). split_and!; try done.
      by intros ? [= <-].
    + split; [done|]. intros ([Hr _]&_). by destruct Heq; apply Hr.
  - rewrite decide_True by done.
    assert (Hfresh : forall x, x ∈ staged -> <[row_id r:=r]> m !! row_id x = m !! row_id x).
    { intros x Hx. apply lookup_insert_ne. intros Heq. apply Hnin. rewrite Heq.
      by apply list_elem_of_fmap_2. }
    assert (Hfil : filter (fun r0 => <[row_id r:=r]> m !! row_id r0 = None) staged =
      filter (fun r0 => m !! row_id r0 = None) staged).
    { apply filter_ext_in. intros x Hx. by rewrite Hfresh. }
    rewrite bind_Ok, Forall_cons, <-Hfil. split.
    + intros ([]&?&Hrest). apply IH in Hrest as (Hrep&?&->); [|done].
      rewrite <-app_assoc. split_and!; try done. rewrite Forall_forall in *.
      intros x Hx. rewrite <-Hfresh by done. eauto.
    + intros ([_ Hrep]&[? ?]&->). exists tt. split; [done|]. apply IH; [done|].
      rewrite <-app_assoc. split_and!; try done. rewrite Forall_forall in *.
      intros x Hx. rewrite Hfresh by done. eauto.
Qed.

Lemma replays_agree l s :
  NoDup (row_id <$> s) -> replays (by_id l) s <-> map_agree (by_id l) (by_id s).
Proof.
  intros Hs. unfold replays. rewrite Forall_forall, map_agree_spec. split.
  - intros Hr i a b Ha Hb. apply by_id_Some in Hb as [Hb <-]; [|done]. eauto.
  - intros Hag r Hr r' Hr'. eapply Hag; [done|]. by apply by_id_Some.
Qed.

Lemma new_rows_elem m s r : r ∈ new_rows m s <-> m !! row_id r = None /\ r ∈ s.
Proof. unfold new_rows. by rewrite list_elem_of_filter. Qed.

Lemma merged_ids l s :
  NoDup (row_id <$> l) -> NoDup (row_id <$> s) -> NoDup (row_id <$> l ++ new_rows (by_id l) s).
Proof.
  intros Hl Hs. rewrite fmap_app. apply NoDup_app. split_and!; [done| |].
  - intros i Hi (r&->&Hr)%list_elem_of_fmap. apply new_rows_elem in Hr as [Hn _].
    by apply by_id_None in Hn.
  - unfold new_rows. clear Hl. revert Hs. generalize (by_id l). intros m.
    induction s as [|r s IH]; [done|]. rewrite fmap_cons, NoDup_cons. intros [Hnin Hs].
    rewrite filter_cons. case_decide; [|eauto]. rewrite fmap_cons, NoDup_cons. split; [|eauto].
    intros (x&Hx&Hin)%list_elem_of_fmap. apply list_elem_of_filter in Hin as [_ Hin].
    apply Hnin. rewrite Hx. by apply list_elem_of_fmap_2.
Qed.

Lemma merged_by_id l s :
  NoDup (row_id <$> l) -> NoDup (row_id <$> s) -> replays (by_id l) s ->
  by_id (l ++ new_rows (by_id l) s) = by_id l ∪ by_id s.
Proof.
  intros Hl Hs Hrep. apply map_eq. intros i. apply option_eq. intros r.
  rewrite by_id_Some by (by apply merged_ids). rewrite lookup_union_Some_raw.
  rewrite !by_id_Some by done. rewrite elem_of_app, new_rows_elem. split.
  - intros [[?|[? ?]] <-]; [by left|right]. done.
  - intros [[? <-]|[? [? <-]]]; [|tauto]. tauto.
Qed.

End rows.

(** ** Canonical row order *)

Section canonical_rows.
Context {U Row : Type} `{!UuidCrate U} `{!EqDecision Row}.
Context (row_id : Row -> U) (row_time : Row -> Z).
Abbreviation by_id := (by_id row_id).
Abbreviation new_rows := (new_rows row_id).
Abbreviation replays := (replays row_id).

(** [sort_by_key(|row| (row.recorded_at_micros, row.id))] *)
Definition row_key (r : Row) : Z * U := (row_time r, row_id r).
Definition sort_rows (rows : list Row) : list Row := sort_by_key row_key rows.

(** A canonical ledger: sorted by time and identity, no identity twice. *)
Definition ledger_wf (rows : list Row) : Prop :=
  StronglySorted (key_le row_key) rows /\ NoDup (row_id <$> rows).

Lemma NoDup_row_key rows : NoDup (row_id <$> rows) -> NoDup (row_key <$> rows).
Proof.
  intros Hnd. apply (NoDup_fmap_1 snd). rewrite <-list_fmap_compose. exact Hnd.
Qed.

Lemma sort_rows_wf rows : NoDup (row_id <$> rows) -> ledger_wf (sort_rows rows).
Proof.
  intros Hnd. split; [apply sort_by_key_sorted|]. unfold sort_rows. by rewrite sort_by_key_perm.
Qed.

Lemma sort_rows_perm rows : sort_rows rows ≡ₚ rows.
Proof. apply sort_by_key_perm. Qed.

Lemma sort_rows_id rows : ledger_wf rows -> sort_rows rows = rows.
Proof. intros [Hs _]. by apply sort_by_key_id. Qed.

Lemma sort_rows_by_id rows : NoDup (row_id <$> rows) -> by_id (sort_rows rows) = by_id rows.
Proof. intros Hnd. apply by_id_perm; [by rewrite sort_rows_perm|apply sort_rows_perm]. Qed.

Lemma ledger_wf_perm l1 l2 : ledger_wf l1 -> ledger_wf l2 -> l1 ≡ₚ l2 -> l1 = l2.
Proof.
  intros [H1 Hnd] [H2 _] Hp. apply (sorted_perm_unique row_key); eauto using NoDup_row_key.
Qed.

(** A canonical ledger is determined by its content. *)
Lemma ledger_wf_inj l1 l2 : ledger_wf l1 -> ledger_wf l2 -> by_id l1 = by_id l2 -> l1 = l2.
Proof.
  intros Hw1 Hw2 Heq. apply ledger_wf_perm; [done..|].
  destruct Hw1 as [_ H1], Hw2 as [_ H2].
  apply NoDup_Permutation; [by eapply NoDup_fmap_1..|]. intros r.
  pose proof (by_id_Some row_id l1 (row_id r) r H1) as E1.
  pose proof (by_id_Some row_id l2 (row_id r) r H2) as E2. rewrite Heq in E1. tauto.
Qed.

(** ** The specification of a merge: the union of two agreeing contents *)

Definition merges_to (l s out : list Row) : Prop :=
  map_agree (by_id l) (by_id s) /\ ledger_wf out /\ by_id out = by_id l ∪ by_id s.

(** What the merge loop followed by the canonical sort computes. *)
Lemma merged_spec l s :
  ledger_wf l -> ledger_wf s -> replays (by_id l) s ->
  merges_to l s (sort_rows (l ++ new_rows (by_id l) s)).
Proof.
  intros [_ Hl] [_ Hs] Hrep. split_and!.
  - by apply replays_agree.
  - by apply sort_rows_wf, merged_ids.
  - rewrite sort_rows_by_id by (by apply merged_ids). by apply merged_by_id.
Qed.

Lemma merges_to_unique l s out out' : merges_to l s out -> merges_to l s out' -> out = out'.
Proof. intros (_&?&?) (_&?&?). apply ledger_wf_inj; [done..|congruence]. Qed.

Lemma merges_to_idemp l : ledger_wf l -> merges_to l l l.
Proof.
  intros Hl. split_and!; [|done|by rewrite map_union_idemp].
  apply map_agree_spec. congruence.
Qed.

Lemma merges_to_comm l s out : merges_to l s out -> merges_to s l out.
Proof.
  intros (Hag&?&Hu). split_and!; [|done|rewrite Hu].
  - rewrite map_agree_spec in *. intros i a b Ha Hb. symmetry. eauto.
  - apply map_eq. intros i. rewrite map_agree_spec in Hag. specialize (Hag i).
    rewrite !lookup_union. destruct (by_id l !! i) eqn:El, (by_id s !! i) eqn:Es; try done.
    rewrite (Hag r r0) by done. done.
Qed.

(** Replaying the staged rows on the merged ledger changes nothing. *)
Lemma merges_to_replay l s out : merges_to l s out -> merges_to out s out.
Proof.
  intros (Hag&Hout&Hu). rewrite map_agree_spec in Hag. split_and!; [|done|].
  - rewrite Hu. apply map_agree_spec. intros i a b. rewrite lookup_union_Some_raw.
    intros [Ha|[_ Ha]] Hb; [eauto|congruence].
  - rewrite Hu. by rewrite <-(assoc_L (∪)), map_union_idemp.
Qed.

(** Existing rows are never changed or dropped. *)
Lemma merges_to_append_only l s out r :
  NoDup (row_id <$> l) -> merges_to l s out -> r ∈ l -> r ∈ out.
Proof.
  intros Hl (Hag&[_ Hout]&Hu) Hr.
  assert (by_id out !! row_id r = Some r) as Ho.
  { rewrite Hu. apply lookup_union_Some_raw. left. by apply by_id_Some. }
  by apply by_id_Some in Ho as [? _].
Qed.

(** The rows of a merge are the rows of both sides. *)
Lemma merges_to_elem l s out r :
  NoDup (row_id <$> l) -> NoDup (row_id <$> s) -> merges_to l s out ->
  r ∈ out <-> r ∈ l \/ r ∈ s.
Proof.
  intros Hn1 Hn2 (Hag&[_ Hn3]&Hu).
  pose proof (by_id_Some row_id out (row_id r) r Hn3) as H.
  rewrite Hu, lookup_union_Some_raw, !by_id_Some in H by done.
  rewrite by_id_None in H by done. split.
  - intros He. destruct H as [_ H]. destruct H as [[? _]|[_ [? _]]]; [done|tauto..].
  - intros [He|He]; [apply H; tauto|].
    destruct (decide (r ∈ l)); [apply H; tauto|]. apply H. right.
    split; [|done]. intros (e'&Hid&He')%list_elem_of_fmap.
    assert (r = e'); [|congruence]. rewrite map_agree_spec in Hag. symmetry.
    eapply (Hag (row_id r)); by apply by_id_Some.
Qed.

(** Rows already merged are not new. *)
Lemma merges_to_no_new l s out :
  NoDup (row_id <$> l) -> NoDup (row_id <$> s) -> merges_to l s out ->
  new_rows (by_id out) s = [].
Proof.
  intros Hl Hs Hm. apply filter_none. intros e He Hnone.
  apply by_id_None in Hnone; [|apply Hm]. apply Hnone, list_elem_of_fmap_2.
  eapply (merges_to_elem l s); [done..|by right].
Qed.
End canonical_rows.

(** ** Row fingerprints of a ledger *)

Section fingerprint_tables.
Context {U Row : Type} `{!UuidCrate U}.
Context (row_id : Row -> U) (fp : Row -> K (list Z)).

(** [rows.iter().find(|row| row.id == id).ok_or(missing)?], then the row's digest. *)
Definition fingerprint_of (missing : KnowledgeError) (rows : list Row) (id : U) : K (list Z) :=
  match list_find (fun row => row_id row = id) rows with
  | None => Err missing
  | Some (_, row) => fp row
  end.

(** [rows.iter().map(|row| Ok((row.id, fp(row)?))).collect()], stopping at the first error. *)
Fixpoint fingerprint_table (rows : list Row) : K (list (U * list Z)) :=
  match rows with
  | [] => Ok []
  | row :: rows' =>
      digest ← fp row;
      rest ← fingerprint_table rows';
      Ok ((row_id row, digest) :: rest)
  end.

Lemma fingerprint_of_Ok missing (rows : list Row) r :
  NoDup (row_id <$> rows) -> r ∈ rows -> fingerprint_of missing rows (row_id r) = fp r.
Proof.
  intros Hnd (i&Hi)%list_elem_of_lookup. unfold fingerprint_of.
  destruct (list_find _ rows) as [[j r']|] eqn:Ef.
  - apply list_find_Some in Ef as (Hj&Hid&_). assert (j = i) as ->.
    { eapply (NoDup_lookup (row_id <$> rows)); [done| |]; rewrite list_lookup_fmap.
      - by rewrite Hj. - rewrite Hi. simpl. congruence. }
    congruence.
  - apply list_find_None in Ef. rewrite Forall_lookup in Ef. by apply Ef in Hi.
Qed.

Lemma fingerprint_of_None missing (rows : list Row) id :
  id ∉ row_id <$> rows -> fingerprint_of missing rows id = Err missing.
Proof.
  intros Hn. unfold fingerprint_of. destruct (list_find _ rows) as [[j r]|] eqn:Ef; [|done].
  apply list_find_Some in Ef as (Hj&<-&_). destruct Hn.
  by eapply list_elem_of_fmap_2, list_elem_of_lookup_2.
Qed.

Lemma fingerprint_table_eq (h : Row -> list Z) rows :
  (forall r, fp r = Ok (h r)) -> fingerprint_table rows = Ok ((fun r => (row_id r, h r)) <$> rows).
Proof. intros Hh. induction rows as [|r rows IH]; [done|]. cbn. by rewrite Hh, IH. Qed.

(** The one-pass table and the lookup by identity agree. *)
Lemma fingerprint_table_agree (h : Row -> list Z) missing (rows : list Row) :
  (forall r, fp r = Ok (h r)) -> NoDup (row_id <$> rows) ->
  exists table, fingerprint_table rows = Ok table /\ table.*1 = row_id <$> rows /\
    forall id d, (id, d) ∈ table <-> fingerprint_of missing rows id = Ok d.
Proof.
  intros Hh Hnd. rewrite (fingerprint_table_eq h) by done. eexists. split; [done|].
  split; [by rewrite <-list_fmap_compose|]. intros id d. rewrite list_elem_of_fmap. split.
  - intros (r&[= -> ->]&Hr). by rewrite fingerprint_of_Ok, Hh.
  - intros Hd. destruct (decide (id ∈ row_id <$> rows)) as [(r&->&Hr)%list_elem_of_fmap|Hn].
    + rewrite fingerprint_of_Ok, Hh in Hd by done. injection Hd as <-. by exists r.
    + by rewrite fingerprint_of_None in Hd.
Qed.
End fingerprint_tables.

(** Two byte strings that are a collision of a digest function. *)
Definition collision (sha256 : list Z -> list Z) (a b : list Z) : Prop :=
  a <> b /\ sha256 a = sha256 b.

(** A digest of an injective encoding binds the encoded row, up to a collision. *)
Lemma digest_binding {Row} (sha256 : list Z -> list Z) d (enc : Row -> list Z) (ty : Row -> Prop) r1 r2 :
  (forall a b, ty a -> ty b -> enc a = enc b -> a = b) -> ty r1 -> ty r2 ->
  sha256 (preimage_bytes d (enc r1)) = sha256 (preimage_bytes d (enc r2)) ->
  r1 = r2 \/ collision sha256 (preimage_bytes d (enc r1)) (preimage_bytes d (enc r2)).
Proof.
  intros Hinj Ht1 Ht2 Heq.
  destruct (decide (preimage_bytes d (enc r1) = preimage_bytes d (enc r2))) as [Hp|]; [left|by right].
  apply preimage_bytes_inj in Hp as [_ Hb]. by apply Hinj.
Qed.
