(* ===== verification/Status.v ===== *)
(** * Append-only assertion status: [crates/graphforge-knowledge/src/status.rs].

    Status values and their spelling, one status event, and the ledger: validation,
    canonical construction, incremental merge, current status and row fingerprints.
    The Arrow batch encoding is not modelled. *)

From stdpp Require Import base list gmap strings sorting.
From Stdlib Require Import ZArith Lia.
From S2P Require Import Prelude Uuid Canonical Knowledge.

Definition ASSERTION_STATUS_CONTRACT_VERSION : Z := 1.

Module AStatus.
Inductive AssertionStatus :=
| Hypothesis_ | Supported | Refuted | Disputed | Retracted | Superseded.

#[global] Instance status_eq_dec : EqDecision AssertionStatus.
Proof. solve_decision. Defined.

Definition as_str (s : AssertionStatus) : string :=
  match s with
  | Hypothesis_ => "hypothesis"
  | Supported => "supported"
  | Refuted => "refuted"
  | Disputed => "disputed"
  | Retracted => "retracted"
  | Superseded => "superseded"
  end.

Definition parse (value : string) : K AssertionStatus :=
  if decide (value = "hypothesis") then Ok Hypothesis_
  else if decide (value = "supported") then Ok Supported
  else if decide (value = "refuted") then Ok Refuted
  else if decide (value = "disputed") then Ok Disputed
  else if decide (value = "retracted") then Ok Retracted
  else if decide (value = "superseded") then Ok Superseded
  else Err (invalid "assertion_status.status" "unknown registry value").

Definition is_terminal (s : AssertionStatus) : bool :=
  match s with Superseded => true | _ => false end.

(** The persisted spelling and the registry value determine each other. *)
Lemma parse_as_str v s : parse v = Ok s <-> v = as_str s.
Proof.
  unfold parse. split; [|by intros ->; destruct s].
  intros H. repeat case_decide; by inv_result.
Qed.

Lemma status_as_str_short s : lenZ (bytes_of (as_str s)) <= MAX_CANONICAL_TEXT_BYTES.
Proof. destruct s; by vm_compute. Qed.

Lemma status_as_str_inj s1 s2 : as_str s1 = as_str s2 -> s1 = s2.
Proof. intros H%(f_equal parse). destruct s1, s2; done. Qed.
End AStatus.
Abbreviation AssertionStatus := AStatus.AssertionStatus.
Abbreviation is_terminal := AStatus.is_terminal.

Record AssertionStatusEvent (U : Type) := mkStatusEvent {
  status_event_uuid : U;
  assertion_uuid : U;
  status : AssertionStatus;
  confidence_uuid : option U;
  reasoning_uuid : option U;
  provenance_uuid : U;
  recorded_at_micros : Z;
  contract_version : Z;
}.
Arguments mkStatusEvent {U}.
Arguments status_event_uuid {U}.
Arguments assertion_uuid {U}.
Arguments status {U}.
Arguments confidence_uuid {U}.
Arguments reasoning_uuid {U}.
Arguments provenance_uuid {U}.
Arguments recorded_at_micros {U}.
Arguments contract_version {U}.

#[global] Instance status_event_eq_dec `{EqDecision U} : EqDecision (AssertionStatusEvent U).
Proof. solve_decision. Defined.

Section ledger.
Context {U : Type} `{!UuidCrate U}.
Implicit Types (e row event : AssertionStatusEvent U) (events staged : list (AssertionStatusEvent U)).

(** [AssertionStatusEvent::new] *)
Definition status_event_new (event_uuid assertion : U) (st : AssertionStatus)
    (confidence reasoning : option U) (provenance : U) (recorded_at : Z)
    : K (AssertionStatusEvent U) :=
  require_v7 event_uuid "status_event_uuid" ;;
  require_v7 assertion "assertion_uuid" ;;
  require_opt_v7 confidence "confidence_uuid" ;;
  require_opt_v7 reasoning "reasoning_uuid" ;;
  require_uuid provenance "provenance_uuid" ;;
  Ok (mkStatusEvent event_uuid assertion st confidence reasoning provenance recorded_at
        ASSERTION_STATUS_CONTRACT_VERSION).

Definition validate_event (row : AssertionStatusEvent U) : K unit :=
  if negb (contract_version row =? ASSERTION_STATUS_CONTRACT_VERSION)
  then Err (invalid "assertion_status.contract_version" "unsupported version")
  else
    require_v7 (status_event_uuid row) "status_event_uuid" ;;
    require_v7 (assertion_uuid row) "assertion_uuid" ;;
    require_opt_v7 (confidence_uuid row) "confidence_uuid" ;;
    require_opt_v7 (reasoning_uuid row) "reasoning_uuid" ;;
    require_uuid (provenance_uuid row) "provenance_uuid".

Definition superseded_is_terminal : KnowledgeError :=
  invalid "assertion_status.status" "superseded is terminal".

(** The loop of [validate_terminal_sequence], with the set of superseded assertions. *)
Fixpoint terminal_scan (terminal_assertions : gset U) (events : list (AssertionStatusEvent U))
    : K unit :=
  match events with
  | [] => Ok tt
  | event :: events' =>
      if bool_decide (assertion_uuid event ∈ terminal_assertions)
           && negb (is_terminal (status event))
      then Err superseded_is_terminal
      else terminal_scan
             (if is_terminal (status event)
              then {[assertion_uuid event]} ∪ terminal_assertions else terminal_assertions)
             events'
  end.

Definition validate_terminal_sequence (events : list (AssertionStatusEvent U)) : K unit :=
  terminal_scan ∅ events.

(** [events.sort_by_key(|row| (row.recorded_at_micros, row.status_event_uuid))] *)
Definition sort_events (events : list (AssertionStatusEvent U)) : list (AssertionStatusEvent U) :=
  sort_rows status_event_uuid recorded_at_micros events.

Definition status_limit (observed limit : Z) : KnowledgeError :=
  KErr.Limit "assertion_status_events" observed limit.

(** [AssertionStatusLedger::new_with_limit]; a ledger is its list of events. *)
Definition new_with_limit (events : list (AssertionStatusEvent U)) (max_rows : Z)
    : K (list (AssertionStatusEvent U)) :=
  if max_rows <? lenZ events then Err (status_limit (lenZ events) max_rows)
  else
    scan_ids status_event_uuid validate_event (KErr.Duplicate "status_event_uuid") ∅ events ;;
    (let events := sort_events events in
     validate_terminal_sequence events ;; Ok events).

Definition ledger_new (events : list (AssertionStatusEvent U)) : K (list (AssertionStatusEvent U)) :=
  new_with_limit events MAX_KNOWLEDGE_ROWS.

(** The assertions an existing ledger has superseded. *)
Definition terminal_assertions (events : list (AssertionStatusEvent U)) : gset U :=
  list_to_set (assertion_uuid <$> filter (fun row => is_terminal (status row) = true) events).

Definition merge_with_limit (self staged : list (AssertionStatusEvent U)) (max_rows : Z)
    : K (list (AssertionStatusEvent U)) :=
  let terminal := terminal_assertions self in
  events ← merge_loop status_event_uuid
    (fun event =>
       if bool_decide (assertion_uuid event ∈ terminal) && negb (is_terminal (status event))
       then Err superseded_is_terminal else validate_event event)
    (KErr.Conflict "status_event_uuid") staged self (by_id status_event_uuid self);
  if max_rows <? lenZ events then Err (status_limit (lenZ events) max_rows)
  else Ok (sort_events events).

Definition ledger_merge (self staged : list (AssertionStatusEvent U))
    : K (list (AssertionStatusEvent U)) :=
  merge_with_limit self staged MAX_KNOWLEDGE_ROWS.

(** [current_for]: the latest event of an assertion. *)
Definition current_for (events : list (AssertionStatusEvent U)) (assertion : U)
    : option (AssertionStatusEvent U) :=
  max_by_key (row_key status_event_uuid recorded_at_micros)
    (filter (fun row => assertion_uuid row = assertion) events).

(** The bytes [event_fingerprint_for_row] writes. *)
Definition event_writer (row : AssertionStatusEvent U) : W :=
  writer_raw (as_bytes (status_event_uuid row)) ;;
  writer_raw (as_bytes (assertion_uuid row)) ;;
  writer_text (bytes_of (AStatus.as_str (status row))) ;;
  optional_uuid (confidence_uuid row) ;;
  optional_uuid (reasoning_uuid row) ;;
  writer_raw (as_bytes (provenance_uuid row)) ;;
  writer_i64 (recorded_at_micros row) ;;
  writer_u32 (contract_version row).

Definition event_fingerprint_for_row (sha256 : list Z -> list Z) (row : AssertionStatusEvent U)
    : K (list Z) :=
  map_err KErr.Canonical (write_fingerprint sha256 Domain.AssertionStatus (event_writer row)).

(** [event_fingerprint]: the first row with the identity, or a dangling reference. *)
Definition event_fingerprint (sha256 : list Z -> list Z) (events : list (AssertionStatusEvent U))
    (event_uuid : U) : K (list Z) :=
  fingerprint_of status_event_uuid (event_fingerprint_for_row sha256)
    (KErr.Dangling "status_event_uuid") events event_uuid.

(** [event_fingerprints]: one pass, stopping at the first error. *)
Definition event_fingerprints (sha256 : list Z -> list Z) (events : list (AssertionStatusEvent U))
    : K (list (U * list Z)) :=
  fingerprint_table status_event_uuid (event_fingerprint_for_row sha256) events.

(** ** What the checks decide *)

Definition valid_event (row : AssertionStatusEvent U) : Prop :=
  contract_version row = ASSERTION_STATUS_CONTRACT_VERSION /\
  v7 (status_event_uuid row) /\ v7 (assertion_uuid row) /\
  from_option v7 True (confidence_uuid row) /\ from_option v7 True (reasoning_uuid row) /\
  is_nil (provenance_uuid row) = false.

Lemma validate_event_Ok row : validate_event row = Ok tt <-> valid_event row.
Proof.
  unfold validate_event, valid_event.
  rewrite guard_Ok, !bind_unit_Ok, !require_v7_Ok, !require_opt_v7_Ok, require_uuid_Ok.
  by rewrite negb_false_iff, Z.eqb_eq.
Qed.

Lemma status_event_new_Ok id a st c r p t row :
  status_event_new id a st c r p t = Ok row <->
  row = mkStatusEvent id a st c r p t ASSERTION_STATUS_CONTRACT_VERSION /\ valid_event row.
Proof.
  unfold status_event_new, valid_event.
  rewrite !bind_unit_Ok, !require_v7_Ok, !require_opt_v7_Ok, require_uuid_Ok.
  split.
  - intros (?&?&?&?&?&[= <-]). done.
  - intros (->&?&?&?&?&?&?). done.
Qed.

(** A superseded assertion is followed by superseded events only. *)
Definition terminal_closed (events : list (AssertionStatusEvent U)) : Prop :=
  forall i j e e', (i < j)%nat -> events !! i = Some e -> events !! j = Some e' ->
    assertion_uuid e' = assertion_uuid e -> is_terminal (status e) = true ->
    is_terminal (status e') = true.

Lemma terminal_closed_cons e events :
  terminal_closed (e :: events) <->
  (is_terminal (status e) = true ->
     Forall (fun e' => assertion_uuid e' = assertion_uuid e -> is_terminal (status e') = true) events) /\
  terminal_closed events.
Proof.
  unfold terminal_closed. split.
  - intros H. split.
    + intros He. apply Forall_lookup. intros j e' Hj Ha.
      by eapply (H 0%nat (S j)); [lia|..].
    + intros i j e1 e2 Hij H1 H2. eapply (H (S i) (S j)); [lia|done..].
  - intros [He H] [|i] [|j] e1 e2 Hij H1 H2 Ha Ht; try lia; simpl in *; simplify_eq.
    + rewrite Forall_lookup in He. eauto.
    + eapply (H i j); [lia|done..].
Qed.

Lemma terminal_scan_Ok S events :
  terminal_scan S events = Ok tt <->
  Forall (fun e => assertion_uuid e ∈ S -> is_terminal (status e) = true) events /\
  terminal_closed events.
Proof.
  revert S. induction events as [|e events IH]; intros S; simpl.
  - split; [|done]. split; [constructor|]. intros i j e1 e2 _ He. done.
  - rewrite guard_Ok, andb_false_iff, negb_false_iff, bool_decide_eq_false, IH,
      terminal_closed_cons, Forall_cons, !Forall_forall. clear IH.
    destruct (is_terminal (status e)) eqn:Et; [|naive_solver].
    setoid_rewrite elem_of_union. setoid_rewrite elem_of_singleton. naive_solver.
Qed.

(** The invariant of a validated ledger. *)
Definition ledger_ok (events : list (AssertionStatusEvent U)) : Prop :=
  ledger_wf status_event_uuid recorded_at_micros events /\ Forall valid_event events /\
  terminal_closed events.

Lemma new_with_limit_Ok events max_rows l :
  new_with_limit events max_rows = Ok l <->
  lenZ events <= max_rows /\ Forall valid_event events /\
  NoDup (status_event_uuid <$> events) /\ l = sort_events events /\ terminal_closed l.
Proof.
  unfold new_with_limit, validate_terminal_sequence.
  rewrite guard_Ok, Z.ltb_ge, !bind_unit_Ok, scan_ids_Ok, terminal_scan_Ok.
  assert (Hv : Forall (fun r => validate_event r = Ok tt) events <-> Forall valid_event events).
  { apply Forall_iff. intros. apply validate_event_Ok. }
  rewrite Hv. split.
  - intros (?&(?&?&_)&(_&?)&[= <-]). done.
  - intros (?&?&?&->&?). split_and!; try done; apply Forall_true; set_solver.
Qed.

(** ** Terminal order, stated on keys instead of positions *)

Abbreviation event_le := (key_le (row_key status_event_uuid recorded_at_micros)).

Definition terminal_ordered (events : list (AssertionStatusEvent U)) : Prop :=
  forall e e', e ∈ events -> e' ∈ events -> assertion_uuid e' = assertion_uuid e ->
    is_terminal (status e) = true -> event_le e e' -> is_terminal (status e') = true.

Lemma terminal_closed_iff events :
  ledger_wf status_event_uuid recorded_at_micros events ->
  terminal_closed events <-> terminal_ordered events.
Proof.
  intros [Hs Hnd]. split.
  - intros Hc e e' (i&Hi)%list_elem_of_lookup (j&Hj)%list_elem_of_lookup Ha Ht Hle.
    destruct (decide (i = j)) as [->|Hne]; [congruence|].
    destruct (decide (i < j)%nat); [by eapply (Hc i j)|].
    assert (Hge : event_le e' e) by (eapply (StronglySorted_lookup _ _ j i); [done|lia|done..]).
    assert (Hk : row_key status_event_uuid recorded_at_micros e =
                 row_key status_event_uuid recorded_at_micros e') by (by apply ord_antisymm).
    injection Hk as _ Hid.
    destruct Hne. eapply (NoDup_lookup (status_event_uuid <$> events)); [done| |];
      rewrite list_lookup_fmap; [by rewrite Hi|rewrite Hj; simpl; congruence].
  - intros Ho i j e e' Hij Hi Hj Ha Ht. eapply (Ho e e'); eauto using list_elem_of_lookup_2.
    by eapply StronglySorted_lookup.
Qed.

(** ** The merge *)

Lemma elem_of_terminal_assertions events a :
  a ∈ terminal_assertions events <->
  exists e, e ∈ events /\ assertion_uuid e = a /\ is_terminal (status e) = true.
Proof.
  unfold terminal_assertions. rewrite elem_of_list_to_set, list_elem_of_fmap.
  setoid_rewrite list_elem_of_filter. naive_solver.
Qed.

(** A new staged event of an assertion the ledger has superseded must be terminal. *)
Definition respects_terminal (self : list (AssertionStatusEvent U)) (e : AssertionStatusEvent U) : Prop :=
  assertion_uuid e ∈ terminal_assertions self -> is_terminal (status e) = true.

Lemma merge_with_limit_Ok self staged max_rows out :
  NoDup (status_event_uuid <$> staged) ->
  let fresh := new_rows status_event_uuid (by_id status_event_uuid self) staged in
  merge_with_limit self staged max_rows = Ok out <->
  replays status_event_uuid (by_id status_event_uuid self) staged /\
  Forall (fun e => respects_terminal self e /\ valid_event e) fresh /\
  lenZ (self ++ fresh) <= max_rows /\ out = sort_events (self ++ fresh).
Proof.
  intros Hnd fresh. unfold merge_with_limit. rewrite bind_Ok.
  assert (Hchk : Forall (fun event =>
      (if bool_decide (assertion_uuid event ∈ terminal_assertions self)
            && negb (is_terminal (status event))
       then Err superseded_is_terminal else validate_event event) = Ok tt) fresh <->
    Forall (fun e => respects_terminal self e /\ valid_event e) fresh).
  { apply Forall_iff. intros e. rewrite guard_Ok, validate_event_Ok, andb_false_iff,
      negb_false_iff, bool_decide_eq_false. unfold respects_terminal.
    destruct (is_terminal (status e)); naive_solver. }
  setoid_rewrite guard_Ok. setoid_rewrite Z.ltb_ge. split.
  - intros (events&Hm&?&[= <-]). apply merge_loop_Ok in Hm as (?&?&->); [|done]. naive_solver.
  - intros (?&?&?&->). exists (self ++ fresh). split; [|done]. apply merge_loop_Ok; naive_solver.
Qed.

Lemma merge_wf self staged max_rows out :
  ledger_wf status_event_uuid recorded_at_micros self ->
  ledger_wf status_event_uuid recorded_at_micros staged ->
  merge_with_limit self staged max_rows = Ok out ->
  merges_to status_event_uuid recorded_at_micros self staged out.
Proof.
  intros Hself Hst Hm. apply merge_with_limit_Ok in Hm as (?&_&_&->); [|by destruct Hst].
  by apply merged_spec.
Qed.

(** No staged superseded event precedes an existing live event of its assertion. *)
Definition no_backdated_terminal (self staged : list (AssertionStatusEvent U)) : Prop :=
  forall s e, s ∈ staged -> e ∈ self -> assertion_uuid e = assertion_uuid s ->
    is_terminal (status s) = true -> event_le s e -> is_terminal (status e) = true.

Lemma merge_terminal self staged max_rows out :
  ledger_ok self -> ledger_ok staged ->
  merge_with_limit self staged max_rows = Ok out ->
  terminal_closed out <-> no_backdated_terminal self staged.
Proof.
  intros (Hw1&_&Ht1) (Hw2&_&Ht2) Hm. pose proof (merge_wf _ _ _ _ Hw1 Hw2 Hm) as Hmt.
  assert (He := fun e => merges_to_elem _ _ self staged out e (proj2 Hw1) (proj2 Hw2) Hmt).
  rewrite terminal_closed_iff by apply Hmt.
  rewrite terminal_closed_iff in Ht1, Ht2 by done.
  apply merge_with_limit_Ok in Hm as (Hrep&Hfresh&_&_); [|apply Hw2].
  split.
  - intros Ho s e Hs Hin Ha Ht Hle. eapply (Ho s e); rewrite ?He; eauto.
  - intros Hnb e e' [He1|He1]%He [He2|He2]%He Ha Ht Hle; eauto.
    destruct (by_id status_event_uuid self !! status_event_uuid e') as [e0|] eqn:E0.
    + unfold replays in Hrep. rewrite Forall_forall in Hrep.
      rewrite (Hrep _ He2 _ E0) in E0. apply by_id_Some in E0 as [? _]; [eauto|apply Hw1].
    + rewrite Forall_forall in Hfresh. apply (Hfresh e').
      * by apply new_rows_elem.
      * apply elem_of_terminal_assertions. eauto.
Qed.

(** ** Fingerprints *)

Definition event_bytes (row : AssertionStatusEvent U) : list Z :=
  as_bytes (status_event_uuid row) ++ as_bytes (assertion_uuid row) ++
  text_bytes (bytes_of (AStatus.as_str (status row))) ++
  opt_uuid_bytes (confidence_uuid row) ++ opt_uuid_bytes (reasoning_uuid row) ++
  as_bytes (provenance_uuid row) ++ to_be 8 (recorded_at_micros row) ++
  to_be 4 (contract_version row).

Lemma event_writer_writes row : writes (event_writer row) (event_bytes row).
Proof.
  unfold event_writer, event_bytes, text_bytes.
  pose proof (AStatus.status_as_str_short (status row)). eauto 12 with writes.
Qed.

(** The widths of the Rust fields. *)
Definition typed_event (row : AssertionStatusEvent U) : Prop :=
  in_i64 (recorded_at_micros row) /\ 0 <= contract_version row <= u32_max.

Lemma event_bytes_inj r1 r2 :
  typed_event r1 -> typed_event r2 -> event_bytes r1 = event_bytes r2 -> r1 = r2.
Proof.
  intros [Ht1 Hv1] [Ht2 Hv2] H. destruct r1, r2; unfold event_bytes in H; simpl in *.
  apply as_bytes_app_inj in H as [-> H]. apply as_bytes_app_inj in H as [-> H].
  apply text_app_inj in H as [Hs%bytes_of_inj%AStatus.status_as_str_inj H];
    [|apply AStatus.status_as_str_short..]. subst.
  apply opt_uuid_app_inj in H as [-> H]. apply opt_uuid_app_inj in H as [-> H].
  apply as_bytes_app_inj in H as [-> H]. apply i64_app_inj in H as [-> H]; [|done..].
  apply to_be_inj_unsigned in H as ->; [done|unfold u32_max in *; cbn; lia..].
Qed.

Lemma opt_uuid_bytes_length (o : option U) : (length (opt_uuid_bytes o) <= 17)%nat.
Proof. destruct o; simpl; rewrite ?as_bytes_length; lia. Qed.

Lemma event_bytes_length row : lenZ (event_bytes row) <= 256.
Proof.
  unfold event_bytes, text_bytes.
  rewrite !length_app, !as_bytes_length, !to_be_length.
  pose proof (opt_uuid_bytes_length (confidence_uuid row)).
  pose proof (opt_uuid_bytes_length (reasoning_uuid row)).
  assert (length (bytes_of (AStatus.as_str (status row))) <= 10)%nat
    by (destruct (status row); cbv; lia). lia.
Qed.

Lemma event_fingerprint_for_row_eq sha256 row :
  event_fingerprint_for_row sha256 row =
  Ok (sha256 (preimage_bytes Domain.AssertionStatus (event_bytes row))).
Proof.
  unfold event_fingerprint_for_row. pose proof (event_bytes_length row).
  by rewrite (write_fingerprint_eq _ _ _ _ (event_writer_writes row)) by lia.
Qed.
End ledger.

(** ** Properties *)

Section properties.
Context {U : Type} `{!UuidCrate U}.
Implicit Types (events staged self out l : list (AssertionStatusEvent U)).

Lemma ledger_new_Ok events l :
  ledger_new events = Ok l ->
  ledger_ok l /\ l ≡ₚ events /\ lenZ l <= MAX_KNOWLEDGE_ROWS.
Proof.
  intros (Hlen&Hv&Hnd&->&Ht)%new_with_limit_Ok.
  assert (Hp : sort_events events ≡ₚ events) by apply sort_rows_perm.
  split_and!; [|done|by rewrite Hp]. split_and!; [|by rewrite Hp|done].
  by apply sort_rows_wf.
Qed.

Lemma ledger_new_id l : ledger_ok l -> lenZ l <= MAX_KNOWLEDGE_ROWS -> ledger_new l = Ok l.
Proof.
  intros (Hw&Hv&Ht) Hlen. apply new_with_limit_Ok.
  unfold sort_events. rewrite sort_rows_id by done. by destruct Hw.
Qed.

(** C31 A ledger is accepted unchanged exactly when it is sorted by time and identity,
    free of repeated identities, made of valid events, closed under supersession and
    within the row limit; and whatever [new] accepts is such a ledger with the same rows. *)
Theorem status_ledger_new_spec events l :
  (ledger_new l = Ok l <-> ledger_ok l /\ lenZ l <= MAX_KNOWLEDGE_ROWS) /\
  (ledger_new events = Ok l -> ledger_ok l /\ l ≡ₚ events /\ ledger_new l = Ok l).
Proof.
  split.
  - split; [intros (?&_&?)%ledger_new_Ok; done|intros []; by apply ledger_new_id].
  - intros (?&?&?)%ledger_new_Ok. split_and!; try done. by apply ledger_new_id.
Qed.

(** The canonical ledger does not depend on the order the rows are supplied in. *)
Theorem status_ledger_new_order events events' l :
  events ≡ₚ events' -> ledger_new events = Ok l -> ledger_new events' = Ok l.
Proof.
  intros Hp (Hlen&Hv&Hnd&->&Ht)%new_with_limit_Ok. apply new_with_limit_Ok.
  assert (sort_events events = sort_events events') as <-.
  { apply sort_by_key_unique; [by apply NoDup_row_key|done]. }
  rewrite <-Hp. done.
Qed.

Lemma merge_valid self staged max_rows out :
  ledger_ok self -> ledger_ok staged -> merge_with_limit self staged max_rows = Ok out ->
  Forall valid_event out.
Proof.
  intros (Hw1&Hv1&_) (Hw2&Hv2&_) Hm. pose proof (merge_wf _ _ _ _ Hw1 Hw2 Hm) as Hmt.
  rewrite Forall_forall in *. intros e He.
  apply (merges_to_elem _ _ self staged out e (proj2 Hw1) (proj2 Hw2) Hmt) in He as [?|?]; auto.
Qed.

(** C32 A merge that succeeds is the union of the two ledgers by event identity: every
    existing row survives unchanged, every staged row is present, shared identities
    carry identical rows, and the result is sorted, free of duplicates and made of valid rows
    (whether superseded is still terminal in it is a property of its own). *)
Theorem status_merge_union self staged out :
  ledger_ok self -> ledger_ok staged -> ledger_merge self staged = Ok out ->
  merges_to status_event_uuid recorded_at_micros self staged out /\
  Forall valid_event out /\ (forall e, e ∈ out <-> e ∈ self \/ e ∈ staged).
Proof.
  intros Hself Hst Hm. pose proof Hself as (Hw1&_). pose proof Hst as (Hw2&_).
  pose proof (merge_wf _ _ _ _ Hw1 Hw2 Hm) as Hmt. split; [done|]. split; [exact (merge_valid _ _ _ _ Hself Hst Hm)|].
  intros e. eapply merges_to_elem; [apply Hw1|apply Hw2|done].
Qed.

(** Replaying already merged events is accepted and changes nothing. *)
Theorem status_merge_replay self staged out :
  ledger_ok self -> ledger_ok staged -> ledger_merge self staged = Ok out ->
  ledger_merge out staged = Ok out.
Proof.
  intros (Hw1&_) (Hw2&_) Hm. pose proof (merge_wf _ _ _ _ Hw1 Hw2 Hm) as Hmt.
  pose proof (merges_to_replay _ _ _ _ _ Hmt) as (Hag&Hwo&_).
  apply merge_with_limit_Ok in Hm as (_&_&Hlen&Hout); [|apply Hw2].
  assert (Hnew : new_rows status_event_uuid (by_id status_event_uuid out) staged = [])
    by (eapply merges_to_no_new; [apply Hw1|apply Hw2|done]).
  apply merge_with_limit_Ok; [apply Hw2|]. rewrite Hnew, app_nil_r. split_and!.
  - apply replays_agree; [apply Hw2|done].
  - constructor.
  - rewrite Hout. unfold sort_events. by rewrite sort_rows_perm.
  - unfold sort_events. by rewrite sort_rows_id.
Qed.

(** C39 A merged ledger can be read back exactly when no staged superseded event is
    ordered before an existing live event of the same assertion. *)
Theorem status_merge_reload self staged out :
  ledger_ok self -> ledger_ok staged -> ledger_merge self staged = Ok out ->
  ledger_new out = Ok out <-> no_backdated_terminal self staged.
Proof.
  intros Hself Hst Hm. rewrite <-(merge_terminal _ _ _ _ Hself Hst Hm).
  pose proof (merge_valid _ _ _ _ Hself Hst Hm) as Hv.
  assert (Hmt : merges_to status_event_uuid recorded_at_micros self staged out)
    by (eapply merge_wf; [apply Hself|apply Hst|done]).
  split.
  - intros ((_&_&?)&_&_)%ledger_new_Ok. done.
  - intros Ht. apply ledger_new_id; [by destruct Hmt as (_&?&_)|].
    apply merge_with_limit_Ok in Hm as (_&_&Hlen&->); [|apply Hst].
    unfold sort_events. by rewrite sort_rows_perm.
Qed.

(** Once an assertion has a superseded event, its current status is superseded. *)
Theorem status_current_terminal l e :
  ledger_ok l -> e ∈ l -> is_terminal (status e) = true ->
  exists c, current_for l (assertion_uuid e) = Some c /\ c ∈ l /\
    assertion_uuid c = assertion_uuid e /\ status c = AStatus.Superseded.
Proof.
  intros (Hw&_&Ht) He Hterm. rewrite terminal_closed_iff in Ht by done. unfold current_for.
  destruct (max_by_key _ _) as [c|] eqn:Ec.
  - apply max_by_key_spec in Ec as [Hc Hmax]. apply list_elem_of_filter in Hc as [Ha Hc].
    exists c. split_and!; try done. rewrite Forall_forall in Hmax.
    assert (is_terminal (status c) = true) as Htc.
    { eapply (Ht e c); try done. apply Hmax. by apply list_elem_of_filter. }
    by destruct (status c).
  - apply max_by_key_None in Ec. exfalso. eapply (not_elem_of_nil e). rewrite <-Ec.
    by apply list_elem_of_filter.
Qed.

(** Every event has a fingerprint, and two events share one only when they are the
    same row or their preimages are a SHA-256 collision. *)
Theorem status_fingerprint_binding (sha256 : list Z -> list Z) (r1 r2 : AssertionStatusEvent U) :
  typed_event r1 -> typed_event r2 ->
  exists h1 h2, event_fingerprint_for_row sha256 r1 = Ok h1 /\
    event_fingerprint_for_row sha256 r2 = Ok h2 /\
    (h1 = h2 -> r1 = r2 \/
      collision sha256 (preimage_bytes Domain.AssertionStatus (event_bytes r1))
        (preimage_bytes Domain.AssertionStatus (event_bytes r2))).
Proof.
  intros Hr1 Hr2. rewrite !event_fingerprint_for_row_eq. do 2 eexists. split_and!; [done..|].
  intros Heq. by apply (digest_binding _ _ event_bytes typed_event); [apply event_bytes_inj|..].
Qed.

(** The one-pass fingerprint table agrees with the per-identity lookup: it has one
    entry per row in ledger order, and each entry is what the lookup returns. *)
Theorem status_fingerprints_agree (sha256 : list Z -> list Z) l :
  NoDup (status_event_uuid <$> l) ->
  exists table, event_fingerprints sha256 l = Ok table /\
    table.*1 = status_event_uuid <$> l /\
    forall id h, (id, h) ∈ table <-> event_fingerprint sha256 l id = Ok h.
Proof.
  apply (fingerprint_table_agree _ _
    (fun r => sha256 (preimage_bytes Domain.AssertionStatus (event_bytes r)))).
  apply event_fingerprint_for_row_eq.
Qed.
End properties.

(** ** Witnesses *)

Definition demo_event (id assertion : Z) (st : AssertionStatus) (time : Z) : AssertionStatusEvent Uuid128 :=
  mkStatusEvent (uuid7 id) (uuid7 assertion) st None None (uuid7 (id + 100)) time 1.

Definition demo_base : list (AssertionStatusEvent Uuid128) := [demo_event 1 20 AStatus.Supported 10].
Definition demo_next : list (AssertionStatusEvent Uuid128) := [demo_event 2 20 AStatus.Superseded 11].
Definition demo_both : list (AssertionStatusEvent Uuid128) := demo_base ++ demo_next.

Lemma demo_base_ok : ledger_ok demo_base.
Proof. apply (ledger_new_Ok demo_base). by vm_compute. Qed.
Lemma demo_next_ok : ledger_ok demo_next.
Proof. apply (ledger_new_Ok demo_next). by vm_compute. Qed.
Lemma demo_both_ok : ledger_ok demo_both.
Proof. apply (ledger_new_Ok demo_both). by vm_compute. Qed.

(** A staged superseded event that is recorded before an existing live event of the
    same assertion is accepted by the merge, although both ledgers are valid, and the
    merged ledger is then refused when it is read back. *)
Theorem status_merge_backdated_unreadable :
  exists self staged out : list (AssertionStatusEvent Uuid128),
    ledger_new self = Ok self /\ ledger_new staged = Ok staged /\
    ledger_merge self staged = Ok out /\ ledger_new out = Err superseded_is_terminal.
Proof.
  exists [demo_event 1 20 AStatus.Supported 10], [demo_event 2 20 AStatus.Superseded 5],
    [demo_event 2 20 AStatus.Superseded 5; demo_event 1 20 AStatus.Supported 10].
  split_and!; by vm_compute.
Qed.

Lemma status_ledger_new_spec_witness :
  ledger_new [demo_event 2 20 AStatus.Superseded 11; demo_event 1 20 AStatus.Supported 10] = Ok demo_both /\
  ledger_new demo_both = Ok demo_both.
Proof.
  split; [by vm_compute|].
  apply (status_ledger_new_spec
    [demo_event 2 20 AStatus.Superseded 11; demo_event 1 20 AStatus.Supported 10] demo_both).
  by vm_compute.
Defined.

Lemma status_ledger_new_order_witness :
  ledger_new [demo_event 2 20 AStatus.Superseded 11; demo_event 1 20 AStatus.Supported 10] = Ok demo_both.
Proof.
  apply (status_ledger_new_order demo_both); [apply Permutation_swap|by vm_compute].
Defined.

Lemma status_merge_union_witness :
  merges_to status_event_uuid recorded_at_micros demo_base demo_next demo_both.
Proof.
  apply (status_merge_union demo_base demo_next demo_both);
    [apply demo_base_ok|apply demo_next_ok|by vm_compute].
Defined.

Lemma status_merge_replay_witness : ledger_merge demo_both demo_next = Ok demo_both.
Proof.
  apply (status_merge_replay demo_base); [apply demo_base_ok|apply demo_next_ok|by vm_compute].
Defined.

Lemma status_merge_reload_witness : no_backdated_terminal demo_base demo_next.
Proof.
  apply (status_merge_reload demo_base demo_next demo_both);
    [apply demo_base_ok|apply demo_next_ok|by vm_compute..].
Defined.

Lemma status_current_terminal_witness :
  exists c, current_for demo_both (uuid7 20) = Some c /\ status c = AStatus.Superseded.
Proof.
  destruct (status_current_terminal demo_both (demo_event 2 20 AStatus.Superseded 11)) as (c&Hc&_&_&Hs);
    [apply demo_both_ok|right; left|done|]. by exists c.
Defined.

Lemma status_fingerprint_binding_witness :
  exists h, event_fingerprint_for_row (fun b => take 32 (rev b)) (demo_event 1 20 AStatus.Refuted (-5)) = Ok h.
Proof.
  destruct (status_fingerprint_binding (fun b => take 32 (rev b)) (demo_event 1 20 AStatus.Refuted (-5))
    (demo_event 1 20 AStatus.Refuted (-5))) as (h&_&Hh&_);
    [split; unfold in_i64, i64_min, i64_max, u32_max; simpl; lia..|]. by exists h.
Defined.

Lemma status_fingerprints_agree_witness :
  exists table, event_fingerprints (fun b => take 32 (rev b)) demo_both = Ok table /\ length table = 2%nat.
Proof.
  destruct (status_fingerprints_agree (fun b => take 32 (rev b)) demo_both) as (t&Ht&Hids&_).
  - apply demo_both_ok.
  - exists t. split; [done|]. by apply (f_equal length) in Hids; rewrite length_fmap in Hids.
Defined.
