(* ===== verification/Supersession.v ===== *)
(** * Assertion supersession: [crates/graphforge-knowledge/src/supersession.rs].

    Immutable "replaced by" relations between assertions: row validation, the
    depth-first cycle check, canonical construction, merge and fingerprints.
    [HashMap] iteration order is a parameter of the cycle check.  [None] is a recursion that has not
    ended within its fuel; it is never an answer of the check. *)

From stdpp Require Import base list gmap strings sorting relations.
From Stdlib Require Import ZArith Lia.
From S2P Require Import Prelude Uuid Canonical Knowledge.

Definition ASSERTION_SUPERSESSION_CONTRACT_VERSION : Z := 1.

Record AssertionSupersession (U : Type) := mkSupersession {
  supersession_uuid : U;
  prior_assertion_uuid : U;
  replacement_assertion_uuid : U;
  sup_status_event_uuid : U;
  sup_reasoning_uuid : U;
  sup_provenance_uuid : U;
  sup_recorded_at_micros : Z;
  sup_contract_version : Z;
}.
Arguments mkSupersession {U}.
Arguments supersession_uuid {U}.
Arguments prior_assertion_uuid {U}.
Arguments replacement_assertion_uuid {U}.
Arguments sup_status_event_uuid {U}.
Arguments sup_reasoning_uuid {U}.
Arguments sup_provenance_uuid {U}.
Arguments sup_recorded_at_micros {U}.
Arguments sup_contract_version {U}.

#[global] Instance supersession_eq_dec `{EqDecision U} : EqDecision (AssertionSupersession U).
Proof. solve_decision. Defined.

(** ** The cycle check *)

Section cycles.
Context {U : Type} `{!UuidCrate U}.
Implicit Types (adj : gmap U (list U)) (visiting acyclic V A : gset U).

(** One recursive [visit]; the result carries the two mutated sets.  [None] is
    running out of fuel, which bounds the recursion depth. *)
Fixpoint visit (fuel : nat) (adj : gmap U (list U)) (node : U) (visiting acyclic : gset U)
    : option (bool * gset U * gset U) :=
  match fuel with
  | O => None
  | S fuel =>
      if decide (node ∈ acyclic) then Some (true, visiting, acyclic)
      else if decide (node ∈ visiting) then Some (false, visiting, acyclic)
      else
        let visiting := {[node]} ∪ visiting in
        (* [next.iter().any(|child| !visit(child))] *)
        let fix any_cyclic (next : list U) (visiting acyclic : gset U)
            : option (bool * gset U * gset U) :=
          match next with
          | [] => Some (false, visiting, acyclic)
          | child :: next' =>
              match visit fuel adj child visiting acyclic with
              | None => None
              | Some (true, visiting', acyclic') => any_cyclic next' visiting' acyclic'
              | Some (false, visiting', acyclic') => Some (true, visiting', acyclic')
              end
          end in
        match any_cyclic (default [] (adj !! node)) visiting acyclic with
        | None => None
        | Some (true, visiting', acyclic') => Some (false, visiting', acyclic')
        | Some (false, visiting', acyclic') =>
            Some (true, visiting' ∖ {[node]}, {[node]} ∪ acyclic')
        end
  end.

(** The loop over the keys of the adjacency map, in iteration order [keys]. *)
Fixpoint visit_all (fuel : nat) (adj : gmap U (list U)) (keys : list U) (visiting acyclic : gset U)
    : option bool :=
  match keys with
  | [] => Some true
  | node :: keys' =>
      match visit fuel adj node visiting acyclic with
      | None => None
      | Some (false, _, _) => Some false
      | Some (true, visiting', acyclic') => visit_all fuel adj keys' visiting' acyclic'
      end
  end.

(** [adjacency.entry(prior).or_default().push(replacement)] for every row. *)
Definition adjacency (relations : list (AssertionSupersession U)) : gmap U (list U) :=
  foldl (fun adj row =>
    <[prior_assertion_uuid row :=
        default [] (adj !! prior_assertion_uuid row) ++ [replacement_assertion_uuid row]]> adj)
    ∅ relations.

(** Enough fuel for every recursion: one more than the number of keys. *)
Definition visit_fuel (adj : gmap U (list U)) : nat := S (size adj).

(** [None] when the recursion has not ended. *)
Definition validate_acyclic (keys : list U) (relations : list (AssertionSupersession U)) : option (K unit) :=
  let adj := adjacency relations in
  acyclic ← visit_all (visit_fuel adj) adj keys ∅ ∅;
  Some (if (acyclic : bool) then Ok tt else Err (invalid "assertion_supersession" "cycle detected")).

(** ** Correctness of the traversal *)

Definition edge (adj : gmap U (list U)) (x y : U) : Prop :=
  exists next, adj !! x = Some next /\ y ∈ next.

Lemma edge_default adj x y : edge adj x y <-> y ∈ default [] (adj !! x).
Proof. unfold edge. destruct (adj !! x); simpl; [naive_solver|set_solver]. Qed.

(** Nodes proved acyclic: closed under successors and on no cycle. *)
Definition settled (adj : gmap U (list U)) (A : gset U) : Prop :=
  (forall x y, x ∈ A -> edge adj x y -> y ∈ A) /\ (forall x, x ∈ A -> ~ tc (edge adj) x x).

Lemma settled_reach adj A x y : settled adj A -> x ∈ A -> tc (edge adj) x y -> y ∈ A.
Proof. intros [Hc _] Hx Ht. induction Ht; eauto. Qed.

Definition visit_post (adj : gmap U (list U)) (V A : gset U) (nodes : list U)
    (b : bool) (V' A' : gset U) : Prop :=
  if b
  then V' = V /\ A ⊆ A' /\ Forall (fun n => n ∈ A') nodes /\ settled adj A' /\ V ## A'
  else exists x, tc (edge adj) x x.

Lemma size_diff_cons adj node V :
  node ∈ dom adj -> node ∉ V ->
  (size (dom adj ∖ V) = S (size (dom adj ∖ ({[node]} ∪ V))))%nat.
Proof.
  intros Hd Hn.
  assert (dom adj ∖ V = {[node]} ∪ dom adj ∖ ({[node]} ∪ V)) as ->.
  { apply set_eq. intros x. destruct (decide (x = node)); set_solver. }
  rewrite size_union by set_solver. by rewrite size_singleton.
Qed.

Lemma visit_spec adj fuel node V A :
  (size (dom adj ∖ V) < fuel)%nat -> settled adj A -> V ## A ->
  (forall v, v ∈ V -> tc (edge adj) v node) ->
  exists b V' A', visit fuel adj node V A = Some (b, V', A') /\
    visit_post adj V A [node] b V' A'.
Proof.
  revert node V A. induction fuel as [|fuel IH]; intros node V A Hfuel HA HVA Hpath; [lia|].
  cbn [visit]. case_decide as HinA.
  { exists true, V, A. split; [done|]. split_and!; try done. by constructor. }
  case_decide as HinV.
  { exists false, V, A. split; [done|]. exists node. auto. }
  set (V1 := {[node]} ∪ V).
  set (any_cyclic := fix any_cyclic (next : list U) (visiting acyclic : gset U) := _).
  assert (Hany : forall next A0, (forall c, c ∈ next -> edge adj node c) -> settled adj A0 -> V1 ## A0 ->
    exists b V' A', any_cyclic next V1 A0 = Some (negb b, V', A') /\
      visit_post adj V1 A0 next b V' A').
  { intros next. induction next as [|c next IHn]; intros A0 Hnext HA0 HV0.
    - exists true, V1, A0. split; [done|]. split_and!; try done.
    - assert (Hec : edge adj node c) by (apply Hnext; by left).
      destruct (IH c V1 A0) as (b&V'&A'&Hv&Hpost); try done.
      + assert (Hnd : node ∈ dom adj) by (destruct Hec as (?&?&_); by apply elem_of_dom).
        rewrite (size_diff_cons adj node V) in Hfuel by done. unfold V1. lia.
      + intros v [->%elem_of_singleton|Hv]%elem_of_union; [by apply tc_once|].
        eapply tc_r; eauto.
      + simpl. rewrite Hv. destruct b; simpl in Hpost.
        * destruct Hpost as (->&Hsub&Hc&HA'&HV').
          destruct (IHn A') as (b&V''&A''&Ha&Hpost');
            [by intros c' Hc'; apply Hnext; right|done..|].
          exists b, V'', A''. split; [done|]. destruct b; simpl in *; [|done].
          destruct Hpost' as (->&Hsub'&Hall&?&?). apply Forall_cons_1 in Hc as [Hc _].
          split_and!; try done; [by transitivity A'|]. constructor; [|done].
          eapply elem_of_weaken; [exact Hc|exact Hsub'].
        * exists false, V', A'. done. }
  destruct (Hany (default [] (adj !! node)) A) as (b&V'&A'&Ha&Hpost);
    [by intros c Hc; apply edge_default|done|clear -HVA HinA; set_solver|].
  rewrite Ha. destruct b; simpl in *; [|exists false, V', A'; done].
  destruct Hpost as (->&Hsub&Hall&HA'&HV').
  exists true, (V1 ∖ {[node]}), ({[node]} ∪ A'). split; [done|]. rewrite Forall_forall in Hall.
  assert (Hnode : node ∉ A') by (clear -HV'; set_solver).
  split_and!.
  - apply set_eq. clear -HinV. set_solver.
  - clear -Hsub. set_solver.
  - constructor; [by apply elem_of_union_l, elem_of_singleton|constructor].
  - destruct HA' as [Hcl Hac]. split.
    + intros x y [->%elem_of_singleton|Hx]%elem_of_union Hxy; apply elem_of_union; right; [|eauto].
      apply Hall. by apply edge_default.
    + intros x [->%elem_of_singleton|Hx]%elem_of_union Ht; [|by eapply Hac].
      inversion Ht as [? ? Hc|? c ? Hc Ht']; subst.
      * apply Hnode, Hall. by apply edge_default.
      * apply Hnode. eapply (settled_reach adj A' c); [by split|by apply Hall, edge_default|done].
  - clear -HV' HinV. set_solver.
Qed.

(** The key loop, from an empty stack. *)
Lemma visit_all_spec adj fuel keys A :
  (size (dom adj) < fuel)%nat -> settled adj A ->
  exists b, visit_all fuel adj keys ∅ A = Some b /\
    (b = true -> exists A', A ⊆ A' /\ settled adj A' /\ Forall (fun n => n ∈ A') keys) /\
    (b = false -> exists x, tc (edge adj) x x).
Proof.
  intros Hfuel. revert A. induction keys as [|node keys IH]; intros A HA; simpl.
  - exists true. split_and!; [done| |done]. intros _. by exists A.
  - destruct (visit_spec adj fuel node ∅ A) as (b&V'&A'&Hv&Hpost);
      [by rewrite difference_empty_L|done|apply disjoint_empty_l|by intros v ?%not_elem_of_empty|].
    rewrite Hv. destruct b; simpl in Hpost.
    + destruct Hpost as (->&Hsub&[Hn _]%Forall_cons_1&HA'&_).
      destruct (IH A' HA') as (b&Hall&Ht&Hf). exists b. split_and!; try done.
      intros Hb. destruct (Ht Hb) as (A''&?&?&?). exists A''. split_and!; [by transitivity A'|done|].
      constructor; [|done]. by eapply elem_of_weaken; [exact Hn|].
    + by exists false.
Qed.

(** ** Edges of the adjacency map are the rows *)

Definition supersedes (relations : list (AssertionSupersession U)) (x y : U) : Prop :=
  exists row, row ∈ relations /\ prior_assertion_uuid row = x /\ replacement_assertion_uuid row = y.

Lemma adjacency_edge relations x y : edge (adjacency relations) x y <-> supersedes relations x y.
Proof.
  rewrite edge_default. unfold adjacency, supersedes.
  assert (Hgen : forall adj, y ∈ default [] (foldl (fun adj row =>
      <[prior_assertion_uuid row :=
        default [] (adj !! prior_assertion_uuid row) ++ [replacement_assertion_uuid row]]> adj)
      adj relations !! x) <->
    y ∈ default [] (adj !! x) \/
    exists row, row ∈ relations /\ prior_assertion_uuid row = x /\ replacement_assertion_uuid row = y).
  { induction relations as [|r relations IH]; intros adj; cbn [foldl].
    - split; [by left|]. intros [?|(?&?%not_elem_of_nil&_)]; done.
    - rewrite IH. clear IH. setoid_rewrite elem_of_cons.
      destruct (decide (prior_assertion_uuid r = x)) as [<-|Hne].
      + rewrite lookup_insert_eq. simpl. rewrite elem_of_app, list_elem_of_singleton. split.
        * intros [[?| ->]|(row&?&?&?)]; [by left|right; exists r; auto|right; exists row; auto].
        * intros [?|(row&[->|?]&?&?)]; [tauto|subst; tauto|]. right. by exists row.
      + rewrite lookup_insert_ne by done. split.
        * intros [?|(row&?&?&?)]; [by left|]. right. exists row. auto.
        * intros [?|(row&[->|?]&?&?)]; [by left|done|]. right. by exists row. }
  rewrite Hgen, lookup_empty. simpl. rewrite elem_of_nil. tauto.
Qed.

Definition acyclic_rows (relations : list (AssertionSupersession U)) : Prop :=
  forall x, ~ tc (supersedes relations) x x.

Lemma validate_acyclic_Ok keys relations :
  (forall x, x ∈ dom (adjacency relations) -> x ∈ keys) ->
  validate_acyclic keys relations = Some (Ok tt) <-> acyclic_rows relations.
Proof.
  intros Hkeys. unfold validate_acyclic, visit_fuel.
  destruct (visit_all_spec (adjacency relations) (S (size (adjacency relations))) keys ∅)
    as (b&Hb&Ht&Hf).
  { rewrite size_dom. lia. }
  { split; [by intros ? ? ?%not_elem_of_empty|by intros ? ?%not_elem_of_empty]. }
  rewrite Hb. cbn [mbind option_bind]. destruct b; split; try done.
  - intros _ x Hx. destruct (Ht eq_refl) as (A'&_&[_ Hac]&Hall). rewrite Forall_forall in Hall.
    assert (Hc : tc (edge (adjacency relations)) x x)
      by (eapply tc_iff; [|exact Hx]; intros; by rewrite adjacency_edge).
    apply (Hac x); [|done]. apply Hall, Hkeys, elem_of_dom.
    inversion Hc as [? ? (?&?&_)|? ? ? (?&?&_)]; by eexists.
  - intros Hac. destruct (Hf eq_refl) as (x&Hx). exfalso. apply (Hac x).
    eapply tc_iff; [|exact Hx]. apply adjacency_edge.
Qed.

(** The check never runs out of fuel, and a refusal exhibits a cycle. *)
Lemma validate_acyclic_total keys relations :
  validate_acyclic keys relations = Some (Ok tt) \/
  (validate_acyclic keys relations =
     Some (Err (invalid "assertion_supersession" "cycle detected")) /\
   exists x, tc (supersedes relations) x x).
Proof.
  unfold validate_acyclic, visit_fuel.
  destruct (visit_all_spec (adjacency relations) (S (size (adjacency relations))) keys ∅)
    as (b&Hb&_&Hf).
  { rewrite size_dom. lia. }
  { split; [by intros ? ? ?%not_elem_of_empty|by intros ? ?%not_elem_of_empty]. }
  rewrite Hb. cbn [mbind option_bind]. destruct b; [by left|right]. destruct (Hf eq_refl) as (x&Hx).
  split; [done|]. exists x. eapply tc_iff; [|exact Hx]. apply adjacency_edge.
Qed.
End cycles.

(** ** Rows and the ledger *)

Section ledger.
Context {U : Type} `{!UuidCrate U}.
Abbreviation Row := (AssertionSupersession U).

(** [AssertionSupersession::new] *)
Definition supersession_new (id prior replacement status_event reasoning provenance : U)
    (recorded_at : Z) : K Row :=
  require_v7 id "supersession_uuid" ;;
  require_v7 prior "prior_assertion_uuid" ;;
  require_v7 replacement "replacement_assertion_uuid" ;;
  require_v7 status_event "status_event_uuid" ;;
  require_v7 reasoning "reasoning_uuid" ;;
  require_uuid provenance "provenance_uuid" ;;
  if decide (prior = replacement)
  then Err (invalid "replacement_assertion_uuid" "must differ from prior_assertion_uuid")
  else Ok (mkSupersession id prior replacement status_event reasoning provenance recorded_at
             ASSERTION_SUPERSESSION_CONTRACT_VERSION).

Definition validate_relation (row : Row) : K unit :=
  if negb (sup_contract_version row =? ASSERTION_SUPERSESSION_CONTRACT_VERSION)
  then Err (invalid "assertion_supersession.contract_version" "unsupported version")
  else
    (fun _ => tt) <$>
      supersession_new (supersession_uuid row) (prior_assertion_uuid row)
        (replacement_assertion_uuid row) (sup_status_event_uuid row) (sup_reasoning_uuid row)
        (sup_provenance_uuid row) (sup_recorded_at_micros row).

(** The validation loop of [new], with its two identity sets. *)
Fixpoint scan_relations (ids status_ids : gset U) (relations : list Row) : K unit :=
  match relations with
  | [] => Ok tt
  | row :: relations' =>
      validate_relation row ;;
      if decide (supersession_uuid row ∈ ids) then Err (KErr.Duplicate "supersession_uuid")
      else if decide (sup_status_event_uuid row ∈ status_ids)
      then Err (KErr.Duplicate "status_event_uuid")
      else scan_relations ({[supersession_uuid row]} ∪ ids)
             ({[sup_status_event_uuid row]} ∪ status_ids) relations'
  end.

Definition sort_relations (relations : list Row) : list Row :=
  sort_rows supersession_uuid sup_recorded_at_micros relations.

(** [keys] is the iteration order of the adjacency map. *)
Definition sup_ledger_new (keys : list U) (relations : list Row) : option (K (list Row)) :=
  if MAX_KNOWLEDGE_ROWS <? lenZ relations
  then Some (Err (KErr.Limit "assertion_supersessions" (lenZ relations) MAX_KNOWLEDGE_ROWS))
  else
    match scan_relations ∅ ∅ relations with
    | Err e => Some (Err e)
    | Ok _ =>
        checked ← validate_acyclic keys relations;
        Some (checked ;; Ok (sort_relations relations))
    end.

Definition sup_ledger_merge (keys : list U) (self staged : list Row) : option (K (list Row)) :=
  match merge_loop supersession_uuid (fun _ => Ok tt) (KErr.Conflict "supersession_uuid")
    staged self (by_id supersession_uuid self) with
  | Err e => Some (Err e)
  | Ok relations => sup_ledger_new keys relations
  end.

Definition relation_writer (row : Row) : W :=
  writer_raw (as_bytes (supersession_uuid row)) ;;
  writer_raw (as_bytes (prior_assertion_uuid row)) ;;
  writer_raw (as_bytes (replacement_assertion_uuid row)) ;;
  writer_raw (as_bytes (sup_status_event_uuid row)) ;;
  writer_raw (as_bytes (sup_reasoning_uuid row)) ;;
  writer_raw (as_bytes (sup_provenance_uuid row)) ;;
  writer_i64 (sup_recorded_at_micros row) ;;
  writer_u32 (sup_contract_version row).

Definition relation_fingerprint_for_row (sha256 : list Z -> list Z) (row : Row) : K (list Z) :=
  map_err KErr.Canonical
    (write_fingerprint sha256 Domain.AssertionSupersession (relation_writer row)).

Definition relation_fingerprint (sha256 : list Z -> list Z) (relations : list Row) (id : U)
    : K (list Z) :=
  fingerprint_of supersession_uuid (relation_fingerprint_for_row sha256)
    (KErr.Dangling "supersession_uuid") relations id.

Definition relation_fingerprints (sha256 : list Z -> list Z) (relations : list Row)
    : K (list (U * list Z)) :=
  fingerprint_table supersession_uuid (relation_fingerprint_for_row sha256) relations.

(** ** What the checks decide *)

Definition valid_relation (row : Row) : Prop :=
  sup_contract_version row = ASSERTION_SUPERSESSION_CONTRACT_VERSION /\
  v7 (supersession_uuid row) /\ v7 (prior_assertion_uuid row) /\
  v7 (replacement_assertion_uuid row) /\ v7 (sup_status_event_uuid row) /\
  v7 (sup_reasoning_uuid row) /\ is_nil (sup_provenance_uuid row) = false /\
  prior_assertion_uuid row <> replacement_assertion_uuid row.

Lemma supersession_new_Ok id p q s r v t row :
  supersession_new id p q s r v t = Ok row <->
  row = mkSupersession id p q s r v t ASSERTION_SUPERSESSION_CONTRACT_VERSION /\
  v7 id /\ v7 p /\ v7 q /\ v7 s /\ v7 r /\ is_nil v = false /\ p <> q.
Proof.
  unfold supersession_new. rewrite !bind_unit_Ok, !require_v7_Ok, require_uuid_Ok.
  case_decide; naive_solver.
Qed.

Lemma validate_relation_Ok row : validate_relation row = Ok tt <-> valid_relation row.
Proof.
  unfold validate_relation, valid_relation.
  rewrite guard_Ok, negb_false_iff, Z.eqb_eq, fmap_Ok. split.
  - intros (?&r&Hr&_). apply supersession_new_Ok in Hr as [_ ?]. tauto.
  - intros (?&Hv). split; [done|]. eexists. split; [|done]. by apply supersession_new_Ok.
Qed.

Lemma scan_relations_split dup dup' ids status_ids relations :
  scan_relations ids status_ids relations = Ok tt <->
  scan_ids supersession_uuid validate_relation dup ids relations = Ok tt /\
  scan_ids sup_status_event_uuid validate_relation dup' status_ids relations = Ok tt.
Proof.
  revert ids status_ids. induction relations as [|r relations IH]; intros ids status_ids; simpl; [done|].
  rewrite !bind_unit_Ok. destruct (validate_relation r) as [[]|e]; [|naive_solver].
  do 2 case_decide; rewrite ?IH; naive_solver.
Qed.

Lemma scan_relations_Ok relations :
  scan_relations ∅ ∅ relations = Ok tt <->
  Forall valid_relation relations /\
  NoDup (supersession_uuid <$> relations) /\ NoDup (sup_status_event_uuid <$> relations).
Proof.
  rewrite (scan_relations_split (KErr.Duplicate "") (KErr.Duplicate "")), !scan_ids_Ok.
  assert (Hv : Forall (fun r => validate_relation r = Ok tt) relations <-> Forall valid_relation relations)
    by (apply Forall_iff; intros; apply validate_relation_Ok).
  assert (He : forall f : Row -> U, Forall (fun r => f r ∉ (∅ : gset U)) relations)
    by (intros f; apply Forall_true; intros; apply not_elem_of_empty).
  rewrite Hv. pose proof (He supersession_uuid). pose proof (He sup_status_event_uuid). tauto.
Qed.

(** The invariant of a validated ledger. *)
Definition sup_ledger_ok (l : list Row) : Prop :=
  ledger_wf supersession_uuid sup_recorded_at_micros l /\ Forall valid_relation l /\
  NoDup (sup_status_event_uuid <$> l) /\ acyclic_rows l.

(** [keys] enumerates the adjacency map of [rows]. *)
Definition keys_of (keys : list U) (rows : list Row) : Prop :=
  keys ≡ₚ elements (dom (adjacency rows)).

Lemma keys_of_elem keys rows x : keys_of keys rows -> x ∈ dom (adjacency rows) -> x ∈ keys.
Proof. intros -> Hx. by apply elem_of_elements. Qed.

Lemma sup_ledger_new_Ok keys rows l :
  keys_of keys rows ->
  sup_ledger_new keys rows = Some (Ok l) <->
  lenZ rows <= MAX_KNOWLEDGE_ROWS /\ Forall valid_relation rows /\
  NoDup (supersession_uuid <$> rows) /\ NoDup (sup_status_event_uuid <$> rows) /\
  acyclic_rows rows /\ l = sort_relations rows.
Proof.
  intros Hk. unfold sup_ledger_new. pose proof (scan_relations_Ok rows) as Hscan.
  pose proof (validate_acyclic_Ok keys rows (fun x => keys_of_elem keys rows x Hk)) as Hac.
  destruct (Z.ltb_spec MAX_KNOWLEDGE_ROWS (lenZ rows)); [split; [done|lia]|].
  destruct (scan_relations ∅ ∅ rows) as [[]|e]; [|naive_solver].
  destruct (validate_acyclic_total keys rows) as [E|(E&x&Hx)]; rewrite E in *; cbn [mbind option_bind result_bind].
  - naive_solver.
  - split; [done|]. intros (_&_&_&_&Hno&_). by destruct (Hno x).
Qed.

Lemma sup_ledger_new_total keys rows : is_Some (sup_ledger_new keys rows).
Proof.
  unfold sup_ledger_new. destruct (_ <? _); [done|]. destruct (scan_relations ∅ ∅ rows); [|done].
  destruct (validate_acyclic_total keys rows) as [E|[E _]]; rewrite E; done.
Qed.

Lemma supersedes_perm (r1 r2 : list Row) x y : r1 ≡ₚ r2 -> supersedes r1 x y -> supersedes r2 x y.
Proof. intros Hp (row&Hr&?). exists row. by rewrite <-Hp. Qed.

#[global] Instance acyclic_rows_proper : Proper ((≡ₚ) ==> iff) (acyclic_rows (U:=U)).
Proof.
  intros r1 r2 Hp. unfold acyclic_rows. split; intros H x Hx; apply (H x);
    (eapply tc_iff; [|exact Hx]); intros; split; by apply supersedes_perm.
Qed.

Lemma sup_ledger_new_sound keys rows l :
  keys_of keys rows -> sup_ledger_new keys rows = Some (Ok l) ->
  sup_ledger_ok l /\ l ≡ₚ rows /\ lenZ l <= MAX_KNOWLEDGE_ROWS.
Proof.
  intros Hk (Hlen&Hv&Hn1&Hn2&Hac&->)%sup_ledger_new_Ok; [|done].
  assert (Hp : sort_relations rows ≡ₚ rows) by apply sort_rows_perm.
  split; [|split; [done|by rewrite Hp]].
  split; [by apply sort_rows_wf|]. by rewrite Hp.
Qed.

Lemma sup_ledger_new_complete keys rows :
  keys_of keys rows -> sup_ledger_ok rows -> lenZ rows <= MAX_KNOWLEDGE_ROWS ->
  sup_ledger_new keys rows = Some (Ok rows).
Proof.
  intros Hk (Hw&Hv&Hn&Hac) Hlen. apply sup_ledger_new_Ok; [done|].
  unfold sort_relations. rewrite sort_rows_id by done. by destruct Hw.
Qed.

(** The rows the merge hands to [new]. *)
Definition sup_union (self staged : list Row) : list Row :=
  self ++ new_rows supersession_uuid (by_id supersession_uuid self) staged.

Lemma sup_ledger_merge_Ok keys self staged out :
  NoDup (supersession_uuid <$> staged) ->
  sup_ledger_merge keys self staged = Some (Ok out) <->
  replays supersession_uuid (by_id supersession_uuid self) staged /\
  sup_ledger_new keys (sup_union self staged) = Some (Ok out).
Proof.
  intros Hnd. unfold sup_ledger_merge, sup_union. split.
  - destruct (merge_loop _ _ _ _ _ _) as [rows|] eqn:Hm; [|done]. intros Hn. apply merge_loop_Ok in Hm as (?&_&->); done.
  - intros [? Hn]. rewrite (proj2 (merge_loop_Ok _ _ _ _ _ _ (sup_union self staged) Hnd)); [done|].
    split_and!; [done|by apply Forall_true|done].
Qed.

Lemma sup_merge_wf keys self staged out :
  keys_of keys (sup_union self staged) -> sup_ledger_ok self -> sup_ledger_ok staged ->
  sup_ledger_merge keys self staged = Some (Ok out) ->
  merges_to supersession_uuid sup_recorded_at_micros self staged out /\ sup_ledger_ok out /\
  lenZ out <= MAX_KNOWLEDGE_ROWS.
Proof.
  intros Hk (Hw1&_) (Hw2&_) (Hrep&Hn)%sup_ledger_merge_Ok; [|apply Hw2].
  pose proof (sup_ledger_new_sound _ _ _ Hk Hn) as (?&_&?). split; [|done].
  apply sup_ledger_new_Ok in Hn as (_&_&_&_&_&->); [|done]. by apply merged_spec.
Qed.

(** ** Fingerprints *)

Definition relation_bytes (row : Row) : list Z :=
  as_bytes (supersession_uuid row) ++ as_bytes (prior_assertion_uuid row) ++
  as_bytes (replacement_assertion_uuid row) ++ as_bytes (sup_status_event_uuid row) ++
  as_bytes (sup_reasoning_uuid row) ++ as_bytes (sup_provenance_uuid row) ++
  to_be 8 (sup_recorded_at_micros row) ++ to_be 4 (sup_contract_version row).

(** The widths of the Rust fields. *)
Definition typed_relation (row : Row) : Prop :=
  in_i64 (sup_recorded_at_micros row) /\ 0 <= sup_contract_version row <= u32_max.

Lemma relation_bytes_inj r1 r2 :
  typed_relation r1 -> typed_relation r2 -> relation_bytes r1 = relation_bytes r2 -> r1 = r2.
Proof.
  intros [Ht1 Hv1] [Ht2 Hv2] H. destruct r1, r2; unfold relation_bytes in H; simpl in *.
  do 6 (apply as_bytes_app_inj in H as [-> H]). apply i64_app_inj in H as [-> H]; [|done..].
  apply to_be_inj_unsigned in H as ->; [done|unfold u32_max in *; cbn; lia..].
Qed.

Lemma relation_fingerprint_for_row_eq sha256 row :
  relation_fingerprint_for_row sha256 row =
  Ok (sha256 (preimage_bytes Domain.AssertionSupersession (relation_bytes row))).
Proof.
  unfold relation_fingerprint_for_row.
  assert (Hw : writes (relation_writer row) (relation_bytes row))
    by (unfold relation_writer, relation_bytes; eauto 12 with writes).
  rewrite (write_fingerprint_eq _ _ _ _ Hw); [done|].
  unfold relation_bytes. rewrite !length_app, !as_bytes_length, !to_be_length. lia.
Qed.
End ledger.

(** ** Properties *)

Section properties.
Context {U : Type} `{!UuidCrate U}.
Abbreviation Row := (AssertionSupersession U).
Implicit Types (rows self staged out l : list Row).

(** C33 The depth-first cycle check ends, on cyclic relations too, and decides acyclicity of the
    supersession relation, whatever order the adjacency map is iterated in.  So construction and
    merge of ledgers end. *)
Theorem supersession_acyclic_decided keys rows :
  keys_of keys rows ->
  ((validate_acyclic keys rows = Some (Ok tt) /\ forall x, ~ tc (supersedes rows) x x) \/
   (validate_acyclic keys rows =
      Some (Err (invalid "assertion_supersession" "cycle detected")) /\
    exists x, tc (supersedes rows) x x)) /\
  is_Some (sup_ledger_new keys rows).
Proof.
  intros Hk. split; [|apply sup_ledger_new_total]. destruct (validate_acyclic_total keys rows) as [Hok|(Herr&x&Hx)].
  - left. split; [done|]. apply (validate_acyclic_Ok keys rows); [|done].
    intros x. by apply keys_of_elem.
  - right. split; [done|]. by exists x.
Qed.

(** Construction accepts exactly the valid, duplicate-free, acyclic row sets within
    the limit and returns them in canonical order. *)
Theorem supersession_ledger_new_spec keys rows l :
  keys_of keys rows ->
  (sup_ledger_new keys rows = Some (Ok l) <->
    lenZ rows <= MAX_KNOWLEDGE_ROWS /\ Forall valid_relation rows /\
    NoDup (sup_status_event_uuid <$> rows) /\ acyclic_rows rows /\
    ledger_wf supersession_uuid sup_recorded_at_micros l /\ l ≡ₚ rows).
Proof.
  intros Hk. split.
  - intros Hn. pose proof (sup_ledger_new_sound _ _ _ Hk Hn) as ((Hw&_)&Hp&_).
    apply sup_ledger_new_Ok in Hn as (?&?&?&?&?&_); [|done]. split_and!; done.
  - intros (?&?&?&?&Hw&Hp). apply sup_ledger_new_Ok; [done|].
    assert (NoDup (supersession_uuid <$> rows)) by (rewrite <-Hp; apply Hw).
    split_and!; try done. apply (ledger_wf_perm supersession_uuid sup_recorded_at_micros);
      [done|by apply sort_rows_wf|]. unfold sort_relations; by rewrite Hp, sort_rows_perm.
Qed.

(** A merge succeeds exactly when shared identities carry identical relations and the
    union of the two ledgers is itself a valid ledger within the limit; then the result
    is that union, so every branch of both ledgers survives. *)
Theorem supersession_merge_union keys self staged out :
  keys_of keys (sup_union self staged) -> sup_ledger_ok self -> sup_ledger_ok staged ->
  sup_ledger_merge keys self staged = Some (Ok out) <->
  merges_to supersession_uuid sup_recorded_at_micros self staged out /\ sup_ledger_ok out /\
  lenZ out <= MAX_KNOWLEDGE_ROWS.
Proof.
  intros Hk Hself Hst. split; [by apply sup_merge_wf|].
  intros (Hm&(Hw&Hv&Hn&Hac)&Hlen). destruct Hself as (Hw1&_), Hst as (Hw2&_).
  assert (Hrep : replays supersession_uuid (by_id supersession_uuid self) staged)
    by (apply replays_agree; [apply Hw2|apply Hm]).
  assert (out = sort_relations (sup_union self staged)) as Hout
    by (eapply merges_to_unique; [done|by apply merged_spec]).
  assert (Hp : out ≡ₚ sup_union self staged) by (rewrite Hout; apply sort_rows_perm).
  apply sup_ledger_merge_Ok; [apply Hw2|]. split; [done|].
  apply sup_ledger_new_Ok; [done|]. apply Permutation_length in Hp as Hl. destruct Hw as [_ Hnd].
  generalize dependent (sup_union self staged). intros u _ Hout Hp Hl.
  rewrite <-Hl. split; [done|]. split_and!; [by rewrite <-Hp..|done].
Qed.

(** Two relations share a fingerprint only when they are the same row or their
    preimages are a SHA-256 collision. *)
Theorem supersession_fingerprint_binding (sha256 : list Z -> list Z) (r1 r2 : Row) h :
  typed_relation r1 -> typed_relation r2 ->
  relation_fingerprint_for_row sha256 r1 = Ok h -> relation_fingerprint_for_row sha256 r2 = Ok h ->
  r1 = r2 \/
  collision sha256 (preimage_bytes Domain.AssertionSupersession (relation_bytes r1))
    (preimage_bytes Domain.AssertionSupersession (relation_bytes r2)).
Proof.
  rewrite !relation_fingerprint_for_row_eq. intros Hr1 Hr2 [= H1] [= H2].
  apply (digest_binding _ _ relation_bytes typed_relation); [apply relation_bytes_inj|done|done|].
  congruence.
Qed.
End properties.

(** ** Witnesses *)

Definition demo_relation (id prior replacement time : Z) : AssertionSupersession Uuid128 :=
  mkSupersession (uuid7 id) (uuid7 prior) (uuid7 replacement) (uuid7 (id + 40)) (uuid7 (id + 80))
    (uuid7 (id + 120)) time 1.

Definition demo_self : list (AssertionSupersession Uuid128) := [demo_relation 1 10 11 5].
Definition demo_branch : list (AssertionSupersession Uuid128) := [demo_relation 2 10 12 4].
Definition demo_merged : list (AssertionSupersession Uuid128) := demo_branch ++ demo_self.
Definition demo_cycle : list (AssertionSupersession Uuid128) :=
  [demo_relation 1 10 11 5; demo_relation 2 11 10 6].

Definition map_keys (rows : list (AssertionSupersession Uuid128)) : list Uuid128 :=
  elements (dom (adjacency rows)).

Lemma map_keys_of rows : keys_of (map_keys rows) rows.
Proof. unfold keys_of, map_keys. done. Qed.

Lemma demo_self_ok : sup_ledger_ok demo_self.
Proof. apply (sup_ledger_new_sound (map_keys demo_self) demo_self); [apply map_keys_of|by vm_compute]. Qed.
Lemma demo_branch_ok : sup_ledger_ok demo_branch.
Proof. apply (sup_ledger_new_sound (map_keys demo_branch) demo_branch); [apply map_keys_of|by vm_compute]. Qed.

Lemma supersession_acyclic_decided_witness : exists x, tc (supersedes demo_cycle) x x.
Proof.
  destruct (supersession_acyclic_decided (map_keys demo_cycle) demo_cycle) as [[[H _]|[_ H]] _];
    [apply map_keys_of| |exact H].
  vm_compute in H. discriminate H.
Defined.

Lemma supersession_ledger_new_spec_witness : acyclic_rows demo_merged.
Proof.
  apply (supersession_ledger_new_spec (map_keys demo_merged) demo_merged demo_merged);
    [apply map_keys_of|by vm_compute].
Defined.

Lemma supersession_merge_union_witness :
  merges_to supersession_uuid sup_recorded_at_micros demo_self demo_branch demo_merged.
Proof.
  apply (supersession_merge_union (map_keys (sup_union demo_self demo_branch)) demo_self demo_branch
    demo_merged); [apply map_keys_of|apply demo_self_ok|apply demo_branch_ok|by vm_compute].
Defined.

Lemma supersession_fingerprint_binding_witness :
  let r := demo_relation 1 10 11 5 in
  let p := preimage_bytes Domain.AssertionSupersession (relation_bytes r) in
  relation_fingerprint_for_row (take 32) r = Ok (take 32 p) /\ (r = r \/ collision (take 32) p p).
Proof.
  intros r p. split; [by vm_compute|].
  apply (supersession_fingerprint_binding (take 32) r r (take 32 p));
    [split; unfold in_i64, i64_min, i64_max, u32_max; simpl; lia..|by vm_compute|by vm_compute].
Defined.
