(* ===== verification/ValidTime.v ===== *)
(** * Assertion valid time: [crates/graphforge-knowledge/src/valid_time.rs].

    Half-open validity intervals, the append-only ledger of corrections with its
    two-pass merge, the interpretation visible at a transaction cutoff, and the row
    fingerprints.  The test-only call counter of [validate_event] is left out. *)

From stdpp Require Import base list gmap strings sorting.
From Stdlib Require Import ZArith Lia.
From S2P Require Import Prelude Uuid Canonical Knowledge.

Definition ASSERTION_VALIDITY_CONTRACT_VERSION : Z := 1.

Record AssertionValidityEvent (U : Type) := mkValidity {
  validity_event_uuid : U;
  val_assertion_uuid : U;
  valid_from_micros : option Z;
  valid_to_micros : option Z;
  val_reasoning_uuid : option U;
  val_provenance_uuid : U;
  val_recorded_at_micros : Z;
  val_contract_version : Z;
}.
Arguments mkValidity {U}.
Arguments validity_event_uuid {U}.
Arguments val_assertion_uuid {U}.
Arguments valid_from_micros {U}.
Arguments valid_to_micros {U}.
Arguments val_reasoning_uuid {U}.
Arguments val_provenance_uuid {U}.
Arguments val_recorded_at_micros {U}.
Arguments val_contract_version {U}.

#[global] Instance validity_eq_dec `{EqDecision U} : EqDecision (AssertionValidityEvent U).
Proof. solve_decision. Defined.

Section ledger.
Context {U : Type} `{!UuidCrate U}.
Abbreviation Row := (AssertionValidityEvent U).

Definition val_validate_event (row : Row) : K unit :=
  if negb (val_contract_version row =? ASSERTION_VALIDITY_CONTRACT_VERSION)
  then Err (invalid "assertion_validity.contract_version" "unsupported version")
  else
    require_v7 (validity_event_uuid row) "validity_event_uuid" ;;
    require_v7 (val_assertion_uuid row) "assertion_uuid" ;;
    require_opt_v7 (val_reasoning_uuid row) "reasoning_uuid" ;;
    require_uuid (val_provenance_uuid row) "provenance_uuid" ;;
    match valid_from_micros row, valid_to_micros row with
    | Some from, Some to =>
        if to <? from
        then Err (invalid "assertion_validity.interval" "valid_from must not exceed valid_to")
        else Ok tt
    | _, _ => Ok tt
    end.

(** [AssertionValidityEvent::new] *)
Definition validity_event_new (event assertion : U) (from to : option Z) (reasoning : option U)
    (provenance : U) (recorded_at : Z) : K Row :=
  let event := mkValidity event assertion from to reasoning provenance recorded_at
                 ASSERTION_VALIDITY_CONTRACT_VERSION in
  val_validate_event event ;; Ok event.

(** The half-open interval; a missing bound is unbounded. *)
Definition contains (row : Row) (valid_time : Z) : bool :=
  from_option (fun from => from <=? valid_time) true (valid_from_micros row) &&
  from_option (fun to => valid_time <? to) true (valid_to_micros row).

Definition validate_event_count (count limit : Z) : K unit :=
  if limit <? count then Err (KErr.Limit "assertion_validity_events" count limit) else Ok tt.

Definition val_sort (events : list Row) : list Row :=
  sort_rows validity_event_uuid val_recorded_at_micros events.

Definition val_new_with_limit (events : list Row) (row_limit : Z) : K (list Row) :=
  validate_event_count (lenZ events) row_limit ;;
  scan_ids validity_event_uuid val_validate_event (KErr.Duplicate "validity_event_uuid") ∅ events ;;
  Ok (val_sort events).

Definition val_ledger_new (events : list Row) : K (list Row) :=
  val_new_with_limit events MAX_KNOWLEDGE_ROWS.

(** The first pass of the merge: identity reuse, counting the rows to append. *)
Fixpoint count_appended (by_id : gmap U Row) (staged : list Row) (appended_count : Z) : K Z :=
  match staged with
  | [] => Ok appended_count
  | event :: staged' =>
      match by_id !! validity_event_uuid event with
      | Some existing =>
          if decide (existing = event) then count_appended by_id staged' appended_count
          else Err (KErr.Conflict "validity_event_uuid")
      | None => count_appended by_id staged' (saturating_add appended_count 1)
      end
  end.

Definition val_merge_with_limit (self staged : list Row) (row_limit : Z) : K (list Row) :=
  let by_id := by_id validity_event_uuid self in
  appended_count ← count_appended by_id staged 0;
  validate_event_count (saturating_add (lenZ self) appended_count) row_limit ;;
  if appended_count =? 0 then Ok self
  else Ok (val_sort (self ++ filter (fun event => by_id !! validity_event_uuid event = None) staged)).

Definition val_ledger_merge (self staged : list Row) : K (list Row) :=
  val_merge_with_limit self staged MAX_KNOWLEDGE_ROWS.

Definition current_for_at (events : list Row) (assertion : U) (cutoff : Z) : option Row :=
  max_by_key (row_key validity_event_uuid val_recorded_at_micros)
    (filter (fun row => val_assertion_uuid row = assertion /\ val_recorded_at_micros row <= cutoff)
       events).

Definition is_valid_at (events : list Row) (assertion : U) (cutoff valid_time : Z) : option bool :=
  (fun event => contains event valid_time) <$> current_for_at events assertion cutoff.

Definition validity_writer (row : Row) : W :=
  writer_raw (as_bytes (validity_event_uuid row)) ;;
  writer_raw (as_bytes (val_assertion_uuid row)) ;;
  optional_i64 (valid_from_micros row) ;;
  optional_i64 (valid_to_micros row) ;;
  optional_uuid (val_reasoning_uuid row) ;;
  writer_raw (as_bytes (val_provenance_uuid row)) ;;
  writer_i64 (val_recorded_at_micros row) ;;
  writer_u32 (val_contract_version row).

Definition validity_fingerprint_for_row (sha256 : list Z -> list Z) (row : Row) : K (list Z) :=
  map_err KErr.Canonical
    (write_fingerprint sha256 Domain.AssertionValidity (validity_writer row)).

Definition val_event_fingerprint (sha256 : list Z -> list Z) (events : list Row) (id : U) : K (list Z) :=
  fingerprint_of validity_event_uuid (validity_fingerprint_for_row sha256)
    (KErr.Dangling "validity_event_uuid") events id.

Definition val_event_fingerprints (sha256 : list Z -> list Z) (events : list Row)
    : K (list (U * list Z)) :=
  fingerprint_table validity_event_uuid (validity_fingerprint_for_row sha256) events.

(** ** What the checks decide *)

Definition ordered_interval (row : Row) : Prop :=
  forall from to, valid_from_micros row = Some from -> valid_to_micros row = Some to -> from <= to.

Definition valid_validity (row : Row) : Prop :=
  val_contract_version row = ASSERTION_VALIDITY_CONTRACT_VERSION /\
  v7 (validity_event_uuid row) /\ v7 (val_assertion_uuid row) /\
  from_option v7 True (val_reasoning_uuid row) /\ is_nil (val_provenance_uuid row) = false /\
  ordered_interval row.

Lemma val_validate_event_Ok row : val_validate_event row = Ok tt <-> valid_validity row.
Proof.
  unfold val_validate_event, valid_validity, ordered_interval.
  rewrite guard_Ok, !bind_unit_Ok, !require_v7_Ok, !require_opt_v7_Ok, require_uuid_Ok.
  rewrite negb_false_iff, Z.eqb_eq.
  assert (Hm : match valid_from_micros row, valid_to_micros row with
    | Some from, Some to =>
        if to <? from then Err (invalid "assertion_validity.interval" "valid_from must not exceed valid_to")
        else Ok tt
    | _, _ => Ok tt
    end = Ok tt <->
    forall from to, valid_from_micros row = Some from -> valid_to_micros row = Some to -> from <= to).
  { destruct (valid_from_micros row) as [f|], (valid_to_micros row) as [t|]; [|naive_solver..].
    destruct (Z.ltb_spec t f); [|naive_solver]. split; [done|]. intros H'. specialize (H' f t eq_refl eq_refl). lia. }
  rewrite Hm. tauto.
Qed.

Lemma val_new_with_limit_Ok events limit l :
  val_new_with_limit events limit = Ok l <->
  lenZ events <= limit /\ Forall valid_validity events /\
  NoDup (validity_event_uuid <$> events) /\ l = val_sort events.
Proof.
  unfold val_new_with_limit, validate_event_count.
  rewrite !bind_unit_Ok, guard_Ok, Z.ltb_ge, scan_ids_Ok.
  assert (Hv : Forall (fun r => val_validate_event r = Ok tt) events <-> Forall valid_validity events)
    by (apply Forall_iff; intros; apply val_validate_event_Ok).
  rewrite Hv. split.
  - intros ((?&_)&(?&?&_)&[= <-]). done.
  - intros (?&?&?&->). split_and!; try done. apply Forall_true. intros; apply not_elem_of_empty.
Qed.

(** The invariant of a validated ledger. *)
Definition val_ledger_ok (l : list Row) : Prop :=
  ledger_wf validity_event_uuid val_recorded_at_micros l /\ Forall valid_validity l.

Lemma val_ledger_new_sound events l :
  val_ledger_new events = Ok l -> val_ledger_ok l /\ l ≡ₚ events /\ lenZ l <= MAX_KNOWLEDGE_ROWS.
Proof.
  intros (Hlen&Hv&Hnd&->)%val_new_with_limit_Ok.
  assert (Hp : val_sort events ≡ₚ events) by apply sort_rows_perm.
  split_and!; [|done|by rewrite Hp]. split; [by apply sort_rows_wf|by rewrite Hp].
Qed.

Lemma val_ledger_new_id l : val_ledger_ok l -> lenZ l <= MAX_KNOWLEDGE_ROWS -> val_ledger_new l = Ok l.
Proof.
  intros (Hw&Hv) Hlen. apply val_new_with_limit_Ok. unfold val_sort.
  rewrite sort_rows_id by done. by destruct Hw.
Qed.

(** The first pass counts the new rows, as long as the counter does not saturate. *)
Lemma count_appended_Ok m staged c n :
  0 <= c -> c + lenZ staged <= usize_max ->
  count_appended m staged c = Ok n <->
  replays validity_event_uuid m staged /\ n = c + lenZ (new_rows validity_event_uuid m staged).
Proof.
  revert c. induction staged as [|r staged IH]; intros c Hc Hb; cbn [count_appended].
  { unfold replays, new_rows. rewrite filter_nil. cbn [length]. rewrite Z.add_0_r.
    split; [intros [= ->]; split; [constructor|done]|by intros [_ ->]]. }
  unfold replays, new_rows in *. rewrite filter_cons, Forall_cons. cbn [length] in Hb.
  destruct (m !! validity_event_uuid r) as [r'|] eqn:Er.
  - rewrite (decide_False (P := Some r' = None)) by done. case_decide as Heq.
    + subst r'. rewrite IH by lia. split; [intros [? ->]|intros [[_ ?] ->]]; split; try done.
      split; [by intros ? [= <-]|done].
    + split; [done|]. intros ([Hr _]&_). by destruct Heq; apply Hr.
  - rewrite (decide_True (P := None = None)) by done.
    assert (saturating_add c 1 = c + 1) as ->
      by (unfold saturating_add; lia).
    rewrite IH by lia. cbn [length]. split; [intros [? ->]|intros [[_ ?] ->]].
    + split; [split; [done|]|lia]; done.
    + split; [done|lia].
Qed.

(** The merge that revalidates everything: the one-pass identity merge of the other
    ledgers, followed by [new]. *)
Definition val_merge_reference (self staged : list Row) : K (list Row) :=
  events ← merge_loop validity_event_uuid (fun _ => Ok tt) (KErr.Conflict "validity_event_uuid")
    staged self (by_id validity_event_uuid self);
  val_ledger_new events.

(** Both passes stop at the same conflict. *)
Lemma merge_loop_conflict m staged events c :
  NoDup (validity_event_uuid <$> staged) -> 0 <= c -> c + lenZ staged <= usize_max ->
  (merge_loop validity_event_uuid (fun _ => Ok tt) (KErr.Conflict "validity_event_uuid") staged events m
     = Ok (events ++ new_rows validity_event_uuid m staged) /\
   count_appended m staged c = Ok (c + lenZ (new_rows validity_event_uuid m staged))) \/
  (merge_loop validity_event_uuid (fun _ => Ok tt) (KErr.Conflict "validity_event_uuid") staged events m
     = Err (KErr.Conflict "validity_event_uuid") /\
   count_appended m staged c = Err (KErr.Conflict "validity_event_uuid") /\
   ~ replays validity_event_uuid m staged).
Proof.
  intros Hnd Hc Hb.
  assert (Herr : forall c, count_appended m staged c = Err (KErr.Conflict "validity_event_uuid") \/
    exists n, count_appended m staged c = Ok n).
  { clear. induction staged as [|r staged IH]; intros c; cbn [count_appended]; [eauto|].
    destruct (m !! validity_event_uuid r); [case_decide; auto|auto]. }
  assert (Herr' : forall m events,
    merge_loop validity_event_uuid (fun _ => Ok tt) (KErr.Conflict "validity_event_uuid") staged events m
      = Err (KErr.Conflict "validity_event_uuid") \/
    exists out, merge_loop validity_event_uuid (fun _ => Ok tt) (KErr.Conflict "validity_event_uuid") staged events m
      = Ok out).
  { clear. induction staged as [|r staged IH]; intros m events; cbn [merge_loop]; [eauto|].
    destruct (m !! validity_event_uuid r); [case_decide; auto|]. cbn [mbind result_bind]. apply IH. }
  destruct (Herr c) as [E1|(n&E1)].
  - right. split_and!; [|done|].
    + destruct (Herr' m events) as [?|(out&Hm)]; [done|].
      apply merge_loop_Ok in Hm as (Hr&_&_); [|done].
      rewrite (proj2 (count_appended_Ok m staged c _ Hc Hb)) in E1 by (split; done). done.
    + intros Hr. rewrite (proj2 (count_appended_Ok m staged c _ Hc Hb)) in E1 by (split; done). done.
  - left. pose proof E1 as E2. apply count_appended_Ok in E2 as [Hr ->]; [|done..]. split; [|done].
    apply merge_loop_Ok; [done|]. split_and!; [done|by apply Forall_true|done].
Qed.

Lemma new_rows_length m staged :
  (length (new_rows validity_event_uuid m staged) <= length staged)%nat.
Proof. apply length_filter. Qed.

(** ** Fingerprints *)

Definition validity_bytes (row : Row) : list Z :=
  as_bytes (validity_event_uuid row) ++ as_bytes (val_assertion_uuid row) ++
  opt_i64_bytes (valid_from_micros row) ++ opt_i64_bytes (valid_to_micros row) ++
  opt_uuid_bytes (val_reasoning_uuid row) ++ as_bytes (val_provenance_uuid row) ++
  to_be 8 (val_recorded_at_micros row) ++ to_be 4 (val_contract_version row).

(** The widths of the Rust fields. *)
Definition typed_validity (row : Row) : Prop :=
  from_option in_i64 True (valid_from_micros row) /\ from_option in_i64 True (valid_to_micros row) /\
  in_i64 (val_recorded_at_micros row) /\ 0 <= val_contract_version row <= u32_max.

Lemma validity_bytes_inj r1 r2 :
  typed_validity r1 -> typed_validity r2 -> validity_bytes r1 = validity_bytes r2 -> r1 = r2.
Proof.
  intros (Hf1&Ht1&Hr1&Hv1) (Hf2&Ht2&Hr2&Hv2) H.
  destruct r1, r2; unfold validity_bytes in H; cbn [validity_event_uuid val_assertion_uuid
    valid_from_micros valid_to_micros val_reasoning_uuid val_provenance_uuid
    val_recorded_at_micros val_contract_version] in *.
  apply as_bytes_app_inj in H as [-> H]. apply as_bytes_app_inj in H as [-> H].
  apply opt_i64_app_inj in H as [-> H]; [|done..]. apply opt_i64_app_inj in H as [-> H]; [|done..].
  apply opt_uuid_app_inj in H as [-> H]. apply as_bytes_app_inj in H as [-> H].
  apply i64_app_inj in H as [-> H]; [|done..].
  apply to_be_inj_unsigned in H as ->; [done|unfold u32_max in *; cbn; lia..].
Qed.

Lemma validity_bytes_length row : lenZ (validity_bytes row) <= 256.
Proof.
  unfold validity_bytes. rewrite !length_app, !as_bytes_length, !to_be_length.
  assert (forall o, length (opt_i64_bytes o) <= 9)%nat
    by (intros [?|]; unfold opt_i64_bytes; rewrite ?length_app, ?to_be_length; simpl; lia).
  assert (forall o : option U, length (opt_uuid_bytes o) <= 17)%nat
    by (intros [?|]; simpl; rewrite ?as_bytes_length; lia).
  specialize (H0 (val_reasoning_uuid row)).
  pose proof (H (valid_from_micros row)). pose proof (H (valid_to_micros row)). lia.
Qed.

Lemma validity_fingerprint_for_row_eq sha256 row :
  validity_fingerprint_for_row sha256 row =
  Ok (sha256 (preimage_bytes Domain.AssertionValidity (validity_bytes row))).
Proof.
  unfold validity_fingerprint_for_row. pose proof (validity_bytes_length row).
  assert (Hw : writes (validity_writer row) (validity_bytes row))
    by (unfold validity_writer, validity_bytes; eauto 12 with writes).
  by rewrite (write_fingerprint_eq _ _ _ _ Hw) by lia.
Qed.
End ledger.

(** ** Properties *)

Section properties.
Context {U : Type} `{!UuidCrate U}.
Abbreviation Row := (AssertionValidityEvent U).
Implicit Types (self staged out l : list Row).

(** The two-pass merge, which validates no row again and sorts only when it appends,
    returns on every input of valid ledgers, errors included, what the one-pass merge
    followed by full validation of the result returns. *)
Theorem validity_merge_reference self staged :
  val_ledger_ok self -> val_ledger_ok staged ->
  lenZ self <= MAX_KNOWLEDGE_ROWS -> lenZ staged <= MAX_KNOWLEDGE_ROWS ->
  val_ledger_merge self staged = val_merge_reference self staged.
Proof.
  intros (Hw1&Hv1) (Hw2&Hv2) Hl1 Hl2. unfold MAX_KNOWLEDGE_ROWS in Hl1, Hl2.
  unfold val_ledger_merge, val_merge_with_limit, val_merge_reference.
  destruct (merge_loop_conflict (by_id validity_event_uuid self) staged self 0)
    as [[-> ->]|(->&->&_)]; [apply Hw2|lia|unfold usize_max, u64_max; lia| |done].
  cbn [mbind result_bind]. fold (new_rows validity_event_uuid (by_id validity_event_uuid self) staged).
  set (fresh := new_rows _ _ _).
  assert (Hfl : (length fresh <= length staged)%nat) by apply new_rows_length.
  assert (saturating_add (lenZ self) (0 + lenZ fresh) = lenZ (self ++ fresh)) as ->
    by (unfold saturating_add, usize_max, u64_max; rewrite length_app; lia).
  unfold val_ledger_new, val_new_with_limit.
  destruct (validate_event_count _ _) as [[]|] eqn:Ec; [|done]. cbn [mbind result_bind].
  assert (scan_ids validity_event_uuid val_validate_event (KErr.Duplicate "validity_event_uuid") ∅
    (self ++ fresh) = Ok tt) as ->.
  { apply scan_ids_Ok. split_and!; [|apply merged_ids; [apply Hw1|apply Hw2]|].
    - eapply Forall_impl; [|intros r; apply val_validate_event_Ok].
      apply Forall_app. split; [done|]. rewrite Forall_forall in *.
      intros r [_ Hr]%new_rows_elem. auto.
    - apply Forall_true. intros; apply not_elem_of_empty. }
  cbn [mbind result_bind]. destruct fresh as [|r fresh']; [|done].
  rewrite app_nil_r. unfold val_sort. by rewrite sort_rows_id.
Qed.

Lemma val_merge_sound self staged out :
  val_ledger_ok self -> val_ledger_ok staged ->
  lenZ self <= MAX_KNOWLEDGE_ROWS -> lenZ staged <= MAX_KNOWLEDGE_ROWS ->
  val_ledger_merge self staged = Ok out ->
  merges_to validity_event_uuid val_recorded_at_micros self staged out /\
  val_ledger_ok out /\ val_ledger_new out = Ok out.
Proof.
  intros (Hw1&Hv1) (Hw2&Hv2) Hl1 Hl2 Hm. unfold MAX_KNOWLEDGE_ROWS in Hl1, Hl2.
  unfold val_ledger_merge, val_merge_with_limit in Hm.
  apply bind_Ok in Hm as (n&Hn&Hm). apply bind_unit_Ok in Hm as [Hc Hm].
  apply count_appended_Ok in Hn as [Hr ->]; [|lia|unfold usize_max, u64_max; lia].
  fold (new_rows validity_event_uuid (by_id validity_event_uuid self) staged) in Hm.
  assert (Hout : out = val_sort (self ++ new_rows validity_event_uuid (by_id validity_event_uuid self) staged)).
  { destruct (0 + _ =? 0) eqn:E0; [|congruence]. injection Hm as <-.
    assert (new_rows validity_event_uuid (by_id validity_event_uuid self) staged = []) as ->
      by (apply nil_length_inv; lia).
    rewrite app_nil_r. symmetry. by apply sort_rows_id. }
  assert (Hmt : merges_to validity_event_uuid val_recorded_at_micros self staged out)
    by (rewrite Hout; by apply merged_spec).
  assert (Hok : val_ledger_ok out).
  { split; [apply Hmt|]. rewrite Forall_forall in *. intros r Hin.
    apply (merges_to_elem _ _ self staged out r (proj2 Hw1) (proj2 Hw2) Hmt) in Hin as [?|?]; auto. }
  split; [done|]. split; [done|]. apply val_ledger_new_id; [done|].
  pose proof (new_rows_length (by_id validity_event_uuid self) staged).
  unfold validate_event_count, saturating_add, usize_max, u64_max in Hc.
  apply guard_Ok in Hc as [Hc _]. apply Z.ltb_ge in Hc.
  rewrite Hout. unfold val_sort. rewrite sort_rows_perm, length_app.
  unfold MAX_KNOWLEDGE_ROWS in *. lia.
Qed.

(** The ledger that a merge returns is the union of both by event identity, is again a
    validated ledger, and reads back unchanged. *)
Theorem validity_merge_union self staged out :
  val_ledger_ok self -> val_ledger_ok staged ->
  lenZ self <= MAX_KNOWLEDGE_ROWS -> lenZ staged <= MAX_KNOWLEDGE_ROWS ->
  val_ledger_merge self staged = Ok out ->
  merges_to validity_event_uuid val_recorded_at_micros self staged out /\
  val_ledger_ok out /\ val_ledger_new out = Ok out.
Proof. apply val_merge_sound. Qed.

Lemma visible_keys l (P : Row -> Prop) `{forall x, Decision (P x)} :
  NoDup (validity_event_uuid <$> l) ->
  NoDup (row_key validity_event_uuid val_recorded_at_micros <$> filter P l).
Proof. intros Hnd. by apply NoDup_row_key, NoDup_fmap_filter. Qed.

Lemma val_contains_iff (e : Row) t :
  contains e t = true <->
  (forall from, valid_from_micros e = Some from -> from <= t) /\
  (forall to, valid_to_micros e = Some to -> t < to).
Proof.
  unfold contains. rewrite andb_true_iff.
  destruct (valid_from_micros e) as [f|], (valid_to_micros e) as [u|]; cbn [from_option];
    rewrite ?Z.leb_le, ?Z.ltb_lt; naive_solver.
Qed.

(** Bitemporal reading: an assertion is valid at a time, as known at a cutoff, exactly
    when its latest correction recorded up to the cutoff has a half-open interval that
    holds the time, and there is an answer only when such a correction exists. *)
Theorem validity_is_valid_at_spec l assertion cutoff valid_time b :
  NoDup (validity_event_uuid <$> l) ->
  is_valid_at l assertion cutoff valid_time = Some b <->
  exists e, e ∈ l /\ val_assertion_uuid e = assertion /\ val_recorded_at_micros e <= cutoff /\
    (forall e', e' ∈ l -> val_assertion_uuid e' = assertion -> val_recorded_at_micros e' <= cutoff ->
       key_le (row_key validity_event_uuid val_recorded_at_micros) e' e) /\
    (b = true <-> (forall from, valid_from_micros e = Some from -> from <= valid_time) /\
                  (forall to, valid_to_micros e = Some to -> valid_time < to)).
Proof.
  intros Hnd. unfold is_valid_at. rewrite fmap_Some. unfold current_for_at.
  setoid_rewrite max_by_key_iff; [|by apply visible_keys].
  setoid_rewrite list_elem_of_filter. setoid_rewrite Forall_forall.
  setoid_rewrite list_elem_of_filter. setoid_rewrite <-val_contains_iff. split.
  - intros (e&((?&?)&?)&->). exists e. naive_solver.
  - intros (e&?&?&?&?&Hb). exists e. split; [naive_solver|].
    destruct b, (contains e valid_time); naive_solver.
Qed.

(** The past is stable: merging corrections that are all recorded after the cutoff does
    not change any answer as known at the cutoff. *)
Theorem validity_history_stable self staged out assertion cutoff valid_time :
  val_ledger_ok self -> val_ledger_ok staged ->
  lenZ self <= MAX_KNOWLEDGE_ROWS -> lenZ staged <= MAX_KNOWLEDGE_ROWS ->
  val_ledger_merge self staged = Ok out ->
  Forall (fun e => cutoff < val_recorded_at_micros e) staged ->
  is_valid_at out assertion cutoff valid_time = is_valid_at self assertion cutoff valid_time.
Proof.
  intros Hok1 Hok2 Hl1 Hl2 Hmerge Hlate.
  destruct (val_merge_sound _ _ _ Hok1 Hok2 Hl1 Hl2 Hmerge) as (Hm&_).
  destruct Hok1 as ([_ Hn1]&_), Hok2 as ([_ Hn2]&_). unfold is_valid_at, current_for_at. f_equal.
  apply max_by_key_ext; [apply visible_keys, Hm|by apply visible_keys|]. intros e.
  rewrite !list_elem_of_filter, (merges_to_elem _ _ self staged out e Hn1 Hn2 Hm).
  rewrite Forall_forall in Hlate. split; [|tauto].
  intros ([? ?]&[?|Hs]); [done|]. specialize (Hlate _ Hs). lia.
Qed.

(** Every correction has a fingerprint, two corrections share one only when they are the
    same row or their preimages are a SHA-256 collision. *)
Theorem validity_fingerprint_binding (sha256 : list Z -> list Z) (r1 r2 : Row) h :
  typed_validity r1 -> typed_validity r2 ->
  validity_fingerprint_for_row sha256 r1 = Ok h -> validity_fingerprint_for_row sha256 r2 = Ok h ->
  r1 = r2 \/
  collision sha256 (preimage_bytes Domain.AssertionValidity (validity_bytes r1))
    (preimage_bytes Domain.AssertionValidity (validity_bytes r2)).
Proof.
  rewrite !validity_fingerprint_for_row_eq. intros Hr1 Hr2 [= H1] [= H2].
  apply (digest_binding _ _ validity_bytes typed_validity); [apply validity_bytes_inj|done|done|].
  congruence.
Qed.
End properties.

(** ** Witnesses *)

Definition demo_validity (id : Z) (from to : option Z) (time : Z) : AssertionValidityEvent Uuid128 :=
  mkValidity (uuid7 id) (uuid7 70) from to None (uuid7 (id + 100)) time 1.

Definition val_self : list (AssertionValidityEvent Uuid128) := [demo_validity 2 (Some 5) None 10].
Definition val_staged : list (AssertionValidityEvent Uuid128) := [demo_validity 1 (Some 5) (Some 8) 20].

Lemma val_self_ok : val_ledger_ok val_self.
Proof. apply (val_ledger_new_sound val_self). by vm_compute. Qed.
Lemma val_staged_ok : val_ledger_ok val_staged.
Proof. apply (val_ledger_new_sound val_staged). by vm_compute. Qed.

Lemma val_both_ids : NoDup (validity_event_uuid <$> val_self ++ val_staged).
Proof. apply (val_ledger_new_sound (val_self ++ val_staged)). by vm_compute. Qed.

Lemma validity_merge_reference_witness :
  val_ledger_merge val_self val_staged = val_merge_reference val_self val_staged /\
  val_ledger_merge val_self val_staged = Ok (val_self ++ val_staged).
Proof.
  split; [|by vm_compute].
  apply (validity_merge_reference val_self val_staged);
    [apply val_self_ok|apply val_staged_ok|by vm_compute..].
Defined.

Lemma validity_merge_union_witness :
  val_ledger_new (val_self ++ val_staged) = Ok (val_self ++ val_staged).
Proof.
  apply (validity_merge_union val_self val_staged);
    [apply val_self_ok|apply val_staged_ok|by vm_compute..].
Defined.

Lemma validity_is_valid_at_spec_witness :
  exists e, e ∈ val_self ++ val_staged /\ val_assertion_uuid e = uuid7 70.
Proof.
  destruct (proj1 (validity_is_valid_at_spec (val_self ++ val_staged) (uuid7 70) 15 9 true
    val_both_ids) ltac:(by vm_compute)) as (e&?&?&_).
  by exists e.
Defined.

Lemma validity_history_stable_witness :
  is_valid_at (val_self ++ val_staged) (uuid7 70) 15 9 = is_valid_at val_self (uuid7 70) 15 9.
Proof.
  apply (validity_history_stable val_self val_staged (val_self ++ val_staged));
    [apply val_self_ok|apply val_staged_ok|by vm_compute|by vm_compute|by vm_compute|].
  by repeat constructor.
Defined.

Lemma validity_fingerprint_binding_witness :
  let r := demo_validity 1 (Some 5) (Some 8) 20 in
  let p := preimage_bytes Domain.AssertionValidity (validity_bytes r) in
  validity_fingerprint_for_row (take 32) r = Ok (take 32 p) /\ (r = r \/ collision (take 32) p p).
Proof.
  intros r p. split; [by vm_compute|].
  apply (validity_fingerprint_binding (take 32) r r (take 32 p));
    [split_and!; unfold in_i64, i64_min, i64_max, u32_max; simpl; lia..|by vm_compute|by vm_compute].
Defined.
