(* ===== verification/Hypothesis.v ===== *)
(** * Hypothesis groups: [crates/graphforge-knowledge/src/hypothesis.rs].

    Append-only groups of competing assertions, membership events and explicit selection
    events: row validation, the replay of the combined history one operation at a time,
    canonical construction, merge, the current members and selection of a group, and the
    fingerprints of the three record families.  Unicode normalisation is third-party code:
    [nfc] is a parameter. *)

From stdpp Require Import base list gmap strings sorting.
From Stdlib Require Import ZArith Lia.
From S2P Require Import Prelude Uuid Canonical Knowledge Text.

Definition HYPOTHESIS_GROUP_CONTRACT_VERSION : Z := 1.
Definition HYPOTHESIS_MEMBERSHIP_CONTRACT_VERSION : Z := 1.
Definition HYPOTHESIS_SELECTION_CONTRACT_VERSION : Z := 1.
Definition MAX_HYPOTHESIS_QUESTION_KEY_BYTES : Z := 1024.

Inductive HypothesisMembershipAction := Added | Removed.
#[global] Instance action_eq_dec : EqDecision HypothesisMembershipAction.
Proof. solve_decision. Defined.

Definition action_as_str (a : HypothesisMembershipAction) : string :=
  match a with Added => "added" | Removed => "removed" end.

Definition action_parse (value : string) : K HypothesisMembershipAction :=
  if decide (value = "added"%string) then Ok Added
  else if decide (value = "removed"%string) then Ok Removed
  else Err (invalid "hypothesis_membership.action" "unknown registry value").

Record HypothesisGroup (U : Type) := mkGroup {
  group_uuid : U;
  question_key : str;
  group_provenance_uuid : U;
  group_recorded_at_micros : Z;
  group_contract_version : Z;
}.
Arguments mkGroup {U}.
Arguments group_uuid {U}.
Arguments question_key {U}.
Arguments group_provenance_uuid {U}.
Arguments group_recorded_at_micros {U}.
Arguments group_contract_version {U}.

Record HypothesisMembershipEvent (U : Type) := mkMembership {
  membership_event_uuid : U;
  mem_operation_uuid : U;
  mem_group_uuid : U;
  mem_assertion_uuid : U;
  mem_action : HypothesisMembershipAction;
  mem_reasoning_uuid : U;
  mem_provenance_uuid : U;
  mem_recorded_at_micros : Z;
  mem_contract_version : Z;
}.
Arguments mkMembership {U}.
Arguments membership_event_uuid {U}.
Arguments mem_operation_uuid {U}.
Arguments mem_group_uuid {U}.
Arguments mem_assertion_uuid {U}.
Arguments mem_action {U}.
Arguments mem_reasoning_uuid {U}.
Arguments mem_provenance_uuid {U}.
Arguments mem_recorded_at_micros {U}.
Arguments mem_contract_version {U}.

Record HypothesisSelectionEvent (U : Type) := mkSelection {
  selection_event_uuid : U;
  sel_operation_uuid : U;
  sel_group_uuid : U;
  selected_assertion_uuid : option U;
  sel_reasoning_uuid : U;
  sel_provenance_uuid : U;
  sel_recorded_at_micros : Z;
  sel_contract_version : Z;
}.
Arguments mkSelection {U}.
Arguments selection_event_uuid {U}.
Arguments sel_operation_uuid {U}.
Arguments sel_group_uuid {U}.
Arguments selected_assertion_uuid {U}.
Arguments sel_reasoning_uuid {U}.
Arguments sel_provenance_uuid {U}.
Arguments sel_recorded_at_micros {U}.
Arguments sel_contract_version {U}.

#[global] Instance group_eq_dec `{EqDecision U} : EqDecision (HypothesisGroup U).
Proof. solve_decision. Defined.
#[global] Instance membership_eq_dec `{EqDecision U} : EqDecision (HypothesisMembershipEvent U).
Proof. solve_decision. Defined.
#[global] Instance selection_eq_dec `{EqDecision U} : EqDecision (HypothesisSelectionEvent U).
Proof. solve_decision. Defined.

Record HypothesisLedger (U : Type) := mkLedger {
  groups : list (HypothesisGroup U);
  membership_events : list (HypothesisMembershipEvent U);
  selection_events : list (HypothesisSelectionEvent U);
}.
Arguments mkLedger {U}.
Arguments groups {U}.
Arguments membership_events {U}.
Arguments selection_events {U}.

(** ** Rows *)

Section rows.
Context {U : Type} `{!UuidCrate U}.
(** [UnicodeNormalization::nfc], collected. *)
Context (nfc : str -> str).

Definition validate_question_key (value : str) : K unit :=
  if (str_len value =? 0) || (MAX_HYPOTHESIS_QUESTION_KEY_BYTES <? str_len value)
     || negb (bool_decide (trim value = value)) || negb (bool_decide (nfc value = value))
  then Err (invalid "hypothesis_group.question_key"
    "must be non-empty bounded NFC without surrounding whitespace")
  else Ok tt.

Definition group_new (uuid : U) (key : str) (provenance : U) (recorded_at_micros : Z)
    : K (HypothesisGroup U) :=
  require_v7 uuid "group_uuid" ;;
  require_uuid provenance "provenance_uuid" ;;
  validate_question_key key ;;
  Ok (mkGroup uuid key provenance recorded_at_micros HYPOTHESIS_GROUP_CONTRACT_VERSION).

Definition membership_new (event operation group assertion : U) (action : HypothesisMembershipAction)
    (reasoning provenance : U) (recorded_at_micros : Z) : K (HypothesisMembershipEvent U) :=
  require_v7 event "membership_event_uuid" ;;
  require_v7 operation "operation_uuid" ;;
  require_v7 group "group_uuid" ;;
  require_v7 assertion "assertion_uuid" ;;
  require_v7 reasoning "reasoning_uuid" ;;
  require_uuid provenance "provenance_uuid" ;;
  Ok (mkMembership event operation group assertion action reasoning provenance recorded_at_micros
    HYPOTHESIS_MEMBERSHIP_CONTRACT_VERSION).

Definition selection_new (event operation group : U) (selected : option U) (reasoning provenance : U)
    (recorded_at_micros : Z) : K (HypothesisSelectionEvent U) :=
  require_v7 event "selection_event_uuid" ;;
  require_v7 operation "operation_uuid" ;;
  require_v7 group "group_uuid" ;;
  require_v7 reasoning "reasoning_uuid" ;;
  require_opt_v7 selected "selected_assertion_uuid" ;;
  require_uuid provenance "provenance_uuid" ;;
  Ok (mkSelection event operation group selected reasoning provenance recorded_at_micros
    HYPOTHESIS_SELECTION_CONTRACT_VERSION).

(** One row of [validate_groups], before the two sets. *)
Definition validate_group (row : HypothesisGroup U) : K unit :=
  group_new (group_uuid row) (question_key row) (group_provenance_uuid row) (group_recorded_at_micros row) ;;
  if negb (group_contract_version row =? HYPOTHESIS_GROUP_CONTRACT_VERSION)
  then Err (invalid "hypothesis_group.contract_version" "unsupported version") else Ok tt.

Fixpoint scan_groups (ids : gset U) (keys : gset str) (rows : list (HypothesisGroup U)) : K unit :=
  match rows with
  | [] => Ok tt
  | row :: rows' =>
      validate_group row ;;
      if decide (group_uuid row ∈ ids) then Err (KErr.Duplicate "group_uuid")
      else if decide (question_key row ∈ keys) then Err (KErr.Duplicate "question_key")
      else scan_groups ({[group_uuid row]} ∪ ids) ({[question_key row]} ∪ keys) rows'
  end.

Definition validate_groups (rows : list (HypothesisGroup U)) : K unit := scan_groups ∅ ∅ rows.

Definition validate_membership (row : HypothesisMembershipEvent U) : K unit :=
  membership_new (membership_event_uuid row) (mem_operation_uuid row) (mem_group_uuid row)
    (mem_assertion_uuid row) (mem_action row) (mem_reasoning_uuid row) (mem_provenance_uuid row)
    (mem_recorded_at_micros row) ;;
  if negb (mem_contract_version row =? HYPOTHESIS_MEMBERSHIP_CONTRACT_VERSION)
  then Err (invalid "hypothesis_membership.contract_version" "unsupported version") else Ok tt.

Definition validate_selection (row : HypothesisSelectionEvent U) : K unit :=
  selection_new (selection_event_uuid row) (sel_operation_uuid row) (sel_group_uuid row)
    (selected_assertion_uuid row) (sel_reasoning_uuid row) (sel_provenance_uuid row)
    (sel_recorded_at_micros row) ;;
  if negb (sel_contract_version row =? HYPOTHESIS_SELECTION_CONTRACT_VERSION)
  then Err (invalid "hypothesis_selection.contract_version" "unsupported version") else Ok tt.

(** [ids] is cleared between the two loops. *)
Definition validate_event_ids (membership : list (HypothesisMembershipEvent U))
    (selection : list (HypothesisSelectionEvent U)) : K unit :=
  scan_ids membership_event_uuid validate_membership (KErr.Duplicate "membership_event_uuid") ∅ membership ;;
  scan_ids selection_event_uuid validate_selection (KErr.Duplicate "selection_event_uuid") ∅ selection.

Fixpoint scan_keys (keys : gset str) (rows : list (HypothesisGroup U)) : K unit :=
  match rows with
  | [] => Ok tt
  | row :: rows' =>
      if decide (question_key row ∈ keys) then Err (KErr.Duplicate "question_key")
      else scan_keys ({[question_key row]} ∪ keys) rows'
  end.

Definition validate_question_key_uniqueness (rows : list (HypothesisGroup U)) : K unit := scan_keys ∅ rows.

Definition validate_row_count (participant : string) (observed limit : Z) : K unit :=
  if limit <? observed then Err (KErr.Limit participant observed limit) else Ok tt.

(** ** Replay *)

Abbreviation Members := (gmap U (gset U)).
Abbreviation Selected := (gmap U (option U)).
Abbreviation Times := (gmap U Z).

Definition group_times (rows : list (HypothesisGroup U)) : Times :=
  foldl (fun m row => <[group_uuid row := group_recorded_at_micros row]> m) ∅ rows.

(** One iteration of the membership loop. *)
Definition apply_membership (times : Times) (members : Members) (event : HypothesisMembershipEvent U)
    : K Members :=
  group_time ← ok_or (times !! mem_group_uuid event) (KErr.Dangling "group_uuid");
  if mem_recorded_at_micros event <? group_time
  then Err (invalid "hypothesis_membership.recorded_at" "cannot predate its hypothesis group")
  else
    let state := default ∅ (members !! mem_group_uuid event) in
    let present := bool_decide (mem_assertion_uuid event ∈ state) in
    match mem_action event with
    | Added =>
        if present then Err (invalid "hypothesis_membership.action" "cannot add a current member")
        else Ok (<[mem_group_uuid event := {[mem_assertion_uuid event]} ∪ state]> members)
    | Removed =>
        if present then Ok (<[mem_group_uuid event := state ∖ {[mem_assertion_uuid event]}]> members)
        else Err (invalid "hypothesis_membership.action" "cannot remove a non-member")
    end.

(** One iteration of the selection loop. *)
Definition apply_selection (times : Times) (members : Members) (selected : Selected)
    (event : HypothesisSelectionEvent U) : K Selected :=
  group_time ← ok_or (times !! sel_group_uuid event) (KErr.Dangling "group_uuid");
  if sel_recorded_at_micros event <? group_time
  then Err (invalid "hypothesis_selection.recorded_at" "cannot predate its hypothesis group")
  else if match selected_assertion_uuid event with
          | Some assertion => negb (bool_decide (assertion ∈ default ∅ (members !! sel_group_uuid event)))
          | None => false
          end
  then Err (invalid "hypothesis_selection.selected_assertion_uuid" "selected assertion must be a current member")
  else Ok (<[sel_group_uuid event := selected_assertion_uuid event]> selected).

(** One iteration of the removal loop: removing the selected member needs an explicit
    selection event of the same operation. *)
Definition check_removal (selected_before : Selected) (selection_at_time : list (HypothesisSelectionEvent U))
    (removal : HypothesisMembershipEvent U) : K unit :=
  if bool_decide (mjoin (selected_before !! mem_group_uuid removal) = Some (mem_assertion_uuid removal)) then
    let paired := existsb (fun event =>
      bool_decide (sel_group_uuid event = mem_group_uuid removal) &&
      bool_decide (sel_operation_uuid event = mem_operation_uuid removal) &&
      negb (bool_decide (selected_assertion_uuid event = Some (mem_assertion_uuid removal)))) selection_at_time in
    if negb paired then Err (invalid "hypothesis_membership.action"
      "selected-member removal requires a paired explicit selection event") else Ok tt
  else Ok tt.

(** [for x in l { s = step(s, x)?; }] *)
Fixpoint try_fold {S X} (step : S -> X -> K S) (s : S) (l : list X) : K S :=
  match l with
  | [] => Ok s
  | x :: l' => s' ← step s x; try_fold step s' l'
  end.

Definition at_operation_mem (time : Z) (operation : U) (rows : list (HypothesisMembershipEvent U)) :=
  filter (fun row => mem_recorded_at_micros row = time /\ mem_operation_uuid row = operation) rows.
Definition at_operation_sel (time : Z) (operation : U) (rows : list (HypothesisSelectionEvent U)) :=
  filter (fun row => sel_recorded_at_micros row = time /\ sel_operation_uuid row = operation) rows.

(** One iteration over the operations. *)
Definition replay_operation (times : Times) (membership : list (HypothesisMembershipEvent U))
    (selection : list (HypothesisSelectionEvent U)) (state : Members * Selected) (key : Z * (U * U))
    : K (Members * Selected) :=
  let '(members, selected) := state in
  let '(time, (_, operation)) := key in
  let selected_before := selected in
  let membership_at_time := at_operation_mem time operation membership in
  let selection_at_time := at_operation_sel time operation selection in
  members ← try_fold (apply_membership times) members membership_at_time;
  selected ← try_fold (apply_selection times members) selected selection_at_time;
  try_fold (fun _ => check_removal selected_before selection_at_time) tt
    (filter (fun row => mem_action row = Removed) membership_at_time) ;;
  Ok (members, selected).

(** Operations with their first event, keyed by time and operation. *)
Definition operation_events (membership : list (HypothesisMembershipEvent U))
    (selection : list (HypothesisSelectionEvent U)) : list (Z * U * U) :=
  ((fun row => (mem_recorded_at_micros row, mem_operation_uuid row, membership_event_uuid row)) <$> membership) ++
  ((fun row => (sel_recorded_at_micros row, sel_operation_uuid row, selection_event_uuid row)) <$> selection).

Definition ord_min (a b : U) : U := if decide (ord_le a b) then a else b.

Definition first_events (events : list (Z * U * U)) : gmap (Z * U) U :=
  foldl (fun operations '(time, operation, event) =>
    <[(time, operation) := match operations !! (time, operation) with
      | Some first => ord_min first event
      | None => event
      end]> operations) ∅ events.

(** Time, then first event, then operation. *)
Definition operation_keys (membership : list (HypothesisMembershipEvent U))
    (selection : list (HypothesisSelectionEvent U)) : list (Z * (U * U)) :=
  sort_by_key id ((fun '(time, operation, first) => (time, (first, operation))) <$>
    map_to_list (first_events (operation_events membership selection))).

Definition replay (rows : list (HypothesisGroup U)) (membership : list (HypothesisMembershipEvent U))
    (selection : list (HypothesisSelectionEvent U)) : K (Members * Selected) :=
  try_fold (replay_operation (group_times rows) membership selection) (∅, ∅)
    (operation_keys membership selection).

Definition validate_state (rows : list (HypothesisGroup U)) (membership : list (HypothesisMembershipEvent U))
    (selection : list (HypothesisSelectionEvent U)) : K unit :=
  replay rows membership selection ;; Ok tt.

(** ** The ledger *)

Definition sort_groups (rows : list (HypothesisGroup U)) : list (HypothesisGroup U) :=
  sort_rows group_uuid group_recorded_at_micros rows.
Definition sort_membership (rows : list (HypothesisMembershipEvent U)) : list (HypothesisMembershipEvent U) :=
  sort_rows membership_event_uuid mem_recorded_at_micros rows.
Definition sort_selection (rows : list (HypothesisSelectionEvent U)) : list (HypothesisSelectionEvent U) :=
  sort_rows selection_event_uuid sel_recorded_at_micros rows.

Definition hyp_new_with_limit (gs : list (HypothesisGroup U)) (ms : list (HypothesisMembershipEvent U))
    (ss : list (HypothesisSelectionEvent U)) (row_limit : Z) : K (HypothesisLedger U) :=
  validate_row_count "hypothesis_groups" (lenZ gs) row_limit ;;
  validate_row_count "hypothesis_membership_events" (lenZ ms) row_limit ;;
  validate_row_count "hypothesis_selection_events" (lenZ ss) row_limit ;;
  validate_groups gs ;;
  validate_event_ids ms ss ;;
  let gs := sort_groups gs in
  let ms := sort_membership ms in
  let ss := sort_selection ss in
  validate_state gs ms ss ;;
  Ok (mkLedger gs ms ss).

Definition hyp_ledger_new gs ms ss : K (HypothesisLedger U) := hyp_new_with_limit gs ms ss MAX_KNOWLEDGE_ROWS.

(** The loop of [merge_rows]. *)
Fixpoint merge_rows_loop {Row} `{!EqDecision Row} (row_id : Row -> U) (field participant : string)
    (row_limit : Z) (staged rows : list Row) (m : gmap U Row) : K (list Row) :=
  match staged with
  | [] => Ok rows
  | row :: staged' =>
      match m !! row_id row with
      | Some current =>
          if decide (current = row) then merge_rows_loop row_id field participant row_limit staged' rows m
          else Err (KErr.Conflict field)
      | None =>
          validate_row_count participant (saturating_add (lenZ rows) 1) row_limit ;;
          merge_rows_loop row_id field participant row_limit staged' (rows ++ [row]) (<[row_id row := row]> m)
      end
  end.

Definition merge_rows {Row} `{!EqDecision Row} (existing staged : list Row) (row_id : Row -> U)
    (field participant : string) (row_limit : Z) : K (list Row) :=
  validate_row_count participant (lenZ existing) row_limit ;;
  merge_rows_loop row_id field participant row_limit staged existing (by_id row_id existing).

Definition hyp_merge_with_limit (self staged : HypothesisLedger U) (row_limit : Z) : K (HypothesisLedger U) :=
  gs ← merge_rows (groups self) (groups staged) group_uuid "group_uuid" "hypothesis_groups" row_limit;
  ms ← merge_rows (membership_events self) (membership_events staged) membership_event_uuid
    "membership_event_uuid" "hypothesis_membership_events" row_limit;
  ss ← merge_rows (selection_events self) (selection_events staged) selection_event_uuid
    "selection_event_uuid" "hypothesis_selection_events" row_limit;
  validate_question_key_uniqueness gs ;;
  let gs := sort_groups gs in
  let ms := sort_membership ms in
  let ss := sort_selection ss in
  validate_state gs ms ss ;;
  Ok (mkLedger gs ms ss).

Definition hyp_ledger_merge (self staged : HypothesisLedger U) : K (HypothesisLedger U) :=
  hyp_merge_with_limit self staged MAX_KNOWLEDGE_ROWS.

(** The effect of one event on the set of members. *)
Definition member_step (state : gset U) (event : HypothesisMembershipEvent U) : gset U :=
  match mem_action event with
  | Added => {[mem_assertion_uuid event]} ∪ state
  | Removed => state ∖ {[mem_assertion_uuid event]}
  end.

Definition current_members (self : HypothesisLedger U) (group : U) : list U :=
  sort_by_key id (elements (foldl member_step ∅
    (filter (fun row => mem_group_uuid row = group) (membership_events self)))).

(** [iter().rfind(..)] *)
Definition current_selection (self : HypothesisLedger U) (group : U) : option U :=
  '(_, row) ← list_find (fun row => sel_group_uuid row = group) (reverse (selection_events self));
  selected_assertion_uuid row.

(** ** Fingerprints *)

Definition group_writer (row : HypothesisGroup U) : W :=
  writer_raw (as_bytes (group_uuid row)) ;;
  writer_text (utf8 (question_key row)) ;;
  writer_raw (as_bytes (group_provenance_uuid row)) ;;
  writer_i64 (group_recorded_at_micros row) ;;
  writer_u32 (group_contract_version row).

Definition membership_writer (row : HypothesisMembershipEvent U) : W :=
  writer_raw (as_bytes (membership_event_uuid row)) ;;
  writer_raw (as_bytes (mem_operation_uuid row)) ;;
  writer_raw (as_bytes (mem_group_uuid row)) ;;
  writer_raw (as_bytes (mem_assertion_uuid row)) ;;
  writer_text (bytes_of (action_as_str (mem_action row))) ;;
  writer_raw (as_bytes (mem_reasoning_uuid row)) ;;
  writer_raw (as_bytes (mem_provenance_uuid row)) ;;
  writer_i64 (mem_recorded_at_micros row) ;;
  writer_u32 (mem_contract_version row).

Definition selection_writer (row : HypothesisSelectionEvent U) : W :=
  writer_raw (as_bytes (selection_event_uuid row)) ;;
  writer_raw (as_bytes (sel_operation_uuid row)) ;;
  writer_raw (as_bytes (sel_group_uuid row)) ;;
  optional_uuid (selected_assertion_uuid row) ;;
  writer_raw (as_bytes (sel_reasoning_uuid row)) ;;
  writer_raw (as_bytes (sel_provenance_uuid row)) ;;
  writer_i64 (sel_recorded_at_micros row) ;;
  writer_u32 (sel_contract_version row).

Definition group_fingerprint_for_row (sha256 : list Z -> list Z) (row : HypothesisGroup U) : K (list Z) :=
  map_err KErr.Canonical (write_fingerprint sha256 Domain.HypothesisGroup (group_writer row)).
Definition membership_fingerprint_for_row (sha256 : list Z -> list Z) (row : HypothesisMembershipEvent U)
    : K (list Z) :=
  map_err KErr.Canonical (write_fingerprint sha256 Domain.HypothesisMembership (membership_writer row)).
Definition selection_fingerprint_for_row (sha256 : list Z -> list Z) (row : HypothesisSelectionEvent U)
    : K (list Z) :=
  map_err KErr.Canonical (write_fingerprint sha256 Domain.HypothesisSelection (selection_writer row)).

Definition group_fingerprint (sha256 : list Z -> list Z) (self : HypothesisLedger U) (id : U) : K (list Z) :=
  fingerprint_of group_uuid (group_fingerprint_for_row sha256) (KErr.Dangling "group_uuid") (groups self) id.
Definition group_fingerprints (sha256 : list Z -> list Z) (self : HypothesisLedger U) : K (list (U * list Z)) :=
  fingerprint_table group_uuid (group_fingerprint_for_row sha256) (groups self).
Definition membership_fingerprint (sha256 : list Z -> list Z) (self : HypothesisLedger U) (id : U) : K (list Z) :=
  fingerprint_of membership_event_uuid (membership_fingerprint_for_row sha256)
    (KErr.Dangling "membership_event_uuid") (membership_events self) id.
Definition membership_fingerprints (sha256 : list Z -> list Z) (self : HypothesisLedger U)
    : K (list (U * list Z)) :=
  fingerprint_table membership_event_uuid (membership_fingerprint_for_row sha256) (membership_events self).
Definition selection_fingerprint (sha256 : list Z -> list Z) (self : HypothesisLedger U) (id : U) : K (list Z) :=
  fingerprint_of selection_event_uuid (selection_fingerprint_for_row sha256)
    (KErr.Dangling "selection_event_uuid") (selection_events self) id.
Definition selection_fingerprints (sha256 : list Z -> list Z) (self : HypothesisLedger U)
    : K (list (U * list Z)) :=
  fingerprint_table selection_event_uuid (selection_fingerprint_for_row sha256) (selection_events self).
End rows.

(** ** The replayed state *)

Section replay_facts.
Context {U : Type} `{!UuidCrate U}.
Abbreviation Members := (gmap U (gset U)).
Abbreviation Selected := (gmap U (option U)).
Implicit Types (times : gmap U Z) (members : Members) (selected : Selected).
Implicit Types (ms : list (HypothesisMembershipEvent U)) (ss : list (HypothesisSelectionEvent U)).

Definition members_of (members : Members) (g : U) : gset U := default ∅ (members !! g).

Abbreviation of_group_mem g ms := (filter (fun row => mem_group_uuid row = g) ms).
Abbreviation of_group_sel g ss := (filter (fun row => sel_group_uuid row = g) ss).

Lemma apply_membership_members times m e m' g :
  apply_membership times m e = Ok m' ->
  members_of m' g = foldl member_step (members_of m g) (of_group_mem g [e]).
Proof.
  unfold apply_membership. intros (gt&_&H)%bind_Ok. destruct (_ <? gt); [done|]. cbv zeta in H.
  rewrite filter_cons, filter_nil.
  assert (Hins : forall x, m' = <[mem_group_uuid e := x]> m ->
    members_of m' g = if decide (mem_group_uuid e = g) then x else members_of m g).
  { intros x ->. unfold members_of. destruct (decide (mem_group_uuid e = g)) as [<-|Hg].
    - by rewrite lookup_insert_eq.
    - by rewrite lookup_insert_ne. }
  destruct (mem_action e) eqn:Ha, (bool_decide _); try done; injection H as H; symmetry in H;
    rewrite (Hins _ H); case_decide as Hg; subst; try done; cbn [foldl]; unfold member_step; by rewrite Ha.
Qed.

Lemma try_membership_members times m es m' g :
  try_fold (apply_membership times) m es = Ok m' ->
  members_of m' g = foldl member_step (members_of m g) (of_group_mem g es).
Proof.
  revert m. induction es as [|e es IH]; intros m H; [by injection H as ->|].
  apply bind_Ok in H as (m1&H1&H). apply IH in H. apply (apply_membership_members _ _ _ _ g) in H1.
  rewrite H, H1, <-foldl_app, <-filter_app. done.
Qed.

(** The value the last event of the group leaves, or the earlier one. *)
Definition last_selection (selected : Selected) (g : U) (es : list (HypothesisSelectionEvent U)) : option (option U) :=
  match last (of_group_sel g es) with
  | Some e => Some (selected_assertion_uuid e)
  | None => selected !! g
  end.

Lemma apply_selection_selected times m sel e sel' :
  apply_selection times m sel e = Ok sel' ->
  sel' = <[sel_group_uuid e := selected_assertion_uuid e]> sel /\
  forall a, selected_assertion_uuid e = Some a -> a ∈ members_of m (sel_group_uuid e).
Proof.
  unfold apply_selection. intros (gt&_&H)%bind_Ok. destruct (_ <? gt); [done|].
  destruct (selected_assertion_uuid e) as [a|].
  - case_bool_decide as Ha; [|done]. injection H as <-. split; [done|]. by intros ? [= <-].
  - by injection H as <-.
Qed.

Lemma try_selection_selected times m sel es sel' :
  try_fold (apply_selection times m) sel es = Ok sel' ->
  (forall g, sel' !! g = last_selection sel g es) /\
  Forall (fun e => forall a, selected_assertion_uuid e = Some a -> a ∈ members_of m (sel_group_uuid e)) es.
Proof.
  revert sel. induction es as [|e es IH]; intros sel H; [by injection H as ->|].
  apply bind_Ok in H as (sel1&[-> He]%apply_selection_selected&[Hg Hes]%IH).
  split; [|by constructor]. intros g. rewrite Hg. unfold last_selection. rewrite filter_cons.
  case_decide as Heg.
  - rewrite last_cons. subst g. rewrite lookup_insert_eq. by destruct (last _).
  - rewrite lookup_insert_ne by done. done.
Qed.

Lemma try_removals sel ss es u :
  try_fold (fun _ => check_removal sel ss) u es = Ok tt ->
  Forall (fun r => mjoin (sel !! mem_group_uuid r) = Some (mem_assertion_uuid r) ->
    exists e, e ∈ ss /\ sel_group_uuid e = mem_group_uuid r) es.
Proof.
  revert u. induction es as [|r es IH]; intros u H; [constructor|].
  apply bind_Ok in H as ([]&Hr&H). constructor; [|by eapply IH].
  intros Hsel. unfold check_removal in Hr. rewrite bool_decide_eq_true_2 in Hr by done. cbv zeta in Hr.
  destruct (existsb _ _) eqn:Hex; [|done]. apply existsb_exists in Hex as (e&He&Hp). exists e.
  split; [by apply list_elem_of_In|]. by apply andb_prop in Hp as [[Hg%bool_decide_eq_true_1 _]%andb_prop _].
Qed.

(** What one operation does to the state of every group. *)
Record operation_effect (ms : list (HypothesisMembershipEvent U)) (ss : list (HypothesisSelectionEvent U))
    (members : Members) (selected : Selected) (members' : Members) (selected' : Selected) : Prop := {
  effect_members : forall g, members_of members' g = foldl member_step (members_of members g) (of_group_mem g ms);
  effect_selected : forall g, selected' !! g = last_selection selected g ss;
  effect_member : forall e a, e ∈ ss -> selected_assertion_uuid e = Some a -> a ∈ members_of members' (sel_group_uuid e);
  effect_paired : forall r, r ∈ ms -> mem_action r = Removed ->
    mjoin (selected !! mem_group_uuid r) = Some (mem_assertion_uuid r) ->
    exists e, e ∈ ss /\ sel_group_uuid e = mem_group_uuid r;
}.

Lemma replay_operation_effect times ms ss m sel t f o m' sel' :
  replay_operation times ms ss (m, sel) (t, (f, o)) = Ok (m', sel') ->
  operation_effect (at_operation_mem t o ms) (at_operation_sel t o ss) m sel m' sel'.
Proof.
  cbn [replay_operation]. cbv zeta. intros (m1&Hm&(s1&Hs&([]&Hr&[= <- <-])%bind_Ok)%bind_Ok)%bind_Ok.
  apply try_selection_selected in Hs as [Hsel Hmem]. apply try_removals in Hr. split.
  - intros g. by eapply try_membership_members.
  - done.
  - intros e a He. rewrite Forall_forall in Hmem. by apply Hmem.
  - intros r Hin Ha. rewrite Forall_forall in Hr. apply Hr. by apply list_elem_of_filter.
Qed.

(** The state invariant: a selected assertion is a member. *)
Definition state_ok (members : Members) (selected : Selected) : Prop :=
  forall g a, selected !! g = Some (Some a) -> a ∈ members_of members g.

Lemma member_stays (s : gset U) es a :
  a ∈ s -> Forall (fun e => ~ (mem_action e = Removed /\ mem_assertion_uuid e = a)) es -> a ∈ foldl member_step s es.
Proof.
  intros Ha Hes. revert s Ha. induction Hes as [|e es He _ IH]; intros s Ha; [done|]. apply IH.
  unfold member_step. destruct (mem_action e); [set_solver|]. apply elem_of_difference. split; [done|].
  rewrite elem_of_singleton. intros ->. by apply He.
Qed.

Lemma operation_keeps_state ms ss m sel m' sel' :
  operation_effect ms ss m sel m' sel' -> state_ok m sel -> state_ok m' sel'.
Proof.
  intros [Hm Hs Hmem Hpair] Hok g a. rewrite Hs. unfold last_selection.
  destruct (last (of_group_sel g ss)) as [e|] eqn:Hlast.
  - apply last_Some_elem_of, list_elem_of_filter in Hlast as [<- He]. intros [= Ha]. by apply Hmem.
  - intros Hsel. rewrite Hm. apply member_stays; [by apply Hok|]. apply Forall_forall.
    intros r [Hg Hr]%list_elem_of_filter [Hact <-]. apply last_None in Hlast.
    destruct (Hpair r Hr Hact) as (e&He&Heg); [by rewrite Hg, Hsel|].
    assert (He' : e ∈ of_group_sel g ss) by (apply list_elem_of_filter; split; [congruence|done]).
    rewrite Hlast in He'. by apply elem_of_nil in He'.
Qed.

(** ** Whole histories *)

Abbreviation mems_in keys ms := (keys ≫= fun '(t, (_, o)) => at_operation_mem t o ms).
Abbreviation sels_in keys ss := (keys ≫= fun '(t, (_, o)) => at_operation_sel t o ss).

Lemma try_operations times ms ss keys m sel m' sel' :
  try_fold (replay_operation times ms ss) (m, sel) keys = Ok (m', sel') -> state_ok m sel ->
  state_ok m' sel' /\
  (forall g, members_of m' g = foldl member_step (members_of m g) (of_group_mem g (mems_in keys ms))) /\
  (forall g, sel' !! g = last_selection sel g (sels_in keys ss)).
Proof.
  revert m sel. induction keys as [|[t [f o]] keys IH]; intros m sel H Hok.
  { by injection H as -> ->. }
  apply bind_Ok in H as ([m1 sel1]&Hop&H). apply replay_operation_effect in Hop.
  destruct (IH m1 sel1 H (operation_keeps_state _ _ _ _ _ _ Hop Hok)) as (Hok'&Hm&Hs).
  destruct Hop as [Hm1 Hs1 _ _]. split; [done|]. split; intros g; rewrite bind_cons.
  - by rewrite Hm, Hm1, <-foldl_app, <-filter_app.
  - rewrite Hs. unfold last_selection. rewrite filter_app, last_app. destruct (last (of_group_sel g (sels_in keys ss))); [done|].
    apply Hs1.
Qed.
End replay_facts.

(** ** Operations at distinct times *)

Section partition.
Context {U Row : Type} `{!UuidCrate U} (time : Row -> Z) (op : Row -> U).
Implicit Types (rows : list Row) (keys : list (Z * (U * U))).

(** The rows of the least time come first. *)
Lemma sorted_split (P : Row -> Prop) `{!forall x, Decision (P x)} t rows :
  StronglySorted (fun a b => time a <= time b) rows ->
  Forall (fun r => t <= time r /\ (P r <-> time r = t)) rows ->
  rows = filter P rows ++ filter (fun r => ~ P r) rows.
Proof.
  induction 1 as [|x rows Hs IH Hx]; intros Hp; [done|]. apply Forall_cons in Hp as [[Hle Hpx] Hp].
  rewrite !filter_cons. destruct (decide (P x)) as [HP|HP].
  - rewrite (decide_False (P := ~ P x)) by tauto. cbn [app]. f_equal. by apply IH.
  - rewrite decide_True by done.
    assert (Hnone : filter P rows = []).
    { apply filter_none. intros y Hy HPy. rewrite Forall_forall in Hp, Hx. apply Hp in Hy as Hy'.
      specialize (Hx y Hy). assert (time y = t) by tauto. assert (time x <> t) by tauto. lia. }
    specialize (IH Hp). rewrite Hnone in IH |- *. cbn [app] in IH |- *. by f_equal.
Qed.

(** Replaying operation by operation visits the sorted rows in their order. *)
Lemma partition_by_keys keys rows :
  StronglySorted (fun a b => time a <= time b) rows ->
  StronglySorted (fun k1 k2 => k1.1 < k2.1) keys ->
  (forall r, r ∈ rows -> exists f, (time r, (f, op r)) ∈ keys) ->
  (keys ≫= fun '(t, (_, o)) => filter (fun r => time r = t /\ op r = o) rows) = rows.
Proof.
  intros Hrows Hkeys. revert rows Hrows. induction Hkeys as [|[t [f o]] keys Hs IH Hlt]; intros rows Hrows Hin.
  { destruct rows as [|r rows]; [done|]. destruct (Hin r) as [f Hf]; [by left|]. by apply elem_of_nil in Hf. }
  rewrite bind_cons. rewrite Forall_forall in Hlt.
  assert (Hkey : forall r, r ∈ rows -> t <= time r /\ ((time r = t /\ op r = o) <-> time r = t)).
  { intros r Hr. destruct (Hin r Hr) as [f' [[= Ht _ Ho]|Hk]%elem_of_cons].
    - rewrite Ht, Ho. split; [lia|tauto].
    - apply Hlt in Hk. cbn in Hk. lia. }
  set (rest := filter (fun r => ~ (time r = t /\ op r = o)) rows).
  transitivity (filter (fun r => time r = t /\ op r = o) rows ++ rest);
    [f_equal|symmetry; by apply (sorted_split _ t), Forall_forall].
  rewrite <-(IH rest).
  - apply Forall_bind_ext, Forall_forall. intros [t' [f' o']] Hk%Hlt. cbn in Hk.
    unfold rest. rewrite list_filter_filter. apply filter_ext_in. intros r _. split; [|tauto].
    intros [Ht Ho]. split; [done|]. intros [Ht' _]. lia.
  - by apply StronglySorted_filter.
  - intros r [Hnp Hr]%list_elem_of_filter. destruct (Hin r Hr) as [f' [[= Ht _ Ho]|Hk]%elem_of_cons]; [|eauto].
    by destruct Hnp.
Qed.
End partition.

Section operation_order.
Context {U : Type} `{!UuidCrate U}.
Implicit Types (events : list (Z * U * U)).
Implicit Types (ms : list (HypothesisMembershipEvent U)) (ss : list (HypothesisSelectionEvent U)).

Lemma first_events_Some events t o :
  is_Some (first_events events !! (t, o)) <-> exists e, (t, o, e) ∈ events.
Proof.
  unfold first_events. set (step := fun _ _ => _).
  assert (H : forall m, is_Some (foldl step m events !! (t, o)) <->
    is_Some (m !! (t, o)) \/ exists e, (t, o, e) ∈ events).
  { induction events as [|[[t1 o1] e1] events IH]; intros m; cbn [foldl].
    - split; [by left|]. intros [?|[e He]]; [done|by apply elem_of_nil in He].
    - rewrite IH. unfold step at 1. rewrite lookup_insert_is_Some'.
      split.
      + intros [[[= -> ->]|?]|[e ?]]; [right; exists e1; by left|by left|right; exists e; by right].
      + intros [?|[e [[= -> -> ->]|?]%elem_of_cons]]; [tauto|left; by left|right; eauto]. }
  rewrite H, lookup_empty. split; [|tauto]. by intros [[? ?]|?].
Qed.

Lemma operation_keys_elem ms ss t f o :
  (t, (f, o)) ∈ operation_keys ms ss <-> first_events (operation_events ms ss) !! (t, o) = Some f.
Proof.
  unfold operation_keys. rewrite sort_by_key_perm, list_elem_of_fmap. split.
  - intros ([[t' o'] f']&[= -> -> ->]&H). by apply elem_of_map_to_list in H.
  - intros H. exists (t, o, f). split; [done|]. by apply elem_of_map_to_list.
Qed.

(** No two operations share a timestamp. *)
Definition operations_separated ms ss : Prop :=
  forall t o o' e e', (t, o, e) ∈ operation_events ms ss -> (t, o', e') ∈ operation_events ms ss -> o = o'.

Lemma strict_keys (keys : list (Z * (U * U))) :
  StronglySorted (key_le id) keys -> NoDup keys.*1 -> StronglySorted (fun k1 k2 => k1.1 < k2.1) keys.
Proof.
  induction 1 as [|k keys Hs IH Hk]; intros Hnd; [constructor|].
  rewrite fmap_cons in Hnd. apply NoDup_cons in Hnd as [Hnin Hnd]. constructor; [by apply IH|].
  apply Forall_forall. intros k' Hk'. rewrite Forall_forall in Hk. specialize (Hk k' Hk').
  assert (k.1 <> k'.1) by (intros Heq; apply Hnin; rewrite Heq; by apply list_elem_of_fmap_2).
  destruct Hk as [[Hle _]|[Heq _]]; [|done]. cbn in Hle. lia.
Qed.

Lemma separated_keys_sorted ms ss :
  operations_separated ms ss -> StronglySorted (fun k1 k2 => k1.1 < k2.1) (operation_keys ms ss).
Proof.
  intros Hsep. apply strict_keys; [apply sort_by_key_sorted|]. unfold operation_keys.
  rewrite sort_by_key_perm, <-list_fmap_compose.
  apply NoDup_fmap_2_strong; [|apply NoDup_map_to_list].
  intros [[t o] f] [[t' o'] f'] H H'. cbn. intros ->.
  apply elem_of_map_to_list in H, H'.
  assert (o = o') as ->; [|congruence].
  destruct (proj1 (first_events_Some _ _ _) (mk_is_Some _ _ H)) as [e He].
  destruct (proj1 (first_events_Some _ _ _) (mk_is_Some _ _ H')) as [e' He']. by eapply Hsep.
Qed.

Lemma operation_key_exists ms ss t o e :
  (t, o, e) ∈ operation_events ms ss -> exists f, (t, (f, o)) ∈ operation_keys ms ss.
Proof.
  intros He. destruct (proj2 (first_events_Some (operation_events ms ss) t o)) as [f Hf]; [by exists e|].
  exists f. by apply operation_keys_elem.
Qed.

Lemma row_key_time {Row} (row_id : Row -> U) (row_time : Row -> Z) rows :
  StronglySorted (key_le (row_key row_id row_time)) rows -> StronglySorted (fun a b => row_time a <= row_time b) rows.
Proof.
  induction 1 as [|x l Hs IH Hx]; constructor; [done|]. eapply Forall_impl; [exact Hx|].
  intros y [[Hle _]|[Heq _]]; cbn in *; lia.
Qed.

(** With separated operations the replay visits the sorted events in order. *)
Lemma separated_order ms ss :
  operations_separated ms ss ->
  StronglySorted (key_le (row_key membership_event_uuid mem_recorded_at_micros)) ms ->
  StronglySorted (key_le (row_key selection_event_uuid sel_recorded_at_micros)) ss ->
  (operation_keys ms ss ≫= fun '(t, (_, o)) => at_operation_mem t o ms) = ms /\
  (operation_keys ms ss ≫= fun '(t, (_, o)) => at_operation_sel t o ss) = ss.
Proof.
  intros Hsep Hms Hss. split.
  - apply (partition_by_keys mem_recorded_at_micros mem_operation_uuid);
      [by eapply row_key_time|by apply separated_keys_sorted|].
    intros r Hr. apply (operation_key_exists _ _ _ _ (membership_event_uuid r)). unfold operation_events.
    apply elem_of_app. left. apply list_elem_of_fmap. by exists r.
  - apply (partition_by_keys sel_recorded_at_micros sel_operation_uuid);
      [by eapply row_key_time|by apply separated_keys_sorted|].
    intros r Hr. apply (operation_key_exists _ _ _ _ (selection_event_uuid r)). unfold operation_events.
    apply elem_of_app. right. apply list_elem_of_fmap. by exists r.
Qed.

(** [rfind] is the last element of the filtered list. *)
Lemma current_selection_last (l : HypothesisLedger U) g :
  current_selection l g =
    last (filter (fun row => sel_group_uuid row = g) (selection_events l)) ≫= selected_assertion_uuid.
Proof.
  unfold current_selection. generalize (selection_events l). intros rows.
  assert (Hrev : (snd <$> list_find (fun row => sel_group_uuid row = g) (reverse rows)) =
    last (filter (fun row => sel_group_uuid row = g) rows)).
  { rewrite <-(reverse_involutive rows) at 2. generalize (reverse rows). intros rev.
    induction rev as [|r rev IH]; [done|]. rewrite reverse_cons, filter_app, last_app. cbn [list_find].
    rewrite (filter_cons _ r), filter_nil. case_decide; [done|]. cbn [last]. rewrite <-IH.
    by destruct (list_find _ rev) as [[]|]. }
  rewrite <-Hrev. by destruct (list_find _ (reverse rows)) as [[]|].
Qed.

Lemma current_members_elem (l : HypothesisLedger U) g a :
  a ∈ current_members l g <->
    a ∈ foldl member_step ∅ (filter (fun row => mem_group_uuid row = g) (membership_events l)).
Proof. unfold current_members. rewrite sort_by_key_perm. apply elem_of_elements. Qed.

(** ** What the constructors accept *)

Definition replay_accepts gs ms ss : Prop :=
  exists members selected, replay (U := U) gs ms ss = Ok (members, selected).

Lemma validate_state_Ok gs ms ss : validate_state (U := U) gs ms ss = Ok tt <-> replay_accepts gs ms ss.
Proof.
  unfold validate_state, replay_accepts. rewrite bind_Ok. split.
  - intros ([m s]&?&_). eauto.
  - intros (m&s&?). eauto.
Qed.
End operation_order.

Section constructors.
Context {U : Type} `{!UuidCrate U} (nfc : str -> str).
Implicit Types (gs : list (HypothesisGroup U)) (ms : list (HypothesisMembershipEvent U)).
Implicit Types (ss : list (HypothesisSelectionEvent U)) (l out self staged : HypothesisLedger U).

Definition valid_group (row : HypothesisGroup U) : Prop :=
  v7 (group_uuid row) /\ is_nil (group_provenance_uuid row) = false /\
  validate_question_key nfc (question_key row) = Ok tt /\
  group_contract_version row = HYPOTHESIS_GROUP_CONTRACT_VERSION.

Definition valid_membership (row : HypothesisMembershipEvent U) : Prop :=
  v7 (membership_event_uuid row) /\ v7 (mem_operation_uuid row) /\ v7 (mem_group_uuid row) /\
  v7 (mem_assertion_uuid row) /\ v7 (mem_reasoning_uuid row) /\ is_nil (mem_provenance_uuid row) = false /\
  mem_contract_version row = HYPOTHESIS_MEMBERSHIP_CONTRACT_VERSION.

Definition valid_selection (row : HypothesisSelectionEvent U) : Prop :=
  v7 (selection_event_uuid row) /\ v7 (sel_operation_uuid row) /\ v7 (sel_group_uuid row) /\
  v7 (sel_reasoning_uuid row) /\ from_option v7 True (selected_assertion_uuid row) /\
  is_nil (sel_provenance_uuid row) = false /\
  sel_contract_version row = HYPOTHESIS_SELECTION_CONTRACT_VERSION.

Lemma version_guard (v k : Z) (e : KnowledgeError) : (if negb (v =? k) then Err e else Ok tt) = Ok tt <-> v = k.
Proof. destruct (Z.eqb_spec v k); cbn; done. Qed.

Lemma validate_group_Ok row : validate_group nfc row = Ok tt <-> valid_group row.
Proof.
  unfold validate_group, group_new, valid_group.
  rewrite <-(require_v7_Ok _ "group_uuid"), <-(require_uuid_Ok _ "provenance_uuid").
  destruct (require_v7 _ _) as [[]|]; [|naive_solver].
  destruct (require_uuid _ _) as [[]|]; [|naive_solver].
  destruct (validate_question_key nfc _) as [[]|]; [|naive_solver].
  cbn [mbind result_bind]. rewrite version_guard. naive_solver.
Qed.

(** Case split on the first check of a sequence. *)
Ltac destruct_check :=
  lazymatch goal with
  | |- (((?c ≫= _) ≫= _) = Ok _ <-> _) => destruct c as [[]|]; cbn [mbind result_bind];
      [|split; [done|intros; destruct_and?; congruence]]
  end.

Lemma validate_membership_Ok row : validate_membership row = Ok tt <-> valid_membership row.
Proof.
  unfold validate_membership, membership_new, valid_membership.
  rewrite <-(require_v7_Ok (membership_event_uuid row) "membership_event_uuid"),
    <-(require_v7_Ok (mem_operation_uuid row) "operation_uuid"), <-(require_v7_Ok (mem_group_uuid row) "group_uuid"),
    <-(require_v7_Ok (mem_assertion_uuid row) "assertion_uuid"),
    <-(require_v7_Ok (mem_reasoning_uuid row) "reasoning_uuid"), <-(require_uuid_Ok _ "provenance_uuid").
  do 6 destruct_check.
  cbn [mbind result_bind]. rewrite version_guard. tauto.
Qed.

Lemma validate_selection_Ok row : validate_selection row = Ok tt <-> valid_selection row.
Proof.
  unfold validate_selection, selection_new, valid_selection.
  rewrite <-(require_v7_Ok (selection_event_uuid row) "selection_event_uuid"),
    <-(require_v7_Ok (sel_operation_uuid row) "operation_uuid"), <-(require_v7_Ok (sel_group_uuid row) "group_uuid"),
    <-(require_v7_Ok (sel_reasoning_uuid row) "reasoning_uuid"),
    <-(require_opt_v7_Ok _ "selected_assertion_uuid"), <-(require_uuid_Ok _ "provenance_uuid").
  do 6 destruct_check.
  cbn [mbind result_bind]. rewrite version_guard. tauto.
Qed.

(** Scanning for repeated question keys. *)
Lemma scan_keys_Ok keys gs :
  scan_keys keys gs = Ok tt <->
  NoDup (question_key <$> gs) /\ Forall (fun g => question_key g ∉ keys) gs.
Proof.
  revert keys. induction gs as [|g gs IH]; intros keys; cbn [scan_keys].
  { split; [|done]. intros _. split; constructor. }
  rewrite fmap_cons, NoDup_cons, Forall_cons. case_decide as Hin; [split; [done|tauto]|].
  rewrite IH. split.
  - intros [Hnd Hall]. rewrite Forall_forall in Hall. split_and!; [|done|done|].
    + intros (x&Heq&Hx)%list_elem_of_fmap. apply (Hall x Hx). rewrite Heq. set_solver.
    + apply Forall_forall. intros x Hx. specialize (Hall x Hx). set_solver.
  - intros [[Hnin Hnd] [_ Hall]]. split; [done|]. apply Forall_forall. intros x Hx.
    rewrite Forall_forall in Hall. specialize (Hall x Hx). rewrite not_elem_of_union, not_elem_of_singleton.
    split; [|done]. intros Heq. apply Hnin. rewrite <-Heq. by apply list_elem_of_fmap_2.
Qed.

(** The combined scan accepts what the two separate scans accept. *)
Lemma scan_groups_split dup ids keys gs :
  scan_groups nfc ids keys gs = Ok tt <->
  scan_ids group_uuid (validate_group nfc) dup ids gs = Ok tt /\ scan_keys keys gs = Ok tt.
Proof.
  revert ids keys. induction gs as [|g gs IH]; intros ids keys; cbn [scan_groups scan_keys scan_ids]; [done|].
  rewrite !bind_Ok. split.
  - intros ([]&Hv&H). do 2 (case_decide; [done|]). apply IH in H as [Hi Hk]. split; [by exists tt|done].
  - intros [([]&Hv&Hi) Hk]. exists tt. split; [done|]. do 2 (case_decide; [done|]). by apply IH.
Qed.

Lemma validate_groups_Ok gs :
  validate_groups nfc gs = Ok tt <->
  Forall valid_group gs /\ NoDup (group_uuid <$> gs) /\ NoDup (question_key <$> gs).
Proof.
  unfold validate_groups. rewrite (scan_groups_split (KErr.Duplicate "group_uuid")), scan_ids_Ok, scan_keys_Ok.
  assert (Hv : Forall (fun g => validate_group nfc g = Ok tt) gs <-> Forall valid_group gs)
    by (apply Forall_iff; apply validate_group_Ok).
  rewrite Hv. split; [tauto|]. intros (?&?&?).
  split_and!; try done; apply Forall_forall; intros x _; apply not_elem_of_empty.
Qed.

Lemma validate_event_ids_Ok ms ss :
  validate_event_ids ms ss = Ok tt <->
  (Forall valid_membership ms /\ NoDup (membership_event_uuid <$> ms)) /\
  (Forall valid_selection ss /\ NoDup (selection_event_uuid <$> ss)).
Proof.
  unfold validate_event_ids. rewrite bind_unit_Ok, !scan_ids_Ok.
  assert (Hm : Forall (fun r => validate_membership r = Ok tt) ms <-> Forall valid_membership ms)
    by (apply Forall_iff; apply validate_membership_Ok).
  assert (Hs : Forall (fun r => validate_selection r = Ok tt) ss <-> Forall valid_selection ss)
    by (apply Forall_iff; apply validate_selection_Ok).
  rewrite Hm, Hs. split; [tauto|]. intros [[? ?] [? ?]].
  split_and!; try done; apply Forall_forall; intros x _; apply not_elem_of_empty.
Qed.

Lemma validate_row_count_Ok p observed limit : validate_row_count p observed limit = Ok tt <-> observed <= limit.
Proof. unfold validate_row_count. destruct (Z.ltb_spec limit observed); split; done || lia. Qed.

(** The invariant of a ledger: canonical families, valid rows, one group per question, and
    a history the replay accepts. *)
Record hyp_ledger_ok (l : HypothesisLedger U) : Prop := {
  ok_groups : ledger_wf group_uuid group_recorded_at_micros (groups l);
  ok_memberships : ledger_wf membership_event_uuid mem_recorded_at_micros (membership_events l);
  ok_selections : ledger_wf selection_event_uuid sel_recorded_at_micros (selection_events l);
  ok_group_rows : Forall valid_group (groups l);
  ok_membership_rows : Forall valid_membership (membership_events l);
  ok_selection_rows : Forall valid_selection (selection_events l);
  ok_keys : NoDup (question_key <$> groups l);
  ok_history : replay_accepts (groups l) (membership_events l) (selection_events l);
}.

Definition fits (l : HypothesisLedger U) (limit : Z) : Prop :=
  lenZ (groups l) <= limit /\ lenZ (membership_events l) <= limit /\ lenZ (selection_events l) <= limit.

Lemma hyp_new_Ok gs ms ss limit l :
  hyp_new_with_limit nfc gs ms ss limit = Ok l <->
  l = mkLedger (sort_groups gs) (sort_membership ms) (sort_selection ss) /\ hyp_ledger_ok l /\ fits l limit.
Proof.
  unfold hyp_new_with_limit. cbv zeta. rewrite !bind_unit_Ok, !validate_row_count_Ok, validate_groups_Ok,
    validate_event_ids_Ok, validate_state_Ok. unfold fits.
  assert (Hg : sort_groups gs ≡ₚ gs) by apply sort_rows_perm.
  assert (Hm : sort_membership ms ≡ₚ ms) by apply sort_rows_perm.
  assert (Hs : sort_selection ss ≡ₚ ss) by apply sort_rows_perm.
  split.
  - intros (?&?&?&(?&?&?)&((?&?)&?&?)&?&[= <-]). split; [done|]. cbn [groups membership_events selection_events].
    split; [|by rewrite (Permutation_length Hg), (Permutation_length Hm), (Permutation_length Hs)].
    split; cbn [groups membership_events selection_events]; try done;
      try (by apply sort_rows_wf); by rewrite ?Hg, ?Hm, ?Hs.
  - intros (->&[[_ Hng] [_ Hnm] [_ Hns] Hvg Hvm Hvs Hk Hh]&Hf).
    cbn [groups membership_events selection_events] in *.
    rewrite (Permutation_length Hg), (Permutation_length Hm), (Permutation_length Hs) in Hf.
    rewrite Hg in Hvg, Hk. rewrite Hm in Hvm. rewrite Hs in Hvs.
    rewrite Hg in Hng. rewrite Hm in Hnm. rewrite Hs in Hns.
    tauto.
Qed.

(** A ledger within the row limit is accepted again unchanged. *)
Lemma hyp_new_id l limit :
  hyp_ledger_ok l -> fits l limit ->
  hyp_new_with_limit nfc (groups l) (membership_events l) (selection_events l) limit = Ok l.
Proof.
  intros Hok Hf. apply hyp_new_Ok. split_and!; [|done|apply Hf..].
  unfold sort_groups, sort_membership, sort_selection. rewrite !sort_rows_id by apply Hok. by destruct l.
Qed.

(** ** Merge *)

Lemma merge_rows_loop_Ok {Row} `{!EqDecision Row} (row_id : Row -> U) field participant limit
    (staged rows out : list Row) m :
  limit < usize_max -> NoDup (row_id <$> staged) -> lenZ rows <= limit ->
  merge_rows_loop row_id field participant limit staged rows m = Ok out <->
  merge_loop row_id (fun _ => Ok tt) (KErr.Conflict field) staged rows m = Ok out /\ lenZ out <= limit.
Proof.
  intros Hlim. revert rows m. induction staged as [|r staged IH]; intros rows m Hnd Hlen.
  { cbn [merge_rows_loop merge_loop]. split; [intros [= <-]; done|intros [? _]; done]. }
  rewrite fmap_cons in Hnd. apply NoDup_cons in Hnd as [Hnin Hnd]. cbn [merge_rows_loop merge_loop].
  destruct (m !! row_id r) as [current|]; [case_decide; [by apply IH|naive_solver]|].
  rewrite bind_unit_Ok, validate_row_count_Ok. cbn [mbind result_bind].
  assert (Hsat : saturating_add (lenZ rows) 1 = lenZ rows + 1) by (unfold saturating_add; lia).
  assert (Happ : lenZ (rows ++ [r]) = lenZ rows + 1) by (rewrite length_app; cbn [length]; lia).
  rewrite Hsat. split.
  - intros [Hle Hrest]. apply IH in Hrest; [done|done|lia].
  - intros [Hrest Hout].
    assert (Hle : lenZ rows + 1 <= limit).
    { apply merge_loop_Ok in Hrest as (_&_&->); [|done]. rewrite length_app in Hout. lia. }
    split; [done|]. apply IH; [done|lia|done].
Qed.

Lemma merge_rows_Ok {Row} `{!EqDecision Row} (row_id : Row -> U) field participant limit
    (existing staged out : list Row) :
  limit < usize_max -> NoDup (row_id <$> staged) ->
  merge_rows existing staged row_id field participant limit = Ok out <->
  replays row_id (by_id row_id existing) staged /\
  out = existing ++ new_rows row_id (by_id row_id existing) staged /\ lenZ out <= limit.
Proof.
  intros Hlim Hnd. unfold merge_rows. rewrite bind_unit_Ok, validate_row_count_Ok. split.
  - intros [Hle H]. apply merge_rows_loop_Ok in H as [(?&_&->)%merge_loop_Ok ?]; done.
  - intros (Hrep&->&Hle). assert (lenZ existing <= limit) by (rewrite length_app in Hle; lia).
    split; [done|]. apply merge_rows_loop_Ok; try done. split; [|done].
    apply merge_loop_Ok; [done|]. split_and!; [done|by apply Forall_true|done].
Qed.

Lemma merged_Forall {Row} `{!EqDecision Row} (row_id : Row -> U) (row_time : Row -> Z) (P : Row -> Prop)
    (l s out : list Row) :
  ledger_wf row_id row_time l -> ledger_wf row_id row_time s -> merges_to row_id row_time l s out ->
  Forall P l -> Forall P s -> Forall P out.
Proof.
  intros [_ Hl] [_ Hs] Hm HPl HPs. apply Forall_forall. intros r Hr.
  apply (merges_to_elem row_id row_time l s out r Hl Hs Hm) in Hr as [Hr|Hr];
    [rewrite Forall_forall in HPl|rewrite Forall_forall in HPs]; auto.
Qed.

(** Each family of a merge is the union of the two sides. *)
Definition families_merge self staged out : Prop :=
  merges_to group_uuid group_recorded_at_micros (groups self) (groups staged) (groups out) /\
  merges_to membership_event_uuid mem_recorded_at_micros (membership_events self) (membership_events staged)
    (membership_events out) /\
  merges_to selection_event_uuid sel_recorded_at_micros (selection_events self) (selection_events staged)
    (selection_events out).

Lemma family_merge_iff {Row} `{!EqDecision Row} (row_id : Row -> U) (row_time : Row -> Z) (l s out : list Row) :
  ledger_wf row_id row_time l -> ledger_wf row_id row_time s ->
  merges_to row_id row_time l s out <->
  replays row_id (by_id row_id l) s /\ out = sort_rows row_id row_time (l ++ new_rows row_id (by_id row_id l) s).
Proof.
  intros Hl Hs. split.
  - intros Hm. assert (Hrep : replays row_id (by_id row_id l) s) by (apply replays_agree; [apply Hs|apply Hm]).
    split; [done|]. eapply merges_to_unique; [done|by apply merged_spec].
  - intros [Hrep ->]. by apply merged_spec.
Qed.

Lemma hyp_merge_Ok self staged limit out :
  limit < usize_max -> hyp_ledger_ok self -> hyp_ledger_ok staged ->
  hyp_merge_with_limit self staged limit = Ok out <->
  families_merge self staged out /\ NoDup (question_key <$> groups out) /\
  replay_accepts (groups out) (membership_events out) (selection_events out) /\ fits out limit.
Proof.
  intros Hlim [Hg1 Hm1 Hs1 _ _ _ _ _] [Hg2 Hm2 Hs2 _ _ _ _ _]. unfold hyp_merge_with_limit, families_merge.
  rewrite !family_merge_iff by done.
  set (ug := groups self ++ _). set (um := membership_events self ++ _). set (us := selection_events self ++ _).
  assert (Pg : sort_groups ug ≡ₚ ug) by apply sort_rows_perm.
  assert (Pm : sort_membership um ≡ₚ um) by apply sort_rows_perm.
  assert (Ps : sort_selection us ≡ₚ us) by apply sort_rows_perm.
  unfold fits. split.
  - intros (gs&Hgs&(ms&Hms&(ss&Hss&[Hk [Hst [= <-]]%bind_unit_Ok]%bind_unit_Ok)%bind_Ok)%bind_Ok)%bind_Ok.
    apply merge_rows_Ok in Hgs as (?&Eg&?); [|done|apply Hg2]. apply merge_rows_Ok in Hms as (?&Em&?); [|done|apply Hm2].
    apply merge_rows_Ok in Hss as (?&Es&?); [|done|apply Hs2]. fold ug in Eg. fold um in Em. fold us in Es. subst gs ms ss.
    apply scan_keys_Ok in Hk as [Hk _]. apply validate_state_Ok in Hst.
    cbn [groups membership_events selection_events].
    rewrite (Permutation_length Pg), (Permutation_length Pm), (Permutation_length Ps).
    split_and!; try done. by rewrite Pg.
  - intros (((?&Hg)&(?&Hm)&(?&Hs))&Hk&Hh&Hf1&Hf2&Hf3). rewrite Hg, Hm, Hs in *.
    fold (sort_groups ug) (sort_membership um) (sort_selection us) in *.
    rewrite (Permutation_length Pg) in Hf1. rewrite (Permutation_length Pm) in Hf2.
    rewrite (Permutation_length Ps) in Hf3. rewrite Pg in Hk.
    apply bind_Ok. exists ug. split; [by apply merge_rows_Ok; [|apply Hg2|]|].
    apply bind_Ok. exists um. split; [by apply merge_rows_Ok; [|apply Hm2|]|].
    apply bind_Ok. exists us. split; [by apply merge_rows_Ok; [|apply Hs2|]|]. cbv zeta.
    apply bind_unit_Ok. split; [|apply bind_unit_Ok; split; [by apply validate_state_Ok|]].
    + apply scan_keys_Ok. split; [done|]. apply Forall_true. intros. apply not_elem_of_empty.
    + destruct out. cbn in *. by subst.
Qed.

(** A merge of two ledgers is a ledger again. *)
Lemma hyp_merge_ledger_ok self staged out :
  hyp_ledger_ok self -> hyp_ledger_ok staged -> families_merge self staged out ->
  NoDup (question_key <$> groups out) ->
  replay_accepts (groups out) (membership_events out) (selection_events out) -> hyp_ledger_ok out.
Proof.
  intros [Hg1 Hm1 Hs1 ? ? ? _ _] [Hg2 Hm2 Hs2 ? ? ? _ _] (Hg&Hm&Hs) Hk Hh.
  split; try done; [apply Hg|apply Hm|apply Hs|..].
  - by apply (merged_Forall _ _ _ _ _ _ Hg1 Hg2 Hg).
  - by apply (merged_Forall _ _ _ _ _ _ Hm1 Hm2 Hm).
  - by apply (merged_Forall _ _ _ _ _ _ Hs1 Hs2 Hs).
Qed.
End constructors.

(** ** Fingerprints *)

Section fingerprints.
Context {U : Type} `{!UuidCrate U}.

Definition group_bytes (row : HypothesisGroup U) : list Z :=
  as_bytes (group_uuid row) ++ text_bytes (utf8 (question_key row)) ++
  as_bytes (group_provenance_uuid row) ++ to_be 8 (group_recorded_at_micros row) ++
  to_be 4 (group_contract_version row).

Definition membership_bytes (row : HypothesisMembershipEvent U) : list Z :=
  as_bytes (membership_event_uuid row) ++ as_bytes (mem_operation_uuid row) ++ as_bytes (mem_group_uuid row) ++
  as_bytes (mem_assertion_uuid row) ++ text_bytes (bytes_of (action_as_str (mem_action row))) ++
  as_bytes (mem_reasoning_uuid row) ++ as_bytes (mem_provenance_uuid row) ++
  to_be 8 (mem_recorded_at_micros row) ++ to_be 4 (mem_contract_version row).

Definition selection_bytes (row : HypothesisSelectionEvent U) : list Z :=
  as_bytes (selection_event_uuid row) ++ as_bytes (sel_operation_uuid row) ++ as_bytes (sel_group_uuid row) ++
  opt_uuid_bytes (selected_assertion_uuid row) ++ as_bytes (sel_reasoning_uuid row) ++
  as_bytes (sel_provenance_uuid row) ++ to_be 8 (sel_recorded_at_micros row) ++ to_be 4 (sel_contract_version row).

(** The widths of the Rust fields; a question key is a [String] within the accepted length. *)
Definition typed_row (time version : Z) : Prop := in_i64 time /\ 0 <= version <= u32_max.
Definition typed_group (row : HypothesisGroup U) : Prop :=
  typed_row (group_recorded_at_micros row) (group_contract_version row) /\
  Forall is_scalar (question_key row) /\ str_len (question_key row) <= MAX_HYPOTHESIS_QUESTION_KEY_BYTES.
Definition typed_membership (row : HypothesisMembershipEvent U) : Prop :=
  typed_row (mem_recorded_at_micros row) (mem_contract_version row).
Definition typed_selection (row : HypothesisSelectionEvent U) : Prop :=
  typed_row (sel_recorded_at_micros row) (sel_contract_version row).

Lemma tail_inj t1 v1 t2 v2 :
  typed_row t1 v1 -> typed_row t2 v2 -> to_be 8 t1 ++ to_be 4 v1 = to_be 8 t2 ++ to_be 4 v2 -> t1 = t2 /\ v1 = v2.
Proof.
  intros [Ht1 Hv1] [Ht2 Hv2] H. apply i64_app_inj in H as [-> H]; [|done..]. split; [done|].
  apply to_be_inj_unsigned in H; [done|unfold u32_max in *; cbn; lia..].
Qed.

Lemma group_bytes_inj r1 r2 : typed_group r1 -> typed_group r2 -> group_bytes r1 = group_bytes r2 -> r1 = r2.
Proof.
  intros (Ht1&Hs1&Hl1) (Ht2&Hs2&Hl2) H. destruct r1, r2; unfold group_bytes in H; simpl in *.
  unfold str_len, MAX_HYPOTHESIS_QUESTION_KEY_BYTES in *.
  apply as_bytes_app_inj in H as [-> H]. apply text_app_inj in H as [Hk H]; [|unfold MAX_CANONICAL_TEXT_BYTES; lia..].
  apply utf8_inj in Hk as ->; [|done..]. apply as_bytes_app_inj in H as [-> H].
  by apply tail_inj in H as [-> ->].
Qed.

Lemma action_len a : lenZ (bytes_of (action_as_str a)) <= 7.
Proof. by destruct a. Qed.

Lemma action_as_str_inj a b : action_as_str a = action_as_str b -> a = b.
Proof. by destruct a, b. Qed.

Lemma membership_bytes_inj r1 r2 :
  typed_membership r1 -> typed_membership r2 -> membership_bytes r1 = membership_bytes r2 -> r1 = r2.
Proof.
  intros Ht1 Ht2 H. destruct r1, r2; unfold membership_bytes in H; simpl in *.
  do 4 (apply as_bytes_app_inj in H as [-> H]).
  apply text_app_inj in H as [Hk%bytes_of_inj%action_as_str_inj H];
    [|etransitivity; [apply action_len|unfold MAX_CANONICAL_TEXT_BYTES; lia]..].
  do 2 (apply as_bytes_app_inj in H as [-> H]). apply tail_inj in H as [-> ->]; [|done..]. by rewrite Hk.
Qed.

Lemma selection_bytes_inj r1 r2 :
  typed_selection r1 -> typed_selection r2 -> selection_bytes r1 = selection_bytes r2 -> r1 = r2.
Proof.
  intros Ht1 Ht2 H. destruct r1, r2; unfold selection_bytes in H; simpl in *.
  do 3 (apply as_bytes_app_inj in H as [-> H]). apply opt_uuid_app_inj in H as [-> H].
  do 2 (apply as_bytes_app_inj in H as [-> H]). by apply tail_inj in H as [-> ->].
Qed.

Lemma group_fingerprint_eq sha256 (row : HypothesisGroup U) :
  typed_group row ->
  group_fingerprint_for_row sha256 row = Ok (sha256 (preimage_bytes Domain.HypothesisGroup (group_bytes row))).
Proof.
  intros (_&_&Hl). unfold str_len, MAX_HYPOTHESIS_QUESTION_KEY_BYTES in Hl. unfold group_fingerprint_for_row.
  assert (Ht : writes (writer_text (utf8 (question_key row))) (text_bytes (utf8 (question_key row))))
    by (apply writes_text; unfold MAX_CANONICAL_TEXT_BYTES; lia).
  assert (Hw : writes (group_writer row) (group_bytes row))
    by (unfold group_writer, group_bytes; eauto 12 with writes).
  rewrite (write_fingerprint_eq _ _ _ _ Hw); [done|].
  unfold group_bytes, text_bytes. rewrite !length_app, !as_bytes_length, !to_be_length. lia.
Qed.

Lemma membership_fingerprint_eq sha256 (row : HypothesisMembershipEvent U) :
  membership_fingerprint_for_row sha256 row =
    Ok (sha256 (preimage_bytes Domain.HypothesisMembership (membership_bytes row))).
Proof.
  unfold membership_fingerprint_for_row. pose proof (action_len (mem_action row)) as Hl.
  assert (Ht : writes (writer_text (bytes_of (action_as_str (mem_action row))))
    (text_bytes (bytes_of (action_as_str (mem_action row)))))
    by (apply writes_text; unfold MAX_CANONICAL_TEXT_BYTES; lia).
  assert (Hw : writes (membership_writer row) (membership_bytes row))
    by (unfold membership_writer, membership_bytes; eauto 14 with writes).
  rewrite (write_fingerprint_eq _ _ _ _ Hw); [done|].
  unfold membership_bytes, text_bytes. rewrite !length_app, !as_bytes_length, !to_be_length. lia.
Qed.

Lemma selection_fingerprint_eq sha256 (row : HypothesisSelectionEvent U) :
  selection_fingerprint_for_row sha256 row =
    Ok (sha256 (preimage_bytes Domain.HypothesisSelection (selection_bytes row))).
Proof.
  unfold selection_fingerprint_for_row.
  assert (Hw : writes (selection_writer row) (selection_bytes row))
    by (unfold selection_writer, selection_bytes; eauto 14 with writes).
  rewrite (write_fingerprint_eq _ _ _ _ Hw); [done|].
  unfold selection_bytes, opt_uuid_bytes. destruct (selected_assertion_uuid row);
    rewrite !length_app, ?as_bytes_length, !to_be_length; cbn [length]; lia.
Qed.
End fingerprints.

(** ** Properties *)

Section properties.
Context {U : Type} `{!UuidCrate U} (nfc : str -> str).
Implicit Types (gs : list (HypothesisGroup U)) (ms : list (HypothesisMembershipEvent U)).
Implicit Types (ss : list (HypothesisSelectionEvent U)) (l out self staged : HypothesisLedger U).

Lemma try_fold_app {S X} (step : S -> X -> K S) s k1 k2 s' :
  try_fold step s (k1 ++ k2) = Ok s' -> exists s1, try_fold step s k1 = Ok s1 /\ try_fold step s1 k2 = Ok s'.
Proof.
  revert s. induction k1 as [|x k1 IH]; intros s H; [by exists s|]. apply bind_Ok in H as (s0&Hx&H).
  destruct (IH s0 H) as (s1&H1&H2). exists s1. split; [|done]. apply bind_Ok. by exists s0.
Qed.

Lemma state_ok_empty : state_ok (U := U) ∅ ∅.
Proof. intros g a. by rewrite lookup_empty. Qed.

(** C29 (hypotheses).  Whatever ledger the constructor accepts, after every operation of its
    replayed history the selected assertion of each group is a member of the group. *)
Theorem hypothesis_selected_is_member gs ms ss l k1 k2 :
  hyp_ledger_new nfc gs ms ss = Ok l ->
  operation_keys (membership_events l) (selection_events l) = k1 ++ k2 ->
  exists members selected,
    try_fold (replay_operation (group_times (groups l)) (membership_events l) (selection_events l)) (∅, ∅) k1
      = Ok (members, selected) /\
    state_ok members selected.
Proof.
  intros (_&Hok&_)%hyp_new_Ok Hk. destruct (ok_history _ _ Hok) as (m&sel&Hr). unfold replay in Hr.
  rewrite Hk in Hr. apply try_fold_app in Hr as ([m1 sel1]&H1&_). exists m1, sel1. split; [done|].
  eapply try_operations; [done|apply state_ok_empty].
Qed.

(** C38 When no two operations share a timestamp, the members and the selection
    the ledger reports are those of the replayed history, so the reported selection is a
    reported member. *)
Theorem hypothesis_current_state gs ms ss l :
  hyp_ledger_new nfc gs ms ss = Ok l ->
  operations_separated (membership_events l) (selection_events l) ->
  exists members selected,
    replay (groups l) (membership_events l) (selection_events l) = Ok (members, selected) /\
    forall g,
      (forall a, a ∈ current_members l g <-> a ∈ members_of members g) /\
      current_selection l g = mjoin (selected !! g) /\
      (forall a, current_selection l g = Some a -> a ∈ current_members l g).
Proof.
  intros (_&Hok&_)%hyp_new_Ok Hsep. destruct (ok_history _ _ Hok) as (m&sel&Hr). exists m, sel. split; [done|].
  unfold replay in Hr. apply try_operations in Hr as (Hst&Hm&Hs); [|apply state_ok_empty].
  destruct (separated_order _ _ Hsep) as [Em Es]; [apply Hok..|]. rewrite Em in Hm. rewrite Es in Hs.
  intros g.
  assert (Hmem : forall a, a ∈ current_members l g <-> a ∈ members_of m g)
    by (intros a; by rewrite current_members_elem, Hm).
  assert (Hsel : current_selection l g = mjoin (sel !! g)).
  { rewrite current_selection_last, Hs. unfold last_selection.
    destruct (last _) as [e|]; [done|]. by rewrite lookup_empty. }
  split_and!; [done|done|]. intros a Ha. apply Hmem, Hst. rewrite Hsel in Ha.
  destruct (sel !! g) as [[]|]; cbn in Ha; congruence.
Qed.

(** (hypotheses).  The merge of two accepted ledgers succeeds exactly when every family is
    a union of agreeing rows that the constructor accepts as it is: what is merged can
    always be read back, and no row of either side is lost or changed. *)
Theorem hypothesis_merge_is_new self staged out :
  hyp_ledger_ok nfc self -> hyp_ledger_ok nfc staged ->
  hyp_ledger_merge self staged = Ok out <->
  families_merge self staged out /\
  hyp_ledger_new nfc (groups out) (membership_events out) (selection_events out) = Ok out.
Proof.
  intros H1 H2. unfold hyp_ledger_merge. rewrite (hyp_merge_Ok nfc); [|by vm_compute|done|done]. split.
  - intros (Hf&Hk&Hh&Hfit). split; [done|]. apply hyp_new_id; [|done]. apply (hyp_merge_ledger_ok nfc self staged out H1 H2 Hf Hk Hh).
  - intros (Hf&(_&Hok&Hfit)%hyp_new_Ok). split; [done|]. split; [apply Hok|]. split; [apply Hok|done].
Qed.

(** (hypotheses).  Two groups, two membership events or two selection events share a
    fingerprint only when they are the same row or their preimages collide. *)
Theorem hypothesis_fingerprints_bind (sha256 : list Z -> list Z) (g1 g2 : HypothesisGroup U)
    (m1 m2 : HypothesisMembershipEvent U) (s1 s2 : HypothesisSelectionEvent U) :
  typed_group g1 -> typed_group g2 -> typed_membership m1 -> typed_membership m2 ->
  typed_selection s1 -> typed_selection s2 ->
  (group_fingerprint_for_row sha256 g1 = group_fingerprint_for_row sha256 g2 ->
    g1 = g2 \/ collision sha256 (preimage_bytes Domain.HypothesisGroup (group_bytes g1))
      (preimage_bytes Domain.HypothesisGroup (group_bytes g2))) /\
  (membership_fingerprint_for_row sha256 m1 = membership_fingerprint_for_row sha256 m2 ->
    m1 = m2 \/ collision sha256 (preimage_bytes Domain.HypothesisMembership (membership_bytes m1))
      (preimage_bytes Domain.HypothesisMembership (membership_bytes m2))) /\
  (selection_fingerprint_for_row sha256 s1 = selection_fingerprint_for_row sha256 s2 ->
    s1 = s2 \/ collision sha256 (preimage_bytes Domain.HypothesisSelection (selection_bytes s1))
      (preimage_bytes Domain.HypothesisSelection (selection_bytes s2))).
Proof.
  intros. rewrite !group_fingerprint_eq, !membership_fingerprint_eq, !selection_fingerprint_eq by done.
  split_and!; intros [= Heq].
  - by apply (digest_binding _ _ group_bytes typed_group); [apply group_bytes_inj|..].
  - by apply (digest_binding _ _ membership_bytes typed_membership); [apply membership_bytes_inj|..].
  - by apply (digest_binding _ _ selection_bytes typed_selection); [apply selection_bytes_inj|..].
Qed.
End properties.

(** ** Witnesses *)

Definition demo_key : str := [0x77; 0x68; 0x79; 0x3F].
Definition demo_group : HypothesisGroup Uuid128 := mkGroup (uuid7 900) demo_key (uuid7 901) 1 1.
Definition demo_member (event operation assertion : Z) (action : HypothesisMembershipAction) (time : Z)
    : HypothesisMembershipEvent Uuid128 :=
  mkMembership (uuid7 event) (uuid7 operation) (uuid7 900) (uuid7 assertion) action (uuid7 902) (uuid7 903) time 1.
Definition demo_select (event operation : Z) (assertion : option Z) (time : Z)
    : HypothesisSelectionEvent Uuid128 :=
  mkSelection (uuid7 event) (uuid7 operation) (uuid7 900) (uuid7 <$> assertion) (uuid7 902) (uuid7 903) time 1.

(** Add and select assertion 50, then replace it by assertion 51. *)
Definition demo_ledger : HypothesisLedger Uuid128 :=
  mkLedger [demo_group]
    [demo_member 1 10 50 Added 5; demo_member 3 11 51 Added 6; demo_member 4 11 50 Removed 6]
    [demo_select 2 10 (Some 50) 5; demo_select 5 11 (Some 51) 6].

Lemma demo_ledger_new :
  hyp_ledger_new id (groups demo_ledger) (membership_events demo_ledger) (selection_events demo_ledger)
    = Ok demo_ledger.
Proof. by vm_compute. Qed.

Lemma demo_ledger_ok : hyp_ledger_ok id demo_ledger.
Proof. pose proof demo_ledger_new as H. apply hyp_new_Ok in H as (_&Hok&_). exact Hok. Qed.

Lemma hypothesis_selected_is_member_witness :
  exists members selected,
    try_fold (replay_operation (group_times (groups demo_ledger)) (membership_events demo_ledger)
      (selection_events demo_ledger)) (∅, ∅) [(5, (uuid7 1, uuid7 10))] = Ok (members, selected) /\
    state_ok members selected.
Proof.
  apply (hypothesis_selected_is_member id (groups demo_ledger) (membership_events demo_ledger)
    (selection_events demo_ledger) demo_ledger [(5, (uuid7 1, uuid7 10))] [(6, (uuid7 3, uuid7 11))]);
    by vm_compute.
Defined.

(** Timestamps and operations of the demo events, checked pairwise. *)
Definition separatedb (ms : list (HypothesisMembershipEvent Uuid128)) (ss : list (HypothesisSelectionEvent Uuid128))
    : bool :=
  forallb (fun '(t, o, _) => forallb (fun '(t', o', _) => negb (t =? t') || bool_decide (o = o'))
    (operation_events ms ss)) (operation_events ms ss).

Lemma separatedb_sound ms ss : separatedb ms ss = true -> operations_separated ms ss.
Proof.
  unfold separatedb. rewrite forallb_forall. intros H t o o' e e' H1 H2.
  apply list_elem_of_In in H1, H2. specialize (H _ H1). cbn in H. rewrite forallb_forall in H. specialize (H _ H2).
  cbn in H. rewrite Z.eqb_refl in H. by apply bool_decide_eq_true_1 in H.
Qed.

Lemma hypothesis_current_state_witness :
  current_selection demo_ledger (uuid7 900) = Some (uuid7 51) /\
  uuid7 51 ∈ current_members demo_ledger (uuid7 900).
Proof.
  split; [by vm_compute|].
  destruct (hypothesis_current_state id (groups demo_ledger) (membership_events demo_ledger)
    (selection_events demo_ledger) demo_ledger) as (m&sel&_&H); [by vm_compute|by apply separatedb_sound; vm_compute|].
  destruct (H (uuid7 900)) as (_&_&Hs). apply Hs. by vm_compute.
Defined.

Definition demo_staged : HypothesisLedger Uuid128 :=
  mkLedger [demo_group] [demo_member 1 10 50 Added 5] [demo_select 2 10 (Some 50) 5].

Lemma demo_staged_ok : hyp_ledger_ok id demo_staged.
Proof.
  assert (H : hyp_ledger_new id (groups demo_staged) (membership_events demo_staged) (selection_events demo_staged)
    = Ok demo_staged) by (by vm_compute).
  apply hyp_new_Ok in H as (_&Hok&_). exact Hok.
Qed.

Lemma hypothesis_merge_is_new_witness : families_merge demo_staged demo_ledger demo_ledger.
Proof.
  apply (hypothesis_merge_is_new id demo_staged demo_ledger demo_ledger);
    [apply demo_staged_ok|apply demo_ledger_ok|by vm_compute].
Defined.

Lemma demo_typed time : 0 <= time <= 100 -> typed_row time 1.
Proof. unfold typed_row, in_i64, i64_min, i64_max, u32_max. lia. Qed.

Lemma demo_group_typed : typed_group demo_group.
Proof.
  split; [by apply demo_typed|]. split; [|by vm_compute].
  repeat constructor; unfold is_scalar; lia.
Qed.

Lemma hypothesis_fingerprints_bind_witness :
  let m := demo_member 1 10 50 Added 5 in
  let p := preimage_bytes Domain.HypothesisMembership (membership_bytes m) in
  m = m \/ collision (take 32) p p.
Proof.
  intros m p.
  destruct (hypothesis_fingerprints_bind (take 32) demo_group demo_group m m
    (demo_select 2 10 None 5) (demo_select 2 10 None 5)) as (_&Hm&_);
    [exact demo_group_typed|exact demo_group_typed|apply (demo_typed 5); lia..|].
  apply Hm. reflexivity.
Defined.

(** ** Operations that share a timestamp

    The replay orders operations by their first event, the reported selection orders events
    by their own identity.  Two operations of one microsecond whose event identities
    interleave are therefore read differently: the second operation below removes the
    selected assertion and clears the selection, yet the ledger still reports it. *)

Definition interleaved_ledger : HypothesisLedger Uuid128 :=
  mkLedger [demo_group]
    [demo_member 1 10 50 Added 5; demo_member 2 11 50 Removed 5]
    [demo_select 3 11 None 5; demo_select 5 10 (Some 50) 5].

(** (hypotheses).  The accepted ledger [interleaved_ledger] reports a selection that is no member, although
    its replayed history ends without a selection. *)
Theorem hypothesis_interleaved_selection :
  hyp_ledger_new id (groups interleaved_ledger) (membership_events interleaved_ledger)
    (selection_events interleaved_ledger) = Ok interleaved_ledger /\
  ((fun state => snd state !! uuid7 900) <$> replay (groups interleaved_ledger)
    (membership_events interleaved_ledger) (selection_events interleaved_ledger)) = Ok (Some None) /\
  current_selection interleaved_ledger (uuid7 900) = Some (uuid7 50) /\
  current_members interleaved_ledger (uuid7 900) = [].
Proof.
  split; [vm_compute; reflexivity|]. split; [vm_compute; reflexivity|].
  split; vm_compute; reflexivity.
Qed.
