(* ===== verification/Assertions.v ===== *)
(** * Assertions: the assertion ledger of [crates/graphforge-knowledge/src/lib.rs].

    Immutable claims with ordered references to graph objects: row validation with the
    coverage and ordinal rules, canonical construction, merge, and content fingerprints.
    [HashMap] and [HashSet] iteration only decides which of several rows is reported with
    the same error, so the order is left to the finite-map library. *)

From stdpp Require Import base numbers list gmap strings sorting.
From Stdlib Require Import ZArith Lia.
From S2P Require Import Prelude Uuid Text Canonical Knowledge.

Definition ASSERTION_CONTRACT_VERSION : Z := 1.
Definition ASSERTION_GRAPH_REF_CONTRACT_VERSION : Z := 1.

Inductive GraphObjectKind := Node | Edge.
Inductive AssertionGraphRole := Subject | Object | Context_.

#[global] Instance kind_eq_dec : EqDecision GraphObjectKind.
Proof. solve_decision. Defined.
#[global] Instance role_eq_dec : EqDecision AssertionGraphRole.
Proof. solve_decision. Defined.

Definition kind_as_str (k : GraphObjectKind) : string :=
  match k with Node => "node" | Edge => "edge" end.
Definition kind_parse (value : string) : K GraphObjectKind :=
  if decide (value = "node"%string) then Ok Node
  else if decide (value = "edge"%string) then Ok Edge
  else Err (invalid "graph_kind" "unknown closed value").

Definition role_as_str (r : AssertionGraphRole) : string :=
  match r with Subject => "subject" | Object => "object" | Context_ => "context" end.
Definition role_parse (value : string) : K AssertionGraphRole :=
  if decide (value = "subject"%string) then Ok Subject
  else if decide (value = "object"%string) then Ok Object
  else if decide (value = "context"%string) then Ok Context_
  else Err (invalid "role" "unknown closed value").

Definition role_order (role : AssertionGraphRole) : Z :=
  match role with Subject => 0 | Object => 1 | Context_ => 2 end.
Definition kind_order (kind : GraphObjectKind) : Z :=
  match kind with Node => 0 | Edge => 1 end.

#[global] Instance role_countable : Countable AssertionGraphRole.
Proof.
  refine (inj_countable role_order
    (fun z => if z =? 0 then Some Subject else if z =? 1 then Some Object else Some Context_) _).
  by intros [].
Defined.

Record Assertion (U : Type) := mkAssertion {
  ast_assertion_uuid : U;
  ast_claim : str;
  ast_provenance_uuid : U;
  ast_recorded_at_micros : Z;
  ast_contract_version : Z;
}.
Arguments mkAssertion {U}.
Arguments ast_assertion_uuid {U}.
Arguments ast_claim {U}.
Arguments ast_provenance_uuid {U}.
Arguments ast_recorded_at_micros {U}.
Arguments ast_contract_version {U}.

Record AssertionGraphRef (U : Type) := mkRef {
  ref_assertion_uuid : U;
  ref_graph_uuid : U;
  ref_graph_kind : GraphObjectKind;
  ref_role : AssertionGraphRole;
  ref_ordinal : Z;
  ref_contract_version : Z;
}.
Arguments mkRef {U}.
Arguments ref_assertion_uuid {U}.
Arguments ref_graph_uuid {U}.
Arguments ref_graph_kind {U}.
Arguments ref_role {U}.
Arguments ref_ordinal {U}.
Arguments ref_contract_version {U}.

#[global] Instance assertion_eq_dec `{EqDecision U} : EqDecision (Assertion U).
Proof. solve_decision. Defined.
#[global] Instance ref_eq_dec `{EqDecision U} : EqDecision (AssertionGraphRef U).
Proof. solve_decision. Defined.

Record AssertionLedger (U : Type) := mkAssertionLedger {
  assertions : list (Assertion U);
  graph_refs : list (AssertionGraphRef U);
}.
Arguments mkAssertionLedger {U}.
Arguments assertions {U}.
Arguments graph_refs {U}.

Section assertions.
Context {U : Type} `{!UuidCrate U}.
Abbreviation Ref := (AssertionGraphRef U).

(** [require_v7] of [lib.rs]: the nil check comes first. *)
Definition lib_require_v7 (value : U) (field : string) : K unit :=
  require_uuid value field ;;
  if negb (is_sort_rand value) then Err (invalid field "must be UUIDv7") else Ok tt.

Definition validate_claim (claim : str) : K unit :=
  if str_len claim =? 0 then Err (invalid "claim" "must not be empty")
  else if MAX_CANONICAL_TEXT_BYTES <? str_len claim then Err (invalid "claim" "exceeds canonical UTF-8 limit")
  else Ok tt.

Definition assertion_new (uuid : U) (claim : str) (provenance : U) (recorded_at_micros : Z) : K (Assertion U) :=
  lib_require_v7 uuid "assertion_uuid" ;;
  require_uuid provenance "provenance_uuid" ;;
  validate_claim claim ;;
  Ok (mkAssertion uuid claim provenance recorded_at_micros ASSERTION_CONTRACT_VERSION).

Definition graph_ref_new (uuid graph : U) (kind : GraphObjectKind) (role : AssertionGraphRole) (ordinal : Z)
    : K Ref :=
  lib_require_v7 uuid "assertion_uuid" ;;
  require_uuid graph "graph_uuid" ;;
  Ok (mkRef uuid graph kind role ordinal ASSERTION_GRAPH_REF_CONTRACT_VERSION).

Definition check_assertion_row_limit (participant : string) (observed limit : Z) : K unit :=
  if limit <? observed then Err (KErr.Limit participant observed limit) else Ok tt.

Definition validate_assertion_row_limits (assertion_count graph_ref_count limit : Z) : K unit :=
  check_assertion_row_limit "assertions" assertion_count limit ;;
  check_assertion_row_limit "assertion_graph_refs" graph_ref_count limit.

(** ** Validation *)

(** One iteration of the first loop, before the identity set. *)
Definition validate_assertion (row : Assertion U) : K unit :=
  if negb (ast_contract_version row =? ASSERTION_CONTRACT_VERSION)
  then Err (invalid "assertion.contract_version" "unsupported version")
  else
    lib_require_v7 (ast_assertion_uuid row) "assertion_uuid" ;;
    require_uuid (ast_provenance_uuid row) "provenance_uuid" ;;
    validate_claim (ast_claim row).

Definition validate_ref (row : Ref) : K unit :=
  if negb (ref_contract_version row =? ASSERTION_GRAPH_REF_CONTRACT_VERSION)
  then Err (invalid "assertion_graph_ref.contract_version" "unsupported version")
  else
    lib_require_v7 (ref_assertion_uuid row) "assertion_uuid" ;;
    require_uuid (ref_graph_uuid row) "graph_uuid".

Definition ref_tuple (row : Ref) : U * U * AssertionGraphRole * Z :=
  (ref_assertion_uuid row, ref_graph_uuid row, ref_role row, ref_ordinal row).

Abbreviation Ordinals := (gmap (U * AssertionGraphRole) (list Z)).

(** The loop over the references: the tuple set, the ordinals per role and the assertions
    that have a reference. *)
Fixpoint scan_refs (ids : gset U) (tuples : gset (U * U * AssertionGraphRole * Z)) (role_ordinals : Ordinals)
    (covered : gset U) (refs : list Ref) : K (Ordinals * gset U) :=
  match refs with
  | [] => Ok (role_ordinals, covered)
  | row :: refs' =>
      validate_ref row ;;
      if decide (ref_assertion_uuid row ∉ ids) then Err (KErr.Dangling "assertion_uuid")
      else if decide (ref_tuple row ∈ tuples) then Err (KErr.Duplicate "assertion_uuid/graph_uuid/role/ordinal")
      else
        let key := (ref_assertion_uuid row, ref_role row) in
        scan_refs ids ({[ref_tuple row]} ∪ tuples)
          (<[key := default [] (role_ordinals !! key) ++ [ref_ordinal row]]> role_ordinals)
          ({[ref_assertion_uuid row]} ∪ covered) refs'
  end.

(** [any(|(expected, actual)| usize::try_from(actual) != Ok(expected))], negated, after the sort. *)
Definition ordinals_contiguous (ordinals : list Z) : bool :=
  let sorted := sort_by_key id ordinals in
  negb (existsb (fun '(expected, actual) => negb (actual =? expected)) (zip (seqZ 0 (lenZ sorted)) sorted)).

Definition validate_rows_with_limit (rows : list (Assertion U)) (refs : list Ref) (row_limit : Z) : K unit :=
  validate_assertion_row_limits (lenZ rows) (lenZ refs) row_limit ;;
  scan_ids ast_assertion_uuid validate_assertion (KErr.Duplicate "assertion_uuid") ∅ rows ;;
  let assertion_ids : gset U := list_to_set (ast_assertion_uuid <$> rows) in
  '(role_ordinals, covered) ← scan_refs assertion_ids ∅ ∅ ∅ refs;
  if negb (bool_decide (Forall (fun id => id ∈ covered) (elements assertion_ids)))
  then Err (KErr.Dangling "assertion.graph_refs")
  else if negb (forallb (fun '(_, ordinals) => ordinals_contiguous ordinals) (map_to_list role_ordinals))
  then Err (invalid "ordinal" "must be contiguous from zero per role")
  else Ok tt.

Definition validate_rows (rows : list (Assertion U)) (refs : list Ref) : K unit :=
  validate_rows_with_limit rows refs MAX_KNOWLEDGE_ROWS.

(** ** Canonical order *)

Definition local_ref_key (row : Ref) : Z * Z * Z * U :=
  (role_order (ref_role row), ref_ordinal row, kind_order (ref_graph_kind row), ref_graph_uuid row).

Definition assertion_times (rows : list (Assertion U)) : gmap U Z :=
  foldl (fun m row => <[ast_assertion_uuid row := ast_recorded_at_micros row]> m) ∅ rows.

(** [times[&uuid]]: both callers only pass references of listed assertions. *)
Definition ref_key (times : gmap U Z) (row : Ref) : Z * (U * (Z * Z * Z * U)) :=
  (default 0 (times !! ref_assertion_uuid row), (ref_assertion_uuid row, local_ref_key row)).

Definition sort_assertion_rows (rows : list (Assertion U)) (refs : list Ref) : AssertionLedger U :=
  mkAssertionLedger (sort_rows ast_assertion_uuid ast_recorded_at_micros rows)
    (sort_by_key (ref_key (assertion_times rows)) refs).

Definition assertion_ledger_new (rows : list (Assertion U)) (refs : list Ref) : K (AssertionLedger U) :=
  validate_rows rows refs ;;
  Ok (sort_assertion_rows rows refs).

Definition refs_of (uuid : U) (refs : list Ref) : list Ref :=
  filter (fun row => ref_assertion_uuid row = uuid) refs.

Definition refs_for (refs : list Ref) (uuid : U) : list Ref := sort_by_key local_ref_key (refs_of uuid refs).

(** ** Merge *)

Fixpoint merge_assertions (staged_refs : list Ref) (staged rows : list (Assertion U)) (refs : list Ref)
    (m : gmap U (Assertion U)) : K (list (Assertion U) * list Ref) :=
  match staged with
  | [] => Ok (rows, refs)
  | row :: staged' =>
      let id := ast_assertion_uuid row in
      match m !! id with
      | Some existing =>
          if decide (existing <> row \/ refs_for refs id <> refs_for staged_refs id)
          then Err (KErr.Conflict "assertion_uuid")
          else merge_assertions staged_refs staged' rows refs (<[id := row]> m)
      | None =>
          merge_assertions staged_refs staged' (rows ++ [row]) (refs ++ refs_of id staged_refs) (<[id := row]> m)
      end
  end.

Definition merge_with_limits (self staged : AssertionLedger U) (assertion_limit graph_ref_limit : Z)
    : K (AssertionLedger U) :=
  '(rows, refs) ← merge_assertions (graph_refs staged) (assertions staged) (assertions self) (graph_refs self)
    (by_id ast_assertion_uuid (assertions self));
  check_assertion_row_limit "assertions" (lenZ rows) assertion_limit ;;
  check_assertion_row_limit "assertion_graph_refs" (lenZ refs) graph_ref_limit ;;
  Ok (sort_assertion_rows rows refs).

Definition assertion_ledger_merge (self staged : AssertionLedger U) : K (AssertionLedger U) :=
  merge_with_limits self staged MAX_KNOWLEDGE_ROWS MAX_KNOWLEDGE_ROWS.

(** ** Fingerprints *)

Fixpoint refs_writer (refs : list Ref) : W :=
  match refs with
  | [] => mret tt
  | row :: refs' =>
      writer_text (bytes_of (role_as_str (ref_role row))) ;;
      writer_u32 (ref_ordinal row) ;;
      writer_text (bytes_of (kind_as_str (ref_graph_kind row))) ;;
      writer_raw (as_bytes (ref_graph_uuid row)) ;;
      refs_writer refs'
  end.

Definition assertion_writer (row : Assertion U) (refs : list Ref) : W :=
  writer_raw (bytes_of "GFAS") ;;
  writer_u32 ASSERTION_CONTRACT_VERSION ;;
  writer_text (utf8 (ast_claim row)) ;;
  writer_u64 (lenZ refs) ;;
  refs_writer refs.

Definition assertion_fingerprint_for_row (sha256 : list Z -> list Z) (row : Assertion U) (refs : list Ref)
    : K (list Z) :=
  map_err KErr.Canonical (write_fingerprint sha256 Domain.Assertion (assertion_writer row refs)).

Definition assertion_fingerprint (sha256 : list Z -> list Z) (self : AssertionLedger U) (uuid : U) : K (list Z) :=
  match list_find (fun row => ast_assertion_uuid row = uuid) (assertions self) with
  | None => Err (KErr.Dangling "assertion_uuid")
  | Some (_, row) => assertion_fingerprint_for_row sha256 row (refs_for (graph_refs self) uuid)
  end.

(** References grouped by assertion in ledger order. *)
Definition group_refs (refs : list Ref) : gmap U (list Ref) :=
  foldl (fun m row => <[ref_assertion_uuid row := default [] (m !! ref_assertion_uuid row) ++ [row]]> m) ∅ refs.

Definition assertion_fingerprints (sha256 : list Z -> list Z) (self : AssertionLedger U) : K (list (U * list Z)) :=
  let refs := group_refs (graph_refs self) in
  fingerprint_table ast_assertion_uuid (fun row =>
    assertion_fingerprint_for_row sha256 row (default [] (refs !! ast_assertion_uuid row))) (assertions self).

(** ** What the checks decide *)

Definition valid_assertion (row : Assertion U) : Prop :=
  v7 (ast_assertion_uuid row) /\ is_nil (ast_provenance_uuid row) = false /\
  0 < str_len (ast_claim row) <= MAX_CANONICAL_TEXT_BYTES /\
  ast_contract_version row = ASSERTION_CONTRACT_VERSION.

Definition valid_ref (row : Ref) : Prop :=
  v7 (ref_assertion_uuid row) /\ is_nil (ref_graph_uuid row) = false /\
  ref_contract_version row = ASSERTION_GRAPH_REF_CONTRACT_VERSION.

Lemma lib_require_v7_Ok u f : lib_require_v7 u f = Ok tt <-> v7 u.
Proof.
  unfold lib_require_v7, v7. rewrite bind_unit_Ok, require_uuid_Ok. destruct (is_sort_rand u); cbn [negb]; naive_solver.
Qed.

Lemma validate_claim_Ok c : validate_claim c = Ok tt <-> 0 < str_len c <= MAX_CANONICAL_TEXT_BYTES.
Proof.
  unfold validate_claim. assert (0 <= str_len c) by (unfold str_len; lia).
  destruct (Z.eqb_spec (str_len c) 0); [split; [done|lia]|].
  destruct (Z.ltb_spec MAX_CANONICAL_TEXT_BYTES (str_len c)); split; done || lia.
Qed.

Lemma validate_assertion_Ok row : validate_assertion row = Ok tt <-> valid_assertion row.
Proof.
  unfold validate_assertion, valid_assertion.
  rewrite guard_Ok, !bind_unit_Ok, lib_require_v7_Ok, require_uuid_Ok, validate_claim_Ok, negb_false_iff, Z.eqb_eq. tauto.
Qed.

Lemma validate_ref_Ok row : validate_ref row = Ok tt <-> valid_ref row.
Proof.
  unfold validate_ref, valid_ref.
  rewrite guard_Ok, !bind_unit_Ok, lib_require_v7_Ok, require_uuid_Ok, negb_false_iff, Z.eqb_eq. tauto.
Qed.

(** The ordinals of one role of one assertion, in row order. *)
Definition ordinals_of (uuid : U) (role : AssertionGraphRole) (refs : list Ref) : list Z :=
  ref_ordinal <$> filter (fun row => ref_role row = role) (refs_of uuid refs).

(** Contiguous from zero: a permutation of 0, 1, ..., n - 1. *)
Definition contiguous (ordinals : list Z) : Prop := ordinals ≡ₚ seqZ 0 (lenZ ordinals).

Lemma zip_eq_iff (l1 l2 : list Z) :
  length l1 = length l2 ->
  existsb (fun '(e, a) => negb (a =? e)) (zip l1 l2) = false <-> l2 = l1.
Proof.
  revert l2. induction l1 as [|x l1 IH]; intros [|y l2] Hlen; try done. cbn [zip zip_with existsb].
  injection Hlen as Hlen. rewrite orb_false_iff, negb_false_iff, Z.eqb_eq, (IH l2 Hlen). naive_solver.
Qed.

Lemma seqZ_sorted m n : StronglySorted (key_le id) (seqZ m n).
Proof.
  destruct (decide (0 <= n)) as [Hn|Hn]; [|rewrite seqZ_nil by lia; constructor].
  revert m. pattern n. apply natlike_ind; [|intros k Hk IH m|done].
  - intros m. rewrite seqZ_nil by lia. constructor.
  - rewrite seqZ_cons by lia. rewrite Z.pred_succ. constructor; [apply IH|].
    apply Forall_forall. intros x Hx%elem_of_seqZ. unfold key_le. cbn. lia.
Qed.

Lemma ordinals_contiguous_iff os : ordinals_contiguous os = true <-> contiguous os.
Proof.
  unfold ordinals_contiguous, contiguous. cbv zeta. rewrite negb_true_iff.
  assert (Hp : sort_by_key id os ≡ₚ os) by apply sort_by_key_perm.
  rewrite zip_eq_iff by (rewrite length_seqZ; lia). rewrite (Permutation_length Hp). split.
  - intros <-. by rewrite Hp.
  - intros Hperm. apply (sorted_perm_unique id); [|apply sort_by_key_sorted|apply seqZ_sorted|by rewrite Hp].
    rewrite list_fmap_id, Hp, Hperm. apply NoDup_seqZ.
Qed.

Definition push_ordinal (m : Ordinals) (row : Ref) : Ordinals :=
  let key := (ref_assertion_uuid row, ref_role row) in <[key := default [] (m !! key) ++ [ref_ordinal row]]> m.

Lemma scan_refs_Ok ids tuples m covered refs m' covered' :
  scan_refs ids tuples m covered refs = Ok (m', covered') <->
  Forall (fun r => valid_ref r /\ ref_assertion_uuid r ∈ ids /\ ref_tuple r ∉ tuples) refs /\
  NoDup (ref_tuple <$> refs) /\ m' = foldl push_ordinal m refs /\
  covered' = foldl (fun c r => {[ref_assertion_uuid r]} ∪ c) covered refs.
Proof.
  revert tuples m covered. induction refs as [|r refs IH]; intros tuples m covered; cbn [scan_refs].
  { split; [intros [= <- <-]; split_and!; by constructor|by intros (_&_&->&->)]. }
  rewrite bind_unit_Ok, validate_ref_Ok, Forall_cons, fmap_cons, NoDup_cons. cbn [foldl].
  destruct (decide (ref_assertion_uuid r ∉ ids)) as [Hid|Hid]; [split; [by intros [_ ?]|tauto]|].
  apply dec_stable in Hid.
  destruct (decide (ref_tuple r ∈ tuples)) as [Ht|Ht]; [split; [by intros [_ ?]|tauto]|].
  cbv zeta. rewrite IH. split.
  - intros (Hv&Hall&Hnd&->&->). rewrite Forall_forall in Hall. split_and!; try done.
    + apply Forall_forall. intros x Hx. destruct (Hall x Hx) as (?&?&Hn). split_and!; try done. set_solver.
    + intros (x&Heq&Hx)%list_elem_of_fmap. destruct (Hall x Hx) as (_&_&Hn). apply Hn. rewrite Heq. set_solver.
  - intros ([(?&_) Hall]&[Hnin Hnd]&->&->). split; [done|]. split_and!; try done.
    apply Forall_forall. intros x Hx. rewrite Forall_forall in Hall. destruct (Hall x Hx) as (?&?&?).
    split_and!; try done. rewrite not_elem_of_union, not_elem_of_singleton. split; [|done].
    intros Heq. apply Hnin. rewrite <-Heq. by apply list_elem_of_fmap_2.
Qed.

Lemma ordinals_of_cons a role r refs :
  ordinals_of a role (r :: refs) =
    (if decide (ref_assertion_uuid r = a /\ ref_role r = role) then [ref_ordinal r] else []) ++ ordinals_of a role refs.
Proof.
  unfold ordinals_of, refs_of. rewrite filter_cons. destruct (decide (ref_assertion_uuid r = a)).
  - rewrite filter_cons. destruct (decide (ref_role r = role)).
    + by rewrite decide_True.
    + by rewrite decide_False by tauto.
  - by rewrite decide_False by tauto.
Qed.

Lemma push_ordinals_lookup m refs a role :
  foldl push_ordinal m refs !! (a, role) =
    match ordinals_of a role refs with
    | [] => m !! (a, role)
    | os => Some (default [] (m !! (a, role)) ++ os)
    end.
Proof.
  revert m. induction refs as [|r refs IH]; intros m; [done|]. cbn [foldl]. rewrite IH, ordinals_of_cons.
  unfold push_ordinal. cbv zeta. destruct (decide (ref_assertion_uuid r = a /\ ref_role r = role)) as [[<- <-]|Hne].
  - rewrite lookup_insert_eq. set (old := default [] (m !! _)).
    change (default [] (Some (old ++ [ref_ordinal r]))) with (old ++ [ref_ordinal r]).
    destruct (ordinals_of _ _ refs) as [|o os]; [done|]. by rewrite <-(assoc_L (++) old).
  - rewrite lookup_insert_ne by (intros [= ? ?]; tauto). done.
Qed.

Lemma covered_elem covered refs (a : U) :
  a ∈ foldl (fun c (r : Ref) => {[ref_assertion_uuid r]} ∪ c) (covered : gset U) refs <->
  a ∈ covered \/ refs_of a refs <> [].
Proof.
  revert covered. induction refs as [|r refs IH]; intros covered; cbn [foldl].
  { split; [by left|]. by intros [?|[]]. }
  rewrite IH, elem_of_union, elem_of_singleton. unfold refs_of at 2. rewrite filter_cons.
  case_decide as Ha.
  - split; [by right|]. intros _. left. left. done.
  - split; [intros [[->|?]|?]; tauto|]. tauto.
Qed.

(** ** The rules of the references of one assertion *)

Definition group_ok (rs : list Ref) : Prop :=
  rs <> [] /\ NoDup (ref_tuple <$> rs) /\
  forall role, contiguous (ref_ordinal <$> filter (fun row => ref_role row = role) rs).

Definition refs_ok (ids : list U) (refs : list Ref) : Prop :=
  Forall (fun r => valid_ref r /\ ref_assertion_uuid r ∈ ids) refs /\
  forall a, a ∈ ids -> group_ok (refs_of a refs).

Lemma NoDup_by_assertion refs :
  NoDup (ref_tuple <$> refs) <-> forall a, NoDup (ref_tuple <$> refs_of a refs).
Proof.
  split; [intros H a; by apply NoDup_fmap_filter|].
  induction refs as [|r refs IH]; intros H; [constructor|]. rewrite fmap_cons, NoDup_cons. split.
  - intros (x&Heq&Hx)%list_elem_of_fmap. specialize (H (ref_assertion_uuid r)). unfold refs_of in H.
    rewrite filter_cons, decide_True, fmap_cons, NoDup_cons in H by done. destruct H as [H _]. apply H.
    rewrite Heq. apply list_elem_of_fmap_2, list_elem_of_filter. split; [|done]. by injection Heq.
  - apply IH. intros a. specialize (H a). unfold refs_of in *. rewrite filter_cons in H. case_decide; [|done].
    rewrite fmap_cons in H. by apply NoDup_cons in H as [_ ?].
Qed.

Lemma refs_of_outside ids refs a : refs_ok ids refs -> a ∉ ids -> refs_of a refs = [].
Proof.
  intros [Hall _] Ha. apply filter_none. intros r Hr <-. rewrite Forall_forall in Hall.
  by destruct (Hall r Hr) as [_ ?].
Qed.

Lemma contiguous_nil : contiguous [].
Proof. unfold contiguous. rewrite seqZ_nil; done. Qed.

(** The two final checks, on what the scan collected. *)
Lemma ordinals_check refs :
  forallb (fun '(_, ordinals) => ordinals_contiguous ordinals) (map_to_list (foldl push_ordinal ∅ refs)) = true <->
  forall a role, contiguous (ordinals_of a role refs).
Proof.
  rewrite forallb_forall. split.
  - intros H a role. destruct (ordinals_of a role refs) as [|o os] eqn:Eo; [apply contiguous_nil|].
    apply ordinals_contiguous_iff, (H (a, role, o :: os)), list_elem_of_In, elem_of_map_to_list.
    by rewrite push_ordinals_lookup, Eo, lookup_empty.
  - intros H [[a role] os] Hin. apply ordinals_contiguous_iff. apply list_elem_of_In, elem_of_map_to_list in Hin.
    rewrite push_ordinals_lookup, lookup_empty in Hin. specialize (H a role).
    destruct (ordinals_of a role refs); [done|]. by injection Hin as <-.
Qed.

Lemma covered_check (ids : list U) (refs : list Ref) :
  Forall (fun id => id ∈ foldl (fun c (r : Ref) => {[ref_assertion_uuid r]} ∪ c) (∅ : gset U) refs)
    (elements (list_to_set ids : gset U)) <->
  forall a, a ∈ ids -> refs_of a refs <> [].
Proof.
  rewrite Forall_forall. split.
  - intros H a Ha. specialize (H a). rewrite elem_of_elements, elem_of_list_to_set, covered_elem in H.
    destruct (H Ha) as [Hn|?]; [by apply not_elem_of_empty in Hn|done].
  - intros H a. rewrite elem_of_elements, elem_of_list_to_set. intros Ha%H. apply covered_elem. by right.
Qed.

Lemma refs_ok_iff (ids : list U) (refs : list Ref) :
  refs_ok ids refs <->
  Forall (fun r => valid_ref r /\ ref_assertion_uuid r ∈ ids) refs /\ NoDup (ref_tuple <$> refs) /\
  (forall a, a ∈ ids -> refs_of a refs <> []) /\ (forall a role, contiguous (ordinals_of a role refs)).
Proof.
  split.
  - intros Hok. pose proof (refs_of_outside ids refs) as Hout. split_and!; [apply Hok|..].
    + apply NoDup_by_assertion. intros a. destruct (decide (a ∈ ids)) as [Ha|Ha]; [by apply Hok|].
      rewrite Hout by done. constructor.
    + intros a Ha. by apply Hok.
    + intros a role. unfold ordinals_of. destruct (decide (a ∈ ids)) as [Ha|Ha]; [by apply Hok|].
      rewrite Hout by done. apply contiguous_nil.
  - intros (Hall&Hnd&Hne&Hc). split; [done|]. intros a Ha. split_and!; [by apply Hne|by apply (proj1 (NoDup_by_assertion refs) Hnd)|].
    intros role. apply Hc.
Qed.

Lemma check_limit_Ok p observed limit : check_assertion_row_limit p observed limit = Ok tt <-> observed <= limit.
Proof. unfold check_assertion_row_limit. destruct (Z.ltb_spec limit observed); split; done || lia. Qed.

Lemma validate_rows_Ok rows refs limit :
  validate_rows_with_limit rows refs limit = Ok tt <->
  (lenZ rows <= limit /\ lenZ refs <= limit) /\ Forall valid_assertion rows /\
  NoDup (ast_assertion_uuid <$> rows) /\ refs_ok (ast_assertion_uuid <$> rows) refs.
Proof.
  unfold validate_rows_with_limit, validate_assertion_row_limits. cbv zeta.
  rewrite !bind_unit_Ok, !check_limit_Ok, scan_ids_Ok, bind_Ok.
  assert (Hv : Forall (fun r => validate_assertion r = Ok tt) rows <-> Forall valid_assertion rows)
    by (apply Forall_iff; apply validate_assertion_Ok).
  rewrite Hv. set (ids := ast_assertion_uuid <$> rows).
  split.
  - intros (?&(?&?&_)&[m c]&Hscan&Hend). apply scan_refs_Ok in Hscan as (Hall&Hnd&->&->).
    destruct (bool_decide _) eqn:Hc; [|done]. apply bool_decide_eq_true_1 in Hc. pose proof (proj1 (covered_check ids refs) Hc) as Hne. cbn [negb] in Hend.
    destruct (forallb _ _) eqn:Ho; [|done]. pose proof (proj1 (ordinals_check refs) Ho) as Hcont. split_and!; try tauto.
    apply refs_ok_iff. split_and!; try done. eapply Forall_impl; [exact Hall|].
    intros r (?&Hin&_). split; [done|]. by apply elem_of_list_to_set in Hin.
  - intros (?&?&?&(Hall&Hnd&Hne&Hc)%refs_ok_iff). split_and!; try tauto.
    { apply Forall_true. intros. apply not_elem_of_empty. }
    eexists (_, _). split.
    + apply scan_refs_Ok. split_and!; [|done|reflexivity|reflexivity]. eapply Forall_impl; [exact Hall|].
      intros r [? Hin]. split_and!; [done|by apply elem_of_list_to_set|apply not_elem_of_empty].
    + rewrite bool_decide_eq_true_2 by (by apply covered_check). cbn [negb].
      by rewrite (proj2 (ordinals_check refs) Hc).
Qed.

(** ** Canonical ledgers *)

Lemma assertion_times_by_id (rows : list (Assertion U)) :
  assertion_times rows = ast_recorded_at_micros <$> by_id ast_assertion_uuid rows.
Proof.
  unfold assertion_times, by_id.
  assert (H : forall m : gmap U (Assertion U),
    foldl (fun m row => <[ast_assertion_uuid row := ast_recorded_at_micros row]> m) (ast_recorded_at_micros <$> m) rows =
    ast_recorded_at_micros <$> foldl (fun m r => <[ast_assertion_uuid r := r]> m) m rows);
    [|by rewrite <-H, fmap_empty].
  induction rows as [|r rows IH]; intros m; cbn [foldl]; [done|]. by rewrite <-fmap_insert, IH.
Qed.

Lemma role_order_inj r1 r2 : role_order r1 = role_order r2 -> r1 = r2.
Proof. by destruct r1, r2. Qed.

Lemma ref_key_tuple times (r1 r2 : Ref) : ref_key times r1 = ref_key times r2 -> ref_tuple r1 = ref_tuple r2.
Proof. unfold ref_key, local_ref_key, ref_tuple. intros [= _ -> Hr%role_order_inj -> _ ->]. by rewrite Hr. Qed.

Lemma NoDup_ref_key times (refs : list Ref) : NoDup (ref_tuple <$> refs) -> NoDup (ref_key times <$> refs).
Proof.
  induction refs as [|r refs IH]; [constructor|]. rewrite !fmap_cons, !NoDup_cons. intros [Hn Hnd]. split; [|auto].
  intros (x&Heq&Hx)%list_elem_of_fmap. apply Hn. apply ref_key_tuple in Heq. rewrite Heq. by apply list_elem_of_fmap_2.
Qed.

Lemma refs_of_perm a (r1 r2 : list Ref) : r1 ≡ₚ r2 -> refs_of a r1 ≡ₚ refs_of a r2.
Proof. intros H. unfold refs_of. by rewrite H. Qed.

Lemma group_ok_perm rs1 rs2 : rs1 ≡ₚ rs2 -> group_ok rs1 -> group_ok rs2.
Proof.
  intros Hp (Hne&Hnd&Hc). split_and!.
  - intros ->. by apply Permutation_nil_r in Hp.
  - by rewrite <-Hp.
  - intros role. unfold contiguous. rewrite <-Hp. apply Hc.
Qed.

Lemma refs_ok_perm ids ids' refs refs' : ids ≡ₚ ids' -> refs ≡ₚ refs' -> refs_ok ids refs -> refs_ok ids' refs'.
Proof.
  intros Hi Hr [Hall Hg]. split.
  - rewrite <-Hr. eapply Forall_impl; [exact Hall|]. intros r [? ?]. by rewrite <-Hi.
  - intros a Ha. rewrite <-Hi in Ha. eapply group_ok_perm; [by apply refs_of_perm|by apply Hg].
Qed.

Abbreviation ids_of rows := (ast_assertion_uuid <$> rows).

Record assertion_ledger_ok (l : AssertionLedger U) : Prop := {
  ok_assertions : ledger_wf ast_assertion_uuid ast_recorded_at_micros (assertions l);
  ok_assertion_rows : Forall valid_assertion (assertions l);
  ok_refs : refs_ok (ids_of (assertions l)) (graph_refs l);
  ok_ref_order : StronglySorted (key_le (ref_key (assertion_times (assertions l)))) (graph_refs l);
}.

Definition within (l : AssertionLedger U) (limit : Z) : Prop :=
  lenZ (assertions l) <= limit /\ lenZ (graph_refs l) <= limit.

(** Sorting acceptable rows gives a ledger. *)
Lemma sort_assertion_rows_ok rows refs :
  Forall valid_assertion rows -> NoDup (ids_of rows) -> refs_ok (ids_of rows) refs ->
  assertion_ledger_ok (sort_assertion_rows rows refs).
Proof.
  intros Hv Hnd Hr. unfold sort_assertion_rows.
  assert (Hp : sort_rows ast_assertion_uuid ast_recorded_at_micros rows ≡ₚ rows) by apply sort_rows_perm.
  split; cbn [assertions graph_refs].
  - by apply sort_rows_wf.
  - by rewrite Hp.
  - eapply refs_ok_perm; [|symmetry; apply sort_by_key_perm|exact Hr]. by rewrite Hp.
  - rewrite assertion_times_by_id, sort_rows_by_id, <-assertion_times_by_id by done. apply sort_by_key_sorted.
Qed.

Lemma assertion_new_Ok rows refs l :
  assertion_ledger_new rows refs = Ok l <->
  l = sort_assertion_rows rows refs /\ assertion_ledger_ok l /\ within l MAX_KNOWLEDGE_ROWS.
Proof.
  unfold assertion_ledger_new, validate_rows, within. rewrite bind_unit_Ok, validate_rows_Ok.
  assert (Hp : sort_rows ast_assertion_uuid ast_recorded_at_micros rows ≡ₚ rows) by apply sort_rows_perm.
  assert (Hq : sort_by_key (ref_key (assertion_times rows)) refs ≡ₚ refs) by apply sort_by_key_perm.
  split.
  - intros (((?&?)&Hv&Hnd&Hr)&[= <-]). split; [done|]. split; [by apply sort_assertion_rows_ok|].
    cbn [assertions graph_refs sort_assertion_rows]. by rewrite (Permutation_length Hp), (Permutation_length Hq).
  - intros (->&[[_ Hnd] Hv Hr _]&Hl). cbn [assertions graph_refs sort_assertion_rows] in *.
    rewrite (Permutation_length Hp), (Permutation_length Hq) in Hl. rewrite Hp in Hnd, Hv.
    split_and!; try tauto. eapply refs_ok_perm; [|exact Hq|exact Hr]. by rewrite Hp.
Qed.

Lemma sort_assertion_rows_id l :
  assertion_ledger_ok l -> sort_assertion_rows (assertions l) (graph_refs l) = l.
Proof.
  intros Hok. unfold sort_assertion_rows. rewrite sort_rows_id by apply Hok.
  rewrite sort_by_key_id by apply Hok. by destruct l.
Qed.

Lemma assertion_new_id l :
  assertion_ledger_ok l -> within l MAX_KNOWLEDGE_ROWS -> assertion_ledger_new (assertions l) (graph_refs l) = Ok l.
Proof. intros Hok Hl. apply assertion_new_Ok. split; [by rewrite sort_assertion_rows_id|done]. Qed.

(** In a ledger the references of one assertion are already in their own order. *)
Lemma refs_for_sorted l a : assertion_ledger_ok l -> refs_for (graph_refs l) a = refs_of a (graph_refs l).
Proof.
  intros Hok. unfold refs_for. apply sort_by_key_id. pose proof (ok_ref_order _ Hok) as Hs. unfold refs_of.
  induction Hs as [|r refs Hs IH Hr]; [constructor|]. rewrite filter_cons. case_decide as Ha; [|done].
  constructor; [done|]. apply Forall_forall. intros x [Hx Hin]%list_elem_of_filter. rewrite Forall_forall in Hr.
  specialize (Hr x Hin). unfold key_le in *. unfold ref_key in Hr. rewrite Ha, Hx in Hr.
  destruct Hr as [[_ Hn]|[_ Hr]]; [by destruct Hn|]. cbn in Hr. destruct Hr as [[_ Hn]|[_ Hr]]; [by destruct Hn|exact Hr].
Qed.

(** The order within one assertion does not depend on the arrangement of the rows. *)
Lemma refs_for_perm (r1 r2 : list Ref) a :
  NoDup (ref_tuple <$> refs_of a r1) -> refs_of a r1 ≡ₚ refs_of a r2 -> refs_for r1 a = refs_for r2 a.
Proof.
  intros Hnd Hp. unfold refs_for. apply sort_by_key_unique; [|done].
  assert (Hk : NoDup (ref_key ∅ <$> refs_of a r1)) by (by apply NoDup_ref_key).
  apply (NoDup_fmap_1 (fun k => (default 0 ((∅ : gmap U Z) !! a), (a, k)))). rewrite <-list_fmap_compose.
  erewrite list_fmap_ext; [exact Hk|].
  intros i r Hr%list_elem_of_lookup_2. apply list_elem_of_filter in Hr as [<- _]. done.
Qed.

(** ** Merge *)

(** The references that come with new assertions. *)
Definition new_refs (staged_refs : list Ref) (rows : list (Assertion U)) : list Ref :=
  rows ≫= fun row => refs_of (ast_assertion_uuid row) staged_refs.

Lemma refs_of_same a b (refs : list Ref) : refs_of a (refs_of b refs) = if decide (a = b) then refs_of a refs else [].
Proof.
  unfold refs_of. rewrite list_filter_filter. case_decide as Hab.
  - subst. apply filter_ext_in. intros. tauto.
  - apply filter_none. intros r _ [? ?]. congruence.
Qed.

Lemma refs_of_new a sr (rows : list (Assertion U)) :
  NoDup (ids_of rows) ->
  refs_of a (new_refs sr rows) = if decide (a ∈ ids_of rows) then refs_of a sr else [].
Proof.
  induction rows as [|r rows IH]; intros Hnd; [by rewrite decide_False by apply not_elem_of_nil|].
  rewrite fmap_cons in *. apply NoDup_cons in Hnd as [Hnin Hnd]. unfold new_refs in *. rewrite bind_cons.
  unfold refs_of at 1. rewrite filter_app. fold (refs_of a (refs_of (ast_assertion_uuid r) sr)).
  rewrite refs_of_same. fold (refs_of a (rows ≫= fun row => refs_of (ast_assertion_uuid row) sr)). rewrite IH by done.
  destruct (decide (a = ast_assertion_uuid r)) as [->|Hne].
  - rewrite (decide_False (P := _ ∈ ids_of rows)) by done. rewrite decide_True by (by left). by rewrite app_nil_r.
  - cbn [app]. destruct (decide (a ∈ ids_of rows)); [rewrite decide_True by (by right)|rewrite decide_False]; try done.
    rewrite elem_of_cons. tauto.
Qed.

Lemma refs_for_grow (refs sr : list Ref) a b :
  a <> b -> refs_for (refs ++ refs_of b sr) a = refs_for refs a.
Proof.
  intros Hab. unfold refs_for. f_equal. unfold refs_of at 1. rewrite filter_app.
  fold (refs_of a (refs_of b sr)). rewrite refs_of_same, decide_False by done. by rewrite app_nil_r.
Qed.

(** Recording one staged row does not change how the others are treated. *)
Lemma insert_staged (m : gmap U (Assertion U)) r (staged : list (Assertion U)) :
  (forall x, x ∈ staged -> ast_assertion_uuid x <> ast_assertion_uuid r) ->
  let m' := <[ast_assertion_uuid r := r]> m in
  new_rows ast_assertion_uuid m' staged = new_rows ast_assertion_uuid m staged /\
  (replays ast_assertion_uuid m' staged <-> replays ast_assertion_uuid m staged) /\
  forall x, x ∈ staged -> m' !! ast_assertion_uuid x = m !! ast_assertion_uuid x.
Proof.
  intros Hother m'. assert (Hl : forall x, x ∈ staged -> m' !! ast_assertion_uuid x = m !! ast_assertion_uuid x)
    by (intros x Hx; apply lookup_insert_ne; by apply not_eq_sym, Hother).
  split_and!; [|unfold replays; rewrite !Forall_forall|done].
  - apply filter_ext_in. intros x Hx. by rewrite Hl.
  - split; intros H x Hx; specialize (H x Hx); rewrite Hl in * by done; done.
Qed.

Lemma merge_assertions_Ok sr staged rows refs m out :
  NoDup (ids_of staged) ->
  merge_assertions sr staged rows refs m = Ok out <->
  replays ast_assertion_uuid m staged /\
  Forall (fun r => is_Some (m !! ast_assertion_uuid r) ->
    refs_for refs (ast_assertion_uuid r) = refs_for sr (ast_assertion_uuid r)) staged /\
  out = (rows ++ new_rows ast_assertion_uuid m staged, refs ++ new_refs sr (new_rows ast_assertion_uuid m staged)).
Proof.
  revert rows refs m. induction staged as [|r staged IH]; intros rows refs m Hnd; cbn [merge_assertions].
  { unfold new_rows. rewrite filter_nil, !app_nil_r. split; [intros [= <-]; split_and!; by constructor|by intros (_&_&->)]. }
  rewrite fmap_cons in Hnd. apply NoDup_cons in Hnd as [Hnin Hnd]. cbv zeta.
  assert (Hother : forall x, x ∈ staged -> ast_assertion_uuid x <> ast_assertion_uuid r).
  { intros x Hx Heq. apply Hnin. rewrite <-Heq. by apply list_elem_of_fmap_2. }
  destruct (insert_staged m r staged Hother) as (Hnew&Hrep&Hl). unfold new_rows at 1 2. rewrite filter_cons.
  fold (new_rows ast_assertion_uuid m staged). rewrite Forall_cons.
  assert (Hcons : replays ast_assertion_uuid m (r :: staged) <->
    (forall r', m !! ast_assertion_uuid r = Some r' -> r' = r) /\ replays ast_assertion_uuid m staged)
    by apply Forall_cons.
  rewrite Hcons. clear Hcons. destruct (m !! ast_assertion_uuid r) as [e|] eqn:Er.
  - rewrite (decide_False (P := Some e = None)) by done. destruct (decide _) as [Hd|Hd].
    + split; [done|]. intros ((He&_)&(Hf&_)&_). destruct Hd as [Hd|Hd]; [by destruct Hd; apply He|].
      destruct Hd. by apply Hf.
    + rewrite IH, Hrep, Hnew by done.
      assert (He : e = r) by (destruct (decide (e = r)); tauto).
      assert (Hf : refs_for refs (ast_assertion_uuid r) = refs_for sr (ast_assertion_uuid r))
        by (destruct (decide (refs_for refs (ast_assertion_uuid r) = refs_for sr (ast_assertion_uuid r))); tauto).
      rewrite !Forall_forall. split.
      * intros (?&Ha&->). split_and!; try done; [by intros ? [= <-]|]. intros x Hx. rewrite <-Hl by done. by apply Ha.
      * intros ((_&?)&(_&Ha)&->). split_and!; try done. intros x Hx. rewrite Hl by done. by apply Ha.
  - rewrite decide_True by done. rewrite IH, Hrep, Hnew by done.
    assert (Happ : forall ns, (rows ++ [r]) ++ ns = rows ++ r :: ns) by (intros; by rewrite <-app_assoc).
    assert (Hrefs : forall ns, (refs ++ refs_of (ast_assertion_uuid r) sr) ++ new_refs sr ns = refs ++ new_refs sr (r :: ns))
      by (intros; unfold new_refs; by rewrite bind_cons, <-app_assoc).
    rewrite Happ, Hrefs, !Forall_forall. split.
    + intros (?&Ha&->). split; [done|]. split; [|done]. split; [by intros [? ?]|]. intros x Hx Hs.
      rewrite <-(refs_for_grow refs sr _ (ast_assertion_uuid r)) by (by apply Hother). apply Ha; [done|]. by rewrite Hl.
    + intros ((_&?)&(_&Ha)&->). split_and!; try done. intros x Hx Hs. rewrite Hl in Hs by done.
      rewrite refs_for_grow by (by apply Hother). by apply Ha.
Qed.

(** The references of a merge, assertion by assertion. *)
Lemma merged_refs_of self staged a :
  assertion_ledger_ok self -> assertion_ledger_ok staged ->
  let fresh := new_rows ast_assertion_uuid (by_id ast_assertion_uuid (assertions self)) (assertions staged) in
  refs_of a (graph_refs self ++ new_refs (graph_refs staged) fresh) =
    if decide (a ∈ ids_of (assertions self)) then refs_of a (graph_refs self)
    else if decide (a ∈ ids_of (assertions staged)) then refs_of a (graph_refs staged) else [].
Proof.
  intros Hs Hst fresh.
  assert (Hnd : NoDup (ids_of (assertions self ++ fresh))) by (apply merged_ids; [apply Hs|apply Hst]).
  rewrite fmap_app in Hnd. apply NoDup_app in Hnd as (_&Hdis&Hfresh).
  unfold refs_of at 1. rewrite filter_app. fold (refs_of a (graph_refs self)).
  fold (refs_of a (new_refs (graph_refs staged) fresh)). rewrite refs_of_new by done.
  destruct (decide (a ∈ ids_of (assertions self))) as [Ha|Ha].
  - rewrite decide_False by (by apply Hdis). by rewrite app_nil_r.
  - rewrite (refs_of_outside _ _ _ (ok_refs _ Hs) Ha). cbn [app].
    assert (Hiff : a ∈ ids_of fresh <-> a ∈ ids_of (assertions staged)).
    { split.
      - intros (r&->&Hr)%list_elem_of_fmap. apply new_rows_elem in Hr as [_ Hr]. by apply list_elem_of_fmap_2.
      - intros (r&->&Hr)%list_elem_of_fmap. apply list_elem_of_fmap_2, new_rows_elem. split; [|done].
        apply by_id_None; [apply Hs|done]. }
    destruct (decide (a ∈ ids_of fresh)), (decide (a ∈ ids_of (assertions staged))); tauto.
Qed.

Lemma merged_refs_ok self staged :
  assertion_ledger_ok self -> assertion_ledger_ok staged ->
  let fresh := new_rows ast_assertion_uuid (by_id ast_assertion_uuid (assertions self)) (assertions staged) in
  refs_ok (ids_of (assertions self ++ fresh)) (graph_refs self ++ new_refs (graph_refs staged) fresh).
Proof.
  intros Hs Hst fresh. split.
  - apply Forall_app. split.
    + eapply Forall_impl; [apply (ok_refs _ Hs)|]. intros r [? ?]. split; [done|]. rewrite fmap_app, elem_of_app. by left.
    + apply Forall_forall. intros r (x&Hr&Hx)%list_elem_of_bind. apply list_elem_of_filter in Hr as [Heq Hr].
      pose proof (proj1 (ok_refs _ Hst)) as Hall. rewrite Forall_forall in Hall. destruct (Hall r Hr) as [? _].
      split; [done|]. rewrite Heq, fmap_app, elem_of_app. right. by apply list_elem_of_fmap_2.
  - intros a Ha. unfold fresh. rewrite merged_refs_of by done.
    destruct (decide (a ∈ ids_of (assertions self))) as [Hin|Hin]; [by apply (ok_refs _ Hs)|].
    rewrite fmap_app, elem_of_app in Ha. destruct Ha as [|(r&->&Hr)%list_elem_of_fmap]; [done|].
    apply new_rows_elem in Hr as [_ Hr]. rewrite decide_True by (by apply list_elem_of_fmap_2).
    apply (ok_refs _ Hst). by apply list_elem_of_fmap_2.
Qed.

(** What a successful merge returns. *)
Lemma assertion_merge_Ok self staged out :
  assertion_ledger_ok self -> assertion_ledger_ok staged ->
  let known := by_id ast_assertion_uuid (assertions self) in
  let fresh := new_rows ast_assertion_uuid known (assertions staged) in
  let rows := assertions self ++ fresh in
  let refs := graph_refs self ++ new_refs (graph_refs staged) fresh in
  assertion_ledger_merge self staged = Ok out <->
  replays ast_assertion_uuid known (assertions staged) /\
  (forall a, a ∈ ids_of (assertions self) -> a ∈ ids_of (assertions staged) ->
    refs_for (graph_refs self) a = refs_for (graph_refs staged) a) /\
  lenZ rows <= MAX_KNOWLEDGE_ROWS /\ lenZ refs <= MAX_KNOWLEDGE_ROWS /\ out = sort_assertion_rows rows refs.
Proof.
  intros Hs Hst known fresh rows refs. unfold assertion_ledger_merge, merge_with_limits. rewrite bind_Ok.
  assert (Hagree : Forall (fun r => is_Some (known !! ast_assertion_uuid r) ->
      refs_for (graph_refs self) (ast_assertion_uuid r) = refs_for (graph_refs staged) (ast_assertion_uuid r))
      (assertions staged) <->
    forall a, a ∈ ids_of (assertions self) -> a ∈ ids_of (assertions staged) ->
      refs_for (graph_refs self) a = refs_for (graph_refs staged) a).
  { rewrite Forall_forall. split.
    - intros H a Ha (r&->&Hr)%list_elem_of_fmap. apply H; [done|].
      destruct (known !! _) eqn:E; [by eexists|]. apply by_id_None in E; [done|apply Hs].
    - intros H r Hr [x Hx]. apply H; [|by apply list_elem_of_fmap_2].
      apply by_id_Some in Hx as [Hx <-]; [by apply list_elem_of_fmap_2|apply Hs]. }
  rewrite <-Hagree. split.
  - intros ([rows' refs']&Hm&Hend). apply merge_assertions_Ok in Hm as (?&?&[= -> ->]); [|apply Hst].
    rewrite !bind_unit_Ok, !check_limit_Ok in Hend. destruct Hend as (?&?&[= <-]). done.
  - intros (?&?&?&?&->). exists (rows, refs). split; [by apply merge_assertions_Ok; [apply Hst|]|].
    by rewrite !bind_unit_Ok, !check_limit_Ok.
Qed.

(** ** Fingerprints *)

Lemma group_refs_lookup (refs : list Ref) a : default [] (group_refs refs !! a) = refs_of a refs.
Proof.
  unfold group_refs.
  assert (H : forall m : gmap U (list Ref),
    default [] (foldl (fun m row => <[ref_assertion_uuid row := default [] (m !! ref_assertion_uuid row) ++ [row]]> m)
      m refs !! a) = default [] (m !! a) ++ refs_of a refs); [|by rewrite H, lookup_empty].
  induction refs as [|r refs IH]; intros m; cbn [foldl]; [by rewrite app_nil_r|]. rewrite IH.
  unfold refs_of. rewrite filter_cons. destruct (decide (ref_assertion_uuid r = a)) as [<-|Hne].
  - rewrite lookup_insert_eq. cbn [default from_option id]. by rewrite <-app_assoc.
  - by rewrite lookup_insert_ne.
Qed.

Definition ref_bytes (row : Ref) : list Z :=
  text_bytes (bytes_of (role_as_str (ref_role row))) ++ to_be 4 (ref_ordinal row) ++
  text_bytes (bytes_of (kind_as_str (ref_graph_kind row))) ++ as_bytes (ref_graph_uuid row).

Definition assertion_bytes (row : Assertion U) (refs : list Ref) : list Z :=
  bytes_of "GFAS" ++ to_be 4 ASSERTION_CONTRACT_VERSION ++ text_bytes (utf8 (ast_claim row)) ++
  to_be 8 (lenZ refs) ++ (refs ≫= ref_bytes).

Lemma short_text (s : string) : lenZ (bytes_of s) <= 7 -> writes (writer_text (bytes_of s)) (text_bytes (bytes_of s)).
Proof. intros H. apply writes_text. unfold MAX_CANONICAL_TEXT_BYTES. lia. Qed.

Lemma role_short r : lenZ (bytes_of (role_as_str r)) <= 7.
Proof. by destruct r. Qed.
Lemma kind_short k : lenZ (bytes_of (kind_as_str k)) <= 7.
Proof. by destruct k. Qed.

Lemma writes_refs refs : writes (refs_writer refs) (refs ≫= ref_bytes).
Proof.
  induction refs as [|r refs IH]; [apply writes_nil|]. rewrite bind_cons. unfold ref_bytes at 1.
  pose proof (short_text _ (role_short (ref_role r))). pose proof (short_text _ (kind_short (ref_graph_kind r))).
  cbn [refs_writer]. rewrite <-!app_assoc. eauto 8 with writes.
Qed.

(** The widths of the fields that enter the digest. *)
Definition typed_content (row : Assertion U) (refs : list Ref) : Prop :=
  Forall is_scalar (ast_claim row) /\ str_len (ast_claim row) <= MAX_CANONICAL_TEXT_BYTES /\
  lenZ refs <= MAX_KNOWLEDGE_ROWS /\ Forall (fun r => 0 <= ref_ordinal r <= u32_max) refs.

Definition ref_content (r : Ref) : AssertionGraphRole * Z * GraphObjectKind * U :=
  (ref_role r, ref_ordinal r, ref_graph_kind r, ref_graph_uuid r).

Lemma role_as_str_inj r1 r2 : role_as_str r1 = role_as_str r2 -> r1 = r2.
Proof. by destruct r1, r2. Qed.
Lemma kind_as_str_inj k1 k2 : kind_as_str k1 = kind_as_str k2 -> k1 = k2.
Proof. by destruct k1, k2. Qed.

Lemma ref_bytes_app_inj r1 r2 k1 k2 :
  0 <= ref_ordinal r1 <= u32_max -> 0 <= ref_ordinal r2 <= u32_max ->
  ref_bytes r1 ++ k1 = ref_bytes r2 ++ k2 -> ref_content r1 = ref_content r2 /\ k1 = k2.
Proof.
  intros H1 H2 H. unfold ref_bytes in H. rewrite <-!app_assoc in H.
  assert (Hmax : 7 <= MAX_CANONICAL_TEXT_BYTES) by done.
  apply text_app_inj in H as [Hr%bytes_of_inj%role_as_str_inj H];
    [|etransitivity; [apply role_short|done]..].
  apply app_inj_length in H as [Ho H]; [|by rewrite !to_be_length].
  apply to_be_inj_unsigned in Ho; [|unfold u32_max in *; cbn; lia..].
  apply text_app_inj in H as [Hk%bytes_of_inj%kind_as_str_inj H];
    [|etransitivity; [apply kind_short|done]..].
  apply as_bytes_app_inj in H as [Hg ->]. split; [|done]. unfold ref_content. congruence.
Qed.

Lemma refs_bytes_inj rs1 rs2 :
  Forall (fun r => 0 <= ref_ordinal r <= u32_max) rs1 -> Forall (fun r => 0 <= ref_ordinal r <= u32_max) rs2 ->
  length rs1 = length rs2 -> (rs1 ≫= ref_bytes) = (rs2 ≫= ref_bytes) -> (ref_content <$> rs1) = (ref_content <$> rs2).
Proof.
  intros H1. revert rs2. induction H1 as [|r1 rs1 Hr1 _ IH]; intros rs2 H2 Hlen Heq.
  - by destruct rs2.
  - destruct H2 as [|r2 rs2 Hr2 H2]; [done|]. rewrite !bind_cons in Heq.
    apply ref_bytes_app_inj in Heq as [Hc Heq]; [|done..]. rewrite !fmap_cons, Hc. f_equal. apply IH; auto.
Qed.

Lemma assertion_bytes_inj a1 rs1 a2 rs2 :
  typed_content a1 rs1 -> typed_content a2 rs2 -> assertion_bytes a1 rs1 = assertion_bytes a2 rs2 ->
  ast_claim a1 = ast_claim a2 /\ (ref_content <$> rs1) = (ref_content <$> rs2).
Proof.
  intros (Hs1&Hl1&Hn1&Ho1) (Hs2&Hl2&Hn2&Ho2) H. unfold assertion_bytes in H.
  apply app_inv_head, app_inv_head in H. apply text_app_inj in H as [Hc H]; [|done..].
  apply utf8_inj in Hc; [|done..]. split; [done|].
  apply app_inj_length in H as [Hlen H]; [|by rewrite !to_be_length]. unfold MAX_KNOWLEDGE_ROWS in *.
  apply to_be_inj_unsigned in Hlen; [|cbn; lia..]. apply refs_bytes_inj; [done|done|lia|done].
Qed.

Lemma ref_bytes_length r : lenZ (ref_bytes r) <= 50.
Proof.
  pose proof (role_short (ref_role r)). pose proof (kind_short (ref_graph_kind r)).
  unfold ref_bytes, text_bytes. rewrite !length_app, !to_be_length, as_bytes_length. lia.
Qed.

Lemma assertion_fingerprint_eq sha256 row refs :
  typed_content row refs ->
  assertion_fingerprint_for_row sha256 row refs = Ok (sha256 (preimage_bytes Domain.Assertion (assertion_bytes row refs))).
Proof.
  intros (_&Hl&Hn&_). unfold assertion_fingerprint_for_row. unfold str_len in Hl.
  assert (Ht : writes (writer_text (utf8 (ast_claim row))) (text_bytes (utf8 (ast_claim row)))) by (by apply writes_text).
  pose proof (writes_refs refs).
  assert (Hw : writes (assertion_writer row refs) (assertion_bytes row refs))
    by (unfold assertion_writer, assertion_bytes; eauto 12 with writes).
  rewrite (write_fingerprint_eq _ _ _ _ Hw); [done|].
  assert (Hr : lenZ (refs ≫= ref_bytes) <= 50 * lenZ refs).
  { clear. induction refs as [|r refs IH]; [done|]. rewrite bind_cons, length_app. cbn [length].
    pose proof (ref_bytes_length r). lia. }
  assert (Hg : lenZ (bytes_of "GFAS") = 4) by done.
  unfold assertion_bytes, text_bytes. rewrite !length_app, !to_be_length.
  unfold MAX_CANONICAL_TEXT_BYTES, MAX_KNOWLEDGE_ROWS in *. lia.
Qed.
End assertions.

(** ** Properties *)

Section properties.
Context {U : Type} `{!UuidCrate U}.
Implicit Types (l self staged out : AssertionLedger U).
Abbreviation ids_of rows := (ast_assertion_uuid <$> rows).

(** (assertions).  A merge that re-validates nothing still returns a ledger the
    constructor accepts unchanged.  Its assertions are the union of both sides, and every
    assertion keeps exactly the references, in order, that its own ledger gave it. *)
Theorem assertion_merge_reload self staged out :
  assertion_ledger_ok self -> assertion_ledger_ok staged -> assertion_ledger_merge self staged = Ok out ->
  assertion_ledger_new (assertions out) (graph_refs out) = Ok out /\
  merges_to ast_assertion_uuid ast_recorded_at_micros (assertions self) (assertions staged) (assertions out) /\
  (forall a, a ∈ ids_of (assertions self) -> refs_for (graph_refs out) a = refs_for (graph_refs self) a) /\
  (forall a, a ∈ ids_of (assertions staged) -> refs_for (graph_refs out) a = refs_for (graph_refs staged) a).
Proof.
  intros Hs Hst Hm. apply assertion_merge_Ok in Hm as (Hrep&Hagree&Hl1&Hl2&Hout); [|done..].
  set (fresh := new_rows _ _ _) in *. set (rows := assertions self ++ fresh) in *. set (refs := graph_refs self ++ _) in *.
  assert (Hmt : merges_to ast_assertion_uuid ast_recorded_at_micros (assertions self) (assertions staged) (assertions out))
    by (rewrite Hout; apply merged_spec; [apply Hs|apply Hst|done]).
  assert (Hok : assertion_ledger_ok out).
  { rewrite Hout. apply sort_assertion_rows_ok.
    - apply Forall_app. split; [apply Hs|]. apply Forall_forall. intros r [_ Hr]%new_rows_elem.
      pose proof (ok_assertion_rows _ Hst) as Hv. rewrite Forall_forall in Hv. by apply Hv.
    - apply merged_ids; [apply Hs|apply Hst].
    - by apply merged_refs_ok. }
  assert (Hp : forall a, refs_of a (graph_refs out) ≡ₚ refs_of a refs)
    by (intros a; apply refs_of_perm; rewrite Hout; apply sort_by_key_perm).
  assert (Hof : forall a, refs_of a refs = if decide (a ∈ ids_of (assertions self)) then refs_of a (graph_refs self)
      else if decide (a ∈ ids_of (assertions staged)) then refs_of a (graph_refs staged) else [])
    by (intros a; by apply merged_refs_of).
  assert (Hnd : forall a, NoDup (ref_tuple <$> refs_of a (graph_refs out)))
    by (apply NoDup_by_assertion; by apply (proj1 (refs_ok_iff _ _) (ok_refs _ Hok))).
  assert (Hself : forall a, a ∈ ids_of (assertions self) -> refs_for (graph_refs out) a = refs_for (graph_refs self) a).
  { intros a Ha. apply refs_for_perm; [done|]. by rewrite Hp, Hof, decide_True. }
  split; [|split_and!; [apply Hmt..|done|]].
  - apply assertion_new_id; [done|]. rewrite Hout. unfold within. cbn [sort_assertion_rows assertions graph_refs].
    by rewrite (Permutation_length (sort_rows_perm _ _ rows)), (Permutation_length (sort_by_key_perm _ refs)).
  - intros a Ha. destruct (decide (a ∈ ids_of (assertions self))) as [Hin|Hin]; [by rewrite Hself, Hagree|].
    apply refs_for_perm; [done|]. by rewrite Hp, Hof, decide_False, decide_True.
Qed.

(** (assertions).  The one-pass fingerprint table, which groups the references in ledger
    order, and the lookup by identity, which filters and sorts them, give the same digest
    or the same error for every assertion. *)
Theorem assertion_fingerprints_agree (sha256 : list Z -> list Z) l :
  assertion_ledger_ok l ->
  assertion_fingerprints sha256 l =
    fingerprint_table ast_assertion_uuid (fun row => assertion_fingerprint sha256 l (ast_assertion_uuid row))
      (assertions l).
Proof.
  intros Hok. unfold assertion_fingerprints. cbv zeta.
  assert (Hfp : forall row, row ∈ assertions l ->
    assertion_fingerprint_for_row sha256 row (default [] (group_refs (graph_refs l) !! ast_assertion_uuid row)) =
    assertion_fingerprint sha256 l (ast_assertion_uuid row)).
  { intros row Hrow. rewrite group_refs_lookup, <-refs_for_sorted by done.
    pose proof (fingerprint_of_Ok ast_assertion_uuid (fun row => assertion_fingerprint_for_row sha256 row
      (refs_for (graph_refs l) (ast_assertion_uuid row))) (KErr.Dangling "assertion_uuid") (assertions l) row
      (proj2 (ok_assertions _ Hok)) Hrow) as Hf.
    rewrite <-Hf. unfold fingerprint_of, assertion_fingerprint.
    destruct (list_find _ _) as [[i r]|] eqn:Ef; [|done]. apply list_find_Some in Ef as (_&Hid&_). by rewrite Hid. }
  revert Hfp. generalize (assertions l). intros rows. induction rows as [|r rows IH]; intros Hfp; [done|].
  cbn [fingerprint_table]. rewrite Hfp by (by left). rewrite IH; [done|]. intros x Hx. apply Hfp. by right.
Qed.

(** (assertions).  Every assertion has a fingerprint, and two assertions share it only
    when their claims and their ordered references are the same, or their preimages
    collide. *)
Theorem assertion_fingerprint_binding (sha256 : list Z -> list Z) (a1 a2 : Assertion U)
    (rs1 rs2 : list (AssertionGraphRef U)) :
  typed_content a1 rs1 -> typed_content a2 rs2 ->
  exists h1 h2, assertion_fingerprint_for_row sha256 a1 rs1 = Ok h1 /\
    assertion_fingerprint_for_row sha256 a2 rs2 = Ok h2 /\
    (h1 = h2 ->
      (ast_claim a1 = ast_claim a2 /\ (ref_content <$> rs1) = (ref_content <$> rs2)) \/
      collision sha256 (preimage_bytes Domain.Assertion (assertion_bytes a1 rs1))
        (preimage_bytes Domain.Assertion (assertion_bytes a2 rs2))).
Proof.
  intros H1 H2. rewrite !assertion_fingerprint_eq by done. eexists _, _. split; [done|]. split; [done|].
  intros Heq. destruct (decide (preimage_bytes Domain.Assertion (assertion_bytes a1 rs1) =
    preimage_bytes Domain.Assertion (assertion_bytes a2 rs2))) as [Hp|]; [left|by right].
  apply preimage_bytes_inj in Hp as [_ Hb]. by apply assertion_bytes_inj.
Qed.
End properties.

(** ** Witnesses *)

Definition demo_claim : str := [0x65; 0xE9; 0x66].
Definition demo_assertion (id time : Z) : Assertion Uuid128 := mkAssertion (uuid7 id) demo_claim (uuid7 90) time 1.
Definition demo_ref (id graph : Z) (role : AssertionGraphRole) (ordinal : Z) : AssertionGraphRef Uuid128 :=
  mkRef (uuid7 id) (uuid7 graph) Node role ordinal 1.

Definition demo_first : AssertionLedger Uuid128 :=
  mkAssertionLedger [demo_assertion 2 7] [demo_ref 2 60 Subject 0; demo_ref 2 61 Subject 1; demo_ref 2 62 Object 0].
Definition demo_second : AssertionLedger Uuid128 :=
  mkAssertionLedger [demo_assertion 1 5] [demo_ref 1 63 Context_ 0].
Definition demo_union : AssertionLedger Uuid128 :=
  mkAssertionLedger [demo_assertion 1 5; demo_assertion 2 7]
    [demo_ref 1 63 Context_ 0; demo_ref 2 60 Subject 0; demo_ref 2 61 Subject 1; demo_ref 2 62 Object 0].

Lemma demo_assertions_ok l :
  assertion_ledger_new (U := Uuid128) (assertions l) (graph_refs l) = Ok l -> assertion_ledger_ok l.
Proof. by intros (_&?&_)%assertion_new_Ok. Qed.

Lemma assertion_merge_reload_witness :
  assertion_ledger_new (assertions demo_union) (graph_refs demo_union) = Ok demo_union /\
  refs_for (graph_refs demo_union) (uuid7 2) = refs_for (graph_refs demo_first) (uuid7 2).
Proof.
  destruct (assertion_merge_reload demo_first demo_second demo_union) as (Hnew&_&Hself&_);
    [apply demo_assertions_ok; by vm_compute|apply demo_assertions_ok; by vm_compute|by vm_compute|].
  split; [exact Hnew|]. apply Hself. by left.
Defined.

Lemma assertion_fingerprints_agree_witness :
  assertion_fingerprints (take 4) demo_union =
    fingerprint_table ast_assertion_uuid
      (fun row => assertion_fingerprint (take 4) demo_union (ast_assertion_uuid row)) (assertions demo_union).
Proof. apply (assertion_fingerprints_agree (take 4) demo_union). apply demo_assertions_ok. by vm_compute. Defined.

Lemma demo_content_typed : typed_content (demo_assertion 1 5) [demo_ref 1 63 Context_ 0].
Proof.
  unfold typed_content. split; [repeat constructor; unfold is_scalar; lia|]. split; [by vm_compute|].
  split; [by vm_compute|]. repeat constructor; by vm_compute.
Qed.

Lemma assertion_fingerprint_binding_witness :
  exists h1 h2,
    assertion_fingerprint_for_row (take 32) (demo_assertion 1 5) [demo_ref 1 63 Context_ 0] = Ok h1 /\
    assertion_fingerprint_for_row (take 32) (demo_assertion 1 5) [demo_ref 1 63 Context_ 0] = Ok h2.
Proof.
  destruct (assertion_fingerprint_binding (take 32) (demo_assertion 1 5) (demo_assertion 1 5)
    [demo_ref 1 63 Context_ 0] [demo_ref 1 63 Context_ 0] demo_content_typed demo_content_typed) as (h1&h2&H1&H2&_).
  exists h1, h2. split; [exact H1|exact H2].
Defined.
