(* ===== verification/Membership.v ===== *)
(** * UUID membership: the trait of [crates/graphforge-storage/src/uuid_set.rs] and its
    borrowed implementations.

    A [UuidMembership] is a trait object: a record of the trait's methods.
    [MembershipLaws] is what a pruned read relies on; every implementation discharges
    it, and [UuidFilter] and [UuidRange] are proved against it.  A [[u8; 16]] key is the
    integer that [u128::from_be_bytes] reads from it; the byte order of arrays is the
    order of these integers ([from_be_lex] below). *)

From stdpp Require Import base list gmap sets sorting.
From Stdlib Require Import ZArith Lia.
From S2P Require Import Prelude.

Abbreviation Key := Z.
Definition key_max : Key := 2 ^ 128 - 1.
Definition is_key (k : Key) : Prop := 0 <= k <= key_max.

(** Array comparison of equally long byte arrays is comparison of their integers. *)
Fixpoint lex_lt (a b : list Z) : bool :=
  match a, b with
  | x :: a', y :: b' => (x <? y) || ((x =? y) && lex_lt a' b')
  | [], _ :: _ => true
  | _, [] => false
  end.

Lemma from_be_lex a b :
  Forall is_byte a -> Forall is_byte b -> length a = length b ->
  lex_lt a b = true <-> from_be a < from_be b.
Proof.
  revert b. induction a as [|x a IH]; intros [|y b] Ha Hb Hl; try done.
  apply Forall_cons in Ha as [Hx Ha]. apply Forall_cons in Hb as [Hy Hb]. injection Hl as Hl.
  rewrite !from_be_cons, Hl. cbn [lex_lt].
  pose proof (from_be_bound a Ha) as Ba. pose proof (from_be_bound b Hb) as Bb. rewrite Hl in Ba.
  rewrite orb_true_iff, andb_true_iff, Z.ltb_lt, Z.eqb_eq, (IH b) by done.
  set (p := 256 ^ _) in *. unfold is_byte in *. nia.
Qed.

(** ** Slices: [slice::binary_search_by], [binary_search] and [partition_point] *)

Section slices.
Context {A : Type} (f : A -> comparison).

(** The bisection loop of the standard library, on a non-empty slice. *)
Fixpoint bisect (fuel : nat) (l : list A) (base size : nat) : option nat :=
  match fuel with
  | O => None
  | S fuel =>
      if (1 <? size)%nat then
        let half := (size / 2)%nat in
        let mid := (base + half)%nat in
        x ← l !! mid;
        bisect fuel l (match f x with Gt => base | _ => mid end) (size - half)
      else Some base
  end.

(** [Ok] is the index of a match, [Err] the insertion point. *)
Definition binary_search_by (l : list A) : option (nat + nat) :=
  match l with
  | [] => Some (inr 0%nat)
  | _ =>
      base ← bisect (length l) l 0 (length l);
      x ← l !! base;
      Some (match f x with Eq => inl base | Lt => inr (S base) | Gt => inr base end)
  end.

(** The slice is partitioned: once the comparison says [Gt], it stays [Gt]. *)
Definition partitioned (l : list A) : Prop :=
  forall i j x y, (i <= j)%nat -> l !! i = Some x -> l !! j = Some y -> f x = Gt -> f y = Gt.

Lemma bisect_spec fuel l base size :
  (1 <= size)%nat -> (size <= fuel)%nat -> (base + size <= length l)%nat -> partitioned l ->
  (base = 0%nat \/ exists x, l !! base = Some x /\ f x <> Gt) ->
  (forall i x, (base + size <= i)%nat -> l !! i = Some x -> f x = Gt) ->
  exists b, bisect fuel l base size = Some b /\ (b < length l)%nat /\
    (b = 0%nat \/ exists x, l !! b = Some x /\ f x <> Gt) /\
    (forall i x, (b < i)%nat -> l !! i = Some x -> f x = Gt).
Proof.
  revert base size. induction fuel as [|fuel IH]; intros base size Hs1 Hsf Hb Hp Hbase Hup; [lia|].
  cbn [bisect]. destruct (Nat.ltb_spec 1 size) as [Hsz|Hsz].
  - pose proof (Nat.div_lt size 2 ltac:(lia) ltac:(lia)) as Hh1.
    assert (Hh2 : (1 <= size / 2)%nat) by (apply (Nat.div_le_lower_bound size 2 1); lia).
    pose proof (Nat.Div0.mul_div_le size 2) as Hh3.
    destruct (lookup_lt_is_Some_2 l (base + size / 2)%nat ltac:(lia)) as [x Hx].
    rewrite Hx. cbn [mbind option_bind].
    destruct (decide (f x = Gt)) as [Hg|Hg].
    + rewrite Hg. apply IH; try done; try lia. intros i y Hi Hy.
      eapply (Hp (base + size / 2)%nat i); [lia|done..].
    + assert (Hm : match f x with Gt => base | _ => (base + size / 2)%nat end = (base + size / 2)%nat)
        by (by destruct (f x)).
      rewrite Hm. apply IH; try done; try lia; [right; eauto|].
      intros i y Hi Hy. apply (Hup i y); [lia|done].
  - exists base. split_and!; try done; [lia|]. intros i x Hi Hx. apply (Hup i x); [lia|done].
Qed.

Lemma binary_search_by_spec l :
  partitioned l ->
  exists r, binary_search_by l = Some r /\
    match r with
    | inl b => exists x, l !! b = Some x /\ f x = Eq
    | inr b => (b <= length l)%nat /\
        (forall i x, (b <= i)%nat -> l !! i = Some x -> f x = Gt) /\
        (b = 0%nat \/ exists x, l !! (b - 1)%nat = Some x /\ f x = Lt)
    end.
Proof.
  intros Hp. destruct l as [|x0 l'].
  { exists (inr 0%nat). split; [done|]. split_and!; [simpl; lia|done|by left]. }
  remember (x0 :: l') as l eqn:El.
  assert (binary_search_by l = (base ← bisect (length l) l 0 (length l); x ← l !! base;
    Some (match f x with Eq => inl base | Lt => inr (S base) | Gt => inr base end))) as ->
    by (by rewrite El).
  destruct (bisect_spec (length l) l 0 (length l)) as (b&Hb&Hlt&Hb0&Hup);
    [subst; simpl; lia|lia|lia|done|by left| |].
  { intros i x Hi Hx. apply lookup_lt_Some in Hx. lia. }
  rewrite Hb. cbn [mbind option_bind]. destruct (lookup_lt_is_Some_2 l b Hlt) as [x Hx].
  rewrite Hx. cbn [mbind option_bind]. eexists. split; [done|]. destruct (f x) eqn:Ef.
  - eauto.
  - split_and!; [lia| |].
    + intros i y Hi Hy. apply (Hup i y); [lia|done].
    + right. exists x. replace (S b - 1)%nat with b by lia. done.
  - split_and!; [lia| |].
    + intros i y Hi Hy. destruct (decide (i = b)) as [->|]; [congruence|]. apply (Hup i y); [lia|done].
    + left. destruct Hb0 as [?|(y&Hy&Hn)]; [done|]. congruence.
Qed.
End slices.

(** [l.binary_search(&k).is_ok()] and [l.partition_point(p)] *)
Definition binary_search_is_ok (l : list Key) (k : Key) : bool :=
  match binary_search_by (fun x => x ?= k) l with Some (inl _) => true | _ => false end.

Definition partition_point {A} (p : A -> bool) (l : list A) : nat :=
  match binary_search_by (fun x => if p x then Lt else Gt) l with
  | Some (inl i) | Some (inr i) => i
  | None => 0%nat
  end.

(** Where [p] holds on a prefix, the partition point is the length of that prefix. *)
Lemma partition_point_spec {A} (p : A -> bool) (l : list A) :
  (forall i j x y, (i <= j)%nat -> l !! i = Some x -> l !! j = Some y -> p y = true -> p x = true) ->
  (partition_point p l <= length l)%nat /\ forall i x, l !! i = Some x -> p x = true <-> (i < partition_point p l)%nat.
Proof.
  intros Hmono. unfold partition_point.
  assert (Hp : partitioned (fun x => if p x then Lt else Gt) l).
  { intros i j x y Hij Hi Hj Hgt. specialize (Hmono i j x y Hij Hi Hj).
    destruct (p y); [|done]. by rewrite Hmono in Hgt. }
  destruct (binary_search_by_spec _ _ Hp) as (r&->&Hr). destruct r as [b|b].
  { destruct Hr as (x&_&Heq). by destruct (p x). }
  destruct Hr as (Hlen&Hup&Hlo). split; [done|]. intros i x Hi. split; intros H.
  - destruct (decide (i < b)%nat) as [|Hge]; [done|]. specialize (Hup i x ltac:(lia) Hi). by rewrite H in Hup.
  - destruct Hlo as [->|(y&Hy&Hlt)]; [lia|]. apply (Hmono i (b - 1)%nat x y); [lia|done..|].
    by destruct (p y).
Qed.

(** [iter().take_while(p)] *)
Fixpoint take_while {A} (p : A -> bool) (l : list A) : list A :=
  match l with
  | [] => []
  | x :: l' => if p x then x :: take_while p l' else []
  end.

(** A strictly ascending run. *)
Abbreviation ascending := (StronglySorted Z.lt).

Lemma ascending_lookup l i j x y :
  ascending l -> l !! i = Some x -> l !! j = Some y -> (i < j)%nat <-> x < y.
Proof.
  intros Hs Hi Hj. split.
  - intros Hij. by eapply (StronglySorted_lookup Z.lt l i j).
  - intros Hxy. destruct (decide (i < j)%nat) as [|Hn]; [done|]. exfalso.
    destruct (decide (i = j)) as [->|]; [assert (x = y) by congruence; lia|].
    assert (y < x) by (eapply (StronglySorted_lookup Z.lt l j i); [done|lia|done..]). lia.
Qed.

Lemma binary_search_is_ok_iff l k : ascending l -> binary_search_is_ok l k = true <-> k ∈ l.
Proof.
  intros Hs. unfold binary_search_is_ok.
  assert (Hp : partitioned (fun x => x ?= k) l).
  { intros i j x y Hij Hi Hj Hgt. destruct (decide (i = j)) as [->|]; [congruence|].
    assert (x < y) by (eapply ascending_lookup; [done|exact Hi|exact Hj|lia]).
    apply Z.compare_gt_iff in Hgt. apply Z.compare_gt_iff. lia. }
  destruct (binary_search_by_spec _ _ Hp) as (r&->&Hr). destruct r as [b|b].
  - destruct Hr as (x&Hx&Heq). apply Z.compare_eq_iff in Heq as ->. split; [|done].
    intros _. by eapply list_elem_of_lookup_2.
  - split; [done|]. intros (j&Hj)%list_elem_of_lookup. exfalso.
    destruct Hr as (Hlen&Hup&Hlo). destruct (decide (b <= j)%nat) as [Hbj|Hbj].
    + specialize (Hup j k Hbj Hj). rewrite Z.compare_refl in Hup. done.
    + destruct Hlo as [->|(x&Hx&Hlt)]; [lia|]. apply Z.compare_lt_iff in Hlt.
      apply (ascending_lookup l _ _ _ _ Hs Hx Hj) in Hlt. lia.
Qed.

(** The partition point of [< min] splits an ascending run at [min]. *)
Lemma partition_point_lt l min x :
  ascending l -> x ∈ drop (partition_point (fun k => k <? min) l) l <-> x ∈ l /\ min <= x.
Proof.
  intros Hs. unfold partition_point.
  assert (Hp : partitioned (fun x => if x <? min then Lt else Gt) l).
  { intros i j a b Hij Hi Hj Hgt. destruct (decide (i = j)) as [->|]; [assert (a = b) as <- by congruence; done|].
    assert (a < b) by (eapply ascending_lookup; [done|exact Hi|exact Hj|lia]).
    destruct (Z.ltb_spec a min); [done|]. destruct (Z.ltb_spec b min); [lia|done]. }
  destruct (binary_search_by_spec _ _ Hp) as (r&->&Hr). destruct r as [b|b].
  - destruct Hr as (a&_&Heq). by destruct (a <? min).
  - destruct Hr as (Hlen&Hup&Hlo). split.
    + intros (i&Hi)%list_elem_of_lookup. rewrite lookup_drop in Hi.
      split; [by eapply list_elem_of_lookup_2|]. specialize (Hup (b + i)%nat x ltac:(lia) Hi).
      destruct (Z.ltb_spec x min); [done|lia].
    + intros [(i&Hi)%list_elem_of_lookup Hmin]. apply list_elem_of_lookup. exists (i - b)%nat.
      rewrite lookup_drop. replace (b + (i - b))%nat with i; [done|].
      destruct Hlo as [->|(y&Hy&Hlt)]; [lia|]. destruct (Z.ltb_spec y min); [|done].
      assert (Hyx : y < x) by lia. apply (ascending_lookup l _ _ _ _ Hs Hy Hi) in Hyx. lia.
Qed.

Lemma ascending_drop l n : ascending l -> ascending (drop n l).
Proof.
  revert n. induction l as [|x l IH]; intros [|n] Hs; simpl; try done.
  apply IH. by inversion Hs.
Qed.

Lemma take_while_le l max x :
  ascending l -> x ∈ take_while (fun k => k <=? max) l <-> x ∈ l /\ x <= max.
Proof.
  intros Hs. induction Hs as [|y l Hs IH Hall]; simpl.
  - split; [by intros ?%not_elem_of_nil|by intros [?%not_elem_of_nil _]].
  - rewrite Forall_forall in Hall. destruct (Z.leb_spec y max).
    + rewrite !elem_of_cons, IH. naive_solver lia.
    + split; [by intros ?%not_elem_of_nil|]. intros [[->|Hx]%elem_of_cons Hle]; [lia|].
      specialize (Hall x Hx). lia.
Qed.

(** [l[partition_point(< min)..].iter().take_while(<= max).any(p)] *)
Definition range_any (l : list Key) (min max : Key) (p : Key -> bool) : bool :=
  existsb p (take_while (fun k => k <=? max) (drop (partition_point (fun k => k <? min) l) l)).

Lemma existsb_elem {A} (p : A -> bool) l : existsb p l = true <-> exists x, x ∈ l /\ p x = true.
Proof. rewrite existsb_exists. by setoid_rewrite <-list_elem_of_In. Qed.

Lemma range_any_iff l min max p :
  ascending l ->
  range_any l min max p = true <-> exists k, k ∈ l /\ min <= k <= max /\ p k = true.
Proof.
  intros Hs. unfold range_any. rewrite existsb_elem.
  setoid_rewrite take_while_le; [|by apply ascending_drop].
  setoid_rewrite (partition_point_lt l min); [|done]. naive_solver lia.
Qed.

(** ** The trait *)

(** A range probe returns [None] where the code panics. *)
Record UuidMembership := mkMembership {
  m_len : Z;
  contains_uuid : Key -> bool;
  m_is_empty : bool;
  min_uuid : option Key;
  max_uuid : option Key;
  may_contain_in_range : Key -> Key -> option bool;
  any_match_in_range : Key -> Key -> (Key -> bool) -> option bool;
  contains_every_in_range : Key -> Key -> bool;
}.

(** The trait's provided method bodies. *)
Definition default_may_contain_in_range (any_match : Key -> Key -> (Key -> bool) -> option bool)
    (min max : Key) : option bool := any_match min max (fun _ => true).
Definition default_contains_every_in_range (_min _max : Key) : bool := false.

(** What a pruned read relies on: membership is exact, and every probe that says a range
    holds no wanted key is right. *)
Class MembershipLaws (S : Key -> Prop) (m : UuidMembership) : Prop := {
  law_key k : S k -> is_key k;
  law_contains k : is_key k -> contains_uuid m k = true <-> S k;
  law_empty : m_is_empty m = true -> forall k, ~ S k;
  law_min b k : min_uuid m = Some b -> S k -> b <= k;
  law_max b k : max_uuid m = Some b -> S k -> k <= b;
  law_may min max : min <= max -> exists b, may_contain_in_range m min max = Some b /\
    forall k, S k -> min <= k <= max -> b = true;
  law_any min max p : min <= max -> exists b, any_match_in_range m min max p = Some b /\
    forall k, S k -> min <= k <= max -> p k = true -> b = true;
  law_every min max k : contains_every_in_range m min max = true -> is_key k ->
    min <= k <= max -> S k;
}.

(** The laws depend on the set of keys only. *)
Lemma membership_laws_mono S S' m :
  (forall k, S k <-> S' k) -> MembershipLaws S m -> MembershipLaws S' m.
Proof.
  intros Heq L. constructor.
  - intros k Hk. apply (law_key (m := m)). by apply Heq.
  - intros k Hk. rewrite <-Heq. by apply (law_contains (m := m)).
  - intros He k Hk%Heq. by eapply (law_empty (m := m)).
  - intros b k Hb Hk%Heq. by eapply (law_min (m := m)).
  - intros b k Hb Hk%Heq. by eapply (law_max (m := m)).
  - intros lo hi Hle. destruct (law_may (m := m) lo hi Hle) as (b&?&Hs). exists b. split; [done|].
    intros k Hk%Heq. by apply Hs.
  - intros lo hi p Hle. destruct (law_any (m := m) lo hi p Hle) as (b&?&Hs). exists b. split; [done|].
    intros k Hk%Heq. by apply Hs.
  - intros lo hi k He Hk Hr. apply Heq. by eapply (law_every (m := m)).
Qed.

#[global] Instance membership_laws_proper :
  Proper (pointwise_relation _ iff ==> eq ==> iff) MembershipLaws.
Proof.
  intros S S' Heq m ? <-. split; apply membership_laws_mono; intros k; [apply Heq|symmetry; apply Heq].
Qed.

(** Memberships whose range probes never report a match that is not there. *)
Class ExactProbes (S : Key -> Prop) (m : UuidMembership) : Prop := {
  exact_any min max p : min <= max -> any_match_in_range m min max p = Some true ->
    exists k, S k /\ min <= k <= max /\ p k = true;
}.

(** ** [BTreeSet<[u8; 16]>], as the ascending sequence of its elements *)

Module BTree.
(** [self.range(min..=max)] panics when the bounds are reversed. *)
Definition range (s : list Key) (min max : Key) : option (list Key) :=
  if max <? min then None else Some (filter (fun k => min <= k <= max) s).

Definition range_any (s : list Key) (min max : Key) (p : Key -> bool) : option bool :=
  (fun r => existsb p r) <$> range s min max.

Definition contains (s : list Key) (k : Key) : bool := bool_decide (k ∈ s).

Definition membership (s : list Key) : UuidMembership := {|
  m_len := lenZ s;
  contains_uuid := contains s;
  m_is_empty := bool_decide (s = []);
  min_uuid := head s;
  max_uuid := last s;
  may_contain_in_range := default_may_contain_in_range (range_any s);
  any_match_in_range := range_any s;
  contains_every_in_range := default_contains_every_in_range;
|}.

Lemma btree_range_any_iff s min max p :
  min <= max -> exists b, range_any s min max p = Some b /\
    (b = true <-> exists k, k ∈ s /\ min <= k <= max /\ p k = true).
Proof.
  intros Hle. unfold range_any, range. destruct (Z.ltb_spec max min); [lia|].
  cbn [fmap option_fmap option_map]. eexists. split; [done|]. rewrite existsb_elem.
  setoid_rewrite list_elem_of_filter. naive_solver.
Qed.

Lemma ascending_head s b k : ascending s -> head s = Some b -> k ∈ s -> b <= k.
Proof.
  intros Hs Hb Hk. destruct s as [|x s]; [done|]. injection Hb as ->.
  apply elem_of_cons in Hk as [->|Hk]; [lia|]. inversion Hs as [|? ? ? Hall]; subst.
  rewrite Forall_forall in Hall. specialize (Hall k Hk). lia.
Qed.

Lemma ascending_last s b k : ascending s -> last s = Some b -> k ∈ s -> k <= b.
Proof.
  intros Hs Hb (i&Hi)%list_elem_of_lookup. rewrite last_lookup in Hb.
  pose proof (lookup_lt_Some _ _ _ Hi) as Hlt.
  destruct (decide (i = pred (length s))) as [->|Hn]; [assert (k = b) by congruence; lia|].
  assert (k < b) by (eapply (ascending_lookup s i (pred (length s))); [done..|lia]). lia.
Qed.

(** The keys of a well-formed run. *)
Definition run_ok (s : list Key) : Prop := ascending s /\ Forall is_key s.

Lemma btree_laws s : run_ok s -> MembershipLaws (fun k => k ∈ s) (membership s).
Proof.
  intros [Hs Hk]. rewrite Forall_forall in Hk. constructor; cbn [membership contains_uuid m_is_empty
    min_uuid max_uuid may_contain_in_range any_match_in_range contains_every_in_range].
  - auto.
  - intros k _. unfold contains. by rewrite bool_decide_eq_true.
  - rewrite bool_decide_eq_true. intros -> k. apply not_elem_of_nil.
  - intros b k. by apply ascending_head.
  - intros b k. by apply ascending_last.
  - intros min max Hle. destruct (btree_range_any_iff s min max (fun _ => true) Hle) as (b&Hb&Hiff).
    exists b. split; [exact Hb|]. intros k ? ?. apply Hiff. eauto.
  - intros min max p Hle. destruct (btree_range_any_iff s min max p Hle) as (b&Hb&Hiff).
    exists b. split; [exact Hb|]. intros k ? ? ?. apply Hiff. eauto.
  - done.
Qed.

Lemma btree_exact s : ExactProbes (fun k => k ∈ s) (membership s).
Proof.
  constructor. cbn [membership any_match_in_range]. intros min max p Hle H.
  destruct (btree_range_any_iff s min max p Hle) as (b&Hb&Hiff). rewrite Hb in H.
  injection H as ->. by apply Hiff.
Qed.
End BTree.

(** ** [SortedUuids]: a borrowed ascending slice *)

Module Sorted.
(** [self.0.windows(2).all(|pair| pair[0] < pair[1])] *)
Fixpoint is_strictly_ascending (s : list Key) : bool :=
  match s with
  | x :: ((y :: _) as s') => (x <? y) && is_strictly_ascending s'
  | _ => true
  end.

Definition any_match (s : list Key) (min max : Key) (p : Key -> bool) : option bool :=
  Some (range_any s min max p).

Definition membership (s : list Key) : UuidMembership := {|
  m_len := lenZ s;
  contains_uuid := binary_search_is_ok s;
  m_is_empty := bool_decide (s = []);
  min_uuid := head s;
  max_uuid := last s;
  may_contain_in_range := default_may_contain_in_range (any_match s);
  any_match_in_range := any_match s;
  contains_every_in_range := default_contains_every_in_range;
|}.

Lemma is_strictly_ascending_iff s : is_strictly_ascending s = true <-> ascending s.
Proof.
  induction s as [|x [|y s] IH]; [split; [constructor|done]|split; [repeat constructor|done]|].
  change (is_strictly_ascending (x :: y :: s)) with ((x <? y) && is_strictly_ascending (y :: s)).
  rewrite andb_true_iff, Z.ltb_lt, IH. clear IH. split.
  - intros [Hxy Hs]. constructor; [done|]. inversion Hs as [|? ? ? Hall]; subst.
    constructor; [done|]. eapply Forall_impl; [exact Hall|]. simpl; lia.
  - intros Hs. inversion Hs as [|? ? Hs' Hall]; subst. apply Forall_cons_1 in Hall as [? _]. done.
Qed.

Lemma sorted_laws s : BTree.run_ok s -> MembershipLaws (fun k => k ∈ s) (membership s).
Proof.
  intros [Hs Hk]. rewrite Forall_forall in Hk. constructor; cbn [membership contains_uuid m_is_empty
    min_uuid max_uuid may_contain_in_range any_match_in_range contains_every_in_range].
  - auto.
  - intros k _. by apply binary_search_is_ok_iff.
  - rewrite bool_decide_eq_true. intros -> k. apply not_elem_of_nil.
  - intros b k. by apply BTree.ascending_head.
  - intros b k. by apply BTree.ascending_last.
  - intros min max _. eexists. split; [done|]. intros k ? ?. apply range_any_iff; eauto.
  - intros min max p _. eexists. split; [done|]. intros k ? ? ?. apply range_any_iff; eauto.
  - done.
Qed.

Lemma sorted_exact s : ascending s -> ExactProbes (fun k => k ∈ s) (membership s).
Proof.
  intros Hs. constructor. cbn [membership any_match_in_range]. intros min max p _ [= H].
  by apply range_any_iff in H.
Qed.
End Sorted.

(** ** [UuidFilter]: an intersection of nominations and candidates *)

(** [Iterator::min] and [Iterator::max] on keys, [min_by_key(|set| set.len())] on sets:
    the first of the smallest. *)
Definition list_min (l : list Z) : option Z :=
  match l with [] => None | x :: l' => Some (foldl Z.min x l') end.
Definition list_max (l : list Z) : option Z :=
  match l with [] => None | x :: l' => Some (foldl Z.max x l') end.
Definition min_by_len (l : list UuidMembership) : option UuidMembership :=
  match l with
  | [] => None
  | x :: l' => Some (foldl (fun best y => if m_len y <? m_len best then y else best) x l')
  end.

Lemma foldl_min_le l x : foldl Z.min x l <= x /\ forall y, y ∈ l -> foldl Z.min x l <= y.
Proof.
  revert x. induction l as [|z l IH]; intros x; simpl.
  - split; [lia|]. by intros y ?%not_elem_of_nil.
  - destruct (IH (Z.min x z)) as [H1 H2]. split; [lia|]. intros y [->|Hy]%elem_of_cons; [lia|auto].
Qed.

Lemma foldl_min_elem l x : foldl Z.min x l = x \/ foldl Z.min x l ∈ l.
Proof.
  revert x. induction l as [|z l IH]; intros x; simpl; [by left|].
  rewrite elem_of_cons. destruct (IH (Z.min x z)) as [H|H]; [|tauto].
  rewrite H. destruct (Z.min_spec x z) as [[_ ->]|[_ ->]]; tauto.
Qed.

Lemma foldl_max_elem l x : foldl Z.max x l = x \/ foldl Z.max x l ∈ l.
Proof.
  revert x. induction l as [|z l IH]; intros x; simpl; [by left|].
  rewrite elem_of_cons. destruct (IH (Z.max x z)) as [H|H]; [|tauto].
  rewrite H. destruct (Z.max_spec x z) as [[_ ->]|[_ ->]]; tauto.
Qed.

Lemma list_min_elem l b : list_min l = Some b -> b ∈ l.
Proof. destruct l as [|x l]; [done|]. intros [= <-]. rewrite elem_of_cons. apply foldl_min_elem. Qed.
Lemma list_max_elem l b : list_max l = Some b -> b ∈ l.
Proof. destruct l as [|x l]; [done|]. intros [= <-]. rewrite elem_of_cons. apply foldl_max_elem. Qed.

Lemma min_by_len_elem l m : min_by_len l = Some m -> m ∈ l.
Proof.
  destruct l as [|x l]; [done|]. intros [= <-]. revert x. induction l as [|y l IH]; intros x; simpl; [by left|].
  destruct (m_len y <? m_len x).
  - specialize (IH y). rewrite !elem_of_cons in *. tauto.
  - specialize (IH x). rewrite !elem_of_cons in *. tauto.
Qed.

Module Filter.
Record UuidFilter := mkFilter {
  nominations : list UuidMembership;
  candidates : option (list Key);
}.

Definition contains (f : UuidFilter) (k : Key) : bool :=
  forallb (fun set => contains_uuid set k) (nominations f) &&
  from_option (fun c => BTree.contains c k) true (candidates f).

Definition is_empty (f : UuidFilter) : bool :=
  existsb m_is_empty (nominations f) ||
  from_option (fun c => bool_decide (c = [])) false (candidates f).

Definition len (f : UuidFilter) : Z :=
  default 0 (match list_min (m_len <$> nominations f) with
             | Some n => Some n
             | None => (fun c => lenZ c) <$> candidates f
             end).

Definition min (f : UuidFilter) : option Key :=
  let lower := list_max (omap min_uuid (nominations f)) in
  list_max (option_list (candidates f ≫= head) ++ option_list lower).

Definition max (f : UuidFilter) : option Key :=
  let upper := list_min (omap max_uuid (nominations f)) in
  list_min (option_list (candidates f ≫= last) ++ option_list upper).

Definition any_match (f : UuidFilter) (min max : Key) (p : Key -> bool) : option bool :=
  match min_by_len (nominations f), candidates f with
  | Some nomination, Some candidates =>
      if lenZ candidates <? m_len nomination
      then BTree.range_any candidates min max (fun k => contains f k && p k)
      else any_match_in_range nomination min max (fun k => contains f k && p k)
  | Some nomination, None =>
      any_match_in_range nomination min max (fun k => contains f k && p k)
  | None, Some candidates => BTree.range_any candidates min max p
  | None, None => Some false
  end.

Definition membership (f : UuidFilter) : UuidMembership := {|
  m_len := len f;
  contains_uuid := contains f;
  m_is_empty := is_empty f;
  min_uuid := min f;
  max_uuid := max f;
  may_contain_in_range := fun lo hi => any_match f lo hi (fun _ => true);
  any_match_in_range := any_match f;
  contains_every_in_range := default_contains_every_in_range;
|}.

(** The keys of the intersection. *)
Definition member (Ss : list (Key -> Prop)) (f : UuidFilter) (k : Key) : Prop :=
  is_key k /\ Forall (fun S => S k) Ss /\ from_option (fun c => k ∈ c) True (candidates f).

(** Every nomination keeps its laws, the candidates are a set, and there is something to
    intersect: the caller builds no filter otherwise. *)
Record filter_ok (Ss : list (Key -> Prop)) (f : UuidFilter) : Prop := {
  ok_nominations : Forall2 MembershipLaws Ss (nominations f);
  ok_candidates : from_option BTree.run_ok True (candidates f);
  ok_bounded : nominations f <> [] \/ candidates f <> None;
}.

Section laws.
Context (Ss : list (Key -> Prop)) (f : UuidFilter) (Hok : filter_ok Ss f).

Lemma nomination_laws m : m ∈ nominations f ->
  exists S, MembershipLaws S m /\ forall k, member Ss f k -> S k.
Proof.
  intros (i&Hi)%list_elem_of_lookup. destruct Hok as [Hnom _ _].
  destruct (Forall2_lookup_r _ _ _ _ _ Hnom Hi) as (S&HS&Hm). exists S. split; [done|].
  intros k (_&Hall&_). rewrite Forall_lookup in Hall. exact (Hall i S HS).
Qed.

Lemma contains_iff k : is_key k -> contains f k = true <-> member Ss f k.
Proof.
  intros Hk. unfold contains, member. rewrite andb_true_iff, forallb_forall.
  destruct Hok as [Hnom _ _]. split.
  - intros [Hall Hc]. split_and!; [done| |].
    + rewrite Forall_lookup. intros i S HS.
      destruct (Forall2_lookup_l _ _ _ _ _ Hnom HS) as (m&Hm&HL).
      apply (law_contains (m := m)); [done|]. apply Hall, list_elem_of_In. by eapply list_elem_of_lookup_2.
    + destruct (candidates f); [|done]. by apply bool_decide_eq_true in Hc.
  - intros (_&Hall&Hc). split.
    + intros m (i&Hm)%list_elem_of_In%list_elem_of_lookup.
      destruct (Forall2_lookup_r _ _ _ _ _ Hnom Hm) as (S&HS&HL).
      apply (law_contains (m := m)); [done|]. rewrite Forall_lookup in Hall. exact (Hall i S HS).
    + destruct (candidates f); [|done]. by apply bool_decide_eq_true.
Qed.

Lemma bounds_elem sel (l : option Key) b :
  b ∈ option_list (candidates f ≫= sel) ++ option_list l ->
  (exists c, candidates f = Some c /\ sel c = Some b) \/ l = Some b.
Proof.
  rewrite elem_of_app. intros [H|H].
  - left. destruct (candidates f) as [c|]; simpl in H; [|by apply not_elem_of_nil in H].
    destruct (sel c) eqn:E; simpl in H; [|by apply not_elem_of_nil in H].
    apply list_elem_of_singleton in H as ->. eauto.
  - right. destruct l; simpl in H; [|by apply not_elem_of_nil in H].
    by apply list_elem_of_singleton in H as ->.
Qed.

Lemma min_sound b k : min f = Some b -> member Ss f k -> b <= k.
Proof.
  intros Hb%list_max_elem%bounds_elem Hk. destruct Hb as [(c&Hc&Hh)|Hl].
  - destruct Hok as [_ Hcand _]. rewrite Hc in Hcand. destruct Hcand as [Hs _].
    eapply BTree.ascending_head; [done..|]. destruct Hk as (_&_&Hk). by rewrite Hc in Hk.
  - apply list_max_elem, list_elem_of_omap in Hl as (m&Hm&Hmin).
    destruct (nomination_laws m Hm) as (S&HL&HS). eapply (law_min (m := m)); eauto.
Qed.

Lemma max_sound b k : max f = Some b -> member Ss f k -> k <= b.
Proof.
  intros Hb%list_min_elem%bounds_elem Hk. destruct Hb as [(c&Hc&Hh)|Hl].
  - destruct Hok as [_ Hcand _]. rewrite Hc in Hcand. destruct Hcand as [Hs _].
    eapply BTree.ascending_last; [done..|]. destruct Hk as (_&_&Hk). by rewrite Hc in Hk.
  - apply list_min_elem, list_elem_of_omap in Hl as (m&Hm&Hmax).
    destruct (nomination_laws m Hm) as (S&HL&HS). eapply (law_max (m := m)); eauto.
Qed.

Lemma is_empty_sound : is_empty f = true -> forall k, ~ member Ss f k.
Proof.
  unfold is_empty. rewrite orb_true_iff, existsb_elem. intros [(m&Hm&He)|He] k Hk.
  - destruct (nomination_laws m Hm) as (S&HL&HS). eapply (law_empty (m := m)); eauto.
  - destruct Hk as (_&_&Hk). destruct (candidates f) as [c|]; [|done].
    apply bool_decide_eq_true in He as ->. by apply not_elem_of_nil in Hk.
Qed.

(** The probe that any branch of [any_match] delegates to. *)
Lemma both_iff k p : is_key k ->
  contains f k && p k = true <-> member Ss f k /\ p k = true.
Proof. intros Hk. by rewrite andb_true_iff, contains_iff. Qed.

Lemma nominations_nil : min_by_len (nominations f) = None -> Ss = [].
Proof.
  destruct Hok as [Hnom _ _]. destruct (nominations f); [|done]. by apply Forall2_nil_inv_r in Hnom.
Qed.

Lemma candidate_key c k : candidates f = Some c -> k ∈ c -> is_key k.
Proof.
  intros Hc Hk. destruct Hok as [_ Hcand _]. rewrite Hc in Hcand. destruct Hcand as [_ Hall].
  rewrite Forall_forall in Hall. auto.
Qed.

Lemma any_match_candidates c lo hi p :
  candidates f = Some c -> lo <= hi ->
  exists b, BTree.range_any c lo hi (fun k => contains f k && p k) = Some b /\
    (b = true <-> exists k, member Ss f k /\ lo <= k <= hi /\ p k = true).
Proof.
  intros Hc Hle. destruct (BTree.btree_range_any_iff c lo hi (fun k => contains f k && p k) Hle)
    as (b&Hb&Hiff). exists b. split; [done|]. rewrite Hiff. split.
  - intros (k&Hk&Hr&Hp%both_iff); [|by eapply candidate_key]. naive_solver.
  - intros (k&Hm&Hr&Hp). pose proof Hm as (Hkey&_&Hkc). rewrite Hc in Hkc. exists k.
    split_and!; try lia; [done|]. by apply both_iff.
Qed.

Lemma any_match_nomination m lo hi p :
  m ∈ nominations f -> lo <= hi ->
  exists b, any_match_in_range m lo hi (fun k => contains f k && p k) = Some b /\
    forall k, member Ss f k -> lo <= k <= hi -> p k = true -> b = true.
Proof.
  intros Hm Hle. destruct (nomination_laws m Hm) as (S&HL&HS).
  destruct (law_any (m := m) lo hi (fun k => contains f k && p k) Hle) as (b&Hb&Hany).
  exists b. split; [done|]. intros k Hk Hr Hp. apply (Hany k); [auto|done|].
  apply both_iff; [by destruct Hk|done].
Qed.

Lemma any_match_sound lo hi p : lo <= hi -> exists b, any_match f lo hi p = Some b /\
  forall k, member Ss f k -> lo <= k <= hi -> p k = true -> b = true.
Proof.
  intros Hle. unfold any_match.
  destruct (min_by_len (nominations f)) as [m|] eqn:Em; [apply min_by_len_elem in Em as Hm|];
    destruct (candidates f) as [c|] eqn:Ec.
  - destruct (lenZ c <? m_len m); [|by apply any_match_nomination].
    destruct (any_match_candidates c lo hi p Ec Hle) as (b&Hb&Hiff). exists b. split; [done|].
    intros k ? ? ?. apply Hiff. eauto.
  - by apply any_match_nomination.
  - destruct (BTree.btree_range_any_iff c lo hi p Hle) as (b&Hb&Hiff). exists b. split; [done|].
    intros k (_&_&Hk) ? ?. rewrite Ec in Hk. apply Hiff. eauto.
  - destruct Hok as [_ _ [Hn|Hn]]; [|done]. by destruct (nominations f).
Qed.

Lemma any_match_exact lo hi p :
  Forall2 ExactProbes Ss (nominations f) -> lo <= hi -> any_match f lo hi p = Some true ->
  exists k, member Ss f k /\ lo <= k <= hi /\ p k = true.
Proof.
  intros Hex Hle. unfold any_match.
  assert (Hnom : forall m, m ∈ nominations f ->
    any_match_in_range m lo hi (fun k => contains f k && p k) = Some true ->
    exists k, member Ss f k /\ lo <= k <= hi /\ p k = true).
  { intros m (i&Hi)%list_elem_of_lookup Hany.
    destruct (Forall2_lookup_r _ _ _ _ _ Hex Hi) as (S&HS&Hm).
    destruct Hok as [HL _ _]. destruct (Forall2_lookup_r _ _ _ _ _ HL Hi) as (S'&HS'&Hl).
    assert (S' = S) as -> by congruence.
    destruct (exact_any (m := m) _ _ _ Hle Hany) as (k&Hk&Hr&Hp).
    apply both_iff in Hp; [naive_solver|]. by eapply (law_key (m := m)). }
  destruct (min_by_len (nominations f)) as [m|] eqn:Em; [apply min_by_len_elem in Em as Hm|];
    destruct (candidates f) as [c|] eqn:Ec; [|by apply Hnom| |done].
  - destruct (lenZ c <? m_len m); [|by apply Hnom].
    destruct (any_match_candidates c lo hi p Ec Hle) as (b&Hb&Hiff). rewrite Hb. intros [= ->].
    by apply Hiff.
  - destruct (BTree.btree_range_any_iff c lo hi p Hle) as (b&Hb&Hiff). rewrite Hb. intros [= ->].
    destruct (proj1 Hiff eq_refl) as (k&Hk&Hr&Hp). exists k. split_and!; try done; try lia.
    split_and!; [by eapply candidate_key|rewrite (nominations_nil Em); constructor|by rewrite Ec].
Qed.

Lemma filter_laws : MembershipLaws (member Ss f) (membership f).
Proof.
  constructor; cbn [membership contains_uuid m_is_empty min_uuid max_uuid may_contain_in_range
    any_match_in_range contains_every_in_range].
  - by intros k [? _].
  - apply contains_iff.
  - by apply is_empty_sound.
  - intros b k. by apply min_sound.
  - intros b k. by apply max_sound.
  - intros lo hi Hle. destruct (any_match_sound lo hi (fun _ => true) Hle) as (b&?&?). exists b. naive_solver.
  - apply any_match_sound.
  - done.
Qed.
End laws.
End Filter.

(** ** [UuidRange]: a half-open interval, optionally of another membership *)

Module Range.
Record UuidRange := mkRange {
  low : Key;
  high : option Key;
  inner : option UuidMembership;
}.

(** [u128::from_be_bytes(high).checked_sub(1)], kept when it is inside the interval. *)
Definition top (r : UuidRange) : option Key :=
  match high r with
  | None => Some key_max
  | Some high =>
      if high =? 0 then None
      else let top := high - 1 in if low r <=? top then Some top else None
  end.

(** [min..=max] clipped to the interval. *)
Definition clip (r : UuidRange) (min max : Key) : option (Key * Key) :=
  top ← top r;
  let low := Z.max min (low r) in
  let high := Z.min max top in
  if low <=? high then Some (low, high) else None.

Definition bounds (r : UuidRange) : option (Key * Key) :=
  top ← top r;
  match inner r with
  | None => Some (low r, top)
  | Some inner => min ← min_uuid inner; max ← max_uuid inner; clip r min max
  end.

Definition in_interval (r : UuidRange) (k : Key) : bool :=
  (low r <=? k) && from_option (fun high => k <? high) true (high r).

Definition may_contain (r : UuidRange) (min max : Key) : option bool :=
  match clip r min max with
  | None => Some false
  | Some (low, high) =>
      match inner r with None => Some true | Some inner => may_contain_in_range inner low high end
  end.

Definition any_match (r : UuidRange) (min max : Key) (p : Key -> bool) : option bool :=
  match clip r min max with
  | None => Some false
  | Some (low, high) =>
      match inner r with None => Some true | Some inner => any_match_in_range inner low high p end
  end.

Definition contains_every (r : UuidRange) (min max : Key) : bool :=
  match inner r with None => true | Some _ => false end && (min <=? max) && (low r <=? min) &&
  match top r with Some top => max <=? top | None => false end.

Definition membership (r : UuidRange) : UuidMembership := {|
  m_len := from_option m_len usize_max (inner r);
  contains_uuid := fun k => in_interval r k && from_option (fun i => contains_uuid i k) true (inner r);
  m_is_empty := match top r with None => true | Some _ => false end
                || from_option m_is_empty false (inner r);
  min_uuid := fst <$> bounds r;
  max_uuid := snd <$> bounds r;
  may_contain_in_range := may_contain r;
  any_match_in_range := any_match r;
  contains_every_in_range := contains_every r;
|}.

(** The keys of the interval that the inner membership also has. *)
Definition member (S : Key -> Prop) (r : UuidRange) (k : Key) : Prop :=
  is_key k /\ in_interval r k = true /\ (inner r <> None -> S k).

Definition range_ok (S : Key -> Prop) (r : UuidRange) : Prop :=
  is_key (low r) /\ from_option is_key True (high r) /\
  from_option (MembershipLaws S) True (inner r).

Section laws.
Context (S : Key -> Prop) (r : UuidRange) (Hok : range_ok S r).

Lemma in_interval_top k : is_key k ->
  in_interval r k = true <-> low r <= k /\ exists t, top r = Some t /\ k <= t.
Proof.
  destruct Hok as (Hlow&Hhigh&_). unfold is_key in *. intros Hk.
  unfold in_interval, top. rewrite andb_true_iff, Z.leb_le.
  destruct (high r) as [h|]; cbn [from_option] in *.
  - rewrite Z.ltb_lt. split.
    + intros [? ?]. split; [done|]. rewrite (proj2 (Z.eqb_neq h 0)) by lia. cbv zeta.
      rewrite (proj2 (Z.leb_le (low r) (h - 1))) by lia. eexists. split; [done|lia].
    + intros (?&t&Ht&?). destruct (h =? 0) eqn:E; [done|]. cbv zeta in Ht.
      destruct (low r <=? h - 1); [|done]. injection Ht as <-. lia.
  - split; [|tauto]. intros [? _]. split; [done|]. eexists. split; [done|lia].
Qed.

Lemma clip_sound lo hi k :
  is_key k -> in_interval r k = true -> lo <= k <= hi ->
  exists a b, clip r lo hi = Some (a, b) /\ a <= k <= b /\ a <= b.
Proof.
  intros Hk (Hl&t&Ht&Hkt)%in_interval_top Hr; [|done]. unfold clip. rewrite Ht.
  cbn [mbind option_bind]. rewrite (proj2 (Z.leb_le _ _)) by lia. do 2 eexists. split; [done|lia].
Qed.

Lemma clip_inside lo hi a b k :
  is_key k -> clip r lo hi = Some (a, b) ->
  a <= b /\ (a <= k <= b -> in_interval r k = true /\ lo <= k <= hi).
Proof.
  intros Hk. unfold clip. destruct (top r) as [t|] eqn:Et; [|done]. cbn [mbind option_bind].
  destruct (Z.leb_spec (Z.max lo (low r)) (Z.min hi t)) as [Hle|]; [|done]. intros [= <- <-].
  split; [done|]. intros Hkr. split; [|lia]. apply in_interval_top; [done|]. split; [lia|].
  exists t. split; [done|lia].
Qed.

Lemma inner_laws m : inner r = Some m -> MembershipLaws S m.
Proof. intros Hm. destruct Hok as (_&_&H). by rewrite Hm in H. Qed.

Lemma bounds_sound a b k : bounds r = Some (a, b) -> member S r k -> a <= k <= b.
Proof.
  intros Hb (Hk&Hin&HS). pose proof Hin as Hint. apply in_interval_top in Hint as (Hl&t&Ht&Hkt); [|done].
  unfold bounds in Hb. rewrite Ht in Hb. cbn [mbind option_bind] in Hb.
  destruct (inner r) as [m|] eqn:Em; [|injection Hb as <- <-; lia].
  destruct (min_uuid m) as [lo|] eqn:Elo; [|done]. destruct (max_uuid m) as [hi|] eqn:Ehi; [|done].
  cbn [mbind option_bind] in Hb. pose proof (inner_laws m Em) as HL.
  pose proof (law_min _ k Elo (HS ltac:(done))). pose proof (law_max _ k Ehi (HS ltac:(done))).
  destruct (clip_sound lo hi k Hk Hin ltac:(lia)) as (a'&b'&Hc&?&_). rewrite Hc in Hb.
  by injection Hb as <- <-.
Qed.

Lemma range_laws : MembershipLaws (member S r) (membership r).
Proof.
  constructor; cbn [membership contains_uuid m_is_empty min_uuid max_uuid may_contain_in_range
    any_match_in_range contains_every_in_range].
  - by intros k [? _].
  - intros k Hk. unfold member. rewrite andb_true_iff. pose proof inner_laws as HL.
    destruct (inner r) as [m|]; cbn [from_option]; [|naive_solver].
    rewrite (law_contains (m := m) (MembershipLaws := HL m eq_refl)) by done. naive_solver.
  - intros He k (Hk&Hin&HS). apply in_interval_top in Hin as (_&t&Ht&_); [|done]. rewrite Ht in He.
    pose proof inner_laws as HL. destruct (inner r) as [m|]; [|done].
    by eapply (law_empty (m := m) (MembershipLaws := HL m eq_refl)), HS.
  - intros b k Hb Hk. apply fmap_Some in Hb as ([lo hi]&Hb&->). by apply (bounds_sound _ _ k) in Hb as [? _].
  - intros b k Hb Hk. apply fmap_Some in Hb as ([lo hi]&Hb&->). by apply (bounds_sound _ _ k) in Hb as [_ ?].
  - intros lo hi Hle. unfold may_contain. pose proof inner_laws as HL.
    destruct (clip r lo hi) as [[a b]|] eqn:Ec.
    + destruct (inner r) as [m|] eqn:Em; [|eauto].
      destruct (clip_inside lo hi a b (low r) (proj1 Hok) Ec) as [Hab _].
      destruct (law_may (m := m) (MembershipLaws := HL m eq_refl) a b Hab) as (c&Hc&Hm).
      exists c. split; [done|]. intros k (Hk&Hin&HS) Hr.
      destruct (clip_sound lo hi k Hk Hin Hr) as (a'&b'&Hc'&?&_). rewrite Ec in Hc'. injection Hc' as <- <-.
      apply (Hm k); [|done]. by apply HS; rewrite Em.
    + exists false. split; [done|]. intros k (Hk&Hin&_) Hr.
      by destruct (clip_sound lo hi k Hk Hin Hr) as (?&?&?&_); congruence.
  - intros lo hi p Hle. unfold any_match. pose proof inner_laws as HL.
    destruct (clip r lo hi) as [[a b]|] eqn:Ec.
    + destruct (inner r) as [m|] eqn:Em; [|eauto].
      destruct (clip_inside lo hi a b (low r) (proj1 Hok) Ec) as [Hab _].
      destruct (law_any (m := m) (MembershipLaws := HL m eq_refl) a b p Hab) as (c&Hc&Hm).
      exists c. split; [done|]. intros k (Hk&Hin&HS) Hr Hp.
      destruct (clip_sound lo hi k Hk Hin Hr) as (a'&b'&Hc'&?&_). rewrite Ec in Hc'. injection Hc' as <- <-.
      apply (Hm k); [|done|done]. by apply HS; rewrite Em.
    + exists false. split; [done|]. intros k (Hk&Hin&_) Hr.
      by destruct (clip_sound lo hi k Hk Hin Hr) as (?&?&?&_); congruence.
  - intros lo hi k. unfold contains_every. rewrite !andb_true_iff, !Z.leb_le.
    intros [[[Hi Hle] Hl] Ht] Hk Hr. destruct (top r) as [t|] eqn:Et; [|done]. apply Z.leb_le in Ht.
    split_and!; [done| |by destruct (inner r)]. apply in_interval_top; [done|]. split; [lia|].
    exists t. split; [done|lia].
Qed.
End laws.
End Range.

(** ** Properties *)

(** C27 Pruned reads lose no row: for a partition interval over an intersection filter, a
    row group that the probe skips holds no wanted key, a row group reported as fully
    covered holds only wanted keys, no probe panics on ordered bounds, and the row test
    is exact. *)
Theorem pruned_range_read_sound Ss f low high :
  Filter.filter_ok Ss f -> is_key low -> from_option is_key True high ->
  let r := Range.membership (Range.mkRange low high (Some (Filter.membership f))) in
  let wanted k := Filter.member Ss f k /\ low <= k /\ from_option (fun h => k < h) True high in
  (forall min max, min <= max -> exists b, may_contain_in_range r min max = Some b /\
     (b = false -> forall k, wanted k -> ~ (min <= k <= max))) /\
  (forall min max k, contains_every_in_range r min max = true -> is_key k -> min <= k <= max -> wanted k) /\
  (forall k, is_key k -> contains_uuid r k = true <-> wanted k).
Proof.
  intros Hf Hlow Hhigh r wanted.
  set (R := Range.mkRange low high (Some (Filter.membership f))).
  assert (Hok : Range.range_ok (Filter.member Ss f) R)
    by (split_and!; [done|done|by apply Filter.filter_laws]).
  pose proof (Range.range_laws _ R Hok) as Hlaws.
  assert (Hw : forall k, Range.member (Filter.member Ss f) R k <-> wanted k).
  { intros k. unfold Range.member, wanted, Range.in_interval, R. cbn [Range.low Range.high Range.inner].
    rewrite andb_true_iff, Z.leb_le.
    assert (from_option (fun h => k <? h) true high = true <-> from_option (fun h => k < h) True high) as ->
      by (destruct high; simpl; [apply Z.ltb_lt|done]).
    split.
    - intros (?&[??]&HS). split_and!; [by apply HS|done|done].
    - intros (Hm&?&?). split_and!; [by destruct Hm|done|done|done]. }
  split_and!.
  - intros min max Hle. destruct (law_may (m := Range.membership R) min max Hle) as (b&Hb&Hs).
    exists b. split; [done|]. intros -> k Hk%Hw Hr. by specialize (Hs k Hk Hr).
  - intros min max k Hev Hk Hr. apply Hw. by eapply (law_every (m := Range.membership R)).
  - intros k Hk. rewrite <-Hw. by apply (law_contains (m := Range.membership R)).
Qed.

(** The range probe of an intersection is exact when its nominations' probes are: it
    reports a match exactly when some key of the intersection lies in the range and
    satisfies the predicate, whichever side it enumerates. *)
Theorem uuid_filter_probe_exact Ss f min max p :
  Filter.filter_ok Ss f -> Forall2 ExactProbes Ss (Filter.nominations f) -> min <= max ->
  exists b, Filter.any_match f min max p = Some b /\
    (b = true <-> exists k, Filter.member Ss f k /\ min <= k <= max /\ p k = true).
Proof.
  intros Hf Hex Hle. destruct (Filter.any_match_sound Ss f Hf min max p Hle) as (b&Hb&Hs).
  exists b. split; [done|]. split.
  - intros ->. by apply (Filter.any_match_exact Ss f Hf).
  - intros (k&?&?&?). by eapply Hs.
Qed.

(** The borrowed sorted slice answers every trait call as the tree set with the same
    keys does, on ordered bounds. *)
Theorem sorted_slice_is_tree_set s k min max p :
  Sorted.is_strictly_ascending s = true -> min <= max ->
  contains_uuid (Sorted.membership s) k = contains_uuid (BTree.membership s) k /\
  any_match_in_range (Sorted.membership s) min max p = any_match_in_range (BTree.membership s) min max p /\
  m_len (Sorted.membership s) = m_len (BTree.membership s) /\
  min_uuid (Sorted.membership s) = min_uuid (BTree.membership s) /\
  max_uuid (Sorted.membership s) = max_uuid (BTree.membership s).
Proof.
  intros Hs%Sorted.is_strictly_ascending_iff Hle. split_and!; [| |done..].
  - apply eq_bool_prop_intro. rewrite !Is_true_true. cbn [Sorted.membership BTree.membership contains_uuid].
    rewrite binary_search_is_ok_iff by done. unfold BTree.contains. by rewrite bool_decide_eq_true.
  - cbn [Sorted.membership BTree.membership any_match_in_range]. unfold Sorted.any_match.
    destruct (BTree.btree_range_any_iff s min max p Hle) as (b&->&Hb). f_equal.
    apply eq_bool_prop_intro. rewrite !Is_true_true, range_any_iff by done. by rewrite Hb.
Qed.

(** ** Witnesses *)

Definition demo_run : list Key := [3; 8; 20].
Definition demo_filter : Filter.UuidFilter := Filter.mkFilter [Sorted.membership demo_run] (Some [8; 9; 20]).

Lemma demo_run_ok : BTree.run_ok demo_run.
Proof.
  split; [by apply Sorted.is_strictly_ascending_iff|].
  unfold demo_run, is_key, key_max. repeat constructor; lia.
Qed.

Lemma demo_filter_ok : Filter.filter_ok [fun k => k ∈ demo_run] demo_filter.
Proof.
  constructor.
  - apply Forall2_cons. split; [apply (Sorted.sorted_laws demo_run demo_run_ok)|constructor].
  - split; [by apply Sorted.is_strictly_ascending_iff|].
    unfold is_key, key_max. repeat constructor; lia.
  - by left.
Qed.

Lemma pruned_range_read_sound_witness :
  let r := Range.membership (Range.mkRange 4 (Some 12) (Some (Filter.membership demo_filter))) in
  may_contain_in_range r 9 30 = Some false /\
  (forall k, Filter.member [fun k => k ∈ demo_run] demo_filter k /\ 4 <= k /\ k < 12 -> ~ (9 <= k <= 30)).
Proof.
  intros r. destruct (pruned_range_read_sound _ demo_filter 4 (Some 12) demo_filter_ok) as (Hm&_);
    [cbn [from_option]; unfold is_key, key_max; lia..|].
  destruct (Hm 9 30 ltac:(lia)) as (b&Hb&Hs). fold r in Hb.
  assert (H : may_contain_in_range r 9 30 = Some false) by (by vm_compute).
  split; [done|]. apply Hs. congruence.
Defined.

Lemma uuid_filter_probe_exact_witness :
  exists b, Filter.any_match demo_filter 9 30 (fun _ => true) = Some b.
Proof.
  destruct (uuid_filter_probe_exact [fun k => k ∈ demo_run] demo_filter 9 30 (fun _ => true))
    as (b&Hb&_); [apply demo_filter_ok| |lia|by exists b].
  apply Forall2_cons. split; [apply (Sorted.sorted_exact demo_run), demo_run_ok|constructor].
Defined.

Lemma sorted_slice_is_tree_set_witness :
  contains_uuid (Sorted.membership demo_run) 8 = contains_uuid (BTree.membership demo_run) 8.
Proof. apply (sorted_slice_is_tree_set demo_run 8 0 30 (fun _ => true)); [done|lia]. Defined.
