(* ===== verification/CompactSet.v ===== *)
(** * The compact UUID set: [CompactUuidSet] of [crates/graphforge-storage/src/uuid_set.rs].

    An open-addressed hash set with linear probing in chunked slots and an occupancy
    bitmap, which is compacted in place and replaced by a sorted run once complete.
    Indexing out of range panics: such an operation returns [None].  The hash function
    of a table ([RandomState]) and the allocator are parameters.  Every vector is
    reserved exactly and never outgrown, so a chunk's and the bitmap's capacities are
    their lengths; the directory's capacity, which truncation keeps, is a field. *)

From stdpp Require Import base list gmap sets sorting numbers strings.
From Stdlib Require Import ZArith Lia.
From S2P Require Import Prelude Membership.

Definition INITIAL_CAPACITY : Z := 16.
Definition SLOT_CHUNK_CAPACITY : Z := 4096.

Record CompactUuidSet := mkSet {
  slots : list (list Key);
  dir_capacity : Z;
  capacity : Z;
  occupied : list Z;
  len : Z;
  hash : Key -> Z;
  sorted : bool;
}.

(** [CompactUuidSet::default()] *)
Definition set_default (hash : Key -> Z) : CompactUuidSet := mkSet [] 0 0 [] 0 hash false.

Definition set_is_empty (s : CompactUuidSet) : bool := len s =? 0.

(** ** Slots and bits *)

Definition slot_at (s : CompactUuidSet) (index : Z) : option Key :=
  let chunk := index / SLOT_CHUNK_CAPACITY in
  let offset := index mod SLOT_CHUNK_CAPACITY in
  c ← slots s !! Z.to_nat chunk; c !! Z.to_nat offset.

Definition set_slot (s : CompactUuidSet) (index : Z) (uuid : Key) : option CompactUuidSet :=
  let chunk := index / SLOT_CHUNK_CAPACITY in
  let offset := index mod SLOT_CHUNK_CAPACITY in
  c ← slots s !! Z.to_nat chunk;
  _ ← c !! Z.to_nat offset;
  Some (mkSet (<[Z.to_nat chunk := <[Z.to_nat offset := uuid]> c]> (slots s)) (dir_capacity s)
          (capacity s) (occupied s) (len s) (hash s) (sorted s)).

Definition is_occupied (s : CompactUuidSet) (slot : Z) : option bool :=
  w ← occupied s !! Z.to_nat (slot / 64);
  Some (negb (Z.land w (Z.shiftl 1 (slot mod 64)) =? 0)).

Definition set_occupied (s : CompactUuidSet) (slot : Z) : option CompactUuidSet :=
  w ← occupied s !! Z.to_nat (slot / 64);
  Some (mkSet (slots s) (dir_capacity s) (capacity s)
          (<[Z.to_nat (slot / 64) := Z.lor w (Z.shiftl 1 (slot mod 64))]> (occupied s))
          (len s) (hash s) (sorted s)).

Definition slot_for (s : CompactUuidSet) (uuid : Key) (mask : Z) : Z := Z.land (hash s uuid) mask.

Definition with_len (s : CompactUuidSet) (n : Z) : CompactUuidSet :=
  mkSet (slots s) (dir_capacity s) (capacity s) (occupied s) n (hash s) (sorted s).

(** ** Probing *)

Fixpoint contains_loop (fuel : nat) (s : CompactUuidSet) (uuid : Key) (mask slot : Z) : option bool :=
  match fuel with
  | O => None
  | S fuel =>
      occ ← is_occupied s slot;
      if negb occ then Some false
      else
        k ← slot_at s slot;
        if k =? uuid then Some true
        else contains_loop fuel s uuid mask (Z.land (slot + 1) mask)
  end.

(** One pass over the table is enough fuel. *)
Definition probe_fuel (s : CompactUuidSet) : nat := Z.to_nat (capacity s).

Definition contains (s : CompactUuidSet) (uuid : Key) : option bool :=
  if len s =? 0 then Some false
  else if sorted s then c ← slots s !! 0%nat; Some (binary_search_is_ok c uuid)
  else
    let mask := capacity s - 1 in
    contains_loop (probe_fuel s) s uuid mask (slot_for s uuid mask).

Fixpoint insert_loop (fuel : nat) (s : CompactUuidSet) (uuid : Key) (mask slot : Z)
    : option (bool * CompactUuidSet) :=
  match fuel with
  | O => None
  | S fuel =>
      occ ← is_occupied s slot;
      if negb occ then
        s ← set_slot s slot uuid;
        s ← set_occupied s slot;
        Some (true, with_len s (len s + 1))
      else
        k ← slot_at s slot;
        if k =? uuid then Some (false, s)
        else insert_loop fuel s uuid mask (Z.land (slot + 1) mask)
  end.

Definition insert_without_growing (s : CompactUuidSet) (uuid : Key) : option (bool * CompactUuidSet) :=
  let mask := capacity s - 1 in
  insert_loop (probe_fuel s) s uuid mask (slot_for s uuid mask).

Definition needs_growth_for (s : CompactUuidSet) (uuid : Key) : option bool :=
  c ← contains s uuid;
  Some (negb c && (capacity s / 2 <? saturating_add (len s) 1)).

Definition capacity_for_next_insert (s : CompactUuidSet) : option Z :=
  if capacity s =? 0 then Some INITIAL_CAPACITY else checked_mul (capacity s) 2.

(** [for slot in 0..old.capacity] *)
Fixpoint reinsert_loop (s old : CompactUuidSet) (indices : list Z) : option CompactUuidSet :=
  match indices with
  | [] => Some s
  | slot :: indices' =>
      occ ← is_occupied old slot;
      if (occ : bool) then
        k ← slot_at old slot;
        '(_, s) ← insert_without_growing s k;
        reinsert_loop s old indices'
      else reinsert_loop s old indices'
  end.

Definition reinsert_all (s old : CompactUuidSet) : option CompactUuidSet :=
  reinsert_loop s old (seqZ 0 (capacity old)).

(** ** Storage accounting *)

Definition size_of_key : Z := 16.
Definition size_of_vec : Z := 24.
Definition size_of_word : Z := 8.

Definition storage_bytes_for_capacity (capacity : Z) : option Z :=
  slot_bytes ← checked_mul capacity size_of_key;
  let chunk_count := div_ceil capacity SLOT_CHUNK_CAPACITY in
  directory_bytes ← checked_mul chunk_count size_of_vec;
  padded ← checked_add capacity 63;
  let words := padded / 64 in
  bitmap_bytes ← checked_mul words size_of_word;
  total ← checked_add slot_bytes directory_bytes;
  checked_add total bitmap_bytes.

(** Chunks and bitmap have the capacity of their length: [allocate] rejects any other. *)
Definition chunk_bytes (bytes : Z) (chunks : list (list Key)) : Z :=
  foldl (fun bytes chunk => saturating_add bytes (saturating_mul (lenZ chunk) size_of_key)) bytes chunks.

Definition storage_bytes (s : CompactUuidSet) : Z :=
  let directory_bytes := saturating_mul (dir_capacity s) size_of_vec in
  let slot_bytes := chunk_bytes directory_bytes (slots s) in
  let bitmap_bytes := saturating_mul (lenZ (occupied s)) size_of_word in
  saturating_add slot_bytes bitmap_bytes.

Definition sorted_storage_bytes (s : CompactUuidSet) : option Z := checked_mul (len s) size_of_key.

(** ** Allocation *)

(** What goes wrong: the allocator fails, or returns another capacity. *)
Inductive AllocError :=
| AllocFailed (message : string)
| CapacityDiffers (what : string) (got requested : Z).

Section allocation.
(** [try_reserve_exact(n)] on an empty vector: the capacity it obtains. *)
Context (reserve : Z -> result string Z).

(** The capacity of the vector, or the error of a failed or inexact reservation. *)
Definition reserve_exact (what : string) (n : Z) : result AllocError Z :=
  got ← map_err AllocFailed (reserve n);
  if negb (got =? n) then Err (CapacityDiffers what got n) else Ok got.

Fixpoint alloc_chunks (fuel : nat) (remaining : Z) (chunks : list (list Key))
    : result AllocError (list (list Key)) :=
  match fuel with
  | O => Ok chunks
  | S fuel =>
      if 0 <? remaining then
        let chunk_capacity := Z.min remaining SLOT_CHUNK_CAPACITY in
        reserve_exact "UUID slot chunk" chunk_capacity ;;
        alloc_chunks fuel (remaining - chunk_capacity)
          (chunks ++ [replicate (Z.to_nat chunk_capacity) 0])
      else Ok chunks
  end.

(** One round per chunk and the final test. *)
Definition allocate (hash : Key -> Z) (cap : Z) : result AllocError CompactUuidSet :=
  let chunk_count := div_ceil cap SLOT_CHUNK_CAPACITY in
  dir_capacity ← reserve_exact "UUID slot directory" chunk_count;
  slots ← alloc_chunks (S (Z.to_nat chunk_count)) cap [];
  let bitmap_len := div_ceil cap 64 in
  reserve_exact "UUID bitmap allocation" bitmap_len ;;
  Ok (mkSet slots dir_capacity cap (replicate (Z.to_nat bitmap_len) 0) 0 hash false).

(** [allocate_sorted_prefix]: a sorted copy of the first [len] slots. *)
Definition prefix_keys (s : CompactUuidSet) : option (list Key) :=
  mapM (slot_at s) (seqZ 0 (len s)).

Definition allocate_sorted_prefix (s : CompactUuidSet) : option (result AllocError (list Key)) :=
  match reserve_exact "UUID sorted allocation" (len s) with
  | Err e => Some (Err e)
  | Ok _ => ks ← prefix_keys s; Some (Ok (sort_by_key id ks))
  end.
End allocation.

(** ** Completion *)

(** The loop of [compact_occupied_prefix]: occupied slots move to the prefix. *)
Fixpoint compact_loop (s : CompactUuidSet) (indices : list Z) (write : Z)
    : option (CompactUuidSet * Z) :=
  match indices with
  | [] => Some (s, write)
  | read :: indices' =>
      occ ← is_occupied s read;
      if (occ : bool) then
        s ← (if negb (write =? read) then k ← slot_at s read; set_slot s write k else Some s);
        compact_loop s indices' (write + 1)
      else compact_loop s indices' write
  end.

Definition compact_occupied_prefix (s : CompactUuidSet) : option (Z * CompactUuidSet) :=
  let old_bytes := storage_bytes s in
  '(s, _) ← compact_loop s (seqZ 0 (capacity s)) 0;
  let keep_chunks := div_ceil (len s) SLOT_CHUNK_CAPACITY in
  let slots := take (Z.to_nat keep_chunks) (slots s) in
  let capacity := foldr (fun c n => lenZ c + n) 0 slots in
  let s := mkSet slots (dir_capacity s) capacity [] (len s) (hash s) (sorted s) in
  Some (saturating_sub old_bytes (storage_bytes s), s).

Definition install_sorted (s : CompactUuidSet) (run : list Key) : option (Z * CompactUuidSet) :=
  if len s =? 0 then
    Some (storage_bytes s, mkSet [] 0 (len s) (occupied s) (len s) (hash s) true)
  else
    let old_slot_bytes := chunk_bytes 0 (slots s) in
    match slots s with
    | [] => None
    | _ :: _ =>
        Some (old_slot_bytes,
              mkSet [run] (dir_capacity s) (len s) (occupied s) (len s) (hash s) true)
    end.

(** ** The trait's view *)

Definition set_min (s : CompactUuidSet) : option Key :=
  if sorted s then c ← head (slots s); head c else None.
Definition set_max (s : CompactUuidSet) : option Key :=
  if sorted s then c ← head (slots s); last c else None.

Definition set_any_match (s : CompactUuidSet) (min max : Key) (p : Key -> bool) : bool :=
  if negb (sorted s) then
    from_option (fun m => m <=? max) true (set_min s) && from_option (fun m => min <=? m) true (set_max s)
  else match slots s with
       | [] => false
       | run :: _ => range_any run min max p
       end.

(** A run with a deliberately bad hash: inserts, growth and completion. *)
Example demo_run :
  (s ← match allocate (fun n => Ok n) (fun _ => 15) 16 with Ok s => Some s | Err _ => None end;
   '(_, s) ← insert_without_growing s 9; '(_, s) ← insert_without_growing s 4;
   '(b, s) ← insert_without_growing s 9; '(_, s) ← insert_without_growing s 7;
   c1 ← contains s 7; c2 ← contains s 8;
   t ← match allocate (fun n => Ok n) (fun _ => 3) 32 with Ok s => Some s | Err _ => None end;
   t ← reinsert_all t s;
   '(_, t) ← compact_occupied_prefix t;
   r ← allocate_sorted_prefix (fun n => Ok n) t;
   run ← match r with Ok run => Some run | Err _ => None end;
   '(_, t) ← install_sorted t run;
   c3 ← contains t 7; c4 ← contains t 8;
   Some (b, c1, c2, c3, c4, slots t, len t)) =
  Some (false, true, false, true, false, [[4; 7; 9]], 3).
Proof. vm_compute. reflexivity. Qed.

(** ** Layout: every index below the capacity has a slot and a bit *)

Definition chunk_sizes (cap : Z) : list Z :=
  (fun c => Z.min SLOT_CHUNK_CAPACITY (cap - SLOT_CHUNK_CAPACITY * c)) <$>
    seqZ 0 (div_ceil cap SLOT_CHUNK_CAPACITY).

Record layout (s : CompactUuidSet) : Prop := {
  layout_capacity : 0 <= capacity s;
  layout_slots : (fun c : list Key => lenZ c) <$> slots s = chunk_sizes (capacity s);
  layout_bits : lenZ (occupied s) = div_ceil (capacity s) 64;
}.

Lemma div_ceil_bounds a b : 0 <= a -> 0 < b -> a <= b * div_ceil a b < a + b.
Proof.
  intros Ha Hb. unfold div_ceil. pose proof (Z.div_mod (a + b - 1) b ltac:(lia)).
  pose proof (Z.mod_pos_bound (a + b - 1) b Hb). nia.
Qed.

Lemma div_ceil_lt a b i : 0 < b -> 0 <= i < a -> 0 <= i / b < div_ceil a b.
Proof.
  intros Hb Hi. pose proof (div_ceil_bounds a b ltac:(lia) Hb).
  pose proof (Z.div_mod i b ltac:(lia)). pose proof (Z.mod_pos_bound i b Hb).
  pose proof (Z.div_pos i b ltac:(lia) Hb). nia.
Qed.

Lemma chunk_lookup s i :
  layout s -> 0 <= i < capacity s ->
  exists c, slots s !! Z.to_nat (i / SLOT_CHUNK_CAPACITY) = Some c /\
    (Z.to_nat (i mod SLOT_CHUNK_CAPACITY) < length c)%nat.
Proof.
  intros [_ Hs _] Hi. unfold SLOT_CHUNK_CAPACITY in *.
  pose proof (div_ceil_lt (capacity s) 4096 i ltac:(lia) Hi) as Hd.
  assert (Hl : ((fun c : list Key => lenZ c) <$> slots s) !! Z.to_nat (i / 4096) =
    Some (Z.min 4096 (capacity s - 4096 * (i / 4096)))).
  { rewrite Hs. unfold chunk_sizes. rewrite list_lookup_fmap.
    unfold SLOT_CHUNK_CAPACITY. rewrite lookup_seqZ_lt by lia. simpl. do 3 f_equal; lia. }
  rewrite list_lookup_fmap in Hl. apply fmap_Some in Hl as (c&Hc&Hlen). exists c. split; [done|].
  pose proof (Z.div_mod i 4096 ltac:(lia)). pose proof (Z.mod_pos_bound i 4096 ltac:(lia)). lia.
Qed.

Lemma slot_at_Some s i : layout s -> 0 <= i < capacity s -> is_Some (slot_at s i).
Proof.
  intros Hl Hi. destruct (chunk_lookup s i Hl Hi) as (c&Hc&Hlt). unfold slot_at.
  rewrite Hc. by apply lookup_lt_is_Some_2.
Qed.

Lemma word_lookup s i :
  layout s -> 0 <= i < capacity s -> is_Some (occupied s !! Z.to_nat (i / 64)).
Proof.
  intros [_ _ Hb] Hi. pose proof (div_ceil_lt (capacity s) 64 i ltac:(lia) Hi).
  apply lookup_lt_is_Some_2. lia.
Qed.

(** The mask test is a bit test. *)
Lemma land_bit w b : 0 <= b -> negb (Z.land w (Z.shiftl 1 b) =? 0) = Z.testbit w b.
Proof.
  intros Hb. destruct (Z.testbit w b) eqn:E.
  - apply negb_true_iff, Z.eqb_neq. intros H. apply (f_equal (fun z => Z.testbit z b)) in H.
    rewrite Z.land_spec, Z.shiftl_spec, Z.sub_diag, E, Z.bits_0 in H by done. done.
  - apply negb_false_iff, Z.eqb_eq. apply Z.bits_inj'. intros n Hn.
    rewrite Z.land_spec, Z.shiftl_spec, Z.bits_0 by done. destruct (decide (n = b)) as [->|].
    + by rewrite E.
    + destruct (decide (n < b)); [rewrite (Z.testbit_neg_r 1) by lia; apply andb_false_r|].
      assert (Z.testbit 1 (n - b) = false) as ->; [|apply andb_false_r].
      rewrite (Z.bits_above_log2 1); [done|lia|simpl; lia].
Qed.

Lemma lor_bit w b n :
  0 <= b -> 0 <= n -> Z.testbit (Z.lor w (Z.shiftl 1 b)) n = Z.testbit w n || (n =? b).
Proof.
  intros Hb Hn. rewrite Z.lor_spec, Z.shiftl_spec by done. f_equal.
  destruct (Z.eqb_spec n b) as [->|]; [by rewrite Z.sub_diag|].
  destruct (decide (n < b)); [by rewrite Z.testbit_neg_r by lia|].
  rewrite Z.bits_above_log2; [done|lia|simpl; lia].
Qed.

Lemma is_occupied_eq s i w :
  0 <= i -> occupied s !! Z.to_nat (i / 64) = Some w ->
  is_occupied s i = Some (Z.testbit w (i mod 64)).
Proof.
  intros Hi Hw. unfold is_occupied. rewrite Hw. cbn [mbind option_bind].
  rewrite land_bit; [done|]. apply Z.mod_pos_bound. lia.
Qed.

Lemma split_index b i j : 0 < b -> i / b = j / b -> i mod b = j mod b -> i = j.
Proof. intros Hb Hd Hm. rewrite (Z.div_mod i b), (Z.div_mod j b) by lia. congruence. Qed.

(** What writing one slot and one bit changes. *)
Lemma set_slot_spec s i k :
  layout s -> 0 <= i < capacity s ->
  exists s', set_slot s i k = Some s' /\ layout s' /\ capacity s' = capacity s /\
    occupied s' = occupied s /\ len s' = len s /\ hash s' = hash s /\ sorted s' = sorted s /\
    dir_capacity s' = dir_capacity s /\
    forall j, 0 <= j < capacity s -> slot_at s' j = if decide (i = j) then Some k else slot_at s j.
Proof.
  intros Hl Hi. destruct (chunk_lookup s i Hl Hi) as (c&Hc&Hlt).
  unfold set_slot. rewrite Hc. cbn [mbind option_bind].
  destruct (lookup_lt_is_Some_2 c _ Hlt) as [x Hx]. rewrite Hx. cbn [mbind option_bind].
  eexists. split; [done|]. cbn [capacity occupied len hash sorted dir_capacity].
  split_and!; try done.
  - destruct Hl as [H1 H2 H3]. constructor; [done| |done]. cbn [slots capacity].
    rewrite list_fmap_insert, length_insert, <-H2. apply list_insert_id.
    by rewrite list_lookup_fmap, Hc.
  - intros j Hj. unfold slot_at. cbn [slots]. unfold SLOT_CHUNK_CAPACITY in *.
    pose proof (Z.div_pos i 4096 ltac:(lia) ltac:(lia)). pose proof (Z.div_pos j 4096 ltac:(lia) ltac:(lia)).
    pose proof (Z.mod_pos_bound i 4096 ltac:(lia)). pose proof (Z.mod_pos_bound j 4096 ltac:(lia)).
    destruct (decide (i / 4096 = j / 4096)) as [Hd|Hd].
    + rewrite <-Hd, list_lookup_insert_eq by (by eapply lookup_lt_Some).
      rewrite Hc. cbn [mbind option_bind]. case_decide as Hij.
      * subst j. by rewrite list_lookup_insert_eq.
      * apply list_lookup_insert_ne. intros Hm%Z2Nat.inj; [|lia..]. apply Hij.
        by eapply (split_index 4096).
    + rewrite list_lookup_insert_ne by (intros ?%Z2Nat.inj; lia). rewrite decide_False; [done|congruence].
Qed.

Lemma set_occupied_spec s i :
  layout s -> 0 <= i < capacity s ->
  exists s', set_occupied s i = Some s' /\ layout s' /\ capacity s' = capacity s /\
    slots s' = slots s /\ len s' = len s /\ hash s' = hash s /\ sorted s' = sorted s /\
    dir_capacity s' = dir_capacity s /\
    forall j, 0 <= j < capacity s ->
      is_occupied s' j = if decide (i = j) then Some true else is_occupied s j.
Proof.
  intros Hl Hi. destruct (word_lookup s i Hl Hi) as [w Hw].
  unfold set_occupied. rewrite Hw. cbn [mbind option_bind]. eexists. split; [done|].
  cbn [capacity slots len hash sorted dir_capacity]. split_and!; try done.
  - destruct Hl as [H1 H2 H3]. constructor; [done|done|]. cbn [occupied capacity].
    by rewrite length_insert.
  - intros j Hj. destruct (word_lookup s j Hl Hj) as [w' Hw'].
    rewrite (is_occupied_eq s j w') by (done || lia).
    pose proof (Z.div_pos i 64 ltac:(lia) ltac:(lia)). pose proof (Z.div_pos j 64 ltac:(lia) ltac:(lia)).
    pose proof (Z.mod_pos_bound i 64 ltac:(lia)). pose proof (Z.mod_pos_bound j 64 ltac:(lia)).
    destruct (decide (i / 64 = j / 64)) as [Hd|Hd].
    + assert (w' = w) as -> by (rewrite <-Hd in Hw'; congruence).
      erewrite is_occupied_eq; [|lia|].
      2: { cbn [occupied]. rewrite <-Hd. apply list_lookup_insert_eq. by eapply lookup_lt_Some. }
      rewrite lor_bit by lia. case_decide as Hij.
      * subst j. by rewrite Z.eqb_refl, orb_true_r.
      * rewrite (proj2 (Z.eqb_neq _ _)), orb_false_r; [done|]. intros Hm. apply Hij.
        by eapply (split_index 64); [|done|].
    + erewrite is_occupied_eq; [|lia|].
      2: { cbn [occupied]. rewrite list_lookup_insert_ne; [done|]. intros ?%Z2Nat.inj; lia. }
      rewrite decide_False; [done|congruence].
Qed.

(** ** Contents: the key of a slot, and the keys in slot order *)

Definition entry (s : CompactUuidSet) (i : Z) : option Key :=
  match is_occupied s i with Some true => slot_at s i | _ => None end.

Definition elems (s : CompactUuidSet) : list Key := omap (entry s) (seqZ 0 (capacity s)).

Lemma elem_of_elems s k : k ∈ elems s <-> exists i, 0 <= i < capacity s /\ entry s i = Some k.
Proof.
  unfold elems. rewrite list_elem_of_omap. setoid_rewrite elem_of_seqZ.
  split; intros (i&?&?); exists i; split; try done; lia.
Qed.

Lemma omap_step {A B} (f : A -> option B) x (l : list A) :
  omap f (x :: l) = match f x with Some y => y :: omap f l | None => omap f l end.
Proof. done. Qed.

Lemma omap_inj {A B} (f : A -> option B) (l : list A) x y k :
  NoDup (omap f l) -> x ∈ l -> y ∈ l -> f x = Some k -> f y = Some k -> x = y.
Proof.
  intros Hnd Hx Hy Hfx Hfy. induction l as [|z l IH]; [by apply not_elem_of_nil in Hx|].
  rewrite omap_step in Hnd. apply elem_of_cons in Hx as [->|Hx], Hy as [->|Hy]; try done.
  - rewrite Hfx in Hnd. apply NoDup_cons in Hnd as [Hn _]. destruct Hn. apply list_elem_of_omap. eauto.
  - rewrite Hfy in Hnd. apply NoDup_cons in Hnd as [Hn _]. destruct Hn. apply list_elem_of_omap. eauto.
  - apply IH; try done. destruct (f z); [by apply NoDup_cons in Hnd as [_ ?]|done].
Qed.

Lemma omap_ext_in {A B} (f g : A -> option B) (l : list A) :
  (forall x, x ∈ l -> f x = g x) -> omap f l = omap g l.
Proof.
  induction l as [|x l IH]; intros H; [done|]. rewrite !omap_step, (H x) by left.
  rewrite IH; [done|]. intros y Hy. apply H. by right.
Qed.

Lemma omap_update {A B} (f g : A -> option B) (l : list A) x k :
  NoDup l -> x ∈ l -> f x = None -> g x = Some k -> (forall y, y ∈ l -> y <> x -> g y = f y) ->
  omap g l ≡ₚ k :: omap f l.
Proof.
  intros Hnd Hx Hf Hg Hext. induction l as [|z l IH]; [by apply not_elem_of_nil in Hx|].
  apply NoDup_cons in Hnd as [Hz Hnd]. rewrite !omap_step. apply elem_of_cons in Hx as [->|Hx].
  - rewrite Hf, Hg. rewrite (omap_ext_in g f); [done|]. intros y Hy. apply Hext; [by right|congruence].
  - rewrite (Hext z); [|by left|congruence].
    assert (IH' : omap g l ≡ₚ k :: omap f l) by (apply IH; try done; intros; apply Hext; [by right|done]).
    destruct (f z); rewrite IH'; [apply Permutation_swap|done].
Qed.

Lemma omap_length_le {A B} (f : A -> option B) l : (length (omap f l) <= length l)%nat.
Proof. induction l as [|x l IH]; [done|]. rewrite omap_step. destruct (f x); simpl; lia. Qed.

Lemma omap_free {A B} (f : A -> option B) (l : list A) :
  (length (omap f l) < length l)%nat -> exists x, x ∈ l /\ f x = None.
Proof.
  induction l as [|x l IH]; [simpl; lia|]. rewrite omap_step.
  destruct (f x) eqn:E; cbn [length]; intros Hl.
  - destruct IH as (y&?&?); [lia|]. exists y. split; [by right|done].
  - exists x. split; [by left|done].
Qed.

(** Below half load there is always a free slot. *)
Lemma free_slot s : layout s -> lenZ (elems s) < capacity s ->
  exists i, 0 <= i < capacity s /\ entry s i = None.
Proof.
  intros [Hc _ _] Hl. destruct (omap_free (entry s) (seqZ 0 (capacity s))) as (i&Hi&He).
  { rewrite length_seqZ. unfold elems in Hl. lia. }
  apply elem_of_seqZ in Hi. exists i. split; [lia|done].
Qed.

(** The slot a key hashes to and the slots its probe visits. *)
Definition home (s : CompactUuidSet) (k : Key) : Z := slot_for s k (capacity s - 1).
Definition probe (s : CompactUuidSet) (k : Key) (j : Z) : Z := (home s k + j) mod capacity s.

(** Every stored key is reachable: the slots its probe visits first are taken. *)
Definition reachable (s : CompactUuidSet) : Prop :=
  forall i k, 0 <= i < capacity s -> entry s i = Some k ->
    exists j, 0 <= j < capacity s /\ i = probe s k j /\
      forall j', 0 <= j' < j -> is_Some (entry s (probe s k j')).

Record table_ok (s : CompactUuidSet) : Prop := {
  ok_layout : layout s;
  ok_sorted : sorted s = false;
  ok_power : exists p, 0 <= p /\ capacity s = 2 ^ p;
  ok_hash : forall k, 0 <= hash s k;
  ok_len : len s = lenZ (elems s);
  ok_nodup : NoDup (elems s);
  ok_reachable : reachable s;
}.

Lemma mask_mod s x : (exists p, 0 <= p /\ capacity s = 2 ^ p) ->
  Z.land x (capacity s - 1) = x mod capacity s.
Proof. intros (p&Hp&->). rewrite <-Z.land_ones by done. f_equal. rewrite Z.ones_equiv. lia. Qed.

Section probing.
Context (s : CompactUuidSet) (Hok : table_ok s).

Lemma capacity_pos : 0 < capacity s.
Proof. destruct Hok as [_ _ (p&Hp&->) _ _ _ _]. by apply Z.pow_pos_nonneg. Qed.

Lemma probe_range k j : 0 <= probe s k j < capacity s.
Proof. apply Z.mod_pos_bound, capacity_pos. Qed.

Lemma probe_0 k : slot_for s k (capacity s - 1) = probe s k 0.
Proof.
  unfold probe, home, slot_for. rewrite Z.add_0_r, mask_mod by apply Hok.
  by rewrite Z.mod_mod by (pose proof capacity_pos; lia).
Qed.

Lemma probe_succ k j : Z.land (probe s k j + 1) (capacity s - 1) = probe s k (j + 1).
Proof.
  rewrite mask_mod by apply Hok. unfold probe.
  rewrite Zplus_mod_idemp_l. f_equal. lia.
Qed.

Lemma entry_cases i : 0 <= i < capacity s ->
  (is_occupied s i = Some false /\ entry s i = None) \/
  (exists k, is_occupied s i = Some true /\ slot_at s i = Some k /\ entry s i = Some k).
Proof.
  intros Hi. unfold entry. destruct (word_lookup s i (ok_layout s Hok) Hi) as [w Hw].
  rewrite (is_occupied_eq s i w) by (done || lia).
  destruct (slot_at_Some s i (ok_layout s Hok) Hi) as [k Hk].
  destruct (Z.testbit w (i mod 64)); [right; eauto|by left].
Qed.

Lemma entry_unique i j k :
  0 <= i < capacity s -> 0 <= j < capacity s -> entry s i = Some k -> entry s j = Some k -> i = j.
Proof.
  intros Hi Hj. apply omap_inj with (l := seqZ 0 (capacity s)); [apply Hok|apply elem_of_seqZ; lia..].
Qed.

Lemma probe_inj k j j' :
  0 <= j < capacity s -> 0 <= j' < capacity s -> probe s k j = probe s k j' -> j = j'.
Proof.
  intros Hj Hj' Heq. pose proof capacity_pos. unfold probe in Heq.
  pose proof (Z.div_mod (home s k + j) (capacity s) ltac:(lia)).
  pose proof (Z.div_mod (home s k + j') (capacity s) ltac:(lia)).
  rewrite Heq in *.
  assert (Hd : j - j' = capacity s * ((home s k + j) / capacity s - (home s k + j') / capacity s)) by nia.
  set (q := _ - _ / _) in Hd. assert (q = 0) by nia. lia.
Qed.

(** Where a probe for [k] ends: at [k] itself, or at a free slot when [k] is absent. *)
Definition probe_end (k : Key) (J : Z) : Prop :=
  0 <= J < capacity s /\
  (forall j, 0 <= j < J -> exists k', entry s (probe s k j) = Some k' /\ k' <> k) /\
  (((k ∈ elems s) /\ entry s (probe s k J) = Some k) \/
   ((k ∉ elems s) /\ entry s (probe s k J) = None)).

Lemma least_free k (n : nat) :
  entry s (probe s k (Z.of_nat n)) = None ->
  exists J, 0 <= J <= Z.of_nat n /\ entry s (probe s k J) = None /\
    forall j, 0 <= j < J -> is_Some (entry s (probe s k j)).
Proof.
  induction n as [n IH] using lt_wf_ind. intros Hn.
  destruct (decide (Exists (fun j => entry s (probe s k j) = None) (seqZ 0 (Z.of_nat n)))) as [He|He].
  - apply Exists_exists in He as (j&Hj%elem_of_seqZ&Hfree).
    destruct (IH (Z.to_nat j)) as (J&?&?&?); [lia|by rewrite Z2Nat.id by lia|].
    exists J. split_and!; try done; lia.
  - exists (Z.of_nat n). split_and!; try done; [lia..|]. intros j Hj.
    destruct (entry s (probe s k j)) as [|] eqn:E; [done|]. destruct He. apply Exists_exists.
    exists j. split; [apply elem_of_seqZ; lia|done].
Qed.

Lemma probe_end_exists k : len s < capacity s -> exists J, probe_end k J.
Proof.
  intros Hlen. destruct (decide (k ∈ elems s)) as [Hin|Hin].
  - pose proof Hin as (i&Hi&He)%elem_of_elems.
    destruct (ok_reachable s Hok i k Hi He) as (j&Hj&Hp&Hpath). exists j. split_and!; [lia|lia| |].
    + intros j' Hj'. destruct (Hpath j' Hj') as [k' Hk']. exists k'. split; [done|]. intros ->.
      assert (j' = j); [|lia]. apply (probe_inj k); [lia..|].
      apply (entry_unique _ _ k); [apply probe_range..|done|congruence].
    + left. split; [done|congruence].
  - rewrite (ok_len s Hok) in Hlen. destruct (free_slot s (ok_layout s Hok) Hlen) as (i&Hi&He).
    pose proof capacity_pos as Hc.
    assert (Hp : probe s k (Z.of_nat (Z.to_nat ((i - home s k) mod capacity s))) = i).
    { rewrite Z2Nat.id by (apply Z.mod_pos_bound; lia). unfold probe.
      rewrite Zplus_mod_idemp_r. rewrite <-(Z.mod_small i (capacity s)) at 2 by lia. f_equal. lia. }
    destruct (least_free k (Z.to_nat ((i - home s k) mod capacity s))) as (J&HJ&Hfree&Hpath);
      [by rewrite Hp|].
    pose proof (Z.mod_pos_bound (i - home s k) (capacity s) Hc).
    exists J. split_and!; [lia|lia| |by right]. intros j Hj. destruct (Hpath j Hj) as [k' Hk'].
    exists k'. split; [done|]. intros ->. apply Hin, elem_of_elems. eauto using probe_range.
Qed.

Lemma contains_loop_spec k J fuel j :
  probe_end k J -> 0 <= j <= J -> J - j < Z.of_nat fuel ->
  contains_loop fuel s k (capacity s - 1) (probe s k j) = Some (bool_decide (k ∈ elems s)).
Proof.
  intros (HJ&Hpath&Hend). revert j. induction fuel as [|fuel IH]; intros j Hj Hf; [lia|].
  cbn [contains_loop]. destruct (decide (j = J)) as [->|Hne].
  - destruct (entry_cases (probe s k J) (probe_range k J)) as [[-> He]|(k'&->&->&He)];
      cbn [mbind option_bind negb].
    + destruct Hend as [[_ ?]|[? _]]; [congruence|]. by rewrite bool_decide_eq_false_2.
    + destruct Hend as [[? Hk]|[_ ?]]; [|congruence].
      rewrite He in Hk. injection Hk as ->. rewrite Z.eqb_refl. by rewrite bool_decide_eq_true_2.
  - destruct (Hpath j ltac:(lia)) as (k'&Hk'&Hkne).
    destruct (entry_cases (probe s k j) (probe_range k j)) as [[_ He]|(k''&->&->&He)]; [congruence|].
    cbn [mbind option_bind negb]. assert (k'' = k') as -> by congruence.
    rewrite (proj2 (Z.eqb_neq k' k)) by done. rewrite probe_succ. apply IH; lia.
Qed.
End probing.

Lemma contains_spec s k :
  table_ok s -> len s < capacity s -> contains s k = Some (bool_decide (k ∈ elems s)).
Proof.
  intros Hok Hlen. unfold contains. destruct (Z.eqb_spec (len s) 0) as [H0|_].
  - rewrite bool_decide_eq_false_2; [done|]. rewrite (ok_len s Hok) in H0.
    destruct (elems s); [apply not_elem_of_nil|done].
  - rewrite (ok_sorted s Hok). destruct (probe_end_exists s Hok k Hlen) as (J&HJ).
    rewrite probe_0 by done. eapply contains_loop_spec; [done|done|destruct HJ; lia|].
    destruct HJ as [HJ _]. unfold probe_fuel. lia.
Qed.

(** ** Insertion *)

(** Placing an absent key on the free slot that ends its probe. *)
Lemma place_spec s k J :
  table_ok s -> probe_end s k J -> entry s (probe s k J) = None ->
  exists s1 s2, set_slot s (probe s k J) k = Some s1 /\ set_occupied s1 (probe s k J) = Some s2 /\
    let s' := with_len s2 (len s2 + 1) in
    table_ok s' /\ capacity s' = capacity s /\ hash s' = hash s /\ len s' = len s + 1 /\
    dir_capacity s' = dir_capacity s /\ elems s' ≡ₚ k :: elems s.
Proof.
  intros Hok (HJ&Hpath&Hend) Hfree. pose proof (probe_range s Hok k J) as Hi. set (i := probe s k J) in *.
  destruct Hend as [[_ ?]|[Hnin _]]; [congruence|].
  destruct (set_slot_spec s i k (ok_layout s Hok) Hi)
    as (s1&Hs1&Hl1&Hc1&Ho1&Hn1&Hh1&Hso1&Hd1&Hslot).
  destruct (set_occupied_spec s1 i Hl1 ltac:(by rewrite Hc1))
    as (s2&Hs2&Hl2&Hc2&Hsl2&Hn2&Hh2&Hso2&Hd2&Hocc).
  exists s1, s2. split; [done|]. split; [done|]. cbv zeta.
  set (s' := with_len s2 (len s2 + 1)).
  assert (Hcap : capacity s' = capacity s) by (unfold s', with_len; simpl; congruence).
  assert (Hhash : hash s' = hash s) by (unfold s', with_len; simpl; congruence).
  assert (Hentry : forall j, 0 <= j < capacity s ->
    entry s' j = if decide (i = j) then Some k else entry s j).
  { intros j Hj. unfold entry.
    change (is_occupied s' j) with (is_occupied s2 j).
    assert (slot_at s' j = slot_at s1 j) as -> by (unfold slot_at, s', with_len; simpl; by rewrite Hsl2).
    rewrite Hocc by (by rewrite Hc1). rewrite Hslot by done.
    assert (is_occupied s1 j = is_occupied s j) as -> by (unfold is_occupied; by rewrite Ho1).
    by case_decide. }
  assert (Helems : elems s' ≡ₚ k :: elems s).
  { unfold elems. rewrite Hcap. apply (omap_update _ _ _ i); [apply NoDup_seqZ|apply elem_of_seqZ; lia|done| |].
    - rewrite Hentry by done. by rewrite decide_True.
    - intros y Hy%elem_of_seqZ Hne. rewrite Hentry by lia. by rewrite decide_False. }
  assert (Hprobe : forall k' j, probe s' k' j = probe s k' j)
    by (intros; unfold probe, home, slot_for; by rewrite Hcap, Hhash).
  assert (Hmono : forall j, 0 <= j < capacity s -> is_Some (entry s j) -> is_Some (entry s' j))
    by (intros j Hj Hs; rewrite Hentry by done; by case_decide).
  split_and!; try done.
  - constructor.
    + destruct Hl2 as [A B C]. by constructor.
    + unfold s', with_len; simpl. rewrite Hso2, Hso1. apply Hok.
    + rewrite Hcap. apply Hok.
    + rewrite Hhash. apply Hok.
    + rewrite Helems. cbn [length]. unfold s', with_len; simpl. rewrite Hn2, Hn1, (ok_len s Hok). lia.
    + rewrite Helems. apply NoDup_cons. split; [done|apply Hok].
    + intros j k' Hj Hk'. rewrite Hcap in *. rewrite Hentry in Hk' by done. setoid_rewrite Hprobe.
      case_decide as Hij.
      * injection Hk' as <-. subst j. exists J. split_and!; [lia..|done|]. intros j' Hj'.
        apply Hmono; [by apply probe_range|]. destruct (Hpath j' Hj') as (?&?&_). eauto.
      * destruct (ok_reachable s Hok j k' Hj Hk') as (j0&Hj0&Hp&Hpre). exists j0.
        split_and!; [lia..|done|]. intros j' Hj'. apply Hmono; [by apply probe_range|auto].
  - unfold s', with_len; simpl. lia.
  - unfold s', with_len; simpl. congruence.
Qed.

Lemma insert_loop_spec s k J fuel j :
  table_ok s -> probe_end s k J -> 0 <= j <= J -> J - j < Z.of_nat fuel ->
  (k ∈ elems s -> insert_loop fuel s k (capacity s - 1) (probe s k j) = Some (false, s)) /\
  (k ∉ elems s -> exists s', insert_loop fuel s k (capacity s - 1) (probe s k j) = Some (true, s') /\
     table_ok s' /\ capacity s' = capacity s /\ hash s' = hash s /\ len s' = len s + 1 /\
     dir_capacity s' = dir_capacity s /\ elems s' ≡ₚ k :: elems s).
Proof.
  intros Hok Hpe. pose proof Hpe as (HJ&Hpath&Hend).
  revert j. induction fuel as [|fuel IH]; intros j Hj Hf; [lia|].
  cbn [insert_loop]. destruct (decide (j = J)) as [->|Hne].
  - destruct (entry_cases s Hok (probe s k J) (probe_range s Hok k J)) as [[-> He]|(k'&->&->&He)];
      cbn [mbind option_bind negb].
    + split; [by destruct Hend as [[_ ?]|[? _]]; [congruence|]|]. intros _.
      destruct (place_spec s k J Hok Hpe He) as (s1&s2&->&Hs2&Hrest). cbn [mbind option_bind].
      rewrite Hs2. cbn [mbind option_bind]. eexists. split; [done|]. exact Hrest.
    + destruct Hend as [[Hin Hk]|[_ ?]]; [|congruence]. rewrite He in Hk. injection Hk as ->.
      rewrite Z.eqb_refl. done.
  - destruct (Hpath j ltac:(lia)) as (k'&Hk'&Hkne).
    destruct (entry_cases s Hok (probe s k j) (probe_range s Hok k j)) as [[_ He]|(k''&->&->&He)];
      [congruence|].
    cbn [mbind option_bind negb]. assert (k'' = k') as -> by congruence.
    rewrite (proj2 (Z.eqb_neq k' k)) by done. rewrite probe_succ by done. apply IH; lia.
Qed.

(** Inserting: the answer says whether the key is new; the contents gain exactly it. *)
Lemma insert_spec s k :
  table_ok s -> len s < capacity s ->
  exists s', insert_without_growing s k = Some (bool_decide (k ∉ elems s), s') /\ table_ok s' /\
    capacity s' = capacity s /\ hash s' = hash s /\ dir_capacity s' = dir_capacity s /\
    (k ∈ elems s -> s' = s) /\ (k ∉ elems s -> elems s' ≡ₚ k :: elems s /\ len s' = len s + 1).
Proof.
  intros Hok Hlen. destruct (probe_end_exists s Hok k Hlen) as (J&HJ).
  unfold insert_without_growing. rewrite probe_0 by done.
  destruct (insert_loop_spec s k J (probe_fuel s) 0 Hok HJ) as [Hin Hnin];
    [destruct HJ; lia|destruct HJ; unfold probe_fuel; lia|].
  destruct (decide (k ∈ elems s)) as [Hk|Hk].
  - exists s. rewrite bool_decide_eq_false_2 by tauto. rewrite Hin by done. split_and!; try done.
  - destruct (Hnin Hk) as (s'&->&?&?&?&?&?&?). exists s'. rewrite bool_decide_eq_true_2 by done.
    split_and!; try done; naive_solver.
Qed.

(** ** Allocation *)

Lemma div_ceil_0 b : 0 < b -> div_ceil 0 b = 0.
Proof. intros. unfold div_ceil. apply Z.div_small. lia. Qed.

Lemma div_ceil_step r b : 0 < b -> 0 < r -> div_ceil r b = 1 + div_ceil (r - Z.min r b) b.
Proof.
  intros Hb Hr. unfold div_ceil. destruct (Z.min_spec r b) as [[Hlt ->]|[Hge ->]].
  - replace (r - r + b - 1) with (b - 1) by lia. rewrite (Z.div_small (b - 1)) by lia.
    symmetry. apply (Z.div_unique _ _ _ (r - 1)); lia.
  - replace (r + b - 1) with ((r - b + b - 1) + 1 * b) by lia. rewrite Z.div_add by lia. lia.
Qed.

Lemma chunk_sizes_step r : 0 < r ->
  chunk_sizes r = Z.min r SLOT_CHUNK_CAPACITY :: chunk_sizes (r - Z.min r SLOT_CHUNK_CAPACITY).
Proof.
  intros Hr. unfold chunk_sizes, SLOT_CHUNK_CAPACITY.
  rewrite (div_ceil_step r 4096) by lia. set (r' := r - Z.min r 4096).
  assert (0 <= div_ceil r' 4096) by (apply Z.div_pos; lia).
  rewrite seqZ_cons by lia. rewrite fmap_cons. f_equal; [lia|].
  replace (Z.pred (1 + div_ceil r' 4096)) with (div_ceil r' 4096) by lia.
  replace (Z.succ 0) with (1 + 0) by lia. rewrite <-fmap_add_seqZ, <-list_fmap_compose.
  apply list_fmap_ext. intros i c Hc%lookup_seqZ. unfold compose.
  destruct (decide (r <= 4096)); [|lia].
  assert (r' = 0) as Hr' by lia. rewrite Hr', div_ceil_0 in Hc by lia. lia.
Qed.

Lemma chunk_sizes_0 : chunk_sizes 0 = [].
Proof. done. Qed.

Definition sum_Z (l : list Z) : Z := foldr Z.add 0 l.

Lemma sum_Z_app l l' : sum_Z (l ++ l') = sum_Z l + sum_Z l'.
Proof. unfold sum_Z. induction l as [|x l IH]; cbn [app foldr]; [done|]. rewrite IH. lia. Qed.

Lemma sum_Z_cons x l : sum_Z (x :: l) = x + sum_Z l.
Proof. done. Qed.

Lemma sum_lengths_nonneg (chunks : list (list Key)) : 0 <= sum_Z ((fun c => lenZ c) <$> chunks).
Proof. induction chunks as [|c chunks IH]; [done|]. rewrite fmap_cons, sum_Z_cons. lia. Qed.

Lemma chunk_sizes_sum r : 0 <= r -> sum_Z (chunk_sizes r) = r.
Proof.
  intros Hr. remember (Z.to_nat r) as n eqn:Hn. revert r Hr Hn.
  induction n as [n IH] using lt_wf_ind. intros r Hr ->.
  destruct (decide (r = 0)) as [->|]; [done|].
  rewrite chunk_sizes_step, sum_Z_cons by lia.
  unfold SLOT_CHUNK_CAPACITY. rewrite (IH (Z.to_nat (r - Z.min r 4096))) by lia. lia.
Qed.

Section allocated.
Context (reserve : Z -> result string Z).

Lemma reserve_exact_Ok what n c : reserve_exact reserve what n = Ok c <-> reserve n = Ok n /\ c = n.
Proof.
  unfold reserve_exact. rewrite bind_Ok. setoid_rewrite map_err_Ok. split.
  - intros (got&Hg&[Hne [= <-]]%guard_Ok). apply negb_false_iff, Z.eqb_eq in Hne as ->. done.
  - intros [Hr ->]. exists n. by rewrite Z.eqb_refl.
Qed.

Lemma alloc_chunks_spec fuel remaining chunks out :
  0 <= remaining -> (Z.to_nat (div_ceil remaining SLOT_CHUNK_CAPACITY) < fuel)%nat ->
  alloc_chunks reserve fuel remaining chunks = Ok out ->
  exists new, out = chunks ++ new /\ (fun c : list Key => lenZ c) <$> new = chunk_sizes remaining.
Proof.
  revert remaining chunks. induction fuel as [|fuel IH]; intros r chunks Hr Hf; [lia|].
  cbn [alloc_chunks]. destruct (Z.ltb_spec 0 r) as [Hpos|].
  - cbv zeta. intros (?&_&Hrest)%bind_Ok. unfold SLOT_CHUNK_CAPACITY in *.
    apply IH in Hrest as (new&->&Hnew); [|lia|].
    + eexists. rewrite <-app_assoc. split; [done|]. cbn [app]. rewrite fmap_cons, Hnew, length_replicate.
      rewrite (chunk_sizes_step r) by lia. unfold SLOT_CHUNK_CAPACITY. f_equal. lia.
    + rewrite (div_ceil_step r) in Hf by lia.
      assert (0 <= div_ceil (r - Z.min r 4096) 4096) by (apply Z.div_pos; lia). lia.
  - assert (r = 0) as -> by lia. intros [= <-]. exists []. by rewrite app_nil_r.
Qed.

Lemma allocate_spec h cap s :
  0 <= cap -> allocate reserve h cap = Ok s ->
  layout s /\ capacity s = cap /\ len s = 0 /\ hash s = h /\ sorted s = false /\
  dir_capacity s = div_ceil cap SLOT_CHUNK_CAPACITY /\ elems s = [].
Proof.
  intros Hcap. unfold allocate. cbv zeta. intros (?&[_ ->]%reserve_exact_Ok&Ha)%bind_Ok.
  apply bind_Ok in Ha as (chunks&Hc&Ha). apply bind_Ok in Ha as (?&_&[= <-]).
  apply alloc_chunks_spec in Hc as (new&->&Hnew); [|lia..]. rewrite app_nil_l in *.
  assert (0 <= div_ceil cap 64) by (apply Z.div_pos; lia).
  split_and!; try done.
  - constructor; cbn [capacity slots occupied]; [done|done|]. rewrite length_replicate. lia.
  - unfold elems. cbn [capacity].
    match goal with |- omap ?f _ = _ => rewrite (omap_ext_in f (fun _ => None)) end.
    + by induction (seqZ 0 cap).
    + intros i Hi%elem_of_seqZ. unfold entry. erewrite is_occupied_eq; [|lia|].
      2: { cbn [occupied]. apply lookup_replicate_2.
           pose proof (div_ceil_lt cap 64 i ltac:(lia) ltac:(lia)). lia. }
      by rewrite Z.bits_0.
Qed.

Lemma allocate_table h cap p s :
  0 <= p -> cap = 2 ^ p -> (forall k, 0 <= h k) -> allocate reserve h cap = Ok s -> table_ok s.
Proof.
  intros Hp -> Hh Ha. assert (0 < 2 ^ p) by (by apply Z.pow_pos_nonneg).
  apply allocate_spec in Ha as (Hl&Hc&Hn&Hha&Hs&_&He); [|lia].
  constructor; try done.
  - exists p. done.
  - by rewrite Hha.
  - by rewrite Hn, He.
  - rewrite He. constructor.
  - intros i k Hi Hk. assert (k ∈ elems s) as Hin by (apply elem_of_elems; eauto).
    rewrite He in Hin. by apply not_elem_of_nil in Hin.
Qed.

(** The reservations of [allocate], in order: the size of an element and how many. *)
Definition requests (cap : Z) : list (Z * Z) :=
  (size_of_vec, div_ceil cap SLOT_CHUNK_CAPACITY) ::
  (pair size_of_key <$> chunk_sizes cap) ++ [(size_of_word, div_ceil cap 64)].

(** What the allocator hands out for them, in bytes. *)
Definition obtained_bytes (rs : list (Z * Z)) : option Z :=
  foldr (fun r acc => match reserve r.2 with Ok got => Z.add (r.1 * got) <$> acc | Err _ => None end)
    (Some 0) rs.

Definition granted (rs : list (Z * Z)) : Prop := Forall (fun r => reserve r.2 = Ok r.2) rs.

Lemma obtained_granted rs :
  granted rs -> obtained_bytes rs = Some (sum_Z ((fun r => r.1 * r.2) <$> rs)).
Proof.
  induction 1 as [|r rs Hr _ IH]; [done|]. cbn [obtained_bytes foldr]. fold (obtained_bytes rs).
  by rewrite Hr, IH, fmap_cons, sum_Z_cons.
Qed.

Lemma sum_requests cap :
  0 <= cap -> sum_Z ((fun r => r.1 * r.2) <$> requests cap) =
    size_of_vec * div_ceil cap SLOT_CHUNK_CAPACITY + size_of_key * cap + size_of_word * div_ceil cap 64.
Proof.
  intros Hcap. unfold requests. rewrite fmap_cons, sum_Z_cons, fmap_app, sum_Z_app. cbn [fst snd].
  rewrite <-list_fmap_compose.
  assert (Hk : sum_Z (((fun r : Z * Z => r.1 * r.2) ∘ pair size_of_key) <$> chunk_sizes cap) =
    size_of_key * sum_Z (chunk_sizes cap)).
  { induction (chunk_sizes cap) as [|z l IH]; [done|]. rewrite fmap_cons, !sum_Z_cons, IH.
    unfold compose. cbn [fst snd]. lia. }
  rewrite Hk, chunk_sizes_sum by done. cbn. lia.
Qed.

Lemma alloc_chunks_ok fuel remaining chunks :
  0 <= remaining -> (Z.to_nat (div_ceil remaining SLOT_CHUNK_CAPACITY) < fuel)%nat ->
  (exists out, alloc_chunks reserve fuel remaining chunks = Ok out) <->
  granted (pair size_of_key <$> chunk_sizes remaining).
Proof.
  revert remaining chunks. induction fuel as [|fuel IH]; intros r chunks Hr Hf; [lia|].
  cbn [alloc_chunks]. destruct (Z.ltb_spec 0 r) as [Hpos|].
  - cbv zeta. rewrite (chunk_sizes_step r) by lia. unfold granted. rewrite fmap_cons, Forall_cons.
    fold (granted (pair size_of_key <$> chunk_sizes (r - Z.min r SLOT_CHUNK_CAPACITY))).
    rewrite <-(IH _ (chunks ++ [replicate (Z.to_nat (Z.min r SLOT_CHUNK_CAPACITY)) 0])).
    + setoid_rewrite bind_Ok. setoid_rewrite reserve_exact_Ok. cbn [snd]. naive_solver.
    + unfold SLOT_CHUNK_CAPACITY. lia.
    + unfold SLOT_CHUNK_CAPACITY in *. rewrite (div_ceil_step r) in Hf by lia.
      assert (0 <= div_ceil (r - Z.min r 4096) 4096) by (apply Z.div_pos; lia). lia.
  - assert (r = 0) as -> by lia. rewrite chunk_sizes_0. split; [by constructor|by eexists].
Qed.

(** The allocation succeeds exactly when every reservation is met exactly. *)
Lemma allocate_ok h cap :
  0 <= cap -> (exists s, allocate reserve h cap = Ok s) <-> granted (requests cap).
Proof.
  intros Hcap. unfold allocate, requests, granted. cbv zeta.
  rewrite Forall_cons, Forall_app, Forall_singleton. cbn [snd].
  fold (granted (pair size_of_key <$> chunk_sizes cap)).
  rewrite <-(alloc_chunks_ok (S (Z.to_nat (div_ceil cap SLOT_CHUNK_CAPACITY))) cap []) by lia.
  split.
  - intros (s&(c&[Hd _]%reserve_exact_Ok&(out&Ho&(w&[Hw _]%reserve_exact_Ok&_)%bind_Ok)%bind_Ok)%bind_Ok).
    eauto.
  - intros (Hd&(out&Ho)&Hw). eexists. apply bind_Ok. eexists. rewrite reserve_exact_Ok. split; [done|].
    apply bind_Ok. exists out. split; [done|].
    apply bind_Ok. eexists. rewrite reserve_exact_Ok. done.
Qed.
End allocated.

(** ** Storage accounting *)

(** The bytes of a table with a directory of [dir] chunk vectors. *)
Definition footprint (dir cap words : Z) : Z := size_of_vec * dir + size_of_key * cap + size_of_word * words.

Lemma chunk_bytes_eq b chunks :
  0 <= b -> b + size_of_key * sum_Z ((fun c : list Key => lenZ c) <$> chunks) <= usize_max ->
  chunk_bytes b chunks = b + size_of_key * sum_Z ((fun c : list Key => lenZ c) <$> chunks).
Proof.
  unfold chunk_bytes, size_of_key. revert b. induction chunks as [|c chunks IH]; intros b Hb Hle.
  { simpl. lia. }
  rewrite fmap_cons, sum_Z_cons in *. cbn [foldl]. pose proof (sum_lengths_nonneg chunks).
  unfold saturating_add, saturating_mul in *. rewrite IH; lia.
Qed.

Lemma storage_bytes_eq s :
  layout s -> 0 <= dir_capacity s ->
  footprint (dir_capacity s) (capacity s) (div_ceil (capacity s) 64) <= usize_max ->
  storage_bytes s = footprint (dir_capacity s) (capacity s) (div_ceil (capacity s) 64).
Proof.
  intros [Hc Hs Hb] Hd Hle. unfold footprint, size_of_vec, size_of_key, size_of_word in *.
  unfold storage_bytes. cbv zeta. rewrite Hb.
  assert (0 <= div_ceil (capacity s) 64) by (apply Z.div_pos; lia).
  assert (Hsum : sum_Z ((fun c : list Key => lenZ c) <$> slots s) = capacity s)
    by (rewrite Hs; by apply chunk_sizes_sum).
  unfold saturating_mul, size_of_vec, size_of_word. rewrite chunk_bytes_eq; rewrite ?Hsum;
    unfold saturating_add, size_of_key in *; lia.
Qed.

Lemma checked_Some (x y : Z) : (if x <=? usize_max then Some x else None) = Some y ->
  x <= usize_max /\ Some x = Some y.
Proof. destruct (Z.leb_spec x usize_max); [done|discriminate]. Qed.

Lemma storage_bytes_for_capacity_Some cap b :
  0 <= cap -> storage_bytes_for_capacity cap = Some b <->
  b = footprint (div_ceil cap SLOT_CHUNK_CAPACITY) cap (div_ceil cap 64) /\ b <= usize_max.
Proof.
  intros Hc. unfold storage_bytes_for_capacity, footprint, checked_mul, checked_add,
    size_of_vec, size_of_key, size_of_word.
  assert (0 <= div_ceil cap SLOT_CHUNK_CAPACITY) by (apply Z.div_pos; unfold SLOT_CHUNK_CAPACITY; lia).
  assert (Hd : (cap + 63) / 64 = div_ceil cap 64) by (unfold div_ceil; f_equal; lia).
  assert (0 <= div_ceil cap 64) by (apply Z.div_pos; lia).
  split.
  - do 5 (intros (?&(?&[= <-])%checked_Some&Hb)%bind_Some; revert Hb).
    intros (?&[= <-])%checked_Some. rewrite Hd in *. lia.
  - intros [-> Hle].
    assert (cap + 63 <= usize_max) by (unfold usize_max, u64_max in *; lia).
    rewrite (proj2 (Z.leb_le (cap * 16) usize_max)) by lia. cbn [mbind option_bind].
    rewrite (proj2 (Z.leb_le (_ * 24) usize_max)) by lia. cbn [mbind option_bind].
    rewrite (proj2 (Z.leb_le (cap + 63) usize_max)) by lia. cbn [mbind option_bind]. rewrite Hd.
    rewrite (proj2 (Z.leb_le (div_ceil cap 64 * 8) usize_max)) by lia. cbn [mbind option_bind].
    rewrite (proj2 (Z.leb_le _ usize_max)) by lia. cbn [mbind option_bind].
    rewrite (proj2 (Z.leb_le _ usize_max)) by lia. f_equal. lia.
Qed.

(** ** Growth *)

Lemma entry_occupied s i :
  layout s -> 0 <= i < capacity s ->
  (is_occupied s i = Some false /\ entry s i = None) \/
  (exists k, is_occupied s i = Some true /\ slot_at s i = Some k /\ entry s i = Some k).
Proof.
  intros Hl Hi. unfold entry. destruct (word_lookup s i Hl Hi) as [w Hw].
  rewrite (is_occupied_eq s i w) by (done || lia). destruct (slot_at_Some s i Hl Hi) as [k Hk].
  destruct (Z.testbit w (i mod 64)); [right; eauto|by left].
Qed.

Lemma reinsert_loop_spec s old idx :
  table_ok s -> layout old -> Forall (fun i => 0 <= i < capacity old) idx ->
  NoDup (omap (entry old) idx ++ elems s) ->
  lenZ (omap (entry old) idx) + lenZ (elems s) < capacity s ->
  exists s', reinsert_loop s old idx = Some s' /\ table_ok s' /\ capacity s' = capacity s /\
    hash s' = hash s /\ dir_capacity s' = dir_capacity s /\ elems s' ≡ₚ omap (entry old) idx ++ elems s.
Proof.
  intros Hok Hl. revert s Hok. induction idx as [|i idx IH]; intros s Hok Hidx Hnd Hlen.
  { exists s. done. }
  apply Forall_cons in Hidx as [Hi Hidx]. cbn [reinsert_loop]. rewrite omap_step in *.
  destruct (entry_occupied old i Hl Hi) as [[-> He]|(k&->&->&He)]; cbn [mbind option_bind]; rewrite He in *.
  { by apply IH. }
  apply NoDup_cons in Hnd as [Hnin Hnd]. cbn [length app] in *.
  destruct (insert_spec s k Hok) as (s'&->&Hok'&Hc&Hh&Hd&_&Hnew); [rewrite (ok_len s Hok); lia|].
  cbn [mbind option_bind]. destruct Hnew as [Hel _]; [rewrite elem_of_app in Hnin; tauto|].
  assert (Hmid : omap (entry old) idx ++ elems s' ≡ₚ k :: omap (entry old) idx ++ elems s)
    by (rewrite Hel; apply Permutation_sym, Permutation_middle).
  destruct (IH s' Hok' Hidx) as (s''&->&Hok''&Hc'&Hh'&Hd'&Hel').
  - rewrite Hmid. by apply NoDup_cons.
  - rewrite Hc. apply Permutation_length in Hel. rewrite Hel. cbn [length]. lia.
  - exists s''. split_and!; try congruence; try done. by rewrite Hel', Hmid.
Qed.

Lemma reinsert_all_spec s old :
  table_ok s -> elems s = [] -> table_ok old -> len old < capacity s ->
  exists s', reinsert_all s old = Some s' /\ table_ok s' /\ capacity s' = capacity s /\
    hash s' = hash s /\ dir_capacity s' = dir_capacity s /\ elems s' ≡ₚ elems old.
Proof.
  intros Hok He Hold Hlen. destruct (reinsert_loop_spec s old (seqZ 0 (capacity old)))
    as (s'&?&?&?&?&?&Hel); try done.
  - apply Hold.
  - apply Forall_forall. intros i Hi%elem_of_seqZ. lia.
  - rewrite He, app_nil_r. apply Hold.
  - rewrite He. rewrite (ok_len old Hold) in Hlen. unfold elems in Hlen. simpl. lia.
  - exists s'. split_and!; try done. rewrite He, app_nil_r in Hel. done.
Qed.

(** ** Compaction *)

Lemma seqZ_snoc r : 0 <= r -> seqZ 0 (r + 1) = seqZ 0 r ++ [r].
Proof. intros Hr. rewrite seqZ_app by lia. f_equal. Qed.

Lemma omap_app_single {A B} (f : A -> option B) (l : list A) x :
  omap f (l ++ [x]) = omap f l ++ option_list (f x).
Proof. rewrite omap_app, omap_step. by destruct (f x). Qed.

(** The loop after reading [r] slots of [s0]: the keys read so far are the prefix. *)
Record compacted (s0 s : CompactUuidSet) (r : Z) : Prop := {
  co_layout : layout s;
  co_same : capacity s = capacity s0 /\ occupied s = occupied s0 /\ len s = len s0 /\
            hash s = hash s0 /\ sorted s = sorted s0 /\ dir_capacity s = dir_capacity s0;
  co_prefix : forall i k, omap (entry s0) (seqZ 0 r) !! i = Some k -> slot_at s (Z.of_nat i) = Some k;
  co_rest : forall j, r <= j < capacity s0 -> slot_at s j = slot_at s0 j;
}.

Lemma compact_loop_spec s0 s r n :
  layout s0 -> 0 <= r -> r + Z.of_nat n = capacity s0 -> compacted s0 s r ->
  exists s' w, compact_loop s (seqZ r (Z.of_nat n)) (lenZ (omap (entry s0) (seqZ 0 r))) = Some (s', w) /\
    compacted s0 s' (capacity s0).
Proof.
  intros Hl0. revert s r. induction n as [|n IH]; intros s r Hr Hrn Hc.
  { rewrite seqZ_nil by lia. cbn [compact_loop]. do 2 eexists. split; [done|].
    by replace (capacity s0) with r by lia. }
  rewrite seqZ_cons by lia. replace (Z.pred (Z.of_nat (S n))) with (Z.of_nat n) by lia.
  replace (Z.succ r) with (r + 1) by lia.
  set (w := lenZ (omap (entry s0) (seqZ 0 r))).
  assert (Hw : 0 <= w <= r).
  { pose proof (omap_length_le (entry s0) (seqZ 0 r)) as H. rewrite length_seqZ in H. unfold w. lia. }
  destruct Hc as [Hl (Hcap&Hocc&Hlen&Hh&Hso&Hd) Hpre Hrest].
  cbn [compact_loop].
  assert (is_occupied s r = is_occupied s0 r) as -> by (unfold is_occupied; by rewrite Hocc).
  assert (Hstep : forall o, entry s0 r = o ->
    omap (entry s0) (seqZ 0 (r + 1)) = omap (entry s0) (seqZ 0 r) ++ option_list o)
    by (intros o <-; rewrite seqZ_snoc by lia; apply omap_app_single).
  destruct (entry_occupied s0 r Hl0 ltac:(lia)) as [[-> He]|(k&->&Hk&He)]; cbn [mbind option_bind].
  - specialize (Hstep _ He). simpl in Hstep. rewrite app_nil_r in Hstep. unfold w. rewrite <-Hstep.
    apply IH; [lia..|]. constructor; try done.
    + by rewrite Hstep.
    + intros j Hj. apply Hrest. lia.
  - specialize (Hstep _ He). simpl in Hstep.
    assert (Hw1 : lenZ (omap (entry s0) (seqZ 0 (r + 1))) = w + 1)
      by (rewrite Hstep, length_app; simpl; unfold w; lia).
    assert (Hpre1 : forall s2, (forall i, 0 <= i < w -> slot_at s2 i = slot_at s i) ->
      slot_at s2 w = Some k ->
      forall i k', omap (entry s0) (seqZ 0 (r + 1)) !! i = Some k' -> slot_at s2 (Z.of_nat i) = Some k').
    { intros s2 Hsame Hk2 i k'. rewrite Hstep, lookup_app_Some.
      intros [Hi|[Hge Hi]].
      - pose proof (lookup_lt_Some _ _ _ Hi). rewrite Hsame by (unfold w; lia). by apply Hpre.
      - apply list_lookup_singleton_Some in Hi as [Hi <-].
        replace (Z.of_nat i) with w by (unfold w; lia). done. }
    destruct (Z.eqb_spec w r) as [Heq|Hne]; cbn [negb].
    + cbn [mbind option_bind]. rewrite <-Hw1. apply IH; [lia..|]. constructor; try done.
      * apply Hpre1; [done|]. rewrite Heq, Hrest by lia. done.
      * intros j Hj. apply Hrest. lia.
    + rewrite (Hrest r) by lia. rewrite Hk. cbn [mbind option_bind].
      destruct (set_slot_spec s w k Hl ltac:(lia)) as (s2&->&Hl2&Hc2&Ho2&Hn2&Hh2&Hs2&Hd2&Hslot).
      cbn [mbind option_bind]. rewrite <-Hw1. apply IH; [lia..|]. constructor.
      * done.
      * split_and!; congruence.
      * apply Hpre1; [intros i Hi|]; rewrite Hslot by lia; [by rewrite decide_False by lia|by rewrite decide_True].
      * intros j Hj. rewrite Hslot by lia. rewrite decide_False by lia. apply Hrest. lia.
Qed.

Lemma fmap_take_sum n (chunks : list (list Key)) :
  foldr (fun c m => lenZ c + m) 0 (take n chunks) = sum_Z ((fun c => lenZ c) <$> take n chunks).
Proof.
  revert n. induction chunks as [|c chunks IH]; intros [|n]; [done..|]. cbn [take foldr].
  rewrite fmap_cons, sum_Z_cons. by rewrite IH.
Qed.

Lemma sum_take_le n (chunks : list (list Key)) :
  0 <= sum_Z ((fun c => lenZ c) <$> take n chunks) <= sum_Z ((fun c => lenZ c) <$> chunks).
Proof.
  split; [apply sum_lengths_nonneg|]. revert n.
  induction chunks as [|c chunks IH]; intros [|n]; [done|done| |].
  - cbn [take]. pose proof (sum_lengths_nonneg (c :: chunks)). done.
  - cbn [take]. rewrite !fmap_cons, !sum_Z_cons. specialize (IH n). lia.
Qed.

Lemma storage_bytes_no_bits s :
  occupied s = [] -> 0 <= dir_capacity s ->
  size_of_vec * dir_capacity s + size_of_key * sum_Z ((fun c => lenZ c) <$> slots s) <= usize_max ->
  storage_bytes s = size_of_vec * dir_capacity s + size_of_key * sum_Z ((fun c => lenZ c) <$> slots s).
Proof.
  intros Ho Hd Hle. unfold storage_bytes. cbv zeta. rewrite Ho.
  pose proof (sum_lengths_nonneg (slots s)).
  unfold saturating_mul, size_of_vec, size_of_word, size_of_key in *. cbn [length].
  rewrite chunk_bytes_eq; unfold size_of_key, saturating_add in *; lia.
Qed.

(** What completion keeps: the keys in slot order, in the chunks that hold them. *)
Lemma compact_occupied_prefix_spec s :
  table_ok s -> 0 <= dir_capacity s ->
  footprint (dir_capacity s) (capacity s) (div_ceil (capacity s) 64) <= usize_max ->
  exists s', compact_occupied_prefix s = Some (storage_bytes s - storage_bytes s', s') /\
    0 <= storage_bytes s' <= storage_bytes s /\ prefix_keys s' = Some (elems s) /\
    len s' = len s /\ occupied s' = [] /\ dir_capacity s' = dir_capacity s /\
    storage_bytes s' = size_of_vec * dir_capacity s + size_of_key * sum_Z ((fun c => lenZ c) <$> slots s') /\
    (len s <> 0 -> slots s' <> []).
Proof.
  intros Hok Hd Hfp. pose proof (ok_layout s Hok) as Hl. pose proof (layout_capacity s Hl) as Hc0.
  destruct (compact_loop_spec s s 0 (Z.to_nat (capacity s))) as (s1&w&Hloop&Hco);
    [done|lia|lia|constructor; done|].
  rewrite Z2Nat.id in Hloop by done. cbn [length] in Hloop.
  unfold compact_occupied_prefix. cbv zeta.
  change (lenZ (omap (entry s) (seqZ 0 0))) with 0 in Hloop. rewrite Hloop. cbn [mbind option_bind].
  destruct Hco as [Hl1 (Hcap&Hocc&Hlen&Hh&Hso&Hdir) Hpre _].
  rewrite fmap_take_sum, Hlen, Hdir.
  set (keep := Z.to_nat (div_ceil (len s) SLOT_CHUNK_CAPACITY)).
  set (s' := mkSet _ _ _ _ _ _ _).
  assert (Hle : len s <= capacity s).
  { rewrite (ok_len s Hok). unfold elems.
    pose proof (omap_length_le (entry s) (seqZ 0 (capacity s))) as H. rewrite length_seqZ in H. lia. }
  assert (Hlen0 : 0 <= len s) by (rewrite (ok_len s Hok); lia).
  assert (Hsum1 : sum_Z ((fun c : list Key => lenZ c) <$> slots s1) = capacity s)
    by (rewrite (layout_slots s1 Hl1), Hcap; by apply chunk_sizes_sum).
  pose proof (sum_take_le keep (slots s1)) as Hsum. rewrite Hsum1 in Hsum.
  assert (0 <= div_ceil (capacity s) 64) by (apply Z.div_pos; lia).
  assert (Hnew : storage_bytes s' =
    size_of_vec * dir_capacity s + size_of_key * sum_Z ((fun c => lenZ c) <$> slots s')).
  { apply (storage_bytes_no_bits s'); cbn [s' slots occupied dir_capacity]; [done|done|].
    unfold footprint, size_of_vec, size_of_key, size_of_word in *. lia. }
  assert (Hold : storage_bytes s = footprint (dir_capacity s) (capacity s) (div_ceil (capacity s) 64))
    by (by apply storage_bytes_eq).
  assert (Hb : 0 <= storage_bytes s' <= storage_bytes s).
  { rewrite Hnew, Hold. cbn [s' slots]. unfold footprint, size_of_vec, size_of_key, size_of_word. lia. }
  exists s'. split_and!; try done; try lia.
  - unfold saturating_sub. by rewrite Z.max_l by lia.
  - unfold prefix_keys. cbn [s' len]. apply mapM_Some_2, Forall2_same_length_lookup_2.
    { rewrite length_seqZ. rewrite (ok_len s Hok). unfold elems. lia. }
    intros i x k Hx Hk. apply lookup_seqZ in Hx as [-> Hi]. rewrite Z.add_0_l.
    rewrite <-(Hpre i k Hk). unfold slot_at. cbn [s' slots].
    rewrite lookup_take_lt; [done|]. unfold keep. apply Z2Nat.inj_lt.
    + apply Z.div_pos; [lia|unfold SLOT_CHUNK_CAPACITY; lia].
    + apply Z.div_pos; unfold SLOT_CHUNK_CAPACITY; lia.
    + apply div_ceil_lt; [unfold SLOT_CHUNK_CAPACITY; lia|lia].
  - intros Hne Hnil. cbn [s' slots] in Hnil.
    destruct (chunk_lookup s1 0 Hl1) as (c&Hc&_); [lia|]. rewrite Z.div_0_l in Hc by done.
    assert (Hk : (0 < keep)%nat).
    { unfold keep. pose proof (div_ceil_lt (len s) SLOT_CHUNK_CAPACITY 0 ltac:(unfold SLOT_CHUNK_CAPACITY; lia) ltac:(lia)).
      lia. }
    destruct (slots s1) as [|c1 l1]; [done|]. destruct keep; [lia|done].
Qed.

(** ** The sorted run *)

Lemma sort_keys_ascending ks : NoDup ks -> ascending (sort_by_key id ks).
Proof.
  intros Hnd. assert (Hs : StronglySorted (key_le id) (sort_by_key id ks)) by apply sort_by_key_sorted.
  assert (Hn : NoDup (sort_by_key id ks)) by (by rewrite sort_by_key_perm).
  induction Hs as [|x l Hs IH Hall]; [constructor|]. apply NoDup_cons in Hn as [Hx Hn].
  constructor; [by apply IH|]. rewrite Forall_forall in *. intros y Hy.
  specialize (Hall y Hy). unfold key_le, id, ord_le in Hall. simpl in Hall.
  assert (x <> y) by congruence. lia.
Qed.

(** A completed set: sorted, with the keys of [run]. *)
Record run_set (run : list Key) (s : CompactUuidSet) : Prop := {
  rs_sorted : sorted s = true;
  rs_len : len s = lenZ run;
  rs_slots : slots s = if decide (run = []) then [] else [run];
  rs_run : ascending run;
}.

Lemma run_set_contains run s k : run_set run s -> contains s k = Some (bool_decide (k ∈ run)).
Proof.
  intros [Hs Hn Hsl Hr]. unfold contains. destruct (Z.eqb_spec (len s) 0) as [H0|H0].
  - destruct run; [|simpl in Hn; lia]. by rewrite bool_decide_eq_false_2 by apply not_elem_of_nil.
  - rewrite Hs, Hsl. rewrite decide_False by (intros ->; simpl in Hn; lia).
    cbn [lookup list_lookup mbind option_bind]. f_equal. apply eq_bool_prop_intro.
    rewrite bool_decide_spec, Is_true_true. by apply binary_search_is_ok_iff.
Qed.

(** ** The trait instance *)

(** [contains] of a well-formed set never panics, see [contains_spec]. *)
Definition set_membership (s : CompactUuidSet) : UuidMembership := {|
  m_len := len s;
  contains_uuid := fun k => default false (contains s k);
  m_is_empty := set_is_empty s;
  min_uuid := set_min s;
  max_uuid := set_max s;
  may_contain_in_range := default_may_contain_in_range (fun lo hi p => Some (set_any_match s lo hi p));
  any_match_in_range := fun lo hi p => Some (set_any_match s lo hi p);
  contains_every_in_range := default_contains_every_in_range;
|}.

Lemma run_set_laws run s :
  run_set run s -> Forall is_key run -> MembershipLaws (fun k => k ∈ run) (set_membership s).
Proof.
  intros Hrs Hk. pose proof Hrs as [Hs Hn Hsl Hr]. rewrite Forall_forall in Hk.
  assert (Hany : forall lo hi p, set_any_match s lo hi p = true <->
    exists k, k ∈ run /\ lo <= k <= hi /\ p k = true).
  { intros lo hi p. unfold set_any_match. rewrite Hs, Hsl. cbn [negb]. case_decide as Hnil.
    - subst run. split; [done|]. by intros (k&?%not_elem_of_nil&_).
    - by apply range_any_iff. }
  constructor; cbn [set_membership contains_uuid m_is_empty min_uuid max_uuid may_contain_in_range
    any_match_in_range contains_every_in_range].
  - auto.
  - intros k _. rewrite (run_set_contains run) by done. simpl. by rewrite bool_decide_eq_true.
  - unfold set_is_empty. rewrite Hn, Z.eqb_eq. intros H0 k Hin. destruct run; [|done].
    by apply not_elem_of_nil in Hin.
  - intros b k. unfold set_min. rewrite Hs, Hsl. case_decide; [done|]. by apply BTree.ascending_head.
  - intros b k. unfold set_max. rewrite Hs, Hsl. case_decide; [done|]. by apply BTree.ascending_last.
  - intros lo hi _. eexists. split; [done|]. intros k ? ?. apply Hany. eauto.
  - intros lo hi p _. eexists. split; [done|]. intros k ? ? ?. apply Hany. eauto.
  - done.
Qed.

(** ** Properties *)

(** C26 Linear probing is a set: while a slot is free, [contains] terminates and decides
    membership, and [insert_without_growing] terminates, reports whether the key is new,
    adds exactly that key and keeps every invariant of the table. *)
Theorem compact_set_insert_contains s k :
  table_ok s -> len s < capacity s ->
  contains s k = Some (bool_decide (k ∈ elems s)) /\
  exists s', insert_without_growing s k = Some (bool_decide (k ∉ elems s), s') /\ table_ok s' /\
    capacity s' = capacity s /\ (forall k', k' ∈ elems s' <-> k' = k \/ k' ∈ elems s) /\
    len s' = len s + (if decide (k ∈ elems s) then 0 else 1).
Proof.
  intros Hok Hlen. split; [by apply contains_spec|].
  destruct (insert_spec s k Hok Hlen) as (s'&Hi&Hok'&Hc&_&_&Hin&Hnin). exists s'. split_and!; try done.
  - intros k'. destruct (decide (k ∈ elems s)) as [Hk|Hk].
    + rewrite (Hin Hk). split; [tauto|]. by intros [->|?].
    + destruct (Hnin Hk) as [-> _]. by rewrite elem_of_cons.
  - destruct (decide (k ∈ elems s)) as [Hk|Hk]; [rewrite (Hin Hk); lia|]. by destruct (Hnin Hk) as [_ ->].
Qed.

(** C37 The bytes charged before an allocation are the bytes the table holds, whatever the
    allocator does: when the size computation does not overflow, the allocation succeeds
    exactly when every reservation (directory, chunks, bitmap) is met with exactly the
    capacity asked for, and then both the bytes the allocator handed out and
    [storage_bytes] of the fresh empty table are [storage_bytes_for_capacity]. *)
Theorem compact_set_storage_exact reserve h cap bytes :
  0 <= cap -> storage_bytes_for_capacity cap = Some bytes ->
  ((exists s, allocate reserve h cap = Ok s) <-> granted reserve (requests cap)) /\
  (forall s, allocate reserve h cap = Ok s ->
    obtained_bytes reserve (requests cap) = Some bytes /\ storage_bytes s = bytes /\
    elems s = [] /\ capacity s = cap).
Proof.
  intros Hcap Hb. apply storage_bytes_for_capacity_Some in Hb as [-> Hle]; [|done].
  split; [by apply allocate_ok|]. intros s Ha.
  assert (Hg : granted reserve (requests cap)) by (apply (allocate_ok _ h); eauto).
  apply allocate_spec in Ha as (Hl&Hc&_&_&_&Hd&He); [|done].
  assert (0 <= div_ceil cap SLOT_CHUNK_CAPACITY) by (apply Z.div_pos; unfold SLOT_CHUNK_CAPACITY; lia).
  split_and!; try done.
  - by rewrite obtained_granted, sum_requests.
  - rewrite storage_bytes_eq; rewrite ?Hc, ?Hd; done.
Qed.

(** Completion: compacting in place, sorting the prefix and installing the run yields a
    set whose binary search answers exactly for the keys the table had. *)
Theorem compact_set_completion s reserve :
  table_ok s -> 0 <= dir_capacity s -> len s <> 0 ->
  footprint (dir_capacity s) (capacity s) (div_ceil (capacity s) 64) <= usize_max ->
  reserve (len s) = Ok (len s) ->
  exists released s1 run released' s2,
    compact_occupied_prefix s = Some (released, s1) /\
    released = storage_bytes s - storage_bytes s1 /\
    allocate_sorted_prefix reserve s1 = Some (Ok run) /\
    install_sorted s1 run = Some (released', s2) /\
    (forall k, contains s2 k = Some (bool_decide (k ∈ elems s))) /\ run ≡ₚ elems s /\ ascending run.
Proof.
  intros Hok Hd Hne Hfp Hres.
  destruct (compact_occupied_prefix_spec s Hok Hd Hfp) as (s1&Hco&Hb&Hpre&Hlen&Hocc&_&_&Hsl).
  assert (Hp : sort_by_key id (elems s) ≡ₚ elems s) by apply sort_by_key_perm.
  assert (Hinst : exists r2 s2, install_sorted s1 (sort_by_key id (elems s)) = Some (r2, s2) /\
    run_set (sort_by_key id (elems s)) s2).
  { unfold install_sorted. rewrite Hlen, (proj2 (Z.eqb_neq _ 0)) by done.
    destruct (slots s1) as [|c l] eqn:Es; [by destruct Hsl|]. do 2 eexists. split; [done|].
    constructor; cbn [sorted len slots]; [done| | |apply sort_keys_ascending, Hok].
    - apply Permutation_length in Hp. rewrite Hp, (ok_len s Hok). done.
    - rewrite decide_False; [done|]. intros Hnil. apply Permutation_length in Hp. rewrite Hnil in Hp.
      rewrite (ok_len s Hok) in Hne. simpl in Hp. lia. }
  destruct Hinst as (r2&s2&Hi&Hrs).
  exists (storage_bytes s - storage_bytes s1), s1, (sort_by_key id (elems s)), r2, s2.
  split_and!; try done.
  - unfold allocate_sorted_prefix. rewrite Hlen, (proj2 (reserve_exact_Ok reserve _ _ _)) by done.
    by rewrite Hpre.
  - intros k. rewrite (run_set_contains _ s2 k Hrs). f_equal. apply bool_decide_ext. by rewrite Hp.
  - apply Hrs.
Qed.

(** ** Witnesses *)

(** A 16-slot table in which every key hashes to the last slot. *)
Definition demo_table : CompactUuidSet :=
  match allocate (fun n => Ok n) (fun _ => 15) 16 with
  | Ok s => match insert_without_growing s 9 with
            | Some (_, s) => match insert_without_growing s 4 with Some (_, s) => s | None => s end
            | None => s
            end
  | Err _ => set_default (fun _ => 15)
  end.

Lemma demo_empty_ok s : allocate (fun n => Ok n) (fun _ => 15) 16 = Ok s -> table_ok s.
Proof. apply (allocate_table (fun n => Ok n) _ _ 4); [lia|done|lia]. Qed.

Lemma demo_table_ok : table_ok demo_table.
Proof.
  unfold demo_table. destruct (allocate _ _ 16) as [s|e] eqn:Ea; [|vm_compute in Ea; discriminate Ea].
  pose proof (demo_empty_ok s Ea) as Hok.
  apply allocate_spec in Ea as (_&Hc&Hn&_); [|lia].
  destruct (insert_spec s 9 Hok) as (s1&->&Hok1&Hc1&_&_&H1&H1'); [lia|].
  assert (len s1 <= 1) as Hn1.
  { destruct (decide (9 ∈ elems s)) as [Hi|Hi]; [rewrite (H1 Hi); lia|]. destruct (H1' Hi). lia. }
  destruct (insert_spec s1 4 Hok1) as (s2&->&Hok2&_); [lia|]. done.
Qed.

Lemma compact_set_insert_contains_witness :
  exists s', insert_without_growing demo_table 7 = Some (true, s') /\ contains demo_table 7 = Some false.
Proof.
  destruct (compact_set_insert_contains demo_table 7) as (Hc&s'&Hi&_);
    [apply demo_table_ok|by vm_compute|].
  exists s'. split; [|by vm_compute]. rewrite Hi. by vm_compute.
Defined.

(** An allocator that rounds 4096-element requests up is refused; an exact one is not. *)
Lemma compact_set_storage_exact_witness :
  ~ (exists s, allocate (fun n => Ok (if n =? 4096 then 4097 else n)) (fun _ => 15) 5000 = Ok s) /\
  exists s, allocate (fun n => Ok n) (fun _ => 15) 5000 = Ok s /\ storage_bytes s = 80680.
Proof.
  split.
  - intros Hs%(compact_set_storage_exact _ (fun _ => 15) 5000 80680); [|lia|by vm_compute].
    apply Forall_cons in Hs as [_ Hs]. apply Forall_cons in Hs as [Hs _]. vm_compute in Hs. discriminate Hs.
  - eexists. split; [vm_compute; reflexivity|].
    eapply (compact_set_storage_exact (fun n => Ok n) (fun _ => 15) 5000 80680);
      [lia|by vm_compute|vm_compute; reflexivity].
Defined.

Lemma compact_set_completion_witness :
  exists released s1 run, compact_occupied_prefix demo_table = Some (released, s1) /\
    allocate_sorted_prefix (fun n => Ok n) s1 = Some (Ok run) /\ ascending run.
Proof.
  destruct (compact_set_completion demo_table (fun n => Ok n)) as (r&s1&run&r'&s2&H1&_&H2&_&_&_&H3);
    [apply demo_table_ok|by vm_compute|by vm_compute|by vm_compute|done|].
  by exists r, s1, run.
Defined.
