(* ===== verification/Nomination.v ===== *)
(** * Build-key nominations: [UuidBuildKeyNomination] of
    [crates/graphforge-storage/src/property_join_nomination.rs].

    A nomination collects the keys of a hash join's build side in a [CompactUuidSet],
    charges every byte to a memory reservation, and ends complete, abandoned or failed.
    The memory pool, the allocator and the hash seeds are parameters.  [None] is a panic:
    an index out of range, a reservation shrunk below zero, or a failed debug assertion.
    Messages that quote an error of the pool or the allocator keep only their own text.
    The locks are taken and released inside each method, so methods are sequential steps. *)

From stdpp Require Import base list gmap sets sorting numbers strings.
From Stdlib Require Import ZArith Lia.
From S2P Require Import Prelude Membership CompactSet.

Definition NOMINATION_BASE_BYTES : Z := 512.
Definition NOMINATION_POOL_FRACTION : Z := 8.

Inductive NominationStatus := Pending | Complete | Abandoned | Unknown | Failed (error : string).

Record NominationLimits := mkLimits { max_ids : option Z }.

Inductive DataFusionError :=
| Internal (message : string)
| Execution (message : string)
| ResourcesExhausted (message : string)
| ReservationDenied.

Record UuidBuildKeyNomination := mkNomination {
  status : NominationStatus;
  collecting : CompactUuidSet;
  completed : option CompactUuidSet;
  reservation : option Z;
  started : bool;
  limits : option NominationLimits;
  byte_cap : Z;
}.

Abbreviation Nom := UuidBuildKeyNomination.

Definition with_status (n : Nom) (x : NominationStatus) : Nom :=
  mkNomination x (collecting n) (completed n) (reservation n) (started n) (limits n) (byte_cap n).
Definition with_collecting (n : Nom) (x : CompactUuidSet) : Nom :=
  mkNomination (status n) x (completed n) (reservation n) (started n) (limits n) (byte_cap n).
Definition with_completed (n : Nom) (x : option CompactUuidSet) : Nom :=
  mkNomination (status n) (collecting n) x (reservation n) (started n) (limits n) (byte_cap n).
Definition with_reservation (n : Nom) (x : option Z) : Nom :=
  mkNomination (status n) (collecting n) (completed n) x (started n) (limits n) (byte_cap n).

(** [MemoryReservation::shrink] panics below zero. *)
Definition shrink (size bytes : Z) : option Z := if size <? bytes then None else Some (size - bytes).

(** [if let Some(reservation) = ... { reservation.shrink(bytes) }] *)
Definition shrink_held (n : Nom) (bytes : Z) : option Nom :=
  match reservation n with
  | None => Some n
  | Some size => size ← shrink size bytes; Some (with_reservation n (Some size))
  end.

Definition is_abandoned (n : Nom) : bool :=
  match status n with Abandoned => true | _ => false end.

(** Only a pending nomination takes a terminal status. *)
Definition set_terminal (n : Nom) (terminal : NominationStatus) : Nom :=
  match status n with Pending => with_status n terminal | _ => n end.

Definition fail (n : Nom) (error : string) : Nom := set_terminal n (Failed error).

Section nomination.
(** [try_reserve_exact]; the pool's answer to growing a reservation of a size by some
    bytes; the pool's limit; the hash of the table allocated with a capacity. *)
Context (reserve : Z -> result string Z) (pool_grants : Z -> Z -> bool) (pool_limit : option Z).
Context (random_state : Z -> Key -> Z).

(** [with_optional_limits] *)
Definition nomination_new (limits : option NominationLimits) : Nom :=
  mkNomination Pending (set_default (random_state 0)) None None false limits usize_max.

Definition start (n : Nom) : result DataFusionError unit * Nom :=
  if started n
  then (Err (Internal "UUID build nomination tap executed more than once"), n)
  else
    let n := mkNomination (status n) (collecting n) (completed n) (reservation n) true (limits n) (byte_cap n) in
    if negb (pool_grants 0 NOMINATION_BASE_BYTES) then (Err ReservationDenied, n)
    else
      let cap := match limits n, pool_limit with
                 | Some _, Some pool => pool / NOMINATION_POOL_FRACTION
                 | _, _ => byte_cap n
                 end in
      (Ok tt, mkNomination (status n) (collecting n) (completed n) (Some NOMINATION_BASE_BYTES) true
                (limits n) cap).

(** Free the set and the reservation. *)
Definition abandon (n : Nom) : Nom :=
  set_terminal (with_reservation (with_collecting n (set_default (random_state 0))) (Some 0)) Abandoned.

(** The growth branch of [observe]; [false] ends the batch without an error. *)
Definition grow_and_insert (n : Nom) (size : Z) (uuid : Key) : option (result DataFusionError bool * Nom) :=
  match capacity_for_next_insert (collecting n) with
  | None => Some (Err (ResourcesExhausted "UUID nomination capacity overflow"), n)
  | Some new_capacity =>
    match storage_bytes_for_capacity new_capacity with
    | None => Some (Err (ResourcesExhausted "UUID nomination allocation size overflow"), n)
    | Some requested_bytes =>
      if byte_cap n <? requested_bytes then Some (Ok false, abandon n)
      else
        let old_bytes := storage_bytes (collecting n) in
        if negb (pool_grants size requested_bytes) then Some (Err ReservationDenied, n)
        else
          let size := size + requested_bytes in
          match allocate reserve (random_state new_capacity) new_capacity with
          | Err error =>
              size ← shrink size requested_bytes;
              Some (Err (ResourcesExhausted "cannot allocate UUID nomination set"),
                    with_reservation n (Some size))
          | Ok replacement =>
              if negb (storage_bytes replacement =? requested_bytes) then None
              else
                replacement ← reinsert_all replacement (collecting n);
                '(inserted, replacement) ← insert_without_growing replacement uuid;
                if negb inserted then None
                else
                  size ← shrink size old_bytes;
                  Some (Ok true, with_reservation (with_collecting n replacement) (Some size))
          end
    end
  end.

Definition over_max_ids (n : Nom) : bool :=
  match limits n ≫= max_ids with Some max => max <=? len (collecting n) | None => false end.

(** One row of [observe]. *)
Definition observe_key (n : Nom) (uuid : Key) : option (result DataFusionError bool * Nom) :=
  known ← contains (collecting n) uuid;
  if (known : bool) then Some (Ok true, n)
  else
    match reservation n with
    | None => Some (Err (Internal "UUID build nomination tap has no memory reservation"), n)
    | Some size =>
        if over_max_ids n then Some (Ok false, abandon n)
        else
          growth ← needs_growth_for (collecting n) uuid;
          if (growth : bool) then grow_and_insert n size uuid
          else
            '(inserted, set) ← insert_without_growing (collecting n) uuid;
            if negb inserted then None else Some (Ok true, with_collecting n set)
    end.

(** The rows of one batch: nulls are skipped, other values are 16-byte keys. *)
Fixpoint observe_rows (n : Nom) (values : list (option (list Z)))
    : option (result DataFusionError unit * Nom) :=
  match values with
  | [] => Some (Ok tt, n)
  | None :: values' => observe_rows n values'
  | Some bytes :: values' =>
      if negb (lenZ bytes =? 16)
      then Some (Err (Execution "UUID build nomination received a non-16-byte key"), n)
      else
        '(r, n) ← observe_key n (from_be bytes);
        match r with
        | Err e => Some (Err e, n)
        | Ok false => Some (Ok tt, n)
        | Ok true => observe_rows n values'
        end
  end.

Definition observe (n : Nom) (values : list (option (list Z)))
    : option (result DataFusionError unit * Nom) :=
  if is_abandoned n then Some (Ok tt, n) else observe_rows n values.

(** [self.completed.set(keys)]: the cell is written once. *)
Definition publish (n : Nom) (keys : CompactUuidSet) : option Nom :=
  match completed n with None => Some (with_completed n (Some keys)) | Some _ => None end.

Definition complete_empty (n : Nom) (keys : CompactUuidSet) : option (result DataFusionError unit * Nom) :=
  '(released, keys) ← install_sorted keys [];
  n ← (if 0 <? released then shrink_held n released else Some n);
  match publish n keys with
  | None => Some (Err (Internal "UUID build nomination completed more than once"), n)
  | Some n => Some (Ok tt, set_terminal n Complete)
  end.

Definition complete (n : Nom) : option (result DataFusionError unit * Nom) :=
  if is_abandoned n then Some (Ok tt, n)
  else
    let keys := collecting n in
    let n := with_collecting n (set_default (random_state 0)) in
    '(released, keys) ← compact_occupied_prefix keys;
    n ← (if 0 <? released then shrink_held n released else Some n);
    if set_is_empty keys then complete_empty n keys
    else
      let table_bytes := storage_bytes keys in
      match sorted_storage_bytes keys with
      | None =>
          n ← shrink_held n table_bytes;
          Some (Err (ResourcesExhausted "UUID sorted allocation size overflow"),
                fail n "UUID sorted allocation size overflow")
      | Some sorted_bytes =>
          match reservation n with
          | None => Some (Err (Internal "UUID build nomination has no memory reservation"), n)
          | Some size =>
              if negb (pool_grants size sorted_bytes) then
                n ← shrink_held n table_bytes;
                Some (Err (ResourcesExhausted "cannot reserve compact UUID nomination"),
                      fail n "reservation denied")
              else
                let n := with_reservation n (Some (size + sorted_bytes)) in
                r ← allocate_sorted_prefix reserve keys;
                match r with
                | Err error =>
                    n ← shrink_held n sorted_bytes;
                    n ← shrink_held n table_bytes;
                    Some (Err (ResourcesExhausted "cannot allocate compact UUID nomination"),
                          fail n "cannot allocate compact UUID nomination")
                | Ok sorted =>
                    '(released, keys) ← install_sorted keys sorted;
                    n ← shrink_held n released;
                    match publish n keys with
                    | Some n => Some (Ok tt, set_terminal n Complete)
                    | None =>
                        Some (Err (Internal "UUID build nomination completed more than once"),
                              fail n "UUID build nomination completed more than once")
                    end
                end
          end
      end.
End nomination.

(** ** Invariant: the set is well-formed and every byte of it is charged *)

(** At most half full, with the directory [allocate] gave it and no overflow in its size. *)
Record grown_ok (s : CompactUuidSet) : Prop := {
  gr_table : table_ok s;
  gr_load : 2 * len s <= capacity s;
  gr_large : INITIAL_CAPACITY <= capacity s;
  gr_dir : dir_capacity s = div_ceil (capacity s) SLOT_CHUNK_CAPACITY;
  gr_fits : footprint (dir_capacity s) (capacity s) (div_ceil (capacity s) 64) <= usize_max;
}.

Definition set_ok (s : CompactUuidSet) : Prop := (exists h, s = set_default h) \/ grown_ok s.

Record nomination_ok (n : Nom) : Prop := {
  no_status : status n = Pending;
  no_set : set_ok (collecting n);
  no_charged : reservation n = Some (NOMINATION_BASE_BYTES + storage_bytes (collecting n));
  no_completed : completed n = None;
}.

Lemma set_default_facts h :
  elems (set_default h) = [] /\ storage_bytes (set_default h) = 0 /\ len (set_default h) = 0.
Proof. split_and!; reflexivity. Qed.

Lemma grown_dir s : grown_ok s -> 0 <= dir_capacity s.
Proof.
  intros Hg. rewrite (gr_dir s Hg). apply Z.div_pos; unfold SLOT_CHUNK_CAPACITY; [|lia].
  pose proof (gr_large s Hg). unfold INITIAL_CAPACITY in *. lia.
Qed.

Lemma grown_bytes s : grown_ok s ->
  storage_bytes s = footprint (dir_capacity s) (capacity s) (div_ceil (capacity s) 64) /\
  0 <= storage_bytes s.
Proof.
  intros Hg. pose proof (grown_dir s Hg) as Hd. pose proof (gr_large s Hg). unfold INITIAL_CAPACITY in *.
  rewrite storage_bytes_eq by (done || apply Hg). split; [done|].
  assert (0 <= div_ceil (capacity s) 64) by (apply Z.div_pos; lia).
  unfold footprint, size_of_vec, size_of_key, size_of_word. lia.
Qed.

Lemma set_bytes_nonneg s : set_ok s -> 0 <= storage_bytes s.
Proof. intros [(h&->)|Hg]; [done|by apply grown_bytes]. Qed.

(** Membership never panics on a set that the nomination holds. *)
Lemma set_contains s k : set_ok s -> contains s k = Some (bool_decide (k ∈ elems s)).
Proof.
  intros [(h&->)|Hg].
  - destruct (set_default_facts h) as (->&_&_).
    by rewrite bool_decide_eq_false_2 by apply not_elem_of_nil.
  - apply contains_spec; [apply Hg|]. pose proof (gr_load s Hg). pose proof (gr_large s Hg).
    unfold INITIAL_CAPACITY in *. rewrite (ok_len s (gr_table s Hg)) in *. lia.
Qed.

Lemma set_len s : set_ok s -> len s = lenZ (elems s).
Proof. intros [(h&->)|Hg]; [done|apply (ok_len s (gr_table s Hg))]. Qed.

(** A set that the caller must not grow has room for one more key. *)
Lemma room_without_growth s k :
  set_ok s -> k ∉ elems s -> needs_growth_for s k = Some false ->
  grown_ok s /\ 2 * (len s + 1) <= capacity s.
Proof.
  intros Hs Hk. unfold needs_growth_for. rewrite set_contains by done.
  rewrite bool_decide_eq_false_2 by done. cbn [mbind option_bind negb andb]. intros [= Hlt].
  apply Z.ltb_ge in Hlt. unfold saturating_add in Hlt. pose proof (set_len s Hs).
  destruct Hs as [(h&->)|Hg]; [done|]. split; [done|].
  pose proof (gr_load s Hg). pose proof (gr_large s Hg). pose proof (gr_fits s Hg).
  pose proof (grown_dir s Hg). unfold INITIAL_CAPACITY, footprint, size_of_vec, size_of_key, size_of_word in *.
  assert (0 <= div_ceil (capacity s) 64) by (apply Z.div_pos; lia).
  pose proof (Z.div_mod (capacity s) 2 ltac:(lia)). pose proof (Z.mod_pos_bound (capacity s) 2 ltac:(lia)).
  lia.
Qed.

Lemma insert_grown s k :
  grown_ok s -> k ∉ elems s -> 2 * (len s + 1) <= capacity s ->
  exists s', insert_without_growing s k = Some (true, s') /\ grown_ok s' /\
    storage_bytes s' = storage_bytes s /\ elems s' ≡ₚ k :: elems s.
Proof.
  intros Hg Hk Hroom. pose proof (gr_table s Hg) as Hok. pose proof (ok_len s Hok).
  destruct (insert_spec s k Hok ltac:(lia)) as (s'&Hi&Hok'&Hc&_&Hd&_&Hnew).
  rewrite bool_decide_eq_true_2 in Hi by done. destruct (Hnew Hk) as [Hel Hlen]. exists s'.
  assert (Hg' : grown_ok s').
  { constructor; rewrite ?Hc, ?Hd; try apply Hg; [done|lia]. }
  split_and!; try done. rewrite (proj1 (grown_bytes s' Hg')), (proj1 (grown_bytes s Hg)). by rewrite Hc, Hd.
Qed.

(** The next capacity is the next power of two, starting at 16. *)
Lemma next_capacity s cap :
  set_ok s -> capacity_for_next_insert s = Some cap ->
  INITIAL_CAPACITY <= cap /\ 2 * (len s + 1) <= cap /\ exists p, 0 <= p /\ cap = 2 ^ p.
Proof.
  intros [(h&->)|Hg]; unfold capacity_for_next_insert.
  - cbn [capacity set_default]. intros [= <-]. unfold INITIAL_CAPACITY. cbn [len set_default].
    split_and!; [lia|lia|]. by exists 4.
  - pose proof (gr_large s Hg). pose proof (gr_load s Hg). unfold INITIAL_CAPACITY in *.
    rewrite (proj2 (Z.eqb_neq _ 0)) by lia. intros (?&[= <-])%checked_Some. split_and!; [lia|lia|].
    destruct (ok_power s (gr_table s Hg)) as (p&Hp&->). exists (p + 1). split; [lia|].
    rewrite Z.pow_add_r by lia. lia.
Qed.

Section steps.
Context (reserve : Z -> result string Z) (pool_grants : Z -> Z -> bool).
Context (random_state : Z -> Key -> Z) (Hrandom : forall c k, 0 <= random_state c k).
Implicit Types n : Nom.

(** Growing into a fresh table keeps every key, adds the new one, and occupies exactly
    the bytes that were requested. *)
Lemma regrow old cap bytes h repl k :
  set_ok old -> k ∉ elems old -> capacity_for_next_insert old = Some cap ->
  storage_bytes_for_capacity cap = Some bytes -> (forall k, 0 <= h k) ->
  allocate reserve h cap = Ok repl ->
  storage_bytes repl = bytes /\
  exists r1 r2, reinsert_all repl old = Some r1 /\ insert_without_growing r1 k = Some (true, r2) /\
    grown_ok r2 /\ storage_bytes r2 = bytes /\ elems r2 ≡ₚ k :: elems old.
Proof.
  intros Hold Hk Hcap Hbytes Hh Ha.
  destruct (next_capacity old cap Hold Hcap) as (Hlarge&Hroom&p&Hp&Hpow).
  unfold INITIAL_CAPACITY in Hlarge. pose proof Ha as Ha'.
  apply allocate_table with (p := p) in Ha'; [|done..].
  apply allocate_spec in Ha as (Hl&Hc&Hn&_&_&Hd&He); [|lia].
  apply storage_bytes_for_capacity_Some in Hbytes as [Hb Hle]; [|lia].
  assert (Hfresh : forall r, table_ok r -> capacity r = cap -> dir_capacity r = dir_capacity repl ->
    2 * len r <= cap -> grown_ok r).
  { intros r Hr Hcr Hdr Hlr. constructor; unfold INITIAL_CAPACITY; rewrite ?Hcr, ?Hdr, ?Hd; try done; try lia. }
  assert (Hgr : grown_ok repl) by (apply Hfresh; [done..|lia]).
  split; [rewrite (proj1 (grown_bytes repl Hgr)), Hc, Hd; done|].
  assert (Hre : exists r1, reinsert_all repl old = Some r1 /\ table_ok r1 /\ capacity r1 = cap /\
    dir_capacity r1 = dir_capacity repl /\ elems r1 ≡ₚ elems old).
  { destruct Hold as [(h0&->)|Hg].
    - exists repl. rewrite He. destruct (set_default_facts h0) as (->&_). done.
    - destruct (reinsert_all_spec repl old Ha' He (gr_table old Hg)) as (r1&?&?&?&?&?&?); [lia|].
      exists r1. split_and!; try done. congruence. }
  destruct Hre as (r1&Hr1&Hok1&Hc1&Hd1&Hel1).
  assert (Hlen1 : len r1 = len old).
  { rewrite (ok_len r1 Hok1), (set_len old Hold). apply Permutation_length in Hel1. by rewrite Hel1. }
  destruct (insert_grown r1 k) as (r2&Hi&Hg2&Hb2&Hel2).
  - apply Hfresh; [done..|lia].
  - by rewrite Hel1.
  - lia.
  - exists r1, r2. split_and!; try done.
    + rewrite Hb2. rewrite (proj1 (grown_bytes r1 ltac:(apply Hfresh; [done..|lia]))).
      rewrite Hc1, Hd1, Hd. done.
    + by rewrite Hel2, Hel1.
Qed.

(** A nomination that gave up: nothing collected, nothing published, nothing charged. *)
Definition gave_up (n' : Nom) : Prop :=
  status n' = Abandoned /\ reservation n' = Some 0 /\ completed n' = None /\
  collecting n' = set_default (random_state 0).

(** What one observed key does. *)
Definition observed_key (n n' : Nom) (k : Key) (r : result DataFusionError bool) : Prop :=
  limits n' = limits n /\ byte_cap n' = byte_cap n /\
  match r with
  | Ok true => nomination_ok n' /\
      forall k', k' ∈ elems (collecting n') <-> k' = k \/ k' ∈ elems (collecting n)
  | Ok false => gave_up n' /\ (over_max_ids n = true \/ byte_cap n < usize_max)
  | Err _ => n' = n
  end.

Lemma abandon_facts n : status n = Pending -> completed n = None ->
  limits (abandon random_state n) = limits n /\ byte_cap (abandon random_state n) = byte_cap n /\
  gave_up (abandon random_state n).
Proof. intros Hp Hc. unfold gave_up, abandon, set_terminal. simpl. by rewrite Hp. Qed.

Lemma with_reservation_id n : with_reservation n (reservation n) = n.
Proof. by destruct n. Qed.

Lemma shrink_Some size bytes : bytes <= size -> shrink size bytes = Some (size - bytes).
Proof. intros. unfold shrink. by rewrite (proj2 (Z.ltb_ge size bytes)). Qed.

Lemma grow_and_insert_spec n k size :
  nomination_ok n -> k ∉ elems (collecting n) -> reservation n = Some size ->
  exists r n', grow_and_insert reserve pool_grants random_state n size k = Some (r, n') /\
    observed_key n n' k r.
Proof.
  intros [Hp Hset Hres Hcomp] Hk Hsize. pose proof (set_bytes_nonneg _ Hset) as Hb0.
  unfold grow_and_insert, observed_key.
  destruct (capacity_for_next_insert (collecting n)) as [cap|] eqn:Ec; [|by do 2 eexists].
  destruct (storage_bytes_for_capacity cap) as [bytes|] eqn:Eb; [|by do 2 eexists].
  destruct (next_capacity _ _ Hset Ec) as (Hl0&_). unfold INITIAL_CAPACITY in Hl0.
  pose proof Eb as (_&Hmax)%storage_bytes_for_capacity_Some; [|lia].
  destruct (Z.ltb_spec (byte_cap n) bytes).
  { destruct (abandon_facts n Hp Hcomp) as (?&?&?). do 2 eexists. split; [done|]. split_and!; try done. right. lia. }
  cbv zeta. destruct (pool_grants size bytes); cbn [negb]; [|by do 2 eexists].
  rewrite Hres in Hsize. injection Hsize as <-. unfold NOMINATION_BASE_BYTES in *.
  destruct (allocate reserve (random_state cap) cap) as [repl|e] eqn:Ea.
  - destruct (regrow _ _ _ _ _ _ Hset Hk Ec Eb (Hrandom cap) Ea)
      as (Hbytes&r1&r2&Hr1&Hr2&Hg2&Hb2&Hel2).
    rewrite Hbytes, Z.eqb_refl. cbn [negb]. rewrite Hr1. cbn [mbind option_bind]. rewrite Hr2.
    cbn [mbind option_bind negb].
    assert (0 <= bytes) by (rewrite <-Hb2; by apply grown_bytes).
    rewrite shrink_Some by lia. cbn [mbind option_bind]. do 2 eexists. split; [done|].
    cbn [limits byte_cap with_reservation with_collecting]. split_and!; try done.
    + constructor; cbn [status collecting reservation completed with_reservation with_collecting];
        [done|by right|unfold NOMINATION_BASE_BYTES; rewrite Hb2; f_equal; lia|done].
    + intros k'. cbn [collecting with_reservation with_collecting]. rewrite Hel2. by rewrite elem_of_cons.
  - rewrite shrink_Some by lia. cbn [mbind option_bind]. do 2 eexists. split; [done|]. split_and!; try done.
    rewrite Z.add_simpl_r, <-Hres. apply with_reservation_id.
Qed.

Lemma observe_key_spec n k :
  nomination_ok n ->
  exists r n', observe_key reserve pool_grants random_state n k = Some (r, n') /\ observed_key n n' k r.
Proof.
  intros Hn. pose proof Hn as [Hp Hset Hres Hcomp]. unfold observe_key.
  rewrite set_contains by done. cbn [mbind option_bind]. case_bool_decide as Hk.
  { do 2 eexists. split; [done|]. split_and!; try done. intros k'. split; [tauto|]. by intros [->|?]. }
  rewrite Hres. destruct (over_max_ids n) eqn:Eo.
  { destruct (abandon_facts n Hp Hcomp) as (?&?&?). do 2 eexists. split; [done|]. split_and!; try done. by left. }
  destruct (needs_growth_for (collecting n) k) as [[]|] eqn:Eg; cbn [mbind option_bind].
  - by apply grow_and_insert_spec.
  - destruct (room_without_growth _ k Hset Hk Eg) as [Hg Hroom].
    destruct (insert_grown _ k Hg Hk Hroom) as (s'&->&Hg'&Hb&Hel). cbn [mbind option_bind negb].
    do 2 eexists. split; [done|]. split_and!; try done.
    + constructor; cbn [status collecting reservation completed with_collecting]; [done|by right| |done].
      by rewrite Hb.
    + intros k'. cbn [collecting with_collecting]. by rewrite Hel, elem_of_cons.
  - unfold needs_growth_for in Eg. by rewrite set_contains in Eg.
Qed.

(** The keys of a batch. *)
Definition batch_keys (values : list (option (list Z))) : list Key := from_be <$> omap id values.

Definition unbounded (n : Nom) : Prop := limits n = None /\ usize_max <= byte_cap n.

(** What a batch does to a pending nomination. *)
Definition observed_batch (n n' : Nom) (values : list (option (list Z)))
    (r : result DataFusionError unit) : Prop :=
  limits n' = limits n /\ byte_cap n' = byte_cap n /\
  ((nomination_ok n' /\
    (forall k, k ∈ elems (collecting n) -> k ∈ elems (collecting n')) /\
    (forall k, k ∈ elems (collecting n') -> k ∈ elems (collecting n) \/ k ∈ batch_keys values) /\
    (r = Ok tt -> forall k, k ∈ batch_keys values -> k ∈ elems (collecting n'))) \/
   (gave_up n' /\ r = Ok tt /\ ~ unbounded n)).

Lemma over_max_unbounded n : unbounded n -> over_max_ids n = false.
Proof. intros [Hl _]. unfold over_max_ids. by rewrite Hl. Qed.

Lemma observe_rows_spec n values :
  nomination_ok n ->
  exists r n', observe_rows reserve pool_grants random_state n values = Some (r, n') /\
    observed_batch n n' values r.
Proof.
  revert n. induction values as [|[bytes|] values IH]; intros n Hn; cbn [observe_rows].
  - do 2 eexists. split; [done|]. split_and!; [done..|]. left. split_and!; try done; [auto|].
    by intros _ k ?%not_elem_of_nil.
  - destruct (lenZ bytes =? 16); cbn [negb].
    2: { do 2 eexists. split; [done|]. split_and!; [done..|]. left. split_and!; try done. auto. }
    destruct (observe_key_spec n (from_be bytes) Hn) as (r&n1&->&Hlim&Hcap&Hr). cbn [mbind option_bind].
    assert (Hb : batch_keys (Some bytes :: values) = from_be bytes :: batch_keys values) by done.
    destruct r as [[]|e].
    + destruct Hr as [Hn1 Hel]. destruct (IH n1 Hn1) as (r&n'&Hr&Hl'&Hc'&Hcase). do 2 eexists.
      split; [done|]. unfold observed_batch. rewrite Hb. split_and!; [congruence..|].
      destruct Hcase as [(Hn'&Hsub&Hsup&Hall)|(?&?&Hun)]; [left|right; split_and!; try done].
      * split_and!; try done.
        -- intros k Hk. apply Hsub, Hel. by right.
        -- intros k Hk. rewrite elem_of_cons. destruct (Hsup k Hk) as [[->|?]%Hel|?]; tauto.
        -- intros Hok k [->|Hk]%elem_of_cons; [apply Hsub, Hel; by left|by apply Hall].
      * intros [Hu1 Hu2]. apply Hun. split; congruence.
    + destruct Hr as (Hg&Hwhy). do 2 eexists. split; [done|]. split_and!; [done..|]. right.
      split_and!; try done. intros Hu.
      pose proof (over_max_unbounded n Hu). destruct Hu as [_ Hu]. destruct Hwhy; [congruence|lia].
    + subst n1. do 2 eexists. split; [done|]. split_and!; [done..|]. left.
      split_and!; try done. auto.
  - destruct (IH n Hn) as (r&n'&Hr&Hcase). by do 2 eexists.
Qed.

Lemma shrink_held_eq n size bytes :
  reservation n = Some size -> bytes <= size ->
  shrink_held n bytes = Some (with_reservation n (Some (size - bytes))).
Proof. intros Hr Hle. unfold shrink_held. rewrite Hr. by rewrite shrink_Some. Qed.

(** The release after compaction: exactly the dropped bytes. *)
Lemma release_eq n size released :
  reservation n = Some size -> 0 <= released <= size ->
  (if 0 <? released then shrink_held n released else Some n) =
  Some (with_reservation n (Some (size - released))).
Proof.
  intros Hr Hle. destruct (Z.ltb_spec 0 released); [by apply shrink_held_eq; [|lia]|].
  assert (released = 0) as -> by lia. rewrite Z.sub_0_r, <-Hr. by rewrite with_reservation_id.
Qed.

(** A finished nomination. *)
Definition finished (n n' : Nom) (r : result DataFusionError unit) : Prop :=
  match r with
  | Ok _ => status n' = Complete /\
      exists run s, completed n' = Some s /\ run_set run s /\ run ≡ₚ elems (collecting n) /\
        reservation n' = Some (NOMINATION_BASE_BYTES + storage_bytes s)
  | Err _ => (exists e, status n' = Failed e) /\ reservation n' = Some NOMINATION_BASE_BYTES /\ completed n' = None
  end.

(** Installing the run: what the reservation covers afterwards. *)
Lemma install_sorted_spec s run :
  len s <> 0 -> slots s <> [] -> occupied s = [] -> 0 <= dir_capacity s -> ascending run ->
  len s = lenZ run ->
  size_of_vec * dir_capacity s + size_of_key * sum_Z ((fun c => lenZ c) <$> slots s) <= usize_max ->
  size_of_vec * dir_capacity s + size_of_key * len s <= usize_max ->
  exists s', install_sorted s run = Some (size_of_key * sum_Z ((fun c => lenZ c) <$> slots s), s') /\
    run_set run s' /\ storage_bytes s' = size_of_vec * dir_capacity s + size_of_key * len s.
Proof.
  intros Hne Hsl Ho Hd Hr Hl Hb Hb'. unfold install_sorted. rewrite (proj2 (Z.eqb_neq _ 0)) by done.
  pose proof (sum_lengths_nonneg (slots s)). unfold size_of_vec, size_of_key in *.
  rewrite chunk_bytes_eq by (unfold size_of_key; lia).
  destruct (slots s) as [|c l] eqn:Es; [done|]. rewrite Z.add_0_l. eexists. split; [done|]. split.
  - constructor; cbn [sorted len slots]; try done. rewrite decide_False; [done|]. intros ->. simpl in Hl. lia.
  - rewrite storage_bytes_no_bits; cbn [occupied dir_capacity slots]; [|done|done|];
      rewrite fmap_cons, sum_Z_cons; unfold size_of_vec, size_of_key; simpl; lia.
Qed.

(** What compaction leaves of any set the nomination holds. *)
Record compact_facts (s s1 : CompactUuidSet) : Prop := {
  cf_bytes : 0 <= storage_bytes s1 <= storage_bytes s;
  cf_keys : prefix_keys s1 = Some (elems s);
  cf_len : len s1 = len s;
  cf_bits : occupied s1 = [];
  cf_dir : 0 <= dir_capacity s1;
  cf_total : storage_bytes s1 =
    size_of_vec * dir_capacity s1 + size_of_key * sum_Z ((fun c => lenZ c) <$> slots s1);
  cf_fits : storage_bytes s1 <= usize_max /\ size_of_vec * dir_capacity s1 + size_of_key * len s <= usize_max;
  cf_slots : len s <> 0 -> slots s1 <> [];
}.

Lemma compact_any s : set_ok s ->
  exists s1, compact_occupied_prefix s = Some (storage_bytes s - storage_bytes s1, s1) /\
    compact_facts s s1.
Proof.
  intros [(h&->)|Hg].
  - exists (set_default h). split; [done|]. constructor; done.
  - pose proof (gr_table s Hg) as Hok. pose proof (gr_fits s Hg) as Hfit. pose proof (gr_load s Hg).
    pose proof (gr_large s Hg). unfold INITIAL_CAPACITY in *.
    assert (0 <= div_ceil (capacity s) 64) by (apply Z.div_pos; lia).
    destruct (compact_occupied_prefix_spec s Hok (grown_dir s Hg) Hfit)
      as (s1&Hco&Hb&Hk&Hl&Ho&Hd&Ht&Hs).
    exists s1. split; [done|]. pose proof (grown_dir s Hg). destruct (grown_bytes s Hg) as [Hsb _].
    pose proof (ok_len s Hok). constructor; try done.
    + by rewrite Hd.
    + by rewrite Hd.
    + rewrite Hd. unfold footprint, size_of_vec, size_of_key, size_of_word in *. lia.
Qed.

Lemma set_nodup s : set_ok s -> NoDup (elems s).
Proof.
  intros [(h&->)|Hg]; [|apply (ok_nodup s (gr_table s Hg))].
  destruct (set_default_facts h) as (->&_). constructor.
Qed.

(** Completion of an empty nomination. *)
Lemma complete_empty_spec n n1 s1 :
  set_ok (collecting n) -> status n1 = Pending -> completed n1 = None ->
  reservation n1 = Some (NOMINATION_BASE_BYTES + storage_bytes s1) ->
  compact_facts (collecting n) s1 -> len (collecting n) = 0 ->
  exists r n', complete_empty n1 s1 = Some (r, n') /\ finished n n' r.
Proof.
  intros Hset Hst Hcomp Hres Hcf Hlen. unfold complete_empty, install_sorted.
  rewrite (cf_len _ _ Hcf), Hlen, Z.eqb_refl. cbn [mbind option_bind].
  pose proof (cf_bytes _ _ Hcf). unfold NOMINATION_BASE_BYTES in *.
  rewrite (release_eq n1 _ _ Hres) by lia. cbn [mbind option_bind].
  unfold publish. cbn [completed with_reservation]. rewrite Hcomp.
  do 2 eexists. split; [done|]. unfold finished, set_terminal. cbn [status with_completed with_reservation].
  rewrite Hst. split; [done|]. cbn [completed reservation with_status with_completed with_reservation].
  do 2 eexists. split; [done|]. split_and!.
  - by apply (Build_run_set []); [..|constructor].
  - pose proof (set_len _ Hset) as Hl. rewrite Hlen in Hl. destruct (elems (collecting n)); done.
  - assert (Hz : storage_bytes (mkSet [] 0 0 (occupied s1) 0 (hash s1) true) = 0)
      by (unfold storage_bytes; cbn [occupied]; by rewrite (cf_bits _ _ Hcf)).
    unfold NOMINATION_BASE_BYTES. rewrite Hz. f_equal. lia.
Qed.

Lemma fail_facts n e : status n = Pending -> status (fail n e) = Failed e /\
  reservation (fail n e) = reservation n /\ completed (fail n e) = completed n.
Proof. intros Hp. unfold fail, set_terminal. by rewrite Hp. Qed.

Lemma complete_spec n :
  nomination_ok n ->
  exists r n', complete reserve pool_grants random_state n = Some (r, n') /\ finished n n' r.
Proof.
  intros [Hp Hset Hres Hcomp]. unfold complete, is_abandoned. rewrite Hp. cbv zeta.
  destruct (compact_any _ Hset) as (s1&->&Hcf). cbn [mbind option_bind].
  pose proof (cf_bytes _ _ Hcf) as Hb1. pose proof (set_len _ Hset) as Hlen.
  set (n0 := with_collecting n (set_default (random_state 0))).
  assert (Hr0 : reservation n0 = Some (NOMINATION_BASE_BYTES + storage_bytes (collecting n))) by done.
  unfold NOMINATION_BASE_BYTES in Hr0. rewrite (release_eq n0 _ _ Hr0) by lia. cbn [mbind option_bind].
  set (n1 := with_reservation n0 _).
  assert (Hr1 : reservation n1 = Some (512 + storage_bytes s1)) by (cbn; f_equal; lia).
  unfold set_is_empty. destruct (Z.eqb_spec (len s1) 0) as [H0|H0]; rewrite (cf_len _ _ Hcf) in H0.
  { by eapply complete_empty_spec. }
  unfold sorted_storage_bytes, checked_mul. rewrite (cf_len _ _ Hcf).
  pose proof (cf_fits _ _ Hcf) as [Hf1 Hf2]. pose proof (cf_dir _ _ Hcf) as Hd.
  pose proof (cf_total _ _ Hcf) as Ht. unfold size_of_vec, size_of_key in *.
  rewrite (proj2 (Z.leb_le _ usize_max)) by lia. rewrite Hr1.
  assert (Hfail : forall (m : Nom) size bytes e msg, reservation m = Some size -> size - bytes = 512 ->
    status m = Pending -> completed m = None -> bytes <= size ->
    exists r n', (m ← shrink_held m bytes; Some (Err e, fail m msg)) = Some (r, n') /\ finished n n' r).
  { intros m size bytes e msg Hm Hsz Hmp Hmc Hle. rewrite (shrink_held_eq m size) by done.
    cbn [mbind option_bind]. do 2 eexists. split; [done|]. unfold finished.
    destruct (fail_facts (with_reservation m (Some (size - bytes))) msg Hmp) as (->&->&->).
    split_and!; [eauto|cbn; unfold NOMINATION_BASE_BYTES; congruence|done]. }
  destruct (pool_grants _ _); cbn [negb]; [|by eapply Hfail; [done|lia|done|done|lia]].
  unfold allocate_sorted_prefix.
  destruct (reserve_exact reserve "UUID sorted allocation" (len s1)) as [c|e]; cbn [mbind option_bind].
  2: { erewrite shrink_held_eq; [|reflexivity|lia]. cbn [mbind option_bind].
       eapply Hfail; [done|lia|done|done|lia]. }
  rewrite (cf_keys _ _ Hcf). cbn [mbind option_bind].
  assert (Hperm : sort_by_key id (elems (collecting n)) ≡ₚ elems (collecting n)) by apply sort_by_key_perm.
  destruct (install_sorted_spec s1 (sort_by_key id (elems (collecting n)))) as (s2&->&Hrun&Hb2).
  { by rewrite (cf_len _ _ Hcf). } { by apply Hcf. } { apply Hcf. } { done. }
  { by apply sort_keys_ascending, set_nodup. }
  { rewrite (cf_len _ _ Hcf), Hlen. apply Permutation_length in Hperm. by rewrite Hperm. }
  { unfold size_of_vec, size_of_key. lia. } { rewrite (cf_len _ _ Hcf). unfold size_of_vec, size_of_key. lia. }
  cbn [mbind option_bind]. pose proof (sum_lengths_nonneg (slots s1)).
  unfold size_of_vec, size_of_key in *.
  erewrite shrink_held_eq; [|reflexivity|lia]. cbn [mbind option_bind].
  unfold publish. cbn [completed with_reservation n1 n0 with_collecting]. rewrite Hcomp.
  do 2 eexists. split; [done|]. unfold finished, set_terminal. cbn [status with_completed with_reservation n1 n0 with_collecting].
  rewrite Hp. split; [done|]. cbn [completed reservation with_status with_completed with_reservation].
  do 2 eexists. split; [done|]. split_and!; [done|done|].
  unfold NOMINATION_BASE_BYTES. rewrite Hb2, (cf_len _ _ Hcf). f_equal. lia.
Qed.
End steps.

(** ** Properties *)

(** The batches of a build side, one after the other. *)
Fixpoint observe_all (reserve : Z -> result string Z) (pool_grants : Z -> Z -> bool)
    (random_state : Z -> Key -> Z) (n : Nom) (batches : list (list (option (list Z))))
    : option (result DataFusionError unit * Nom) :=
  match batches with
  | [] => Some (Ok tt, n)
  | values :: batches' =>
      '(r, n) ← observe reserve pool_grants random_state n values;
      match r with
      | Err e => Some (Err e, n)
      | Ok _ => observe_all reserve pool_grants random_state n batches'
      end
  end.

Section properties.
Context (reserve : Z -> result string Z) (pool_grants : Z -> Z -> bool) (pool_limit : option Z).
Context (random_state : Z -> Key -> Z).

Lemma start_ok lims n :
  start pool_grants pool_limit (nomination_new random_state lims) = (Ok tt, n) ->
  nomination_ok n /\ elems (collecting n) = [].
Proof.
  unfold start, nomination_new. cbn [started limits status collecting completed reservation byte_cap].
  destruct (pool_grants 0 NOMINATION_BASE_BYTES); cbn [negb]; [|done]. intros [= <-].
  split; [|done]. constructor; try done. left. by eexists.
Qed.

Lemma observe_all_abandoned n batches :
  status n = Abandoned -> observe_all reserve pool_grants random_state n batches = Some (Ok tt, n).
Proof.
  intros Hs. induction batches as [|b batches IH]; [done|]. cbn [observe_all].
  unfold observe, is_abandoned. rewrite Hs. done.
Qed.

Lemma observe_all_spec n batches :
  (forall c k, 0 <= random_state c k) -> nomination_ok n ->
  exists r n', observe_all reserve pool_grants random_state n batches = Some (r, n') /\
    ((nomination_ok n' /\ (r = Ok tt -> forall k, k ∈ elems (collecting n') <->
        k ∈ elems (collecting n) \/ k ∈ concat (batch_keys <$> batches))) \/
     (gave_up random_state n' /\ r = Ok tt /\ ~ unbounded n)).
Proof.
  intros Hrand. revert n. induction batches as [|values batches IH]; intros n Hn; cbn [observe_all].
  { do 2 eexists. split; [done|]. left. split; [done|]. intros _ k. cbn.
    split; [tauto|]. by intros [?|?%not_elem_of_nil]. }
  unfold observe, is_abandoned. rewrite (no_status n Hn).
  destruct (observe_rows_spec reserve pool_grants random_state Hrand n values Hn)
    as (r&n1&->&Hlim&Hcap&Hcase). cbn [mbind option_bind].
  destruct Hcase as [(Hn1&Hsub&Hsup&Hall)|(Hg&->&Hun)].
  - destruct r as [[]|e]; [|by do 2 eexists; split; [done|left]].
    destruct (IH n1 Hn1) as (r&n'&->&Hcase). do 2 eexists. split; [done|].
    destruct Hcase as [[Hn' Hel]|(?&?&Hun)]; [left|right; split_and!; try done].
    + split; [done|]. intros Hok k. rewrite (Hel Hok k), fmap_cons. cbn [concat]. rewrite elem_of_app.
      specialize (Hall eq_refl k). specialize (Hsub k). specialize (Hsup k). tauto.
    + intros [Hu1 Hu2]. apply Hun. split; congruence.
  - rewrite observe_all_abandoned by apply Hg. do 2 eexists. split; [done|]. by right.
Qed.

(** C28 Observing build keys never panics (every probe terminates, no reservation
    underflows, the debug assertions hold), keeps every byte of the set charged to the
    reservation, and a pending nomination holds exactly the distinct keys observed; only a
    nomination with limits gives up, and then it holds the empty default set (no slot, no
    bitmap), publishes nothing and charges no byte. *)
Theorem nomination_observe_exact lims n batches :
  (forall c k, 0 <= random_state c k) ->
  start pool_grants pool_limit (nomination_new random_state lims) = (Ok tt, n) ->
  exists r n', observe_all reserve pool_grants random_state n batches = Some (r, n') /\
    ((status n' = Pending /\
      reservation n' = Some (NOMINATION_BASE_BYTES + storage_bytes (collecting n')) /\
      (r = Ok tt -> forall k,
         contains (collecting n') k = Some (bool_decide (k ∈ concat (batch_keys <$> batches))))) \/
     (status n' = Abandoned /\ reservation n' = Some 0 /\ completed n' = None /\
      collecting n' = set_default (random_state 0) /\ r = Ok tt /\ ~ unbounded n)).
Proof.
  intros Hrand Hstart. destruct (start_ok lims n Hstart) as [Hn He].
  destruct (observe_all_spec n batches Hrand Hn) as (r&n'&Hr&Hcase). exists r, n'. split; [done|].
  destruct Hcase as [[Hn' Hel]|((?&?&?&?)&?&?)]; [left|right; by split_and!].
  split_and!; [apply Hn'|apply Hn'|].
  intros Hok k. rewrite set_contains by apply Hn'. f_equal. apply bool_decide_ext.
  rewrite (Hel Hok k), He. split; [|tauto]. by intros [?%not_elem_of_nil|?].
Qed.

(** Completing a pending nomination never panics.  It publishes a sorted set with exactly
    the collected keys, whose membership laws hold, and leaves exactly that set's bytes
    charged; or it fails, publishes nothing and leaves only the base charge. *)
Theorem nomination_complete_exact n :
  nomination_ok n -> Forall is_key (elems (collecting n)) ->
  exists r n', complete reserve pool_grants random_state n = Some (r, n') /\
    match r with
    | Ok _ => status n' = Complete /\ exists s, completed n' = Some s /\
        (forall k, contains s k = Some (bool_decide (k ∈ elems (collecting n)))) /\
        MembershipLaws (fun k => k ∈ elems (collecting n)) (set_membership s) /\
        reservation n' = Some (NOMINATION_BASE_BYTES + storage_bytes s)
    | Err _ => (exists e, status n' = Failed e) /\ completed n' = None /\
        reservation n' = Some NOMINATION_BASE_BYTES
    end.
Proof.
  intros Hn Hkeys. destruct (complete_spec reserve pool_grants random_state n Hn) as (r&n'&Hc&Hf).
  exists r, n'. split; [done|]. destruct r as [u|e]; unfold finished in Hf; [|tauto].
  destruct Hf as (Hs&run&s&Hcomp&Hrs&Hperm&Hres). split; [done|]. exists s. split_and!; try done.
  - intros k. rewrite (run_set_contains run) by done. f_equal. apply bool_decide_ext. by rewrite Hperm.
  - apply (membership_laws_mono (fun k => k ∈ run)); [intros k; by rewrite Hperm|].
    apply run_set_laws; [done|by rewrite Hperm].
Qed.
End properties.

(** ** Witnesses *)

Definition demo_batches : list (list (option (list Z))) :=
  [[Some (to_be 16 5); None; Some (to_be 16 9)]; [Some (to_be 16 5)]].

Definition demo_started : Nom :=
  (start (fun _ _ => true) (Some 100000) (nomination_new (fun _ _ => 3) (Some (mkLimits (Some 4))))).2.

(** At most one key: the second distinct key makes it give up. *)
Definition demo_bounded : Nom :=
  (start (fun _ _ => true) (Some 100000) (nomination_new (fun _ _ => 3) (Some (mkLimits (Some 1))))).2.

Lemma nomination_observe_exact_witness :
  (exists n', observe_all (fun n => Ok n) (fun _ _ => true) (fun _ _ => 3) demo_started demo_batches
     = Some (Ok tt, n') /\ contains (collecting n') 9 = Some true) /\
  (exists n', observe_all (fun n => Ok n) (fun _ _ => true) (fun _ _ => 3) demo_bounded demo_batches
     = Some (Ok tt, n') /\ collecting n' = set_default (fun _ => 3)).
Proof.
  split.
  - destruct (nomination_observe_exact (fun n => Ok n) (fun _ _ => true) (Some 100000) (fun _ _ => 3)
      (Some (mkLimits (Some 4))) demo_started demo_batches) as (r&n'&H&Hc); [lia|by vm_compute|].
    vm_compute in H. injection H as <- <-. eexists. split; [vm_compute; reflexivity|].
    destruct Hc as [(_&_&Hc)|(Hs&_)]; [|discriminate Hs]. by rewrite Hc.
  - destruct (nomination_observe_exact (fun n => Ok n) (fun _ _ => true) (Some 100000) (fun _ _ => 3)
      (Some (mkLimits (Some 1))) demo_bounded demo_batches) as (r&n'&H&Hc); [lia|by vm_compute|].
    vm_compute in H. injection H as <- <-. eexists. split; [vm_compute; reflexivity|].
    destruct Hc as [(Hs&_)|(_&_&_&Hc&_)]; [discriminate Hs|done].
Defined.

Lemma nomination_complete_exact_witness :
  exists r n', complete (fun n => Ok n) (fun _ _ => true) (fun _ _ => 3) demo_started = Some (r, n').
Proof.
  destruct (nomination_complete_exact (fun n => Ok n) (fun _ _ => true) (fun _ _ => 3) demo_started)
    as (r&n'&H&_).
  - constructor; try done. left. by eexists.
  - constructor.
  - by exists r, n'.
Defined.
