(* ===== verification/Calendar.v ===== *)
(** * The proleptic Gregorian calendar: [crates/graphforge-rel/src/calendar.rs].

    Conversions between day counts and civil dates, ordinal dates and ISO week dates, and
    month arithmetic.  Every [i64] and [u32] operation is checked: the value of a function
    is [None] where one overflows (a panic or a wrapped value in Rust, by the build
    profile), and the inner option of [ymd_to_days], [from_ordinal] and [from_iso_ywd] is
    the source's.  [as u32] wraps.  The proofs work on a copy of the operations without
    overflow (suffix [_z]); the agreement lemmas show that for days up to [2 ^ 62] and years
    up to [2 ^ 54] in magnitude, far beyond the supported years, nothing overflows and the
    two agree.  The string rendering is not modelled. *)

From stdpp Require Import base list numbers.
From Stdlib Require Import ZArith Lia.
From S2P Require Import Prelude.

(** Let [lia] see through division and remainder by constants. *)
#[local] Ltac Zify.zify_post_hook ::= Z.to_euclidean_division_equations.

(** [as u32] *)
Definition as_u32 (z : Z) : Z := z mod 2 ^ 32.

Definition EPOCH_ISO_WEEKDAY_OFFSET : Z := 3.

(** An [i64] or [u32] operation: no value when the result does not fit. *)
Definition i64 (z : Z) : option Z := if (i64_min <=? z) && (z <=? i64_max) then Some z else None.
Definition u32 (z : Z) : option Z := if (0 <=? z) && (z <? 2 ^ 32) then Some z else None.

(** ** Operations *)

(** [/] and [%] truncate towards zero; by a positive constant they cannot overflow. *)
Definition days_from_civil (y m d : Z) : option Z :=
  y ← (if m <=? 2 then i64 (y - 1) else Some y);
  n ← (if 0 <=? y then Some y else i64 (y - 399));
  let era := Z.quot n 400 in
  e ← i64 (era * 400);
  yoe ← i64 (y - e);
  mp ← (if 2 <? m then i64 (m - 3) else i64 (m + 9));
  a ← i64 (153 * mp);
  a ← i64 (a + 2);
  b ← i64 (Z.quot a 5 + d);
  doy ← i64 (b - 1);
  a ← i64 (yoe * 365);
  a ← i64 (a + Z.quot yoe 4);
  a ← i64 (a - Z.quot yoe 100);
  doe ← i64 (a + doy);
  a ← i64 (era * 146097);
  a ← i64 (a + doe);
  i64 (a - 719468).

Definition civil_from_days (z : Z) : option (Z * Z * Z) :=
  z ← i64 (z + 719468);
  n ← (if 0 <=? z then Some z else i64 (z - 146096));
  let era := Z.quot n 146097 in
  e ← i64 (era * 146097);
  doe ← i64 (z - e);
  a ← i64 (doe - Z.quot doe 1460);
  a ← i64 (a + Z.quot doe 36524);
  a ← i64 (a - Z.quot doe 146096);
  let yoe := Z.quot a 365 in
  e ← i64 (era * 400);
  y ← i64 (yoe + e);
  a ← i64 (365 * yoe);
  a ← i64 (a + Z.quot yoe 4);
  a ← i64 (a - Z.quot yoe 100);
  doy ← i64 (doe - a);
  a ← i64 (5 * doy);
  a ← i64 (a + 2);
  let mp := Z.quot a 153 in
  a ← i64 (153 * mp);
  a ← i64 (a + 2);
  b ← i64 (doy - Z.quot a 5);
  d ← i64 (b + 1);
  let d := as_u32 d in
  m ← (if mp <? 10 then i64 (mp + 3) else i64 (mp - 9));
  let m := as_u32 m in
  y ← (if m <=? 2 then i64 (y + 1) else Some y);
  Some (y, m, d).

Definition is_leap (year : Z) : bool :=
  ((Z.rem year 4 =? 0) && negb (Z.rem year 100 =? 0)) || (Z.rem year 400 =? 0).

Definition days_in_month (year month : Z) : Z :=
  match month with
  | 1 | 3 | 5 | 7 | 8 | 10 | 12 => 31
  | 4 | 6 | 9 | 11 => 30
  | 2 => if is_leap year then 29 else 28
  | _ => 0
  end.

Definition days_in_year (year : Z) : Z := if is_leap year then 366 else 365.

Definition ymd_to_days (y m d : Z) : option (option Z) :=
  if negb ((1 <=? m) && (m <=? 12)) || (d <? 1) || (days_in_month y m <? d) then Some None
  else Some <$> days_from_civil y m d.

Definition from_ordinal (year ordinal : Z) : option (option Z) :=
  if (ordinal <? 1) || (days_in_year year <? ordinal) then Some None
  else
    a ← days_from_civil year 1 1;
    a ← i64 (a + ordinal);
    Some <$> i64 (a - 1).

Definition ordinal (z : Z) : option Z :=
  '(y, _, _) ← civil_from_days z;
  a ← days_from_civil y 1 1;
  a ← i64 (z - a);
  a ← i64 (a + 1);
  Some (as_u32 a).

(** [rem_euclid] by a positive divisor is [mod]. *)
Definition iso_weekday (z : Z) : option Z :=
  a ← i64 (z + EPOCH_ISO_WEEKDAY_OFFSET);
  u32 (as_u32 (a mod 7) + 1).

Definition num_days_from_monday (z : Z) : option Z :=
  a ← i64 (z + EPOCH_ISO_WEEKDAY_OFFSET);
  Some (as_u32 (a mod 7)).

Definition iso_weeks_in_year (iso_year : Z) : option Z :=
  jan1 ← days_from_civil iso_year 1 1;
  wd ← iso_weekday jan1;
  Some (if (wd =? 4) || ((wd =? 3) && is_leap iso_year) then 53 else 52).

Definition iso_week (z : Z) : option (Z * Z) :=
  '(y, _, _) ← civil_from_days z;
  ord ← ordinal z;
  wd ← iso_weekday z;
  a ← i64 (ord - wd);
  a ← i64 (a + 10);
  let week := Z.quot a 7 in
  if week <? 1 then
    previous ← i64 (y - 1);
    weeks ← iso_weeks_in_year previous;
    Some (previous, weeks)
  else
    weeks ← iso_weeks_in_year y;
    if weeks <? week then next ← i64 (y + 1); Some (next, 1)
    else Some (y, as_u32 week).

(** [week <= 53] and [weekday <= 7] where the unsigned subtractions are reached. *)
Definition from_iso_ywd (iso_year week weekday : Z) : option (option Z) :=
  if negb ((1 <=? weekday) && (weekday <=? 7)) || (week <? 1) then Some None
  else
    weeks ← iso_weeks_in_year iso_year;
    if weeks <? week then Some None
    else
      jan4 ← days_from_civil iso_year 1 4;
      wd ← iso_weekday jan4;
      a ← i64 (wd - 1);
      week1_monday ← i64 (jan4 - a);
      w ← u32 (week - 1);
      b ← i64 (w * 7);
      a ← i64 (week1_monday + b);
      e ← u32 (weekday - 1);
      Some <$> i64 (a + e).

(** [div_euclid] and [rem_euclid] by 12. *)
Definition add_months (y m d months : Z) : option (Z * Z * Z) :=
  a ← i64 (y * 12);
  b ← u32 (m - 1);
  a ← i64 (a + b);
  total ← i64 (a + months);
  let ny := total / 12 in
  nm ← u32 (as_u32 (total mod 12) + 1);
  let nd := Z.min d (days_in_month ny nm) in
  Some (ny, nm, nd).

Definition add_months_to_days (z months : Z) : option Z :=
  '(y, m, d) ← civil_from_days z;
  '(ny, nm, nd) ← add_months y m d months;
  days_from_civil ny nm nd.

Definition quarter_of_month (month : Z) : option Z :=
  a ← u32 (month - 1);
  u32 (a / 3 + 1).

Example civil_samples :
  days_from_civil 1970 1 1 = Some 0 /\ civil_from_days 11016 = Some (2000, 2, 29) /\
  (z ← days_from_civil (-44) 3 15; civil_from_days z) = Some (-44, 3, 15) /\
  (z ← days_from_civil 2021 1 1; iso_week z) = Some (2020, 53) /\
  (z ← days_from_civil 1984 1 1; iso_week z) = Some (1983, 52) /\
  add_months 2024 1 31 1 = Some (2024, 2, 29) /\ iso_weekday 0 = Some 4 /\
  ymd_to_days 2025 2 30 = Some None /\ quarter_of_month 11 = Some 4.
Proof. by vm_compute. Qed.

(** Near the ends of the type the operations overflow. *)
Example civil_overflow :
  civil_from_days i64_max = None /\ days_from_civil i64_min 1 1 = None /\
  days_from_civil i64_max 12 31 = None /\ add_months i64_max 1 1 0 = None.
Proof. by vm_compute. Qed.

(** ** The same operations on unbounded integers

    The reference the proofs work with; the agreement lemmas below show that within wide
    bounds the [i64] operations return exactly these values. *)

(** [/] and [%] truncate towards zero. *)
Definition days_from_civil_z (y m d : Z) : Z :=
  let y := if m <=? 2 then y - 1 else y in
  let era := Z.quot (if 0 <=? y then y else y - 399) 400 in
  let yoe := y - era * 400 in
  let doy := Z.quot (153 * (if 2 <? m then m - 3 else m + 9) + 2) 5 + d - 1 in
  let doe := yoe * 365 + Z.quot yoe 4 - Z.quot yoe 100 + doy in
  era * 146097 + doe - 719468.

Definition civil_from_days_z (z : Z) : Z * Z * Z :=
  let z := z + 719468 in
  let era := Z.quot (if 0 <=? z then z else z - 146096) 146097 in
  let doe := z - era * 146097 in
  let yoe := Z.quot (doe - Z.quot doe 1460 + Z.quot doe 36524 - Z.quot doe 146096) 365 in
  let y := yoe + era * 400 in
  let doy := doe - (365 * yoe + Z.quot yoe 4 - Z.quot yoe 100) in
  let mp := Z.quot (5 * doy + 2) 153 in
  let d := as_u32 (doy - Z.quot (153 * mp + 2) 5 + 1) in
  let m := as_u32 (if mp <? 10 then mp + 3 else mp - 9) in
  (if m <=? 2 then y + 1 else y, m, d).

Definition ymd_to_days_z (y m d : Z) : option Z :=
  if negb ((1 <=? m) && (m <=? 12)) || (d <? 1) || (days_in_month y m <? d) then None
  else Some (days_from_civil_z y m d).

Definition from_ordinal_z (year ordinal : Z) : option Z :=
  if (ordinal <? 1) || (days_in_year year <? ordinal) then None
  else Some (days_from_civil_z year 1 1 + ordinal - 1).

Definition ordinal_z (z : Z) : Z :=
  let '(y, _, _) := civil_from_days_z z in as_u32 (z - days_from_civil_z y 1 1 + 1).

(** [rem_euclid] by a positive divisor is [mod]. *)
Definition iso_weekday_z (z : Z) : Z := as_u32 ((z + EPOCH_ISO_WEEKDAY_OFFSET) mod 7) + 1.

Definition iso_weeks_in_year_z (iso_year : Z) : Z :=
  let jan1 := days_from_civil_z iso_year 1 1 in
  let wd := iso_weekday_z jan1 in
  if (wd =? 4) || ((wd =? 3) && is_leap iso_year) then 53 else 52.

Definition iso_week_z (z : Z) : Z * Z :=
  let '(y, _, _) := civil_from_days_z z in
  let ord := ordinal_z z in
  let wd := iso_weekday_z z in
  let week := Z.quot (ord - wd + 10) 7 in
  if week <? 1 then (y - 1, iso_weeks_in_year_z (y - 1))
  else if iso_weeks_in_year_z y <? week then (y + 1, 1)
  else (y, as_u32 week).

Definition from_iso_ywd_z (iso_year week weekday : Z) : option Z :=
  if negb ((1 <=? weekday) && (weekday <=? 7)) || (week <? 1) || (iso_weeks_in_year_z iso_year <? week)
  then None
  else
    let jan4 := days_from_civil_z iso_year 1 4 in
    let week1_monday := jan4 - (iso_weekday_z jan4 - 1) in
    Some (week1_monday + (week - 1) * 7 + (weekday - 1)).

(** [div_euclid] and [rem_euclid] by 12. *)
Definition add_months_z (y m d months : Z) : Z * Z * Z :=
  let total := y * 12 + (m - 1) + months in
  let ny := total / 12 in
  let nm := as_u32 (total mod 12) + 1 in
  let nd := Z.min d (days_in_month ny nm) in
  (ny, nm, nd).

Definition add_months_to_days_z (z months : Z) : Z :=
  let '(y, m, d) := civil_from_days_z z in
  let '(ny, nm, nd) := add_months_z y m d months in
  days_from_civil_z ny nm nd.

(** ** Closed forms *)

Lemma as_u32_id z : 0 <= z < 2 ^ 32 -> as_u32 z = z.
Proof. intros. by apply Z.mod_small. Qed.

(** Truncating division after the sign adjustment is floor division. *)
Lemma quot_floor a n : 0 < n -> Z.quot (if 0 <=? a then a else a - (n - 1)) n = a / n.
Proof.
  intros Hn. destruct (Z.leb_spec 0 a).
  - by apply Z.quot_div_nonneg.
  - rewrite <-(Z.opp_involutive (a - (n - 1))), Z.quot_opp_l by lia.
    rewrite Z.quot_div_nonneg by lia.
    apply (Z.div_unique _ _ _ (a + n * ((- (a - (n - 1))) / n))); [|lia]. left.
    pose proof (Z.div_mod (- (a - (n - 1))) n ltac:(lia)).
    pose proof (Z.mod_pos_bound (- (a - (n - 1))) n ltac:(lia)). lia.
Qed.

(** Days before a year that starts in March. *)
Definition year_start (Y : Z) : Z := 365 * Y + Y / 4 - Y / 100 + Y / 400.

(** Days before a month, counted from March. *)
Definition month_start (mp : Z) : Z := (153 * mp + 2) / 5.

Definition march_year (y m : Z) : Z := if m <=? 2 then y - 1 else y.
Definition march_month (m : Z) : Z := if 2 <? m then m - 3 else m + 9.

Lemma days_from_civil_eq y m d :
  0 < m -> days_from_civil_z y m d =
  year_start (march_year y m) + month_start (march_month m) + d - 1 - 719468.
Proof.
  intros Hm. unfold days_from_civil_z. cbv zeta. fold (march_year y m). fold (march_month m).
  set (Y := march_year y m). clearbody Y. change (Y - 399) with (Y - (400 - 1)). rewrite (quot_floor Y 400) by lia.
  assert (0 <= march_month m) by (unfold march_month; destruct (2 <? m) eqn:?; lia).
  assert (0 <= Y - Y / 400 * 400) by lia.
  rewrite !Z.quot_div_nonneg by lia. unfold year_start, month_start. lia.
Qed.

(** ** A year of the shifted calendar: its months and its length *)

Definition in_range (lo hi : Z) (p : Z -> bool) : bool := forallb p (seqZ lo (hi - lo + 1)).

Lemma in_range_spec lo hi p x : in_range lo hi p = true -> lo <= x <= hi -> p x = true.
Proof.
  unfold in_range. rewrite forallb_forall. intros H Hx. apply H, list_elem_of_In, elem_of_seqZ. lia.
Qed.

(** The month and the day of a day in the shifted year. *)
Lemma month_of_day doy : 0 <= doy <= 365 ->
  let mp := (5 * doy + 2) / 153 in
  0 <= mp <= 11 /\ month_start mp <= doy < month_start (mp + 1).
Proof.
  intros Hd mp.
  pose proof (in_range_spec 0 365 (fun doy => let mp := (5 * doy + 2) / 153 in
    (0 <=? mp) && (mp <=? 11) && (month_start mp <=? doy) && (doy <? month_start (mp + 1)))
    doy ltac:(vm_compute; reflexivity) Hd) as H.
  cbv beta zeta in H. fold mp in H. clearbody mp. rewrite !andb_true_iff in H. lia.
Qed.

Lemma month_start_mono a b : a <= b -> month_start a <= month_start b.
Proof. intros. unfold month_start. apply Z.div_le_mono; lia. Qed.

(** Months are disjoint: the month of a day is determined. *)
Lemma month_of_day_unique mp doy :
  0 <= mp <= 11 -> month_start mp <= doy < month_start (mp + 1) -> 0 <= doy <= 365 ->
  (5 * doy + 2) / 153 = mp.
Proof.
  intros Hmp Hd Hr. destruct (month_of_day doy Hr) as [H1 H2]. set (q := (5 * doy + 2) / 153) in *.
  destruct (Z.lt_trichotomy q mp) as [|[|]]; [|done|].
  - pose proof (month_start_mono (q + 1) mp ltac:(lia)). lia.
  - pose proof (month_start_mono (mp + 1) q ltac:(lia)). lia.
Qed.

(** The year of a day of the era. *)
Definition era_year (doe : Z) : Z := (doe - doe / 1460 + doe / 36524 - doe / 146096) / 365.

Lemma era_year_mono a b : 0 <= a <= b -> b <= 146095 -> era_year a <= era_year b.
Proof.
  intros Hab Hb. unfold era_year. apply Z.div_le_mono; [lia|].
  rewrite !(Z.div_small _ 146096) by lia.
  assert (a / 36524 <= b / 36524) by (apply Z.div_le_mono; lia).
  assert (b / 1460 - a / 1460 <= b - a) by lia. lia.
Qed.

Lemma era_year_start Y : 0 <= Y <= 399 ->
  era_year (year_start Y) = Y /\ (Y < 399 -> era_year (year_start (Y + 1) - 1) = Y) /\
  era_year 146095 = 399 /\ era_year 146096 = 399 /\ year_start 399 <= 146095.
Proof.
  intros HY.
  pose proof (in_range_spec 0 399 (fun Y => (era_year (year_start Y) =? Y) &&
    ((399 <=? Y) || (era_year (year_start (Y + 1) - 1) =? Y))) Y ltac:(vm_compute; reflexivity) HY) as H.
  cbv beta in H. rewrite andb_true_iff, orb_true_iff, Z.leb_le, !Z.eqb_eq in H.
  destruct H as [H1 H2]. split_and!; [done|intros; destruct H2; [lia|done]|reflexivity|reflexivity|].
  vm_compute. discriminate.
Qed.

Lemma year_start_bounds Y : 0 <= Y <= 399 -> 0 <= year_start Y /\ year_start Y + 365 <= year_start (Y + 1) <= year_start Y + 366.
Proof. intros HY. unfold year_start. lia. Qed.

(** The year of the era that a day falls in. *)
Lemma era_year_spec doe : 0 <= doe <= 146096 ->
  let yoe := era_year doe in
  0 <= yoe <= 399 /\ year_start yoe <= doe /\ (yoe < 399 -> doe < year_start (yoe + 1)).
Proof.
  intros Hd yoe.
  assert (Hex : exists Y, 0 <= Y <= 399 /\ year_start Y <= doe /\ (Y < 399 -> doe < year_start (Y + 1))).
  { clear yoe. assert (forall n : nat, Z.of_nat n <= 399 -> year_start (Z.of_nat n) <= doe ->
      exists Y, 0 <= Y <= 399 /\ year_start Y <= doe /\ (Y < 399 -> doe < year_start (Y + 1))) as Hs.
    { intros n. remember (399 - n)%nat as m eqn:Hm. revert n Hm.
      induction m as [|m IH]; intros n Hm Hn Hle; [exists (Z.of_nat n); split_and!; lia|].
      destruct (Z.lt_ge_cases doe (year_start (Z.of_nat n + 1))) as [|Hge].
      - exists (Z.of_nat n). split_and!; lia.
      - apply (IH (S n)); [lia|lia|]. by replace (Z.of_nat (S n)) with (Z.of_nat n + 1) by lia. }
    apply (Hs 0%nat); [lia|]. change (year_start (Z.of_nat 0)) with 0. lia. }
  destruct Hex as (Y&HY&Hlo&Hhi). destruct (era_year_start Y HY) as (E1&E2&E3&E4&E5).
  assert (yoe = Y) as ->; [|done]. unfold yoe.
  pose proof (year_start_bounds Y HY).
  destruct (decide (Y < 399)) as [Hlt|Hge].
  - specialize (Hhi Hlt). specialize (E2 Hlt).
    assert (year_start (Y + 1) <= 146095).
    { apply Z.leb_le, (in_range_spec 0 398 (fun Y => year_start (Y + 1) <=? 146095));
        [vm_compute; reflexivity|lia]. }
    pose proof (era_year_mono (year_start Y) doe ltac:(lia) ltac:(lia)).
    pose proof (era_year_mono doe (year_start (Y + 1) - 1) ltac:(lia) ltac:(lia)). lia.
  - assert (Y = 399) as -> by lia. destruct (decide (doe = 146096)) as [->|]; [done|].
    pose proof (era_year_mono (year_start 399) doe ltac:(lia) ltac:(lia)).
    pose proof (era_year_mono doe 146095 ltac:(lia) ltac:(lia)). lia.
Qed.

(** ** Leap years and month lengths *)

Lemma is_leap_iff y : is_leap y = true <-> (y mod 4 = 0 /\ y mod 100 <> 0) \/ y mod 400 = 0.
Proof.
  unfold is_leap. rewrite orb_true_iff, andb_true_iff, negb_true_iff, Z.eqb_neq, !Z.eqb_eq. lia.
Qed.

(** The shifted year ends with the leap day of the next calendar year. *)
Lemma year_length Y : year_start (Y + 1) - year_start Y = if is_leap (Y + 1) then 366 else 365.
Proof.
  unfold year_start. pose proof (is_leap_iff (Y + 1)) as H.
  destruct (is_leap (Y + 1)); [destruct (proj1 H eq_refl)|assert (~ ((Y + 1) mod 4 = 0 /\ (Y + 1) mod 100 <> 0 \/ (Y + 1) mod 400 = 0)) by naive_solver]; lia.
Qed.

(** A date the calendar has. *)
Definition valid_date (y m d : Z) : Prop := 1 <= m <= 12 /\ 1 <= d <= days_in_month y m.

Lemma valid_date_bool y m d :
  negb ((1 <=? m) && (m <=? 12)) || (d <? 1) || (days_in_month y m <? d) = false <-> valid_date y m d.
Proof.
  unfold valid_date. rewrite !orb_false_iff, negb_false_iff, andb_true_iff, !Z.leb_le, !Z.ltb_ge. lia.
Qed.

Lemma month_cases m : 1 <= m <= 12 ->
  m = 1 \/ m = 2 \/ m = 3 \/ m = 4 \/ m = 5 \/ m = 6 \/ m = 7 \/ m = 8 \/ m = 9 \/ m = 10 \/ m = 11 \/ m = 12.
Proof. lia. Qed.

(** The length of a month, in the shifted year. *)
Lemma month_length y m : 1 <= m <= 12 ->
  days_in_month y m =
  if m =? 2 then year_start (march_year y m + 1) - year_start (march_year y m) - month_start 11
  else month_start (march_month m + 1) - month_start (march_month m).
Proof.
  intros Hm. destruct (month_cases m Hm) as [->|[->|[->|[->|[->|[->|[->|[->|[->|[->|[->| ->]]]]]]]]]]];
    try reflexivity.
  change (2 =? 2) with true. cbv iota. rewrite year_length. unfold march_year. change (2 <=? 2) with true.
  cbv iota. replace (y - 1 + 1) with y by lia. change (month_start 11) with 337.
  unfold days_in_month. by destruct (is_leap y).
Qed.

(** ** Round trips *)

Lemma year_start_mono a b : a <= b -> year_start a <= year_start b.
Proof. intros. unfold year_start. lia. Qed.

Lemma year_start_step Y : year_start Y + 365 <= year_start (Y + 1) <= year_start Y + 366.
Proof. rewrite <-(Z.sub_add (year_start Y) (year_start (Y + 1))), year_length. destruct (is_leap _); lia. Qed.

(** The day of the shifted year that a valid date falls on. *)
Lemma valid_doy y m d :
  valid_date y m d ->
  let Y := march_year y m in let mp := march_month m in let doy := month_start mp + d - 1 in
  0 <= mp <= 11 /\ month_start mp <= doy < month_start (mp + 1) /\
  0 <= doy < year_start (Y + 1) - year_start Y.
Proof.
  intros [Hm Hd]. cbv zeta. rewrite month_length in Hd by done. pose proof (year_start_step (march_year y m)).
  assert (Hmp : 0 <= march_month m <= 11) by (unfold march_month; destruct (2 <? m) eqn:?; lia).
  pose proof (month_start_mono 0 (march_month m) ltac:(lia)). change (month_start 0) with 0 in *.
  destruct (Z.eqb_spec m 2) as [->|Hne].
  - change (march_month 2) with 11 in *. change (month_start 11) with 337 in *.
    change (month_start (11 + 1)) with 367. lia.
  - assert (march_month m <= 10) by (unfold march_month in *; destruct (2 <? m) eqn:?; lia).
    pose proof (month_start_mono (march_month m + 1) 11 ltac:(lia)). change (month_start 11) with 337 in *. lia.
Qed.

Lemma march_inj y m y' m' :
  1 <= m <= 12 -> 1 <= m' <= 12 -> march_year y m = march_year y' m' -> march_month m = march_month m' ->
  y = y' /\ m = m'.
Proof.
  unfold march_year, march_month. intros Hm Hm'.
  destruct (Z.leb_spec m 2), (Z.leb_spec m' 2), (Z.ltb_spec 2 m), (Z.ltb_spec 2 m'); lia.
Qed.

(** Two valid dates on the same day are the same date. *)
Lemma days_from_civil_inj y m d y' m' d' :
  valid_date y m d -> valid_date y' m' d' -> days_from_civil_z y m d = days_from_civil_z y' m' d' ->
  y = y' /\ m = m' /\ d = d'.
Proof.
  intros Hv Hv'. destruct (valid_doy y m d Hv) as (Hm1&Hm2&Hm3). destruct (valid_doy y' m' d' Hv') as (Hn1&Hn2&Hn3).
  destruct Hv as [Hm _], Hv' as [Hm' _]. rewrite !days_from_civil_eq by lia. intros Heq.
  pose proof (year_start_step (march_year y m)). pose proof (year_start_step (march_year y' m')).
  assert (HY : march_year y m = march_year y' m').
  { destruct (Z.lt_trichotomy (march_year y m) (march_year y' m')) as [|[|]]; [|done|].
    - pose proof (year_start_mono (march_year y m + 1) (march_year y' m') ltac:(lia)). lia.
    - pose proof (year_start_mono (march_year y' m' + 1) (march_year y m) ltac:(lia)). lia. }
  rewrite HY in *.
  assert (Hdoy : month_start (march_month m) + d - 1 = month_start (march_month m') + d' - 1) by lia.
  assert (Hmp : march_month m = march_month m').
  { transitivity ((5 * (month_start (march_month m) + d - 1) + 2) / 153).
    - symmetry. apply month_of_day_unique; lia.
    - rewrite Hdoy. apply month_of_day_unique; lia. }
  destruct (march_inj y m y' m' Hm Hm' HY Hmp) as [-> ->]. split_and!; [done..|lia].
Qed.

(** The civil date of a day: the shifted year and month it falls in. *)
Lemma civil_from_days_parts z :
  exists Y mp d, 0 <= mp <= 11 /\ 1 <= d <= 31 /\
    z + 719468 = year_start Y + month_start mp + d - 1 /\
    month_start mp + d - 1 < Z.min (month_start (mp + 1)) (year_start (Y + 1) - year_start Y) /\
    civil_from_days_z z = (if mp <? 10 then Y else Y + 1, if mp <? 10 then mp + 3 else mp - 9, d).
Proof.
  unfold civil_from_days_z. cbv zeta. set (n := z + 719468).
  change (n - 146096) with (n - (146097 - 1)). rewrite (quot_floor n 146097) by lia.
  set (era := n / 146097). set (doe := n - era * 146097).
  assert (Hdoe : 0 <= doe <= 146096) by (unfold doe, era; clearbody n; lia).
  assert (Hn : n = doe + 146097 * era) by (unfold doe; lia). clearbody doe era n.
  rewrite !(Z.quot_div_nonneg doe) by lia.
  assert (Hq : 0 <= doe - doe / 1460 + doe / 36524 - doe / 146096) by lia.
  rewrite (Z.quot_div_nonneg _ 365) by lia. fold (era_year doe).
  destruct (era_year_spec doe Hdoe) as (Hy&Hlo&Hhi). set (yoe := era_year doe) in *. clearbody yoe.
  rewrite !(Z.quot_div_nonneg yoe) by lia.
  assert (Hys : 365 * yoe + yoe / 4 - yoe / 100 = year_start yoe) by (unfold year_start; lia).
  rewrite Hys. set (doy := doe - year_start yoe).
  assert (Hera : forall a, year_start (a + era * 400) = year_start a + 146097 * era)
    by (intros; unfold year_start; lia).
  pose proof (year_start_step yoe) as Hst.
  assert (Hdoy : 0 <= doy <= 365 /\ doy < year_start (yoe + 1) - year_start yoe).
  { unfold doy. destruct (decide (yoe < 399)) as [Hlt|]; [specialize (Hhi Hlt); lia|].
    assert (yoe = 399) as -> by lia. change (year_start (399 + 1)) with 146097 in *.
    change (year_start 399) with 145731 in *. lia. }
  assert (Hdoe' : doe = year_start yoe + doy) by (unfold doy; lia). clearbody doy.
  rewrite (Z.quot_div_nonneg (5 * doy + 2)) by lia.
  destruct (month_of_day doy ltac:(lia)) as [Hmp Hms]. set (mp := (5 * doy + 2) / 153) in *. clearbody mp.
  rewrite (Z.quot_div_nonneg (153 * mp + 2)) by lia. fold (month_start mp).
  assert (Hlen : month_start (mp + 1) - month_start mp <= 31) by (unfold month_start; lia).
  rewrite as_u32_id by (destruct (mp <? 10) eqn:?; lia). rewrite as_u32_id by lia.
  exists (yoe + era * 400), mp, (doy - month_start mp + 1).
  replace (yoe + era * 400 + 1) with (yoe + 1 + era * 400) by lia. rewrite !Hera.
  split_and!; try lia. destruct (Z.ltb_spec mp 10).
  - destruct (Z.leb_spec (mp + 3) 2); [lia|done].
  - destruct (Z.leb_spec (mp - 9) 2); [|lia]. do 2 f_equal; lia.
Qed.

Lemma civil_from_days_spec z y m d :
  civil_from_days_z z = (y, m, d) -> valid_date y m d /\ days_from_civil_z y m d = z.
Proof.
  intros Heq. destruct (civil_from_days_parts z) as (Y&mp&d'&Hmp&Hd&Hz&Hlt&Hc).
  rewrite Heq in Hc. injection Hc as Hy Hm ->.
  assert (Hm12 : 1 <= m <= 12) by (rewrite Hm; destruct (Z.ltb_spec mp 10); lia).
  assert (HY : march_year y m = Y)
    by (unfold march_year; rewrite Hy, Hm; destruct (Z.ltb_spec mp 10);
        [rewrite (proj2 (Z.leb_gt _ _)) by lia|rewrite (proj2 (Z.leb_le _ _)) by lia]; lia).
  assert (HM : march_month m = mp)
    by (unfold march_month; rewrite Hm; destruct (Z.ltb_spec mp 10);
        [rewrite (proj2 (Z.ltb_lt _ _)) by lia|rewrite (proj2 (Z.ltb_ge _ _)) by lia]; lia).
  split.
  - split; [done|]. split; [lia|]. rewrite month_length by done. rewrite HY, HM.
    destruct (Z.eqb_spec m 2) as [Em|]; [|lia].
    assert (Hmp11 : mp = 11) by (rewrite Em in HM; by rewrite <-HM). rewrite Hmp11 in Hlt. lia.
  - rewrite days_from_civil_eq by lia. rewrite HY, HM. lia.
Qed.

Lemma civil_of_days y m d :
  valid_date y m d -> civil_from_days_z (days_from_civil_z y m d) = (y, m, d).
Proof.
  intros Hv. destruct (civil_from_days_z (days_from_civil_z y m d)) as [[y' m'] d'] eqn:E.
  apply civil_from_days_spec in E as [Hv' Heq].
  by destruct (days_from_civil_inj y' m' d' y m d Hv' Hv Heq) as (->&->&->).
Qed.

(** Evaluate the closed tests of a goal about one concrete month. *)
Ltac eval_month :=
  unfold march_year, march_month, month_start;
  repeat match goal with
    |- context [if ?b then _ else _] =>
      let v := eval vm_compute in b in
      lazymatch v with true => change b with true | false => change b with false end; cbv iota
    end.

(** The day after a date, as a calendar counts. *)
Definition next_day (date : Z * Z * Z) : Z * Z * Z :=
  let '(y, m, d) := date in
  if d <? days_in_month y m then (y, m, d + 1)
  else if m <? 12 then (y, m + 1, 1)
  else (y + 1, 1, 1).

Lemma next_day_valid y m d : valid_date y m d ->
  let '(y', m', d') := next_day (y, m, d) in
  valid_date y' m' d' /\ days_from_civil_z y' m' d' = days_from_civil_z y m d + 1.
Proof.
  intros [Hm Hd]. unfold next_day.
  assert (Hpos : forall y m, 1 <= m <= 12 -> 1 <= days_in_month y m).
  { clear. intros y m Hm. destruct (month_cases m Hm) as [->|[->|[->|[->|[->|[->|[->|[->|[->|[->|[->| ->]]]]]]]]]]];
      try (cbv; discriminate). unfold days_in_month. destruct (is_leap y); lia. }
  destruct (Z.ltb_spec d (days_in_month y m)) as [Hlt|Hge].
  - split; [split; lia|]. rewrite !days_from_civil_eq by lia. lia.
  - assert (d = days_in_month y m) as -> by lia. rewrite (month_length y m) in * by done.
    destruct (Z.ltb_spec m 12) as [Hm12|Hm12].
    + split; [split; [lia|split; [lia|apply Hpos; lia]]|]. rewrite !days_from_civil_eq by lia.
      destruct (month_cases m Hm) as [->|[->|[->|[->|[->|[->|[->|[->|[->|[->|[->| ->]]]]]]]]]]]; try lia;
        eval_month; replace (y - 1 + 1) with y by lia; lia.
    + assert (m = 12) as -> by lia. split; [split; [lia|split; [lia|apply Hpos; lia]]|].
      rewrite !days_from_civil_eq by lia. eval_month. replace (y + 1 - 1) with y by lia. lia.
Qed.

(** ** Years, ordinals and ISO weeks *)

(** The day of January 1. *)
Definition jan1 (y : Z) : Z := days_from_civil_z y 1 1.

Lemma jan1_eq y : jan1 y = year_start (y - 1) + 306 - 719468.
Proof. unfold jan1. rewrite days_from_civil_eq by lia. eval_month. lia. Qed.

Lemma jan1_step y : jan1 (y + 1) = jan1 y + days_in_year y.
Proof.
  rewrite !jan1_eq. unfold days_in_year. replace (y + 1 - 1) with (y - 1 + 1) by lia.
  pose proof (year_length (y - 1)) as H. replace (y - 1 + 1) with y in * by lia. lia.
Qed.

Lemma jan1_mono a b : a <= b -> jan1 a <= jan1 b.
Proof. intros. rewrite !jan1_eq. pose proof (year_start_mono (a - 1) (b - 1) ltac:(lia)). lia. Qed.

Lemma days_in_year_cases y : days_in_year y = 365 \/ days_in_year y = 366.
Proof. unfold days_in_year. destruct (is_leap y); auto. Qed.

(** A date lies in its year. *)
Lemma civil_year z y m d : civil_from_days_z z = (y, m, d) -> jan1 y <= z < jan1 (y + 1).
Proof.
  intros [Hv <-]%civil_from_days_spec. destruct (valid_doy y m d Hv) as (Hmp&Hms&Hdoy).
  destruct Hv as [Hm _]. rewrite days_from_civil_eq, !jan1_eq by lia.
  pose proof (year_start_step (y - 1)). replace (y - 1 + 1) with y in * by lia.
  replace (y + 1 - 1) with y by lia. unfold march_year, march_month in *.
  destruct (Z.leb_spec m 2), (Z.ltb_spec 2 m); try lia.
  - pose proof (month_start_mono 10 (m + 9) ltac:(lia)). change (month_start 10) with 306 in *.
    replace (y - 1 + 1) with y in * by lia. lia.
  - pose proof (month_start_mono (m - 3 + 1) 10 ltac:(lia)). change (month_start 10) with 306 in *.
    pose proof (month_start_mono 0 (m - 3) ltac:(lia)). change (month_start 0) with 0 in *. lia.
Qed.

Lemma year_unique z y y' : jan1 y <= z < jan1 (y + 1) -> jan1 y' <= z < jan1 (y' + 1) -> y = y'.
Proof.
  intros H1 H2. destruct (Z.lt_trichotomy y y') as [|[|]]; [|done|].
  - pose proof (jan1_mono (y + 1) y' ltac:(lia)). lia.
  - pose proof (jan1_mono (y' + 1) y ltac:(lia)). lia.
Qed.

Lemma ordinal_eq z y m d : civil_from_days_z z = (y, m, d) -> ordinal_z z = z - jan1 y + 1.
Proof.
  intros Hc. pose proof (civil_year z y m d Hc) as Hy. rewrite jan1_step in Hy.
  unfold ordinal_z. rewrite Hc. fold (jan1 y). apply as_u32_id.
  destruct (days_in_year_cases y); lia.
Qed.

Lemma iso_weekday_eq z : iso_weekday_z z = (z + 3) mod 7 + 1.
Proof. unfold iso_weekday_z, EPOCH_ISO_WEEKDAY_OFFSET. rewrite as_u32_id; lia. Qed.

(** The Monday of ISO week 1. *)
Definition week1_monday (y : Z) : Z := jan1 y + 3 - (jan1 y + 6) mod 7.

Lemma iso_weeks_eq y : iso_weeks_in_year_z y * 7 = week1_monday (y + 1) - week1_monday y.
Proof.
  unfold iso_weeks_in_year_z, week1_monday. cbv zeta. fold (jan1 y). rewrite jan1_step, iso_weekday_eq.
  unfold days_in_year. set (J := jan1 y). clearbody J.
  destruct (is_leap y); [rewrite andb_true_r|rewrite andb_false_r, orb_false_r];
    repeat match goal with |- context [?a =? ?b] => destruct (Z.eqb_spec a b) end; cbn [orb]; lia.
Qed.

Lemma iso_weeks_range y : 52 <= iso_weeks_in_year_z y <= 53.
Proof. unfold iso_weeks_in_year_z. cbv zeta. destruct (_ || _); lia. Qed.

Lemma week1_monday_mono a b : a <= b -> week1_monday a <= week1_monday b.
Proof. intros H%jan1_mono. unfold week1_monday. lia. Qed.

(** The ISO week date of a day. *)
Lemma iso_week_spec z y w :
  iso_week_z z = (y, w) ->
  1 <= w <= iso_weeks_in_year_z y /\ z = week1_monday y + (w - 1) * 7 + (iso_weekday_z z - 1).
Proof.
  unfold iso_week_z. destruct (civil_from_days_z z) as [[cy m] d] eqn:Hc. cbv zeta.
  rewrite (ordinal_eq z cy m d Hc), iso_weekday_eq. pose proof (civil_year z cy m d Hc) as Hy.
  rewrite jan1_step in Hy. pose proof (iso_weeks_range cy). pose proof (iso_weeks_range (cy - 1)).
  pose proof (iso_weeks_eq cy) as Hw. pose proof (iso_weeks_eq (cy - 1)) as Hw'.
  replace (cy - 1 + 1) with cy in Hw' by lia.
  assert (Hnext : week1_monday (cy + 1) = jan1 cy + days_in_year cy + 3 - (jan1 cy + days_in_year cy + 6) mod 7)
    by (unfold week1_monday; by rewrite jan1_step).
  assert (Hthis : week1_monday cy = jan1 cy + 3 - (jan1 cy + 6) mod 7) by done.
  pose proof (days_in_year_cases cy) as Hdy.
  rewrite Z.quot_div_nonneg by lia.
  destruct (Z.ltb_spec ((z - jan1 cy + 1 - ((z + 3) mod 7 + 1) + 10) / 7) 1) as [H1|H1];
    [|destruct (Z.ltb_spec (iso_weeks_in_year_z cy) ((z - jan1 cy + 1 - ((z + 3) mod 7 + 1) + 10) / 7)) as [H2|H2]].
  - intros [= <- <-]. split; [lia|]. lia.
  - intros [= <- <-]. pose proof (iso_weeks_range (cy + 1)). split; [lia|]. lia.
  - intros [= <- <-]. rewrite as_u32_id by lia. split; [lia|]. lia.
Qed.

Lemma iso_week_unique z y w y' w' d :
  1 <= w <= iso_weeks_in_year_z y -> 1 <= w' <= iso_weeks_in_year_z y' ->
  z = week1_monday y + (w - 1) * 7 + d -> z = week1_monday y' + (w' - 1) * 7 + d -> 0 <= d <= 6 ->
  y = y' /\ w = w'.
Proof.
  intros Hw Hw' Hz Hz' Hd. pose proof (iso_weeks_eq y). pose proof (iso_weeks_eq y').
  assert (y = y') as ->; [|split; [done|lia]].
  destruct (Z.lt_trichotomy y y') as [|[|]]; [|done|].
  - pose proof (week1_monday_mono (y + 1) y' ltac:(lia)). lia.
  - pose proof (week1_monday_mono (y' + 1) y ltac:(lia)). lia.
Qed.

Lemma from_iso_ywd_Some y w wd z :
  from_iso_ywd_z y w wd = Some z <->
  1 <= wd <= 7 /\ 1 <= w <= iso_weeks_in_year_z y /\ z = week1_monday y + (w - 1) * 7 + (wd - 1).
Proof.
  unfold from_iso_ywd_z. cbv zeta. rewrite iso_weekday_eq.
  assert (days_from_civil_z y 1 4 = jan1 y + 3) as -> by (unfold jan1; rewrite !days_from_civil_eq by lia; lia).
  assert (jan1 y + 3 - ((jan1 y + 3 + 3) mod 7 + 1 - 1) = week1_monday y) as ->
    by (unfold week1_monday; lia).
  destruct (Z.leb_spec 1 wd), (Z.leb_spec wd 7), (Z.ltb_spec w 1), (Z.ltb_spec (iso_weeks_in_year_z y) w);
    cbn [negb andb orb]; (split; [intros [= <-]|intros (?&?&->)]); try lia; try done.
Qed.

(** ** Width *)

(** The values the operations of [days_from_civil_z] compute, in order. *)
Definition days_from_civil_trace (y m d : Z) : list Z :=
  let y' := if m <=? 2 then y - 1 else y in
  let era := Z.quot (if 0 <=? y' then y' else y' - 399) 400 in
  let yoe := y' - era * 400 in
  let mp := if 2 <? m then m - 3 else m + 9 in
  let q := Z.quot (153 * mp + 2) 5 in
  let doy := q + d - 1 in
  let doe := yoe * 365 + Z.quot yoe 4 - Z.quot yoe 100 + doy in
  [y'; if 0 <=? y' then y' else y' - 399; era; era * 400; yoe; mp; 153 * mp; 153 * mp + 2; q; q + d; doy;
   yoe * 365; Z.quot yoe 4; yoe * 365 + Z.quot yoe 4; Z.quot yoe 100;
   yoe * 365 + Z.quot yoe 4 - Z.quot yoe 100; doe; era * 146097; era * 146097 + doe;
   era * 146097 + doe - 719468].

(** The values the operations of [civil_from_days_z] compute, in order. *)
Definition civil_from_days_trace (z : Z) : list Z :=
  let z' := z + 719468 in
  let era := Z.quot (if 0 <=? z' then z' else z' - 146096) 146097 in
  let doe := z' - era * 146097 in
  let n := doe - Z.quot doe 1460 + Z.quot doe 36524 - Z.quot doe 146096 in
  let yoe := Z.quot n 365 in
  let y := yoe + era * 400 in
  let s := 365 * yoe + Z.quot yoe 4 - Z.quot yoe 100 in
  let doy := doe - s in
  let mp := Z.quot (5 * doy + 2) 153 in
  [z'; if 0 <=? z' then z' else z' - 146096; era; era * 146097; doe; Z.quot doe 1460; doe - Z.quot doe 1460;
   Z.quot doe 36524; doe - Z.quot doe 1460 + Z.quot doe 36524; Z.quot doe 146096; n; yoe; era * 400; y;
   365 * yoe; Z.quot yoe 4; 365 * yoe + Z.quot yoe 4; Z.quot yoe 100; s; doy; 5 * doy; 5 * doy + 2; mp;
   153 * mp; 153 * mp + 2; Z.quot (153 * mp + 2) 5; doy - Z.quot (153 * mp + 2) 5;
   doy - Z.quot (153 * mp + 2) 5 + 1; mp + 3; mp - 9; y + 1].

(** Bounds within which no conversion overflows. *)
Definition wide_year (y : Z) : Prop := -18014398509481984 <= y <= 18014398509481984.
Definition wide_day (z : Z) : Prop := -4611686018427387904 <= z <= 4611686018427387904.

Lemma in_i64_bounds z : in_i64 z <-> -9223372036854775808 <= z <= 9223372036854775807.
Proof. done. Qed.

Lemma i64_Some z : in_i64 z -> i64 z = Some z.
Proof. intros [? ?]. unfold i64. by rewrite (proj2 (Z.leb_le i64_min z)), (proj2 (Z.leb_le z i64_max)). Qed.

Lemma u32_Some z : 0 <= z < 4294967296 -> u32 z = Some z.
Proof. intros [? ?]. unfold u32. by rewrite (proj2 (Z.leb_le 0 z)), (proj2 (Z.ltb_lt z (2 ^ 32))). Qed.

Lemma days_from_civil_trace_small y m d :
  wide_year y -> 1 <= m <= 12 -> 1 <= d <= 31 -> Forall in_i64 (days_from_civil_trace y m d).
Proof.
  intros Hy Hm Hd. unfold wide_year in Hy. unfold days_from_civil_trace. cbv zeta.
  set (y' := if m <=? 2 then y - 1 else y).
  assert (Hy' : -18014398509481985 <= y' <= 18014398509481984) by (unfold y'; destruct (m <=? 2); lia). clearbody y'.
  change (y' - 399) with (y' - (400 - 1)). rewrite (quot_floor y' 400) by lia.
  assert (Hera : -45035996273705 <= y' / 400 <= 45035996273705) by lia.
  assert (Hyoe : 0 <= y' - y' / 400 * 400 <= 399) by lia.
  set (era := y' / 400) in *. clearbody era. set (yoe := y' - era * 400) in *. clearbody yoe.
  set (mp := if 2 <? m then m - 3 else m + 9).
  assert (Hmp : 0 <= mp <= 11) by (unfold mp; destruct (2 <? m) eqn:?; lia). clearbody mp.
  rewrite !Z.quot_div_nonneg by lia.
  assert (0 <= (153 * mp + 2) / 5 <= 337) by lia. set (q := (153 * mp + 2) / 5) in *. clearbody q.
  assert (0 <= yoe / 4 <= 99) by lia. assert (0 <= yoe / 100 <= 3) by lia.
  set (a := yoe / 4) in *. set (b := yoe / 100) in *. clearbody a b.
  repeat (apply Forall_cons_2; [apply in_i64_bounds; try destruct (0 <=? y'); lia|]). constructor.
Qed.

Lemma civil_from_days_trace_small z :
  wide_day z -> Forall in_i64 (civil_from_days_trace z).
Proof.
  intros Hz. unfold wide_day in Hz. unfold civil_from_days_trace. cbv zeta.
  set (z' := z + 719468). assert (Hz' : -4611686018427387904 <= z' <= 4611686018428107372) by (unfold z'; lia). clearbody z'.
  change (z' - 146096) with (z' - (146097 - 1)). rewrite (quot_floor z' 146097) by lia.
  assert (Hera : -31566000000000 <= z' / 146097 <= 31566000000000) by lia.
  assert (Hdoe : 0 <= z' - z' / 146097 * 146097 <= 146096) by lia.
  set (era := z' / 146097) in *. clearbody era. set (doe := z' - era * 146097) in *. clearbody doe.
  rewrite !(Z.quot_div_nonneg doe) by lia.
  assert (Hn : 0 <= doe - doe / 1460 + doe / 36524 - doe / 146096) by lia.
  rewrite (Z.quot_div_nonneg _ 365) by lia. fold (era_year doe).
  destruct (era_year_spec doe Hdoe) as (Hy&_&_). set (yoe := era_year doe) in *. clearbody yoe.
  assert (0 <= doe / 1460 <= 100) by lia. assert (0 <= doe / 36524 <= 4) by lia.
  assert (0 <= doe / 146096 <= 1) by lia.
  set (a := doe / 1460) in *. set (b := doe / 36524) in *. set (c := doe / 146096) in *. clearbody a b c.
  rewrite !(Z.quot_div_nonneg yoe) by lia.
  assert (0 <= yoe / 4 <= 99) by lia. assert (0 <= yoe / 100 <= 3) by lia.
  set (e := yoe / 4) in *. set (f := yoe / 100) in *. clearbody e f.
  set (doy := doe - (365 * yoe + e - f)). assert (Hdoy : -146000 <= doy <= 146100) by (unfold doy; lia).
  clearbody doy. set (mp := Z.quot (5 * doy + 2) 153). assert (Hmp : -4800 <= mp <= 4800) by (unfold mp; lia).
  clearbody mp. assert (Hq : -147000 <= Z.quot (153 * mp + 2) 5 <= 147000) by lia.
  set (q := Z.quot (153 * mp + 2) 5) in *. clearbody q.
  repeat (apply Forall_cons_2; [apply in_i64_bounds; try destruct (0 <=? z'); lia|]). constructor.
Qed.

(** Run the checked operations whose results are known to fit. *)
Ltac fit :=
  repeat first [progress cbn [mbind option_bind] | rewrite i64_Some by (assumption || (apply in_i64_bounds; lia))
               | rewrite u32_Some by lia].

Lemma days_from_civil_fits y m d :
  Forall in_i64 (days_from_civil_trace y m d) -> days_from_civil y m d = Some (days_from_civil_z y m d).
Proof.
  unfold days_from_civil_trace, days_from_civil, days_from_civil_z. cbv zeta.
  destruct (m <=? 2), (2 <? m); cbn [mbind option_bind];
  match goal with |- context [0 <=? ?y] => destruct (0 <=? y) eqn:E end;
  intros H; repeat (apply Forall_cons_1 in H as [? H]); fit; rewrite ?E; fit; done.
Qed.

Lemma civil_from_days_fits z :
  Forall in_i64 (civil_from_days_trace z) -> civil_from_days z = Some (civil_from_days_z z).
Proof.
  unfold civil_from_days_trace, civil_from_days, civil_from_days_z. cbv zeta.
  destruct (0 <=? z + 719468) eqn:E; intros H; repeat (apply Forall_cons_1 in H as [? H]);
  fit; rewrite E; fit;
  match goal with |- context [?a <? 10] => destruct (a <? 10) end; fit;
  match goal with |- context [?a <=? 2] => destruct (a <=? 2) end; fit; done.
Qed.


Lemma days_from_civil_ok y m d :
  wide_year y -> 1 <= m <= 12 -> 1 <= d <= 31 -> days_from_civil y m d = Some (days_from_civil_z y m d).
Proof. intros. by apply days_from_civil_fits, days_from_civil_trace_small. Qed.

Lemma civil_from_days_ok z : wide_day z -> civil_from_days z = Some (civil_from_days_z z).
Proof. intros. by apply civil_from_days_fits, civil_from_days_trace_small. Qed.

Lemma days_in_month_bound y m : days_in_month y m <= 31.
Proof.
  unfold days_in_month. destruct m as [|p|p]; [lia| |lia].
  repeat (destruct p as [p|p|]; try lia); destruct (is_leap y); lia.
Qed.

Lemma valid_day y m d : valid_date y m d -> 1 <= d <= 31.
Proof. intros [_ Hd]. pose proof (days_in_month_bound y m). lia. Qed.

Lemma valid_days_ok y m d :
  wide_year y -> valid_date y m d -> days_from_civil y m d = Some (days_from_civil_z y m d).
Proof. intros Hy Hv. apply days_from_civil_ok; [done|apply Hv|by eapply valid_day]. Qed.

(** A date lies within a year of 365.2425 days times its year. *)
Lemma days_of_year y m d :
  valid_date y m d ->
  146097 * (y - 1) - 400 * 720000 <= 400 * days_from_civil_z y m d <= 146097 * (y + 1) - 400 * 719000.
Proof.
  intros Hv. destruct (valid_doy y m d Hv) as (Hmp&_&Hdoy). destruct Hv as [Hm _].
  rewrite days_from_civil_eq by lia. pose proof (year_start_step (march_year y m)).
  assert (y - 1 <= march_year y m <= y) by (unfold march_year; destruct (m <=? 2); lia).
  assert (146097 * march_year y m - 1200 <= 400 * year_start (march_year y m) <= 146097 * march_year y m + 1200)
    by (unfold year_start; lia). lia.
Qed.

Lemma wide_days y m d :
  -9007199254740992 <= y <= 9007199254740992 -> valid_date y m d -> wide_day (days_from_civil_z y m d).
Proof. intros Hy Hv. pose proof (days_of_year y m d Hv). unfold wide_day. lia. Qed.

Lemma year_of_wide_day z y m d :
  wide_day z -> civil_from_days_z z = (y, m, d) -> -13000000000000000 <= y <= 13000000000000000.
Proof.
  intros Hz [Hv <-]%civil_from_days_spec. pose proof (days_of_year y m d Hv). unfold wide_day in Hz. lia.
Qed.

Lemma jan1_ok y : wide_year y -> days_from_civil y 1 1 = Some (jan1 y).
Proof. intros. apply days_from_civil_ok; [done|lia|lia]. Qed.

Lemma jan1_bound y : 146097 * (y - 1) - 400 * 720000 <= 400 * jan1 y <= 146097 * (y + 1) - 400 * 719000.
Proof. apply days_of_year. split; [lia|]. unfold days_in_month. lia. Qed.

Lemma ordinal_ok z : wide_day z -> ordinal z = Some (ordinal_z z).
Proof.
  intros Hz. unfold ordinal, ordinal_z. rewrite civil_from_days_ok by done.
  destruct (civil_from_days_z z) as [[y m] d] eqn:Hc. cbn [mbind option_bind].
  pose proof (year_of_wide_day z y m d Hz Hc) as Hy. rewrite jan1_ok by (unfold wide_year; lia).
  fold (jan1 y). pose proof (civil_year z y m d Hc). rewrite jan1_step in *.
  pose proof (days_in_year_cases y). by fit.
Qed.

Lemma iso_weekday_ok z :
  -9223372036854775808 <= z <= 9223372036854775804 -> iso_weekday z = Some (iso_weekday_z z).
Proof.
  intros Hz. unfold iso_weekday, iso_weekday_z, EPOCH_ISO_WEEKDAY_OFFSET. fit.
  rewrite as_u32_id by lia. by fit.
Qed.

Lemma iso_weeks_ok y : wide_year y -> iso_weeks_in_year y = Some (iso_weeks_in_year_z y).
Proof.
  intros Hy. unfold iso_weeks_in_year, iso_weeks_in_year_z. rewrite jan1_ok by done. fold (jan1 y).
  cbn [mbind option_bind]. pose proof (jan1_bound y). unfold wide_year in Hy.
  by rewrite iso_weekday_ok by lia.
Qed.

Lemma iso_week_ok z : wide_day z -> iso_week z = Some (iso_week_z z).
Proof.
  intros Hz. unfold iso_week, iso_week_z. rewrite civil_from_days_ok, ordinal_ok by done.
  destruct (civil_from_days_z z) as [[y m] d] eqn:Hc. cbn [mbind option_bind].
  pose proof (year_of_wide_day z y m d Hz Hc) as Hy. pose proof (ordinal_eq z y m d Hc) as Ho.
  pose proof (civil_year z y m d Hc). rewrite jan1_step in *. pose proof (days_in_year_cases y).
  unfold wide_day in Hz. rewrite iso_weekday_ok by lia. pose proof (iso_weekday_eq z).
  cbn [mbind option_bind]. fit.
  rewrite (iso_weeks_ok y) by (unfold wide_year; lia).
  rewrite (iso_weeks_ok (y - 1)) by (unfold wide_year; lia). cbn [mbind option_bind].
  by repeat case_match.
Qed.

Lemma from_iso_ywd_ok y w wd :
  wide_year y -> 0 <= w -> 0 <= wd -> from_iso_ywd y w wd = Some (from_iso_ywd_z y w wd).
Proof.
  intros Hy Hw Hwd. unfold from_iso_ywd, from_iso_ywd_z.
  destruct (Z.leb_spec 1 wd); [|done]. destruct (Z.leb_spec wd 7); [|done].
  destruct (Z.ltb_spec w 1); [done|]. cbn [negb andb orb]. rewrite iso_weeks_ok by done.
  cbn [mbind option_bind]. pose proof (iso_weeks_range y).
  destruct (Z.ltb_spec (iso_weeks_in_year_z y) w); [done|].
  assert (Hj : -6600000000000000000 <= days_from_civil_z y 1 4 <= 6600000000000000000).
  { assert (valid_date y 1 4) as Hv by (split; [lia|unfold days_in_month; lia]).
    pose proof (days_of_year y 1 4 Hv). unfold wide_year in Hy. lia. }
  rewrite days_from_civil_ok by (done || lia). cbn [mbind option_bind].
  rewrite iso_weekday_ok by lia. pose proof (iso_weekday_eq (days_from_civil_z y 1 4)). by fit.
Qed.

Lemma add_months_ok y m d months :
  wide_year y -> 1 <= m <= 12 -> wide_day months -> add_months y m d months = Some (add_months_z y m d months).
Proof.
  intros Hy Hm Hk. unfold wide_year, wide_day in *. unfold add_months, add_months_z. fit.
  cbv zeta. rewrite as_u32_id by lia. by fit.
Qed.

(** ** Properties *)

Lemma ymd_to_days_spec y m d z :
  ymd_to_days_z y m d = Some z <-> valid_date y m d /\ civil_from_days_z z = (y, m, d).
Proof.
  unfold ymd_to_days_z. destruct (negb _ || _ || _) eqn:E.
  - split; [done|]. intros [Hv%valid_date_bool _]. congruence.
  - apply valid_date_bool in E. split.
    + intros [= <-]. split; [done|]. by apply civil_of_days.
    + intros [_ [_ <-]%civil_from_days_spec]. done.
Qed.

Lemma from_ordinal_spec y n z :
  from_ordinal_z y n = Some z -> (exists m d, civil_from_days_z z = (y, m, d)) /\ ordinal_z z = n.
Proof.
  unfold from_ordinal_z. fold (jan1 y). destruct (Z.ltb_spec n 1); [done|].
  destruct (Z.ltb_spec (days_in_year y) n); [done|]. cbn [orb]. intros [= <-].
  destruct (civil_from_days_z (jan1 y + n - 1)) as [[y' m] d] eqn:E.
  assert (y' = y) as ->.
  { apply (year_unique (jan1 y + n - 1)); [by eapply civil_year|]. rewrite jan1_step. lia. }
  split; [eauto|]. rewrite (ordinal_eq _ y m d E). lia.
Qed.

(** C36 Round trip on [i64]: for every day count up to [2 ^ 62] in magnitude no operation
    overflows and the day is the day of exactly the civil date [civil_from_days] returns;
    for years up to [2 ^ 53] in magnitude every date of the calendar is returned for its
    day, any other month or day is refused, and the n-th day of a year has that year and
    that ordinal. *)
Theorem calendar_roundtrip :
  (forall z, wide_day z -> exists y m d,
     civil_from_days z = Some (y, m, d) /\ valid_date y m d /\ days_from_civil y m d = Some z) /\
  (forall y m d, -9007199254740992 <= y <= 9007199254740992 -> valid_date y m d ->
     exists z, ymd_to_days y m d = Some (Some z) /\ civil_from_days z = Some (y, m, d)) /\
  (forall y m d, ~ valid_date y m d -> ymd_to_days y m d = Some None) /\
  (forall y n, -9007199254740992 <= y <= 9007199254740992 -> 1 <= n <= days_in_year y ->
     exists z m d, from_ordinal y n = Some (Some z) /\ civil_from_days z = Some (y, m, d) /\
       ordinal z = Some n).
Proof.
  split_and!.
  - intros z Hz. destruct (civil_from_days_z z) as [[y m] d] eqn:Hc. exists y, m, d.
    pose proof (year_of_wide_day z y m d Hz Hc) as Hy. rewrite civil_from_days_ok, Hc by done.
    apply civil_from_days_spec in Hc as [Hv Hd]. split_and!; [done..|].
    rewrite valid_days_ok by (done || (unfold wide_year; lia)). by rewrite Hd.
  - intros y m d Hy Hv. exists (days_from_civil_z y m d). unfold ymd_to_days.
    rewrite (proj2 (valid_date_bool y m d) Hv), valid_days_ok by (done || (unfold wide_year; lia)).
    split; [done|]. rewrite civil_from_days_ok by (by apply wide_days). f_equal. by apply civil_of_days.
  - intros y m d Hv. unfold ymd_to_days. destruct (negb _ || _ || _) eqn:E; [done|].
    by apply valid_date_bool in E.
  - intros y n Hy Hn. destruct (from_ordinal_z y n) as [z|] eqn:Ez.
    2: { unfold from_ordinal_z in Ez. rewrite (proj2 (Z.ltb_ge n 1)), (proj2 (Z.ltb_ge _ n)) in Ez by lia. done. }
    pose proof (from_ordinal_spec y n z Ez) as [(m&d&Hc) Ho]. exists z, m, d.
    pose proof (jan1_bound y). pose proof (days_in_year_cases y). unfold from_ordinal, from_ordinal_z in *.
    rewrite (proj2 (Z.ltb_ge n 1)), (proj2 (Z.ltb_ge _ n)) in * by lia. cbn [orb] in *. injection Ez as <-.
    fold (jan1 y) in *. assert (wide_day (jan1 y + n - 1)) by (unfold wide_day; lia).
    rewrite civil_from_days_ok, ordinal_ok, Hc, Ho by done. split_and!; [|done..].
    rewrite jan1_ok by (unfold wide_year; lia). by fit.
Qed.

(** The conversion counts days as the proleptic Gregorian calendar does: day 0 is
    1970-01-01 and the date of the next day is the successor date. *)
Theorem calendar_counts_days :
  civil_from_days 0 = Some (1970, 1, 1) /\
  forall z, wide_day z -> wide_day (z + 1) -> civil_from_days (z + 1) = next_day <$> civil_from_days z.
Proof.
  split; [by vm_compute|]. intros z Hz Hz'. rewrite !civil_from_days_ok by done.
  cbn [fmap option_fmap option_map]. f_equal.
  destruct (civil_from_days_z z) as [[y m] d] eqn:Hc.
  apply civil_from_days_spec in Hc as [Hv <-]. pose proof (next_day_valid y m d Hv) as Hn.
  destruct (next_day (y, m, d)) as [[y' m'] d']. destruct Hn as [Hv' <-]. by apply civil_of_days.
Qed.

(** ISO week dates round trip: the week date of a day is in range and leads back to the
    day, and every accepted week date is the week date of the day it denotes. *)
Theorem calendar_iso_week_roundtrip :
  (forall z, wide_day z -> exists y w wd, iso_week z = Some (y, w) /\ iso_weekday z = Some wd /\
     from_iso_ywd y w wd = Some (Some z)) /\
  (forall y w wd z, wide_year y -> 0 <= w -> 0 <= wd -> wide_day z -> from_iso_ywd y w wd = Some (Some z) ->
     iso_week z = Some (y, w) /\ iso_weekday z = Some wd).
Proof.
  assert (Hwd : forall z, 1 <= iso_weekday_z z <= 7) by (intros z; rewrite iso_weekday_eq; lia).
  split.
  - intros z Hz. destruct (iso_week_z z) as [y w] eqn:E. exists y, w, (iso_weekday_z z).
    rewrite iso_week_ok, E by done. apply iso_week_spec in E as [Hw Hday]. pose proof (iso_weeks_range y).
    pose proof (jan1_bound y). pose proof (Hwd z). rewrite iso_weekday_ok by (unfold wide_day in Hz; lia).
    split_and!; [done..|].
    rewrite from_iso_ywd_ok by (first [lia|unfold wide_year, wide_day, week1_monday in *; lia]).
    f_equal. apply from_iso_ywd_Some. split_and!; [lia..|done].
  - intros y w wd z Hy Hw0 Hwd0 Hz. rewrite from_iso_ywd_ok by done. intros [= (Hwd1&Hw&Hday)%from_iso_ywd_Some].
    rewrite iso_week_ok, iso_weekday_ok by (done || (unfold wide_day in Hz; lia)).
    assert (Hd : iso_weekday_z z = wd) by (rewrite iso_weekday_eq, Hday; unfold week1_monday; lia).
    split; [|by f_equal]. f_equal. destruct (iso_week_z z) as [y' w'] eqn:E. apply iso_week_spec in E as [Hw' Hz'].
    rewrite Hd in Hz'. by destruct (iso_week_unique z y w y' w' (wd - 1) Hw Hw' Hday Hz' ltac:(lia)) as [-> ->].
Qed.

Lemma add_months_z_valid y m d months :
  valid_date y m d -> exists ny nm nd, add_months_z y m d months = (ny, nm, nd) /\ valid_date ny nm nd /\
    12 * ny + nm = 12 * y + m + months /\ nd = Z.min d (days_in_month ny nm).
Proof.
  intros [Hm Hd]. unfold add_months_z. cbv zeta.
  set (total := y * 12 + (m - 1) + months). rewrite as_u32_id by lia.
  assert (Hnm : 1 <= total mod 12 + 1 <= 12) by lia.
  do 3 eexists. split; [done|]. split_and!; [|unfold total; lia|done].
  split; [done|]. split; [|lia]. apply Z.min_glb; [lia|].
  destruct (month_cases _ Hnm) as [->|[->|[->|[->|[->|[->|[->|[->|[->|[->|[->| ->]]]]]]]]]]];
    try (cbv; discriminate). unfold days_in_month. destruct (is_leap _); lia.
Qed.

(** Month arithmetic: adding months moves the year and month by exactly that many months
    and clamps the day to the target month, and the result is a date of the calendar. *)
Theorem calendar_add_months y m d months :
  -999999999 <= y <= 999999999 -> valid_date y m d -> -99999999999 <= months <= 99999999999 ->
  exists z z' ny nm nd, ymd_to_days y m d = Some (Some z) /\ add_months_to_days z months = Some z' /\
    civil_from_days z' = Some (ny, nm, nd) /\
    12 * ny + nm = 12 * y + m + months /\ nd = Z.min d (days_in_month ny nm).
Proof.
  intros Hy Hv Hk. destruct (add_months_z_valid y m d months Hv) as (ny&nm&nd&Ha&Hv'&Heq&Hnd).
  assert (Hny : -9007199254740992 <= ny <= 9007199254740992) by (destruct Hv as [Hm _], Hv' as [Hm' _]; lia).
  exists (days_from_civil_z y m d), (days_from_civil_z ny nm nd), ny, nm, nd.
  unfold ymd_to_days. rewrite (proj2 (valid_date_bool y m d) Hv).
  rewrite valid_days_ok by (done || (unfold wide_year; lia)). split; [done|]. unfold add_months_to_days.
  rewrite civil_from_days_ok, civil_of_days by (done || (apply wide_days; [lia|done])).
  cbn [mbind option_bind].
  rewrite add_months_ok, Ha by (apply Hv || (unfold wide_year, wide_day; lia)). cbn [mbind option_bind].
  rewrite valid_days_ok by (done || (unfold wide_year; lia)). split_and!; [done| |done..].
  rewrite civil_from_days_ok by (by apply wide_days). f_equal. by apply civil_of_days.
Qed.

(** ** Witnesses *)

Lemma calendar_roundtrip_witness :
  exists z m d, from_ordinal 2024 60 = Some (Some z) /\ civil_from_days z = Some (2024, m, d) /\ ordinal z = Some 60.
Proof. apply calendar_roundtrip; [lia|by vm_compute]. Defined.

Lemma calendar_add_months_witness :
  exists z z' ny nm nd, ymd_to_days 2024 1 31 = Some (Some z) /\ add_months_to_days z 1 = Some z' /\
    civil_from_days z' = Some (ny, nm, nd) /\ 12 * ny + nm = 12 * 2024 + 1 + 1 /\
    nd = Z.min 31 (days_in_month ny nm).
Proof. apply calendar_add_months; [lia|split; [lia|by vm_compute]|lia]. Defined.
