(* ===== verification/Components.v ===== *)
(** * Connected components: [crates/graphforge-exec/src/algorithm_cluster/components.rs].

    The serial union-find over a parent array, the parallel variant that summarises each
    chunk of source nodes with a local union-find over a map, and the numbering of the
    components.  The model is of runs that are not cancelled and whose output sink accepts
    every row.  Indexing out of range panics: such an operation returns [None].  [find] is
    recursive and [local_find] loops; fuel bounds both by the index they start from. *)

From stdpp Require Import base list gmap sets sorting relations strings.
From Stdlib Require Import ZArith Lia.
From S2P Require Import Prelude.

#[local] Open Scope nat_scope.

(** The sources of an adjacency graph with the ordinals of their neighbours. *)
Abbreviation AdjacencyGraph := (list (list nat)).
Definition node_count (graph : AdjacencyGraph) : nat := length graph.
Definition neighbor_ordinals (graph : AdjacencyGraph) (source : nat) : list nat :=
  default [] (graph !! source).

Inductive AlgorithmError := Execution (message : string).

(** A run: a panic, an error, or a result. *)
Abbreviation X A := (option (result AlgorithmError A)).

(** ** The serial union-find *)

Fixpoint find_parent (fuel : nat) (parents : list nat) (index : nat) : option (nat * list nat) :=
  match fuel with
  | O => None
  | S fuel =>
      p ← parents !! index;
      if negb (p =? index) then
        '(root, parents) ← find_parent fuel parents p;
        let parents := <[index := root]> parents in
        q ← parents !! index; Some (q, parents)
      else Some (p, parents)
  end.

(** [find]; the recursion strictly decreases the index. *)
Definition find (parents : list nat) (index : nat) : option (nat * list nat) :=
  find_parent (S index) parents index.

Definition union (parents : list nat) (left right : nat) : option (list nat) :=
  '(left, parents) ← find parents left;
  '(right, parents) ← find parents right;
  let '(first, second) := if left <=? right then (left, right) else (right, left) in
  _ ← parents !! second;
  Some (<[second := first]> parents).

(** ** The local union-find of a chunk *)

(** The first loop of [local_find]: to the root, inserting missing entries. *)
Fixpoint local_root (fuel : nat) (parents : gmap nat nat) (root : nat) : option (nat * gmap nat nat) :=
  match fuel with
  | O => None
  | S fuel =>
      let parent := default root (parents !! root) in
      let parents := match parents !! root with Some _ => parents | None => <[root := root]> parents end in
      if parent =? root then Some (root, parents) else local_root fuel parents parent
  end.

(** The second loop: every entry on the path points to the root. *)
Fixpoint local_compress (fuel : nat) (parents : gmap nat nat) (cursor root : nat) : option (gmap nat nat) :=
  match fuel with
  | O => None
  | S fuel =>
      if cursor =? root then Some parents
      else
        let parent := default root (parents !! cursor) in
        local_compress fuel (<[cursor := root]> parents) parent root
  end.

Definition local_find (parents : gmap nat nat) (index : nat) : option (nat * gmap nat nat) :=
  let parents := match parents !! index with Some _ => parents | None => <[index := index]> parents end in
  '(root, parents) ← local_root (S index) parents index;
  parents ← local_compress (S index) parents index root;
  Some (root, parents).

Definition local_union (parents : gmap nat nat) (left right : nat) : option (gmap nat nat) :=
  '(left, parents) ← local_find parents left;
  '(right, parents) ← local_find parents right;
  let '(first, second) := if left <=? right then (left, right) else (right, left) in
  Some (<[second := first]> parents).

(** ** Passes over the edges *)

Definition selected_neighbors (graph : AdjacencyGraph) (source : nat) : result AlgorithmError (list nat) :=
  let row := neighbor_ordinals graph source in
  if existsb (fun target => node_count graph <=? target) row
  then Err (Execution "adjacency references an unselected node")
  else Ok row.

Section passes.
Context {S : Type} (link : S -> nat -> nat -> option S).

(** [for target in selected_neighbors(graph, source)? { link(source, target) }] *)
Fixpoint link_targets (s : S) (source : nat) (targets : list nat) : option S :=
  match targets with
  | [] => Some s
  | target :: targets' => s ← link s source target; link_targets s source targets'
  end.

Fixpoint link_sources (graph : AdjacencyGraph) (s : S) (sources : list nat) : X S :=
  match sources with
  | [] => Some (Ok s)
  | source :: sources' =>
      match selected_neighbors graph source with
      | Err e => Some (Err e)
      | Ok targets => s ← link_targets s source targets; link_sources graph s sources'
      end
  end.
End passes.

Definition components_union_serial (graph : AdjacencyGraph) (parents : list nat) : X (list nat) :=
  link_sources union graph parents (seq 0 (node_count graph)).

(** The links of a chunk: each touched node below its root, in ascending order. *)
Fixpoint collect_links (parents : gmap nat nat) (touched : list nat) : option (list (nat * nat)) :=
  match touched with
  | [] => Some []
  | index :: touched' =>
      '(root, parents) ← local_find parents index;
      links ← collect_links parents touched';
      Some (if negb (index =? root) then (root, index) :: links else links)
  end.

Definition components_chunk_links (graph : AdjacencyGraph) (start end_ : nat) : X (list (nat * nat)) :=
  r ← link_sources local_union graph ∅ (seq start (end_ - start));
  match r with
  | Err e => Some (Err e)
  | Ok parents =>
      let touched := sort_by_key Z.of_nat (elements (dom parents)) in
      links ← collect_links parents touched;
      Some (Ok links)
  end.

(** The worker ranges: [base] sources each, one more for the first [rem]. *)
Fixpoint chunk_ranges (base rem : nat) (indices : list nat) (start : nat) : list (nat * nat) :=
  match indices with
  | [] => []
  | index :: indices' =>
      let len := base + (if index <? rem then 1 else 0) in
      let end_ := start + len in
      (if start <? end_ then [(start, end_)] else []) ++ chunk_ranges base rem indices' end_
  end.

Definition component_source_chunks (nodes threads : nat) : list (nat * nat) :=
  if nodes =? 0 then []
  else
    let workers := Nat.min (Nat.max threads 1) nodes in
    chunk_ranges (nodes / workers) (nodes mod workers) (seq 0 workers) 0.

(** The merge of the chunk results, in chunk order. *)
Fixpoint union_links (parents : list nat) (links : list (nat * nat)) : option (list nat) :=
  match links with
  | [] => Some parents
  | (root, index) :: links' => parents ← union parents root index; union_links parents links'
  end.

Fixpoint union_chunks (parents : list nat) (chunks : list (result AlgorithmError (list (nat * nat)))) : X (list nat) :=
  match chunks with
  | [] => Some (Ok parents)
  | Err e :: _ => Some (Err e)
  | Ok links :: chunks' => parents ← union_links parents links; union_chunks parents chunks'
  end.

(** [limits.compute_threads] and the attached compute pool with its [is_parallel]. *)
Record AlgorithmControl := { limit_compute_threads : nat; compute_pool : option bool }.
Definition compute_threads (control : AlgorithmControl) : nat := Nat.max (limit_compute_threads control) 1.

(** [run_components_on_pool]: a panic of a worker is an error of the run. *)
Definition run_components_on_pool {A} (op : option A) : result AlgorithmError A :=
  ok_or op (Execution "components worker panicked").

Definition components_union_parallel (graph : AdjacencyGraph) (control : AlgorithmControl) (parents : list nat)
    : X (list nat) :=
  match compute_pool control with
  | None => Some (Err (Execution "parallel components requires an instance-owned compute pool"))
  | Some _ =>
      let ranges := component_source_chunks (node_count graph) (compute_threads control) in
      match run_components_on_pool (mapM (fun '(start, end_) => components_chunk_links graph start end_) ranges) with
      | Err e => Some (Err e)
      | Ok chunk_results => union_chunks parents chunk_results
      end
  end.

(** ** Path selection and output *)

Inductive ComponentsExecutionPath := Serial | Parallel (threads chunks : nat).

Definition COMPONENTS_PARALLEL_CROSSOVER_EDGES : nat := Z.to_nat 16384.

Definition edge_entry_count (graph : AdjacencyGraph) : nat := length (concat graph).

(** Serial below the crossover, without a parallel pool, or with a single chunk. *)
Definition select_components_path (control : AlgorithmControl) (nodes edge_entries : nat)
    : ComponentsExecutionPath :=
  let threads := compute_threads control in
  if (threads <=? 1) || (nodes <=? 1) || (edge_entries <? COMPONENTS_PARALLEL_CROSSOVER_EDGES)
     || negb (default false (compute_pool control))
  then Serial
  else
    let chunks := length (component_source_chunks nodes threads) in
    if chunks <=? 1 then Serial else Parallel threads chunks.

Section execute.
(** [graph.uuid_of_ordinal]. *)
Context {U : Type} (uuid_of_ordinal : nat -> option U).

(** The numbering loop: component ids in ascending node order. *)
Fixpoint number_components (parents : list nat) (ids : list (option Z)) (assigned : Z)
    (indices : list nat) (rows : list (U * Z)) : X (list (U * Z)) :=
  match indices with
  | [] => Some (Ok rows)
  | index :: indices' =>
      '(root, parents) ← find parents index;
      slot ← ids !! root;
      let next := match slot with
        | Some id => Ok (id, ids, assigned)
        | None =>
            let id := assigned in
            if (i64_max <? assigned + 1)%Z
            then Err (Execution "component count exceeds Int64 result range")
            else Ok (id, <[root := Some id]> ids, (assigned + 1)%Z)
        end in
      match next with
      | Err e => Some (Err e)
      | Ok (community_id, ids, assigned) =>
          match uuid_of_ordinal index with
          | None => Some (Err (Execution "selected node has no UUID identity"))
          | Some uuid => number_components parents ids assigned indices' (rows ++ [(uuid, community_id)])
          end
      end
  end.

Definition execute_on (path : ComponentsExecutionPath) (graph : AdjacencyGraph) (control : AlgorithmControl)
    : X (list (U * Z)) :=
  let n := node_count graph in
  let parents := seq 0 n in
  r ← match path with
      | Serial => components_union_serial graph parents
      | Parallel _ _ => components_union_parallel graph control parents
      end;
  match r with
  | Err e => Some (Err e)
  | Ok parents => number_components parents (replicate n None) 0 (seq 0 n) []
  end.

Definition execute (graph : AdjacencyGraph) (control : AlgorithmControl) : X (list (U * Z)) :=
  execute_on (select_components_path control (node_count graph) (edge_entry_count graph)) graph control.
End execute.

Definition demo_graph : AdjacencyGraph := [[1]; []; [4; 2]; [5]; []; []].

Example demo_components :
  let control := {| limit_compute_threads := 3; compute_pool := Some true |} in
  execute (fun i => Some i) demo_graph control =
    Some (Ok [(0, 0%Z); (1, 0%Z); (2, 1%Z); (3, 2%Z); (4, 1%Z); (5, 2%Z)]) /\
  execute_on (fun i => Some i) (Parallel 3 3) demo_graph control = execute (fun i => Some i) demo_graph control.
Proof. by vm_compute. Qed.

(** ** Parent functions

    Arrays and maps are both parent functions, with a missing entry its own parent.  In
    every parent function of the code a parent is at most its child, so roots exist. *)

Definition descending (f : nat -> nat) : Prop := forall i, f i <= i.
Definition root (f : nat -> nat) (i : nat) : nat := Nat.iter i f i.
Definition update (f : nat -> nat) (i x : nat) : nat -> nat := fun j => if decide (j = i) then x else f j.

Section roots.
Context (f : nat -> nat) (Hf : descending f).

Lemma iter_progress n i : f (Nat.iter n f i) = Nat.iter n f i \/ Nat.iter n f i + n <= i.
Proof.
  induction n as [|n IH]; simpl; [right; lia|]. set (x := Nat.iter n f i) in *.
  destruct (decide (f (f x) = f x)) as [|Hne]; [by left|]. right.
  destruct IH as [Hfix|Hle]; [by rewrite Hfix in Hne|]. pose proof (Hf x).
  assert (f x <> x) by congruence. lia.
Qed.

Lemma iter_fixed n i : i <= n -> f (Nat.iter n f i) = Nat.iter n f i.
Proof.
  intros Hn. destruct (iter_progress n i) as [|Hle]; [done|].
  assert (Nat.iter n f i = 0) as -> by lia. pose proof (Hf 0). lia.
Qed.

Lemma root_fixed i : f (root f i) = root f i.
Proof. by apply iter_fixed. Qed.

Lemma iter_le n i : Nat.iter n f i <= i.
Proof. induction n as [|n IH]; simpl; [done|]. pose proof (Hf (Nat.iter n f i)). lia. Qed.

Lemma root_le i : root f i <= i.
Proof. apply iter_le. Qed.

Lemma iter_stays n m i : f (Nat.iter n f i) = Nat.iter n f i -> n <= m -> Nat.iter m f i = Nat.iter n f i.
Proof.
  intros Hfix Hle. induction Hle as [|m Hle IH]; [done|]. simpl. by rewrite IH.
Qed.

Lemma root_self i : f i = i -> root f i = i.
Proof. intros Hi. unfold root. by rewrite (iter_stays 0 i i) by (simpl; done || lia). Qed.

Lemma root_step i : root f (f i) = root f i.
Proof.
  destruct (decide (f i = i)) as [Hi|Hi]; [by rewrite Hi|]. pose proof (Hf i). unfold root.
  assert (Hs : Nat.iter (f i) f (f i) = Nat.iter (S (f i)) f i) by (symmetry; apply Nat.iter_succ_r).
  rewrite Hs. symmetry. apply iter_stays; [|lia]. rewrite <-Hs. by apply iter_fixed.
Qed.

Lemma root_root i : root f (root f i) = root f i.
Proof. apply root_self, root_fixed. Qed.

(** Induction along the parents. *)
Lemma root_ind (P : nat -> Prop) :
  (forall i, f i = i -> P i) -> (forall i, f i < i -> P (f i) -> P i) -> forall i, P i.
Proof.
  intros Hbase Hstep i. induction i as [i IH] using lt_wf_ind.
  destruct (decide (f i = i)) as [|Hne]; [by apply Hbase|]. pose proof (Hf i).
  apply Hstep; [lia|]. apply IH. lia.
Qed.
End roots.

Lemma update_descending f i x : descending f -> x <= i -> descending (update f i x).
Proof. intros Hf Hx j. unfold update. case_decide; [by subst|apply Hf]. Qed.

(** Path compression changes no root. *)
Lemma root_compress f i j : descending f -> root (update f i (root f i)) j = root f j.
Proof.
  intros Hf. assert (Hu : descending (update f i (root f i))) by (apply update_descending; [done|by apply root_le]).
  set (g := update f i (root f i)) in *.
  assert (Hroot : g (root f i) = root f i).
  { unfold g, update. case_decide; [done|]. by apply root_fixed. }
  assert (Hi : root g i = root f i).
  { rewrite <-(root_step g Hu i). unfold g at 2, update. rewrite decide_True by done. by apply root_self. }
  induction j as [j Hj|j Hlt IH] using (root_ind f Hf).
  - destruct (decide (j = i)) as [->|Hne]; [done|]. rewrite (root_self f j Hj). apply root_self.
    unfold g, update. by rewrite decide_False.
  - destruct (decide (j = i)) as [->|Hne]; [done|]. rewrite <-(root_step g Hu j), <-(root_step f Hf j).
    assert (g j = f j) as -> by (unfold g, update; by rewrite decide_False). done.
Qed.

(** Linking a root below a smaller root merges exactly their two classes. *)
Lemma root_link f a b j :
  descending f -> f a = a -> f b = b -> a <= b ->
  root (update f b a) j = if decide (root f j = b) then a else root f j.
Proof.
  intros Hf Ha Hb Hab. assert (Hu : descending (update f b a)) by (by apply update_descending).
  set (g := update f b a) in *.
  assert (Hga : g a = a) by (unfold g, update; case_decide; [done|done]).
  assert (Hgb : root g b = a).
  { rewrite <-(root_step g Hu b). unfold g at 2, update. rewrite decide_True by done. by apply root_self. }
  induction j as [j Hj|j Hlt IH] using (root_ind f Hf).
  - rewrite (root_self f j Hj). case_decide as Hjb; [by rewrite Hjb|]. apply root_self.
    unfold g, update. by rewrite decide_False.
  - destruct (decide (j = b)) as [->|Hne]; [lia|]. rewrite <-(root_step g Hu j), <-(root_step f Hf j).
    assert (g j = f j) as -> by (unfold g, update; by rewrite decide_False). done.
Qed.

Lemma root_ext f g i : (forall j, f j = g j) -> root f i = root g i.
Proof.
  intros H. assert (Hn : forall n, Nat.iter n f i = Nat.iter n g i); [|apply Hn].
  induction n as [|n IH]; [done|]. simpl. by rewrite IH, H.
Qed.

(** ** The array *)

Definition parent_of (parents : list nat) (i : nat) : nat := default i (parents !! i).
Definition array_ok (parents : list nat) : Prop := descending (parent_of parents).

Lemma parent_of_insert parents i x j :
  i < length parents -> parent_of (<[i := x]> parents) j = update (parent_of parents) i x j.
Proof.
  intros Hi. unfold parent_of, update. case_decide as Hj.
  - subst j. by rewrite list_lookup_insert_eq.
  - by rewrite list_lookup_insert_ne.
Qed.

Lemma array_ok_insert parents i x :
  array_ok parents -> i < length parents -> x <= i -> array_ok (<[i := x]> parents).
Proof.
  intros Hok Hi Hx j. rewrite parent_of_insert by done. by apply (update_descending (parent_of parents)).
Qed.

(** [find] returns the root and changes no root. *)
Lemma find_parent_spec fuel parents i :
  array_ok parents -> i < fuel -> i < length parents ->
  exists parents', find_parent fuel parents i = Some (root (parent_of parents) i, parents') /\
    array_ok parents' /\ length parents' = length parents /\
    forall j, root (parent_of parents') j = root (parent_of parents) j.
Proof.
  revert i parents. induction fuel as [|fuel IH]; intros i parents Hok Hf Hi; [lia|].
  cbn [find_parent]. destruct (lookup_lt_is_Some_2 parents i Hi) as [p Hp].
  rewrite Hp. cbn [mbind option_bind].
  assert (Hpar : parent_of parents i = p) by (unfold parent_of; by rewrite Hp).
  pose proof (Hok i) as Hle. rewrite Hpar in Hle. destruct (Nat.eqb_spec p i) as [->|Hne]; cbn [negb].
  - exists parents. split_and!; try done. by rewrite root_self.
  - destruct (IH p parents Hok) as (p1&->&Hok1&Hlen1&Hroot1); [lia|lia|]. cbn [mbind option_bind].
    assert (Hr : root (parent_of parents) p = root (parent_of parents) i)
      by (rewrite <-Hpar; by apply root_step).
    assert (Hri : root (parent_of p1) i = root (parent_of parents) i) by apply Hroot1.
    rewrite list_lookup_insert_eq by lia. cbn [mbind option_bind]. eexists. split; [by rewrite Hr|].
    split_and!.
    + apply array_ok_insert; [done|lia|]. by apply root_le.
    + by rewrite length_insert.
    + intros j. rewrite <-(Hroot1 j), <-(root_compress (parent_of p1) i j Hok1).
      apply root_ext. intros k. rewrite parent_of_insert by lia. by rewrite Hri.
Qed.

Lemma find_spec parents i :
  array_ok parents -> i < length parents ->
  exists parents', find parents i = Some (root (parent_of parents) i, parents') /\
    array_ok parents' /\ length parents' = length parents /\
    forall j, root (parent_of parents') j = root (parent_of parents) j.
Proof. intros Hok Hi. by apply find_parent_spec; [|lia|]. Qed.

(** ** Classes *)

(** Two nodes are in one class when they have the same root. *)
Definition same (f : nat -> nat) (i j : nat) : Prop := root f i = root f j.

(** What a union of [l] and [r] does to the classes. *)
Definition merges_classes (f g : nat -> nat) (l r : nat) : Prop :=
  descending g /\
  forall i j, same g i j <->
    same f i j \/ (same f i l /\ same f j r) \/ (same f i r /\ same f j l).

Lemma link_merges f g l r :
  descending f ->
  let a := Nat.min (root f l) (root f r) in let b := Nat.max (root f l) (root f r) in
  descending g -> (forall j, root g j = if decide (root f j = b) then a else root f j) ->
  merges_classes f g l r.
Proof.
  intros Hf a b Hg Hroot. split; [done|]. intros i j. unfold same. rewrite !Hroot.
  assert (Hab : (a = root f l /\ b = root f r) \/ (a = root f r /\ b = root f l)) by (unfold a, b; lia).
  clearbody a b. destruct Hab as [[-> ->]|[-> ->]]; repeat case_decide; split; intros; try tauto; try lia.
Qed.

Lemma union_spec parents l r :
  array_ok parents -> l < length parents -> r < length parents ->
  exists parents', union parents l r = Some parents' /\ length parents' = length parents /\
    merges_classes (parent_of parents) (parent_of parents') l r.
Proof.
  intros Hok Hl Hr. unfold union.
  destruct (find_spec parents l Hok Hl) as (p1&->&Hok1&Hlen1&Hr1). cbn [mbind option_bind].
  destruct (find_spec p1 r Hok1 ltac:(lia)) as (p2&->&Hok2&Hlen2&Hr2). cbn [mbind option_bind].
  rewrite Hr1. set (rl := root (parent_of parents) l). set (rr := root (parent_of parents) r).
  assert (Hroots : forall j, root (parent_of p2) j = root (parent_of parents) j) by (intros; by rewrite Hr2, Hr1).
  assert (Hfix : forall x, parent_of p2 (root (parent_of parents) x) = root (parent_of parents) x)
    by (intros x; rewrite <-Hroots; by apply root_fixed).
  assert (Hlt : forall x, x < length parents -> root (parent_of parents) x < length p2).
  { intros x Hx. pose proof (root_le (parent_of parents) Hok x). lia. }
  assert (Hsel : (if rl <=? rr then (rl, rr) else (rr, rl)) = (Nat.min rl rr, Nat.max rl rr)).
  { destruct (Nat.leb_spec rl rr); f_equal; lia. }
  rewrite Hsel.
  assert (Hmax : Nat.max rl rr < length p2) by (pose proof (Hlt l Hl); pose proof (Hlt r Hr); unfold rl, rr; lia).
  destruct (lookup_lt_is_Some_2 p2 (Nat.max rl rr) Hmax) as [x Hx]. rewrite Hx. cbn [mbind option_bind].
  eexists. split; [done|]. split; [by rewrite length_insert, Hlen2|].
  assert (Hg : array_ok (<[Nat.max rl rr := Nat.min rl rr]> p2)) by (apply array_ok_insert; [done|done|lia]).
  apply link_merges; [done|done|]. intros j. fold rl rr. rewrite <-Hroots.
  rewrite <-(root_link (parent_of p2) (Nat.min rl rr) (Nat.max rl rr) j Hok2); [|..|lia].
  - apply root_ext. intros k. by rewrite parent_of_insert.
  - destruct (Nat.min_spec rl rr) as [[_ ->]|[_ ->]]; apply Hfix.
  - destruct (Nat.max_spec rl rr) as [[_ ->]|[_ ->]]; apply Hfix.
Qed.

(** ** The map *)

Definition mparent (parents : gmap nat nat) (i : nat) : nat := default i (parents !! i).

Lemma mparent_insert m i x j : mparent (<[i := x]> m) j = update (mparent m) i x j.
Proof.
  unfold mparent, update. case_decide as Hj.
  - subst j. by rewrite lookup_insert_eq.
  - by rewrite lookup_insert_ne.
Qed.

(** Inserting a missing entry as its own parent changes no parent. *)
Lemma or_insert_parent m i j :
  mparent (match m !! i with Some _ => m | None => <[i := i]> m end) j = mparent m j.
Proof.
  destruct (m !! i) eqn:E; [done|]. rewrite mparent_insert. unfold update, mparent.
  case_decide; [subst j; by rewrite E|done].
Qed.

(** Keys stay below [n]. *)
Definition keys_below (n : nat) (m : gmap nat nat) : Prop := forall k, k ∈ dom m -> k < n.

Lemma or_insert_keys n m i : keys_below n m -> i < n ->
  keys_below n (match m !! i with Some _ => m | None => <[i := i]> m end).
Proof.
  intros Hk Hi. destruct (m !! i); [done|]. intros k. rewrite dom_insert, elem_of_union, elem_of_singleton.
  intros [->|?]; auto.
Qed.

Lemma local_root_spec n fuel m r :
  descending (mparent m) -> r < fuel -> keys_below n m -> r < n ->
  exists m', local_root fuel m r = Some (root (mparent m) r, m') /\
    (forall j, mparent m' j = mparent m j) /\ keys_below n m'.
Proof.
  revert m r. induction fuel as [|fuel IH]; intros m r Hd Hf Hk Hr; [lia|]. cbn [local_root]. cbv zeta.
  change (default r (m !! r)) with (mparent m r).
  set (m1 := match m !! r with Some _ => m | None => <[r := r]> m end).
  assert (Hm1 : forall j, mparent m1 j = mparent m j) by (intros; apply or_insert_parent).
  assert (Hk1 : keys_below n m1) by (by apply or_insert_keys).
  destruct (Nat.eqb_spec (mparent m r) r) as [Heq|Hne].
  - exists m1. split_and!; try done. by rewrite root_self.
  - pose proof (Hd r). destruct (IH m1 (mparent m r)) as (m'&->&Hp&Hk'); [|lia|done|lia|].
    { intros j. rewrite Hm1. apply Hd. }
    exists m'. split_and!; [|intros; by rewrite Hp, Hm1|done]. do 2 f_equal.
    rewrite (root_ext (mparent m1) (mparent m)) by done. by apply root_step.
Qed.

Lemma local_compress_spec n fuel m c r :
  descending (mparent m) -> c < fuel -> r = root (mparent m) c -> keys_below n m -> c < n ->
  exists m', local_compress fuel m c r = Some m' /\ descending (mparent m') /\
    (forall j, root (mparent m') j = root (mparent m) j) /\ keys_below n m'.
Proof.
  revert m c. induction fuel as [|fuel IH]; intros m c Hd Hf Hr Hk Hc; [lia|]. cbn [local_compress]. cbv zeta.
  destruct (Nat.eqb_spec c r) as [|Hne]; [by exists m|].
  assert (Hlook : exists p, m !! c = Some p).
  { destruct (m !! c) as [p|] eqn:E; [eauto|]. destruct Hne. rewrite Hr. symmetry. apply root_self.
    unfold mparent. by rewrite E. }
  destruct Hlook as [p Hp]. rewrite Hp. cbn [default].
  assert (Hpar : mparent m c = p) by (unfold mparent; by rewrite Hp).
  assert (Hlt : p < c).
  { pose proof (Hd c). assert (p <> c); [|lia]. intros ->. destruct Hne. rewrite Hr. symmetry. by apply root_self. }
  assert (Hroots : forall j, root (mparent (<[c := r]> m)) j = root (mparent m) j).
  { intros j. rewrite Hr, <-(root_compress (mparent m) c j Hd). apply root_ext. intros k. apply mparent_insert. }
  assert (Hrc : r <= c) by (rewrite Hr; by apply root_le).
  destruct (IH (<[c := r]> m) p) as (m'&Hm'&Hd'&Hr'&Hk'); [|lia| |..|lia|].
  - intros j. rewrite mparent_insert. by apply (update_descending (mparent m)).
  - rewrite Hroots, Hr, <-Hpar. symmetry. by apply root_step.
  - intros k. rewrite dom_insert, elem_of_union, elem_of_singleton. intros [->|?]; auto.
  - exists m'. split_and!; try done. intros j. by rewrite Hr', Hroots.
Qed.

Lemma local_find_spec n m i :
  descending (mparent m) -> keys_below n m -> i < n ->
  exists m', local_find m i = Some (root (mparent m) i, m') /\ descending (mparent m') /\
    (forall j, root (mparent m') j = root (mparent m) j) /\ keys_below n m'.
Proof.
  intros Hd Hk Hi. unfold local_find. cbv zeta.
  set (m0 := match m !! i with Some _ => m | None => <[i := i]> m end).
  assert (Hm0 : forall j, mparent m0 j = mparent m j) by (intros; apply or_insert_parent).
  assert (Hd0 : descending (mparent m0)) by (intros j; rewrite Hm0; apply Hd).
  assert (Hk0 : keys_below n m0) by (by apply or_insert_keys).
  assert (Hr0 : forall j, root (mparent m0) j = root (mparent m) j) by (intros; by apply root_ext).
  destruct (local_root_spec n (S i) m0 i Hd0 ltac:(lia) Hk0 Hi) as (m1&->&Hp1&Hk1). cbn [mbind option_bind].
  assert (Hr1 : forall j, root (mparent m1) j = root (mparent m) j)
    by (intros; rewrite <-Hr0; by apply root_ext).
  destruct (local_compress_spec n (S i) m1 i (root (mparent m0) i)) as (m2&->&Hd2&Hr2&Hk2); [|lia| |done|done|].
  - intros j. rewrite Hp1. apply Hd0.
  - by rewrite Hr0, Hr1.
  - cbn [mbind option_bind]. exists m2. split_and!; [by rewrite Hr0|done| |done]. intros j. by rewrite Hr2, Hr1.
Qed.

Lemma local_union_spec n m l r :
  descending (mparent m) -> keys_below n m -> l < n -> r < n ->
  exists m', local_union m l r = Some m' /\ keys_below n m' /\ merges_classes (mparent m) (mparent m') l r.
Proof.
  intros Hd Hk Hl Hr. unfold local_union.
  destruct (local_find_spec n m l Hd Hk Hl) as (m1&->&Hd1&Hr1&Hk1). cbn [mbind option_bind].
  destruct (local_find_spec n m1 r Hd1 Hk1 Hr) as (m2&->&Hd2&Hr2&Hk2). cbn [mbind option_bind].
  rewrite Hr1. set (rl := root (mparent m) l). set (rr := root (mparent m) r).
  assert (Hroots : forall j, root (mparent m2) j = root (mparent m) j) by (intros; by rewrite Hr2, Hr1).
  assert (Hfix : forall x, mparent m2 (root (mparent m) x) = root (mparent m) x)
    by (intros x; rewrite <-Hroots; by apply root_fixed).
  assert (Hsel : (if rl <=? rr then (rl, rr) else (rr, rl)) = (Nat.min rl rr, Nat.max rl rr)).
  { destruct (Nat.leb_spec rl rr); f_equal; lia. }
  rewrite Hsel. eexists. split; [done|]. split.
  { intros k. rewrite dom_insert, elem_of_union, elem_of_singleton. intros [->|?]; [|auto].
    pose proof (root_le (mparent m) Hd l). pose proof (root_le (mparent m) Hd r). unfold rl, rr. lia. }
  apply link_merges; [done| |].
  - intros j. rewrite mparent_insert. apply (update_descending (mparent m2)); [done|lia].
  - intros j. fold rl rr. rewrite <-Hroots.
    rewrite <-(root_link (mparent m2) (Nat.min rl rr) (Nat.max rl rr) j Hd2); [|..|lia].
    + apply root_ext. intros k. apply mparent_insert.
    + destruct (Nat.min_spec rl rr) as [[_ ->]|[_ ->]]; apply Hfix.
    + destruct (Nat.max_spec rl rr) as [[_ ->]|[_ ->]]; apply Hfix.
Qed.

(** ** Passes over the edges, for either union-find *)

(** What the passes need of a union-find: linking two nodes below [n] merges their classes. *)
Class UnionFind (S : Type) (link : S -> nat -> nat -> option S) := {
  uf_parent : S -> nat -> nat;
  uf_ok : nat -> S -> Prop;
  uf_link n s l r : uf_ok n s -> l < n -> r < n ->
    exists s', link s l r = Some s' /\ uf_ok n s' /\ merges_classes (uf_parent s) (uf_parent s') l r;
}.

#[export] Instance array_union_find : UnionFind (list nat) union.
Proof.
  refine {| uf_parent := parent_of; uf_ok := fun n p => array_ok p /\ length p = n |}.
  intros n p l r [Hok <-] Hl Hr. destruct (union_spec p l r Hok Hl Hr) as (p'&?&?&Hm).
  exists p'. split_and!; try done. apply Hm.
Defined.

#[export] Instance map_union_find : UnionFind (gmap nat nat) local_union.
Proof.
  refine {| uf_parent := mparent; uf_ok := fun n m => descending (mparent m) /\ keys_below n m |}.
  intros n m l r [Hd Hk] Hl Hr. destruct (local_union_spec n m l r Hd Hk Hl Hr) as (m'&?&?&Hm).
  exists m'. split_and!; try done. apply Hm.
Defined.

Definition edge_in (edges : list (nat * nat)) (a b : nat) : Prop := (a, b) ∈ edges.

(** Nodes connected by undirected paths over the edges. *)
Definition connected (edges : list (nat * nat)) : nat -> nat -> Prop := rtsc (edge_in edges).

(** The classes of [f] are the components of [edges]. *)
Definition components_of (f : nat -> nat) (edges : list (nat * nat)) : Prop :=
  forall i j, same f i j <-> connected edges i j.

Lemma connected_sym edges i j : connected edges i j -> connected edges j i.
Proof. intros H. by apply (symmetry (R := rtsc (edge_in edges))). Qed.

Lemma connected_mono e1 e2 i j : (forall p, p ∈ e1 -> p ∈ e2) -> connected e1 i j -> connected e2 i j.
Proof.
  intros Hsub. apply rtc_subrel. intros a b [H|H]; [left|right]; by apply Hsub.
Qed.

Lemma connected_edge edges a b : (a, b) ∈ edges -> connected edges a b.
Proof. intros H. apply rtc_once. by left. Qed.

(** Any equivalence that contains the edges contains the components. *)
Lemma connected_least edges f i j :
  (forall a b, (a, b) ∈ edges -> same f a b) -> connected edges i j -> same f i j.
Proof.
  intros He H. induction H as [|a b c Hab _ IH]; [done|]. unfold same in *. rewrite <-IH.
  destruct Hab as [H|H]; [by apply He|symmetry; by apply He].
Qed.

Lemma components_step f g edges l r :
  components_of f edges -> merges_classes f g l r -> components_of g (edges ++ [(l, r)]).
Proof.
  intros Hc [_ Hm] i j.
  assert (Hold : forall a b, same f a b -> connected (edges ++ [(l, r)]) a b).
  { intros a b Hab%Hc. eapply connected_mono; [|done]. intros p. rewrite elem_of_app. tauto. }
  assert (Hlr : connected (edges ++ [(l, r)]) l r).
  { apply connected_edge. rewrite elem_of_app, list_elem_of_singleton. tauto. }
  rewrite Hm. split.
  - intros [H|[[H1 H2]|[H1 H2]]]; [auto|..].
    + transitivity l; [auto|]. transitivity r; [done|]. by apply connected_sym, Hold.
    + transitivity r; [auto|]. transitivity l; [by apply connected_sym|]. by apply connected_sym, Hold.
  - intros H. apply Hm. revert H. apply connected_least. intros a b.
    rewrite elem_of_app, list_elem_of_singleton. intros [Hab|[= -> ->]]; apply Hm.
    + left. by apply Hc, connected_edge.
    + right. left. done.
Qed.

(** The edges from a list of sources, and whether their rows are in range. *)
Definition edges_from (graph : AdjacencyGraph) (sources : list nat) : list (nat * nat) :=
  sources ≫= fun source => (fun target => (source, target)) <$> neighbor_ordinals graph source.
Definition row_selected (graph : AdjacencyGraph) (source : nat) : bool :=
  forallb (fun target => target <? node_count graph) (neighbor_ordinals graph source).
Abbreviation unselected := (Execution "adjacency references an unselected node").

Lemma selected_neighbors_eq graph source :
  selected_neighbors graph source =
    if row_selected graph source then Ok (neighbor_ordinals graph source) else Err unselected.
Proof.
  unfold selected_neighbors, row_selected. cbv zeta.
  assert (H : forall row, existsb (fun target => node_count graph <=? target) row =
    negb (forallb (fun target => target <? node_count graph) row)); [|rewrite H; by destruct (forallb _ _)].
  induction row as [|t row IH]; [done|]. simpl. rewrite IH, negb_andb, Nat.leb_antisym. done.
Qed.

Section pass_specs.
Context {T : Type} {link : T -> nat -> nat -> option T} {UF : UnionFind T link} (n : nat).

Lemma link_targets_spec s source targets edges :
  uf_ok n s -> components_of (uf_parent s) edges -> source < n ->
  Forall (fun t => t < n) targets ->
  exists s', link_targets link s source targets = Some s' /\ uf_ok n s' /\
    components_of (uf_parent s') (edges ++ ((fun t => (source, t)) <$> targets)).
Proof.
  intros Hok Hc Hs Ht. revert s edges Hok Hc. induction Ht as [|t ts Ht _ IH]; intros s edges Hok Hc.
  - exists s. by rewrite app_nil_r.
  - cbn [link_targets]. destruct (uf_link n s source t Hok Hs Ht) as (s1&->&Hok1&Hm). cbn [mbind option_bind].
    destruct (IH s1 (edges ++ [(source, t)]) Hok1) as (s'&->&Hok'&Hc'); [by eapply components_step|].
    exists s'. split_and!; [done|done|]. by rewrite <-(assoc (++)) in Hc'.
Qed.

(** A pass ends with the components of the edges it saw, unless a row is out of range. *)
Lemma link_sources_spec graph s sources edges :
  n = node_count graph -> uf_ok n s -> components_of (uf_parent s) edges ->
  Forall (fun source => source < n) sources ->
  if forallb (row_selected graph) sources
  then exists s', link_sources link graph s sources = Some (Ok s') /\ uf_ok n s' /\
    components_of (uf_parent s') (edges ++ edges_from graph sources)
  else link_sources link graph s sources = Some (Err unselected).
Proof.
  intros Hn Hok Hc Hs. revert s edges Hok Hc. induction Hs as [|i l Hi _ IH]; intros s edges Hok Hc.
  - exists s. by rewrite app_nil_r.
  - cbn [link_sources forallb]. rewrite selected_neighbors_eq.
    destruct (row_selected graph i) eqn:Hrow; [|done]. cbn [andb].
    destruct (link_targets_spec s i (neighbor_ordinals graph i) edges) as (s1&->&Hok1&Hc1); [done..| |].
    { apply Forall_forall. intros t Hin. unfold row_selected in Hrow. rewrite forallb_forall in Hrow.
      rewrite Hn. by apply Nat.ltb_lt, Hrow, list_elem_of_In. }
    cbn [mbind option_bind]. change (edges_from graph (i :: l)) with (((fun t => (i, t)) <$> neighbor_ordinals graph i) ++ edges_from graph l).
    rewrite app_assoc. by apply IH.
Qed.
End pass_specs.

(** ** The links of a chunk *)

Lemma collect_links_spec n m touched :
  descending (mparent m) -> keys_below n m -> Forall (fun i => i < n) touched ->
  exists links, collect_links m touched = Some links /\
    forall r i, (r, i) ∈ links <-> i ∈ touched /\ r = root (mparent m) i /\ i <> r.
Proof.
  intros Hd Hk Ht. revert m Hd Hk. induction Ht as [|x xs Hx _ IH]; intros m Hd Hk.
  - exists []. split; [done|]. intros r i. rewrite !elem_of_nil. tauto.
  - cbn [collect_links]. destruct (local_find_spec n m x Hd Hk Hx) as (m'&->&Hd'&Hr'&Hk').
    cbn [mbind option_bind]. destruct (IH m' Hd' Hk') as (links&->&Hin). cbn [mbind option_bind].
    eexists. split; [done|]. intros r i. rewrite elem_of_cons.
    assert (Hin' : (r, i) ∈ links <-> i ∈ xs /\ r = root (mparent m) i /\ i <> r) by (by rewrite Hin, Hr').
    destruct (Nat.eqb_spec x (root (mparent m) x)) as [Heq|Hne]; cbn [negb].
    + rewrite Hin'. split; [tauto|]. intros [[->|?] ?]; [|tauto]. destruct H. congruence.
    + rewrite elem_of_cons, Hin'. split.
      * intros [[= -> ->]|?]; [|tauto]. split_and!; auto.
      * intros [[->|?] [-> ?]]; [by left|tauto].
Qed.

(** The links of all the touched nodes connect exactly the classes. *)
Lemma links_components m links (touched : list nat) :
  descending (mparent m) -> (forall i, i ∈ dom m -> i ∈ touched) ->
  (forall r i, (r, i) ∈ links <-> i ∈ touched /\ r = root (mparent m) i /\ i <> r) ->
  components_of (mparent m) links.
Proof.
  intros Hd Hdom Hin i j. split.
  - assert (Hroot : forall k, connected links (root (mparent m) k) k).
    { intros k. destruct (decide (root (mparent m) k = k)) as [->|Hne]; [reflexivity|].
      apply connected_edge, Hin. split_and!; [|done|done]. apply Hdom, elem_of_dom.
      destruct (m !! k) eqn:E; [by eexists|]. destruct Hne. apply root_self. unfold mparent. by rewrite E. }
    intros Hs. transitivity (root (mparent m) i); [by apply connected_sym|]. rewrite Hs. apply Hroot.
  - apply connected_least. intros a b (_&->&_)%Hin. unfold same. by apply root_root.
Qed.

Lemma components_unique f e1 e2 :
  components_of f e1 -> components_of f e2 -> forall i j, connected e1 i j <-> connected e2 i j.
Proof. intros H1 H2 i j. by rewrite <-(H1 i j), (H2 i j). Qed.

Lemma empty_components n : uf_ok (link := local_union) n (∅ : gmap nat nat) /\ components_of (mparent ∅) [].
Proof.
  assert (Hm : forall i, mparent ∅ i = i) by (intros; unfold mparent; by rewrite lookup_empty).
  split; [split|].
  - intros i. by rewrite Hm.
  - intros k Hk. set_solver.
  - intros i j. unfold same. rewrite !root_self by done. split; [by intros ->|].
    intros H. destruct H as [|a b c [Hab|Hab] _]; [done|..]; by apply elem_of_nil in Hab.
Qed.

Lemma chunk_links_spec graph start end_ :
  end_ <= node_count graph ->
  if forallb (row_selected graph) (seq start (end_ - start))
  then exists links, components_chunk_links graph start end_ = Some (Ok links) /\
    Forall (fun '(a, b) => a < node_count graph /\ b < node_count graph) links /\
    forall i j, connected links i j <-> connected (edges_from graph (seq start (end_ - start))) i j
  else components_chunk_links graph start end_ = Some (Err unselected).
Proof.
  intros Hend. destruct (empty_components (node_count graph)) as [Hok0 Hc0].
  pose proof (link_sources_spec (UF := map_union_find) (node_count graph) graph ∅
    (seq start (end_ - start)) [] eq_refl Hok0 Hc0) as Hpass.
  unfold components_chunk_links.
  destruct (forallb _ _); [|rewrite Hpass; [done|]].
  2: { apply Forall_seq. intros. lia. }
  destruct Hpass as (m&->&[Hd Hk]&Hc); [apply Forall_seq; intros; lia|]. cbn [mbind option_bind].
  set (touched := sort_by_key Z.of_nat (elements (dom m))).
  assert (Ht : forall i, i ∈ touched <-> i ∈ dom m).
  { intros i. unfold touched. rewrite sort_by_key_perm. apply elem_of_elements. }
  destruct (collect_links_spec (node_count graph) m touched Hd Hk) as (links&->&Hin).
  { apply Forall_forall. intros i Hi. by apply Hk, Ht. }
  cbn [mbind option_bind]. exists links. split; [done|]. split.
  - apply Forall_forall. intros [a b] (Hb&->&_)%Hin. apply Ht, Hk in Hb.
    pose proof (root_le (mparent m) Hd b). lia.
  - apply (components_unique (mparent m)); [|done]. eapply links_components; [done| |done].
    intros i. by apply Ht.
Qed.

(** ** The chunks cover the sources *)

Abbreviation range_sources := (fun '(start, end_) => seq start (end_ - start)).

Lemma chunk_ranges_cover base rem k m start :
  let total := base * m + (Nat.min rem (k + m) - Nat.min rem k) in
  (chunk_ranges base rem (seq k m) start ≫= range_sources) = seq start total /\
  Forall (fun '(_, end_) => end_ <= start + total) (chunk_ranges base rem (seq k m) start).
Proof.
  cbv zeta. revert k start. induction m as [|m IH]; intros k start.
  { replace (base * 0 + (Nat.min rem (k + 0) - Nat.min rem k)) with 0 by lia. by split; [|constructor]. }
  cbn [seq chunk_ranges]. cbv zeta.
  set (len := base + (if k <? rem then 1 else 0)).
  set (rest := base * m + (Nat.min rem (S k + m) - Nat.min rem (S k))).
  assert (Htotal : base * S m + (Nat.min rem (k + S m) - Nat.min rem k) = len + rest).
  { unfold len, rest. destruct (Nat.ltb_spec k rem); lia. }
  rewrite Htotal, seq_app. destruct (IH (S k) (start + len)) as [IH1 IH2]. fold rest in IH1, IH2.
  rewrite bind_app, IH1, Forall_app. split_and!.
  - f_equal. destruct (Nat.ltb_spec start (start + len)) as [|Hle]; cbn [mbind list_bind].
    + rewrite app_nil_r. f_equal. lia.
    + by replace len with 0 by lia.
  - destruct (start <? start + len); [|done]. apply Forall_singleton. lia.
  - eapply Forall_impl; [exact IH2|]. intros [a b] Hb. lia.
Qed.

(** The ranges of the workers are consecutive, non-empty and cover every source. *)
Lemma source_chunks_cover nodes threads :
  (component_source_chunks nodes threads ≫= range_sources) = seq 0 nodes /\
  Forall (fun '(_, end_) => end_ <= nodes) (component_source_chunks nodes threads).
Proof.
  unfold component_source_chunks. destruct (Nat.eqb_spec nodes 0) as [->|Hn]; [done|].
  set (w := Nat.min (Nat.max threads 1) nodes).
  pose proof (Nat.div_mod nodes w ltac:(lia)). pose proof (Nat.mod_upper_bound nodes w ltac:(lia)).
  destruct (chunk_ranges_cover (nodes / w) (nodes mod w) 0 w 0) as [Hc Hb].
  assert (Htot : nodes / w * w + (Nat.min (nodes mod w) (0 + w) - Nat.min (nodes mod w) 0) = nodes) by lia.
  rewrite Htot in Hc, Hb. done.
Qed.

(** ** The merge *)

Lemma connected_app_congr d e1 e2 :
  (forall i j, connected e1 i j <-> connected e2 i j) ->
  forall i j, connected (d ++ e1) i j <-> connected (d ++ e2) i j.
Proof.
  assert (Hdir : forall a b, (forall i j, connected a i j -> connected b i j) ->
    forall i j, connected (d ++ a) i j -> connected (d ++ b) i j).
  { intros a b Hab i j H. induction H as [|x y z Hxy _ IH]; [reflexivity|]. transitivity y; [|done].
    assert (Hedge : forall u v, edge_in (d ++ a) u v -> connected (d ++ b) u v).
    { intros u v [Hd|Ha]%elem_of_app; [apply connected_edge, elem_of_app; by left|].
      eapply connected_mono; [|by apply Hab, connected_edge]. intros p Hp. apply elem_of_app. by right. }
    destruct Hxy as [Hxy|Hxy]; [by apply Hedge|by apply connected_sym, Hedge]. }
  intros H i j. split; apply Hdir; intros; by apply H.
Qed.

Lemma union_links_spec n parents links edges :
  uf_ok (link := union) n parents -> components_of (parent_of parents) edges ->
  Forall (fun '(a, b) => a < n /\ b < n) links ->
  exists parents', union_links parents links = Some parents' /\
    uf_ok (link := union) n parents' /\ components_of (parent_of parents') (edges ++ links).
Proof.
  intros Hok Hc Hl. revert parents edges Hok Hc.
  induction Hl as [|[a b] l [Ha Hb] _ IH]; intros parents edges Hok Hc.
  - exists parents. by rewrite app_nil_r.
  - cbn [union_links]. destruct (uf_link n parents a b Hok Ha Hb) as (p1&->&Hok1&Hm). cbn [mbind option_bind].
    destruct (IH p1 (edges ++ [(a, b)]) Hok1) as (p'&->&Hok'&Hc'); [by eapply components_step|].
    exists p'. split_and!; [done|apply Hok'..|]. by rewrite <-(assoc (++)) in Hc'.
Qed.

(** The merge of the chunk results of some ranges: the components of their edges, or the
    error of a row out of range. *)
Lemma union_chunks_spec graph ranges parents edges :
  uf_ok (link := union) (node_count graph) parents -> components_of (parent_of parents) edges ->
  Forall (fun '(_, end_) => end_ <= node_count graph) ranges ->
  exists chunks, mapM (fun '(start, end_) => components_chunk_links graph start end_) ranges = Some chunks /\
    let sources := ranges ≫= range_sources in
    if forallb (row_selected graph) sources
    then exists parents', union_chunks parents chunks = Some (Ok parents') /\
      uf_ok (link := union) (node_count graph) parents' /\
      components_of (parent_of parents') (edges ++ edges_from graph sources)
    else union_chunks parents chunks = Some (Err unselected).
Proof.
  intros Hok Hc Hr. revert parents edges Hok Hc.
  induction Hr as [|[a b] ranges Hb _ IH]; intros parents edges Hok Hc.
  { exists []. split; [done|]. exists parents. by rewrite app_nil_r. }
  pose proof (chunk_links_spec graph a b Hb) as Hchunk.
  cbn [mapM mbind list_bind]. cbv zeta. rewrite forallb_app.
  destruct (forallb (row_selected graph) (seq a (b - a))) eqn:Hrows; cbn [andb].
  - destruct Hchunk as (links&->&Hlt&Hcon). cbn [mbind option_bind].
    destruct (union_links_spec _ parents links edges Hok Hc Hlt) as (p1&Hp1&Hok1&Hc1).
    destruct (IH p1 (edges ++ edges_from graph (seq a (b - a))) Hok1) as (chunks&->&Hrest).
    { intros i j. rewrite (Hc1 i j). by apply connected_app_congr. }
    exists (Ok links :: chunks). split; [done|]. cbn [union_chunks]. rewrite Hp1. cbn [mbind option_bind].
    unfold edges_from. rewrite bind_app, app_assoc. apply Hrest.
  - rewrite Hchunk. cbn [mbind option_bind]. destruct (IH parents edges Hok Hc) as (chunks&->&_).
    by exists (Err unselected :: chunks).
Qed.

(** ** The two passes agree *)

Lemma init_components n :
  uf_ok (link := union) n (seq 0 n) /\ components_of (parent_of (seq 0 n)) [].
Proof.
  assert (Hp : forall i, parent_of (seq 0 n) i = i).
  { intros i. unfold parent_of. destruct (seq 0 n !! i) as [x|] eqn:E; [|done].
    apply lookup_seq in E as [-> _]. done. }
  split; [split|].
  - intros i. by rewrite Hp.
  - apply length_seq.
  - destruct (empty_components 0) as [_ He]. intros i j. rewrite <-(He i j). unfold same.
    rewrite !root_self; [done|..]; unfold mparent; by rewrite ?lookup_empty, ?Hp.
Qed.

Definition all_edges (graph : AdjacencyGraph) : list (nat * nat) := edges_from graph (seq 0 (node_count graph)).
Definition all_selected (graph : AdjacencyGraph) : bool :=
  forallb (row_selected graph) (seq 0 (node_count graph)).

Definition union_result (graph : AdjacencyGraph) (r : X (list nat)) : Prop :=
  if all_selected graph
  then exists parents, r = Some (Ok parents) /\ array_ok parents /\ length parents = node_count graph /\
    components_of (parent_of parents) (all_edges graph)
  else r = Some (Err unselected).

Lemma union_serial_result graph :
  union_result graph (components_union_serial graph (seq 0 (node_count graph))).
Proof.
  destruct (init_components (node_count graph)) as [Hok Hc].
  pose proof (link_sources_spec (UF := array_union_find) (node_count graph) graph _
    (seq 0 (node_count graph)) [] eq_refl Hok Hc) as Hpass.
  unfold union_result, all_selected, components_union_serial. destruct (forallb _ _).
  - destruct Hpass as (p&->&[Hp Hl]&Hc'); [apply Forall_seq; intros; lia|]. by exists p.
  - apply Hpass. apply Forall_seq; intros; lia.
Qed.

Lemma union_parallel_result graph control :
  is_Some (compute_pool control) ->
  union_result graph (components_union_parallel graph control (seq 0 (node_count graph))).
Proof.
  intros [pool Hpool]. destruct (init_components (node_count graph)) as [Hok Hc].
  destruct (source_chunks_cover (node_count graph) (compute_threads control)) as [Hcov Hb].
  destruct (union_chunks_spec graph _ _ [] Hok Hc Hb) as (chunks&Hm&Hres).
  unfold union_result, all_selected, components_union_parallel. rewrite Hpool. cbv zeta in Hres |- *.
  rewrite Hm. cbn [run_components_on_pool ok_or]. rewrite Hcov in Hres.
  destruct (forallb _ _); [|done]. destruct Hres as (p&->&[Hp Hl]&Hc'). by exists p.
Qed.

(** The root is the least node of its class, so the classes determine the roots. *)
Lemma roots_determined f g :
  descending f -> descending g -> (forall i j, same f i j <-> same g i j) -> forall i, root f i = root g i.
Proof.
  intros Hf Hg Hs i.
  assert (Hle : forall u v, descending u -> descending v -> (forall i j, same u i j <-> same v i j) ->
    root u i <= root v i).
  { intros u v Hu Hv Huv. assert (Hsame : same u i (root v i)) by (apply Huv; symmetry; by apply root_root).
    rewrite Hsame. by apply root_le. }
  apply Nat.le_antisymm; apply Hle; try done.
Qed.

(** ** Numbering *)

(** The number of a root: how many roots come before it. *)
Definition rank (f : nat -> nat) (k : nat) : nat := length (filter (fun i => root f i = i) (seq 0 k)).

Lemma rank_S f k : rank f (S k) = rank f k + (if decide (root f k = k) then 1 else 0).
Proof.
  unfold rank. rewrite seq_S, filter_app, length_app. f_equal. simpl. rewrite filter_cons.
  by case_decide.
Qed.

Lemma rank_le f k : rank f k <= k.
Proof. unfold rank. etransitivity; [apply length_filter|]. by rewrite length_seq. Qed.

Lemma rank_mono f a b : a <= b -> rank f a <= rank f b.
Proof. induction 1 as [|b _ IH]; [done|]. rewrite rank_S. lia. Qed.

Lemma rank_lt f a b : root f a = a -> a < b -> rank f a < rank f b.
Proof.
  intros Ha Hab. pose proof (rank_mono f (S a) b ltac:(lia)). rewrite rank_S in H.
  rewrite decide_True in H by done. lia.
Qed.

Lemma rank_inj f a b : root f a = a -> root f b = b -> rank f a = rank f b -> a = b.
Proof.
  intros Ha Hb Hr. destruct (lt_eq_lt_dec a b) as [[H| ->]|H]; [|done|].
  - pose proof (rank_lt f a b Ha H). lia.
  - pose proof (rank_lt f b a Hb H). lia.
Qed.

(** Every number below that of a node is the number of an earlier root. *)
Lemma rank_onto f k m : m < rank f k -> exists r, r < k /\ root f r = r /\ rank f r = m.
Proof.
  induction k as [|k IH]; intros Hm; [unfold rank in Hm; simpl in Hm; lia|]. rewrite rank_S in Hm.
  destruct (decide (m < rank f k)) as [Hlt|Hge].
  - destruct (IH Hlt) as (r&?&?&?). exists r. split_and!; [lia|done..].
  - case_decide as Hk; [|lia]. exists k. split_and!; [lia|done|lia].
Qed.

Section numbering.
Context {U : Type} (uuid_of_ordinal : nat -> option U) (n : nat) (f : nat -> nat).
Hypothesis Hf : descending f.

Definition community_id (i : nat) : Z := Z.of_nat (rank f (root f i)).

(** The ids at the head of iteration [k]: assigned to the roots before [k] only. *)
Definition ids_at (k : nat) (ids : list (option Z)) : Prop :=
  length ids = n /\
  forall r, r < n -> root f r = r -> ids !! r = Some (if decide (r < k) then Some (community_id r) else None).

Lemma community_id_root r : root f r = r -> community_id r = Z.of_nat (rank f r).
Proof. intros Hr. unfold community_id. by rewrite Hr. Qed.

Lemma number_components_spec m k parents ids rows :
  (Z.of_nat n <= i64_max)%Z -> k + m = n -> array_ok parents -> length parents = n ->
  (forall i, root (parent_of parents) i = root f i) -> ids_at k ids ->
  number_components uuid_of_ordinal parents ids (Z.of_nat (rank f k)) (seq k m) rows =
    match mapM uuid_of_ordinal (seq k m) with
    | None => Some (Err (Execution "selected node has no UUID identity"))
    | Some uuids => Some (Ok (rows ++ zip uuids (community_id <$> seq k m)))
    end.
Proof.
  intros Hn. revert k parents ids rows. induction m as [|m IH]; intros k parents ids rows Hk Hok Hlen Hr [Hl Hids].
  { simpl. by rewrite app_nil_r. }
  cbn [seq number_components]. destruct (find_spec parents k Hok ltac:(lia)) as (p1&->&Hok1&Hlen1&Hr1).
  cbn [mbind option_bind]. rewrite Hr. pose proof (root_le f Hf k) as Hle.
  assert (Hrr : root f (root f k) = root f k) by (by apply root_root).
  rewrite (Hids (root f k)) by (lia || done). cbn [mbind option_bind].
  assert (Hcid : community_id (root f k) = community_id k) by (unfold community_id; by rewrite Hrr).
  assert (Hp1 : forall i, root (parent_of p1) i = root f i) by (intros; by rewrite Hr1).
  cbn [mapM]. destruct (decide (root f k < k)) as [Hlt|Hge].
  - cbv zeta. destruct (uuid_of_ordinal k) as [u|]; [|done]. cbn [mbind option_bind].
    assert (Hrank : rank f k = rank f (S k)) by (rewrite rank_S, decide_False by lia; lia).
    rewrite Hrank, IH; try done; [|lia|lia|].
    + destruct (mapM uuid_of_ordinal (seq (S k) m)); [|done]. cbn [mbind option_bind].
      rewrite Hcid, fmap_cons, <-app_assoc. done.
    + split; [done|]. intros r Hrn Hrroot. rewrite Hids by done. f_equal.
      destruct (decide (r < k)), (decide (r < S k)); try done; lia || (assert (r = k) by lia; congruence || lia).
  - assert (Heq : root f k = k) by lia. rewrite Heq in *. cbv zeta.
    pose proof (rank_le f k). destruct (Z.ltb_spec i64_max (Z.of_nat (rank f k) + 1)); [lia|].
    destruct (uuid_of_ordinal k) as [u|]; [|done]. cbn [mbind option_bind].
    assert (Hrank : (Z.of_nat (rank f k) + 1 = Z.of_nat (rank f (S k)))%Z) by (rewrite rank_S, decide_True by done; lia).
    rewrite Hrank, IH; try done; [|lia|lia|].
    + destruct (mapM uuid_of_ordinal (seq (S k) m)); [|done]. cbn [mbind option_bind].
      rewrite fmap_cons, <-app_assoc, (community_id_root k) by done. done.
    + split; [by rewrite length_insert|]. intros r Hrn Hrroot. destruct (decide (r = k)) as [->|Hne].
      * rewrite list_lookup_insert_eq by lia. rewrite decide_True by lia. by rewrite community_id_root.
      * rewrite list_lookup_insert_ne by done. rewrite Hids by done. f_equal.
        destruct (decide (r < k)), (decide (r < S k)); try done; lia.
Qed.

Lemma ids_at_start : ids_at 0 (replicate n None).
Proof.
  split; [apply length_replicate|]. intros r Hr _. rewrite decide_False by lia. by apply lookup_replicate_2.
Qed.
End numbering.

(** Equal classes are numbered alike, whatever the arrays look like. *)
Lemma number_components_roots {U} (uuid : nat -> option U) indices p1 p2 ids assigned rows :
  array_ok p1 -> array_ok p2 -> length p1 = length p2 ->
  (forall i, root (parent_of p1) i = root (parent_of p2) i) -> Forall (fun i => i < length p1) indices ->
  number_components uuid p1 ids assigned indices rows = number_components uuid p2 ids assigned indices rows.
Proof.
  intros H1 H2 Hlen Hr Hi. remember (length p1) as n eqn:Hn. revert p1 p2 ids assigned rows H1 H2 Hlen Hr Hn.
  induction Hi as [|i l Hi _ IH]; intros p1 p2 ids assigned rows H1 H2 Hlen Hr Hn; [done|].
  cbn [number_components].
  destruct (find_spec p1 i H1 ltac:(lia)) as (q1&->&Hq1&Hl1&Hr1).
  destruct (find_spec p2 i H2 ltac:(lia)) as (q2&->&Hq2&Hl2&Hr2). cbn [mbind option_bind].
  rewrite (Hr i). destruct (ids !! _) as [slot|]; [|done]. cbn [mbind option_bind]. cbv zeta.
  destruct slot as [id|]; [|destruct (_ <? _)%Z; [done|]]; destruct (uuid i); try done;
    (apply IH; [done|done|lia|intros; by rewrite Hr1, Hr2|lia]).
Qed.

Lemma execute_on_result {U} (uuid : nat -> option U) graph control path r :
  match path with
  | Serial => components_union_serial graph (seq 0 (node_count graph))
  | Parallel _ _ => components_union_parallel graph control (seq 0 (node_count graph))
  end = r ->
  union_result graph r ->
  if all_selected graph
  then exists parents, array_ok parents /\ length parents = node_count graph /\
    components_of (parent_of parents) (all_edges graph) /\
    execute_on uuid path graph control =
      number_components uuid parents (replicate (node_count graph) None) 0 (seq 0 (node_count graph)) []
  else execute_on uuid path graph control = Some (Err unselected).
Proof.
  unfold execute_on, union_result. cbv zeta. intros ->. destruct (all_selected graph).
  - intros (p&->&Hok&Hl&Hc). by exists p.
  - by intros ->.
Qed.

(** The parallel path is only selected with a pool. *)
Lemma selected_parallel_pool control nodes edges threads chunks :
  select_components_path control nodes edges = Parallel threads chunks -> is_Some (compute_pool control).
Proof.
  unfold select_components_path. cbv zeta. destruct (compute_pool control) as [b|]; [by eexists|].
  cbn [default negb]. by rewrite orb_true_r.
Qed.

Lemma execute_on_parallel {U} (uuid : nat -> option U) graph control threads chunks :
  is_Some (compute_pool control) ->
  execute_on uuid (Parallel threads chunks) graph control = execute_on uuid Serial graph control.
Proof.
  intros Hpool.
  pose proof (execute_on_result uuid graph control Serial _ eq_refl (union_serial_result graph)) as Hs.
  pose proof (execute_on_result uuid graph control (Parallel threads chunks) _ eq_refl
    (union_parallel_result graph control Hpool)) as Hp.
  destruct (all_selected graph); [|congruence].
  destruct Hs as (p1&Hok1&Hl1&Hc1&->). destruct Hp as (p2&Hok2&Hl2&Hc2&->).
  apply number_components_roots; [done|done|lia| |].
  - apply roots_determined; [done|done|]. intros i j. by rewrite (Hc2 i j), (Hc1 i j).
  - rewrite Hl2. apply Forall_seq. intros. lia.
Qed.

Lemma execute_serial {U} (uuid : nat -> option U) graph control :
  execute uuid graph control = execute_on uuid Serial graph control.
Proof.
  unfold execute. destruct (select_components_path _ _ _) as [|threads chunks] eqn:Hsel; [done|].
  apply execute_on_parallel. by eapply selected_parallel_pool.
Qed.

(** C1 (components).  The execution path does not change the answer: with a compute pool,
    the parallel path, for any number of workers, and the serial path return the same
    rows with the same community ids, or the same error; so the path the control selects
    is never visible. *)
Theorem components_path_independent {U} (uuid_of_ordinal : nat -> option U) graph control threads chunks :
  is_Some (compute_pool control) ->
  execute_on uuid_of_ordinal (Parallel threads chunks) graph control =
    execute_on uuid_of_ordinal Serial graph control /\
  execute uuid_of_ordinal graph control = execute_on uuid_of_ordinal Serial graph control.
Proof. intros Hpool. split; [by apply execute_on_parallel|by apply execute_serial]. Qed.

Lemma components_path_independent_witness :
  let control := {| limit_compute_threads := 3; compute_pool := Some true |} in
  execute_on (fun i => Some i) (Parallel 3 3) demo_graph control =
    execute_on (fun i => Some i) Serial demo_graph control.
Proof.
  intros control. apply (components_path_independent (fun i => Some i) demo_graph control 3 3).
  by eexists.
Defined.

(** C2 (components).  On a graph whose rows only name selected nodes the run returns one
    row per node, in node order, without panicking.  Two nodes have the same community id
    exactly when an undirected path connects them, and the ids count up from zero in the
    order in which the communities first appear: an id is not negative, and every smaller
    id from zero was already given to an earlier node.  A row that names an unselected node is an error. *)
Theorem components_correct {U} (uuid_of_ordinal : nat -> option U) graph control uuids :
  (Z.of_nat (node_count graph) <= i64_max)%Z ->
  mapM uuid_of_ordinal (seq 0 (node_count graph)) = Some uuids ->
  if all_selected graph then exists c : nat -> Z,
    execute uuid_of_ordinal graph control = Some (Ok (zip uuids (c <$> seq 0 (node_count graph)))) /\
    (forall i j, i < node_count graph -> j < node_count graph ->
      c i = c j <-> connected (all_edges graph) i j) /\
    (forall i, i < node_count graph -> (0 <= c i)%Z /\
      forall z, (0 <= z < c i)%Z -> exists j, j < i /\ c j = z)
  else execute uuid_of_ordinal graph control = Some (Err unselected).
Proof.
  intros Hn Huuid. rewrite execute_serial.
  pose proof (execute_on_result uuid_of_ordinal graph control Serial _ eq_refl (union_serial_result graph)) as Hs.
  destruct (all_selected graph); [|done]. destruct Hs as (p&Hok&Hl&Hc&->). set (f := parent_of p) in *.
  exists (community_id f). split_and!.
  - rewrite (number_components_spec uuid_of_ordinal (node_count graph) f Hok (node_count graph) 0 p);
      try done; [by rewrite Huuid|apply ids_at_start].
  - intros i j Hi Hj. rewrite <-(Hc i j). unfold community_id, same. split; [|by intros ->].
    intros Heq. apply (rank_inj f); [by apply root_root..|lia].
  - intros i Hi. split; [unfold community_id; lia|]. intros z Hz. destruct (rank_onto f (root f i) (Z.to_nat z)) as (r&Hr&Hrr&Hrank).
    { unfold community_id in Hz. lia. }
    exists r. split; [pose proof (root_le f Hok i); lia|]. rewrite community_id_root by done. lia.
Qed.

Lemma components_correct_witness :
  exists c : nat -> Z,
    execute (fun i => Some i) demo_graph {| limit_compute_threads := 1; compute_pool := None |} =
      Some (Ok (zip [0; 1; 2; 3; 4; 5] (c <$> seq 0 6))) /\ c 2 = c 4.
Proof.
  destruct (components_correct (fun i => Some i) demo_graph {| limit_compute_threads := 1; compute_pool := None |}
    [0; 1; 2; 3; 4; 5]) as (c&He&Hc&_); [by vm_compute|reflexivity|].
  exists c. split; [exact He|]. apply Hc; [by vm_compute; lia..|].
  apply connected_edge. vm_compute. right. left.
Defined.
