(* ===== verification/Ast.v ===== *)
(** * Ast: the syntax tree of a query ([graphforge-ast/src/ast.rs]).

    Every struct and enum of the source is a record or an inductive type of the same name.
    Only [Expr] is recursive: the types it is made of take the type of their
    subexpressions as a parameter, and [Expr] is the fixed point (the [Box]es of the
    source).  A [HashMap] built by the parser is the list of its entries in insertion
    order.  The tags of an enum live in a module of its name, so that [Tok::None] is
    [Tok.None]. *)

From stdpp Require Import base list.
From Stdlib Require Import ZArith.
From S2P Require Import Prelude Text.

(** [graphforge_core::Span]: byte offsets into the query text. *)
Record Span := mkSpan { sp_start : Z; sp_end : Z }.

#[global] Instance Span_eq_dec : EqDecision Span.
Proof. solve_decision. Defined.

Inductive DialectVersion := OpenCypher9.

(** Sort direction, edge direction, operators. *)
Module SortOrder.
Inductive SortOrder := Ascending | Descending.
End SortOrder.

Module Direction.
Inductive Direction := Out | In | Undirected.
End Direction.

Module BinaryOpKind.
Inductive BinaryOpKind :=
| Eq | Neq | Lt | Lte | Gt | Gte
| And | Or | Xor
| Add | Sub | Mul | Div | Mod | Pow
| Concat.
End BinaryOpKind.

Module UnaryOpKind.
Inductive UnaryOpKind := Not | Neg.
End UnaryOpKind.

Module QuantifierKind.
Inductive QuantifierKind := All | Any | None | Single.
End QuantifierKind.

Module StringOpKind.
Inductive StringOpKind := StartsWith | EndsWith | Contains.
End StringOpKind.

(** ** Leaves *)

(** An [f64] is its bit pattern. *)
Module Literal.
Inductive Literal :=
| Int (n : Z) (span : Span)
| Float (bits : Z) (span : Span)
| Str (s : str) (span : Span)
| Bool (b : bool) (span : Span)
| Null (span : Span).

Definition literal_span (l : Literal) : Span :=
  match l with
  | Int _ s | Float _ s | Str _ s | Bool _ s | Null s => s
  end.
End Literal.

Record VarRef := mkVarRef { vr_name : str; vr_span : Span }.

Record ParamRef := mkParamRef { pr_name : str; pr_span : Span }.

Record LabelPredicate := mkLabelPredicate {
  lp_var : str;
  lp_labels : list str;
  lp_span : Span }.

(** ** Types with subexpressions *)

Section over_expressions.
Context {E : Type}.

Record PropertyAccess := mkPropertyAccess { pa_object : E; pa_key : str; pa_span : Span }.

Record BinaryOp := mkBinaryOp {
  bo_op : BinaryOpKind.BinaryOpKind;
  bo_left : E;
  bo_right : E;
  bo_span : Span }.

Record UnaryOp := mkUnaryOp {
  uo_op : UnaryOpKind.UnaryOpKind;
  uo_expr : E;
  uo_span : Span }.

Record FunctionCall := mkFunctionCall {
  fc_name : list str;
  fc_distinct : bool;
  fc_star : bool;
  fc_args : list E;
  fc_span : Span }.

Record ListLiteral := mkListLiteral { ll_elements : list E; ll_span : Span }.

Record MapLiteral := mkMapLiteral {
  ml_entries : list (str * E);
  ml_key_spans : list (str * Span);
  ml_span : Span }.

Record WhenClause := mkWhenClause { wn_condition : E; wn_result : E; wn_span : Span }.

Record CaseExpr := mkCaseExpr {
  ce_subject : option E;
  ce_when_clauses : list WhenClause;
  ce_else_expr : option E;
  ce_span : Span }.

Record ListComprehension := mkListComprehension {
  lc_var : str;
  lc_list : E;
  lc_filter : option E;
  lc_projection : option E;
  lc_span : Span }.

Record Quantifier := mkQuantifier {
  qf_kind : QuantifierKind.QuantifierKind;
  qf_var : str;
  qf_list : E;
  qf_predicate : E;
  qf_span : Span }.

(** Path patterns. *)
Record NodePattern := mkNodePattern {
  np_var : option str;
  np_labels : list str;
  np_properties : option E;
  np_span : Span }.

Record RelPattern := mkRelPattern {
  rp_var : option str;
  rp_types : list str;
  rp_direction : Direction.Direction;
  rp_min_hops : option Z;
  rp_max_hops : option Z;
  rp_properties : option E;
  rp_span : Span }.

Inductive PathElement :=
| Node (n : NodePattern)
| Rel (r : RelPattern).

Record PathPattern := mkPathPattern {
  pp_var : option str;
  pp_elements : list PathElement;
  pp_span : Span }.

Record PatternComprehension := mkPatternComprehension {
  pc_var : option str;
  pc_pattern : PathPattern;
  pc_filter : option E;
  pc_projection : E;
  pc_span : Span }.

Record PatternPredicate := mkPatternPredicate {
  ppr_pattern : PathPattern;
  ppr_span : Span }.

(** Clauses. *)
Record WhereClause := mkWhereClause { wh_predicate : E; wh_span : Span }.

Record MatchClause := mkMatchClause {
  mc_patterns : list PathPattern;
  mc_where_clause : option WhereClause;
  mc_span : Span }.

Record ReturnItem := mkReturnItem {
  ri_expr : E;
  ri_alias : option str;
  ri_display : option str;
  ri_span : Span }.

Record SortItem := mkSortItem {
  si_expr : E;
  si_order : SortOrder.SortOrder;
  si_span : Span }.

Record OrderByClause := mkOrderByClause { ob_items : list SortItem; ob_span : Span }.

Record WithClause := mkWithClause {
  wi_distinct : bool;
  wi_items : list ReturnItem;
  wi_order_by : option OrderByClause;
  wi_skip : option E;
  wi_limit : option E;
  wi_where_clause : option WhereClause;
  wi_span : Span }.

Record ReturnClause := mkReturnClause {
  rc_distinct : bool;
  rc_items : list ReturnItem;
  rc_order_by : option OrderByClause;
  rc_skip : option E;
  rc_limit : option E;
  rc_span : Span }.

Record CreateClause := mkCreateClause { cc_patterns : list PathPattern; cc_span : Span }.

Inductive SetItem :=
| SetProperty (target : PropertyAccess) (value : E) (span : Span)
| SetPropertyMerge (var : str) (map : E) (span : Span)
| SetPropertyReplace (var : str) (map : E) (span : Span)
| SetLabel (var : str) (labels : list str) (span : Span).

Record MergeClause := mkMergeClause {
  mg_pattern : PathPattern;
  mg_on_create : list SetItem;
  mg_on_match : list SetItem;
  mg_span : Span }.

Record SetClause := mkSetClause { st_items : list SetItem; st_span : Span }.

Inductive RemoveItem :=
| RemoveProperty (target : PropertyAccess) (span : Span)
| RemoveLabel (var : str) (labels : list str) (span : Span).

Record RemoveClause := mkRemoveClause { rm_items : list RemoveItem; rm_span : Span }.

Record DeleteClause := mkDeleteClause {
  dl_detach : bool;
  dl_exprs : list E;
  dl_span : Span }.

Record UnwindClause := mkUnwindClause {
  uw_expr : E;
  uw_alias : str;
  uw_span : Span }.

Record CallClause := mkCallClause {
  cl_procedure : list str;
  cl_args : list E;
  cl_args_explicit : bool;
  cl_yield_items : list ReturnItem;
  cl_span : Span }.

End over_expressions.
Arguments PropertyAccess : clear implicits.
Arguments BinaryOp : clear implicits.
Arguments UnaryOp : clear implicits.
Arguments FunctionCall : clear implicits.
Arguments ListLiteral : clear implicits.
Arguments MapLiteral : clear implicits.
Arguments WhenClause : clear implicits.
Arguments CaseExpr : clear implicits.
Arguments ListComprehension : clear implicits.
Arguments Quantifier : clear implicits.
Arguments NodePattern : clear implicits.
Arguments RelPattern : clear implicits.
Arguments PathElement : clear implicits.
Arguments PathPattern : clear implicits.
Arguments PatternComprehension : clear implicits.
Arguments PatternPredicate : clear implicits.
Arguments WhereClause : clear implicits.
Arguments MatchClause : clear implicits.
Arguments ReturnItem : clear implicits.
Arguments SortItem : clear implicits.
Arguments OrderByClause : clear implicits.
Arguments WithClause : clear implicits.
Arguments ReturnClause : clear implicits.
Arguments CreateClause : clear implicits.
Arguments SetItem : clear implicits.
Arguments MergeClause : clear implicits.
Arguments SetClause : clear implicits.
Arguments RemoveItem : clear implicits.
Arguments RemoveClause : clear implicits.
Arguments DeleteClause : clear implicits.
Arguments UnwindClause : clear implicits.
Arguments CallClause : clear implicits.

Record UnionClause := mkUnionClause { un_all : bool; un_span : Span }.

Module AstClause.
Inductive AstClause (E : Type) :=
| Match (c : MatchClause E)
| OptionalMatch (c : MatchClause E)
| Where (c : WhereClause E)
| With (c : WithClause E)
| Return (c : ReturnClause E)
| Create (c : CreateClause E)
| Merge (c : MergeClause E)
| Set_ (c : SetClause E)
| Remove (c : RemoveClause E)
| Delete (c : DeleteClause E)
| Unwind (c : UnwindClause E)
| Call (c : CallClause E)
| Union (c : UnionClause).
Arguments Match {E} c.
Arguments OptionalMatch {E} c.
Arguments Where {E} c.
Arguments With {E} c.
Arguments Return {E} c.
Arguments Create {E} c.
Arguments Merge {E} c.
Arguments Set_ {E} c.
Arguments Remove {E} c.
Arguments Delete {E} c.
Arguments Unwind {E} c.
Arguments Call {E} c.
Arguments Union {E} c.

(** [AstClause::span] *)
Definition clause_span {E} (c : AstClause E) : Span :=
  match c with
  | Match c | OptionalMatch c => mc_span c
  | Where c => wh_span c
  | With c => wi_span c
  | Return c => rc_span c
  | Create c => cc_span c
  | Merge c => mg_span c
  | Set_ c => st_span c
  | Remove c => rm_span c
  | Delete c => dl_span c
  | Unwind c => uw_span c
  | Call c => cl_span c
  | Union c => un_span c
  end.
End AstClause.

Record AstQuery (E : Type) := mkAstQuery {
  aq_dialect : DialectVersion;
  aq_clauses : list (AstClause.AstClause E);
  aq_span : Span }.
Arguments mkAstQuery {E}.
Arguments aq_dialect {E}.
Arguments aq_clauses {E}.
Arguments aq_span {E}.

Definition is_mutation {E} (c : AstClause.AstClause E) : bool :=
  match c with
  | AstClause.Create _ | AstClause.Merge _ | AstClause.Set_ _ | AstClause.Remove _
  | AstClause.Delete _ => true
  | _ => false
  end.

(** [AstQuery::has_mutation_clauses] *)
Definition has_mutation_clauses {E} (q : AstQuery E) : bool :=
  existsb is_mutation (aq_clauses q).

Inductive ExistentialSubqueryBody (E : Type) :=
| Simple (pattern : PathPattern E) (filter : option E)
| Full (query : AstQuery E).
Arguments Simple {E} pattern filter.
Arguments Full {E} query.

Record ExistentialSubquery (E : Type) := mkExistentialSubquery {
  es_body : ExistentialSubqueryBody E;
  es_span : Span }.
Arguments mkExistentialSubquery {E}.
Arguments es_body {E}.
Arguments es_span {E}.

(** ** Expressions *)

Module Expr.
Inductive Expr :=
| Literal (l : Literal.Literal)
| Var (v : VarRef)
| Property (p : PropertyAccess Expr)
| BinaryOp (b : BinaryOp Expr)
| UnaryOp (u : UnaryOp Expr)
| FunctionCall (f : FunctionCall Expr)
| List (l : ListLiteral Expr)
| Map (m : MapLiteral Expr)
| Param (p : ParamRef)
| Case (c : CaseExpr Expr)
| ListComprehension (lc : ListComprehension Expr)
| Quantifier (q : Quantifier Expr)
| PatternComprehension (pc : PatternComprehension Expr)
| PatternPredicate (pp : PatternPredicate Expr)
| ExistentialSubquery (es : ExistentialSubquery Expr)
| LabelPredicate (lp : LabelPredicate)
| IsNull (expr : Expr) (negated : bool) (span : Span)
| InList (expr list : Expr) (negated : bool) (span : Span)
| StringOp (expr : Expr) (op : StringOpKind.StringOpKind) (pattern : Expr) (span : Span)
| RegexMatch (expr pattern : Expr) (span : Span)
| Parenthesized (inner : Expr) (span : Span).
End Expr.
Abbreviation Expr := Expr.Expr.

(** [Expr::span] *)
Definition expr_span (e : Expr) : Span :=
  match e with
  | Expr.Literal l => Literal.literal_span l
  | Expr.Var v => vr_span v
  | Expr.Property p => pa_span p
  | Expr.BinaryOp b => bo_span b
  | Expr.UnaryOp u => uo_span u
  | Expr.FunctionCall f => fc_span f
  | Expr.List l => ll_span l
  | Expr.Map m => ml_span m
  | Expr.Param p => pr_span p
  | Expr.Case c => ce_span c
  | Expr.ListComprehension lc => lc_span lc
  | Expr.Quantifier q => qf_span q
  | Expr.PatternComprehension pc => pc_span pc
  | Expr.PatternPredicate pp => ppr_span pp
  | Expr.ExistentialSubquery es => es_span es
  | Expr.LabelPredicate lp => lp_span lp
  | Expr.IsNull _ _ span
  | Expr.InList _ _ _ span
  | Expr.StringOp _ _ _ span
  | Expr.RegexMatch _ _ span
  | Expr.Parenthesized _ span => span
  end.
