(* ===== verification/Scan.v ===== *)
(** * Scan: code that consumes an input, as a monad.

    The lexer and the parser are methods [fn m(&mut self, ..) -> Result<A, ParseError>] with
    loops and recursion.  [M E S A] is such a method on a state [S]: [None] is a panic or
    the end of the fuel of a loop, [Some (Err e)] an error, [Some (Ok (a, s))] a value with
    the state reached.  [wp m s Q F] says that [m] run from [s] neither panics nor runs out
    of fuel, that a value satisfies [Q] and an error satisfies [F]; the components prove
    their properties with its rules. *)

From stdpp Require Import base list.
From Stdlib Require Import ZArith Lia.
From S2P Require Import Prelude.

Definition M (E S A : Type) : Type := S -> option (result E (A * S)).

Section monad.
Context {E S : Type}.

#[global] Instance M_ret : MRet (M E S) := fun A a s => Some (Ok (a, s)).
#[global] Instance M_bind : MBind (M E S) := fun A B f m s =>
  match m s with
  | None => None
  | Some (Err e) => Some (Err e)
  | Some (Ok (a, s')) => f a s'
  end.

(** [return Err(e)] *)
Definition fail {A} (e : E) : M E S A := fun _ => Some (Err e).
Definition panic {A} : M E S A := fun _ => None.
(** Reading the state, and replacing it. *)
Definition gets {A} (f : S -> A) : M E S A := fun s => Some (Ok (f s, s)).
Definition put (s : S) : M E S unit := fun _ => Some (Ok (tt, s)).
Definition modify (f : S -> S) : M E S unit := fun s => Some (Ok (tt, f s)).
(** A value of [Result] used with [?]. *)
Definition lift {A} (r : result E A) : M E S A := fun s =>
  match r with Ok a => Some (Ok (a, s)) | Err e => Some (Err e) end.

(** [loop { .. }]: [inl] is the next iteration, [inr] is [break]. *)
Fixpoint iter {A B} (fuel : nat) (body : A -> M E S (A + B)) (a : A) : M E S B :=
  match fuel with
  | O => panic
  | Datatypes.S fuel' =>
      r ← body a;
      match r with
      | inl a' => iter fuel' body a'
      | inr b => mret b
      end
  end.
End monad.

(** A state with a finite amount of input left. *)
Class Remaining (S : Type) := remaining : S -> nat.

(** A loop whose iterations consume input: its fuel is what is left. *)
Definition loop {E S A B} `{Remaining S} (body : A -> M E S (A + B)) (a : A) : M E S B :=
  fun s => iter (Datatypes.S (remaining s)) body a s.

(** ** The rules of [wp] *)

Definition wp {E S A} (m : M E S A) (s : S) (Q : A -> S -> Prop) (F : E -> Prop) : Prop :=
  match m s with
  | None => False
  | Some (Err e) => F e
  | Some (Ok (a, s')) => Q a s'
  end.

Section wp.
Context {E S : Type}.
Implicit Types (s : S) (F : E -> Prop).

Lemma wp_ret {A} (a : A) s (Q : A -> S -> Prop) F : Q a s -> wp (mret a) s Q F.
Proof. done. Qed.

Lemma wp_bind {A B} (m : M E S A) (f : A -> M E S B) s Q F :
  wp m s (fun a s' => wp (f a) s' Q F) F -> wp (m ≫= f) s Q F.
Proof.
  unfold wp. cbv [mbind M_bind]. by destruct (m s) as [[[a s']|e]|].
Qed.

Lemma wp_mono {A} (m : M E S A) s (Q Q' : A -> S -> Prop) F F' :
  wp m s Q F -> (forall a s', Q a s' -> Q' a s') -> (forall e, F e -> F' e) -> wp m s Q' F'.
Proof. unfold wp. destruct (m s) as [[[a s']|e]|]; eauto. Qed.

Lemma wp_and {A} (m : M E S A) s (Q Q' : A -> S -> Prop) F F' :
  wp m s Q F -> wp m s Q' F' ->
  wp m s (fun a s' => Q a s' /\ Q' a s') (fun e => F e /\ F' e).
Proof. unfold wp. destruct (m s) as [[[a s']|e]|]; eauto. Qed.

Lemma wp_fail {A} e s (Q : A -> S -> Prop) F : F e -> wp (fail e) s Q F.
Proof. done. Qed.

Lemma wp_gets {A} (f : S -> A) s (Q : A -> S -> Prop) F : Q (f s) s -> wp (gets f) s Q F.
Proof. done. Qed.

Lemma wp_put s s' (Q : unit -> S -> Prop) F : Q tt s' -> wp (put s') s Q F.
Proof. done. Qed.

Lemma wp_modify f s (Q : unit -> S -> Prop) F : Q tt (f s) -> wp (modify f) s Q F.
Proof. done. Qed.

Lemma wp_lift {A} (r : result E A) s (Q : A -> S -> Prop) F :
  (forall a, r = Ok a -> Q a s) -> (forall e, r = Err e -> F e) -> wp (lift r) s Q F.
Proof. destruct r; unfold wp, lift; eauto. Qed.

(** An iteration preserves [I] and consumes input; every exit satisfies [Q]. *)
Lemma wp_iter {A B} (size : S -> nat) (body : A -> M E S (A + B)) (I : A -> S -> Prop)
    (Q : B -> S -> Prop) F :
  (forall a s, I a s ->
     wp (body a) s (fun r s' => match r with
                               | inl a' => I a' s' /\ (size s' < size s)%nat
                               | inr b => Q b s'
                               end) F) ->
  forall fuel a s, I a s -> (size s < fuel)%nat -> wp (iter fuel body a) s Q F.
Proof.
  intros Hbody fuel. induction fuel as [|fuel IH]; intros a s HI Hf; [lia|]. cbn [iter].
  apply wp_bind. eapply wp_mono; [by apply Hbody| |done].
  intros [a'|b] s' H; simpl in H; [|done]. apply IH; [tauto|lia].
Qed.

Lemma wp_loop `{Remaining S} {A B} (body : A -> M E S (A + B)) (I : A -> S -> Prop)
    (Q : B -> S -> Prop) F a s :
  I a s ->
  (forall a s, I a s ->
     wp (body a) s (fun r s' => match r with
                               | inl a' => I a' s' /\ (remaining s' < remaining s)%nat
                               | inr b => Q b s'
                               end) F) ->
  wp (loop body a) s Q F.
Proof.
  intros HI Hbody. unfold loop. apply (wp_iter remaining body I); [done..|lia].
Qed.

(** What [wp] gives about a run. *)
Lemma wp_total {A} (m : M E S A) s Q F : wp m s Q F -> exists r, m s = Some r.
Proof. unfold wp. destruct (m s); [eauto|done]. Qed.

Lemma wp_Ok {A} (m : M E S A) s Q F a s' : wp m s Q F -> m s = Some (Ok (a, s')) -> Q a s'.
Proof. unfold wp. intros H Hr. by rewrite Hr in H. Qed.

Lemma wp_Err {A} (m : M E S A) s Q F e : wp m s Q F -> m s = Some (Err e) -> F e.
Proof. unfold wp. intros H Hr. by rewrite Hr in H. Qed.

(** ** Equations of runs *)

Lemma bind_run {A B} (m : M E S A) (f : A -> M E S B) s a s' :
  m s = Some (Ok (a, s')) -> (m ≫= f) s = f a s'.
Proof. intros H. cbv [mbind M_bind]. by rewrite H. Qed.

Lemma bind_run_err {A B} (m : M E S A) (f : A -> M E S B) s e :
  m s = Some (Err e) -> (m ≫= f) s = Some (Err e).
Proof. intros H. cbv [mbind M_bind]. by rewrite H. Qed.

Lemma iter_break {A B} fuel (body : A -> M E S (A + B)) a s b s' :
  body a s = Some (Ok (inr b, s')) -> (0 < fuel)%nat -> iter fuel body a s = Some (Ok (b, s')).
Proof. intros Hb Hf. destruct fuel; [lia|]. cbn [iter]. by rewrite (bind_run _ _ _ _ _ Hb). Qed.

Lemma iter_continue {A B} fuel (body : A -> M E S (A + B)) a s a' s' :
  body a s = Some (Ok (inl a', s')) ->
  iter (Datatypes.S fuel) body a s = iter fuel body a' s'.
Proof. intros Hb. cbn [iter]. by rewrite (bind_run _ _ _ _ _ Hb). Qed.

(** More fuel does not change a result. *)
Lemma iter_fuel {A B} (body : A -> M E S (A + B)) fuel fuel' a s r :
  iter fuel body a s = Some r -> (fuel <= fuel')%nat -> iter fuel' body a s = Some r.
Proof.
  revert fuel' a s. induction fuel as [|fuel IH]; intros fuel' a s H Hle; [done|].
  destruct fuel' as [|fuel']; [lia|]. revert H. cbn [iter]. cbv [mbind M_bind].
  destruct (body a s) as [[[[a'|b] s']|e]|]; try done. intros H. apply IH; [done|lia].
Qed.
End wp.

(** ** Properties of the values alone *)

Definition yields {E S A} (m : M E S A) (Q : A -> Prop) : Prop :=
  forall s a s', m s = Some (Ok (a, s')) -> Q a.

Section yields.
Context {E S : Type}.

Lemma yields_ret {A} (a : A) (Q : A -> Prop) : Q a -> yields (E:=E) (S:=S) (mret a) Q.
Proof. intros H s a' s' [= <- <-]. done. Qed.

Lemma yields_fail {A} (e : E) (Q : A -> Prop) : yields (S:=S) (fail e) Q.
Proof. intros s a s' H. discriminate. Qed.

Lemma yields_panic {A} (Q : A -> Prop) : yields (E:=E) (S:=S) panic Q.
Proof. intros s a s' H. discriminate. Qed.

Lemma yields_bind {A B} (m : M E S A) (f : A -> M E S B) (R : A -> Prop) (Q : B -> Prop) :
  yields m R -> (forall a, R a -> yields (f a) Q) -> yields (m ≫= f) Q.
Proof.
  intros Hm Hf s b s' H. cbv [mbind M_bind] in H.
  destruct (m s) as [[[a s1]|e]|] eqn:Em; [|done..]. eapply Hf; [|exact H]. by eapply Hm.
Qed.

(** When nothing is needed of the first value. *)
Lemma yields_after {A B} (m : M E S A) (f : A -> M E S B) (Q : B -> Prop) :
  (forall a, yields (f a) Q) -> yields (m ≫= f) Q.
Proof. intros Hf. by eapply (yields_bind _ _ (fun _ => True)). Qed.

Lemma yields_loop `{Remaining S} {A B} (body : A -> M E S (A + B)) (I : A -> Prop) (Q : B -> Prop) a :
  I a ->
  (forall a, I a -> yields (body a) (fun r => match r with inl a' => I a' | inr b => Q b end)) ->
  yields (loop body a) Q.
Proof.
  intros Ha Hbody s b s'. unfold loop. generalize (Datatypes.S (remaining s)). intros fuel.
  revert a s Ha. induction fuel as [|fuel IH]; intros a s Ha Hr; [done|].
  revert Hr. cbn [iter]. cbv [mbind M_bind].
  destruct (body a s) as [[[[a'|b'] s1]|e]|] eqn:Eb; try done; apply (Hbody a Ha) in Eb.
  - by apply IH.
  - by intros [= <- <-].
Qed.
End yields.
