(* ===== verification/Lexer.v ===== *)
(** * Lexer: the tokens of a query ([graphforge-cypher/src/lexer.rs]).

    A [Lexer] is the text that is left and its byte offset.  [next] is one call of the
    iterator, [tokenize] collects the tokens of a query as [TokenStream::new] does.
    Decimal literals are converted to the nearest binary64 value, ties to even, as
    [str::parse::<f64>] documents.  The Unicode tables behind [char::is_alphabetic],
    [char::is_numeric] and [char::to_uppercase] are the class [Unicode], with what is
    documented of them on ASCII; [AsciiOnly] is an instance. *)

From stdpp Require Import base numbers list strings sorting.
From Stdlib Require Import Ascii ZArith Lia ZifyBool.
From S2P Require Import Prelude Text Ast Scan.

#[local] Open Scope string_scope.
#[local] Open Scope list_scope.
#[local] Open Scope Z_scope.

(** ** Tokens *)

Module Tok.
Inductive Tok :=
(* keywords *)
| Match | Optional | Where | Return | With | As | Distinct | Union | All | Create | Merge | On
| Set_ | Remove | Delete | Detach | Call | Yield | Unwind | Order | By | Skip | Limit | Not | And
| Or | Xor | In | Is | Null | Starts | Ends | Contains
(* compound two-word tokens *)
| NotIn | IsNull | IsNotNull | StartsWith | EndsWith
| Case | When | Then | Else | End | True | False | ShortestPath | AllShortestPaths | Count
| Exists | Reduce | Filter | Extract | Any | None | Single | Asc | Desc | Ascending | Descending
(* literals *)
| IntLit (n : Z) | FloatLit (bits : Z) | StrLit (s : str)
(* identifiers and parameters *)
| Ident (name : str) | Param (name : str)
(* punctuation *)
| LParen | RParen | LBracket | RBracket | LBrace | RBrace | Dot | Comma | Colon | Semi | Pipe
| DotDot
(* operators *)
| Eq | Neq | Lt | Lte | Gt | Gte | Plus | Minus | Star | Slash | Percent | Caret | RegexMatch
| PlusEq
(* composite arrow tokens *)
| RelOpen | LeftArrow | RightArrow.
End Tok.
Abbreviation Tok := Tok.Tok.

(** ** Equality of tokens *)

(** An injective code, so that comparing two tokens compares two lists. *)
Definition tok_code (t : Tok) : nat * str :=
  match t with
  | Tok.Match => (0, []) | Tok.Optional => (1, []) | Tok.Where => (2, [])
  | Tok.Return => (3, []) | Tok.With => (4, []) | Tok.As => (5, []) | Tok.Distinct => (6, [])
  | Tok.Union => (7, []) | Tok.All => (8, []) | Tok.Create => (9, []) | Tok.Merge => (10, [])
  | Tok.On => (11, []) | Tok.Set_ => (12, []) | Tok.Remove => (13, []) | Tok.Delete => (14, [])
  | Tok.Detach => (15, []) | Tok.Call => (16, []) | Tok.Yield => (17, [])
  | Tok.Unwind => (18, []) | Tok.Order => (19, []) | Tok.By => (20, []) | Tok.Skip => (21, [])
  | Tok.Limit => (22, []) | Tok.Not => (23, []) | Tok.And => (24, []) | Tok.Or => (25, [])
  | Tok.Xor => (26, []) | Tok.In => (27, []) | Tok.Is => (28, []) | Tok.Null => (29, [])
  | Tok.Starts => (30, []) | Tok.Ends => (31, []) | Tok.Contains => (32, [])
  | Tok.NotIn => (33, []) | Tok.IsNull => (34, []) | Tok.IsNotNull => (35, [])
  | Tok.StartsWith => (36, []) | Tok.EndsWith => (37, []) | Tok.Case => (38, [])
  | Tok.When => (39, []) | Tok.Then => (40, []) | Tok.Else => (41, []) | Tok.End => (42, [])
  | Tok.True => (43, []) | Tok.False => (44, []) | Tok.ShortestPath => (45, [])
  | Tok.AllShortestPaths => (46, []) | Tok.Count => (47, []) | Tok.Exists => (48, [])
  | Tok.Reduce => (49, []) | Tok.Filter => (50, []) | Tok.Extract => (51, [])
  | Tok.Any => (52, []) | Tok.None => (53, []) | Tok.Single => (54, []) | Tok.Asc => (55, [])
  | Tok.Desc => (56, []) | Tok.Ascending => (57, []) | Tok.Descending => (58, [])
  | Tok.IntLit n => (59, [n]) | Tok.FloatLit n => (60, [n]) | Tok.StrLit s => (61, s)
  | Tok.Ident s => (62, s) | Tok.Param s => (63, s) | Tok.LParen => (64, [])
  | Tok.RParen => (65, []) | Tok.LBracket => (66, []) | Tok.RBracket => (67, [])
  | Tok.LBrace => (68, []) | Tok.RBrace => (69, []) | Tok.Dot => (70, [])
  | Tok.Comma => (71, []) | Tok.Colon => (72, []) | Tok.Semi => (73, []) | Tok.Pipe => (74, [])
  | Tok.DotDot => (75, []) | Tok.Eq => (76, []) | Tok.Neq => (77, []) | Tok.Lt => (78, [])
  | Tok.Lte => (79, []) | Tok.Gt => (80, []) | Tok.Gte => (81, []) | Tok.Plus => (82, [])
  | Tok.Minus => (83, []) | Tok.Star => (84, []) | Tok.Slash => (85, [])
  | Tok.Percent => (86, []) | Tok.Caret => (87, []) | Tok.RegexMatch => (88, [])
  | Tok.PlusEq => (89, []) | Tok.RelOpen => (90, []) | Tok.LeftArrow => (91, [])
  | Tok.RightArrow => (92, [])
  end%nat.

Definition tok_decode (p : nat * str) : Tok :=
  match fst p with
  | 0 => Tok.Match | 1 => Tok.Optional | 2 => Tok.Where | 3 => Tok.Return | 4 => Tok.With
  | 5 => Tok.As | 6 => Tok.Distinct | 7 => Tok.Union | 8 => Tok.All | 9 => Tok.Create
  | 10 => Tok.Merge | 11 => Tok.On | 12 => Tok.Set_ | 13 => Tok.Remove | 14 => Tok.Delete
  | 15 => Tok.Detach | 16 => Tok.Call | 17 => Tok.Yield | 18 => Tok.Unwind | 19 => Tok.Order
  | 20 => Tok.By | 21 => Tok.Skip | 22 => Tok.Limit | 23 => Tok.Not | 24 => Tok.And
  | 25 => Tok.Or | 26 => Tok.Xor | 27 => Tok.In | 28 => Tok.Is | 29 => Tok.Null
  | 30 => Tok.Starts | 31 => Tok.Ends | 32 => Tok.Contains | 33 => Tok.NotIn | 34 => Tok.IsNull
  | 35 => Tok.IsNotNull | 36 => Tok.StartsWith | 37 => Tok.EndsWith | 38 => Tok.Case
  | 39 => Tok.When | 40 => Tok.Then | 41 => Tok.Else | 42 => Tok.End | 43 => Tok.True
  | 44 => Tok.False | 45 => Tok.ShortestPath | 46 => Tok.AllShortestPaths | 47 => Tok.Count
  | 48 => Tok.Exists | 49 => Tok.Reduce | 50 => Tok.Filter | 51 => Tok.Extract | 52 => Tok.Any
  | 53 => Tok.None | 54 => Tok.Single | 55 => Tok.Asc | 56 => Tok.Desc | 57 => Tok.Ascending
  | 58 => Tok.Descending | 59 => match snd p with n :: _ => Tok.IntLit n | [] => Tok.Match end
  | 60 => match snd p with n :: _ => Tok.FloatLit n | [] => Tok.Match end
  | 61 => Tok.StrLit (snd p) | 62 => Tok.Ident (snd p) | 63 => Tok.Param (snd p)
  | 64 => Tok.LParen | 65 => Tok.RParen | 66 => Tok.LBracket | 67 => Tok.RBracket
  | 68 => Tok.LBrace | 69 => Tok.RBrace | 70 => Tok.Dot | 71 => Tok.Comma | 72 => Tok.Colon
  | 73 => Tok.Semi | 74 => Tok.Pipe | 75 => Tok.DotDot | 76 => Tok.Eq | 77 => Tok.Neq
  | 78 => Tok.Lt | 79 => Tok.Lte | 80 => Tok.Gt | 81 => Tok.Gte | 82 => Tok.Plus
  | 83 => Tok.Minus | 84 => Tok.Star | 85 => Tok.Slash | 86 => Tok.Percent | 87 => Tok.Caret
  | 88 => Tok.RegexMatch | 89 => Tok.PlusEq | 90 => Tok.RelOpen | 91 => Tok.LeftArrow
  | 92 => Tok.RightArrow | _ => Tok.Match
  end%nat.

Lemma tok_decode_code t : tok_decode (tok_code t) = t.
Proof. by destruct t. Qed.

#[global] Instance Tok_eq_dec : EqDecision Tok.
Proof.
  refine (fun t u =>
    match decide (tok_code t = tok_code u) with left H => left _ | right H => right _ end).
  - by rewrite <-(tok_decode_code t), H, tok_decode_code.
  - congruence.
Defined.

(** ** Errors ([graphforge-core/src/parse_error.rs], [cypher_feature.rs]) *)

Module Unsupported.
Inductive UnsupportedCypherFeature :=
| CallSubquery | CountSubquery | Reduce | ShortestPath | DynamicDuration | IdentityFunction
| UnboundRelationshipEndpoint | IndexedPathRelationshipPredicate
| VariableLengthRelationshipAlternation | ParameterRowsAcrossLabels.
End Unsupported.

(** A [String] made with [format!("{x:?}")] is kept as the value it prints. *)
Inductive Rendered :=
| DebugTok (t : Tok)
| DebugExpr (e : Expr)
| Text (s : string).

Module ParseErrorKind.
Inductive ParseErrorKind :=
| UnsupportedFeature (feature : Unsupported.UnsupportedCypherFeature)
| UnexpectedChar
| UnexpectedToken (found : Rendered) (expected : list Rendered)
| UnterminatedString
| UnterminatedBlockComment
| InvalidNumericLiteral
| InvalidParameter
| UnexpectedEof (expected : list Rendered).
End ParseErrorKind.

(** The human-readable [message] is left out: it is derived from the other fields. *)
Record ParseError := mkParseError {
  pe_kind : ParseErrorKind.ParseErrorKind;
  pe_span : Span }.

(** ** Characters *)

(** An ASCII character literal of the source. *)
Definition ch (a : Ascii.ascii) : Z := Z.of_N (Ascii.N_of_ascii a).
Arguments ch a%_char_scope.

(** [char::len_utf8] *)
Definition len_utf8 (c : Z) : Z := lenZ (utf8_char c).

Definition in_range (lo hi c : Z) : bool := (lo <=? c) && (c <=? hi).

(** [char::is_ascii_whitespace]: space, tab, line feed, form feed, carriage return. *)
Definition is_ascii_whitespace (c : Z) : bool :=
  (c =? 32) || (c =? 9) || (c =? 10) || (c =? 12) || (c =? 13).
Definition is_ascii_digit (c : Z) : bool := in_range 48 57 c.
Definition is_ascii_hexdigit (c : Z) : bool :=
  in_range 48 57 c || in_range 65 70 c || in_range 97 102 c.
Definition is_ascii_upper (c : Z) : bool := in_range 65 90 c.
Definition is_ascii_lower (c : Z) : bool := in_range 97 122 c.
Definition to_ascii_uppercase (c : Z) : Z := if is_ascii_lower c then c - 32 else c.
Definition to_ascii_lowercase (c : Z) : Z := if is_ascii_upper c then c + 32 else c.

(** [str::eq_ignore_ascii_case] *)
Definition eq_ignore_ascii_case (s t : str) : bool :=
  bool_decide (to_ascii_lowercase <$> s = to_ascii_lowercase <$> t).

(** The Unicode tables of the standard library. *)
Class Unicode := {
  is_alphabetic : Z -> bool;
  is_numeric : Z -> bool;
  char_to_uppercase : Z -> str;
  is_alphabetic_ascii c : 0 <= c < 128 -> is_alphabetic c = is_ascii_upper c || is_ascii_lower c;
  is_numeric_ascii c : 0 <= c < 128 -> is_numeric c = is_ascii_digit c;
  char_to_uppercase_ascii c : 0 <= c < 128 -> char_to_uppercase c = [to_ascii_uppercase c];
}.

(** No character outside ASCII is a letter or a digit. *)
#[refine] Instance AsciiOnly : Unicode := {|
  is_alphabetic c := is_ascii_upper c || is_ascii_lower c;
  is_numeric := is_ascii_digit;
  char_to_uppercase c := [to_ascii_uppercase c];
|}.
Proof. all: done. Defined.
#[global] Remove Hints AsciiOnly : typeclass_instances.

Definition is_alphanumeric `{Unicode} (c : Z) : bool := is_alphabetic c || is_numeric c.
(** [str::to_uppercase] *)
Definition to_uppercase `{Unicode} (s : str) : str := s ≫= char_to_uppercase.

(** ** Numbers *)

Definition digit_value (c : Z) : Z :=
  if in_range 48 57 c then c - 48
  else if in_range 97 122 c then c - 87
  else if in_range 65 90 c then c - 55
  else 255.

(** The digits of [s] in a radix, most significant first. *)
Fixpoint parse_digits (radix acc : Z) (s : str) : option Z :=
  match s with
  | [] => Some acc
  | c :: s' =>
      if digit_value c <? radix then parse_digits radix (acc * radix + digit_value c) s' else None
  end.

(** [from_str_radix] of an integer type with the greatest value [max]: a leading [+] is
    accepted, no digits and overflow are errors.  (A leading [-] never reaches it.) *)
Definition from_str_radix (max radix : Z) (s : str) : option Z :=
  let digits := match s with c :: s' => if c =? ch "+" then s' else s | [] => s end in
  match digits with
  | [] => None
  | _ => n ← parse_digits radix 0 digits; if n <=? max then Some n else None
  end.

Definition i128_max : Z := 2 ^ 127 - 1.

(** [char::from_u32] *)
Definition char_from_u32 (n : Z) : option Z :=
  if in_range 0 0x10FFFF n && negb (in_range 0xD800 0xDFFF n) then Some n else None.

(** Binary64: the fraction has 53 significant bits, exponents go from -1074 to 971. *)
Definition f64_infinity : Z := 0x7FF0000000000000.

(** Round [n / d] to an integer, ties to even. *)
Definition round_half_even (n d : Z) : Z :=
  let q := n / d in
  let r := n mod d in
  if (2 * r <? d) || ((2 * r =? d) && Z.even q) then q else q + 1.

(** The bits of the binary64 value nearest to [n / d], for [0 < n] and [0 < d].  [e] is the
    exponent of the unit in the last place; a carry out of the fraction moves into the
    exponent field of the encoding by itself. *)
Definition f64_of_ratio (n d : Z) : Z :=
  let e0 := Z.log2 n - Z.log2 d in
  (* 2 ^ (e0 - 1) < n / d < 2 ^ (e0 + 1) *)
  let e1 := if n * 2 ^ Z.max 0 (- e0) <? d * 2 ^ Z.max 0 e0 then e0 - 1 else e0 in
  let e := Z.max (e1 - 52) (-1074) in
  let m := round_half_even (n * 2 ^ Z.max 0 (- e)) (d * 2 ^ Z.max 0 e) in
  let bits := (e + 1074) * 2 ^ 52 + m in
  if f64_infinity <=? bits then f64_infinity else bits.

(** The bits of the binary64 value nearest to [m * 10 ^ e], where [m] has at most [digits]
    decimal digits; magnitudes that are far out of range are decided without the power. *)
Definition f64_of_decimal (m e : Z) (digits : nat) : Z :=
  if m =? 0 then 0
  else if 400 <? e then f64_infinity
  else if e + Z.of_nat digits <? -400 then 0
  else f64_of_ratio (m * 10 ^ Z.max 0 e) (10 ^ Z.max 0 (- e)).

(** The longest prefix of characters that satisfy [p], and the rest. *)
Fixpoint span_while (p : Z -> bool) (s : str) : str * str :=
  match s with
  | [] => ([], [])
  | c :: s' => if p c then let r := span_while p s' in (c :: r.1, r.2) else ([], s)
  end.

Definition decimal_value (digits : str) : Z := default 0 (parse_digits 10 0 digits).

(** The exponent part of a decimal number: absent, or [e], a sign and at least one digit. *)
Definition parse_exponent (s : str) : option Z :=
  match s with
  | [] => Some 0
  | c :: s1 =>
      if (c =? ch "e") || (c =? ch "E") then
        let '(sign, s2) :=
          match s1 with
          | c :: s2 => if c =? ch "-" then (-1, s2) else if c =? ch "+" then (1, s2) else (1, s1)
          | [] => (1, s1)
          end in
        let '(digits, s3) := span_while is_ascii_digit s2 in
        match digits, s3 with
        | _ :: _, [] => Some (sign * decimal_value digits)
        | _, _ => None
        end
      else None
  end.

(** [str::parse::<f64>] on an unsigned decimal number. *)
Definition parse_f64 (s : str) : option Z :=
  let '(int_part, s1) := span_while is_ascii_digit s in
  let '(frac_part, s2) :=
    match s1 with
    | c :: s' => if c =? ch "." then span_while is_ascii_digit s' else ([], s1)
    | [] => ([], s1)
    end in
  let digits := int_part ++ frac_part in
  match digits with
  | [] => None
  | _ =>
      e ← parse_exponent s2;
      Some (f64_of_decimal (decimal_value digits) (e - lenZ frac_part) (length digits))
  end.

(** ** The state *)

Record Lexer := mkLexer { rest : str; pos : Z }.

Abbreviation L := (M ParseError Lexer).
#[global] Instance Lexer_remaining : Remaining Lexer := fun lx => length (rest lx).

(** [Lexer::new] *)
Definition new (input : str) : Lexer := mkLexer input 0.

(** [Lexer::peek] *)
Definition peek (lx : Lexer) : option Z := head (rest lx).

(** [self.peek().is_some_and(p)] *)
Definition peek_is (p : Z -> bool) (lx : Lexer) : bool :=
  match peek lx with Some c => p c | None => false end.

(** [Lexer::advance] *)
Definition advance : L (option Z) := fun lx =>
  match rest lx with
  | [] => Some (Ok (None, lx))
  | c :: s => Some (Ok (Some c, mkLexer s (pos lx + len_utf8 c)))
  end.

(** [self.rest().starts_with(prefix)] *)
Definition starts_with (prefix : str) (lx : Lexer) : bool :=
  bool_decide (take (length prefix) (rest lx) = prefix).

(** [&s[n..]] on bytes: a panic unless [n] is a character boundary. *)
Fixpoint skip_bytes (n : Z) (s : str) : option str :=
  if n =? 0 then Some s
  else match s with
  | [] => None
  | c :: s' => if n <? len_utf8 c then None else skip_bytes (n - len_utf8 c) s'
  end.

(** [self.pos += n], followed by a use of [self.rest()]. *)
Definition advance_bytes (n : Z) : L unit := fun lx =>
  match skip_bytes n (rest lx) with
  | Some s => Some (Ok (tt, mkLexer s (pos lx + n)))
  | None => None
  end.

(** [while self.peek().is_some_and(p) { s.push(self.advance().unwrap()) }] *)
Definition push_body (p : Z -> bool) (s : str) : L (str + str) :=
  ok ← gets (peek_is p);
  if (ok : bool) then
    c ← advance;
    match c with Some c => mret (inl (s ++ [c])) | None => panic end
  else mret (inr s).

Definition push_while (p : Z -> bool) (s : str) : L str := loop (push_body p) s.

Definition error {A} (kind : ParseErrorKind.ParseErrorKind) (start stop : Z) : L A :=
  fail (mkParseError kind (mkSpan start stop)).

(** ** Whitespace, comments and compound keywords *)

(** [while self.peek().is_some_and(p) { self.advance(); }] *)
Definition advance_body (p : Z -> bool) (_ : unit) : L (unit + unit) :=
  ok ← gets (peek_is p);
  if (ok : bool) then advance;; mret (inl tt) else mret (inr tt).

Definition advance_while (p : Z -> bool) : L unit := loop (advance_body p) tt.

(** The inner loop over a block comment. *)
Definition skip_block_comment (comment_start : Z) : L unit :=
  loop (fun _ =>
    closed ← gets (starts_with (bytes_of "*/"));
    if (closed : bool) then advance_bytes 2;; mret (inr tt)
    else
      c ← advance;
      match c with
      | None =>
          stop ← gets pos;
          error ParseErrorKind.UnterminatedBlockComment comment_start stop
      | Some _ => mret (inl tt)
      end) tt.

(** A comment, or [break]. *)
Definition skip_comment : L (unit + unit) :=
  line ← gets (starts_with (bytes_of "//"));
  if (line : bool) then
    advance_while (fun c => negb (c =? 10));; mret (inl tt)
  else
    block ← gets (starts_with (bytes_of "/*"));
    if (block : bool) then
      comment_start ← gets pos;
      advance_bytes 2;;
      skip_block_comment comment_start;; mret (inl tt)
    else mret (inr tt).

Definition skip_whitespace_and_comments : L unit :=
  loop (fun _ => advance_while is_ascii_whitespace;; skip_comment) tt.

Section lexer.
Context `{Unicode}.

Definition is_word_char (c : Z) : bool := is_alphanumeric c || (c =? ch "_").

Definition peek_keyword (lx : Lexer) : option str :=
  let trimmed := (span_while is_ascii_whitespace (rest lx)).2 in
  match (span_while is_word_char trimmed).1 with
  | [] => None
  | word => Some word
  end.

(** [self.peek_keyword().is_some_and(|w| w.eq_ignore_ascii_case(kw))] *)
Definition keyword_follows (kw : string) (lx : Lexer) : bool :=
  match peek_keyword lx with
  | Some w => eq_ignore_ascii_case w (bytes_of kw)
  | None => false
  end.

Definition skip_ws_and_advance_n (n : Z) : L unit :=
  advance_while is_ascii_whitespace;; advance_bytes n.

Definition maybe_compound (tok : Tok) : L Tok :=
  match tok with
  | Tok.Not =>
      is_in ← gets (keyword_follows "IN");
      if (is_in : bool) then skip_ws_and_advance_n 2;; mret Tok.NotIn else mret tok
  | Tok.Is =>
      is_null ← gets (keyword_follows "NULL");
      if (is_null : bool) then skip_ws_and_advance_n 4;; mret Tok.IsNull
      else
        is_not ← gets (keyword_follows "NOT");
        if (is_not : bool) then
          saved ← gets (fun lx => lx);
          skip_ws_and_advance_n 3;;
          not_null ← gets (keyword_follows "NULL");
          if (not_null : bool) then skip_ws_and_advance_n 4;; mret Tok.IsNotNull
          else put saved;; mret tok
        else mret tok
  | Tok.Starts =>
      is_with ← gets (keyword_follows "WITH");
      if (is_with : bool) then skip_ws_and_advance_n 4;; mret Tok.StartsWith else mret tok
  | Tok.Ends =>
      is_with ← gets (keyword_follows "WITH");
      if (is_with : bool) then skip_ws_and_advance_n 4;; mret Tok.EndsWith else mret tok
  | other => mret other
  end.

(** ** Strings and quoted identifiers *)

(** [for _ in 0..n { match self.advance() { Some(h) => hex.push(h), None => break } }] *)
Fixpoint take_chars (n : nat) (hex : str) : L str :=
  match n with
  | O => mret hex
  | S n' =>
      c ← advance;
      match c with Some h => take_chars n' (hex ++ [h]) | None => mret hex end
  end.

(** [\uXXXX], after the [u]. *)
Definition read_unicode_escape : L Z :=
  after ← gets pos;
  let escape_start := after - 2 in
  hex ← take_chars 4 [];
  match from_str_radix u32_max 16 hex ≫= char_from_u32 with
  | Some c => mret c
  | None =>
      stop ← gets pos;
      error ParseErrorKind.InvalidNumericLiteral escape_start stop
  end.

(** The escape sequence after a backslash; [None] is the [break] at the end of input. *)
Definition read_escape (s : str) : L (option str) :=
  c ← advance;
  match c with
  | None => mret None
  | Some c =>
      if c =? ch "n" then mret (Some (s ++ [10]))
      else if c =? ch "t" then mret (Some (s ++ [9]))
      else if c =? ch "r" then mret (Some (s ++ [13]))
      else if c =? 92 then mret (Some (s ++ [92]))
      else if c =? 39 then mret (Some (s ++ [39]))
      else if c =? 34 then mret (Some (s ++ [34]))
      else if c =? ch "u" then u ← read_unicode_escape; mret (Some (s ++ [u]))
      else mret (Some (s ++ [92; c]))
  end.

(** The opening quote has been consumed; 92 is the backslash. *)
Definition read_string (quote : Z) : L str :=
  after ← gets pos;
  let start := after - 1 in
  loop (fun s =>
    c ← advance;
    match c with
    | None =>
        stop ← gets pos;
        error ParseErrorKind.UnterminatedString start stop
    | Some c =>
        if c =? quote then mret (inr s)
        else if c =? 92 then
          r ← read_escape s;
          match r with Some s' => mret (inl s') | None => mret (inr s) end
        else mret (inl (s ++ [c]))
    end) [].

Definition read_backtick_ident : L str :=
  after ← gets pos;
  let start := after - 1 in
  loop (fun s =>
    c ← advance;
    match c with
    | None =>
        stop ← gets pos;
        error ParseErrorKind.UnterminatedString start stop
    | Some c =>
        if c =? 10 then
          stop ← gets pos;
          error ParseErrorKind.UnterminatedString start stop
        else if c =? ch "`" then mret (inr s)
        else mret (inl (s ++ [c]))
    end) [].

(** ** Numbers *)

(** The value of a literal, or [InvalidNumericLiteral] from [start] to the current position. *)
Definition number_or_error (start : Z) (v : option Z) (tok : Z -> Tok) : L Tok :=
  match v with
  | Some n => mret (tok n)
  | None =>
      stop ← gets pos;
      error ParseErrorKind.InvalidNumericLiteral start stop
  end.

Definition is_octal_digit (c : Z) : bool := in_range 48 55 c.

(** [s.push(self.advance().unwrap())] *)
Definition push_next (s : str) : L str :=
  c ← advance;
  match c with Some c => mret (s ++ [c]) | None => panic end.

(** [e], an optional sign and digits. *)
Definition read_exponent (s : str) : L str :=
  s ← push_next s;
  sign ← gets (peek_is (fun c => (c =? ch "+") || (c =? ch "-")));
  s ← (if (sign : bool) then push_next s else mret s);
  push_while is_ascii_digit s.

Definition peek_exponent (lx : Lexer) : bool :=
  peek_is (fun c => (c =? ch "e") || (c =? ch "E")) lx.

(** The fraction after a decimal point that a digit follows. *)
Definition read_fraction (s : str) : L (bool * str) :=
  dot ← gets (peek_is (fun c => c =? ch "."));
  if (dot : bool) then
    after_dot ← gets (fun lx => head (tail (rest lx)));
    match after_dot with
    | Some c =>
        if is_ascii_digit c then
          s ← push_next s;
          s ← push_while is_ascii_digit s;
          mret (true, s)
        else mret (false, s)
    | None => mret (false, s)
    end
  else mret (false, s).

Definition read_number (first : Z) : L Tok :=
  after ← gets pos;
  let start := after - len_utf8 first in
  let s := [first] in
  next ← gets peek;
  let is_prefix lower upper :=
    (first =? ch "0") &&
    match next with Some c => (c =? lower) || (c =? upper) | None => false end in
  if is_prefix (ch "x") (ch "X") then
    s ← push_next s;
    s ← push_while is_ascii_hexdigit s;
    number_or_error start (from_str_radix i128_max 16 (drop 2 s)) Tok.IntLit
  else if is_prefix (ch "o") (ch "O") then
    s ← push_next s;
    s ← push_while is_octal_digit s;
    number_or_error start (from_str_radix i128_max 8 (drop 2 s)) Tok.IntLit
  else
    s ← push_while is_ascii_digit s;
    fraction ← read_fraction s;
    let '(has_fraction, s) := fraction in
    has_exponent ← gets peek_exponent;
    s ← (if (has_exponent : bool) then read_exponent s else mret s);
    if has_fraction || has_exponent then number_or_error start (parse_f64 s) Tok.FloatLit
    else number_or_error start (from_str_radix i128_max 10 s) Tok.IntLit.

Definition read_leading_dot_float (start : Z) : L Tok :=
  s ← push_while is_ascii_digit (bytes_of ".");
  has_exponent ← gets peek_exponent;
  s ← (if (has_exponent : bool) then read_exponent s else mret s);
  number_or_error start (parse_f64 s) Tok.FloatLit.

(** ** Keywords, parameters and operators *)

Definition keyword_table : list (string * Tok) :=
  [("MATCH", Tok.Match); ("OPTIONAL", Tok.Optional); ("WHERE", Tok.Where);
   ("RETURN", Tok.Return); ("WITH", Tok.With); ("AS", Tok.As); ("DISTINCT", Tok.Distinct);
   ("UNION", Tok.Union); ("ALL", Tok.All); ("CREATE", Tok.Create); ("MERGE", Tok.Merge);
   ("ON", Tok.On); ("SET", Tok.Set_); ("REMOVE", Tok.Remove); ("DELETE", Tok.Delete);
   ("DETACH", Tok.Detach); ("CALL", Tok.Call); ("YIELD", Tok.Yield); ("UNWIND", Tok.Unwind);
   ("ORDER", Tok.Order); ("BY", Tok.By); ("SKIP", Tok.Skip); ("LIMIT", Tok.Limit);
   ("NOT", Tok.Not); ("AND", Tok.And); ("OR", Tok.Or); ("XOR", Tok.Xor); ("IN", Tok.In);
   ("IS", Tok.Is); ("NULL", Tok.Null); ("STARTS", Tok.Starts); ("ENDS", Tok.Ends);
   ("CONTAINS", Tok.Contains); ("CASE", Tok.Case); ("WHEN", Tok.When); ("THEN", Tok.Then);
   ("ELSE", Tok.Else); ("END", Tok.End); ("TRUE", Tok.True); ("FALSE", Tok.False);
   ("SHORTESTPATH", Tok.ShortestPath); ("ALLSHORTESTPATHS", Tok.AllShortestPaths);
   ("COUNT", Tok.Count); ("EXISTS", Tok.Exists); ("REDUCE", Tok.Reduce);
   ("FILTER", Tok.Filter); ("EXTRACT", Tok.Extract); ("ANY", Tok.Any); ("NONE", Tok.None);
   ("SINGLE", Tok.Single); ("ASC", Tok.Asc); ("DESC", Tok.Desc); ("ASCENDING", Tok.Ascending);
   ("DESCENDING", Tok.Descending)].

Definition keyword (s : str) : option Tok :=
  let upper := to_uppercase s in
  snd <$> List.find (fun '(kw, _) => bool_decide (upper = bytes_of kw)) keyword_table.

Definition read_parameter (start : Z) : L Tok :=
  name ← push_while is_word_char [];
  match name with
  | [] =>
      stop ← gets pos;
      error ParseErrorKind.InvalidParameter start stop
  | c :: _ =>
      let all_digits := forallb is_ascii_digit name in
      let valid_ident := is_alphabetic c || (c =? ch "_") in
      if negb all_digits && negb valid_ident then
        stop ← gets pos;
        error ParseErrorKind.InvalidParameter start stop
      else mret (Tok.Param name)
  end.

(** [if self.peek() == Some(second) { self.advance(); two } else { one }] *)
Definition one_or_two (second : Z) (two one : Tok) : L Tok :=
  next ← gets peek;
  if bool_decide (next = Some second) then advance;; mret two else mret one.

Definition read_operator (c start : Z) : L Tok :=
  if c =? ch "+" then one_or_two (ch "=") Tok.PlusEq Tok.Plus
  else if c =? ch "." then
    next ← gets peek;
    if bool_decide (next = Some (ch ".")) then advance;; mret Tok.DotDot
    else
      digit ← gets (peek_is is_ascii_digit);
      if (digit : bool) then read_leading_dot_float start else mret Tok.Dot
  else if c =? ch "=" then one_or_two (ch "~") Tok.RegexMatch Tok.Eq
  else if c =? ch "!" then
    next ← gets peek;
    if bool_decide (next = Some (ch "=")) then advance;; mret Tok.Neq
    else
      stop ← gets pos;
      error ParseErrorKind.UnexpectedChar start stop
  else if c =? ch "<" then
    next ← gets peek;
    if bool_decide (next = Some (ch "=")) then advance;; mret Tok.Lte
    else if bool_decide (next = Some (ch ">")) then advance;; mret Tok.Neq
    else if bool_decide (next = Some (ch "-")) then advance;; mret Tok.LeftArrow
    else mret Tok.Lt
  else if c =? ch ">" then one_or_two (ch "=") Tok.Gte Tok.Gt
  else if c =? ch "-" then
    next ← gets peek;
    if bool_decide (next = Some (ch "[")) then advance;; mret Tok.RelOpen
    else if bool_decide (next = Some (ch ">")) then advance;; mret Tok.RightArrow
    else mret Tok.Minus
  else panic.

(** ** The iterator *)

(** Characters that are a token by themselves. *)
Definition punctuation (c : Z) : option Tok :=
  if c =? ch "(" then Some Tok.LParen
  else if c =? ch ")" then Some Tok.RParen
  else if c =? ch "[" then Some Tok.LBracket
  else if c =? ch "]" then Some Tok.RBracket
  else if c =? ch "{" then Some Tok.LBrace
  else if c =? ch "}" then Some Tok.RBrace
  else if c =? ch "," then Some Tok.Comma
  else if c =? ch ":" then Some Tok.Colon
  else if c =? ch ";" then Some Tok.Semi
  else if c =? ch "|" then Some Tok.Pipe
  else if c =? ch "^" then Some Tok.Caret
  else if c =? ch "%" then Some Tok.Percent
  else if c =? ch "/" then Some Tok.Slash
  else if c =? ch "*" then Some Tok.Star
  else None.

Definition is_operator_char (c : Z) : bool := bool_decide (c ∈ bytes_of "+.=!<>-").

(** The word that starts with [c]: a keyword or an identifier. *)
Definition read_word (c : Z) : L Tok :=
  word ← push_while is_word_char [c];
  match keyword word with
  | Some kw => maybe_compound kw
  | None => mret (Tok.Ident word)
  end.

(** The token that starts with the character [c] read at [start]. *)
Definition read_token (c start : Z) : L Tok :=
  match punctuation c with
  | Some tok => mret tok
  | None =>
      if is_operator_char c then read_operator c start
      else if (c =? 39) || (c =? 34) then s ← read_string c; mret (Tok.StrLit s)
      else if c =? ch "`" then s ← read_backtick_ident; mret (Tok.Ident s)
      else if c =? ch "$" then read_parameter start
      else if is_ascii_digit c then read_number c
      else if is_alphabetic c || (c =? ch "_") then read_word c
      else
        stop ← gets pos;
        error ParseErrorKind.UnexpectedChar start stop
  end.

(** A token with the byte offsets of its first character and of the character after it. *)
Record Spanned := mkSpanned { tk_start : Z; tk : Tok; tk_end : Z }.

(** [Iterator::next]; [None] is the end of the tokens. *)
Definition next : L (option Spanned) :=
  skip_whitespace_and_comments;;
  start ← gets pos;
  c ← advance;
  match c with
  | None => mret None
  | Some c =>
      tok ← read_token c start;
      stop ← gets pos;
      mret (Some (mkSpanned start tok stop))
  end.

(** [Lexer::new(input).collect::<Result<Vec<_>, _>>()] *)
Definition collect : L (list Spanned) :=
  loop (fun acc =>
    t ← next;
    match t with
    | Some t => mret (inl (acc ++ [t]))
    | None => mret (inr acc)
    end) [].

Definition tokenize (input : str) : option (result ParseError (list Spanned)) :=
  match collect (new input) with
  | Some (Ok (toks, _)) => Some (Ok toks)
  | Some (Err e) => Some (Err e)
  | None => None
  end.
End lexer.

(** ** Termination and positions *)

(** [lx'] is reached from [lx] by consuming whole characters. *)
Definition advances (lx lx' : Lexer) : Prop :=
  exists consumed, rest lx = consumed ++ rest lx' /\ pos lx' = pos lx + str_len consumed.

Lemma str_len_nonneg s : 0 <= str_len s.
Proof. unfold str_len. lia. Qed.

Lemma str_len_app s t : str_len (s ++ t) = str_len s + str_len t.
Proof. unfold str_len, utf8. rewrite bind_app, length_app. lia. Qed.

Lemma str_len_cons c s : str_len (c :: s) = len_utf8 c + str_len s.
Proof. unfold str_len, utf8, len_utf8. rewrite bind_cons, length_app. lia. Qed.

Lemma len_utf8_pos c : 0 < len_utf8 c.
Proof. unfold len_utf8, utf8_char. repeat case_match; simpl; lia. Qed.

Lemma len_utf8_ascii c : c < 128 -> len_utf8 c = 1.
Proof. intros. unfold len_utf8, utf8_char. case_match; [done|lia]. Qed.

Lemma str_len_ascii s : Forall (fun c => c < 128) s -> str_len s = lenZ s.
Proof.
  induction 1 as [|c s Hc _ IH]; [done|]. rewrite str_len_cons, len_utf8_ascii, IH by done.
  simpl. lia.
Qed.

Lemma str_len_length s : lenZ s <= str_len s.
Proof.
  induction s as [|c s IH]; [done|]. rewrite str_len_cons. pose proof (len_utf8_pos c). simpl. lia.
Qed.

#[global] Instance advances_preorder : PreOrder advances.
Proof.
  split.
  - intros lx. exists []. split; [done|]. change (str_len []) with 0. lia.
  - intros l1 l2 l3 (c1&H1&P1) (c2&H2&P2). exists (c1 ++ c2).
    rewrite H1, H2, str_len_app, app_assoc. split; [done|lia].
Qed.

(** The byte offset of the end of the input. *)
Definition total (lx : Lexer) : Z := pos lx + str_len (rest lx).

Lemma advances_bounds lx lx' :
  advances lx lx' ->
  pos lx <= pos lx' <= total lx /\ total lx' = total lx /\ (remaining lx' <= remaining lx)%nat.
Proof.
  intros (c&H&P). unfold total, remaining, Lexer_remaining. rewrite H, str_len_app, length_app.
  pose proof (str_len_nonneg c). pose proof (str_len_nonneg (rest lx')). lia.
Qed.

Lemma advances_remaining lx lx' :
  advances lx lx' -> lx' = lx \/ (pos lx < pos lx' /\ (remaining lx' < remaining lx)%nat).
Proof.
  destruct lx as [r p], lx' as [r' p']. intros ([|c cs]&H&P); simpl in *.
  - left. change (str_len []) with 0 in P. f_equal; [done|lia].
  - right. unfold remaining, Lexer_remaining. simpl. rewrite H. simpl. rewrite length_app.
    pose proof (len_utf8_pos c). pose proof (str_len_nonneg cs). rewrite str_len_cons in P. lia.
Qed.

Lemma advances_cons c s p : advances (mkLexer (c :: s) p) (mkLexer s (p + len_utf8 c)).
Proof. exists [c]. rewrite str_len_cons. change (str_len []) with 0. simpl. split; [done|lia]. Qed.

(** The position of an error lies between [lo] and [hi]. *)
Definition error_within (lo hi : Z) (e : ParseError) : Prop :=
  lo <= sp_start (pe_span e) <= sp_end (pe_span e) /\ sp_end (pe_span e) <= hi.

Lemma advance_run lx :
  advance lx = match rest lx with
               | [] => Some (Ok (None, lx))
               | c :: s => Some (Ok (Some c, mkLexer s (pos lx + len_utf8 c)))
               end.
Proof. done. Qed.

(** A step of [advance] in a proof about [wp]. *)
Lemma wp_advance lx (Q : option Z -> Lexer -> Prop) F :
  (rest lx = [] -> Q None lx) ->
  (forall c lx', rest lx = c :: rest lx' -> pos lx' = pos lx + len_utf8 c -> advances lx lx' ->
     (remaining lx' < remaining lx)%nat -> Q (Some c) lx') ->
  wp advance lx Q F.
Proof.
  intros H1 H2. destruct lx as [[|c s] p]; [by apply H1|].
  apply (H2 c (mkLexer s (p + len_utf8 c))); [done|done|apply advances_cons|].
  unfold remaining, Lexer_remaining. simpl. lia.
Qed.

(** ** The loops over characters *)

Lemma span_while_app p s : (span_while p s).1 ++ (span_while p s).2 = s.
Proof. induction s as [|c s IH]; [done|]. simpl. case_match; simpl; congruence. Qed.

Lemma span_while_all p s : Forall (fun c => p c = true) (span_while p s).1.
Proof. induction s as [|c s IH]; [constructor|]. simpl. case_match; simpl; by constructor. Qed.

Lemma span_while_stop p s c r : (span_while p s).2 = c :: r -> p c = false.
Proof.
  induction s as [|c' s IH]; [done|]. simpl. destruct (p c') eqn:E; simpl; [done|].
  by intros [= -> ->].
Qed.

(** A prefix of [p] characters that ends where [p] stops holding is the span. *)
Lemma span_while_prefix p s r :
  Forall (fun c => p c = true) s -> match r with c :: _ => p c = false | [] => True end ->
  span_while p (s ++ r) = (s, r).
Proof.
  intros Hs Hr. induction Hs as [|c s Hc _ IH]; simpl.
  - destruct r as [|c r]; simpl; [done|]. by rewrite Hr.
  - by rewrite Hc, IH.
Qed.

(** The state after the span of [p]. *)
Definition after_span (p : Z -> bool) (lx : Lexer) : Lexer :=
  mkLexer (span_while p (rest lx)).2 (pos lx + str_len (span_while p (rest lx)).1).

Lemma after_span_advances p lx : advances lx (after_span p lx).
Proof. exists (span_while p (rest lx)).1. simpl. by rewrite span_while_app. Qed.

Lemma push_while_iter p fuel s lx :
  (remaining lx < fuel)%nat ->
  iter fuel (push_body p) s lx
  = Some (Ok (s ++ (span_while p (rest lx)).1, after_span p lx)).
Proof.
  revert s lx. induction fuel as [|fuel IH]; intros s [[|c r] q] Hf; [lia..| |];
    unfold after_span; cbn [rest pos span_while].
  - rewrite app_nil_r, Z.add_0_r. by apply iter_break; [|lia].
  - destruct (p c) eqn:E; cbn [fst snd].
    + rewrite (iter_continue _ _ _ _ (s ++ [c]) (mkLexer r (q + len_utf8 c))).
      * rewrite IH by (unfold remaining, Lexer_remaining in *; simpl in *; lia).
        unfold after_span. simpl. by rewrite <-app_assoc, str_len_cons, Z.add_assoc.
      * cbv [push_body mbind M_bind gets peek_is peek head rest]. by rewrite E.
    + rewrite app_nil_r, Z.add_0_r. apply iter_break; [|lia].
      cbv [push_body mbind M_bind gets peek_is peek head rest]. by rewrite E.
Qed.

Lemma push_while_run p s lx :
  push_while p s lx = Some (Ok (s ++ (span_while p (rest lx)).1, after_span p lx)).
Proof. unfold push_while, loop. apply push_while_iter. lia. Qed.

Lemma advance_while_iter p fuel lx :
  (remaining lx < fuel)%nat -> iter fuel (advance_body p) tt lx = Some (Ok (tt, after_span p lx)).
Proof.
  revert lx. induction fuel as [|fuel IH]; intros [[|c r] q] Hf; [lia..| |];
    unfold after_span; cbn [rest pos span_while].
  - rewrite Z.add_0_r. by apply iter_break; [|lia].
  - destruct (p c) eqn:E; cbn [fst snd].
    + rewrite (iter_continue _ _ _ _ tt (mkLexer r (q + len_utf8 c))).
      * rewrite IH by (unfold remaining, Lexer_remaining in *; simpl in *; lia).
        unfold after_span. simpl. by rewrite str_len_cons, Z.add_assoc.
      * cbv [advance_body mbind M_bind gets peek_is peek head rest]. by rewrite E.
    + rewrite Z.add_0_r. apply iter_break; [|lia].
      cbv [advance_body mbind M_bind gets peek_is peek head rest]. by rewrite E.
Qed.

Lemma advance_while_run p lx : advance_while p lx = Some (Ok (tt, after_span p lx)).
Proof. unfold advance_while, loop. apply advance_while_iter. lia. Qed.

(** Skipping the bytes of a prefix. *)
Lemma skip_bytes_prefix s r : skip_bytes (str_len s) (s ++ r) = Some r.
Proof.
  induction s as [|c s IH]; [by destruct r|]. cbn [app skip_bytes]. rewrite str_len_cons.
  pose proof (len_utf8_pos c). pose proof (str_len_nonneg s).
  destruct (Z.eqb_spec (len_utf8 c + str_len s) 0); [lia|].
  destruct (Z.ltb_spec (len_utf8 c + str_len s) (len_utf8 c)); [lia|].
  by replace (len_utf8 c + str_len s - len_utf8 c) with (str_len s) by lia.
Qed.

Lemma advance_bytes_run s r p n :
  n = str_len s -> advance_bytes n (mkLexer (s ++ r) p) = Some (Ok (tt, mkLexer r (p + n))).
Proof. intros ->. unfold advance_bytes. cbn [rest pos]. by rewrite skip_bytes_prefix. Qed.

Lemma starts_with_true prefix lx :
  starts_with prefix lx = true <-> exists r, rest lx = prefix ++ r.
Proof.
  unfold starts_with. rewrite bool_decide_eq_true. split.
  - intros Ht. exists (drop (length prefix) (rest lx)). by rewrite <-Ht at 1; rewrite take_drop.
  - intros (r&->). by rewrite take_app_length.
Qed.

(** ** Every scan stops *)

(** [m] run from [lx] ends, consumes whole characters, and reports errors from [lo] on. *)
Definition steps {A} (lo : Z) (m : L A) (lx : Lexer) : Prop :=
  wp m lx (fun _ lx' => advances lx lx') (error_within lo (total lx)).

(** As [steps] for the body of a loop, whose next iteration starts further on. *)
Definition progresses {A B} (lo : Z) (m : L (A + B)) (lx : Lexer) : Prop :=
  wp m lx (fun r lx' =>
    advances lx lx' /\
    match r with inl _ => (remaining lx' < remaining lx)%nat | inr _ => True end)
    (error_within lo (total lx)).

Lemma steps_ret {A} lo (a : A) lx : steps lo (mret a) lx.
Proof. apply wp_ret. reflexivity. Qed.

Lemma steps_gets {A B} lo (g : Lexer -> A) (f : A -> L B) lx :
  steps lo (f (g lx)) lx -> steps lo (gets g ≫= f) lx.
Proof. intros H. apply wp_bind, wp_gets, H. Qed.

Lemma steps_weaken {A} lo (m : L A) lx lx' :
  advances lx lx' -> steps lo m lx' ->
  wp m lx' (fun _ lx'' => advances lx lx'') (error_within lo (total lx)).
Proof.
  intros Ha Hm. destruct (advances_bounds _ _ Ha) as (_&Ht&_). rewrite <-Ht.
  eapply wp_mono; [exact Hm| |done]. intros. by transitivity lx'.
Qed.

Lemma steps_bind {A B} lo (m : L A) (f : A -> L B) lx :
  steps lo m lx -> (forall a lx', advances lx lx' -> steps lo (f a) lx') -> steps lo (m ≫= f) lx.
Proof.
  intros Hm Hf. apply wp_bind. eapply wp_mono; [exact Hm| |done]. intros a lx' Ha.
  apply steps_weaken; [done|]. by apply Hf.
Qed.

Lemma steps_error {A} lo kind start lx :
  lo <= start <= pos lx -> steps lo (stop ← gets pos; error (A:=A) kind start stop) lx.
Proof.
  intros H. apply steps_gets. apply wp_fail. unfold error_within, total. simpl.
  pose proof (str_len_nonneg (rest lx)). lia.
Qed.

Lemma steps_advance lo lx : steps lo advance lx.
Proof. apply wp_advance; [reflexivity|done]. Qed.

(** After a character has been read, the rest starts after it. *)
Lemma steps_next {B} lo (f : option Z -> L B) lx :
  (rest lx = [] -> steps lo (f None) lx) ->
  (forall c lx', rest lx = c :: rest lx' -> pos lx' = pos lx + len_utf8 c -> steps lo (f (Some c)) lx') ->
  steps lo (advance ≫= f) lx.
Proof.
  intros H1 H2. apply wp_bind, wp_advance.
  - intros Hr. by apply H1.
  - intros c lx' Hr Hp Ha _. apply steps_weaken; [done|]. by apply H2.
Qed.

Lemma steps_push_while lo p s lx : steps lo (push_while p s) lx.
Proof. unfold steps, wp. rewrite push_while_run. apply after_span_advances. Qed.

Lemma steps_advance_while lo p lx : steps lo (advance_while p) lx.
Proof. unfold steps, wp. rewrite advance_while_run. apply after_span_advances. Qed.

Lemma steps_advance_bytes lo s r n lx :
  rest lx = s ++ r -> n = str_len s -> steps lo (advance_bytes n) lx.
Proof.
  destruct lx as [r0 p]. simpl. intros -> Hn. unfold steps, wp.
  rewrite (advance_bytes_run s r p n Hn). exists s. by subst.
Qed.

Lemma steps_loop {A B} lo (body : A -> L (A + B)) a lx :
  (forall a lx', advances lx lx' -> progresses lo (body a) lx') -> steps lo (loop body a) lx.
Proof.
  intros Hbody. unfold steps. apply (wp_loop body (fun _ lx' => advances lx lx')); [reflexivity|].
  intros a' lx' Ha. destruct (advances_bounds _ _ Ha) as (_&Ht&_). rewrite <-Ht.
  eapply wp_mono; [by apply Hbody| |done].
  intros [a''|b] lx'' [H1 H2]; [split; [by transitivity lx'|done]|by transitivity lx'].
Qed.

Lemma progresses_break {A B C} lo (m : L B) (b : C) lx :
  steps lo m lx -> progresses (A:=A) lo (m ;; mret (inr b)) lx.
Proof.
  intros Hm. apply wp_bind. eapply wp_mono; [exact Hm| |done]. intros a lx' Ha. by apply wp_ret.
Qed.

Lemma progresses_bind {A B C} lo (m : L A) (f : A -> L (B + C)) lx :
  steps lo m lx -> (forall a lx', advances lx lx' -> progresses lo (f a) lx') ->
  progresses lo (m ≫= f) lx.
Proof.
  intros Hm Hf. apply wp_bind. eapply wp_mono; [exact Hm| |done]. intros a lx' Ha.
  destruct (advances_bounds _ _ Ha) as (_&Ht&Hr). rewrite <-Ht.
  eapply wp_mono; [by apply Hf| |done].
  intros r lx'' [Ha' Hlt]. split; [by transitivity lx'|]. destruct r; [lia|done].
Qed.

(** A body that has read a character may do anything after it. *)
Lemma progresses_next {A B} lo (f : option Z -> L (A + B)) lx :
  (rest lx = [] -> progresses lo (f None) lx) ->
  (forall c lx', rest lx = c :: rest lx' -> pos lx' = pos lx + len_utf8 c -> advances lx lx' ->
     steps lo (f (Some c)) lx') ->
  progresses lo (advance ≫= f) lx.
Proof.
  intros H1 H2. apply wp_bind, wp_advance; [done|]. intros c lx' Hr Hp Ha Hlt.
  destruct (advances_bounds _ _ Ha) as (_&Ht&_). rewrite <-Ht.
  eapply wp_mono; [by apply (H2 c lx')| |done].
  intros r lx'' Ha'. split; [by transitivity lx'|]. destruct r; [|done].
  destruct (advances_bounds _ _ Ha') as (_&_&Hle). lia.
Qed.

(** Reading a character leaves the rest of the code after it. *)
Ltac steps_tac :=
  repeat first
    [ apply steps_ret
    | apply steps_error; simpl in *; lia
    | apply steps_advance
    | apply steps_push_while
    | apply steps_advance_while
    | apply steps_gets
    | (apply steps_bind; [|intros ? ? ?])
    | lazymatch goal with
      | |- steps _ (if ?b then _ else _) _ => destruct b
      | |- steps _ (match ?x with _ => _ end) _ => destruct x
      end ].

Lemma progresses_gets {A B C} lo (g : Lexer -> A) (f : A -> L (B + C)) lx :
  progresses lo (f (g lx)) lx -> progresses lo (gets g ≫= f) lx.
Proof. intros H. apply wp_bind, wp_gets, H. Qed.

(** [m; continue] where [m] consumes something. *)
Lemma progresses_continue {A B C} lo (m : L A) (b : B) lx :
  steps lo m lx -> (forall a lx', m lx = Some (Ok (a, lx')) -> lx' <> lx) ->
  progresses (B:=C) lo (m ;; mret (inl b)) lx.
Proof.
  intros Hm Hne. apply wp_bind. unfold steps, wp in *.
  destruct (m lx) as [[[a lx']|e]|] eqn:E; [|done..].
  cbn. split; [done|]. destruct (advances_remaining _ _ Hm) as [->|[_ Hlt]]; [|done].
  by destruct (Hne a lx).
Qed.

Lemma progresses_error {A B} lo kind start lx :
  lo <= start <= pos lx -> progresses lo (stop ← gets pos; error (A:=A + B) kind start stop) lx.
Proof.
  intros H. apply progresses_gets. apply wp_fail. unfold error_within, total. simpl.
  pose proof (str_len_nonneg (rest lx)). lia.
Qed.

Lemma steps_skip_block_comment lo start lx :
  lo <= start <= pos lx -> steps lo (skip_block_comment start) lx.
Proof.
  intros Hs. apply steps_loop. intros u lx' Ha. apply progresses_gets.
  destruct (starts_with _ lx') eqn:E.
  - apply starts_with_true in E as (r&Hr).
    apply progresses_break. by eapply steps_advance_bytes.
  - apply progresses_next; intros.
    + apply progresses_error. pose proof (advances_bounds _ _ Ha). lia.
    + apply steps_ret.
Qed.

Lemma progresses_skip_comment lo lx : lo <= pos lx -> progresses lo skip_comment lx.
Proof.
  intros Hlo. apply progresses_gets. destruct (starts_with (bytes_of "//") lx) eqn:El.
  - apply progresses_continue; [apply steps_advance_while|]. intros u lx' Hrun Heq.
    rewrite advance_while_run in Hrun. injection Hrun as _ <-.
    apply starts_with_true in El as (r&Hr). apply (f_equal rest) in Heq. simpl in Heq.
    pose proof (span_while_stop (fun c => negb (c =? 10)) (rest lx)) as Hst.
    rewrite Heq, Hr in Hst. by specialize (Hst 47 (47 :: r) eq_refl).
  - apply progresses_gets. destruct (starts_with (bytes_of "/*") lx) eqn:Eb; [|by apply wp_ret].
    apply starts_with_true in Eb as (r&Hr). apply progresses_gets.
    destruct lx as [r0 p]. cbn [rest] in Hr. subst r0.
    assert (Hadv : advances (mkLexer (bytes_of "/*" ++ r) p) (mkLexer r (p + 2)))
      by (by exists (bytes_of "/*")).
    apply wp_bind. unfold wp at 1. rewrite (advance_bytes_run (bytes_of "/*") r p 2 eq_refl).
    destruct (advances_bounds _ _ Hadv) as (_&Ht&_). rewrite <-Ht.
    apply wp_bind. eapply wp_mono; [apply (steps_skip_block_comment lo p); simpl in *; lia| |done].
    intros u lx3 Ha3. apply wp_ret. split; [by transitivity (mkLexer r (p + 2))|].
    destruct (advances_bounds _ _ Ha3) as (_&_&Hr3).
    unfold remaining, Lexer_remaining in *. simpl in *. lia.
Qed.

Lemma steps_skip lo lx : lo <= pos lx -> steps lo skip_whitespace_and_comments lx.
Proof.
  intros Hlo. apply steps_loop. intros _ lx1 Ha1.
  apply progresses_bind; [apply steps_advance_while|]. intros _ lx2 Ha2.
  apply progresses_skip_comment.
  pose proof (advances_bounds _ _ Ha1). pose proof (advances_bounds _ _ Ha2). lia.
Qed.

Section unicode.
Context `{Unicode}.

Lemma keyword_follows_inv kw lx :
  keyword_follows kw lx = true -> Forall (fun c => 0 <= c < 128) (bytes_of kw) ->
  exists w r, (after_span is_ascii_whitespace lx).(rest) = w ++ r /\
    str_len w = lenZ (bytes_of kw).
Proof.
  unfold keyword_follows, peek_keyword, eq_ignore_ascii_case. intros Hk Hasc.
  set (t := (span_while is_ascii_whitespace (rest lx)).2) in *.
  pose proof (span_while_app is_word_char t) as Ht.
  exists (span_while is_word_char t).1, (span_while is_word_char t).2. split; [done|].
  destruct (span_while is_word_char t).1 as [|c w] eqn:E; [done|].
  apply bool_decide_eq_true in Hk. rewrite str_len_ascii.
  - by rewrite <-(length_fmap to_ascii_lowercase (c :: w)), Hk, length_fmap.
  - assert (Hl : Forall (fun c => c < 128) (to_ascii_lowercase <$> c :: w)).
    { rewrite Hk. apply Forall_fmap. eapply Forall_impl; [exact Hasc|]. intros d Hd. simpl in Hd.
      unfold compose, to_ascii_lowercase, is_ascii_upper, in_range. case_match; lia. }
    apply Forall_fmap in Hl. eapply Forall_impl; [exact Hl|]. intros d.
    unfold compose, to_ascii_lowercase. case_match; lia.
Qed.

Lemma steps_skip_keyword lo kw n lx :
  keyword_follows kw lx = true -> forallb (in_range 0 127) (bytes_of kw) = true ->
  n = lenZ (bytes_of kw) -> steps lo (skip_ws_and_advance_n n) lx.
Proof.
  intros Hk Hasc ->. apply keyword_follows_inv in Hk as (w&r&Hr&Hl).
  - apply wp_bind. unfold wp at 1. rewrite advance_while_run.
    apply steps_weaken; [apply after_span_advances|]. by eapply steps_advance_bytes.
  - apply Forall_forall. intros c Hc. rewrite forallb_forall in Hasc.
    specialize (Hasc c (proj1 (list_elem_of_In _ _) Hc)). unfold in_range in Hasc. lia.
Qed.

Lemma steps_maybe_compound lo tok lx : steps lo (maybe_compound tok) lx.
Proof.
  destruct tok; try apply steps_ret; cbn [maybe_compound]; apply steps_gets;
    destruct (keyword_follows _ lx) eqn:E;
    try (apply steps_bind; [by eapply steps_skip_keyword|intros; apply steps_ret]);
    try apply steps_ret.
  apply steps_gets. destruct (keyword_follows "NOT" lx) eqn:E2; [|apply steps_ret].
  apply steps_gets. apply wp_bind.
  eapply wp_mono; [by eapply (steps_skip_keyword lo "NOT" 3)| |done]. intros u lx' Ha.
  apply wp_bind, wp_gets. destruct (keyword_follows "NULL" lx') eqn:E3.
  - apply steps_weaken; [done|]. apply steps_bind; [|intros; apply steps_ret].
    by eapply steps_skip_keyword.
  - apply wp_bind, wp_put, wp_ret. reflexivity.
Qed.
End unicode.

Section tokens.
Context `{Unicode}.

Lemma peek_is_rest p lx : peek_is p lx = true -> rest lx <> [].
Proof. unfold peek_is, peek. by destruct (rest lx). Qed.

Lemma steps_take_chars lo n s lx : steps lo (take_chars n s) lx.
Proof.
  revert s lx. induction n as [|n IH]; intros s lx; [apply steps_ret|].
  apply steps_next; intros; [apply steps_ret|apply IH].
Qed.

Lemma steps_read_escape lo s lx : lo < pos lx -> steps lo (read_escape s) lx.
Proof.
  intros Hlo. apply steps_next; intros; [apply steps_ret|].
  repeat (case_match; [apply steps_ret|]). case_match; [|apply steps_ret].
  apply steps_bind; [|intros; apply steps_ret]. apply steps_gets.
  pose proof (len_utf8_pos c). apply steps_bind; [apply steps_take_chars|].
  intros hex lx2 Ha%advances_bounds. case_match; [apply steps_ret|apply steps_error; lia].
Qed.

Lemma steps_read_string lo quote lx : lo < pos lx -> steps lo (read_string quote) lx.
Proof.
  intros Hlo. apply steps_gets, steps_loop. intros s lx1 Ha1%advances_bounds.
  apply progresses_next; intros; [apply progresses_error; lia|].
  pose proof (len_utf8_pos c). case_match; [apply steps_ret|]. case_match; [|apply steps_ret].
  apply steps_bind; [apply steps_read_escape; lia|]. intros [s'|] *; intros; apply steps_ret.
Qed.

Lemma steps_read_backtick_ident lo lx : lo < pos lx -> steps lo read_backtick_ident lx.
Proof.
  intros Hlo. apply steps_gets, steps_loop. intros s lx1 Ha1%advances_bounds.
  apply progresses_next; intros; [apply progresses_error; lia|].
  pose proof (len_utf8_pos c). case_match; [apply steps_error; lia|].
  case_match; apply steps_ret.
Qed.

Lemma steps_number_or_error lo start v tok lx :
  lo <= start <= pos lx -> steps lo (number_or_error start v tok) lx.
Proof. intros Hs. destruct v; [apply steps_ret|by apply steps_error]. Qed.

Lemma steps_push_next lo s lx : rest lx <> [] -> steps lo (push_next s) lx.
Proof. intros Hr. apply steps_next; intros; [done|apply steps_ret]. Qed.

Lemma steps_read_exponent lo s lx : peek_exponent lx = true -> steps lo (read_exponent s) lx.
Proof.
  intros He%peek_is_rest. apply steps_bind; [by apply steps_push_next|]. intros s1 lx1 _.
  apply steps_gets, steps_bind; [|intros; apply steps_push_while].
  destruct (peek_is _ lx1) eqn:E; [|apply steps_ret]. by eapply steps_push_next, peek_is_rest.
Qed.

Lemma steps_exponent_or_not lo s lx (b : bool) :
  peek_exponent lx = b -> steps lo (if b then read_exponent s else mret s) lx.
Proof. intros E. destruct b; [by apply steps_read_exponent|apply steps_ret]. Qed.

Lemma steps_read_fraction lo s lx : steps lo (read_fraction s) lx.
Proof.
  apply steps_gets. destruct (peek_is _ lx) eqn:E; [|apply steps_ret].
  apply steps_gets. case_match; [|apply steps_ret]. case_match; [|apply steps_ret].
  apply steps_bind; [by eapply steps_push_next, peek_is_rest|]. intros s1 lx1 _.
  apply steps_bind; [apply steps_push_while|intros; apply steps_ret].
Qed.

Lemma steps_read_number lo first lx :
  lo <= pos lx - len_utf8 first -> steps lo (read_number first) lx.
Proof.
  intros Hlo. pose proof (len_utf8_pos first).
  assert (Hnum : forall v tok lx', advances lx lx' ->
    steps lo (number_or_error (pos lx - len_utf8 first) v tok) lx').
  { intros v tok lx' Ha%advances_bounds. apply steps_number_or_error. lia. }
  assert (Hradix : forall p radix,
    rest lx <> [] ->
    steps lo (s ← push_next [first]; s ← push_while p s;
              number_or_error (pos lx - len_utf8 first)
                (from_str_radix i128_max radix (drop 2 s)) Tok.IntLit) lx).
  { intros p radix Hr. apply steps_bind; [by apply steps_push_next|]. intros s1 lx1 Ha1.
    apply steps_bind; [apply steps_push_while|]. intros s2 lx2 Ha2. apply Hnum. by transitivity lx1. }
  apply steps_gets, steps_gets. unfold peek.
  destruct (rest lx) as [|c r] eqn:Er; cbn [head]; rewrite ?andb_false_r;
    repeat (case_match; [by apply Hradix|]);
    (apply steps_bind; [apply steps_push_while|]; intros s1 lx1 Ha1;
     apply steps_bind; [apply steps_read_fraction|]; intros [fr s2] lx2 Ha2;
     apply steps_gets, steps_bind; [by apply steps_exponent_or_not|]; intros s3 lx3 Ha3;
     case_match; apply Hnum; by transitivity lx1; [|transitivity lx2]).
Qed.

Lemma steps_read_leading_dot_float lo start lx :
  lo <= start <= pos lx -> steps lo (read_leading_dot_float start) lx.
Proof.
  intros Hs. apply steps_bind; [apply steps_push_while|]. intros s1 lx1 Ha1%advances_bounds.
  apply steps_gets, steps_bind; [by apply steps_exponent_or_not|].
  intros s2 lx2 Ha2%advances_bounds. apply steps_number_or_error. lia.
Qed.

Lemma steps_read_parameter lo start lx :
  lo <= start <= pos lx -> steps lo (read_parameter start) lx.
Proof.
  intros Hs. apply steps_bind; [apply steps_push_while|]. intros s1 lx1 Ha1%advances_bounds.
  destruct s1 as [|c s1]; [apply steps_error; lia|]. cbv zeta.
  destruct (_ && _); [apply steps_error; lia|apply steps_ret].
Qed.

Lemma steps_advance_ret {A} lo (a : A) lx : steps lo (advance ;; mret a) lx.
Proof. apply steps_bind; [apply steps_advance|intros; apply steps_ret]. Qed.

Lemma steps_one_or_two lo second two one lx : steps lo (one_or_two second two one) lx.
Proof. apply steps_gets; cbv beta. case_match; [apply steps_advance_ret|apply steps_ret]. Qed.

Lemma steps_read_operator lo c start lx :
  is_operator_char c = true -> lo <= start <= pos lx -> steps lo (read_operator c start) lx.
Proof.
  intros Hop Hs. unfold read_operator.
  repeat (case_match; [first [apply steps_one_or_two
    |apply steps_gets; cbv beta; repeat (case_match; [apply steps_advance_ret|]);
     first [apply steps_ret|apply steps_error; lia
           |apply steps_gets; cbv beta; case_match; [by apply steps_read_leading_dot_float|apply steps_ret]]]|]).
  exfalso. unfold is_operator_char in Hop. apply bool_decide_eq_true in Hop.
  repeat (apply elem_of_cons in Hop as [->|Hop]; [done|]). by apply not_elem_of_nil in Hop.
Qed.

Lemma steps_read_token lo c start lx :
  lo <= start -> pos lx = start + len_utf8 c -> steps lo (read_token c start) lx.
Proof.
  intros Hlo Hp. pose proof (len_utf8_pos c). unfold read_token.
  destruct (punctuation c); [apply steps_ret|].
  case_match; [apply steps_read_operator; [done|lia]|].
  case_match; [apply steps_bind; [apply steps_read_string; lia|intros; apply steps_ret]|].
  case_match; [apply steps_bind; [apply steps_read_backtick_ident; lia|intros; apply steps_ret]|].
  case_match; [apply steps_read_parameter; lia|].
  case_match; [apply steps_read_number; lia|].
  case_match; [|apply steps_error; lia].
  apply steps_bind; [apply steps_push_while|]. intros word lx1 _.
  case_match; [apply steps_maybe_compound|apply steps_ret].
Qed.
End tokens.

(** ** The token list *)

(** A byte offset at which a character of [input] starts, or its end. *)
Definition boundary (input : str) (p : Z) : Prop :=
  exists pre post, input = pre ++ post /\ p = str_len pre.

(** The offsets of the tokens of [input]: on character boundaries, none empty, in order and
    without overlap. *)
Definition spans_ok (input : str) (toks : list Spanned) : Prop :=
  Forall (fun t => boundary input (tk_start t) /\ boundary input (tk_end t) /\
                   tk_start t < tk_end t) toks /\
  StronglySorted (fun t u => tk_end t <= tk_start u) toks.

Lemma advances_boundary input lx : advances (new input) lx -> boundary input (pos lx).
Proof. intros (c&Hr&Hp). exists c, (rest lx). simpl in *. split; [done|lia]. Qed.

Lemma spans_ok_snoc input toks t :
  spans_ok input toks -> Forall (fun u => tk_end u <= tk_start t) toks ->
  boundary input (tk_start t) -> boundary input (tk_end t) -> tk_start t < tk_end t ->
  spans_ok input (toks ++ [t]).
Proof.
  intros [Ha Hs] Hle H1 H2 H3. split.
  - apply Forall_app. split; [done|]. by repeat constructor.
  - apply StronglySorted_app_2; [|done|by repeat constructor].
    intros u v Hu Hv%list_elem_of_singleton. subst v. rewrite Forall_forall in Hle. by apply Hle.
Qed.

Section next.
Context `{Unicode}.

(** What one call of the iterator does. *)
Lemma wp_next lx :
  wp next lx (fun t lx' => advances lx lx' /\
    match t with
    | None => rest lx' = []
    | Some t => exists lx1, advances lx lx1 /\ tk_start t = pos lx1 /\ tk_end t = pos lx' /\
                  pos lx1 < pos lx' /\ (remaining lx' < remaining lx)%nat
    end) (error_within (pos lx) (total lx)).
Proof.
  apply wp_bind. eapply wp_mono; [by apply (steps_skip (pos lx))| |done].
  intros u lx1 Ha1. apply wp_bind, wp_gets, wp_bind. destruct (advances_bounds _ _ Ha1) as (Hp1&Ht1&Hr1).
  apply wp_advance; [intros; by apply wp_ret|]. intros c lx2 Hr2 Hp2 Ha2 Hlt2.
  destruct (advances_bounds _ _ Ha2) as (_&Ht2&_). rewrite <-Ht1, <-Ht2.
  apply wp_bind. eapply wp_mono; [by apply (steps_read_token (pos lx)); [lia|]| |done].
  intros tok lx3 Ha3. apply wp_bind, wp_gets, wp_ret. destruct (advances_bounds _ _ Ha3) as (Hp3&_&Hr3).
  assert (Ha : advances lx lx3) by (by transitivity lx1; [|transitivity lx2]).
  pose proof (len_utf8_pos c). split; [done|]. exists lx1. simpl. repeat split; [done|lia..].
Qed.

Lemma wp_collect input :
  wp collect (new input) (fun toks lx => spans_ok input toks /\ rest lx = [])
    (error_within 0 (str_len input)).
Proof.
  unfold collect.
  apply (wp_loop _ (fun acc lx => advances (new input) lx /\ spans_ok input acc /\
                                  Forall (fun t => tk_end t <= pos lx) acc)).
  - split; [reflexivity|]. split; [split|]; constructor.
  - intros acc lx (Ha&Hok&Hle). destruct (advances_bounds _ _ Ha) as (Hp&Ht&_).
    assert (Hin : total lx = str_len input) by (rewrite Ht; unfold total; simpl; lia).
    apply wp_bind. eapply wp_mono; [apply wp_next| |].
    + intros [t|] lx' [Ha' Hn]; apply wp_ret; [|done].
      destruct Hn as (lx1&Ha1&Hs&He&Hlt&Hrem). split; [|done].
      split; [by transitivity lx|]. destruct (advances_bounds _ _ Ha1) as (Hp1&_&_). split.
      * apply spans_ok_snoc; [done|..|lia].
        -- eapply Forall_impl; [exact Hle|]. simpl. lia.
        -- rewrite Hs. apply advances_boundary. by transitivity lx.
        -- rewrite He. apply advances_boundary. by transitivity lx.
      * apply Forall_app. split; [eapply Forall_impl; [exact Hle|]; simpl; lia|].
        repeat constructor. lia.
    + intros e [? ?]. rewrite Hin in *. split; simpl in *; lia.
Qed.

(** Integer literals are never negative and fit an [i128]. *)
Definition tok_ok (t : Tok) : Prop :=
  match t with Tok.IntLit n => 0 <= n <= i128_max | _ => True end.

Lemma parse_digits_nonneg radix acc s n :
  0 <= acc -> 0 <= radix -> parse_digits radix acc s = Some n -> 0 <= n.
Proof.
  revert acc. induction s as [|c s IH]; simpl; intros acc Ha Hr Hp; [by simplify_eq|].
  destruct (digit_value c <? radix); [|done]. eapply IH; [|done|exact Hp].
  assert (0 <= digit_value c); [|nia]. unfold digit_value, in_range. repeat case_match; lia.
Qed.

Lemma from_str_radix_range max radix s n :
  0 <= radix -> from_str_radix max radix s = Some n -> 0 <= n <= max.
Proof.
  intros Hr. unfold from_str_radix. generalize (match s with c :: s' => if c =? ch "+" then s' else s | [] => s end).
  intros [|c d]; [done|]. destruct (parse_digits radix 0 (c :: d)) as [m|] eqn:E; [|done]. simpl.
  apply parse_digits_nonneg in E; [|lia..]. destruct (Z.leb_spec m max); [|done]. intros [= <-]. lia.
Qed.

Lemma yields_number start radix s :
  0 <= radix -> yields (number_or_error start (from_str_radix i128_max radix s) Tok.IntLit) tok_ok.
Proof.
  intros Hr. unfold number_or_error. destruct (from_str_radix _ _ _) as [m|] eqn:E.
  - apply yields_ret. by apply from_str_radix_range in E.
  - apply yields_after. intros. apply yields_fail.
Qed.

Lemma yields_float start v : yields (number_or_error start v Tok.FloatLit) tok_ok.
Proof. destruct v; [by apply yields_ret|]. apply yields_after. intros. apply yields_fail. Qed.

(** Values that are built by a constructor other than [IntLit]. *)
Ltac yields_tac :=
  repeat first
    [ apply yields_float
    | apply yields_number; lia
    | apply yields_fail
    | apply yields_panic
    | by apply yields_ret
    | apply yields_after; intros ?
    | progress cbv zeta
    | lazymatch goal with
      | |- yields (if ?b then _ else _) _ => destruct b
      | |- yields (match ?x with _ => _ end) _ => destruct x
      end ].

Lemma keyword_table_ok : Forall (fun p => tok_ok p.2) keyword_table.
Proof. repeat constructor. Qed.

Lemma keyword_ok s kw : keyword s = Some kw -> tok_ok kw.
Proof.
  unfold keyword. intros (p&Hf&->)%fmap_Some. apply List.find_some in Hf as [Hin _].
  apply list_elem_of_In in Hin. pose proof keyword_table_ok as Ht. rewrite Forall_forall in Ht. auto.
Qed.

Lemma yields_token c start : yields (read_token c start) tok_ok.
Proof.
  unfold read_token. destruct (punctuation c) as [t|] eqn:Ep.
  { apply yields_ret. unfold punctuation in Ep. repeat case_match; by simplify_eq. }
  repeat (case_match; [solve [unfold read_operator, one_or_two, read_leading_dot_float,
                                read_parameter, read_number, read_word; yields_tac]|]);
    case_match; [|yields_tac].
  apply yields_after. intros word. destruct (keyword word) as [kw|] eqn:Ek; [|by apply yields_ret].
  apply keyword_ok in Ek. destruct kw; cbn [maybe_compound]; yields_tac.
Qed.

Lemma tokenize_ok input toks :
  tokenize input = Some (Ok toks) -> Forall (fun t => tok_ok (tk t)) toks.
Proof.
  unfold tokenize. destruct (collect (new input)) as [[[l lx]|e]|] eqn:E; [|done..]. intros [= ->].
  revert E. apply (yields_loop _ (Forall (fun t => tok_ok (tk t)))); [constructor|].
  intros acc Hacc. eapply (yields_bind _ _ (fun o => match o with Some t => tok_ok (tk t) | None => True end)).
  - unfold next. apply yields_after. intros _. apply yields_after. intros start.
    apply yields_after. intros [c|]; [|by apply yields_ret].
    eapply yields_bind; [apply yields_token|]. intros tok Hok. apply yields_after. intros stop.
    by apply yields_ret.
  - intros [t|] Ht; apply yields_ret; [|done]. apply Forall_app. split; [done|by repeat constructor].
Qed.

Lemma tokenize_spans (input : str) :
  match tokenize input with
  | Some (Ok toks) => spans_ok input toks
  | Some (Err e) => error_within 0 (str_len input) e
  | None => False
  end.
Proof.
  pose proof (wp_collect input) as Hc. unfold tokenize, wp in *.
  destruct (collect (new input)) as [[[toks lx]|e]|]; tauto.
Qed.

(** C30 Tokenizing any text ends without a panic. The tokens found lie on character
    boundaries of the text, are not empty, follow each other in order without overlap, and
    integer literals fit an unsigned 127-bit range; an error points into the text. *)
Theorem tokenize_total (input : str) :
  match tokenize input with
  | Some (Ok toks) => spans_ok input toks /\ Forall (fun t => tok_ok (tk t)) toks
  | Some (Err e) => error_within 0 (str_len input) e
  | None => False
  end.
Proof.
  pose proof (tokenize_spans input) as Hs. destruct (tokenize input) as [[toks|e]|] eqn:E; [|done..].
  split; [done|]. by apply tokenize_ok in E.
Qed.
End next.

Lemma tokenize_total_witness :
  let text := bytes_of "MATCH (n) RETURN 0x1F // end" in
  match @tokenize AsciiOnly text with
  | Some (Ok toks) => spans_ok text toks /\ Forall (fun t => tok_ok (tk t)) toks
  | Some (Err e) => error_within 0 (str_len text) e
  | None => False
  end.
Proof. apply (@tokenize_total AsciiOnly). Defined.
