(* ===== verification/WellFormed.v ===== *)
(** * WellFormed: the shape of the trees the parser builds.

    [ast.rs] states part of it in comments (a path alternates nodes and relationships, a
    call with a star has no arguments), the consumers of the tree rely on the rest: literals
    and hop counts in the range of their Rust types, distinct map keys, named procedures, a
    single type on a created relationship, and no NULL that the text does not have. *)

From stdpp Require Import base numbers list strings.
From Stdlib Require Import ZArith Lia.
From S2P Require Import Prelude Text Ast Lexer.

#[local] Open Scope Z_scope.

Definition opt_all {A} (f : A -> bool) (o : option A) : bool :=
  match o with Some a => f a | None => true end.

Definition nonempty {A} (l : list A) : bool := match l with [] => false | _ => true end.

Definition is_u32 (n : Z) : bool := in_range 0 u32_max n.

(** A path starts and ends with a node, with a relationship between two nodes. *)
Fixpoint alternates {E} (l : list (PathElement E)) : bool :=
  match l with
  | [Node _] => true
  | Node _ :: Rel _ :: l' => alternates l'
  | _ => false
  end.

Section shapes.
Context {E : Type} (f : E -> bool).

Definition wf_element (el : PathElement E) : bool :=
  match el with
  | Node n => opt_all f (np_properties n)
  | Rel r =>
      opt_all f (rp_properties r) && opt_all is_u32 (rp_min_hops r) && opt_all is_u32 (rp_max_hops r)
  end.

Definition wf_pattern (p : PathPattern E) : bool :=
  alternates (pp_elements p) && forallb wf_element (pp_elements p).

Definition single_type (el : PathElement E) : bool :=
  match el with Node _ => true | Rel r => lenZ (rp_types r) <=? 1 end.

Definition wf_where (w : WhereClause E) : bool := f (wh_predicate w).

Definition wf_item (i : ReturnItem E) : bool := f (ri_expr i).

Definition wf_items (l : list (ReturnItem E)) : bool := nonempty l && forallb wf_item l.

Definition wf_order_by (o : OrderByClause E) : bool :=
  nonempty (ob_items o) && forallb (fun i => f (si_expr i)) (ob_items o).

Definition wf_set_item (i : SetItem E) : bool :=
  match i with
  | SetProperty target value _ => f (pa_object target) && f value
  | SetPropertyMerge _ map _ | SetPropertyReplace _ map _ => f map
  | SetLabel _ labels _ => nonempty labels
  end.

Definition wf_remove_item (i : RemoveItem E) : bool :=
  match i with
  | RemoveProperty target _ => f (pa_object target)
  | RemoveLabel _ labels _ => nonempty labels
  end.

Definition wf_clause (c : AstClause.AstClause E) : bool :=
  match c with
  | AstClause.Match c | AstClause.OptionalMatch c =>
      nonempty (mc_patterns c) && forallb wf_pattern (mc_patterns c) &&
      opt_all wf_where (mc_where_clause c)
  | AstClause.Where c => wf_where c
  | AstClause.With c =>
      wf_items (wi_items c) && opt_all wf_order_by (wi_order_by c) && opt_all f (wi_skip c) &&
      opt_all f (wi_limit c) && opt_all wf_where (wi_where_clause c)
  | AstClause.Return c =>
      wf_items (rc_items c) && opt_all wf_order_by (rc_order_by c) && opt_all f (rc_skip c) &&
      opt_all f (rc_limit c)
  | AstClause.Create c =>
      nonempty (cc_patterns c) && forallb wf_pattern (cc_patterns c) &&
      forallb (fun p => forallb single_type (pp_elements p)) (cc_patterns c)
  | AstClause.Merge c =>
      wf_pattern (mg_pattern c) && forallb wf_set_item (mg_on_create c) &&
      forallb wf_set_item (mg_on_match c)
  | AstClause.Set_ c => nonempty (st_items c) && forallb wf_set_item (st_items c)
  | AstClause.Remove c => nonempty (rm_items c) && forallb wf_remove_item (rm_items c)
  | AstClause.Delete c => nonempty (dl_exprs c) && forallb f (dl_exprs c)
  | AstClause.Unwind c => f (uw_expr c)
  | AstClause.Call c =>
      nonempty (cl_procedure c) && forallb f (cl_args c) && forallb wf_item (cl_yield_items c)
  | AstClause.Union _ => true
  end.

Definition wf_query (q : AstQuery E) : bool := forallb wf_clause (aq_clauses q).
End shapes.

(** Which spans are those of a NULL in the text: the parser also builds NULL literals as
    placeholders of constructs it does not support. *)
Class Written := written : Span -> bool.

Section expressions.
Context `{Wr : Written}.

Fixpoint wf_expr (e : Expr) : bool :=
  match e with
  | Expr.Literal (Literal.Null span) => written span
  | Expr.Literal (Literal.Int n _) => in_range i64_min i64_max n
  | Expr.Literal _ | Expr.Var _ | Expr.Param _ => true
  | Expr.LabelPredicate lp => nonempty (lp_labels lp)
  | Expr.Property p => wf_expr (pa_object p)
  | Expr.BinaryOp b => wf_expr (bo_left b) && wf_expr (bo_right b)
  | Expr.UnaryOp u => wf_expr (uo_expr u)
  | Expr.FunctionCall f =>
      nonempty (fc_name f) && forallb wf_expr (fc_args f) &&
      (negb (fc_star f) || negb (nonempty (fc_args f)))
  | Expr.List l => forallb wf_expr (ll_elements l)
  | Expr.Map m =>
      forallb (fun kv => wf_expr (snd kv)) (ml_entries m) &&
      bool_decide (NoDup ((ml_entries m).*1)) &&
      bool_decide ((ml_key_spans m).*1 = (ml_entries m).*1)
  | Expr.Case c =>
      opt_all wf_expr (ce_subject c) &&
      forallb (fun w => wf_expr (wn_condition w) && wf_expr (wn_result w)) (ce_when_clauses c) &&
      opt_all wf_expr (ce_else_expr c)
  | Expr.ListComprehension lc =>
      wf_expr (lc_list lc) && opt_all wf_expr (lc_filter lc) && opt_all wf_expr (lc_projection lc)
  | Expr.Quantifier q => wf_expr (qf_list q) && wf_expr (qf_predicate q)
  | Expr.PatternComprehension pc =>
      wf_pattern wf_expr (pc_pattern pc) && opt_all wf_expr (pc_filter pc) &&
      wf_expr (pc_projection pc)
  | Expr.PatternPredicate pp => wf_pattern wf_expr (ppr_pattern pp)
  | Expr.ExistentialSubquery es =>
      match es_body es with
      | Simple pattern filter => wf_pattern wf_expr pattern && opt_all wf_expr filter
      | Full q => wf_query wf_expr q
      end
  | Expr.IsNull e _ _ => wf_expr e
  | Expr.InList e l _ _ => wf_expr e && wf_expr l
  | Expr.StringOp e _ p _ => wf_expr e && wf_expr p
  | Expr.RegexMatch e p _ => wf_expr e && wf_expr p
  | Expr.Parenthesized e _ => wf_expr e
  end.
End expressions.

Lemma nonempty_true {A} (l : list A) : nonempty l = true <-> l <> [].
Proof. by destruct l. Qed.

Lemma Forall_forallb {A} (f : A -> bool) l : Forall (fun x => f x = true) l -> forallb f l = true.
Proof. induction 1 as [|x l Hx _ IH]; simpl; [done|]. by rewrite Hx, IH. Qed.

Lemma forallb_snoc {A} (f : A -> bool) l x : forallb f (l ++ [x]) = forallb f l && f x.
Proof. rewrite forallb_app. simpl. by rewrite andb_true_r. Qed.

(** A path stays alternating when a relationship and a node are added. *)
Lemma alternates_snoc {E} (l : list (PathElement E)) r n :
  alternates l = true -> alternates (l ++ [Rel r; Node n]) = true.
Proof.
  revert l. fix IH 1. intros [|[n1|r1] [|[n2|r2] l]]; try done. simpl. apply IH.
Qed.
