(* ===== verification/TokenStream.v ===== *)
(** * TokenStream: the parser's cursor ([graphforge-cypher/src/parser/mod.rs]).

    [tokens] is the suffix of the token vector that starts at the cursor.  [unsupported] is
    the first recognised construct that cannot be executed: the grammar is still checked
    after it, and the public entry points report it at the end. *)

From stdpp Require Import base numbers list strings.
From Stdlib Require Import ZArith Lia.
From S2P Require Import Prelude Text Ast Scan Lexer.

#[local] Open Scope string_scope.
#[local] Open Scope list_scope.
#[local] Open Scope Z_scope.

Record TokenStream := mkTokenStream {
  tokens : list Spanned;
  input : str;
  unsupported : option ParseError }.

Abbreviation P := (M ParseError TokenStream).
#[global] Instance TokenStream_remaining : Remaining TokenStream := fun ts => length (tokens ts).

(** ** Lookahead *)

Definition peek (ts : TokenStream) : option Tok := tk <$> head (tokens ts).

Definition peek_n (n : nat) (ts : TokenStream) : option Tok := tk <$> tokens ts !! n.

(** [ts.at(expected)] *)
Definition at_ (expected : Tok) (ts : TokenStream) : bool := bool_decide (peek ts = Some expected).

Definition at_n (n : nat) (expected : Tok) (ts : TokenStream) : bool :=
  bool_decide (peek_n n ts = Some expected).

(** [matches!(ts.peek(), Some(Tok::Ident(_)))] *)
Definition at_ident (ts : TokenStream) : bool :=
  match peek ts with Some (Tok.Ident _) => true | _ => false end.

(** ** Positions *)

Definition current_pos (ts : TokenStream) : Z :=
  match tokens ts with t :: _ => tk_start t | [] => str_len (input ts) end.

Definition current_span (ts : TokenStream) : Span := mkSpan (current_pos ts) (current_pos ts).

Definition span_from (start : Z) (ts : TokenStream) : Span := mkSpan start (current_pos ts).

Definition token_span (t : Spanned) : Span := mkSpan (tk_start t) (tk_end t).

(** The first [n] bytes of [s], when they end on a character boundary. *)
Fixpoint take_bytes (n : Z) (s : str) : option str :=
  if n =? 0 then Some []
  else match s with
  | [] => None
  | c :: s' => if n <? len_utf8 c then None else cons c <$> take_bytes (n - len_utf8 c) s'
  end.

(** [self.input.get(span.start..span.end).unwrap_or("")] *)
Definition text (span : Span) (ts : TokenStream) : str :=
  if sp_end span <? sp_start span then []
  else default [] (skip_bytes (sp_start span) (input ts) ≫= take_bytes (sp_end span - sp_start span)).

(** ** Advancing *)

Definition advance : P (option Spanned) := fun ts =>
  match tokens ts with
  | [] => Some (Ok (None, ts))
  | t :: toks => Some (Ok (Some t, mkTokenStream toks (input ts) (unsupported ts)))
  end.

(** [ts.advance().unwrap()] *)
Definition advance_unwrap : P Spanned :=
  t ← advance;
  match t with Some t => mret t | None => panic end.

Definition eat (expected : Tok) : P (Z * Z) := fun ts =>
  match tokens ts with
  | t :: toks =>
      if decide (tk t = expected) then
        Some (Ok ((tk_start t, tk_end t), mkTokenStream toks (input ts) (unsupported ts)))
      else
        Some (Err (mkParseError
          (ParseErrorKind.UnexpectedToken (DebugTok (tk t)) [DebugTok expected]) (token_span t)))
  | [] =>
      Some (Err (mkParseError (ParseErrorKind.UnexpectedEof [DebugTok expected]) (current_span ts)))
  end.

Definition eat_if (expected : Tok) : P bool :=
  b ← gets (at_ expected);
  if (b : bool) then advance;; mret true else mret false.

(** ** Errors *)

(** [ts.err(msg)], as the error it builds. *)
Definition err_value (ts : TokenStream) : ParseError :=
  match tokens ts with
  | t :: _ =>
      mkParseError (ParseErrorKind.UnexpectedToken (DebugTok (tk t)) []) (token_span t)
  | [] =>
      mkParseError (ParseErrorKind.UnexpectedEof [])
        (mkSpan (str_len (input ts)) (str_len (input ts)))
  end.

(** [return Err(ts.err(msg))] *)
Definition err {A} : P A := e ← gets err_value; fail e.

(** [return Err(ts.err_at(span, kind, msg))] *)
Definition err_at {A} (span : Span) (kind : ParseErrorKind.ParseErrorKind) : P A :=
  fail (mkParseError kind span).

(** ** Unsupported constructs *)

Definition record_unsupported (feature : Unsupported.UnsupportedCypherFeature) (span : Span) : P unit :=
  modify (fun ts =>
    match unsupported ts with
    | Some _ => ts
    | None =>
        mkTokenStream (tokens ts) (input ts)
          (Some (mkParseError (ParseErrorKind.UnsupportedFeature feature) span))
    end).

Definition finish_supported {A} (value : A) : P A := fun ts =>
  match unsupported ts with
  | Some e => Some (Err e)
  | None => Some (Ok (value, ts))
  end.

(** [ts.record_unsupported(feature, ts.span_from(start))] *)
Definition record_unsupported_from (feature : Unsupported.UnsupportedCypherFeature) (start : Z) : P unit :=
  span ← gets (span_from start);
  record_unsupported feature span.

(** [TokenStream::new] *)
Definition new `{Unicode} (text : str) : option (result ParseError TokenStream) :=
  match tokenize text with
  | Some (Ok toks) => Some (Ok (mkTokenStream toks text None))
  | Some (Err e) => Some (Err e)
  | None => None
  end.

(** [let mut items = vec![item()?]; while ts.eat_if(&Tok::Comma) { items.push(item()?); }] *)
Definition comma_separated {A} (item : P A) : P (list A) :=
  first ← item;
  loop (fun items =>
    comma ← eat_if Tok.Comma;
    if (comma : bool) then x ← item; mret (inl (items ++ [x])) else mret (inr items)) [first].

(** What the parsing functions call recursively: an expression of at least a binding power,
    a path pattern, a query ([true]: up to a closing brace). *)
Record Rec := mkRec {
  rec_expr : Z -> P Expr;
  rec_pattern : P (PathPattern Expr);
  rec_query : bool -> P (AstQuery Expr) }.
