(* ===== verification/ParsePattern.v ===== *)
(** * ParsePattern: path patterns ([graphforge-cypher/src/parser/patterns.rs]).

    [parse_pattern_inner] and [parse_node_pattern_inner] take the recursive parsers as
    [self].  Expressions only occur as property maps. *)

From stdpp Require Import base numbers list strings.
From Stdlib Require Import ZArith Lia.
From S2P Require Import Prelude Text Ast Scan Lexer TokenStream.

#[local] Open Scope string_scope.
#[local] Open Scope list_scope.
#[local] Open Scope Z_scope.

(** ** Names *)

Definition eat_ident : P str :=
  t ← gets peek;
  match t with
  | Some (Tok.Ident name) => advance;; mret name
  | _ => err
  end.

(** Keyword tokens as label and type names. *)
Definition tok_as_label_str (tok : Tok) : option string :=
  match tok with
  | Tok.Match => Some "Match" | Tok.Return => Some "Return" | Tok.Where => Some "Where"
  | Tok.With => Some "With" | Tok.As => Some "As" | Tok.Distinct => Some "Distinct"
  | Tok.Union => Some "Union" | Tok.All => Some "All" | Tok.Create => Some "Create"
  | Tok.Merge => Some "Merge" | Tok.On => Some "On" | Tok.Set_ => Some "Set"
  | Tok.Remove => Some "Remove" | Tok.Delete => Some "Delete" | Tok.Detach => Some "Detach"
  | Tok.Call => Some "Call" | Tok.Yield => Some "Yield" | Tok.Unwind => Some "Unwind"
  | Tok.Order => Some "Order" | Tok.By => Some "By" | Tok.Skip => Some "Skip"
  | Tok.Limit => Some "Limit" | Tok.Is => Some "Is" | Tok.In => Some "In"
  | Tok.Starts => Some "Starts" | Tok.Ends => Some "Ends" | Tok.Contains => Some "Contains"
  | Tok.Case => Some "Case" | Tok.When => Some "When" | Tok.Then => Some "Then"
  | Tok.Else => Some "Else" | Tok.End => Some "End" | Tok.True => Some "True"
  | Tok.False => Some "False" | Tok.Null => Some "Null" | Tok.Count => Some "Count"
  | Tok.Exists => Some "Exists" | Tok.Not => Some "Not" | Tok.And => Some "And"
  | Tok.Or => Some "Or" | Tok.Xor => Some "Xor" | Tok.Optional => Some "Optional"
  | Tok.Any => Some "Any" | Tok.None => Some "None" | Tok.Single => Some "Single"
  | Tok.Filter => Some "Filter" | Tok.Extract => Some "Extract" | Tok.Reduce => Some "Reduce"
  | Tok.ShortestPath => Some "ShortestPath" | Tok.AllShortestPaths => Some "AllShortestPaths"
  | Tok.Asc => Some "Asc" | Tok.Desc => Some "Desc" | Tok.Ascending => Some "Ascending"
  | Tok.Descending => Some "Descending"
  | _ => None
  end.

Definition eat_label_name : P str :=
  t ← gets peek;
  match t with
  | Some (Tok.Ident name) => advance;; mret name
  | Some tok =>
      match tok_as_label_str tok with
      | Some kw => advance;; mret (bytes_of kw)
      | None => err
      end
  | None => err
  end.

(** [match ts.peek() { Some(Tok::Ident(_)) => Some(eat_ident(ts)?), _ => None }] *)
Definition opt_ident : P (option str) :=
  b ← gets at_ident;
  if (b : bool) then name ← eat_ident; mret (Some name) else mret None.

(** ** Hop counts *)

Definition to_u32 (n : Z) (span : Span) : P Z :=
  if in_range 0 u32_max n then mret n
  else fail (mkParseError ParseErrorKind.InvalidNumericLiteral span).

Definition parse_u32_lit : P Z :=
  t ← gets peek;
  match t with
  | Some (Tok.IntLit n) => t ← advance_unwrap; to_u32 n (token_span t)
  | _ => err
  end.

(** [ts.peek()] is an integer literal. *)
Definition at_int (ts : TokenStream) : bool :=
  match peek ts with Some (Tok.IntLit _) => true | _ => false end.

Definition parse_hop_range : P (option Z * option Z) :=
  t ← gets peek;
  match t with
  | Some Tok.DotDot =>
      advance;;
      b ← gets at_int;
      if (b : bool) then max ← parse_u32_lit; mret (None, Some max) else mret (Some 1, None)
  | Some (Tok.IntLit n) =>
      t ← advance_unwrap;
      min ← to_u32 n (token_span t);
      range ← eat_if Tok.DotDot;
      if (range : bool) then
        b ← gets at_int;
        if (b : bool) then max ← parse_u32_lit; mret (Some min, Some max) else mret (Some min, None)
      else mret (Some min, Some min)
  | _ => mret (Some 1, None)
  end.

Section pattern.
Context (self : Rec).

(** [if ts.peek() == Some(&Tok::LBrace) { Some(parse_expr(ts, 0)?) } else { None }] *)
Definition opt_properties : P (option Expr) :=
  b ← gets (at_ Tok.LBrace);
  if (b : bool) then e ← rec_expr self 0; mret (Some e) else mret None.

(** ** Nodes *)

(** [while ts.eat_if(&Tok::Colon) { labels.push(eat_label_name(ts)?); }] *)
Definition parse_labels : P (list str) :=
  loop (fun labels =>
    colon ← eat_if Tok.Colon;
    if (colon : bool) then l ← eat_label_name; mret (inl (labels ++ [l])) else mret (inr labels)) [].

Definition parse_node_pattern_inner : P (NodePattern Expr) :=
  start ← gets current_pos;
  eat Tok.LParen;;
  var ← opt_ident;
  labels ← parse_labels;
  properties ← opt_properties;
  r ← eat Tok.RParen;
  mret (mkNodePattern var labels properties (mkSpan start (snd r))).

(** ** Relationships *)

Record RelationshipDetail := mkDetail {
  rd_var : option str;
  rd_types : list str;
  rd_min_hops : option Z;
  rd_max_hops : option Z;
  rd_properties : option Expr }.

(** [:TYPE1|TYPE2], or nothing. *)
Definition parse_types : P (list str) :=
  colon ← eat_if Tok.Colon;
  if (colon : bool) then
    first ← eat_label_name;
    loop (fun types =>
      pipe ← eat_if Tok.Pipe;
      if (pipe : bool) then
        eat_if Tok.Colon;;
        l ← eat_label_name;
        mret (inl (types ++ [l]))
      else mret (inr types)) [first]
  else mret [].

Definition parse_rel_detail : P RelationshipDetail :=
  var ← opt_ident;
  types ← parse_types;
  star ← eat_if Tok.Star;
  hops ← (if (star : bool) then parse_hop_range else mret (None, None));
  properties ← opt_properties;
  mret (mkDetail var types (fst hops) (snd hops) properties).

Definition no_detail : RelationshipDetail := mkDetail None [] None None None.

(** The relationship from [start] to the current position. *)
Definition rel_pattern (start : Z) (d : RelationshipDetail) (direction : Direction.Direction) : P (RelPattern Expr) :=
  stop ← gets current_pos;
  mret (mkRelPattern (rd_var d) (rd_types d) direction (rd_min_hops d) (rd_max_hops d)
          (rd_properties d) (mkSpan start stop)).

Definition parse_rel_pattern : P (RelPattern Expr) :=
  start ← gets current_pos;
  t ← gets peek;
  match t with
  | Some Tok.RelOpen =>
      advance;;
      d ← parse_rel_detail;
      eat Tok.RBracket;;
      right ← eat_if Tok.RightArrow;
      if (right : bool) then rel_pattern start d Direction.Out
      else
        dash ← eat_if Tok.Minus;
        if (dash : bool) then rel_pattern start d Direction.Undirected else err
  | Some Tok.LeftArrow =>
      advance;;
      bracket ← eat_if Tok.LBracket;
      if (bracket : bool) then
        d ← parse_rel_detail;
        eat Tok.RBracket;;
        dash ← eat_if Tok.Minus;
        if (dash : bool) then rel_pattern start d Direction.In
        else
          right ← eat_if Tok.RightArrow;
          if (right : bool) then rel_pattern start d Direction.Undirected else err
      else
        right ← eat_if Tok.RightArrow;
        if (right : bool) then rel_pattern start no_detail Direction.Undirected
        else eat Tok.Minus;; rel_pattern start no_detail Direction.In
  | Some Tok.Minus =>
      advance;;
      right ← eat_if Tok.RightArrow;
      if (right : bool) then rel_pattern start no_detail Direction.Out
      else
        dash ← eat_if Tok.Minus;
        if (dash : bool) then rel_pattern start no_detail Direction.Undirected else err
  | _ => err
  end.

(** ** Paths *)

Definition is_relationship_start (t : option Tok) : bool :=
  match t with
  | Some (Tok.RelOpen | Tok.Minus | Tok.LeftArrow) => true
  | _ => false
  end.

Definition is_shortest_path (t : option Tok) : bool :=
  match t with
  | Some (Tok.ShortestPath | Tok.AllShortestPaths) => true
  | _ => false
  end.

(** [p = ], or nothing. *)
Definition parse_path_name : P (option str) :=
  ident ← gets at_ident;
  eq ← gets (at_n 1 Tok.Eq);
  if ident && eq then
    name ← eat_ident;
    eat Tok.Eq;;
    mret (Some name)
  else mret None.

(** The relationships and nodes after the first node. *)
Definition parse_path_tail (first : NodePattern Expr) : P (list (PathElement Expr)) :=
  loop (fun elements =>
    t ← gets peek;
    if is_relationship_start t then
      rel ← parse_rel_pattern;
      node ← parse_node_pattern_inner;
      mret (inl (elements ++ [Rel rel; Node node]))
    else mret (inr elements)) [Node first].

Definition parse_pattern_inner : P (PathPattern Expr) :=
  start ← gets current_pos;
  var ← parse_path_name;
  t ← gets peek;
  if is_shortest_path t then
    advance;;
    eat Tok.LParen;;
    pattern ← rec_pattern self;
    eat Tok.RParen;;
    record_unsupported_from Unsupported.ShortestPath start;;
    span ← gets (span_from start);
    mret (mkPathPattern var (pp_elements pattern) span)
  else
    first ← parse_node_pattern_inner;
    elements ← parse_path_tail first;
    span ← gets (span_from start);
    mret (mkPathPattern var elements span).

Definition parse_pattern_list_inner : P (list (PathPattern Expr)) :=
  comma_separated parse_pattern_inner.
End pattern.
