(* ===== verification/ParseExpr.v ===== *)
(** * ParseExpr: expressions ([graphforge-cypher/src/parser/expr.rs]).

    A Pratt parser: [parse_prefix] reads an operand, [parse_infix] extends it while the next
    operator binds at least as tightly as [min_bp]. *)

From stdpp Require Import base numbers list strings.
From Stdlib Require Import ZArith Lia.
From S2P Require Import Prelude Text Ast Scan Lexer TokenStream ParsePattern.

#[local] Open Scope string_scope.
#[local] Open Scope list_scope.
#[local] Open Scope Z_scope.

(** ** Binding powers *)

Module InfixOp.
Inductive InfixOp :=
| Or | Xor | And | Eq | Neq | Lt | Lte | Gt | Gte | RegexMatch | IsNull | IsNotNull | In | NotIn
| StartsWith | EndsWith | Contains | Add | Sub | Mul | Div | Mod | Pow | Dot | Subscript
| LabelPredicate.
End InfixOp.
Abbreviation InfixOp := InfixOp.InfixOp.

Definition infix_op (t : Tok) : option InfixOp :=
  match t with
  | Tok.Or => Some InfixOp.Or
  | Tok.Xor => Some InfixOp.Xor
  | Tok.And => Some InfixOp.And
  | Tok.Eq => Some InfixOp.Eq
  | Tok.Neq => Some InfixOp.Neq
  | Tok.Lt => Some InfixOp.Lt
  | Tok.Lte => Some InfixOp.Lte
  | Tok.Gt => Some InfixOp.Gt
  | Tok.Gte => Some InfixOp.Gte
  | Tok.RegexMatch => Some InfixOp.RegexMatch
  | Tok.IsNull => Some InfixOp.IsNull
  | Tok.IsNotNull => Some InfixOp.IsNotNull
  | Tok.In => Some InfixOp.In
  | Tok.NotIn => Some InfixOp.NotIn
  | Tok.StartsWith => Some InfixOp.StartsWith
  | Tok.EndsWith => Some InfixOp.EndsWith
  | Tok.Contains => Some InfixOp.Contains
  | Tok.Plus => Some InfixOp.Add
  | Tok.Minus => Some InfixOp.Sub
  | Tok.Star => Some InfixOp.Mul
  | Tok.Slash => Some InfixOp.Div
  | Tok.Percent => Some InfixOp.Mod
  | Tok.Caret => Some InfixOp.Pow
  | Tok.Dot => Some InfixOp.Dot
  | Tok.LBracket => Some InfixOp.Subscript
  | Tok.Colon => Some InfixOp.LabelPredicate
  | _ => None
  end.

Definition peek_infix_op (ts : TokenStream) : option InfixOp := peek ts ≫= infix_op.

(** [(left_bp, right_bp)] *)
Definition infix_binding_power (op : InfixOp) : Z * Z :=
  match op with
  | InfixOp.Or => (10, 11)
  | InfixOp.Xor => (20, 21)
  | InfixOp.And => (30, 31)
  | InfixOp.Eq | InfixOp.Neq | InfixOp.Lt | InfixOp.Lte | InfixOp.Gt | InfixOp.Gte
  | InfixOp.RegexMatch => (40, 41)
  | InfixOp.IsNull | InfixOp.IsNotNull | InfixOp.In | InfixOp.NotIn
  | InfixOp.StartsWith | InfixOp.EndsWith | InfixOp.Contains => (45, 46)
  | InfixOp.Add | InfixOp.Sub => (50, 51)
  | InfixOp.Mul | InfixOp.Div | InfixOp.Mod => (60, 61)
  | InfixOp.Pow => (70, 71)
  | InfixOp.Dot | InfixOp.Subscript | InfixOp.LabelPredicate => (80, 81)
  end.

(** ** Helpers *)

(** Keyword tokens as property keys. *)
Definition tok_as_keyword_str (tok : Tok) : option string :=
  match tok with
  | Tok.Match => Some "match" | Tok.Return => Some "return" | Tok.Where => Some "where"
  | Tok.With => Some "with" | Tok.As => Some "as" | Tok.Distinct => Some "distinct"
  | Tok.Union => Some "union" | Tok.All => Some "all" | Tok.Create => Some "create"
  | Tok.Merge => Some "merge" | Tok.On => Some "on" | Tok.Set_ => Some "set"
  | Tok.Remove => Some "remove" | Tok.Delete => Some "delete" | Tok.Detach => Some "detach"
  | Tok.Call => Some "call" | Tok.Yield => Some "yield" | Tok.Unwind => Some "unwind"
  | Tok.Order => Some "order" | Tok.By => Some "by" | Tok.Skip => Some "skip"
  | Tok.Limit => Some "limit" | Tok.Is => Some "is" | Tok.In => Some "in"
  | Tok.Starts => Some "starts" | Tok.Ends => Some "ends" | Tok.Contains => Some "contains"
  | Tok.Case => Some "case" | Tok.When => Some "when" | Tok.Then => Some "then"
  | Tok.Else => Some "else" | Tok.End => Some "end" | Tok.True => Some "true"
  | Tok.False => Some "false" | Tok.Null => Some "null" | Tok.Count => Some "count"
  | Tok.Exists => Some "exists" | Tok.Not => Some "not" | Tok.And => Some "and"
  | Tok.Or => Some "or" | Tok.Xor => Some "xor" | Tok.Optional => Some "optional"
  | Tok.Any => Some "any" | Tok.None => Some "none" | Tok.Single => Some "single"
  | Tok.Filter => Some "filter" | Tok.Extract => Some "extract" | Tok.Reduce => Some "reduce"
  | Tok.ShortestPath => Some "shortestPath" | Tok.AllShortestPaths => Some "allShortestPaths"
  | Tok.Asc => Some "asc" | Tok.Desc => Some "desc" | Tok.Ascending => Some "ascending"
  | Tok.Descending => Some "descending"
  | _ => None
  end.

(** An identifier, or a keyword in the place of one, spelled as in the source text. *)
Definition eat_ident_with_span : P (str * Span) :=
  token ← advance;
  match token with
  | Some t =>
      let span := token_span t in
      match tk t with
      | Tok.Ident name => mret (name, span)
      | tok =>
          match tok_as_keyword_str tok with
          | Some kw =>
              raw ← gets (text span);
              match raw with
              | [] => mret (to_ascii_lowercase <$> bytes_of kw, span)
              | _ => mret (raw, span)
              end
          | None =>
              err_at span (ParseErrorKind.UnexpectedToken (DebugTok tok) [Text "identifier"])
          end
      end
  | None => err
  end.

Definition eat_ident : P str := r ← eat_ident_with_span; mret (fst r).

(** [None] is the [unreachable!] of the source. *)
Definition infix_op_to_binary_kind (op : InfixOp) : option BinaryOpKind.BinaryOpKind :=
  match op with
  | InfixOp.Or => Some BinaryOpKind.Or
  | InfixOp.Xor => Some BinaryOpKind.Xor
  | InfixOp.And => Some BinaryOpKind.And
  | InfixOp.Eq => Some BinaryOpKind.Eq
  | InfixOp.Neq => Some BinaryOpKind.Neq
  | InfixOp.Lt => Some BinaryOpKind.Lt
  | InfixOp.Lte => Some BinaryOpKind.Lte
  | InfixOp.Gt => Some BinaryOpKind.Gt
  | InfixOp.Gte => Some BinaryOpKind.Gte
  | InfixOp.Add => Some BinaryOpKind.Add
  | InfixOp.Sub => Some BinaryOpKind.Sub
  | InfixOp.Mul => Some BinaryOpKind.Mul
  | InfixOp.Div => Some BinaryOpKind.Div
  | InfixOp.Mod => Some BinaryOpKind.Mod
  | InfixOp.Pow => Some BinaryOpKind.Pow
  | _ => None
  end.

Definition to_i64 (n : Z) (span : Span) : P Z :=
  if in_range i64_min i64_max n then mret n
  else err_at span ParseErrorKind.InvalidNumericLiteral.

(** Negating the least [i64] would overflow. *)
Definition negate_i64_magnitude (n : Z) (span : Span) : P Z :=
  if n =? i64_max + 1 then mret i64_min
  else
    positive ← to_i64 n span;
    if positive =? i64_min then panic else mret (- positive).

(** [None] is the [unreachable!] of the source. *)
Definition tok_keyword_name (tok : Tok) : option string :=
  match tok with
  | Tok.Count => Some "count"
  | Tok.Exists => Some "exists"
  | Tok.All => Some "all"
  | Tok.Any => Some "any"
  | Tok.None => Some "none"
  | Tok.Single => Some "single"
  | Tok.Filter => Some "filter"
  | Tok.Extract => Some "extract"
  | Tok.Reduce => Some "reduce"
  | Tok.ShortestPath => Some "shortestPath"
  | Tok.AllShortestPaths => Some "allShortestPaths"
  | _ => None
  end.

(** [tok_keyword_name(ts.peek().unwrap())] *)
Definition peek_keyword_name : P str :=
  t ← gets peek;
  match t ≫= tok_keyword_name with
  | Some name => mret (bytes_of name)
  | None => panic
  end.

(** [if ts.eat_if(tok) { Some(m()?) } else { None }] *)
Definition opt_after {A} (tok : Tok) (m : P A) : P (option A) :=
  b ← eat_if tok;
  if (b : bool) then a ← m; mret (Some a) else mret None.

(** The dotted segments at the cursor, and the number of tokens they span. *)
Fixpoint dotted_segments (toks : list Spanned) : list str * list Spanned :=
  match toks with
  | d :: i :: toks' =>
      match tk d, tk i with
      | Tok.Dot, Tok.Ident seg => let r := dotted_segments toks' in (seg :: fst r, snd r)
      | _, _ => ([], toks)
      end
  | _ => ([], toks)
  end.

Definition namespaced_call_segments (first : str) (ts : TokenStream) : option (list str) :=
  let '(segments, after) := dotted_segments (tokens ts) in
  match segments, tk <$> head after with
  | _ :: _, Some Tok.LParen => Some (first :: segments)
  | _, _ => None
  end.

(** [for _ in 0..n { ts.advance(); ts.advance(); }] *)
Fixpoint advance_pairs (n : nat) : P unit :=
  match n with
  | O => mret tt
  | S n' => advance;; advance;; advance_pairs n'
  end.

(** The operand that a following comparison compares with: [a < b < c] is
    [a < b AND b < c]. *)
Fixpoint chain_tail (lhs : Expr) : option Expr :=
  match lhs with
  | Expr.BinaryOp b =>
      match bo_op b with
      | BinaryOpKind.Eq | BinaryOpKind.Neq | BinaryOpKind.Lt | BinaryOpKind.Lte
      | BinaryOpKind.Gt | BinaryOpKind.Gte => Some (bo_right b)
      | BinaryOpKind.And => chain_tail (bo_right b)
      | _ => None
      end
  | _ => None
  end.

Definition is_comparison (op : InfixOp) : bool :=
  match op with
  | InfixOp.Eq | InfixOp.Neq | InfixOp.Lt | InfixOp.Lte | InfixOp.Gt | InfixOp.Gte => true
  | _ => false
  end.

Definition comparison_chain_tail (lhs : Expr) (next : InfixOp) : option Expr :=
  if is_comparison next then chain_tail lhs else None.

(** [unsupported(ts, start, feature)]: the placeholder of a construct that is recorded. *)
Definition unsupported_expr (start : Z) (feature : Unsupported.UnsupportedCypherFeature) : P Expr :=
  span ← gets (span_from start);
  record_unsupported feature span;;
  mret (Expr.Literal (Literal.Null span)).

(** [Span::new(start, ts.current_pos())] of an expression that is complete. *)
Definition spanned {A} (start : Z) (mk : Span -> A) : P A :=
  span ← gets (span_from start);
  mret (mk span).

(** Run [m] on a clone of the stream: where it ended, or [None] if it failed. *)
Definition probe {A} (m : P A) : P (option TokenStream) := fun ts =>
  match m ts with
  | None => None
  | Some (Err _) => Some (Ok (None, ts))
  | Some (Ok (_, ts')) => Some (Ok (Some ts', ts))
  end.

Section expr.
Context (self : Rec).

(** ** Calls *)

Definition parse_function_call_args (name : list str) (start : Z) : P Expr :=
  star ← eat_if Tok.Star;
  if (star : bool) then
    eat Tok.RParen;;
    spanned start (fun span => Expr.FunctionCall (mkFunctionCall name false true [] span))
  else
    distinct ← eat_if Tok.Distinct;
    close ← gets (at_ Tok.RParen);
    args ← (if (close : bool) then mret [] else comma_separated (rec_expr self 0));
    eat Tok.RParen;;
    spanned start (fun span => Expr.FunctionCall (mkFunctionCall name distinct false args span)).

Definition parse_keyword_function (start : Z) : P Expr :=
  name ← peek_keyword_name;
  advance;;
  call ← eat_if Tok.LParen;
  if (call : bool) then parse_function_call_args [name] start
  else spanned start (fun span => Expr.Var (mkVarRef name span)).

Definition parse_identifier (name : str) (start : Z) : P Expr :=
  advance;;
  call ← eat_if Tok.LParen;
  if (call : bool) then parse_function_call_args [name] start
  else
    segments ← gets (namespaced_call_segments name);
    match segments with
    | Some segments =>
        advance_pairs (length segments - 1);;
        eat Tok.LParen;;
        parse_function_call_args segments start
    | None => spanned start (fun span => Expr.Var (mkVarRef name span))
    end.

(** [var IN list WHERE pred )] *)
Definition parse_quantifier (kind : QuantifierKind.QuantifierKind) (start : Z) : P Expr :=
  t ← advance;
  match tk <$> t with
  | Some (Tok.Ident var) =>
      eat Tok.In;;
      list ← rec_expr self 0;
      eat Tok.Where;;
      predicate ← rec_expr self 0;
      eat Tok.RParen;;
      spanned start (fun span => Expr.Quantifier (mkQuantifier kind var list predicate span))
  | _ => panic
  end.

Definition quantifier_kind (t : Tok) : QuantifierKind.QuantifierKind :=
  match t with
  | Tok.All => QuantifierKind.All
  | Tok.Any => QuantifierKind.Any
  | Tok.None => QuantifierKind.None
  | _ => QuantifierKind.Single
  end.

Definition parse_quantifier_or_call (start : Z) : P Expr :=
  t ← gets peek;
  match t with
  | Some t =>
      name ← peek_keyword_name;
      advance;;
      eat Tok.LParen;;
      ident ← gets at_ident;
      in_ ← gets (at_n 1 Tok.In);
      if ident && in_ then parse_quantifier (quantifier_kind t) start
      else parse_function_call_args [name] start
  | None => panic
  end.

(** ** Blocks *)

Definition starts_clause (t : option Tok) : bool :=
  match t with
  | Some (Tok.Match | Tok.Optional | Tok.With | Tok.Return | Tok.Unwind | Tok.Create | Tok.Merge
         | Tok.Set_ | Tok.Remove | Tok.Delete | Tok.Detach | Tok.Call) => true
  | _ => false
  end.

Definition parse_exists (start : Z) : P Expr :=
  advance;;
  block ← eat_if Tok.LBrace;
  if (block : bool) then
    t ← gets peek;
    body ← (if starts_clause t then q ← rec_query self true; mret (Full q)
            else
              pattern ← parse_pattern_inner self;
              filter ← opt_after Tok.Where (rec_expr self 0);
              mret (Simple pattern filter));
    eat Tok.RBrace;;
    spanned start (fun span => Expr.ExistentialSubquery (mkExistentialSubquery body span))
  else
    eat Tok.LParen;;
    parse_function_call_args [bytes_of "exists"] start.

Definition parse_count_block (start : Z) : P Expr :=
  parse_exists start;;
  unsupported_expr start Unsupported.CountSubquery.

Definition parse_reduce (start : Z) : P Expr :=
  advance;;
  eat Tok.LParen;;
  eat_ident;;
  eat Tok.Eq;;
  rec_expr self 0;;
  eat Tok.Comma;;
  eat_ident;;
  eat Tok.In;;
  rec_expr self 0;;
  eat Tok.Pipe;;
  rec_expr self 0;;
  eat Tok.RParen;;
  unsupported_expr start Unsupported.Reduce.

Definition parse_shortest_path (start : Z) : P Expr :=
  advance;;
  eat Tok.LParen;;
  parse_pattern_inner self;;
  eat Tok.RParen;;
  unsupported_expr start Unsupported.ShortestPath.

(** ** Patterns as expressions *)

(** The shape test: a node pattern followed by the start of a relationship. *)
Definition starts_path (node : P (NodePattern Expr)) : P bool :=
  r ← probe node;
  match r with
  | Some ts' => mret (is_relationship_start (peek ts'))
  | None => mret false
  end.

Definition try_parse_pattern_predicate (start : Z) : P (option Expr) :=
  path ← starts_path (parse_node_pattern_inner self);
  if (path : bool) then
    pattern ← parse_pattern_inner self;
    e ← spanned start (fun span => Expr.PatternPredicate (mkPatternPredicate pattern span));
    mret (Some e)
  else mret None.

(** A node pattern after an optional [name =]. *)
Definition named_node_pattern : P (NodePattern Expr) :=
  ident ← gets at_ident;
  eq ← gets (at_n 1 Tok.Eq);
  (if ident && eq then advance;; advance;; mret tt else mret tt);;
  parse_node_pattern_inner self.

Definition try_parse_pattern_comprehension (start : Z) : P (option Expr) :=
  path ← starts_path named_node_pattern;
  if (path : bool) then
    pattern ← parse_pattern_inner self;
    let var := pp_var pattern in
    let pattern := mkPathPattern None (pp_elements pattern) (pp_span pattern) in
    filter ← opt_after Tok.Where (rec_expr self 0);
    eat Tok.Pipe;;
    projection ← rec_expr self 0;
    eat Tok.RBracket;;
    e ← spanned start (fun span =>
          Expr.PatternComprehension (mkPatternComprehension var pattern filter projection span));
    mret (Some e)
  else mret None.

(** ** Lists, maps, CASE *)

(** [var IN list WHERE filter | projection ]] *)
Definition parse_list_comprehension (start : Z) : P Expr :=
  t ← advance;
  match tk <$> t with
  | Some (Tok.Ident var) =>
      eat Tok.In;;
      list ← rec_expr self 0;
      filter ← opt_after Tok.Where (rec_expr self 0);
      projection ← opt_after Tok.Pipe (rec_expr self 0);
      eat Tok.RBracket;;
      spanned start (fun span =>
        Expr.ListComprehension (mkListComprehension var list filter projection span))
  | _ => panic
  end.

Definition parse_list_or_comprehension (start : Z) : P Expr :=
  empty ← eat_if Tok.RBracket;
  if (empty : bool) then spanned start (fun span => Expr.List (mkListLiteral [] span))
  else
    pc ← try_parse_pattern_comprehension start;
    match pc with
    | Some e => mret e
    | None =>
        ident ← gets at_ident;
        in_ ← gets (at_n 1 Tok.In);
        if ident && in_ then parse_list_comprehension start
        else
          elements ← comma_separated (rec_expr self 0);
          eat Tok.RBracket;;
          spanned start (fun span => Expr.List (mkListLiteral elements span))
    end.

(** The entries of a map literal; a repeated key is an error after its value. *)
Definition parse_map_entries : P (list (str * Expr) * list (str * Span)) :=
  loop (fun '(entries, key_spans) =>
    key ← eat_ident_with_span;
    eat Tok.Colon;;
    val ← rec_expr self 0;
    if bool_decide (fst key ∈ entries.*1) then err
    else
      let entries := entries ++ [(fst key, val)] in
      let key_spans := key_spans ++ [key] in
      comma ← eat_if Tok.Comma;
      if (comma : bool) then mret (inl (entries, key_spans)) else mret (inr (entries, key_spans)))
    ([], []).

Definition parse_map_literal (start : Z) : P Expr :=
  empty ← gets (at_ Tok.RBrace);
  r ← (if (empty : bool) then mret ([], []) else parse_map_entries);
  eat Tok.RBrace;;
  spanned start (fun span => Expr.Map (mkMapLiteral (fst r) (snd r) span)).

Definition parse_when_clauses : P (list (WhenClause Expr)) :=
  loop (fun whens =>
    b ← eat_if Tok.When;
    if (b : bool) then
      when_start ← gets current_pos;
      condition ← rec_expr self 0;
      eat Tok.Then;;
      result ← rec_expr self 0;
      w ← spanned when_start (mkWhenClause condition result);
      mret (inl (whens ++ [w]))
    else mret (inr whens)) [].

Definition parse_case_expr (start : Z) : P Expr :=
  searched ← gets (at_ Tok.When);
  subject ← (if (searched : bool) then mret None else e ← rec_expr self 0; mret (Some e));
  whens ← parse_when_clauses;
  else_expr ← opt_after Tok.Else (rec_expr self 0);
  eat Tok.End;;
  spanned start (fun span => Expr.Case (mkCaseExpr subject whens else_expr span)).

(** ** Prefix *)

Definition parse_negation (start : Z) : P Expr :=
  advance;;
  t ← gets peek;
  match t with
  | Some (Tok.IntLit n) =>
      t ← advance_unwrap;
      v ← negate_i64_magnitude n (token_span t);
      mret (Expr.Literal (Literal.Int v (mkSpan start (tk_end t))))
  | _ =>
      e ← rec_expr self 75;
      spanned start (fun span => Expr.UnaryOp (mkUnaryOp UnaryOpKind.Neg e span))
  end.

(** A literal token. *)
Definition literal_token (mk : Span -> Literal.Literal) : P Expr :=
  t ← advance_unwrap;
  mret (Expr.Literal (mk (token_span t))).

Definition parse_prefix : P Expr :=
  start ← gets current_pos;
  t ← gets peek;
  brace ← gets (at_n 1 Tok.LBrace);
  paren ← gets (at_n 1 Tok.LParen);
  match t with
  | Some (Tok.IntLit n) =>
      t ← advance_unwrap;
      v ← to_i64 n (token_span t);
      mret (Expr.Literal (Literal.Int v (token_span t)))
  | Some (Tok.FloatLit f) => literal_token (Literal.Float f)
  | Some (Tok.StrLit s) => literal_token (Literal.Str s)
  | Some Tok.True => literal_token (Literal.Bool true)
  | Some Tok.False => literal_token (Literal.Bool false)
  | Some Tok.Null => literal_token Literal.Null
  | Some (Tok.Param name) =>
      t ← advance_unwrap;
      mret (Expr.Param (mkParamRef name (token_span t)))
  | Some (Tok.Ident name) => parse_identifier name start
  | Some (Tok.All | Tok.Any | Tok.None | Tok.Single) => parse_quantifier_or_call start
  | Some Tok.Exists => parse_exists start
  | Some Tok.Count =>
      if (brace : bool) then parse_count_block start else parse_keyword_function start
  | Some Tok.Reduce =>
      if (paren : bool) then parse_reduce start else parse_keyword_function start
  | Some (Tok.ShortestPath | Tok.AllShortestPaths) =>
      if (paren : bool) then parse_shortest_path start else parse_keyword_function start
  | Some (Tok.Filter | Tok.Extract) => parse_keyword_function start
  | Some Tok.Not =>
      advance;;
      e ← rec_expr self 35;
      spanned start (fun span => Expr.UnaryOp (mkUnaryOp UnaryOpKind.Not e span))
  | Some Tok.Minus => parse_negation start
  | Some Tok.LParen =>
      pp ← try_parse_pattern_predicate start;
      match pp with
      | Some e => mret e
      | None =>
          advance;;
          inner ← rec_expr self 0;
          eat Tok.RParen;;
          spanned start (Expr.Parenthesized inner)
      end
  | Some Tok.LBracket => advance;; parse_list_or_comprehension start
  | Some Tok.LBrace => advance;; parse_map_literal start
  | Some Tok.Case => advance;; parse_case_expr start
  | Some _ => err
  | None =>
      span ← gets current_span;
      fail (mkParseError (ParseErrorKind.UnexpectedEof [Text "expression"]) span)
  end.

(** ** Infix and postfix *)

(** The right operand, and the span of the whole. *)
Definition parse_rhs (start r_bp : Z) : P (Expr * Span) :=
  advance;;
  rhs ← rec_expr self r_bp;
  mret (rhs, mkSpan start (sp_end (expr_span rhs))).

Definition parse_binary (lhs : Expr) (op : InfixOp) (r_bp start : Z) : P Expr :=
  r ← parse_rhs start r_bp;
  let '(rhs, span) := r in
  match infix_op_to_binary_kind op with
  | Some kind =>
      let comparison_left := comparison_chain_tail lhs op in
      let binary := Expr.BinaryOp (mkBinaryOp kind (default lhs comparison_left) rhs span) in
      match comparison_left with
      | Some _ => mret (Expr.BinaryOp (mkBinaryOp BinaryOpKind.And lhs binary span))
      | None => mret binary
      end
  | None => panic
  end.

Definition parse_label_predicate (lhs : Expr) (start : Z) : P Expr :=
  advance;;
  label ← eat_ident;
  span ← gets (span_from start);
  match lhs with
  | Expr.Var v => mret (Expr.LabelPredicate (mkLabelPredicate (vr_name v) [label] span))
  | Expr.LabelPredicate p =>
      mret (Expr.LabelPredicate (mkLabelPredicate (lp_var p) (lp_labels p ++ [label]) span))
  | other =>
      fail (mkParseError (ParseErrorKind.UnexpectedToken (DebugExpr other)
                            [Text "variable before `:Label` predicate"]) span)
  end.

(** A synthetic call that stands for a subscript or a slice. *)
Definition synthetic_call (start : Z) (name : string) (args : list Expr) : P Expr :=
  spanned start (fun span =>
    Expr.FunctionCall (mkFunctionCall [bytes_of name] false false args span)).

Definition parse_subscript (lhs : Expr) (start : Z) : P Expr :=
  advance;;
  from_start ← eat_if Tok.DotDot;
  if (from_start : bool) then
    hi ← rec_expr self 0;
    eat Tok.RBracket;;
    synthetic_call start "_slice_from_start" [lhs; hi]
  else
    idx ← rec_expr self 0;
    slice ← eat_if Tok.DotDot;
    if (slice : bool) then
      to_end ← gets (at_ Tok.RBracket);
      call ← (if (to_end : bool) then mret ("_slice_to_end", [lhs; idx])
              else hi ← rec_expr self 0; mret ("_slice", [lhs; idx; hi]));
      eat Tok.RBracket;;
      synthetic_call start (fst call) (snd call)
    else
      eat Tok.RBracket;;
      synthetic_call start "_subscript" [lhs; idx].

Definition parse_infix (lhs : Expr) (op : InfixOp) (r_bp : Z) : P Expr :=
  let start := sp_start (expr_span lhs) in
  match op with
  | InfixOp.Or | InfixOp.Xor | InfixOp.And | InfixOp.Eq | InfixOp.Neq | InfixOp.Lt | InfixOp.Lte
  | InfixOp.Gt | InfixOp.Gte | InfixOp.Add | InfixOp.Sub | InfixOp.Mul | InfixOp.Div
  | InfixOp.Mod | InfixOp.Pow => parse_binary lhs op r_bp start
  | InfixOp.RegexMatch =>
      r ← parse_rhs start r_bp; mret (Expr.RegexMatch lhs (fst r) (snd r))
  | InfixOp.IsNull => advance;; spanned start (Expr.IsNull lhs false)
  | InfixOp.IsNotNull => advance;; spanned start (Expr.IsNull lhs true)
  | InfixOp.In => r ← parse_rhs start r_bp; mret (Expr.InList lhs (fst r) false (snd r))
  | InfixOp.NotIn => r ← parse_rhs start r_bp; mret (Expr.InList lhs (fst r) true (snd r))
  | InfixOp.StartsWith =>
      r ← parse_rhs start r_bp; mret (Expr.StringOp lhs StringOpKind.StartsWith (fst r) (snd r))
  | InfixOp.EndsWith =>
      r ← parse_rhs start r_bp; mret (Expr.StringOp lhs StringOpKind.EndsWith (fst r) (snd r))
  | InfixOp.Contains =>
      r ← parse_rhs start r_bp; mret (Expr.StringOp lhs StringOpKind.Contains (fst r) (snd r))
  | InfixOp.Dot =>
      advance;;
      key ← eat_ident;
      spanned start (fun span => Expr.Property (mkPropertyAccess lhs key span))
  | InfixOp.LabelPredicate => parse_label_predicate lhs start
  | InfixOp.Subscript => parse_subscript lhs start
  end.

(** One step of the operator loop: extend [lhs], or stop. *)
Definition infix_step (min_bp : Z) (lhs : Expr) : P (Expr + Expr) :=
  op ← gets peek_infix_op;
  match op with
  | Some op =>
      let '(l_bp, r_bp) := infix_binding_power op in
      if l_bp <? min_bp then mret (inr lhs)
      else lhs' ← parse_infix lhs op r_bp; mret (inl lhs')
  | None => mret (inr lhs)
  end.

Definition parse_expr_inner (min_bp : Z) : P Expr :=
  lhs ← parse_prefix;
  loop (infix_step min_bp) lhs.
End expr.
