(* ===== verification/ParseClause.v ===== *)
(** * ParseClause: clauses and queries ([graphforge-cypher/src/parser/clauses.rs]), the knot
    that ties the recursive parsers together, and the public entry points. *)

From stdpp Require Import base numbers list strings.
From Stdlib Require Import ZArith Lia.
From S2P Require Import Prelude Text Ast Scan Lexer TokenStream ParsePattern ParseExpr.

#[local] Open Scope string_scope.
#[local] Open Scope list_scope.
#[local] Open Scope Z_scope.

(** ** Names *)

Definition eat_ident : P str :=
  t ← gets peek;
  match t with
  | Some (Tok.Ident name) => advance;; mret name
  | _ => err
  end.

Definition eat_ident_with_span : P (str * Span) :=
  t ← gets peek;
  match t with
  | Some (Tok.Ident name) => t ← advance_unwrap; mret (name, token_span t)
  | _ => err
  end.

(** Keyword tokens as alias and label names. *)
Definition tok_as_alias_str (tok : Tok) : option string :=
  match tok with
  | Tok.Count => Some "count" | Tok.Exists => Some "exists" | Tok.Filter => Some "filter"
  | Tok.Reduce => Some "reduce" | Tok.Extract => Some "extract" | Tok.Match => Some "match"
  | Tok.Return => Some "return" | Tok.Where => Some "where" | Tok.With => Some "with"
  | Tok.As => Some "as" | Tok.Distinct => Some "distinct" | Tok.Union => Some "union"
  | Tok.All => Some "all" | Tok.Create => Some "create" | Tok.Merge => Some "merge"
  | Tok.On => Some "on" | Tok.Set_ => Some "set" | Tok.Remove => Some "remove"
  | Tok.Delete => Some "delete" | Tok.Detach => Some "detach" | Tok.Call => Some "call"
  | Tok.Yield => Some "yield" | Tok.Unwind => Some "unwind" | Tok.Order => Some "order"
  | Tok.By => Some "by" | Tok.Skip => Some "skip" | Tok.Limit => Some "limit"
  | Tok.Is => Some "is" | Tok.In => Some "in" | Tok.Starts => Some "starts"
  | Tok.Ends => Some "ends" | Tok.Contains => Some "contains" | Tok.Case => Some "case"
  | Tok.When => Some "when" | Tok.Then => Some "then" | Tok.Else => Some "else"
  | Tok.End => Some "end" | Tok.True => Some "true" | Tok.False => Some "false"
  | Tok.Null => Some "null" | Tok.Not => Some "not" | Tok.And => Some "and"
  | Tok.Or => Some "or" | Tok.Xor => Some "xor" | Tok.Optional => Some "optional"
  | Tok.Any => Some "any" | Tok.None => Some "none" | Tok.Single => Some "single"
  | Tok.ShortestPath => Some "shortestPath" | Tok.AllShortestPaths => Some "allShortestPaths"
  | Tok.Asc => Some "asc" | Tok.Desc => Some "desc" | Tok.Ascending => Some "ascending"
  | Tok.Descending => Some "descending"
  | _ => None
  end.

(** [eat_label_name] and [eat_alias] differ in their messages only. *)
Definition eat_alias : P str :=
  t ← gets peek;
  match t with
  | Some (Tok.Ident name) => advance;; mret name
  | Some tok =>
      match tok_as_alias_str tok with
      | Some kw => advance;; mret (bytes_of kw)
      | None => err
      end
  | None => err
  end.

Definition eat_label_name : P str := eat_alias.

(** [:Label1:Label2], at least one. *)
Definition eat_label_names : P (list str) :=
  labels ← loop (fun labels =>
    colon ← eat_if Tok.Colon;
    if (colon : bool) then l ← eat_label_name; mret (inl (labels ++ [l])) else mret (inr labels)) [];
  match labels with
  | [] => err
  | _ => mret labels
  end.

(** [proc.name] *)
Definition parse_procedure_name : P (list str) :=
  first ← eat_ident;
  loop (fun parts =>
    dot ← gets (at_ Tok.Dot);
    if (dot : bool) then advance;; p ← eat_ident; mret (inl (parts ++ [p])) else mret (inr parts))
    [first].

Section clause.
Context (self : Rec).

(** [if ts.at(tok) { ts.advance(); Some(parse_expr(ts, 0)?) } else { None }] *)
Definition opt_expr_after (tok : Tok) : P (option Expr) :=
  b ← gets (at_ tok);
  if (b : bool) then advance;; e ← rec_expr self 0; mret (Some e) else mret None.

(** ** Projections *)

Definition parse_one_return_item : P (ReturnItem Expr) :=
  start ← gets current_pos;
  star ← gets (at_ Tok.Star);
  if (star : bool) then
    t ← advance_unwrap;
    let span := token_span t in
    mret (mkReturnItem (Expr.Var (mkVarRef (bytes_of "*") span)) None None span)
  else
    e ← rec_expr self 0;
    written ← gets (text (expr_span e));
    alias ← opt_after Tok.As eat_alias;
    spanned start (mkReturnItem e alias (Some (trim written))).

Definition parse_return_items : P (list (ReturnItem Expr)) :=
  comma_separated parse_one_return_item.

Definition parse_sort_item : P (SortItem Expr) :=
  start ← gets current_pos;
  e ← rec_expr self 0;
  t ← gets peek;
  order ←
    match t with
    | Some (Tok.Asc | Tok.Ascending) => advance;; mret SortOrder.Ascending
    | Some (Tok.Desc | Tok.Descending) => advance;; mret SortOrder.Descending
    | _ => mret SortOrder.Ascending
    end;
  spanned start (mkSortItem e order).

Definition parse_opt_order_by : P (option (OrderByClause Expr)) :=
  order ← gets (at_ Tok.Order);
  if (order : bool) then
    start ← gets current_pos;
    advance;;
    eat Tok.By;;
    items ← comma_separated parse_sort_item;
    c ← spanned start (mkOrderByClause items);
    mret (Some c)
  else mret None.

(** ** Reading clauses *)

Definition parse_where_clause : P (WhereClause Expr) :=
  start ← gets current_pos;
  eat Tok.Where;;
  predicate ← rec_expr self 0;
  spanned start (mkWhereClause predicate).

Definition parse_opt_where : P (option (WhereClause Expr)) :=
  b ← gets (at_ Tok.Where);
  if (b : bool) then w ← parse_where_clause; mret (Some w) else mret None.

Definition parse_match_clause (optional : bool) : P (MatchClause Expr) :=
  start ← gets current_pos;
  (if optional then eat Tok.Optional;; mret tt else mret tt);;
  eat Tok.Match;;
  patterns ← parse_pattern_list_inner self;
  where_clause ← parse_opt_where;
  spanned start (mkMatchClause patterns where_clause).

Definition parse_return_clause : P (ReturnClause Expr) :=
  start ← gets current_pos;
  eat Tok.Return;;
  distinct ← eat_if Tok.Distinct;
  items ← parse_return_items;
  order_by ← parse_opt_order_by;
  skip ← opt_expr_after Tok.Skip;
  limit ← opt_expr_after Tok.Limit;
  spanned start (mkReturnClause distinct items order_by skip limit).

Definition parse_with_clause : P (WithClause Expr) :=
  start ← gets current_pos;
  eat Tok.With;;
  distinct ← eat_if Tok.Distinct;
  items ← parse_return_items;
  order_by ← parse_opt_order_by;
  skip ← opt_expr_after Tok.Skip;
  limit ← opt_expr_after Tok.Limit;
  where_clause ← parse_opt_where;
  spanned start (mkWithClause distinct items order_by skip limit where_clause).

Definition parse_unwind_clause : P (UnwindClause Expr) :=
  start ← gets current_pos;
  eat Tok.Unwind;;
  e ← rec_expr self 0;
  eat Tok.As;;
  alias ← eat_ident;
  spanned start (mkUnwindClause e alias).

Definition parse_union_clause : P UnionClause :=
  start ← gets current_pos;
  eat Tok.Union;;
  all ← eat_if Tok.All;
  spanned start (mkUnionClause all).

(** ** Writing clauses *)

(** The first relationship of [patterns] with a type disjunction. *)
Definition disjunctive_rel (patterns : list (PathPattern Expr)) : option (RelPattern Expr) :=
  head (omap (fun el =>
    match el with
    | Rel r => if (1 <? lenZ (rp_types r)) then Some r else None
    | Node _ => None
    end) (patterns ≫= pp_elements)).

Definition parse_create_clause : P (CreateClause Expr) :=
  start ← gets current_pos;
  eat Tok.Create;;
  patterns ← parse_pattern_list_inner self;
  match disjunctive_rel patterns with
  | Some r =>
      err_at (rp_span r)
        (ParseErrorKind.UnexpectedToken (Text "|") [Text "a single relationship type"])
  | None => spanned start (mkCreateClause patterns)
  end.

Definition var_property (name key : str) (var_span span : Span) : PropertyAccess Expr :=
  mkPropertyAccess (Expr.Var (mkVarRef name var_span)) key span.

Definition parse_set_item : P (SetItem Expr) :=
  start ← gets current_pos;
  parenthesized ← eat_if Tok.LParen;
  v ← eat_ident_with_span;
  let '(var, var_span) := v in
  (if (parenthesized : bool) then eat Tok.RParen;; mret tt else mret tt);;
  t ← gets peek;
  match t with
  | Some Tok.Dot =>
      advance;;
      key ← eat_ident;
      prop_span ← gets (span_from start);
      eat Tok.Eq;;
      value ← rec_expr self 0;
      spanned start (SetProperty (var_property var key var_span prop_span) value)
  | Some Tok.Eq =>
      advance;;
      map ← rec_expr self 0;
      spanned start (SetPropertyReplace var map)
  | Some Tok.PlusEq =>
      advance;;
      map ← rec_expr self 0;
      spanned start (SetPropertyMerge var map)
  | Some Tok.Colon =>
      labels ← eat_label_names;
      spanned start (SetLabel var labels)
  | _ => err
  end.

Definition parse_set_items : P (list (SetItem Expr)) := comma_separated parse_set_item.

Definition parse_set_clause : P (SetClause Expr) :=
  start ← gets current_pos;
  eat Tok.Set_;;
  items ← parse_set_items;
  spanned start (mkSetClause items).

(** The [ON CREATE SET] and [ON MATCH SET] parts of MERGE, in any order. *)
Definition parse_merge_actions : P (list (SetItem Expr) * list (SetItem Expr)) :=
  loop (fun '(on_create, on_match) =>
    on ← gets (at_ Tok.On);
    if (on : bool) then
      advance;;
      t ← gets peek;
      match t with
      | Some Tok.Create =>
          advance;;
          eat Tok.Set_;;
          items ← parse_set_items;
          mret (inl (on_create ++ items, on_match))
      | Some Tok.Match =>
          advance;;
          eat Tok.Set_;;
          items ← parse_set_items;
          mret (inl (on_create, on_match ++ items))
      | _ => err
      end
    else mret (inr (on_create, on_match))) ([], []).

Definition parse_merge_clause : P (MergeClause Expr) :=
  start ← gets current_pos;
  eat Tok.Merge;;
  pattern ← parse_pattern_inner self;
  actions ← parse_merge_actions;
  spanned start (mkMergeClause pattern (fst actions) (snd actions)).

Definition parse_remove_item : P (RemoveItem Expr) :=
  start ← gets current_pos;
  v ← eat_ident_with_span;
  let '(var, var_span) := v in
  t ← gets peek;
  match t with
  | Some Tok.Dot =>
      advance;;
      key ← eat_ident;
      spanned start (fun span => RemoveProperty (var_property var key var_span span) span)
  | Some Tok.Colon =>
      labels ← eat_label_names;
      spanned start (RemoveLabel var labels)
  | _ => err
  end.

Definition parse_remove_clause : P (RemoveClause Expr) :=
  start ← gets current_pos;
  eat Tok.Remove;;
  items ← comma_separated parse_remove_item;
  spanned start (mkRemoveClause items).

Definition parse_delete_clause (detach : bool) : P (DeleteClause Expr) :=
  start ← gets current_pos;
  (if detach then eat Tok.Detach;; mret tt else mret tt);;
  eat Tok.Delete;;
  exprs ← comma_separated (rec_expr self 0);
  spanned start (mkDeleteClause detach exprs).

(** ** CALL *)

Definition parse_opt_yield : P (list (ReturnItem Expr)) :=
  b ← gets (at_ Tok.Yield);
  if (b : bool) then advance;; parse_return_items else mret [].

(** The arguments of a procedure call after its opening parenthesis. *)
Definition parse_call_args : P (list Expr) :=
  empty ← eat_if Tok.RParen;
  if (empty : bool) then mret []
  else
    args ← comma_separated (rec_expr self 0);
    eat Tok.RParen;;
    mret args.

Definition parse_call_clause : P (CallClause Expr) :=
  start ← gets current_pos;
  eat Tok.Call;;
  block ← gets (at_ Tok.LBrace);
  if (block : bool) then
    eat Tok.LBrace;;
    body ← rec_query self true;
    match aq_clauses body with
    | [] => err
    | _ =>
        eat Tok.RBrace;;
        record_unsupported_from Unsupported.CallSubquery start;;
        spanned start (mkCallClause [] [] false [])
    end
  else
    procedure ← parse_procedure_name;
    args_explicit ← gets (at_ Tok.LParen);
    args ← (if (args_explicit : bool) then advance;; parse_call_args else mret []);
    yield_items ← parse_opt_yield;
    spanned start (mkCallClause procedure args args_explicit yield_items).

(** ** Queries *)

(** The clause that a token starts. *)
Definition parse_clause (t : Tok) : P (AstClause.AstClause Expr) :=
  match t with
  | Tok.Match => c ← parse_match_clause false; mret (AstClause.Match c)
  | Tok.Optional => c ← parse_match_clause true; mret (AstClause.OptionalMatch c)
  | Tok.With => c ← parse_with_clause; mret (AstClause.With c)
  | Tok.Return => c ← parse_return_clause; mret (AstClause.Return c)
  | Tok.Unwind => c ← parse_unwind_clause; mret (AstClause.Unwind c)
  | Tok.Union => c ← parse_union_clause; mret (AstClause.Union c)
  | Tok.Create => c ← parse_create_clause; mret (AstClause.Create c)
  | Tok.Merge => c ← parse_merge_clause; mret (AstClause.Merge c)
  | Tok.Set_ => c ← parse_set_clause; mret (AstClause.Set_ c)
  | Tok.Remove => c ← parse_remove_clause; mret (AstClause.Remove c)
  | Tok.Delete => c ← parse_delete_clause false; mret (AstClause.Delete c)
  | Tok.Detach => c ← parse_delete_clause true; mret (AstClause.Delete c)
  | Tok.Call => c ← parse_call_clause; mret (AstClause.Call c)
  | _ => err
  end.

(** One iteration of the loop over clauses. *)
Definition clause_step (stop_at_closing_brace : bool) (clauses : list (AstClause.AstClause Expr))
    : P (list (AstClause.AstClause Expr) + list (AstClause.AstClause Expr)) :=
  t ← gets peek;
  match t with
  | None => mret (inr clauses)
  | Some t =>
      if stop_at_closing_brace && bool_decide (t = Tok.RBrace) then mret (inr clauses)
      else c ← parse_clause t; mret (inl (clauses ++ [c]))
  end.

Definition parse_query_until (stop_at_closing_brace : bool) : P (AstQuery Expr) :=
  start ← gets current_pos;
  clauses ← loop (clause_step stop_at_closing_brace) [];
  spanned start (mkAstQuery OpenCypher9 clauses).
End clause.

(** ** The recursive parsers *)

(** The parsers with recursion to a bounded depth. *)
Fixpoint knot (fuel : nat) : Rec :=
  match fuel with
  | O => mkRec (fun _ => panic) panic (fun _ => panic)
  | S fuel' =>
      let self := knot fuel' in
      mkRec (parse_expr_inner self) (parse_pattern_inner self) (parse_query_until self)
  end.

(** Every level of recursion consumes a token, so the tokens left bound the depth. *)
Definition with_fuel {A} (m : Rec -> P A) : P A := fun ts => m (knot (S (remaining ts))) ts.
