(* ===== verification/ParseSpec.v ===== *)
(** * ParseSpec: what the parser guarantees of every query.

    One pass over the parsing functions shows that each of them ends, consumes tokens where
    a loop or a recursion relies on it, gives a tree with ordered positions and a
    well-formed shape ([WellFormed]), and reports errors inside the text. *)

From stdpp Require Import base numbers list strings sorting.
From Stdlib Require Import ZArith Lia ZifyBool.
From S2P Require Import Prelude Text Ast Scan Lexer WellFormed TokenStream.
From S2P Require Import ParsePattern ParseExpr ParseClause.

#[local] Open Scope list_scope.
#[local] Open Scope Z_scope.

(** ** Streams *)

Section streams.
Context `{Wr : Written}.

(** The cursor of a query: token positions are in order, integers are not negative, every
    NULL token is one of the written ones, and a recorded error is inside the text. *)
Record ok (ts : TokenStream) : Prop := mkOk {
  ok_spans : spans_ok (input ts) (tokens ts);
  ok_tokens : Forall (fun t => tok_ok (tk t) /\ (tk t = Tok.Null -> written (token_span t) = true)) (tokens ts);
  ok_error e : unsupported ts = Some e -> error_within 0 (str_len (input ts)) e }.

(** [ts'] is reached from [ts]: tokens are consumed, a recorded error is never lost. *)
Record later (ts ts' : TokenStream) : Prop := mkLater {
  later_tokens : exists used, tokens ts = used ++ tokens ts';
  later_input : input ts' = input ts;
  later_none : unsupported ts' = None -> unsupported ts = None;
  later_some e : unsupported ts' = Some e -> unsupported ts = Some e \/ error_within 0 (str_len (input ts)) e }.

#[global] Instance later_preorder : PreOrder later.
Proof.
  split.
  - intros ts. split; eauto. by exists [].
  - intros t1 t2 t3 [(u1&H1) I1 N1 S1] [(u2&H2) I2 N2 S2]. split; [|congruence|auto|].
    + exists (u1 ++ u2). by rewrite H1, H2, app_assoc.
    + intros e He. destruct (S2 e He) as [He'|]; [by apply S1|]. rewrite <-I1. auto.
Qed.

Lemma spans_ok_app inp used rest : spans_ok inp (used ++ rest) -> spans_ok inp rest.
Proof.
  intros [Ha Hs]. apply Forall_app in Ha as [_ Ha]. split; [done|].
  by apply StronglySorted_app_1_r in Hs.
Qed.

Lemma later_ok ts ts' : later ts ts' -> ok ts -> ok ts'.
Proof.
  intros [(used&Hu) Hi _ Hs] [Hok Ht He]. split; rewrite ?Hi.
  - rewrite Hu in Hok. by apply spans_ok_app in Hok.
  - rewrite Hu in Ht. by apply Forall_app in Ht as [_ Ht].
  - intros e Hu'. destruct (Hs e Hu'); auto.
Qed.

Lemma boundary_range inp p : boundary inp p -> 0 <= p <= str_len inp.
Proof.
  intros (pre&post&->&->). rewrite str_len_app.
  pose proof (str_len_nonneg pre). pose proof (str_len_nonneg post). lia.
Qed.

(** The first token of a stream, and what follows it. *)
Lemma ok_cons t toks inp u :
  ok (mkTokenStream (t :: toks) inp u) ->
  0 <= tk_start t < tk_end t /\ tk_end t <= current_pos (mkTokenStream toks inp u) <= str_len inp.
Proof.
  intros [[Ha Hs] _ _]. simpl in *. inversion Ha as [|? ? (H1&H2&H3) Ha']; subst.
  apply boundary_range in H1, H2. split; [lia|]. unfold current_pos. simpl.
  destruct toks as [|t' toks]; [lia|]. inversion Hs as [|? ? _ Hle]; subst.
  inversion Hle; subst. inversion Ha' as [|? ? (H1'&_&_) _]; subst.
  apply boundary_range in H1'. lia.
Qed.

Lemma current_pos_range ts : ok ts -> 0 <= current_pos ts <= str_len (input ts).
Proof.
  intros [[Ha _] _ _]. unfold current_pos. destruct (tokens ts) as [|t toks] eqn:E.
  - pose proof (str_len_nonneg (input ts)). lia.
  - inversion Ha as [|? ? (H1&_&_) _]; subst. by apply boundary_range in H1.
Qed.

Lemma later_bounds ts ts' :
  ok ts -> later ts ts' ->
  ok ts' /\ (remaining ts' <= remaining ts)%nat /\ current_pos ts <= current_pos ts' /\
  input ts' = input ts /\ (unsupported ts' = None -> unsupported ts = None).
Proof.
  intros Hok Hl. pose proof (later_ok _ _ Hl Hok) as Hok'.
  destruct Hl as [(used&Hu) Hi Hn _]. split; [done|].
  unfold remaining, TokenStream_remaining. rewrite Hu, length_app. split; [lia|].
  split; [|done]. destruct Hok as [[Ha Hs] _ _]. rewrite Hu in Ha, Hs.
  pose proof (current_pos_range _ Hok') as Hr. rewrite Hi in Hr.
  unfold current_pos in *. rewrite Hu, Hi in *. destruct used as [|t used]; simpl; [lia|].
  inversion Ha as [|? ? (H1&H2&H3) Ha']; subst. apply boundary_range in H1, H2.
  destruct (tokens ts') as [|t' toks]; [lia|]. inversion Hs as [|? ? _ Hle]; subst.
  rewrite Forall_forall in Hle. specialize (Hle t'). rewrite elem_of_app, elem_of_cons in Hle.
  specialize (Hle (or_intror (or_introl eq_refl))). lia.
Qed.

Lemma ok_peek_int ts k : ok ts -> peek ts = Some (Tok.IntLit k) -> 0 <= k.
Proof.
  intros [_ Ht _]. unfold peek. destruct Ht as [|t toks [Ht _] _]; [done|]. simpl. intros [= Hk].
  rewrite Hk in Ht. apply Ht.
Qed.

(** ** Specifications *)

(** [m] run from [ts] ends later with [Q], or with an error inside the text. *)
Definition spec {A} (m : P A) (ts : TokenStream) (Q : A -> TokenStream -> Prop) : Prop :=
  wp m ts (fun a ts' => later ts ts' /\ Q a ts') (error_within 0 (str_len (input ts))).

Lemma spec_ret {A} (a : A) ts (Q : A -> TokenStream -> Prop) : Q a ts -> spec (mret a) ts Q.
Proof. intros H. apply wp_ret. split; [reflexivity|done]. Qed.

Lemma spec_gets {A B} (g : TokenStream -> A) (k : A -> P B) ts Q :
  spec (k (g ts)) ts Q -> spec (gets g ≫= k) ts Q.
Proof. intros H. apply wp_bind, wp_gets, H. Qed.

Lemma spec_bind {A B} (m : P A) (k : A -> P B) ts (Q : A -> TokenStream -> Prop) R :
  spec m ts Q ->
  (forall a ts', later ts ts' -> Q a ts' -> spec (k a) ts' R) ->
  spec (m ≫= k) ts R.
Proof.
  intros Hm Hk. apply wp_bind. eapply wp_mono; [exact Hm| |done]. intros a ts' [Hl HQ].
  pose proof (later_input _ _ Hl) as Hi. rewrite <-Hi.
  eapply wp_mono; [by apply Hk| |done]. intros b ts'' [Hl' HR]. split; [by transitivity ts'|done].
Qed.

Lemma spec_mono {A} (m : P A) ts (Q R : A -> TokenStream -> Prop) :
  spec m ts Q -> (forall a ts', later ts ts' -> Q a ts' -> R a ts') -> spec m ts R.
Proof. intros Hm HR. eapply wp_mono; [exact Hm| |done]. intros a ts' [Hl HQ]. eauto. Qed.

Lemma spec_fail {A} kind span ts (Q : A -> TokenStream -> Prop) :
  0 <= sp_start span <= sp_end span -> sp_end span <= str_len (input ts) ->
  spec (fail (mkParseError kind span)) ts Q.
Proof. intros H1 H2. apply wp_fail. by split. Qed.

Lemma spec_err {A} ts (Q : A -> TokenStream -> Prop) : ok ts -> spec err ts Q.
Proof.
  intros Hok. apply spec_gets, wp_fail. destruct ts as [[|t toks] inp u]; unfold error_within; simpl.
  - pose proof (str_len_nonneg inp). lia.
  - apply ok_cons in Hok. lia.
Qed.

Lemma spec_loop {A B} (body : A -> P (A + B)) a ts (I : A -> TokenStream -> Prop)
    (Q : B -> TokenStream -> Prop) :
  ok ts -> I a ts ->
  (forall a ts', later ts ts' -> I a ts' ->
     spec (body a) ts' (fun r ts'' => match r with
       | inl a' => I a' ts'' /\ (remaining ts'' < remaining ts')%nat
       | inr b => Q b ts''
       end)) ->
  spec (loop body a) ts Q.
Proof.
  intros Hok HI Hbody. unfold spec.
  apply (wp_loop body (fun a ts' => later ts ts' /\ I a ts')); [split; [reflexivity|done]|].
  intros a' ts' [Hl HI']. rewrite <-(later_input _ _ Hl). eapply wp_mono; [| |done].
  - by apply Hbody.
  - intros [a''|b] ts'' [Hl' H]; simpl; (split; [|tauto]); [split; [|tauto]|]; by transitivity ts'.
Qed.

End streams.

(** Use what [later] gives about a state just reached. *)
Ltac saturate :=
  repeat match goal with
  | Hok : ok ?ts, Hl : later ?ts ?ts' |- _ =>
      lazymatch goal with
      | _ : ok ts' |- _ => fail
      | _ =>
          let H1 := fresh "Hok" in let H2 := fresh "Hrem" in let H3 := fresh "Hpos" in
          let H4 := fresh "Hin" in let H5 := fresh "Hun" in
          pose proof (later_bounds ts ts' Hok Hl) as (H1&H2&H3&H4&H5)
      end
  end.

(** The rules above, in order, until a call needs its own lemma. *)
Ltac spec_side := first [assumption | eassumption | lia | done | simpl; lia].
Ltac spec_step lem :=
  eapply spec_bind; [eapply lem; spec_side | cbv beta; intros ? ? ? ?; saturate].
Ltac spec_last lem :=
  eapply spec_mono; [eapply lem; spec_side | cbv beta; intros ? ? ? ?; saturate].

(** ** The cursor *)

Section cursor.
Context `{Wr : Written}.

Lemma spec_advance ts :
  ok ts ->
  spec advance ts (fun o ts' =>
    match peek ts with
    | None => o = None
    | Some tok => (remaining ts' < remaining ts)%nat /\
        exists t, o = Some t /\ tk t = tok /\ tk_start t = current_pos ts /\
          tk_start t < tk_end t <= current_pos ts'
    end).
Proof.
  intros Hok. destruct ts as [[|t toks] inp u]; unfold spec, wp; simpl; [by split|].
  apply ok_cons in Hok. split; [by split; simpl; eauto; exists [t]|].
  unfold remaining, TokenStream_remaining; simpl. split; [lia|]. exists t. repeat split; lia.
Qed.

Lemma at_true tok ts : at_ tok ts = true -> peek ts = Some tok.
Proof. unfold at_. apply bool_decide_eq_true. Qed.

(** [ts.advance()] on a token that has been seen. *)
Lemma spec_advance_seen tok ts :
  ok ts -> peek ts = Some tok ->
  spec advance ts (fun _ ts' => (remaining ts' < remaining ts)%nat).
Proof. intros Hok Hp. spec_last spec_advance. rewrite Hp in *. tauto. Qed.

(** [ts.advance().unwrap()]: the token, and that a NULL is a written one. *)
Lemma spec_advance_token tok ts :
  ok ts -> peek ts = Some tok ->
  spec advance_unwrap ts (fun t ts' => (remaining ts' < remaining ts)%nat /\ tk t = tok /\
    tk_start t = current_pos ts /\ tk_start t < tk_end t <= current_pos ts' /\
    (tok = Tok.Null -> written (token_span t) = true)).
Proof.
  intros Hok Hp. pose proof (ok_tokens _ Hok) as Hw. destruct ts as [[|t toks] inp u]; [done|].
  apply ok_cons in Hok. apply Forall_cons_1 in Hw as [[_ Hw] _]. injection Hp as <-.
  unfold spec, wp; simpl. split; [by split; simpl; eauto; exists [t]|].
  unfold remaining, TokenStream_remaining; simpl. repeat split; [lia..|done].
Qed.

Lemma spec_advance_unwrap tok ts :
  ok ts -> peek ts = Some tok ->
  spec advance_unwrap ts (fun t ts' => (remaining ts' < remaining ts)%nat /\ tk t = tok /\
    tk_start t = current_pos ts /\ tk_start t < tk_end t <= current_pos ts').
Proof. intros Hok Hp. spec_last spec_advance_token. tauto. Qed.

Lemma spec_eat tok ts :
  ok ts ->
  spec (eat tok) ts (fun r ts' => (remaining ts' < remaining ts)%nat /\
    fst r = current_pos ts /\ fst r < snd r <= current_pos ts').
Proof.
  intros Hok. unfold spec, wp, eat. pose proof (current_pos_range _ Hok).
  destruct ts as [[|t toks] inp u]; simpl in *; [by split; simpl; lia|].
  apply ok_cons in Hok. case_decide; [|split; simpl; lia].
  split; [by split; simpl; eauto; exists [t]|].
  unfold remaining, TokenStream_remaining; simpl. repeat split; lia.
Qed.

Lemma spec_eat_if tok ts :
  ok ts ->
  spec (eat_if tok) ts (fun b ts' => if (b : bool) then (remaining ts' < remaining ts)%nat else ts' = ts).
Proof.
  intros Hok. apply spec_gets. destruct (at_ tok ts) eqn:E; [|by apply spec_ret].
  apply at_true in E. spec_step spec_advance_seen. by apply spec_ret.
Qed.

Lemma spec_record_unsupported feature span ts :
  0 <= sp_start span <= sp_end span -> sp_end span <= str_len (input ts) ->
  spec (record_unsupported feature span) ts (fun _ ts' =>
    tokens ts' = tokens ts /\ input ts' = input ts /\ unsupported ts' <> None).
Proof.
  intros H1 H2. apply wp_modify. destruct ts as [toks inp [e|]]; simpl in *.
  - split; [reflexivity|done].
  - split; [|done]. split; simpl; [by exists []|done|done|].
    intros e [= <-]. right. by split.
Qed.

Lemma current_pos_eq ts ts' :
  tokens ts' = tokens ts -> input ts' = input ts -> current_pos ts' = current_pos ts.
Proof. unfold current_pos. by intros -> ->. Qed.

Lemma spec_record_from feature start ts :
  ok ts -> 0 <= start <= current_pos ts ->
  spec (record_unsupported_from feature start) ts (fun _ ts' =>
    tokens ts' = tokens ts /\ input ts' = input ts /\ unsupported ts' <> None).
Proof.
  intros Hok Hs. apply spec_gets. pose proof (current_pos_range _ Hok).
  apply spec_record_unsupported; simpl; lia.
Qed.

(** A node that spans from [start] to the cursor. *)
Lemma spec_spanned {A} start (mk : Span -> A) ts (Q : A -> TokenStream -> Prop) :
  Q (mk (mkSpan start (current_pos ts))) ts -> spec (spanned start mk) ts Q.
Proof. intros H. by apply spec_gets, spec_ret. Qed.

(** A comma-separated list of items that consume tokens. *)
Lemma spec_comma_separated {A} (item : P A) (I : A -> TokenStream -> Prop) ts :
  ok ts ->
  (forall a ts1 ts2, later ts1 ts2 -> I a ts1 -> I a ts2) ->
  (forall ts', ok ts' -> later ts ts' ->
     spec item ts' (fun a ts'' => (remaining ts'' < remaining ts')%nat /\ I a ts'')) ->
  spec (comma_separated item) ts (fun l ts' =>
    (remaining ts' < remaining ts)%nat /\ l <> [] /\ Forall (fun a => I a ts') l).
Proof.
  intros Hok Hmono Hitem.
  eapply spec_bind; [by apply Hitem|]. simpl. intros first ts1 Hl1 [Hr1 HI1]. saturate.
  eapply (spec_loop _ _ _ (fun l ts' => (remaining ts' < remaining ts)%nat /\ l <> [] /\
                                        Forall (fun a => I a ts') l)); [done| |].
  - repeat split; [done|done|]. by repeat constructor.
  - intros l ts2 Hl2 (Hr2&Hne&Hall). saturate. spec_step (spec_eat_if Tok.Comma).
    destruct a; [|subst; by apply spec_ret].
    eapply spec_bind; [apply Hitem; [done|by transitivity ts2; [transitivity ts1|]]|].
    simpl. intros x ts3 Hl3 [Hr3 HI3]. saturate. apply spec_ret. split; [|lia].
    split; [lia|]. split; [by destruct l|]. apply Forall_app. split; [|by repeat constructor].
    eapply Forall_impl; [exact Hall|]. intros y Hy. eapply Hmono; [|exact Hy].
    by transitivity ts'.
Qed.

(** ** The interface between the parsing functions *)

(** An expression that starts at [start] and ends before the cursor; its shape matters when
    no unsupported construct has been recorded, since a placeholder may stand in it. *)
Definition expr_from (start : Z) (e : Expr) (ts' : TokenStream) : Prop :=
  sp_start (expr_span e) = start /\ start <= sp_end (expr_span e) <= current_pos ts' /\
  (unsupported ts' = None -> wf_expr e = true).

Definition expr_post (ts : TokenStream) (e : Expr) (ts' : TokenStream) : Prop :=
  (remaining ts' < remaining ts)%nat /\ expr_from (current_pos ts) e ts'.

(** The position of a relationship is inside the text. *)
Definition rel_within (hi : Z) (el : PathElement Expr) : Prop :=
  match el with
  | Rel r => 0 <= sp_start (rp_span r) <= sp_end (rp_span r) /\ sp_end (rp_span r) <= hi
  | Node _ => True
  end.

Definition pattern_from (p : PathPattern Expr) (ts' : TokenStream) : Prop :=
  Forall (rel_within (str_len (input ts'))) (pp_elements p) /\
  (unsupported ts' = None -> wf_pattern wf_expr p = true).

Definition pattern_post (ts : TokenStream) (p : PathPattern Expr) (ts' : TokenStream) : Prop :=
  (remaining ts' < remaining ts)%nat /\ pattern_from p ts'.

Definition query_post (q : AstQuery Expr) (ts' : TokenStream) : Prop :=
  unsupported ts' = None -> wf_query wf_expr q = true.

(** What a parsing function may assume of the functions it calls recursively, on streams
    with fewer than [n] tokens. *)
Record rec_ok (n : nat) (self : Rec) : Prop := mkRecOk {
  rec_expr_ok bp ts :
    ok ts -> (remaining ts < n)%nat -> spec (rec_expr self bp) ts (expr_post ts);
  rec_pattern_ok ts :
    ok ts -> (remaining ts < n)%nat -> spec (rec_pattern self) ts (pattern_post ts);
  rec_query_ok b ts :
    ok ts -> (remaining ts < n)%nat -> spec (rec_query self b) ts query_post }.

End cursor.

(** [eapply] the lemma of the first call and name its result. *)
Tactic Notation "sstep" uconstr(lem) "as" simple_intropattern(a) simple_intropattern(t)
    simple_intropattern(H) :=
  eapply spec_bind; [eapply lem; spec_side | cbv beta; intros a t; let Hl := fresh "Hl" in intros Hl H; saturate].
Tactic Notation "slast" uconstr(lem) "as" simple_intropattern(a) simple_intropattern(t)
    simple_intropattern(H) :=
  eapply spec_mono; [eapply lem; spec_side | cbv beta; intros a t; let Hl := fresh "Hl" in intros Hl H; saturate].

(** Facts of the form [unsupported ts = None -> b = true] chain along [later]. *)
Ltac shapes :=
  repeat match goal with
  | H : _ && _ = true |- _ => apply andb_true_iff in H as [? ?]
  | |- _ && _ = true => apply andb_true_iff; split
  end; auto 8.

Section functions.
Context `{Wr : Written}.

(** ** Patterns *)

Lemma at_ident_true ts : at_ident ts = true -> exists name, peek ts = Some (Tok.Ident name).
Proof. unfold at_ident. destruct (peek ts) as [[]|]; naive_solver. Qed.

Lemma spec_pattern_ident ts :
  ok ts -> spec ParsePattern.eat_ident ts (fun _ ts' => (remaining ts' < remaining ts)%nat).
Proof.
  intros Hok. apply spec_gets. destruct (peek ts) as [tok|] eqn:E; [|by apply spec_err].
  destruct tok; try by apply spec_err. sstep spec_advance_seen as u ts1 H1. by apply spec_ret.
Qed.

Lemma spec_label_name ts :
  ok ts -> spec ParsePattern.eat_label_name ts (fun _ ts' => (remaining ts' < remaining ts)%nat).
Proof.
  intros Hok. apply spec_gets. destruct (peek ts) as [tok|] eqn:E; [|by apply spec_err].
  assert (Hadv : forall s : str, spec (advance ;; mret s) ts (fun _ ts' => (remaining ts' < remaining ts)%nat)).
  { intros s. sstep spec_advance_seen as u ts1 H1. by apply spec_ret. }
  destruct tok; cbn [tok_as_label_str]; first [apply Hadv|by apply spec_err].
Qed.

Lemma spec_opt_ident ts : ok ts -> spec opt_ident ts (fun _ _ => True).
Proof.
  intros Hok. apply spec_gets. destruct (at_ident ts); [|by apply spec_ret].
  sstep spec_pattern_ident as u ts1 H1. by apply spec_ret.
Qed.

Lemma spec_to_u32 n span ts :
  0 <= sp_start span <= sp_end span -> sp_end span <= str_len (input ts) ->
  spec (to_u32 n span) ts (fun m _ => is_u32 m = true).
Proof.
  intros H1 H2. unfold to_u32. destruct (in_range 0 u32_max n) eqn:E.
  - by apply spec_ret.
  - by apply spec_fail.
Qed.

(** An integer token and its range check. *)
Lemma spec_int_token n ts :
  ok ts -> peek ts = Some (Tok.IntLit n) ->
  spec (t ← advance_unwrap; to_u32 n (token_span t)) ts (fun m _ => is_u32 m = true).
Proof.
  intros Hok Hp. sstep spec_advance_unwrap as t ts1 (Hr&Ht&Hs&He).
  pose proof (current_pos_range _ Hok). pose proof (current_pos_range _ Hok0).
  apply spec_to_u32; simpl; lia.
Qed.

Lemma spec_u32_lit ts : ok ts -> spec parse_u32_lit ts (fun m _ => is_u32 m = true).
Proof.
  intros Hok. apply spec_gets. destruct (peek ts) as [tok|] eqn:E; [|by apply spec_err].
  destruct tok; try by apply spec_err. by apply spec_int_token.
Qed.

Definition hops_ok (r : option Z * option Z) : Prop :=
  opt_all is_u32 (fst r) = true /\ opt_all is_u32 (snd r) = true.

Lemma spec_opt_max lo other ts :
  ok ts -> opt_all is_u32 lo = true -> opt_all is_u32 other = true ->
  spec (b ← gets at_int;
        if (b : bool) then max ← parse_u32_lit; mret (lo, Some max) else mret (other, None)) ts
    (fun r _ => hops_ok r).
Proof.
  intros Hok H1 H2. apply spec_gets. destruct (at_int ts); [|by apply spec_ret].
  sstep spec_u32_lit as m ts1 H3. by apply spec_ret.
Qed.

Lemma spec_hop_range ts : ok ts -> spec parse_hop_range ts (fun r _ => hops_ok r).
Proof.
  intros Hok. apply spec_gets. destruct (peek ts) as [tok|] eqn:E; [|by apply spec_ret].
  destruct tok; try by apply spec_ret.
  - sstep spec_advance_unwrap as t ts1 (Hr&Ht&Hs&He).
    pose proof (current_pos_range _ Hok). pose proof (current_pos_range _ Hok0).
    sstep spec_to_u32 as m ts2 Hm. sstep (spec_eat_if Tok.DotDot) as b ts3 Hb.
    destruct b; [by apply spec_opt_max|by apply spec_ret].
  - sstep spec_advance_seen as u ts1 Hr. by apply spec_opt_max.
Qed.

Lemma spec_parse_labels ts : ok ts -> spec parse_labels ts (fun _ _ => True).
Proof.
  intros Hok. apply (spec_loop _ _ _ (fun _ _ => True)); [done..|]. intros labels ts1 Hl1 _. saturate.
  sstep (spec_eat_if Tok.Colon) as b ts2 H2. destruct b; [|by apply spec_ret].
  sstep spec_label_name as name ts4 H4. apply spec_ret. split; [done|lia].
Qed.

Lemma spec_parse_types ts : ok ts -> spec parse_types ts (fun _ _ => True).
Proof.
  intros Hok. sstep (spec_eat_if Tok.Colon) as b ts1 H1. destruct b; [|by apply spec_ret].
  sstep spec_label_name as name ts2 H2.
  apply (spec_loop _ _ _ (fun _ _ => True)); [done..|]. intros types ts3 Hl3 _. saturate.
  sstep (spec_eat_if Tok.Pipe) as b ts4 H4. destruct b; [|by apply spec_ret].
  sstep (spec_eat_if Tok.Colon) as b ts5 H5. sstep spec_label_name as l ts6 H6.
  apply spec_ret. split; [done|lia].
Qed.

Section patterns.
Context (n : nat) (self : Rec) (Hself : rec_ok n self).

Lemma spec_opt_properties ts :
  ok ts -> (remaining ts < n)%nat ->
  spec (opt_properties self) ts (fun o ts' => unsupported ts' = None -> opt_all wf_expr o = true).
Proof.
  intros Hok Hn. apply spec_gets. destruct (at_ _ ts); [|by apply spec_ret].
  sstep (rec_expr_ok _ _ Hself) as e ts1 (Hr&_&_&Hwf). by apply spec_ret.
Qed.

Lemma spec_node_pattern ts :
  ok ts -> (remaining ts <= n)%nat ->
  spec (parse_node_pattern_inner self) ts (fun node ts' => (remaining ts' < remaining ts)%nat /\
    (unsupported ts' = None -> wf_element wf_expr (Node node) = true)).
Proof.
  intros Hok Hn. apply spec_gets.
  sstep (spec_eat Tok.LParen) as r ts1 H1. sstep spec_opt_ident as var ts2 H2.
  sstep spec_parse_labels as labels ts3 H3. sstep spec_opt_properties as props ts4 H4.
  sstep (spec_eat Tok.RParen) as r2 ts5 H5. apply spec_ret. split; [lia|]. simpl. auto.
Qed.

Definition detail_from (d : RelationshipDetail) (ts' : TokenStream) : Prop :=
  opt_all is_u32 (rd_min_hops d) = true /\ opt_all is_u32 (rd_max_hops d) = true /\
  (unsupported ts' = None -> opt_all wf_expr (rd_properties d) = true).

Lemma detail_from_later d ts ts' : detail_from d ts -> later ts ts' -> detail_from d ts'.
Proof. intros (H1&H2&H3) Hl. repeat split; auto. intros Hu. apply H3, (later_none _ _ Hl Hu). Qed.

Lemma spec_rel_detail ts :
  ok ts -> (remaining ts < n)%nat -> spec (parse_rel_detail self) ts detail_from.
Proof.
  intros Hok Hn. sstep spec_opt_ident as var ts1 H1. sstep spec_parse_types as types ts2 H2.
  sstep (spec_eat_if Tok.Star) as star ts3 H3.
  eapply (spec_bind _ _ _ (fun r _ => hops_ok r)).
  { destruct star; [by apply spec_hop_range|by apply spec_ret]. }
  intros hops ts4 Hl4 [Hmin Hmax]. saturate.
  sstep spec_opt_properties as props ts5 H5. by apply spec_ret.
Qed.

(** The end of a relationship that started at [start]. *)
Lemma spec_rel_pattern start d dir ts :
  ok ts -> 0 <= start <= current_pos ts -> detail_from d ts ->
  spec (rel_pattern start d dir) ts (fun r ts' => ts' = ts /\
    rel_within (str_len (input ts)) (Rel r) /\
    (unsupported ts' = None -> wf_element wf_expr (Rel r) = true)).
Proof.
  intros Hok Hs (H1&H2&H3). apply spec_gets, spec_ret. pose proof (current_pos_range _ Hok).
  split; [done|]. split; [simpl; lia|]. simpl. intros Hu. rewrite (H3 Hu). by rewrite H1, H2.
Qed.

Lemma no_detail_from ts : detail_from no_detail ts.
Proof. done. Qed.

Definition rel_post (ts : TokenStream) (r : RelPattern Expr) (ts' : TokenStream) : Prop :=
  (remaining ts' < remaining ts)%nat /\ rel_within (str_len (input ts')) (Rel r) /\
  (unsupported ts' = None -> wf_element wf_expr (Rel r) = true).

(** The closing arrow of a relationship: [Some direction] for each token that may close it. *)
Lemma spec_rel_close start d dir ts0 ts :
  ok ts -> 0 <= start <= current_pos ts -> detail_from d ts ->
  (remaining ts < remaining ts0)%nat ->
  spec (rel_pattern start d dir) ts (rel_post ts0).
Proof.
  intros Hok Hs Hd Hr. slast (spec_rel_pattern start d dir) as r ts1 (->&Hw&Hwf). by split.
Qed.

Lemma spec_two_closings start d t1 dir1 t2 dir2 ts0 ts :
  ok ts -> 0 <= start <= current_pos ts -> detail_from d ts ->
  (remaining ts < remaining ts0)%nat ->
  spec (b ← eat_if t1;
        if (b : bool) then rel_pattern start d dir1
        else b ← eat_if t2; if (b : bool) then rel_pattern start d dir2 else err) ts
    (rel_post ts0).
Proof.
  intros Hok Hs Hd Hr. sstep (spec_eat_if t1) as b ts1 H1.
  assert (Hd1 : detail_from d ts1) by (by eapply detail_from_later).
  destruct b; [apply spec_rel_close; [done|lia|done|lia]|]. sstep (spec_eat_if t2) as b ts2 H2.
  destruct b; [|by apply spec_err].
  apply spec_rel_close; [done|lia|by eapply detail_from_later|lia].
Qed.

Lemma spec_rel_pattern_parse ts :
  ok ts -> (remaining ts <= n)%nat -> spec (parse_rel_pattern self) ts (rel_post ts).
Proof.
  intros Hok Hn. pose proof (current_pos_range _ Hok) as Hc. apply spec_gets, spec_gets.
  destruct (peek ts) as [tok|] eqn:E; [|by apply spec_err].
  destruct tok; try by apply spec_err.
  - sstep spec_advance_seen as u ts1 H1. by apply spec_two_closings; [| lia| apply no_detail_from|].
  - sstep spec_advance_seen as u ts1 H1. sstep spec_rel_detail as d ts2 H2.
    sstep (spec_eat Tok.RBracket) as r ts3 H3.
    apply spec_two_closings; [done|lia|by eapply detail_from_later|lia].
  - sstep spec_advance_seen as u ts1 H1. sstep (spec_eat_if Tok.LBracket) as b ts2 H2.
    destruct b.
    + sstep spec_rel_detail as d ts3 H3. sstep (spec_eat Tok.RBracket) as r ts4 H4.
      apply spec_two_closings; [done|lia|by eapply detail_from_later|lia].
    + sstep (spec_eat_if Tok.RightArrow) as b ts3 H3. destruct b.
      * apply spec_rel_close; [done|lia|apply no_detail_from|lia].
      * sstep (spec_eat Tok.Minus) as r ts4 H4.
        apply spec_rel_close; [done|lia|apply no_detail_from|lia].
Qed.

Lemma spec_path_name ts : ok ts -> spec parse_path_name ts (fun _ _ => True).
Proof.
  intros Hok. apply spec_gets, spec_gets. destruct (_ && _); [|by apply spec_ret].
  sstep spec_pattern_ident as name ts1 H1. sstep (spec_eat Tok.Eq) as r ts2 H2. by apply spec_ret.
Qed.

Definition elements_from (l : list (PathElement Expr)) (ts' : TokenStream) : Prop :=
  alternates l = true /\ Forall (rel_within (str_len (input ts'))) l /\
  (unsupported ts' = None -> forallb (wf_element wf_expr) l = true).

Lemma spec_path_tail first ts :
  ok ts -> (remaining ts <= n)%nat ->
  (unsupported ts = None -> wf_element wf_expr (Node first) = true) ->
  spec (parse_path_tail self first) ts elements_from.
Proof.
  intros Hok Hn Hwf. apply (spec_loop _ _ _ elements_from); [done| |].
  - repeat split; [by repeat constructor|]. intros Hu. cbn [forallb]. by rewrite (Hwf Hu).
  - intros l ts1 Hl1 (Halt&Hin1&Hwf1). saturate. apply spec_gets; cbv beta.
    destruct (is_relationship_start _); [|by apply spec_ret].
    sstep spec_rel_pattern_parse as r ts2 (Hr2&Hw2&Hwf2).
    sstep spec_node_pattern as node ts3 (Hr3&Hwf3). apply spec_ret. split; [|lia].
    repeat split; [by apply alternates_snoc| |].
    + assert (input ts3 = input ts1) as -> by congruence. apply Forall_app. split; [done|].
      constructor; [by replace (input ts1) with (input ts2) by congruence|]. by constructor.
    + intros Hu. rewrite forallb_app, Hwf1 by auto. cbn [forallb andb].
      by rewrite Hwf2, Hwf3 by auto.
Qed.

Lemma spec_pattern ts :
  ok ts -> (remaining ts <= n)%nat -> spec (parse_pattern_inner self) ts (pattern_post ts).
Proof.
  intros Hok Hn. pose proof (current_pos_range _ Hok). apply spec_gets.
  sstep spec_path_name as var ts1 H1. apply spec_gets; cbv beta.
  destruct (is_shortest_path (peek ts1)) eqn:E.
  - destruct (peek ts1) as [tok|] eqn:Et; [|done]. sstep spec_advance_seen as u ts2 H2.
    sstep (spec_eat Tok.LParen) as r ts3 H3. sstep (rec_pattern_ok _ _ Hself) as p ts4 [H4 [Hw4 Hwf4]].
    sstep (spec_eat Tok.RParen) as r2 ts5 H5. sstep spec_record_from as u2 ts6 (Ht&Hi&Hu).
    apply spec_gets, spec_ret. split; [lia|]. split; [|done]. simpl.
    by replace (input ts6) with (input ts4) by congruence.
  - sstep spec_node_pattern as node ts2 [H2 Hwf2]. sstep spec_path_tail as els ts3 (Ha&Hw&Hwf3).
    apply spec_gets, spec_ret. split; [lia|]. split; [done|]. intros Hu. unfold wf_pattern. simpl.
    by rewrite Ha, Hwf3.
Qed.

Lemma pattern_from_later p ts ts' : later ts ts' -> pattern_from p ts -> pattern_from p ts'.
Proof.
  intros Hl [H1 H2]. unfold pattern_from. rewrite (later_input _ _ Hl). split; [done|].
  intros Hu. apply H2, (later_none _ _ Hl Hu).
Qed.

Lemma spec_pattern_list ts :
  ok ts -> (remaining ts <= n)%nat ->
  spec (parse_pattern_list_inner self) ts (fun l ts' => (remaining ts' < remaining ts)%nat /\
    l <> [] /\ Forall (fun p => pattern_from p ts') l).
Proof.
  intros Hok Hn. apply spec_comma_separated; [done| |].
  - intros p ts1 ts2. apply pattern_from_later.
  - intros ts1 Hok1 Hl. apply later_bounds in Hl; [|done]. apply spec_pattern; [done|lia].
Qed.

(** ** Expressions *)

Definition expr_after (start : Z) (ts : TokenStream) (e : Expr) (ts' : TokenStream) : Prop :=
  (remaining ts' < remaining ts)%nat /\ expr_from start e ts'.

Lemma spec_expr_ident ts :
  ok ts -> spec ParseExpr.eat_ident_with_span ts (fun _ ts' => (remaining ts' < remaining ts)%nat).
Proof.
  intros Hok. sstep spec_advance as o ts1 H1. destruct (peek ts) as [tok|] eqn:E.
  - destruct H1 as (Hr&t&->&Ht&Hs&He). pose proof (current_pos_range _ Hok0).
    pose proof (current_pos_range _ Hok). subst tok.
    assert (Hret : forall r : str * Span, spec (mret r) ts1 (fun _ ts' => (remaining ts' < remaining ts)%nat))
      by (intros; by apply spec_ret).
    destruct (tk t); cbn [tok_as_keyword_str];
      first [apply Hret|apply spec_fail; simpl; lia|apply spec_gets; cbv beta; case_match; apply Hret].
  - subst o. by apply spec_err.
Qed.

Lemma spec_expr_ident_name ts :
  ok ts -> spec ParseExpr.eat_ident ts (fun _ ts' => (remaining ts' < remaining ts)%nat).
Proof. intros Hok. sstep spec_expr_ident as r ts1 H1. by apply spec_ret. Qed.

Lemma spec_exprs ts :
  ok ts -> (remaining ts < n)%nat ->
  spec (comma_separated (rec_expr self 0)) ts (fun l ts' => (remaining ts' < remaining ts)%nat /\
    l <> [] /\ (unsupported ts' = None -> forallb wf_expr l = true)).
Proof.
  intros Hok Hn. eapply spec_mono; [apply (spec_comma_separated _
    (fun e ts' => unsupported ts' = None -> wf_expr e = true)); [done| |]|].
  - intros e ts1 ts2 Hl He Hu. apply He, (later_none _ _ Hl Hu).
  - intros ts1 Hok1 Hl. apply later_bounds in Hl; [|done].
    slast (rec_expr_ok _ _ Hself) as e ts2 (Hr&_&_&Hwf). by split.
  - simpl. intros l ts' Hl (Hr&Hne&Hall). repeat split; [done..|]. intros Hu.
    apply Forall_forallb. eapply Forall_impl; [exact Hall|]. simpl. auto.
Qed.

(** [if ts.eat_if(tok) { Some(parse_expr(ts, 0)?) } else { None }] *)
Lemma spec_opt_after tok ts :
  ok ts -> (remaining ts <= n)%nat ->
  spec (opt_after tok (rec_expr self 0)) ts (fun o ts' => unsupported ts' = None -> opt_all wf_expr o = true).
Proof.
  intros Hok Hn. sstep (spec_eat_if tok) as b ts1 H1. destruct b; [|by apply spec_ret].
  sstep (rec_expr_ok _ _ Hself) as e ts2 (Hr&_&_&Hwf). by apply spec_ret.
Qed.

(** An expression that ends at the cursor. *)
Lemma spec_spanned_expr start (mk : Span -> Expr) ts :
  ok ts -> 0 <= start <= current_pos ts ->
  (forall span, expr_span (mk span) = span) ->
  (unsupported ts = None -> wf_expr (mk (mkSpan start (current_pos ts))) = true) ->
  spec (spanned start mk) ts (expr_from start).
Proof.
  intros Hok Hs Hsp Hwf. apply spec_spanned. unfold expr_from. rewrite Hsp. simpl.
  repeat split; [lia..|done].
Qed.

Lemma spec_unsupported_expr start feature ts :
  ok ts -> 0 <= start <= current_pos ts -> spec (unsupported_expr start feature) ts (expr_from start).
Proof.
  intros Hok Hs. pose proof (current_pos_range _ Hok). apply spec_gets.
  sstep spec_record_unsupported as u ts1 (Ht&Hi&Hu). apply spec_ret.
  split; [done|]. split; [|done]. simpl. rewrite (current_pos_eq _ _ Ht Hi). lia.
Qed.

Lemma spec_function_call_args name start ts :
  ok ts -> (remaining ts < n)%nat -> 0 <= start <= current_pos ts -> name <> [] ->
  spec (parse_function_call_args self name start) ts (expr_from start).
Proof.
  intros Hok Hn Hs Hname. apply nonempty_true in Hname.
  sstep (spec_eat_if Tok.Star) as star ts1 H1. destruct star.
  - sstep (spec_eat Tok.RParen) as r ts2 H2. apply spec_spanned_expr; [done|lia|done|].
    intros _. simpl. by rewrite Hname.
  - sstep (spec_eat_if Tok.Distinct) as d ts2 H2. apply spec_gets; cbv beta.
    eapply (spec_bind _ _ _ (fun args ts' => unsupported ts' = None -> forallb wf_expr args = true)).
    { assert (remaining ts2 < n)%nat by lia. destruct (at_ _ ts2); [by apply spec_ret|].
      slast spec_exprs as args ts3 (_&_&Hwf). done. }
    intros args ts3 Hl3 Hwf. saturate. sstep (spec_eat Tok.RParen) as r ts4 H4.
    apply spec_spanned_expr; [done|lia|done|]. intros Hu. simpl. by rewrite Hname, Hwf by auto.
Qed.

Lemma spec_keyword_name tok name ts (k : str -> P Expr) Q :
  peek ts = Some tok -> tok_keyword_name tok = Some name ->
  spec (k (bytes_of name)) ts Q -> spec (peek_keyword_name ≫= k) ts Q.
Proof.
  intros Hp Hk H. apply wp_bind. unfold peek_keyword_name. apply wp_bind, wp_gets.
  rewrite Hp. cbn [mbind option_bind]. rewrite Hk. apply wp_ret, H.
Qed.

Lemma spec_keyword_function tok name start ts :
  ok ts -> (remaining ts <= n)%nat -> 0 <= start <= current_pos ts ->
  peek ts = Some tok -> tok_keyword_name tok = Some name ->
  spec (parse_keyword_function self start) ts (expr_after start ts).
Proof.
  intros Hok Hn Hs Hp Hk. eapply spec_keyword_name; [done..|].
  sstep spec_advance_seen as u ts1 H1. sstep (spec_eat_if Tok.LParen) as b ts2 H2. destruct b.
  - slast spec_function_call_args as e ts3 H3. by split; [lia|].
  - slast spec_spanned_expr as e ts3 H3. by split; [lia|].
Qed.

Lemma spec_advance_pairs k ts : ok ts -> spec (advance_pairs k) ts (fun _ _ => True).
Proof.
  revert ts. induction k as [|k IH]; intros ts Hok; [by apply spec_ret|].
  sstep spec_advance as o ts1 H1. sstep spec_advance as o2 ts2 H2. by apply IH.
Qed.

Lemma spec_identifier name start ts :
  ok ts -> (remaining ts <= n)%nat -> 0 <= start <= current_pos ts ->
  peek ts = Some (Tok.Ident name) ->
  spec (parse_identifier self name start) ts (expr_after start ts).
Proof.
  intros Hok Hn Hs Hp. sstep spec_advance_seen as u ts1 H1.
  sstep (spec_eat_if Tok.LParen) as b ts2 H2. destruct b.
  - slast spec_function_call_args as e ts3 H3. by split; [lia|].
  - apply spec_gets; cbv beta. destruct (namespaced_call_segments name ts2) as [segs|] eqn:Es.
    + sstep spec_advance_pairs as u3 ts3 H3. sstep (spec_eat Tok.LParen) as r ts4 H4.
      assert (segs <> []).
      { unfold namespaced_call_segments in Es.
        destruct (dotted_segments (tokens ts2)) as [[|seg l] after]; [done|].
        destruct (tk <$> head after) as [[]|]; by simplify_eq. }
      slast spec_function_call_args as e ts5 H5. by split; [lia|].
    + slast spec_spanned_expr as e ts3 H3. by split; [lia|].
Qed.

Lemma spec_quantifier name kind start ts :
  ok ts -> (remaining ts <= n)%nat -> 0 <= start <= current_pos ts ->
  peek ts = Some (Tok.Ident name) ->
  spec (parse_quantifier self kind start) ts (expr_after start ts).
Proof.
  intros Hok Hn Hs Hp. sstep spec_advance as o ts1 H1. rewrite Hp in H1.
  destruct H1 as (Hr1&t&->&Ht&_). cbn [fmap option_fmap option_map]. rewrite Ht.
  sstep (spec_eat Tok.In) as r2 ts2 H2. sstep (rec_expr_ok _ _ Hself) as l ts3 (Hr3&_&_&Hwf3).
  sstep (spec_eat Tok.Where) as r4 ts4 H4. sstep (rec_expr_ok _ _ Hself) as p ts5 (Hr5&_&_&Hwf5).
  sstep (spec_eat Tok.RParen) as r6 ts6 H6.
  eapply spec_mono; [apply spec_spanned_expr; [done|lia|done|]|].
  - intros Hu. simpl. by rewrite Hwf3, Hwf5 by auto 8.
  - simpl. intros e ts7 Hl7 H7. saturate. by split; [lia|].
Qed.

Lemma spec_quantifier_or_call tok name start ts :
  ok ts -> (remaining ts <= n)%nat -> 0 <= start <= current_pos ts ->
  peek ts = Some tok -> tok_keyword_name tok = Some name ->
  spec (parse_quantifier_or_call self start) ts (expr_after start ts).
Proof.
  intros Hok Hn Hs Hp Hk. apply spec_gets. rewrite Hp. eapply spec_keyword_name; [done..|].
  sstep spec_advance_seen as u ts1 H1. sstep (spec_eat Tok.LParen) as r ts2 H2.
  apply spec_gets, spec_gets. destruct (at_ident ts2) eqn:Ei; cbn [andb].
  - apply at_ident_true in Ei as (var&Ei). destruct (at_n 1 Tok.In ts2).
    + slast spec_quantifier as e ts3 [Hr3 H3]. by split; [lia|].
    + slast spec_function_call_args as e ts3 H3. by split; [lia|].
  - slast spec_function_call_args as e ts3 H3. by split; [lia|].
Qed.

Lemma spec_exists tok start ts :
  ok ts -> (remaining ts <= n)%nat -> 0 <= start <= current_pos ts -> peek ts = Some tok ->
  spec (parse_exists self start) ts (expr_after start ts).
Proof.
  intros Hok Hn Hs Hp. sstep spec_advance_seen as u ts1 H1.
  sstep (spec_eat_if Tok.LBrace) as b ts2 H2. destruct b.
  - apply spec_gets; cbv beta.
    eapply (spec_bind _ _ _ (fun body ts' => unsupported ts' = None ->
      match body with
      | Simple p f => wf_pattern wf_expr p && opt_all wf_expr f
      | Full q => wf_query wf_expr q
      end = true)).
    { destruct (starts_clause _).
      - sstep (rec_query_ok _ _ Hself) as q ts3 H3. by apply spec_ret.
      - sstep spec_pattern as p ts3 [Hr3 [_ H3]]. sstep spec_opt_after as f ts4 H4.
        apply spec_ret. intros Hu. by rewrite H3, H4 by auto. }
    intros body ts3 Hl3 Hwf. saturate. sstep (spec_eat Tok.RBrace) as r ts4 H4.
    eapply spec_mono; [apply spec_spanned_expr; [done|lia|done|]|].
    + intros Hu. specialize (Hwf ltac:(auto)). simpl. by destruct body.
    + simpl. intros e ts5 Hl5 H5. saturate. by split; [lia|].
  - sstep (spec_eat Tok.LParen) as r ts3 H3.
    slast spec_function_call_args as e ts4 H4. by split; [lia|].
Qed.

(** A construct that is recognised, recorded and replaced by a placeholder. *)
Lemma spec_then_unsupported start feature ts0 ts :
  ok ts -> 0 <= start <= current_pos ts -> (remaining ts < remaining ts0)%nat ->
  spec (unsupported_expr start feature) ts (expr_after start ts0).
Proof.
  intros Hok Hs Hr. slast spec_unsupported_expr as e ts1 H1. by split; [lia|].
Qed.

Lemma spec_count_block tok start ts :
  ok ts -> (remaining ts <= n)%nat -> 0 <= start <= current_pos ts -> peek ts = Some tok ->
  spec (parse_count_block self start) ts (expr_after start ts).
Proof.
  intros Hok Hn Hs Hp. sstep spec_exists as e ts1 [Hr1 _]. apply spec_then_unsupported; [done|lia..].
Qed.

Lemma spec_reduce tok start ts :
  ok ts -> (remaining ts <= n)%nat -> 0 <= start <= current_pos ts -> peek ts = Some tok ->
  spec (parse_reduce self start) ts (expr_after start ts).
Proof.
  intros Hok Hn Hs Hp. sstep spec_advance_seen as u ts1 H1. sstep (spec_eat Tok.LParen) as r2 ts2 H2.
  sstep spec_expr_ident_name as i3 ts3 H3. sstep (spec_eat Tok.Eq) as r4 ts4 H4.
  sstep (rec_expr_ok _ _ Hself) as e5 ts5 [H5 _]. sstep (spec_eat Tok.Comma) as r6 ts6 H6.
  sstep spec_expr_ident_name as i7 ts7 H7. sstep (spec_eat Tok.In) as r8 ts8 H8.
  sstep (rec_expr_ok _ _ Hself) as e9 ts9 [H9 _]. sstep (spec_eat Tok.Pipe) as r10 ts10 H10.
  sstep (rec_expr_ok _ _ Hself) as e11 ts11 [H11 _]. sstep (spec_eat Tok.RParen) as r12 ts12 H12.
  apply spec_then_unsupported; [done|lia..].
Qed.

Lemma spec_shortest_path tok start ts :
  ok ts -> (remaining ts <= n)%nat -> 0 <= start <= current_pos ts -> peek ts = Some tok ->
  spec (parse_shortest_path self start) ts (expr_after start ts).
Proof.
  intros Hok Hn Hs Hp. sstep spec_advance_seen as u ts1 H1. sstep (spec_eat Tok.LParen) as r2 ts2 H2.
  sstep spec_pattern as p ts3 [H3 _]. sstep (spec_eat Tok.RParen) as r4 ts4 H4.
  apply spec_then_unsupported; [done|lia..].
Qed.

(** ** Patterns as expressions, lists, maps, CASE *)

(** A probe leaves the stream where it was. *)
Lemma spec_probe {A} (m : P A) ts Q :
  spec m ts Q -> spec (probe m) ts (fun _ ts' => ts' = ts).
Proof.
  unfold spec, wp, probe. destruct (m ts) as [[[a ts']|e]|]; [| |done]; (split; [reflexivity|done]).
Qed.

Lemma spec_starts_path node ts Q :
  spec node ts Q -> spec (starts_path node) ts (fun _ ts' => ts' = ts).
Proof.
  intros Hn. eapply spec_bind; [by eapply spec_probe|]. simpl. intros [ts'|] ts1 _ ->; by apply spec_ret.
Qed.

Definition opt_expr_after (start : Z) (ts : TokenStream) (o : option Expr) (ts' : TokenStream) : Prop :=
  match o with Some e => expr_after start ts e ts' | None => ts' = ts end.

Lemma spec_try_pattern_predicate start ts :
  ok ts -> (remaining ts <= n)%nat -> 0 <= start <= current_pos ts ->
  spec (try_parse_pattern_predicate self start) ts (opt_expr_after start ts).
Proof.
  intros Hok Hn Hs. eapply spec_bind; [by eapply spec_starts_path, spec_node_pattern|].
  simpl. intros b ts1 _ ->. destruct b; [|by apply spec_ret].
  sstep spec_pattern as p ts2 [Hr2 [_ Hwf2]].
  eapply spec_bind; [apply spec_spanned_expr; [done|lia|done|exact Hwf2]|].
  simpl. intros e ts3 Hl3 H3. saturate. apply spec_ret. by split; [lia|].
Qed.

Lemma spec_named_node ts :
  ok ts -> (remaining ts <= n)%nat -> spec (named_node_pattern self) ts (fun _ _ => True).
Proof.
  intros Hok Hn. apply spec_gets, spec_gets.
  eapply (spec_bind _ _ _ (fun _ _ => True)).
  { destruct (_ && _); [|by apply spec_ret]. sstep spec_advance as o ts1 H1.
    sstep spec_advance as o2 ts2 H2. by apply spec_ret. }
  intros u ts1 Hl _. saturate. slast spec_node_pattern as node ts2 H2. done.
Qed.

Lemma spec_try_pattern_comprehension start ts :
  ok ts -> (remaining ts <= n)%nat -> 0 <= start <= current_pos ts ->
  spec (try_parse_pattern_comprehension self start) ts (opt_expr_after start ts).
Proof.
  intros Hok Hn Hs. eapply spec_bind; [by eapply spec_starts_path, spec_named_node|].
  simpl. intros b ts1 _ ->. destruct b; [|by apply spec_ret].
  sstep spec_pattern as p ts2 [Hr2 [_ Hwf2]]. cbv zeta. sstep spec_opt_after as f ts3 H3.
  sstep (spec_eat Tok.Pipe) as r4 ts4 H4. sstep (rec_expr_ok _ _ Hself) as e5 ts5 (Hr5&_&_&Hwf5).
  sstep (spec_eat Tok.RBracket) as r6 ts6 H6.
  eapply spec_bind; [apply spec_spanned_expr; [done|lia|done|]|].
  - intros Hu. simpl. unfold wf_pattern in *. simpl. by rewrite Hwf2, H3, Hwf5 by auto 8.
  - simpl. intros e ts7 Hl7 H7. saturate. apply spec_ret. by split; [lia|].
Qed.

Lemma spec_list_comprehension var start ts :
  ok ts -> (remaining ts <= n)%nat -> 0 <= start <= current_pos ts ->
  peek ts = Some (Tok.Ident var) ->
  spec (parse_list_comprehension self start) ts (expr_from start).
Proof.
  intros Hok Hn Hs Hp. sstep spec_advance as o ts1 H1. rewrite Hp in H1.
  destruct H1 as (Hr1&t&->&Ht&_). cbn [fmap option_fmap option_map]. rewrite Ht.
  sstep (spec_eat Tok.In) as r2 ts2 H2. sstep (rec_expr_ok _ _ Hself) as l ts3 (Hr3&_&_&Hwf3).
  sstep spec_opt_after as f ts4 H4. sstep spec_opt_after as p ts5 H5.
  sstep (spec_eat Tok.RBracket) as r6 ts6 H6. apply spec_spanned_expr; [done|lia|done|].
  intros Hu. simpl. by rewrite Hwf3, H4, H5 by auto 8.
Qed.

Lemma spec_list_or_comprehension start ts :
  ok ts -> (remaining ts < n)%nat -> 0 <= start <= current_pos ts ->
  spec (parse_list_or_comprehension self start) ts (expr_from start).
Proof.
  intros Hok Hn Hs. sstep (spec_eat_if Tok.RBracket) as b ts1 H1. destruct b.
  { by apply spec_spanned_expr; [|lia| |]. }
  sstep spec_try_pattern_comprehension as pc ts2 H2. destruct pc as [e|].
  { apply spec_ret. apply H2. }
  apply spec_gets, spec_gets. destruct (at_ident ts2) eqn:Ei; cbn [andb].
  1: apply at_ident_true in Ei as (var&Ei); destruct (at_n 1 Tok.In ts2);
       [by eapply spec_list_comprehension; [|lia|lia|]|].
  all: sstep spec_exprs as l ts3 (Hr3&Hne&Hwf3); sstep (spec_eat Tok.RBracket) as r ts4 H4;
    apply spec_spanned_expr; [done|lia|done|]; intros Hu; simpl; auto.
Qed.

(** The entries of a map: distinct keys, each with the position of its key. *)
Definition entries_from (r : list (str * Expr) * list (str * Span)) (ts' : TokenStream) : Prop :=
  NoDup (fst r).*1 /\ (snd r).*1 = (fst r).*1 /\
  (unsupported ts' = None -> forallb (fun kv => wf_expr (snd kv)) (fst r) = true).

Lemma spec_map_entries ts :
  ok ts -> (remaining ts <= n)%nat -> spec (parse_map_entries self) ts entries_from.
Proof.
  intros Hok Hn. apply (spec_loop _ _ _ entries_from); [done|repeat split; constructor|].
  intros [entries spans] ts1 Hl1 (Hnd&Hks&Hwf). saturate. simpl in *.
  sstep spec_expr_ident as [key span] ts2 H2. sstep (spec_eat Tok.Colon) as r3 ts3 H3.
  sstep (rec_expr_ok _ _ Hself) as v ts4 (Hr4&_&_&Hwf4). simpl. case_bool_decide as Hk.
  { by apply spec_err. }
  assert (Hentries : forall ts', later ts4 ts' -> entries_from (entries ++ [(key, v)], spans ++ [(key, span)]) ts').
  { intros ts' Hlast. pose proof (later_none _ _ Hlast). repeat split; simpl.
    - rewrite fmap_app. apply NoDup_app. repeat split; [done| |apply NoDup_singleton].
      intros x Hx ->%list_elem_of_singleton. done.
    - by rewrite !fmap_app, Hks.
    - intros Hu. rewrite forallb_snoc, Hwf by auto 8. simpl. auto. }
  sstep (spec_eat_if Tok.Comma) as b ts5 H5. destruct b; apply spec_ret; [split; [|lia]|]; by apply Hentries.
Qed.

Lemma spec_map_literal start ts :
  ok ts -> (remaining ts <= n)%nat -> 0 <= start <= current_pos ts ->
  spec (parse_map_literal self start) ts (expr_from start).
Proof.
  intros Hok Hn Hs. apply spec_gets; cbv beta. eapply (spec_bind _ _ _ entries_from).
  { destruct (at_ _ ts); [apply spec_ret; repeat split; constructor|by apply spec_map_entries]. }
  intros [entries spans] ts1 Hl1 (Hnd&Hks&Hwf). saturate. sstep (spec_eat Tok.RBrace) as r ts2 H2.
  apply spec_spanned_expr; [done|lia|done|]. intros Hu. simpl in *.
  rewrite Hwf, !bool_decide_true by auto. done.
Qed.

Lemma spec_when_clauses ts :
  ok ts -> (remaining ts <= n)%nat ->
  spec (parse_when_clauses self) ts (fun l ts' => unsupported ts' = None ->
    forallb (fun w => wf_expr (wn_condition w) && wf_expr (wn_result w)) l = true).
Proof.
  intros Hok Hn. apply (spec_loop _ _ _ (fun l ts' => unsupported ts' = None ->
    forallb (fun w => wf_expr (wn_condition w) && wf_expr (wn_result w)) l = true)); [done..|].
  intros l ts1 Hl1 Hwf. saturate. sstep (spec_eat_if Tok.When) as b ts2 H2.
  destruct b; [|subst; by apply spec_ret]. apply spec_gets.
  sstep (rec_expr_ok _ _ Hself) as c ts3 (Hr3&_&_&Hwf3). sstep (spec_eat Tok.Then) as r4 ts4 H4.
  sstep (rec_expr_ok _ _ Hself) as v ts5 (Hr5&_&_&Hwf5). apply spec_gets, spec_ret.
  split; [|lia]. intros Hu. rewrite forallb_snoc, Hwf by auto 8. simpl. by rewrite Hwf3, Hwf5 by auto 8.
Qed.

Lemma spec_case_expr start ts :
  ok ts -> (remaining ts < n)%nat -> 0 <= start <= current_pos ts ->
  spec (parse_case_expr self start) ts (expr_from start).
Proof.
  intros Hok Hn Hs. apply spec_gets; cbv beta.
  eapply (spec_bind _ _ _ (fun o ts' => unsupported ts' = None -> opt_all wf_expr o = true)).
  { destruct (at_ _ ts); [by apply spec_ret|].
    sstep (rec_expr_ok _ _ Hself) as e ts1 (Hr1&_&_&Hwf1). by apply spec_ret. }
  intros subject ts1 Hl1 Hwf1. saturate. sstep spec_when_clauses as whens ts2 H2.
  sstep spec_opt_after as els ts3 H3. sstep (spec_eat Tok.End) as r ts4 H4.
  apply spec_spanned_expr; [done|lia|done|]. intros Hu. simpl. by rewrite Hwf1, H2, H3 by auto 8.
Qed.

(** ** Prefix and infix *)

Lemma spec_to_i64 k span ts :
  0 <= sp_start span <= sp_end span -> sp_end span <= str_len (input ts) ->
  spec (to_i64 k span) ts (fun v ts' => v = k /\ ts' = ts /\ in_range i64_min i64_max v = true).
Proof.
  intros H1 H2. unfold to_i64. destruct (in_range i64_min i64_max k) eqn:E.
  - by apply spec_ret.
  - by apply spec_fail.
Qed.

(** A token that is an expression by itself. *)
Lemma spec_literal_token mk tok ts :
  ok ts -> peek ts = Some tok ->
  (forall span, expr_span (mk span) = span) ->
  (forall span, (tok = Tok.Null -> written span = true) -> wf_expr (mk span) = true) ->
  spec (t ← advance_unwrap; mret (mk (token_span t))) ts (expr_post ts).
Proof.
  intros Hok Hp Hsp Hwf. sstep spec_advance_token as t ts1 (Hr&Ht&Hs&He&Hw). apply spec_ret.
  split; [done|]. unfold expr_from. rewrite Hsp. simpl. repeat split; [done|lia|lia|]. intros _. by apply Hwf.
Qed.

Lemma spec_int_literal k ts :
  ok ts -> peek ts = Some (Tok.IntLit k) ->
  spec (t ← advance_unwrap; v ← to_i64 k (token_span t);
        mret (Expr.Literal (Literal.Int v (token_span t)))) ts (expr_post ts).
Proof.
  intros Hok Hp. sstep spec_advance_unwrap as t ts1 (Hr&Ht&Hs&He).
  pose proof (current_pos_range _ Hok). pose proof (current_pos_range _ Hok0).
  sstep spec_to_i64 as v ts2 (->&->&Hv). apply spec_ret. split; [done|].
  unfold expr_from. simpl. repeat split; [done|lia|lia|done].
Qed.

Lemma spec_negation start ts :
  ok ts -> (remaining ts <= n)%nat -> start = current_pos ts -> peek ts = Some Tok.Minus ->
  spec (parse_negation self start) ts (expr_post ts).
Proof.
  intros Hok Hn -> Hp. pose proof (current_pos_range _ Hok). sstep spec_advance_seen as u ts1 H1.
  apply spec_gets; cbv beta.
  assert (Hneg : spec (e ← rec_expr self 75;
      spanned (current_pos ts) (fun span => Expr.UnaryOp (mkUnaryOp UnaryOpKind.Neg e span))) ts1
      (expr_post ts)).
  { sstep (rec_expr_ok _ _ Hself) as e ts2 (Hr2&_&_&Hwf2).
    eapply spec_mono; [apply spec_spanned_expr; [done|lia|done|exact Hwf2]|].
    simpl. intros e' ts3 Hl3 H3. saturate. by split; [lia|]. }
  destruct (peek ts1) as [tok|] eqn:E; [|done]. destruct tok; try exact Hneg. rename n0 into k.
  pose proof (ok_peek_int _ _ Hok0 E).
  sstep spec_advance_unwrap as t ts2 (Hr2&Ht&Hs&He). pose proof (current_pos_range _ Hok1).
  eapply (spec_bind _ _ _ (fun v ts' => ts' = ts2 /\ in_range i64_min i64_max v = true)).
  - unfold negate_i64_magnitude. destruct (k =? i64_max + 1); [by apply spec_ret|].
    sstep spec_to_i64 as v ts3 (->&->&Hv). unfold in_range, i64_min, i64_max in *.
    destruct (Z.eqb_spec k (- 2 ^ 63)); [lia|]. apply spec_ret. split; [done|lia].
  - intros v ts3 _ [-> Hv]. apply spec_ret. split; [lia|].
    unfold expr_from. simpl. repeat split; [lia|lia|done].
Qed.

(** [advance] and then the rest of an expression that starts here. *)
Lemma spec_advance_then tok (m : P Expr) ts :
  ok ts -> peek ts = Some tok ->
  (forall ts1, ok ts1 -> (remaining ts1 < remaining ts)%nat -> current_pos ts <= current_pos ts1 ->
     spec m ts1 (expr_from (current_pos ts))) ->
  spec (advance ;; m) ts (expr_post ts).
Proof.
  intros Hok Hp Hm. sstep spec_advance_seen as u ts1 H1.
  eapply spec_mono; [by apply Hm|]. simpl. intros e ts2 Hl2 H2. saturate. by split; [lia|].
Qed.

Lemma spec_parenthesized ts :
  ok ts -> (remaining ts <= n)%nat -> peek ts = Some Tok.LParen ->
  spec (pp ← try_parse_pattern_predicate self (current_pos ts);
        match pp with
        | Some e => mret e
        | None =>
            advance ;; inner ← rec_expr self 0; eat Tok.RParen ;;
            spanned (current_pos ts) (Expr.Parenthesized inner)
        end) ts (expr_post ts).
Proof.
  intros Hok Hn Hp. pose proof (current_pos_range _ Hok).
  sstep spec_try_pattern_predicate as pp ts1 H1. destruct pp as [e|]; simpl in H1.
  - by apply spec_ret.
  - subst ts1. eapply spec_advance_then; [done..|]. intros ts1 Hok1 Hr1 Hp1.
    sstep (rec_expr_ok _ _ Hself) as inner ts2 (Hr2&_&_&Hwf2). sstep (spec_eat Tok.RParen) as r ts3 H3.
    apply spec_spanned_expr; [done|lia|done|]. simpl. auto.
Qed.

Lemma spec_not ts :
  ok ts -> (remaining ts <= n)%nat -> peek ts = Some Tok.Not ->
  spec (advance ;; e ← rec_expr self 35;
        spanned (current_pos ts) (fun span => Expr.UnaryOp (mkUnaryOp UnaryOpKind.Not e span))) ts
    (expr_post ts).
Proof.
  intros Hok Hn Hp. pose proof (current_pos_range _ Hok). eapply spec_advance_then; [done..|].
  intros ts1 Hok1 Hr1 Hp1. sstep (rec_expr_ok _ _ Hself) as e ts2 (Hr2&_&_&Hwf2).
  apply spec_spanned_expr; [done|lia|done|exact Hwf2].
Qed.

Lemma spec_prefix ts :
  ok ts -> (remaining ts <= n)%nat -> spec (parse_prefix self) ts (expr_post ts).
Proof.
  intros Hok Hn. pose proof (current_pos_range _ Hok) as Hc.
  apply spec_gets, spec_gets, spec_gets, spec_gets. destruct (peek ts) as [tok|] eqn:E.
  2: { apply spec_gets, spec_fail; simpl; lia. }
  assert (Hstart : 0 <= current_pos ts <= current_pos ts) by lia.
  generalize (at_n 1 Tok.LBrace ts). intros brace. generalize (at_n 1 Tok.LParen ts). intros paren.
  destruct tok; unfold literal_token;
    first
      [ by apply spec_err
      | by eapply spec_int_literal
      | eapply (spec_literal_token (fun span => Expr.Literal (Literal.Null span))); [done..|];
        intros span Hs; by apply Hs
      | by eapply (spec_literal_token (fun span => Expr.Literal (Literal.Bool _ span)))
      | by eapply (spec_literal_token (fun span => Expr.Literal (Literal.Float _ span)))
      | by eapply (spec_literal_token (fun span => Expr.Literal (Literal.Str _ span)))
      | by eapply (spec_literal_token (fun span => Expr.Param (mkParamRef _ span)))
      | by apply spec_identifier
      | by eapply spec_quantifier_or_call
      | by eapply spec_exists
      | destruct brace; [by eapply spec_count_block|by eapply spec_keyword_function]
      | destruct paren; [by eapply spec_reduce|by eapply spec_keyword_function]
      | destruct paren; [by eapply spec_shortest_path|by eapply spec_keyword_function]
      | by eapply spec_keyword_function
      | by apply spec_not
      | by apply spec_negation
      | by apply spec_parenthesized
      | eapply spec_advance_then; [done..|]; intros ts1 Hok1 Hr1 Hp1;
        first [apply spec_list_or_comprehension; [done|lia..]
              |apply spec_map_literal; [done|lia..]
              |apply spec_case_expr; [done|lia..]] ].
Qed.

(** The right operand of an operator after [lhs]. *)
Lemma spec_rhs tok start r_bp ts :
  ok ts -> (remaining ts <= n)%nat -> start <= current_pos ts -> peek ts = Some tok ->
  spec (parse_rhs self start r_bp) ts (fun r ts' => (remaining ts' < remaining ts)%nat /\
    snd r = mkSpan start (sp_end (expr_span (fst r))) /\
    start <= sp_end (expr_span (fst r)) <= current_pos ts' /\
    (unsupported ts' = None -> wf_expr (fst r) = true)).
Proof.
  intros Hok Hn Hs Hp. sstep spec_advance_seen as u ts1 H1.
  sstep (rec_expr_ok _ _ Hself) as e ts2 (Hr2&Hst&He&Hwf). apply spec_ret. simpl.
  repeat split; [lia..|done].
Qed.

Lemma chain_tail_wf lhs e : chain_tail lhs = Some e -> wf_expr lhs = true -> wf_expr e = true.
Proof.
  revert lhs e. fix IH 1. intros [] e; try done. cbn [chain_tail wf_expr].
  intros Hc [Hl Hr]%andb_true_iff. destruct (bo_op b); try done; [by simplify_eq..|].
  destruct b as [op l r span]. by apply (IH r).
Qed.

Definition infix_pre (lhs : Expr) (ts : TokenStream) : Prop :=
  0 <= sp_start (expr_span lhs) <= current_pos ts /\ (unsupported ts = None -> wf_expr lhs = true).

Lemma spec_binary tok lhs op r_bp kind ts :
  ok ts -> (remaining ts <= n)%nat -> infix_pre lhs ts -> peek ts = Some tok ->
  infix_op_to_binary_kind op = Some kind ->
  spec (parse_binary self lhs op r_bp (sp_start (expr_span lhs))) ts
    (expr_after (sp_start (expr_span lhs)) ts).
Proof.
  intros Hok Hn [Hs Hwf] Hp Hk. sstep spec_rhs as [rhs span] ts1 (Hr1&Hsp&He&Hwf1). simpl in *.
  rewrite Hk. subst span.
  destruct (comparison_chain_tail lhs op) as [cl|] eqn:Ec; apply spec_ret;
    (split; [lia|]; split; [done|]; split; [simpl; lia|]; simpl); intros Hu; specialize (Hwf ltac:(auto));
    rewrite Hwf, (Hwf1 Hu); [|done].
  unfold comparison_chain_tail in Ec. destruct (is_comparison op); [|done].
  by rewrite (chain_tail_wf _ _ Ec Hwf).
Qed.

Lemma spec_label_predicate tok lhs ts :
  ok ts -> (remaining ts <= n)%nat -> infix_pre lhs ts -> peek ts = Some tok ->
  spec (parse_label_predicate lhs (sp_start (expr_span lhs))) ts
    (expr_after (sp_start (expr_span lhs)) ts).
Proof.
  intros Hok Hn [Hs Hwf] Hp. sstep spec_advance_seen as u ts1 H1.
  sstep spec_expr_ident_name as label ts2 H2. pose proof (current_pos_range _ Hok1).
  apply spec_gets; cbv beta.
  destruct lhs; try (apply spec_fail; simpl in *; lia); apply spec_ret;
    (split; [lia|]; split; [done|]; split; [simpl in *; lia|]; intros _); [done|].
  simpl. by destruct (lp_labels lp).
Qed.

Lemma spec_synthetic_call start name args ts0 ts :
  ok ts -> 0 <= start <= current_pos ts -> (remaining ts < remaining ts0)%nat ->
  (unsupported ts = None -> forallb wf_expr args = true) ->
  spec (synthetic_call start name args) ts (expr_after start ts0).
Proof.
  intros Hok Hs Hr Hwf. eapply spec_mono; [apply spec_spanned_expr; [done|lia|done|]|].
  - intros Hu. simpl. by rewrite Hwf.
  - simpl. intros e ts1 Hl1 H1. saturate. by split; [lia|].
Qed.

Lemma spec_subscript tok lhs ts :
  ok ts -> (remaining ts <= n)%nat -> infix_pre lhs ts -> peek ts = Some tok ->
  spec (parse_subscript self lhs (sp_start (expr_span lhs))) ts
    (expr_after (sp_start (expr_span lhs)) ts).
Proof.
  intros Hok Hn [Hs Hwf] Hp. sstep spec_advance_seen as u ts1 H1.
  sstep (spec_eat_if Tok.DotDot) as b ts2 H2. destruct b.
  - sstep (rec_expr_ok _ _ Hself) as hi ts3 (Hr3&_&_&Hwf3). sstep (spec_eat Tok.RBracket) as r ts4 H4.
    apply spec_synthetic_call; [done|lia..|]. intros Hu. simpl. by rewrite Hwf, Hwf3 by auto 8.
  - sstep (rec_expr_ok _ _ Hself) as idx ts3 (Hr3&_&_&Hwf3).
    sstep (spec_eat_if Tok.DotDot) as b ts4 H4. destruct b.
    + apply spec_gets; cbv beta.
      eapply (spec_bind _ _ _ (fun c ts' => unsupported ts' = None -> forallb wf_expr (snd c) = true)).
      { destruct (at_ _ ts4).
        - apply spec_ret. intros Hu. simpl. by rewrite Hwf, Hwf3 by auto 8.
        - sstep (rec_expr_ok _ _ Hself) as hi ts5 (Hr5&_&_&Hwf5). apply spec_ret. intros Hu. simpl.
          by rewrite Hwf, Hwf3, Hwf5 by auto 8. }
      intros call ts5 Hl5 Hc. saturate. sstep (spec_eat Tok.RBracket) as r ts6 H6.
      apply spec_synthetic_call; [done|lia..|auto].
    + sstep (spec_eat Tok.RBracket) as r ts5 H5. apply spec_synthetic_call; [done|lia..|].
      intros Hu. simpl. by rewrite Hwf, Hwf3 by auto 8.
Qed.

(** An operator whose node is built from the right operand. *)
Lemma spec_operator tok lhs r_bp (mk : Expr -> Span -> Expr) ts :
  ok ts -> (remaining ts <= n)%nat -> infix_pre lhs ts -> peek ts = Some tok ->
  (forall e span, expr_span (mk e span) = span) ->
  (forall e span, wf_expr (mk e span) = wf_expr lhs && wf_expr e) ->
  spec (r ← parse_rhs self (sp_start (expr_span lhs)) r_bp; mret (mk (fst r) (snd r))) ts
    (expr_after (sp_start (expr_span lhs)) ts).
Proof.
  intros Hok Hn [Hs Hwf] Hp Hsp Hmk. sstep spec_rhs as [rhs span] ts1 (Hr1&Hspan&He&Hwf1).
  simpl in *. subst span. apply spec_ret. split; [lia|]. unfold expr_from. rewrite Hsp, Hmk.
  split; [done|]. split; [simpl; lia|]. intros Hu. by rewrite Hwf, Hwf1 by auto.
Qed.

(** A postfix operator. *)
Lemma spec_postfix tok lhs (mk : Span -> Expr) ts :
  ok ts -> (remaining ts <= n)%nat -> infix_pre lhs ts -> peek ts = Some tok ->
  (forall span, expr_span (mk span) = span) -> (forall span, wf_expr (mk span) = wf_expr lhs) ->
  spec (advance ;; spanned (sp_start (expr_span lhs)) mk) ts (expr_after (sp_start (expr_span lhs)) ts).
Proof.
  intros Hok Hn [Hs Hwf] Hp Hsp Hmk. sstep spec_advance_seen as u ts1 H1.
  eapply spec_mono; [apply spec_spanned_expr; [done|lia|done|]|].
  - intros Hu. rewrite Hmk. auto.
  - simpl. intros e ts2 Hl2 H2. saturate. by split; [lia|].
Qed.

Lemma spec_property tok lhs ts :
  ok ts -> (remaining ts <= n)%nat -> infix_pre lhs ts -> peek ts = Some tok ->
  spec (advance ;; key ← ParseExpr.eat_ident;
        spanned (sp_start (expr_span lhs)) (fun span => Expr.Property (mkPropertyAccess lhs key span))) ts
    (expr_after (sp_start (expr_span lhs)) ts).
Proof.
  intros Hok Hn [Hs Hwf] Hp. sstep spec_advance_seen as u ts1 H1.
  sstep spec_expr_ident_name as key ts2 H2.
  eapply spec_mono; [apply spec_spanned_expr; [done|lia|done|]|].
  - simpl. auto.
  - simpl. intros e ts3 Hl3 H3. saturate. by split; [lia|].
Qed.

Lemma spec_infix tok lhs op r_bp ts :
  ok ts -> (remaining ts <= n)%nat -> infix_pre lhs ts -> peek ts = Some tok ->
  spec (parse_infix self lhs op r_bp) ts (expr_after (sp_start (expr_span lhs)) ts).
Proof.
  intros Hok Hn Hpre Hp. unfold parse_infix. cbv zeta.
  destruct op; first
    [ by eapply spec_binary
    | by eapply spec_label_predicate
    | by eapply spec_subscript
    | by eapply spec_property
    | by eapply (spec_postfix _ _ (Expr.IsNull lhs _))
    | by eapply (spec_operator _ _ _ (Expr.RegexMatch lhs))
    | by eapply (spec_operator _ _ _ (fun e => Expr.InList lhs e _))
    | by eapply (spec_operator _ _ _ (Expr.StringOp lhs _)) ].
Qed.

Lemma spec_expr min_bp ts :
  ok ts -> (remaining ts <= n)%nat -> spec (parse_expr_inner self min_bp) ts (expr_post ts).
Proof.
  intros Hok Hn. pose proof (current_pos_range _ Hok). sstep spec_prefix as lhs ts1 [Hr1 H1].
  apply (spec_loop _ _ _ (fun e ts' => (remaining ts' < remaining ts)%nat /\
                                       expr_from (current_pos ts) e ts')); [done|done|].
  intros e ts2 Hl2 [Hr2 H2]. saturate. apply spec_gets. unfold peek_infix_op.
  destruct (peek ts2) as [tok|] eqn:E; [|by apply spec_ret]. cbn [mbind option_bind].
  destruct (infix_op tok) as [op|]; [|by apply spec_ret].
  destruct (infix_binding_power op) as [l_bp r_bp]. destruct (l_bp <? min_bp); [by apply spec_ret|].
  destruct H2 as (Hst&He&Hwf).
  eapply spec_bind; [eapply spec_infix; [done|lia| |done]|].
  - split; [lia|done].
  - simpl. intros e' ts3 Hl3 [Hr3 H3]. saturate. apply spec_ret. rewrite Hst in H3.
    repeat split; [lia|apply H3..|lia].
Qed.
End patterns.
End functions.
