(* ===== verification/ParseQuery.v ===== *)
(** * ParseQuery: clauses, the recursion and the guarantees of [parse].

    Continues [ParseSpec] through the clauses, closes the recursion ([knot_ok]: with more
    levels than tokens the recursive parsers meet their interface) and states the theorems
    about the public entry points. *)

From stdpp Require Import base numbers list strings sorting.
From Stdlib Require Import ZArith Lia ZifyBool.
From S2P Require Import Prelude Text Ast Scan Lexer WellFormed TokenStream.
From S2P Require Import ParsePattern ParseExpr ParseClause ParseSpec.

#[local] Open Scope list_scope.
#[local] Open Scope Z_scope.

(** ** Entry points *)

Definition parse_expr (min_bp : Z) : P Expr :=
  e ← with_fuel (fun self => parse_expr_inner self min_bp);
  finish_supported e.

Definition parse_pattern : P (PathPattern Expr) :=
  p ← with_fuel parse_pattern_inner;
  finish_supported p.

Definition parse_pattern_list : P (list (PathPattern Expr)) :=
  ps ← with_fuel parse_pattern_list_inner;
  finish_supported ps.

Definition parse_node_pattern : P (NodePattern Expr) :=
  n ← with_fuel parse_node_pattern_inner;
  finish_supported n.

Definition parse_query : P (AstQuery Expr) :=
  q ← with_fuel (fun self => parse_query_until self false);
  finish_supported q.

(** [parser::parse] *)
Definition parse `{Unicode} (text : str) : option (result ParseError (AstQuery Expr)) :=
  match TokenStream.new text with
  | None => None
  | Some (Err e) => Some (Err e)
  | Some (Ok ts) =>
      match parse_query ts with
      | None => None
      | Some (Err e) => Some (Err e)
      | Some (Ok (q, _)) => Some (Ok q)
      end
  end.

(** ** Clauses *)

(** [b] holds of a value when nothing unsupported has been recorded. *)
Abbreviation unless_recorded ts b := (unsupported ts = None -> b = true).

Section accepted.
Context `{Wr : Written}.

(** ** Names *)

Lemma spec_clause_ident ts :
  ok ts -> spec ParseClause.eat_ident ts (fun _ ts' => (remaining ts' < remaining ts)%nat).
Proof. apply spec_pattern_ident. Qed.

Lemma spec_clause_ident_span ts :
  ok ts -> spec ParseClause.eat_ident_with_span ts (fun _ ts' => (remaining ts' < remaining ts)%nat).
Proof.
  intros Hok. apply spec_gets. destruct (peek ts) as [tok|] eqn:E; [|by apply spec_err].
  destruct tok; try by apply spec_err. sstep spec_advance_unwrap as t ts1 (Hr&_). by apply spec_ret.
Qed.

Lemma spec_alias ts :
  ok ts -> spec eat_alias ts (fun _ ts' => (remaining ts' < remaining ts)%nat).
Proof.
  intros Hok. apply spec_gets. destruct (peek ts) as [tok|] eqn:E; [|by apply spec_err].
  assert (Hadv : forall s : str, spec (advance ;; mret s) ts (fun _ ts' => (remaining ts' < remaining ts)%nat)).
  { intros s. sstep spec_advance_seen as u ts1 H1. by apply spec_ret. }
  destruct tok; cbn [tok_as_alias_str]; first [apply Hadv|by apply spec_err].
Qed.

Lemma spec_label_names ts :
  ok ts -> spec eat_label_names ts (fun l _ => nonempty l = true).
Proof.
  intros Hok. eapply (spec_bind _ _ _ (fun _ _ => True)).
  - apply (spec_loop _ _ _ (fun _ _ => True)); [done..|]. intros l ts1 Hl1 _. saturate.
    sstep (spec_eat_if Tok.Colon) as b ts2 H2. destruct b; [|by apply spec_ret].
    sstep spec_alias as name ts3 H3. apply spec_ret. split; [done|lia].
  - intros [|x l] ts1 Hl1 _; saturate; [by apply spec_err|by apply spec_ret].
Qed.

Lemma spec_procedure_name ts :
  ok ts -> spec parse_procedure_name ts (fun l _ => nonempty l = true).
Proof.
  intros Hok. sstep spec_clause_ident as first ts1 H1.
  apply (spec_loop _ _ _ (fun l _ => nonempty l = true)); [done..|].
  intros l ts2 Hl2 Hne. saturate. apply spec_gets; cbv beta.
  destruct (at_ Tok.Dot ts2) eqn:E; [|by apply spec_ret]. apply at_true in E.
  sstep spec_advance_seen as u ts3 H3. sstep spec_clause_ident as p ts4 H4.
  apply spec_ret. split; [by destruct l|lia].
Qed.

Section clauses.
Context (n : nat) (self : Rec) (Hself : rec_ok n self).

(** A non-empty comma-separated list of items whose shape is [f]. *)
Lemma spec_items {A} (item : P A) (f : A -> bool) ts :
  ok ts ->
  (forall ts', ok ts' -> (remaining ts' <= remaining ts)%nat ->
     spec item ts' (fun a ts'' => (remaining ts'' < remaining ts')%nat /\ unless_recorded ts'' (f a))) ->
  spec (comma_separated item) ts (fun l ts' => (remaining ts' < remaining ts)%nat /\
    unless_recorded ts' (nonempty l && forallb f l)).
Proof.
  intros Hok Hitem. eapply spec_mono; [apply (spec_comma_separated _
    (fun a ts' => unless_recorded ts' (f a))); [done| |]|].
  - intros a ts1 ts2 Hl Ha Hu. apply Ha, (later_none _ _ Hl Hu).
  - intros ts1 Hok1 Hl. apply later_bounds in Hl; [|done]. apply Hitem; [done|lia].
  - simpl. intros l ts' Hl (Hr&Hne&Hall). split; [done|]. intros Hu. apply nonempty_true in Hne.
    rewrite Hne. apply Forall_forallb. eapply Forall_impl; [exact Hall|]. simpl. auto.
Qed.

Lemma spec_opt_expr_after tok ts :
  ok ts -> (remaining ts <= n)%nat ->
  spec (ParseClause.opt_expr_after self tok) ts (fun o ts' => unless_recorded ts' (opt_all wf_expr o)).
Proof.
  intros Hok Hn. apply spec_gets; cbv beta. destruct (at_ tok ts) eqn:E; [|by apply spec_ret].
  apply at_true in E. sstep spec_advance_seen as u ts1 H1.
  sstep (rec_expr_ok _ _ Hself) as e ts2 (Hr2&_&_&Hwf). by apply spec_ret.
Qed.

(** ** Projections *)

Lemma spec_opt_alias ts : ok ts -> spec (opt_after Tok.As eat_alias) ts (fun _ _ => True).
Proof.
  intros Hok. sstep (spec_eat_if Tok.As) as b ts1 H1. destruct b; [|by apply spec_ret].
  sstep spec_alias as a ts2 H2. by apply spec_ret.
Qed.

Lemma spec_return_item ts :
  ok ts -> (remaining ts < n)%nat ->
  spec (parse_one_return_item self) ts (fun i ts' => (remaining ts' < remaining ts)%nat /\
    unless_recorded ts' (wf_item wf_expr i)).
Proof.
  intros Hok Hn. apply spec_gets, spec_gets; cbv beta. destruct (at_ Tok.Star ts) eqn:E.
  - apply at_true in E. sstep spec_advance_unwrap as t ts1 (Hr&_). by apply spec_ret.
  - sstep (rec_expr_ok _ _ Hself) as e ts1 (Hr1&_&_&Hwf). apply spec_gets.
    sstep spec_opt_alias as alias ts2 H2. apply spec_spanned. split; [lia|]. unfold wf_item. simpl. auto.
Qed.

Lemma spec_return_items ts :
  ok ts -> (remaining ts < n)%nat ->
  spec (parse_return_items self) ts (fun l ts' => (remaining ts' < remaining ts)%nat /\
    unless_recorded ts' (wf_items wf_expr l)).
Proof.
  intros Hok Hn. apply (spec_items _ (wf_item wf_expr)); [done|]. intros ts' Hok' Hr.
  apply spec_return_item; [done|lia].
Qed.

Lemma spec_sort_item ts :
  ok ts -> (remaining ts < n)%nat ->
  spec (parse_sort_item self) ts (fun i ts' => (remaining ts' < remaining ts)%nat /\
    unless_recorded ts' (wf_expr (si_expr i))).
Proof.
  intros Hok Hn. apply spec_gets. sstep (rec_expr_ok _ _ Hself) as e ts1 (Hr1&_&_&Hwf).
  apply spec_gets; cbv beta. eapply (spec_bind _ _ _ (fun _ _ => True)).
  - destruct (peek ts1) as [tok|] eqn:E; [|by apply spec_ret].
    destruct tok; try (by apply spec_ret); sstep spec_advance_seen as u ts2 H2; by apply spec_ret.
  - intros order ts2 Hl2 _. saturate. apply spec_spanned. split; [lia|]. simpl. auto.
Qed.

Lemma spec_opt_order_by ts :
  ok ts -> (remaining ts <= n)%nat ->
  spec (parse_opt_order_by self) ts (fun o ts' => unless_recorded ts' (opt_all (wf_order_by wf_expr) o)).
Proof.
  intros Hok Hn. apply spec_gets; cbv beta. destruct (at_ Tok.Order ts) eqn:E; [|by apply spec_ret].
  apply at_true in E. apply spec_gets. sstep spec_advance_seen as u ts1 H1.
  sstep (spec_eat Tok.By) as r ts2 H2.
  eapply spec_bind; [apply (spec_items _ (fun i => wf_expr (si_expr i))); [done|]|].
  - intros ts' Hok' Hr. apply spec_sort_item; [done|lia].
  - simpl. intros items ts3 Hl3 [Hr3 Hwf]. apply spec_gets, spec_ret. exact Hwf.
Qed.

(** ** Reading clauses *)

Lemma spec_opt_where ts :
  ok ts -> (remaining ts <= n)%nat ->
  spec (parse_opt_where self) ts (fun o ts' => unless_recorded ts' (opt_all (wf_where wf_expr) o)).
Proof.
  intros Hok Hn. apply spec_gets; cbv beta. destruct (at_ Tok.Where ts); [|by apply spec_ret].
  eapply (spec_bind _ _ _ (fun w ts' => unless_recorded ts' (wf_where wf_expr w))).
  - apply spec_gets. sstep (spec_eat Tok.Where) as r ts1 H1.
    sstep (rec_expr_ok _ _ Hself) as e ts2 (Hr2&_&_&Hwf). by apply spec_spanned.
  - intros w ts1 Hl1 Hw. by apply spec_ret.
Qed.

(** A clause: it consumes its keyword, and its shape is right. *)
Definition clause_post (ts : TokenStream) (c : AstClause.AstClause Expr) (ts' : TokenStream) : Prop :=
  (remaining ts' < remaining ts)%nat /\ unless_recorded ts' (wf_clause wf_expr c).

(** [if flag { ts.eat(tok)?; }] *)
Lemma spec_eat_when (flag : bool) tok ts :
  ok ts -> spec (if flag then eat tok ;; mret tt else mret tt) ts (fun _ _ => True).
Proof.
  intros Hok. destruct flag; [|by apply spec_ret]. sstep (spec_eat tok) as r ts1 H1. by apply spec_ret.
Qed.

Lemma wf_patterns_from (l : list (PathPattern Expr)) ts :
  l <> [] -> Forall (fun p => pattern_from p ts) l ->
  unless_recorded ts (nonempty l && forallb (wf_pattern wf_expr) l).
Proof.
  intros Hne Hall Hu. apply nonempty_true in Hne. rewrite Hne. apply Forall_forallb.
  eapply Forall_impl; [exact Hall|]. intros p [_ Hp]. auto.
Qed.

Lemma spec_match optional ts :
  ok ts -> (remaining ts <= n)%nat ->
  spec (parse_match_clause self optional) ts (fun c ts' => clause_post ts (AstClause.Match c) ts').
Proof.
  intros Hok Hn. apply spec_gets. sstep spec_eat_when as u ts1 H1. sstep (spec_eat Tok.Match) as r ts2 H2.
  sstep (spec_pattern_list n self Hself) as ps ts3 (Hr3&Hne&Hall). sstep spec_opt_where as w ts4 H4.
  apply spec_spanned. split; [lia|]. intros Hu. simpl. rewrite H4 by done.
  by rewrite (wf_patterns_from ps ts3) by auto.
Qed.

Lemma spec_return ts :
  ok ts -> (remaining ts <= n)%nat ->
  spec (parse_return_clause self) ts (fun c ts' => clause_post ts (AstClause.Return c) ts').
Proof.
  intros Hok Hn. apply spec_gets. sstep (spec_eat Tok.Return) as r ts1 H1.
  sstep (spec_eat_if Tok.Distinct) as d ts2 H2. assert (remaining ts2 < n)%nat by lia.
  sstep spec_return_items as items ts3 [Hr3 H3]. sstep spec_opt_order_by as ob ts4 H4.
  sstep spec_opt_expr_after as skip ts5 H5. sstep spec_opt_expr_after as limit ts6 H6.
  apply spec_spanned. split; [lia|]. intros Hu. simpl. by rewrite H3, H4, H5, H6 by auto 8.
Qed.

Lemma spec_with ts :
  ok ts -> (remaining ts <= n)%nat ->
  spec (parse_with_clause self) ts (fun c ts' => clause_post ts (AstClause.With c) ts').
Proof.
  intros Hok Hn. apply spec_gets. sstep (spec_eat Tok.With) as r ts1 H1.
  sstep (spec_eat_if Tok.Distinct) as d ts2 H2. assert (remaining ts2 < n)%nat by lia.
  sstep spec_return_items as items ts3 [Hr3 H3]. sstep spec_opt_order_by as ob ts4 H4.
  sstep spec_opt_expr_after as skip ts5 H5. sstep spec_opt_expr_after as limit ts6 H6.
  sstep spec_opt_where as w ts7 H7.
  apply spec_spanned. split; [lia|]. intros Hu. simpl. by rewrite H3, H4, H5, H6, H7 by auto 8.
Qed.

Lemma spec_unwind ts :
  ok ts -> (remaining ts <= n)%nat ->
  spec (parse_unwind_clause self) ts (fun c ts' => clause_post ts (AstClause.Unwind c) ts').
Proof.
  intros Hok Hn. apply spec_gets. sstep (spec_eat Tok.Unwind) as r ts1 H1.
  sstep (rec_expr_ok _ _ Hself) as e ts2 (Hr2&_&_&Hwf). sstep (spec_eat Tok.As) as r3 ts3 H3.
  sstep spec_clause_ident as a ts4 H4. apply spec_spanned. split; [lia|]. simpl. auto.
Qed.

Lemma spec_union ts :
  ok ts -> spec parse_union_clause ts (fun c ts' => clause_post ts (AstClause.Union c) ts').
Proof.
  intros Hok. apply spec_gets. sstep (spec_eat Tok.Union) as r ts1 H1.
  sstep (spec_eat_if Tok.All) as all ts2 H2. apply spec_spanned. by split; [lia|].
Qed.

(** ** Writing clauses *)

Lemma disjunctive_rel_None patterns :
  disjunctive_rel patterns = None ->
  forallb (fun p => forallb single_type (pp_elements p)) patterns = true.
Proof.
  unfold disjunctive_rel. intros Hn. apply Forall_forallb, Forall_forall. intros p Hp.
  apply Forall_forallb, Forall_forall. intros [nd|r] Hel; [done|]. simpl.
  destruct (Z.ltb_spec 1 (lenZ (rp_types r))) as [Hlt|]; [|lia]. exfalso.
  assert (Hin : r ∈ omap (fun el => match el with
      | Rel r => if 1 <? lenZ (rp_types r) then Some r else None | Node _ => None end)
      (patterns ≫= pp_elements)).
  { apply list_elem_of_omap. exists (Rel r). rewrite list_elem_of_bind. split; [by exists p|].
    by rewrite (proj2 (Z.ltb_lt _ _) Hlt). }
  destruct (omap _ _); [by apply not_elem_of_nil in Hin|done].
Qed.

Lemma disjunctive_rel_Some patterns r ts :
  disjunctive_rel patterns = Some r -> Forall (fun p => pattern_from p ts) patterns ->
  rel_within (str_len (input ts)) (Rel r).
Proof.
  unfold disjunctive_rel. intros Hr Hall.
  assert (Hin : Rel r ∈ patterns ≫= pp_elements).
  { apply head_Some_elem_of in Hr. apply list_elem_of_omap in Hr as ([nd|r']&Hin&Hr); [done|].
    destruct (1 <? lenZ (rp_types r')); by simplify_eq. }
  apply list_elem_of_bind in Hin as (p&Hel&Hp). rewrite Forall_forall in Hall.
  destruct (Hall p Hp) as [Hw _]. rewrite Forall_forall in Hw. by apply Hw.
Qed.

Lemma spec_create ts :
  ok ts -> (remaining ts <= n)%nat ->
  spec (parse_create_clause self) ts (fun c ts' => clause_post ts (AstClause.Create c) ts').
Proof.
  intros Hok Hn. apply spec_gets. sstep (spec_eat Tok.Create) as r ts1 H1.
  sstep (spec_pattern_list n self Hself) as ps ts2 (Hr2&Hne&Hall).
  destruct (disjunctive_rel ps) as [rel|] eqn:E.
  - apply (disjunctive_rel_Some _ _ ts2) in E; [|done]. simpl in E. apply spec_fail; lia.
  - apply spec_spanned. split; [lia|]. intros Hu. simpl.
    rewrite (wf_patterns_from ps ts2) by auto. by rewrite disjunctive_rel_None.
Qed.

Lemma spec_set_item ts :
  ok ts -> (remaining ts <= n)%nat ->
  spec (parse_set_item self) ts (fun i ts' => (remaining ts' < remaining ts)%nat /\
    unless_recorded ts' (wf_set_item wf_expr i)).
Proof.
  intros Hok Hn. apply spec_gets. sstep (spec_eat_if Tok.LParen) as par ts1 H1.
  sstep spec_clause_ident_span as [var var_span] ts2 H2. assert (remaining ts1 <= remaining ts)%nat by lia.
  sstep spec_eat_when as u ts3 H3. apply spec_gets; cbv beta.
  assert (Hmap : forall mk : Expr -> Span -> SetItem Expr, peek ts3 <> None ->
    (forall e span, wf_set_item wf_expr (mk e span) = wf_expr e) ->
    spec (advance ;; map ← rec_expr self 0; spanned (current_pos ts) (mk map)) ts3
      (fun i ts' => (remaining ts' < remaining ts)%nat /\ unless_recorded ts' (wf_set_item wf_expr i))).
  { intros mk Hne Hmk. destruct (peek ts3) as [tok|] eqn:E; [|done]. sstep spec_advance_seen as u4 ts4 H4.
    sstep (rec_expr_ok _ _ Hself) as e ts5 (Hr5&_&_&Hwf). apply spec_spanned. split; [lia|].
    rewrite Hmk. auto. }
  destruct (peek ts3) as [tok|] eqn:E; [|by apply spec_err]. destruct tok; try by apply spec_err.
  - sstep spec_advance_seen as u4 ts4 H4. sstep spec_clause_ident as key ts5 H5. apply spec_gets.
    sstep (spec_eat Tok.Eq) as r6 ts6 H6. sstep (rec_expr_ok _ _ Hself) as e ts7 (Hr7&_&_&Hwf).
    apply spec_spanned. split; [lia|]. simpl. auto.
  - sstep spec_label_names as labels ts4 H4. apply spec_spanned. by split; [lia|].
  - by apply (Hmap (SetPropertyReplace var)).
  - by apply (Hmap (SetPropertyMerge var)).
Qed.

Lemma spec_set_items ts :
  ok ts -> (remaining ts <= n)%nat ->
  spec (parse_set_items self) ts (fun l ts' => (remaining ts' < remaining ts)%nat /\
    unless_recorded ts' (nonempty l && forallb (wf_set_item wf_expr) l)).
Proof.
  intros Hok Hn. apply spec_items; [done|]. intros ts' Hok' Hr. apply spec_set_item; [done|lia].
Qed.

Lemma spec_set ts :
  ok ts -> (remaining ts <= n)%nat ->
  spec (parse_set_clause self) ts (fun c ts' => clause_post ts (AstClause.Set_ c) ts').
Proof.
  intros Hok Hn. apply spec_gets. sstep (spec_eat Tok.Set_) as r ts1 H1.
  sstep spec_set_items as items ts2 [Hr2 H2]. apply spec_spanned. by split; [lia|].
Qed.

Definition actions_from (r : list (SetItem Expr) * list (SetItem Expr)) (ts' : TokenStream) : Prop :=
  unless_recorded ts' (forallb (wf_set_item wf_expr) (fst r) && forallb (wf_set_item wf_expr) (snd r)).

(** [CREATE SET items] or [MATCH SET items] after ON. *)
Lemma spec_merge_action tok (add : list (SetItem Expr) -> list (SetItem Expr) * list (SetItem Expr)) ts :
  ok ts -> (remaining ts <= n)%nat -> peek ts = Some tok ->
  (forall items ts', later ts ts' ->
     unless_recorded ts' (forallb (wf_set_item wf_expr) items) -> actions_from (add items) ts') ->
  spec (advance ;; eat Tok.Set_ ;; items ← parse_set_items self; mret (inl (add items))) ts
    (fun r ts' => match r with
       | inl a => actions_from a ts' /\ (remaining ts' < remaining ts)%nat
       | inr b => actions_from b ts'
       end).
Proof.
  intros Hok Hn Hp Hadd. sstep spec_advance_seen as u ts1 H1. sstep (spec_eat Tok.Set_) as r ts2 H2.
  sstep spec_set_items as items ts3 [Hr3 H3]. apply spec_ret. split; [|lia]. apply Hadd.
  - by transitivity ts1; [|transitivity ts2].
  - intros Hu. by apply H3, andb_true_iff in Hu as [_ ?].
Qed.

Lemma spec_merge_actions ts :
  ok ts -> (remaining ts <= n)%nat -> spec (parse_merge_actions self) ts actions_from.
Proof.
  intros Hok Hn. apply (spec_loop _ _ _ actions_from); [done|done|].
  intros [oc om] ts1 Hl1 Ha. saturate. apply spec_gets; cbv beta.
  destruct (at_ Tok.On ts1) eqn:E; [|by apply spec_ret]. apply at_true in E.
  sstep spec_advance_seen as u ts2 H2. apply spec_gets; cbv beta.
  assert (Hprev : forall ts', later ts2 ts' -> unsupported ts' = None ->
    forallb (wf_set_item wf_expr) oc = true /\ forallb (wf_set_item wf_expr) om = true).
  { intros ts' Hlt Hu. pose proof (later_none _ _ Hlt Hu). apply andb_true_iff, Ha. auto. }
  destruct (peek ts2) as [tok|] eqn:Et; [|by apply spec_err]. destruct tok; try by apply spec_err.
  - eapply spec_mono; [eapply (spec_merge_action _ (fun items => (oc, om ++ items))); [done|lia|done|]|].
    + intros items ts' Hlt Hi Hu. simpl. destruct (Hprev ts' Hlt Hu) as [-> Ho].
      by rewrite forallb_app, Ho, Hi.
    + simpl. intros [a|b] ts' Hlt; [|done]. intros [? ?]. split; [done|lia].
  - eapply spec_mono; [eapply (spec_merge_action _ (fun items => (oc ++ items, om))); [done|lia|done|]|].
    + intros items ts' Hlt Hi Hu. simpl. destruct (Hprev ts' Hlt Hu) as [Ho ->].
      by rewrite forallb_app, Ho, Hi.
    + simpl. intros [a|b] ts' Hlt; [|done]. intros [? ?]. split; [done|lia].
Qed.

Lemma spec_merge ts :
  ok ts -> (remaining ts <= n)%nat ->
  spec (parse_merge_clause self) ts (fun c ts' => clause_post ts (AstClause.Merge c) ts').
Proof.
  intros Hok Hn. apply spec_gets. sstep (spec_eat Tok.Merge) as r ts1 H1.
  sstep (spec_pattern n self Hself) as p ts2 [Hr2 [_ H2]].
  sstep spec_merge_actions as [oc om] ts3 H3. apply spec_spanned. split; [lia|]. intros Hu. simpl.
  specialize (H3 ltac:(auto)). simpl in H3. rewrite H2 by auto. by rewrite <-andb_assoc.
Qed.

Lemma spec_remove_item ts :
  ok ts ->
  spec parse_remove_item ts (fun i ts' => (remaining ts' < remaining ts)%nat /\
    unless_recorded ts' (wf_remove_item wf_expr i)).
Proof.
  intros Hok. apply spec_gets. sstep spec_clause_ident_span as [var var_span] ts1 H1.
  apply spec_gets; cbv beta. destruct (peek ts1) as [tok|] eqn:E; [|by apply spec_err].
  destruct tok; try by apply spec_err.
  - sstep spec_advance_seen as u2 ts2 H2. sstep spec_clause_ident as key ts3 H3.
    apply spec_spanned. by split; [lia|].
  - sstep spec_label_names as labels ts2 H2. apply spec_spanned. by split; [lia|].
Qed.

Lemma spec_remove ts :
  ok ts -> spec parse_remove_clause ts (fun c ts' => clause_post ts (AstClause.Remove c) ts').
Proof.
  intros Hok. apply spec_gets. sstep (spec_eat Tok.Remove) as r ts1 H1.
  eapply spec_bind; [apply (spec_items _ (wf_remove_item wf_expr)); [done|]|].
  - intros ts' Hok' Hr. by apply spec_remove_item.
  - simpl. intros items ts2 Hl2 [Hr2 H2]. saturate. apply spec_spanned. by split; [lia|].
Qed.

Lemma spec_delete detach ts :
  ok ts -> (remaining ts <= n)%nat ->
  spec (parse_delete_clause self detach) ts (fun c ts' => clause_post ts (AstClause.Delete c) ts').
Proof.
  intros Hok Hn. apply spec_gets. sstep spec_eat_when as u ts1 H1. sstep (spec_eat Tok.Delete) as r ts2 H2.
  assert (remaining ts2 < n)%nat by lia. sstep (spec_exprs n self Hself) as es ts3 (Hr3&Hne&Hwf).
  apply spec_spanned. split; [lia|]. intros Hu. simpl. rewrite Hwf by done.
  apply nonempty_true in Hne. by rewrite Hne.
Qed.

(** ** CALL *)

Lemma spec_opt_yield ts :
  ok ts -> (remaining ts <= n)%nat ->
  spec (parse_opt_yield self) ts (fun l ts' => unless_recorded ts' (forallb (wf_item wf_expr) l)).
Proof.
  intros Hok Hn. apply spec_gets; cbv beta. destruct (at_ Tok.Yield ts) eqn:E; [|by apply spec_ret].
  apply at_true in E. sstep spec_advance_seen as u ts1 H1. assert (remaining ts1 < n)%nat by lia.
  slast spec_return_items as l ts2 [Hr2 H2]. intros Hu. specialize (H2 Hu).
  by apply andb_true_iff in H2 as [_ ?].
Qed.

Lemma spec_call_args ts :
  ok ts -> (remaining ts < n)%nat ->
  spec (parse_call_args self) ts (fun l ts' => unless_recorded ts' (forallb wf_expr l)).
Proof.
  intros Hok Hn. sstep (spec_eat_if Tok.RParen) as b ts1 H1. destruct b; [by apply spec_ret|].
  assert (remaining ts1 < n)%nat by lia. sstep (spec_exprs n self Hself) as es ts2 (Hr2&Hne&Hwf).
  sstep (spec_eat Tok.RParen) as r ts3 H3. apply spec_ret. auto.
Qed.

Lemma spec_call ts :
  ok ts -> (remaining ts <= n)%nat ->
  spec (parse_call_clause self) ts (fun c ts' => clause_post ts (AstClause.Call c) ts').
Proof.
  intros Hok Hn. pose proof (current_pos_range _ Hok). apply spec_gets.
  sstep (spec_eat Tok.Call) as r ts1 H1. apply spec_gets; cbv beta. destruct (at_ Tok.LBrace ts1).
  - sstep (spec_eat Tok.LBrace) as r2 ts2 H2. sstep (rec_query_ok _ _ Hself) as q ts3 H3.
    destruct (aq_clauses q); [by apply spec_err|]. sstep (spec_eat Tok.RBrace) as r4 ts4 H4.
    sstep spec_record_from as u ts5 (Ht&Hi&Hu). apply spec_spanned. by split; [lia|].
  - sstep spec_procedure_name as p ts2 H2. apply spec_gets; cbv beta.
    eapply (spec_bind _ _ _ (fun l ts' => unless_recorded ts' (forallb wf_expr l))).
    { destruct (at_ Tok.LParen ts2) eqn:E; [|by apply spec_ret]. apply at_true in E.
      sstep spec_advance_seen as u ts3 H3. apply spec_call_args; [done|lia]. }
    intros args ts3 Hl3 H3. saturate. sstep spec_opt_yield as ys ts4 H4. apply spec_spanned.
    split; [lia|]. intros Hu. simpl. by rewrite H2, H3, H4 by auto.
Qed.

(** ** Queries *)

Lemma spec_clause tok ts :
  ok ts -> (remaining ts <= n)%nat -> spec (parse_clause self tok) ts (clause_post ts).
Proof.
  intros Hok Hn. destruct tok; try (by apply spec_err); cbn [parse_clause];
    (eapply spec_bind; [first
      [ by apply spec_match | by apply spec_with | by apply spec_return | by apply spec_unwind
      | by apply spec_union | by apply spec_create | by apply spec_merge | by apply spec_set
      | by apply spec_remove | by apply spec_delete | by apply spec_call ] |]);
    cbv beta; intros c ts1 Hl1 H1; by apply spec_ret.
Qed.

Lemma spec_query_until stop ts :
  ok ts -> (remaining ts <= n)%nat -> spec (parse_query_until self stop) ts query_post.
Proof.
  intros Hok Hn. apply spec_gets.
  eapply (spec_bind _ _ _ (fun cs ts' => unless_recorded ts' (forallb (wf_clause wf_expr) cs))).
  - apply (spec_loop _ _ _ (fun cs ts' => unless_recorded ts' (forallb (wf_clause wf_expr) cs))); [done..|].
    intros cs ts1 Hl1 Hcs. saturate. apply spec_gets; cbv beta.
    destruct (peek ts1) as [tok|]; [|by apply spec_ret]. destruct (_ && _); [by apply spec_ret|].
    sstep spec_clause as c ts2 [Hr2 H2]. apply spec_ret. split; [|done]. intros Hu.
    by rewrite forallb_snoc, Hcs, H2 by auto.
  - intros cs ts1 Hl1 Hcs. by apply spec_spanned.
Qed.
End clauses.

(** ** The recursion *)

Lemma knot_ok n : rec_ok n (knot n).
Proof.
  induction n as [|n IH]; [split; intros; lia|]. cbn [knot]. split; simpl; intros.
  - eapply spec_expr; [exact IH|done|lia].
  - eapply spec_pattern; [exact IH|done|lia].
  - eapply spec_query_until; [exact IH|done|lia].
Qed.

Lemma spec_with_fuel {A} (m : Rec -> P A) ts Q :
  (forall n self, rec_ok n self -> (remaining ts <= n)%nat -> spec (m self) ts Q) ->
  spec (with_fuel m) ts Q.
Proof. intros Hm. apply (Hm _ _ (knot_ok (S (remaining ts)))). lia. Qed.

(** The end of a public entry point. *)
Lemma spec_finish {A} (m : P A) ts (Q : A -> TokenStream -> Prop) :
  ok ts -> spec m ts Q ->
  spec (a ← m; finish_supported a) ts (fun a ts' => Q a ts' /\ unsupported ts' = None).
Proof.
  intros Hok Hm. eapply spec_bind; [exact Hm|]. intros a ts' Hl Ha. saturate.
  unfold spec, wp, finish_supported. destruct (unsupported ts') as [e|] eqn:E.
  - by apply (ok_error _ Hok0).
  - by split; [reflexivity|].
Qed.

Lemma spec_parse_query ts :
  ok ts -> spec parse_query ts (fun q ts' => query_post q ts' /\ unsupported ts' = None).
Proof.
  intros Hok. apply spec_finish; [done|]. apply spec_with_fuel. intros n self Hself Hn.
  by eapply spec_query_until.
Qed.

Lemma spec_parse_expr min_bp ts :
  ok ts -> spec (parse_expr min_bp) ts (fun e ts' => expr_post ts e ts' /\ unsupported ts' = None).
Proof.
  intros Hok. apply spec_finish; [done|]. apply spec_with_fuel. intros n self Hself Hn. by eapply spec_expr.
Qed.
End accepted.

Section entry.
Context `{Unicode}.

(** The spans of the NULL tokens of a text. *)
Definition null_in (text : str) (span : Span) : bool :=
  match tokenize text with
  | Some (Ok toks) => existsb (fun t => bool_decide (tk t = Tok.Null /\ token_span t = span)) toks
  | _ => false
  end.

Lemma new_ok text ts : TokenStream.new text = Some (Ok ts) -> @ok (null_in text) ts /\ input ts = text.
Proof.
  unfold TokenStream.new. pose proof (tokenize_spans text) as Hs.
  destruct (tokenize text) as [[toks|e]|] eqn:Et; [|done..]. intros [= <-].
  split; [|done]. split; simpl; [done| |done].
  pose proof (tokenize_ok _ _ Et) as Hok. rewrite Forall_forall in Hok.
  apply Forall_forall. intros t Ht. split; [by apply Hok|].
  intros Hn. unfold written, null_in. rewrite Et. apply existsb_exists. exists t.
  split; [by apply list_elem_of_In|]. by apply bool_decide_eq_true.
Qed.

Lemma parse_spec text :
  match parse text with
  | Some (Ok q) => wf_query (wf_expr (Wr := null_in text)) q = true
  | Some (Err e) => error_within 0 (str_len text) e
  | None => False
  end.
Proof.
  unfold parse. pose proof (tokenize_spans text) as Hs.
  destruct (TokenStream.new text) as [[ts|e]|] eqn:En.
  - apply new_ok in En as [Hok Hi]. pose proof (spec_parse_query ts Hok) as Hq.
    unfold spec, wp in Hq. rewrite Hi in Hq. destruct (parse_query ts) as [[[q ts']|e]|]; [|done|done].
    destruct Hq as (_&Hq&Hu). by apply Hq.
  - unfold TokenStream.new in En. destruct (tokenize text) as [[toks|e']|]; by simplify_eq.
  - unfold TokenStream.new in En. by destruct (tokenize text) as [[toks|e']|].
Qed.

(** C25 Parsing any text ends, with a query or with an error that points into the text: no
    panic, no unbounded recursion. *)
Theorem parse_terminates (text : str) :
  exists r, parse text = Some r /\
    forall e, r = Err e -> error_within 0 (str_len text) e.
Proof.
  pose proof (parse_spec text) as Hp. destruct (parse text) as [[q|e]|]; [| |done].
  - by exists (Ok q).
  - exists (Err e). split; [done|]. by intros e' [= <-].
Qed.

(** C24 Every query that [parse] accepts is well formed: paths alternate nodes and
    relationships, literals are in the range of [i64] and hop counts in that of [u32], map
    keys are distinct, a call with a star has no arguments, CALL names a procedure (the
    placeholder of a CALL subquery does not escape), every NULL literal has the span of a
    NULL token of the text (the placeholder of COUNT { }, reduce or shortestPath as an
    expression does not escape), a created relationship has at most one type, and the lists
    the grammar requires are not empty. *)
Theorem parse_well_formed (text : str) (q : AstQuery Expr) :
  parse text = Some (Ok q) -> wf_query (wf_expr (Wr := null_in text)) q = true.
Proof. intros Hq. pose proof (parse_spec text) as Hp. by rewrite Hq in Hp. Qed.

(** An expression that [parse_expr] accepts starts at the current token and ends before
    the token that follows it, consumes at least one token, and is well formed. *)
Theorem parse_expr_positions (text : str) (ts ts' : TokenStream) (min_bp : Z) (e : Expr) :
  TokenStream.new text = Some (Ok ts) ->
  parse_expr min_bp ts = Some (Ok (e, ts')) ->
  sp_start (expr_span e) = current_pos ts /\
  current_pos ts <= sp_end (expr_span e) <= current_pos ts' /\
  (length (tokens ts') < length (tokens ts))%nat /\
  wf_expr (Wr := null_in text) e = true.
Proof.
  intros [Hok _]%new_ok He.
  pose proof (spec_parse_expr min_bp ts Hok) as Hs.
  apply (wp_Ok _ _ _ _ _ _ Hs) in He as (_&(Hr&Hst&Hen&Hwf)&Hu). repeat split; [done|lia|lia|done|auto].
Qed.
End entry.

Lemma parse_terminates_witness :
  exists r, @parse AsciiOnly (bytes_of "MATCH (n RETURN n") = Some r /\
    forall e, r = Err e -> error_within 0 (str_len (bytes_of "MATCH (n RETURN n")) e.
Proof. apply (@parse_terminates AsciiOnly). Defined.

(** A query with every kind of clause that only reads. *)
Definition sample_query : str := bytes_of
  "MATCH (n:Person {name: $p})-[r:KNOWS*1..3]->(m) WHERE n.age < 3 < m.age WITH n, count(*) AS c ORDER BY c DESC UNWIND [1, -2] AS x RETURN x, CASE WHEN x = 1 THEN 'a' ELSE NULL END".

Lemma parse_well_formed_witness :
  exists q, @parse AsciiOnly sample_query = Some (Ok q) /\
    wf_query (@wf_expr (@null_in AsciiOnly sample_query)) q = true.
Proof.
  destruct (@parse AsciiOnly sample_query) as [[q|e]|] eqn:E; [|vm_compute in E; discriminate E..].
  exists q. split; [reflexivity|]. exact (@parse_well_formed AsciiOnly sample_query q E).
Defined.

Lemma parse_expr_positions_witness :
  exists ts ts' e, @TokenStream.new AsciiOnly (bytes_of "1 + 2 * x RETURN") = Some (Ok ts) /\
    parse_expr 0 ts = Some (Ok (e, ts')) /\ sp_end (expr_span e) <= current_pos ts'.
Proof.
  destruct (@TokenStream.new AsciiOnly (bytes_of "1 + 2 * x RETURN")) as [[ts|e]|] eqn:En;
    [|vm_compute in En; discriminate En..].
  destruct (parse_expr 0 ts) as [[[e ts']|e]|] eqn:E;
    [|exfalso; vm_compute in En; injection En as <-; vm_compute in E; discriminate E..].
  exists ts, ts', e. split; [reflexivity|]. split; [exact E|].
  apply (@parse_expr_positions AsciiOnly _ ts ts' 0 e En E).
Defined.
