(* ===== verification/ReadOnly.v ===== *)
(** * ReadOnly: admission of read queries ([graphforge-cypher/src/read_only.rs]).

    A saved query is accepted when none of its clauses, in the query itself or in any
    subquery, mutates the graph or calls a procedure; the parameters it refers to are
    collected.  The visitors take the function that visits an expression as an argument,
    [visit_expr] is their fixed point.  The values of a map literal are visited in insertion
    order: the order of the [HashMap] only matters for which of two errors is reported
    first. *)

From stdpp Require Import base numbers list gmap strings relations.
From Stdlib Require Import ZArith Lia.
From S2P Require Import Prelude Text Ast Scan Lexer TokenStream ParseClause ParseQuery.

#[local] Open Scope list_scope.
#[local] Open Scope Z_scope.

(** [GfError::Validation], with the message as its reason. *)
Inductive ValidationError :=
| InvalidSyntax (e : ParseError)
| Refused
| EmptyQuery.

Abbreviation params := (gset str).
Abbreviation Visit A := (A -> params -> result ValidationError params).

(** [for x in l { f(x, parameters)?; }] *)
Definition visit_all {A} (f : Visit A) : Visit (list A) :=
  fix go l ps :=
    match l with
    | [] => Ok ps
    | x :: l' => match f x ps with Ok ps' => go l' ps' | Err e => Err e end
    end.

(** [if let Some(x) = o { f(x, parameters)?; }] *)
Definition visit_opt {A} (f : Visit A) : Visit (option A) := fun o ps =>
  match o with Some x => f x ps | None => Ok ps end.

Section visitors.
Context {E : Type} (visit : Visit E).

Definition visit_element : Visit (PathElement E) := fun el =>
  visit_opt visit (match el with Node n => np_properties n | Rel r => rp_properties r end).

Definition visit_pattern : Visit (PathPattern E) := fun p => visit_all visit_element (pp_elements p).

Definition visit_order_by : Visit (OrderByClause E) := fun o =>
  visit_all (fun i => visit (si_expr i)) (ob_items o).

Definition visit_projection (items : list (ReturnItem E)) (order_by : option (OrderByClause E))
    (skip limit : option E) (ps : params) : result ValidationError params :=
  ps ← visit_all (fun i => visit (ri_expr i)) items ps;
  ps ← visit_opt visit_order_by order_by ps;
  ps ← visit_opt visit skip ps;
  visit_opt visit limit ps.

Definition visit_where : Visit (WhereClause E) := fun w => visit (wh_predicate w).

Definition visit_clause : Visit (AstClause.AstClause E) := fun c ps =>
  match c with
  | AstClause.Match c | AstClause.OptionalMatch c =>
      ps ← visit_all visit_pattern (mc_patterns c) ps;
      visit_opt visit_where (mc_where_clause c) ps
  | AstClause.Where c => visit_where c ps
  | AstClause.With c =>
      ps ← visit_projection (wi_items c) (wi_order_by c) (wi_skip c) (wi_limit c) ps;
      visit_opt visit_where (wi_where_clause c) ps
  | AstClause.Return c => visit_projection (rc_items c) (rc_order_by c) (rc_skip c) (rc_limit c) ps
  | AstClause.Unwind c => visit (uw_expr c) ps
  | AstClause.Union _ => Ok ps
  | _ => Err Refused
  end.

Definition visit_query : Visit (AstQuery E) := fun q ps =>
  match aq_clauses q with
  | [] => Err EmptyQuery
  | _ => visit_all visit_clause (aq_clauses q) ps
  end.
End visitors.

Fixpoint visit_expr (e : Expr) (ps : params) : result ValidationError params :=
  match e with
  | Expr.Literal _ | Expr.Var _ | Expr.LabelPredicate _ => Ok ps
  | Expr.Param p => Ok ({[pr_name p]} ∪ ps)
  | Expr.Property p => visit_expr (pa_object p) ps
  | Expr.BinaryOp b => ps ← visit_expr (bo_left b) ps; visit_expr (bo_right b) ps
  | Expr.UnaryOp u => visit_expr (uo_expr u) ps
  | Expr.FunctionCall f => visit_all visit_expr (fc_args f) ps
  | Expr.List l => visit_all visit_expr (ll_elements l) ps
  | Expr.Map m => visit_all (fun kv => visit_expr (snd kv)) (ml_entries m) ps
  | Expr.Case c =>
      ps ← visit_opt visit_expr (ce_subject c) ps;
      ps ← visit_opt visit_expr (ce_else_expr c) ps;
      visit_all (fun w ps => ps ← visit_expr (wn_condition w) ps; visit_expr (wn_result w) ps)
        (ce_when_clauses c) ps
  | Expr.ListComprehension l =>
      ps ← visit_expr (lc_list l) ps;
      ps ← visit_opt visit_expr (lc_filter l) ps;
      visit_opt visit_expr (lc_projection l) ps
  | Expr.Quantifier q => ps ← visit_expr (qf_list q) ps; visit_expr (qf_predicate q) ps
  | Expr.PatternComprehension p =>
      ps ← visit_pattern visit_expr (pc_pattern p) ps;
      ps ← visit_opt visit_expr (pc_filter p) ps;
      visit_expr (pc_projection p) ps
  | Expr.PatternPredicate p => visit_pattern visit_expr (ppr_pattern p) ps
  | Expr.ExistentialSubquery s =>
      match es_body s with
      | Simple pattern filter =>
          ps ← visit_pattern visit_expr pattern ps;
          visit_opt visit_expr filter ps
      | Full query => visit_query visit_expr query ps
      end
  | Expr.IsNull e _ _ => visit_expr e ps
  | Expr.InList e l _ _ => ps ← visit_expr e ps; visit_expr l ps
  | Expr.StringOp e _ p _ | Expr.RegexMatch e p _ => ps ← visit_expr e ps; visit_expr p ps
  | Expr.Parenthesized e _ => visit_expr e ps
  end.

Definition read_only_query_parameters `{Unicode} (query : str) : option (result ValidationError params) :=
  match parse query with
  | None => None
  | Some (Err e) => Some (Err (InvalidSyntax e))
  | Some (Ok parsed) => Some (visit_query visit_expr parsed ∅)
  end.

(** ** The specification *)

(** The expressions directly below a node. *)
Section children.
Context {E : Type}.

Definition element_exprs (el : PathElement E) : list E :=
  option_list (match el with Node n => np_properties n | Rel r => rp_properties r end).

Definition pattern_exprs (p : PathPattern E) : list E := pp_elements p ≫= element_exprs.

Definition where_exprs (w : option (WhereClause E)) : list E := wh_predicate <$> option_list w.

Definition order_by_exprs (o : option (OrderByClause E)) : list E :=
  option_list o ≫= fun o => si_expr <$> ob_items o.

Definition projection_exprs (items : list (ReturnItem E)) (order_by : option (OrderByClause E))
    (skip limit : option E) : list E :=
  (ri_expr <$> items) ++ order_by_exprs order_by ++ option_list skip ++ option_list limit.

Definition set_item_exprs (i : SetItem E) : list E :=
  match i with
  | SetProperty target value _ => [pa_object target; value]
  | SetPropertyMerge _ map _ | SetPropertyReplace _ map _ => [map]
  | SetLabel _ _ _ => []
  end.

Definition clause_exprs (c : AstClause.AstClause E) : list E :=
  match c with
  | AstClause.Match c | AstClause.OptionalMatch c =>
      (mc_patterns c ≫= pattern_exprs) ++ where_exprs (mc_where_clause c)
  | AstClause.Where c => [wh_predicate c]
  | AstClause.With c =>
      projection_exprs (wi_items c) (wi_order_by c) (wi_skip c) (wi_limit c) ++
      where_exprs (wi_where_clause c)
  | AstClause.Return c => projection_exprs (rc_items c) (rc_order_by c) (rc_skip c) (rc_limit c)
  | AstClause.Create c => cc_patterns c ≫= pattern_exprs
  | AstClause.Merge c =>
      pattern_exprs (mg_pattern c) ++ (mg_on_create c ≫= set_item_exprs) ++
      (mg_on_match c ≫= set_item_exprs)
  | AstClause.Set_ c => st_items c ≫= set_item_exprs
  | AstClause.Remove c =>
      rm_items c ≫= fun i => match i with RemoveProperty t _ => [pa_object t] | RemoveLabel _ _ _ => [] end
  | AstClause.Delete c => dl_exprs c
  | AstClause.Unwind c => [uw_expr c]
  | AstClause.Call c => cl_args c ++ (ri_expr <$> cl_yield_items c)
  | AstClause.Union _ => []
  end.

Definition query_exprs (q : AstQuery E) : list E := aq_clauses q ≫= clause_exprs.
End children.

Definition children (e : Expr) : list Expr :=
  match e with
  | Expr.Literal _ | Expr.Var _ | Expr.LabelPredicate _ | Expr.Param _ => []
  | Expr.Property p => [pa_object p]
  | Expr.BinaryOp b => [bo_left b; bo_right b]
  | Expr.UnaryOp u => [uo_expr u]
  | Expr.FunctionCall f => fc_args f
  | Expr.List l => ll_elements l
  | Expr.Map m => (ml_entries m).*2
  | Expr.Case c =>
      option_list (ce_subject c) ++ option_list (ce_else_expr c) ++
      (ce_when_clauses c ≫= fun w => [wn_condition w; wn_result w])
  | Expr.ListComprehension l =>
      lc_list l :: option_list (lc_filter l) ++ option_list (lc_projection l)
  | Expr.Quantifier q => [qf_list q; qf_predicate q]
  | Expr.PatternComprehension p =>
      pattern_exprs (pc_pattern p) ++ option_list (pc_filter p) ++ [pc_projection p]
  | Expr.PatternPredicate p => pattern_exprs (ppr_pattern p)
  | Expr.ExistentialSubquery s =>
      match es_body s with
      | Simple pattern filter => pattern_exprs pattern ++ option_list filter
      | Full query => query_exprs query
      end
  | Expr.IsNull e _ _ => [e]
  | Expr.InList e l _ _ => [e; l]
  | Expr.StringOp e _ p _ | Expr.RegexMatch e p _ => [e; p]
  | Expr.Parenthesized e _ => [e]
  end.

Definition child (e c : Expr) : Prop := c ∈ children e.

(** The clauses a read query may have. *)
Definition reads {E} (c : AstClause.AstClause E) : bool :=
  match c with
  | AstClause.Match _ | AstClause.OptionalMatch _ | AstClause.Where _ | AstClause.With _
  | AstClause.Return _ | AstClause.Unwind _ | AstClause.Union _ => true
  | _ => false
  end.

(** A query with clauses that all read. *)
Definition read_clauses {E} (q : AstQuery E) : Prop :=
  aq_clauses q <> [] /\ Forall (fun c => reads c = true) (aq_clauses q).

(** [e] occurs in [q], at any depth and in any subquery. *)
Definition occurs (q : AstQuery Expr) (e : Expr) : Prop :=
  exists e0, e0 ∈ query_exprs q /\ rtc child e0 e.

(** The subquery of an expression reads. *)
Definition subquery_reads (e : Expr) : Prop :=
  match e with
  | Expr.ExistentialSubquery s =>
      match es_body s with Full q => read_clauses q | Simple _ _ => True end
  | _ => True
  end.

Definition is_param (e : Expr) (name : str) : Prop :=
  match e with Expr.Param p => pr_name p = name | _ => False end.

(** ** Induction over expressions *)

Definition sz_all {A} (f : A -> nat) : list A -> nat :=
  fix go l := match l with [] => O | x :: l' => (f x + go l')%nat end.

Definition sz_opt {A} (f : A -> nat) (o : option A) : nat :=
  match o with Some x => f x | None => O end.

Section sizes.
Context {E : Type} (f : E -> nat).

Definition sz_element (el : PathElement E) : nat :=
  sz_opt f (match el with Node n => np_properties n | Rel r => rp_properties r end).

Definition sz_pattern (p : PathPattern E) : nat := sz_all sz_element (pp_elements p).

Definition sz_projection (items : list (ReturnItem E)) (order_by : option (OrderByClause E))
    (skip limit : option E) : nat :=
  (sz_all (fun i => f (ri_expr i)) items +
   (sz_opt (fun o => sz_all (fun i => f (si_expr i)) (ob_items o)) order_by +
    (sz_opt f skip + sz_opt f limit)))%nat.

Definition sz_where (w : option (WhereClause E)) : nat := sz_opt (fun w => f (wh_predicate w)) w.

Definition sz_set_item (i : SetItem E) : nat :=
  match i with
  | SetProperty target value _ => (f (pa_object target) + f value)%nat
  | SetPropertyMerge _ map _ | SetPropertyReplace _ map _ => f map
  | SetLabel _ _ _ => O
  end.

Definition sz_clause (c : AstClause.AstClause E) : nat :=
  match c with
  | AstClause.Match c | AstClause.OptionalMatch c =>
      sz_all sz_pattern (mc_patterns c) + sz_where (mc_where_clause c)
  | AstClause.Where c => f (wh_predicate c)
  | AstClause.With c =>
      sz_projection (wi_items c) (wi_order_by c) (wi_skip c) (wi_limit c) +
      sz_where (wi_where_clause c)
  | AstClause.Return c => sz_projection (rc_items c) (rc_order_by c) (rc_skip c) (rc_limit c)
  | AstClause.Create c => sz_all sz_pattern (cc_patterns c)
  | AstClause.Merge c =>
      sz_pattern (mg_pattern c) +
      (sz_all sz_set_item (mg_on_create c) + sz_all sz_set_item (mg_on_match c))
  | AstClause.Set_ c => sz_all sz_set_item (st_items c)
  | AstClause.Remove c =>
      sz_all (fun i => match i with RemoveProperty t _ => f (pa_object t) | RemoveLabel _ _ _ => O end)
        (rm_items c)
  | AstClause.Delete c => sz_all f (dl_exprs c)
  | AstClause.Unwind c => f (uw_expr c)
  | AstClause.Call c => sz_all f (cl_args c) + sz_all (fun i => f (ri_expr i)) (cl_yield_items c)
  | AstClause.Union _ => 0
  end%nat.

Definition sz_query (q : AstQuery E) : nat := sz_all sz_clause (aq_clauses q).
End sizes.

(** The number of nodes of an expression. *)
Fixpoint expr_size (e : Expr) : nat :=
  S match e with
  | Expr.Literal _ | Expr.Var _ | Expr.LabelPredicate _ | Expr.Param _ => 0
  | Expr.Property p => expr_size (pa_object p)
  | Expr.BinaryOp b => expr_size (bo_left b) + expr_size (bo_right b)
  | Expr.UnaryOp u => expr_size (uo_expr u)
  | Expr.FunctionCall f => sz_all expr_size (fc_args f)
  | Expr.List l => sz_all expr_size (ll_elements l)
  | Expr.Map m => sz_all (fun kv => expr_size (snd kv)) (ml_entries m)
  | Expr.Case c =>
      sz_opt expr_size (ce_subject c) +
      (sz_opt expr_size (ce_else_expr c) +
       sz_all (fun w => expr_size (wn_condition w) + expr_size (wn_result w)) (ce_when_clauses c))
  | Expr.ListComprehension l =>
      expr_size (lc_list l) + (sz_opt expr_size (lc_filter l) + sz_opt expr_size (lc_projection l))
  | Expr.Quantifier q => expr_size (qf_list q) + expr_size (qf_predicate q)
  | Expr.PatternComprehension p =>
      sz_pattern expr_size (pc_pattern p) +
      (sz_opt expr_size (pc_filter p) + expr_size (pc_projection p))
  | Expr.PatternPredicate p => sz_pattern expr_size (ppr_pattern p)
  | Expr.ExistentialSubquery s =>
      match es_body s with
      | Simple pattern filter => sz_pattern expr_size pattern + sz_opt expr_size filter
      | Full query => sz_query expr_size query
      end
  | Expr.IsNull e _ _ => expr_size e
  | Expr.InList e l _ _ => expr_size e + expr_size l
  | Expr.StringOp e _ p _ | Expr.RegexMatch e p _ => expr_size e + expr_size p
  | Expr.Parenthesized e _ => expr_size e
  end%nat.

Lemma sz_all_app {A} (f : A -> nat) l k : sz_all f (l ++ k) = (sz_all f l + sz_all f k)%nat.
Proof. induction l as [|x l IH]; [done|]. cbn [app sz_all]. rewrite IH. lia. Qed.

Lemma sz_all_bind {A B} (f : B -> nat) (g : A -> list B) l :
  sz_all f (l ≫= g) = sz_all (fun x => sz_all f (g x)) l.
Proof. induction l as [|x l IH]; [done|]. rewrite bind_cons, sz_all_app, IH. done. Qed.

Lemma sz_all_fmap {A B} (f : B -> nat) (g : A -> B) l : sz_all f (g <$> l) = sz_all (fun x => f (g x)) l.
Proof. induction l as [|x l IH]; [done|]. cbn. by rewrite <-IH. Qed.

Lemma sz_all_ext {A} (f g : A -> nat) l : (forall x, f x = g x) -> sz_all f l = sz_all g l.
Proof. intros H. induction l as [|x l IH]; [done|]. cbn. by rewrite H, IH. Qed.

Lemma sz_all_option {A} (f : A -> nat) o : sz_all f (option_list o) = sz_opt f o.
Proof. destruct o; cbn; lia. Qed.

Lemma sz_all_elem {A} (f : A -> nat) x l : x ∈ l -> (f x <= sz_all f l)%nat.
Proof. induction 1; cbn; lia. Qed.

Section children_sizes.
Context {E : Type} (f : E -> nat).

Lemma sz_pattern_exprs p : sz_all f (pattern_exprs p) = sz_pattern f p.
Proof.
  unfold pattern_exprs, sz_pattern. rewrite sz_all_bind. apply sz_all_ext. intros el.
  apply sz_all_option.
Qed.

Lemma sz_patterns_exprs ps : sz_all f (ps ≫= pattern_exprs) = sz_all (sz_pattern f) ps.
Proof. rewrite sz_all_bind. apply sz_all_ext, sz_pattern_exprs. Qed.

Lemma sz_where_exprs w : sz_all f (where_exprs w) = sz_where f w.
Proof. unfold where_exprs. by rewrite sz_all_fmap, sz_all_option. Qed.

Lemma sz_projection_exprs items ob skip limit :
  sz_all f (projection_exprs items ob skip limit) = sz_projection f items ob skip limit.
Proof.
  unfold projection_exprs, sz_projection.
  rewrite !sz_all_app, sz_all_fmap. unfold order_by_exprs.
  rewrite sz_all_bind, !sz_all_option. do 2 f_equal.
  destruct ob; [|done]. cbn. rewrite sz_all_fmap. lia.
Qed.

Lemma sz_set_items_exprs l : sz_all f (l ≫= set_item_exprs) = sz_all (sz_set_item f) l.
Proof. rewrite sz_all_bind. apply sz_all_ext. intros []; cbn; lia. Qed.

Lemma sz_clause_exprs c : sz_all f (clause_exprs c) = sz_clause f c.
Proof.
  destruct c; cbn [clause_exprs sz_clause];
    rewrite ?sz_all_app, ?sz_patterns_exprs, ?sz_where_exprs, ?sz_projection_exprs,
      ?sz_pattern_exprs, ?sz_set_items_exprs; try (cbn; lia).
  - rewrite sz_all_bind. apply sz_all_ext. intros []; cbn; lia.
  - by rewrite sz_all_fmap.
Qed.

Lemma sz_query_exprs q : sz_all f (query_exprs q) = sz_query f q.
Proof. unfold query_exprs. rewrite sz_all_bind. apply sz_all_ext, sz_clause_exprs. Qed.
End children_sizes.

Lemma expr_size_children e : expr_size e = S (sz_all expr_size (children e)).
Proof.
  destruct e; cbn [expr_size children]; f_equal;
    rewrite ?sz_all_app, ?sz_pattern_exprs, ?sz_all_option; try (cbn; lia).
  - by rewrite sz_all_fmap.
  - rewrite sz_all_bind. do 2 f_equal. apply sz_all_ext. intros w. cbn. lia.
  - cbn. rewrite sz_all_app, !sz_all_option. lia.
  - destruct (es_body es).
    + by rewrite sz_all_app, sz_pattern_exprs, sz_all_option.
    + by rewrite sz_query_exprs.
Qed.

(** To prove a property of an expression, assume it of the expressions below it. *)
Lemma expr_child_ind (P : Expr -> Prop) :
  (forall e, (forall c, child e c -> P c) -> P e) -> forall e, P e.
Proof.
  intros Hstep e. induction e as [e IH] using (induction_ltof1 _ expr_size). apply Hstep.
  intros c Hc. apply IH. unfold ltof. rewrite (expr_size_children e).
  pose proof (sz_all_elem expr_size c _ Hc). lia.
Qed.

(** ** What the visitors do *)

(** Either [f] accepts [x] and adds a set of parameters, the [names] of [x], and [x] is
    [good]; or it refuses [x], which is not. *)
Definition visits {A} (f : Visit A) (good : A -> Prop) (names : A -> str -> Prop) (x : A) : Prop :=
  (good x /\ exists N, (forall n, n ∈ N <-> names x n) /\ forall ps, f x ps = Ok (N ∪ ps)) \/
  (~ good x /\ forall ps, exists e, f x ps = Err e).

Section nodes.
Context {E : Type} (good : E -> Prop) (names : E -> str -> Prop).

(** The same for a node that is made of expressions. *)
Definition all_good (l : list E) : Prop := forall x, x ∈ l -> good x.
Definition all_names (l : list E) (n : str) : Prop := exists x, x ∈ l /\ names x n.
Definition visits_exprs {A} (g : Visit A) (exprs : A -> list E) (x : A) : Prop :=
  visits g (fun x => all_good (exprs x)) (fun x => all_names (exprs x)) x.

Lemma all_good_nil : all_good [].
Proof. clear names. intros x Hx. by apply not_elem_of_nil in Hx. Qed.

Lemma all_names_nil n : ~ all_names [] n.
Proof. clear good. intros (x&Hx&_). by apply not_elem_of_nil in Hx. Qed.

Lemma all_good_app l k : all_good (l ++ k) <-> all_good l /\ all_good k.
Proof. clear names. unfold all_good. setoid_rewrite elem_of_app. naive_solver. Qed.

Lemma all_names_app l k n : all_names (l ++ k) n <-> all_names l n \/ all_names k n.
Proof. clear good. unfold all_names. setoid_rewrite elem_of_app. naive_solver. Qed.

Lemma visits_skip {A} (g : Visit A) ex (x : A) :
  (forall ps, g x ps = Ok ps) -> ex x = [] -> visits_exprs g ex x.
Proof.
  intros Hg Hex. left. rewrite Hex. split; [apply all_good_nil|]. exists ∅. split.
  - intros n. split; [by intros ?%not_elem_of_empty|]. by intros ?%all_names_nil.
  - intros ps. by rewrite Hg, (left_id_L ∅ (∪)).
Qed.

(** One visit after another. *)
Lemma visits_then {A B D : Type} (g : Visit A) (h : Visit B) (k : Visit D) ga hb kc a b c :
  (forall ps, k c ps = (ps ← g a ps; h b ps)) -> kc c = ga a ++ hb b ->
  visits_exprs g ga a -> visits_exprs h hb b -> visits_exprs k kc c.
Proof.
  unfold visits_exprs, visits. intros Hk -> Hg Hh. setoid_rewrite all_names_app.
  rewrite all_good_app. setoid_rewrite Hk.
  destruct Hg as [[G1 (N1&HN1&Hg)]|[B1 Hg]].
  - destruct Hh as [[G2 (N2&HN2&Hh)]|[B2 Hh]]; [left|right].
    + split; [done|]. exists (N2 ∪ N1). split.
      * intros n. rewrite elem_of_union, HN1, HN2. tauto.
      * intros ps. rewrite Hg. cbn. by rewrite Hh, (assoc_L (∪)).
    + split; [tauto|]. intros ps. rewrite Hg. cbn. apply Hh.
  - right. split; [tauto|]. intros ps. destruct (Hg ps) as [e He]. exists e. by rewrite He.
Qed.

Lemma visits_all {A : Type} (g : Visit A) ex l :
  (forall x, x ∈ l -> visits_exprs g ex x) -> visits_exprs (visit_all g) (fun l => l ≫= ex) l.
Proof.
  induction l as [|x l IH]; intros Hl; [by apply visits_skip|].
  apply (visits_then g (visit_all g) _ ex (fun l => l ≫= ex) _ x l); [|done| |].
  - intros ps. cbn. by destruct (g x ps).
  - apply Hl. by left.
  - apply IH. intros y Hy. apply Hl. by right.
Qed.

Lemma visits_opt {A : Type} (g : Visit A) ex o :
  (forall x, o = Some x -> visits_exprs g ex x) ->
  visits_exprs (visit_opt g) (fun o => option_list o ≫= ex) o.
Proof.
  intros Ho. destruct o as [x|]; [|by apply visits_skip].
  specialize (Ho x eq_refl). unfold visits_exprs, visits in *. cbn. by rewrite app_nil_r.
Qed.

Lemma visits_exprs_ext {A} (g : Visit A) ex ex' x : ex x = ex' x -> visits_exprs g ex x -> visits_exprs g ex' x.
Proof. unfold visits_exprs, visits. by intros ->. Qed.

End nodes.
Arguments visits_skip {E good names A}.
Arguments visits_then {E good names A B D}.
Arguments visits_all {E good names A}.
Arguments visits_opt {E good names A}.
Arguments visits_exprs_ext {E good names A}.

Lemma bind_singleton {A} (l : list A) : l ≫= (fun x => [x]) = l.
Proof. induction l as [|x l IH]; [done|]. rewrite bind_cons, IH. done. Qed.

Section visits.
Context {E : Type} (f : Visit E) {good : E -> Prop} {names : E -> str -> Prop}.
#[local] Abbreviation visits_es := (visits_exprs good names).

Definition each (l : list E) : Prop := forall x, x ∈ l -> visits f good names x.

Lemma visits_one {A} (g : Visit A) ex (x : A) e :
  (forall ps, g x ps = f e ps) -> ex x = [e] -> visits f good names e -> visits_es g ex x.
Proof.
  intros Hg Hex [[Hgood (N&HN&Hf)]|[Hbad Hf]]; [left|right]; rewrite Hex; unfold all_good, all_names;
    setoid_rewrite list_elem_of_singleton.
  - split; [by intros y ->|]. exists N. split; [|intros ps; by rewrite Hg].
    intros n. rewrite HN. naive_solver.
  - split; [auto|]. intros ps. rewrite Hg. apply Hf.
Qed.

(** Lists and options of expressions. *)
Lemma visits_exprs_self x : visits f good names x -> visits_es f (fun x => [x]) x.
Proof. intros Hx. by apply (visits_one _ _ _ x). Qed.

Lemma visits_list l : each l -> visits_es (visit_all f) (fun l => l) l.
Proof.
  intros Hl. eapply (visits_exprs_ext _ (fun l => l ≫= (fun x => [x]))); [apply bind_singleton|].
  apply visits_all. intros x Hx. by apply visits_exprs_self, Hl.
Qed.

Lemma visits_option o : each (option_list o) -> visits_es (visit_opt f) option_list o.
Proof.
  intros Ho. eapply (visits_exprs_ext _ (fun o => option_list o ≫= (fun x => [x]))); [apply bind_singleton|].
  apply visits_opt. intros x ->. apply visits_exprs_self, Ho. by left.
Qed.

Lemma each_app l k : each (l ++ k) <-> each l /\ each k.
Proof. unfold each. setoid_rewrite elem_of_app. naive_solver. Qed.

Lemma each_bind {A} (ex : A -> list E) l x : each (l ≫= ex) -> x ∈ l -> each (ex x).
Proof. intros Hl Hx y Hy. apply Hl, list_elem_of_bind. by exists x. Qed.

Lemma each_fmap {A} (g : A -> E) l x : each (g <$> l) -> x ∈ l -> visits f good names (g x).
Proof. intros Hl Hx. apply Hl, list_elem_of_fmap_2, Hx. Qed.

(** A list of nodes with one expression each. *)
Lemma visits_mapped {A : Type} (g : Visit A) (ex : A -> E) l :
  (forall x ps, g x ps = f (ex x) ps) -> each (ex <$> l) ->
  visits_es (visit_all g) (fun l => ex <$> l) l.
Proof.
  intros Hg Hl. eapply (visits_exprs_ext _ (fun l => l ≫= (fun x => [ex x]))).
  { induction l as [|x l IH]; [done|]. rewrite bind_cons, IH; [done|]. intros y Hy. apply Hl. by right. }
  apply visits_all. intros x Hx. apply (visits_one _ _ _ (ex x)); [done|done|]. by eapply each_fmap.
Qed.

(** ** Patterns, projections, clauses *)

Lemma visits_pattern p : each (pattern_exprs p) -> visits_es (visit_pattern f) pattern_exprs p.
Proof.
  intros Hp. apply (visits_all (visit_element f) element_exprs (pp_elements p)). intros el Hel.
  apply (visits_option _), (each_bind element_exprs _ el Hp Hel).
Qed.

Lemma visits_patterns ps :
  each (ps ≫= pattern_exprs) -> visits_es (visit_all (visit_pattern f)) (fun ps => ps ≫= pattern_exprs) ps.
Proof. intros Hp. apply visits_all. intros p Hin. apply visits_pattern. by eapply each_bind. Qed.

Lemma visits_where w : each (where_exprs w) -> visits_es (visit_opt (visit_where f)) where_exprs w.
Proof.
  intros Hw. eapply (visits_exprs_ext _ (fun o => option_list o ≫= (fun w => [wh_predicate w])));
    [by destruct w|].
  apply visits_opt. intros x ->. apply (visits_one _ _ _ (wh_predicate x)); [done..|]. apply Hw. by left.
Qed.

Lemma visits_order_by ob :
  each (order_by_exprs ob) -> visits_es (visit_opt (visit_order_by f)) order_by_exprs ob.
Proof.
  intros Hob. apply visits_opt. intros o ->.
  apply (visits_mapped (fun i => f (si_expr i)) si_expr (ob_items o)); [done|].
  apply (each_bind (fun o => si_expr <$> ob_items o) _ o Hob). by left.
Qed.

(** A projection, whatever the record that holds its parts. *)
Lemma visits_projection {A : Type} (x : A) items ob skip limit :
  each (projection_exprs items ob skip limit) ->
  visits_es (fun _ => visit_projection f items ob skip limit)
    (fun _ => projection_exprs items ob skip limit) x.
Proof.
  unfold projection_exprs. intros (H1&(H2&(H3&H4)%each_app)%each_app)%each_app.
  assert (H34 : visits_es (fun (_ : unit) ps => ps ← visit_opt f skip ps; visit_opt f limit ps)
    (fun _ => option_list skip ++ option_list limit) tt).
  { by apply (visits_then (visit_opt f) (visit_opt f) _ option_list option_list _ skip limit);
      [| |apply visits_option..]. }
  assert (H234 : visits_es
    (fun (_ : unit) ps => ps ← visit_opt (visit_order_by f) ob ps; ps ← visit_opt f skip ps; visit_opt f limit ps)
    (fun _ => order_by_exprs ob ++ option_list skip ++ option_list limit) tt).
  { by apply (visits_then (visit_opt (visit_order_by f)) _ _ order_by_exprs _ _ ob tt tt
      (fun _ => eq_refl) eq_refl (visits_order_by _ H2) H34). }
  by apply (visits_then (visit_all (fun i => f (ri_expr i))) _ _ (fun l => ri_expr <$> l) _ _ items tt x
    (fun _ => eq_refl) eq_refl (visits_mapped _ _ _ (fun _ _ => eq_refl) H1) H234).
Qed.

(** A clause that reads is visited through its expressions, any other is refused. *)
Lemma visits_clause c :
  each (clause_exprs c) ->
  if reads c then visits_es (visit_clause f) clause_exprs c
  else forall ps, visit_clause f c ps = Err Refused.
Proof.
  destruct c; cbn [reads]; try done; intros Hc.
  - apply each_app in Hc as [H1 H2].
    apply (visits_then (visit_all (visit_pattern f)) (visit_opt (visit_where f)) _
      (fun ps => ps ≫= pattern_exprs) where_exprs _ (mc_patterns c) (mc_where_clause c));
      [done|done|by apply visits_patterns|by apply visits_where].
  - apply each_app in Hc as [H1 H2].
    apply (visits_then (visit_all (visit_pattern f)) (visit_opt (visit_where f)) _
      (fun ps => ps ≫= pattern_exprs) where_exprs _ (mc_patterns c) (mc_where_clause c));
      [done|done|by apply visits_patterns|by apply visits_where].
  - apply (visits_one _ _ _ (wh_predicate c)); [done..|]. apply Hc. by left.
  - apply each_app in Hc as [H1 H2].
    by apply (visits_then _ (visit_opt (visit_where f)) _ _ where_exprs _ tt (wi_where_clause c)
      (AstClause.With c) (fun _ => eq_refl) eq_refl (visits_projection tt _ _ _ _ H1) (visits_where _ H2)).
  - apply (visits_projection (AstClause.Return c)), Hc.
  - apply (visits_one _ _ _ (uw_expr c)); [done..|]. apply Hc. by left.
  - by apply visits_skip.
Qed.

(** The clauses of a query in turn: the first one that does not read stops the visit. *)
Lemma visits_clauses cs :
  each (cs ≫= clause_exprs) ->
  visits (visit_all (visit_clause f)) (fun cs => Forall (fun c => reads c = true) cs /\ all_good good (cs ≫= clause_exprs))
    (fun cs => all_names names (cs ≫= clause_exprs)) cs.
Proof.
  induction cs as [|c cs IH]; intros Hcs.
  - assert (Hs : visits_es (visit_all (visit_clause f)) (fun cs => cs ≫= clause_exprs) [])
      by (by apply visits_skip).
    destruct Hs as [[H1 H2]|[H1 _]]; [left; split; [by split; [constructor|]|done]|].
    destruct H1. apply all_good_nil.
  - rewrite bind_cons in Hcs. apply each_app in Hcs as [Hc Hcs]. specialize (IH Hcs).
    pose proof (visits_clause c Hc) as Hv. unfold visits. rewrite Forall_cons, bind_cons, (all_good_app good).
    setoid_rewrite (all_names_app names). cbn [visit_all].
    destruct (reads c) eqn:Er.
    + destruct Hv as [[G1 (N1&HN1&Hg)]|[B1 Hg]].
      * destruct IH as [[[R2 G2] (N2&HN2&Hh)]|[B2 Hh]]; [left|right].
        -- split; [done|]. exists (N2 ∪ N1). split.
           ++ intros n. rewrite elem_of_union, HN1, HN2. tauto.
           ++ intros ps. by rewrite Hg, Hh, (assoc_L (∪)).
        -- split; [tauto|]. intros ps. rewrite Hg. apply Hh.
      * right. split; [tauto|]. intros ps. destruct (Hg ps) as [e He]. exists e. by rewrite He.
    + right. split; [by intros [[? _] _]|]. intros ps. exists Refused. by rewrite Hv.
Qed.

(** A query is accepted when it has clauses, all of them read, and its expressions are
    accepted. *)
Lemma visits_query q :
  each (query_exprs q) ->
  visits (visit_query f) (fun q => read_clauses q /\ all_good good (query_exprs q))
    (fun q => all_names names (query_exprs q)) q.
Proof.
  intros Hq. pose proof (visits_clauses (aq_clauses q) Hq) as Hv.
  unfold visits, visit_query, read_clauses, query_exprs in *.
  destruct (aq_clauses q) as [|c cs] eqn:Ecs; [right; split; [naive_solver|intros; by eexists]|].
  destruct Hv as [[[H1 H2] H3]|[H1 H2]]; [left|right]; (split; [naive_solver|done]).
Qed.
End visits.

(** ** Expressions *)

(** Every subquery in [e] reads. *)
Definition reads_below (e : Expr) : Prop := forall e', rtc child e e' -> subquery_reads e'.

(** The parameters in [e]. *)
Definition names_below (e : Expr) (n : str) : Prop := exists e', rtc child e e' /\ is_param e' n.

Lemma reads_below_children e :
  reads_below e <-> subquery_reads e /\ all_good reads_below (children e).
Proof.
  split.
  - intros He. split; [apply He; reflexivity|]. intros c Hc e' He'. apply He. by eapply rtc_l.
  - intros [He Hc] e' [->|(c&Hec&Hce)]%rtc_inv; [done|]. by apply (Hc c Hec).
Qed.

Lemma names_below_children e n :
  names_below e n <-> is_param e n \/ all_names names_below (children e) n.
Proof.
  split.
  - intros (e'&[->|(c&Hec&Hce)]%rtc_inv&Hp); [by left|]. right. exists c. split; [done|]. by exists e'.
  - intros [Hp|(c&Hc&e'&He'&Hp)]; [by exists e|]. exists e'. split; [|done]. by eapply rtc_l.
Qed.

(** A node without a subquery of its own that is not a parameter. *)
Lemma visits_node e :
  subquery_reads e -> (forall n, ~ is_param e n) ->
  visits_exprs reads_below names_below visit_expr children e ->
  visits visit_expr reads_below names_below e.
Proof.
  intros Hs Hp [[G (N&HN&Hf)]|[B Hf]]; [left|right]; rewrite reads_below_children.
  - split; [done|]. exists N. split; [|done]. intros n. rewrite HN, names_below_children.
    pose proof (Hp n). tauto.
  - split; [tauto|done].
Qed.

#[local] Abbreviation visits_e := (visits visit_expr reads_below names_below).
#[local] Abbreviation visits_es := (visits_exprs reads_below names_below).
#[local] Abbreviation each_e := (each visit_expr (good:=reads_below) (names:=names_below)).

(** Two and three visits in a row. *)
Lemma visits_pair {A : Type} (g : Visit A) ex (x : A) (a b : Expr) :
  (forall ps, g x ps = (ps ← visit_expr a ps; visit_expr b ps)) -> ex x = [a; b] ->
  each_e [a; b] -> visits_es g ex x.
Proof.
  intros Hg Hex Hab. apply (visits_then visit_expr visit_expr _ (fun a => [a]) (fun b => [b]) _ a b);
    [done|by rewrite Hex| |]; apply visits_exprs_self, Hab; [by left|by right; left].
Qed.

Lemma visits_three {A B D F : Type} (g : Visit A) (h : Visit B) (i : Visit D) (k : Visit F) ga hb ic kc a b c x :
  (forall ps, k x ps = (ps ← g a ps; ps ← h b ps; i c ps)) -> kc x = ga a ++ hb b ++ ic c ->
  visits_es g ga a -> visits_es h hb b -> visits_es i ic c -> visits_es k kc x.
Proof.
  intros Hk Hkc Hg Hh Hi.
  apply (visits_then g (fun (_ : unit) ps => ps ← h b ps; i c ps) k ga (fun _ => hb b ++ ic c) kc a tt x);
    [done|done|done|]. by apply (visits_then h i _ hb ic _ b c).
Qed.

Lemma visits_when l :
  each_e (l ≫= fun w => [wn_condition w; wn_result w]) ->
  visits_es (visit_all (fun w ps => ps ← visit_expr (wn_condition w) ps; visit_expr (wn_result w) ps))
    (fun l => l ≫= fun w => [wn_condition w; wn_result w]) l.
Proof.
  intros Hl. apply visits_all. intros w Hw. apply (visits_pair _ _ w (wn_condition w) (wn_result w)); [done..|].
  by apply (each_bind _ (fun w => [wn_condition w; wn_result w]) l w Hl).
Qed.

Lemma visits_single {A : Type} (g : Visit A) ex (x : A) e :
  (forall ps, g x ps = visit_expr e ps) -> ex x = [e] -> each_e [e] -> visits_es g ex x.
Proof. intros Hg Hex He. apply (visits_one _ _ _ _ e Hg Hex), He. by left. Qed.

Lemma each_cons x l : each_e (x :: l) <-> each_e [x] /\ each_e l.
Proof. apply (each_app _ [x] l). Qed.

(** The node of an existential subquery. *)
Lemma visits_exists s :
  each_e (children (Expr.ExistentialSubquery s)) -> visits_e (Expr.ExistentialSubquery s).
Proof.
  intros He. destruct s as [[pattern filter|q] span].
  - apply visits_node; [done|by intros n []|]. cbn in He. apply each_app in He as [H1 H2].
    apply (visits_then (visit_pattern visit_expr) (visit_opt visit_expr) _ pattern_exprs option_list _
      pattern filter); [done|done|by apply visits_pattern|by apply visits_option].
  - destruct (visits_query _ q He) as [[[G1 G2] (N&HN&Hf)]|[B Hf]]; [left|right];
      rewrite reads_below_children.
    + split; [done|]. exists N. split; [|exact Hf]. intros n. rewrite HN, names_below_children. cbn. tauto.
    + split; [exact B|exact Hf].
Qed.

Lemma visits_param p : visits_e (Expr.Param p).
Proof.
  left. rewrite reads_below_children. split; [split; [done|apply all_good_nil]|].
  exists {[pr_name p]}. split; [|done]. intros n. rewrite elem_of_singleton, names_below_children. cbn.
  pose proof (all_names_nil names_below n). naive_solver.
Qed.

(** ** Every expression *)

Lemma visit_expr_visits e : visits_e e.
Proof.
  induction e as [e IH] using expr_child_ind. change (each_e (children e)) in IH.
  destruct e; try (apply visits_param); try (by apply visits_exists);
    (apply visits_node; [done|by intros n []|]); cbn [children] in IH.
  - by apply visits_skip.
  - by apply visits_skip.
  - by apply (visits_single _ _ _ (pa_object p)).
  - by apply (visits_pair _ _ _ (bo_left b) (bo_right b)).
  - by apply (visits_single _ _ _ (uo_expr u)).
  - by apply (visits_list visit_expr (fc_args f)).
  - by apply (visits_list visit_expr (ll_elements l)).
  - by apply (visits_mapped visit_expr (fun kv => visit_expr (snd kv)) snd (ml_entries m)).
  - apply each_app in IH as [H1 [H2 H3]%each_app].
    apply (visits_three (visit_opt visit_expr) (visit_opt visit_expr)
      (visit_all (fun w ps => ps ← visit_expr (wn_condition w) ps; visit_expr (wn_result w) ps))
      _ option_list option_list
      (fun l => l ≫= fun w => [wn_condition w; wn_result w]) _ (ce_subject c) (ce_else_expr c)
      (ce_when_clauses c)); [done|done|by apply visits_option..|by apply visits_when].
  - apply each_cons in IH as [H1 [H2 H3]%each_app].
    apply (visits_three visit_expr (visit_opt visit_expr) (visit_opt visit_expr) _ (fun e => [e])
      option_list option_list _ (lc_list lc) (lc_filter lc) (lc_projection lc));
      [done|done| |by apply visits_option..]. by apply (visits_single _ _ _ (lc_list lc)).
  - by apply (visits_pair _ _ _ (qf_list q) (qf_predicate q)).
  - apply each_app in IH as [H1 [H2 H3]%each_app].
    apply (visits_three (visit_pattern visit_expr) (visit_opt visit_expr) visit_expr _ pattern_exprs
      option_list (fun e => [e]) _ (pc_pattern pc) (pc_filter pc) (pc_projection pc));
      [done|done|by apply visits_pattern|by apply visits_option|by apply (visits_single _ _ _ (pc_projection pc))].
  - by apply (visits_pattern visit_expr (ppr_pattern pp)).
  - by apply visits_skip.
  - by apply (visits_single _ _ _ e).
  - by apply (visits_pair _ _ _ e1 e2).
  - by apply (visits_pair _ _ _ e1 e2).
  - by apply (visits_pair _ _ _ e1 e2).
  - by apply (visits_single _ _ _ e).
Qed.

Lemma occurs_good q : all_good reads_below (query_exprs q) <-> forall e, occurs q e -> subquery_reads e.
Proof. unfold all_good, occurs, reads_below. naive_solver. Qed.

Lemma occurs_names q n : all_names names_below (query_exprs q) n <-> exists e, occurs q e /\ is_param e n.
Proof. unfold all_names, occurs, names_below. naive_solver. Qed.

(** C20 [read_only_query_parameters] answers for every text, and it accepts a text exactly when
    it parses to a query whose clauses all read (no CREATE, MERGE, SET, REMOVE, DELETE or
    CALL) and in which, at any depth, every subquery has clauses that all read; it then
    returns exactly the names of the parameters that occur anywhere in the query. *)
Theorem read_only_exact `{Unicode} (query : str) :
  (exists r, read_only_query_parameters query = Some r) /\
  forall ps, read_only_query_parameters query = Some (Ok ps) <->
    exists q, parse query = Some (Ok q) /\ read_clauses q /\
      (forall e, occurs q e -> subquery_reads e) /\
      forall n, n ∈ ps <-> exists e, occurs q e /\ is_param e n.
Proof.
  unfold read_only_query_parameters. pose proof (parse_spec query) as Hp.
  destruct (parse query) as [[q|e]|]; [| |done].
  2: { split; [by eexists|]. intros ps. split; [done|by intros (q&?&_)]. }
  split; [by eexists|]. intros ps.
  pose proof (visits_query visit_expr q (fun x _ => visit_expr_visits x)) as Hv.
  setoid_rewrite <-occurs_good. setoid_rewrite <-occurs_names.
  destruct Hv as [[[Hr Hg] (N&HN&Hf)]|[B Hf]].
  - rewrite Hf, (right_id_L ∅ (∪)). split.
    + intros [= <-]. by exists q.
    + intros (q'&[= <-]&_&_&Hps). do 2 f_equal. apply set_eq. intros n. by rewrite HN, Hps.
  - destruct (Hf ∅) as [e ->]. split; [done|]. intros (q'&[= <-]&Hr&Hg&_). tauto.
Qed.

(** A query whose subquery reads, and the same with a subquery that deletes. *)
Example read_only_reads :
  @read_only_query_parameters AsciiOnly (bytes_of
    "MATCH (n {k: $a}) WHERE exists { MATCH (n)-->(m) WHERE m.x = $b RETURN m } RETURN n") =
  Some (Ok {[bytes_of "a"; bytes_of "b"]}).
Proof. vm_compute. reflexivity. Qed.

Example read_only_refuses :
  @read_only_query_parameters AsciiOnly (bytes_of
    "MATCH (n) WHERE exists { MATCH (n)-->(m) DELETE m } RETURN n") = Some (Err Refused).
Proof. vm_compute. reflexivity. Qed.
