(* ===== verification/Grammar.v ===== *)
(** * Grammar: the operator grammar of expressions, and that [parse_expr] parses it.

    [Surf] is the surface syntax of expressions with operators, calls, lists and
    parentheses; [print] writes it as tokens without adding parentheses, and [sem] is the tree
    it stands for.  [canon] singles out the syntax that the binding powers read back as it was
    written: an operator's left operand does not end in something that binds more loosely, its
    right operand does not start with it.  The theorem at the end says that [parse_expr]
    returns exactly [sem] for it, up to source positions. *)

From stdpp Require Import base numbers list strings.
From Stdlib Require Import ZArith Lia ZifyBool.
From S2P Require Import Prelude Text Ast Scan Lexer TokenStream ParsePattern ParseExpr.
From S2P Require Import ParseClause ParseQuery.

#[local] Open Scope list_scope.
#[local] Open Scope Z_scope.

(** ** Trees without positions *)

Definition no_span : Span := mkSpan 0 0.

Definition erase_literal (l : Literal.Literal) : Literal.Literal :=
  match l with
  | Literal.Int n _ => Literal.Int n no_span
  | Literal.Float f _ => Literal.Float f no_span
  | Literal.Str s _ => Literal.Str s no_span
  | Literal.Bool b _ => Literal.Bool b no_span
  | Literal.Null _ => Literal.Null no_span
  end.

(** The positions of the nodes that [Surf] describes are erased. *)
Fixpoint erase (e : Expr) : Expr :=
  match e with
  | Expr.Literal l => Expr.Literal (erase_literal l)
  | Expr.Var v => Expr.Var (mkVarRef (vr_name v) no_span)
  | Expr.Param p => Expr.Param (mkParamRef (pr_name p) no_span)
  | Expr.Property p => Expr.Property (mkPropertyAccess (erase (pa_object p)) (pa_key p) no_span)
  | Expr.BinaryOp b =>
      Expr.BinaryOp (mkBinaryOp (bo_op b) (erase (bo_left b)) (erase (bo_right b)) no_span)
  | Expr.UnaryOp u => Expr.UnaryOp (mkUnaryOp (uo_op u) (erase (uo_expr u)) no_span)
  | Expr.FunctionCall f =>
      Expr.FunctionCall (mkFunctionCall (fc_name f) (fc_distinct f) (fc_star f) (map erase (fc_args f)) no_span)
  | Expr.List l => Expr.List (mkListLiteral (map erase (ll_elements l)) no_span)
  | Expr.IsNull e negated _ => Expr.IsNull (erase e) negated no_span
  | Expr.InList e l negated _ => Expr.InList (erase e) (erase l) negated no_span
  | Expr.StringOp e op p _ => Expr.StringOp (erase e) op (erase p) no_span
  | Expr.RegexMatch e p _ => Expr.RegexMatch (erase e) (erase p) no_span
  | Expr.Parenthesized e _ => Expr.Parenthesized (erase e) no_span
  | other => other
  end.

(** ** Surface syntax *)

Inductive Surf :=
| SInt (n : Z) | SFloat (bits : Z) | SStr (s : str) | SBool (b : bool) | SNull
| SParam (name : str) | SVar (name : str)
| SParen (e : Surf) | SNot (e : Surf) | SNeg (e : Surf)
| SBin (op : InfixOp) (l r : Surf)
| SCmp (op : InfixOp) (l r : Surf)
| SIsNull (e : Surf) (negated : bool)
| SGet (e : Surf) (key : str)
| SIndex (e i : Surf)
| SList (es : list Surf)
| SCall (name : str) (distinct : bool) (args : list Surf)
| SCallStar (name : str).

(** The token of an operator. *)
Definition op_tok (op : InfixOp) : Tok :=
  match op with
  | InfixOp.Or => Tok.Or | InfixOp.Xor => Tok.Xor | InfixOp.And => Tok.And
  | InfixOp.Eq => Tok.Eq | InfixOp.Neq => Tok.Neq | InfixOp.Lt => Tok.Lt | InfixOp.Lte => Tok.Lte
  | InfixOp.Gt => Tok.Gt | InfixOp.Gte => Tok.Gte | InfixOp.RegexMatch => Tok.RegexMatch
  | InfixOp.IsNull => Tok.IsNull | InfixOp.IsNotNull => Tok.IsNotNull
  | InfixOp.In => Tok.In | InfixOp.NotIn => Tok.NotIn
  | InfixOp.StartsWith => Tok.StartsWith | InfixOp.EndsWith => Tok.EndsWith
  | InfixOp.Contains => Tok.Contains
  | InfixOp.Add => Tok.Plus | InfixOp.Sub => Tok.Minus | InfixOp.Mul => Tok.Star
  | InfixOp.Div => Tok.Slash | InfixOp.Mod => Tok.Percent | InfixOp.Pow => Tok.Caret
  | InfixOp.Dot => Tok.Dot | InfixOp.Subscript => Tok.LBracket
  | InfixOp.LabelPredicate => Tok.Colon
  end.

(** How tightly an operator binds: from the disjunctions to the comparisons, the predicates of
    openCypher, the arithmetic and the postfix operators. *)
Definition l_bp (op : InfixOp) : Z :=
  match op with
  | InfixOp.Or => 10
  | InfixOp.Xor => 20
  | InfixOp.And => 30
  | InfixOp.Eq | InfixOp.Neq | InfixOp.Lt | InfixOp.Lte | InfixOp.Gt | InfixOp.Gte
  | InfixOp.RegexMatch => 40
  | InfixOp.IsNull | InfixOp.IsNotNull | InfixOp.In | InfixOp.NotIn | InfixOp.StartsWith
  | InfixOp.EndsWith | InfixOp.Contains => 45
  | InfixOp.Add | InfixOp.Sub => 50
  | InfixOp.Mul | InfixOp.Div | InfixOp.Mod => 60
  | InfixOp.Pow => 70
  | InfixOp.Dot | InfixOp.Subscript | InfixOp.LabelPredicate => 80
  end.

(** Every operator associates to the left. *)
Definition r_bp (op : InfixOp) : Z := l_bp op + 1.

(** Items separated by commas. *)
Fixpoint commas (l : list (list Tok)) : list Tok :=
  match l with
  | [] => []
  | [x] => x
  | x :: l' => x ++ Tok.Comma :: commas l'
  end.

(** A negative integer is written with a minus sign. *)
Definition print_int (n : Z) : list Tok :=
  if n <? 0 then [Tok.Minus; Tok.IntLit (- n)] else [Tok.IntLit n].

Fixpoint print (t : Surf) : list Tok :=
  match t with
  | SInt n => print_int n
  | SFloat f => [Tok.FloatLit f]
  | SStr s => [Tok.StrLit s]
  | SBool b => [if b then Tok.True else Tok.False]
  | SNull => [Tok.Null]
  | SParam x => [Tok.Param x]
  | SVar x => [Tok.Ident x]
  | SParen e => Tok.LParen :: print e ++ [Tok.RParen]
  | SNot e => Tok.Not :: print e
  | SNeg e => Tok.Minus :: print e
  | SBin op l r | SCmp op l r => print l ++ op_tok op :: print r
  | SIsNull e negated => print e ++ [if negated then Tok.IsNotNull else Tok.IsNull]
  | SGet e key => print e ++ [Tok.Dot; Tok.Ident key]
  | SIndex e i => print e ++ Tok.LBracket :: print i ++ [Tok.RBracket]
  | SList es => Tok.LBracket :: commas (map print es) ++ [Tok.RBracket]
  | SCall name distinct args =>
      Tok.Ident name :: Tok.LParen :: (if distinct then [Tok.Distinct] else []) ++
      commas (map print args) ++ [Tok.RParen]
  | SCallStar name => [Tok.Ident name; Tok.LParen; Tok.Star; Tok.RParen]
  end.

(** ** The tree of the surface syntax *)

Definition binary (kind : BinaryOpKind.BinaryOpKind) (l r : Expr) : Expr :=
  Expr.BinaryOp (mkBinaryOp kind l r no_span).

(** The operators with two operands that are not comparisons. *)
Definition sem_op (op : InfixOp) (l r : Expr) : option Expr :=
  match op with
  | InfixOp.Or => Some (binary BinaryOpKind.Or l r)
  | InfixOp.Xor => Some (binary BinaryOpKind.Xor l r)
  | InfixOp.And => Some (binary BinaryOpKind.And l r)
  | InfixOp.Add => Some (binary BinaryOpKind.Add l r)
  | InfixOp.Sub => Some (binary BinaryOpKind.Sub l r)
  | InfixOp.Mul => Some (binary BinaryOpKind.Mul l r)
  | InfixOp.Div => Some (binary BinaryOpKind.Div l r)
  | InfixOp.Mod => Some (binary BinaryOpKind.Mod l r)
  | InfixOp.Pow => Some (binary BinaryOpKind.Pow l r)
  | InfixOp.RegexMatch => Some (Expr.RegexMatch l r no_span)
  | InfixOp.In => Some (Expr.InList l r false no_span)
  | InfixOp.NotIn => Some (Expr.InList l r true no_span)
  | InfixOp.StartsWith => Some (Expr.StringOp l StringOpKind.StartsWith r no_span)
  | InfixOp.EndsWith => Some (Expr.StringOp l StringOpKind.EndsWith r no_span)
  | InfixOp.Contains => Some (Expr.StringOp l StringOpKind.Contains r no_span)
  | _ => None
  end.

Definition comparison_kind (op : InfixOp) : option BinaryOpKind.BinaryOpKind :=
  match op with
  | InfixOp.Eq => Some BinaryOpKind.Eq
  | InfixOp.Neq => Some BinaryOpKind.Neq
  | InfixOp.Lt => Some BinaryOpKind.Lt
  | InfixOp.Lte => Some BinaryOpKind.Lte
  | InfixOp.Gt => Some BinaryOpKind.Gt
  | InfixOp.Gte => Some BinaryOpKind.Gte
  | _ => None
  end.

Definition null : Expr := Expr.Literal (Literal.Null no_span).

Definition call (name : str) (distinct star : bool) (args : list Expr) : Expr :=
  Expr.FunctionCall (mkFunctionCall [name] distinct star args no_span).

(** A comparison of a comparison continues a chain: [a < b < c] is [a < b AND b < c]. *)
Fixpoint sem (t : Surf) : Expr :=
  match t with
  | SInt n => Expr.Literal (Literal.Int n no_span)
  | SFloat f => Expr.Literal (Literal.Float f no_span)
  | SStr s => Expr.Literal (Literal.Str s no_span)
  | SBool b => Expr.Literal (Literal.Bool b no_span)
  | SNull => null
  | SParam x => Expr.Param (mkParamRef x no_span)
  | SVar x => Expr.Var (mkVarRef x no_span)
  | SParen e => Expr.Parenthesized (sem e) no_span
  | SNot e => Expr.UnaryOp (mkUnaryOp UnaryOpKind.Not (sem e) no_span)
  | SNeg e => Expr.UnaryOp (mkUnaryOp UnaryOpKind.Neg (sem e) no_span)
  | SBin op l r => default null (sem_op op (sem l) (sem r))
  | SCmp op l r =>
      match comparison_kind op with
      | Some kind =>
          match l with
          | SCmp _ _ m => binary BinaryOpKind.And (sem l) (binary kind (sem m) (sem r))
          | _ => binary kind (sem l) (sem r)
          end
      | None => null
      end
  | SIsNull e negated => Expr.IsNull (sem e) negated no_span
  | SGet e key => Expr.Property (mkPropertyAccess (sem e) key no_span)
  | SIndex e i => call (bytes_of "_subscript") false false [sem e; sem i]
  | SList es => Expr.List (mkListLiteral (map sem es) no_span)
  | SCall name distinct args => call name distinct false (map sem args)
  | SCallStar name => call name false true []
  end.

(** ** Binding *)

(** More than every binding power. *)
Definition tight : Z := 100.

(** The loosest operator whose operands the term exposes at its left end, or right end. *)
Fixpoint left_edge (t : Surf) : Z :=
  match t with
  | SBin op l _ | SCmp op l _ => Z.min (l_bp op) (left_edge l)
  | SIsNull e _ => Z.min (l_bp InfixOp.IsNull) (left_edge e)
  | SGet e _ => Z.min (l_bp InfixOp.Dot) (left_edge e)
  | SIndex e _ => Z.min (l_bp InfixOp.Subscript) (left_edge e)
  | _ => tight
  end.

Fixpoint right_edge (t : Surf) : Z :=
  match t with
  | SBin op _ r | SCmp op _ r => Z.min (r_bp op) (right_edge r)
  | SNot e => Z.min 35 (right_edge e)
  | SNeg e => Z.min 75 (right_edge e)
  | _ => tight
  end.

(** The term ends in [(x)], which also reads as a node pattern. *)
Fixpoint ends_node (t : Surf) : bool :=
  match t with
  | SParen (SVar _) => true
  | SBin _ _ r | SCmp _ _ r => ends_node r
  | SNot e | SNeg e => ends_node e
  | _ => false
  end.

Definition starts_int (l : list Tok) : bool :=
  match l with Tok.IntLit _ :: _ => true | _ => false end.

(** [x IN ..] at the start of a list reads as a comprehension. *)
Definition starts_in (l : list Tok) : bool :=
  match l with Tok.Ident _ :: Tok.In :: _ => true | _ => false end.

(** The syntax that is read back as written. *)
Fixpoint canon (t : Surf) : bool :=
  match t with
  | SInt n => in_range i64_min i64_max n
  | SParen e => canon e
  | SNot e => canon e && (35 <=? left_edge e)
  | SNeg e => canon e && (75 <=? left_edge e) && negb (starts_int (print e))
  | SBin op l r =>
      bool_decide (is_Some (sem_op op null null)) && canon l && canon r &&
      (l_bp op <? right_edge l) && (r_bp op <=? left_edge r) &&
      negb (ends_node l && bool_decide (op_tok op = Tok.Minus))
  | SCmp op l r =>
      bool_decide (is_Some (comparison_kind op)) && canon l && canon r &&
      (l_bp op <? right_edge l) && (r_bp op <=? left_edge r)
  | SIsNull e _ => canon e && (l_bp InfixOp.IsNull <? right_edge e)
  | SGet e _ => canon e && (l_bp InfixOp.Dot <? right_edge e)
  | SIndex e i => canon e && canon i && (l_bp InfixOp.Subscript <? right_edge e)
  | SList es => forallb canon es && negb (starts_in (commas (map print es)))
  | SCall _ _ args => forallb canon args
  | _ => true
  end.

(** ** The cursor *)

(** The tokens at the cursor are [l] and nothing unsupported has been recorded. *)
Definition cur (l : list Tok) (ts : TokenStream) : Prop :=
  tk <$> tokens ts = l /\ unsupported ts = None.

Section cursor.
Implicit Types (ts : TokenStream) (l : list Tok) (F : ParseError -> Prop).

Lemma cur_remaining l ts : cur l ts -> remaining ts = length l.
Proof. intros [<- _]. by rewrite length_fmap. Qed.

Lemma cur_peek l ts : cur l ts -> peek ts = head l.
Proof. intros [<- _]. unfold peek. by destruct (tokens ts). Qed.

Lemma cur_peek_n n l ts : cur l ts -> peek_n n ts = l !! n.
Proof. intros [<- _]. unfold peek_n. by rewrite list_lookup_fmap. Qed.

Lemma cur_at t l ts : cur l ts -> at_ t ts = bool_decide (head l = Some t).
Proof. intros H. unfold at_. by rewrite (cur_peek _ _ H). Qed.

Lemma cur_at_n n t l ts : cur l ts -> at_n n t ts = bool_decide (l !! n = Some t).
Proof. intros H. unfold at_n. by rewrite (cur_peek_n _ _ _ H). Qed.

Lemma cur_at_ident l ts :
  cur l ts -> at_ident ts = match head l with Some (Tok.Ident _) => true | _ => false end.
Proof. intros H. unfold at_ident. by rewrite (cur_peek _ _ H). Qed.

Lemma run_advance t l ts (Q : option Spanned -> TokenStream -> Prop) F :
  cur (t :: l) ts -> (forall s ts', tk s = t -> cur l ts' -> Q (Some s) ts') -> wp advance ts Q F.
Proof.
  intros [Ht Hu] HQ. unfold wp, advance. destruct (tokens ts) as [|s toks] eqn:E; [done|].
  injection Ht as Hs Hl. by apply HQ.
Qed.

Lemma run_advance_unwrap t l ts (Q : Spanned -> TokenStream -> Prop) F :
  cur (t :: l) ts -> (forall s ts', tk s = t -> cur l ts' -> Q s ts') -> wp advance_unwrap ts Q F.
Proof.
  intros Hc HQ. apply wp_bind, (run_advance t l); [done|]. intros s ts' Hs Hc'. apply wp_ret. auto.
Qed.

Lemma run_eat t l ts (Q : Z * Z -> TokenStream -> Prop) F :
  cur (t :: l) ts -> (forall r ts', cur l ts' -> Q r ts') -> wp (eat t) ts Q F.
Proof.
  intros [Ht Hu] HQ. unfold wp, eat. destruct (tokens ts) as [|s toks] eqn:E; [done|].
  injection Ht as Hs Hl. rewrite decide_True by done. by apply HQ.
Qed.

(** When the token is another one, [eat] fails. *)
Lemma run_eat_fails t l ts (Q : Z * Z -> TokenStream -> Prop) :
  cur l ts -> head l <> Some t -> wp (eat t) ts Q (fun _ => True).
Proof.
  intros [<- Hu] Hne. unfold wp, eat. destruct (tokens ts) as [|s toks] eqn:E; [done|].
  rewrite decide_False; [done|]. intros Hs. apply Hne. cbn. by rewrite Hs.
Qed.

Lemma run_eat_if t l ts (Q : bool -> TokenStream -> Prop) F :
  cur (t :: l) ts -> (forall ts', cur l ts' -> Q true ts') -> wp (eat_if t) ts Q F.
Proof.
  intros Hc HQ. apply wp_bind, wp_gets. rewrite (cur_at _ _ _ Hc), bool_decide_true by done.
  apply wp_bind, (run_advance t l); [done|]. intros s ts' _ Hc'. apply wp_ret. auto.
Qed.

Lemma run_eat_if_not t l ts (Q : bool -> TokenStream -> Prop) F :
  cur l ts -> head l <> Some t -> Q false ts -> wp (eat_if t) ts Q F.
Proof.
  intros Hc Hne HQ. apply wp_bind, wp_gets. rewrite (cur_at _ _ _ Hc), bool_decide_false by done.
  by apply wp_ret.
Qed.

(** A loop with one iteration taken apart. *)
Lemma wp_loop_step {A B} (body : A -> P (A + B)) a ts (Q : B -> TokenStream -> Prop) F :
  wp (body a) ts (fun r ts' => match r with
    | inl a' => (remaining ts' < remaining ts)%nat /\ wp (loop body a') ts' Q F
    | inr b => Q b ts'
    end) F ->
  wp (loop body a) ts Q F.
Proof.
  intros H. unfold loop in *. cbn [iter]. apply wp_bind. eapply wp_mono; [exact H| |done].
  intros [a'|b] ts' H'; cbv beta iota in H'; [|done]. destruct H' as [Hr Hw].
  unfold wp in *. destruct (iter _ _ a' ts') as [r|] eqn:E; [|done].
  by rewrite (iter_fuel _ _ (remaining ts) _ _ _ E) by lia.
Qed.

Lemma wp_spanned {A} start (mk : Span -> A) ts (Q : A -> TokenStream -> Prop) F :
  (forall span, Q (mk span) ts) -> wp (spanned start mk) ts Q F.
Proof. intros HQ. apply wp_bind, wp_gets, wp_ret, HQ. Qed.

Lemma wp_probe {A} (m : P A) ts (R : TokenStream -> Prop) (Q : option TokenStream -> TokenStream -> Prop) F :
  wp m ts (fun _ => R) (fun _ => True) ->
  Q None ts -> (forall ts', R ts' -> Q (Some ts') ts) -> wp (probe m) ts Q F.
Proof.
  unfold wp, probe. destruct (m ts) as [[[a ts']|e]|]; auto.
Qed.

Lemma wp_probe_ok {A} (m : P A) ts (R : TokenStream -> Prop) (Q : option TokenStream -> TokenStream -> Prop) F :
  wp m ts (fun _ => R) (fun _ => False) -> (forall ts', R ts' -> Q (Some ts') ts) -> wp (probe m) ts Q F.
Proof. unfold wp, probe. destruct (m ts) as [[[a ts']|e]|]; [auto|done..]. Qed.
End cursor.

(** ** The first tokens of a term *)

Definition starter (t : Tok) : bool :=
  match t with
  | Tok.IntLit _ | Tok.FloatLit _ | Tok.StrLit _ | Tok.True | Tok.False | Tok.Null | Tok.Param _
  | Tok.Ident _ | Tok.LParen | Tok.Not | Tok.Minus | Tok.LBracket => true
  | _ => false
  end.

Lemma print_first t : exists c l, print t = c :: l /\ starter c = true.
Proof.
  induction t as [n| | |b| | | | | | |op l IH r _|op l IH r _|e IH negated|e IH key|e IH i _| | |];
    cbn [print]; unfold print_int; repeat case_match; try (by eexists _, _);
    destruct IH as (c&k&->&Hc); by eexists _, _.
Qed.

(** ** What may follow a term *)

Lemma binding_powers op : infix_binding_power op = (l_bp op, r_bp op).
Proof. by destruct op. Qed.

Lemma infix_op_tok op : infix_op (op_tok op) = Some op.
Proof. by destruct op. Qed.

(** The operators of [SBin] and [SCmp]. *)
Definition operator (op : InfixOp) : Prop := is_Some (sem_op op null null) \/ is_Some (comparison_kind op).

Lemma operator_tok op :
  operator op -> op_tok op <> Tok.Colon /\ op_tok op <> Tok.LBrace /\ op_tok op <> Tok.RParen /\
    op_tok op <> Tok.Dot /\ op_tok op <> Tok.LParen.
Proof. intros [[e H]|[k H]]; destruct op; cbn in H; try discriminate H; done. Qed.

(** The dotted names at the start of [l] are not the name of a call. *)
Fixpoint no_call (l : list Tok) : bool :=
  match l with
  | Tok.Dot :: Tok.Ident _ :: l' => no_call l'
  | Tok.LParen :: _ => false
  | _ => true
  end.

(** [rest] ends [t]: it does not continue the operands at the right end of [t], does not turn
    a name into a call or a parenthesised name into a path. *)
Definition stops (t : Surf) (rest : list Tok) : Prop :=
  (forall op, head rest ≫= infix_op = Some op -> l_bp op < right_edge t) /\
  no_call rest = true /\
  (ends_node t = true -> is_relationship_start (head rest) = false).

(** A token that ends every term. *)
Definition delim (c : Tok) : bool :=
  match c with Tok.Comma | Tok.RParen | Tok.RBracket => true | _ => false end.

Lemma stops_delim t c k : delim c = true -> stops t (c :: k).
Proof. intros Hc. destruct c; try done; split_and!; try done; intros op H; discriminate H. Qed.

Lemma no_call_operator op k : operator op -> no_call (op_tok op :: k) = true.
Proof. intros [[e H]|[x H]]; destruct op; cbn in H; try discriminate H; done. Qed.

Lemma stops_left op l k :
  operator op -> l_bp op < right_edge l -> (ends_node l = true -> op_tok op <> Tok.Minus) ->
  stops l (op_tok op :: k).
Proof.
  intros Ho Hbp Hn. split_and!.
  - intros op'. cbn [head mbind option_bind]. rewrite infix_op_tok. by intros [= <-].
  - by apply no_call_operator.
  - intros He%Hn. destruct op; done.
Qed.

Lemma stops_edge t e rest : right_edge t <= right_edge e -> ends_node t = ends_node e -> stops t rest -> stops e rest.
Proof.
  intros Hr He (H1&H2&H3). rewrite He in H3. split_and!; [|done..]. intros op Hop.
  specialize (H1 op Hop). lia.
Qed.

(** The facts of [canon] that the proofs use. *)
Lemma canon_bin op l r :
  canon (SBin op l r) = true ->
  is_Some (sem_op op null null) /\ canon l = true /\ canon r = true /\
  r_bp op <= left_edge r /\ forall k, stops l (op_tok op :: k).
Proof.
  cbn [canon]. rewrite !andb_true_iff, bool_decide_eq_true, negb_true_iff, andb_false_iff, bool_decide_eq_false.
  intros (((((Ho&Hl)&Hr)&Hlb)&Hrb)&Hn). split_and!; [done..|lia|]. intros k.
  apply stops_left; [by left|lia|]. intros He. destruct Hn as [Hn|Hn]; [by rewrite He in Hn|done].
Qed.

Lemma canon_cmp op l r :
  canon (SCmp op l r) = true ->
  is_Some (comparison_kind op) /\ canon l = true /\ canon r = true /\
  l_bp op < right_edge l /\ r_bp op <= left_edge r /\ forall k, stops l (op_tok op :: k).
Proof.
  cbn [canon]. rewrite !andb_true_iff, bool_decide_eq_true.
  intros ((((Ho&Hl)&Hr)&Hlb)&Hrb). split_and!; [done..|lia|lia|]. intros k.
  apply stops_left; [by right|lia|]. intros _. destruct Ho as [x Hx]. by destruct op.
Qed.

(** A postfix operator after its operand. *)
Lemma stops_postfix op e k :
  match op with InfixOp.IsNull | InfixOp.IsNotNull | InfixOp.Subscript => True | _ => False end ->
  l_bp op < right_edge e -> stops e (op_tok op :: k).
Proof.
  intros Hop Hbp. split_and!; [|by destruct op..].
  intros op'. cbn [head mbind option_bind]. rewrite infix_op_tok. by intros [= <-].
Qed.

Lemma stops_dot e key rest :
  l_bp InfixOp.Dot < right_edge e -> no_call rest = true -> stops e (Tok.Dot :: Tok.Ident key :: rest).
Proof. intros Hbp Hn. split_and!; [|done..]. by intros op [= <-]. Qed.

(** After a name, a term goes on with an operator or an argument list. *)
Definition goes_on (l : list Tok) : Prop :=
  exists c l', l = c :: l' /\ c <> Tok.Colon /\ c <> Tok.LBrace /\ c <> Tok.RParen.

Lemma goes_on_app t x l c k :
  print t ++ c :: k = Tok.Ident x :: l ->
  (forall l0, print t = Tok.Ident x :: l0 -> (t = SVar x /\ l0 = []) \/ goes_on l0) ->
  c <> Tok.Colon -> c <> Tok.LBrace -> c <> Tok.RParen -> goes_on l.
Proof.
  destruct (print_first t) as (c0&l0&->&_). intros [= -> <-] IH Hc1 Hc2 Hc3.
  destruct (IH l0 eq_refl) as [[_ ->]|(c'&l'&->&H)]; by eexists _, _.
Qed.

Lemma print_second t x l :
  canon t = true -> print t = Tok.Ident x :: l -> (t = SVar x /\ l = []) \/ goes_on l.
Proof.
  revert l.
  induction t as [n| | |b| | | | | | |op t IH r _|op t IH r _|e IH negated|e IH key|e IH i _| | |];
    intros k Hc; cbn [print]; unfold print_int.
  1-10: repeat case_match; try done; intros [= -> <-]; by left.
  - apply canon_bin in Hc as (Ho&Hc&_). destruct (operator_tok op (or_introl Ho)) as (?&?&?&_).
    intros Hk. right. eapply goes_on_app; eauto.
  - apply canon_cmp in Hc as (Ho&Hc&_). destruct (operator_tok op (or_intror Ho)) as (?&?&?&_).
    intros Hk. right. eapply goes_on_app; eauto.
  - cbn [canon] in Hc. apply andb_true_iff in Hc as [Hc _].
    intros Hk. right. eapply goes_on_app; [exact Hk|eauto|by destruct negated..].
  - cbn [canon] in Hc. apply andb_true_iff in Hc as [Hc _].
    intros Hk. right. by eapply goes_on_app; [exact Hk|eauto|..].
  - cbn [canon] in Hc. rewrite !andb_true_iff in Hc. destruct Hc as [[Hc _] _].
    intros Hk. right. by eapply goes_on_app; [exact Hk|eauto|..].
  - done.
  - intros [= -> <-]. right. by eexists _, _.
  - intros [= -> <-]. right. by eexists _, _.
Qed.

(** ** Reading a term as a node pattern *)

(** [labels] and [properties] of a node pattern are absent at other tokens. *)
Lemma run_no_labels l ts (Q : list str -> TokenStream -> Prop) F :
  cur l ts -> head l <> Some Tok.Colon -> Q [] ts -> wp parse_labels ts Q F.
Proof.
  intros Hc Hne HQ. apply wp_loop_step, wp_bind, (run_eat_if_not _ l); [done..|]. by apply wp_ret.
Qed.

Lemma run_no_properties self l ts (Q : option Expr -> TokenStream -> Prop) F :
  cur l ts -> head l <> Some Tok.LBrace -> Q None ts -> wp (opt_properties self) ts Q F.
Proof.
  intros Hc Hne HQ. apply wp_bind, wp_gets. rewrite (cur_at _ _ _ Hc), bool_decide_false by done.
  by apply wp_ret.
Qed.

(** Reading [print t ++ rest] as a node pattern fails, or ends where no relationship starts. *)
Abbreviation not_a_path self ts :=
  (wp (parse_node_pattern_inner self) ts
     (fun _ ts' => is_relationship_start (peek ts') = false) (fun _ => True)).

Lemma node_not_paren self l ts : cur l ts -> head l <> Some Tok.LParen -> not_a_path self ts.
Proof. intros Hc Hne. apply wp_bind, wp_gets, wp_bind. by apply (run_eat_fails _ l). Qed.

(** The end of a node pattern whose closing parenthesis is missing. *)
Lemma node_rest_fails self start x l ts :
  cur l ts -> head l <> Some Tok.Colon -> head l <> Some Tok.LBrace -> head l <> Some Tok.RParen ->
  wp (labels ← parse_labels;
      properties ← opt_properties self;
      r ← eat Tok.RParen;
      mret (mkNodePattern x labels properties (mkSpan start (snd r)))) ts
    (fun _ ts' => is_relationship_start (peek ts') = false) (fun _ => True).
Proof.
  intros Hc H1 H2 H3. apply wp_bind, (run_no_labels l); [done..|].
  apply wp_bind, (run_no_properties self l); [done..|]. apply wp_bind. by apply (run_eat_fails _ l).
Qed.

Lemma node_paren self e rest ts :
  canon e = true -> cur (Tok.LParen :: print e ++ Tok.RParen :: rest) ts ->
  (ends_node (SParen e) = true -> is_relationship_start (head rest) = false) ->
  not_a_path self ts.
Proof.
  intros He Hc Hn. apply wp_bind, wp_gets. generalize (current_pos ts). intros start.
  apply wp_bind, (run_eat Tok.LParen _ _ _ _ Hc). clear ts Hc.
  intros _ ts Hc. destruct (print_first e) as (c&l&El&Hst). rewrite El in Hc. cbn [app] in Hc.
  apply wp_bind, wp_bind, wp_gets. rewrite (cur_at_ident _ _ Hc). cbn [head].
  destruct c; try discriminate Hst; try (apply wp_ret; by eapply node_rest_fails).
  apply wp_bind, wp_bind, wp_gets. rewrite (cur_peek _ _ Hc). cbn [head].
  apply wp_bind, (run_advance _ _ _ _ _ Hc). clear ts Hc. intros s ts Hs Hc. do 2 apply wp_ret.
  destruct (print_second e _ _ He El) as [[-> ->]|(c&l'&->&?&?&?)].
  - cbn [app] in Hc. apply wp_bind, (run_no_labels _ _ _ _ Hc); [done|].
    apply wp_bind, (run_no_properties self _ _ _ _ Hc); [done|].
    apply wp_bind, (run_eat _ _ _ _ _ Hc). intros r ts' Hc'. apply wp_ret.
    rewrite (cur_peek _ _ Hc'). by apply Hn.
  - eapply node_rest_fails; [exact Hc|cbn; congruence..].
Qed.

Lemma term_not_a_path self t : canon t = true -> forall rest ts,
  stops t rest -> cur (print t ++ rest) ts -> not_a_path self ts.
Proof.
  induction t as [n| | |b| | | |e _| | |op t IH r _|op t IH r _|e IH negated|e IH key|e IH i _| | |];
    intros Hc rest ts Hs Hcur; cbn [print] in Hcur; unfold print_int in Hcur;
    try (repeat case_match; by eapply node_not_paren).
  - cbn [app] in Hcur. rewrite <-app_assoc in Hcur. by eapply node_paren; [| |apply Hs].
  - apply canon_bin in Hc as (Ho&Hc&_&_&Hl). rewrite <-app_assoc in Hcur. by eapply IH.
  - apply canon_cmp in Hc as (Ho&Hc&_&_&_&Hl). rewrite <-app_assoc in Hcur. by eapply IH.
  - cbn [canon] in Hc. apply andb_true_iff in Hc as [Hc Hb]. rewrite <-app_assoc in Hcur.
    eapply IH; [done| |exact Hcur].
    apply Z.ltb_lt in Hb.
    by destruct negated; [apply (stops_postfix InfixOp.IsNotNull)|apply (stops_postfix InfixOp.IsNull)].
  - cbn [canon] in Hc. apply andb_true_iff in Hc as [Hc Hb]. rewrite <-app_assoc in Hcur.
    eapply IH; [done| |exact Hcur]. apply stops_dot; [lia|apply Hs].
  - cbn [canon] in Hc. rewrite !andb_true_iff in Hc. destruct Hc as [[Hc _] Hb].
    rewrite <-app_assoc in Hcur. eapply IH; [done| |exact Hcur]. by apply (stops_postfix InfixOp.Subscript); [|lia].
Qed.

(** A term that starts with [x =] goes on with a term. *)
Lemma print_eq t x k : canon t = true -> forall rest,
  stops t rest -> ((exists y, t = SVar y) -> head rest <> Some Tok.Eq) ->
  print t ++ rest = Tok.Ident x :: Tok.Eq :: k ->
  exists r rest', canon r = true /\ stops r rest' /\ k = print r ++ rest'.
Proof.
  induction t as [n| | |b| | |y| | | |op t IH r _|op t IH r _|e IH negated|e IH key|e IH i _| | |];
    intros Hc rest Hs Hne; cbn [print]; unfold print_int;
    try (repeat case_match; intros Hk; by (discriminate Hk || (destruct negated; discriminate Hk))).
  - intros [= -> ->]. by destruct Hne; [exists x|].
  - apply canon_bin in Hc as ([e He]&Hc&_&_&Hl). rewrite <-app_assoc. apply (IH Hc); [apply Hl|].
    intros _. by destruct op.
  - apply canon_cmp in Hc as ([e He]&Hc&Hr&_&_&Hl). rewrite <-app_assoc.
    assert ((exists y, t = SVar y) \/ ~ exists y, t = SVar y) as [[y ->]|Hnv].
    { destruct t; try (right; by intros [? ?]). left. by eexists. }
    + cbn [print app]. intros [= -> _ <-]. exists r, rest. split_and!; [done| |done].
      by apply (stops_edge (SCmp op (SVar x) r)); [cbn; lia| |].
    + apply (IH Hc); [apply Hl|done].
  - cbn [canon] in Hc. apply andb_true_iff in Hc as [Hc Hb]. rewrite <-app_assoc. apply Z.ltb_lt in Hb.
    apply (IH Hc); [|by destruct negated].
    by destruct negated; [apply (stops_postfix InfixOp.IsNotNull)|apply (stops_postfix InfixOp.IsNull)].
  - cbn [canon] in Hc. apply andb_true_iff in Hc as [Hc Hb]. rewrite <-app_assoc.
    apply (IH Hc); [|done]. apply stops_dot; [lia|apply Hs].
  - cbn [canon] in Hc. rewrite !andb_true_iff in Hc. destruct Hc as [[Hc _] Hb]. rewrite <-app_assoc.
    apply (IH Hc); [|done]. by apply (stops_postfix InfixOp.Subscript); [|lia].
Qed.

Lemma named_not_a_path self t rest ts :
  canon t = true -> stops t rest -> head rest <> Some Tok.Eq -> cur (print t ++ rest) ts ->
  wp (named_node_pattern self) ts
    (fun _ ts' => is_relationship_start (peek ts') = false) (fun _ => True).
Proof.
  intros Ht Hs Hne Hc. apply wp_bind, wp_gets, wp_bind, wp_gets.
  rewrite (cur_at_ident _ _ Hc), (cur_at_n _ _ _ _ Hc).
  destruct (print t ++ rest) as [|c l] eqn:El; [by eapply (wp_bind (mret tt)), node_not_paren|].
  cbn [head]. destruct c;
    try (apply (wp_bind (mret tt)), wp_ret; rewrite <-El in Hc; by eapply term_not_a_path).
  destruct l as [|d k]; [by eapply (wp_bind (mret tt)), wp_ret, node_not_paren|].
  cbn [lookup list_lookup andb]. case_bool_decide as Hd.
  2: { apply (wp_bind (mret tt)), wp_ret. by eapply node_not_paren. }
  injection Hd as ->. destruct (print_eq t _ k Ht rest Hs (fun _ => Hne) El) as (r&rest'&Hr&Hsr&->).
  apply wp_bind, wp_bind, (run_advance _ _ _ _ _ Hc). intros s1 ts1 _ Hc1.
  apply wp_bind, (run_advance _ _ _ _ _ Hc1). intros s2 ts2 _ Hc2. apply wp_ret.
  by eapply term_not_a_path.
Qed.

(** The shape test answers no. *)
Lemma run_starts_path (m : P (NodePattern Expr)) ts (Q : bool -> TokenStream -> Prop) F :
  wp m ts (fun _ ts' => is_relationship_start (peek ts') = false) (fun _ => True) ->
  Q false ts -> wp (starts_path m) ts Q F.
Proof.
  intros Hm HQ. apply wp_bind. eapply wp_probe; [exact Hm|by apply wp_ret|].
  intros ts' Hr. apply wp_ret. by rewrite Hr.
Qed.

(** ** Operands and operators *)

Section loop.
Context (self : Rec).

(** The operator loop stops at a token that binds more loosely. *)
Lemma run_loop_stop m e l ts (Q : Expr -> TokenStream -> Prop) F :
  cur l ts -> (forall op, head l ≫= infix_op = Some op -> l_bp op < m) -> Q e ts ->
  wp (loop (infix_step self m) e) ts Q F.
Proof.
  intros Hc Hop HQ. apply wp_loop_step, wp_bind, wp_gets. unfold peek_infix_op.
  rewrite (cur_peek _ _ Hc). destruct (head l ≫= infix_op) as [op|]; [|by apply wp_ret].
  specialize (Hop op eq_refl). rewrite binding_powers.
  destruct (l_bp op <? m) eqn:E; [by apply wp_ret|lia].
Qed.

(** One iteration of it. *)
Lemma run_loop_infix m e op k ts (Q : Expr -> TokenStream -> Prop) F :
  cur (op_tok op :: k) ts -> m <= l_bp op ->
  wp (parse_infix self e op (r_bp op)) ts
    (fun e' ts' => (remaining ts' < remaining ts)%nat /\ wp (loop (infix_step self m) e') ts' Q F) F ->
  wp (loop (infix_step self m) e) ts Q F.
Proof.
  intros Hc Hm H. apply wp_loop_step, wp_bind, wp_gets. unfold peek_infix_op.
  rewrite (cur_peek _ _ Hc). cbn [head mbind option_bind]. rewrite infix_op_tok.
  rewrite binding_powers. destruct (l_bp op <? m) eqn:E; [lia|]. apply wp_bind. eapply wp_mono; [exact H| |done].
  intros e' ts' H'. by apply wp_ret.
Qed.

(** [rec_expr] reads the term [t] before anything that ends it. *)
Definition reads_term (t : Surf) : Prop := forall m rest ts,
  m <= left_edge t -> stops t rest ->
  (forall op, head rest ≫= infix_op = Some op -> l_bp op < m) ->
  cur (print t ++ rest) ts ->
  wp (rec_expr self m) ts (fun e ts' => erase e = sem t /\ cur rest ts') (fun _ => False).

Lemma left_edge_pos t : 0 <= left_edge t.
Proof.
  assert (Hop : forall op, 0 <= l_bp op) by (by intros []).
  induction t; cbn [left_edge]; unfold tight; try lia;
    match goal with |- context [l_bp ?op] => specialize (Hop op); lia end.
Qed.

(** Before a comma or a closing bracket, at any level. *)
Lemma reads_term_delim t c k ts :
  reads_term t -> delim c = true -> cur (print t ++ c :: k) ts ->
  wp (rec_expr self 0) ts (fun e ts' => erase e = sem t /\ cur (c :: k) ts') (fun _ => False).
Proof.
  intros Ht Hc Hcur. apply Ht; [apply left_edge_pos|by apply stops_delim| |done].
  intros op. by destruct c.
Qed.

Lemma run_commas es c k acc ts :
  Forall reads_term es -> (c = Tok.RParen \/ c = Tok.RBracket) ->
  cur (concat (map (fun t => Tok.Comma :: print t) es) ++ c :: k) ts ->
  wp (loop (fun items =>
        comma ← eat_if Tok.Comma;
        if (comma : bool) then x ← rec_expr self 0; mret (inl (items ++ [x]))
        else mret (inr items)) acc) ts
    (fun l ts' => map erase l = map erase acc ++ map sem es /\ cur (c :: k) ts') (fun _ => False).
Proof.
  intros Hes Hc. revert acc ts. induction Hes as [|t es Ht Hes IH]; intros acc ts Hcur.
  - apply wp_loop_step, wp_bind. eapply run_eat_if_not; [exact Hcur|by destruct Hc as [->| ->]|].
    apply wp_ret. by rewrite app_nil_r.
  - cbn [map concat app] in Hcur. pose proof (cur_remaining _ _ Hcur) as Hr.
    apply wp_loop_step, wp_bind, (run_eat_if _ _ _ _ _ Hcur).
    intros ts1 Hc1. rewrite <-app_assoc in Hc1.
    assert (exists d k', concat (map (fun t => Tok.Comma :: print t) es) ++ c :: k = d :: k' /\ delim d = true)
      as (d&k'&Hd&Hdel).
    { destruct es; [exists c, k; split; [done|by destruct Hc as [->| ->]]|by eexists _, _]. }
    rewrite Hd in Hc1. apply wp_bind. eapply wp_mono; [by eapply reads_term_delim| |done].
    intros x ts2 [Hx Hc2]. apply wp_ret. split.
    + rewrite (cur_remaining _ _ Hc2), Hr, <-Hd. cbn [length]. rewrite !length_app. lia.
    + rewrite <-Hd in Hc2. eapply wp_mono; [by apply IH| |done]. intros l ts3 [Hl Hc3]. split; [|done].
      rewrite Hl, map_app, <-app_assoc. cbn. by rewrite Hx.
Qed.

Lemma commas_cons t es : commas (map print (t :: es)) = print t ++ concat (map (fun t => Tok.Comma :: print t) es).
Proof.
  revert t. induction es as [|u es IH]; intros t; [cbn; by rewrite app_nil_r|].
  change (commas (map print (t :: u :: es))) with (print t ++ Tok.Comma :: commas (map print (u :: es))).
  by rewrite IH.
Qed.

(** A non-empty list of terms. *)
Lemma run_comma_separated t es c k ts :
  Forall reads_term (t :: es) -> (c = Tok.RParen \/ c = Tok.RBracket) ->
  cur (commas (map print (t :: es)) ++ c :: k) ts ->
  wp (comma_separated (rec_expr self 0)) ts
    (fun l ts' => map erase l = map sem (t :: es) /\ cur (c :: k) ts') (fun _ => False).
Proof.
  rewrite Forall_cons, commas_cons, <-app_assoc. intros [Ht Hes] Hc Hcur.
  assert (exists d k', concat (map (fun t => Tok.Comma :: print t) es) ++ c :: k = d :: k' /\ delim d = true)
    as (d&k'&Hd&Hdel).
  { destruct es; [exists c, k; split; [done|by destruct Hc as [->| ->]]|by eexists _, _]. }
  rewrite Hd in Hcur. apply wp_bind. eapply wp_mono; [by eapply reads_term_delim| |done].
  intros x ts1 [Hx Hc1]. rewrite <-Hd in Hc1. eapply wp_mono; [by apply run_commas| |done].
  intros l ts2 [-> Hc2]. split; [|done]. cbn. by rewrite Hx.
Qed.
End loop.

(** ** Operands *)

(** A name that is not the name of a call. *)
Lemma no_call_segments toks :
  no_call (tk <$> toks) = true -> tk <$> head (snd (dotted_segments toks)) <> Some Tok.LParen.
Proof.
  induction toks as [[|d [|i toks]] IH] using (induction_ltof1 _ length); [done| |].
  - cbn. by destruct (tk d).
  - cbn [fmap list_fmap dotted_segments]. intros H.
    destruct (tk d) eqn:Ed; try (cbn; rewrite Ed; by cbn in H).
    destruct (tk i) eqn:Ei; try (cbn; by rewrite Ed). cbn [snd]. apply IH; [unfold ltof; cbn; lia|].
    exact H.
Qed.

Lemma namespaced_none x l ts :
  cur l ts -> no_call l = true -> namespaced_call_segments x ts = None.
Proof.
  intros [<- _] H%no_call_segments. unfold namespaced_call_segments.
  destruct (dotted_segments (tokens ts)) as [[|seg segs] after]; [done|]. cbn in H.
  destruct (tk <$> head after) as [[]|]; done.
Qed.

Section prefix.
Context (self : Rec).
Implicit Types (rest : list Tok) (ts : TokenStream).

Abbreviation reads_prefix t rest ts :=
  (wp (parse_prefix self) ts (fun e ts' => erase e = sem t /\ cur rest ts') (fun _ => False)).

Ltac prefix_start Hcur :=
  apply wp_bind, wp_gets, wp_bind, wp_gets, wp_bind, wp_gets, wp_bind, wp_gets;
  rewrite (cur_peek _ _ Hcur); cbn [head].

Lemma prefix_literal t tok mk rest ts :
  cur (tok :: rest) ts ->
  (forall span, erase_literal (mk span) = mk no_span) -> sem t = Expr.Literal (mk no_span) ->
  wp (literal_token mk) ts (fun e ts' => erase e = sem t /\ cur rest ts') (fun _ => False).
Proof.
  intros Hcur He Hs. apply wp_bind, (run_advance_unwrap _ _ _ _ _ Hcur). intros s ts' _ Hc.
  apply wp_ret. split; [|done]. cbn [erase]. by rewrite He, Hs.
Qed.

Lemma prefix_int n rest ts :
  canon (SInt n) = true -> cur (print_int n ++ rest) ts -> reads_prefix (SInt n) rest ts.
Proof.
  cbn [canon]. unfold print_int, in_range. intros Hn. destruct (n <? 0) eqn:E; intros Hcur; prefix_start Hcur.
  - apply wp_bind, (run_advance _ _ _ _ _ Hcur). intros s1 ts1 _ Hc1. apply wp_bind, wp_gets.
    rewrite (cur_peek _ _ Hc1). cbn [head app].
    apply wp_bind, (run_advance_unwrap _ _ _ _ _ Hc1). intros s2 ts2 _ Hc2.
    apply wp_bind. unfold negate_i64_magnitude, i64_min, i64_max in *.
    destruct (- n =? _) eqn:En.
    + apply wp_ret, wp_ret. split; [|done]. cbn. do 2 f_equal. lia.
    + apply wp_bind. unfold to_i64, in_range, i64_min, i64_max. destruct ((_ <=? - n) && _) eqn:Er; [|lia].
      apply wp_ret. destruct (- n =? - 2 ^ 63) eqn:Em; [lia|]. apply wp_ret, wp_ret. split; [|done].
      cbn. do 2 f_equal. lia.
  - apply wp_bind, (run_advance_unwrap _ _ _ _ _ Hcur). intros s1 ts1 _ Hc1.
    apply wp_bind. unfold to_i64, in_range. rewrite Hn. by apply wp_ret, wp_ret.
Qed.

Lemma prefix_var x rest ts :
  cur (Tok.Ident x :: rest) ts -> no_call rest = true -> reads_prefix (SVar x) rest ts.
Proof.
  intros Hcur Hn. prefix_start Hcur.
  apply wp_bind, (run_advance _ _ _ _ _ Hcur). intros s1 ts1 _ Hc1.
  apply wp_bind, (run_eat_if_not _ _ _ _ _ Hc1); [by destruct rest as [|[]]|].
  apply wp_bind, wp_gets. rewrite (namespaced_none x _ _ Hc1 Hn). by apply wp_spanned.
Qed.

Lemma prefix_paren e rest ts :
  canon e = true -> reads_term self e -> stops (SParen e) rest ->
  cur (print (SParen e) ++ rest) ts -> reads_prefix (SParen e) rest ts.
Proof.
  intros He Hr Hs Hcur. cbn [print app] in Hcur. rewrite <-app_assoc in Hcur. cbn [app] in Hcur. prefix_start Hcur.
  apply wp_bind, wp_bind, run_starts_path; [eapply node_paren; [exact He|exact Hcur|apply Hs]|]. apply wp_ret.
  apply wp_bind, (run_advance _ _ _ _ _ Hcur). intros s1 ts1 _ Hc1.
  apply wp_bind. eapply wp_mono; [by apply (reads_term_delim self e Tok.RParen rest)| |done]. intros x ts2 [Hx Hc2].
  apply wp_bind, (run_eat _ _ _ _ _ Hc2). intros r ts3 Hc3. apply wp_spanned. intros span.
  split; [|done]. cbn. by rewrite Hx.
Qed.

Lemma prefix_not e rest ts :
  canon (SNot e) = true -> reads_term self e -> stops (SNot e) rest ->
  cur (Tok.Not :: print e ++ rest) ts -> reads_prefix (SNot e) rest ts.
Proof.
  cbn [canon]. rewrite andb_true_iff. intros [He Hb] Hr Hs Hcur. prefix_start Hcur.
  apply wp_bind, (run_advance _ _ _ _ _ Hcur). intros s1 ts1 _ Hc1.
  apply wp_bind. eapply wp_mono; [eapply Hr; [lia| | |exact Hc1]| |done].
  - by apply (stops_edge (SNot e)); [cbn; lia| |].
  - intros op Hop. destruct Hs as [Hs _]. specialize (Hs op Hop). cbn in Hs. lia.
  - intros x ts2 [Hx Hc2]. apply wp_spanned. intros span. split; [|done]. cbn. by rewrite Hx.
Qed.

Lemma prefix_neg e rest ts :
  canon (SNeg e) = true -> reads_term self e -> stops (SNeg e) rest ->
  cur (Tok.Minus :: print e ++ rest) ts -> reads_prefix (SNeg e) rest ts.
Proof.
  cbn [canon]. rewrite !andb_true_iff, negb_true_iff. intros [[He Hb] Hi] Hr Hs Hcur. prefix_start Hcur.
  apply wp_bind, (run_advance _ _ _ _ _ Hcur). intros s1 ts1 _ Hc1. apply wp_bind, wp_gets.
  rewrite (cur_peek _ _ Hc1). destruct (print_first e) as (c&l&El&_).
  assert (Hgoal : wp (x ← rec_expr self 75;
    spanned (current_pos ts) (fun span => Expr.UnaryOp (mkUnaryOp UnaryOpKind.Neg x span))) ts1
    (fun e0 ts' => erase e0 = sem (SNeg e) /\ cur rest ts') (fun _ => False)).
  { apply wp_bind. eapply wp_mono; [eapply Hr; [lia| | |exact Hc1]| |done].
    - by apply (stops_edge (SNeg e)); [cbn; lia| |].
    - intros op Hop. destruct Hs as [Hs _]. specialize (Hs op Hop). cbn in Hs. lia.
    - intros x ts2 [Hx Hc2]. apply wp_spanned. intros span. split; [|done]. cbn. by rewrite Hx. }
  rewrite El in Hi |- *. cbn [app head]. by destruct c.
Qed.

Lemma prefix_list es rest ts :
  canon (SList es) = true -> Forall (reads_term self) es ->
  cur (print (SList es) ++ rest) ts -> reads_prefix (SList es) rest ts.
Proof.
  cbn [canon]. rewrite andb_true_iff, negb_true_iff. intros [Hes Hin] Hr Hcur. cbn [print app] in Hcur.
  rewrite <-app_assoc in Hcur. cbn [app] in Hcur. prefix_start Hcur.
  apply wp_bind, (run_advance _ _ _ _ _ Hcur). intros s1 ts1 _ Hc1. clear Hcur.
  destruct es as [|t es].
  { apply wp_bind, (run_eat_if _ _ _ _ _ Hc1). intros ts2 Hc2. by apply wp_spanned. }
  cbn [forallb] in Hes. apply andb_true_iff in Hes as [Ht _].
  assert (exists d k', concat (map (fun t => Tok.Comma :: print t) es) ++ Tok.RBracket :: rest = d :: k' /\
    (d = Tok.Comma \/ d = Tok.RBracket)) as (d&k'&Hd&Hdel).
  { destruct es; [by eexists _, _; split; [done|right]|by eexists _, _; split; [done|left]]. }
  pose proof Hc1 as Hc2. rewrite commas_cons, <-app_assoc in Hc2. cbn [app] in Hc2. rewrite Hd in Hc2.
  destruct (print_first t) as (c&l&El&Hst).
  apply wp_bind. eapply run_eat_if_not; [exact Hc2|rewrite El; by destruct c|].
  apply wp_bind, wp_bind, run_starts_path.
  { eapply named_not_a_path; [exact Ht| | |exact Hc2]; [apply stops_delim|]; by destruct Hdel as [->| ->]. }
  apply wp_ret, wp_bind, wp_gets, wp_bind, wp_gets.
  rewrite (cur_at_ident _ _ Hc2), (cur_at_n _ _ _ _ Hc2).
  match goal with |- wp (if ?b then _ else _) _ _ _ => assert (Hb : b = false) end.
  { rewrite commas_cons, El in Hin. rewrite El. cbn [app head]. destruct c; try done.
    cbn [andb lookup list_lookup]. apply bool_decide_eq_false. intros Hl.
    destruct l as [|c2 l]; [by destruct Hdel as [->| ->]|]. cbn in Hl. injection Hl as ->. done. }
  rewrite Hb. apply wp_bind. eapply wp_mono; [by eapply run_comma_separated; [|right| ]| |done].
  intros xs ts2 [Hxs Hc3]. apply wp_bind, (run_eat _ _ _ _ _ Hc3). intros r ts3 Hc4.
  apply wp_spanned. intros span. split; [|done]. cbn. by rewrite Hxs.
Qed.

(** The first token of an argument list. *)
Lemma args_head args rest :
  exists c l, commas (map print args) ++ Tok.RParen :: rest = c :: l /\
    c <> Tok.Star /\ c <> Tok.Distinct /\ (c = Tok.RParen <-> args = []).
Proof.
  destruct args as [|t args]; [by eexists _, _|]. destruct (print_first t) as (c&l&El&Hst).
  rewrite commas_cons, El. eexists _, _. split; [done|]. by destruct c.
Qed.

Lemma call_args name (distinct : bool) args start rest ts :
  Forall (reads_term self) args ->
  cur ((if distinct then [Tok.Distinct] else []) ++ commas (map print args) ++ Tok.RParen :: rest) ts ->
  wp (parse_function_call_args self [name] start) ts
    (fun e ts' => erase e = sem (SCall name distinct args) /\ cur rest ts') (fun _ => False).
Proof.
  intros Hr Hcur. destruct (args_head args rest) as (c&l&El&Hc1&Hc2&Hc3).
  apply wp_bind, (run_eat_if_not _ _ _ _ _ Hcur); [destruct distinct; [done|]; rewrite El; cbn; congruence|].
  assert (Hargs : forall ts, cur (commas (map print args) ++ Tok.RParen :: rest) ts ->
    wp (close ← gets (at_ Tok.RParen);
        args ← (if (close : bool) then mret [] else comma_separated (rec_expr self 0));
        eat Tok.RParen;;
        spanned start (fun span => Expr.FunctionCall (mkFunctionCall [name] distinct false args span))) ts
      (fun e ts' => erase e = sem (SCall name distinct args) /\ cur rest ts') (fun _ => False)).
  { clear ts Hcur. intros ts Hcur. apply wp_bind, wp_gets. rewrite (cur_at _ _ _ Hcur), El. cbn [head].
    apply wp_bind. eapply (wp_mono _ _ (fun (xs : list Expr) ts' => map erase xs = map sem args /\ cur (Tok.RParen :: rest) ts')).
    2: { intros xs ts1 [Hxs Hcx]. apply wp_bind, (run_eat _ _ _ _ _ Hcx). intros r ts2 Hc4.
         apply wp_spanned. intros span. split; [|done]. cbn. by rewrite Hxs. }
    2: exact (fun _ H => H).
    destruct args as [|t args].
    - injection El as <- <-. by apply wp_ret.
    - rewrite bool_decide_false by (intros [= ->]; by destruct Hc3 as [Hc3 _]; discriminate Hc3).
      by eapply run_comma_separated; [|left|]. }
  destruct distinct; apply wp_bind.
  - apply (run_eat_if _ _ _ _ _ Hcur). intros ts1. apply Hargs.
  - apply (run_eat_if_not _ _ _ _ _ Hcur); [rewrite El; cbn; congruence|]. by apply Hargs.
Qed.

Lemma prefix_call name distinct args rest ts :
  Forall (reads_term self) args ->
  cur (print (SCall name distinct args) ++ rest) ts -> reads_prefix (SCall name distinct args) rest ts.
Proof.
  intros Hr Hcur. cbn [print app] in Hcur. rewrite <-!app_assoc in Hcur. cbn [app] in Hcur. prefix_start Hcur.
  apply wp_bind, (run_advance _ _ _ _ _ Hcur). intros s1 ts1 _ Hc1.
  apply wp_bind, (run_eat_if _ _ _ _ _ Hc1). intros ts2 Hc2. by apply call_args.
Qed.

Lemma prefix_call_star name rest ts :
  cur (print (SCallStar name) ++ rest) ts -> reads_prefix (SCallStar name) rest ts.
Proof.
  intros Hcur. prefix_start Hcur.
  apply wp_bind, (run_advance _ _ _ _ _ Hcur). intros s1 ts1 _ Hc1.
  apply wp_bind, (run_eat_if _ _ _ _ _ Hc1). intros ts2 Hc2.
  apply wp_bind, (run_eat_if _ _ _ _ _ Hc2). intros ts3 Hc3.
  apply wp_bind, (run_eat _ _ _ _ _ Hc3). intros r ts4 Hc4. by apply wp_spanned.
Qed.

(** The terms that [parse_prefix] reads, and their parts. *)
Definition is_operand (t : Surf) : bool :=
  match t with
  | SBin _ _ _ | SCmp _ _ _ | SIsNull _ _ | SGet _ _ | SIndex _ _ => false
  | _ => true
  end.

Definition operand_parts (t : Surf) : list Surf :=
  match t with
  | SParen e | SNot e | SNeg e => [e]
  | SList es | SCall _ _ es => es
  | _ => []
  end.

Lemma prefix_reads t rest ts :
  is_operand t = true -> canon t = true -> Forall (reads_term self) (operand_parts t) ->
  stops t rest -> cur (print t ++ rest) ts -> reads_prefix t rest ts.
Proof.
  intros Hop Hc Hp Hs Hcur. destruct t; try discriminate Hop; cbn [operand_parts] in Hp.
  - by apply prefix_int.
  - prefix_start Hcur. (eapply prefix_literal; [exact Hcur|done..]).
  - prefix_start Hcur. (eapply prefix_literal; [exact Hcur|done..]).
  - prefix_start Hcur. destruct b; (eapply prefix_literal; [exact Hcur|done..]).
  - prefix_start Hcur. (eapply prefix_literal; [exact Hcur|done..]).
  - prefix_start Hcur. apply wp_bind, (run_advance_unwrap _ _ _ _ _ Hcur). intros s ts' _ Hc'. by apply wp_ret.
  - by apply prefix_var; [|apply Hs].
  - apply Forall_cons in Hp as [Hp _]. by apply prefix_paren.
  - apply Forall_cons in Hp as [Hp _]. by apply prefix_not.
  - apply Forall_cons in Hp as [Hp _]. by apply prefix_neg.
  - by apply prefix_list.
  - by apply prefix_call.
  - by apply prefix_call_star.
Qed.
End prefix.

(** ** Operators *)

Lemma chain_tail_erase : forall e, chain_tail (erase e) = erase <$> chain_tail e.
Proof.
  fix IH 1. intros e. destruct e; try reflexivity. destruct b as [[] l r s]; try reflexivity.
  apply (IH r).
Qed.

(** A term whose right end binds more tightly than comparisons continues a chain only if it is
    a comparison itself. *)
Lemma chain_tail_sem t :
  canon t = true -> l_bp InfixOp.Eq < right_edge t ->
  chain_tail (sem t) = match t with SCmp _ _ r => Some (sem r) | _ => None end.
Proof.
  intros Hc Hr. destruct t as [| | | | | | | | | |op l r|op l r| | | | | |]; try done.
  - apply canon_bin in Hc as ([e He]&_). cbn in Hr. destruct op; try discriminate He; try done.
    unfold r_bp in Hr. cbn in Hr. lia.
  - apply canon_cmp in Hc as ([k Hk]&_). cbn [sem]. rewrite Hk.
    assert (Hb : forall a b, chain_tail (binary k a b) = Some b).
    { intros a b. destruct op; cbn in Hk; simplify_eq; done. }
    destruct l; apply Hb.
Qed.

Section infix.
Context (self : Rec).
Implicit Types (rest : list Tok) (ts : TokenStream).

Lemma run_rhs op t r rest ts start :
  reads_term self r -> r_bp op <= left_edge r -> stops t rest ->
  right_edge t = Z.min (r_bp op) (right_edge r) -> ends_node t = ends_node r ->
  cur (op_tok op :: print r ++ rest) ts ->
  wp (parse_rhs self start (r_bp op)) ts
    (fun x ts' => erase (fst x) = sem r /\ cur rest ts') (fun _ => False).
Proof.
  intros Hr Hb Hs Hre Hen Hcur. apply wp_bind, (run_advance _ _ _ _ _ Hcur). intros s1 ts1 _ Hc1.
  apply wp_bind. eapply wp_mono; [eapply Hr; [done| | |exact Hc1]| |done].
  - apply (stops_edge t); [lia|done|done].
  - intros op' Hop. destruct Hs as [Hs _]. specialize (Hs op' Hop). lia.
  - intros x ts2 [Hx Hc2]. by apply wp_ret.
Qed.

Lemma infix_bin op l r e rest ts :
  canon (SBin op l r) = true -> reads_term self r -> stops (SBin op l r) rest ->
  erase e = sem l -> cur (op_tok op :: print r ++ rest) ts ->
  wp (parse_infix self e op (r_bp op)) ts
    (fun e' ts' => erase e' = sem (SBin op l r) /\ cur rest ts') (fun _ => False).
Proof.
  intros ([x Ho]&_&_&Hb&_)%canon_bin Hr Hs He Hcur.
  pose proof (fun start => run_rhs op _ r rest ts start Hr Hb Hs eq_refl eq_refl Hcur) as Hrhs.
  destruct op; try discriminate Ho;
    (apply wp_bind; eapply wp_mono; [apply Hrhs| |done]);
    intros [rhs span] ts' [Hx Hc']; cbn [fst] in Hx; apply wp_ret; (split; [|done]); cbn;
    by rewrite He, Hx.
Qed.

Lemma infix_cmp op l r e rest ts :
  canon (SCmp op l r) = true -> reads_term self r -> stops (SCmp op l r) rest ->
  erase e = sem l -> cur (op_tok op :: print r ++ rest) ts ->
  wp (parse_infix self e op (r_bp op)) ts
    (fun e' ts' => erase e' = sem (SCmp op l r) /\ cur rest ts') (fun _ => False).
Proof.
  intros ([k Hk]&Hl&_&Hlb&Hb&_)%canon_cmp Hr Hs He Hcur.
  pose proof (fun start => run_rhs op _ r rest ts start Hr Hb Hs eq_refl eq_refl Hcur) as Hrhs.
  assert (Hch : chain_tail (sem l) = erase <$> chain_tail e) by (by rewrite <-He, chain_tail_erase).
  rewrite (chain_tail_sem l Hl) in Hch; [|by destruct op; cbn in Hk; simplify_eq].
  assert (parse_infix self e op (r_bp op) = parse_binary self e op (r_bp op) (sp_start (expr_span e)) /\
    infix_op_to_binary_kind op = Some k /\ comparison_chain_tail e op = chain_tail e) as [-> [Hkind Hct]].
  { by destruct op; cbn in Hk; simplify_eq. }
  apply wp_bind. eapply wp_mono; [apply Hrhs| |done]. intros [rhs span] ts' [Hx Hc']. cbn [fst] in Hx.
  rewrite Hkind, Hct. cbn zeta. cbn [sem]. rewrite Hk.
  destruct l; destruct (chain_tail e) as [tail|]; try discriminate Hch; apply wp_ret; (split; [|done]);
    cbn [erase bo_left bo_right bo_op default]; rewrite He, Hx; try done.
  injection Hch as ->. done.
Qed.

Lemma infix_is_null t (negated : bool) e rest ts :
  erase e = sem t -> cur ((if negated then Tok.IsNotNull else Tok.IsNull) :: rest) ts ->
  wp (parse_infix self e (if negated then InfixOp.IsNotNull else InfixOp.IsNull) 46) ts
    (fun e' ts' => erase e' = sem (SIsNull t negated) /\ cur rest ts') (fun _ => False).
Proof.
  intros He Hcur. destruct negated; (apply wp_bind, (run_advance _ _ _ _ _ Hcur); intros s1 ts1 _ Hc1;
    apply wp_spanned; intros span; split; [cbn; by rewrite He|done]).
Qed.

Lemma infix_get t key e rest ts :
  erase e = sem t -> cur (Tok.Dot :: Tok.Ident key :: rest) ts ->
  wp (parse_infix self e InfixOp.Dot 81) ts
    (fun e' ts' => erase e' = sem (SGet t key) /\ cur rest ts') (fun _ => False).
Proof.
  intros He Hcur. apply wp_bind, (run_advance _ _ _ _ _ Hcur). intros s1 ts1 _ Hc1.
  apply wp_bind, wp_bind, wp_bind, (run_advance _ _ _ _ _ Hc1). intros s2 ts2 Hs2 Hc2. rewrite Hs2.
  apply wp_ret, wp_ret, wp_spanned. intros span. split; [cbn; by rewrite He|done].
Qed.

Lemma infix_index t i e rest ts :
  canon i = true -> reads_term self i -> erase e = sem t ->
  cur (Tok.LBracket :: print i ++ Tok.RBracket :: rest) ts ->
  wp (parse_infix self e InfixOp.Subscript 81) ts
    (fun e' ts' => erase e' = sem (SIndex t i) /\ cur rest ts') (fun _ => False).
Proof.
  intros Hi Hr He Hcur. apply wp_bind, (run_advance _ _ _ _ _ Hcur). intros s1 ts1 _ Hc1.
  destruct (print_first i) as (c&l&El&Hst).
  apply wp_bind, (run_eat_if_not _ _ _ _ _ Hc1); [rewrite El; by destruct c|].
  apply wp_bind. eapply wp_mono; [by apply (reads_term_delim self i Tok.RBracket rest)| |done].
  intros x ts2 [Hx Hc2]. apply wp_bind, (run_eat_if_not _ _ _ _ _ Hc2); [done|].
  apply wp_bind, (run_eat _ _ _ _ _ Hc2). intros r ts3 Hc3. apply wp_spanned. intros span.
  split; [|done]. cbn. by rewrite He, Hx.
Qed.
End infix.

(** ** Every term *)

(** With [n] levels of recursion a term of at most [n] tokens is read as the left operand of
    what follows it. *)
Definition complete (n : nat) (t : Surf) : Prop := forall m rest ts Q,
  m <= left_edge t -> stops t rest -> cur (print t ++ rest) ts ->
  (forall e ts', erase e = sem t -> cur rest ts' ->
     wp (loop (infix_step (knot n) m) e) ts' Q (fun _ => False)) ->
  wp (parse_expr_inner (knot n) m) ts Q (fun _ => False).

Lemma complete_reads n t : complete n t -> reads_term (knot (S n)) t.
Proof.
  intros Ht m rest ts Hm Hs Hop Hcur. apply (Ht m rest ts _ Hm Hs Hcur). intros e ts' He Hc.
  by apply (run_loop_stop _ _ _ rest).
Qed.

(** One more operator after a complete left operand. *)
Lemma complete_step n (t l : Surf) op k :
  complete n l -> (forall rest, stops t rest -> stops l (op_tok op :: k ++ rest)) ->
  left_edge t = Z.min (l_bp op) (left_edge l) -> print t = print l ++ op_tok op :: k ->
  (forall e rest ts, stops t rest -> erase e = sem l -> cur (op_tok op :: k ++ rest) ts ->
     wp (parse_infix (knot n) e op (r_bp op)) ts
       (fun e' ts' => erase e' = sem t /\ cur rest ts') (fun _ => False)) ->
  complete n t.
Proof.
  intros Hl Hst Hle Hpr Hin m rest ts Q Hm Hs Hcur HQ. rewrite Hpr, <-app_assoc in Hcur.
  apply (Hl m (op_tok op :: k ++ rest) ts Q); [lia|by apply Hst|done|].
  intros e ts' He Hc. eapply run_loop_infix; [exact Hc|lia|].
  eapply wp_mono; [by apply (Hin e rest)| |done]. intros e' ts'' [He' Hc']. split; [|by apply HQ].
  rewrite (cur_remaining _ _ Hc'), (cur_remaining _ _ Hc). cbn [length]. rewrite length_app. lia.
Qed.

Lemma print_length_pos t : (0 < length (print t))%nat.
Proof. destruct (print_first t) as (c&l&->&_). cbn. lia. Qed.

Lemma commas_length t es : t ∈ es -> (length (print t) <= length (commas (map print es)))%nat.
Proof.
  induction es as [|u es IH]; [by intros ?%not_elem_of_nil|]. rewrite commas_cons, length_app.
  intros [->|Hin]%elem_of_cons; [lia|]. destruct es as [|v es]; [by apply not_elem_of_nil in Hin|].
  specialize (IH Hin). rewrite commas_cons, length_app in IH. cbn [map concat app length].
  rewrite length_app. lia.
Qed.

Lemma operand_parts_spec t u :
  u ∈ operand_parts t -> canon t = true ->
  canon u = true /\ (length (print u) < length (print t))%nat.
Proof.
  destruct t; cbn [operand_parts canon print]; try by intros ?%not_elem_of_nil.
  - intros ->%list_elem_of_singleton Hc. cbn. rewrite length_app. split; [done|lia].
  - intros ->%list_elem_of_singleton Hc. cbn. split; [by apply andb_true_iff in Hc as [? _]|lia].
  - intros ->%list_elem_of_singleton Hc. cbn. rewrite !andb_true_iff in Hc. split; [tauto|lia].
  - intros Hu [Hc _]%andb_true_iff. rewrite forallb_forall in Hc. split; [by apply Hc, list_elem_of_In|].
    apply commas_length in Hu. cbn. rewrite length_app. lia.
  - intros Hu Hc. rewrite forallb_forall in Hc. split; [by apply Hc, list_elem_of_In|].
    apply commas_length in Hu. cbn. rewrite !length_app. lia.
Qed.

Lemma term_complete t : canon t = true -> forall n, (length (print t) <= n)%nat -> complete n t.
Proof.
  induction t as [t IH] using (induction_ltof1 _ (fun t => length (print t))). unfold ltof in IH.
  intros Hc n Hn. pose proof (print_length_pos t) as Hpos. destruct n as [|n]; [lia|].
  assert (Hsub : forall u, canon u = true -> (length (print u) < length (print t))%nat ->
    complete (S n) u /\ reads_term (knot (S n)) u).
  { intros u Hu Hlen. split; [apply IH; [done|done|lia]|].
    apply complete_reads, IH; [done|done|lia]. }
  destruct (is_operand t) eqn:Hop.
  { intros m rest ts Q Hm Hs Hcur HQ. apply wp_bind.
    eapply wp_mono; [apply (prefix_reads (knot (S n)) t rest); [done|done| |done|done]| |done].
    - apply Forall_forall. intros u Hu. apply Hsub; by eapply operand_parts_spec.
    - intros e ts' [He Hc']. by apply HQ. }
  destruct t as [| | | | | | | | | |op l r|op l r|e negated|e key|e i| | |]; try discriminate Hop; clear Hop.
  - pose proof (canon_bin _ _ _ Hc) as (_&Hl&Hr&_&Hst). cbn [print] in Hsub. rewrite length_app in Hsub.
    cbn [length] in Hsub. pose proof (print_length_pos l).
    destruct (Hsub l Hl) as [Hcl _]; [lia|]. destruct (Hsub r Hr) as [_ Hrr]; [lia|].
    apply (complete_step _ _ l op (print r)); try done. intros e rest ts Hs He. by apply infix_bin.
  - pose proof (canon_cmp _ _ _ Hc) as (_&Hl&Hr&_&_&Hst). cbn [print] in Hsub. rewrite length_app in Hsub.
    cbn [length] in Hsub. pose proof (print_length_pos l).
    destruct (Hsub l Hl) as [Hcl _]; [lia|]. destruct (Hsub r Hr) as [_ Hrr]; [lia|].
    apply (complete_step _ _ l op (print r)); try done. intros e rest ts Hs He. by apply infix_cmp.
  - cbn [canon] in Hc. apply andb_true_iff in Hc as [He Hb]. apply Z.ltb_lt in Hb.
    cbn [print] in Hsub. rewrite length_app in Hsub. destruct (Hsub e He) as [Hce _]; [cbn; lia|].
    apply (complete_step _ _ e (if negated then InfixOp.IsNotNull else InfixOp.IsNull) []);
      [done| |by destruct negated..|].
    + intros rest _. by apply stops_postfix; destruct negated.
    + intros x rest ts _ Hx Hcur.
      assert (r_bp (if negated then InfixOp.IsNotNull else InfixOp.IsNull) = 46) as -> by (by destruct negated).
      apply infix_is_null; [done|]. by destruct negated.
  - cbn [canon] in Hc. apply andb_true_iff in Hc as [He Hb]. apply Z.ltb_lt in Hb.
    cbn [print] in Hsub. rewrite length_app in Hsub. destruct (Hsub e He) as [Hce _]; [cbn; lia|].
    apply (complete_step _ _ e InfixOp.Dot [Tok.Ident key]); try done.
    + intros rest Hs. apply stops_dot; [done|apply Hs].
    + intros x rest ts _ Hx Hcur. by apply infix_get.
  - cbn [canon] in Hc. rewrite !andb_true_iff in Hc. destruct Hc as [[He Hi] Hb]. apply Z.ltb_lt in Hb.
    cbn [print] in Hsub. rewrite length_app in Hsub. cbn [length] in Hsub. rewrite length_app in Hsub.
    pose proof (print_length_pos e).
    destruct (Hsub e He) as [Hce _]; [cbn; lia|]. destruct (Hsub i Hi) as [_ Hri]; [cbn; lia|].
    apply (complete_step _ _ e InfixOp.Subscript (print i ++ [Tok.RBracket])); try done.
    + intros rest _. by apply stops_postfix.
    + intros x rest ts _ Hx Hcur. rewrite <-app_assoc in Hcur. by apply infix_index.
Qed.

(** C22 [parse_expr] reads every expression of the operator grammar back as it was written: for
    syntax whose parentheses are those that the binding powers require, the tokens of it
    followed by anything that cannot continue it parse to exactly its tree, positions aside,
    and the cursor stops right behind it.  Comparisons chain, every operator associates to the
    left, [NOT] and unary minus bind as in the table.  [canon] leaves out what reads as
    something else: an operand that ends in [(x)] before [-], which starts a pattern, a list
    that starts with [x IN], a comprehension, and unary minus on an integer literal, a
    negative literal. *)
Theorem parse_expr_complete (t : Surf) (rest : list Tok) (ts : TokenStream) :
  canon t = true -> stops t rest -> head rest ≫= infix_op = None ->
  tk <$> tokens ts = print t ++ rest -> unsupported ts = None ->
  exists e ts', parse_expr 0 ts = Some (Ok (e, ts')) /\
    erase e = sem t /\ tk <$> tokens ts' = rest.
Proof.
  intros Hc Hs Hop Htoks Hu.
  assert (Hw : wp (parse_expr 0) ts (fun e ts' => erase e = sem t /\ cur rest ts') (fun _ => False)).
  { apply wp_bind. unfold with_fuel.
    assert (Hlen : (length (print t) <= S (remaining ts))%nat).
    { cbv [remaining TokenStream_remaining]. apply (f_equal length) in Htoks.
      rewrite length_fmap, length_app in Htoks. lia. }
    apply (term_complete t Hc _ Hlen 0 rest ts); [apply left_edge_pos|done|by split|].
    intros e ts' He Hc'. apply (run_loop_stop _ _ _ rest); [done|by rewrite Hop|].
    unfold wp, finish_supported. pose proof (proj2 Hc') as Hu'. by rewrite Hu'. }
  unfold wp in Hw. destruct (parse_expr 0 ts) as [[[e ts']|e]|]; [|done..].
  exists e, ts'. destruct Hw as [He [Hr _]]. done.
Qed.

(** Tokens without positions, as a stream. *)
Definition stream (l : list Tok) : TokenStream :=
  mkTokenStream ((fun t => mkSpanned 0 t 0) <$> l) [] None.

(** [NOT a.x + 2 * -3 < f(DISTINCT y)[0] <= $p OR [1, (b - c)] IS NULL] *)
Definition sample_term : Surf :=
  let x name := SVar (bytes_of name) in
  SBin InfixOp.Or
    (SNot (SCmp InfixOp.Lte
      (SCmp InfixOp.Lt
        (SBin InfixOp.Add (SGet (x "a"%string) (bytes_of "x"%string)) (SBin InfixOp.Mul (SInt 2) (SInt (-3))))
        (SIndex (SCall (bytes_of "f"%string) true [x "y"%string]) (SInt 0)))
      (SParam (bytes_of "p"%string))))
    (SIsNull (SList [SInt 1; SParen (SBin InfixOp.Sub (x "b"%string) (x "c"%string))]) false).

Lemma parse_expr_complete_witness :
  exists e ts', parse_expr 0 (stream (print sample_term ++ [Tok.Return])) = Some (Ok (e, ts')) /\
    erase e = sem sample_term /\ tk <$> tokens ts' = [Tok.Return].
Proof.
  apply (parse_expr_complete sample_term [Tok.Return]); [reflexivity| |reflexivity|reflexivity|reflexivity].
  split_and!; [intros op H; discriminate H|reflexivity|reflexivity].
Defined.

(** ** The exception *)

Lemma run_node_var self x rest ts F :
  cur (Tok.LParen :: Tok.Ident x :: Tok.RParen :: rest) ts ->
  wp (parse_node_pattern_inner self) ts (fun _ => cur rest) F.
Proof.
  intros Hc. apply wp_bind, wp_gets, wp_bind, (run_eat _ _ _ _ _ Hc). intros r1 ts1 Hc1.
  apply wp_bind, wp_bind, wp_gets. rewrite (cur_at_ident _ _ Hc1). cbn [head].
  apply wp_bind, wp_bind, wp_gets. rewrite (cur_peek _ _ Hc1). cbn [head].
  apply wp_bind, (run_advance _ _ _ _ _ Hc1). intros s2 ts2 _ Hc2. do 2 apply wp_ret.
  apply wp_bind, (run_no_labels _ _ _ _ Hc2); [done|].
  apply wp_bind, (run_no_properties self _ _ _ _ Hc2); [done|].
  apply wp_bind, (run_eat _ _ _ _ _ Hc2). intros r3 ts3 Hc3. by apply wp_ret.
Qed.

(** A variable in parentheses before a minus sign is taken for the start of a path: unless an
    arrow follows, the expression is rejected. *)
Theorem paren_minus_rejected (x : str) (tok : Tok) (rest : list Tok) (ts : TokenStream) :
  tk <$> tokens ts = Tok.LParen :: Tok.Ident x :: Tok.RParen :: Tok.Minus :: tok :: rest ->
  unsupported ts = None -> tok <> Tok.RightArrow -> tok <> Tok.Minus ->
  exists err, parse_expr 0 ts = Some (Err err).
Proof.
  intros Htoks Hu Hr Hm. assert (Hcur := conj Htoks Hu : cur _ ts).
  assert (Hw : wp (parse_expr 0) ts (fun _ _ => False) (fun _ => True)).
  { apply wp_bind. unfold with_fuel.
    do 5 (apply wp_bind; try apply wp_gets). rewrite (cur_peek _ _ Hcur). cbn [head].
    apply wp_bind, wp_bind, wp_bind.
    eapply wp_probe_ok; [by apply (run_node_var _ x _ _ _ Hcur)|].
    intros ts1 Hc1. apply wp_ret. rewrite (cur_peek _ _ Hc1). cbn [head is_relationship_start].
    apply wp_bind, wp_bind, wp_gets, wp_bind, wp_bind, wp_gets, wp_bind, wp_gets.
    rewrite (cur_at_ident _ _ Hcur). cbn [head andb]. apply wp_ret, wp_bind, wp_gets.
    rewrite (cur_peek _ _ Hcur). cbn [head is_shortest_path].
    apply wp_bind. eapply wp_mono; [by apply (run_node_var _ x _ _ (fun _ => True) Hcur)| |done].
    intros first ts2 Hc2. apply wp_bind, wp_loop_step, wp_bind, wp_gets.
    rewrite (cur_peek _ _ Hc2). cbn [head is_relationship_start].
    apply wp_bind, wp_bind, wp_gets, wp_bind, wp_gets. rewrite (cur_peek _ _ Hc2). cbn [head].
    apply wp_bind, (run_advance _ _ _ _ _ Hc2). intros s3 ts3 _ Hc3.
    apply wp_bind, (run_eat_if_not _ _ _ _ _ Hc3); [cbn; congruence|].
    apply wp_bind, (run_eat_if_not _ _ _ _ _ Hc3); [cbn; congruence|].
    apply wp_bind, wp_gets. by apply wp_fail. }
  unfold wp in Hw. destruct (parse_expr 0 ts) as [[[e ts']|e]|]; [done|by eexists|done].
Qed.

Lemma paren_minus_rejected_witness :
  exists err, parse_expr 0 (stream [Tok.LParen; Tok.Ident (bytes_of "a"%string); Tok.RParen; Tok.Minus; Tok.IntLit 1]) =
    Some (Err err).
Proof. eapply paren_minus_rejected; [reflexivity|reflexivity|discriminate|discriminate]. Defined.
