(* ===== verification/Lexical.v ===== *)
(** * Lexical: the lexical grammar, and that the lexer reads it.

    [lexeme s t] says that the text [s] spells the token [t]; [spelled text toks] that a text
    is a sequence of spellings, each followed by nothing that continues it ([continues]: a
    word or number that goes on, a fraction, a longer symbol, a comment after a slash), with
    any white space and comments between them.  The theorem at the end says that [tokenize]
    returns exactly the tokens that were spelled. *)

From stdpp Require Import base numbers list strings.
From Stdlib Require Import Ascii ZArith Lia ZifyBool.
From S2P Require Import Prelude Text Ast Scan Lexer.

#[local] Open Scope string_scope.
#[local] Open Scope list_scope.
#[local] Open Scope Z_scope.

(** ** Spellings *)

Definition is_letter (c : Z) : bool := is_ascii_upper c || is_ascii_lower c.

(** White space and comments. *)
Definition closes (body : str) : Prop :=
  forall a b, body ++ bytes_of "*/" = a ++ bytes_of "*/" ++ b -> b = [].

Inductive gap : str -> Prop :=
| gap_nil : gap []
| gap_space c s : is_ascii_whitespace c = true -> gap s -> gap (c :: s)
| gap_line body s : Forall (fun c => c <> 10) body -> gap s -> gap (bytes_of "//" ++ body ++ 10 :: s)
| gap_block body s : closes body -> gap s -> gap (bytes_of "/*" ++ body ++ bytes_of "*/" ++ s).

(** Punctuation and operators. *)
Definition symbols : list (string * Tok) :=
  [("(", Tok.LParen); (")", Tok.RParen); ("[", Tok.LBracket); ("]", Tok.RBracket);
   ("{", Tok.LBrace); ("}", Tok.RBrace); (",", Tok.Comma); (":", Tok.Colon); (";", Tok.Semi);
   ("|", Tok.Pipe); ("^", Tok.Caret); ("%", Tok.Percent); ("/", Tok.Slash); ("*", Tok.Star);
   ("+", Tok.Plus); ("+=", Tok.PlusEq); (".", Tok.Dot); ("..", Tok.DotDot); ("=", Tok.Eq);
   ("=~", Tok.RegexMatch); ("!=", Tok.Neq); ("<>", Tok.Neq); ("<", Tok.Lt); ("<=", Tok.Lte);
   ("<-", Tok.LeftArrow); (">", Tok.Gt); (">=", Tok.Gte); ("-", Tok.Minus);
   ("-[", Tok.RelOpen); ("->", Tok.RightArrow)].

(** A keyword in any mixture of cases. *)
Definition spells_word (kw : string) (s : str) : Prop :=
  Forall (fun c => is_letter c = true) s /\ to_ascii_uppercase <$> s = bytes_of kw.

(** [a] is a prefix of [b]. *)
Fixpoint begins (a b : str) : bool :=
  match a, b with
  | [], _ => true
  | x :: a', y :: b' => (x =? y) && begins a' b'
  | _ :: _, [] => false
  end.

(** One or more white space characters. *)
Definition blank (s : str) : Prop := s <> [] /\ Forall (fun c => is_ascii_whitespace c = true) s.

(** The escapes of one character. *)
Definition escapes : list (Z * Z) :=
  [(ch "n", 10); (ch "t", 9); (ch "r", 13); (92, 92); (39, 39); (34, 34)].

(** The text between the quotes [q] of a string, and its value. *)
Inductive string_body (q : Z) : str -> str -> Prop :=
| body_nil : string_body q [] []
| body_plain c s v : c <> q -> c <> 92 -> string_body q s v -> string_body q (c :: s) (c :: v)
| body_escape e c s v : (e, c) ∈ escapes -> string_body q s v -> string_body q (92 :: e :: s) (c :: v)
| body_unicode hex n c s v :
    length hex = 4%nat -> Forall (fun h => is_ascii_hexdigit h = true) hex ->
    parse_digits 16 0 hex = Some n -> char_from_u32 n = Some c ->
    string_body q s v -> string_body q (92 :: ch "u" :: hex ++ s) (c :: v)
| body_other e s v :
    e ∉ escapes.*1 -> e <> ch "u" -> string_body q s v -> string_body q (92 :: e :: s) (92 :: e :: v).

(** An optional exponent: at least one digit after the sign. *)
Inductive exponent : str -> Prop :=
| exponent_none : exponent []
| exponent_some e sign ds :
    e = ch "e" \/ e = ch "E" -> sign = [] \/ (exists k, sign = [k] /\ (k = ch "+" \/ k = ch "-")) ->
    ds <> [] -> Forall (fun c => is_ascii_digit c = true) ds -> exponent (e :: sign ++ ds).

(** Decimal numbers with a fraction, an exponent or both. *)
Inductive float : str -> Prop :=
| float_fraction d ds f fs x :
    Forall (fun c => is_ascii_digit c = true) (d :: ds) -> Forall (fun c => is_ascii_digit c = true) (f :: fs) ->
    exponent x -> float ((d :: ds) ++ ch "." :: (f :: fs) ++ x)
| float_exponent d ds x :
    Forall (fun c => is_ascii_digit c = true) (d :: ds) -> exponent x -> x <> [] -> float ((d :: ds) ++ x)
| float_leading f fs x :
    Forall (fun c => is_ascii_digit c = true) (f :: fs) -> exponent x -> float (ch "." :: (f :: fs) ++ x).

Section grammar.
Context `{Unicode}.

Inductive lexeme : str -> Tok -> Prop :=
| lex_symbol s t : (s, t) ∈ symbols -> lexeme (bytes_of s) t
| lex_keyword kw t s : (kw, t) ∈ keyword_table -> spells_word kw s -> lexeme s t
| lex_not_in s1 b s2 :
    spells_word "NOT" s1 -> blank b -> spells_word "IN" s2 -> lexeme (s1 ++ b ++ s2) Tok.NotIn
| lex_is_null s1 b s2 :
    spells_word "IS" s1 -> blank b -> spells_word "NULL" s2 -> lexeme (s1 ++ b ++ s2) Tok.IsNull
| lex_is_not_null s1 b1 s2 b2 s3 :
    spells_word "IS" s1 -> blank b1 -> spells_word "NOT" s2 -> blank b2 -> spells_word "NULL" s3 ->
    lexeme (s1 ++ b1 ++ s2 ++ b2 ++ s3) Tok.IsNotNull
| lex_starts_with s1 b s2 :
    spells_word "STARTS" s1 -> blank b -> spells_word "WITH" s2 -> lexeme (s1 ++ b ++ s2) Tok.StartsWith
| lex_ends_with s1 b s2 :
    spells_word "ENDS" s1 -> blank b -> spells_word "WITH" s2 -> lexeme (s1 ++ b ++ s2) Tok.EndsWith
| lex_ident c s :
    0 <= c -> is_alphabetic c || (c =? ch "_") = true -> Forall (fun c => is_word_char c = true) s ->
    keyword (c :: s) = None -> lexeme (c :: s) (Tok.Ident (c :: s))
| lex_quoted s :
    Forall (fun c => c <> 10 /\ c <> ch "`") s -> lexeme (ch "`" :: s ++ [ch "`"]) (Tok.Ident s)
| lex_string q s v :
    q = 39 \/ q = 34 -> string_body q s v -> lexeme (q :: s ++ [q]) (Tok.StrLit v)
| lex_int d s n :
    Forall (fun c => is_ascii_digit c = true) (d :: s) -> parse_digits 10 0 (d :: s) = Some n ->
    n <= i128_max -> lexeme (d :: s) (Tok.IntLit n)
| lex_hex k h s n :
    k = ch "x" \/ k = ch "X" -> Forall (fun c => is_ascii_hexdigit c = true) (h :: s) ->
    parse_digits 16 0 (h :: s) = Some n -> n <= i128_max -> lexeme (ch "0" :: k :: h :: s) (Tok.IntLit n)
| lex_octal k h s n :
    k = ch "o" \/ k = ch "O" -> Forall (fun c => is_octal_digit c = true) (h :: s) ->
    parse_digits 8 0 (h :: s) = Some n -> n <= i128_max -> lexeme (ch "0" :: k :: h :: s) (Tok.IntLit n)
| lex_float s bits : float s -> parse_f64 s = Some bits -> lexeme s (Tok.FloatLit bits)
| lex_param c s :
    Forall (fun c => is_word_char c = true) (c :: s) ->
    forallb is_ascii_digit (c :: s) || (is_alphabetic c || (c =? ch "_")) = true ->
    lexeme (ch "$" :: c :: s) (Tok.Param (c :: s)).

(** Adjacent keywords that are read as one token. *)
Definition fuses (t : Tok) (toks : list Tok) : bool :=
  match t, toks with
  | Tok.Not, Tok.In :: _ | Tok.Is, Tok.Null :: _ | Tok.Is, Tok.Not :: Tok.Null :: _
  | Tok.Starts, Tok.With :: _ | Tok.Ends, Tok.With :: _ => true
  | _, _ => false
  end.

(** The end of a word. *)
Definition ends (r : str) : Prop := match r with [] => True | c :: _ => is_word_char c = false end.

(** The text [r] right after the spelling [s] would be read as part of it: a word or number
    that goes on, the fraction of a number, a longer symbol, a comment. *)
Definition continues (s r : str) : bool :=
  match r with
  | [] => false
  | c :: r' =>
      match last s with Some l => is_word_char l && is_word_char c | None => false end ||
      forallb is_ascii_digit s && (c =? ch ".") &&
        match r' with d :: _ => is_ascii_digit d | [] => false end ||
      existsb (fun e => begins (s ++ [c]) (bytes_of (fst e))) symbols ||
      begins s (bytes_of "/") && ((c =? ch "/") || (c =? ch "*")) ||
      begins s (bytes_of ".") && is_ascii_digit c
  end.

Inductive spelled : str -> list Tok -> Prop :=
| spelled_end g : gap g -> spelled g []
| spelled_cons g s r t toks :
    gap g -> lexeme s t -> continues s r = false -> spelled r toks -> fuses t toks = false ->
    spelled (g ++ s ++ r) (t :: toks).
End grammar.

(** ** Runs of the lexer *)

(** From the text [s], [m] returns [a] and leaves [r]. *)
Definition reads {A} (m : L A) (s : str) (a : A) (r : str) : Prop :=
  forall p, exists p', m (mkLexer s p) = Some (Ok (a, mkLexer r p')).

Section reads.
Implicit Types (s r : str).

Lemma reads_ret {A} (a : A) s : reads (mret a) s a s.
Proof. intros p. by exists p. Qed.

Lemma reads_bind {A B} (m : L A) (f : A -> L B) s a s' b r :
  reads m s a s' -> reads (f a) s' b r -> reads (m ≫= f) s b r.
Proof.
  intros Hm Hf p. destruct (Hm p) as [p1 H1]. destruct (Hf p1) as [p2 H2]. exists p2.
  by rewrite (bind_run _ _ _ _ _ H1).
Qed.

Lemma reads_gets {A B} (g : Lexer -> A) (f : A -> L B) s a b r :
  (forall p, g (mkLexer s p) = a) -> reads (f a) s b r -> reads (gets g ≫= f) s b r.
Proof. intros Hg. apply reads_bind. intros p. exists p. unfold gets. by rewrite Hg. Qed.

(** The position is only used by errors. *)
Lemma reads_pos {B} (f : Z -> L B) s b r :
  (forall q, reads (f q) s b r) -> reads (gets pos ≫= f) s b r.
Proof. intros Hf p. destruct (Hf p p) as [p' Hp]. by exists p'. Qed.

Lemma reads_advance c s : reads advance (c :: s) (Some c) s.
Proof. intros p. by eexists. Qed.

Lemma reads_push_while p acc w r :
  Forall (fun c => p c = true) w -> match r with c :: _ => p c = false | [] => True end ->
  reads (push_while p acc) (w ++ r) (acc ++ w) r.
Proof.
  intros Hw Hr q. eexists. rewrite push_while_run. unfold after_span. cbn [rest].
  by rewrite (span_while_prefix p w r Hw Hr).
Qed.

Lemma reads_advance_while p w r :
  Forall (fun c => p c = true) w -> match r with c :: _ => p c = false | [] => True end ->
  reads (advance_while p) (w ++ r) tt r.
Proof.
  intros Hw Hr q. eexists. rewrite advance_while_run. unfold after_span. cbn [rest].
  by rewrite (span_while_prefix p w r Hw Hr).
Qed.

Lemma reads_advance_bytes n w r : n = str_len w -> reads (advance_bytes n) (w ++ r) tt r.
Proof. intros Hn p. eexists. by apply advance_bytes_run. Qed.

Lemma reads_break {A B} (body : A -> L (A + B)) a s b r :
  reads (body a) s (inr b) r -> reads (loop body a) s b r.
Proof. intros Hb p. destruct (Hb p) as [p' Hp]. exists p'. apply iter_break; [done|lia]. Qed.

Lemma reads_continue {A B} (body : A -> L (A + B)) a s a' s' b r :
  reads (body a) s (inl a') s' -> (length s' < length s)%nat ->
  reads (loop body a') s' b r -> reads (loop body a) s b r.
Proof.
  intros Hb Hlen Hl p. destruct (Hb p) as [p1 H1]. destruct (Hl p1) as [p2 H2]. exists p2.
  unfold loop in *. rewrite (iter_continue _ _ _ _ _ _ H1).
  apply (iter_fuel _ _ _ _ _ _ H2). cbv [remaining Lexer_remaining rest]. lia.
Qed.
End reads.

(** ** Gaps *)

(** [r] is not continued by a gap. *)
Definition settled (r : str) : Prop :=
  match r with c :: _ => is_ascii_whitespace c = false | [] => True end /\
  take 2 r <> bytes_of "//" /\ take 2 r <> bytes_of "/*".

#[local] Abbreviation gap_body := (advance_while is_ascii_whitespace;; skip_comment).

Lemma gap_body_space c x p :
  is_ascii_whitespace c = true ->
  gap_body (mkLexer (c :: x) p) = gap_body (mkLexer x (p + len_utf8 c)).
Proof.
  intros Hc. rewrite !(bind_run _ _ _ _ _ (advance_while_run _ _)). f_equal. unfold after_span.
  cbn [rest pos span_while]. rewrite Hc. cbn [fst snd]. by rewrite str_len_cons, Z.add_assoc.
Qed.

Lemma iter_first {A B} (body : A -> L (A + B)) n a lx lx' :
  body a lx = body a lx' -> iter (S n) body a lx = iter (S n) body a lx'.
Proof. intros Hb. cbn [iter]. cbv [mbind M_bind]. by rewrite Hb. Qed.

Lemma reads_space c x r :
  is_ascii_whitespace c = true ->
  reads skip_whitespace_and_comments x tt r -> reads skip_whitespace_and_comments (c :: x) tt r.
Proof.
  intros Hc Hx p. destruct (Hx (p + len_utf8 c)) as [p' Hp]. exists p'.
  unfold skip_whitespace_and_comments, loop in *.
  cbv [remaining Lexer_remaining] in *. cbn [rest length] in *.
  apply (iter_fuel _ _ (S (S (length x)))) in Hp; [|lia].
  rewrite <-Hp. apply iter_first, (gap_body_space c x p Hc).
Qed.

Lemma reads_no_space {B} (m : L B) s b r :
  match s with c :: _ => is_ascii_whitespace c = false | [] => True end ->
  reads m s b r -> reads (advance_while is_ascii_whitespace;; m) s b r.
Proof. intros Hs Hm. eapply reads_bind; [|exact Hm]. by apply (reads_advance_while _ []). Qed.

Lemma starts_with_take w s p : starts_with w (mkLexer s p) = bool_decide (take (length w) s = w).
Proof. done. Qed.

Lemma reads_settled r : settled r -> reads skip_whitespace_and_comments r tt r.
Proof.
  intros (H1&H2&H3). apply reads_break, reads_no_space; [done|].
  eapply reads_gets; [intros p; apply bool_decide_eq_false; exact H2|].
  eapply reads_gets; [intros p; apply bool_decide_eq_false; exact H3|]. apply reads_ret.
Qed.

Lemma reads_line body x r :
  Forall (fun c => c <> 10) body -> reads skip_whitespace_and_comments x tt r ->
  reads skip_whitespace_and_comments (bytes_of "//" ++ body ++ 10 :: x) tt r.
Proof.
  intros Hb Hx. eapply (reads_continue _ _ _ tt (10 :: x)).
  - apply reads_no_space; [done|]. eapply (reads_gets _ _ _ true); [done|].
    eapply reads_bind; [|apply reads_ret].
    apply (reads_advance_while _ (bytes_of "//" ++ body)); [|done]. apply Forall_app. split.
    + by repeat constructor.
    + eapply Forall_impl; [exact Hb|]. cbn. intros c Hc. destruct (Z.eqb_spec c 10); [done|done].
  - cbn. rewrite length_app. cbn. lia.
  - by apply reads_space.
Qed.

Lemma closes_tail c body : closes (c :: body) -> closes body.
Proof. intros Hc a b Heq. apply (Hc (c :: a)). cbn [app]. by rewrite Heq. Qed.

Lemma reads_block_end start body x :
  closes body -> reads (skip_block_comment start) (body ++ bytes_of "*/" ++ x) tt x.
Proof.
  induction body as [|c body IH]; intros Hc.
  - apply reads_break. eapply (reads_gets _ _ _ true); [done|].
    eapply reads_bind; [by apply (reads_advance_bytes 2 (bytes_of "*/"))|apply reads_ret].
  - eapply (reads_continue _ _ _ tt (body ++ bytes_of "*/" ++ x)); [|cbn; lia|].
    + eapply (reads_gets _ _ _ false); [|eapply reads_bind; [apply reads_advance|apply reads_ret]].
      intros p. apply bool_decide_eq_false. intros Htake. cbn [rest] in Htake.
      change (length (bytes_of "*/")) with 2%nat in Htake.
      rewrite app_assoc, take_app_le in Htake by (rewrite length_app; cbn; lia).
      assert (Hb : drop 2 ((c :: body) ++ bytes_of "*/") = []).
      { apply (Hc []). cbn [app] in *. rewrite <-Htake at 2. symmetry. apply take_drop. }
      apply (f_equal length) in Hb. rewrite length_drop, length_app in Hb. cbn in Hb. lia.
    + apply IH. by eapply closes_tail.
Qed.

Lemma reads_block body x r :
  closes body -> reads skip_whitespace_and_comments x tt r ->
  reads skip_whitespace_and_comments (bytes_of "/*" ++ body ++ bytes_of "*/" ++ x) tt r.
Proof.
  intros Hb Hx. eapply (reads_continue _ _ _ tt x).
  - apply reads_no_space; [done|]. eapply (reads_gets _ _ _ false); [done|].
    eapply (reads_gets _ _ _ true); [done|]. apply reads_pos. intros q.
    eapply reads_bind; [by apply (reads_advance_bytes 2 (bytes_of "/*"))|].
    eapply reads_bind; [by apply reads_block_end|apply reads_ret].
  - cbn. rewrite !length_app. cbn. lia.
  - done.
Qed.

Lemma reads_gap g r : gap g -> settled r -> reads skip_whitespace_and_comments (g ++ r) tt r.
Proof.
  intros Hg Hr. induction Hg as [|c s Hc _ IH|body s Hb _ IH|body s Hb _ IH].
  - by apply reads_settled.
  - by apply reads_space.
  - rewrite <-!app_assoc. by apply reads_line.
  - rewrite <-!app_assoc. by apply reads_block.
Qed.

(** ** Characters *)

Section words.
Context `{Unicode}.
Implicit Types (s r w : str).

Lemma letter_word c : is_letter c = true -> is_word_char c = true.
Proof.
  intros Hc. unfold is_word_char, is_alphanumeric. rewrite is_alphabetic_ascii.
  - unfold is_letter in Hc. by rewrite Hc.
  - unfold is_letter, is_ascii_upper, is_ascii_lower, in_range in Hc. lia.
Qed.

Lemma space_not_word c : is_ascii_whitespace c = true -> is_word_char c = false.
Proof.
  intros Hc. unfold is_word_char, is_alphanumeric. unfold is_ascii_whitespace in Hc.
  rewrite is_alphabetic_ascii, is_numeric_ascii by lia.
  unfold is_ascii_upper, is_ascii_lower, is_ascii_digit, in_range. change (ch "_") with 95. lia.
Qed.

Lemma word_not_space c : is_word_char c = true -> is_ascii_whitespace c = false.
Proof.
  intros Hc. destruct (is_ascii_whitespace c) eqn:E; [|done]. by rewrite (space_not_word c E) in Hc.
Qed.

Lemma ends_word r : ends r -> match r with c :: _ => is_word_char c = false | [] => True end.
Proof. done. Qed.

Lemma ends_blank b r : blank b -> ends (b ++ r).
Proof. intros [Hne Hb]. destruct Hb; [done|]. by apply space_not_word. Qed.

(** What does not continue a spelling that ends in a word does not continue the word. *)
Lemma apart_word s1 w r :
  w <> [] -> Forall (fun c => is_word_char c = true) w -> continues (s1 ++ w) r = false -> ends r.
Proof.
  intros Hne Hw. destruct (exists_last Hne) as (w'&l&->). apply Forall_app in Hw as [_ Hl].
  apply Forall_cons in Hl as [Hl _]. destruct r as [|c r]; [done|]. unfold continues.
  rewrite app_assoc, last_snoc, Hl. cbn [andb ends]. intros Hc. by destruct (is_word_char c).
Qed.

Lemma letters_word s : Forall (fun c => is_letter c = true) s -> Forall (fun c => is_word_char c = true) s.
Proof. intros Hs. eapply Forall_impl; [exact Hs|]. apply letter_word. Qed.

(** ** Keywords *)

Lemma letters_upper s :
  Forall (fun c => is_letter c = true) s -> to_uppercase s = to_ascii_uppercase <$> s.
Proof.
  induction 1 as [|c s Hc _ IH]; [done|]. unfold to_uppercase in *. rewrite bind_cons, IH.
  rewrite char_to_uppercase_ascii; [done|].
  unfold is_letter, is_ascii_upper, is_ascii_lower, in_range in Hc. lia.
Qed.

(** No keyword is listed twice. *)
Lemma keyword_table_find kw t :
  (kw, t) ∈ keyword_table ->
  snd <$> List.find (fun '(kw', _) => bool_decide (bytes_of kw = bytes_of kw')) keyword_table = Some t.
Proof.
  assert (Hall : Forall (fun e => snd <$> List.find (fun '(kw', _) =>
    bool_decide (bytes_of (fst e) = bytes_of kw')) keyword_table = Some (snd e)) keyword_table).
  { apply (bool_decide_unpack _). vm_compute. exact I. }
  rewrite Forall_forall in Hall. apply (Hall (kw, t)).
Qed.

Lemma keyword_spelled kw t s : (kw, t) ∈ keyword_table -> spells_word kw s -> keyword s = Some t.
Proof.
  intros Hin [Hl Hu]. unfold keyword. cbn zeta. rewrite (letters_upper s Hl), Hu.
  by apply keyword_table_find.
Qed.

Lemma lower_upper c : is_letter c = true -> to_ascii_lowercase (to_ascii_uppercase c) = to_ascii_lowercase c.
Proof.
  unfold is_letter, to_ascii_lowercase, to_ascii_uppercase, is_ascii_upper, is_ascii_lower, in_range.
  intros Hc. repeat case_match; lia.
Qed.

Lemma upper_lower c d :
  is_ascii_upper d = true -> to_ascii_lowercase c = to_ascii_lowercase d ->
  is_letter c = true /\ to_ascii_uppercase c = d.
Proof.
  unfold is_letter, to_ascii_lowercase, to_ascii_uppercase, is_ascii_upper, is_ascii_lower, in_range.
  intros Hd. repeat case_match; intros; split; lia.
Qed.

(** [eq_ignore_ascii_case] with a keyword in capitals. *)
Lemma ignore_case_word kw s :
  Forall (fun c => is_ascii_upper c = true) (bytes_of kw) ->
  eq_ignore_ascii_case s (bytes_of kw) = true <-> spells_word kw s.
Proof.
  intros Hkw. unfold eq_ignore_ascii_case, spells_word. rewrite bool_decide_eq_true. split.
  - revert s. generalize (bytes_of kw) Hkw. clear kw Hkw. induction 1 as [|d k Hd _ IH]; intros [|c s] Heq;
      try discriminate Heq; [done|]. injection Heq as Hc Hs. destruct (IH s Hs) as [H1 H2].
    destruct (upper_lower c d Hd Hc) as [H3 H4]. split; [by constructor|]. cbn. by rewrite H4, H2.
  - intros [Hl <-]. rewrite <-list_fmap_compose. apply list_fmap_ext. intros i c Hi. cbn.
    rewrite Forall_lookup in Hl. by rewrite (lower_upper c (Hl i c Hi)).
Qed.

Lemma peek_keyword_eq b x p :
  Forall (fun c => is_ascii_whitespace c = true) b ->
  match x with c :: _ => is_ascii_whitespace c = false | [] => True end ->
  peek_keyword (mkLexer (b ++ x) p) =
  match (span_while is_word_char x).1 with [] => None | w => Some w end.
Proof. intros Hb Hx. unfold peek_keyword. cbn [rest]. by rewrite (span_while_prefix _ b x Hb Hx). Qed.


Definition caps (kw : string) : Prop := Forall (fun c => is_ascii_upper c = true) (bytes_of kw).

Lemma span_word w r :
  Forall (fun c => is_word_char c = true) w -> ends r -> (span_while is_word_char (w ++ r)).1 = w.
Proof. intros Hw Hr. by rewrite (span_while_prefix _ w r Hw (ends_word r Hr)). Qed.

(** The word after white space is the keyword that is looked for. *)
Lemma keyword_follows_word kw b w r p :
  caps kw -> Forall (fun c => is_ascii_whitespace c = true) b ->
  Forall (fun c => is_word_char c = true) w -> w <> [] -> ends r ->
  keyword_follows kw (mkLexer (b ++ w ++ r) p) = true <-> spells_word kw w.
Proof.
  intros Hkw Hb Hw Hne Hr. unfold keyword_follows. rewrite (peek_keyword_eq b (w ++ r)).
  - rewrite (span_word w r Hw Hr). destruct w; [done|]. by apply ignore_case_word.
  - done.
  - destruct Hw as [|c w Hc _]; [done|]. by apply word_not_space.
Qed.

Lemma keyword_follows_no_word kw b x p :
  Forall (fun c => is_ascii_whitespace c = true) b ->
  match x with c :: _ => is_ascii_whitespace c = false /\ is_word_char c = false | [] => True end ->
  keyword_follows kw (mkLexer (b ++ x) p) = false.
Proof.
  intros Hb Hx. unfold keyword_follows. rewrite (peek_keyword_eq b x); [|done|].
  - destruct x as [|c x]; [done|]. cbn [span_while]. by destruct Hx as [_ ->].
  - destruct x; tauto.
Qed.

(** ** The first word of a lexeme *)

Lemma spells_nonempty kw s : spells_word kw s -> bytes_of kw <> [] -> s <> [].
Proof. intros [_ <-]. by destruct s. Qed.

(** The keyword that a compound token starts with. *)
Definition compounds : list (Tok * string) :=
  [(Tok.NotIn, "NOT"); (Tok.IsNull, "IS"); (Tok.IsNotNull, "IS"); (Tok.StartsWith, "STARTS");
   (Tok.EndsWith, "ENDS")].

Inductive first_word (s : str) (t : Tok) : Prop :=
| word_keyword kw : (kw, t) ∈ keyword_table -> spells_word kw s -> first_word s t
| word_compound kw s1 b s2 :
    s = s1 ++ b ++ s2 -> spells_word kw s1 -> blank b -> (t, kw) ∈ compounds ->
    (t = Tok.NotIn -> spells_word "IN" s2) -> first_word s t
| word_ident :
    s <> [] -> Forall (fun c => is_word_char c = true) s -> keyword s = None -> first_word s t
| word_digit d s' : s = d :: s' -> is_ascii_digit d = true -> first_word s t
| word_none c s' :
    s = c :: s' -> is_ascii_whitespace c = false -> is_word_char c = false -> first_word s t.

Lemma digit_word c : is_ascii_digit c = true -> is_word_char c = true.
Proof.
  intros Hc. unfold is_word_char, is_alphanumeric. rewrite is_numeric_ascii.
  - by rewrite Hc, orb_true_r.
  - unfold is_ascii_digit, in_range in Hc. lia.
Qed.

(** An ASCII character that is neither letter nor digit nor underscore. *)
Lemma not_word_char c :
  0 <= c < 128 -> is_letter c = false -> is_ascii_digit c = false -> c <> 95 -> is_word_char c = false.
Proof.
  intros Hc Hl Hd Hu. unfold is_word_char, is_alphanumeric.
  rewrite is_alphabetic_ascii, is_numeric_ascii by done. unfold is_letter in Hl. rewrite Hl, Hd.
  change (ch "_") with 95. cbn. by apply Z.eqb_neq.
Qed.

Lemma symbol_first_word (s : string) (t : Tok) : (s, t) ∈ symbols -> first_word (bytes_of s) t.
Proof.
  intros Hin. unfold symbols in Hin.
  repeat (apply elem_of_cons in Hin as [Hin|Hin];
    [injection Hin as -> ->; eapply word_none; [reflexivity|reflexivity|by apply not_word_char]|]).
  by apply not_elem_of_nil in Hin.
Qed.

Lemma lexeme_first_word s t : lexeme s t -> first_word s t.
Proof.
  destruct 1 as [s t Hin|kw t s Hin Hs|s1 b s2 H1 Hb H2|s1 b s2 H1 Hb H2|s1 b1 s2 b2 s3 H1 Hb1 H2 Hb2 H3
    |s1 b s2 H1 Hb H2|s1 b s2 H1 Hb H2|c s Hc0 Hc Hs Hk|s Hs|q s v Hq Hs|d s n Hd Hn Hm
    |k h s n Hk Hh Hn Hm|k h s n Hk Hh Hn Hm|s bits Hf Hv|c s Hs Hn].
  - by apply symbol_first_word.
  - by eapply word_keyword.
  - eapply word_compound; [reflexivity|exact H1|done|by left|done].
  - eapply word_compound; [reflexivity|exact H1|done|by right; left|done].
  - eapply word_compound; [reflexivity|exact H1|done|by do 2 right; left|done].
  - eapply word_compound; [reflexivity|exact H1|done|by do 3 right; left|done].
  - eapply word_compound; [reflexivity|exact H1|done|by do 4 right; left|done].
  - apply word_ident; [done| |done]. constructor; [|done]. unfold is_word_char, is_alphanumeric.
    apply orb_true_iff in Hc as [->| ->]; [done|]. apply orb_true_r.
  - by eapply word_none; [reflexivity|reflexivity|apply not_word_char].
  - by destruct Hq as [->| ->]; (eapply word_none; [reflexivity|reflexivity|apply not_word_char]).
  - apply Forall_cons in Hd as [Hd _]. by eapply word_digit.
  - by eapply word_digit.
  - by eapply word_digit.
  - destruct Hf as [d ds f fs x Hd _ _|d ds x Hd _ _|f fs x _ _];
      [apply Forall_cons in Hd as [Hd _]; by eapply word_digit..|].
    by eapply word_none; [reflexivity|reflexivity|apply not_word_char].
  - by eapply word_none; [reflexivity|reflexivity|apply not_word_char].
Qed.

(** A keyword does not start with a digit. *)
Lemma keyword_follows_digit kw b d x p :
  caps kw -> Forall (fun c => is_ascii_whitespace c = true) b -> is_ascii_digit d = true ->
  keyword_follows kw (mkLexer (b ++ d :: x) p) = false.
Proof.
  intros Hkw Hb Hd. pose proof (digit_word d Hd) as Hw. unfold keyword_follows.
  rewrite (peek_keyword_eq b (d :: x)); [|done|by apply word_not_space]. cbn [span_while]. rewrite Hw. cbn [fst].
  apply not_true_iff_false. rewrite ignore_case_word by done. intros [Hl _]. apply Forall_cons in Hl as [Hl _].
  unfold is_letter, is_ascii_digit, is_ascii_upper, is_ascii_lower, in_range in *. lia.
Qed.

Lemma compound_kw t kw : (t, kw) ∈ compounds -> caps kw /\ bytes_of kw <> [].
Proof.
  unfold compounds. rewrite !elem_of_cons, elem_of_nil. intros Hin.
  destruct_or! Hin; try done; injection Hin as _ ->; (split; [by repeat constructor|done]).
Qed.

(** What a keyword that follows says about the lexeme there. *)
Lemma follows_cases kw t0 b s t r p :
  (kw, t0) ∈ keyword_table -> caps kw -> Forall (fun c => is_ascii_whitespace c = true) b ->
  lexeme s t -> continues s r = false -> keyword_follows kw (mkLexer (b ++ s ++ r) p) = true ->
  (t = t0 /\ spells_word kw s) \/
  exists kw1 s1 b1 s2, s = s1 ++ b1 ++ s2 /\ spells_word kw1 s1 /\ spells_word kw s1 /\ blank b1 /\
    (t, kw1) ∈ compounds /\ (t = Tok.NotIn -> spells_word "IN" s2).
Proof.
  intros Hin Hkw Hb Hlex Hr Hf.
  destruct (lexeme_first_word s t Hlex) as [kw' Hin' Hs|kw1 s1 b1 s2 -> Hs1 Hb1 Hc Hn|Hne Hs Hk|d s' -> Hd|c s' -> Hc1 Hc2].
  - left. assert (Hne : s <> []).
    { eapply spells_nonempty; [exact Hs|]. intros Hnil.
      assert (Hall : Forall (fun e => bytes_of (fst e) <> []) keyword_table) by (by repeat constructor).
      rewrite Forall_forall in Hall. by apply (Hall (kw', t)). }
    pose proof (letters_word _ (proj1 Hs)) as Hw.
    apply keyword_follows_word in Hf; [|done..|by apply (apart_word [] s)].
    split; [|done]. pose proof (keyword_spelled _ _ _ Hin' Hs) as H1.
    rewrite (keyword_spelled _ _ _ Hin Hf) in H1. by injection H1.
  - right. exists kw1, s1, b1, s2. rewrite <-!app_assoc in Hf.
    apply keyword_follows_word in Hf; [|done|done|apply letters_word, Hs1| |by apply ends_blank].
    + done.
    + eapply spells_nonempty; [exact Hs1|]. by eapply compound_kw.
  - apply keyword_follows_word in Hf; [|done..|by apply (apart_word [] s)].
    by rewrite (keyword_spelled _ _ _ Hin Hf) in Hk.
  - cbn [app] in Hf. by rewrite (keyword_follows_digit kw b d (s' ++ r) p Hkw Hb Hd) in Hf.
  - by rewrite keyword_follows_no_word in Hf.
Qed.
End words.

(** ** Compound keywords *)

Section compound.
Context `{Unicode}.

Lemma gap_shape g :
  gap g -> Forall (fun c => is_ascii_whitespace c = true) g \/
    exists b g', g = b ++ 47 :: g' /\ Forall (fun c => is_ascii_whitespace c = true) b.
Proof.
  induction 1 as [|c s Hc _ IH|body s _ _ _|body s _ _ _]; [by left| |right; by exists []; eexists..].
  destruct IH as [IH|(b&g'&->&Hb)]; [left; by constructor|]. right. exists (c :: b), g'.
  split; [done|by constructor].
Qed.

(** A keyword that follows in a spelled text. *)
Lemma spelled_follows kw t0 r toks p :
  (kw, t0) ∈ keyword_table -> caps kw -> spelled r toks -> keyword_follows kw (mkLexer r p) = true ->
  exists b s r' t toks', r = b ++ s ++ r' /\ Forall (fun c => is_ascii_whitespace c = true) b /\
    toks = t :: toks' /\ spelled r' toks' /\ continues s r' = false /\
    ((t = t0 /\ spells_word kw s) \/
     exists kw1 s1 b1 s2, s = s1 ++ b1 ++ s2 /\ spells_word kw1 s1 /\ spells_word kw s1 /\ blank b1 /\
       (t, kw1) ∈ compounds /\ (t = Tok.NotIn -> spells_word "IN" s2)).
Proof.
  intros Hin Hkw Hsp Hf. destruct Hsp as [g Hg|g s r t toks Hg Hlex Hr Hsp _].
  - exfalso. destruct (gap_shape g Hg) as [Hb|(b&g'&->&Hb)].
    + rewrite <-(app_nil_r g) in Hf. by rewrite keyword_follows_no_word in Hf.
    + rewrite keyword_follows_no_word in Hf; [done|done|]. split; [done|by apply not_word_char].
  - destruct (gap_shape g Hg) as [Hb|(b&g'&->&Hb)].
    + exists g, s, r, t, toks. do 5 (split; [done|]). by eapply follows_cases.
    + exfalso. rewrite <-app_assoc in Hf.
      rewrite keyword_follows_no_word in Hf; [done|done|]. split; [done|by apply not_word_char].
Qed.

Lemma spelled_no_follow kw t0 r toks p :
  (kw, t0) ∈ keyword_table -> caps kw ->
  Forall (fun e => bytes_of kw <> bytes_of (snd e)) compounds ->
  spelled r toks -> head toks <> Some t0 -> keyword_follows kw (mkLexer r p) = false.
Proof.
  intros Hin Hkw Hc Hsp Hne. destruct (keyword_follows kw _) eqn:Hf; [|done].
  destruct (spelled_follows _ _ _ _ _ Hin Hkw Hsp Hf) as (b&s&r'&t&toks'&_&_&->&_&_&Hcase).
  destruct Hcase as [[-> _]|(kw1&s1&b1&s2&_&[_ H1]&[_ H2]&_&Hk&_)]; [done|].
  rewrite Forall_forall in Hc. destruct (Hc _ Hk). cbn [snd]. congruence.
Qed.

Lemma reads_skip_word kw w b r n :
  spells_word kw w -> Forall (fun c => is_ascii_whitespace c = true) b -> w <> [] -> n = lenZ w ->
  reads (skip_ws_and_advance_n n) (b ++ w ++ r) tt r.
Proof.
  intros [Hw _] Hb Hne ->. eapply reads_bind.
  - apply reads_advance_while; [done|]. destruct Hw as [|c w Hc _]; [done|]. cbn.
    by apply word_not_space, letter_word.
  - apply reads_advance_bytes. symmetry. apply str_len_ascii. eapply Forall_impl; [exact Hw|].
    intros c. unfold is_letter, is_ascii_upper, is_ascii_lower, in_range. lia.
Qed.

Lemma spells_length kw w : spells_word kw w -> lenZ w = lenZ (bytes_of kw).
Proof. intros [_ <-]. by rewrite length_fmap. Qed.

(** The second word of a compound keyword. *)
Lemma reads_second {A} kw w b r n (f : L A) a :
  caps kw -> bytes_of kw <> [] -> spells_word kw w ->
  Forall (fun c => is_ascii_whitespace c = true) b -> ends r -> n = lenZ (bytes_of kw) ->
  (forall p, keyword_follows kw (mkLexer (b ++ w ++ r) p) = true) /\
  (reads f r a r -> reads (skip_ws_and_advance_n n;; f) (b ++ w ++ r) a r).
Proof.
  intros Hkw Hne Hw Hb Hr ->. assert (Hw0 : w <> []) by (by eapply spells_nonempty). split.
  - intros p. apply keyword_follows_word; [done|done|apply letters_word, Hw|done|done|done].
  - intros Hf. eapply reads_bind; [|exact Hf]. eapply reads_skip_word; [exact Hw|done|done|].
    symmetry. by eapply spells_length.
Qed.

Lemma reads_saved {B} (f : Lexer -> L B) s b r :
  (forall q, reads (f (mkLexer s q)) s b r) -> reads (gets (fun lx => lx) ≫= f) s b r.
Proof. intros Hf p. destruct (Hf p p) as [p' Hp]. by exists p'. Qed.

Lemma reads_restore {B} (a : B) s r q : reads (put (mkLexer r q);; mret a) s a r.
Proof. intros p. by exists q. Qed.

(** [IS NOT] without [NULL]. *)
Lemma is_not_without_null r toks p :
  spelled r toks -> fuses Tok.Is toks = false -> keyword_follows "NOT" (mkLexer r p) = true ->
  exists r', reads (skip_ws_and_advance_n 3) r tt r' /\
    forall q, keyword_follows "NULL" (mkLexer r' q) = false.
Proof.
  intros Hsp Hfu Hf.
  assert (Hnot : ("NOT", Tok.Not) ∈ keyword_table) by (by apply (bool_decide_unpack _); vm_compute).
  assert (Hcaps : caps "NOT") by (by repeat constructor).
  destruct (spelled_follows _ _ _ _ _ Hnot Hcaps Hsp Hf) as (b&s&r'&t&toks'&->&Hb&->&Hsp'&Hr'&Hcase).
  destruct Hcase as [[-> Hs]|(kw1&s1&b1&s2&->&Hs1&Hs1'&Hb1&Hk&Hn)].
  - exists r'. split.
    + eapply reads_skip_word; [exact Hs|done|by eapply spells_nonempty|]. by rewrite (spells_length _ _ Hs).
    + intros q. eapply (spelled_no_follow "NULL" Tok.Null);
        [by apply (bool_decide_unpack _); vm_compute|by repeat constructor|by repeat constructor|exact Hsp'|].
      destruct toks' as [|[]]; done.
  - exists (b1 ++ s2 ++ r'). split.
    + rewrite <-!app_assoc. eapply reads_skip_word; [exact Hs1'|done|by eapply spells_nonempty|].
      by rewrite (spells_length _ _ Hs1').
    + intros q. assert (Ht : t = Tok.NotIn).
      { destruct Hs1 as [_ Hs1], Hs1' as [_ Hs1']. rewrite Hs1 in Hs1'. unfold compounds in Hk.
        rewrite !elem_of_cons, elem_of_nil in Hk. destruct_or! Hk; try done; injection Hk as -> ->; done. }
      specialize (Hn Ht). apply not_true_iff_false.
      assert (Hne : s2 <> []) by (by eapply spells_nonempty). pose proof (letters_word _ (proj1 Hn)) as Hw.
      rewrite keyword_follows_word;
        [|by repeat constructor|apply Hb1|done..|by apply (apart_word (s1 ++ b1) s2); rewrite <-?app_assoc].
      intros [_ Hnull]. destruct Hn as [_ Hn]. by rewrite Hn in Hnull.
Qed.

(** A keyword that is not fused with the next one. *)
Lemma reads_compound t r toks : spelled r toks -> fuses t toks = false -> reads (maybe_compound t) r t r.
Proof.
  intros Hsp Hfu.
  assert (Hno : forall kw t0, (kw, t0) ∈ keyword_table -> caps kw ->
    Forall (fun e => bytes_of kw <> bytes_of (snd e)) compounds -> head toks <> Some t0 ->
    forall p, keyword_follows kw (mkLexer r p) = false) by (intros; by eapply spelled_no_follow).
  destruct t; try apply reads_ret; cbn [maybe_compound].
  - eapply reads_gets; [apply (Hno "IN" Tok.In)|apply reads_ret];
      [by apply (bool_decide_unpack _); vm_compute|by repeat constructor|by repeat constructor|].
    destruct toks as [|[]]; done.
  - eapply reads_gets; [apply (Hno "NULL" Tok.Null)|];
      [by apply (bool_decide_unpack _); vm_compute|by repeat constructor|by repeat constructor| |].
    { destruct toks as [|[]]; done. }
    intros p. destruct (keyword_follows "NOT" (mkLexer r p)) eqn:Hn.
    + destruct (is_not_without_null r toks p Hsp Hfu Hn) as (r'&Hskip&Hnull).
      rewrite (bind_run _ _ _ (keyword_follows "NOT" (mkLexer r p)) (mkLexer r p) eq_refl), Hn.
      revert p Hn. intros p _. revert p. apply reads_saved. intros q.
      eapply reads_bind; [exact Hskip|]. eapply reads_gets; [exact Hnull|]. apply reads_restore.
    + rewrite (bind_run _ _ _ (keyword_follows "NOT" (mkLexer r p)) (mkLexer r p) eq_refl), Hn.
      by exists p.
  - eapply reads_gets; [apply (Hno "WITH" Tok.With)|apply reads_ret];
      [by apply (bool_decide_unpack _); vm_compute|by repeat constructor|by repeat constructor|].
    destruct toks as [|[]]; done.
  - eapply reads_gets; [apply (Hno "WITH" Tok.With)|apply reads_ret];
      [by apply (bool_decide_unpack _); vm_compute|by repeat constructor|by repeat constructor|].
    destruct toks as [|[]]; done.
Qed.

(** ** Words *)

(** Characters that start a word start nothing else. *)
Lemma read_token_word c start :
  0 <= c -> is_alphabetic c || (c =? ch "_") = true -> read_token c start = read_word c.
Proof.
  intros H0 Hc.
  assert (Hr : 128 <= c \/ 65 <= c <= 90 \/ 97 <= c <= 122 \/ c = 95).
  { destruct (Z.ltb_spec c 128); [|by left]. right. rewrite is_alphabetic_ascii in Hc by lia.
    unfold is_ascii_upper, is_ascii_lower, in_range in Hc. change (ch "_") with 95 in Hc. lia. }
  assert (Hne : forall k, 0 <= k < 128 -> in_range 65 90 k || in_range 97 122 k || (k =? 95) = false -> (c =? k) = false).
  { unfold in_range. intros k Hk Hn. apply Z.eqb_neq. lia. }
  unfold read_token, punctuation. rewrite !Hne by done.
  assert (Hop : is_operator_char c = false).
  { apply bool_decide_eq_false. intros Hin. change (bytes_of "+.=!<>-") with [43; 46; 61; 33; 60; 62; 45] in Hin.
    rewrite !elem_of_cons, elem_of_nil in Hin. lia. }
  rewrite Hop. cbn [orb]. unfold is_ascii_digit, in_range.
  destruct ((48 <=? c) && (c <=? 57)) eqn:Ed; [lia|]. by rewrite Hc.
Qed.

Lemma letter_start c : is_letter c = true -> 0 <= c /\ is_alphabetic c || (c =? ch "_") = true.
Proof.
  intros Hc. assert (0 <= c < 128) by (unfold is_letter, is_ascii_upper, is_ascii_lower, in_range in Hc; lia).
  split; [lia|]. rewrite is_alphabetic_ascii by done. unfold is_letter in Hc. by rewrite Hc.
Qed.

(** A word that is a keyword, followed by [x]. *)
Lemma reads_keyword kw k s x t r start c w :
  (kw, k) ∈ keyword_table -> spells_word kw s -> s = c :: w -> ends x ->
  reads (maybe_compound k) x t r -> reads (read_token c start) (w ++ x) t r.
Proof.
  intros Hin Hs -> Hx Hm. pose proof Hs as [Hl _]. apply Forall_cons in Hl as [Hc Hw].
  destruct (letter_start c Hc) as [H0 Ha]. rewrite read_token_word by done.
  eapply reads_bind; [by apply reads_push_while; [apply letters_word|apply ends_word]|].
  cbn [app]. by rewrite (keyword_spelled kw k (c :: w) Hin Hs).
Qed.

(** [kw1 kw2] where [kw1] looks for [kw2]. *)
Lemma reads_pair kw1 k1 kw2 n t s1 b s2 r start c w :
  (kw1, k1) ∈ keyword_table -> spells_word kw1 s1 -> blank b -> spells_word kw2 s2 ->
  caps kw2 -> bytes_of kw2 <> [] -> n = lenZ (bytes_of kw2) -> ends r ->
  (forall x : str, (forall p, keyword_follows kw2 (mkLexer x p) = true) ->
     reads (skip_ws_and_advance_n n;; mret t) x t r -> reads (maybe_compound k1) x t r) ->
  s1 = c :: w -> reads (read_token c start) (w ++ b ++ s2 ++ r) t r.
Proof.
  intros Hin H1 Hb H2 Hcaps Hne -> Hr Hm Hs1.
  eapply reads_keyword; [exact Hin|exact H1|exact Hs1|by apply ends_blank|].
  destruct (reads_second kw2 s2 b r _ (mret t) t Hcaps Hne H2 (proj2 Hb) Hr eq_refl) as [Hf Hskip].
  apply Hm; [done|]. apply Hskip, reads_ret.
Qed.

Lemma reads_is_not_null s1 b1 s2 b2 s3 r start c w :
  spells_word "IS" s1 -> blank b1 -> spells_word "NOT" s2 -> blank b2 -> spells_word "NULL" s3 ->
  ends r -> s1 = c :: w ->
  reads (read_token c start) (w ++ b1 ++ s2 ++ b2 ++ s3 ++ r) Tok.IsNotNull r.
Proof.
  intros H1 Hb1 H2 Hb2 H3 Hr Hs1.
  eapply (reads_keyword "IS" Tok.Is); [|exact H1|exact Hs1|by apply ends_blank|];
    [by apply (bool_decide_unpack _); vm_compute|]. cbn [maybe_compound].
  assert (Hx : ends (b2 ++ s3 ++ r)) by (by apply ends_blank).
  assert (Hcn : caps "NOT") by (by repeat constructor).
  assert (Hcl : caps "NULL") by (by repeat constructor).
  eapply reads_gets.
  { intros p. apply not_true_iff_false. rewrite keyword_follows_word;
      [|done|apply Hb1|apply letters_word, H2|by eapply spells_nonempty|done].
    intros [_ Hn]. destruct H2 as [_ H2]. by rewrite H2 in Hn. }
  eapply reads_gets; [by apply (reads_second (A:=unit) "NOT" s2 b1 _ _ (mret tt) tt Hcn ltac:(done) H2 (proj2 Hb1) Hx eq_refl)|].
  apply reads_saved. intros q. eapply reads_bind.
  { eapply reads_skip_word; [exact H2|apply Hb1|by eapply spells_nonempty|]. by rewrite (spells_length _ _ H2). }
  destruct (reads_second "NULL" s3 b2 r _ (mret Tok.IsNotNull) Tok.IsNotNull Hcl ltac:(done) H3 (proj2 Hb2) Hr eq_refl)
    as [Hf Hskip].
  eapply reads_gets; [exact Hf|]. apply Hskip, reads_ret.
Qed.
End compound.

(** ** Strings, names and numbers *)

Ltac in_table := by apply (bool_decide_unpack _); vm_compute.

Section literals.
Context `{Unicode}.

Lemma reads_simple_escape e c acc s : (e, c) ∈ escapes -> reads (read_escape acc) (e :: s) (Some (acc ++ [c])) s.
Proof.
  unfold escapes. rewrite !elem_of_cons, elem_of_nil. intros Hin p.
  destruct_or! Hin; try done; injection Hin as -> ->; by eexists.
Qed.

Lemma reads_hex hex s : length hex = 4%nat -> reads (take_chars 4 []) (hex ++ s) hex s.
Proof. intros Hl p. destruct hex as [|h1 [|h2 [|h3 [|h4 []]]]]; try discriminate Hl. by eexists. Qed.

Lemma hexdigit_not_plus h : is_ascii_hexdigit h = true -> (h =? ch "+") = false.
Proof. unfold is_ascii_hexdigit, in_range. change (ch "+") with 43. lia. Qed.

Lemma reads_unicode_escape hex n c acc s :
  length hex = 4%nat -> Forall (fun h => is_ascii_hexdigit h = true) hex ->
  parse_digits 16 0 hex = Some n -> char_from_u32 n = Some c ->
  reads (read_escape acc) (ch "u" :: hex ++ s) (Some (acc ++ [c])) s.
Proof.
  intros Hl Hh Hn Hc. eapply reads_bind; [apply reads_advance|]. cbn -[read_unicode_escape].
  eapply reads_bind; [|apply reads_ret]. apply reads_pos. intros q.
  eapply reads_bind; [by apply reads_hex|].
  assert (Hr : from_str_radix u32_max 16 hex ≫= char_from_u32 = Some c).
  { unfold from_str_radix. destruct Hh as [|h hex Hh _]; [done|]. rewrite (hexdigit_not_plus h Hh), Hn.
    cbn [mbind option_bind]. unfold char_from_u32 in Hc. destruct (n <=? u32_max) eqn:E; [done|].
    unfold u32_max, in_range in *. case_match; [lia|done]. }
  rewrite Hr. apply reads_ret.
Qed.

Lemma reads_other_escape e acc s :
  e ∉ escapes.*1 -> e <> ch "u" -> reads (read_escape acc) (e :: s) (Some (acc ++ [92; e])) s.
Proof.
  intros Hin Hu. eapply reads_bind; [apply reads_advance|]. cbn [escapes fmap list_fmap fst] in Hin.
  rewrite !not_elem_of_cons in Hin. destruct Hin as (H1&H2&H3&H4&H5&H6&_).
  repeat (rewrite (proj2 (Z.eqb_neq e _)) by done). apply reads_ret.
Qed.

Lemma quote_not_backslash q : q = 39 \/ q = 34 -> (92 =? q) = false.
Proof. by intros [->| ->]. Qed.

(** One iteration of [read_string]. *)
#[local] Abbreviation string_step q start := (fun s : str =>
  c ← advance;
  match c with
  | None => stop ← gets pos; error ParseErrorKind.UnterminatedString start stop
  | Some c =>
      if c =? q then mret (inr s)
      else if c =? 92 then
        r ← read_escape s;
        match r with Some s' => mret (inl s') | None => mret (inr s) end
      else mret (inl (s ++ [c]))
  end).

(** The loop reads a body up to [x], wherever it stops there. *)
Lemma reads_body q start s v x r :
  q = 39 \/ q = 34 -> string_body q s v ->
  (forall acc, reads (loop (string_step q start) acc) x acc r) ->
  forall acc, reads (loop (string_step q start) acc) (s ++ x) (acc ++ v) r.
Proof.
  intros Hq Hs Hx.
  induction Hs as [|c s v Hcq Hc _ IH|e c s v Hin _ IH|hex n c s v Hl Hh Hn Hc _ IH|e s v Hin Hu _ IH]; intros acc.
  - rewrite app_nil_r. apply Hx.
  - eapply (reads_continue _ _ _ (acc ++ [c]) (s ++ x)); [|cbn; lia|].
    + eapply reads_bind; [apply reads_advance|]. cbn.
      rewrite (proj2 (Z.eqb_neq c q) Hcq), (proj2 (Z.eqb_neq c 92) Hc). apply reads_ret.
    + specialize (IH (acc ++ [c])). by rewrite <-app_assoc in IH.
  - eapply (reads_continue _ _ _ (acc ++ [c]) (s ++ x)); [|cbn; lia|].
    + eapply reads_bind; [apply reads_advance|]. cbv beta iota. rewrite (quote_not_backslash q Hq).
      eapply reads_bind; [by apply reads_simple_escape|apply reads_ret].
    + specialize (IH (acc ++ [c])). by rewrite <-app_assoc in IH.
  - cbn [app]. rewrite <-app_assoc.
    eapply (reads_continue _ _ _ (acc ++ [c]) (s ++ x)); [|cbn; rewrite !length_app; lia|].
    + eapply reads_bind; [apply reads_advance|]. cbv beta iota. rewrite (quote_not_backslash q Hq).
      eapply reads_bind; [by eapply reads_unicode_escape|apply reads_ret].
    + specialize (IH (acc ++ [c])). by rewrite <-app_assoc in IH.
  - eapply (reads_continue _ _ _ (acc ++ [92; e]) (s ++ x)); [|cbn; lia|].
    + eapply reads_bind; [apply reads_advance|]. cbv beta iota. rewrite (quote_not_backslash q Hq).
      eapply reads_bind; [by apply reads_other_escape|apply reads_ret].
    + specialize (IH (acc ++ [92; e])). by rewrite <-app_assoc in IH.
Qed.

Lemma reads_string q s v r : q = 39 \/ q = 34 -> string_body q s v -> reads (read_string q) (s ++ q :: r) v r.
Proof.
  intros Hq Hs. apply reads_pos. intros after. cbn zeta.
  apply (reads_body q (after - 1) s v (q :: r) r Hq Hs). intros acc. apply reads_break.
  eapply reads_bind; [apply reads_advance|]. cbv beta iota. rewrite Z.eqb_refl. apply reads_ret.
Qed.

(** A backslash at the end of the text ends the string. *)
Lemma reads_string_backslash q s v :
  q = 39 \/ q = 34 -> string_body q s v -> reads (read_string q) (s ++ [92]) v [].
Proof.
  intros Hq Hs. apply reads_pos. intros after. cbn zeta.
  apply (reads_body q (after - 1) s v [92] [] Hq Hs). intros acc. apply reads_break.
  eapply reads_bind; [apply reads_advance|]. cbv beta iota. rewrite (quote_not_backslash q Hq).
  apply (reads_bind _ _ _ None []); [intros p; by exists p|apply reads_ret].
Qed.

Lemma reads_backtick s r :
  Forall (fun c => c <> 10 /\ c <> ch "`") s -> reads read_backtick_ident (s ++ ch "`" :: r) s r.
Proof.
  intros Hs. apply reads_pos. intros after. cbn zeta. generalize (after - 1). intros start.
  match goal with |- reads (loop ?body _) _ _ _ =>
    enough (Hall : forall acc, reads (loop body acc) (s ++ ch "`" :: r) (acc ++ s) r) by apply (Hall []) end.
  induction Hs as [|c s [Hc1 Hc2] _ IH]; intros acc.
  - rewrite app_nil_r. apply reads_break. eapply reads_bind; [apply reads_advance|]. apply reads_ret.
  - eapply (reads_continue _ _ _ (acc ++ [c]) (s ++ ch "`" :: r)); [|cbn; lia|].
    + eapply reads_bind; [apply reads_advance|]. cbv beta iota.
      rewrite (proj2 (Z.eqb_neq c 10) Hc1), (proj2 (Z.eqb_neq c _) Hc2). apply reads_ret.
    + specialize (IH (acc ++ [c])). by rewrite <-app_assoc in IH.
Qed.

(** The end of a word is the end of a run of word characters of any kind. *)
Lemma ends_not (q : Z -> bool) r :
  (forall c, q c = true -> is_word_char c = true) -> ends r ->
  match r with c :: _ => q c = false | [] => True end.
Proof.
  intros Hq. destruct r as [|c r]; [done|]. cbn. intros Hc. destruct (q c) eqn:E; [|done].
  by rewrite (Hq c E) in Hc.
Qed.

Lemma ends_peek_is (q : Z -> bool) r p :
  (forall c, q c = true -> is_word_char c = true) -> ends r -> peek_is q (mkLexer r p) = false.
Proof. intros Hq Hr. pose proof (ends_not q r Hq Hr). by destruct r. Qed.

Lemma exponent_word c : (c =? ch "e") || (c =? ch "E") = true -> is_word_char c = true.
Proof.
  change (ch "e") with 101. change (ch "E") with 69. intros Hc. apply letter_word.
  unfold is_letter, is_ascii_upper, is_ascii_lower, in_range. lia.
Qed.

(** A decimal point that no digit follows is not a fraction. *)
Lemma reads_no_fraction acc r :
  match r with c :: d :: _ => (c =? ch ".") && is_ascii_digit d = false | _ => True end ->
  reads (read_fraction acc) r (false, acc) r.
Proof.
  intros Hr. eapply (reads_gets _ _ _ (match r with c :: _ => c =? ch "." | [] => false end)); [by destruct r|].
  destruct r as [|c r]; [apply reads_ret|]. destruct (c =? ch "."); [|apply reads_ret].
  eapply (reads_gets _ _ _ (head r)); [done|]. destruct r as [|d r]; [apply reads_ret|].
  cbn [head andb] in *. rewrite Hr. apply reads_ret.
Qed.

Lemma reads_push_next acc c s : reads (push_next acc) (c :: s) (acc ++ [c]) s.
Proof. intros p. by eexists. Qed.

Lemma reads_exponent acc x r :
  exponent x -> x <> [] -> ends r -> reads (read_exponent acc) (x ++ r) (acc ++ x) r.
Proof.
  intros Hx Hne Hr. destruct Hx as [|e sign ds He Hs Hd Hds]; [done|].
  assert (Hend : match r with c :: _ => is_ascii_digit c = false | [] => True end)
    by (apply ends_not; [apply digit_word|done]).
  cbn [app]. rewrite <-app_assoc. eapply reads_bind; [apply reads_push_next|].
  destruct Hs as [->|[k [-> Hk]]]; cbn [app].
  - eapply (reads_gets _ _ _ false).
    { intros p. destruct Hds as [|c ds Hc _]; [done|]. cbn. unfold is_ascii_digit, in_range in Hc.
      change (ch "+") with 43. change (ch "-") with 45. lia. }
    eapply reads_bind; [apply reads_ret|]. rewrite (cons_middle e acc ds), app_assoc.
    by apply reads_push_while.
  - eapply (reads_gets _ _ _ true); [intros p; by destruct Hk as [->| ->]|].
    eapply reads_bind; [apply reads_push_next|].
    replace (acc ++ e :: k :: ds) with (((acc ++ [e]) ++ [k]) ++ ds) by (by rewrite <-!app_assoc).
    by apply reads_push_while.
Qed.

(** The optional exponent and what is done with it. *)
Lemma reads_exponent_then {B} (k : bool -> str -> L B) acc x r b :
  exponent x -> ends r -> reads (k (bool_decide (x <> [])) (acc ++ x)) r b r ->
  reads (has ← gets peek_exponent; s ← (if (has : bool) then read_exponent acc else mret acc); k has s)
    (x ++ r) b r.
Proof.
  intros Hx Hr Hk. destruct (decide (x = [])) as [->|Hne].
  - rewrite bool_decide_false in Hk by (by intros []). rewrite app_nil_r in Hk. eapply reads_gets.
    { intros p. by apply ends_peek_is; [apply exponent_word|]. }
    eapply reads_bind; [apply reads_ret|exact Hk].
  - rewrite bool_decide_true in Hk by done. apply (reads_gets _ _ _ true).
    { intros p. destruct Hx as [|e sign ds He _ _ _]; [done|]. by destruct He as [->| ->]. }
    eapply reads_bind; [by apply reads_exponent|exact Hk].
Qed.

(** A number that has no radix prefix. *)
Definition decimal_number (start first : Z) : L Tok :=
  s ← push_while is_ascii_digit [first];
  fraction ← read_fraction s;
  let '(has_fraction, s) := fraction in
  has_exponent ← gets peek_exponent;
  s ← (if (has_exponent : bool) then read_exponent s else mret s);
  if has_fraction || has_exponent then number_or_error start (parse_f64 s) Tok.FloatLit
  else number_or_error start (from_str_radix i128_max 10 s) Tok.IntLit.

Lemma reads_number d x t r :
  match x with c :: _ => c ∉ bytes_of "xXoO" | [] => True end ->
  (forall start, reads (decimal_number start d) x t r) -> reads (read_number d) x t r.
Proof.
  intros Hx Hd. apply reads_pos. intros after. cbn zeta.
  apply (reads_gets _ _ _ (head x)); [done|].
  assert (Hp : forall k1 k2, k1 ∈ bytes_of "xXoO" -> k2 ∈ bytes_of "xXoO" ->
    (d =? ch "0") && match head x with Some c => (c =? k1) || (c =? k2) | None => false end = false).
  { intros k1 k2 H1 H2. apply andb_false_iff. right. destruct x as [|c x]; [done|]. cbn [head].
    apply orb_false_iff. split; apply Z.eqb_neq; by intros ->. }
  cbv beta. rewrite (Hp (ch "x") (ch "X")), (Hp (ch "o") (ch "O"))
    by (by apply (bool_decide_unpack _); vm_compute). apply Hd.
Qed.

Lemma ends_not_radix r : ends r -> match r with c :: _ => c ∉ bytes_of "xXoO" | [] => True end.
Proof.
  destruct r as [|c r]; [done|]. cbn [ends]. intros Hc Hin.
  change (bytes_of "xXoO") with [120; 88; 111; 79] in Hin. rewrite !elem_of_cons, elem_of_nil in Hin.
  rewrite letter_word in Hc; [done|]. by destruct_or! Hin; subst.
Qed.

Lemma digits_not_radix s x :
  Forall (fun c => is_ascii_digit c = true) s ->
  match x with c :: _ => c ∉ bytes_of "xXoO" | [] => True end ->
  match s ++ x with c :: _ => c ∉ bytes_of "xXoO" | [] => True end.
Proof.
  intros Hs Hx. destruct Hs as [|c s Hc _]; [done|]. cbn [app]. intros Hin.
  change (bytes_of "xXoO") with [120; 88; 111; 79] in Hin. rewrite !elem_of_cons, elem_of_nil in Hin.
  unfold is_ascii_digit, in_range in Hc. lia.
Qed.

Lemma from_radix_Some radix d s n :
  is_ascii_hexdigit d = true -> parse_digits radix 0 (d :: s) = Some n -> n <= i128_max ->
  from_str_radix i128_max radix (d :: s) = Some n.
Proof.
  intros Hd Hn Hm. unfold from_str_radix. rewrite hexdigit_not_plus by done. rewrite Hn.
  cbn [mbind option_bind]. by rewrite (proj2 (Z.leb_le n i128_max)).
Qed.

Lemma digit_hexdigit c : is_ascii_digit c = true -> is_ascii_hexdigit c = true.
Proof. unfold is_ascii_hexdigit, is_ascii_digit. by intros ->. Qed.

Lemma hexdigit_word c : is_ascii_hexdigit c = true -> is_word_char c = true.
Proof.
  intros Hc. destruct (is_ascii_digit c) eqn:Hd; [by apply digit_word|]. apply letter_word.
  unfold is_ascii_hexdigit, is_letter, is_ascii_digit, is_ascii_upper, is_ascii_lower, in_range in *. lia.
Qed.

Lemma octal_hexdigit c : is_octal_digit c = true -> is_ascii_hexdigit c = true.
Proof. unfold is_octal_digit, is_ascii_hexdigit, in_range. lia. Qed.

Lemma reads_decimal d s n r :
  Forall (fun c => is_ascii_digit c = true) (d :: s) -> parse_digits 10 0 (d :: s) = Some n ->
  n <= i128_max -> ends r -> continues (d :: s) r = false -> reads (read_number d) (s ++ r) (Tok.IntLit n) r.
Proof.
  intros Hd Hn Hm Hr Hcont. assert (Hall : forallb is_ascii_digit (d :: s) = true).
  { apply forallb_forall. intros c Hc%list_elem_of_In. rewrite Forall_forall in Hd. auto. }
  apply Forall_cons in Hd as [Hd Hs].
  apply reads_number; [apply digits_not_radix; [done|by apply ends_not_radix]|]. intros start.
  eapply reads_bind; [by apply reads_push_while; [|apply ends_not; [apply digit_word|]]|].
  eapply reads_bind; [apply reads_no_fraction|].
  { destruct r as [|c [|e r]]; [done..|]. unfold continues in Hcont. rewrite Hall in Hcont.
    destruct (c =? ch "."); [|done]. cbn [andb] in *. destruct (is_ascii_digit e); [|done].
    by rewrite orb_true_r in Hcont. }
  cbv beta iota. apply (reads_exponent_then _ _ []); [constructor|done|].
  rewrite bool_decide_false by (by intros []). rewrite app_nil_r. cbn [orb app].
  rewrite (from_radix_Some 10 d s n (digit_hexdigit d Hd) Hn Hm). apply reads_ret.
Qed.

(** Numbers with a radix prefix. *)
Lemma reads_hex_number k h s n r :
  k = ch "x" \/ k = ch "X" -> Forall (fun c => is_ascii_hexdigit c = true) (h :: s) ->
  parse_digits 16 0 (h :: s) = Some n -> n <= i128_max -> ends r ->
  reads (read_number (ch "0")) (k :: (h :: s) ++ r) (Tok.IntLit n) r.
Proof.
  intros Hk Hs Hn Hm Hr. apply reads_pos. intros after. cbn zeta.
  apply (reads_gets _ _ _ (Some k)); [done|]. pose proof Hs as [Hh _]%Forall_cons.
  pose proof (ends_not _ r hexdigit_word Hr) as Hend.
  pose proof (from_radix_Some 16 h s n Hh Hn Hm) as Hv.
  destruct Hk as [->| ->]; (eapply reads_bind; [apply reads_push_next|]; eapply reads_bind;
    [by apply reads_push_while|]; cbn [app drop]; rewrite Hv; apply reads_ret).
Qed.

Lemma reads_octal_number k h s n r :
  k = ch "o" \/ k = ch "O" -> Forall (fun c => is_octal_digit c = true) (h :: s) ->
  parse_digits 8 0 (h :: s) = Some n -> n <= i128_max -> ends r ->
  reads (read_number (ch "0")) (k :: (h :: s) ++ r) (Tok.IntLit n) r.
Proof.
  intros Hk Hs Hn Hm Hr. apply reads_pos. intros after. cbn zeta.
  apply (reads_gets _ _ _ (Some k)); [done|]. pose proof Hs as [Hh _]%Forall_cons.
  pose proof (ends_not _ r (fun c Hc => hexdigit_word c (octal_hexdigit c Hc)) Hr) as Hend.
  pose proof (from_radix_Some 8 h s n (octal_hexdigit h Hh) Hn Hm) as Hv.
  destruct Hk as [->| ->]; (eapply reads_bind; [apply reads_push_next|]; eapply reads_bind;
    [by apply reads_push_while|]; cbn [app drop]; rewrite Hv; apply reads_ret).
Qed.

Lemma reads_fraction acc f fs x :
  Forall (fun c => is_ascii_digit c = true) (f :: fs) ->
  match x with c :: _ => is_ascii_digit c = false | [] => True end ->
  reads (read_fraction acc) (ch "." :: (f :: fs) ++ x) (true, acc ++ ch "." :: f :: fs) x.
Proof.
  intros Hf Hx. pose proof Hf as [Hf1 _]%Forall_cons. apply (reads_gets _ _ _ true); [done|].
  apply (reads_gets _ _ _ (Some f)); [done|]. cbv beta iota. rewrite Hf1.
  eapply reads_bind; [apply reads_push_next|]. eapply reads_bind; [by apply reads_push_while|].
  rewrite <-app_assoc. apply reads_ret.
Qed.

(** An exponent is not a digit. *)
Lemma exponent_not_digit x r :
  exponent x -> ends r -> match x ++ r with c :: _ => is_ascii_digit c = false | [] => True end.
Proof.
  intros Hx Hr. destruct Hx as [|e sign ds He _ _ _]; [by apply ends_not; [apply digit_word|]|].
  by destruct He as [->| ->].
Qed.

Lemma exponent_not_radix x r :
  exponent x -> ends r -> match x ++ r with c :: _ => c ∉ bytes_of "xXoO" | [] => True end.
Proof.
  intros Hx Hr. destruct Hx as [|e sign ds He _ _ _]; [by apply ends_not_radix|].
  by destruct He as [->| ->]; apply (bool_decide_unpack _); vm_compute.
Qed.

Lemma reads_float_fraction d ds f fs x bits r :
  Forall (fun c => is_ascii_digit c = true) (d :: ds) -> Forall (fun c => is_ascii_digit c = true) (f :: fs) ->
  exponent x -> ends r -> parse_f64 ((d :: ds) ++ ch "." :: (f :: fs) ++ x) = Some bits ->
  reads (read_number d) (ds ++ ch "." :: (f :: fs) ++ x ++ r) (Tok.FloatLit bits) r.
Proof.
  intros Hd Hf Hx Hr Hv. apply Forall_cons in Hd as [_ Hds].
  apply reads_number; [apply digits_not_radix; [done|by apply (bool_decide_unpack _); vm_compute]|]. intros start.
  eapply reads_bind; [by apply reads_push_while|].
  eapply reads_bind; [by apply reads_fraction; [|apply exponent_not_digit]|].
  cbv beta iota. apply reads_exponent_then; [done..|]. cbn [orb].
  rewrite <-!app_assoc. cbn [app] in Hv |- *. rewrite Hv. apply reads_ret.
Qed.

Lemma reads_float_exponent d ds x bits r :
  Forall (fun c => is_ascii_digit c = true) (d :: ds) -> exponent x -> x <> [] -> ends r ->
  parse_f64 ((d :: ds) ++ x) = Some bits ->
  reads (read_number d) (ds ++ x ++ r) (Tok.FloatLit bits) r.
Proof.
  intros Hd Hx Hne Hr Hv. apply Forall_cons in Hd as [_ Hds].
  apply reads_number; [apply digits_not_radix; [done|by apply exponent_not_radix]|]. intros start.
  eapply reads_bind; [by apply reads_push_while; [|apply exponent_not_digit]|].
  eapply reads_bind; [apply reads_no_fraction|].
  { destruct Hx as [|e sign ds' He _ _ _]; [done|]. cbn [app].
    destruct He as [->| ->]; by destruct ((sign ++ ds') ++ r). }
  cbv beta iota. apply reads_exponent_then; [done..|]. rewrite bool_decide_true by done. cbn [orb].
  cbn [app] in Hv |- *. rewrite Hv. apply reads_ret.
Qed.

Lemma reads_float_leading f fs x bits r start :
  Forall (fun c => is_ascii_digit c = true) (f :: fs) -> exponent x -> ends r ->
  parse_f64 (ch "." :: (f :: fs) ++ x) = Some bits ->
  reads (read_operator (ch ".") start) ((f :: fs) ++ x ++ r) (Tok.FloatLit bits) r.
Proof.
  intros Hf Hx Hr Hv. pose proof Hf as [Hf1 _]%Forall_cons.
  apply (reads_gets _ _ _ (Some f)); [done|]. rewrite bool_decide_false.
  2: { intros [= ->]. done. }
  apply (reads_gets _ _ _ true); [done|]. eapply reads_bind; [by apply reads_push_while; [|apply exponent_not_digit]|].
  apply reads_exponent_then; [done..|]. rewrite <-app_assoc. cbn [app bytes_of] in Hv |- *.
  change (bytes_of ".") with [ch "."]. cbn [app]. rewrite Hv. apply reads_ret.
Qed.

Lemma reads_param c s r start :
  Forall (fun c => is_word_char c = true) (c :: s) ->
  forallb is_ascii_digit (c :: s) || (is_alphabetic c || (c =? ch "_")) = true -> ends r ->
  reads (read_parameter start) (c :: s ++ r) (Tok.Param (c :: s)) r.
Proof.
  intros Hs Hv Hr. eapply reads_bind; [by apply (reads_push_while _ [] (c :: s)); [|apply ends_word]|].
  cbn [app]. cbv zeta. rewrite <-negb_orb, Hv. apply reads_ret.
Qed.

(** ** Every token *)

Lemma reads_one_or_two k two one r :
  match r with c :: _ => c <> k | [] => True end -> reads (one_or_two k two one) r one r.
Proof.
  intros Hr. apply (reads_gets _ _ _ (head r)); [done|]. rewrite bool_decide_false; [apply reads_ret|].
  destruct r; [done|]. by intros [= ->].
Qed.

Lemma begins_refl s : begins s s = true.
Proof. induction s as [|c s IH]; [done|]. cbn. by rewrite Z.eqb_refl. Qed.

(** A character that a longer symbol would need is not there. *)
Lemma apart_symbol (name : string) t s c r :
  (name, t) ∈ symbols -> bytes_of name = s ++ [c] -> continues s r = false ->
  match r with d :: _ => d <> c | [] => True end.
Proof.
  intros Hin Hn Hc. destruct r as [|d r]; [done|]. intros ->. unfold continues in Hc.
  assert (He : existsb (fun e => begins (s ++ [c]) (bytes_of (fst e))) symbols = true).
  { apply existsb_exists. exists (name, t). split; [by apply list_elem_of_In|]. cbn [fst]. rewrite Hn.
    apply begins_refl. }
  rewrite He, orb_true_r in Hc. done.
Qed.

Lemma reads_symbol (name : string) t c w r start :
  (name, t) ∈ symbols -> bytes_of name = c :: w -> continues (bytes_of name) r = false ->
  reads (read_token c start) (w ++ r) t r.
Proof.
  intros Hin Hc Hr.
  assert (Hno : forall n' t' k, (n', t') ∈ symbols -> bytes_of n' = bytes_of name ++ [k] ->
    match r with d :: _ => d <> k | [] => True end) by (intros; by eapply apart_symbol).
  assert (Hpeek : forall n' t' k, (n', t') ∈ symbols -> bytes_of n' = bytes_of name ++ [k] ->
    bool_decide (head r = Some k) = false).
  { intros n' t' k Hn' Hk. specialize (Hno n' t' k Hn' Hk). apply bool_decide_eq_false. destruct r; [done|].
    by intros [= ->]. }
  unfold symbols in Hin.
  repeat (apply elem_of_cons in Hin as [Hin|Hin];
    [injection Hin as -> ->; injection Hc as <- <-|]); [..|by apply not_elem_of_nil in Hin].
  all: try (intros p; by eexists).
  - apply (reads_one_or_two (ch "=")), (Hno "+=" Tok.PlusEq); [in_table|done].
  - apply (reads_gets _ _ _ (head r)); [done|]. rewrite (Hpeek ".." Tok.DotDot) by (in_table || done).
    apply (reads_gets _ _ _ false); [|apply reads_ret]. intros p. destruct r as [|d r]; [done|].
    cbv [peek_is peek rest head]. destruct (is_ascii_digit d) eqn:Hd; [|done]. revert Hr. unfold continues.
    rewrite Hd. by rewrite !orb_true_r.
  - apply (reads_one_or_two (ch "~")), (Hno "=~" Tok.RegexMatch); [in_table|done].
  - apply (reads_gets _ _ _ (head r)); [done|]. rewrite (Hpeek "<=" Tok.Lte) by (in_table || done).
    rewrite (Hpeek "<>" Tok.Neq) by (in_table || done). rewrite (Hpeek "<-" Tok.LeftArrow) by (in_table || done).
    apply reads_ret.
  - apply (reads_one_or_two (ch "=")), (Hno ">=" Tok.Gte); [in_table|done].
  - apply (reads_gets _ _ _ (head r)); [done|]. rewrite (Hpeek "-[" Tok.RelOpen) by (in_table || done).
    rewrite (Hpeek "->" Tok.RightArrow) by (in_table || done). apply reads_ret.
Qed.
End literals.

Section tokens.
Context `{Unicode}.

Lemma settled_head c x : is_ascii_whitespace c = false -> c <> 47 -> settled (c :: x).
Proof.
  intros Hc Hn. split_and!; [done|..]; intros Ht; destruct x as [|d x]; try discriminate Ht;
    by injection Ht as ->.
Qed.

Lemma word_settled c x : is_word_char c = true -> settled (c :: x).
Proof.
  intros Hc. apply settled_head; [by apply word_not_space|]. intros ->. revert Hc.
  by rewrite not_word_char.
Qed.

Lemma apart_slash d r : continues (bytes_of "/") (d :: r) = false -> d <> 47 /\ d <> 42.
Proof.
  unfold continues. intros [[_ Hc]%orb_false_iff _]%orb_false_iff.
  change (((d =? 47) || (d =? 42)) = false) in Hc. lia.
Qed.

Lemma symbol_settled (name : string) t r :
  (name, t) ∈ symbols -> continues (bytes_of name) r = false -> settled (bytes_of name ++ r).
Proof.
  intros Hin Hr. unfold symbols in Hin.
  repeat (apply elem_of_cons in Hin as [Hin|Hin];
    [injection Hin as -> ->; first [by apply settled_head|
     destruct r as [|d r]; [by split_and!|]; apply apart_slash in Hr as [? ?];
     split_and!; [done|by intros [= ->]..]]|]).
  by apply not_elem_of_nil in Hin.
Qed.

Lemma spells_cons kw s : spells_word kw s -> bytes_of kw <> [] -> exists c w, s = c :: w /\ is_letter c = true.
Proof.
  intros Hs Hne. pose proof (spells_nonempty _ _ Hs Hne). destruct Hs as [Hs _].
  destruct Hs as [|c w Hc _]; [done|]. by exists c, w.
Qed.

Ltac caps_tac := by repeat constructor.

(** The second word of a compound ends where the compound does. *)
Ltac word_end w H :=
  match goal with Hr : continues ?s _ = false |- _ =>
    eapply (apart_word _ w); [by eapply spells_nonempty|apply letters_word, H|];
    rewrite app_assoc in Hr; exact Hr
  end.

Lemma word_start c : is_alphabetic c || (c =? ch "_") = true -> is_word_char c = true.
Proof.
  intros Hc. unfold is_word_char, is_alphanumeric.
  apply orb_true_iff in Hc as [->| ->]; [done|apply orb_true_r].
Qed.

Lemma digits_word s :
  Forall (fun c => is_ascii_digit c = true) s -> Forall (fun c => is_word_char c = true) s.
Proof. intros Hs. eapply Forall_impl; [exact Hs|]. apply digit_word. Qed.

Lemma read_token_digit d start : is_ascii_digit d = true -> read_token d start = read_number d.
Proof.
  intros Hd. unfold is_ascii_digit, in_range in Hd.
  assert (Hcase : d = 48 \/ d = 49 \/ d = 50 \/ d = 51 \/ d = 52 \/ d = 53 \/ d = 54 \/ d = 55 \/ d = 56 \/ d = 57) by lia.
  by repeat (destruct Hcase as [->|Hcase]; [reflexivity|]); subst d.
Qed.

(** A floating-point number ends in a digit. *)
Lemma exponent_ends s f fs x r :
  Forall (fun c => is_ascii_digit c = true) (f :: fs) -> exponent x ->
  continues (s ++ (f :: fs) ++ x) r = false -> ends r.
Proof.
  intros Hf Hx. destruct Hx as [|e sign ds _ _ Hne Hds].
  - rewrite app_nil_r. by apply apart_word; [|apply digits_word].
  - replace (s ++ (f :: fs) ++ e :: sign ++ ds) with ((s ++ (f :: fs) ++ e :: sign) ++ ds)
      by (by rewrite <-!app_assoc). by apply apart_word; [|apply digits_word].
Qed.

Lemma float_ends s r : float s -> continues s r = false -> ends r.
Proof.
  destruct 1 as [d ds f fs x _ Hf Hx|d ds x Hd Hx _|f fs x Hf Hx].
  - rewrite cons_middle, app_assoc. by apply exponent_ends.
  - by apply (exponent_ends []).
  - by apply (exponent_ends [ch "."]).
Qed.

(** Every lexeme is read as its token. *)
Lemma reads_lexeme s t r toks :
  lexeme s t -> continues s r = false -> spelled r toks -> fuses t toks = false ->
  exists c w, s = c :: w /\ settled (s ++ r) /\ forall start, reads (read_token c start) (w ++ r) t r.
Proof.
  intros Hlex Hr Hsp Hfu. revert Hfu.
  destruct Hlex as [s t Hin|kw t s Hin Hs|s1 b s2 H1 Hb H2|s1 b s2 H1 Hb H2|s1 b1 s2 b2 s3 H1 Hb1 H2 Hb2 H3
    |s1 b s2 H1 Hb H2|s1 b s2 H1 Hb H2|c s Hc0 Hc Hs Hk|s Hs|q s v Hq Hs|d s n Hd Hn Hm
    |k h s n Hk Hh Hn Hm|k h s n Hk Hh Hn Hm|s bits Hf Hv|c s Hs Hn]; intros Hfu.
  - assert (Hne : exists c w, bytes_of s = c :: w).
    { assert (Hall : Forall (fun e => exists c w, bytes_of (fst e) = c :: w) symbols)
        by (by repeat (constructor; [by eexists _, _|])).
      rewrite Forall_forall in Hall. by apply (Hall (s, t)). }
    destruct Hne as (c&w&Hcw). exists c, w. split; [done|]. split; [by eapply symbol_settled|].
    intros start. by eapply reads_symbol.
  - assert (Hne : bytes_of kw <> []).
    { assert (Hall : Forall (fun e => bytes_of (fst e) <> []) keyword_table) by (by repeat constructor).
      rewrite Forall_forall in Hall. by apply (Hall (kw, t)). }
    destruct (spells_cons _ _ Hs Hne) as (c&w&->&Hc). exists c, w. split; [done|].
    split; [by apply word_settled, letter_word|]. intros start.
    eapply reads_keyword; [exact Hin|exact Hs|done| |by eapply reads_compound].
    by apply (apart_word [] (c :: w)); [|apply letters_word, Hs|].
  - destruct (spells_cons _ _ H1) as (c&w&->&Hc); [done|]. exists c, (w ++ b ++ s2). split; [done|].
    split; [by apply word_settled, letter_word|]. intros start. rewrite <-!app_assoc.
    eapply (reads_pair "NOT" Tok.Not "IN"); [in_table|exact H1|done|exact H2|caps_tac|done|done|word_end s2 H2| |done].
    intros x Hf Hx. eapply (reads_gets _ _ _ true); [exact Hf|exact Hx].
  - destruct (spells_cons _ _ H1) as (c&w&->&Hc); [done|]. exists c, (w ++ b ++ s2). split; [done|].
    split; [by apply word_settled, letter_word|]. intros start. rewrite <-!app_assoc.
    eapply (reads_pair "IS" Tok.Is "NULL"); [in_table|exact H1|done|exact H2|caps_tac|done|done|word_end s2 H2| |done].
    intros x Hf Hx. eapply (reads_gets _ _ _ true); [exact Hf|exact Hx].
  - destruct (spells_cons _ _ H1) as (c&w&->&Hc); [done|]. exists c, (w ++ b1 ++ s2 ++ b2 ++ s3).
    split; [done|]. split; [by apply word_settled, letter_word|]. intros start. rewrite <-!app_assoc.
    eapply reads_is_not_null; [done..| |done].
    apply (apart_word ((c :: w) ++ b1 ++ s2 ++ b2) s3); [by eapply spells_nonempty|apply letters_word, H3|].
    by rewrite <-!app_assoc.
  - destruct (spells_cons _ _ H1) as (c&w&->&Hc); [done|]. exists c, (w ++ b ++ s2). split; [done|].
    split; [by apply word_settled, letter_word|]. intros start. rewrite <-!app_assoc.
    eapply (reads_pair "STARTS" Tok.Starts "WITH"); [in_table|exact H1|done|exact H2|caps_tac|done|done|word_end s2 H2| |done].
    intros x Hf Hx. eapply (reads_gets _ _ _ true); [exact Hf|exact Hx].
  - destruct (spells_cons _ _ H1) as (c&w&->&Hc); [done|]. exists c, (w ++ b ++ s2). split; [done|].
    split; [by apply word_settled, letter_word|]. intros start. rewrite <-!app_assoc.
    eapply (reads_pair "ENDS" Tok.Ends "WITH"); [in_table|exact H1|done|exact H2|caps_tac|done|done|word_end s2 H2| |done].
    intros x Hf Hx. eapply (reads_gets _ _ _ true); [exact Hf|exact Hx].
  - exists c, s. split; [done|]. split.
    + by apply word_settled, word_start.
    + intros start. rewrite read_token_word by done.
      assert (Hw : Forall (fun c => is_word_char c = true) (c :: s)) by (constructor; [by apply word_start|done]).
      eapply reads_bind; [by apply reads_push_while; [|apply (apart_word [] (c :: s))]|]. cbn [app].
      rewrite Hk. apply reads_ret.
  - exists (ch "`"), (s ++ [ch "`"]). split; [done|]. split; [by apply settled_head|].
    intros start. rewrite <-app_assoc. cbn [app].
    eapply (reads_bind read_backtick_ident); [by apply reads_backtick|apply reads_ret].
  - exists q, (s ++ [q]). split; [done|].
    split; [by destruct Hq as [->| ->]; apply settled_head|].
    intros start. rewrite <-app_assoc. cbn [app].
    assert (Hrt : read_token q start = (s ← read_string q; mret (Tok.StrLit s))) by (by destruct Hq as [->| ->]).
    rewrite Hrt. eapply reads_bind; [by apply reads_string|apply reads_ret].
  - exists d, s. split; [done|]. pose proof Hd as [Hd1 _]%Forall_cons.
    split; [by apply word_settled, digit_word|]. intros start.
    rewrite read_token_digit by done. apply reads_decimal; try done.
    apply (apart_word [] (d :: s)); [done|by apply digits_word|done].
  - exists (ch "0"), (k :: h :: s). split; [done|]. split; [by apply settled_head|]. intros start.
    apply reads_hex_number; try done.
    apply (apart_word [ch "0"; k] (h :: s)); [done|eapply Forall_impl; [exact Hh|apply hexdigit_word]|done].
  - exists (ch "0"), (k :: h :: s). split; [done|]. split; [by apply settled_head|]. intros start.
    apply reads_octal_number; try done. apply (apart_word [ch "0"; k] (h :: s)); [done| |done].
    eapply Forall_impl; [exact Hh|]. intros c Hc. by apply hexdigit_word, octal_hexdigit.
  - pose proof (float_ends s r Hf Hr) as He. destruct Hf as [d ds f fs x Hd Hfs Hx|d ds x Hd Hx Hne|f fs x Hfs Hx].
    + exists d, (ds ++ ch "." :: (f :: fs) ++ x). split; [done|]. pose proof Hd as [Hd1 _]%Forall_cons.
      split; [by apply word_settled, digit_word|]. intros start. rewrite read_token_digit by done.
      rewrite <-app_assoc. cbn [app]. rewrite <-app_assoc. by apply reads_float_fraction.
    + exists d, (ds ++ x). split; [done|]. pose proof Hd as [Hd1 _]%Forall_cons.
      split; [by apply word_settled, digit_word|]. intros start. rewrite read_token_digit by done.
      rewrite <-app_assoc. by apply reads_float_exponent.
    + exists (ch "."), ((f :: fs) ++ x). split; [done|]. split; [by apply settled_head|]. intros start.
      rewrite <-app_assoc. by apply (reads_float_leading f fs x bits r start).
  - exists (ch "$"), (c :: s). split; [done|]. split; [by apply settled_head|].
    intros start. apply (reads_param c s r start); try done.
    by apply (apart_word [ch "$"] (c :: s)).
Qed.

(** One token of a spelled text. *)
Lemma next_spelled g s t r toks p :
  gap g -> lexeme s t -> continues s r = false -> spelled r toks -> fuses t toks = false ->
  exists sp p', next (mkLexer (g ++ s ++ r) p) = Some (Ok (Some sp, mkLexer r p')) /\ tk sp = t.
Proof.
  intros Hg Hlex Hr Hsp Hfu. destruct (reads_lexeme s t r toks Hlex Hr Hsp Hfu) as (c&w&->&Hset&Htok).
  destruct (reads_gap g ((c :: w) ++ r) Hg Hset p) as [p1 H1].
  destruct (Htok p1 (p1 + len_utf8 c)) as [p2 H2].
  exists (mkSpanned p1 t p2), p2. split; [|done].
  unfold next. rewrite (bind_run _ _ _ _ _ H1). cbv beta.
  etransitivity; [apply (bind_run (gets pos) _ (mkLexer ((c :: w) ++ r) p1) p1 _ eq_refl)|].
  etransitivity; [apply (bind_run advance _ (mkLexer ((c :: w) ++ r) p1) (Some c) _ eq_refl)|].
  etransitivity; [apply (bind_run _ _ _ _ _ H2)|]. done.
Qed.

Lemma next_end g p : gap g -> exists p', next (mkLexer g p) = Some (Ok (None, mkLexer [] p')).
Proof.
  intros Hg. destruct (reads_gap g [] Hg) with (p := p) as [p1 H1]; [by split_and!|].
  rewrite app_nil_r in H1. exists p1. unfold next. by rewrite (bind_run _ _ _ _ _ H1).
Qed.

Lemma collect_spelled text toks : spelled text toks -> forall acc p,
  exists sps lx, loop (fun acc =>
    t ← next;
    match t with Some t => mret (inl (acc ++ [t])) | None => mret (inr acc) end) acc (mkLexer text p) =
    Some (Ok (acc ++ sps, lx)) /\ tk <$> sps = toks.
Proof.
  induction 1 as [g Hg|g s r t toks Hg Hlex Hr Hsp IH Hfu]; intros acc p.
  - destruct (next_end g p Hg) as [p' Hn]. exists [], (mkLexer [] p'). split; [|done].
    unfold loop. rewrite app_nil_r. apply iter_break; [|lia]. by rewrite (bind_run _ _ _ _ _ Hn).
  - destruct (next_spelled g s t r toks p Hg Hlex Hr Hsp Hfu) as (sp&p'&Hn&Ht).
    destruct (IH (acc ++ [sp]) p') as (sps&lx&Hl&Htk). exists (sp :: sps), lx.
    split; [|cbn; by rewrite Ht, Htk]. unfold loop in *.
    rewrite (iter_continue _ _ _ _ (acc ++ [sp]) (mkLexer r p')) by (by rewrite (bind_run _ _ _ _ _ Hn)).
    rewrite <-app_assoc in Hl. apply (iter_fuel _ _ _ _ _ _ Hl).
    destruct (reads_lexeme s t r toks Hlex Hr Hsp Hfu) as (c&w&->&_).
    cbv [remaining Lexer_remaining rest]. rewrite !length_app. cbn. lia.
Qed.

Lemma tokenize_spelled (text : str) (toks : list Tok) :
  spelled text toks -> exists sps, tokenize text = Some (Ok sps) /\ tk <$> sps = toks.
Proof.
  intros Hsp. destruct (collect_spelled text toks Hsp [] 0) as (sps&lx&Hc&Ht).
  exists sps. split; [|done]. unfold tokenize, collect. unfold new. by rewrite Hc.
Qed.

(** C23 The lexer reads the lexical grammar: a text made of lexemes, adjacent where the text
    after one does not continue it and with white space or closed comments between them
    otherwise, is tokenized to exactly the tokens they spell.  Keywords are recognised in any
    case of the ASCII letters, two- and three-word operators across any white space, strings
    with all their escapes, identifiers over the whole alphabet of letters, decimal,
    hexadecimal and octal integers, and floating-point numbers. *)
Theorem tokenize_complete (text : str) (toks : list Tok) :
  spelled text toks -> exists sps, tokenize text = Some (Ok sps) /\ tk <$> sps = toks.
Proof. apply tokenize_spelled. Qed.

(** A string literal that is not closed but ends in a backslash at the end of the text is
    accepted, with the characters read so far as its value. *)
Theorem trailing_backslash_accepted (q : Z) (s v : str) :
  q = 39 \/ q = 34 -> string_body q s v ->
  exists sps, tokenize (q :: s ++ [92]) = Some (Ok sps) /\ tk <$> sps = [Tok.StrLit v].
Proof.
  intros Hq Hs. unfold tokenize, collect, new, loop.
  assert (Hset : settled (q :: s ++ [92])) by (by destruct Hq as [->| ->]; apply settled_head).
  destruct (reads_settled _ Hset 0) as [p1 H1].
  destruct (reads_string_backslash q s v Hq Hs (p1 + len_utf8 q)) as [p2 H2].
  assert (Hn : next (mkLexer (q :: s ++ [92]) 0) = Some (Ok (Some (mkSpanned p1 (Tok.StrLit v) p2), mkLexer [] p2))).
  { unfold next. rewrite (bind_run _ _ _ _ _ H1). cbv beta.
    etransitivity; [apply (bind_run (gets pos) _ (mkLexer (q :: s ++ [92]) p1) p1 _ eq_refl)|].
    etransitivity; [apply (bind_run advance _ (mkLexer (q :: s ++ [92]) p1) (Some q) _ eq_refl)|].
    assert (Hrt : forall start, read_token q start = (s ← read_string q; mret (Tok.StrLit s)))
      by (by destruct Hq as [->| ->]).
    cbv beta iota. rewrite Hrt. etransitivity; [eapply bind_run; etransitivity; [apply (bind_run _ _ _ _ _ H2)|reflexivity]|].
    done. }
  destruct (next_end [] p2 gap_nil) as [p3 Hend].
  rewrite (iter_continue _ _ _ _ [mkSpanned p1 (Tok.StrLit v) p2] (mkLexer [] p2)) by (by rewrite (bind_run _ _ _ _ _ Hn)).
  rewrite (iter_break _ _ _ _ [mkSpanned p1 (Tok.StrLit v) p2] (mkLexer [] p3));
    [by eexists|by rewrite (bind_run _ _ _ _ _ Hend)|].
  cbv [remaining Lexer_remaining rest]. cbn. lia.
Qed.
End tokens.

Lemma trailing_backslash_accepted_witness :
  exists sps, @tokenize AsciiOnly (39 :: bytes_of "abc" ++ [92]) = Some (Ok sps) /\
    tk <$> sps = [Tok.StrLit (bytes_of "abc")].
Proof. apply (@trailing_backslash_accepted AsciiOnly); [by left|by repeat constructor]. Defined.

(** [\u] takes the next four characters for a number, so a sign is accepted in place of the
    first digit. *)
Example unicode_escape_sign :
  option_map (fun r => match r with Ok sps => tk <$> sps | Err _ => [] end)
    (@tokenize AsciiOnly (39 :: 92 :: bytes_of "u+041" ++ [39])) = Some [Tok.StrLit (bytes_of "A")].
Proof. vm_compute. reflexivity. Qed.

(** [match/* any */(`n`.x)Is  noT Null<-$p 'it\'s'+0x2A*1.5e1] *)
Definition sample_text : str :=
  bytes_of "match" ++ (bytes_of "/*" ++ bytes_of " any " ++ bytes_of "*/") ++ bytes_of "(" ++
  (ch "`" :: bytes_of "n" ++ [ch "`"]) ++ bytes_of "." ++ bytes_of "x" ++ bytes_of ")" ++
  (bytes_of "Is" ++ [32; 9] ++ bytes_of "noT" ++ [10] ++ bytes_of "Null") ++ bytes_of "<-" ++
  (ch "$" :: bytes_of "p") ++ [32] ++ (39 :: (bytes_of "it" ++ 92 :: 39 :: bytes_of "s") ++ [39]) ++
  bytes_of "+" ++ bytes_of "0x2A" ++ bytes_of "*" ++ bytes_of "1.5e1".

Lemma gap_any : gap (bytes_of "/*" ++ bytes_of " any " ++ bytes_of "*/").
Proof.
  apply (gap_block (bytes_of " any ") []); [|constructor]. intros a b Hab.
  do 5 (destruct a as [|? a]; [discriminate Hab|injection Hab as <- Hab]).
  destruct a as [|? a]; [by injection Hab as <-|]. injection Hab as <- Hab.
  destruct a as [|? a]; [discriminate Hab|]. injection Hab as _ Hab. by destruct a.
Qed.

(** A spelling that the next one directly follows. *)
Lemma spelled_next `{Unicode} s r t toks :
  lexeme s t -> continues s r = false -> spelled r toks -> fuses t toks = false ->
  spelled (s ++ r) (t :: toks).
Proof. apply (spelled_cons []). constructor. Qed.

Lemma letters_spell kw s :
  forallb is_letter s = true -> to_ascii_uppercase <$> s = bytes_of kw -> spells_word kw s.
Proof.
  intros Hs Hu. split; [|done]. apply Forall_forall. intros c Hc. rewrite forallb_forall in Hs.
  by apply Hs, list_elem_of_In.
Qed.

Lemma tokenize_complete_witness :
  exists sps, @tokenize AsciiOnly sample_text = Some (Ok sps) /\
    tk <$> sps = [Tok.Match; Tok.LParen; Tok.Ident (bytes_of "n"); Tok.Dot; Tok.Ident (bytes_of "x"); Tok.RParen;
                  Tok.IsNotNull; Tok.LeftArrow; Tok.Param (bytes_of "p"); Tok.StrLit (bytes_of "it's");
                  Tok.Plus; Tok.IntLit 42; Tok.Star; Tok.FloatLit 4624633867356078080].
Proof.
  apply (@tokenize_complete AsciiOnly).
  assert (Hsym : forall s t, (s, t) ∈ symbols -> @lexeme AsciiOnly (bytes_of s) t) by apply lex_symbol.
  apply spelled_next; [|reflexivity| |reflexivity].
  { apply (lex_keyword "MATCH"); [by left|by apply letters_spell]. }
  eapply (spelled_cons (bytes_of "/*" ++ bytes_of " any " ++ bytes_of "*/") (bytes_of "("));
    [apply gap_any|apply Hsym; in_table|reflexivity| |reflexivity].
  apply (spelled_next (ch "`" :: bytes_of "n" ++ [ch "`"])); [by repeat constructor|reflexivity| |reflexivity].
  apply spelled_next; [apply Hsym; in_table|reflexivity| |reflexivity].
  apply spelled_next; [by repeat constructor|reflexivity| |reflexivity].
  apply spelled_next; [apply Hsym; in_table|reflexivity| |reflexivity].
  apply (spelled_next (bytes_of "Is" ++ [32; 9] ++ bytes_of "noT" ++ [10] ++ bytes_of "Null"));
    [|reflexivity| |reflexivity].
  { by apply lex_is_not_null; [apply letters_spell|repeat constructor|apply letters_spell|repeat constructor
      |apply letters_spell]. }
  apply spelled_next; [apply Hsym; in_table|reflexivity| |reflexivity].
  apply (spelled_next (ch "$" :: bytes_of "p")); [by repeat constructor|reflexivity| |reflexivity].
  apply (spelled_cons [32] (39 :: (bytes_of "it" ++ 92 :: 39 :: bytes_of "s") ++ [39]));
    [by repeat constructor| |reflexivity| |reflexivity].
  { apply lex_string; [by left|]. do 2 (constructor; [done|done|]). apply body_escape; [|by repeat constructor].
    in_table. }
  apply spelled_next; [apply Hsym; in_table|reflexivity| |reflexivity].
  apply spelled_next; [|reflexivity| |reflexivity].
  { by apply (lex_hex (ch "x") (ch "2") (bytes_of "A")); [left|repeat constructor|vm_compute|vm_compute]. }
  apply spelled_next; [apply Hsym; in_table|reflexivity| |reflexivity].
  rewrite <-(app_nil_r (bytes_of "1.5e1")). apply spelled_next; [|reflexivity|do 2 constructor|reflexivity].
  apply lex_float; [|by vm_compute]. apply (float_fraction (ch "1") [] (ch "5") [] (bytes_of "e1"));
    [by repeat constructor..|]. by apply (exponent_some (ch "e") [] (bytes_of "1")); [left|left| |repeat constructor].
Defined.
