(* ===== verification/RoundTrip.v ===== *)
(** * RoundTrip: the lexer and the parser together.

    A text that spells [RETURN] and an expression of the operator grammar is parsed to the
    query whose only clause returns the tree of that expression. *)

From stdpp Require Import base numbers list strings.
From Stdlib Require Import ZArith Lia.
From S2P Require Import Prelude Text Ast Scan Lexer TokenStream ParsePattern ParseExpr.
From S2P Require Import ParseClause ParseQuery Grammar Lexical.

#[local] Open Scope list_scope.
#[local] Open Scope Z_scope.

(** The projection that [RETURN e] stands for, positions and column names aside. *)
Definition returns_only (e : Expr) (q : AstQuery Expr) : Prop :=
  exists items span, aq_clauses q = [AstClause.Return (mkReturnClause false items None None None span)] /\
    map (fun i => (erase (ri_expr i), ri_alias i)) items = [(e, None)].

Section clause.
Context (self : Rec).

Lemma run_not_after tok l ts (Q : option Expr -> TokenStream -> Prop) F :
  cur l ts -> head l <> Some tok -> Q None ts -> wp (opt_expr_after self tok) ts Q F.
Proof.
  intros Hc Hne HQ. apply wp_bind, wp_gets. rewrite (cur_at _ _ _ Hc), bool_decide_false by done.
  by apply wp_ret.
Qed.

Lemma stops_nil t : stops t [].
Proof. by split_and!. Qed.

(** One item without an alias, at the end of the query. *)
Lemma run_return_item t ts :
  reads_term self t -> cur (print t) ts ->
  wp (parse_one_return_item self) ts
    (fun i ts' => erase (ri_expr i) = sem t /\ ri_alias i = None /\ cur [] ts') (fun _ => False).
Proof.
  intros Ht Hcur. apply wp_bind, wp_gets, wp_bind, wp_gets. rewrite (cur_at _ _ _ Hcur).
  destruct (print_first t) as (c&l&El&Hc).
  rewrite bool_decide_false by (rewrite El; intros [= ->]; discriminate Hc).
  apply wp_bind. eapply wp_mono; [apply (Ht 0 []);
    [apply left_edge_pos|apply stops_nil|done|by rewrite app_nil_r]| |done].
  intros e ts1 [He Hc1]. apply wp_bind, wp_gets, wp_bind, wp_bind.
  apply (run_eat_if_not _ [] _ _ _ Hc1); [done|]. apply wp_ret. by apply wp_spanned.
Qed.

Lemma run_return t ts :
  reads_term self t -> cur (Tok.Return :: print t) ts ->
  wp (parse_return_clause self) ts
    (fun c ts' => exists items span, c = mkReturnClause false items None None None span /\
       map (fun i => (erase (ri_expr i), ri_alias i)) items = [(sem t, None)] /\ cur [] ts')
    (fun _ => False).
Proof.
  intros Ht Hcur. apply wp_bind, wp_gets, wp_bind, (run_eat _ _ _ _ _ Hcur). intros r ts1 Hc1.
  destruct (print_first t) as (c&l&El&Hc).
  apply wp_bind, (run_eat_if_not _ _ _ _ _ Hc1); [rewrite El; by destruct c|].
  apply wp_bind, wp_bind. eapply wp_mono; [by apply (run_return_item t)| |done].
  intros i ts2 (Hi&Ha&Hc2). apply wp_loop_step, wp_bind, (run_eat_if_not _ [] _ _ _ Hc2); [done|].
  apply wp_ret, wp_bind, wp_bind, wp_gets. rewrite (cur_at _ _ _ Hc2). apply wp_ret.
  apply wp_bind, (run_not_after _ [] _ _ _ Hc2); [done|].
  apply wp_bind, (run_not_after _ [] _ _ _ Hc2); [done|]. apply wp_spanned. intros span.
  exists [i], span. split_and!; [done|cbn; by rewrite Hi, Ha|done].
Qed.
End clause.

Lemma run_query self t ts :
  reads_term self t -> cur (Tok.Return :: print t) ts ->
  wp (parse_query_until self false) ts (fun q ts' => returns_only (sem t) q /\ cur [] ts') (fun _ => False).
Proof.
  intros Ht Hcur. apply wp_bind, wp_gets, wp_bind, wp_loop_step, wp_bind, wp_gets.
  rewrite (cur_peek _ _ Hcur). cbn [head andb]. apply wp_bind, wp_bind.
  eapply wp_mono; [by apply (run_return self t)| |done]. intros c ts1 (items&span&->&Hi&Hc1).
  apply wp_ret, wp_ret. split; [by rewrite (cur_remaining _ _ Hc1), (cur_remaining _ _ Hcur); cbn; lia|].
  apply wp_loop_step, wp_bind, wp_gets. rewrite (cur_peek _ _ Hc1). cbn [head].
  apply wp_ret, wp_spanned. intros qspan. split; [|done]. by exists items, span.
Qed.

(** C21 From text to tree: when a text spells ([spelled]) [RETURN] followed by the tokens of an
    expression in [canon], [parse] accepts it and its only clause returns exactly the tree of
    the expression.  Spelling is in any case of the ASCII letters, with any string escapes,
    tokens adjacent where the text after one does not continue it ([a<-1] spells an arrow, not
    a comparison) and with any white space and closed comments between them otherwise.
    [canon] is the operator grammar with the parentheses the binding powers require, integers
    in range, and without three forms that read as something else: an operand that ends in
    [(x)] before [-], a list that starts with [x IN], unary minus on an integer literal. *)
Theorem parse_text_complete `{Unicode} (text : str) (t : Surf) :
  canon t = true -> spelled text (Tok.Return :: print t) ->
  exists q, parse text = Some (Ok q) /\ returns_only (sem t) q.
Proof.
  intros Hc Hsp. apply tokenize_spelled in Hsp as (sps&Htok&Htk).
  set (ts := mkTokenStream sps text None). assert (Hcur : cur (Tok.Return :: print t) ts) by (by split).
  assert (Hread : reads_term (knot (S (remaining ts))) t).
  { apply complete_reads, term_complete; [done|]. rewrite (cur_remaining _ _ Hcur). cbn. lia. }
  assert (Hw : wp parse_query ts (fun q _ => returns_only (sem t) q) (fun _ => False)).
  { apply wp_bind. eapply (wp_mono _ _ (fun q ts' => returns_only (sem t) q /\ cur [] ts') _ (fun _ => False)); [| |done].
    - exact (run_query _ t ts Hread Hcur).
    - intros q ts' [Hq [_ Hu]]. unfold wp, finish_supported. by rewrite Hu. }
  unfold parse, TokenStream.new. rewrite Htok. fold ts. unfold wp in Hw.
  destruct (parse_query ts) as [[[q ts']|e]|]; [|done..]. by exists q.
Qed.

(** [ReTurn a+1.5<>0x2A] *)
Lemma parse_text_complete_witness :
  exists q, @parse AsciiOnly (bytes_of "ReTurn"%string ++ [32] ++ bytes_of "a"%string ++ bytes_of "+"%string ++
      bytes_of "1.5"%string ++ bytes_of "<>"%string ++ bytes_of "0x2A"%string) = Some (Ok q) /\
    returns_only (sem (SCmp InfixOp.Neq
      (SBin InfixOp.Add (SVar (bytes_of "a"%string)) (SFloat 4609434218613702656)) (SInt 42))) q.
Proof.
  apply (@parse_text_complete AsciiOnly); [reflexivity|].
  apply spelled_next; [|reflexivity| |reflexivity].
  { apply (lex_keyword "RETURN"%string); [in_table|by apply letters_spell]. }
  apply (spelled_cons [32]); [by repeat constructor|by repeat constructor|reflexivity| |reflexivity].
  apply spelled_next; [apply lex_symbol; in_table|reflexivity| |reflexivity].
  apply spelled_next; [|reflexivity| |reflexivity].
  { apply lex_float; [|by vm_compute]. by apply (float_fraction 49 [] 53 [] []); repeat constructor. }
  apply spelled_next; [apply lex_symbol; in_table|reflexivity| |reflexivity].
  rewrite <-(app_nil_r (bytes_of "0x2A"%string)). apply spelled_next; [|reflexivity|do 2 constructor|reflexivity].
  by apply (lex_hex 120 50 (bytes_of "A"%string)); [left|repeat constructor|vm_compute|vm_compute].
Defined.
