(* ===== verification/Control.v ===== *)
(** * Per-invocation controls of an algorithm: [AlgorithmControl] of
    [crates/graphforge-exec/src/algorithm_dispatch.rs].

    A handler runs with limits and polls a cancellation flag that another thread may set at any
    time: the answers of the successive polls are a function [cancelled] of the poll's number.  A
    run may panic ([None]), fail with an [AlgorithmError] or return.

    [consume_states] is shared by the workers of one invocation: its compare-and-exchange loop is
    a step relation over the shared counter, each worker between its load and its exchange. *)

From stdpp Require Import base list gmap sets relations strings.
From Stdlib Require Import ZArith Lia.
From S2P Require Import Prelude.

(** The failures this part of the code produces. *)
Inductive AlgorithmError :=
| Cancelled
| NodeLimit (observed limit : Z)
| EdgeLimit (observed limit : Z)
| OutputLimit (observed limit : Z)
| IterationLimit (observed limit : Z)
| StateLimit (observed limit : Z)
| StateOverflow
| NonConvergence (iterations : Z)
| Execution (message : string).

Record AlgorithmLimits := {
  l_nodes : Z;
  l_edges : Z;
  l_output_rows : Z;
  l_iterations : Z;
  l_states : Z;
  l_batch_size : Z;
  l_compute_threads : Z;
}.

Definition default_limits : AlgorithmLimits :=
  {| l_nodes := 10000000; l_edges := 100000000; l_output_rows := 10000000;
     l_iterations := 10000; l_states := 10000000; l_batch_size := 8192; l_compute_threads := 1 |}.

(** The counters of an invocation, with the polls made so far; the limits and the answers of the
    polls are arguments, the compute pool and the options of single algorithms are left out. *)
Record Control := {
  polls : nat;
  iterations : Z;
  states : Z;
}.
Definition new_control : Control := {| polls := 0; iterations := 0; states := 0 |}.

(** A run of a handler: a panic, an error or a result, with the counters. *)
Definition K (A : Type) : Type := Control -> option (result AlgorithmError A * Control).

#[export] Instance k_ret : MRet K := fun A a c => Some (Ok a, c).
#[export] Instance k_bind : MBind K := fun A B f m c =>
  match m c with
  | Some (Ok a, c') => f a c'
  | Some (Err e, c') => Some (Err e, c')
  | None => None
  end.

(** [return Err(e)], a value that may panic, and a [Result] under [?]. *)
Definition k_err {A} (e : AlgorithmError) : K A := fun c => Some (Err e, c).
Definition k_some {A} (o : option A) : K A := fun c => a ← o; Some (Ok a, c).
Definition k_try {A} (r : result AlgorithmError A) : K A := fun c => Some (r, c).

Section control.
Context (cancelled : nat -> bool) (limits : AlgorithmLimits).

Definition check_cancelled : K unit := fun c =>
  let c' := {| polls := S (polls c); iterations := iterations c; states := states c |} in
  Some (if cancelled (polls c) then Err Cancelled else Ok tt, c').

Definition checkpoint : K Z :=
  check_cancelled ;;
  ((fun c =>
     let observed := iterations c + 1 in
     let c' := {| polls := polls c; iterations := observed mod 2 ^ 64; states := states c |} in
     Some (if l_iterations limits <? observed
           then Err (IterationLimit observed (l_iterations limits)) else Ok observed, c')) : K Z).

Definition non_convergence (c : Control) : AlgorithmError := NonConvergence (iterations c).

Definition check_output_rows (observed : Z) : result AlgorithmError unit :=
  let observed := Z.min observed u64_max in
  if l_output_rows limits <? observed then Err (OutputLimit observed (l_output_rows limits)) else Ok tt.

Definition check_graph_size (nodes edges : Z) : result AlgorithmError unit :=
  let nodes := Z.min nodes u64_max in
  if l_nodes limits <? nodes then Err (NodeLimit nodes (l_nodes limits))
  else if l_edges limits <? edges then Err (EdgeLimit edges (l_edges limits))
  else Ok tt.

Definition check_iterations (observed : Z) : result AlgorithmError unit :=
  let observed := Z.min observed u64_max in
  if l_iterations limits <? observed then Err (IterationLimit observed (l_iterations limits)) else Ok tt.

Definition check_states (observed : Z) : K unit :=
  check_cancelled ;;
  k_try (if l_states limits <? observed then Err (StateLimit observed (l_states limits)) else Ok tt).

(** The body of the loop of [consume_states] before the exchange: what to store over [current]. *)
Definition attempt (current additional : Z) : result AlgorithmError Z :=
  observed ← ok_or (checked_add current additional) StateOverflow;
  if l_states limits <? observed then Err (StateLimit observed (l_states limits)) else Ok observed.

(** [consume_states] when no other worker touches the counter. *)
Definition consume_states (additional : Z) : K Z :=
  check_cancelled ;;
  ((fun c =>
     match attempt (states c) additional with
     | Err e => Some (Err e, c)
     | Ok observed =>
         Some (Ok observed, {| polls := polls c; iterations := iterations c; states := observed |})
     end) : K Z).

(** ** Workers sharing the counter *)

(** A call of [consume_states] in progress: at its start, with the value it last saw, or
    returned. *)
Inductive Worker :=
| Loading (additional : Z)
| Holding (additional current : Z)
| Returned (additional : Z) (r : result AlgorithmError Z).

Definition additional_of (w : Worker) : Z :=
  match w with Loading a | Holding a _ | Returned a _ => a end.

(** The shared counter and the calls of the workers. *)
Record Shared := {
  counter : Z;
  workers : list Worker;
}.

(** One step of one worker: the first check passes and the counter is loaded, or the invocation
    has been cancelled, at whatever moment; then a failed attempt, an exchange that succeeds because the
    counter still holds the value seen, and an exchange that fails, because it does not or, where
    [spurious] allows it, for no reason, and sees the counter. *)
Inductive worker_step (spurious : bool) : Z -> Worker -> Z -> Worker -> Prop :=
| step_load counter additional :
    worker_step spurious counter (Loading additional) counter (Holding additional counter)
| step_cancelled counter additional :
    worker_step spurious counter (Loading additional) counter (Returned additional (Err Cancelled))
| step_refuse counter additional current e :
    attempt current additional = Err e ->
    worker_step spurious counter (Holding additional current) counter (Returned additional (Err e))
| step_exchange counter additional observed :
    attempt counter additional = Ok observed ->
    worker_step spurious counter (Holding additional counter) observed (Returned additional (Ok observed))
| step_retry counter additional current observed :
    attempt current additional = Ok observed -> spurious = true \/ current <> counter ->
    worker_step spurious counter (Holding additional current) counter (Holding additional counter).

Inductive shared_step (spurious : bool) : Shared -> Shared -> Prop :=
| step_worker s i w counter' w' :
    workers s !! i = Some w -> worker_step spurious (counter s) w counter' w' ->
    shared_step spurious s {| counter := counter'; workers := <[i := w']> (workers s) |}.

(** The calls at their start. *)
Definition start (counter : Z) (additional : list Z) : Shared :=
  {| counter := counter; workers := Loading <$> additional |}.

(** The states granted to a call. *)
Definition granted (w : Worker) : Z :=
  match w with Returned additional (Ok _) => additional | _ => 0 end.
End control.

(** ** Runs that give a result unless they are cancelled *)

Section gives.
Context (cancelled : nat -> bool).

Definition gives {A} (m : K A) (r : result AlgorithmError A) : Prop :=
  forall c, exists c', m c = Some (r, c') \/
    (m c = Some (Err Cancelled, c') /\ exists k, cancelled k = true).

Lemma gives_ret {A} (a : A) : gives (mret a) (Ok a).
Proof. intros c. exists c. by left. Qed.

Lemma gives_err {A} e : gives (k_err (A := A) e) (Err e).
Proof. intros c. exists c. by left. Qed.

Lemma gives_try {A} (r : result AlgorithmError A) : gives (k_try r) r.
Proof. intros c. exists c. by left. Qed.

Lemma gives_some {A} (a : A) : gives (k_some (Some a)) (Ok a).
Proof. intros c. exists c. by left. Qed.

Lemma gives_bind {A B} (m : K A) (f : A -> K B) a r : gives m (Ok a) -> gives (f a) r -> gives (m ≫= f) r.
Proof.
  intros Hm Hf c. destruct (Hm c) as [c' [E|[E Hk]]]; unfold mbind, k_bind; rewrite E.
  - apply Hf.
  - exists c'. by right.
Qed.

Lemma gives_bind_err {A B} (m : K A) (f : A -> K B) e : gives m (Err e) -> gives (m ≫= f) (Err e).
Proof.
  intros Hm c. destruct (Hm c) as [c' [E|[E Hk]]]; unfold mbind, k_bind; rewrite E; exists c'; [by left|by right].
Qed.

Lemma gives_check : gives (check_cancelled cancelled) (Ok tt).
Proof.
  intros c. eexists. unfold check_cancelled. destruct (cancelled (polls c)) eqn:E; [right|by left].
  split; [done|by exists (polls c)].
Qed.

End gives.

Create HintDb gives.
#[export] Hint Resolve gives_ret gives_err gives_try gives_some gives_check : gives.

(** Run the next step of a [gives] goal. *)
Ltac gives_step :=
  first [ eapply gives_bind; [ first [eassumption | solve [eauto 2 with gives]] |]
        | apply gives_ret | apply gives_err | apply gives_try ];
  cbn beta iota.

(** ** Invariant of the shared counter *)

Section sums.
Context {A : Type} (f : A -> Z).

Definition sum_of (l : list A) : Z := foldr (fun x n => f x + n) 0 l.

Lemma sum_of_insert l i x y :
  l !! i = Some x -> sum_of (<[i := y]> l) = sum_of l - f x + f y.
Proof.
  revert i. induction l as [|z l IH]; intros [|i] Hi; try done.
  - injection Hi as ->. cbn. lia.
  - change (f z + sum_of (<[i := y]> l) = f z + sum_of l - f x + f y). rewrite (IH i Hi). lia.
Qed.

Lemma sum_of_bound l b : (forall x, 0 <= f x <= b) -> 0 <= sum_of l <= lenZ l * b.
Proof. 
  intros Hf. induction l as [|x l IH]; [cbn; lia|]. specialize (Hf x).
  change (sum_of (x :: l)) with (f x + sum_of l). cbn [length]. rewrite Nat2Z.inj_succ, Z.mul_succ_l. lia.
Qed.
End sums.

Section shared.
Context (limits : AlgorithmLimits) (spurious : bool) (initial : Z).

(** What is known of a call while the counter is [c]: the value it holds was the counter's, and
    a call was refused only if what it asked for does not fit what is left. *)
Definition worker_ok (c : Z) (w : Worker) : Prop :=
  match w with
  | Loading a => 0 <= a
  | Holding a current => 0 <= a /\ initial <= current <= c
  | Returned a (Ok observed) => 0 <= a /\ initial + a <= observed <= c
  | Returned a (Err e) => 0 <= a /\
      (e = Cancelled \/ (e = StateOverflow /\ u64_max < c + a) \/
       (exists observed, e = StateLimit observed (l_states limits) /\ l_states limits < c + a))
  end.

Record shared_ok (s : Shared) : Prop := {
  shared_sum : counter s = initial + sum_of granted (workers s);
  shared_limit : counter s <= Z.max initial (l_states limits);
  shared_workers : Forall (worker_ok (counter s)) (workers s);
}.

Lemma worker_ok_mono c c' w : c <= c' -> worker_ok c w -> worker_ok c' w.
Proof.
  intros Hc. destruct w as [a|a current|a [observed|e]]; cbn; [done|lia|lia|].
  intros [Ha [->|[[-> H]|(o&->&H)]]]; (split; [done|]); [by left|right; left|right; right; exists o];
    (split; [done|lia]).
Qed.

Lemma attempt_Ok current a observed :
  attempt limits current a = Ok observed ->
  observed = current + a /\ observed <= l_states limits.
Proof.
  unfold attempt, checked_add. destruct (Z.leb_spec (current + a) usize_max); cbn; [|done].
  destruct (Z.ltb_spec (l_states limits) (current + a)); [done|]. intros [= <-]. lia.
Qed.

Lemma attempt_Err current a e :
  attempt limits current a = Err e ->
  (e = StateOverflow /\ u64_max < current + a) \/
  (e = StateLimit (current + a) (l_states limits) /\ l_states limits < current + a).
Proof.
  unfold attempt, checked_add. destruct (Z.leb_spec (current + a) usize_max); cbn.
  - destruct (Z.ltb_spec (l_states limits) (current + a)); [|done]. intros [= <-]. by right.
  - intros [= <-]. by left.
Qed.

(** A step grants what the counter gains, and keeps what is known of the call. *)
Lemma worker_step_ok c w c' w' :
  worker_step limits spurious c w c' w' -> worker_ok c w -> initial <= c ->
  c' = c - granted w + granted w' /\ c <= c' /\ (c' = c \/ c' <= l_states limits) /\ worker_ok c' w'.
Proof.
  intros Hstep Hok Hc. destruct Hstep as [c a|c a|c a current e He|c a o Ho|c a current o Ho _]; cbn in *.
  - lia.
  - split_and!; [lia|lia|by left|done|by left].
  - destruct Hok as [Ha Hcur]. split_and!; [lia|lia|by left|done|].
    apply attempt_Err in He as [[-> H]|[-> H]]; [right; left|right; right; eexists]; (split; [done|lia]).
  - apply attempt_Ok in Ho as [-> Ho]. lia.
  - lia.
Qed.

Lemma shared_step_ok s s' :
  shared_step limits spurious s s' -> shared_ok s -> initial <= counter s ->
  shared_ok s' /\ counter s <= counter s'.
Proof.
  intros Hstep [Hsum Hlim Hws] Hc. destruct Hstep as [s i w c' w' Hi Hstep].
  pose proof (Forall_lookup_1 _ _ _ _ Hws Hi) as Hw. cbn in Hw.
  destruct (worker_step_ok _ _ _ _ Hstep Hw Hc) as (Hc'&Hle&Hlim'&Hw'). split; [|done].
  split; cbn [counter workers].
  - rewrite (sum_of_insert _ _ _ w) by done. lia.
  - lia.
  - apply Forall_insert; [|done]. eapply Forall_impl; [done|]. intros x. by apply worker_ok_mono.
Qed.

Lemma control_start_ok additional :
  Forall (fun a => 0 <= a) additional -> shared_ok (start initial additional).
Proof.
  intros Ha. split; cbn [counter workers start]; [|lia|by apply Forall_fmap].
  enough (H : sum_of granted (Loading <$> additional) = 0) by lia. clear Ha.
  induction additional as [|a l IH]; [done|]. exact IH.
Qed.

Lemma reachable_ok additional s :
  Forall (fun a => 0 <= a) additional -> rtc (shared_step limits spurious) (start initial additional) s ->
  shared_ok s /\ initial <= counter s.
Proof.
  intros Ha Hr. assert (Hs : shared_ok (start initial additional) /\ initial <= counter (start initial additional))
    by (split; [by apply control_start_ok|cbn; lia]).
  induction Hr as [s|s s' s'' Hstep Hr IH]; [done|]. apply IH.
  destruct Hs as [Hok Hc]. destruct (shared_step_ok _ _ Hstep Hok Hc). split; [done|lia].
Qed.
End shared.

(** ** Every call returns *)

Section progress.
Context (limits : AlgorithmLimits).

Definition returned (w : Worker) : Prop := match w with Returned _ _ => True | _ => False end.

(** A call still running, and one that has not seen the counter's value [c]. *)
Definition running (w : Worker) : Z := match w with Returned _ _ => 0 | _ => 1 end.
Definition behind (c : Z) (w : Worker) : Z :=
  match w with
  | Loading _ => 1
  | Holding _ current => if current =? c then 0 else 1
  | Returned _ _ => 0
  end.

(** Running calls count more than all the calls that are behind. *)
Definition distance (s : Shared) : Z :=
  sum_of running (workers s) * (lenZ (workers s) + 1) + sum_of (behind (counter s)) (workers s).

Lemma distance_nonneg s : 0 <= distance s.
Proof.
  unfold distance.
  assert (0 <= sum_of running (workers s) <= lenZ (workers s) * 1) by (apply sum_of_bound; intros []; cbn; lia).
  assert (0 <= sum_of (behind (counter s)) (workers s) <= lenZ (workers s) * 1).
  { apply sum_of_bound. intros [a|a current|a r]; cbn; try lia. destruct (current =? counter s); lia. }
  nia.
Qed.

Lemma distance_decreases s s' : shared_step limits false s s' -> distance s' < distance s.
Proof.
  intros [s0 i w c' w' Hi Hstep]. unfold distance. cbn [counter workers].
  rewrite length_insert, (sum_of_insert running _ _ w) by done.
  assert (Hb : forall c, 0 <= sum_of (behind c) (<[i := w']> (workers s0)) <= lenZ (workers s0) * 1).
  { intros c. rewrite <-(length_insert (workers s0) i w'). apply sum_of_bound.
    intros [a|a current|a r]; cbn; try lia. destruct (current =? c); lia. }
  assert (Hb0 : 0 <= sum_of (behind (counter s0)) (workers s0)).
  { apply (sum_of_bound _ _ 1). intros [a|a current|a r]; cbn; try lia. destruct (current =? counter s0); lia. }
  revert Hstep Hb0. generalize (counter s0) as c0. intros c0 Hstep Hb0.
  destruct Hstep as [c a|c a|c a current e _|c a observed _|c a current observed _ [Hf|Hne]]; [| | | |done|].
  - rewrite (sum_of_insert _ _ _ (Loading a)) by done. cbn. rewrite Z.eqb_refl. lia.
  - specialize (Hb c). cbn [running]. nia.
  - specialize (Hb c). cbn [running]. nia.
  - specialize (Hb observed). cbn [running]. nia.
  - rewrite (sum_of_insert _ _ _ (Holding a current)) by done. cbn.
    rewrite Z.eqb_refl. destruct (Z.eqb_spec current c); [done|lia].
Qed.

Lemma worker_can_step c w : ~ returned w -> exists c' w', worker_step limits false c w c' w'.
Proof.
  destruct w as [a|a current|a r]; cbn; intros Hn; [do 2 eexists; constructor| |done].
  destruct (attempt limits current a) as [observed|e] eqn:E; [|do 2 eexists; by constructor].
  destruct (decide (current = c)) as [->|Hne]; do 2 eexists; [by apply step_exchange|].
  eapply step_retry; [done|by right].
Qed.

(** Only returned calls take no step. *)
Lemma stuck_returned s :
  (forall s', ~ shared_step limits false s s') <-> Forall returned (workers s).
Proof.
  split.
  - intros Hstuck. apply Forall_lookup. intros i w Hi.
    destruct (decide (running w = 0)) as [Hr|Hr]; [by destruct w|].
    destruct (worker_can_step (counter s) w) as (c'&w'&Hstep).
    { intros Hret. destruct w; [done..|by apply Hr]. }
    exfalso. eapply Hstuck. by econstructor.
  - intros Hall s' Hstep. destruct Hstep as [s i w c' w' Hi Hstep].
    apply (Forall_lookup_1 _ _ _ _ Hall) in Hi. by destruct Hstep.
Qed.
End progress.

Lemma additional_kept limits spurious s s' :
  shared_step limits spurious s s' ->
  additional_of <$> workers s' = additional_of <$> workers s.
Proof.
  intros [s0 i w c' w' Hi Hstep]. cbn [workers]. rewrite list_fmap_insert. apply list_insert_id.
  rewrite list_lookup_fmap, Hi. cbn. by destruct Hstep.
Qed.

(** ** Properties *)

(** C18 Workers that consume states concurrently, interleaved in any way and with exchanges that
    may fail spuriously, share one budget exactly: at every moment the counter is the initial
    count plus what was granted, it never passes the limit, each call still asks for what it was
    called with, and a call that returned an error was cancelled before it loaded the counter or
    asked for more than is left. *)
Theorem states_budget_exact limits spurious initial additional s :
  0 <= initial <= l_states limits -> Forall (fun a => 0 <= a) additional ->
  rtc (shared_step limits spurious) (start initial additional) s ->
  counter s = initial + sum_of granted (workers s) /\ counter s <= l_states limits /\
  additional_of <$> workers s = additional /\
  forall i a e, workers s !! i = Some (Returned a (Err e)) ->
    e = Cancelled \/ Z.min u64_max (l_states limits) < counter s + a.
Proof.
  intros Hinit Ha Hr. destruct (reachable_ok limits spurious initial additional s Ha Hr) as [[Hsum Hlim Hws] _].
  split_and!; [done|lia| |].
  - assert (H0 : additional_of <$> workers (start initial additional) = additional).
    { cbn. rewrite <-list_fmap_compose. apply list_fmap_id. }
    clear -Hr H0. induction Hr as [s|s s' s'' Hstep Hr IH]; [done|]. apply IH.
    by rewrite (additional_kept _ _ _ _ Hstep).
  - intros i a e Hi. apply (Forall_lookup_1 _ _ _ _ Hws) in Hi as [_ [?|[[_ H]|(o&_&H)]]]; [by left|right; lia..].
Qed.

(** Two workers race for 6 and 7 of a budget of 10: the second loads before the first's exchange,
    retries, and is refused. *)
Lemma states_budget_exact_witness : exists s,
  rtc (shared_step {| l_nodes := 0; l_edges := 0; l_output_rows := 0; l_iterations := 0; l_states := 10;
                        l_batch_size := 1; l_compute_threads := 2 |} false)
    (start 0 [6; 7]) s /\
  workers s = [Returned 6 (Ok 6); Returned 7 (Err (StateLimit 13 10))] /\
  counter s = 0 + sum_of granted (workers s).
Proof.
  set (limits := {| l_states := 10 |}).
  assert (Hr : rtc (shared_step limits false) (start 0 [6; 7])
    {| counter := 6; workers := [Returned 6 (Ok 6); Returned 7 (Err (StateLimit 13 10))] |}).
  { eapply rtc_l; [apply (step_worker _ _ _ 0%nat (Loading 6) 0 (Holding 6 0)); [reflexivity|constructor]|].
    eapply rtc_l; [apply (step_worker _ _ _ 1%nat (Loading 7) 0 (Holding 7 0)); [reflexivity|constructor]|].
    eapply rtc_l; [apply (step_worker _ _ _ 0%nat (Holding 6 0) 6 (Returned 6 (Ok 6))); [reflexivity|by constructor]|].
    eapply rtc_l; [apply (step_worker _ _ _ 1%nat (Holding 7 0) 6 (Holding 7 6)); [reflexivity|]|].
    { eapply step_retry; [reflexivity|by right]. }
    eapply rtc_l; [apply (step_worker _ _ _ 1%nat (Holding 7 6) 6 (Returned 7 (Err (StateLimit 13 10)))); [reflexivity|by constructor]|].
    apply rtc_refl. }
  eexists. split; [exact Hr|]. split; [reflexivity|].
  refine (proj1 (states_budget_exact limits false 0 [6; 7] _ _ _ Hr)); [cbn; lia|].
  repeat constructor; lia.
Defined.

(** C19 Concurrent calls of [consume_states] are lock-free: when an exchange fails only because
    the counter moved, every interleaving is finite, whatever state it starts from, and it can
    only end with every call returned. *)
Theorem states_calls_return limits s :
  sn (shared_step limits false) s /\
  ((forall s', ~ shared_step limits false s s') <-> Forall returned (workers s)).
Proof.
  split; [|apply stuck_returned].
  pose proof (distance_nonneg s) as Hd. remember (Z.to_nat (distance s)) as n eqn:En.
  revert s Hd En. induction (lt_wf n) as [n _ IH]. intros s Hd ->. constructor. intros s' Hstep.
  pose proof (distance_nonneg s'). apply distance_decreases in Hstep as Hlt. apply (IH (Z.to_nat (distance s'))); [lia|done..].
Qed.
