(* ===== verification/Topology.v ===== *)
(** * The ordinal topology of a graph export: [crates/graphforge-exec/src/algorithm_graph/topology.rs]
    and the accessors of [AdjacencyGraph] in [crates/graphforge-exec/src/algorithm_graph.rs].

    [NodeSet] gives every selected node an ordinal in ascending [node_id] order; [TopologyGraph]
    is a CSR over ordinals; [AdjacencyGraph] is the surrogate-keyed view of it.  Node ids, edge
    ids and stored [u32] values are integers, [usize] ordinals and slots are [nat], an [f64] is
    its bit pattern.  An operation that can index out of range returns [None] there.

    What a node set promises its clients is the class [Represents]: it answers as the ascending
    list of ids it was made from. *)

From stdpp Require Import base list gmap sets sorting relations strings.
From Stdlib Require Import ZArith Lia.
From S2P Require Import Prelude Membership.

(** Ordinal reported by a rank table for a node that is not selected. *)
Definition NO_ORDINAL : Z := u32_max.

(** [u32::try_from(n)] *)
Definition u32_try_from (n : nat) : option Z :=
  if Z.of_nat n <=? u32_max then Some (Z.of_nat n) else None.

(** ** Selected nodes *)

Module NodeSet.

Inductive NodeSet :=
| Dense (first : Z) (count : nat)
| Sparse (ids : list Z) (rank : list Z).

Definition default_set : NodeSet := Dense 0 0.

(** [ids.iter().zip(first..).all(|(&id, expected)| id == expected)]; the range steps in [u64]. *)
Fixpoint consecutive (expected : Z) (ids : list Z) : bool :=
  match ids with
  | [] => true
  | id :: ids' => (id =? expected) && consecutive ((expected + 1) mod 2 ^ 64) ids'
  end.

(** The loop that fills the rank table; ids beyond it are skipped. *)
Fixpoint fill_rank (rank : list Z) (ordinal : nat) (ids : list Z) : list Z :=
  match ids with
  | [] => rank
  | id :: ids' =>
      let rank :=
        if id <? lenZ rank
        then <[Z.to_nat id := default NO_ORDINAL (u32_try_from ordinal)]> rank
        else rank in
      fill_rank rank (S ordinal) ids'
  end.

Definition from_ids (ids : list Z) (rank_cap : Z) : NodeSet :=
  match ids with
  | [] => default_set
  | first :: _ =>
      if consecutive first ids then Dense first (length ids)
      else
        let last := default 0 (last ids) in
        let length := Z.to_nat (Z.min (Z.min (last + 1) u64_max) rank_cap) in
        Sparse ids (fill_rank (replicate length NO_ORDINAL) 0 ids)
  end.

Definition len (self : NodeSet) : nat :=
  match self with
  | Dense _ count => count
  | Sparse ids _ => length ids
  end.

Definition ordinal_of (self : NodeSet) (node_id : Z) : option nat :=
  match self with
  | Dense first count =>
      if node_id <? first then None
      else
        let ordinal := node_id - first in
        if ordinal <? Z.of_nat count then Some (Z.to_nat ordinal) else None
  | Sparse ids rank =>
      if node_id <? lenZ rank then
        ordinal ← rank !! Z.to_nat node_id;
        if ordinal =? NO_ORDINAL then None else Some (Z.to_nat ordinal)
      else
        match binary_search_by (fun x => x ?= node_id) ids with
        | Some (inl index) => Some index
        | _ => None
        end
  end.

Definition node_id_of (self : NodeSet) (ordinal : nat) : Z :=
  match self with
  | Dense first count =>
      if (ordinal <? count)%nat then saturating_add first (Z.of_nat ordinal) else u64_max
  | Sparse ids _ => default u64_max (ids !! ordinal)
  end.
End NodeSet.

(** The ids a node set can be made from: ascending, and below the [u64::MAX] that marks an
    ordinal outside the selection; fewer of them than the [u32] ordinals. *)
Record ids_ok (ids : list Z) : Prop := {
  ids_ascending : ascending ids;
  ids_range : Forall (fun id => 0 <= id < u64_max) ids;
  ids_count : lenZ ids <= u32_max;
}.

(** The node set answers as the list [ids] does. *)
Class Represents (self : NodeSet.NodeSet) (ids : list Z) : Prop := {
  rep_len : NodeSet.len self = length ids;
  rep_ordinal_of : forall id n, 0 <= id ->
    NodeSet.ordinal_of self id = Some n <-> ids !! n = Some id;
  rep_node_id_of : forall n, NodeSet.node_id_of self n = default u64_max (ids !! n);
}.

(** ** The CSR *)

Record EdgeIdentity := {
  edge_ids : list Z;
  edge_uuids : list Key;
}.

Record TopologyGraph := {
  directed : bool;
  offsets : list Z;
  neighbors : list Z;
  weights : option (list Z);
  uuids : list Key;
  nodes : NodeSet.NodeSet;
  identity : option EdgeIdentity;
}.

Definition slots (self : TopologyGraph) (ordinal : nat) : nat * nat :=
  match offsets self !! ordinal, offsets self !! S ordinal with
  | Some start, Some end_ =>
      let end_ := Nat.min (Z.to_nat end_) (length (neighbors self)) in
      (Nat.min (Z.to_nat start) end_, end_)
  | _, _ => (0, 0)%nat
  end.

(** [&v[range]] for a range [slots] returned: always within [neighbors]. *)
Definition slice {A} (v : list A) (range : nat * nat) : list A :=
  take (range.2 - range.1) (drop range.1 v).

Definition neighbor_ordinals (self : TopologyGraph) (ordinal : nat) : list Z :=
  slice (neighbors self) (slots self ordinal).

(** ** The surrogate-keyed view *)

Record AlgorithmEdge := {
  edge_id : Z;
  edge_uuid : Key;
  neighbor_id : Z;
  weight : Z;
}.

(** The bits of [1.0_f64]. *)
Definition f64_one : Z := 0x3FF0000000000000.

(** [f64::is_finite]: the exponent bits are not all set. *)
Definition f64_is_finite (bits : Z) : bool := negb (Z.land (Z.shiftr bits 52) 0x7FF =? 0x7FF).

(** The lookup caches, the inventory, the feature vectors and the labels are left out. *)
Record AdjacencyGraph := {
  topology : TopologyGraph;
  logical_edge_count : Z;
}.

Definition node_count (self : AdjacencyGraph) : nat := NodeSet.len (nodes (topology self)).
Definition is_directed (self : AdjacencyGraph) : bool := directed (topology self).

(** The entry of a slot; [None] where the code panics: no edge identity was retained, or an
    array is shorter than [neighbors]. *)
Definition algorithm_edge (self : AdjacencyGraph) (slot : nat) : option AlgorithmEdge :=
  let topology := topology self in
  identity ← identity topology;
  id ← edge_ids identity !! slot;
  uuid ← edge_uuids identity !! slot;
  neighbor ← neighbors topology !! slot;
  w ← match weights topology with
      | None => Some f64_one
      | Some weights => weights !! slot
      end;
  Some {| edge_id := id; edge_uuid := uuid;
          neighbor_id := NodeSet.node_id_of (nodes topology) (Z.to_nat neighbor);
          weight := w |}.

(** The view [neighbors(node_id)] read from its first entry to its last. *)
Definition node_neighbors (self : AdjacencyGraph) (node_id : Z) : option (list AlgorithmEdge) :=
  let range :=
    match NodeSet.ordinal_of (nodes (topology self)) node_id with
    | None => (0, 0)%nat
    | Some ordinal => slots (topology self) ordinal
    end in
  mapM (algorithm_edge self) (seq range.1 (range.2 - range.1)).

Definition node_ids (self : AdjacencyGraph) : list Z :=
  match nodes (topology self) with
  | NodeSet.Sparse ids _ => ids
  | NodeSet.Dense first count => (fun ordinal => saturating_add first (Z.of_nat ordinal)) <$> seq 0 count
  end.

Definition uuid_of_ordinal (self : AdjacencyGraph) (ordinal : nat) : option Key :=
  uuids (topology self) !! ordinal.

Definition node_uuid (self : AdjacencyGraph) (node_id : Z) : option Key :=
  ordinal ← NodeSet.ordinal_of (nodes (topology self)) node_id;
  uuids (topology self) !! ordinal.

(** ** Lookups by UUID *)

Module UuidLookup.

(** Lookups answered by a scan before a sorted permutation is built. *)
Definition LINEAR_UUID_LOOKUPS : Z := 2.

Record UuidLookup := {
  scans : Z;
  sorted : option (list Z);
}.
Definition default_lookup : UuidLookup := {| scans := 0; sorted := None |}.

(** [(0..uuids.len())] as [u32], ordered by [(uuid, ordinal)]. *)
Definition sorted_order (uuids : list Key) : list Z :=
  sort_by_key (fun ordinal => (default 0 (uuids !! Z.to_nat ordinal), ordinal))
    ((fun ordinal => default u32_max (u32_try_from ordinal)) <$> seq 0 (length uuids)).

(** [iter().position(|uuid| uuid == target)] *)
Fixpoint position (uuids : list Key) (target : Key) : option nat :=
  match uuids with
  | [] => None
  | uuid :: uuids' => if uuid =? target then Some 0%nat else S <$> position uuids' target
  end.

Definition find (self : UuidLookup) (uuids : list Key) (target : Key) : option nat * UuidLookup :=
  let search sorted :=
    let first := partition_point (fun ordinal => default 0 (uuids !! Z.to_nat ordinal) <? target) sorted in
    ordinal ← sorted !! first;
    let ordinal := Z.to_nat ordinal in
    if default 0 (uuids !! ordinal) =? target then Some ordinal else None in
  match sorted self with
  | Some sorted => (search sorted, self)
  | None =>
      let self' := {| scans := (scans self + 1) mod 2 ^ 64; sorted := None |} in
      if scans self <? LINEAR_UUID_LOOKUPS then (position uuids target, self')
      else
        let order := sorted_order uuids in
        (search order, {| scans := scans self'; sorted := Some order |})
  end.
End UuidLookup.

(** ** The node set answers as its list *)

Lemma partitioned_ascending l k : ascending l -> partitioned (fun x => x ?= k) l.
Proof.
  intros Hs i j x y Hij Hi Hj Hgt. destruct (decide (i = j)) as [->|]; [congruence|].
  assert (x < y) by (eapply ascending_lookup; [done|exact Hi|exact Hj|lia]).
  apply Z.compare_gt_iff in Hgt. apply Z.compare_gt_iff. lia.
Qed.

Lemma ascending_inj l i j x :
  ascending l -> l !! i = Some x -> l !! j = Some x -> i = j.
Proof.
  intros Hs Hi Hj. pose proof (ascending_lookup l i j x x Hs Hi Hj).
  pose proof (ascending_lookup l j i x x Hs Hj Hi). lia.
Qed.

Lemma ascending_NoDup l : ascending l -> NoDup l.
Proof.
  induction 1 as [|a l Hl IH Ha]; constructor; [|done]. rewrite Forall_forall in Ha.
  intros Hin%Ha. lia.
Qed.

(** An ascending list is determined by its elements. *)
Lemma ascending_ext l1 l2 :
  ascending l1 -> ascending l2 -> (forall x, x ∈ l1 <-> x ∈ l2) -> l1 = l2.
Proof.
  intros H1 H2 Heq. apply (StronglySorted_unique_strong Z.lt); [|done..|].
  - intros x y _ _. lia.
  - apply NoDup_Permutation; [by apply ascending_NoDup..|done].
Qed.

(** [slice::binary_search] on an ascending slice finds the index of a member. *)
Lemma binary_search_index l k i : ascending l ->
  match binary_search_by (fun x => x ?= k) l with Some (inl i) => Some i | _ => None end = Some i
  <-> l !! i = Some k.
Proof.
  intros Hs. destruct (binary_search_by_spec _ _ (partitioned_ascending l k Hs)) as (r&->&Hr).
  destruct r as [b|b].
  - destruct Hr as (x&Hx&Heq). apply Z.compare_eq_iff in Heq as ->. split; [by intros [= ->]|].
    intros Hi. f_equal. by eapply ascending_inj.
  - split; [done|]. intros Hi. exfalso. destruct Hr as (Hlen&Hup&Hlo).
    destruct (decide (b <= i)%nat) as [Hbi|Hbi].
    + specialize (Hup i k Hbi Hi). by rewrite Z.compare_refl in Hup.
    + destruct Hlo as [->|(x&Hx&Hlt)]; [lia|]. apply Z.compare_lt_iff in Hlt.
      apply (ascending_lookup l _ _ _ _ Hs Hx Hi) in Hlt. lia.
Qed.


Lemma ids_ok_range ids n id : ids_ok ids -> ids !! n = Some id -> 0 <= id < u64_max.
Proof. intros [_ Hr _] Hn. exact (Forall_lookup_1 _ ids n id Hr Hn). Qed.

Lemma consecutive_lookup expected ids :
  NodeSet.consecutive expected ids = true -> 0 <= expected ->
  Forall (fun id => 0 <= id < u64_max) ids ->
  forall n, ids !! n = if (n <? length ids)%nat then Some (expected + Z.of_nat n) else None.
Proof.
  revert expected. induction ids as [|id ids IH]; intros expected Hc He Hr n; [by destruct n|].
  cbn in Hc. apply andb_prop in Hc as [->%Z.eqb_eq Hc]. inversion Hr as [|? ? Hid Hr']; subst.
  rewrite Z.mod_small in Hc by (unfold u64_max in Hid; lia).
  destruct n as [|n]; [cbn; f_equal; lia|]. cbn [lookup list_lookup length].
  rewrite (IH (expected + 1)) by (done || lia).
  destruct (Nat.ltb_spec n (length ids)), (Nat.ltb_spec (S n) (S (length ids))); try lia; f_equal; lia.
Qed.

Lemma fill_rank_length rank o ids : length (NodeSet.fill_rank rank o ids) = length rank.
Proof.
  revert rank o. induction ids as [|id ids IH]; intros rank o; [done|]. cbn [NodeSet.fill_rank].
  rewrite IH. by destruct (id <? lenZ rank); rewrite ?length_insert.
Qed.

Lemma fill_rank_other rank o ids i :
  Forall (fun id => 0 <= id) ids -> Z.of_nat i ∉ ids ->
  NodeSet.fill_rank rank o ids !! i = rank !! i.
Proof.
  intros Hr. revert rank o. induction Hr as [|id ids Hid Hr IH]; intros rank o Hn; [done|].
  cbn [NodeSet.fill_rank]. apply not_elem_of_cons in Hn as [Hne Hn]. rewrite IH by done.
  destruct (id <? lenZ rank); [|done]. apply list_lookup_insert_ne. lia.
Qed.

Lemma fill_rank_ordinal rank o ids n id :
  ascending ids -> Forall (fun id => 0 <= id) ids -> Z.of_nat (o + length ids) <= u32_max ->
  ids !! n = Some id -> id < lenZ rank ->
  NodeSet.fill_rank rank o ids !! Z.to_nat id = Some (Z.of_nat (o + n)).
Proof.
  intros Ha. revert rank o n. induction Ha as [|x ids Ha IH Hx]; intros rank o n Hr Hc Hn Hid; [done|].
  inversion Hr as [|? ? Hx0 Hr']; subst. cbn [NodeSet.fill_rank]. cbn [length] in Hc.
  destruct n as [|n].
  - injection Hn as <-. assert (Hx' : Z.of_nat (Z.to_nat x) ∉ ids).
    { rewrite Z2Nat.id by lia. rewrite Forall_forall in Hx. intros Hin%Hx. lia. }
    rewrite fill_rank_other by done.
    destruct (Z.ltb_spec x (lenZ rank)); [|lia].
    rewrite list_lookup_insert_eq by lia. unfold u32_try_from.
    destruct (Z.leb_spec (Z.of_nat o) u32_max); [|lia]. cbn. do 2 f_equal. lia.
  - rewrite (IH _ (S o) n) by (try done; try lia; destruct (x <? lenZ rank); rewrite ?length_insert; lia).
    f_equal. lia.
Qed.

Lemma dense_represents first ids :
  ids_ok ids -> 0 <= first -> NodeSet.consecutive first ids = true ->
  Represents (NodeSet.Dense first (length ids)) ids.
Proof.
  intros Hok Hf Hc. pose proof (consecutive_lookup _ _ Hc Hf (ids_range _ Hok)) as Hl. split; [done| |].
  - intros id n Hid. rewrite Hl. cbn [NodeSet.ordinal_of].
    destruct (Z.ltb_spec id first), (Nat.ltb_spec n (length ids)), (Z.ltb_spec (id - first) (lenZ ids));
      split; intros [=]; try f_equal; lia.
  - intros n. rewrite Hl. cbn [NodeSet.node_id_of]. destruct (Nat.ltb_spec n (length ids)) as [Hn|]; [|done]. cbn.
    apply lookup_lt_is_Some_2 in Hn as [id Hn]. pose proof (ids_ok_range _ _ _ Hok Hn).
    rewrite Hl in Hn. destruct (n <? length ids)%nat; [|done]. injection Hn as Hn.
    unfold saturating_add, usize_max. lia.
Qed.

Lemma sparse_represents ids length :
  ids_ok ids ->
  Represents (NodeSet.Sparse ids (NodeSet.fill_rank (replicate length NO_ORDINAL) 0 ids)) ids.
Proof.
  intros Hok. destruct Hok as [Ha Hr Hc]. split; [done| |done]. intros id n Hid. cbn.
  rewrite fill_rank_length, length_replicate.
  destruct (Z.ltb_spec id (Z.of_nat length)) as [Hlt|Hge]; [|by apply binary_search_index].
  assert (Hr0 : Forall (fun id => 0 <= id) ids) by (eapply Forall_impl; [done|]; cbn; lia).
  destruct (decide (id ∈ ids)) as [(m&Hm)%list_elem_of_lookup|Hn].
  - rewrite (fill_rank_ordinal _ 0 ids m id) by (done || (rewrite ?length_replicate; lia)). cbn.
    pose proof (lookup_lt_Some _ _ _ Hm). destruct (Z.eqb_spec (Z.of_nat m) NO_ORDINAL); [unfold NO_ORDINAL in *; lia|].
    rewrite Nat2Z.id. split; [by intros [= ->]|]. intros Hn. f_equal. by eapply ascending_inj.
  - rewrite fill_rank_other by (done || by rewrite Z2Nat.id).
    rewrite lookup_replicate_2 by lia. cbn. split; [done|].
    intros Hi. by apply list_elem_of_lookup_2 in Hi.
Qed.

(** Whatever the representation chosen and whatever the cap on the rank table, a node set
    answers as the ascending list of ids it was made from. *)
Lemma from_ids_represents ids rank_cap : ids_ok ids -> Represents (NodeSet.from_ids ids rank_cap) ids.
Proof.
  intros Hok. unfold NodeSet.from_ids. destruct ids as [|first ids'] eqn:E.
  { split; [done| |done]. intros id n Hid. rewrite lookup_nil.
    cbn [NodeSet.ordinal_of NodeSet.default_set].
    destruct (Z.ltb_spec id 0), (Z.ltb_spec (id - 0) (Z.of_nat 0)); [lia..|by split]. }
  rewrite <-E in *. destruct (NodeSet.consecutive first ids) eqn:Hc; [|by apply sparse_represents].
  apply dense_represents; [done| |done]. rewrite E in Hok. apply (ids_ok_range _ 0 first Hok). done.
Qed.

(** ** Lookups by UUID find the first node with the UUID *)

Section uuid_lookup.
Context (uuids : list Key) (Hcount : lenZ uuids <= u32_max).

Let uuid_at (ordinal : Z) : Key := default 0 (uuids !! Z.to_nat ordinal).

Lemma position_Some target n :
  UuidLookup.position uuids target = Some n <->
  uuids !! n = Some target /\ forall m, (m < n)%nat -> uuids !! m <> Some target.
Proof.
  clear Hcount uuid_at. revert n. induction uuids as [|u l IH]; intros n; [naive_solver|]. cbn.
  destruct (Z.eqb_spec u target) as [->|Hne].
  - split; [intros [= <-]; split; [done|lia]|]. intros [Hn Hfirst]. destruct n as [|n]; [done|].
    by destruct (Hfirst 0%nat ltac:(lia)).
  - destruct n as [|n].
    { split; [by intros (m&_&?)%fmap_Some|]. intros [[= ->] _]. done. }
    rewrite fmap_Some. split.
    + intros (m&[Hm Hfirst]%IH&[= ->]). split; [done|].
      intros [|k] Hk; [cbn; congruence|]. apply (Hfirst k). lia.
    + intros [Hn Hfirst]. exists n. split; [|done]. apply IH. split; [done|].
      intros k Hk. apply (Hfirst (S k)). lia.
Qed.

Lemma sorted_order_elem o :
  o ∈ UuidLookup.sorted_order uuids <-> exists n, (n < length uuids)%nat /\ o = Z.of_nat n.
Proof.
  unfold UuidLookup.sorted_order. rewrite sort_by_key_perm, list_elem_of_fmap.
  setoid_rewrite elem_of_seq. unfold u32_try_from. split; intros (n&H1&H2).
  - exists n. destruct (Z.leb_spec (Z.of_nat n) u32_max); [|lia]. split; [lia|done].
  - exists n. destruct (Z.leb_spec (Z.of_nat n) u32_max); [|lia]. split; [done|lia].
Qed.

(** Along the order, the pairs of UUID and ordinal do not decrease. *)
Lemma sorted_order_le i j a b :
  (i <= j)%nat -> UuidLookup.sorted_order uuids !! i = Some a ->
  UuidLookup.sorted_order uuids !! j = Some b ->
  uuid_at a < uuid_at b \/ uuid_at a = uuid_at b /\ a <= b.
Proof.
  intros Hij Hi Hj. destruct (decide (i = j)) as [->|Hne]; [right; split; [congruence|assert (a = b) by congruence; lia]|].
  assert (Hs : StronglySorted (key_le (fun o => (uuid_at o, o))) (UuidLookup.sorted_order uuids))
    by apply sort_by_key_sorted.
  assert (Hle : key_le (fun o => (uuid_at o, o)) a b)
    by (eapply (StronglySorted_lookup _ _ i j); [done|lia|done..]).
  destruct Hle as [[H1 H2]|[H1 H2]]; cbn in H1, H2; [left; lia|by right].
Qed.

Lemma search_position target :
  (ordinal ← UuidLookup.sorted_order uuids !!
     partition_point (fun o => uuid_at o <? target) (UuidLookup.sorted_order uuids);
   if uuid_at ordinal =? target then Some (Z.to_nat ordinal) else None)
  = UuidLookup.position uuids target.
Proof.
  set (L := UuidLookup.sorted_order uuids). set (b := partition_point _ L).
  destruct (partition_point_spec (fun o => uuid_at o <? target) L) as [_ Hb].
  { intros i j x y Hij Hi Hj Hy%Z.ltb_lt. apply Z.ltb_lt.
    destruct (sorted_order_le i j x y Hij Hi Hj); lia. }
  fold b in Hb.
  assert (Hmem : forall n, uuids !! n = Some target ->
    exists j, L !! j = Some (Z.of_nat n) /\ (b <= j)%nat /\ uuid_at (Z.of_nat n) = target).
  { intros n Hn. assert (Hu : uuid_at (Z.of_nat n) = target) by (unfold uuid_at; by rewrite Nat2Z.id, Hn).
    assert (Hin : Z.of_nat n ∈ L) by (apply sorted_order_elem; exists n; by apply lookup_lt_Some in Hn).
    apply list_elem_of_lookup in Hin as [j Hj].
    exists j. split_and!; [done| |done]. specialize (Hb j _ Hj). rewrite Hu, Z.ltb_irrefl in Hb.
    destruct (decide (j < b)%nat) as [Hlt|]; [by apply Hb in Hlt|lia]. }
  destruct (L !! b) as [o|] eqn:Eo; cbn.
  - assert (Ho : target <= uuid_at o).
    { specialize (Hb b o Eo). destruct (Z.ltb_spec (uuid_at o) target); [|done].
      assert (b < b)%nat by (by apply Hb). lia. }
    destruct (proj1 (sorted_order_elem o)) as (n&Hn&->); [by eapply list_elem_of_lookup_2|].
    destruct (Z.eqb_spec (uuid_at (Z.of_nat n)) target) as [Heq|Hne].
    + symmetry. rewrite Nat2Z.id. apply position_Some. split.
      { unfold uuid_at in Heq. rewrite Nat2Z.id in Heq.
        destruct (lookup_lt_is_Some_2 uuids n Hn) as [u Hu]. rewrite Hu in *. by f_equal. }
      intros m Hm Hmt. destruct (Hmem m Hmt) as (j&Hj&Hbj&Hu).
      destruct (sorted_order_le b j _ _ Hbj Eo Hj); lia.
    + destruct (UuidLookup.position uuids target) as [m|] eqn:Em; [|done].
      apply position_Some in Em as [Hm _]. destruct (Hmem m Hm) as (j&Hj&Hbj&Hu).
      destruct (sorted_order_le b j _ _ Hbj Eo Hj); lia.
  - destruct (UuidLookup.position uuids target) as [m|] eqn:Em; [|done].
    apply position_Some in Em as [Hm _]. destruct (Hmem m Hm) as (j&Hj&Hbj&_).
    apply lookup_lt_Some in Hj. apply lookup_ge_None in Eo. lia.
Qed.

(** The permutation, once built, is that of the graph's UUIDs. *)
Definition lookup_ok (self : UuidLookup.UuidLookup) : Prop :=
  UuidLookup.sorted self = None \/ UuidLookup.sorted self = Some (UuidLookup.sorted_order uuids).

Lemma find_position self target :
  lookup_ok self ->
  let r := UuidLookup.find self uuids target in
  r.1 = UuidLookup.position uuids target /\ lookup_ok r.2.
Proof.
  intros Hok. unfold UuidLookup.find. destruct (UuidLookup.sorted self) as [L|] eqn:E.
  - destruct Hok as [|Hok]; [congruence|]. rewrite E in Hok. injection Hok as ->.
    split; [apply search_position|by right].
  - destruct (UuidLookup.scans self <? UuidLookup.LINEAR_UUID_LOOKUPS); (split; [|by (left + right)]);
      [done|apply search_position].
Qed.
End uuid_lookup.

(** ** The CSR stands for its rows *)

(** The slots of row [n] of [rows] when the rows are laid out one after the other. *)
Definition span {A} (rows : list (list A)) (n : nat) : nat * nat :=
  (length (concat (take n rows)), length (concat (take (S n) rows))).

(** The offsets are those of [rows]. *)
Record offsets_of {A} (offs : list Z) (rows : list (list A)) : Prop := {
  offs_length : length offs = S (length rows);
  offs_lookup : forall n, (n <= length rows)%nat -> offs !! n = Some (lenZ (concat (take n rows)));
}.

Lemma concat_take_le {A} (rows : list (list A)) n :
  (length (concat (take n rows)) <= length (concat rows))%nat.
Proof. rewrite <-(take_drop n rows) at 2. rewrite concat_app, length_app. lia. Qed.

Lemma concat_take_S {A} (rows : list (list A)) n row :
  rows !! n = Some row -> concat (take (S n) rows) = concat (take n rows) ++ row.
Proof. intros Hn. erewrite take_S_r by done. rewrite concat_app. cbn. by rewrite app_nil_r. Qed.

Lemma slice_span {A} (rows : list (list A)) n row :
  rows !! n = Some row -> slice (concat rows) (span rows n) = row.
Proof.
  intros Hn. unfold slice, span. cbn [fst snd].
  rewrite (concat_take_S rows n row Hn), length_app.
  rewrite <-(take_drop_middle rows n row Hn) at 4. rewrite concat_app, drop_app_length. cbn [concat].
  replace (_ + _ - _)%nat with (length row) by lia. apply take_app_length.
Qed.

Lemma slots_span {A} t (rows : list (list A)) n :
  offsets_of (offsets t) rows -> length (neighbors t) = length (concat rows) ->
  slots t n = if (n <? length rows)%nat then span rows n else (0, 0)%nat.
Proof.
  intros [Hlen Hoff] Hnb. unfold slots. destruct (Nat.ltb_spec n (length rows)) as [Hn|Hn].
  - rewrite !Hoff by lia. rewrite !Nat2Z.id, Hnb. pose proof (concat_take_le rows (S n)).
    destruct (lookup_lt_is_Some_2 rows n Hn) as [row Hrow].
    pose proof (f_equal length (concat_take_S rows n row Hrow)) as HS. rewrite length_app in HS.
    unfold span. f_equal; lia.
  - rewrite (lookup_ge_None_2 _ (S n)) by lia. by destruct (offsets t !! n).
Qed.

(** A slice of slots read entry by entry is the row. *)
Lemma mapM_span {A} (f : nat -> option A) (rows : list (list A)) n row :
  (forall slot x, concat rows !! slot = Some x -> f slot = Some x) -> rows !! n = Some row ->
  mapM f (seq (span rows n).1 ((span rows n).2 - (span rows n).1)) = Some row.
Proof.
  intros Hf Hn. rewrite <-(slice_span rows n row Hn). unfold slice. apply mapM_Some.
  apply Forall2_same_length_lookup. pose proof (concat_take_le rows (S n)) as Hle. split.
  - rewrite length_seq, length_take, length_drop. unfold span in *. cbn in *. lia.
  - intros i slot x Hi Hx. apply lookup_seq in Hi as [-> Hi].
    rewrite lookup_take_lt in Hx by done. rewrite lookup_drop in Hx. by apply Hf.
Qed.

(** What a graph promises the algorithms: its nodes are [ids], and the adjacency entries of
    the [n]th of them are the [n]th row. *)
Class GraphOf (g : AdjacencyGraph) (ids : list Z) (rows : list (list AlgorithmEdge)) : Prop := {
  go_nodes :: Represents (nodes (topology g)) ids;
  go_rows : length rows = length ids;
  go_offsets : offsets_of (offsets (topology g)) rows;
  go_neighbors : length (neighbors (topology g)) = length (concat rows);
  go_edges : forall slot edge, concat rows !! slot = Some edge -> algorithm_edge g slot = Some edge;
}.

(** The entries of a node. *)
Definition row_of (g : AdjacencyGraph) (id : Z) : list AlgorithmEdge := default [] (node_neighbors g id).

Section graph_of.
Context {g : AdjacencyGraph} {ids : list Z} {rows : list (list AlgorithmEdge)} `{Hg : !GraphOf g ids rows}.

Lemma graph_node_ids : node_ids g = ids.
Proof.
  assert (Heq : node_ids g = NodeSet.node_id_of (nodes (topology g)) <$> seq 0 (NodeSet.len (nodes (topology g)))).
  { unfold node_ids. destruct (nodes (topology g)) as [first count|l rank]; cbn [NodeSet.len].
    - apply list_fmap_ext. intros i o [-> Hi]%lookup_seq. cbn [NodeSet.node_id_of].
      destruct (Nat.ltb_spec (0 + i) count); [done|lia].
    - apply list_eq_same_length with (length l); [by rewrite length_fmap, length_seq|done|].
      intros i x y Hi Hx Hy. rewrite list_lookup_fmap, lookup_seq_lt in Hy by done.
      cbn in Hy. rewrite Hx in Hy. cbn in Hy. congruence. }
  rewrite Heq, rep_len. apply list_eq_same_length with (length ids); [done|by rewrite length_fmap, length_seq|].
  intros i x y Hi Hx Hy. rewrite list_lookup_fmap, lookup_seq_lt in Hx by done.
  cbn in Hx. rewrite rep_node_id_of, Hy in Hx. cbn in Hx. congruence.
Qed.

Lemma graph_neighbors n id row :
  0 <= id -> ids !! n = Some id -> rows !! n = Some row -> node_neighbors g id = Some row.
Proof.
  intros Hid Hn Hrow. unfold node_neighbors. rewrite (proj2 (rep_ordinal_of id n Hid) Hn).
  rewrite (slots_span _ rows) by apply Hg. apply lookup_lt_Some in Hrow as Hlt.
  rewrite (proj2 (Nat.ltb_lt _ _) Hlt). apply mapM_span; [apply Hg|done].
Qed.

Lemma graph_neighbors_unselected id : 0 <= id -> id ∉ ids -> node_neighbors g id = Some [].
Proof.
  intros Hid Hn. unfold node_neighbors.
  destruct (NodeSet.ordinal_of _ id) as [n|] eqn:E; [|done].
  apply rep_ordinal_of in E; [|done]. by apply list_elem_of_lookup_2 in E.
Qed.

Lemma graph_row id : 0 <= id -> exists row,
  node_neighbors g id = Some row /\
  ((exists n, ids !! n = Some id /\ rows !! n = Some row) \/ (~ (id ∈ ids) /\ row = [])).
Proof.
  intros Hid. destruct (decide (id ∈ ids)) as [(n&Hn)%list_elem_of_lookup|Hn].
  - destruct (lookup_lt_is_Some_2 rows n) as [row Hrow].
    { rewrite go_rows. by eapply lookup_lt_Some. }
    exists row. split; [by eapply graph_neighbors|]. left. by exists n.
  - exists []. split; [by apply graph_neighbors_unselected|by right].
Qed.

(** An entry leads to a selected node, or to the id no node has. *)
Lemma graph_target row edge :
  row ∈ rows -> edge ∈ row -> neighbor_id edge ∈ ids \/ neighbor_id edge = u64_max.
Proof.
  intros Hrow He. assert (Hc : edge ∈ concat rows) by (apply list_elem_of_In, in_concat; exists row; by rewrite <-!list_elem_of_In).
  apply list_elem_of_lookup in Hc as [slot Hc%go_edges]. unfold algorithm_edge in Hc.
  repeat match type of Hc with (?o ≫= _) = Some _ => destruct o; [cbn in Hc|discriminate Hc] end.
  injection Hc as <-. cbn [neighbor_id]. rewrite rep_node_id_of.
  destruct (ids !! _) as [id|] eqn:E; [left; by eapply list_elem_of_lookup_2|by right].
Qed.

Lemma graph_node_uuid n id :
  0 <= id -> ids !! n = Some id -> node_uuid g id = uuids (topology g) !! n.
Proof. intros Hid Hn. unfold node_uuid. by rewrite (proj2 (rep_ordinal_of id n Hid) Hn). Qed.
End graph_of.

(** Every entry leads to a selected node. *)
Definition closed (ids : list Z) (rows : list (list AlgorithmEdge)) : Prop :=
  forall row e, row ∈ rows -> e ∈ row -> neighbor_id e ∈ ids.

Definition is_closed (ids : list Z) (rows : list (list AlgorithmEdge)) : bool :=
  forallb (forallb (fun e => bool_decide (neighbor_id e ∈ ids))) rows.

Lemma is_closed_spec ids rows : is_closed ids rows = true <-> closed ids rows.
Proof.
  unfold is_closed, closed. rewrite forallb_forall. setoid_rewrite <-list_elem_of_In.
  setoid_rewrite forallb_forall. setoid_rewrite <-list_elem_of_In. setoid_rewrite bool_decide_eq_true. naive_solver.
Qed.

Section closed.
Context {g : AdjacencyGraph} {ids : list Z} {rows : list (list AlgorithmEdge)} `{Hg : !GraphOf g ids rows}
  (Hids : ids_ok ids).

Lemma rows_of_ids : row_of g <$> ids = rows.
Proof.
  apply list_eq_same_length with (length ids); [apply Hg|by rewrite length_fmap|].
  intros i x y Hi Hx Hy. rewrite list_lookup_fmap in Hx. destruct (lookup_lt_is_Some_2 ids i Hi) as [id Hid].
  rewrite Hid in Hx. cbn in Hx. injection Hx as <-. pose proof (ids_ok_range _ _ _ Hids Hid) as [H0 _].
  unfold row_of. by rewrite (graph_neighbors (g := g) i id y H0 Hid Hy).
Qed.

Context (Hclosed : closed ids rows).

Lemma row_known id : id ∈ ids -> node_neighbors g id = Some (row_of g id) /\
  Forall (fun e => neighbor_id e ∈ ids) (row_of g id).
Proof.
  intros (n&Hn)%list_elem_of_lookup. pose proof (ids_ok_range _ _ _ Hids Hn) as [Hid _].
  destruct (graph_row (g := g) id Hid) as (row&Hrow&[(m&Hm&Hr)|[Hno _]]).
  - unfold row_of. rewrite Hrow. split; [done|]. apply Forall_forall. intros e He.
    by eapply Hclosed; [eapply list_elem_of_lookup_2|].
  - by apply list_elem_of_lookup_2 in Hn.
Qed.
End closed.

(** ** Properties *)

(** A node set answers exactly as the ascending list of node ids it was made from, in both
    of its representations (consecutive ids as a range, others with a rank table) and for every
    cap on the rank table: the same number of nodes, an ordinal for a selected id and for no
    other, and the id of every ordinal, [u64::MAX] for an ordinal outside the selection. *)
Theorem node_set_exact ids rank_cap :
  ids_ok ids ->
  let self := NodeSet.from_ids ids rank_cap in
  NodeSet.len self = length ids /\
  (forall id n, 0 <= id -> NodeSet.ordinal_of self id = Some n <-> ids !! n = Some id) /\
  (forall n, NodeSet.node_id_of self n = default u64_max (ids !! n)).
Proof. intros Hok. destruct (from_ids_represents ids rank_cap Hok). done. Qed.

Lemma ids_ok_sample : ids_ok [3; 7; 9].
Proof. split; [by repeat (constructor; try lia)| |done]. repeat constructor; unfold u64_max; lia. Qed.

(** The id 7 is found in the rank table, 9 beyond its cap by binary search. *)
Lemma node_set_exact_witness :
  ids_ok [3; 7; 9] /\ NodeSet.from_ids [3; 7; 9] 8 <> NodeSet.Dense 3 3 /\
  NodeSet.ordinal_of (NodeSet.from_ids [3; 7; 9] 8) 7 = Some 1%nat /\
  NodeSet.ordinal_of (NodeSet.from_ids [3; 7; 9] 8) 9 = Some 2%nat.
Proof.
  destruct (node_set_exact [3; 7; 9] 8 ids_ok_sample) as (_&Hord&_).
  split_and!; [apply ids_ok_sample|done|by apply Hord|by apply Hord].
Defined.

(** The lookups of one graph, in the order they are made. *)
Fixpoint run_lookups (self : UuidLookup.UuidLookup) (uuids targets : list Key) : list (option nat) :=
  match targets with
  | [] => []
  | target :: targets' =>
      let '(found, self) := UuidLookup.find self uuids target in
      found :: run_lookups self uuids targets'
  end.

(** However many lookups a graph has answered, by scanning at first and from the sorted
    permutation afterwards, each returns the ordinal of the first node with the UUID and
    nothing for a UUID no node has: switching to the permutation is never visible. *)
Theorem uuid_lookup_first uuids targets :
  lenZ uuids <= u32_max ->
  run_lookups UuidLookup.default_lookup uuids targets = UuidLookup.position uuids <$> targets.
Proof.
  intros Hcount. assert (Hok : lookup_ok uuids UuidLookup.default_lookup) by (by left).
  revert Hok. generalize UuidLookup.default_lookup as self.
  induction targets as [|target targets IH]; intros self Hok; [done|]. cbn.
  destruct (find_position uuids Hcount self target Hok) as [Hfind Hok'].
  destruct (UuidLookup.find self uuids target) as [found self']. cbn in Hfind, Hok'.
  by rewrite Hfind, IH.
Qed.

Lemma uuid_lookup_first_witness :
  run_lookups UuidLookup.default_lookup [50; 20; 50; 10] [50; 7; 50; 10; 99; 20]
  = [Some 0%nat; None; Some 0%nat; Some 3%nat; None; Some 1%nat].
Proof. rewrite uuid_lookup_first; [reflexivity|]. vm_compute. discriminate. Defined.
