(* ===== verification/Projection.v ===== *)
(** * Graphs built from explicit entries: [AdjacencyGraph::from_entries] and
    [AdjacencyGraph::from_resolved_projection] of [crates/graphforge-exec/src/algorithm_graph.rs].

    A resolved projection is a list of node UUIDs and of edges between them, in any order.  The
    construction validates it, sorts nodes and edges by UUID, numbers them and lays the adjacency
    entries out as a CSR.  A [u32] counter wraps, as it does without overflow checks.  Each
    constructor of [ProjectionError] is one message of the code. *)

From stdpp Require Import base list gmap sets sorting relations strings.
From Stdlib Require Import ZArith Lia.
From S2P Require Import Prelude Membership Topology.

(** ** From entries *)

Abbreviation Entry := (Z * AlgorithmEdge)%type.

(** The arrays filled by the loop over the sorted entries. *)
Record EntryArrays := {
  a_counts : list Z;
  a_neighbors : list Z;
  a_edge_ids : list Z;
  a_edge_uuids : list Key;
  a_weights : list Z;
}.

Definition push_entry (nodes : NodeSet.NodeSet) (unresolvable : Z) (st : EntryArrays) (entry : Entry)
    : EntryArrays :=
  let '(node, edge) := entry in
  match NodeSet.ordinal_of nodes node with
  | None => st
  | Some source =>
      {| a_counts := alter (fun count => (count + 1) mod 2 ^ 32) source (a_counts st);
         a_neighbors := a_neighbors st ++
           [default unresolvable (NodeSet.ordinal_of nodes (neighbor_id edge) ≫= u32_try_from)];
         a_edge_ids := a_edge_ids st ++ [edge_id edge];
         a_edge_uuids := a_edge_uuids st ++ [edge_uuid edge];
         a_weights := a_weights st ++ [weight edge] |}
  end.

(** [offsets.push(offsets.last().copied().unwrap_or(0) + count)] *)
Definition push_offset (offs : list Z) (count : Z) : list Z :=
  offs ++ [(default 0 (last offs) + count) mod 2 ^ 32].

Definition entry_key (entry : Entry) : Z * (Z * Z) :=
  (entry.1, (edge_id entry.2, neighbor_id entry.2)).

Definition from_entries (directed : bool) (logical_edge_count : Z) (node_ids : list Z)
    (uuids : list Key) (entries : list Entry) : AdjacencyGraph :=
  let entries := sort_by_key entry_key entries in
  let nodes := NodeSet.from_ids node_ids u64_max in
  let node_count := NodeSet.len nodes in
  let unresolvable := default u32_max (u32_try_from node_count) in
  let st := foldl (push_entry nodes unresolvable)
    {| a_counts := replicate node_count 0; a_neighbors := []; a_edge_ids := [];
       a_edge_uuids := []; a_weights := [] |} entries in
  {| topology :=
       {| directed := directed; offsets := foldl push_offset [0] (a_counts st);
          neighbors := a_neighbors st; weights := Some (a_weights st); uuids := uuids;
          nodes := nodes;
          identity := Some {| edge_ids := a_edge_ids st; edge_uuids := a_edge_uuids st |} |};
     logical_edge_count := logical_edge_count |}.

(** ** From a resolved projection *)

Record ResolvedGraphEdge := {
  r_edge_uuid : Key;
  r_source_uuid : Key;
  r_target_uuid : Key;
  r_weight : Z;
}.

Record ResolvedGraphProjection := {
  p_directed : bool;
  p_nodes : list Key;
  p_edges : list ResolvedGraphEdge;
}.

Inductive ProjectionError :=
| DuplicateNode
| DuplicateEdge
| WeightNotFinite
| SourceNotSelected
| TargetNotSelected.

(** [windows(2).any(|pair| pair[0] == pair[1])] *)
Fixpoint adjacent_equal (keys : list Key) : bool :=
  match keys with
  | a :: ((b :: _) as keys') => (a =? b) || adjacent_equal keys'
  | _ => false
  end.

Definition edge_key (edge : ResolvedGraphEdge) : Key * (Key * Key) :=
  (r_edge_uuid edge, (r_source_uuid edge, r_target_uuid edge)).

(** [projection.nodes.binary_search(uuid).ok()] *)
Definition node_ordinal (nodes : list Key) (uuid : Key) : option nat :=
  match binary_search_by (fun x => x ?= uuid) nodes with Some (inl index) => Some index | _ => None end.

(** The loop over the sorted edges; [index] is the next edge id. *)
Fixpoint projection_entries (directed : bool) (nodes : list Key) (index : nat)
    (edges : list ResolvedGraphEdge) : result ProjectionError (list Entry) :=
  match edges with
  | [] => Ok []
  | edge :: edges' =>
      if negb (f64_is_finite (r_weight edge)) then Err WeightNotFinite
      else
        source ← ok_or (node_ordinal nodes (r_source_uuid edge)) SourceNotSelected;
        target ← ok_or (node_ordinal nodes (r_target_uuid edge)) TargetNotSelected;
        let entry neighbor_id :=
          {| edge_id := Z.of_nat index; edge_uuid := r_edge_uuid edge; neighbor_id := neighbor_id;
             weight := r_weight edge |} in
        let source := Z.of_nat source in
        let target := Z.of_nat target in
        entries ← projection_entries directed nodes (S index) edges';
        Ok ((source, entry target) ::
            (if directed then [] else [(target, entry source)]) ++ entries)
  end.

Definition from_resolved_projection (projection : ResolvedGraphProjection)
    : result ProjectionError AdjacencyGraph :=
  let nodes := sort_by_key id (p_nodes projection) in
  if adjacent_equal nodes then Err DuplicateNode
  else
    let edges := sort_by_key edge_key (p_edges projection) in
    if adjacent_equal (r_edge_uuid <$> edges) then Err DuplicateEdge
    else
      entries ← projection_entries (p_directed projection) nodes 0 edges;
      Ok (from_entries (p_directed projection) (lenZ edges) (Z.of_nat <$> seq 0 (length nodes)) nodes entries).

(** ** Sorting and grouping *)

(** In a list sorted by node, the groups of ascending nodes follow each other. *)
Section grouping.
Context {E : Type} (node : E -> Z).

Definition group (l : list E) (id : Z) : list E := filter (fun e => node e = id) l.

Lemma filter_split_sorted (P Q : E -> Prop) `{forall e, Decision (P e), forall e, Decision (Q e)} l :
  StronglySorted (fun a b => node a <= node b) l ->
  (forall a b, P a -> Q b -> node a < node b) ->
  filter (fun e => P e \/ Q e) l = filter P l ++ filter Q l.
Proof.
  intros Hs Hpq. induction Hs as [|e l Hl IH He]; [done|]. rewrite !filter_cons, IH.
  destruct (decide (P e)) as [Pe|Pe].
  - rewrite decide_True by auto. destruct (decide (Q e)) as [Qe|]; [|done].
    specialize (Hpq e e Pe Qe). lia.
  - destruct (decide (Q e)) as [Qe|Qe]; [|by rewrite decide_False by tauto].
    rewrite decide_True by auto.
    assert (Hnil : filter P l = []).
    { apply filter_none. intros a Ha Pa. rewrite Forall_forall in He.
      specialize (He a Ha). specialize (Hpq a e Pa Qe). lia. }
    by rewrite Hnil.
Qed.

Lemma concat_groups ids l :
  ascending ids -> StronglySorted (fun a b => node a <= node b) l ->
  concat (group l <$> ids) = filter (fun e => node e ∈ ids) l.
Proof.
  intros Hids Hl. induction Hids as [|id ids Hids IH Hid]; cbn.
  { symmetry. apply filter_none. intros e _ He. by apply not_elem_of_nil in He. }
  rewrite IH. unfold group. rewrite Forall_forall in Hid.
  rewrite <-(filter_split_sorted (fun e => node e = id) (fun e => node e ∈ ids)); [|done|].
  - apply list_filter_iff. intros e. by rewrite elem_of_cons.
  - intros a b -> Hb. by apply Hid.
Qed.
End grouping.

(** ** The CSR of the entries *)

Lemma offsets_of_last {A} offs (rows : list (list A)) :
  offsets_of offs rows -> last offs = Some (lenZ (concat rows)).
Proof.
  intros [Hlen Hoff]. rewrite last_lookup, Hlen. cbn [Nat.pred]. rewrite Hoff by lia.
  by rewrite firstn_all.
Qed.

Lemma offsets_of_snoc {A} offs (rows : list (list A)) row :
  offsets_of offs rows -> offsets_of (offs ++ [lenZ (concat rows) + lenZ row]) (rows ++ [row]).
Proof.
  intros [Hlen Hoff]. split; [rewrite !length_app, Hlen; cbn; lia|].
  intros n Hn. rewrite length_app in Hn. cbn in Hn.
  destruct (decide (n = S (length rows))) as [->|Hne].
  - rewrite lookup_app_r, Hlen, Nat.sub_diag by lia. cbn.
    rewrite take_ge by (rewrite length_app; cbn; lia).
    rewrite concat_app, length_app. cbn. rewrite app_nil_r. f_equal. lia.
  - rewrite lookup_app_l by lia. rewrite take_app_le by lia. apply Hoff. lia.
Qed.

Lemma push_offsets_of {A} (rows : list (list A)) :
  lenZ (concat rows) <= u32_max ->
  offsets_of (foldl push_offset [0] ((fun row => lenZ row) <$> rows)) rows.
Proof.
  induction rows as [|row rows IH] using rev_ind; intros Hle.
  { split; [done|]. intros [|n] Hn; [done|cbn in Hn; lia]. }
  rewrite concat_app, length_app in Hle. cbn [concat] in Hle. rewrite app_nil_r in Hle.
  rewrite fmap_app, foldl_app. cbn [foldl fmap list_fmap]. specialize (IH ltac:(lia)).
  unfold push_offset at 1. rewrite (offsets_of_last _ _ IH). cbn [default from_option id].
  rewrite Z.mod_small by (unfold u32_max in Hle; lia). by apply offsets_of_snoc.
Qed.

Section from_entries.
Context (ids : list Z) (Hids : ids_ok ids) (nodes : NodeSet.NodeSet) `{Hrep : !Represents nodes ids}.

(** A neighbour outside the selection stays outside it. *)
Definition retarget (edge : AlgorithmEdge) : AlgorithmEdge :=
  {| edge_id := edge_id edge; edge_uuid := edge_uuid edge;
     neighbor_id := if decide (neighbor_id edge ∈ ids) then neighbor_id edge else u64_max;
     weight := weight edge |}.

Definition entry_ok (entry : Entry) : Prop := 0 <= entry.1 /\ 0 <= neighbor_id entry.2.

Lemma ordinal_cases id : 0 <= id ->
  (exists n, ids !! n = Some id /\ NodeSet.ordinal_of nodes id = Some n) \/
  (~ (id ∈ ids) /\ NodeSet.ordinal_of nodes id = None).
Proof.
  intros Hid. destruct (NodeSet.ordinal_of nodes id) as [n|] eqn:E.
  - left. exists n. split; [|done]. by apply (rep_ordinal_of id n Hid).
  - right. split; [|done]. intros (n&Hn)%list_elem_of_lookup.
    apply (rep_ordinal_of id n Hid) in Hn. congruence.
Qed.

(** The ordinal stored for an entry's neighbour. *)
Definition stored_neighbor (unresolvable : Z) (edge : AlgorithmEdge) : Z :=
  default unresolvable (NodeSet.ordinal_of nodes (neighbor_id edge) ≫= u32_try_from).

Lemma stored_neighbor_id unresolvable edge :
  0 <= neighbor_id edge -> unresolvable = lenZ ids ->
  NodeSet.node_id_of nodes (Z.to_nat (stored_neighbor unresolvable edge)) = neighbor_id (retarget edge).
Proof.
  intros Hn ->. unfold stored_neighbor, retarget. cbn [neighbor_id]. rewrite rep_node_id_of.
  destruct (ordinal_cases (neighbor_id edge) Hn) as [(n&Hid&->)|[Hid ->]]; cbn.
  - rewrite decide_True by (by eapply list_elem_of_lookup_2). unfold u32_try_from.
    apply lookup_lt_Some in Hid as Hlt. pose proof (ids_count _ Hids).
    destruct (Z.leb_spec (Z.of_nat n) u32_max); [|lia]. cbn. by rewrite Nat2Z.id, Hid.
  - rewrite decide_False by done. by rewrite Nat2Z.id, lookup_ge_None_2 by lia.
Qed.

Lemma push_entries_arrays u l st :
  Forall entry_ok l ->
  let st' := foldl (push_entry nodes u) st l in
  let kept := snd <$> filter (fun entry => entry.1 ∈ ids) l in
  a_neighbors st' = a_neighbors st ++ (stored_neighbor u <$> kept) /\
  a_edge_ids st' = a_edge_ids st ++ (edge_id <$> kept) /\
  a_edge_uuids st' = a_edge_uuids st ++ (edge_uuid <$> kept) /\
  a_weights st' = a_weights st ++ (weight <$> kept) /\
  length (a_counts st') = length (a_counts st).
Proof.
  intros Hl. revert st. induction Hl as [|[node edge] l [Hnode _] Hl IH]; intros st.
  { cbn. by rewrite !app_nil_r. }
  cbn [foldl]. rewrite filter_cons. cbn [fst]. cbn [fst] in Hnode. destruct (ordinal_cases node Hnode) as [(n&Hid&E)|[Hid E]].
  - rewrite decide_True by (cbn; by eapply list_elem_of_lookup_2). specialize (IH (push_entry nodes u st (node, edge))).
    cbn zeta in IH. destruct IH as (->&->&->&->&->). cbn. rewrite E. cbn.
    rewrite <-!app_assoc, length_alter. by split_and!.
  - rewrite decide_False by done. specialize (IH (push_entry nodes u st (node, edge))).
    cbn zeta in IH. destruct IH as (->&->&->&->&->). cbn. by rewrite E.
Qed.

Lemma push_entries_counts u l st n id c :
  Forall entry_ok l -> ids !! n = Some id -> a_counts st !! n = Some c -> 0 <= c ->
  c + lenZ l <= u32_max ->
  a_counts (foldl (push_entry nodes u) st l) !! n = Some (c + lenZ (group fst l id)).
Proof.
  intros Hl Hn. revert st c. induction Hl as [|[node edge] l [Hnode _] Hl IH]; intros st c Hc Hc0 Hle.
  { cbn. rewrite Hc. f_equal. lia. }
  cbn [foldl length] in *. unfold group in *. rewrite filter_cons. cbn [fst].
  destruct (ordinal_cases node Hnode) as [(m&Hm&E)|[Hm E]].
  - destruct (decide (node = id)) as [->|Hne].
    + assert (m = n) as -> by exact (ascending_inj ids m n id (ids_ascending _ Hids) Hm Hn).
      rewrite (IH _ (c + 1)); [cbn; f_equal; lia| |lia|lia].
      cbn. rewrite E. cbn. rewrite list_lookup_alter_eq, Hc. cbn.
      rewrite Z.mod_small by (unfold u32_max in Hle; lia). done.
    + apply IH; [|lia|lia]. cbn. rewrite E. cbn. rewrite list_lookup_alter_ne; [done|].
      intros ->. congruence.
  - destruct (decide (node = id)) as [->|Hne]; [by apply list_elem_of_lookup_2 in Hn|].
    apply IH; [|lia|lia]. cbn. by rewrite E.
Qed.
End from_entries.

(** The rows of the entries: those of each node in key order. *)
Definition entry_rows (ids : list Z) (entries : list Entry) : list (list AlgorithmEdge) :=
  (fun id => retarget ids <$> (snd <$> group fst (sort_by_key entry_key entries) id)) <$> ids.

Lemma sort_entries_by_node entries :
  StronglySorted (fun a b : Entry => a.1 <= b.1) (sort_by_key entry_key entries).
Proof.
  eapply StronglySorted_impl; [|apply (sort_by_key_sorted entry_key)].
  intros [a1 a2] [b1 b2] [[Hle _]|[Heq _]]; cbn in *; lia.
Qed.

Lemma entry_rows_concat ids entries :
  ids_ok ids ->
  concat (entry_rows ids entries) =
    retarget ids <$> (snd <$> filter (fun entry => entry.1 ∈ ids) (sort_by_key entry_key entries)).
Proof.
  intros Hids. rewrite <-(concat_groups fst) by (apply Hids || apply sort_entries_by_node).
  unfold entry_rows, fmap. rewrite !concat_map, !map_map. done.
Qed.

#[export] Instance from_entries_graph directed count ids uuids entries :
  ids_ok ids -> Forall entry_ok entries -> lenZ entries <= u32_max ->
  GraphOf (from_entries directed count ids uuids entries) ids (entry_rows ids entries).
Proof.
  intros Hids Hok Hlen. set (sorted := sort_by_key entry_key entries).
  pose proof (from_ids_represents ids u64_max Hids) as Hrep.
  assert (Hsok : Forall entry_ok sorted) by (unfold sorted; by rewrite sort_by_key_perm).
  assert (Hslen : lenZ sorted <= u32_max) by (unfold sorted; by rewrite sort_by_key_perm).
  pose proof (entry_rows_concat ids entries Hids) as Hcat. fold sorted in Hcat.
  pose proof (ids_count _ Hids) as Hn.
  assert (Hu : default u32_max (u32_try_from (NodeSet.len (NodeSet.from_ids ids u64_max))) = lenZ ids).
  { rewrite rep_len. unfold u32_try_from. by destruct (Z.leb_spec (lenZ ids) u32_max); [|lia]. }
  unfold from_entries. fold sorted. rewrite Hu. set (st0 := {| a_counts := _ |}).
  destruct (push_entries_arrays ids _ (lenZ ids) sorted st0 Hsok) as (Enb&Eid&Euu&Ew&Ec).
  split; cbn [topology nodes offsets neighbors]; [done|by unfold entry_rows; rewrite length_fmap| | |].
  - replace (a_counts _) with ((fun row => lenZ row) <$> entry_rows ids entries).
    { apply push_offsets_of. rewrite Hcat, !length_fmap. pose proof (length_filter (fun e : Entry => e.1 ∈ ids) sorted). lia. }
    apply list_eq_same_length with (length ids).
    { rewrite Ec. unfold st0. cbn [a_counts]. by rewrite length_replicate, rep_len. }
    { unfold entry_rows. by rewrite !length_fmap. }
    intros i x y Hi Hx Hy. destruct (lookup_lt_is_Some_2 ids i Hi) as [id Hid].
    rewrite (push_entries_counts ids Hids _ _ _ _ i id 0) in Hy; [|done..| |done|lia].
    + unfold entry_rows in Hx. rewrite !list_lookup_fmap, Hid in Hx. cbn in Hx.
      rewrite !length_fmap in Hx. fold sorted in Hx. injection Hx as <-. injection Hy as <-. lia.
    + unfold st0. cbn [a_counts]. rewrite lookup_replicate_2; [done|by rewrite rep_len].
  - rewrite Enb, Hcat. cbn. by rewrite !length_fmap.
  - change (a_neighbors st0) with (@nil Z) in Enb. change (a_edge_ids st0) with (@nil Z) in Eid.
    change (a_edge_uuids st0) with (@nil Key) in Euu. change (a_weights st0) with (@nil Z) in Ew.
    set (kept := snd <$> _) in Hcat, Enb, Eid, Euu, Ew.
    intros slot edge He. rewrite Hcat, list_lookup_fmap, fmap_Some in He. destruct He as (edge0&He&->).
    unfold algorithm_edge. cbn. rewrite Eid, Euu, Ew, Enb. cbn [app].
    rewrite !list_lookup_fmap, He. cbn.
    rewrite (stored_neighbor_id ids Hids); [done|done| |done].
    apply list_elem_of_lookup_2, list_elem_of_fmap in He as (entry&->&[_ Hin]%list_elem_of_filter).
    rewrite Forall_forall in Hsok. by apply Hsok.
Qed.

(** ** Accepted projections *)

Lemma adjacent_equal_spec l : StronglySorted Z.le l ->
  if adjacent_equal l then ~ NoDup l else ascending l.
Proof.
  induction 1 as [|a l Hl IH Ha]; [constructor|]. destruct l as [|b l]; [repeat constructor|].
  change (adjacent_equal (a :: b :: l)) with ((a =? b) || adjacent_equal (b :: l)).
  destruct (Z.eqb_spec a b) as [->|Hab]; cbn [orb].
  { intros [Hn _]%NoDup_cons. apply Hn. left. }
  destruct (adjacent_equal (b :: l)).
  - intros [_ Hnd]%NoDup_cons. done.
  - constructor; [done|]. inversion Ha as [|? ? Hle Ha']; subst.
    inversion IH as [|? ? _ Hb]; subst. constructor; [lia|]. eapply Forall_impl; [done|]. cbn. lia.
Qed.

(** The test on the sorted keys decides whether two elements share a key. *)
Lemma adjacent_equal_sort {A K} `{Ord K} (f : A -> Key) (key : A -> K) (l : list A) :
  (forall a b, ord_le (key a) (key b) -> f a <= f b) ->
  adjacent_equal (f <$> sort_by_key key l) = false <-> NoDup (f <$> l).
Proof.
  intros Hle. assert (Hs : StronglySorted Z.le (f <$> sort_by_key key l)).
  { apply (StronglySorted_fmap _ (key_le key)); [|apply sort_by_key_sorted]. intros a b Hab. by apply Hle. }
  apply adjacent_equal_spec in Hs. assert (Hp : f <$> sort_by_key key l ≡ₚ f <$> l) by (by rewrite sort_by_key_perm).
  rewrite <-Hp. destruct (adjacent_equal _); split; [done|done|intros _; by apply ascending_NoDup|done].
Qed.

(** What the construction accepts. *)
Definition edge_accepted (nodes : list Key) (edge : ResolvedGraphEdge) : Prop :=
  f64_is_finite (r_weight edge) = true /\ r_source_uuid edge ∈ nodes /\ r_target_uuid edge ∈ nodes.

Record projection_accepted (p : ResolvedGraphProjection) : Prop := {
  accepted_nodes : NoDup (p_nodes p);
  accepted_edges : NoDup (r_edge_uuid <$> p_edges p);
  accepted_each : Forall (edge_accepted (p_nodes p)) (p_edges p);
}.

Section entries.
Context (directed : bool) (nodes : list Key) (Hnodes : ascending nodes).

Definition ordinal (uuid : Key) : Z := Z.of_nat (default 0%nat (node_ordinal nodes uuid)).

Definition edge_entry (index : nat) (edge : ResolvedGraphEdge) (neighbor : Key) : AlgorithmEdge :=
  {| edge_id := Z.of_nat index; edge_uuid := r_edge_uuid edge; neighbor_id := ordinal neighbor;
     weight := r_weight edge |}.

(** The entries of accepted edges. *)
Fixpoint accepted_entries (index : nat) (edges : list ResolvedGraphEdge) : list Entry :=
  match edges with
  | [] => []
  | edge :: edges' =>
      (ordinal (r_source_uuid edge), edge_entry index edge (r_target_uuid edge)) ::
      (if directed then [] else [(ordinal (r_target_uuid edge), edge_entry index edge (r_source_uuid edge))]) ++
      accepted_entries (S index) edges'
  end.

Lemma node_ordinal_iff uuid n : node_ordinal nodes uuid = Some n <-> nodes !! n = Some uuid.
Proof. by apply binary_search_index. Qed.

Lemma node_ordinal_elem uuid : uuid ∈ nodes <-> is_Some (node_ordinal nodes uuid).
Proof.
  rewrite list_elem_of_lookup. unfold is_Some. by setoid_rewrite node_ordinal_iff.
Qed.

Lemma ordinal_lookup uuid : uuid ∈ nodes -> exists n, ordinal uuid = Z.of_nat n /\ nodes !! n = Some uuid.
Proof.
  intros [n Hn]%node_ordinal_elem. exists n. unfold ordinal. rewrite Hn. split; [done|].
  by apply node_ordinal_iff.
Qed.

Lemma projection_entries_spec index edges :
  match projection_entries directed nodes index edges with
  | Ok entries => Forall (edge_accepted nodes) edges /\ entries = accepted_entries index edges
  | Err _ => ~ Forall (edge_accepted nodes) edges
  end.
Proof.
  revert index. induction edges as [|edge edges IH]; intros index; [done|]. cbn [projection_entries].
  destruct (f64_is_finite (r_weight edge)) eqn:Hf; cbn [negb].
  2: { intros [(?&_)]%Forall_cons. congruence. }
  destruct (node_ordinal nodes (r_source_uuid edge)) as [s|] eqn:Hs; cbn.
  2: { intros [(_&H&_)]%Forall_cons. apply node_ordinal_elem in H. rewrite Hs in H. by destruct H. }
  destruct (node_ordinal nodes (r_target_uuid edge)) as [t|] eqn:Ht; cbn.
  2: { intros [(_&_&H)]%Forall_cons. apply node_ordinal_elem in H. rewrite Ht in H. by destruct H. }
  specialize (IH (S index)). destruct (projection_entries _ _ _ edges) as [entries|e]; cbn.
  2: { intros [_ H]%Forall_cons. done. }
  destruct IH as [Hall ->]. split.
  - constructor; [|done]. unfold edge_accepted. rewrite !node_ordinal_elem, Hs, Ht. done.
  - unfold edge_entry, ordinal. by rewrite Hs, Ht.
Qed.

Lemma accepted_entries_index index edges entry :
  entry ∈ accepted_entries index edges -> Z.of_nat index <= edge_id entry.2.
Proof.
  revert index. induction edges as [|edge edges IH]; intros index; cbn; [by intros ?%not_elem_of_nil|].
  rewrite elem_of_cons, elem_of_app. intros [->|[H|H]]; [done| |apply IH in H; lia].
  destruct directed; [by apply not_elem_of_nil in H|]. apply list_elem_of_singleton in H as ->. done.
Qed.

Lemma accepted_entries_length index edges :
  (length (accepted_entries index edges) <= 2 * length edges)%nat.
Proof.
  revert index. induction edges as [|edge edges IH]; intros index; cbn; [lia|].
  rewrite length_app. specialize (IH (S index)). destruct directed; cbn; lia.
Qed.

(** ** The entries of a node *)

Lemma ordinal_of_eq uuid n u :
  uuid ∈ nodes -> nodes !! n = Some u -> ordinal uuid = Z.of_nat n <-> uuid = u.
Proof.
  intros (m&->&Hm)%ordinal_lookup Hn. split; intros H.
  - assert (m = n) as -> by lia. congruence.
  - subst u. f_equal. by eapply ascending_inj.
Qed.

(** The entries of one node are produced in key order. *)
Lemma group_accepted_sorted index edges n :
  StronglySorted (key_le entry_key) (group fst (accepted_entries index edges) n).
Proof.
  revert index. induction edges as [|edge edges IH]; intros index; [constructor|].
  set (a := (ordinal (r_source_uuid edge), edge_entry index edge (r_target_uuid edge))).
  set (b := (ordinal (r_target_uuid edge), edge_entry index edge (r_source_uuid edge))).
  assert (Htail : forall entry, edge_id entry.2 = Z.of_nat index -> entry.1 = n ->
    Forall (key_le entry_key entry) (group fst (accepted_entries (S index) edges) n)).
  { intros entry Hidx Hn. apply Forall_forall. intros e [He Hin]%list_elem_of_filter.
    apply accepted_entries_index in Hin. right. cbn. split; [congruence|]. left. cbn. lia. }
  assert (Hb : StronglySorted (key_le entry_key)
    (group fst ((if directed then [] else [b]) ++ accepted_entries (S index) edges) n)).
  { destruct directed; [apply IH|]. cbn [app]. unfold group. rewrite filter_cons.
    case_decide; [|apply IH]. constructor; [apply IH|by apply Htail]. }
  cbn [accepted_entries]. fold a b. unfold group in *. rewrite filter_cons. case_decide as Ha; [|done].
  constructor; [done|]. rewrite filter_app. apply Forall_app. split; [|by apply Htail].
  destruct directed; [constructor|]. rewrite filter_cons. case_decide as Hbn; [|constructor].
  constructor; [|constructor]. unfold key_le. replace (entry_key b) with (entry_key a); [apply ord_refl|].
  unfold entry_key, a, b in *. cbn in *. congruence.
Qed.

(** An entry as the public identities it stands for. *)
Definition public (edge : AlgorithmEdge) : Key * option Key * Z :=
  (edge_uuid edge, nodes !! Z.to_nat (neighbor_id edge), weight edge).

(** The edges at the node [u], in the order given: the other endpoint of each, and for an
    undirected projection each edge seen from both of its ends. *)
Definition incident_edges (u : Key) (edges : list ResolvedGraphEdge) : list (Key * option Key * Z) :=
  concat ((fun e =>
    (if decide (r_source_uuid e = u) then [(r_edge_uuid e, Some (r_target_uuid e), r_weight e)] else []) ++
    (if directed then []
     else if decide (r_target_uuid e = u) then [(r_edge_uuid e, Some (r_source_uuid e), r_weight e)] else []))
    <$> edges).

Lemma public_entry index edge neighbor :
  neighbor ∈ nodes ->
  public (edge_entry index edge neighbor) = (r_edge_uuid edge, Some neighbor, r_weight edge).
Proof.
  intros (m&Hm&Hl)%ordinal_lookup. unfold public. cbn. by rewrite Hm, Nat2Z.id, Hl.
Qed.

Lemma group_accepted_public index edges n u :
  Forall (edge_accepted nodes) edges -> nodes !! n = Some u ->
  public <$> (snd <$> group fst (accepted_entries index edges) (Z.of_nat n)) = incident_edges u edges.
Proof.
  intros Hall Hn. revert index. induction Hall as [|edge edges (_&Hs&Ht) Hall IH]; intros index; [done|].
  cbn [accepted_entries]. unfold incident_edges. rewrite fmap_cons. cbn [concat].
  fold (incident_edges u edges). unfold group in *. rewrite filter_cons, filter_app. cbn [fst].
  assert (Hrest : public <$> (snd <$> filter (fun e : Entry => e.1 = Z.of_nat n)
      (if directed then [] else [(ordinal (r_target_uuid edge), edge_entry index edge (r_source_uuid edge))]))
    = if directed then []
      else if decide (r_target_uuid edge = u)
           then [(r_edge_uuid edge, Some (r_source_uuid edge), r_weight edge)] else []).
  { destruct directed; [done|]. rewrite filter_cons. cbn [fst].
    rewrite (decide_ext _ _ _ _ (ordinal_of_eq _ n u Ht Hn)). case_decide; [|done]. cbn.
    by rewrite public_entry. }
  rewrite (decide_ext _ _ _ _ (ordinal_of_eq _ n u Hs Hn)).
  destruct (decide (r_source_uuid edge = u)); rewrite ?fmap_cons, !fmap_app, Hrest, IH; [|done].
  cbn [snd]. by rewrite public_entry.
Qed.
End entries.

(** ** Properties *)

Lemma sort_nodes_equal nodes : adjacent_equal (sort_by_key id nodes) = false <-> NoDup nodes.
Proof.
  rewrite <-(list_fmap_id nodes) at 2. rewrite <-(list_fmap_id (sort_by_key id nodes)).
  by apply adjacent_equal_sort.
Qed.

Lemma sort_edges_equal edges :
  adjacent_equal (r_edge_uuid <$> sort_by_key edge_key edges) = false <-> NoDup (r_edge_uuid <$> edges).
Proof. apply adjacent_equal_sort. intros a b [[Hle _]|[Heq _]]; cbn in *; lia. Qed.

Lemma sort_nodes_ascending nodes : NoDup nodes -> ascending (sort_by_key id nodes).
Proof.
  intros Hnd%sort_nodes_equal. pose proof (adjacent_equal_spec (sort_by_key id nodes)) as H.
  rewrite Hnd in H. apply H. eapply StronglySorted_impl; [|apply sort_by_key_sorted]. done.
Qed.

Lemma edge_accepted_perm nodes nodes' edges edges' :
  nodes ≡ₚ nodes' -> edges ≡ₚ edges' ->
  Forall (edge_accepted nodes) edges <-> Forall (edge_accepted nodes') edges'.
Proof.
  intros Hn He. rewrite He. apply Forall_proper; [|done]. intros e. unfold edge_accepted. by rewrite Hn.
Qed.

(** A projection is accepted exactly when it satisfies [projection_accepted]; the graph is then
    made of the entries of its sorted edges. *)
Lemma projection_result p :
  let nodes := sort_by_key id (p_nodes p) in
  let edges := sort_by_key edge_key (p_edges p) in
  match from_resolved_projection p with
  | Ok g => projection_accepted p /\
      g = from_entries (p_directed p) (lenZ edges) (Z.of_nat <$> seq 0 (length nodes)) nodes
            (accepted_entries (p_directed p) nodes 0 edges)
  | Err _ => ~ projection_accepted p
  end.
Proof.
  cbn zeta. unfold from_resolved_projection. pose proof (sort_nodes_equal (p_nodes p)) as Hn.
  destruct (adjacent_equal (sort_by_key id _)).
  { intros [Hnd _ _]. by apply Hn in Hnd. }
  pose proof (sort_edges_equal (p_edges p)) as He. destruct (adjacent_equal (r_edge_uuid <$> _)).
  { intros [_ Hnd _]. by apply He in Hnd. }
  destruct Hn as [Hn _]. destruct He as [He _]. specialize (Hn eq_refl). specialize (He eq_refl).
  pose proof (projection_entries_spec (p_directed p) _ (sort_nodes_ascending _ Hn) 0
    (sort_by_key edge_key (p_edges p))) as Hspec.
  destruct (edge_accepted_perm (sort_by_key id (p_nodes p)) (p_nodes p)
    (sort_by_key edge_key (p_edges p)) (p_edges p)) as [Hto Hfrom]; [apply sort_by_key_perm..|].
  destruct (projection_entries _ _ _ _) as [entries|e]; cbn.
  - destruct Hspec as [Hall ->]. split; [|done]. by split; [..|apply Hto].
  - intros [_ _ Hall]. by apply Hspec, Hfrom.
Qed.

Lemma dense_ids_ok n : Z.of_nat n <= u32_max -> ids_ok (Z.of_nat <$> seq 0 n).
Proof.
  intros Hn. split.
  - generalize 0%nat as k. clear Hn. induction n as [|n IH]; intros k; [constructor|].
    cbn [seq]. rewrite fmap_cons. constructor; [apply IH|]. apply Forall_fmap, Forall_forall.
    intros m Hm%elem_of_seq. cbn. lia.
  - apply Forall_forall. intros id (m&->&Hm%elem_of_seq)%list_elem_of_fmap.
    unfold u32_max, u64_max in *. lia.
  - by rewrite length_fmap, length_seq.
Qed.

(** Entries of weight one, numbered in order, as the tests of the algorithms build them. *)
Definition unit_entry (edge_id : nat) (pair : Z * Z) : Entry :=
  (pair.1, {| edge_id := Z.of_nat edge_id; edge_uuid := Z.of_nat edge_id; neighbor_id := pair.2; weight := f64_one |}).
Definition unit_entries (pairs : list (Z * Z)) : list Entry := imap unit_entry pairs.


(** The graph of such entries over the nodes [0], ..., [n - 1]. *)
Definition unit_graph (directed : bool) (n : nat) (pairs : list (Z * Z)) : AdjacencyGraph :=
  let ids := Z.of_nat <$> seq 0 n in from_entries directed (lenZ pairs) ids ids (unit_entries pairs).

Lemma unit_graph_of directed n pairs :
  Forall (fun p => 0 <= p.1 /\ 0 <= p.2) pairs -> Z.of_nat n <= u32_max -> lenZ pairs <= u32_max ->
  GraphOf (unit_graph directed n pairs) (Z.of_nat <$> seq 0 n) (entry_rows (Z.of_nat <$> seq 0 n) (unit_entries pairs)).
Proof.
  intros Hp Hn Hl. apply from_entries_graph; [by apply dense_ids_ok| |unfold unit_entries; by rewrite length_imap].
  apply Forall_forall. intros entry (i&p&->&Hi)%elem_of_lookup_imap. rewrite Forall_forall in Hp.
  by apply (Hp p), list_elem_of_lookup_2 with i.
Qed.

Lemma accepted_entries_ok directed nodes index edges : Forall entry_ok (accepted_entries directed nodes index edges).
Proof.
  revert index. induction edges as [|edge edges IH]; intros index; cbn; [constructor|].
  assert (forall u, 0 <= ordinal nodes u) by (unfold ordinal; lia).
  constructor; [by split; cbn|]. apply Forall_app. split; [|done]. destruct directed; repeat constructor; cbn; done.
Qed.

(** The sizes the [u32] arrays of a graph can hold. *)
Definition projection_fits (p : ResolvedGraphProjection) : Prop :=
  lenZ (p_nodes p) <= u32_max /\ 2 * lenZ (p_edges p) <= u32_max.

Lemma projection_graph p g :
  projection_fits p -> from_resolved_projection p = Ok g ->
  let ids := Z.of_nat <$> seq 0 (length (p_nodes p)) in
  let nodes := sort_by_key id (p_nodes p) in
  let edges := sort_by_key edge_key (p_edges p) in
  projection_accepted p /\ uuids (topology g) = nodes /\
  GraphOf g ids (entry_rows ids (accepted_entries (p_directed p) nodes 0 edges)).
Proof.
  intros [Hn He] Hok. pose proof (projection_result p) as Hres. rewrite Hok in Hres.
  cbn zeta in *. rewrite (Permutation_length (sort_by_key_perm id (p_nodes p))) in Hres.
  destruct Hres as [Hacc ->]. split_and!; [done|done|]. apply from_entries_graph.
  - by apply dense_ids_ok.
  - apply accepted_entries_ok.
  - pose proof (accepted_entries_length (p_directed p) (sort_by_key id (p_nodes p)) 0 (sort_by_key edge_key (p_edges p))) as Hl.
    rewrite (Permutation_length (sort_by_key_perm edge_key (p_edges p))) in Hl. lia.
Qed.

(** Every neighbour of an accepted entry is selected. *)
Lemma accepted_entries_selected directed nodes index edges entry :
  ascending nodes -> Forall (edge_accepted nodes) edges ->
  entry ∈ accepted_entries directed nodes index edges ->
  neighbor_id entry.2 ∈ Z.of_nat <$> seq 0 (length nodes).
Proof.
  intros Hs Hall. revert index. induction Hall as [|edge edges (_&Hsrc&Htgt) Hall IH]; intros index; cbn [accepted_entries].
  { by intros ?%not_elem_of_nil. }
  assert (Ho : forall u, u ∈ nodes -> ordinal nodes u ∈ Z.of_nat <$> seq 0 (length nodes)).
  { intros u (n&->&Hn)%ordinal_lookup; [|done]. apply list_elem_of_fmap_2, elem_of_seq.
    apply lookup_lt_Some in Hn. lia. }
  rewrite elem_of_cons, elem_of_app. intros [->|[H|H]]; [by apply Ho| |by apply IH in H].
  destruct directed; [by apply not_elem_of_nil in H|]. apply list_elem_of_singleton in H as ->. by apply Ho.
Qed.

Section accepted.
Context (p : ResolvedGraphProjection) (g : AdjacencyGraph)
  (Hfit : projection_fits p) (Hok : from_resolved_projection p = Ok g).

Let nodes := sort_by_key id (p_nodes p).
Let edges := sort_by_key edge_key (p_edges p).
Let ids := Z.of_nat <$> seq 0 (length nodes).
Let entries := accepted_entries (p_directed p) nodes 0 edges.

Lemma nodes_length : length nodes = length (p_nodes p).
Proof. clear. unfold nodes. by rewrite sort_by_key_perm. Qed.

#[local] Instance accepted_graph : GraphOf g ids (entry_rows ids entries).
Proof.
  destruct (projection_graph p g Hfit Hok) as (_&_&Hg). unfold ids. by rewrite nodes_length.
Qed.

Lemma accepted_ids_lookup n : (n < length nodes)%nat -> ids !! n = Some (Z.of_nat n).
Proof. intros Hn. unfold ids. by rewrite list_lookup_fmap, lookup_seq_lt. Qed.

Lemma accepted_node_uuid n : (n < length nodes)%nat -> node_uuid g (Z.of_nat n) = nodes !! n.
Proof.
  intros Hn. destruct (projection_graph p g Hfit Hok) as (_&Huuids&_). fold nodes in Huuids.
  rewrite <-Huuids. apply (graph_node_uuid n); [lia|by apply accepted_ids_lookup].
Qed.

Lemma accepted_node_uuids : (node_uuid g <$> node_ids g) = (Some <$> nodes).
Proof.
  rewrite graph_node_ids. unfold ids. rewrite <-list_fmap_compose.
  apply list_eq_same_length with (length nodes); [by rewrite length_fmap|by rewrite length_fmap, length_seq|].
  intros i x y Hi Hx Hy. rewrite list_lookup_fmap, lookup_seq_lt in Hx by lia.
  cbn in Hx. rewrite accepted_node_uuid in Hx by done. rewrite list_lookup_fmap in Hy.
  injection Hx as <-. destruct (nodes !! i); [|done]. by injection Hy as <-.
Qed.

Lemma accepted_row u : u ∈ p_nodes p -> exists id row,
  id ∈ node_ids g /\ node_uuid g id = Some u /\ node_neighbors g id = Some row /\
  ((fun e => (edge_uuid e, node_uuid g (neighbor_id e), weight e)) <$> row)
    = incident_edges (p_directed p) u edges.
Proof.
  intros Hu. destruct (projection_graph p g Hfit Hok) as (Hacc&_&_).
  assert (Hasc : ascending nodes) by (apply sort_nodes_ascending, Hacc).
  assert (Hall : Forall (edge_accepted nodes) edges).
  { eapply edge_accepted_perm; [apply sort_by_key_perm..|]. apply Hacc. }
  assert (Hu' : u ∈ nodes) by (unfold nodes; by rewrite sort_by_key_perm).
  apply list_elem_of_lookup in Hu' as [n Hn]. apply lookup_lt_Some in Hn as Hlt.
  exists (Z.of_nat n), (retarget ids <$> (snd <$> group fst (sort_by_key entry_key entries) (Z.of_nat n))).
  split_and!.
  { rewrite graph_node_ids. eapply list_elem_of_lookup_2. by apply accepted_ids_lookup. }
  { by rewrite accepted_node_uuid. }
  { apply (graph_neighbors n); [lia|by apply accepted_ids_lookup|]. unfold entry_rows.
    by rewrite list_lookup_fmap, accepted_ids_lookup. }
  unfold group. rewrite filter_sort_by_key, sort_by_key_id by apply group_accepted_sorted.
  rewrite <-(group_accepted_public (p_directed p) nodes Hasc 0 edges n u Hall Hn). fold entries.
  rewrite <-!list_fmap_compose. apply list_fmap_ext. intros i entry Hi.
  apply list_elem_of_lookup_2, list_elem_of_filter in Hi as [_ Hin].
  apply accepted_entries_selected in Hin; [|done..]. unfold public. cbn. rewrite decide_True by done.
  apply list_elem_of_fmap in Hin as (m&Hm&Hseq%elem_of_seq).
  rewrite Hm, accepted_node_uuid, Nat2Z.id by lia. done.
Qed.
End accepted.

(** C17 A resolved projection is accepted exactly when no two nodes and no two edges share a
    UUID, every weight is finite and both endpoints of every edge are selected.  The graph of an
    accepted projection is faithful to it in public identities: its nodes are the selected ones,
    in UUID order, and the adjacency entries of a node are its incident edges in edge UUID order,
    each with the UUID of the other endpoint and the weight, an undirected edge being seen from
    both of its ends. *)
Theorem projection_faithful p :
  projection_fits p ->
  ((exists g, from_resolved_projection p = Ok g) <-> projection_accepted p) /\
  forall g, from_resolved_projection p = Ok g ->
    is_directed g = p_directed p /\ logical_edge_count g = lenZ (p_edges p) /\
    (node_uuid g <$> node_ids g) = (Some <$> sort_by_key id (p_nodes p)) /\
    forall u, u ∈ p_nodes p -> exists id entries,
      id ∈ node_ids g /\ node_uuid g id = Some u /\ node_neighbors g id = Some entries /\
      ((fun e => (edge_uuid e, node_uuid g (neighbor_id e), weight e)) <$> entries)
        = incident_edges (p_directed p) u (sort_by_key edge_key (p_edges p)).
Proof.
  intros Hfit. pose proof (projection_result p) as Hres. split.
  { destruct (from_resolved_projection p) as [g|e].
    - split; [intros _; apply Hres|by exists g].
    - split; [by intros [? ?]|done]. }
  intros g Hok. split_and!; [| |by apply accepted_node_uuids|by apply accepted_row].
  - rewrite Hok in Hres. by destruct Hres as [_ ->].
  - rewrite Hok in Hres. destruct Hres as [_ ->]. cbn. by rewrite sort_by_key_perm.
Qed.

(** Three nodes and two undirected edges, one of them a self-loop, given out of order. *)
Definition sample_projection : ResolvedGraphProjection :=
  {| p_directed := false; p_nodes := [30; 10; 20];
     p_edges := [ {| r_edge_uuid := 8; r_source_uuid := 20; r_target_uuid := 20; r_weight := f64_one |};
                  {| r_edge_uuid := 5; r_source_uuid := 20; r_target_uuid := 10; r_weight := f64_one |} ] |}.

Lemma projection_faithful_witness : exists g id entries,
  from_resolved_projection sample_projection = Ok g /\ node_uuid g id = Some 20 /\
  node_neighbors g id = Some entries /\
  ((fun e => (edge_uuid e, node_uuid g (neighbor_id e), weight e)) <$> entries)
    = [(5, Some 10, f64_one); (8, Some 20, f64_one); (8, Some 20, f64_one)].
Proof.
  destruct (from_resolved_projection sample_projection) as [g|e] eqn:E; [|vm_compute in E; discriminate].
  destruct (projection_faithful sample_projection ltac:(vm_compute; split; discriminate)) as [_ H].
  destruct (H g E) as (_&_&_&Hrows). destruct (Hrows 20 ltac:(set_solver)) as (id&entries&_&Hu&Hn&Hp).
  exists g, id, entries. split_and!; [done|done|done|]. rewrite Hp. reflexivity.
Defined.

(** The construction is canonical: two resolved projections with the same nodes and the same
    edges in any order give the same graph, with the same node numbering, edge numbering and
    array layout, or the same error. *)
Theorem projection_canonical p p' :
  p_directed p = p_directed p' -> p_nodes p ≡ₚ p_nodes p' -> p_edges p ≡ₚ p_edges p' ->
  from_resolved_projection p = from_resolved_projection p'.
Proof.
  intros Hd Hn He. unfold from_resolved_projection.
  assert (Hdup : NoDup (p_nodes p) <-> NoDup (p_nodes p')) by (by rewrite Hn).
  rewrite <-!sort_nodes_equal in Hdup. destruct (adjacent_equal (sort_by_key id (p_nodes p))) eqn:En.
  { by destruct (adjacent_equal (sort_by_key id (p_nodes p'))); [|naive_solver]. }
  rewrite (proj1 Hdup) by done. apply sort_nodes_equal in En.
  rewrite <-(sort_by_key_unique id (p_nodes p) (p_nodes p')) by (by rewrite ?list_fmap_id).
  assert (Hed : NoDup (r_edge_uuid <$> p_edges p) <-> NoDup (r_edge_uuid <$> p_edges p')) by (by rewrite He).
  rewrite <-!sort_edges_equal in Hed.
  destruct (adjacent_equal (r_edge_uuid <$> sort_by_key edge_key (p_edges p))) eqn:Ee.
  { by destruct (adjacent_equal (r_edge_uuid <$> sort_by_key edge_key (p_edges p'))); [|naive_solver]. }
  rewrite (proj1 Hed) by done. apply sort_edges_equal in Ee.
  rewrite <-(sort_by_key_unique edge_key (p_edges p) (p_edges p')), Hd; [done| |done].
  apply (NoDup_fmap_1 fst). by rewrite <-list_fmap_compose.
Qed.

Lemma projection_canonical_witness :
  from_resolved_projection sample_projection =
  from_resolved_projection {| p_directed := false; p_nodes := [10; 20; 30]; p_edges := reverse (p_edges sample_projection) |}.
Proof.
  apply projection_canonical; [reflexivity| |].
  - cbn. by rewrite (Permutation_cons_append [10; 20] 30).
  - symmetry. apply reverse_Permutation.
Defined.
