(* ===== verification/Dfs.v ===== *)
(** * Depth-first search: [crates/graphforge-exec/src/algorithm_paths_dfs.rs].

    The traversal keeps an explicit stack and a visited set, and polls cancellation once per
    discovered node.  It is compared with the recursive definition of a depth-first preorder, the
    relation [traverse].  The loop pops at most one entry more than there are adjacency slots,
    which bounds its fuel. *)

From stdpp Require Import base list gmap sets sorting relations strings.
From Stdlib Require Import ZArith Lia.
From S2P Require Import Prelude Membership Control Topology Projection.

Record DfsVisit := {
  v_node : Z;
  v_depth : Z;
  v_order : Z;
}.

Section dfs.
Context (cancelled : nat -> bool) (graph : AdjacencyGraph).

(** The loop; the top of the stack is the head of the list. *)
Fixpoint dfs_loop (fuel : nat) (visited : gset Z) (stack : list (Z * Z)) (visits : list DfsVisit)
    : K (list DfsVisit) :=
  match fuel with
  | O => k_some None
  | S fuel =>
      match stack with
      | [] => mret visits
      | (node, depth) :: stack =>
          if bool_decide (node ∈ visited) then dfs_loop fuel visited stack visits
          else
            let visited := {[node]} ∪ visited in
            check_cancelled cancelled ;;
            let order := lenZ visits in
            if u64_max <? order
            then k_err (Execution "dfs discovery order exceeds the UInt64 range")
            else
              let visits := visits ++ [{| v_node := node; v_depth := depth; v_order := order |}] in
              edges ← k_some (node_neighbors graph node);
              let neighbors := filter (fun neighbor => neighbor ∉ visited) (neighbor_id <$> edges) in
              let neighbors := dedup (sort_by_key id neighbors) in
              let stack := foldl (fun stack neighbor => (neighbor, saturating_add depth 1) :: stack)
                             stack (reverse neighbors) in
              dfs_loop fuel visited stack visits
      end
  end.

Definition depth_first_search (source : Z) : K (list DfsVisit) :=
  dfs_loop (2 + length (neighbors (topology graph))) ∅ [(source, 0)] [].
End dfs.

(** ** The preorder of a recursive traversal *)

Section traverse.
Context (succ : Z -> list Z).

(** [traverse l V out V']: visiting the nodes of [l] one after the other, each with all that can
    be reached from it and was not visited before, goes from the visited set [V] to [V'] and
    discovers [out], nodes with their depths. *)
Inductive traverse : list (Z * Z) -> gset Z -> list (Z * Z) -> gset Z -> Prop :=
| traverse_nil V : traverse [] V [] V
| traverse_seen node depth l V out V' :
    node ∈ V -> traverse l V out V' -> traverse ((node, depth) :: l) V out V'
| traverse_visit node depth l V out1 V1 out2 V2 :
    node ∉ V ->
    traverse ((fun n => (n, depth + 1)) <$> succ node) ({[node]} ∪ V) out1 V1 ->
    traverse l V1 out2 V2 ->
    traverse ((node, depth) :: l) V ((node, depth) :: out1 ++ out2) V2.

Lemma traverse_mono l V out V' : traverse l V out V' -> V ⊆ V'.
Proof. induction 1; set_solver. Qed.

Lemma traverse_app l1 l2 V out V' :
  traverse (l1 ++ l2) V out V' -> exists out1 V1 out2,
    traverse l1 V out1 V1 /\ traverse l2 V1 out2 V' /\ out = out1 ++ out2.
Proof.
  revert V out. induction l1 as [|[node depth] l1 IH]; intros V out H; cbn in H.
  { exists [], V, out. split_and!; [constructor|done|done]. }
  inversion H as [|? ? ? ? ? ? Hin Hrest|? ? ? ? o1 W o2 ? Hn H1 Hrest]; subst;
    apply IH in Hrest as (a&W1&b&Ha&Hb&->).
  - exists a, W1, b. split_and!; [by constructor|done|done].
  - exists ((node, depth) :: o1 ++ a), W1, b. split_and!; [by econstructor|done|]. cbn. by rewrite app_assoc.
Qed.

(** Leaving out nodes that were already visited changes nothing. *)
Lemma traverse_unfilter W l V out V' :
  W ⊆ V -> traverse (filter (fun x => x.1 ∉ W) l) V out V' -> traverse l V out V'.
Proof.
  revert V out. induction l as [|[node depth] l IH]; intros V out HW; [done|].
  rewrite filter_cons. cbn [fst]. case_decide as Hn; intros H.
  - inversion H as [|? ? ? ? ? ? Hin Hrest|? ? ? ? o1 V1 o2 ? Hnode H1 Hrest]; subst.
    + constructor; [done|]. by apply IH.
    + econstructor; [done|exact H1|]. apply IH; [|done]. apply traverse_mono in H1. set_solver.
  - constructor; [set_solver|]. by apply IH.
Qed.

(** The discovered nodes are the new members of the visited set, each once. *)
Lemma traverse_discovers l V out V' :
  traverse l V out V' ->
  NoDup out.*1 /\ (forall n, n ∈ V' <-> n ∈ V \/ n ∈ out.*1) /\ (forall n, n ∈ out.*1 -> n ∉ V).
Proof.
  induction 1 as [V|node depth l V out V' Hin _ IH|node depth l V o1 V1 o2 V2 Hn _ IH1 _ IH2]; cbn.
  - split_and!; [constructor|set_solver|set_solver].
  - done.
  - destruct IH1 as (Hd1&Hv1&Hn1). destruct IH2 as (Hd2&Hv2&Hn2). rewrite fmap_app. split_and!.
    + constructor; [set_solver|]. apply NoDup_app. split_and!; [done| |done]. set_solver.
    + intros n. rewrite Hv2, Hv1, !elem_of_cons, elem_of_app. set_solver.
    + intros n. rewrite !elem_of_cons, elem_of_app. set_solver.
Qed.

(** The visited set is closed under successors of what was discovered. *)
Lemma traverse_closed l V out V' :
  traverse l V out V' ->
  (forall x, x ∈ l -> x.1 ∈ V') /\ (forall n m, n ∈ out.*1 -> m ∈ succ n -> m ∈ V').
Proof.
  induction 1 as [V|node depth l V out V' Hin H IH|node depth l V o1 V1 o2 V2 Hn H1 IH1 H2 IH2].
  - split; [by intros ? ?%not_elem_of_nil|by intros ? ? ?%not_elem_of_nil].
  - destruct IH as [IHl IHo]. split; [|done]. intros x [->|Hx]%elem_of_cons; [|by apply IHl].
    apply traverse_mono in H. set_solver.
  - destruct IH1 as [IHl1 IHo1]. destruct IH2 as [IHl2 IHo2].
    apply traverse_mono in H1 as Hm1. apply traverse_mono in H2 as Hm2. split.
    + intros x [->|Hx]%elem_of_cons; [set_solver|by apply IHl2].
    + intros n m. cbn. rewrite fmap_app, elem_of_cons, elem_of_app. intros [->|[Hn'|Hn']] Hm.
      * apply Hm2, (IHl1 (m, depth + 1)). by apply (list_elem_of_fmap_2 (fun n => (n, depth + 1))).
      * apply Hm2. by eapply IHo1.
      * by eapply IHo2.
Qed.

Definition edge (a b : Z) : Prop := b ∈ succ a.

(** Each discovered node is reached from a listed one, in as many steps as their depths differ. *)
Lemma traverse_reaches l V out V' n d :
  traverse l V out V' -> (n, d) ∈ out ->
  exists n0 d0 k, (n0, d0) ∈ l /\ nsteps edge k n0 n /\ d = d0 + Z.of_nat k.
Proof.
  intros H Hn. induction H as [V|node depth l V out V' Hin H IH|node depth l V o1 V1 o2 V2 Hnode H1 IH1 H2 IH2].
  - by apply not_elem_of_nil in Hn.
  - destruct (IH Hn) as (n0&d0&k&Hl&Hk&->). exists n0, d0, k. split_and!; [by right|done|done].
  - rewrite elem_of_cons, elem_of_app in Hn. destruct Hn as [[= -> ->]|[Hn|Hn]].
    + exists node, depth, 0%nat. split_and!; [left|constructor|lia].
    + destruct (IH1 Hn) as (n0&d0&k&(m&[= -> ->]&Hm)%list_elem_of_fmap&Hk&->).
      exists node, depth, (S k). split_and!; [left|by econstructor|lia].
    + destruct (IH2 Hn) as (n0&d0&k&Hl&Hk&->). exists n0, d0, k. split_and!; [by right|done|done].
Qed.

(** From one source, the discovered nodes are those reachable from it. *)
Lemma traverse_source source out V :
  traverse [(source, 0)] ∅ out V ->
  NoDup out.*1 /\ (forall n, n ∈ out.*1 <-> rtc edge source n) /\
  (forall n d, (n, d) ∈ out -> 0 <= d /\ nsteps edge (Z.to_nat d) source n).
Proof.
  intros H. destruct (traverse_discovers _ _ _ _ H) as (Hd&Hv&_).
  destruct (traverse_closed _ _ _ _ H) as [Hs Hc].
  assert (Hstep : forall n d, (n, d) ∈ out -> 0 <= d /\ nsteps edge (Z.to_nat d) source n).
  { intros n d Hn. destruct (traverse_reaches _ _ _ _ n d H Hn) as (n0&d0&k&Hl&Hk&->).
    apply list_elem_of_singleton in Hl as [= -> ->]. rewrite Z.add_0_l, Nat2Z.id. split; [lia|done]. }
  split_and!; [done| |done]. intros n. split.
  - intros ((m&d)&->&Hn)%list_elem_of_fmap. cbn. apply Hstep in Hn as [_ Hn]. by apply rtc_nsteps; eexists.
  - intros Hr. assert (Hsrc : source ∈ out.*1).
    { specialize (Hs (source, 0) ltac:(left)). apply Hv in Hs as [Hs|Hs]; [by apply not_elem_of_empty in Hs|done]. }
    clear -Hv Hc Hr Hsrc. revert Hsrc. induction Hr as [x|x y z Hxy _ IH]; [done|]. intros Hx. apply IH.
    specialize (Hc x y Hx Hxy). apply Hv in Hc as [Hc|Hc]; [by apply not_elem_of_empty in Hc|done].
Qed.
End traverse.

(** ** The loop performs the traversal *)

Lemma ascending_ord l : StronglySorted ord_lt l -> ascending l.
Proof. apply StronglySorted_impl. cbn. unfold ord_lt. cbn. lia. Qed.

Lemma sort_dedup_filter (P : Z -> Prop) `{forall x, Decision (P x)} l :
  dedup (sort_by_key id (filter P l)) = filter P (dedup (sort_by_key id l)).
Proof.
  destruct (sort_dedup_spec l) as [Ha%ascending_ord Hx].
  destruct (sort_dedup_spec (filter P l)) as [Ha'%ascending_ord Hx'].
  apply ascending_ext; [done|by apply StronglySorted_filter|].
  intros x. by rewrite Hx', !list_elem_of_filter, Hx.
Qed.

Lemma fmap_filter_pair (W : gset Z) (d : Z) (l : list Z) :
  (fun n => (n, d)) <$> filter (fun n => n ∉ W) l = filter (fun x => x.1 ∉ W) ((fun n => (n, d)) <$> l).
Proof.
  induction l as [|x l IH]; [done|]. rewrite fmap_cons, !filter_cons. cbn [fst].
  case_decide; rewrite ?fmap_cons, IH; done.
Qed.

Lemma push_all {A B} (f : A -> B) (l : list A) (stack : list B) :
  foldl (fun stack x => f x :: stack) stack (reverse l) = (f <$> l) ++ stack.
Proof.
  revert stack. induction l as [|x l IH] using rev_ind; intros stack; [done|].
  rewrite reverse_snoc. cbn. by rewrite IH, fmap_app, <-app_assoc.
Qed.

(** Adjacency entries of nodes not visited yet. *)
Definition unvisited_entries (V : gset Z) (ids : list Z) (rows : list (list AlgorithmEdge)) : nat :=
  sum_list_with (fun p => if decide (p.1 ∈ V) then 0 else length p.2)%nat (zip ids rows).

Lemma unvisited_skip V ids rows id :
  ~ (id ∈ ids) -> unvisited_entries ({[id]} ∪ V) ids rows = unvisited_entries V ids rows.
Proof.
  unfold unvisited_entries. revert rows. induction ids as [|x ids IH]; intros [|row rows] Hn; try done.
  apply not_elem_of_cons in Hn as [Hne Hn]. cbn. rewrite IH by done. f_equal.
  apply decide_ext. set_solver.
Qed.

Lemma unvisited_visit V ids rows n id row :
  NoDup ids -> ids !! n = Some id -> rows !! n = Some row -> id ∉ V ->
  unvisited_entries V ids rows = (unvisited_entries ({[id]} ∪ V) ids rows + length row)%nat.
Proof.
  unfold unvisited_entries. intros Hnd. revert rows n. induction Hnd as [|x ids Hx Hnd IH];
    intros [|r rows] [|n] Hn Hrow Hid; try done; cbn in *; simplify_eq.
  - rewrite decide_False by done. rewrite decide_True by set_solver.
    fold (unvisited_entries V ids rows) (unvisited_entries ({[id]} ∪ V) ids rows).
    rewrite unvisited_skip by done. lia.
  - rewrite (IH rows n) by done. assert (x <> id) by (intros ->; by apply list_elem_of_lookup_2 in Hn).
    rewrite (decide_ext (x ∈ {[id]} ∪ V) (x ∈ V)) by set_solver. lia.
Qed.

(** The distinct neighbours of a node, in ascending order. *)
Definition successors (g : AdjacencyGraph) (node : Z) : list Z :=
  dedup (sort_by_key id (neighbor_id <$> default [] (node_neighbors g node))).

(** The visits of discovered nodes, numbered from [k]. *)
Definition number (k : nat) (out : list (Z * Z)) : list DfsVisit :=
  imap (fun i x => {| v_node := x.1; v_depth := x.2; v_order := Z.of_nat (k + i) |}) out.

Lemma number_nodes k out : v_node <$> number k out = out.*1.
Proof.
  apply list_eq. intros i. unfold number. rewrite !list_lookup_fmap, list_lookup_imap.
  by destruct (out !! i).
Qed.

Section run.
Context (cancelled : nat -> bool) (g : AdjacencyGraph) (ids : list Z) (rows : list (list AlgorithmEdge))
  `{Hg : !GraphOf g ids rows} (Hids : ids_ok ids) (source : Z) (Hsrc : 0 <= source <= u64_max).

(** All the ids a traversal can meet. *)
Definition universe : gset Z := list_to_set ids ∪ {[source; u64_max]}.

Lemma universe_size (V : gset Z) : V ⊆ universe -> Z.of_nat (size V) <= u32_max + 2.
Proof.
  intros HV%subseteq_size. unfold universe in HV. rewrite size_union_alt in HV.
  rewrite size_list_to_set in HV by (apply ascending_NoDup, Hids).
  pose proof (subseteq_size ({[source; u64_max]} ∖ list_to_set ids) ({[source; u64_max]} : gset Z) ltac:(set_solver)) as H1.
  rewrite (size_union_alt {[source]}), size_singleton in H1.
  pose proof (subseteq_size ({[u64_max]} ∖ {[source]} : gset Z) {[u64_max]} ltac:(set_solver)) as H2.
  rewrite size_singleton in H2. pose proof (ids_count _ Hids). lia.
Qed.

Lemma universe_nonneg id : id ∈ universe -> 0 <= id.
Proof.
  unfold universe. rewrite elem_of_union, elem_of_list_to_set, elem_of_union, !elem_of_singleton.
  intros [(n&Hn)%list_elem_of_lookup|[-> | ->]]; [|lia|unfold u64_max; lia].
  by apply (ids_ok_range _ _ _ Hids) in Hn as [].
Qed.

(** What the loop reads at a node: its row, all of it within the universe. *)
Lemma universe_row id : id ∈ universe -> exists row,
  node_neighbors g id = Some row /\ Forall (fun e => neighbor_id e ∈ universe) row /\
  forall V, id ∉ V ->
    unvisited_entries V ids rows = (unvisited_entries ({[id]} ∪ V) ids rows + length row)%nat.
Proof.
  intros Hid%universe_nonneg. destruct (graph_row (g := g) id Hid) as (row&Hrow&[(n&Hn&Hr)|[Hn ->]]);
    exists row + exists []; (split; [done|]); split.
  - apply Forall_forall. intros e He. unfold universe.
    destruct (graph_target (g := g) row e) as [H| ->]; [by eapply list_elem_of_lookup_2|done|set_solver|set_solver].
  - intros V HV. eapply unvisited_visit; [apply ascending_NoDup, Hids|done..].
  - constructor.
  - intros V _. rewrite unvisited_skip by done. cbn. lia.
Qed.

(** The loop's invariant. *)
Record dfs_inv (V : gset Z) (stack : list (Z * Z)) (visits : list DfsVisit) : Prop := {
  inv_visited : V ⊆ universe;
  inv_visits : length visits = size V;
  inv_stack : Forall (fun x => x.1 ∈ universe /\ 0 <= x.2 <= Z.of_nat (size V)) stack;
}.

Lemma dfs_inv_visit V node depth stack visits v row :
  dfs_inv V ((node, depth) :: stack) visits -> node ∉ V ->
  Forall (fun e => neighbor_id e ∈ universe) row ->
  let fresh := filter (fun n => n ∉ {[node]} ∪ V) (dedup (sort_by_key id (neighbor_id <$> row))) in
  dfs_inv ({[node]} ∪ V) (((fun n => (n, depth + 1)) <$> fresh) ++ stack) (visits ++ [v]).
Proof.
  intros [HV Hvis Hst] Hn Hrow. inversion Hst as [|? ? [Hnode Hd] Hst']; subst. cbn in Hnode, Hd.
  assert (Hsize : size ({[node]} ∪ V) = S (size V)).
  { rewrite size_union, size_singleton by set_solver. done. }
  split.
  - set_solver.
  - rewrite length_app, Hvis, Hsize. cbn. lia.
  - rewrite Hsize. apply Forall_app. split.
    + apply Forall_fmap, Forall_forall. intros n [_ Hin]%list_elem_of_filter. cbn.
      apply sort_dedup_spec, list_elem_of_fmap in Hin as (e&->&He). rewrite Forall_forall in Hrow.
      split; [by apply Hrow|lia].
    + eapply Forall_impl; [done|]. cbn. intros x [? ?]. split; [done|lia].
Qed.

Lemma successors_row node row :
  node_neighbors g node = Some row -> successors g node = dedup (sort_by_key id (neighbor_id <$> row)).
Proof. unfold successors. by intros ->. Qed.

Lemma fresh_length (V : gset Z) node row :
  node_neighbors g node = Some row ->
  (length (filter (fun n => n ∉ {[node]} ∪ V) (successors g node)) <= length row)%nat.
Proof.
  intros Hrow. rewrite (successors_row node row Hrow).
  pose proof (length_filter (fun n => n ∉ {[node]} ∪ V) (dedup (sort_by_key id (neighbor_id <$> row)))).
  pose proof (sort_dedup_length (neighbor_id <$> row)) as Hl. rewrite length_fmap in Hl. lia.
Qed.

(** With more fuel than entries left to pop, the loop returns, and what it returns is the
    traversal of its stack unless one of its polls is answered by a cancellation. *)
Lemma dfs_loop_spec fuel V stack visits c :
  (unvisited_entries V ids rows + length stack < fuel)%nat -> dfs_inv V stack visits ->
  exists out V', traverse (successors g) stack V out V' /\
    fst <$> dfs_loop cancelled g fuel V stack visits c =
      Some (if existsb cancelled (seq (polls c) (length out)) then Err Cancelled
            else Ok (visits ++ number (length visits) out)).
Proof.
  revert V stack visits c. induction fuel as [|fuel IH]; intros V stack visits c Hfuel Hinv; [lia|].
  destruct stack as [|[node depth] stack]; cbn [dfs_loop].
  { exists [], V. split; [constructor|]. cbn. by rewrite app_nil_r. }
  destruct (bool_decide_reflect (node ∈ V)) as [Hin|Hn].
  { destruct (IH V stack visits c) as (out&V'&Ht&Hrun).
    - cbn in Hfuel. lia.
    - destruct Hinv as [? ? Hst]. inversion Hst. by split.
    - exists out, V'. split; [by constructor|done]. }
  pose proof Hinv as [HV Hvis Hst].
  inversion Hst as [|? ? [Hnode Hd] Hst']; subst. cbn [fst snd] in Hnode, Hd.
  destruct (universe_row node Hnode) as (row&Hrow&Htargets&Hentries). specialize (Hentries V Hn).
  pose proof (universe_size V HV) as Hsize.
  set (v := {| v_node := node; v_depth := depth; v_order := lenZ visits |}).
  set (fresh := filter (fun n => n ∉ {[node]} ∪ V) (successors g node)).
  assert (Hsat : saturating_add depth 1 = depth + 1).
  { unfold saturating_add, usize_max, u64_max, u32_max in *. lia. }
  set (c' := {| polls := S (polls c); iterations := iterations c; states := states c |}).
  destruct (IH ({[node]} ∪ V) (((fun n => (n, depth + 1)) <$> fresh) ++ stack) (visits ++ [v]) c') as (out&V'&Ht&Hrun).
  { rewrite length_app, length_fmap. cbn [length] in Hfuel.
    pose proof (fresh_length V node row Hrow) as Hl. fold fresh in Hl. lia. }
  { unfold fresh. rewrite (successors_row node row Hrow). by apply dfs_inv_visit. }
  apply traverse_app in Ht as (o1&V1&o2&H1&H2&->).
  exists ((node, depth) :: o1 ++ o2), V'. split.
  { econstructor; [done| |done]. apply (traverse_unfilter _ ({[node]} ∪ V)); [done|].
    by rewrite <-fmap_filter_pair. }
  unfold mbind, k_bind at 1. unfold check_cancelled. cbn [length seq existsb].
  destruct (cancelled (polls c)); [done|]. cbn [orb].
  destruct (Z.ltb_spec u64_max (lenZ visits)) as [Hbig|_].
  { rewrite Hvis in Hbig. unfold u64_max, u32_max in *. lia. }
  rewrite Hrow. unfold k_bind, k_some. cbn [mbind option_bind]. fold v c'.
  rewrite sort_dedup_filter, <-(successors_row node row Hrow). fold fresh. rewrite push_all, Hsat.
  rewrite Hrun. cbn [polls c']. destruct (existsb _ _); [done|]. do 2 f_equal.
  rewrite length_app, <-app_assoc. f_equal. unfold number. cbn [imap app]. f_equal.
  - unfold v. cbn [fst snd]. by rewrite Nat.add_0_r.
  - apply imap_ext. intros i x _. cbn. f_equal. lia.
Qed.
End run.

Lemma unvisited_all ids rows :
  length rows = length ids -> unvisited_entries ∅ ids rows = length (concat rows).
Proof.
  unfold unvisited_entries. revert rows. induction ids as [|id ids IH]; intros [|row rows] Hl; try done.
  cbn in *. rewrite length_app, IH by lia. done.
Qed.

(** ** Properties *)

(** C15 Depth-first search always returns.  Unless one of its polls is answered by a
    cancellation, one poll per discovered node, its visits are the preorder of the recursive
    depth-first traversal from the source that takes neighbours in ascending order: every node
    reachable from the source, each exactly once, numbered in order of discovery, with a depth
    that is the length of a path to it.  If a poll is cancelled, it returns [Cancelled] and no
    visits. *)
Theorem dfs_exact cancelled g ids rows source c :
  GraphOf g ids rows -> ids_ok ids -> 0 <= source <= u64_max ->
  exists out V, traverse (successors g) [(source, 0)] ∅ out V /\
    NoDup out.*1 /\ (forall n, n ∈ out.*1 <-> rtc (edge (successors g)) source n) /\
    (forall n d, (n, d) ∈ out -> 0 <= d /\ nsteps (edge (successors g)) (Z.to_nat d) source n) /\
    fst <$> depth_first_search cancelled g source c =
      Some (if existsb cancelled (seq (polls c) (length out)) then Err Cancelled else Ok (number 0 out)).
Proof.
  intros Hg Hids Hsrc. unfold depth_first_search.
  destruct (dfs_loop_spec cancelled g ids rows Hids source Hsrc (2 + length (neighbors (topology g)))
    ∅ [(source, 0)] [] c) as (out&V&Ht&Hrun).
  - rewrite unvisited_all, go_neighbors by apply Hg. cbn. lia.
  - split; [set_solver|done|]. constructor; [|constructor]. cbn. unfold universe. split; [set_solver|lia].
  - exists out, V. destruct (traverse_source _ _ _ _ Ht) as (Hnd&Hreach&Hdepth). by split_and!.
Qed.

(** The directed multigraph of the source's test, built from its entries. *)
Definition sample_pairs : list (Z * Z) := [(0, 2); (0, 1); (0, 1); (1, 3); (1, 4); (3, 0); (3, 3); (2, 5)].
Definition sample_graph : AdjacencyGraph := unit_graph true 7 sample_pairs.

Lemma dfs_exact_witness : exists visits,
  fst <$> depth_first_search (fun _ => false) sample_graph 0 new_control = Some (Ok visits) /\
  (fun v => (v_node v, v_depth v, v_order v)) <$> visits =
    [(0, 0, 0); (1, 1, 1); (3, 2, 2); (4, 2, 3); (2, 1, 4); (5, 2, 5)] /\
  forall n, rtc (edge (successors sample_graph)) 0 n <-> n ∈ v_node <$> visits.
Proof.
  destruct (dfs_exact (fun _ => false) sample_graph _ _ 0 new_control
    (unit_graph_of true 7 sample_pairs ltac:(repeat constructor; cbn; lia) ltac:(done) ltac:(done))
    (dense_ids_ok 7 ltac:(done))) as (out&V&Ht&_&Hreach&_&Hrun).
  - unfold u64_max. lia.
  - assert (E : existsb (fun _ => false) (seq (polls new_control) (length out)) = false).
    { clear. generalize (polls new_control). induction (length out); cbn; auto. }
    rewrite E in Hrun. exists (number 0 out). split; [done|].
    assert (Hout : fst <$> depth_first_search (fun _ => false) sample_graph 0 new_control =
      Some (Ok (number 0 [(0, 0); (1, 1); (3, 2); (4, 2); (2, 1); (5, 2)]))) by (vm_compute; reflexivity).
    rewrite Hrun in Hout. injection Hout as Hout. split; [by rewrite Hout|].
    intros n. by rewrite number_nodes, Hreach.
Defined.
