(* ===== verification/DagTopology.v ===== *)
(** * Topological order: [crates/graphforge-exec/src/algorithm_analyze_dag_topology.rs].

    Kahn's algorithm over the adjacency graph: indegrees count every entry, parallel edges
    included; among the nodes without an unplaced predecessor the one with the least pair of UUID
    and node id is placed next.  The ready set is a [BTreeSet], its elements in ascending order.
    The work counter and its polls are kept; the loop places one node per turn, so one turn more
    than there are nodes is fuel enough. *)

From stdpp Require Import base list gmap sets sorting relations strings.
From Stdlib Require Import ZArith Lia.
From S2P Require Import Prelude Membership Control Topology Projection.

Definition CHECKPOINT_INTERVAL : Z := 4096.

Record DagTopology := {
  order : list Z;
  positions : gmap Z nat;
}.

(** [BTreeSet::insert], the elements in ascending order. *)
Fixpoint btree_insert (x : Key * Z) (l : list (Key * Z)) : list (Key * Z) :=
  match l with
  | [] => [x]
  | y :: l' =>
      if decide (x = y) then l
      else if decide (ord_le x y) then x :: l
      else y :: btree_insert x l'
  end.

Section dag.
Context (cancelled : nat -> bool) (limits : AlgorithmLimits) (graph : AdjacencyGraph).

Definition uuid_of (node : Z) : K Key :=
  k_try (ok_or (node_uuid graph node) (Execution "selected DAG node has no UUID identity")).

(** [checkpoint(control, &mut work)]: the new value of [work]. *)
Definition tick (work : Z) : K Z :=
  let work := saturating_add work 1 in
  if work mod CHECKPOINT_INTERVAL =? 0 then check_cancelled cancelled ;; mret work else mret work.

(** The indegrees gain the entries of one source. *)
Fixpoint count_edges (indegrees : gmap Z Z) (work : Z) (edges : list AlgorithmEdge) : K (gmap Z Z * Z) :=
  match edges with
  | [] => mret (indegrees, work)
  | edge :: edges' =>
      work ← tick work;
      indegree ← k_try (ok_or (indegrees !! neighbor_id edge)
                          (Execution "DAG adjacency references an unselected node"));
      indegree ← k_try (ok_or (checked_add indegree 1) (Execution "DAG indegree exceeds platform range"));
      count_edges (<[neighbor_id edge := indegree]> indegrees) work edges'
  end.

Fixpoint count_nodes (indegrees : gmap Z Z) (work : Z) (sources : list Z) : K (gmap Z Z * Z) :=
  match sources with
  | [] => mret (indegrees, work)
  | source :: sources' =>
      work ← tick work;
      uuid_of source ;;
      edges ← k_some (node_neighbors graph source);
      '(indegrees, work) ← count_edges indegrees work edges;
      count_nodes indegrees work sources'
  end.

(** The nodes without an incoming entry. *)
Fixpoint collect_ready (indegrees : gmap Z Z) (ready : list (Key * Z)) (work : Z) (nodes : list Z)
    : K (list (Key * Z) * Z) :=
  match nodes with
  | [] => mret (ready, work)
  | node :: nodes' =>
      work ← tick work;
      indegree ← k_some (indegrees !! node);
      if indegree =? 0 then
        uuid ← uuid_of node;
        collect_ready indegrees (btree_insert (uuid, node) ready) work nodes'
      else collect_ready indegrees ready work nodes'
  end.

(** The entries of a placed node are taken off. *)
Fixpoint release_edges (indegrees : gmap Z Z) (ready : list (Key * Z)) (work : Z) (edges : list AlgorithmEdge)
    : K (gmap Z Z * list (Key * Z) * Z) :=
  match edges with
  | [] => mret (indegrees, ready, work)
  | edge :: edges' =>
      work ← tick work;
      indegree ← k_some (indegrees !! neighbor_id edge);
      indegree ← k_try (ok_or (if 1 <=? indegree then Some (indegree - 1) else None)
                          (Execution "DAG indegree underflow"));
      let indegrees := <[neighbor_id edge := indegree]> indegrees in
      if indegree =? 0 then
        uuid ← uuid_of (neighbor_id edge);
        release_edges indegrees (btree_insert (uuid, neighbor_id edge) ready) work edges'
      else release_edges indegrees ready work edges'
  end.

Fixpoint kahn_loop (fuel : nat) (indegrees : gmap Z Z) (ready : list (Key * Z)) (work : Z)
    (topology : DagTopology) : K DagTopology :=
  match fuel with
  | O => k_some None
  | S fuel =>
      match ready with
      | [] => mret topology
      | (uuid, node) :: ready =>
          work ← tick work;
          let topology := {| order := order topology ++ [node];
                             positions := <[node := length (order topology)]> (positions topology) |} in
          edges ← k_some (node_neighbors graph node);
          '(indegrees, ready, work) ← release_edges indegrees ready work edges;
          kahn_loop fuel indegrees ready work topology
      end
  end.

Definition stable_dag_topology : K DagTopology :=
  checkpoint cancelled limits ;;
  if negb (is_directed graph) then k_err (Execution "DAG topology requires directed adjacency")
  else
    let nodes := node_ids graph in
    let indegrees : gmap Z Z := list_to_map ((fun node => (node, 0)) <$> nodes) in
    '(indegrees, work) ← count_nodes indegrees 0 nodes;
    '(ready, work) ← collect_ready indegrees [] work nodes;
    topology ← kahn_loop (S (length nodes)) indegrees ready work {| order := []; positions := ∅ |};
    if negb (length (order topology) =? length nodes)%nat
    then k_err (Execution "selected graph contains a cycle")
    else mret topology.
End dag.

Lemma gives_tick cancelled work : gives cancelled (tick cancelled work) (Ok (saturating_add work 1)).
Proof.
  unfold tick. destruct (_ =? 0); [|apply gives_ret]. eapply gives_bind; [apply gives_check|apply gives_ret].
Qed.
#[local] Hint Resolve gives_tick : gives.

(** ** The ready set *)

Lemma btree_insert_elem x l y : y ∈ btree_insert x l <-> y = x \/ y ∈ l.
Proof.
  induction l as [|z l IH]; cbn [btree_insert]; [by rewrite elem_of_cons|].
  destruct (decide (x = z)) as [->|]; [rewrite !elem_of_cons; tauto|].
  destruct (decide (ord_le x z)); rewrite !elem_of_cons; [tauto|]. rewrite IH. tauto.
Qed.

Lemma btree_insert_sorted x l : StronglySorted ord_lt l -> StronglySorted ord_lt (btree_insert x l).
Proof.
  induction 1 as [|z l Hl IH Hz]; cbn [btree_insert]; [repeat constructor|].
  destruct (decide (x = z)) as [->|Hne]; [by constructor|].
  destruct (decide (ord_le x z)) as [Hle|Hn].
  - constructor; [by constructor|]. constructor; [done|]. eapply Forall_impl; [done|].
    intros y Hy. by eapply ord_lt_trans.
  - constructor; [done|]. apply Forall_forall. intros y [->|Hy]%btree_insert_elem.
    + split; [|by intros ->]. destruct (ord_total x z); [done|done].
    + rewrite Forall_forall in Hz. by apply Hz.
Qed.

(** ** Indegrees *)

(** The entries to [b] among [edges]. *)
Definition entries_to (b : Z) (edges : list AlgorithmEdge) : nat :=
  length (filter (fun e => neighbor_id e = b) edges).

Lemma entries_to_cons b e edges :
  entries_to b (e :: edges) = ((if decide (neighbor_id e = b) then 1 else 0) + entries_to b edges)%nat.
Proof. unfold entries_to. rewrite filter_cons. by destruct (decide (neighbor_id e = b)). Qed.

Lemma entries_to_app b l1 l2 : entries_to b (l1 ++ l2) = (entries_to b l1 + entries_to b l2)%nat.
Proof. unfold entries_to. by rewrite filter_app, length_app. Qed.

Lemma entries_to_perm b l1 l2 : l1 ≡ₚ l2 -> entries_to b l1 = entries_to b l2.
Proof. unfold entries_to. by intros ->. Qed.

(** A list that is longer than a list of all its elements repeats one. *)
Lemma repeats (w l : list Z) :
  (forall x, x ∈ w -> x ∈ l) -> (length l < length w)%nat ->
  exists i j x, (i < j)%nat /\ w !! i = Some x /\ w !! j = Some x.
Proof.
  intros Hin Hlen. assert (Hnd : ~ NoDup w).
  { intros Hnd. pose proof (submseteq_length _ _ (NoDup_submseteq _ _ Hnd Hin)). lia. }
  clear l Hin Hlen. induction w as [|x w IH]; [by destruct Hnd; constructor|].
  destruct (decide (x ∈ w)) as [(j&Hj)%list_elem_of_lookup|Hx].
  - exists 0%nat, (S j), x. split_and!; [lia|done|done].
  - destruct IH as (i&j&y&Hij&Hi&Hj); [by intros H; apply Hnd; constructor|].
    exists (S i), (S j), y. split_and!; [lia|done|done].
Qed.

(** A finite set in which every element has a predecessor holds a cycle. *)
Lemma predecessors_cycle (R : relation Z) (l : list Z) :
  l <> [] -> (forall x, x ∈ l -> exists y, y ∈ l /\ R y x) -> exists x, tc R x x.
Proof.
  intros Hne Hpred.
  assert (Hchain : forall n, exists w, length w = S n /\ (forall x, x ∈ w -> x ∈ l) /\
    forall i x y, w !! i = Some x -> w !! S i = Some y -> R x y).
  { induction n as [|n (w&Hlen&Hin&HR)].
    - destruct l as [|x l]; [done|]. exists [x]. split_and!; [done| |].
      + intros y ->%list_elem_of_singleton. left.
      + intros [|i] y z _ H; done.
    - destruct w as [|x w]; [done|]. destruct (Hpred x) as (y&Hy&HR'); [apply Hin; left|].
      exists (y :: x :: w). split_and!; [cbn in *; lia| |].
      + intros z [->|Hz]%elem_of_cons; [done|by apply Hin].
      + intros [|i] a b Ha Hb; [|by apply (HR i)]. injection Ha as ->. by injection Hb as ->. }
  destruct (Hchain (length l)) as (w&Hlen&Hin&HR).
  destruct (repeats w l Hin) as (i&j&x&Hij&Hi&Hj); [lia|].
  exists x. clear -HR Hij Hi Hj.
  assert (Htc : forall k x y, w !! i = Some x -> w !! (i + S k)%nat = Some y -> tc R x y).
  { induction k as [|k IH]; intros a b Ha Hb.
    - apply tc_once. apply (HR i); [done|]. by rewrite Nat.add_1_r in Hb.
    - destruct (lookup_lt_is_Some_2 w (i + S k)%nat) as [z Hz].
      { apply lookup_lt_Some in Hb. lia. }
      eapply tc_r; [by apply IH|]. apply (HR (i + S k)%nat); [done|].
      by replace (S (i + S k)) with (i + S (S k))%nat by lia. }
  apply (Htc (j - i - 1)%nat); [done|]. by replace (i + S (j - i - 1))%nat with j by lia.
Qed.

Section kahn.
Context (cancelled : nat -> bool) (g : AdjacencyGraph) (ids : list Z) (rows : list (list AlgorithmEdge))
  `{Hg : !GraphOf g ids rows} (Hids : ids_ok ids)
  (Hclosed : closed ids rows)
  (Huuids : length (uuids (topology g)) = length ids)
  (Hentries : lenZ (concat rows) <= u32_max).

(** The entries leaving the nodes of [l]. *)
Definition entries_of (l : list Z) : list AlgorithmEdge := concat (row_of g <$> l).

Definition public_uuid (id : Z) : Key := default 0 (node_uuid g id).

Lemma uuid_known id : id ∈ ids -> gives cancelled (uuid_of g id) (Ok (public_uuid id)).
Proof.
  intros (n&Hn)%list_elem_of_lookup. pose proof (ids_ok_range _ _ _ Hids Hn) as [Hid _].
  unfold uuid_of, public_uuid. rewrite (graph_node_uuid (g := g) n id Hid Hn).
  destruct (lookup_lt_is_Some_2 (uuids (topology g)) n) as [u Hu].
  { rewrite Huuids. by eapply lookup_lt_Some. }
  rewrite Hu. apply gives_try.
Qed.

(** The map holds [f] at every node. *)
Definition indegrees_are (f : Z -> nat) (indegrees : gmap Z Z) : Prop :=
  forall b, b ∈ ids -> indegrees !! b = Some (Z.of_nat (f b)).

Lemma indegrees_set f f' indegrees t :
  indegrees_are f indegrees -> (forall b, b <> t -> f' b = f b) ->
  indegrees_are f' (<[t := Z.of_nat (f' t)]> indegrees).
Proof.
  intros Hf Hne b Hb. destruct (decide (b = t)) as [->|]; [by rewrite lookup_insert_eq|].
  rewrite lookup_insert_ne by done. rewrite Hne by done. by apply Hf.
Qed.

Lemma count_edges_spec f indegrees work edges :
  indegrees_are f indegrees -> Forall (fun e => neighbor_id e ∈ ids) edges ->
  (forall b, Z.of_nat (f b + entries_to b edges) <= u32_max) ->
  exists indegrees' work', gives cancelled (count_edges cancelled indegrees work edges) (Ok (indegrees', work')) /\
    indegrees_are (fun b => f b + entries_to b edges)%nat indegrees'.
Proof.
  revert f indegrees work. induction edges as [|e edges IH]; intros f indegrees work Hf Hin Hb.
  { exists indegrees, work. split; [apply gives_ret|]. intros b Hb'. rewrite Hf by done. do 2 f_equal. cbn. lia. }
  inversion Hin as [|? ? He Hin']; subst. set (t := neighbor_id e) in *.
  set (f' := fun b => ((if decide (t = b) then 1 else 0) + f b)%nat).
  assert (Hsum : forall b, (f' b + entries_to b edges = f b + entries_to b (e :: edges))%nat).
  { intros b. rewrite entries_to_cons. unfold f', t. lia. }
  destruct (IH f' (<[t := Z.of_nat (f' t)]> indegrees) (saturating_add work 1)) as (m&w&Hrun&Hm); [|done|by intros b; rewrite Hsum|].
  { apply (indegrees_set f); [done|]. intros b Hne. unfold f'. rewrite decide_False by congruence. done. }
  exists m, w. split; [|by intros b Hb'; rewrite <-Hsum; apply Hm].
  cbn [count_edges]. gives_step. fold t. rewrite (Hf t He). gives_step.
  specialize (Hb t). rewrite <-Hsum in Hb. unfold checked_add.
  assert (Hft : Z.of_nat (f t) + 1 = Z.of_nat (f' t)) by (unfold f'; rewrite decide_True by done; lia).
  rewrite Hft. destruct (Z.leb_spec (Z.of_nat (f' t)) usize_max); [|unfold usize_max, u64_max, u32_max in *; lia].
  gives_step. done.
Qed.

Lemma count_nodes_spec f indegrees work sources :
  indegrees_are f indegrees -> Forall (fun id => id ∈ ids) sources ->
  (forall b, Z.of_nat (f b + entries_to b (entries_of sources)) <= u32_max) ->
  exists indegrees' work', gives cancelled (count_nodes cancelled g indegrees work sources) (Ok (indegrees', work')) /\
    indegrees_are (fun b => f b + entries_to b (entries_of sources))%nat indegrees'.
Proof.
  revert f indegrees work. induction sources as [|source sources IH]; intros f indegrees work Hf Hin Hb.
  { exists indegrees, work. split; [apply gives_ret|]. intros b Hb'. rewrite Hf by done. do 2 f_equal. cbn. lia. }
  inversion Hin as [|? ? Hs Hin']; subst. destruct (row_known Hids Hclosed source Hs) as [Hrow Htargets].
  assert (Hsum : forall b, entries_to b (entries_of (source :: sources)) =
    (entries_to b (row_of g source) + entries_to b (entries_of sources))%nat).
  { intros b. unfold entries_of. rewrite fmap_cons. apply entries_to_app. }
  destruct (count_edges_spec f indegrees (saturating_add work 1) (row_of g source)) as (m&w&Hrun&Hm); [done|done| |].
  { intros b. specialize (Hb b). rewrite Hsum in Hb. lia. }
  destruct (IH _ m w Hm Hin') as (m'&w'&Hrun'&Hm').
  { intros b. specialize (Hb b). rewrite Hsum in Hb. lia. }
  exists m', w'. split.
  - cbn [count_nodes]. gives_step. eapply gives_bind; [by apply uuid_known|]. rewrite Hrow.
    gives_step. eapply gives_bind; [exact Hrun|]. exact Hrun'.
  - intros b Hb'. rewrite Hsum, Nat.add_assoc. by apply Hm'.
Qed.

(** The ready set holds the nodes of [R] at which [f] vanishes, in ascending order. *)
Record ready_is (f : Z -> nat) (R : list Z) (ready : list (Key * Z)) : Prop := {
  ready_sorted : StronglySorted ord_lt ready;
  ready_elem : forall p, p ∈ ready <-> p.2 ∈ R /\ f p.2 = 0%nat /\ p.1 = public_uuid p.2;
}.

Lemma ready_insert f f' R R' ready t :
  ready_is f R ready -> (forall b, b <> t -> f' b = f b /\ (b ∈ R' <-> b ∈ R)) ->
  t ∈ R' -> f' t = 0%nat -> ready_is f' R' (btree_insert (public_uuid t, t) ready).
Proof.
  intros [Hs He] Hother Ht Hf. split; [by apply btree_insert_sorted|]. intros [u b]. cbn.
  rewrite btree_insert_elem, He. cbn. destruct (decide (b = t)) as [->|Hne].
  - split; [|intros (_&_&->); by left]. intros [[= ->]|(_&_&->)]; done.
  - destruct (Hother b Hne) as [-> HR]. rewrite HR. split; [intros [[= -> ->]|H]; done|by right].
Qed.

Lemma ready_keep f f' R R' ready :
  ready_is f R ready -> (forall b, (b ∈ R' /\ f' b = 0%nat) <-> (b ∈ R /\ f b = 0%nat)) ->
  ready_is f' R' ready.
Proof.
  intros [Hs He] Hiff. split; [done|]. intros p. rewrite He. specialize (Hiff p.2). tauto.
Qed.

Lemma collect_ready_spec f indegrees ready work R nodes :
  indegrees_are f indegrees -> ready_is f R ready -> Forall (fun id => id ∈ ids) nodes ->
  exists ready' work', gives cancelled (collect_ready cancelled g indegrees ready work nodes) (Ok (ready', work')) /\
    ready_is f (nodes ++ R) ready'.
Proof.
  intros Hf. revert ready work R. induction nodes as [|node nodes IH]; intros ready work R Hr Hin.
  { exists ready, work. split; [apply gives_ret|done]. }
  inversion Hin as [|? ? Hn Hin']; subst. cbn [collect_ready].
  assert (Hperm : forall b, b ∈ nodes ++ node :: R <-> b ∈ (node :: nodes) ++ R)
    by (intros b; rewrite !elem_of_app, !elem_of_cons; tauto).
  destruct (decide (f node = 0%nat)) as [H0|H0].
  - destruct (IH (btree_insert (public_uuid node, node) ready) (saturating_add work 1) (node :: R)) as (ready'&w&Hrun&Hr'); [|done|].
    { eapply ready_insert; [done| |left|done]. intros b Hne. split; [done|]. rewrite elem_of_cons. tauto. }
    exists ready', w. split; [|by eapply ready_keep; [done|]; intros b; rewrite Hperm].
    gives_step. rewrite (Hf node Hn). gives_step. rewrite (proj2 (Z.eqb_eq _ _)) by lia.
    eapply gives_bind; [by apply uuid_known|]. done.
  - destruct (IH ready (saturating_add work 1) (node :: R)) as (ready'&w&Hrun&Hr'); [|done|].
    { eapply ready_keep; [done|]. intros b. rewrite elem_of_cons. split; [|tauto].
      intros [[->|Hb] Hz]; done. }
    exists ready', w. split; [|by eapply ready_keep; [done|]; intros b; rewrite Hperm].
    gives_step. rewrite (Hf node Hn). gives_step. rewrite (proj2 (Z.eqb_neq _ _)) by lia. done.
Qed.

(** One entry taken off. *)
Lemma release_edge_step indegrees ready work e edges n r :
  indegrees !! neighbor_id e = Some (Z.of_nat (S n)) ->
  let t := neighbor_id e in
  let indegrees' := <[t := Z.of_nat n]> indegrees in
  gives cancelled
    (if Z.of_nat n =? 0
     then uuid ← uuid_of g t;
          release_edges cancelled g indegrees' (btree_insert (uuid, t) ready) (saturating_add work 1) edges
     else release_edges cancelled g indegrees' ready (saturating_add work 1) edges) r ->
  gives cancelled (release_edges cancelled g indegrees ready work (e :: edges)) r.
Proof.
  cbn zeta. intros Hm Hgo. cbn [release_edges]. gives_step. rewrite Hm. gives_step.
  destruct (Z.leb_spec 1 (Z.of_nat (S n))); [|lia].
  replace (Z.of_nat (S n) - 1) with (Z.of_nat n) by lia. gives_step. done.
Qed.

(** Taking the entries of a placed node off leaves the degrees [D] of the others. *)
Lemma release_edges_spec D indegrees ready work R edges :
  indegrees_are (fun b => D b + entries_to b edges)%nat indegrees ->
  ready_is (fun b => D b + entries_to b edges)%nat R ready ->
  Forall (fun e => neighbor_id e ∈ R) edges -> (forall b, b ∈ R -> b ∈ ids) ->
  exists indegrees' ready' work',
    gives cancelled (release_edges cancelled g indegrees ready work edges) (Ok (indegrees', ready', work')) /\
    indegrees_are D indegrees' /\ ready_is D R ready'.
Proof.
  intros Hm Hr Hin HR. revert indegrees ready work Hm Hr. induction Hin as [|e edges He Hin IH]; intros m ready work Hm Hr.
  { exists m, ready, work. split_and!; [apply gives_ret| |].
    - intros b Hb. rewrite Hm by done. do 2 f_equal. cbn. lia.
    - eapply ready_keep; [done|]. intros b. cbn. rewrite Nat.add_0_r. done. }
  set (t := neighbor_id e) in *. set (f' := fun b => (D b + entries_to b edges)%nat).
  assert (Hf : forall b, (D b + entries_to b (e :: edges) = (if decide (t = b) then 1 else 0) + f' b)%nat).
  { intros b. rewrite entries_to_cons. unfold f', t. lia. }
  assert (Hft : (D t + entries_to t (e :: edges) = S (f' t))%nat) by (rewrite Hf, decide_True by done; lia).
  assert (Hne : forall b, b <> t -> f' b = (D b + entries_to b (e :: edges))%nat).
  { intros b Hb. rewrite Hf, decide_False by congruence. done. }
  assert (Hm' : indegrees_are f' (<[t := Z.of_nat (f' t)]> m)) by (by eapply indegrees_set).
  destruct (decide (f' t = 0%nat)) as [H0|H0].
  - destruct (IH _ (btree_insert (public_uuid t, t) ready) (saturating_add work 1) Hm') as (m'&r'&w'&Hrun&Hres).
    { eapply ready_insert; [done| |done|done]. intros b Hb. split; [by apply Hne|done]. }
    exists m', r', w'. split; [|done]. apply (release_edge_step _ _ _ _ _ (f' t)); [fold t; rewrite Hm by auto; cbn beta; by rewrite Hft|].
    fold t. rewrite (proj2 (Z.eqb_eq _ _)) by lia. eapply gives_bind; [apply uuid_known; auto|]. done.
  - destruct (IH _ ready (saturating_add work 1) Hm') as (m'&r'&w'&Hrun&Hres).
    { eapply ready_keep; [done|]. intros b. cbn beta. rewrite Hf. fold (f' b). destruct (decide (t = b)) as [<-|]; [|done].
      split; intros [_ ?]; lia. }
    exists m', r', w'. split; [|done]. apply (release_edge_step _ _ _ _ _ (f' t)); [fold t; rewrite Hm by auto; cbn beta; by rewrite Hft|].
    fold t. by rewrite (proj2 (Z.eqb_neq _ _)) by lia.
Qed.

(** ** The placement of one node after the other *)

Definition leads_to (a b : Z) : Prop := a ∈ ids /\ exists e, e ∈ row_of g a /\ neighbor_id e = b.

(** [n] can be placed after [placed]: it is not placed, and all its predecessors are. *)
Definition can_follow (placed : list Z) (n : Z) : Prop :=
  n ∈ ids /\ ~ (n ∈ placed) /\ forall a, leads_to a n -> a ∈ placed.

(** Every node of the order was the least of those that could follow, by UUID and node id. *)
Definition stable_prefix (placed : list Z) : Prop :=
  forall k n, placed !! k = Some n -> can_follow (take k placed) n /\
    forall m, can_follow (take k placed) m -> ord_le (public_uuid n, n) (public_uuid m, m).

Definition rest (placed : list Z) : list Z := filter (fun id => id ∉ placed) ids.

Lemma entries_to_zero b l :
  entries_to b (entries_of l) = 0%nat <-> forall a e, a ∈ l -> e ∈ row_of g a -> neighbor_id e <> b.
Proof.
  unfold entries_to. rewrite length_zero_iff_nil. split.
  - intros Hnil a e Ha He Hb. assert (Hin : e ∈ entries_of l).
    { unfold entries_of. apply list_elem_of_In, in_concat. exists (row_of g a). rewrite <-!list_elem_of_In.
      split; [by apply list_elem_of_fmap_2|done]. }
    by eapply (filter_nil_not_elem_of (fun e => neighbor_id e = b)) in Hnil.
  - intros Hne. apply filter_none. intros e He Hb. unfold entries_of in He.
    apply list_elem_of_In, in_concat in He as (row&Hrow&He). rewrite <-!list_elem_of_In in *.
    apply list_elem_of_fmap in Hrow as (a&->&Ha). by eapply Hne.
Qed.

Lemma can_follow_iff placed n :
  can_follow placed n <-> n ∈ rest placed /\ entries_to n (entries_of (rest placed)) = 0%nat.
Proof.
  unfold can_follow, rest, leads_to. rewrite entries_to_zero, list_elem_of_filter. split.
  - intros (Hn&Hp&Ha). split; [done|]. intros a e [Hap Hai]%list_elem_of_filter He Heq. apply Hap, Ha. eauto.
  - intros ([Hp Hn]&Hne). split_and!; [done|done|]. intros a (Hai&e&He&Heq).
    destruct (decide (a ∈ placed)) as [|Hap]; [done|]. exfalso. apply (Hne a e); [|done..].
    by apply list_elem_of_filter.
Qed.

Lemma rest_snoc placed n :
  n ∈ rest placed -> rest placed ≡ₚ n :: rest (placed ++ [n]).
Proof.
  intros Hn. apply NoDup_Permutation.
  - apply NoDup_filter, ascending_NoDup, Hids.
  - constructor; [|apply NoDup_filter, ascending_NoDup, Hids]. unfold rest. rewrite list_elem_of_filter, elem_of_app.
    intros [H _]. apply H. right. left.
  - intros x. rewrite elem_of_cons. unfold rest in *. rewrite list_elem_of_filter in *.
    rewrite list_elem_of_filter, elem_of_app, list_elem_of_singleton. destruct (decide (x = n)) as [->|]; tauto.
Qed.

Lemma entries_rest_snoc placed n b :
  n ∈ rest placed ->
  entries_to b (entries_of (rest placed)) =
    (entries_to b (entries_of (rest (placed ++ [n]))) + entries_to b (row_of g n))%nat.
Proof.
  intros Hn. unfold entries_of. rewrite (entries_to_perm b _ (concat (row_of g <$> n :: rest (placed ++ [n])))).
  - rewrite fmap_cons. cbn [concat]. rewrite entries_to_app. lia.
  - by rewrite (rest_snoc placed n Hn).
Qed.

Record kahn_inv (topology : DagTopology) (indegrees : gmap Z Z) (ready : list (Key * Z)) : Prop := {
  kahn_nodup : NoDup (order topology);
  kahn_subset : forall n, n ∈ order topology -> n ∈ ids;
  kahn_stable : stable_prefix (order topology);
  kahn_positions : forall n k, positions topology !! n = Some k <-> order topology !! k = Some n;
  kahn_indegrees : indegrees_are (fun b => entries_to b (entries_of (rest (order topology)))) indegrees;
  kahn_ready : ready_is (fun b => entries_to b (entries_of (rest (order topology)))) (rest (order topology)) ready;
}.

(** No entry of an unplaced node leads to a placed one. *)
Lemma stable_prefix_closed placed b :
  stable_prefix placed -> b ∈ placed -> entries_to b (entries_of (rest placed)) = 0%nat.
Proof.
  intros Hst (k&Hk)%list_elem_of_lookup. destruct (Hst k b Hk) as [(_&_&Hpred) _].
  apply entries_to_zero. intros a e [Hap Hai]%list_elem_of_filter He Heq. apply Hap.
  assert (Ha : a ∈ take k placed) by (apply Hpred; split; eauto).
  apply elem_of_take in Ha as (i&Hi&_). by eapply list_elem_of_lookup_2.
Qed.

Lemma stable_prefix_snoc placed n :
  stable_prefix placed -> can_follow placed n ->
  (forall m, can_follow placed m -> ord_le (public_uuid n, n) (public_uuid m, m)) ->
  stable_prefix (placed ++ [n]).
Proof.
  intros Hst Hn Hmin k m Hk. apply lookup_snoc_Some in Hk as [[Hk Hm]|[-> ->]].
  - rewrite take_app_le by lia. by apply Hst.
  - by rewrite take_app_length.
Qed.

Section place.
Context (t : DagTopology) (indegrees : gmap Z Z) (uuid : Key) (node : Z) (ready : list (Key * Z))
  (Hinv : kahn_inv t indegrees ((uuid, node) :: ready)).

Let placed := order t.
Let placed' := order t ++ [node].

Lemma first_ready : can_follow placed node /\ uuid = public_uuid node.
Proof.
  destruct Hinv as [_ _ _ _ _ [_ He]]. destruct (proj1 (He (uuid, node)) ltac:(left)) as (Hin&Hz&Hu).
  split; [|done]. by apply can_follow_iff.
Qed.

Lemma first_rest : node ∈ rest placed.
Proof. destruct first_ready as [Hc _]. by apply can_follow_iff in Hc as [Hin _]. Qed.

Lemma first_least m : can_follow placed m -> ord_le (public_uuid node, node) (public_uuid m, m).
Proof.
  intros [Hm Hz]%can_follow_iff. destruct first_ready as [_ Hu]. rewrite <-Hu.
  destruct Hinv as [_ _ _ _ _ [Hs He]].
  assert (Hin : (public_uuid m, m) ∈ (uuid, node) :: ready) by (by apply He).
  apply elem_of_cons in Hin as [->|Hin]; [apply ord_refl|].
  inversion Hs as [|? ? _ Hlt]; subst. rewrite Forall_forall in Hlt. by apply Hlt.
Qed.

Lemma rest_next b : b ∈ rest placed' <-> b ∈ rest placed /\ b <> node.
Proof.
  unfold rest, placed, placed'. rewrite !list_elem_of_filter, elem_of_app, list_elem_of_singleton. tauto.
Qed.

(** The neighbours of the node placed are not placed. *)
Lemma first_targets : Forall (fun e => neighbor_id e ∈ rest placed') (row_of g node).
Proof.
  pose proof first_rest as Hr. pose proof Hr as [_ Hid]%list_elem_of_filter.
  destruct (row_known Hids Hclosed node Hid) as [_ Hall]. rewrite Forall_forall in Hall.
  apply Forall_forall. intros e He. apply rest_next.
  assert (Hnz : entries_to (neighbor_id e) (entries_of (rest placed)) <> 0%nat).
  { rewrite entries_to_zero. intros Hne. by apply (Hne node e). }
  split.
  - apply list_elem_of_filter. split; [|by apply Hall]. intros Hin. apply Hnz.
    apply stable_prefix_closed; [apply Hinv|done].
  - intros Heq. destruct first_ready as [Hc _]. apply can_follow_iff in Hc as [_ Hz]. by rewrite Heq in Hnz.
Qed.

Lemma ready_next :
  ready_is (fun b => entries_to b (entries_of (rest placed')) + entries_to b (row_of g node))%nat (rest placed') ready.
Proof.
  destruct Hinv as [_ _ _ _ _ [Hs He]]. inversion Hs as [|? ? Hs' Hlt]; subst.
  assert (Hnode : (uuid, node) ∉ ready).
  { intros Hin. rewrite Forall_forall in Hlt. by destruct (Hlt _ Hin). }
  split; [done|]. intros p. cbn beta. rewrite rest_next. unfold placed'.
  rewrite <-(entries_rest_snoc (order t)) by apply first_rest.
  destruct first_ready as [_ Hu]. split.
  - intros Hp. destruct (proj1 (He p) ltac:(by right)) as (Hin&Hz&Hpu). split_and!; [done| |done|done].
    intros Heq. apply Hnode. destruct p as [pu pn]. cbn in *. by subst.
  - intros ((Hin&Hne)&Hz&Hpu). assert (Hp : p ∈ (uuid, node) :: ready) by (by apply He).
    apply elem_of_cons in Hp as [->|Hp]; done.
Qed.

Lemma place_inv indegrees' ready' :
  indegrees_are (fun b => entries_to b (entries_of (rest placed'))) indegrees' ->
  ready_is (fun b => entries_to b (entries_of (rest placed'))) (rest placed') ready' ->
  kahn_inv {| order := placed'; positions := <[node := length placed]> (positions t) |} indegrees' ready'.
Proof.
  intros Hd Hr. destruct first_ready as [Hc _]. pose proof Hc as (Hid&Hnp&_).
  destruct Hinv as [Hnd Hsub Hst Hpos _ _]. split; cbn [order positions]; [..|done|done].
  - apply NoDup_app. split_and!; [done| |apply NoDup_singleton]. intros x Hx ->%list_elem_of_singleton. done.
  - intros n [Hn| ->%list_elem_of_singleton]%elem_of_app; [by apply Hsub|done].
  - apply stable_prefix_snoc; [done|done|apply first_least].
  - intros n k. unfold placed'. destruct (decide (n = node)) as [->|Hne].
    + rewrite lookup_insert_eq, lookup_snoc_Some. split; [intros [= <-]; by right|].
      intros [[_ Hk]|[-> _]]; [by apply list_elem_of_lookup_2 in Hk|done].
    + rewrite lookup_insert_ne by done. rewrite Hpos, lookup_snoc_Some. split; [|intros [[_ ?]|[_ ?]]; congruence].
      intros Hk. left. split; [by eapply lookup_lt_Some|done].
Qed.
End place.

(** With fuel for the unplaced nodes, the loop places nodes until none can follow. *)
Lemma kahn_loop_spec fuel t indegrees ready work :
  (length (rest (order t)) < fuel)%nat -> kahn_inv t indegrees ready ->
  exists t', gives cancelled (kahn_loop cancelled g fuel indegrees ready work t) (Ok t') /\
    exists indegrees', kahn_inv t' indegrees' [].
Proof.
  revert t indegrees ready work. induction fuel as [|fuel IH]; intros t m ready work Hfuel Hinv; [lia|].
  destruct ready as [|[uuid node] ready]; cbn [kahn_loop].
  { exists t. split; [apply gives_ret|eauto]. }
  pose proof (first_rest _ _ _ _ _ Hinv) as Hrest. pose proof Hrest as [_ Hid]%list_elem_of_filter.
  destruct (release_edges_spec (fun b => entries_to b (entries_of (rest (order t ++ [node])))) m ready
    (saturating_add work 1) (rest (order t ++ [node])) (row_of g node)) as (m'&ready'&w'&Hrun&Hm'&Hr').
  - intros b Hb. rewrite <-(entries_rest_snoc (order t)) by done. by apply (kahn_indegrees _ _ _ Hinv).
  - by eapply ready_next.
  - by eapply first_targets.
  - by intros b [_ Hb]%list_elem_of_filter.
  - destruct (IH {| order := order t ++ [node]; positions := <[node := length (order t)]> (positions t) |} m' ready' w')
      as (t'&Hrun'&Hdone).
    + cbn [order]. apply rest_snoc, Permutation_length in Hrest. cbn in Hrest. lia.
    + by eapply place_inv.
    + exists t'. split; [|done]. gives_step. rewrite (proj1 (row_known Hids Hclosed node Hid)). gives_step.
      eapply gives_bind; [exact Hrun|]. exact Hrun'.
Qed.

(** ** What the final order says *)

Lemma final_none t indegrees : kahn_inv t indegrees [] -> forall m, ~ can_follow (order t) m.
Proof.
  intros [_ _ _ _ _ [_ He]] m [Hm Hz]%can_follow_iff.
  assert (Hin : (public_uuid m, m) ∈ ([] : list (Key * Z))) by (by apply He). by apply not_elem_of_nil in Hin.
Qed.

(** When nodes are left, each of them has a predecessor that is left. *)
Lemma final_cycle t indegrees :
  kahn_inv t indegrees [] -> rest (order t) <> [] -> exists x, tc leads_to x x.
Proof.
  intros Hinv Hne. eapply predecessors_cycle; [exact Hne|]. intros x Hx.
  assert (Hnz : entries_to x (entries_of (rest (order t))) <> 0%nat).
  { intros Hz. eapply final_none; [exact Hinv|]. by apply can_follow_iff. }
  unfold entries_to in Hnz. destruct (filter _ _) as [|e l] eqn:E; [done|].
  assert (He : e ∈ filter (fun e => neighbor_id e = x) (entries_of (rest (order t)))) by (rewrite E; left).
  apply list_elem_of_filter in He as [Heq He]. unfold entries_of in He.
  apply list_elem_of_In, in_concat in He as (row&Hrow&He). rewrite <-!list_elem_of_In in *.
  apply list_elem_of_fmap in Hrow as (a&->&Ha). exists a. split; [done|].
  split; [by apply list_elem_of_filter in Ha as [_ Ha]|eauto].
Qed.

(** In a complete stable order, every entry leads forward. *)
Lemma forward placed a b :
  (forall n, n ∈ ids -> n ∈ placed) -> stable_prefix placed -> b ∈ ids -> leads_to a b ->
  exists i j, placed !! i = Some a /\ placed !! j = Some b /\ (i < j)%nat.
Proof.
  intros Hall Hst Hb Hab. specialize (Hall b Hb). apply list_elem_of_lookup in Hall as [j Hj].
  destruct (Hst j b Hj) as [(_&_&Hpred) _]. specialize (Hpred a Hab).
  apply elem_of_take in Hpred as (i&Hi&Hij). eauto.
Qed.

Lemma leads_to_ids a b : leads_to a b -> b ∈ ids.
Proof.
  intros (Ha&e&He&<-). destruct (row_known Hids Hclosed a Ha) as [_ Hall]. rewrite Forall_forall in Hall. by apply Hall.
Qed.

Lemma stable_acyclic placed :
  NoDup placed -> (forall n, n ∈ ids -> n ∈ placed) -> stable_prefix placed -> ~ exists x, tc leads_to x x.
Proof.
  intros Hnd Hall Hst [x Hx].
  assert (Hpos : forall a b, tc leads_to a b -> exists i j, placed !! i = Some a /\ placed !! j = Some b /\ (i < j)%nat).
  { induction 1 as [a b Hab|a b c Hab _ (j'&k&Hj'&Hk&Hjk)].
    - apply forward; [done|done|by eapply leads_to_ids|done].
    - destruct (forward placed a b) as (i&j&Hi&Hj&Hij); [done|done|by eapply leads_to_ids|done|].
      assert (j = j') as -> by (by eapply NoDup_lookup). exists i, k. split_and!; [done|done|lia]. }
  destruct (Hpos x x Hx) as (i&j&Hi&Hj&Hij). assert (i = j) by (by eapply NoDup_lookup). lia.
Qed.
End kahn.

(** ** Properties *)

(** A graph as the exports make it: every entry leads to a selected node, every node has a
    UUID, and the entries fit the [u32] slots. *)
Record dag_input (g : AdjacencyGraph) (ids : list Z) (rows : list (list AlgorithmEdge)) : Prop := {
  input_graph : GraphOf g ids rows;
  input_ids : ids_ok ids;
  input_closed : closed ids rows;
  input_uuids : length (uuids (topology g)) = length ids;
  input_entries : lenZ (concat rows) <= u32_max;
}.

(** What a returned topology satisfies. *)
Record stable_topology (g : AdjacencyGraph) (ids : list Z) (t : DagTopology) : Prop := {
  topology_nodes : order t ≡ₚ ids;
  topology_positions : forall n k, positions t !! n = Some k <-> order t !! k = Some n;
  topology_forward : forall a b, leads_to g ids a b -> exists i j,
    positions t !! a = Some i /\ positions t !! b = Some j /\ (i < j)%nat;
  topology_stable : stable_prefix g ids (order t);
}.

Lemma initial_inv g ids rows indegrees ready :
  dag_input g ids rows ->
  indegrees_are ids (fun b => entries_to b (entries_of g ids)) indegrees ->
  ready_is g (fun b => entries_to b (entries_of g ids)) ids ready ->
  kahn_inv g ids {| order := []; positions := ∅ |} indegrees ready.
Proof.
  intros Hin Hd Hr. assert (Hrest : rest ids [] = ids).
  { apply filter_all. intros x _. by apply not_elem_of_nil. }
  split; cbn [order positions]; rewrite ?Hrest; [constructor|by intros n ?%not_elem_of_nil|by intros k n ?| |done|done].
  intros n k. by rewrite lookup_empty, lookup_nil.
Qed.

Lemma topology_run cancelled g ids rows work :
  dag_input g ids rows ->
  exists t indegrees, kahn_inv g ids t indegrees [] /\
    forall (k : DagTopology -> K DagTopology) r, gives cancelled (k t) r -> gives cancelled
      ('(indegrees, work) ← count_nodes cancelled g (list_to_map ((fun node => (node, 0)) <$> node_ids g)) work (node_ids g);
       '(ready, work) ← collect_ready cancelled g indegrees [] work (node_ids g);
       t ← kahn_loop cancelled g (S (length (node_ids g))) indegrees ready work {| order := []; positions := ∅ |};
       k t) r.
Proof.
  intros Hin. pose proof Hin as [Hg Hids Hcl Hu He]. rewrite (graph_node_ids (g := g)).
  assert (Hself : Forall (fun id => id ∈ ids) ids) by (by apply Forall_forall).
  destruct (count_nodes_spec cancelled g ids rows Hids Hcl Hu (fun _ => 0%nat)
    (list_to_map ((fun node => (node, 0)) <$> ids)) work ids) as (m&w&Hcount&Hm); [|done| |].
  { intros b Hb. apply elem_of_list_to_map_1; [|by apply (list_elem_of_fmap_2 (fun node => (node, 0)))].
    rewrite <-list_fmap_compose. rewrite (list_fmap_ext _ id) by done. rewrite list_fmap_id.
    apply ascending_NoDup, Hids. }
  { intros b. unfold entries_of. rewrite (rows_of_ids (g := g) (rows := rows) Hids).
    pose proof (length_filter (fun e => neighbor_id e = b) (concat rows)). unfold entries_to. cbn. lia. }
  destruct (collect_ready_spec cancelled g ids rows Hids Hu _ m [] w [] ids Hm) as (ready&w'&Hready&Hr); [|done|].
  { split; [constructor|]. intros p. split; [by intros ?%not_elem_of_nil|by intros [?%not_elem_of_nil _]]. }
  rewrite app_nil_r in Hr.
  destruct (kahn_loop_spec cancelled g ids rows Hids Hcl Hu (S (length ids)) {| order := []; positions := ∅ |} m ready w')
    as (t&Hrun&m'&Hinv).
  { unfold rest. pose proof (length_filter (fun id => id ∉ []) ids). cbn [order]. lia. }
  { by eapply initial_inv. }
  exists t, m'. split; [done|]. intros k r Hk. eapply gives_bind; [exact Hcount|].
  eapply gives_bind; [exact Hready|]. eapply gives_bind; [exact Hrun|]. exact Hk.
Qed.

Lemma complete_order g ids t indegrees :
  ids_ok ids -> kahn_inv g ids t indegrees [] -> length (order t) = length ids -> order t ≡ₚ ids.
Proof.
  intros Hids [Hnd Hsub _ _ _ _] Hlen. apply submseteq_length_Permutation; [|lia].
  by apply NoDup_submseteq.
Qed.

Lemma complete_topology g ids rows t indegrees :
  dag_input g ids rows -> kahn_inv g ids t indegrees [] -> length (order t) = length ids ->
  stable_topology g ids t /\ ~ exists x, tc (leads_to g ids) x x.
Proof.
  intros [Hg Hids Hcl Hu _] Hinv Hlen. pose proof (complete_order g ids t indegrees Hids Hinv Hlen) as Hp.
  destruct Hinv as [Hnd _ Hst Hpos _ _]. assert (Hall : forall n, n ∈ ids -> n ∈ order t) by (intros n; by rewrite Hp).
  split; [|by eapply stable_acyclic]. split; [done|done| |done]. intros a b Hab.
  assert (Hb : b ∈ ids) by (by eapply leads_to_ids).
  destruct (forward g ids (order t) a b Hall Hst Hb Hab) as (i&j&Hi&Hj&Hij).
  exists i, j. by rewrite !Hpos.
Qed.

Lemma incomplete_cycle g ids t indegrees :
  ids_ok ids -> kahn_inv g ids t indegrees [] -> length (order t) <> length ids ->
  exists x, tc (leads_to g ids) x x.
Proof.
  intros Hids Hinv Hlen. eapply final_cycle; [exact Hinv|]. intros Hnil. apply Hlen.
  apply Permutation_length, NoDup_Permutation; [apply Hinv|apply ascending_NoDup, Hids|].
  intros x. split; [apply Hinv|]. intros Hx. destruct (decide (x ∈ order t)) as [|Hn]; [done|].
  assert (Hr : x ∈ rest ids (order t)) by (by apply list_elem_of_filter).
  rewrite Hnil in Hr. by apply not_elem_of_nil in Hr.
Qed.

(** The verdict on the loop's order. *)
Definition verdict (ids : list Z) (t : DagTopology) : K DagTopology :=
  if negb (length (order t) =? length ids)%nat then k_err (Execution "selected graph contains a cycle") else mret t.

Lemma gives_verdict cancelled (ids : list Z) t :
  gives cancelled (verdict ids t)
    (if (length (order t) =? length ids)%nat then Ok t else Err (Execution "selected graph contains a cycle")).
Proof. unfold verdict. destruct (length (order t) =? length ids)%nat; [apply gives_ret|apply gives_err]. Qed.

(** C14 Over a directed graph and within the iteration budget, the topological order is computed
    exactly.  If the graph is acyclic, the order holds every node once, [positions] inverts it,
    every adjacency entry leads forward, and each node is, of those whose predecessors are all
    placed, the one with the least UUID, then id; the result is determined.  If the graph has a
    cycle, a self-loop included, the run fails with the cycle error.  An undirected graph is
    refused, and the only other outcome is a cancellation that was requested. *)
Theorem dag_topology_exact cancelled limits g ids rows c :
  dag_input g ids rows -> 0 <= iterations c < l_iterations limits ->
  exists r c', stable_dag_topology cancelled limits g c = Some (r, c') /\
    ((r = Err Cancelled /\ exists k, cancelled k = true) \/
     (is_directed g = false /\ r = Err (Execution "DAG topology requires directed adjacency")) \/
     (is_directed g = true /\ r = Err (Execution "selected graph contains a cycle") /\
      exists x, tc (leads_to g ids) x x) \/
     (exists t, is_directed g = true /\ r = Ok t /\ stable_topology g ids t /\
      ~ exists x, tc (leads_to g ids) x x)).
Proof.
  intros Hin Hc. unfold stable_dag_topology, checkpoint, check_cancelled, mbind at 1, k_bind at 1.
  unfold mbind at 1, k_bind at 1. destruct (cancelled (polls c)) eqn:Ek.
  { do 2 eexists. split; [done|]. left. split; [done|by exists (polls c)]. }
  cbn [iterations polls states]. destruct (Z.ltb_spec (l_iterations limits) (iterations c + 1)); [lia|].
  set (c1 := {| polls := _ |}). destruct (is_directed g) eqn:Ed; cbn [negb].
  2: { do 2 eexists. split; [done|]. right. by left. }
  destruct (topology_run cancelled g ids rows 0 Hin) as (t&m&Hinv&Hrun).
  rewrite (graph_node_ids (Hg := input_graph _ _ _ Hin)) in *.
  destruct (Nat.eqb_spec (length (order t)) (length ids)) as [Hlen|Hlen];
    destruct (Hrun (verdict ids) _ (gives_verdict cancelled ids t) c1) as [c' [E|[E Hk]]];
    (do 2 eexists; split; [exact E|]); [|by left| |by left]; do 2 right.
  - right. exists t. rewrite (proj2 (Nat.eqb_eq _ _) Hlen). split_and!; [done|done|by eapply complete_topology..].
  - left. rewrite (proj2 (Nat.eqb_neq _ _) Hlen). split_and!; [done|done|].
    by eapply incomplete_cycle; [apply Hin|..].
Qed.

(** The directed graph of the source's first test. *)
Definition sample_ids : list Z := seqZ 0 6.
Definition sample_entries : list Entry :=
  (fun p : Z * (Z * Z) => (p.2.1, {| edge_id := p.1; edge_uuid := p.1; neighbor_id := p.2.2; weight := f64_one |}))
    <$> [(0, (0, 4)); (1, (1, 4)); (2, (2, 5)); (3, (3, 5))].
Definition sample_graph : AdjacencyGraph :=
  from_entries true 4 sample_ids [40; 10; 30; 20; 50; 60] sample_entries.

Lemma sample_input : dag_input sample_graph sample_ids (entry_rows sample_ids sample_entries).
Proof.
  assert (Hok : ids_ok sample_ids).
  { split; [repeat constructor; lia|repeat constructor; unfold u64_max; lia|vm_compute; discriminate]. }
  split; [|done| |done|vm_compute; discriminate].
  - apply from_entries_graph; [done|repeat constructor; cbn; lia|vm_compute; discriminate].
  - apply is_closed_spec. vm_compute. reflexivity.
Qed.

Lemma dag_topology_exact_witness : exists t c',
  stable_dag_topology (fun _ => false) default_limits sample_graph new_control = Some (Ok t, c') /\
  order t = [1; 3; 2; 0; 4; 5] /\ stable_topology sample_graph sample_ids t.
Proof.
  destruct (dag_topology_exact (fun _ => false) default_limits sample_graph sample_ids
    (entry_rows sample_ids sample_entries) new_control sample_input ltac:(cbn; lia))
    as (r&c'&E&H).
  assert (Hr : match stable_dag_topology (fun _ => false) default_limits sample_graph new_control with
    Some (Ok t, _) => order t = [1; 3; 2; 0; 4; 5] | _ => False end) by (vm_compute; reflexivity).
  rewrite E in Hr.
  destruct H as [[-> _]|[[_ ->]|[(_&->&_)|(t&_&->&Ht&_)]]]; [destruct Hr..|].
  exists t, c'. exact (conj E (conj Hr Ht)).
Defined.
