(* ===== verification/Export.v ===== *)
(** * The export of an adjacency into an ordinal topology:
    [export_topology] of [crates/graphforge-exec/src/algorithm_graph.rs] and the builder, cursor
    and merges of [crates/graphforge-exec/src/algorithm_graph/topology.rs].

    The adjacency view is the list of rows its walk visits, a table is the list of its batches;
    their readers are not modelled.  Allocation succeeds.  Each constructor of [ExportError] is
    one message of the code. *)

From stdpp Require Import base list gmap sets sorting relations strings.
From Stdlib Require Import ZArith Lia.
From S2P Require Import Prelude Membership Topology Projection.

Inductive ExportError :=
| TooManyEntries
| TooManyNodes
| TooManySlots
| RowOutOfOrder (node_id : Z)
| UuidWidth
| NoTopologyUuid (edge_id : Z)
| NoWeightProperty (property : string)
| WeightNotNumeric (property : string)
| WeightInvalid (edge : Key).

(** ** The builder *)

Module TopologyBuilder.

Record TopologyBuilder := {
  offsets : list Z;
  neighbors : list Z;
  edge_ids : option (list Z);
  unsorted : list (Z * Z);
}.

Definition new (keep_edge_ids : bool) : TopologyBuilder :=
  {| offsets := [0]; neighbors := [];
     edge_ids := if keep_edge_ids then Some [] else None; unsorted := [] |}.

Abbreviation M := (SE ExportError TopologyBuilder).

Definition next_ordinal (self : TopologyBuilder) : nat := (length (offsets self) - 1)%nat.

Definition keep (nodes : NodeSet.NodeSet) (edge_id neighbor_id : Z) : M unit := fun self =>
  match NodeSet.ordinal_of nodes neighbor_id with
  | None => (Ok tt, self)
  | Some ordinal =>
      match u32_try_from ordinal with
      | None => (Err TooManyNodes, self)
      | Some ordinal =>
          (Ok tt, {| offsets := offsets self; neighbors := neighbors self ++ [ordinal];
                     edge_ids := (fun ids => ids ++ [edge_id]) <$> edge_ids self;
                     unsorted := unsorted self |})
      end
  end.

Fixpoint keep_all (nodes : NodeSet.NodeSet) (row : list (Z * Z)) : M unit :=
  match row with
  | [] => mret tt
  | (edge_id, neighbor_id) :: row' => keep nodes edge_id neighbor_id ;; keep_all nodes row'
  end.

(** Adjacent pairs in lexicographic order. *)
Fixpoint ordered (row : list (Z * Z)) : bool :=
  match row with
  | a :: ((b :: _) as row') => bool_decide (ord_le a b) && ordered row'
  | _ => true
  end.

Definition set_unsorted (row : list (Z * Z)) : M unit := fun self =>
  (Ok tt, {| offsets := offsets self; neighbors := neighbors self;
             edge_ids := edge_ids self; unsorted := row |}).

Definition close_row : M unit := fun self =>
  match u32_try_from (length (neighbors self)) with
  | None => (Err TooManyEntries, self)
  | Some end_ => (Ok tt, {| offsets := offsets self ++ [end_]; neighbors := neighbors self;
                            edge_ids := edge_ids self; unsorted := unsorted self |})
  end.

Definition push_row (nodes : NodeSet.NodeSet) (edge_ids neighbor_ids : list Z) : M unit :=
  let len := Nat.min (length edge_ids) (length neighbor_ids) in
  let row := zip (take len edge_ids) (take len neighbor_ids) in
  (if ordered row then keep_all nodes row
   else
     let row := sort_by_key id row in
     set_unsorted [] ;; keep_all nodes row ;; set_unsorted row) ;;
  close_row.

Definition finish (self : TopologyBuilder) (node_count : nat) : list Z * list Z * option (list Z) :=
  let end_ := default 0 (last (offsets self)) in
  (resize (S node_count) end_ (offsets self), neighbors self, edge_ids self).
End TopologyBuilder.

(** A row of the adjacency view: node id, edge ids, neighbour ids. *)
Abbreviation Row := (Z * list Z * list Z)%type.

Fixpoint walk_selected (nodes : NodeSet.NodeSet) (rows : list Row) : TopologyBuilder.M unit :=
  match rows with
  | [] => mret tt
  | (node_id, edge_ids, neighbor_ids) :: rows' =>
      (match NodeSet.ordinal_of nodes node_id with
       | None => mret tt
       | Some ordinal => fun builder =>
           if negb (ordinal =? TopologyBuilder.next_ordinal builder)%nat
           then (Err (RowOutOfOrder node_id), builder)
           else TopologyBuilder.push_row nodes edge_ids neighbor_ids builder
       end) ;;
      walk_selected nodes rows'
  end.

(** The entries a walk keeps. *)
Fixpoint count_retained_entries (nodes : NodeSet.NodeSet) (rows : list Row) (retained : Z) : Z :=
  match rows with
  | [] => retained
  | (node_id, edge_ids, neighbor_ids) :: rows' =>
      let retained :=
        if bool_decide (is_Some (NodeSet.ordinal_of nodes node_id)) then
          let len := Nat.min (length edge_ids) (length neighbor_ids) in
          retained + lenZ (filter (fun neighbor => is_Some (NodeSet.ordinal_of nodes neighbor)) (take len neighbor_ids))
        else retained in
      count_retained_entries nodes rows' retained
  end.

(** ** Sorted merges *)

(** [slot_order]: the slots as [u32], ordered by key.  The source sorts with an unstable sort;
    the model breaks ties by slot, and no result below depends on the order of equal keys. *)
Definition slot_order (slots : nat) (key : nat -> Z) : result ExportError (list Z) :=
  if bool_decide (Forall (fun slot => is_Some (u32_try_from slot)) (seq 0 slots))
  then Ok (sort_by_key (fun slot => key (Z.to_nat slot)) (Z.of_nat <$> seq 0 slots))
  else Err TooManySlots.

Module SortedCursor.

Record SortedCursor := {
  position : nat;
  previous : option Z;
}.
Definition new : SortedCursor := {| position := 0; previous := None |}.

(** [while p(order[at]) { at += 1 }] from [at] on; [rest] is [order[at..]]. *)
Fixpoint advance (p : Z -> bool) (rest : list Z) (at_ : nat) : nat :=
  match rest with
  | slot :: rest' => if p slot then advance p rest' (S at_) else at_
  | [] => at_
  end.

Definition find (self : SortedCursor) (order : list Z) (key : Z -> Z) (wanted : Z)
    : (nat * nat) * SortedCursor :=
  let position :=
    match previous self with
    | Some previous =>
        if wanted <? previous then partition_point (fun slot => key slot <? wanted) order
        else advance (fun slot => key slot <? wanted) (drop (position self) order) (position self)
    | None => advance (fun slot => key slot <? wanted) (drop (position self) order) (position self)
    end in
  let end_ := advance (fun slot => key slot =? wanted) (drop position order) position in
  ((position, end_), {| position := position; previous := Some wanted |}).
End SortedCursor.

(** [uuid_at]: a cell of a fixed-size binary column. *)
Definition uuid_at (cell : list Z) : result ExportError Key :=
  if (length cell =? 16)%nat then Ok (from_be cell) else Err UuidWidth.

(** [for &slot in &order[matches] { v[slot] = x }] *)
Definition assign {A} (v : list A) (slots : list Z) (x : A) : list A :=
  foldl (fun v slot => <[Z.to_nat slot := x]> v) v slots.

(** The bitmap of filled slots, in [u64] words. *)
Definition set_filled (filled : list Z) (slot : Z) : list Z :=
  alter (fun word => Z.lor word (Z.shiftl 1 (slot mod 64))) (Z.to_nat (slot / 64)) filled.
Definition is_filled (filled : list Z) (slot : Z) : bool :=
  negb (Z.land (default 0 (filled !! Z.to_nat (slot / 64))) (Z.shiftl 1 (slot mod 64)) =? 0).

Record UuidMerge := {
  m_cursor : SortedCursor.SortedCursor;
  m_uuids : list Key;
  m_filled : list Z;
  m_rows : Z;
}.

(** One row of the edge table. *)
Definition resolve_row (order edge_ids : list Z) (st : UuidMerge) (row : Z * list Z)
    : result ExportError UuidMerge :=
  let '(edge_id, cell) := row in
  let '(matches, cursor) :=
    SortedCursor.find (m_cursor st) order (fun slot => default 0 (edge_ids !! Z.to_nat slot)) edge_id in
  if (matches.2 <=? matches.1)%nat
  then Ok {| m_cursor := cursor; m_uuids := m_uuids st; m_filled := m_filled st; m_rows := m_rows st |}
  else
    uuid ← uuid_at cell;
    let slots := slice order matches in
    Ok {| m_cursor := cursor; m_uuids := assign (m_uuids st) slots uuid;
          m_filled := foldl set_filled (m_filled st) slots; m_rows := m_rows st |}.

Fixpoint resolve_rows (order edge_ids : list Z) (st : UuidMerge) (rows : list (Z * list Z))
    : result ExportError UuidMerge :=
  match rows with
  | [] => Ok st
  | row :: rows' => st ← resolve_row order edge_ids st row; resolve_rows order edge_ids st rows'
  end.

(** The visitor over the batches of the edge table. *)
Fixpoint resolve_batches (order edge_ids : list Z) (st : UuidMerge) (batches : list (list (Z * list Z)))
    : result ExportError UuidMerge :=
  match batches with
  | [] => Ok st
  | batch :: batches' =>
      let st := {| m_cursor := m_cursor st; m_uuids := m_uuids st; m_filled := m_filled st;
                   m_rows := m_rows st + lenZ batch |} in
      st ← resolve_rows order edge_ids st batch;
      resolve_batches order edge_ids st batches'
  end.

Definition resolve_edge_uuids (edge_ids : list Z) (batches : list (list (Z * list Z)))
    : result ExportError (list Key * Z) :=
  let slots := length edge_ids in
  if (slots =? 0)%nat then Ok ([], 0)
  else
    order ← slot_order slots (fun slot => default 0 (edge_ids !! slot));
    let st := {| m_cursor := SortedCursor.new; m_uuids := replicate slots 0;
                 m_filled := replicate (Z.to_nat (div_ceil (Z.of_nat slots) 64)) 0; m_rows := 0 |} in
    st ← resolve_batches order edge_ids st batches;
    match list_find (fun slot => is_filled (m_filled st) (Z.of_nat slot) = false) (seq 0 slots) with
    | Some (_, slot) => Err (NoTopologyUuid (default 0 (edge_ids !! slot)))
    | None => Ok (m_uuids st, m_rows st)
    end.

(** ** Weights *)

(** A row of an edge-property batch: the UUID cell unless NULL, and the value unless NULL,
    itself [None] where it is not numeric. *)
Abbreviation WeightRow := (option (list Z) * option (option Z))%type.

Definition f64_nan : Z := 0x7FF8000000000000.

Definition weight_row (property : string) (order : list Z) (edge_uuids : list Key)
    (st : SortedCursor.SortedCursor * list Z) (row : WeightRow)
    : result ExportError (SortedCursor.SortedCursor * list Z) :=
  let '(cursor, weights) := st in
  let '(cell, value) := row in
  match cell with
  | None => Ok (cursor, weights)
  | Some cell =>
      uuid ← uuid_at cell;
      let '(matches, cursor) :=
        SortedCursor.find cursor order (fun slot => default 0 (edge_uuids !! Z.to_nat slot)) uuid in
      match value with
      | None => Ok (cursor, weights)
      | Some value =>
          if (matches.2 <=? matches.1)%nat then Ok (cursor, weights)
          else
            weight ← ok_or value (WeightNotNumeric property);
            Ok (cursor, assign weights (slice order matches) weight)
      end
  end.

Fixpoint weight_rows (property : string) (order : list Z) (edge_uuids : list Key)
    (st : SortedCursor.SortedCursor * list Z) (rows : list WeightRow)
    : result ExportError (SortedCursor.SortedCursor * list Z) :=
  match rows with
  | [] => Ok st
  | row :: rows' =>
      st ← weight_row property order edge_uuids st row; weight_rows property order edge_uuids st rows'
  end.

(** The batches of one route; [None] is a batch without the property's column. *)
Fixpoint weight_batches (property : string) (order : list Z) (edge_uuids : list Key)
    (st : SortedCursor.SortedCursor * list Z) (batches : list (option (list WeightRow)))
    : result ExportError (SortedCursor.SortedCursor * list Z) :=
  match batches with
  | [] => Ok st
  | None :: _ => Err (NoWeightProperty property)
  | Some rows :: batches' =>
      st ← weight_rows property order edge_uuids st rows;
      weight_batches property order edge_uuids st batches'
  end.

(** The routes of the property, a new cursor for each. *)
Fixpoint weight_routes (property : string) (order : list Z) (edge_uuids : list Key) (weights : list Z)
    (routes : list (list (option (list WeightRow)))) : result ExportError (list Z) :=
  match routes with
  | [] => Ok weights
  | batches :: routes' =>
      st ← weight_batches property order edge_uuids (SortedCursor.new, weights) batches;
      weight_routes property order edge_uuids st.2 routes'
  end.

Definition resolve_weights (property : string) (edge_uuids : list Key)
    (routes : list (list (option (list WeightRow)))) : result ExportError (list Z) :=
  if (length edge_uuids =? 0)%nat then Ok []
  else
    order ← slot_order (length edge_uuids) (fun slot => default 0 (edge_uuids !! slot));
    weights ← weight_routes property order edge_uuids (replicate (length edge_uuids) f64_nan) routes;
    match list_find (fun weight => f64_is_finite weight = false) weights with
    | Some (slot, _) => Err (WeightInvalid (default 0 (edge_uuids !! slot)))
    | None => Ok weights
    end.

(** ** The export *)

Inductive Direction := Out | In | Undirected.
#[export] Instance direction_eq_dec : EqDecision Direction.
Proof. solve_decision. Defined.

Inductive EdgeIdentityDemand := Omit | Retain.
#[export] Instance demand_eq_dec : EqDecision EdgeIdentityDemand.
Proof. solve_decision. Defined.

(** What the export reads: the selected nodes with their UUIDs, the rows of the view, the
    batches of the edge table, and the weight property with the routes that hold it. *)
Record ExportInput := {
  in_nodes : NodeSet.NodeSet;
  in_uuids : list Key;
  in_direction : Direction;
  in_rows : list Row;
  in_edges : list (list (Z * list Z));
  in_weight : option (string * list (list (option (list WeightRow))));
}.

Definition export_topology (input : ExportInput) (identity : EdgeIdentityDemand)
    : result ExportError AdjacencyGraph :=
  let nodes := in_nodes input in
  let node_count := NodeSet.len nodes in
  let keep_edge_ids := bool_decide (identity = Retain) || bool_decide (is_Some (in_weight input)) in
  let builder := TopologyBuilder.new keep_edge_ids in
  builder ← (if (0 <? node_count)%nat then exec (walk_selected nodes (in_rows input)) builder
             else Ok builder);
  let '(offsets, neighbors, edge_ids) := TopologyBuilder.finish builder node_count in
  let retained_entry_count := lenZ neighbors in
  let logical_edge_count :=
    if bool_decide (in_direction input = Undirected) then retained_entry_count / 2
    else retained_entry_count in
  '(retained, weights) ←
    (match edge_ids with
     | None => Ok (None, None)
     | Some edge_ids =>
         '(edge_uuids, _) ← resolve_edge_uuids edge_ids (in_edges input);
         weights ← (match in_weight input with
                    | None => Ok None
                    | Some (property, routes) => Some <$> resolve_weights property edge_uuids routes
                    end);
         Ok (if bool_decide (identity = Retain)
             then Some {| Topology.edge_ids := edge_ids; edge_uuids := edge_uuids |} else None,
             weights)
     end);
  Ok {| topology := {| directed := negb (bool_decide (in_direction input = Undirected));
                       Topology.offsets := offsets; Topology.neighbors := neighbors;
                       weights := weights; uuids := in_uuids input; nodes := nodes;
                       identity := retained |};
        logical_edge_count := logical_edge_count |}.

(** ** The cursor finds exactly the slots of a key *)

Section cursor.
Context (order : list Z) (key : Z -> Z).

Definition keys_sorted : Prop :=
  forall i j x y, (i <= j)%nat -> order !! i = Some x -> order !! j = Some y -> key x <= key y.
Hypothesis (Hsorted : keys_sorted).

Lemma advance_spec p at_ :
  (at_ <= length order)%nat ->
  let r := SortedCursor.advance p (drop at_ order) at_ in
  (at_ <= r <= length order)%nat /\
  (forall i x, (at_ <= i < r)%nat -> order !! i = Some x -> p x = true) /\
  (forall x, order !! r = Some x -> p x = false).
Proof.
  clear Hsorted. cbn zeta. remember (drop at_ order) as rest eqn:E. revert at_ E.
  induction rest as [|x rest IH]; intros at_ E Hle; cbn.
  - assert (at_ = length order) as -> by (symmetry in E; apply (f_equal length) in E; rewrite length_drop in E; cbn in E; lia).
    split_and!; [lia|lia|lia|]. intros x Hx. apply lookup_lt_Some in Hx. lia.
  - assert (Hx : order !! at_ = Some x) by (rewrite <-(Nat.add_0_r at_), <-lookup_drop, <-E; done).
    destruct (p x) eqn:Ep.
    + destruct (IH (S at_)) as (H1&H2&H3).
      * by rewrite <-Nat.add_1_r, <-drop_drop, <-E.
      * by apply lookup_lt_Some in Hx.
      * split_and!; [lia|lia| |done]. intros i y Hi Hy. destruct (decide (i = at_)) as [->|]; [congruence|].
        apply (H2 i); [lia|done].
    + split_and!; [lia|done|lia|]. intros y Hy. congruence.
Qed.

(** Slots before the position have smaller keys than the last key asked for. *)
Definition cursor_ok (self : SortedCursor.SortedCursor) : Prop :=
  (SortedCursor.position self <= length order)%nat /\
  match SortedCursor.previous self with
  | None => SortedCursor.position self = 0%nat
  | Some previous => forall i x, (i < SortedCursor.position self)%nat -> order !! i = Some x -> key x < previous
  end.

Lemma new_cursor_ok : cursor_ok SortedCursor.new.
Proof. clear Hsorted. split; cbn; [lia|done]. Qed.

(** The position the cursor moves to is the lower bound of the key wanted. *)
Definition lower_bound (wanted : Z) (n : nat) : Prop :=
  (n <= length order)%nat /\ forall i x, order !! i = Some x -> key x < wanted <-> (i < n)%nat.

Lemma advance_lower_bound wanted at_ :
  (at_ <= length order)%nat -> (forall i x, (i < at_)%nat -> order !! i = Some x -> key x < wanted) ->
  lower_bound wanted (SortedCursor.advance (fun slot => key slot <? wanted) (drop at_ order) at_).
Proof.
  intros Hle Hbelow. destruct (advance_spec (fun slot => key slot <? wanted) at_ Hle) as ([H1 H2]&H3&H4).
  set (r := SortedCursor.advance _ _ _) in *. split; [done|]. intros i x Hi. split.
  - intros Hlt. destruct (decide (i < r)%nat) as [|Hge]; [done|].
    destruct (lookup_lt_is_Some_2 order r) as [y Hy]; [apply lookup_lt_Some in Hi; lia|].
    specialize (H4 y Hy). apply Z.ltb_ge in H4. pose proof (Hsorted r i y x ltac:(lia) Hy Hi). lia.
  - intros Hir. destruct (decide (i < at_)%nat); [by eapply Hbelow|]. apply Z.ltb_lt, (H3 i); [lia|done].
Qed.

Lemma find_lower_bound self wanted :
  cursor_ok self ->
  lower_bound wanted (SortedCursor.find self order key wanted).1.1.
Proof.
  intros [Hle Hok]. unfold SortedCursor.find. cbn [fst].
  destruct (SortedCursor.previous self) as [previous|] eqn:Ep.
  - destruct (Z.ltb_spec wanted previous) as [Hlt|Hge].
    + destruct (partition_point_spec (fun slot => key slot <? wanted) order) as [H1 H2].
      { intros i j x y Hij Hi Hj Hy%Z.ltb_lt. apply Z.ltb_lt. pose proof (Hsorted i j x y Hij Hi Hj). lia. }
      split; [done|]. intros i x Hi. rewrite <-(H2 i x Hi). symmetry. apply Z.ltb_lt.
    + apply advance_lower_bound; [done|]. intros i x Hi Hx. specialize (Hok i x Hi Hx). lia.
  - apply advance_lower_bound; [done|]. intros i x Hi. lia.
Qed.

Lemma find_from self wanted :
  SortedCursor.find self order key wanted =
    let pos := (SortedCursor.find self order key wanted).1.1 in
    ((pos, SortedCursor.advance (fun slot => key slot =? wanted) (drop pos order) pos),
     {| SortedCursor.position := pos; SortedCursor.previous := Some wanted |}).
Proof. reflexivity. Qed.

(** A lookup returns the range of the key wanted, whatever was asked before. *)
Lemma cursor_find_spec self wanted :
  cursor_ok self ->
  let r := SortedCursor.find self order key wanted in
  (r.1.1 <= r.1.2 <= length order)%nat /\
  (forall i x, order !! i = Some x -> (r.1.1 <= i < r.1.2)%nat <-> key x = wanted) /\
  cursor_ok r.2.
Proof.
  intros Hok. pose proof (find_lower_bound self wanted Hok) as [Hle Hlow]. cbn zeta.
  rewrite find_from. revert Hle Hlow. generalize (SortedCursor.find self order key wanted).1.1 as pos.
  intros pos Hle Hlow. cbn [fst snd].
  destruct (advance_spec (fun slot => key slot =? wanted) pos Hle) as ([H1 H2]&H3&H4).
  set (r := SortedCursor.advance _ _ pos) in *. split_and!; [done|done| |].
  - intros i x Hi. split.
    + intros Hr. by apply Z.eqb_eq, (H3 i).
    + intros Hk. assert (Hpos : (pos <= i)%nat).
      { destruct (decide (i < pos)%nat) as [Hlt|]; [|lia]. apply (Hlow i x Hi) in Hlt. lia. }
      split; [done|]. destruct (decide (i < r)%nat) as [|Hge]; [done|].
      destruct (lookup_lt_is_Some_2 order r) as [y Hy]; [apply lookup_lt_Some in Hi; lia|].
      pose proof (H4 y Hy) as Hne%Z.eqb_neq. pose proof (Hsorted r i y x ltac:(lia) Hy Hi).
      assert (~ (key y < wanted)) by (rewrite (Hlow r y Hy); lia). lia.
  - split; cbn; [done|]. intros i x Hi Hx. by apply (Hlow i x).
Qed.

(** The slots of the range, as a slice. *)
Lemma find_slots self wanted slot :
  cursor_ok self ->
  slot ∈ slice order (SortedCursor.find self order key wanted).1 <-> slot ∈ order /\ key slot = wanted.
Proof.
  intros Hok. destruct (cursor_find_spec self wanted Hok) as ([H1 H2]&H3&_).
  set (r := (SortedCursor.find self order key wanted).1) in *. unfold slice.
  rewrite elem_of_take. setoid_rewrite lookup_drop. split.
  - intros (i&Hi&Hlt). split; [by eapply list_elem_of_lookup_2|]. apply (H3 _ _ Hi). lia.
  - intros [(i&Hi)%list_elem_of_lookup Hk]. apply (H3 i slot Hi) in Hk.
    exists (i - r.1)%nat. replace (r.1 + (i - r.1))%nat with i by lia. split; [done|lia].
Qed.
End cursor.

(** ** Edge UUIDs *)

(** The UUID of the last row of the table with the edge id. *)
Definition last_uuid (rows : list (Z * list Z)) (id : Z) : option Key :=
  foldl (fun acc row => if row.1 =? id then Some (from_be row.2) else acc) None rows.

(** The reference: each edge id looked up in the whole table. *)
Fixpoint lookup_uuids (rows : list (Z * list Z)) (edge_ids : list Z) : result ExportError (list Key) :=
  match edge_ids with
  | [] => Ok []
  | id :: edge_ids' =>
      uuid ← ok_or (last_uuid rows id) (NoTopologyUuid id);
      uuids ← lookup_uuids rows edge_ids';
      Ok (uuid :: uuids)
  end.

Lemma last_uuid_snoc rows row id :
  last_uuid (rows ++ [row]) id = if row.1 =? id then Some (from_be row.2) else last_uuid rows id.
Proof. unfold last_uuid. by rewrite foldl_app. Qed.

Lemma lookup_uuids_Ok rows ids :
  Forall (fun id => is_Some (last_uuid rows id)) ids ->
  lookup_uuids rows ids = Ok ((fun id => default 0 (last_uuid rows id)) <$> ids).
Proof. induction 1 as [|id ids [u Hu] _ IH]; [done|]. cbn. by rewrite Hu, IH. Qed.

Lemma lookup_uuids_Err rows ids n id :
  ids !! n = Some id -> last_uuid rows id = None ->
  (forall j id', (j < n)%nat -> ids !! j = Some id' -> is_Some (last_uuid rows id')) ->
  lookup_uuids rows ids = Err (NoTopologyUuid id).
Proof.
  revert n. induction ids as [|x ids IH]; intros n Hn Hid Hbefore; [done|]. cbn.
  destruct n as [|n]; [injection Hn as ->; by rewrite Hid|].
  destruct (Hbefore 0%nat x ltac:(lia) eq_refl) as [u ->]. cbn.
  rewrite (IH n Hn Hid); [done|]. intros j id' Hj. apply (Hbefore (S j)). lia.
Qed.

Lemma lookup_uuids_missing rows (entries : list (Z * Z)) :
  Exists (fun entry => ~ is_Some (last_uuid rows entry.1)) entries ->
  exists entry, entry ∈ entries /\ last_uuid rows entry.1 = None /\
    lookup_uuids rows entries.*1 = Err (NoTopologyUuid entry.1).
Proof.
  induction entries as [|entry entries IH]; intros Hex; [by apply Exists_nil in Hex|]. cbn.
  destruct (last_uuid rows entry.1) as [u|] eqn:E; cbn.
  - apply Exists_cons in Hex as [Hno|Hex]; [by destruct Hno|]. destruct (IH Hex) as (x&Hx&Hnone&->).
    exists x. split_and!; [by right|done|done].
  - exists entry. split_and!; [left|done|done].
Qed.

(** The bitmap, by bits. *)
Definition filled_bit (filled : list Z) (slot : Z) : bool :=
  Z.testbit (default 0 (filled !! Z.to_nat (slot / 64))) (slot mod 64).

Lemma is_filled_bit filled slot : 0 <= slot -> is_filled filled slot = filled_bit filled slot.
Proof.
  intros Hs. unfold is_filled, filled_bit. generalize (default 0 (filled !! Z.to_nat (slot / 64))) as w.
  intros w. pose proof (Z.mod_pos_bound slot 64 ltac:(lia)) as [Hk _]. revert Hk.
  generalize (slot mod 64) as k. intros k Hk. rewrite Z.shiftl_1_l.
  destruct (Z.testbit w k) eqn:E.
  - destruct (Z.eqb_spec (Z.land w (2 ^ k)) 0) as [H0|]; [|done].
    apply (f_equal (fun z => Z.testbit z k)) in H0.
    by rewrite Z.land_spec, E, Z.pow2_bits_true, Z.bits_0 in H0.
  - destruct (Z.eqb_spec (Z.land w (2 ^ k)) 0) as [|Hne]; [done|]. destruct Hne.
    apply Z.bits_inj'. intros n Hn. rewrite Z.land_spec, Z.bits_0, Z.pow2_bits_eqb by done.
    destruct (Z.eqb_spec k n) as [<-|]; [by rewrite E|by rewrite andb_false_r].
Qed.

Lemma set_filled_bit filled s t :
  0 <= s -> 0 <= t -> s / 64 < lenZ filled ->
  filled_bit (set_filled filled s) t = filled_bit filled t || (s =? t).
Proof.
  intros Hs Ht Hlen. unfold filled_bit, set_filled.
  pose proof (Z.div_pos s 64 Hs ltac:(lia)). pose proof (Z.div_pos t 64 Ht ltac:(lia)).
  pose proof (Z.div_mod s 64 ltac:(lia)). pose proof (Z.div_mod t 64 ltac:(lia)).
  pose proof (Z.mod_pos_bound s 64 ltac:(lia)). pose proof (Z.mod_pos_bound t 64 ltac:(lia)).
  destruct (decide (s / 64 = t / 64)) as [Heq|Hne].
  - rewrite Heq, list_lookup_alter_eq.
    destruct (lookup_lt_is_Some_2 filled (Z.to_nat (t / 64))) as [w Hw]; [lia|]. rewrite Hw. cbn.
    rewrite Z.lor_spec, Z.shiftl_1_l, Z.pow2_bits_eqb by lia. f_equal.
    destruct (Z.eqb_spec (s mod 64) (t mod 64)), (Z.eqb_spec s t); try done; lia.
  - rewrite list_lookup_alter_ne by lia. destruct (Z.eqb_spec s t) as [->|]; [done|]. by rewrite orb_false_r.
Qed.

Lemma set_filled_length filled s : length (set_filled filled s) = length filled.
Proof. apply length_alter. Qed.

Lemma set_all_filled filled slots t :
  0 <= t -> Forall (fun s => 0 <= s /\ s / 64 < lenZ filled) slots ->
  filled_bit (foldl set_filled filled slots) t = filled_bit filled t || bool_decide (t ∈ slots) /\
  length (foldl set_filled filled slots) = length filled.
Proof.
  intros Ht Hs. revert filled Hs. induction slots as [|s slots IH]; intros filled Hs; cbn [foldl].
  { rewrite bool_decide_false by apply not_elem_of_nil. by rewrite orb_false_r. }
  inversion Hs as [|? ? [Hs0 Hs1] Hs']; subst. destruct (IH (set_filled filled s)) as [IH1 IH2].
  { eapply Forall_impl; [done|]. cbn. by rewrite set_filled_length. }
  rewrite IH1, IH2, set_filled_length, set_filled_bit by done. split; [|done]. rewrite <-orb_assoc. f_equal.
  destruct (Z.eqb_spec s t) as [->|Hne]; cbn; [by rewrite bool_decide_true by left|].
  apply bool_decide_ext. rewrite elem_of_cons. split; [by right|]. intros [?|?]; [congruence|done].
Qed.

Lemma assign_lookup {A} (v : list A) slots x n :
  (n < length v)%nat -> Forall (fun s => 0 <= s) slots ->
  assign v slots x !! n = if decide (Z.of_nat n ∈ slots) then Some x else v !! n.
Proof.
  unfold assign. intros Hn Hs. revert v Hn. induction Hs as [|s slots Hs0 Hs IH]; intros v Hn; cbn [foldl].
  { rewrite decide_False by apply not_elem_of_nil. done. }
  rewrite IH by (by rewrite length_insert).
  destruct (decide (Z.of_nat n ∈ slots)) as [Hin|Hin]; [by rewrite decide_True by (by right)|].
  destruct (decide (s = Z.of_nat n)) as [->|Hne].
  - rewrite decide_True by left. rewrite Nat2Z.id. by apply list_lookup_insert_eq.
  - rewrite decide_False by (rewrite elem_of_cons; naive_solver). apply list_lookup_insert_ne. lia.
Qed.

Lemma assign_length {A} (v : list A) slots x : length (assign v slots x) = length v.
Proof.
  unfold assign. revert v. induction slots as [|s slots IH]; intros v; [done|]. cbn. by rewrite IH, length_insert.
Qed.

(** The slots in key order. *)
Definition slots_by (slots : nat) (key : nat -> Z) : list Z :=
  sort_by_key (fun slot => key (Z.to_nat slot)) (Z.of_nat <$> seq 0 slots).

Lemma slot_order_Ok slots key : Z.of_nat slots <= u32_max -> slot_order slots key = Ok (slots_by slots key).
Proof.
  intros Hn. unfold slot_order. rewrite bool_decide_true; [done|]. apply Forall_forall.
  intros s Hs%elem_of_seq. unfold u32_try_from. destruct (Z.leb_spec (Z.of_nat s) u32_max); [done|lia].
Qed.

Lemma slots_by_elem slots key s : s ∈ slots_by slots key <-> 0 <= s < Z.of_nat slots.
Proof.
  unfold slots_by. rewrite sort_by_key_perm, list_elem_of_fmap. setoid_rewrite elem_of_seq. split.
  - intros (n&->&Hn). lia.
  - intros Hs. exists (Z.to_nat s). lia.
Qed.

Lemma slots_by_sorted slots key : keys_sorted (slots_by slots key) (fun slot => key (Z.to_nat slot)).
Proof.
  intros i j x y Hij Hi Hj. destruct (decide (i = j)) as [->|Hne]; [assert (x = y) as -> by congruence; lia|].
  assert (Hs : StronglySorted (key_le (fun slot => key (Z.to_nat slot))) (slots_by slots key)) by apply sort_by_key_sorted.
  by eapply (StronglySorted_lookup _ _ i j) in Hs; [|lia|done..].
Qed.

Section merge.
Context (edge_ids : list Z).

Let key (slot : Z) : Z := default 0 (edge_ids !! Z.to_nat slot).
Let order := slots_by (length edge_ids) (fun slot => default 0 (edge_ids !! slot)).

(** What the merge holds after the rows [rows] of the table. *)
Record merge_ok (rows : list (Z * list Z)) (st : UuidMerge) : Prop := {
  merge_cursor : cursor_ok order key (m_cursor st);
  merge_uuids : m_uuids st = (fun id => default 0 (last_uuid rows id)) <$> edge_ids;
  merge_words : lenZ edge_ids <= 64 * lenZ (m_filled st);
  merge_filled : forall n id, edge_ids !! n = Some id ->
    filled_bit (m_filled st) (Z.of_nat n) = bool_decide (is_Some (last_uuid rows id));
}.

Lemma matches_slots cursor wanted n id :
  cursor_ok order key cursor -> edge_ids !! n = Some id ->
  Z.of_nat n ∈ slice order (SortedCursor.find cursor order key wanted).1 <-> wanted = id.
Proof.
  intros Hc Hn. rewrite find_slots by (done || apply slots_by_sorted).
  unfold order, key. rewrite slots_by_elem, Nat2Z.id, Hn. cbn.
  apply lookup_lt_Some in Hn. split; [by intros [_ ->]|]. intros ->. split; [lia|done].
Qed.

Lemma matches_range cursor wanted :
  cursor_ok order key cursor ->
  Forall (fun s => 0 <= s < lenZ edge_ids) (slice order (SortedCursor.find cursor order key wanted).1).
Proof.
  intros Hc. apply Forall_forall. intros s Hs%find_slots; [|apply slots_by_sorted|done].
  by destruct Hs as [Hs%slots_by_elem _].
Qed.

(** A row of no slot's edge changes nothing. *)
Lemma merge_skip rows st wanted cell cursor :
  merge_ok rows st -> cursor_ok order key cursor ->
  (forall n id, edge_ids !! n = Some id -> wanted <> id) ->
  merge_ok (rows ++ [(wanted, cell)])
    {| m_cursor := cursor; m_uuids := m_uuids st; m_filled := m_filled st; m_rows := m_rows st |}.
Proof.
  intros [_ Hu Hw Hf] Hc Hno. split; cbn; [done| |done|].
  - rewrite Hu. apply list_fmap_ext. intros n id Hn. rewrite last_uuid_snoc. cbn.
    by rewrite (proj2 (Z.eqb_neq _ _) (Hno n id Hn)).
  - intros n id Hn. rewrite last_uuid_snoc. cbn.
    rewrite (proj2 (Z.eqb_neq _ _) (Hno n id Hn)). by apply Hf.
Qed.

(** A row of an edge gives its UUID to all the slots of that edge. *)
Lemma merge_assign rows st wanted cell cursor slots :
  merge_ok rows st -> cursor_ok order key cursor ->
  Forall (fun s => 0 <= s < lenZ edge_ids) slots ->
  (forall n id, edge_ids !! n = Some id -> Z.of_nat n ∈ slots <-> wanted = id) ->
  merge_ok (rows ++ [(wanted, cell)])
    {| m_cursor := cursor; m_uuids := assign (m_uuids st) slots (from_be cell);
       m_filled := foldl set_filled (m_filled st) slots; m_rows := m_rows st |}.
Proof.
  intros [_ Hu Hw Hf] Hc Hrange Hslots.
  assert (Hwords : Forall (fun s => 0 <= s /\ s / 64 < lenZ (m_filled st)) slots).
  { eapply Forall_impl; [done|]. cbn. intros s Hs. split; [lia|]. apply Z.div_lt_upper_bound; lia. }
  assert (Hnn : Forall (fun s => 0 <= s) slots) by (eapply Forall_impl; [done|]; cbn; lia).
  split; cbn; [done| | |].
  - apply list_eq. intros n. rewrite list_lookup_fmap. destruct (edge_ids !! n) as [id|] eqn:Hn; cbn.
    + rewrite assign_lookup; [| |done].
      2: { rewrite Hu, length_fmap. by eapply lookup_lt_Some. }
      rewrite last_uuid_snoc, Hu, list_lookup_fmap, Hn. cbn.
      rewrite (decide_ext _ _ _ _ (Hslots n id Hn)).
      by destruct (Z.eqb_spec wanted id), (decide (wanted = id)).
    + apply lookup_ge_None. apply lookup_ge_None in Hn. rewrite assign_length, Hu, length_fmap. done.
  - by rewrite (proj2 (set_all_filled (m_filled st) slots 0 ltac:(lia) Hwords)).
  - intros n id Hn. rewrite (proj1 (set_all_filled (m_filled st) slots (Z.of_nat n) ltac:(lia) Hwords)).
    rewrite (Hf n id Hn), last_uuid_snoc. cbn. rewrite (bool_decide_ext _ _ (Hslots n id Hn)).
    destruct (Z.eqb_spec wanted id) as [->|Hne'].
    + rewrite (bool_decide_true (id = id)), orb_true_r by done. by rewrite bool_decide_true.
    + rewrite (bool_decide_false (wanted = id)) by done. by rewrite orb_false_r.
Qed.

Lemma resolve_row_ok rows st row :
  merge_ok rows st -> length row.2 = 16%nat ->
  exists st', resolve_row order edge_ids st row = Ok st' /\ merge_ok (rows ++ [row]) st' /\ m_rows st' = m_rows st.
Proof.
  intros Hok Hcell. destruct row as [wanted cell]. cbn in Hcell. unfold resolve_row. fold key.
  pose proof (merge_cursor _ _ Hok) as Hc.
  assert (Hslots : forall n id, edge_ids !! n = Some id -> _) by (intros n id; exact (matches_slots (m_cursor st) wanted n id Hc)).
  pose proof (matches_range (m_cursor st) wanted Hc) as Hrange.
  destruct (cursor_find_spec order key (slots_by_sorted _ _) (m_cursor st) wanted Hc) as (_&_&Hc').
  destruct (SortedCursor.find (m_cursor st) order key wanted) as [matches cursor]. cbn [fst snd] in *.
  unfold uuid_at. rewrite Hcell. cbn [Nat.eqb].
  destruct (Nat.leb_spec matches.2 matches.1) as [Hempty|Hne]; (eexists; split; [done|]; split; [|done]).
  - apply merge_skip; [done|done|]. intros n id Hn Heq. apply (Hslots n id Hn) in Heq.
    unfold slice in Heq. replace (matches.2 - matches.1)%nat with 0%nat in Heq by lia.
    by apply not_elem_of_nil in Heq.
  - by apply merge_assign.
Qed.

Lemma resolve_rows_ok rows st more :
  merge_ok rows st -> Forall (fun row => length row.2 = 16%nat) more ->
  exists st', resolve_rows order edge_ids st more = Ok st' /\ merge_ok (rows ++ more) st' /\ m_rows st' = m_rows st.
Proof.
  intros Hok Hmore. revert rows st Hok. induction Hmore as [|row more Hrow Hmore IH]; intros rows st Hok.
  { exists st. by rewrite app_nil_r. }
  destruct (resolve_row_ok rows st row Hok Hrow) as (st1&E1&Hok1&Hr1).
  destruct (IH (rows ++ [row]) st1 Hok1) as (st2&E2&Hok2&Hr2).
  exists st2. cbn. rewrite E1. cbn. rewrite <-app_assoc in Hok2. split_and!; [done|done|congruence].
Qed.

Lemma resolve_batches_ok rows st batches :
  merge_ok rows st -> Forall (Forall (fun row => length row.2 = 16%nat)) batches ->
  exists st', resolve_batches order edge_ids st batches = Ok st' /\ merge_ok (rows ++ concat batches) st' /\
    m_rows st' = m_rows st + lenZ (concat batches).
Proof.
  intros Hok Hb. revert rows st Hok. induction Hb as [|batch batches Hbatch Hb IH]; intros rows st Hok.
  { exists st. cbn. rewrite app_nil_r. split_and!; [done|done|lia]. }
  cbn [resolve_batches]. set (st0 := {| m_rows := _ |}).
  destruct (resolve_rows_ok rows st0 batch) as (st1&E1&Hok1&Hr1); [by destruct Hok; split|done|].
  destruct (IH (rows ++ batch) st1 Hok1) as (st2&E2&Hok2&Hr2).
  exists st2. rewrite E1. cbn. rewrite <-app_assoc in Hok2. split_and!; [done|done|].
  rewrite Hr2, Hr1, length_app. cbn. lia.
Qed.

Lemma initial_merge_ok :
  merge_ok [] {| m_cursor := SortedCursor.new; m_uuids := replicate (length edge_ids) 0;
                 m_filled := replicate (Z.to_nat (div_ceil (lenZ edge_ids) 64)) 0; m_rows := 0 |}.
Proof.
  split; cbn [m_cursor m_uuids m_filled]; [apply new_cursor_ok| | |].
  - clear. induction edge_ids as [|id l IH]; [done|]. cbn in *. by rewrite IH.
  - unfold div_ceil. rewrite length_replicate, Z2Nat.id by (apply Z.div_pos; lia).
    pose proof (Z.div_mod (lenZ edge_ids + 64 - 1) 64 ltac:(lia)).
    pose proof (Z.mod_pos_bound (lenZ edge_ids + 64 - 1) 64 ltac:(lia)). lia.
  - intros n id Hn. change (last_uuid [] id) with (@None Key). rewrite bool_decide_false by (by intros [? ?]).
    unfold filled_bit. destruct (replicate _ 0 !! _) as [w|] eqn:Ew; cbn [default]; [|apply Z.bits_0].
    apply lookup_replicate in Ew as [-> _]. apply Z.bits_0.
Qed.

(** The verdict on the bitmap is that of the lookups. *)
Lemma merge_verdict rows st :
  merge_ok rows st ->
  match list_find (fun slot => is_filled (m_filled st) (Z.of_nat slot) = false) (seq 0 (length edge_ids)) with
  | Some (_, slot) => Err (NoTopologyUuid (default 0 (edge_ids !! slot)))
  | None => Ok (m_uuids st)
  end = lookup_uuids rows edge_ids.
Proof.
  intros [_ Hu Hw Hf].
  assert (Hfilled : forall n id, edge_ids !! n = Some id ->
    is_filled (m_filled st) (Z.of_nat n) = false <-> ~ is_Some (last_uuid rows id)).
  { intros n id Hn. rewrite is_filled_bit, (Hf n id Hn) by lia. apply bool_decide_eq_false. }
  destruct (list_find _ _) as [[i slot]|] eqn:Efind.
  - apply list_find_Some in Efind as (Hi&Hp&Hbefore). apply lookup_seq in Hi as [-> Hi].
    destruct (lookup_lt_is_Some_2 edge_ids i Hi) as [id Hid]. cbn [Nat.add] in *. rewrite Hid. cbn [default].
    apply (Hfilled i id Hid) in Hp. rewrite (lookup_uuids_Err _ _ i id Hid); [done| |].
    + destruct (last_uuid _ id); [by destruct Hp|done].
    + intros j id' Hj Hid'. destruct (decide (is_Some (last_uuid rows id'))) as [|Hn]; [done|].
      destruct (Hbefore j j); [by rewrite lookup_seq_lt by lia|done|]. by apply (Hfilled j id' Hid').
  - apply list_find_None in Efind. rewrite lookup_uuids_Ok; [by rewrite <-Hu|].
    apply Forall_lookup. intros n id Hn. destruct (decide (is_Some (last_uuid rows id))) as [|Hno]; [done|].
    exfalso. rewrite Forall_forall in Efind. apply (Efind n); [|by apply (Hfilled n id Hn)].
    apply elem_of_seq. apply lookup_lt_Some in Hn. lia.
Qed.
End merge.

(** ** The builder lays the selected rows out *)

Lemma concat_nils {A} n : concat (replicate n []) = @nil A.
Proof. by induction n. Qed.

Lemma zip_take_min {A B} (a : list A) (b : list B) :
  zip (take (length a `min` length b) a) (take (length a `min` length b) b) = zip a b.
Proof. revert b. induction a as [|x a IH]; intros [|y b]; [done..|]. cbn. f_equal. apply IH. Qed.

Section builder.
Context (nodes : NodeSet.NodeSet) (ids : list Z) `{Hrep : !Represents nodes ids} (Hids : ids_ok ids).

(** The entries of a row that lead to selected nodes, in [(edge_id, neighbor_id)] order. *)
Definition kept (edge_ids neighbor_ids : list Z) : list (Z * Z) :=
  filter (fun entry => entry.2 ∈ ids) (sort_by_key id (zip edge_ids neighbor_ids)).

Definition stored_ordinal (entry : Z * Z) : Z := Z.of_nat (default 0%nat (NodeSet.ordinal_of nodes entry.2)).

Definition entries_nonneg (row : list (Z * Z)) : Prop := Forall (fun entry => 0 <= entry.2) row.

(** The builder holds the rows [rows]. *)
Record builder_ok (keep_ids : bool) (rows : list (list (Z * Z))) (b : TopologyBuilder.TopologyBuilder) : Prop := {
  builder_offsets : offsets_of (TopologyBuilder.offsets b) rows;
  builder_neighbors : TopologyBuilder.neighbors b = stored_ordinal <$> concat rows;
  builder_edge_ids : TopologyBuilder.edge_ids b = if keep_ids then Some (concat rows).*1 else None;
}.

Lemma keep_all_spec row b :
  entries_nonneg row ->
  let taken := filter (fun entry : Z * Z => entry.2 ∈ ids) row in
  TopologyBuilder.keep_all nodes row b =
    (Ok tt, {| TopologyBuilder.offsets := TopologyBuilder.offsets b;
               TopologyBuilder.neighbors := TopologyBuilder.neighbors b ++ (stored_ordinal <$> taken);
               TopologyBuilder.edge_ids := (fun ids => ids ++ taken.*1) <$> TopologyBuilder.edge_ids b;
               TopologyBuilder.unsorted := TopologyBuilder.unsorted b |}).
Proof.
  intros Hrow. cbn zeta. revert b. induction Hrow as [|[edge_id neighbor_id] row Hn Hrow IH]; intros [offs nbs eids uns].
  { cbn. rewrite app_nil_r. unfold mret, se_ret. do 2 f_equal. destruct eids; cbn; [by rewrite app_nil_r|done]. }
  cbn [fst snd] in Hn. cbn [TopologyBuilder.keep_all]. unfold mbind, se_bind, TopologyBuilder.keep.
  rewrite filter_cons. cbn [snd].
  destruct (ordinal_cases ids nodes neighbor_id Hn) as [(n&Hin&E)|[Hin E]]; rewrite E.
  - unfold u32_try_from. pose proof (ids_count _ Hids). apply lookup_lt_Some in Hin as Hlt.
    destruct (Z.leb_spec (Z.of_nat n) u32_max); [|lia]. rewrite decide_True by (by eapply list_elem_of_lookup_2).
    rewrite IH. cbn. unfold stored_ordinal at 2. cbn. rewrite E. cbn. rewrite <-!app_assoc. do 2 f_equal.
    destruct eids; cbn; [|done]. by rewrite <-app_assoc.
  - rewrite decide_False by done. by rewrite IH.
Qed.

Lemma ordered_sorted row : TopologyBuilder.ordered row = true -> sort_by_key id row = row.
Proof.
  intros Ho. apply sort_by_key_id. induction row as [|a row IH]; [constructor|].
  destruct row as [|b row]; [repeat constructor|].
  change (bool_decide (ord_le a b) && TopologyBuilder.ordered (b :: row) = true) in Ho.
  apply andb_prop in Ho as [Hab Ho]. apply bool_decide_eq_true in Hab. specialize (IH Ho).
  constructor; [done|]. inversion IH as [|? ? _ Hb]; subst. constructor; [done|].
  eapply Forall_impl; [done|]. intros c Hc. unfold key_le in *. by eapply ord_trans.
Qed.

Lemma close_row_spec keep_ids rows b row b1 :
  builder_ok keep_ids rows b ->
  TopologyBuilder.offsets b1 = TopologyBuilder.offsets b ->
  TopologyBuilder.neighbors b1 = TopologyBuilder.neighbors b ++ (stored_ordinal <$> row) ->
  TopologyBuilder.edge_ids b1 = (fun l => l ++ row.*1) <$> TopologyBuilder.edge_ids b ->
  lenZ (concat (rows ++ [row])) <= u32_max ->
  exists b', TopologyBuilder.close_row b1 = (Ok tt, b') /\ builder_ok keep_ids (rows ++ [row]) b'.
Proof.
  intros [Ho Hn He] E1 E2 E3 Hle. unfold TopologyBuilder.close_row, u32_try_from.
  rewrite E2, Hn, <-fmap_app, length_fmap.
  rewrite concat_app in Hle. cbn [concat] in Hle. rewrite app_nil_r in Hle.
  destruct (Z.leb_spec (lenZ (concat rows ++ row)) u32_max); [|lia].
  eexists. split; [done|]. rewrite length_app, Nat2Z.inj_add.
  split; cbn [TopologyBuilder.offsets TopologyBuilder.neighbors TopologyBuilder.edge_ids];
    rewrite ?concat_app; cbn [concat]; rewrite ?app_nil_r.
  - rewrite E1. by apply offsets_of_snoc.
  - done.
  - rewrite E3, He. destruct keep_ids; cbn; [by rewrite fmap_app|done].
Qed.

(** A row in order and a row out of order are kept alike. *)
Lemma push_row_spec keep_ids rows b edge_ids neighbor_ids :
  builder_ok keep_ids rows b -> Forall (fun n => 0 <= n) neighbor_ids ->
  let rows' := rows ++ [kept edge_ids neighbor_ids] in
  lenZ (concat rows') <= u32_max ->
  exists b', TopologyBuilder.push_row nodes edge_ids neighbor_ids b = (Ok tt, b') /\ builder_ok keep_ids rows' b'.
Proof.
  intros Hok Hnn rows' Hle. unfold TopologyBuilder.push_row.
  set (len := Nat.min _ _). set (row := zip (take len edge_ids) (take len neighbor_ids)).
  assert (Hzip : row = zip edge_ids neighbor_ids).
  { apply zip_take_min. }
  assert (Hrow : entries_nonneg row).
  { apply Forall_forall. intros [e n] Hin. rewrite Hzip in Hin. apply elem_of_zip_r in Hin.
    rewrite Forall_forall in Hnn. by apply Hnn. }
  assert (Hsrow : entries_nonneg (sort_by_key id row)) by (unfold entries_nonneg; by rewrite sort_by_key_perm).
  assert (Hkept : kept edge_ids neighbor_ids = filter (fun entry => entry.2 ∈ ids) (sort_by_key id row)) by (by rewrite Hzip).
  unfold mbind, se_bind. destruct (TopologyBuilder.ordered row) eqn:Eo.
  - rewrite (keep_all_spec row b Hrow). rewrite (ordered_sorted row Eo) in Hkept. rewrite <-Hkept.
    by eapply close_row_spec.
  - cbn [TopologyBuilder.set_unsorted]. rewrite (keep_all_spec _ _ Hsrow), <-Hkept. by eapply close_row_spec.
Qed.

Definition row_node (row : Row) : Z := row.1.1.
Definition row_kept (row : Row) : list (Z * Z) := kept row.1.2 row.2.
Definition selected_rows (rows : list Row) : list Row := filter (fun row => row_node row ∈ ids) rows.

Definition row_nonneg (row : Row) : Prop := 0 <= row_node row /\ Forall (fun n => 0 <= n) row.2.

Lemma concat_prefix_le {A} (l1 l2 : list (list A)) : (length (concat l1) <= length (concat (l1 ++ l2)))%nat.
Proof. rewrite concat_app, length_app. lia. Qed.

(** A walk that meets the selected nodes in order adds their rows. *)
Lemma walk_selected_spec keep_ids todo others done_ b :
  builder_ok keep_ids (row_kept <$> done_) b ->
  ids = (row_node <$> done_) ++ (row_node <$> selected_rows todo) ++ others ->
  Forall row_nonneg todo ->
  lenZ (concat (row_kept <$> (done_ ++ selected_rows todo))) <= u32_max ->
  exists b', walk_selected nodes todo b = (Ok tt, b') /\
    builder_ok keep_ids (row_kept <$> (done_ ++ selected_rows todo)) b'.
Proof.
  intros Hok Hord Hnn. revert done_ b Hok Hord. induction Hnn as [|row todo [Hnode Hn] Hnn IH]; intros done_ b Hok Hord Hle.
  { exists b. cbn. by rewrite app_nil_r. }
  destruct row as [[node_id edge_ids] neighbor_ids]. cbn [walk_selected]. unfold mbind, se_bind.
  unfold row_node in Hnode. cbn [fst snd] in Hnode, Hn. unfold selected_rows in *. rewrite filter_cons in *. cbn [row_node fst] in *.
  destruct (ordinal_cases ids nodes node_id Hnode) as [(n&Hid&E)|[Hid E]]; rewrite E.
  2: { rewrite decide_False in * by done. cbn. by apply IH. }
  rewrite decide_True in * by (by eapply list_elem_of_lookup_2).
  assert (Hlen : n = length done_).
  { assert (Hd : ids !! length done_ = Some node_id).
    { rewrite Hord, lookup_app_r, length_fmap, Nat.sub_diag by (rewrite length_fmap; lia). done. }
    exact (ascending_inj ids n (length done_) node_id (ids_ascending _ Hids) Hid Hd). }
  assert (Hnext : TopologyBuilder.next_ordinal b = n).
  { unfold TopologyBuilder.next_ordinal. rewrite (offs_length _ _ (builder_offsets _ _ _ Hok)), length_fmap. lia. }
  rewrite Hnext, Nat.eqb_refl. cbn [negb].
  set (row := (node_id, edge_ids, neighbor_ids)) in *.
  replace (done_ ++ row :: filter (fun row => row_node row ∈ ids) todo)
    with ((done_ ++ [row]) ++ filter (fun row => row_node row ∈ ids) todo) in * by (by rewrite <-app_assoc).
  destruct (push_row_spec keep_ids (row_kept <$> done_) b edge_ids neighbor_ids Hok Hn) as (b1&E1&Hok1).
  { rewrite fmap_app, (fmap_app _ done_) in Hle.
    pose proof (concat_prefix_le ((row_kept <$> done_) ++ [row_kept row])
      (row_kept <$> filter (fun row => row_node row ∈ ids) todo)) as Hp.
    change (kept edge_ids neighbor_ids) with (row_kept row).
    change (row_kept <$> [row]) with [row_kept row] in Hle. lia. }
  rewrite E1. apply IH; [by rewrite fmap_app| |done].
  rewrite Hord at 1. rewrite fmap_app, fmap_cons, <-!app_assoc. done.
Qed.

Lemma offsets_of_pad {A} offs (rows : list (list A)) count :
  offsets_of offs rows -> (length rows <= count)%nat ->
  offsets_of (resize (S count) (default 0 (last offs)) offs) (rows ++ replicate (count - length rows) []).
Proof.
  intros Ho Hle. rewrite (offsets_of_last _ _ Ho). cbn [default from_option id]. destruct Ho as [Hlen Hoff]. split.
  { rewrite length_resize, length_app, length_replicate. lia. }
  intros n Hn. rewrite length_app, length_replicate in Hn. destruct (decide (n <= length rows)%nat) as [Hs|Hl].
  - rewrite lookup_resize by lia. rewrite take_app_le by done. by apply Hoff.
  - rewrite lookup_resize_new by lia. rewrite take_app_ge, concat_app by lia. f_equal. f_equal.
    by rewrite take_replicate, concat_nils, app_nil_r.
Qed.
End builder.

Lemma resolve_edge_uuids_lookup edge_ids batches :
  lenZ edge_ids <= u32_max -> Forall (Forall (fun row => length row.2 = 16%nat)) batches ->
  resolve_edge_uuids edge_ids batches =
    (fun uuids => (uuids, if (length edge_ids =? 0)%nat then 0 else lenZ (concat batches)))
      <$> lookup_uuids (concat batches) edge_ids.
Proof.
  intros Hlen Hb. unfold resolve_edge_uuids. destruct (Nat.eqb_spec (length edge_ids) 0) as [H0|H0].
  { apply length_zero_iff_nil in H0 as ->. done. }
  rewrite slot_order_Ok by done. cbn [mbind result_bind].
  destruct (resolve_batches_ok edge_ids [] _ batches (initial_merge_ok edge_ids) Hb) as (st&E&Hok&Hrows).
  rewrite E. cbn [mbind result_bind]. rewrite <-(merge_verdict edge_ids (concat batches) st Hok).
  cbn [m_rows] in Hrows. rewrite Z.add_0_l in Hrows. rewrite <-Hrows.
  by destruct (list_find _ _) as [[i slot]|].
Qed.

(** ** The exported graph *)

(** The entries of a node in a view whose rows are those of the nodes [0], [1], ... *)
Definition view_row (ids : list Z) (rows : list Row) (id : Z) : list (Z * Z) :=
  match rows !! Z.to_nat id with Some row => row_kept ids row | None => [] end.

(** An entry with the UUID the edge table has for it. *)
Definition exported_edge (table : list (Z * list Z)) (entry : Z * Z) : AlgorithmEdge :=
  {| edge_id := entry.1; edge_uuid := default 0 (last_uuid table entry.1);
     neighbor_id := entry.2; weight := f64_one |}.

Definition exported_rows (ids : list Z) (rows : list Row) (table : list (Z * list Z)) : list (list AlgorithmEdge) :=
  (fun id => exported_edge table <$> view_row ids rows id) <$> ids.

Section layout.
Context (ids : list Z) (Hids : ids_ok ids) (rows : list Row) (extent : Z)
  (Hwalk : row_node <$> rows = seqZ 0 extent).

Lemma rows_lookup n row : rows !! n = Some row -> row_node row = Z.of_nat n.
Proof.
  intros Hn. assert (H : (row_node <$> rows) !! n = Some (row_node row)) by (by rewrite list_lookup_fmap, Hn).
  rewrite Hwalk in H. apply lookup_seqZ in H as [-> _]. lia.
Qed.

Lemma selected_nodes : row_node <$> selected_rows ids rows = filter (fun id => id < extent) ids.
Proof.
  assert (Hf : row_node <$> selected_rows ids rows = filter (fun id => id ∈ ids) (row_node <$> rows)).
  { unfold selected_rows. clear. induction rows as [|row l IH]; [done|].
    rewrite fmap_cons, !filter_cons. case_decide; cbn; by rewrite <-IH. }
  rewrite Hf, Hwalk. apply ascending_ext.
  - apply StronglySorted_filter. unfold seqZ.
    apply (StronglySorted_fmap _ lt); [intros x y; lia|]. generalize 0%nat as k.
    induction (Z.to_nat extent) as [|n IH]; intros k; [constructor|]. cbn. constructor; [apply IH|].
    apply Forall_forall. intros x Hx%elem_of_seq. lia.
  - apply StronglySorted_filter, Hids.
  - intros x. rewrite !list_elem_of_filter, elem_of_seqZ. split; [intros [? ?]; split; [lia|done]|].
    intros [Hlt Hx]. split; [done|]. apply list_elem_of_lookup in Hx as [n Hn].
    apply (ids_ok_range _ _ _ Hids) in Hn. lia.
Qed.

Lemma ids_split : ids = (row_node <$> selected_rows ids rows) ++ filter (fun id => extent <= id) ids.
Proof.
  rewrite selected_nodes.
  rewrite <-(filter_split_sorted id (fun id => id < extent) (fun id => extent <= id)).
  - symmetry. apply filter_all. intros x _. lia.
  - eapply StronglySorted_impl; [|apply Hids]. cbn. intros a b. lia.
  - cbn. intros a b. lia.
Qed.

Lemma view_rows_layout :
  view_row ids rows <$> ids =
    (row_kept ids <$> selected_rows ids rows) ++ replicate (length ids - length (selected_rows ids rows)) [].
Proof.
  rewrite ids_split at 2. rewrite fmap_app, <-list_fmap_compose. f_equal.
  - apply list_fmap_ext. intros i row Hrow. cbn.
    apply list_elem_of_lookup_2, list_elem_of_filter in Hrow as [_ (n&Hn)%list_elem_of_lookup].
    unfold view_row. by rewrite (rows_lookup n row Hn), Nat2Z.id, Hn.
  - assert (Hlen : length (filter (fun id => extent <= id) ids) = (length ids - length (selected_rows ids rows))%nat).
    { rewrite ids_split at 2. rewrite length_app, length_fmap. lia. }
    rewrite <-Hlen. clear Hlen. assert (Hall : forall x, x ∈ filter (fun id => extent <= id) ids -> view_row ids rows x = []).
    { intros x [Hx Hin]%list_elem_of_filter. unfold view_row.
      assert (Hrows : length rows = Z.to_nat extent) by (by rewrite <-(length_fmap row_node), Hwalk, length_seqZ).
      by rewrite (lookup_ge_None_2 rows) by lia. }
    revert Hall. generalize (filter (fun id => extent <= id) ids) as l. induction l as [|x l IH]; intros Hall; [done|].
    cbn. rewrite Hall by left. f_equal. apply IH. intros y Hy. apply Hall. by right.
Qed.
End layout.

Section export.
Context (input : ExportInput) (ids : list Z) (extent : Z) `{Hrep : !Represents (in_nodes input) ids}
  (Hids : ids_ok ids) (Hwalk : row_node <$> in_rows input = seqZ 0 extent)
  (Hnn : Forall row_nonneg (in_rows input))
  (Hfit : lenZ (concat (view_row ids (in_rows input) <$> ids)) <= u32_max).

Let rows := view_row ids (in_rows input) <$> ids.
Let entries := concat rows.

(** The arrays of the finished builder are those of the rows of [ids]. *)
Lemma built_arrays keep_ids : exists b,
  (if (0 <? NodeSet.len (in_nodes input))%nat
   then exec (walk_selected (in_nodes input) (in_rows input)) (TopologyBuilder.new keep_ids)
   else Ok (TopologyBuilder.new keep_ids)) = Ok b /\
  let '(offsets, neighbors, edge_ids) := TopologyBuilder.finish b (NodeSet.len (in_nodes input)) in
  offsets_of offsets rows /\ neighbors = stored_ordinal (in_nodes input) <$> entries /\
  edge_ids = if keep_ids then Some entries.*1 else None.
Proof.
  set (sel := selected_rows ids (in_rows input)).
  assert (Hlay : rows = (row_kept ids <$> sel) ++ replicate (length ids - length sel) [])
    by (eapply view_rows_layout; done).
  assert (Hcat : entries = concat (row_kept ids <$> sel)).
  { unfold entries. rewrite Hlay, concat_app.
    by rewrite concat_nils, app_nil_r. }
  assert (Hnew : builder_ok (in_nodes input) keep_ids [] (TopologyBuilder.new keep_ids)).
  { split; cbn; [|done|by destruct keep_ids]. split; [done|]. intros [|n] Hn; [done|cbn in Hn; lia]. }
  rewrite rep_len. assert (Hb : exists b,
    (if (0 <? length ids)%nat then exec (walk_selected (in_nodes input) (in_rows input)) (TopologyBuilder.new keep_ids)
     else Ok (TopologyBuilder.new keep_ids)) = Ok b /\ builder_ok (in_nodes input) keep_ids (row_kept ids <$> sel) b).
  { destruct (Nat.ltb_spec 0 (length ids)) as [Hpos|Hz].
    - destruct (walk_selected_spec (in_nodes input) ids Hids keep_ids (in_rows input)
        (filter (fun id => extent <= id) ids) [] (TopologyBuilder.new keep_ids) Hnew) as (b&E&Hok);
        [by apply ids_split|done| |].
      + fold sel. cbn [app]. rewrite <-Hcat. done.
      + exists b. unfold exec. rewrite E. done.
    - exists (TopologyBuilder.new keep_ids). split; [done|].
      assert (Hnil : sel = []) by (apply filter_none; intros r _ Hr; destruct ids; [by apply not_elem_of_nil in Hr|cbn in Hz; lia]).
      by rewrite Hnil. }
  destruct Hb as (b&E&[Ho Hn He]). exists b. split; [done|]. cbn. rewrite Hlay, Hcat. split_and!; [|done|done].
  rewrite <-(length_fmap (row_kept ids) sel). apply offsets_of_pad; [done|]. rewrite length_fmap.
  rewrite (ids_split ids Hids (in_rows input) extent Hwalk). rewrite length_app, length_fmap. fold sel. lia.
Qed.

Lemma stored_ordinal_id entry :
  entry ∈ entries -> NodeSet.node_id_of (in_nodes input) (Z.to_nat (stored_ordinal (in_nodes input) entry)) = entry.2.
Proof.
  intros Hin. assert (Hid : entry.2 ∈ ids).
  { apply list_elem_of_In, in_concat in Hin as (row&Hrow&Hin). rewrite <-!list_elem_of_In in *.
    apply list_elem_of_fmap in Hrow as (id&->&_). unfold view_row in Hin.
    destruct (in_rows input !! _); [|by apply not_elem_of_nil in Hin].
    by apply list_elem_of_filter in Hin as [Hin _]. }
  apply list_elem_of_lookup in Hid as [n Hn]. pose proof (ids_ok_range _ _ _ Hids Hn) as [H0 _].
  unfold stored_ordinal. rewrite (proj2 (rep_ordinal_of entry.2 n H0) Hn). cbn [default from_option id].
  by rewrite Nat2Z.id, rep_node_id_of, Hn.
Qed.

Lemma exported_graph offsets table directed count :
  offsets_of offsets rows ->
  GraphOf {| topology := {| directed := directed; Topology.offsets := offsets;
               Topology.neighbors := stored_ordinal (in_nodes input) <$> entries; weights := None;
               uuids := in_uuids input; nodes := in_nodes input;
               identity := Some {| Topology.edge_ids := entries.*1;
                 edge_uuids := (fun id => default 0 (last_uuid table id)) <$> entries.*1 |} |};
             logical_edge_count := count |}
    ids (exported_rows ids (in_rows input) table).
Proof.
  intros [Hol Hoff].
  assert (Hcat : concat (exported_rows ids (in_rows input) table) = exported_edge table <$> entries).
  { unfold entries, rows, exported_rows, fmap. rewrite concat_map, map_map. done. }
  assert (Hrows : exported_rows ids (in_rows input) table = fmap (exported_edge table) <$> rows)
    by (unfold rows, exported_rows; by rewrite <-list_fmap_compose).
  split; cbn [topology Topology.offsets Topology.neighbors nodes]; [done| | | |].
  - unfold exported_rows. by rewrite length_fmap.
  - split; [by rewrite Hrows, length_fmap|]. intros n Hn. rewrite Hrows, length_fmap in Hn.
    rewrite Hoff by done. rewrite Hrows, <-fmap_take.
    change (fmap (exported_edge table) <$> take n rows) with (map (map (exported_edge table)) (take n rows)).
    by rewrite <-concat_map, length_map.
  - by rewrite Hcat, !length_fmap.
  - intros slot edge Hs. rewrite Hcat, list_lookup_fmap, fmap_Some in Hs. destruct Hs as (entry&Hs&->).
    unfold algorithm_edge. cbn. rewrite !list_lookup_fmap, Hs. cbn. unfold exported_edge.
    rewrite stored_ordinal_id by (by eapply list_elem_of_lookup_2). done.
Qed.
End export.

(** ** Properties *)

(** The sorted merge of the adjacency slots against the edge table returns what looking every
    slot's edge id up in the whole table returns, whatever the order of the table's rows, their
    division into batches and repeated ids: the UUID of the last row with the id, or the error
    that names the first slot whose edge the table lacks.  The rows read are counted unless there
    is no slot. *)
Theorem edge_uuids_resolved edge_ids batches :
  lenZ edge_ids <= u32_max -> Forall (Forall (fun row => length row.2 = 16%nat)) batches ->
  resolve_edge_uuids edge_ids batches =
    (fun uuids => (uuids, if (length edge_ids =? 0)%nat then 0 else lenZ (concat batches)))
      <$> lookup_uuids (concat batches) edge_ids.
Proof. apply resolve_edge_uuids_lookup. Qed.

(** A table with a repeated id, read in two batches, the second with smaller ids. *)
Lemma edge_uuids_resolved_witness :
  let cell b := replicate 15 0 ++ [b] in
  resolve_edge_uuids [7; 3; 7; 5] [[(3, cell 1); (7, cell 2)]; [(5, cell 3); (7, cell 4)]] = Ok ([4; 1; 4; 3], 4).
Proof.
  intros cell. rewrite edge_uuids_resolved; [reflexivity|vm_compute; discriminate|by repeat constructor].
Defined.

(** What an export reads: a view that has a row for each node id below its extent, selected nodes
    in ascending order, entries that fit the [u32] slots, and an edge table with 16-byte UUIDs. *)
Record export_readable (input : ExportInput) (ids : list Z) (extent : Z) : Prop := {
  readable_nodes : Represents (in_nodes input) ids;
  readable_ids : ids_ok ids;
  readable_walk : row_node <$> in_rows input = seqZ 0 extent;
  readable_rows : Forall row_nonneg (in_rows input);
  readable_fit : lenZ (concat (view_row ids (in_rows input) <$> ids)) <= u32_max;
  readable_cells : Forall (Forall (fun row : Z * list Z => length row.2 = 16%nat)) (in_edges input);
}.

(** C16 The export of an unweighted adjacency that retains edge identity is exact on readable
    input ([export_readable]: the view has a row per node id, the retained entries fit [u32]
    slots, the edge table holds 16-byte UUIDs).  It succeeds if the
    edge table holds every retained edge: the graph then has the selected nodes, and the entries
    of a node are those of its row in the view that lead to selected nodes, in edge id and
    neighbour id order even when the row was not, each with the UUID the table has for its edge; a
    node past the view's extent has none.  It fails only by naming a retained edge the table
    lacks. *)
Theorem export_exact input ids extent :
  export_readable input ids extent -> in_weight input = None ->
  let table := concat (in_edges input) in
  let entries := concat (view_row ids (in_rows input) <$> ids) in
  match export_topology input Retain with
  | Ok g =>
      GraphOf g ids (exported_rows ids (in_rows input) table) /\
      Forall (fun entry => is_Some (last_uuid table entry.1)) entries /\
      is_directed g = negb (bool_decide (in_direction input = Undirected)) /\
      logical_edge_count g = (if bool_decide (in_direction input = Undirected) then lenZ entries / 2 else lenZ entries) /\
      uuids (topology g) = in_uuids input
  | Err e => exists entry, entry ∈ entries /\ e = NoTopologyUuid entry.1 /\ last_uuid table entry.1 = None
  end.
Proof.
  intros [Hrep Hids Hwalk Hnn Hfit Hcells] Hweight. cbn zeta. unfold export_topology. rewrite Hweight.
  rewrite (bool_decide_true (Retain = Retain)) by done. cbn [orb].
  destruct (built_arrays input ids extent Hids Hwalk Hnn Hfit true) as (b&E&Harr). rewrite E. cbn [mbind result_bind].
  destruct (TopologyBuilder.finish b _) as [[offsets neighbors] edge_ids]. destruct Harr as (Ho&->&->).
  set (entries := concat _) in *. cbn [mbind result_bind].
  assert (Hlen : lenZ entries.*1 <= u32_max) by (by rewrite length_fmap).
  rewrite (resolve_edge_uuids_lookup entries.*1 (in_edges input) Hlen Hcells). set (known := fun entry : Z * Z => is_Some (last_uuid (concat (in_edges input)) entry.1)).
  destruct (Forall_Exists_dec known (fun entry => ~ known entry) (fun entry => decide (known entry)) entries) as [Hall|Hex].
  - rewrite lookup_uuids_Ok by (by apply Forall_fmap). cbn [fmap result_fmap mbind result_bind].
    split_and!; [|done|done| |done]; [by apply exported_graph|]. cbn. by rewrite length_fmap.
  - destruct (lookup_uuids_missing (concat (in_edges input)) entries) as (entry&Hin&Hnone&->); [done|].
    cbn. by exists entry.
Qed.

(** A view of three nodes, the first row out of order, over a selection with a gap and a node past
    the view's extent. *)
Definition sample_input : ExportInput :=
  {| in_nodes := NodeSet.from_ids [0; 2; 3] 3; in_uuids := [10; 20; 30]; in_direction := Out;
     in_rows := [(0, [9; 4; 6], [2; 3; 1]); (1, [6], [0]); (2, [5], [0])];
     in_edges := [[(4, replicate 16 1)]; [(9, replicate 16 2); (5, replicate 16 3)]];
     in_weight := None |}.

Lemma export_exact_witness : exists g,
  export_topology sample_input Retain = Ok g /\
  GraphOf g [0; 2; 3] (exported_rows [0; 2; 3] (in_rows sample_input) (concat (in_edges sample_input))) /\
  map (map (fun e => (edge_id e, neighbor_id e)))
    (exported_rows [0; 2; 3] (in_rows sample_input) (concat (in_edges sample_input))) = [[(4, 3); (9, 2)]; [(5, 0)]; []].
Proof.
  assert (Hids : ids_ok [0; 2; 3]).
  { split; [repeat constructor; lia|repeat constructor; unfold u64_max; lia|vm_compute; discriminate]. }
  assert (Hread : export_readable sample_input [0; 2; 3] 3).
  { split; [by apply from_ids_represents|done|reflexivity| |vm_compute; discriminate|by repeat constructor].
    repeat constructor; cbn; lia. }
  pose proof (export_exact sample_input [0; 2; 3] 3 Hread eq_refl) as H. cbn zeta in H.
  destruct (export_topology sample_input Retain) as [g|e] eqn:E; [|vm_compute in E; discriminate E].
  exists g. split; [done|]. split; [apply H|reflexivity].
Defined.
