(* ===== verification/Neighbors.v ===== *)
(** * Simple adjacency over node ordinals: [crates/graphforge-exec/src/algorithm_neighbors.rs].

    The entries of a graph, without self-loops and repetitions, as one ascending row of ordinals
    per node; [symmetrize] adds every entry to the row of its target too.  The counter of
    traversed entries steps in [usize] and only decides when to poll. *)

From stdpp Require Import base list gmap sets sorting relations strings.
From Stdlib Require Import ZArith Lia.
From S2P Require Import Prelude Membership Control Topology Projection.

(** [node_ids.iter().enumerate().map(|(index, &node)| (node, index)).collect::<HashMap<_, _>>()] *)
Definition node_ordinals (ids : list Z) : gmap Z nat :=
  list_to_map (reverse (imap (fun index node => (node, index)) ids)).

(** [rows[i].push(x)] *)
Definition push_at {A} (i : nat) (x : A) (rows : list (list A)) : option (list (list A)) :=
  row ← rows !! i; Some (<[i := row ++ [x]]> rows).

Definition unselected : AlgorithmError := Execution "adjacency references an unselected node".

Section neighbors.
Context (cancelled : nat -> bool) (graph : AdjacencyGraph) (symmetrize : bool).

(** Poll when a counter of work is a multiple of [interval]. *)
Definition poll_every (interval work : Z) : K unit :=
  if work mod interval =? 0 then check_cancelled cancelled else mret tt.

Definition record_entry (source target : nat) (neighbors : list (list nat)) : option (list (list nat)) :=
  if decide (source = target) then Some neighbors
  else
    neighbors ← push_at source target neighbors;
    if symmetrize then push_at target source neighbors else Some neighbors.

Fixpoint scan_edges (indices : gmap Z nat) (source : nat) (neighbors : list (list nat)) (traversed : Z)
    (edges : list AlgorithmEdge) : K (list (list nat) * Z) :=
  match edges with
  | [] => mret (neighbors, traversed)
  | edge :: edges' =>
      poll_every 1024 traversed ;;
      let traversed := (traversed + 1) mod 2 ^ 64 in
      target ← k_try (ok_or (indices !! neighbor_id edge) unselected);
      neighbors ← k_some (record_entry source target neighbors);
      scan_edges indices source neighbors traversed edges'
  end.

Fixpoint scan_nodes (indices : gmap Z nat) (source : nat) (neighbors : list (list nat)) (traversed : Z)
    (ids : list Z) : K (list (list nat) * Z) :=
  match ids with
  | [] => mret (neighbors, traversed)
  | node_id :: ids' =>
      edges ← k_some (node_neighbors graph node_id);
      '(neighbors, traversed) ← scan_edges indices source neighbors traversed edges;
      scan_nodes indices (S source) neighbors traversed ids'
  end.

Definition simple_neighbors : K (list (list nat)) :=
  let ids := node_ids graph in
  let indices := node_ordinals ids in
  '(neighbors, _) ← scan_nodes indices 0 (replicate (length ids) []) 0 ids;
  mret ((fun adjacent => dedup (sort_by_key id adjacent)) <$> neighbors).
End neighbors.

Definition simple_undirected_neighbors (cancelled : nat -> bool) (graph : AdjacencyGraph) : K (list (list nat)) :=
  simple_neighbors cancelled graph true.

Lemma gives_poll cancelled interval work : gives cancelled (poll_every cancelled interval work) (Ok tt).
Proof. unfold poll_every. destruct (_ =? 0); [apply gives_check|apply gives_ret]. Qed.
#[export] Hint Resolve gives_poll : gives.

(** Replacing one element changes a sum over two lists by one term. *)
Lemma sum_zip_insert {A B} (f : A -> B -> nat) l k i a a' b :
  l !! i = Some a -> k !! i = Some b ->
  (sum_list (zip_with f (<[i := a']> l) k) + f a b = sum_list (zip_with f l k) + f a' b)%nat.
Proof.
  revert i k. induction l as [|x l IH]; intros i [|y k] Hl Hk; try done. destruct i as [|i].
  - injection Hl as ->. injection Hk as ->. cbn. lia.
  - specialize (IH i k Hl Hk). change (<[S i := a']> (x :: l)) with (x :: <[i := a']> l). cbn [zip_with].
    change (f x y + sum_list (zip_with f (<[i := a']> l) k) + f a b = f x y + sum_list (zip_with f l k) + f a' b)%nat. lia.
Qed.

(** ** Entries between ordinals *)

Lemma node_ordinals_lookup ids id n :
  ids_ok ids -> node_ordinals ids !! id = Some n <-> ids !! n = Some id.
Proof.
  intros Hids. unfold node_ordinals.
  assert (Hnd : NoDup (reverse (imap (fun index node => (node, index)) ids)).*1).
  { assert (Hfst : (imap (fun index node => (node, index)) ids).*1 = ids).
    { apply list_eq. intros i. rewrite list_lookup_fmap, list_lookup_imap. by destruct (ids !! i). }
    rewrite fmap_reverse, reverse_Permutation, Hfst. apply ascending_NoDup, Hids. }
  rewrite <-elem_of_list_to_map by done. rewrite reverse_Permutation, elem_of_lookup_imap.
  split; [intros (i&x&[= -> ->]&Hi); done|intros Hn; by exists n, id].
Qed.

(** An entry of the [i]th row leads to the [j]th node. *)
Definition arc (ids : list Z) (rows : list (list AlgorithmEdge)) (i j : nat) : Prop :=
  exists row e, rows !! i = Some row /\ e ∈ row /\ ids !! j = Some (neighbor_id e).

(** Different nodes joined by an entry, in its direction or, where [symmetrize], in either. *)
Definition linked (symmetrize : bool) (E : relation nat) (i j : nat) : Prop :=
  i <> j /\ (E i j \/ symmetrize = true /\ E j i).

Section scan.
Context (cancelled : nat -> bool) (symmetrize : bool) (ids : list Z) (Hids : ids_ok ids).

(** The rows hold the pairs [P] once they are symmetrised. *)
Definition holds (P : list (nat * nat)) (neighbors : list (list nat)) : Prop :=
  length neighbors = length ids /\
  forall i j row, neighbors !! i = Some row ->
    j ∈ row <-> linked symmetrize (fun a b => (a, b) ∈ P) i j.

Lemma push_at_spec i x (neighbors : list (list nat)) :
  (i < length neighbors)%nat -> exists neighbors', push_at i x neighbors = Some neighbors' /\
    length neighbors' = length neighbors /\
    forall k row', neighbors' !! k = Some row' -> exists row, neighbors !! k = Some row /\
      forall j, j ∈ row' <-> (k = i /\ j = x) \/ j ∈ row.
Proof.
  intros (row&Hrow)%lookup_lt_is_Some_2. unfold push_at. rewrite Hrow. eexists. split; [done|].
  split; [apply length_insert|]. intros k row' Hk.
  apply list_lookup_insert_Some in Hk as [(<-&<-&_)|(Hne&Hk)].
  - exists row. split; [done|]. intros j. rewrite elem_of_app, list_elem_of_singleton. tauto.
  - exists row'. split; [done|]. intros j. split; [by right|by intros [[-> _]|]].
Qed.

Lemma record_entry_spec P neighbors i j :
  holds P neighbors -> (i < length ids)%nat -> (j < length ids)%nat ->
  exists neighbors', record_entry symmetrize i j neighbors = Some neighbors' /\ holds (P ++ [(i, j)]) neighbors'.
Proof.
  intros [Hlen Hrow] Hi Hj. unfold record_entry. destruct (decide (i = j)) as [->|Hne].
  { exists neighbors. split; [done|]. split; [done|]. intros a b row Ha. rewrite (Hrow a b row Ha).
    unfold linked. setoid_rewrite elem_of_app. setoid_rewrite list_elem_of_singleton.
    split; [tauto|]. intros [Hab [[H|[= -> ->]]|[Hs [H|[= -> ->]]]]]; tauto. }
  destruct (push_at_spec i j neighbors) as (n1&->&Hl1&Hr1); [lia|]. cbn [mbind option_bind].
  destruct symmetrize eqn:Es.
  - destruct (push_at_spec j i n1) as (n2&->&Hl2&Hr2); [lia|]. exists n2. split; [done|]. split; [lia|].
    intros a b row Ha. destruct (Hr2 a row Ha) as (r1&Hn1&->). destruct (Hr1 a r1 Hn1) as (r0&Hn0&->).
    rewrite (Hrow a b r0 Hn0). unfold linked. setoid_rewrite elem_of_app. setoid_rewrite list_elem_of_singleton.
    split; [intros [[-> ->]|[[-> ->]|H]]; naive_solver|].
    intros [Hab [[H|[= -> ->]]|[_ [H|[= -> ->]]]]]; tauto.
  - exists n1. split; [done|]. split; [lia|]. intros a b row Ha. destruct (Hr1 a row Ha) as (r0&Hn0&->).
    rewrite (Hrow a b r0 Hn0). unfold linked. setoid_rewrite elem_of_app. setoid_rewrite list_elem_of_singleton.
    split; [intros [[-> ->]|H]; naive_solver|]. intros [Hab [[H|[= -> ->]]|[[=] _]]]; naive_solver.
Qed.

(** The pairs the entries of a row stand for. *)
Definition pairs (source : nat) (edges : list AlgorithmEdge) : list (nat * nat) :=
  omap (fun e => (fun target => (source, target)) <$> node_ordinals ids !! neighbor_id e) edges.

Lemma scan_edges_spec P source neighbors traversed edges :
  holds P neighbors -> (source < length ids)%nat ->
  (Forall (fun e => neighbor_id e ∈ ids) edges /\ exists neighbors' traversed',
     gives cancelled (scan_edges cancelled symmetrize (node_ordinals ids) source neighbors traversed edges)
       (Ok (neighbors', traversed')) /\ holds (P ++ pairs source edges) neighbors') \/
  (Exists (fun e => neighbor_id e ∉ ids) edges /\
     gives cancelled (scan_edges cancelled symmetrize (node_ordinals ids) source neighbors traversed edges)
       (Err unselected)).
Proof.
  intros HP Hs. revert P neighbors traversed HP. induction edges as [|e edges IH]; intros P neighbors traversed HP.
  { left. split; [constructor|]. exists neighbors, traversed. split; [apply gives_ret|]. cbn. by rewrite app_nil_r. }
  cbn [scan_edges]. destruct (node_ordinals ids !! neighbor_id e) as [j|] eqn:Ej.
  - assert (Hj : ids !! j = Some (neighbor_id e)) by (by apply node_ordinals_lookup).
    destruct (record_entry_spec P neighbors source j HP Hs) as (n1&Hn1&HP1); [by eapply lookup_lt_Some|].
    assert (Hpairs : P ++ pairs source (e :: edges) = (P ++ [(source, j)]) ++ pairs source edges).
    { rewrite <-app_assoc. f_equal. unfold pairs at 1. cbn. by rewrite Ej. }
    destruct (IH _ n1 ((traversed + 1) mod 2 ^ 64) HP1) as [(Hall&n2&t2&Hrun&HP2)|(Hex&Hrun)].
    + left. split; [constructor; [by eapply list_elem_of_lookup_2|done]|]. exists n2, t2. rewrite Hpairs.
      split; [|done]. gives_step. gives_step. rewrite Hn1. gives_step. done.
    + right. split; [by right|]. gives_step. gives_step. rewrite Hn1. gives_step. done.
  - right. split.
    + left. intros (j&Hj)%list_elem_of_lookup. apply (node_ordinals_lookup ids _ _ Hids) in Hj. congruence.
    + gives_step. apply gives_bind_err. apply gives_try.
Qed.

Lemma elem_of_pairs source edges a b :
  (a, b) ∈ pairs source edges <-> a = source /\ exists e, e ∈ edges /\ ids !! b = Some (neighbor_id e).
Proof.
  unfold pairs. rewrite list_elem_of_omap. split.
  - intros (e&He&Hb). apply fmap_Some in Hb as (j&Hj&[= -> ->]).
    apply (node_ordinals_lookup ids _ _ Hids) in Hj. eauto.
  - intros (->&e&He&Hb). exists e. split; [done|].
    by rewrite (proj2 (node_ordinals_lookup ids _ _ Hids) Hb).
Qed.

(** The rows of the graph from [source] on. *)
Context (g : AdjacencyGraph) (rows : list (list AlgorithmEdge)) `{Hg : !GraphOf g ids rows}.

Definition pairs_from (source : nat) : list (nat * nat) :=
  concat (imap (fun i row => pairs (source + i) row) (drop source rows)).

Lemma scan_nodes_spec P source neighbors traversed :
  holds P neighbors -> (source <= length ids)%nat ->
  (closed ids (drop source rows) /\ exists neighbors' traversed',
     gives cancelled (scan_nodes cancelled g symmetrize (node_ordinals ids) source neighbors traversed (drop source ids))
       (Ok (neighbors', traversed')) /\ holds (P ++ pairs_from source) neighbors') \/
  (~ closed ids (drop source rows) /\
     gives cancelled (scan_nodes cancelled g symmetrize (node_ordinals ids) source neighbors traversed (drop source ids))
       (Err unselected)).
Proof.
  intros HP Hs. remember (length ids - source)%nat as k eqn:Ek. revert source P neighbors traversed HP Hs Ek.
  induction k as [|k IH]; intros source P neighbors traversed HP Hs Ek.
  { left. unfold pairs_from. rewrite !drop_ge by (rewrite ?(go_rows (g := g)); lia).
    split; [by intros row e H; apply not_elem_of_nil in H|]. exists neighbors, traversed.
    split; [apply gives_ret|]. cbn. by rewrite app_nil_r. }
  destruct (lookup_lt_is_Some_2 ids source) as [id Hid]; [lia|].
  destruct (lookup_lt_is_Some_2 rows source) as [row Hrow]; [rewrite (go_rows (g := g)); lia|].
  assert (Hfrom : pairs_from source = pairs source row ++ pairs_from (S source)).
  { unfold pairs_from. rewrite (drop_S rows row source Hrow). cbn [imap concat]. rewrite Nat.add_0_r. f_equal. f_equal.
    apply imap_ext. intros i x _. cbn. by rewrite Nat.add_succ_r. }
  pose proof (ids_ok_range _ _ _ Hids Hid) as [H0 _].
  pose proof (graph_neighbors (g := g) source id row H0 Hid Hrow) as Hn.
  rewrite (drop_S ids id source Hid), (drop_S rows row source Hrow), Hfrom, app_assoc. cbn [scan_nodes].
  destruct (scan_edges_spec P source neighbors traversed row HP) as [(Hall&n1&t1&Hrun&HP1)|(Hex&Hrun)]; [lia| |].
  - rewrite Forall_forall in Hall.
    destruct (IH (S source) _ n1 t1 HP1 ltac:(lia) ltac:(lia)) as [(Hc&n2&t2&Hrun2&HP2)|(Hc&Hrun2)].
    + left. split; [by intros r e [->|Hr]%elem_of_cons; [apply Hall|apply Hc]|]. exists n2, t2. split; [|done].
      rewrite Hn. gives_step. gives_step. done.
    + right. split; [by intros Hc'; apply Hc; intros r e Hr; apply Hc'; right|].
      rewrite Hn. gives_step. gives_step. done.
  - right. split.
    + intros Hc. apply Exists_exists in Hex as (e&He&Hne). apply Hne, (Hc row e); [left|done].
    + rewrite Hn. gives_step. by apply gives_bind_err.
Qed.

Lemma elem_of_pairs_from a b : (a, b) ∈ pairs_from 0 <-> arc ids rows a b.
Proof.
  unfold pairs_from, arc. rewrite drop_0, list_elem_of_In, in_concat. setoid_rewrite <-list_elem_of_In. split.
  - intros (l&Hl&Hab). apply elem_of_lookup_imap in Hl as (i&row&->&Hrow).
    apply elem_of_pairs in Hab as (->&e&He&Hb). by exists row, e.
  - intros (row&e&Hrow&He&Hb). exists (pairs (0 + a) row). split; [apply elem_of_lookup_imap; eauto|].
    apply elem_of_pairs. eauto.
Qed.
End scan.

(** What the simple adjacency of a graph is. *)
Record adjacency_of (symmetrize : bool) (ids : list Z) (rows : list (list AlgorithmEdge)) (adj : list (list nat)) : Prop := {
  adj_length : length adj = length ids;
  adj_ascending : forall i row, adj !! i = Some row -> StronglySorted lt row;
  adj_linked : forall i j row, adj !! i = Some row -> j ∈ row <-> linked symmetrize (arc ids rows) i j;
}.

Lemma simple_neighbors_spec cancelled g ids rows symmetrize :
  GraphOf g ids rows -> ids_ok ids ->
  (closed ids rows /\ exists adj, gives cancelled (simple_neighbors cancelled g symmetrize) (Ok adj) /\
     adjacency_of symmetrize ids rows adj) \/
  (~ closed ids rows /\ gives cancelled (simple_neighbors cancelled g symmetrize) (Err unselected)).
Proof.
  intros Hg Hids. unfold simple_neighbors. rewrite (graph_node_ids (g := g)).
  destruct (scan_nodes_spec cancelled symmetrize ids Hids g rows [] 0 (replicate (length ids) []) 0)
    as [(Hc&n&t&Hrun&Hlen&Hrow)|(Hc&Hrun)].
  - split; [by rewrite length_replicate|]. intros i j row [-> _]%lookup_replicate_1.
    split; [by intros ?%not_elem_of_nil|]. by intros [_ [?%not_elem_of_nil|[_ ?%not_elem_of_nil]]].
  - lia.
  - left. split; [done|]. eexists. split; [rewrite drop_0 in Hrun; gives_step; gives_step|].
    split; [by rewrite length_fmap| |].
    + intros i row Hi. rewrite list_lookup_fmap in Hi. apply fmap_Some in Hi as (r&_&->).
      eapply StronglySorted_impl; [|apply sort_dedup_spec]. unfold ord_lt. cbn. lia.
    + intros i j row Hi. rewrite list_lookup_fmap in Hi. apply fmap_Some in Hi as (r&Hr&->).
      rewrite (proj2 (sort_dedup_spec r) j), (Hrow i j r Hr). cbn [app]. unfold linked.
      by rewrite !(elem_of_pairs_from ids Hids rows).
  - right. split; [done|]. rewrite drop_0 in Hrun. by apply gives_bind_err.
Qed.
