(* ===== verification/KCore.v ===== *)
(** * Core numbers: [crates/graphforge-exec/src/algorithm_k_core.rs].

    Nodes are peeled off in the order of a priority queue of pairs of degree and ordinal; a
    pair whose node is gone or has another degree by now is skipped.  The [BinaryHeap] of
    reversed pairs is the ascending list of its pairs, of which [pop] takes the head.  Every
    pair pushed after the start stands for an entry of a peeled row, so the pairs of the start
    plus the entries are fuel enough. *)

From stdpp Require Import base list gmap sets sorting relations strings.
From Stdlib Require Import ZArith Lia.
From S2P Require Import Prelude Membership Control Topology Projection Neighbors.

Definition heap_push (x : nat * nat) (heap : list (nat * nat)) : list (nat * nat) := insert_by_key id x heap.

Section k_core.
Context (cancelled : nat -> bool).

(** The neighbours of a peeled node lose it. *)
Fixpoint relax (degree : nat) (removed : list bool) (degrees : list nat) (queue : list (nat * nat))
    (visited_neighbors : Z) (adjacent : list nat) : K (list nat * list (nat * nat) * Z) :=
  match adjacent with
  | [] => mret (degrees, queue, visited_neighbors)
  | neighbor :: adjacent' =>
      poll_every cancelled 1024 visited_neighbors ;;
      let visited_neighbors := (visited_neighbors + 1) mod 2 ^ 64 in
      gone ← k_some (removed !! neighbor);
      d ← k_some (degrees !! neighbor);
      if negb gone && (degree <? d)%nat then
        d ← k_try (ok_or (if (1 <=? d)%nat then Some (d - 1)%nat else None) (Execution "k-core degree underflow"));
        relax degree removed (<[neighbor := d]> degrees) (heap_push (d, neighbor) queue) visited_neighbors adjacent'
      else relax degree removed degrees queue visited_neighbors adjacent'
  end.

Fixpoint peel (fuel : nat) (neighbors : list (list nat)) (degrees : list nat) (queue : list (nat * nat))
    (removed : list bool) (cores : list nat) (visited_neighbors processed_entries : Z) : K (list nat) :=
  match fuel with
  | O => k_some None
  | S fuel =>
      match queue with
      | [] => mret cores
      | (degree, node) :: queue =>
          poll_every cancelled 1024 processed_entries ;;
          let processed_entries := (processed_entries + 1) mod 2 ^ 64 in
          gone ← k_some (removed !! node);
          d ← k_some (degrees !! node);
          if gone || negb (d =? degree)%nat
          then peel fuel neighbors degrees queue removed cores visited_neighbors processed_entries
          else
            let removed := <[node := true]> removed in
            let cores := <[node := degree]> cores in
            adjacent ← k_some (neighbors !! node);
            '(degrees, queue, visited_neighbors) ←
              relax degree removed degrees queue visited_neighbors adjacent;
            peel fuel neighbors degrees queue removed cores visited_neighbors processed_entries
      end
  end.

Definition k_core_numbers (graph : AdjacencyGraph) : K (list nat) :=
  neighbors ← simple_undirected_neighbors cancelled graph;
  let degrees := length <$> neighbors in
  let queue := foldl (fun queue pair => heap_push pair queue) []
                 (imap (fun node degree => (degree, node)) degrees) in
  peel (S (length degrees + sum_list degrees)) neighbors degrees queue
    (replicate (length degrees) false) (replicate (length degrees) 0%nat) 0 0.
End k_core.

(** ** Cohesive sets *)

Section core.
Context (E : relation nat).

(** Every node of [S] has [k] different neighbours in [S]. *)
Definition cohesive (k : nat) (S : gset nat) : Prop :=
  forall i, i ∈ S -> exists l, NoDup l /\ (k <= length l)%nat /\ forall j, j ∈ l -> j ∈ S /\ E i j.

(** The greatest [k] for which the node lies in such a set. *)
Definition core_number (i k : nat) : Prop :=
  (exists S, i ∈ S /\ cohesive k S) /\ forall k' S, i ∈ S -> cohesive k' S -> (k' <= k)%nat.
End core.

Lemma filter_remove_length {A} `{EqDecision A} (P Q : A -> Prop)
    `{!forall x, Decision (P x), !forall x, Decision (Q x)} (v : A) (l : list A) :
  NoDup l -> P v -> (forall x, Q x <-> P x /\ x <> v) ->
  length (filter P l) = (length (filter Q l) + if decide (v ∈ l) then 1 else 0)%nat.
Proof.
  intros Hnd Hv HQ. induction Hnd as [|x l Hx Hnd IH]; [done|]. rewrite !filter_cons.
  destruct (decide (x = v)) as [->|Hne].
  - rewrite (decide_True (P := P v)) by done. rewrite (decide_False (P := Q v)) by (rewrite HQ; tauto).
    rewrite (decide_False (P := v ∈ l)) in IH by done. rewrite decide_True by left. cbn [length]. lia.
  - destruct (decide (v ∈ l)) as [Hin|Hin].
    + rewrite (decide_True (P := v ∈ x :: l)) by (by right).
      destruct (decide (P x)), (decide (Q x)); cbn [length]; rewrite ?IH; try lia; exfalso; naive_solver.
    + rewrite (decide_False (P := v ∈ x :: l)) by (by rewrite elem_of_cons; naive_solver).
      destruct (decide (P x)), (decide (Q x)); cbn [length]; rewrite ?IH; try lia; exfalso; naive_solver.
Qed.

(** ** Peeling *)

Section peeling.
Context (cancelled : nat -> bool) (n : nat) (adj : list (list nat)) (E : relation nat)
  (Hlen : length adj = n)
  (Hnodup : forall i row, adj !! i = Some row -> NoDup row)
  (Hadj : forall i j row, adj !! i = Some row -> j ∈ row <-> E i j)
  (Hsym : forall i j, E i j -> E j i)
  (Hrange : forall i j, E i j -> (j < n)%nat).

Definition row_at (i : nat) : list nat := default [] (adj !! i).

Definition live (removed : list bool) (i : nat) : Prop := removed !! i = Some false.
#[local] Instance live_dec removed i : Decision (live removed i) := decide_rel (=) _ _.

Definition live_set (removed : list bool) : gset nat := list_to_set (filter (live removed) (seq 0 n)).

(** The neighbours of [i] that are not peeled off. *)
Definition live_degree (removed : list bool) (i : nat) : nat := length (filter (live removed) (row_at i)).

Lemma live_lt removed i : length removed = n -> live removed i -> (i < n)%nat.
Proof. intros <- H. by apply lookup_lt_Some in H. Qed.

Lemma elem_of_live_set removed i : length removed = n -> i ∈ live_set removed <-> live removed i.
Proof.
  intros Hl. unfold live_set. rewrite elem_of_list_to_set, list_elem_of_filter, elem_of_seq.
  split; [tauto|]. intros Hi. pose proof (live_lt _ _ Hl Hi). split; [done|lia].
Qed.

Lemma row_at_spec i : (i < n)%nat -> adj !! i = Some (row_at i) /\ NoDup (row_at i) /\ forall j, j ∈ row_at i <-> E i j.
Proof.
  intros Hi. destruct (lookup_lt_is_Some_2 adj i) as [row Hrow]; [lia|]. unfold row_at. rewrite Hrow. cbn.
  split_and!; [done|by eapply Hnodup|]. intros j. by apply Hadj.
Qed.

(** Peeling [v] off takes one from the live degree of its neighbours. *)
Lemma live_degree_remove removed v u :
  length removed = n -> live removed v -> (u < n)%nat ->
  live_degree removed u =
    (live_degree (<[v := true]> removed) u + if decide (u ∈ row_at v) then 1 else 0)%nat.
Proof.
  intros Hl Hv Hu. pose proof (live_lt _ _ Hl Hv) as Hvn.
  destruct (row_at_spec u Hu) as (_&Hnd&Hru). destruct (row_at_spec v Hvn) as (_&_&Hrv).
  unfold live_degree.
  rewrite (filter_remove_length (live removed) (live (<[v := true]> removed)) v); [|done|done|].
  2: { intros x. unfold live. destruct (decide (x = v)) as [->|].
    - rewrite list_lookup_insert_eq by lia. naive_solver.
    - rewrite list_lookup_insert_ne by done. tauto. }
  f_equal. destruct (decide (v ∈ row_at u)) as [H|H], (decide (u ∈ row_at v)) as [H'|H']; try done; exfalso.
  - apply H', Hrv, Hsym, Hru, H.
  - apply H, Hru, Hsym, Hrv, H'.
Qed.

(** A cohesive set of live nodes bounds their live degrees from below. *)
Lemma cohesive_live_degree removed k S i :
  length removed = n -> cohesive E k S -> i ∈ S -> (forall j, j ∈ S -> live removed j) ->
  (k <= live_degree removed i)%nat.
Proof.
  intros Hl Hc Hi HS. destruct (Hc i Hi) as (l&Hnd&Hk&Hin). etrans; [exact Hk|].
  destruct (row_at_spec i) as (_&_&Hri); [eapply live_lt; eauto|].
  apply submseteq_length, NoDup_submseteq; [done|]. intros j [Hj HE]%Hin. apply list_elem_of_filter.
  split; [by apply HS|by apply Hri].
Qed.

(** The live nodes are cohesive as their live degrees allow. *)
Lemma live_cohesive removed k :
  length removed = n -> (forall i, live removed i -> (k <= live_degree removed i)%nat) ->
  cohesive E k (live_set removed).
Proof.
  intros Hl Hk i Hi%elem_of_live_set; [|done]. destruct (row_at_spec i) as (_&Hnd&Hri); [by eapply live_lt|].
  exists (filter (live removed) (row_at i)). split_and!; [by apply NoDup_filter|by apply Hk|].
  intros j [Hj HE]%list_elem_of_filter. split; [by apply elem_of_live_set|by apply Hri].
Qed.

(** The degree kept for a live node at level [d]: exact above the level, and its entry is queued;
    [extra] counts the neighbour whose removal is not taken off yet. *)
Definition degree_ok (d : nat) (removed : list bool) (extra : nat -> nat) (degrees : list nat)
    (queue : list (nat * nat)) : Prop :=
  length degrees = n /\ StronglySorted ord_le queue /\ Forall (fun p => (p.2 < n)%nat) queue /\
  forall u, live removed u -> exists x, degrees !! u = Some x /\ (x, u) ∈ queue /\ (d <= x)%nat /\
    (live_degree removed u + extra u <= x)%nat /\ ((d < x)%nat -> x = (live_degree removed u + extra u)%nat).

Definition extra_of (rest : list nat) (u : nat) : nat := if decide (u ∈ rest) then 1 else 0.

Lemma relax_spec d removed degrees queue visited rest :
  length removed = n -> NoDup rest -> Forall (fun u => (u < n)%nat) rest ->
  degree_ok d removed (extra_of rest) degrees queue ->
  exists degrees' queue' visited',
    gives cancelled (relax cancelled d removed degrees queue visited rest) (Ok (degrees', queue', visited')) /\
    degree_ok d removed (fun _ => 0%nat) degrees' queue' /\ (length queue' <= length queue + length rest)%nat.
Proof.
  intros Hl Hnd. revert degrees queue visited. induction Hnd as [|v rest Hv Hnd IH]; intros degrees queue visited Hr Hok.
  { exists degrees, queue, visited. split_and!; [apply gives_ret|done|cbn; lia]. }
  inversion Hr as [|? ? Hvn Hr']; subst. cbn [relax].
  destruct Hok as (Hdl&Hs&Hq&Hlive).
  destruct (lookup_lt_is_Some_2 removed v) as [gone Hg]; [lia|].
  destruct (lookup_lt_is_Some_2 degrees v) as [x Hx]; [lia|].
  assert (Hother : forall u, u <> v -> extra_of (v :: rest) u = extra_of rest u).
  { intros u Hne. unfold extra_of. destruct (decide (u ∈ rest)) as [H|H].
    - by rewrite decide_True by (by right).
    - rewrite decide_False; [done|]. by intros [->|?]%elem_of_cons. }
  assert (Hev : extra_of (v :: rest) v = 1%nat /\ extra_of rest v = 0%nat).
  { unfold extra_of. rewrite decide_True by left. by rewrite decide_False by done. }
  destruct (negb gone && (d <? x)%nat) eqn:Eb.
  - apply andb_prop in Eb as [->%negb_true_iff Hdx%Nat.ltb_lt].
    destruct (Hlive v Hg) as (x'&Hx'&_&_&_&Hexact). rewrite Hx in Hx'. injection Hx' as <-.
    specialize (Hexact Hdx). destruct Hev as [Hev1 Hev0]. rewrite Hev1 in Hexact.
    destruct (IH (<[v := (x - 1)%nat]> degrees) (heap_push ((x - 1)%nat, v) queue) ((visited + 1) mod 2 ^ 64))
      as (degrees'&queue'&visited'&Hrun&Hok'&Hlen'); [done| |].
    + split_and!; [by rewrite length_insert|by apply insert_by_key_sorted| |].
      { unfold heap_push. rewrite insert_by_key_perm. by constructor. }
      intros u Hu. destruct (decide (u = v)) as [->|Hne].
      * exists (x - 1)%nat. rewrite list_lookup_insert_eq by lia. rewrite Hev0. split_and!; try lia; [done|].
        unfold heap_push. rewrite insert_by_key_perm. left.
      * destruct (Hlive u Hu) as (y&Hy&Hyq&Hdy&Hly&Hey). exists y. rewrite list_lookup_insert_ne by done.
        rewrite Hother in Hly, Hey by done. split_and!; try done.
        unfold heap_push. rewrite insert_by_key_perm. by right.
    + exists degrees', queue', visited'. split_and!; [|done|].
      * gives_step. rewrite Hg. gives_step. rewrite Hx. gives_step. cbn [negb andb].
        rewrite (proj2 (Nat.ltb_lt _ _) Hdx). destruct (Nat.leb_spec 1 x); [|lia]. gives_step. done.
      * unfold heap_push in Hlen'. rewrite (Permutation_length (insert_by_key_perm id _ _)) in Hlen'. cbn in *. lia.
  - destruct (IH degrees queue ((visited + 1) mod 2 ^ 64)) as (degrees'&queue'&visited'&Hrun&Hok'&Hlen'); [done| |].
    + split_and!; [done..|]. intros u Hu. destruct (Hlive u Hu) as (y&Hy&Hyq&Hdy&Hly&Hey). exists y.
      split_and!; [done..| |].
      * destruct (decide (u = v)) as [->|Hne]; [lia|by rewrite <-Hother].
      * intros Hlt. destruct (decide (u = v)) as [->|Hne]; [|rewrite <-Hother by done; by apply Hey].
        exfalso. rewrite Hy in Hx. injection Hx as ->. unfold live in Hu. rewrite Hg in Hu. injection Hu as ->.
        cbn in Eb. apply Nat.ltb_ge in Eb. lia.
    + exists degrees', queue', visited'. split_and!; [|done|cbn; lia].
      gives_step. rewrite Hg. gives_step. rewrite Hx. gives_step. rewrite Eb. done.
Qed.

(** The state of the loop at level [d]. *)
Record peel_inv (d : nat) (degrees : list nat) (queue : list (nat * nat)) (removed : list bool)
    (cores : list nat) : Prop := {
  peel_removed : length removed = n;
  peel_cores : length cores = n;
  peel_degrees : degree_ok d removed (fun _ => 0%nat) degrees queue;
  peel_done : forall u, removed !! u = Some true -> exists c,
    cores !! u = Some c /\ (c <= d)%nat /\ core_number E u c;
  peel_level : exists S, (forall u, live removed u -> u ∈ S) /\ cohesive E d S;
}.

(** The rows of the live nodes. *)
Definition live_rows (removed : list bool) : nat :=
  sum_list (zip_with (fun (gone : bool) row => if gone then 0%nat else length row) removed adj).

Lemma live_rows_remove removed v :
  live removed v -> length removed = n ->
  live_rows removed = (live_rows (<[v := true]> removed) + length (row_at v))%nat.
Proof.
  intros Hv Hl. destruct (row_at_spec v) as (Hrow&_); [by eapply live_lt|].
  pose proof (sum_zip_insert (fun (gone : bool) row => if gone then 0%nat else length row)
    removed adj v false true (row_at v) Hv Hrow). unfold live_rows. cbn in *. lia.
Qed.

(** An entry that is skipped changes nothing. *)
Lemma peel_skip d degrees degree node queue removed cores x :
  peel_inv d degrees ((degree, node) :: queue) removed cores ->
  degrees !! node = Some x -> removed !! node = Some true \/ x <> degree ->
  peel_inv d degrees queue removed cores.
Proof.
  intros [Hr Hc (Hdl&Hs&Hq&Hlive) Hdone Hlev] Hx Hskip. split; [done..| |done|done].
  inversion Hs as [|? ? Hs' _]; subst. inversion Hq; subst. split_and!; [done..|].
  intros u Hu. destruct (Hlive u Hu) as (y&Hy&Hyq&Hrest). exists y. split; [done|]. split; [|exact Hrest].
  apply elem_of_cons in Hyq as [[= -> ->]|Hyq]; [|done]. exfalso.
  rewrite Hx in Hy. injection Hy as ->. destruct Hskip as [Hgone|Hne]; [|done]. unfold live in Hu. congruence.
Qed.

(** The node at the head of the queue has its core number for degree. *)
Lemma peel_core d degrees degree node queue removed cores :
  peel_inv d degrees ((degree, node) :: queue) removed cores ->
  live removed node -> degrees !! node = Some degree ->
  (d <= degree)%nat /\ core_number E node degree /\
  (forall u x, live removed u -> degrees !! u = Some x -> (degree <= x)%nat) /\
  exists S, (forall u, live removed u -> u ∈ S) /\ cohesive E degree S.
Proof.
  intros [Hr Hc (Hdl&Hs&Hq&Hlive) Hdone (S&HS&Hcoh)] Hn Hx.
  assert (Hmin : forall u x, live removed u -> degrees !! u = Some x -> (degree <= x)%nat).
  { intros u x Hu Hxu. destruct (Hlive u Hu) as (y&Hy&Hyq&_). rewrite Hxu in Hy. injection Hy as <-.
    inversion Hs as [|? ? _ Hhd]; subst. apply elem_of_cons in Hyq as [[= -> ->]|Hyq]; [lia|].
    rewrite Forall_forall in Hhd. destruct (Hhd _ Hyq) as [[Hle _]|[Heq _]]; cbn in *; lia. }
  destruct (Hlive node Hn) as (y&Hy&_&Hd&Hlow&Hexact). rewrite Hx in Hy. injection Hy as <-.
  assert (Hset : exists S, (forall u, live removed u -> u ∈ S) /\ cohesive E degree S).
  { destruct (decide (d = degree)) as [->|Hne]; [by exists S|]. exists (live_set removed).
    split; [by intros u; apply elem_of_live_set|]. apply live_cohesive; [done|]. intros u Hu.
    destruct (Hlive u Hu) as (z&Hz&_&_&_&Hez). specialize (Hmin u z Hu Hz).
    specialize (Hez ltac:(lia)). lia. }
  split_and!; [done| |done|done]. split.
  - destruct Hset as (S'&HS'&Hcoh'). exists S'. split; [by apply HS'|done].
  - intros [|k] S' Hin Hk; [lia|]. destruct (decide (set_Exists (fun u => removed !! u = Some true) S')) as [(u&Hu&Hgone)|Hnone].
    + destruct (Hdone u Hgone) as (c&_&Hcd&_&Hmax). specialize (Hmax (Datatypes.S k) S' Hu Hk). lia.
    + rewrite Nat.add_0_r in Hlow. etrans; [|exact Hlow]. apply (cohesive_live_degree removed (Datatypes.S k) S'); [done..|].
      intros j Hj. unfold live. destruct (removed !! j) as [[]|] eqn:Ej; [|done|].
      * exfalso. apply Hnone. by exists j.
      * exfalso. apply lookup_ge_None in Ej. destruct (Hk j Hj) as (l&_&Hl&Hnext).
        destruct l as [|i l]; [cbn in Hl; lia|]. destruct (Hnext i) as [_ HE%Hsym%Hrange]; [left|lia].
Qed.

(** Peeling a node off keeps the invariant, at its level. *)
Lemma peel_step d degrees degree node queue removed cores visited :
  peel_inv d degrees ((degree, node) :: queue) removed cores ->
  live removed node -> degrees !! node = Some degree ->
  exists degrees' queue' visited',
    gives cancelled (relax cancelled degree (<[node := true]> removed) degrees queue visited (row_at node))
      (Ok (degrees', queue', visited')) /\
    peel_inv degree degrees' queue' (<[node := true]> removed) (<[node := degree]> cores) /\
    (length queue' <= length queue + length (row_at node))%nat.
Proof.
  intros Hinv Hn Hx. destruct (peel_core _ _ _ _ _ _ _ Hinv Hn Hx) as (Hd&Hcore&Hmin&S&HS&Hcoh).
  destruct Hinv as [Hr Hc (Hdl&Hs&Hq&Hlive) Hdone _]. pose proof (live_lt _ _ Hr Hn) as Hlt.
  inversion Hs as [|? ? Hs' _]; subst. inversion Hq as [|? ? _ Hq']; subst.
  assert (Hlive' : forall u, live (<[node := true]> removed) u -> u <> node /\ live removed u).
  { intros u. unfold live. destruct (decide (u = node)) as [->|]; [by rewrite list_lookup_insert_eq by lia|].
    by rewrite list_lookup_insert_ne. }
  destruct (row_at_spec node Hlt) as (_&Hnd&Hrow).
  destruct (relax_spec degree (<[node := true]> removed) degrees queue visited (row_at node))
    as (degrees'&queue'&visited'&Hrun&Hok&Hl').
  - by rewrite length_insert.
  - done.
  - apply Forall_forall. intros u Hu%Hrow. by eapply Hrange.
  - split_and!; [done..|]. intros u Hu. destruct (Hlive' u Hu) as [Hne Hu0].
    destruct (Hlive u Hu0) as (x&Hxu&Hxq&_&Hlow&Hexact). exists x. split; [done|].
    split; [by apply elem_of_cons in Hxq as [[= -> ->]|Hxq]|]. specialize (Hmin u x Hu0 Hxu).
    rewrite (live_degree_remove removed node u) in Hlow, Hexact by (done || by eapply live_lt).
    unfold extra_of. lia.
  - exists degrees', queue', visited'. split_and!; [done| |done]. split; [by rewrite length_insert..|done| |].
    + intros u Hu. destruct (decide (u = node)) as [->|Hne].
      * exists degree. rewrite list_lookup_insert_eq by lia. done.
      * rewrite list_lookup_insert_ne in Hu by done. destruct (Hdone u Hu) as (c&Hcu&Hcd&Hcn).
        exists c. rewrite list_lookup_insert_ne by done. split_and!; [done|lia|done].
    + exists S. split; [|done]. intros u Hu. by apply HS, Hlive'.
Qed.

Lemma peel_spec fuel d degrees queue removed cores visited processed :
  peel_inv d degrees queue removed cores -> (length queue + live_rows removed < fuel)%nat ->
  exists cores', gives cancelled (peel cancelled fuel adj degrees queue removed cores visited processed) (Ok cores') /\
    length cores' = n /\ forall i c, cores' !! i = Some c -> core_number E i c.
Proof.
  revert d degrees queue removed cores visited processed.
  induction fuel as [|fuel IH]; intros d degrees queue removed cores visited processed Hinv Hf; [lia|].
  cbn [peel]. destruct queue as [|[degree node] queue].
  { exists cores. split; [apply gives_ret|]. destruct Hinv as [Hr Hc (_&_&_&Hlive) Hdone _]. split; [done|].
    intros i c Hi. destruct (lookup_lt_is_Some_2 removed i) as [gone Hg].
    { apply lookup_lt_Some in Hi. lia. }
    destruct gone.
    - destruct (Hdone i Hg) as (c'&Hc'&_&Hcn). congruence.
    - destruct (Hlive i Hg) as (x&_&Hx&_). by apply not_elem_of_nil in Hx. }
  destruct (peel_degrees _ _ _ _ _ Hinv) as (Hdl&_&Hq&_). inversion Hq as [|? ? Hlt _]; subst. cbn in Hlt.
  pose proof (peel_removed _ _ _ _ _ Hinv) as Hr.
  destruct (lookup_lt_is_Some_2 removed node) as [gone Hg]; [lia|].
  destruct (lookup_lt_is_Some_2 degrees node) as [x Hx]; [lia|].
  cbn [length] in Hf. destruct (gone || negb (x =? degree)%nat) eqn:Eb.
  - destruct (IH d degrees queue removed cores visited ((processed + 1) mod 2 ^ 64)) as (cores'&Hrun&Hres); [|lia|].
    + eapply peel_skip; [done..|]. apply orb_true_iff in Eb as [->|Hne]; [by left|right].
      by apply negb_true_iff, Nat.eqb_neq in Hne.
    + exists cores'. split; [|done]. gives_step. rewrite Hg. gives_step. rewrite Hx. gives_step. rewrite Eb. done.
  - apply orb_false_iff in Eb as [-> ->%negb_false_iff%Nat.eqb_eq].
    destruct (row_at_spec node Hlt) as (Hrow&_&_).
    destruct (peel_step _ _ _ _ _ _ _ visited Hinv Hg Hx) as (degrees'&queue'&visited'&Hrelax&Hinv'&Hl').
    destruct (IH degree degrees' queue' (<[node := true]> removed) (<[node := degree]> cores) visited'
      ((processed + 1) mod 2 ^ 64)) as (cores'&Hrun&Hres); [done| |].
    + pose proof (live_rows_remove removed node Hg Hr). lia.
    + exists cores'. split; [|done]. gives_step. rewrite Hg. gives_step. rewrite Hx. gives_step.
      rewrite Nat.eqb_refl. cbn [orb negb]. rewrite Hrow. gives_step.
      eapply gives_bind; [exact Hrelax|]. exact Hrun.
Qed.

Lemma queue_start (l : list (nat * nat)) :
  foldl (fun queue pair => heap_push pair queue) [] l ≡ₚ l /\
  StronglySorted ord_le (foldl (fun queue pair => heap_push pair queue) [] l).
Proof.
  assert (H : forall q, StronglySorted ord_le q ->
    foldl (fun queue pair => heap_push pair queue) q l ≡ₚ q ++ l /\
    StronglySorted ord_le (foldl (fun queue pair => heap_push pair queue) q l)).
  { clear. induction l as [|p l IH]; intros q Hq; [by rewrite app_nil_r|]. cbn [foldl].
    destruct (IH (heap_push p q)) as [Hp Hs]; [by apply insert_by_key_sorted|]. split; [|done].
    rewrite Hp. unfold heap_push. rewrite insert_by_key_perm. apply Permutation_middle. }
  apply (H []). constructor.
Qed.

Lemma peel_start :
  let degrees := length <$> adj in
  let queue := foldl (fun queue pair => heap_push pair queue) [] (imap (fun node degree => (degree, node)) degrees) in
  peel_inv 0 degrees queue (replicate n false) (replicate n 0%nat) /\
  length queue = n /\ live_rows (replicate n false) = sum_list degrees.
Proof.
  cbn zeta. set (pairs := imap _ _). destruct (queue_start pairs) as [Hp Hs].
  assert (Hin : forall x u, (x, u) ∈ pairs <-> exists row, adj !! u = Some row /\ x = length row).
  { intros x u. unfold pairs. rewrite elem_of_lookup_imap. split.
    - intros (i&d&[= -> ->]&Hi). rewrite list_lookup_fmap in Hi. apply fmap_Some in Hi as (row&Hrow&->). eauto.
    - intros (row&Hrow&->). exists u, (length row). split; [done|]. by rewrite list_lookup_fmap, Hrow. }
  split_and!.
  - split; [by rewrite length_replicate..| | |].
    + split_and!; [by rewrite length_fmap|done| |].
      * rewrite Hp. apply Forall_forall. intros [x u] (row&Hu&_)%Hin. cbn. apply lookup_lt_Some in Hu. lia.
      * intros u Hu%live_lt; [|apply length_replicate]. destruct (row_at_spec u Hu) as (Hrow&_&Hru).
        exists (length (row_at u)). rewrite list_lookup_fmap, Hrow, Hp, Hin.
        assert (Hall : live_degree (replicate n false) u = length (row_at u)).
        { unfold live_degree. rewrite filter_all; [done|].
          intros j Hj%Hru%Hrange. by apply lookup_replicate. }
        rewrite Hall. split_and!; try lia; [done|by exists (row_at u)].
    + intros u [? _]%lookup_replicate. done.
    + exists (live_set (replicate n false)). split.
      * intros u Hu. by apply elem_of_live_set; [rewrite length_replicate|].
      * intros i _. exists []. split_and!; [constructor|cbn; lia|by intros j ?%not_elem_of_nil].
  - rewrite Hp. unfold pairs. by rewrite length_imap, length_fmap.
  - unfold live_rows. rewrite <-Hlen. clear. induction adj as [|row rows IH]; [done|]. cbn. by rewrite IH.
Qed.
End peeling.

(** ** Properties *)

(** C4 Core numbers are exact.  On a graph whose entries all lead to nodes, every run that is not
    cancelled returns one number per node, and it is the greatest [k] such that the node lies in
    a set of nodes each of which has [k] different neighbours, other than itself, in the set;
    directions, repeated entries and self-loops do not matter.  On any other graph the run
    fails with the error for an unselected node. *)
Theorem k_core_exact cancelled g ids rows :
  GraphOf g ids rows -> ids_ok ids ->
  (closed ids rows -> exists cores, gives cancelled (k_core_numbers cancelled g) (Ok cores) /\
     length cores = length ids /\
     forall i k, cores !! i = Some k -> core_number (linked true (arc ids rows)) i k) /\
  (~ closed ids rows -> gives cancelled (k_core_numbers cancelled g) (Err unselected)).
Proof.
  intros Hg Hids. unfold k_core_numbers, simple_undirected_neighbors.
  destruct (simple_neighbors_spec cancelled g ids rows true Hg Hids) as [(Hc&adj&Hrun&Hadj)|(Hc&Hrun)];
    split; intros Hc'; [|done|done|by apply gives_bind_err].
  destruct Hadj as [Hlen Hasc Hlink]. set (E := linked true (arc ids rows)) in *.
  assert (Hsym : forall i j, E i j -> E j i) by (intros i j [Hne Hor]; split; [done|tauto]).
  assert (Hrange : forall i j, E i j -> (j < length ids)%nat).
  { intros i j [_ [(row&e&_&_&Hj)|(_&row&e&Hj&_)]]; [by eapply lookup_lt_Some|].
    rewrite <-(go_rows (g := g)). by eapply lookup_lt_Some. }
  assert (Hnd : forall i row, adj !! i = Some row -> NoDup row).
  { intros i row Hi. specialize (Hasc i row Hi). clear -Hasc.
    induction Hasc as [|x l Hl IH Hx]; constructor; [|done]. rewrite Forall_forall in Hx. intros H%Hx. lia. }
  destruct (peel_start cancelled (length ids) adj E Hlen Hnd Hlink Hrange) as (Hinv&Hq&Hw).
  edestruct (peel_spec cancelled (length ids) adj E) as (cores&Hpeel&Hres); [done..| |].
  - rewrite Hq, Hw. apply Nat.lt_succ_diag_r.
  - exists cores. split; [|exact Hres]. eapply gives_bind; [exact Hrun|]. cbn zeta. rewrite length_fmap, Hlen. exact Hpeel.
Qed.

(** The graph of the source's test, with a directed, a repeated and a looping entry. *)
Definition sample_pairs : list (Z * Z) :=
  [(0, 1); (0, 2); (0, 3); (1, 2); (1, 3); (3, 2); (0, 4); (4, 0); (4, 5); (4, 5); (6, 6); (7, 8); (8, 9); (9, 7)].

Lemma k_core_exact_witness : exists cores c,
  k_core_numbers (fun _ => false) (unit_graph true 10 sample_pairs) new_control = Some (Ok cores, c) /\
  cores = [3; 3; 3; 3; 1; 1; 0; 2; 2; 2]%nat /\
  core_number (linked true (arc (Z.of_nat <$> seq 0 10) (entry_rows (Z.of_nat <$> seq 0 10) (unit_entries sample_pairs)))) 0 3.
Proof.
  destruct (k_core_exact (fun _ => false) (unit_graph true 10 sample_pairs) _ _
    (unit_graph_of true 10 sample_pairs ltac:(repeat constructor; cbn; lia) ltac:(done) ltac:(done))
    (dense_ids_ok 10 ltac:(done))) as [Hok _].
  destruct Hok as (cores&Hrun&_&Hcore); [apply is_closed_spec; vm_compute; reflexivity|].
  destruct (Hrun new_control) as [c [E|[_ [k [=]]]]]. exists cores, c. split; [exact E|].
  assert (Hout : match k_core_numbers (fun _ => false) (unit_graph true 10 sample_pairs) new_control with
    Some (Ok cores, _) => cores = [3; 3; 3; 3; 1; 1; 0; 2; 2; 2]%nat | _ => False end) by (vm_compute; reflexivity).
  rewrite E in Hout. split; [exact Hout|]. apply Hcore. rewrite Hout. reflexivity.
Defined.
