(* ===== verification/Scc.v ===== *)
(** * Strongly connected components: [crates/graphforge-exec/src/algorithm_cluster_scc.rs].

    Tarjan's algorithm without recursion: an explicit stack of frames, each a node with the next
    entry of its row to look at, and the stack of the nodes whose component is open.  Both
    stacks have their top at the head of the list.  A node's label is the [usize] the code
    stores, [usize::MAX] before its component is closed; the other counters are naturals with
    the checks of the code.  A turn of the loop consumes an entry of a row or a frame, so the
    nodes plus the entries are fuel enough. *)

From stdpp Require Import base list gmap sets sorting relations strings.
From Stdlib Require Import ZArith Lia.
From S2P Require Import Prelude Membership Control Topology Projection Neighbors.

Definition CANCELLATION_INTERVAL : Z := 16384.

Record DfsFrame := {
  f_node : nat;
  next_neighbor : nat;
  f_parent : option nat;
}.

(** The variables of [strongly_connected_labels]. *)
Record Tarjan := {
  discovery : list (option nat);
  lowlink : list nat;
  on_stack : list bool;
  component_stack : list nat;
  frames : list DfsFrame;
  raw_labels : list Z;
  next_discovery : nat;
  component_count : nat;
}.

(** [v[i] = x] *)
Definition set_at {A} (i : nat) (x : A) (v : list A) : option (list A) :=
  if (i <? length v)%nat then Some (<[i := x]> v) else None.

(** [n.checked_add(1)] *)
Definition checked_succ (n : nat) : option nat :=
  if Z.of_nat n + 1 <=? usize_max then Some (S n) else None.

Definition discover (node : nat) (parent : option nat) (s : Tarjan) : K Tarjan :=
  discovery' ← k_some (set_at node (Some (next_discovery s)) (discovery s));
  lowlink' ← k_some (set_at node (next_discovery s) (lowlink s));
  next ← k_try (ok_or (checked_succ (next_discovery s)) (Execution "Tarjan discovery index exceeds usize"));
  on_stack' ← k_some (set_at node true (on_stack s));
  mret {| discovery := discovery'; lowlink := lowlink'; on_stack := on_stack';
          component_stack := node :: component_stack s;
          frames := {| f_node := node; next_neighbor := 0; f_parent := parent |} :: frames s;
          raw_labels := raw_labels s; next_discovery := next; component_count := component_count s |}.

(** [lowlink[node] = lowlink[node].min(bound)] *)
Definition lower (node bound : nat) (s : Tarjan) : option Tarjan :=
  low ← lowlink s !! node;
  lowlink' ← set_at node (Nat.min low bound) (lowlink s);
  Some {| discovery := discovery s; lowlink := lowlink'; on_stack := on_stack s;
          component_stack := component_stack s; frames := frames s; raw_labels := raw_labels s;
          next_discovery := next_discovery s; component_count := component_count s |}.

Definition set_frames (frames' : list DfsFrame) (s : Tarjan) : Tarjan :=
  {| discovery := discovery s; lowlink := lowlink s; on_stack := on_stack s;
     component_stack := component_stack s; frames := frames'; raw_labels := raw_labels s;
     next_discovery := next_discovery s; component_count := component_count s |}.

(** The members of the component of [node] come off the stack. *)
Fixpoint close_component (node count : nat) (stack : list nat) (on_stack : list bool) (raw_labels : list Z)
    : K (list nat * list bool * list Z) :=
  match stack with
  | [] => k_err (Execution "Tarjan component stack underflow")
  | member :: stack =>
      on_stack ← k_some (set_at member false on_stack);
      raw_labels ← k_some (set_at member (Z.of_nat count) raw_labels);
      if (member =? node)%nat then mret (stack, on_stack, raw_labels)
      else close_component node count stack on_stack raw_labels
  end.

Section scc.
Context (cancelled : nat -> bool) (graph : AdjacencyGraph) (ids : list Z) (ordinals : gmap Z nat).

(** An entry of the row of the top frame is looked at. *)
Definition look (node : nat) (edge : AlgorithmEdge) (s : Tarjan) : K Tarjan :=
  neighbor ← k_try (ok_or (ordinals !! neighbor_id edge) unselected);
  seen ← k_some (discovery s !! neighbor);
  match seen with
  | None => discover neighbor (Some node) s
  | Some d =>
      open ← k_some (on_stack s !! neighbor);
      if (open : bool) then k_some (lower node d s) else mret s
  end.

(** The top frame is exhausted and popped; its component is closed if it is the root of one. *)
Definition finish (completed : DfsFrame) (s : Tarjan) : K Tarjan :=
  let node := f_node completed in
  s ← match f_parent completed with
      | None => mret s
      | Some parent => k_some (low ← lowlink s !! node; lower parent low s)
      end;
  low ← k_some (lowlink s !! node);
  d ← k_some (mjoin (discovery s !! node));
  if (low =? d)%nat then
    '(stack, on_stack', raw_labels') ←
      close_component node (component_count s) (component_stack s) (on_stack s) (raw_labels s);
    count ← k_try (ok_or (checked_succ (component_count s)) (Execution "component count exceeds usize"));
    mret {| discovery := discovery s; lowlink := lowlink s; on_stack := on_stack'; component_stack := stack;
            frames := frames s; raw_labels := raw_labels'; next_discovery := next_discovery s;
            component_count := count |}
  else mret s.

Fixpoint tarjan_loop (fuel : nat) (s : Tarjan) (work : Z) : K (Tarjan * Z) :=
  match fuel with
  | O => k_some None
  | S fuel =>
      match frames s with
      | [] => mret (s, work)
      | frame :: rest =>
          poll_every cancelled CANCELLATION_INTERVAL work ;;
          let work := saturating_add work 1 in
          node_id ← k_some (ids !! f_node frame);
          edges ← k_some (node_neighbors graph node_id);
          s ← match edges !! next_neighbor frame with
              | Some edge =>
                  let frame' := {| f_node := f_node frame; next_neighbor := S (next_neighbor frame);
                                   f_parent := f_parent frame |} in
                  look (f_node frame) edge (set_frames (frame' :: rest) s)
              | None => finish frame (set_frames rest s)
              end;
          tarjan_loop fuel s work
      end
  end.

Fixpoint tarjan_roots (fuel : nat) (s : Tarjan) (work : Z) (roots : list nat) : K (Tarjan * Z) :=
  match roots with
  | [] => mret (s, work)
  | root :: roots =>
      seen ← k_some (discovery s !! root);
      match seen with
      | Some _ => tarjan_roots fuel s work roots
      | None =>
          s ← discover root None s;
          '(s, work) ← tarjan_loop fuel s work;
          tarjan_roots fuel s work roots
      end
  end.
End scc.

(** The labels renumbered in the order of their first occurrence. *)
Fixpoint relabel (canonical : list Z) (next : nat) (raw : list Z) : K (list Z) :=
  match raw with
  | [] => mret []
  | component :: raw =>
      label ← k_try (ok_or (if component <? lenZ canonical then canonical !! Z.to_nat component else None)
                       (Execution "Tarjan produced an invalid component label"));
      if label =? u64_max then
        let label := Z.of_nat next in
        next' ← k_try (ok_or (checked_succ next) (Execution "canonical component count exceeds usize"));
        labels ← relabel (<[Z.to_nat component := label]> canonical) next' raw;
        mret (label :: labels)
      else
        labels ← relabel canonical next raw;
        mret (label :: labels)
  end.

Definition canonical_labels (raw : list Z) (component_count : nat) : K (list Z) :=
  relabel (replicate component_count u64_max) 0 raw.

Definition strongly_connected_labels (cancelled : nat -> bool) (graph : AdjacencyGraph) : K (list Z) :=
  check_cancelled cancelled ;;
  let ids := node_ids graph in
  let n := length ids in
  let s := {| discovery := replicate n None; lowlink := replicate n 0%nat; on_stack := replicate n false;
              component_stack := []; frames := []; raw_labels := replicate n u64_max;
              next_discovery := 0; component_count := 0 |} in
  '(s, _) ← tarjan_roots cancelled graph ids (node_ordinals ids)
    (S (n + length (neighbors (topology graph)))) s 0 (seq 0 n);
  canonical_labels (raw_labels s) (component_count s).

(** ** The invariant of the search *)

Section invariant.
Context (ids : list Z) (rows : list (list AlgorithmEdge)) (Hids : NoDup ids).

#[local] Abbreviation E := (arc ids rows).

Definition row_at (x : nat) : list AlgorithmEdge := default [] (rows !! x).

(** [y] was discovered before [x], and [x] not after [y]. *)
Definition later (disc : nat -> option nat) (x y : nat) : Prop :=
  exists dx dy, disc x = Some dx /\ disc y = Some dy /\ (dy < dx)%nat.
Definition before (disc : nat -> option nat) (x y : nat) : Prop :=
  exists dx dy, disc x = Some dx /\ disc y = Some dy /\ (dx <= dy)%nat.

(** The state of the search: discovery numbers, low links, the open nodes, the nodes of the
    frames, the entries looked at, the labels of the closed components, and the two counters.
    The open nodes from a frame up are reached from it, and every open node reaches a frame
    before it; the low link of a frame is the number of an open node it reaches, and is not
    above any that the entries looked at from its part of the stack lead to. *)
Record search_inv (disc : nat -> option nat) (low : nat -> nat) (stack path : list nat)
    (scanned : nat -> AlgorithmEdge -> Prop) (label : nat -> option nat) (next count : nat) : Prop := {
  i_range : forall x d, disc x = Some d -> (x < length ids)%nat /\ (d < next)%nat;
  i_inj : forall x y d, disc x = Some d -> disc y = Some d -> x = y;
  i_total : exists l, NoDup l /\ length l = next /\ forall x, x ∈ l -> is_Some (disc x);
  i_seen : forall x, is_Some (disc x) <-> x ∈ stack \/ is_Some (label x);
  i_excl : forall x, x ∈ stack -> label x = None;
  i_stack : StronglySorted (later disc) stack;
  i_path : StronglySorted (later disc) path;
  i_sub : forall g, g ∈ path -> g ∈ stack;
  i_scanned : forall x e, is_Some (disc x) -> scanned x e ->
    exists y, ids !! y = Some (neighbor_id e) /\ is_Some (disc y);
  i_full : forall x e, is_Some (disc x) -> x ∉ path -> e ∈ row_at x -> scanned x e;
  i_closed : forall x y, is_Some (label x) -> E x y -> is_Some (label y);
  i_up : forall x, x ∈ stack -> exists g, g ∈ path /\ before disc g x /\ rtc E x g;
  i_down : forall g x, g ∈ path -> x ∈ stack -> before disc g x -> rtc E g x;
  i_low : forall g, g ∈ path -> exists y, y ∈ stack /\ disc y = Some (low g) /\ rtc E g y /\ before disc y g;
  i_cover : forall k g x e y d, path !! k = Some g -> x ∈ stack -> before disc g x ->
    (forall k' h, (k' < k)%nat -> path !! k' = Some h -> later disc h x) ->
    scanned x e -> ids !! y = Some (neighbor_id e) -> y ∈ stack -> disc y = Some d -> (low g <= d)%nat;
  i_labels : forall x y a b, label x = Some a -> label y = Some b -> a = b <-> rtc E x y /\ rtc E y x;
  i_label_range : forall x c, label x = Some c -> (c < count)%nat;
  i_count : (count + length stack <= next)%nat;
}.

Lemma later_before disc x y : later disc x y -> before disc y x.
Proof. intros (dx&dy&Hx&Hy&H). exists dy, dx. split_and!; [done..|lia]. Qed.

Lemma later_not_before disc x y : later disc x y -> ~ before disc x y.
Proof. intros (dx&dy&Hx&Hy&H) (dx'&dy'&Hx'&Hy'&H'). simplify_eq. lia. Qed.

Lemma before_cases disc x y : is_Some (disc x) -> is_Some (disc y) -> before disc x y \/ later disc x y.
Proof.
  intros [dx Hx] [dy Hy]. destruct (decide (dx <= dy)%nat); [left|right]; exists dx, dy; split_and!; (done || lia).
Qed.

Lemma before_refl disc x : is_Some (disc x) -> before disc x x.
Proof. intros [d Hd]. exists d, d. done. Qed.

Lemma before_trans disc x y z : before disc x y -> before disc y z -> before disc x z.
Proof.
  intros (dx&dy&Hx&Hy&H) (dy'&dz&Hy'&Hz&H'). simplify_eq. exists dx, dz. split_and!; [done..|lia].
Qed.

Lemma later_irrefl disc x : ~ later disc x x.
Proof. intros (dx&dy&H1&H2&Hlt). simplify_eq. lia. Qed.

Lemma later_NoDup disc l : StronglySorted (later disc) l -> NoDup l.
Proof.
  induction 1 as [|x l Hl IH Hx]; constructor; [|done]. rewrite Forall_forall in Hx.
  by intros H%Hx%later_irrefl.
Qed.

(** The head of the path is its latest node. *)
Lemma path_head disc u path g :
  StronglySorted (later disc) (u :: path) -> is_Some (disc u) -> g ∈ u :: path -> before disc g u.
Proof.
  intros Hs Hd [->|Hg]%elem_of_cons; [by apply before_refl|].
  inversion Hs as [|? ? _ Hall]; subst. rewrite Forall_forall in Hall. by apply later_before, Hall.
Qed.

Lemma later_change (disc disc' : nat -> option nat) l :
  (forall x, x ∈ l -> disc' x = disc x) -> StronglySorted (later disc) l -> StronglySorted (later disc') l.
Proof.
  intros Heq. induction 1 as [|x l Hl IH Hx]; constructor; [apply IH; intros y Hy; apply Heq; by right|].
  rewrite Forall_forall in *. intros y Hy. destruct (Hx y Hy) as (dx&dy&H1&H2&Hlt).
  exists dx, dy. rewrite !Heq by (by left || by right). done.
Qed.

Lemma ids_inj i j id : ids !! i = Some id -> ids !! j = Some id -> i = j.
Proof. intros Hi Hj. by eapply NoDup_lookup. Qed.

Lemma before_ext (disc disc' : nat -> option nat) x y :
  disc' x = disc x -> disc' y = disc y -> before disc' x y <-> before disc x y.
Proof. unfold before. by intros -> ->. Qed.

Lemma later_ext (disc disc' : nat -> option nat) x y :
  disc' x = disc x -> disc' y = disc y -> later disc' x y <-> later disc x y.
Proof. unfold later. by intros -> ->. Qed.

Section push.
Context (disc : nat -> option nat) (low : nat -> nat) (stack path : list nat)
  (scanned : nat -> AlgorithmEdge -> Prop) (label : nat -> option nat) (next count : nat)
  (Hinv : search_inv disc low stack path scanned label next count).

Lemma open_seen x : x ∈ stack -> is_Some (disc x).
Proof. intros Hx. apply (i_seen _ _ _ _ _ _ _ _ Hinv). by left. Qed.

Lemma path_seen x : x ∈ path -> is_Some (disc x).
Proof. intros Hx. by apply open_seen, (i_sub _ _ _ _ _ _ _ _ Hinv). Qed.

Context (v : nat) (disc' : nat -> option nat) (low' : nat -> nat) (scanned' : nat -> AlgorithmEdge -> Prop)
  (Hnew : disc v = None) (Hv : (v < length ids)%nat)
  (Hhead : forall u, head path = Some u -> E u v)
  (Hdisc : forall x, disc' x = if decide (x = v) then Some next else disc x)
  (Hlow : forall x, low' x = if decide (x = v) then next else low x)
  (Hscan_v : forall e, ~ scanned' v e)
  (Hscan : forall x e, is_Some (disc x) -> scanned x e -> scanned' x e)
  (Hscan' : forall x e, is_Some (disc x) -> scanned' x e ->
     scanned x e \/ (head path = Some x /\ ids !! v = Some (neighbor_id e))).

Lemma push_old x : is_Some (disc x) -> x <> v /\ disc' x = disc x.
Proof.
  intros [d Hd]. assert (x <> v) by congruence. split; [done|]. by rewrite Hdisc, decide_False.
Qed.

Lemma push_new : disc' v = Some next.
Proof. by rewrite Hdisc, decide_True. Qed.

Lemma push_seen x : is_Some (disc' x) <-> x = v \/ is_Some (disc x).
Proof.
  rewrite Hdisc. destruct (decide (x = v)) as [->|Hne]; [split; [by left|by eexists]|].
  split; [by right|by intros [|]].
Qed.

(** Only [v] itself is not before [v]. *)
Lemma push_latest x : x = v \/ is_Some (disc x) -> before disc' v x -> x = v.
Proof.
  intros [->|Hx] Hb; [done|]. destruct (push_old x Hx) as [_ Heq]. destruct Hx as [d Hd].
  destruct Hb as (dv&dx&H1&H2&H3). rewrite push_new in H1. rewrite Heq in H2. simplify_eq.
  apply (i_range _ _ _ _ _ _ _ _ Hinv) in Hd. lia.
Qed.

Lemma push_later x : is_Some (disc x) -> later disc' v x.
Proof.
  intros Hx. destruct (push_old x Hx) as [_ Heq]. destruct Hx as [d Hd]. exists next, d.
  rewrite push_new, Heq. split_and!; [done..|]. by apply (i_range _ _ _ _ _ _ _ _ Hinv x d).
Qed.

Lemma push_reach g : g ∈ path -> rtc E g v.
Proof.
  intros Hg. assert (exists u rest, path = u :: rest) as (u&rest&Ep).
  { clear -Hg. destruct path as [|u rest]; [by apply not_elem_of_nil in Hg|eauto]. }
  assert (Hu : u ∈ path) by (rewrite Ep; left).
  eapply rtc_r; [|apply Hhead; by rewrite Ep].
  apply (i_down _ _ _ _ _ _ _ _ Hinv); [done|by apply (i_sub _ _ _ _ _ _ _ _ Hinv)|].
  apply (path_head disc u rest); [rewrite <-Ep; by eapply i_path|by apply path_seen|by rewrite <-Ep].
Qed.

Lemma push_inv : search_inv disc' low' (v :: stack) (v :: path) scanned' label (S next) count.
Proof.
  pose proof Hinv as [Hr Hi Ht Hseen Hex Hs Hp Hsub Hsc Hfull Hcl Hup Hdown Hl Hcov Hlab Hlr Hc].
  split.
  - intros x d. rewrite Hdisc. destruct (decide (x = v)) as [->|]; [intros [= <-]; lia|].
    intros [H1 H2]%Hr. lia.
  - intros x y d. rewrite !Hdisc. destruct (decide (x = v)) as [->|], (decide (y = v)) as [->|]; try done.
    + intros [= <-] [_ ?]%Hr. lia.
    + intros [_ ?]%Hr [= <-]. lia.
    + apply Hi.
  - destruct Ht as (l&Hnd&Hlen&Hl'). exists (v :: l). split_and!; [|cbn; lia|].
    + constructor; [|done]. intros H%Hl'. rewrite Hnew in H. by destruct H.
    + intros x Hx. apply push_seen. apply elem_of_cons in Hx as [->|Hx]; [by left|right; by apply Hl'].
  - intros x. rewrite push_seen, elem_of_cons, Hseen. tauto.
  - intros x [->|Hx]%elem_of_cons; [|by apply Hex]. destruct (label v) eqn:El; [|done].
    assert (H : is_Some (disc v)) by (apply Hseen; right; by eexists). rewrite Hnew in H. by destruct H.
  - constructor; [|apply Forall_forall; intros x Hx; by apply push_later, open_seen].
    eapply later_change; [|done]. intros x Hx. by apply push_old, open_seen.
  - constructor; [|apply Forall_forall; intros x Hx; by apply push_later, path_seen].
    eapply later_change; [|done]. intros x Hx. by apply push_old, path_seen.
  - intros g [->|Hg]%elem_of_cons; [left|right; by apply Hsub].
  - intros x e Hx He. apply push_seen in Hx as [->|Hx]; [by apply Hscan_v in He|].
    destruct (Hscan' x e Hx He) as [He'|[_ He']].
    + destruct (Hsc x e Hx He') as (y&Hy&Hdy). exists y. split; [done|]. apply push_seen. by right.
    + exists v. split; [done|]. apply push_seen. by left.
  - intros x e Hx Hn He. apply not_elem_of_cons in Hn as [Hne Hn]. apply push_seen in Hx as [->|Hx]; [done|].
    apply Hscan; [done|]. by apply Hfull.
  - done.
  - intros x [->|Hx]%elem_of_cons.
    + exists v. split; [left|]. split; [|done]. apply before_refl, push_seen. by left.
    + destruct (Hup x Hx) as (g&Hg&Hb&Hgx). exists g. split; [by right|]. split; [|done].
      eapply before_ext; [by apply push_old, path_seen|by apply push_old, open_seen|done].
  - intros g x Hg Hx Hb. apply elem_of_cons in Hg as [->|Hg].
    + rewrite (push_latest x); [done| |done]. apply elem_of_cons in Hx as [->|Hx]; [by left|right; by apply open_seen].
    + apply elem_of_cons in Hx as [->|Hx]; [by apply push_reach|]. apply Hdown; [done..|].
      eapply before_ext; [symmetry; by apply push_old, path_seen|symmetry; by apply push_old, open_seen|done].
  - intros g [->|Hg]%elem_of_cons.
    + exists v. rewrite Hlow, decide_True, push_new by done. split_and!; [left|done|done|].
      apply before_refl, push_seen. by left.
    + destruct (Hl g Hg) as (y&Hy&Hd&Hgy&Hb). destruct (push_old g) as [Hne Heq]; [by apply path_seen|].
      destruct (push_old y) as [_ Heqy]; [by apply open_seen|]. exists y.
      rewrite Hlow, decide_False, Heqy by done. split_and!; [by right|done|done|]. by eapply before_ext.
  - intros k g x e y d Hk Hx Hb Habove He Hy Hys Hd. destruct k as [|k].
    { injection Hk as <-. rewrite (push_latest x) in He; [by apply Hscan_v in He| |done].
      apply elem_of_cons in Hx as [->|Hx]; [by left|right; by apply open_seen]. }
    cbn in Hk. pose proof (list_elem_of_lookup_2 _ _ _ Hk) as Hg.
    destruct (push_old g) as [Hneg Heqg]; [by apply path_seen|]. rewrite Hlow, decide_False by done.
    apply elem_of_cons in Hx as [->|Hx].
    { exfalso. apply (later_irrefl disc' v). apply (Habove 0%nat v); [lia|done]. }
    destruct (push_old x) as [_ Heqx]; [by apply open_seen|].
    destruct (decide (y = v)) as [->|Hney].
    { rewrite push_new in Hd. injection Hd as <-. destruct (Hl g Hg) as (z&_&Hz%Hr&_). lia. }
    apply elem_of_cons in Hys as [->|Hys]; [done|]. destruct (push_old y) as [_ Heqy]; [by apply open_seen|].
    rewrite Heqy in Hd. destruct (Hscan' x e) as [He'|[_ He']]; [by apply open_seen|done| |].
    + eapply Hcov; [exact Hk|exact Hx| | |exact He'|exact Hy|exact Hys|exact Hd].
      * by eapply before_ext; [symmetry..|].
      * intros k' h Hlt Hh. specialize (Habove (S k') h ltac:(lia) Hh).
        eapply later_ext; [symmetry; by apply push_old, path_seen, list_elem_of_lookup_2 with k'|by symmetry|done].
    + by destruct Hney; eapply ids_inj.
  - done.
  - done.
  - cbn. lia.
Qed.
End push.

(** An entry of the top frame that leads to a discovered node. *)
Lemma edge_inv disc low stack u rest scanned label next count low' scanned' y d :
  search_inv disc low stack (u :: rest) scanned label next count ->
  disc y = Some d -> E u y ->
  (forall x, x <> u -> low' x = low x) ->
  low' u = (if decide (y ∈ stack) then Nat.min (low u) d else low u) ->
  (forall x e, is_Some (disc x) -> scanned x e -> scanned' x e) ->
  (forall x e, is_Some (disc x) -> scanned' x e -> scanned x e \/ (x = u /\ ids !! y = Some (neighbor_id e))) ->
  search_inv disc low' stack (u :: rest) scanned' label next count.
Proof.
  intros Hinv Hd HE Hother Hu Hscan Hscan'.
  pose proof Hinv as [Hr Hi Ht Hseen Hex Hs Hp Hsub Hsc Hfull Hcl Hup Hdown Hl Hcov Hlab Hlr Hc].
  assert (Hle : forall x, (low' x <= low x)%nat).
  { intros x. destruct (decide (x = u)) as [->|Hne]; [|rewrite Hother by done; lia].
    rewrite Hu. destruct (decide _); lia. }
  split; try done.
  - intros x e Hx He. destruct (Hscan' x e Hx He) as [He'|[_ He']]; [by apply (Hsc x)|]. exists y. split; [done|]. by eexists.
  - intros x e Hx Hn He. apply Hscan; [done|]. by apply Hfull.
  - intros g Hg. destruct (Hl g Hg) as (z&Hz&Hdz&Hgz&Hb). destruct (decide (g = u)) as [->|Hne].
    2: { rewrite Hother by done. by exists z. }
    rewrite Hu. destruct (decide (y ∈ stack)) as [Hy|Hy]; [|by exists z].
    destruct (decide (low u <= d)%nat); [rewrite Nat.min_l by done; by exists z|rewrite Nat.min_r by lia].
    exists y. split_and!; [done|done|by apply rtc_once|]. destruct Hb as (dz&du&Hz'&Hu'&Hlt). simplify_eq.
    exists d, du. split_and!; [done..|lia].
  - intros k g x e z dz Hk Hx Hb Habove He Hz Hzs Hdz.
    destruct (Hscan' x e) as [He'|[-> He']]; [apply Hseen; by left|done| |].
    + etrans; [apply Hle|]. by apply (Hcov k g x e z dz).
    + assert (z = y) as -> by (by eapply ids_inj). destruct k as [|k].
      * injection Hk as <-. rewrite Hu, decide_True by done. simplify_eq. lia.
      * exfalso. apply (later_irrefl disc u). apply (Habove 0%nat u); [lia|done].
Qed.

(** The top frame is exhausted. *)
Section return_.
Context (disc : nat -> option nat) (low : nat -> nat) (stack : list nat) (u : nat) (rest : list nat)
  (scanned : nat -> AlgorithmEdge -> Prop) (label : nat -> option nat) (next count : nat)
  (Hinv : search_inv disc low stack (u :: rest) scanned label next count)
  (Hdone : forall e, e ∈ row_at u -> scanned u e)
  (low' : nat -> nat) (scanned' : nat -> AlgorithmEdge -> Prop)
  (Hlow : forall x, low' x = if decide (head rest = Some x) then Nat.min (low x) (low u) else low x)
  (Hscan : forall x e, is_Some (disc x) -> scanned' x e <-> scanned x e).

Lemma return_low_le x : (low' x <= low x)%nat.
Proof. rewrite Hlow. destruct (decide _); lia. Qed.

Lemma return_later g : g ∈ rest -> later disc u g.
Proof.
  intros Hg. pose proof (i_path _ _ _ _ _ _ _ _ Hinv) as Hp. inversion Hp as [|? ? _ Hall]; subst.
  rewrite Forall_forall in Hall. by apply Hall.
Qed.

Lemma return_full x e : is_Some (disc x) -> x ∉ rest -> e ∈ row_at x -> scanned x e.
Proof.
  intros Hx Hn He. destruct (decide (x = u)) as [->|Hne]; [by apply Hdone|].
  apply (i_full _ _ _ _ _ _ _ _ Hinv); [done| |done]. by apply not_elem_of_cons.
Qed.

Lemma later_trans x y z : later disc x y -> later disc y z -> later disc x z.
Proof.
  intros (dx&dy&Hx&Hy&H) (dy'&dz&Hy'&Hz&H'). simplify_eq. exists dx, dz. split_and!; [done..|lia].
Qed.

Lemma later_before_trans x y z : later disc x y -> before disc z y -> later disc x z.
Proof.
  intros (dx&dy&Hx&Hy&H) (dz&dy'&Hz&Hy'&H'). simplify_eq. exists dx, dz. split_and!; [done..|lia].
Qed.

(** It is not the root of a component: its part of the stack goes to its parent. *)
Lemma return_inv : disc u <> Some (low u) ->
  search_inv disc low' stack rest scanned' label next count.
Proof.
  intros Hne.
  pose proof Hinv as [Hr Hi Ht Hseen Hex Hs Hp Hsub Hsc Hfull Hcl Hup Hdown Hl Hcov Hlab Hlr Hc].
  assert (Hopen : forall x, x ∈ stack -> is_Some (disc x)) by (intros x Hx; apply Hseen; by left).
  destruct (Hl u) as (y&Hy&Hdy&Huy&Hyu); [left|].
  assert (Huy' : later disc u y).
  { destruct Hyu as (d&du&H1&H2&H3). exists du, d. split_and!; [done..|]. simplify_eq.
    assert (low u <> du) by congruence. lia. }
  split; try done.
  - by inversion Hp.
  - intros g Hg. apply Hsub. by right.
  - intros x e Hx He. apply (Hsc x e Hx). by apply Hscan.
  - intros x e Hx Hn He. apply Hscan; [done|]. by apply return_full.
  - intros x Hx. destruct (Hup x Hx) as (g&Hg&Hb&Hxg). apply elem_of_cons in Hg as [->|Hg]; [|by exists g].
    destruct (Hup y Hy) as (g'&Hg'&Hb'&Hyg). apply elem_of_cons in Hg' as [->|Hg'].
    { by apply later_not_before in Huy'. }
    exists g'. split_and!; [done| |by etrans; [exact Hxg|etrans]].
    eapply before_trans; [exact Hb'|]. eapply before_trans; [by apply later_before|done].
  - intros g x Hg. apply Hdown. by right.
  - intros g Hg. destruct (Hl g) as (z&Hz&Hdz&Hgz&Hzg); [by right|]. rewrite Hlow.
    destruct (decide (head rest = Some g)) as [_|_]; [|by exists z].
    destruct (decide (low g <= low u)%nat); [rewrite Nat.min_l by done; by exists z|rewrite Nat.min_r by lia].
    exists y. split_and!; [done|done| |].
    + etrans; [|exact Huy]. apply Hdown; [by right|apply Hsub; left|]. by apply later_before, return_later.
    + destruct Hzg as (dz&dg&H1&H2&H3). exists (low u), dg. split_and!; [done..|]. simplify_eq. lia.
  - intros k g x e z dz Hk Hx Hb Habove He Hz Hzs Hdz. apply (Hscan x e) in He; [|by apply Hopen].
    destruct k as [|k].
    + rewrite Hlow, decide_True by (destruct rest; [done|by injection Hk as ->]).
      destruct (before_cases disc u x) as [Hux|Hux]; [apply Hopen, Hsub; left|by apply Hopen| |].
      * assert (low u <= dz)%nat; [|lia]. eapply (Hcov 0%nat u x e z); try done. intros k' h Hk'. lia.
      * assert (low g <= dz)%nat; [|lia]. eapply (Hcov 1%nat g x e z); try done.
        intros [|k'] h Hk' Hh; [by injection Hh as <-|lia].
    + etrans; [apply return_low_le|]. eapply (Hcov (S (S k)) g x e z); try done.
      intros [|k'] h Hk' Hh; [|apply (Habove k'); [lia|done]]. injection Hh as <-.
      destruct (lookup_lt_is_Some_2 rest 0) as [p Hp0]; [apply lookup_lt_Some in Hk; lia|].
      eapply later_trans; [apply return_later; by eapply list_elem_of_lookup_2|]. apply (Habove 0%nat p); [lia|done].
Qed.

(** It is the root of a component: the nodes above it on the stack, and itself. *)
Context (above stack' : list nat) (label' : nat -> option nat)
  (Hroot : disc u = Some (low u)) (Hstack : stack = above ++ u :: stack')
  (Hlabel : forall x, label' x = if decide (x ∈ above ++ [u]) then Some count else label x).

Lemma component_elem x : x ∈ above ++ [u] <-> x ∈ stack /\ before disc u x.
Proof.
  pose proof (i_stack _ _ _ _ _ _ _ _ Hinv) as Hs. rewrite Hstack in Hs |- *.
  rewrite (elem_of_app above [u]), (elem_of_app above (u :: stack')), list_elem_of_singleton, elem_of_cons.
  apply StronglySorted_app in Hs as (Ha&_&Hs). inversion Hs as [|? ? _ Hbelow]; subst.
  rewrite Forall_forall in Hbelow. split.
  - intros [Hx|Hx]; (split; [tauto|]); [apply later_before, Ha; [done|left]|]. rewrite Hx.
    apply before_refl. by eexists.
  - intros [[Hx|[Hx|Hx]] Hb]; [by left|by right|]. by apply Hbelow, later_not_before in Hx.
Qed.

Lemma rest_open x : x ∈ stack' <-> x ∈ stack /\ x ∉ above ++ [u].
Proof.
  rewrite component_elem. pose proof (i_stack _ _ _ _ _ _ _ _ Hinv) as Hs. rewrite Hstack in Hs.
  apply StronglySorted_app in Hs as (Ha&_&Hs). inversion Hs as [|? ? _ Hbelow]; subst.
  rewrite Forall_forall in Hbelow. rewrite elem_of_app, elem_of_cons. split.
  - intros Hx. split; [tauto|]. intros [_ Hb]. by apply Hbelow, later_not_before in Hx.
  - intros [[Hx|[->|Hx]] Hn]; [|exfalso|done].
    + exfalso. apply Hn. split; [tauto|]. apply later_before, Ha; [done|left].
    + apply Hn. split; [tauto|]. apply before_refl. by eexists.
Qed.

Lemma rest_later x : x ∈ stack' -> later disc u x.
Proof.
  intros [Hx Hn]%rest_open. destruct (before_cases disc u x) as [Hb|]; [by eexists| | |done].
  - apply (i_seen _ _ _ _ _ _ _ _ Hinv). by left.
  - destruct Hn. by apply component_elem.
Qed.

(** An entry from the component stays in it or leads to a closed one. *)
Lemma component_edge x y : x ∈ above ++ [u] -> E x y -> y ∈ above ++ [u] \/ is_Some (label y).
Proof.
  intros Hx (row&e&Hrow&He&Hy). apply component_elem in Hx as [Hx Hb].
  assert (Hdx : is_Some (disc x)) by (apply (i_seen _ _ _ _ _ _ _ _ Hinv); by left).
  assert (Hse : scanned x e).
  { apply return_full; [done| |by unfold row_at; rewrite Hrow]. intros Hr%return_later. by apply later_not_before in Hr. }
  destruct (i_scanned _ _ _ _ _ _ _ _ Hinv x e Hdx Hse) as (y'&Hy'&Hdy).
  assert (y' = y) as -> by (by eapply ids_inj).
  destruct (proj1 (i_seen _ _ _ _ _ _ _ _ Hinv y) Hdy) as [Hys|]; [left|by right].
  apply component_elem. split; [done|]. destruct Hdy as [d Hd]. exists (low u), d. split_and!; [done..|].
  eapply (i_cover _ _ _ _ _ _ _ _ Hinv 0%nat u x e y); try done. intros k' h Hk'. lia.
Qed.

Lemma closed_reach x y : is_Some (label x) -> rtc E x y -> is_Some (label y).
Proof. intros Hx. induction 1 as [|x y z Hxy _ IH]; [done|]. apply IH. by eapply (i_closed _ _ _ _ _ _ _ _ Hinv). Qed.

Lemma component_reach x y : x ∈ above ++ [u] -> rtc E x y -> y ∈ above ++ [u] \/ is_Some (label y).
Proof.
  intros Hx Hr. revert Hx. induction Hr as [|x y z Hxy Hr IH]; intros Hx; [by left|].
  destruct (component_edge x y Hx Hxy) as [Hy|Hy]; [by apply IH|right]. by eapply closed_reach.
Qed.

Lemma component_connected x : x ∈ above ++ [u] -> rtc E u x /\ rtc E x u.
Proof.
  intros Hx. pose proof (proj1 (component_elem x) Hx) as [Hxs Hb]. split.
  { apply (i_down _ _ _ _ _ _ _ _ Hinv); [left|done|done]. }
  destruct (i_up _ _ _ _ _ _ _ _ Hinv x Hxs) as (g&Hg&Hgx&Hxg).
  destruct (component_reach x g Hx Hxg) as [[_ Hug]%component_elem|Hlab].
  - replace u with g; [done|]. apply elem_of_cons in Hg as [->|Hg]; [done|].
    by apply return_later, later_not_before in Hg.
  - apply (i_sub _ _ _ _ _ _ _ _ Hinv), (i_excl _ _ _ _ _ _ _ _ Hinv) in Hg. rewrite Hg in Hlab. by destruct Hlab.
Qed.

Lemma label_open x : x ∈ stack -> is_Some (label x) -> False.
Proof. intros Hx%(i_excl _ _ _ _ _ _ _ _ Hinv). rewrite Hx. by intros []. Qed.

Lemma close_labels x y a b : label' x = Some a -> label' y = Some b -> a = b <-> rtc E x y /\ rtc E y x.
Proof.
  assert (Hout : forall x y, x ∈ above ++ [u] -> is_Some (label y) -> ~ rtc E y x).
  { intros p q Hp Hq Hr. apply component_elem in Hp as [Hp _]. apply (label_open p Hp). by eapply closed_reach. }
  rewrite !Hlabel. destruct (decide (x ∈ above ++ [u])) as [Hx|Hx], (decide (y ∈ above ++ [u])) as [Hy|Hy].
  - intros [= <-] [= <-]. split; [|done]. intros _.
    destruct (component_connected x Hx), (component_connected y Hy). split; by etrans.
  - intros [= <-] Hb. split; [intros ->|].
    + apply (i_label_range _ _ _ _ _ _ _ _ Hinv) in Hb. lia.
    + intros [_ Hr]. by apply Hout in Hr; [|done|eexists].
  - intros Ha [= <-]. split; [intros <-|].
    + apply (i_label_range _ _ _ _ _ _ _ _ Hinv) in Ha. lia.
    + intros [Hr _]. by apply Hout in Hr; [|done|eexists].
  - apply (i_labels _ _ _ _ _ _ _ _ Hinv).
Qed.

Lemma close_inv : search_inv disc low' stack' rest scanned' label' next (S count).
Proof.
  pose proof Hinv as [Hr Hi Ht Hseen Hex Hs Hp Hsub Hsc Hfull Hcl Hup Hdown Hl Hcov Hlab Hlr Hc].
  assert (Hsome : forall x, is_Some (label' x) <-> x ∈ above ++ [u] \/ is_Some (label x)).
  { intros x. rewrite Hlabel. destruct (decide (x ∈ above ++ [u])) as [H|H]; [split; [by left|by eexists]|].
    split; [by right|by intros [|]]. }
  assert (Hopen : forall x, x ∈ stack' -> x ∈ stack) by (intros x Hx; by apply rest_open).
  assert (Hrest : forall g, g ∈ rest -> g ∈ stack').
  { intros g Hg. apply rest_open. split; [apply Hsub; by right|]. intros [_ Hb]%component_elem.
    by apply return_later, later_not_before in Hg. }
  split; try done.
  - intros x. rewrite Hseen, Hsome, rest_open. pose proof (component_elem x).
    destruct (decide (x ∈ above ++ [u])); tauto.
  - intros x [Hx Hn]%rest_open. rewrite Hlabel, decide_False by done. by apply Hex.
  - rewrite Hstack in Hs. apply StronglySorted_app in Hs as (_&_&Hs). by inversion Hs.
  - by inversion Hp.
  - intros x e Hx He. apply (Hsc x e Hx). by apply Hscan.
  - intros x e Hx Hn He. apply Hscan; [done|]. by apply return_full.
  - intros x y Hx HE. rewrite Hsome in Hx |- *. destruct Hx as [Hx|Hx]; [by eapply component_edge|].
    right. by eapply Hcl.
  - intros x Hx. destruct (Hup x (Hopen x Hx)) as (g&Hg&Hb&Hxg). apply elem_of_cons in Hg as [->|Hg]; [|by exists g].
    by apply rest_later, later_not_before in Hx.
  - intros g x Hg Hx. apply Hdown; [by right|by apply Hopen].
  - intros g Hg. destruct (Hl g) as (z&Hz&Hdz&Hgz&Hzg); [by right|]. exists z.
    pose proof (return_later g Hg) as Hug.
    assert (Huz : later disc u z) by (by eapply later_before_trans).
    split_and!; [|rewrite Hdz; f_equal|done|done].
    + apply rest_open. split; [done|]. intros [_ Hb]%component_elem. by apply later_not_before in Huz.
    + rewrite Hlow. destruct (decide _); [|done]. destruct Huz as (du&dz&H1&H2&H3). simplify_eq. lia.
  - intros k g x e y d Hk Hx Hb Habove He Hy Hys Hd. apply Hscan in He; [|apply Hseen; left; by apply Hopen].
    etrans; [apply return_low_le|]. eapply (Hcov (S k) g x e y); try done; [by apply Hopen| |by apply Hopen].
    intros [|k'] h Hk' Hh; [injection Hh as <-; by apply rest_later|]. apply (Habove k'); [lia|done].
  - intros x y a b. apply close_labels.
  - intros x c. rewrite Hlabel. destruct (decide _); [intros [= <-]; lia|]. intros H%Hlr. lia.
  - rewrite Hstack, length_app in Hc. cbn in Hc. lia.
Qed.
End return_.
End invariant.
