(* ===== verification/SccCorrect.v ===== *)
(** * Correctness of the strongly connected components of [Scc].

    The arrays of the code hold a state of the search that satisfies its invariant, every turn of
    the loop keeps it and takes an entry or a frame, and at the end every component is closed;
    the labels are then renumbered. *)

From stdpp Require Import base list gmap sets sorting relations strings.
From Stdlib Require Import ZArith Lia.
From S2P Require Import Prelude Membership Control Topology Projection Neighbors Scc.

(** ** The code keeps the invariant *)

Section run.
Context (cancelled : nat -> bool) (g : AdjacencyGraph) (ids : list Z) (rows : list (list AlgorithmEdge))
  `{Hg : !GraphOf g ids rows} (Hids : ids_ok ids).

Definition disc_of (s : Tarjan) (x : nat) : option nat := mjoin (discovery s !! x).
Definition low_of (s : Tarjan) (x : nat) : nat := default 0%nat (lowlink s !! x).
Definition label_of (s : Tarjan) (x : nat) : option nat :=
  label ← raw_labels s !! x; if decide (0 <= label < u64_max) then Some (Z.to_nat label) else None.
Definition path_of (s : Tarjan) : list nat := f_node <$> frames s.

(** The entries of a row the search has looked at: those before the cursor of a frame, all of
    them for a node without a frame. *)
Definition scanned_of (frames : list DfsFrame) (x : nat) (e : AlgorithmEdge) : Prop :=
  (exists f, f ∈ frames /\ f_node f = x /\ e ∈ take (next_neighbor f) (row_at rows x)) \/
  (~ (x ∈ f_node <$> frames) /\ e ∈ row_at rows x).

Fixpoint parents (path : list nat) : list (option nat) :=
  match path with
  | [] => []
  | _ :: path' => head path' :: parents path'
  end.

Definition state_inv (s : Tarjan) (scanned : nat -> AlgorithmEdge -> Prop) : Prop :=
  search_inv ids rows (disc_of s) (low_of s) (component_stack s) (path_of s) scanned
    (label_of s) (next_discovery s) (component_count s).

Record arrays_ok (s : Tarjan) : Prop := {
  ok_discovery : length (discovery s) = length ids;
  ok_lowlink : length (lowlink s) = length ids;
  ok_on : length (on_stack s) = length ids;
  ok_raw : length (raw_labels s) = length ids;
  ok_on_stack : forall x b, on_stack s !! x = Some b -> b = true <-> x ∈ component_stack s;
  ok_parents : f_parent <$> frames s = parents (path_of s);
}.

Record state_ok (s : Tarjan) : Prop := {
  ok_inv : state_inv s (scanned_of (frames s));
  ok_arrays : arrays_ok s;
}.

Lemma set_at_spec {A} i (x : A) v : (i < length v)%nat -> set_at i x v = Some (<[i := x]> v).
Proof. intros Hi. unfold set_at. by rewrite (proj2 (Nat.ltb_lt _ _) Hi). Qed.

Lemma row_at_lookup x : (x < length ids)%nat -> rows !! x = Some (row_at rows x).
Proof.
  intros Hx. destruct (lookup_lt_is_Some_2 rows x) as [row Hrow]; [by rewrite (go_rows (g := g))|].
  unfold row_at. by rewrite Hrow.
Qed.

Lemma entry_arc x y k e :
  (x < length ids)%nat -> row_at rows x !! k = Some e -> ids !! y = Some (neighbor_id e) -> arc ids rows x y.
Proof.
  intros Hx He Hy. exists (row_at rows x), e. split_and!; [by apply row_at_lookup|by eapply list_elem_of_lookup_2|done].
Qed.

Lemma next_bound s scanned : state_inv s scanned -> (next_discovery s <= length ids)%nat.
Proof.
  intros Hinv. destruct (i_total _ _ _ _ _ _ _ _ _ _ Hinv) as (l&Hnd&<-&Hl).
  rewrite <-(length_seq (length ids) 0). apply submseteq_length, NoDup_submseteq; [done|].
  intros x Hx. destruct (Hl x Hx) as [d Hd]. apply (i_range _ _ _ _ _ _ _ _ _ _ Hinv) in Hd. apply elem_of_seq. lia.
Qed.

Lemma checked_succ_small n : (n <= length ids)%nat -> checked_succ n = Some (S n).
Proof.
  intros Hn. unfold checked_succ. destruct (Z.leb_spec (Z.of_nat n + 1) usize_max); [done|].
  pose proof (ids_count _ Hids). unfold usize_max, u64_max, u32_max in *. lia.
Qed.

(** One entry more. *)
Definition bump (f : DfsFrame) : DfsFrame :=
  {| f_node := f_node f; next_neighbor := S (next_neighbor f); f_parent := f_parent f |}.

Lemma scanned_bump f rest edge x e :
  row_at rows (f_node f) !! next_neighbor f = Some edge -> NoDup (f_node <$> f :: rest) ->
  scanned_of (bump f :: rest) x e <-> scanned_of (f :: rest) x e \/ (x = f_node f /\ e = edge).
Proof.
  intros Hedge Hnd. unfold scanned_of. rewrite !fmap_cons. cbn [bump f_node].
  assert (Htake : forall e, e ∈ take (S (next_neighbor f)) (row_at rows (f_node f)) <->
    e ∈ take (next_neighbor f) (row_at rows (f_node f)) \/ e = edge).
  { intros e'. by rewrite (take_S_r _ _ edge Hedge), elem_of_app, list_elem_of_singleton. }
  split.
  - intros [(h&[->|Hh]%elem_of_cons&<-&He)|H]; [|left; left; exists h; split_and!; [by right|done..]|by left; right].
    cbn in He. apply Htake in He as [He| ->]; [left; left; exists f; split_and!; [left|done..]|by right].
  - intros [[(h&[->|Hh]%elem_of_cons&<-&He)|H]|[-> ->]]; [| |by right|].
    + left. exists (bump f). split_and!; [left|done|]. apply Htake. by left.
    + left. exists h. split_and!; [by right|done..].
    + left. exists (bump f). split_and!; [left|done|]. apply Htake. by right.
Qed.

Lemma scanned_pop f rest x e :
  row_at rows (f_node f) !! next_neighbor f = None -> NoDup (f_node <$> f :: rest) ->
  scanned_of rest x e <-> scanned_of (f :: rest) x e.
Proof.
  intros Hend%lookup_ge_None Hnd. unfold scanned_of. rewrite fmap_cons in *. inversion Hnd as [|? ? Hf Hnd']; subst.
  setoid_rewrite elem_of_cons. split.
  - intros [(h&Hh&<-&He)|[Hx He]]; [left; exists h; tauto|]. destruct (decide (x = f_node f)) as [->|Hne]; [|right; tauto].
    left. exists f. rewrite take_ge by done. tauto.
  - intros [(h&[->|Hh]&<-&He)|[Hx He]]; [right|left; exists h; tauto|right; tauto].
    rewrite take_ge in He by done. done.
Qed.

Lemma scanned_push v parent fs x e :
  scanned_of ({| f_node := v; next_neighbor := 0; f_parent := parent |} :: fs) x e <->
  (x <> v /\ scanned_of fs x e) \/ (x = v /\ exists f, f ∈ fs /\ f_node f = v /\ e ∈ take (next_neighbor f) (row_at rows v)).
Proof.
  unfold scanned_of. rewrite fmap_cons. cbn [f_node]. setoid_rewrite elem_of_cons. split.
  - intros [(h&[->|Hh]&<-&He)|[Hx He]]; [by cbn in He; apply not_elem_of_nil in He| |left; tauto].
    destruct (decide (f_node h = v)) as [Heq|Hne]; [right; rewrite Heq in *; eauto|left; split; [done|left; eauto]].
  - intros [[Hne [(h&Hh&<-&He)|[Hx He]]]|[-> (h&Hh&Hv&He)]]; [left; exists h; tauto|right; tauto|left; exists h; tauto].
Qed.

Lemma ids_nodup : NoDup ids.
Proof. by apply ascending_NoDup, Hids. Qed.

Lemma disc_of_insert s v d x :
  (v < length (discovery s))%nat ->
  mjoin (<[v := Some d]> (discovery s) !! x) = if decide (x = v) then Some d else disc_of s x.
Proof.
  intros Hv. destruct (decide (x = v)) as [->|Hne]; [by rewrite list_lookup_insert_eq|].
  unfold disc_of. by rewrite list_lookup_insert_ne.
Qed.

Lemma low_of_insert s v l x :
  (v < length (lowlink s))%nat ->
  default 0%nat (<[v := l]> (lowlink s) !! x) = if decide (x = v) then l else low_of s x.
Proof.
  intros Hv. destruct (decide (x = v)) as [->|Hne]; [by rewrite list_lookup_insert_eq|].
  unfold low_of. by rewrite list_lookup_insert_ne.
Qed.

Lemma discover_spec s v scanned :
  arrays_ok s -> state_inv s scanned -> disc_of s v = None -> (v < length ids)%nat ->
  (forall u, head (path_of s) = Some u -> arc ids rows u v) ->
  (forall x e, is_Some (disc_of s x) -> scanned x e -> scanned_of (frames s) x e) ->
  (forall x e, is_Some (disc_of s x) -> scanned_of (frames s) x e ->
     scanned x e \/ (head (path_of s) = Some x /\ ids !! v = Some (neighbor_id e))) ->
  exists s', gives cancelled (discover v (head (path_of s)) s) (Ok s') /\ state_ok s' /\
    frames s' = {| f_node := v; next_neighbor := 0; f_parent := head (path_of s) |} :: frames s /\
    discovery s' = <[v := Some (next_discovery s)]> (discovery s).
Proof.
  intros [Hd Hl Ho Hr Hon Hpar] Hinv Hnew Hv Hhead Hscan Hscan'. unfold discover.
  rewrite !set_at_spec by lia. rewrite checked_succ_small by (by eapply next_bound).
  eexists. split; [repeat gives_step|]. split_and!; [|done|done]. split.
  - unfold state_inv, disc_of, low_of, label_of, path_of. cbn [discovery lowlink component_stack frames raw_labels next_discovery component_count].
    rewrite fmap_cons. cbn [f_node]. fold (path_of s).
    eapply (push_inv ids rows ids_nodup _ _ _ _ _ _ _ _ Hinv); try done.
    + intros x. apply disc_of_insert. lia.
    + intros x. apply low_of_insert. lia.
    + intros e [[? _]|[_ (f&Hf&Hfv&_)]]%scanned_push; [done|].
      assert (Hin : v ∈ path_of s) by (rewrite <-Hfv; by apply (list_elem_of_fmap_2 f_node)).
      apply (path_seen _ _ _ _ _ _ _ _ _ _ Hinv) in Hin. rewrite Hnew in Hin. by destruct Hin.
    + intros x e Hx He. apply scanned_push. left. split; [intros ->; rewrite Hnew in Hx; by destruct Hx|by apply Hscan].
    + intros x e Hx [[_ He]|[-> _]]%scanned_push; [by apply Hscan'|]. rewrite Hnew in Hx. by destruct Hx.
  - split; cbn [discovery lowlink on_stack raw_labels frames component_stack]; rewrite ?length_insert; try done.
    + intros x b Hb. rewrite elem_of_cons. apply list_lookup_insert_Some in Hb as [(->&<-&_)|(Hne&Hb)]; [tauto|].
      rewrite (Hon x b Hb). split; [by right|]. by intros [->|].
    + unfold path_of. cbn [frames]. rewrite !fmap_cons. cbn [f_node f_parent parents]. fold (path_of s). by rewrite Hpar.
Qed.

(** The frames with the entries they have left, and the nodes not yet discovered with theirs. *)
Definition white (discovery : list (option nat)) : nat :=
  sum_list (zip_with (fun d row => if d is Some _ then 0%nat else S (length row)) discovery rows).
Definition left_over (f : DfsFrame) : nat := S (length (row_at rows (f_node f)) - next_neighbor f).
Definition measure (s : Tarjan) : nat := (sum_list (left_over <$> frames s) + white (discovery s))%nat.

Lemma white_insert s v d :
  (v < length ids)%nat -> length (discovery s) = length ids -> disc_of s v = None ->
  (white (<[v := Some d]> (discovery s)) + S (length (row_at rows v)) = white (discovery s))%nat.
Proof.
  intros Hv Hl Hd. destruct (lookup_lt_is_Some_2 (discovery s) v) as [o Ho]; [lia|].
  unfold disc_of in Hd. rewrite Ho in Hd. cbn in Hd. subst o.
  pose proof (sum_zip_insert (fun (d : option nat) row => if d is Some _ then 0%nat else S (length row))
    (discovery s) rows v None (Some d) (row_at rows v) Ho (row_at_lookup v Hv)). unfold white. cbn in *. lia.
Qed.

(** The nodes discovered stay discovered. *)
Definition extends (s s' : Tarjan) : Prop := forall x, is_Some (disc_of s x) -> is_Some (disc_of s' x).

Lemma state_path s f rest : state_ok s -> frames s = f :: rest ->
  path_of s = f_node f :: (f_node <$> rest) /\ NoDup (f_node <$> f :: rest) /\
  f_node f ∈ component_stack s /\ is_Some (disc_of s (f_node f)) /\ (f_node f < length ids)%nat.
Proof.
  intros [Hinv _] Hf. assert (Hp : path_of s = f_node f :: (f_node <$> rest)) by (unfold path_of; by rewrite Hf).
  pose proof (later_NoDup _ _ (i_path _ _ _ _ _ _ _ _ _ _ Hinv)) as Hnd. unfold path_of in Hnd. rewrite Hf in Hnd.
  assert (Hin : f_node f ∈ path_of s) by (rewrite Hp; left).
  split_and!; [done..|by apply (i_sub _ _ _ _ _ _ _ _ _ _ Hinv)|by apply (path_seen _ _ _ _ _ _ _ _ _ _ Hinv)|].
  destruct (path_seen _ _ _ _ _ _ _ _ _ _ Hinv _ Hin) as [d Hd]. by apply (i_range _ _ _ _ _ _ _ _ _ _ Hinv) in Hd as [? _].
Qed.

Lemma measure_bump s f rest edge :
  frames s = f :: rest -> row_at rows (f_node f) !! next_neighbor f = Some edge ->
  (measure (set_frames (bump f :: rest) s) < measure s)%nat.
Proof.
  intros Hf He. apply lookup_lt_Some in He. unfold measure. rewrite Hf. cbn [frames set_frames discovery].
  rewrite !fmap_cons. unfold left_over at 1 3. cbn. lia.
Qed.

(** Lowering a link changes nothing else. *)
Lemma lower_spec s u d :
  length (lowlink s) = length ids -> (u < length ids)%nat -> exists s', lower u d s = Some s' /\
    discovery s' = discovery s /\ on_stack s' = on_stack s /\ component_stack s' = component_stack s /\
    frames s' = frames s /\ raw_labels s' = raw_labels s /\ next_discovery s' = next_discovery s /\
    component_count s' = component_count s /\ length (lowlink s') = length ids /\
    forall x, low_of s' x = if decide (x = u) then Nat.min (low_of s u) d else low_of s x.
Proof.
  intros Hl Hu. destruct (lookup_lt_is_Some_2 (lowlink s) u) as [l Hlu]; [lia|]. unfold lower. rewrite Hlu.
  cbn [mbind option_bind]. rewrite set_at_spec by lia. eexists. split; [done|].
  cbn [discovery on_stack component_stack frames raw_labels next_discovery component_count lowlink].
  rewrite length_insert. split_and!; [done..|]. intros x. unfold low_of at 1. cbn [lowlink].
  rewrite low_of_insert by lia. destruct (decide (x = u)); [|done]. unfold low_of. by rewrite Hlu.
Qed.

Lemma look_spec s f rest edge :
  state_ok s -> frames s = f :: rest -> row_at rows (f_node f) !! next_neighbor f = Some edge ->
  (~ (neighbor_id edge ∈ ids) /\
     gives cancelled (look (node_ordinals ids) (f_node f) edge (set_frames (bump f :: rest) s)) (Err unselected)) \/
  (exists s', gives cancelled (look (node_ordinals ids) (f_node f) edge (set_frames (bump f :: rest) s)) (Ok s') /\
     state_ok s' /\ (measure s' < measure s)%nat /\ extends s s').
Proof.
  intros Hok Hf Hedge. set (s1 := set_frames (bump f :: rest) s).
  destruct (state_path s f rest Hok Hf) as (Hp&Hnd&Hus&Hud&Hu). destruct Hok as [Hinv Harr].
  pose proof (measure_bump s f rest edge Hf Hedge) as Hm. fold s1 in Hm.
  assert (Hp1 : path_of s1 = path_of s) by (by rewrite Hp). rewrite Hf in Hinv.
  assert (Hinv1 : state_inv s1 (scanned_of (f :: rest))) by (unfold state_inv; rewrite Hp1; exact Hinv).
  assert (Harr1 : arrays_ok s1).
  { destruct Harr as [? ? ? ? ? Hpar]. split; try done. rewrite Hp1, <-Hpar, Hf. done. }
  unfold look. destruct (node_ordinals ids !! neighbor_id edge) as [y|] eqn:Ey.
  2: { left. split; [|apply gives_bind_err, gives_try].
    intros (y&Hy)%list_elem_of_lookup. apply (node_ordinals_lookup ids _ _ Hids) in Hy. congruence. }
  right. apply (node_ordinals_lookup ids _ _ Hids) in Ey. pose proof (lookup_lt_Some _ _ _ Ey) as Hy.
  pose proof (entry_arc (f_node f) y _ edge Hu Hedge Ey) as HE.
  assert (Hscan : forall x e, scanned_of (f :: rest) x e -> scanned_of (frames s1) x e).
  { intros x e He. apply (scanned_bump f rest edge); [done..|by left]. }
  assert (Hscan' : forall x e, scanned_of (frames s1) x e ->
    scanned_of (f :: rest) x e \/ (x = f_node f /\ ids !! y = Some (neighbor_id e))).
  { intros x e [He|[-> ->]]%(scanned_bump f rest edge); [by left|by right|done|done]. }
  destruct (lookup_lt_is_Some_2 (discovery s1) y) as [o Ho]; [by rewrite (ok_discovery _ Harr1)|].
  assert (Hdy : disc_of s1 y = o) by (unfold disc_of; by rewrite Ho). destruct o as [d|].
  - destruct (lookup_lt_is_Some_2 (on_stack s1) y) as [b Hb]; [by rewrite (ok_on _ Harr1)|].
    pose proof (ok_on_stack _ Harr1 y b Hb) as Hby. destruct b.
    + destruct (lower_spec s1 (f_node f) d) as (s'&Hs'&E1&E2&E3&E4&E5&E6&E7&Hl'&Hlow); [by apply Harr1|done|].
      exists s'. split_and!; [gives_step; rewrite Ho; gives_step; rewrite Hb; gives_step; rewrite Hs'; apply gives_some| | |].
      * split; [|destruct Harr1 as [? ? ? ? Hon Hpar]; split; rewrite ?E1, ?E2, ?E3, ?E4, ?E5; try done; unfold path_of; by rewrite E4].
        unfold state_inv, path_of, disc_of, label_of. rewrite E1, E3, E4, E5, E6, E7. fold (path_of s1). rewrite Hp1, Hp.
        eapply (edge_inv ids rows ids_nodup _ _ _ _ _ _ _ _ _ _ _ y d); [rewrite <-Hp; exact Hinv|done|done|..].
        -- intros x Hne. by rewrite Hlow, decide_False.
        -- rewrite Hlow, decide_True by done. by rewrite decide_True by (by apply Hby).
        -- intros x e _. apply Hscan.
        -- intros x e _. apply Hscan'.
      * unfold measure in *. by rewrite E1, E4.
      * intros x. unfold disc_of. by rewrite E1.
    + exists s1. split_and!; [gives_step; rewrite Ho; gives_step; rewrite Hb; gives_step; apply gives_ret| |done|by intros x Hx]. split; [|done].
      unfold state_inv. rewrite Hp1, Hp.
      eapply (edge_inv ids rows ids_nodup _ _ _ _ _ _ _ _ _ _ _ y d); [rewrite <-Hp; exact Hinv|done|done|done|..].
      * rewrite decide_False; [done|]. intros H. by apply Hby in H.
      * intros x e _. apply Hscan.
      * intros x e _. apply Hscan'.
  - destruct (discover_spec s1 y (scanned_of (f :: rest))) as (s'&Hrun&Hok'&Hf'&Hd'); [done..| | | |].
    + rewrite Hp1, Hp. by intros u [= <-].
    + intros x e _. apply Hscan.
    + intros x e _ He. rewrite Hp1, Hp. destruct (Hscan' x e He) as [|[-> ?]]; [by left|by right].
    + rewrite Hp1, Hp in Hrun. exists s'. split_and!; [gives_step; rewrite Ho; gives_step; exact Hrun|done| |].
      * pose proof (white_insert s1 y (next_discovery s1) Hy (ok_discovery _ Harr1) Hdy) as Hw.
        unfold measure in *. rewrite Hf', Hd', fmap_cons. unfold left_over at 1. cbn [f_node next_neighbor].
        change (sum_list (?a :: ?l)) with (a + sum_list l)%nat. lia.
      * intros x Hx. unfold disc_of. rewrite Hd', disc_of_insert by (by rewrite (ok_discovery _ Harr1)).
        destruct (decide (x = y)); [by eexists|done].
Qed.

Lemma close_component_spec node count above stack' on raw :
  node ∉ above -> Forall (fun x => (x < length ids)%nat) (above ++ [node]) ->
  length on = length ids -> length raw = length ids ->
  exists on' raw', gives cancelled (close_component node count (above ++ node :: stack') on raw) (Ok (stack', on', raw')) /\
    length on' = length ids /\ length raw' = length ids /\
    forall x, on' !! x = (if decide (x ∈ above ++ [node]) then Some false else on !! x) /\
              raw' !! x = (if decide (x ∈ above ++ [node]) then Some (Z.of_nat count) else raw !! x).
Proof.
  revert on raw. induction above as [|m above IH]; intros on raw Hn Hr Hon Hraw.
  - inversion Hr as [|? ? Hlt _]; subst. cbn [app close_component]. rewrite !set_at_spec by lia.
    exists (<[node := false]> on), (<[node := Z.of_nat count]> raw). rewrite !length_insert. split_and!; [|done..|].
    { repeat gives_step. rewrite Nat.eqb_refl. gives_step. }
    intros x. cbn [app]. destruct (decide (x ∈ [node])) as [->%list_elem_of_singleton|Hne].
    + by rewrite !list_lookup_insert_eq by lia.
    + apply not_elem_of_cons in Hne as [Hne _]. by rewrite !list_lookup_insert_ne.
  - apply not_elem_of_cons in Hn as [Hne Hn]. inversion Hr as [|? ? Hlt Hr']; subst.
    destruct (IH (<[m := false]> on) (<[m := Z.of_nat count]> raw) Hn Hr') as (on'&raw'&Hrun&Hl1&Hl2&Hx); [by rewrite length_insert..|].
    exists on', raw'. split_and!; [|done..|].
    { cbn [app close_component]. rewrite !set_at_spec by lia. do 2 gives_step.
      rewrite (proj2 (Nat.eqb_neq m node)) by done. exact Hrun. }
    intros x. destruct (Hx x) as [-> ->]. rewrite <-app_comm_cons. destruct (decide (x ∈ above ++ [node])) as [H|H].
    + by rewrite !decide_True by (by right).
    + destruct (decide (x = m)) as [->|Hxm].
      * rewrite !decide_True by left. by rewrite !list_lookup_insert_eq by lia.
      * rewrite !decide_False by (by intros [|]%elem_of_cons). by rewrite !list_lookup_insert_ne.
Qed.

(** The state after the top frame is popped and the low link of its parent lowered. *)
Record returned (s : Tarjan) (f : DfsFrame) (rest : list DfsFrame) (s' : Tarjan) : Prop := {
  r_discovery : discovery s' = discovery s;
  r_on_stack : on_stack s' = on_stack s;
  r_stack : component_stack s' = component_stack s;
  r_frames : frames s' = rest;
  r_raw : raw_labels s' = raw_labels s;
  r_next : next_discovery s' = next_discovery s;
  r_count : component_count s' = component_count s;
  r_length : length (lowlink s') = length ids;
  r_low : forall x, low_of s' x = if decide (head (f_node <$> rest) = Some x)
    then Nat.min (low_of s x) (low_of s (f_node f)) else low_of s x;
}.

Lemma return_parent s f rest :
  state_ok s -> frames s = f :: rest ->
  exists s', gives cancelled (match f_parent f with
      | None => mret (set_frames rest s)
      | Some parent => k_some (low ← lowlink (set_frames rest s) !! f_node f; lower parent low (set_frames rest s))
      end) (Ok s') /\ returned s f rest s'.
Proof.
  intros Hok Hf. destruct (state_path s f rest Hok Hf) as (Hp&Hnd&_&_&Hu). destruct Hok as [Hinv [_ Hl _ _ _ Hpar]].
  rewrite Hp, Hf, fmap_cons in Hpar. cbn [parents] in Hpar. injection Hpar as Hpar _. rewrite Hpar.
  destruct (lookup_lt_is_Some_2 (lowlink s) (f_node f)) as [l Hlu]; [lia|].
  assert (Hlow : low_of s (f_node f) = l) by (unfold low_of; by rewrite Hlu).
  destruct rest as [|h rest]; cbn [head fmap list_fmap].
  { exists (set_frames [] s). split; [apply gives_ret|done]. }
  destruct (lower_spec (set_frames (h :: rest) s) (f_node h) l) as (s'&Hs'&E1&E2&E3&E4&E5&E6&E7&E8&Hx); [done| |].
  { assert (Hin : f_node h ∈ path_of s) by (rewrite Hp, fmap_cons; right; left).
    destruct (path_seen _ _ _ _ _ _ _ _ _ _ Hinv _ Hin) as [d Hd].
    by apply (i_range _ _ _ _ _ _ _ _ _ _ Hinv) in Hd as [? _]. }
  exists s'. split; [|split; try done].
  - cbn [lowlink set_frames]. rewrite Hlu. cbn [mbind option_bind]. rewrite Hs'. apply gives_some.
  - intros x. rewrite Hx, Hlow. destruct (decide (x = f_node h)) as [->|Hne].
    + by rewrite decide_True.
    + rewrite decide_False; [done|]. by intros [= <-].
Qed.

Section finish.
Context (s : Tarjan) (f : DfsFrame) (rest : list DfsFrame) (s2 : Tarjan)
  (Hok : state_ok s) (Hf : frames s = f :: rest)
  (Hend : row_at rows (f_node f) !! next_neighbor f = None) (Hret : returned s f rest s2).

Lemma finish_inv : search_inv ids rows (disc_of s) (low_of s) (component_stack s) (f_node f :: (f_node <$> rest))
  (scanned_of (f :: rest)) (label_of s) (next_discovery s) (component_count s).
Proof. destruct Hok as [Hinv _]. unfold state_inv in Hinv. rewrite Hf in Hinv. by rewrite (proj1 (state_path s f rest Hok Hf)) in Hinv. Qed.

Lemma finish_done e : e ∈ row_at rows (f_node f) -> scanned_of (f :: rest) (f_node f) e.
Proof.
  intros He. left. exists f. split_and!; [left|done|]. apply lookup_ge_None in Hend. by rewrite take_ge.
Qed.

Lemma finish_scanned x e : is_Some (disc_of s x) -> scanned_of rest x e <-> scanned_of (f :: rest) x e.
Proof. intros _. apply scanned_pop; [done|]. by apply (state_path s f rest). Qed.

Lemma finish_low : lowlink s2 !! f_node f = Some (low_of s (f_node f)).
Proof.
  destruct (state_path s f rest Hok Hf) as (_&Hnd&_&_&Hu). rewrite fmap_cons in Hnd. apply NoDup_cons in Hnd as [Hn _].
  assert (Hlow : low_of s2 (f_node f) = low_of s (f_node f)).
  { rewrite (r_low _ _ _ _ Hret), decide_False; [done|]. intros H. apply Hn. clear -H.
    destruct rest as [|h rest']; [done|]. injection H as <-. left. }
  rewrite <-Hlow. destruct (lookup_lt_is_Some_2 (lowlink s2) (f_node f)) as [l Hl]; [by rewrite (r_length _ _ _ _ Hret)|].
  unfold low_of. by rewrite Hl.
Qed.

Lemma finish_parents : f_parent <$> rest = parents (f_node <$> rest).
Proof.
  pose proof (ok_parents _ (ok_arrays _ Hok)) as Hpar. rewrite Hf in Hpar.
  rewrite (proj1 (state_path s f rest Hok Hf)), fmap_cons in Hpar. cbn [parents] in Hpar. by injection Hpar.
Qed.

Lemma finish_measure s' : discovery s' = discovery s -> frames s' = rest -> (measure s' < measure s)%nat /\ extends s s'.
Proof.
  intros H1 H2. split; [|intros x; unfold disc_of; by rewrite H1].
  unfold measure. rewrite H1, H2, Hf, fmap_cons. unfold left_over at 2.
  change (sum_list (?a :: ?l)) with (a + sum_list l)%nat. lia.
Qed.

Lemma return_ok : disc_of s (f_node f) <> Some (low_of s (f_node f)) -> state_ok s2.
Proof.
  intros Hroot. destruct Hret as [E1 E2 E3 E4 E5 E6 E7 E8 Hlow]. split.
  - unfold state_inv, path_of, disc_of, label_of. rewrite E1, E3, E4, E5, E6, E7.
    exact (return_inv ids rows _ _ _ _ _ _ _ _ _ finish_inv finish_done _ _ Hlow finish_scanned Hroot).
  - destruct Hok as [_ [Hl1 Hl2 Hl3 Hl4 Hon _]]. split; rewrite ?E1, ?E2, ?E3, ?E4, ?E5; try done.
    unfold path_of. rewrite E4. apply finish_parents.
Qed.

Lemma close_ok above stack' on' raw' :
  disc_of s (f_node f) = Some (low_of s (f_node f)) -> component_stack s = above ++ f_node f :: stack' ->
  length on' = length ids -> length raw' = length ids ->
  (forall x, on' !! x = (if decide (x ∈ above ++ [f_node f]) then Some false else on_stack s !! x) /\
     raw' !! x = (if decide (x ∈ above ++ [f_node f]) then Some (Z.of_nat (component_count s)) else raw_labels s !! x)) ->
  state_ok {| discovery := discovery s2; lowlink := lowlink s2; on_stack := on'; component_stack := stack';
              frames := frames s2; raw_labels := raw'; next_discovery := next_discovery s2;
              component_count := S (component_count s) |}.
Proof.
  intros Hroot Hst Hlo Hlr Hx. destruct Hret as [E1 E2 E3 E4 E5 E6 E7 E8 Hlow]. pose proof finish_inv as Hinv. split.
  - unfold state_inv, path_of, disc_of, label_of. cbn [discovery lowlink component_stack frames raw_labels next_discovery component_count].
    rewrite E1, E4, E6.
    eapply (close_inv ids rows ids_nodup _ _ _ _ _ _ _ _ _ Hinv finish_done _ _ Hlow finish_scanned _ _ _ Hroot Hst).
    intros x. rewrite (proj2 (Hx x)). destruct (decide _); [|done]. cbn [mbind option_bind].
    rewrite decide_True; [by rewrite Nat2Z.id|]. pose proof (next_bound s _ (ok_inv _ Hok)).
    pose proof (i_count _ _ _ _ _ _ _ _ _ _ Hinv). pose proof (ids_count _ Hids). unfold u64_max, u32_max in *. lia.
  - destruct Hok as [_ [Hl1 Hl2 Hl3 Hl4 Hon _]].
    split; cbn [discovery lowlink on_stack raw_labels frames component_stack]; rewrite ?E1, ?E4; try done.
    + intros x b Hb. rewrite (proj1 (Hx x)) in Hb. rewrite (rest_open ids rows _ _ _ _ _ _ _ _ _ Hinv above stack' Hroot Hst).
      destruct (decide (x ∈ above ++ [f_node f])) as [H|H].
      * injection Hb as <-. split; [done|tauto].
      * rewrite (Hon x b Hb). tauto.
    + apply finish_parents.
Qed.
End finish.

Lemma finish_spec s f rest :
  state_ok s -> frames s = f :: rest -> row_at rows (f_node f) !! next_neighbor f = None ->
  exists s', gives cancelled (finish f (set_frames rest s)) (Ok s') /\ state_ok s' /\
    (measure s' < measure s)%nat /\ extends s s'.
Proof.
  intros Hok Hf Hend. destruct (state_path s f rest Hok Hf) as (_&_&Hus&[d Hd]&_).
  destruct (return_parent s f rest Hok Hf) as (s2&Hrun&Hret). pose proof Hret as [E1 E2 E3 E4 E5 E6 E7 _ _].
  pose proof (finish_low s f rest s2 Hok Hf Hret) as Hlow. pose proof (finish_inv s f rest Hok Hf) as Hinv.
  assert (Hd2 : mjoin (discovery s2 !! f_node f) = Some d) by (by rewrite E1).
  unfold finish. destruct (decide (d = low_of s (f_node f))) as [Hroot|Hroot].
  - destruct (list_elem_of_split _ _ Hus) as (above&stack'&Hst).
    pose proof (later_NoDup _ _ (i_stack _ _ _ _ _ _ _ _ _ _ Hinv)) as Hnds. rewrite Hst in Hnds.
    destruct (ok_arrays _ Hok) as [_ _ Hl3 Hl4 _ _].
    destruct (close_component_spec (f_node f) (component_count s) above stack' (on_stack s) (raw_labels s))
      as (on'&raw'&Hclose&Hlo&Hlr&Hx); [|apply Forall_forall|done|done|].
    { apply NoDup_app in Hnds as (_&Hdis&_). intros H%Hdis. apply H. left. }
    { intros x Hx. assert (Hxs : x ∈ component_stack s) by (rewrite Hst, !elem_of_app, elem_of_cons in *; set_solver).
      destruct (open_seen _ _ _ _ _ _ _ _ _ _ Hinv x Hxs) as [dx Hdx].
      by apply (i_range _ _ _ _ _ _ _ _ _ _ Hinv) in Hdx as [? _]. }
    eexists. split_and!; [|eapply (close_ok s f rest s2 Hok Hf Hend Hret above stack' on' raw'); [by rewrite <-Hroot|done..]|
      by apply (finish_measure s f rest Hf)..].
    gives_step. rewrite Hlow. gives_step. rewrite Hd2. gives_step. rewrite <-Hroot, Nat.eqb_refl.
    rewrite E2, E3, E5, E7, Hst. gives_step. rewrite checked_succ_small; [repeat gives_step|].
    pose proof (i_count _ _ _ _ _ _ _ _ _ _ Hinv). pose proof (next_bound s _ (ok_inv _ Hok)). lia.
  - exists s2. split_and!; [|eapply (return_ok s f rest s2 Hok Hf Hend Hret); congruence|by apply (finish_measure s f rest Hf)..].
    gives_step. rewrite Hlow. gives_step. rewrite Hd2. gives_step.
    rewrite (proj2 (Nat.eqb_neq _ _)) by congruence. apply gives_ret.
Qed.

Lemma tarjan_loop_spec fuel s work :
  state_ok s -> (measure s < fuel)%nat ->
  (~ closed ids rows /\ gives cancelled (tarjan_loop cancelled g ids (node_ordinals ids) fuel s work) (Err unselected)) \/
  (exists s' work', gives cancelled (tarjan_loop cancelled g ids (node_ordinals ids) fuel s work) (Ok (s', work')) /\
     state_ok s' /\ frames s' = [] /\ extends s s').
Proof.
  revert s work. induction fuel as [|fuel IH]; intros s work Hok Hm; [lia|]. cbn [tarjan_loop].
  destruct (frames s) as [|f rest] eqn:Hf.
  { right. exists s, work. split_and!; [apply gives_ret|done|done|by intros x]. }
  destruct (state_path s f rest Hok Hf) as (_&_&_&_&Hu).
  destruct (lookup_lt_is_Some_2 ids (f_node f) Hu) as [id Hid]. pose proof (ids_ok_range _ _ _ Hids Hid) as [H0 _].
  pose proof (row_at_lookup (f_node f) Hu) as Hrow.
  pose proof (graph_neighbors (g := g) (f_node f) id _ H0 Hid Hrow) as Hn.
  assert (Hstep : (~ closed ids rows /\ gives cancelled
      (match row_at rows (f_node f) !! next_neighbor f with
       | Some edge => look (node_ordinals ids) (f_node f) edge (set_frames (bump f :: rest) s)
       | None => finish f (set_frames rest s) end) (Err unselected)) \/
    exists s', gives cancelled (match row_at rows (f_node f) !! next_neighbor f with
       | Some edge => look (node_ordinals ids) (f_node f) edge (set_frames (bump f :: rest) s)
       | None => finish f (set_frames rest s) end) (Ok s') /\
      state_ok s' /\ (measure s' < measure s)%nat /\ extends s s').
  { destruct (row_at rows (f_node f) !! next_neighbor f) as [edge|] eqn:He; [|right; by apply finish_spec].
    destruct (look_spec s f rest edge Hok Hf He) as [[Hne Herr]|H]; [left|by right]. split; [|done].
    intros Hc. apply Hne, (Hc (row_at rows (f_node f))); by eapply list_elem_of_lookup_2. }
  destruct Hstep as [[Hc Herr]|(s'&Hs'&Hok'&Hm'&Hext)].
  - left. split; [done|]. gives_step. rewrite Hid. gives_step. rewrite Hn. gives_step. apply gives_bind_err. exact Herr.
  - destruct (IH s' (saturating_add work 1) Hok' ltac:(lia)) as [[Hc Herr]|(s''&w''&Hrun&Hok''&Hf''&Hext')].
    + left. split; [done|]. gives_step. rewrite Hid. gives_step. rewrite Hn. gives_step. eapply gives_bind; [exact Hs'|exact Herr].
    + right. exists s'', w''. split_and!; [|done|done|intros x Hx; by apply Hext', Hext].
      gives_step. rewrite Hid. gives_step. rewrite Hn. gives_step. eapply gives_bind; [exact Hs'|exact Hrun].
Qed.

Lemma white_bound discovery : (white discovery <= length rows + length (concat rows))%nat.
Proof.
  unfold white. clear. revert discovery. induction rows as [|row rows' IH]; intros [|o discovery]; try (cbn; lia).
  specialize (IH discovery). cbn [zip_with concat length]. rewrite length_app.
  change (sum_list (?a :: ?l)) with (a + sum_list l)%nat. destruct o; lia.
Qed.

Lemma tarjan_roots_spec s work roots :
  state_ok s -> frames s = [] -> Forall (fun x => (x < length ids)%nat) roots ->
  let fuel := S (length ids + length (neighbors (topology g))) in
  (~ closed ids rows /\ gives cancelled (tarjan_roots cancelled g ids (node_ordinals ids) fuel s work roots) (Err unselected)) \/
  (exists s' work', gives cancelled (tarjan_roots cancelled g ids (node_ordinals ids) fuel s work roots) (Ok (s', work')) /\
     state_ok s' /\ frames s' = [] /\ extends s s' /\ forall x, x ∈ roots -> is_Some (disc_of s' x)).
Proof.
  cbn zeta. intros Hok Hf Hr. revert s work Hok Hf. induction Hr as [|x roots Hx Hr IH]; intros s work Hok Hf; cbn [tarjan_roots].
  { right. exists s, work. split_and!; [apply gives_ret|done|done|by intros x|by intros x ?%not_elem_of_nil]. }
  destruct (lookup_lt_is_Some_2 (discovery s) x) as [o Ho]; [by rewrite (ok_discovery _ (ok_arrays _ Hok))|].
  assert (Hdx : disc_of s x = o) by (unfold disc_of; by rewrite Ho). rewrite Ho. destruct o as [d|].
  { destruct (IH s work Hok Hf) as [[Hc Herr]|(s'&w'&Hrun&Hok'&Hf'&Hext&Hall)].
    - left. split; [done|]. gives_step. exact Herr.
    - right. exists s', w'. split_and!; [gives_step; exact Hrun|done..|].
      intros y [->|Hy]%elem_of_cons; [apply Hext; by eexists|by apply Hall]. }
  assert (Hpath : path_of s = []) by (unfold path_of; by rewrite Hf).
  destruct (discover_spec s x (scanned_of (frames s))) as (s1&Hd&Hok1&Hf1&Hd1);
    [apply Hok|apply Hok|done|done|by rewrite Hpath|done|by left|]. rewrite Hpath in Hd.
  assert (Hm1 : (measure s1 < S (length ids + length (neighbors (topology g))))%nat).
  { pose proof (white_insert s x (next_discovery s) Hx (ok_discovery _ (ok_arrays _ Hok)) Hdx) as Hw.
    pose proof (white_bound (discovery s)). unfold measure. rewrite Hf1, Hd1, Hf. cbn. unfold left_over. cbn.
    rewrite (go_neighbors (g := g)), <-(go_rows (g := g)). lia. }
  destruct (tarjan_loop_spec _ s1 work Hok1 Hm1) as [[Hc Herr]|(s2&w2&Hrun2&Hok2&Hf2&Hext2)].
  { left. split; [done|]. gives_step. eapply gives_bind; [exact Hd|]. apply gives_bind_err. exact Herr. }
  destruct (IH s2 w2 Hok2 Hf2) as [[Hc Herr]|(s'&w'&Hrun&Hok'&Hf'&Hext&Hall)].
  - left. split; [done|]. gives_step. eapply gives_bind; [exact Hd|]. eapply gives_bind; [exact Hrun2|exact Herr].
  - right. exists s', w'. split_and!; [|done|done| |].
    + gives_step. eapply gives_bind; [exact Hd|]. eapply gives_bind; [exact Hrun2|exact Hrun].
    + intros y Hy. apply Hext, Hext2. unfold disc_of. rewrite Hd1, disc_of_insert by (by rewrite (ok_discovery _ (ok_arrays _ Hok))).
      destruct (decide (y = x)); [by eexists|done].
    + intros y [->|Hy]%elem_of_cons; [|by apply Hall]. apply Hext, Hext2. unfold disc_of.
      rewrite Hd1, disc_of_insert, decide_True by (done || by rewrite (ok_discovery _ (ok_arrays _ Hok))). by eexists.
Qed.

Definition start : Tarjan :=
  {| discovery := replicate (length ids) None; lowlink := replicate (length ids) 0%nat;
     on_stack := replicate (length ids) false; component_stack := []; frames := [];
     raw_labels := replicate (length ids) u64_max; next_discovery := 0; component_count := 0 |}.

Lemma start_state : state_ok start.
Proof.
  assert (Hd : forall x, disc_of start x = None).
  { intros x. unfold disc_of. cbn. destruct (replicate _ _ !! x) as [o|] eqn:E; [|done].
    by apply lookup_replicate_1 in E as [-> _]. }
  assert (Hl : forall x, label_of start x = None).
  { intros x. unfold label_of. cbn [start raw_labels]. destruct (replicate _ _ !! x) as [o|] eqn:E; [|done].
    by apply lookup_replicate_1 in E as [-> _]. }
  split.
  - split.
    + intros x d H. by rewrite Hd in H.
    + intros x y d H. by rewrite Hd in H.
    + exists []. split_and!; [constructor|done|by intros x ?%not_elem_of_nil].
    + intros x. rewrite Hd, Hl. split; [by intros []|]. by intros [?%not_elem_of_nil|[]].
    + by intros x ?%not_elem_of_nil.
    + constructor.
    + constructor.
    + by intros x ?%not_elem_of_nil.
    + intros x e H. rewrite Hd in H. by destruct H.
    + intros x e H. rewrite Hd in H. by destruct H.
    + intros x y H. rewrite Hl in H. by destruct H.
    + by intros x ?%not_elem_of_nil.
    + by intros x y ?%not_elem_of_nil.
    + by intros x ?%not_elem_of_nil.
    + done.
    + intros x y a b H. by rewrite Hl in H.
    + intros x c H. by rewrite Hl in H.
    + done.
  - split; cbn [start discovery lowlink on_stack raw_labels component_stack]; rewrite ?length_replicate; try done.
    intros x b [-> _]%lookup_replicate_1. split; [done|by intros ?%not_elem_of_nil].
Qed.

(** At the end every component is closed. *)
Lemma finished s : state_ok s -> frames s = [] -> (forall x, (x < length ids)%nat -> is_Some (disc_of s x)) ->
  closed ids rows /\ (component_count s <= length ids)%nat /\
  (forall x, (x < length ids)%nat -> exists c, raw_labels s !! x = Some (Z.of_nat c) /\ (c < component_count s)%nat) /\
  (forall x y a b, raw_labels s !! x = Some a -> raw_labels s !! y = Some b ->
     a = b <-> rtc (arc ids rows) x y /\ rtc (arc ids rows) y x).
Proof.
  intros [Hinv Harr] Hf Hall. pose proof (next_bound _ _ Hinv) as Hnext. unfold state_inv, path_of in Hinv. rewrite Hf in Hinv.
  assert (Hlab : forall x, (x < length ids)%nat -> exists c, raw_labels s !! x = Some (Z.of_nat c) /\
    (c < component_count s)%nat /\ label_of s x = Some c).
  { intros x Hx. destruct (proj1 (i_seen _ _ _ _ _ _ _ _ _ _ Hinv x) (Hall x Hx)) as [Hs|[c Hc]].
    - destruct (i_up _ _ _ _ _ _ _ _ _ _ Hinv x Hs) as (h&Hh&_). by apply not_elem_of_nil in Hh.
    - exists c. split_and!; [|by eapply i_label_range|done]. unfold label_of in Hc.
      destruct (raw_labels s !! x) as [z|] eqn:Ez; [|done]. cbn in Hc. destruct (decide (0 <= z < u64_max)); [|done].
      injection Hc as <-. f_equal. lia. }
  split_and!.
  - intros row e (x&Hx)%list_elem_of_lookup He. assert (Hlt : (x < length ids)%nat).
    { rewrite <-(go_rows (g := g)). by eapply lookup_lt_Some. }
    destruct (i_scanned _ _ _ _ _ _ _ _ _ _ Hinv x e (Hall x Hlt)) as (y&Hy&_); [|by eapply list_elem_of_lookup_2].
    apply (i_full _ _ _ _ _ _ _ _ _ _ Hinv); [by apply Hall|by apply not_elem_of_nil|]. unfold row_at. by rewrite Hx.
  - pose proof (i_count _ _ _ _ _ _ _ _ _ _ Hinv). lia.
  - intros x Hx. destruct (Hlab x Hx) as (c&H1&H2&_). by exists c.
  - intros x y a b Ha Hb. pose proof (lookup_lt_Some _ _ _ Ha) as Hx. pose proof (lookup_lt_Some _ _ _ Hb) as Hy.
    rewrite (ok_raw _ Harr) in Hx, Hy. destruct (Hlab x Hx) as (c&H1&_&H2), (Hlab y Hy) as (c'&H1'&_&H2').
    rewrite <-(i_labels _ _ _ _ _ _ _ _ _ _ Hinv x y c c' H2 H2'). simplify_eq. lia.
Qed.
End run.

(** ** Labels in the order of their first occurrence *)

Section relabel.
Context (cancelled : nat -> bool) (count limit : nat) (Hlimit : Z.of_nat limit <= u32_max).

(** The labels given so far to [raw], and where the table holds them. *)
Record relabelled (raw labels canonical : list Z) (next : nat) : Prop := {
  rl_length : length labels = length raw;
  rl_table : length canonical = count;
  rl_given : forall i a k, raw !! i = Some a -> labels !! i = Some k ->
    canonical !! Z.to_nat a = Some k /\ 0 <= k < Z.of_nat next;
  rl_unused : forall c k, canonical !! c = Some k -> k = u64_max \/ 0 <= k < Z.of_nat next;
  rl_inj : forall c c' k, canonical !! c = Some k -> canonical !! c' = Some k -> k <> u64_max -> c = c';
  rl_growth : forall i k, labels !! i = Some k -> 0 < k -> exists j, (j < i)%nat /\ labels !! j = Some (k - 1);
  rl_used : forall k, 0 <= k < Z.of_nat next -> exists i, labels !! i = Some k;
  rl_next : (next <= length raw)%nat;
}.

Lemma relabelled_new raw labels canonical next a :
  relabelled raw labels canonical next -> (next <= limit)%nat -> canonical !! Z.to_nat a = Some u64_max ->
  relabelled (raw ++ [a]) (labels ++ [Z.of_nat next]) (<[Z.to_nat a := Z.of_nat next]> canonical) (S next).
Proof.
  intros [Hlen Ht Hg Hu Hi Hgr Hused Hn] Hl Ha.
  assert (Hsmall : Z.of_nat next < u64_max) by (unfold u64_max, u32_max in *; lia).
  assert (Hfresh : forall c k, canonical !! c = Some k -> k <> Z.of_nat next).
  { intros c k Hc%Hu ->. lia. }
  split; rewrite ?length_app, ?length_insert; cbn [length]; [lia|done| | | | | |lia].
  - intros i b k Hb Hk. apply lookup_app_Some in Hb as [Hb|[Hge Hb]].
    + rewrite lookup_app_l in Hk by (rewrite Hlen; by eapply lookup_lt_Some). destruct (Hg i b k Hb Hk) as [Hc Hr].
      rewrite list_lookup_insert_ne; [split; [done|lia]|]. intros Heq. rewrite <-Heq, Ha in Hc. simplify_eq. lia.
    + rewrite lookup_app_r, Hlen in Hk by lia. apply list_lookup_singleton_Some in Hb as [_ <-], Hk as [_ <-].
      rewrite list_lookup_insert_eq by (by eapply lookup_lt_Some). split; [done|lia].
  - intros c k Hc. apply list_lookup_insert_Some in Hc as [(_&<-&_)|(_&Hc)]; [right; lia|].
    destruct (Hu c k Hc); [by left|right; lia].
  - intros c c' k Hc Hc' Hk. apply list_lookup_insert_Some in Hc as [(<-&<-&_)|(_&Hc)],
      Hc' as [(<-&Heq&_)|(_&Hc')]; [done|by apply Hfresh in Hc'|subst k; by apply Hfresh in Hc|by eapply Hi].
  - intros i k Hk Hpos. apply lookup_app_Some in Hk as [Hk|[Hge Hk]].
    + destruct (Hgr i k Hk Hpos) as (j&Hj&Hjk). exists j. split; [done|]. by apply lookup_app_l_Some.
    + apply list_lookup_singleton_Some in Hk as [_ <-]. destruct (Hused (Z.of_nat next - 1)) as [j Hj]; [lia|].
      exists j. split; [apply lookup_lt_Some in Hj; lia|]. by apply lookup_app_l_Some.
  - intros k Hk. destruct (decide (k = Z.of_nat next)) as [->|Hne].
    + exists (length labels). rewrite lookup_app_r by lia. by rewrite Nat.sub_diag.
    + destruct (Hused k) as [i Hi']; [lia|]. exists i. by apply lookup_app_l_Some.
Qed.

Lemma relabelled_old raw labels canonical next a k :
  relabelled raw labels canonical next -> canonical !! Z.to_nat a = Some k -> k <> u64_max ->
  relabelled (raw ++ [a]) (labels ++ [k]) canonical next.
Proof.
  intros [Hlen Ht Hg Hu Hi Hgr Hused Hn] Ha Hk. destruct (Hu _ _ Ha) as [|Hr]; [done|].
  split; rewrite ?length_app; cbn [length]; [lia|done| |done|done| | |lia].
  - intros i b k' Hb Hk'. apply lookup_app_Some in Hb as [Hb|[Hge Hb]].
    + rewrite lookup_app_l in Hk' by (rewrite Hlen; by eapply lookup_lt_Some). by apply (Hg i).
    + rewrite lookup_app_r, Hlen in Hk' by lia. by apply list_lookup_singleton_Some in Hb as [_ <-], Hk' as [_ <-].
  - intros i k' Hk' Hpos. apply lookup_app_Some in Hk' as [Hk'|[Hge Hk']].
    + destruct (Hgr i k' Hk' Hpos) as (j&Hj&Hjk). exists j. split; [done|]. by apply lookup_app_l_Some.
    + apply list_lookup_singleton_Some in Hk' as [_ <-]. destruct (Hused (k - 1)) as [j Hj]; [lia|].
      exists j. split; [apply lookup_lt_Some in Hj; lia|]. by apply lookup_app_l_Some.
  - intros k' [i Hi']%Hused. exists i. by apply lookup_app_l_Some.
Qed.

Lemma relabel_spec done labels0 canonical next raw :
  relabelled done labels0 canonical next -> (length done + length raw <= limit)%nat ->
  Forall (fun a => 0 <= a < Z.of_nat count) raw ->
  exists labels canonical' next', gives cancelled (relabel canonical next raw) (Ok labels) /\
    relabelled (done ++ raw) (labels0 ++ labels) canonical' next'.
Proof.
  intros Hinv Hl Hr. revert done labels0 canonical next Hinv Hl.
  induction Hr as [|a raw Ha Hr IH]; intros done labels0 canonical next Hinv Hl; cbn [relabel].
  { exists [], canonical, next. rewrite !app_nil_r. split; [apply gives_ret|exact Hinv]. }
  cbn [length] in Hl. destruct (lookup_lt_is_Some_2 canonical (Z.to_nat a)) as [k Hk].
  { rewrite (rl_table _ _ _ _ Hinv). lia. }
  assert (Hin : (a <? lenZ canonical) = true) by (apply Z.ltb_lt; rewrite (rl_table _ _ _ _ Hinv); lia).
  pose proof (rl_next _ _ _ _ Hinv) as Hn. destruct (Z.eqb_spec k u64_max) as [->|Hne].
  - destruct (IH (done ++ [a]) (labels0 ++ [Z.of_nat next]) (<[Z.to_nat a := Z.of_nat next]> canonical) (S next))
      as (labels&canonical'&next'&Hrun&Hinv'); [apply relabelled_new; [exact Hinv|lia|exact Hk]|rewrite length_app; cbn; lia|].
    exists (Z.of_nat next :: labels), canonical', next'. rewrite <-!app_assoc in Hinv'. split; [|exact Hinv'].
    rewrite Hin, Hk. gives_step. rewrite Z.eqb_refl. unfold checked_succ.
    destruct (Z.leb_spec (Z.of_nat next + 1) usize_max); [|unfold usize_max, u64_max, u32_max in *; lia].
    gives_step. eapply gives_bind; [exact Hrun|apply gives_ret].
  - destruct (IH (done ++ [a]) (labels0 ++ [k]) canonical next) as (labels&canonical'&next'&Hrun&Hinv');
      [by apply relabelled_old|rewrite length_app; cbn; lia|].
    exists (k :: labels), canonical', next'. rewrite <-!app_assoc in Hinv'. split; [|exact Hinv'].
    rewrite Hin, Hk. gives_step. rewrite (proj2 (Z.eqb_neq _ _) Hne). eapply gives_bind; [exact Hrun|apply gives_ret].
Qed.

Lemma canonical_labels_spec raw :
  length raw = limit -> Forall (fun a => 0 <= a < Z.of_nat count) raw ->
  exists labels, gives cancelled (canonical_labels raw count) (Ok labels) /\ length labels = length raw /\
    (forall i j a b k l, raw !! i = Some a -> raw !! j = Some b -> labels !! i = Some k -> labels !! j = Some l ->
       k = l <-> a = b) /\
    (forall i k, labels !! i = Some k -> 0 <= k /\ (0 < k -> exists j, (j < i)%nat /\ labels !! j = Some (k - 1))).
Proof.
  intros Hlen Hr. destruct (relabel_spec [] [] (replicate count u64_max) 0 raw) as (labels&canonical&next&Hrun&Hinv);
    [|cbn; lia|done|].
  { split; rewrite ?length_replicate; try done.
    - intros c k [-> _]%lookup_replicate_1. by left.
    - by intros c c' k [-> _]%lookup_replicate_1.
    - intros k Hk. lia. }
  cbn [app] in Hinv. destruct Hinv as [Hl _ Hg _ Hi Hgr _ Hn]. exists labels. split_and!; [done|done| |].
  - intros i j a b k l Ha Hb Hk Hl'. destruct (Hg i a k Ha Hk) as [Hca Hka], (Hg j b l Hb Hl') as [Hcb _].
    rewrite Forall_forall in Hr. pose proof (Hr a (list_elem_of_lookup_2 _ _ _ Ha)).
    pose proof (Hr b (list_elem_of_lookup_2 _ _ _ Hb)). split; [|congruence]. intros <-.
    assert (Z.to_nat a = Z.to_nat b); [|lia]. eapply Hi; [done..|]. unfold u64_max, u32_max in *. lia.
  - intros i k Hk. split; [|by apply Hgr]. destruct (lookup_lt_is_Some_2 raw i) as [a Ha].
    { rewrite <-Hl. by eapply lookup_lt_Some. }
    by apply (Hg i a k).
Qed.
End relabel.

(** ** Properties *)

(** C3 Strongly connected components are exact.  On a graph whose entries all lead to nodes, every
    run that is not cancelled returns one label per node: two nodes have the same label exactly
    when each reaches the other, and the labels are consecutive from zero in the order of the
    first member of their component.  On any other graph the run fails with the error for an
    unselected node. *)
Theorem scc_exact cancelled g ids rows :
  GraphOf g ids rows -> ids_ok ids ->
  (closed ids rows -> exists labels,
     gives cancelled (strongly_connected_labels cancelled g) (Ok labels) /\ length labels = length ids /\
     (forall i j a b, labels !! i = Some a -> labels !! j = Some b ->
        a = b <-> rtc (arc ids rows) i j /\ rtc (arc ids rows) j i) /\
     (forall i k, labels !! i = Some k -> 0 <= k /\ (0 < k -> exists j, (j < i)%nat /\ labels !! j = Some (k - 1)))) /\
  (~ closed ids rows -> gives cancelled (strongly_connected_labels cancelled g) (Err unselected)).
Proof.
  intros Hg Hids. unfold strongly_connected_labels. rewrite (graph_node_ids (g := g)). fold (start ids).
  destruct (tarjan_roots_spec cancelled g ids rows Hids (start ids) 0 (seq 0 (length ids)))
    as [[Hc Herr]|(s&w&Hrun&Hok&Hf&_&Hall)]; [by apply start_state|done| | |].
  - apply Forall_forall. intros x Hx%elem_of_seq. lia.
  - split; [done|intros _]. gives_step. by apply gives_bind_err.
  - destruct (finished g ids rows s Hok Hf) as (Hcl&Hcount&Hraw&Hlab).
    { intros x Hx. apply Hall, elem_of_seq. lia. }
    split; [intros _|done]. pose proof (ok_raw _ _ (ok_arrays _ _ _ Hok)) as Hlen.
    destruct (canonical_labels_spec cancelled (component_count s) (length ids) (ids_count _ Hids) (raw_labels s) Hlen)
      as (labels&Hcan&Hl&Heq&Hgr).
    { apply Forall_lookup. intros x a Ha. destruct (Hraw x) as (c&Hc&Hlt); [|simplify_eq; lia].
      rewrite <-Hlen. by eapply lookup_lt_Some. }
    exists labels. split_and!; [|congruence| |done].
    + gives_step. eapply gives_bind; [exact Hrun|exact Hcan].
    + intros i j a b Ha Hb.
      destruct (lookup_lt_is_Some_2 (raw_labels s) i) as [a' Ha']; [rewrite <-Hl; by eapply lookup_lt_Some|].
      destruct (lookup_lt_is_Some_2 (raw_labels s) j) as [b' Hb']; [rewrite <-Hl; by eapply lookup_lt_Some|].
      by rewrite (Heq i j a' b' a b), (Hlab i j a' b').
Qed.

(** The graph of the source's first test. *)
Definition sample_pairs : list (Z * Z) := [(0, 1); (1, 2); (2, 0); (2, 3); (3, 4); (4, 3); (4, 5)].

Lemma scc_exact_witness : exists labels c,
  strongly_connected_labels (fun _ => false) (unit_graph true 6 sample_pairs) new_control = Some (Ok labels, c) /\
  labels = [0; 0; 0; 1; 1; 2] /\
  rtc (arc (Z.of_nat <$> seq 0 6) (entry_rows (Z.of_nat <$> seq 0 6) (unit_entries sample_pairs))) 1%nat 0%nat.
Proof.
  destruct (scc_exact (fun _ => false) (unit_graph true 6 sample_pairs) _ _
    (unit_graph_of true 6 sample_pairs ltac:(repeat constructor; cbn; lia) ltac:(done) ltac:(done))
    (dense_ids_ok 6 ltac:(done))) as [Hok _].
  destruct Hok as (labels&Hrun&_&Hlab&_); [apply is_closed_spec; vm_compute; reflexivity|].
  destruct (Hrun new_control) as [c [E|[_ [k [=]]]]]. exists labels, c. split; [exact E|].
  assert (Hout : match strongly_connected_labels (fun _ => false) (unit_graph true 6 sample_pairs) new_control with
    Some (Ok labels, _) => labels = [0; 0; 0; 1; 1; 2] | _ => False end) by (vm_compute; reflexivity).
  rewrite E in Hout. split; [exact Hout|]. subst labels. by apply (Hlab 1%nat 0%nat 0 0).
Defined.

