(* ===== verification/Utf8.v ===== *)
(** * Decoding UTF-8: [std::str::from_utf8] and the characters of a [str].

    A Rust string that the code cuts, compares and writes as bytes is the list of its bytes here;
    [from_utf8] decides whether bytes are such a string and gives its characters. *)

From stdpp Require Import base list.
From Stdlib Require Import ZArith Lia.
From S2P Require Import Prelude Text.

Definition continuation (b : Z) : bool := (128 <=? b) && (b <=? 191).

(** The second byte of a character of three or four bytes: no overlong form, no surrogate,
    nothing above the last scalar value. *)
Definition second_of_three (b c : Z) : bool :=
  ((b =? 0xE0) && (0xA0 <=? c) && (c <=? 191)) ||
  ((0xE1 <=? b) && (b <=? 0xEC) && continuation c) ||
  ((b =? 0xED) && (128 <=? c) && (c <=? 0x9F)) ||
  ((0xEE <=? b) && (b <=? 0xEF) && continuation c).
Definition second_of_four (b c : Z) : bool :=
  ((b =? 0xF0) && (0x90 <=? c) && (c <=? 191)) ||
  ((0xF1 <=? b) && (b <=? 0xF3) && continuation c) ||
  ((b =? 0xF4) && (128 <=? c) && (c <=? 0x8F)).

Fixpoint from_utf8 (s : list Z) : option (list Z) :=
  match s with
  | [] => Some []
  | b :: s1 =>
      if (0 <=? b) && (b <? 128) then cons b <$> from_utf8 s1
      else
        match s1 with
        | [] => None
        | c1 :: s2 =>
            if (0xC2 <=? b) && (b <=? 0xDF) then
              if continuation c1 then cons ((b - 0xC0) * 64 + (c1 - 128)) <$> from_utf8 s2 else None
            else
              match s2 with
              | [] => None
              | c2 :: s3 =>
                  if second_of_three b c1 then
                    if continuation c2
                    then cons ((b - 0xE0) * 4096 + (c1 - 128) * 64 + (c2 - 128)) <$> from_utf8 s3 else None
                  else
                    match s3 with
                    | [] => None
                    | c3 :: s4 =>
                        if second_of_four b c1 && continuation c2 && continuation c3
                        then cons ((b - 0xF0) * 262144 + (c1 - 128) * 4096 + (c2 - 128) * 64 + (c3 - 128)) <$> from_utf8 s4
                        else None
                    end
              end
        end
  end.

Ltac byte_facts :=
  repeat match goal with
  | H : _ && _ = true |- _ => apply andb_prop in H as [? ?]
  | H : _ || _ = true |- _ => apply orb_prop in H as [H|H]
  | H : _ || _ = false |- _ => apply orb_false_elim in H as [? ?]
  | H : continuation _ = true |- _ => unfold continuation in H
  | H : (_ <=? _) = true |- _ => apply Z.leb_le in H
  | H : (_ <? _) = true |- _ => apply Z.ltb_lt in H
  | H : (_ =? _) = true |- _ => apply Z.eqb_eq in H
  end.

#[local] Ltac Zify.zify_post_hook ::= Z.to_euclidean_division_equations.

Lemma utf8_char_1 c : 0 <= c < 128 -> utf8_char c = [c].
Proof. intros H. unfold utf8_char. by rewrite (proj2 (Z.ltb_lt _ _)) by lia. Qed.

Lemma utf8_char_2 b c1 : 0xC2 <= b <= 0xDF -> 128 <= c1 <= 191 ->
  let c := (b - 0xC0) * 64 + (c1 - 128) in is_scalar c /\ utf8_char c = [b; c1].
Proof.
  intros Hb H1. cbn zeta. unfold is_scalar, utf8_char. split; [lia|].
  rewrite (proj2 (Z.ltb_ge _ _)) by lia. rewrite (proj2 (Z.ltb_lt _ _)) by lia. repeat f_equal; lia.
Qed.

Lemma utf8_char_3 b c1 c2 : second_of_three b c1 = true -> 128 <= c2 <= 191 ->
  let c := (b - 0xE0) * 4096 + (c1 - 128) * 64 + (c2 - 128) in is_scalar c /\ utf8_char c = [b; c1; c2].
Proof.
  intros Hb H2. cbn zeta. assert (Hr : 0xE0 <= b <= 0xEF /\ 128 <= c1 <= 191 /\
    (b = 0xE0 -> 0xA0 <= c1) /\ (b = 0xED -> c1 <= 0x9F)) by (unfold second_of_three in Hb; byte_facts; lia).
  clear Hb. unfold is_scalar, utf8_char. split; [lia|].
  rewrite !(proj2 (Z.ltb_ge _ _)) by lia. rewrite (proj2 (Z.ltb_lt _ _)) by lia. repeat f_equal; lia.
Qed.

Lemma utf8_char_4 b c1 c2 c3 : second_of_four b c1 = true -> 128 <= c2 <= 191 -> 128 <= c3 <= 191 ->
  let c := (b - 0xF0) * 262144 + (c1 - 128) * 4096 + (c2 - 128) * 64 + (c3 - 128) in
  is_scalar c /\ utf8_char c = [b; c1; c2; c3].
Proof.
  intros Hb H2 H3. cbn zeta. assert (Hr : 0xF0 <= b <= 0xF4 /\ 128 <= c1 <= 191 /\
    (b = 0xF0 -> 0x90 <= c1) /\ (b = 0xF4 -> c1 <= 0x8F)) by (unfold second_of_four in Hb; byte_facts; lia).
  clear Hb. unfold is_scalar, utf8_char. split; [lia|].
  rewrite !(proj2 (Z.ltb_ge _ _)) by lia. repeat f_equal; lia.
Qed.

(** What is accepted is the encoding of the characters returned. *)
Lemma from_utf8_sound s cs : from_utf8 s = Some cs -> Forall is_scalar cs /\ utf8 cs = s.
Proof.
  remember (length s) as n eqn:Hn. revert s cs Hn. induction (lt_wf n) as [n _ IH]. intros s cs -> H.
  assert (Hrec : forall c w s' cs', s = w ++ s' -> w <> [] -> is_scalar c -> utf8_char c = w ->
    from_utf8 s' = Some cs' -> cs = c :: cs' -> Forall is_scalar cs /\ utf8 cs = s).
  { intros c w s' cs' -> Hw Hc Hu Hs' ->. destruct (IH (length s')) with (s := s') (cs := cs') as [H1 H2]; [|done|done|].
    - rewrite length_app. destruct w; [done|]. cbn. lia.
    - split; [by constructor|]. unfold utf8 in *. rewrite bind_cons, Hu. by rewrite H2. }
  clear IH. destruct s as [|b s1]; [injection H as <-; by split; [constructor|]|]. cbn [from_utf8] in H.
  destruct ((0 <=? b) && (b <? 128)) eqn:E1; byte_facts.
  { apply fmap_Some in H as (cs'&Hs'&->). eapply (Hrec b [b]); try done; [unfold is_scalar; lia|apply utf8_char_1; lia]. }
  destruct s1 as [|c1 s2]; [done|]. destruct ((0xC2 <=? b) && (b <=? 0xDF)) eqn:E2; byte_facts.
  { destruct (continuation c1) eqn:E3; [|done]. byte_facts. apply fmap_Some in H as (cs'&Hs'&->).
    destruct (utf8_char_2 b c1) as [Hc Hu]; [lia|lia|]. by eapply (Hrec _ [b; c1]). }
  destruct s2 as [|c2 s3]; [done|]. destruct (second_of_three b c1) eqn:E3.
  { destruct (continuation c2) eqn:E4; [|done]. byte_facts. apply fmap_Some in H as (cs'&Hs'&->).
    destruct (utf8_char_3 b c1 c2) as [Hc Hu]; [done|lia|]. by eapply (Hrec _ [b; c1; c2]). }
  destruct s3 as [|c3 s4]; [done|]. destruct (second_of_four b c1) eqn:E4; [|done].
  destruct (continuation c2) eqn:E5; [|done]. destruct (continuation c3) eqn:E6; [|done]. byte_facts.
  apply fmap_Some in H as (cs'&Hs'&->).
  destruct (utf8_char_4 b c1 c2 c3) as [Hc Hu]; [done|lia|lia|]. by eapply (Hrec _ [b; c1; c2; c3]).
Qed.

(** The encoding of a character is read back. *)
Lemma from_utf8_char c s : is_scalar c -> from_utf8 (utf8_char c ++ s) = cons c <$> from_utf8 s.
Proof.
  intros Hc. unfold is_scalar in Hc. unfold utf8_char.
  destruct (Z.ltb_spec c 0x80); [cbn [app from_utf8]; by rewrite (proj2 (Z.leb_le 0 c)), (proj2 (Z.ltb_lt c 128)) by lia|].
  destruct (Z.ltb_spec c 0x800).
  { set (b := 0xC0 + c / 64). set (c1 := 0x80 + c mod 64). cbn [app from_utf8].
    assert (E : (0 <=? b) && (b <? 128) = false) by (apply andb_false_iff; right; apply Z.ltb_ge; lia). rewrite E.
    assert (E2 : (0xC2 <=? b) && (b <=? 0xDF) = true) by (apply andb_true_iff; split; apply Z.leb_le; lia). rewrite E2.
    assert (E3 : continuation c1 = true) by (apply andb_true_iff; split; apply Z.leb_le; lia). rewrite E3.
    repeat f_equal. lia. }
  destruct (Z.ltb_spec c 0x10000).
  { set (b := 0xE0 + c / 4096). set (c1 := 0x80 + c / 64 mod 64). set (c2 := 0x80 + c mod 64). cbn [app from_utf8].
    assert (E : (0 <=? b) && (b <? 128) = false) by (apply andb_false_iff; right; apply Z.ltb_ge; lia). rewrite E.
    assert (E2 : (0xC2 <=? b) && (b <=? 0xDF) = false) by (apply andb_false_iff; right; apply Z.leb_gt; lia). rewrite E2.
    assert (E3 : second_of_three b c1 = true).
    { unfold second_of_three, continuation. rewrite !orb_true_iff, !andb_true_iff, !Z.leb_le, !Z.eqb_eq. lia. }
    rewrite E3. assert (E4 : continuation c2 = true) by (apply andb_true_iff; split; apply Z.leb_le; lia). rewrite E4.
    repeat f_equal. lia. }
  set (b := 0xF0 + c / 262144). set (c1 := 0x80 + c / 4096 mod 64). set (c2 := 0x80 + c / 64 mod 64).
  set (c3 := 0x80 + c mod 64). cbn [app from_utf8].
  assert (E : (0 <=? b) && (b <? 128) = false) by (apply andb_false_iff; right; apply Z.ltb_ge; lia). rewrite E.
  assert (E2 : (0xC2 <=? b) && (b <=? 0xDF) = false) by (apply andb_false_iff; right; apply Z.leb_gt; lia). rewrite E2.
  assert (E3 : second_of_three b c1 = false).
  { apply not_true_is_false. unfold second_of_three, continuation. rewrite !orb_true_iff, !andb_true_iff, !Z.leb_le, !Z.eqb_eq. lia. }
  rewrite E3. assert (E4 : second_of_four b c1 = true).
  { unfold second_of_four, continuation. rewrite !orb_true_iff, !andb_true_iff, !Z.leb_le, !Z.eqb_eq. lia. }
  rewrite E4. assert (E5 : continuation c2 = true) by (apply andb_true_iff; split; apply Z.leb_le; lia).
  assert (E6 : continuation c3 = true) by (apply andb_true_iff; split; apply Z.leb_le; lia). rewrite E5, E6. cbn [andb].
  repeat f_equal. lia.
Qed.

(** Bytes are a string exactly when they encode scalar values, and those are its characters. *)
Lemma from_utf8_iff s cs : from_utf8 s = Some cs <-> Forall is_scalar cs /\ utf8 cs = s.
Proof.
  split; [apply from_utf8_sound|]. intros [Hcs <-]. induction Hcs as [|c cs Hc Hcs IH]; [done|].
  unfold utf8 in *. rewrite bind_cons, from_utf8_char by done. by rewrite IH.
Qed.

(** [text] is a [str]. *)
Definition is_str (text : list Z) : Prop := is_Some (from_utf8 text).
#[global] Instance is_str_dec text : Decision (is_str text) := is_Some_dec _.

Lemma is_str_app s t : is_str s -> is_str t -> is_str (s ++ t).
Proof.
  intros [cs [Hcs <-]%from_utf8_iff] [ds [Hds <-]%from_utf8_iff]. exists (cs ++ ds). apply from_utf8_iff.
  split; [by apply Forall_app|]. unfold utf8. apply bind_app.
Qed.

Lemma is_str_ascii s : Forall (fun b => 0 <= b < 128) s -> is_str s.
Proof.
  induction 1 as [|b s Hb Hs [cs IH]]; [by exists []|]. exists (b :: cs). cbn [from_utf8].
  rewrite (proj2 (Z.leb_le 0 b)), (proj2 (Z.ltb_lt b 128)) by lia. cbn [andb]. by rewrite IH.
Qed.

Lemma utf8_char_bytes c : is_scalar c -> Forall is_byte (utf8_char c).
Proof.
  intros Hc. unfold is_scalar in Hc. unfold utf8_char.
  destruct (Z.ltb_spec c 0x80); [|destruct (Z.ltb_spec c 0x800); [|destruct (Z.ltb_spec c 0x10000)]];
    repeat (apply Forall_cons; split; [unfold is_byte; lia|]); apply Forall_nil_2.
Qed.

Lemma is_str_bytes s : is_str s -> Forall is_byte s.
Proof.
  intros [cs [Hcs <-]%from_utf8_iff]. unfold utf8. apply Forall_bind. eapply Forall_impl; [exact Hcs|]. exact utf8_char_bytes.
Qed.

Lemma utf8_char_ascii d : is_scalar d -> utf8_char d = [d] \/ Forall (fun b => 128 <= b) (utf8_char d).
Proof.
  intros Hd. unfold is_scalar in Hd. unfold utf8_char. destruct (Z.ltb_spec d 0x80); [by left|right].
  destruct (Z.ltb_spec d 0x800); [|destruct (Z.ltb_spec d 0x10000)];
    repeat (apply Forall_cons; split; [lia|]); apply Forall_nil_2.
Qed.

(** A string cut at an ASCII byte is two strings. *)
Lemma is_str_cut a c b : c < 128 -> is_str (a ++ c :: b) -> is_str a /\ is_str b.
Proof.
  intros Hc [cs [Hcs Heq]%from_utf8_iff].
  assert (Hcut : exists cs1 cs2, cs = cs1 ++ c :: cs2 /\ utf8 cs1 = a /\ utf8 cs2 = b).
  { revert a Heq. induction Hcs as [|d cs Hd Hcs IH]; intros a Heq; [by destruct a|].
    unfold utf8 in Heq. rewrite bind_cons in Heq. fold (utf8 cs) in Heq.
    apply app_eq_inv in Heq as [(k&Hk1&Hk2)|(k&->&Hk)].
    - destruct k as [|x k]; cbn in Hk2.
      + rewrite app_nil_r in Hk1. destruct (IH [] (eq_sym Hk2)) as (cs1&cs2&->&H1&H2). exists (d :: cs1), cs2.
        split; [done|]. split; [|done]. unfold utf8 in *. rewrite bind_cons, H1, Hk1. by rewrite app_nil_r.
      + injection Hk2 as <- ->. destruct (utf8_char_ascii d Hd) as [Hd1|Hd1]; rewrite Hk1 in Hd1.
        * destruct a as [|? a]; [|destruct a; discriminate Hd1]. injection Hd1 as -> ->. by exists [], cs.
        * apply Forall_app in Hd1 as [_ Hd1]. inversion Hd1; subst. lia.
    - destruct (IH k Hk) as (cs1&cs2&->&H1&H2). exists (d :: cs1), cs2. split; [done|]. split; [|done].
      unfold utf8 in *. by rewrite bind_cons, H1. }
  destruct Hcut as (cs1&cs2&->&<-&<-). apply Forall_app in Hcs as [H1 [_ H2]%Forall_cons].
  split; [exists cs1|exists cs2]; apply from_utf8_iff; done.
Qed.
