(* ===== verification/Numerals.v ===== *)
(** * Numerals: the decimal and octal text of unsigned integers, as [to_string], [format!] and
    [from_str_radix] of the Rust standard library write and read it.

    Text is the list of its UTF-8 bytes.  The recursion takes one digit per turn and is given
    the bits of the number as fuel. *)

From stdpp Require Import base list.
From Stdlib Require Import ZArith Lia.
From S2P Require Import Prelude.

(** The byte of a digit below [base]. *)
Definition is_digit (base c : Z) : bool := (48 <=? c) && (c <? 48 + base).

Fixpoint numeral (base : Z) (fuel : nat) (n : Z) : list Z :=
  match fuel with
  | O => []
  | S fuel => if n <? base then [48 + n] else numeral base fuel (n / base) ++ [48 + n mod base]
  end.

(** [n.to_string()] in base ten, [format!("{n:o}")] in base eight. *)
Definition to_radix (base n : Z) : list Z := numeral base (S (Z.to_nat (Z.log2 n))) n.

Definition digits_value (base : Z) (s : list Z) : Z := foldl (fun acc c => acc * base + (c - 48)) 0 s.

(** [from_str_radix] of an unsigned type with the largest value [max]: an optional plus sign,
    then at least one digit and nothing else. *)
Definition from_str_radix (base max : Z) (s : list Z) : option Z :=
  let digits := match s with 43 :: ((_ :: _) as rest) => rest | _ => s end in
  match digits with
  | [] => None
  | _ :: _ =>
      if forallb (is_digit base) digits then
        let value := digits_value base digits in
        if value <=? max then Some value else None
      else None
  end.

Lemma digits_value_app base s c : digits_value base (s ++ [c]) = digits_value base s * base + (c - 48).
Proof. unfold digits_value. by rewrite foldl_app. Qed.

Section radix.
Context (base : Z) (Hbase : 2 <= base <= 10).

#[local] Ltac Zify.zify_post_hook ::= Z.to_euclidean_division_equations.

Lemma is_digit_spec c : is_digit base c = true <-> 48 <= c < 48 + base.
Proof. unfold is_digit. rewrite andb_true_iff, Z.leb_le, Z.ltb_lt. done. Qed.

Lemma digit_step n fuel : 0 <= n < 2 ^ Z.of_nat (S fuel) -> base <= n -> 0 <= n / base < 2 ^ Z.of_nat fuel.
Proof.
  rewrite Nat2Z.inj_succ, Z.pow_succ_r by lia. intros Hn Hb. split; [apply Z.div_pos; lia|].
  apply Z.div_lt_upper_bound; [lia|]. nia.
Qed.

Lemma numeral_digits fuel n :
  0 <= n < 2 ^ Z.of_nat fuel -> Forall (fun c => is_digit base c = true) (numeral base fuel n).
Proof.
  revert n. induction fuel as [|fuel IH]; intros n Hn; [constructor|]. cbn [numeral].
  destruct (Z.ltb_spec n base).
  - constructor; [|constructor]. apply is_digit_spec. lia.
  - apply Forall_app. split; [apply IH; by apply digit_step|]. constructor; [|constructor]. apply is_digit_spec.
    pose proof (Z.mod_pos_bound n base). lia.
Qed.

Lemma numeral_value fuel n : 0 <= n < 2 ^ Z.of_nat fuel -> digits_value base (numeral base fuel n) = n.
Proof.
  revert n. induction fuel as [|fuel IH]; intros n Hn; [cbn in *; lia|]. cbn [numeral].
  destruct (Z.ltb_spec n base); [cbn; lia|]. rewrite digits_value_app, IH by (by apply digit_step).
  pose proof (Z.div_mod n base). lia.
Qed.

Lemma numeral_length fuel n k :
  0 <= n < 2 ^ Z.of_nat fuel -> (0 < fuel)%nat -> (1 <= k)%nat ->
  (length (numeral base fuel n) <= k)%nat <-> n < base ^ Z.of_nat k.
Proof.
  revert n k. induction fuel as [|fuel IH]; intros n k Hn Hf Hk; [lia|]. cbn [numeral].
  destruct k as [|k]; [lia|]. rewrite Nat2Z.inj_succ, Z.pow_succ_r by lia.
  assert (Hpos : 0 < base ^ Z.of_nat k) by (apply Z.pow_pos_nonneg; lia).
  destruct (Z.ltb_spec n base); [cbn [length]; split; [nia|lia]|].
  assert (Hf' : (0 < fuel)%nat) by (destruct fuel; [cbn in Hn; lia|lia]).
  rewrite length_app. cbn [length]. destruct k as [|k].
  - cbn [Z.of_nat Z.pow]. rewrite Z.mul_1_r. split; [|lia]. intros Hl.
    destruct (numeral base fuel (n / base)) eqn:E; [|cbn in Hl; lia]. destruct fuel; [lia|]. cbn [numeral] in E.
    destruct (n / base <? base); [done|]. by apply app_nil in E as [_ ?].
  - specialize (IH (n / base) (S k) (digit_step n fuel Hn ltac:(lia)) Hf' ltac:(lia)).
    split; [intros Hl|intros Hl].
    + assert (Hlt : n / base < base ^ Z.of_nat (S k)) by (apply IH; lia). nia.
    + assert (Hlt : n / base < base ^ Z.of_nat (S k)) by (apply Z.div_lt_upper_bound; lia). apply IH in Hlt. lia.
Qed.

Lemma radix_fuel n : 0 <= n -> 0 <= n < 2 ^ Z.of_nat (S (Z.to_nat (Z.log2 n))).
Proof.
  intros Hn. split; [done|]. rewrite Nat2Z.inj_succ, Z2Nat.id by apply Z.log2_nonneg.
  destruct (decide (n = 0)) as [->|]; [done|]. apply Z.log2_spec. lia.
Qed.

Lemma to_radix_digits n : 0 <= n -> Forall (fun c => is_digit base c = true) (to_radix base n).
Proof. intros Hn. by apply numeral_digits, radix_fuel. Qed.

Lemma to_radix_value n : 0 <= n -> digits_value base (to_radix base n) = n.
Proof. intros Hn. by apply numeral_value, radix_fuel. Qed.

Lemma to_radix_length n k : 0 <= n -> (1 <= k)%nat -> (length (to_radix base n) <= k)%nat <-> n < base ^ Z.of_nat k.
Proof. intros Hn Hk. apply numeral_length; [by apply radix_fuel|lia|done]. Qed.

Lemma to_radix_nonempty n : to_radix base n <> [].
Proof. unfold to_radix. cbn [numeral]. destruct (n <? base); [done|]. by intros [_ ?]%app_nil. Qed.

Lemma to_radix_inj n m : 0 <= n -> 0 <= m -> to_radix base n = to_radix base m -> n = m.
Proof. intros Hn Hm H. rewrite <-(to_radix_value n Hn), <-(to_radix_value m Hm). by rewrite H. Qed.

(** Leading zeros do not change the value. *)
Lemma digits_value_zeros k s : digits_value base (replicate k 48 ++ s) = digits_value base s.
Proof. unfold digits_value. rewrite foldl_app. f_equal. induction k as [|k IH]; [done|]. cbn. done. Qed.

(** Text of digits is read as their value, if that is in range. *)
Lemma from_str_radix_digits max s :
  s <> [] -> Forall (fun c => is_digit base c = true) s ->
  from_str_radix base max s = if digits_value base s <=? max then Some (digits_value base s) else None.
Proof.
  intros Hne Hs. destruct s as [|c s]; [done|]. unfold from_str_radix.
  assert (Hc : c <> 43) by (inversion Hs as [|? ? Hc _]; subst; apply is_digit_spec in Hc; lia).
  assert (Hd : match c :: s with 43 :: ((_ :: _) as rest) => rest | _ => c :: s end = c :: s).
  { destruct c as [|p|p]; try done. do 6 (destruct p as [p|p|]; try done). }
  rewrite Hd. rewrite (proj2 (forallb_forall _ _)); [done|].
  intros x Hx%list_elem_of_In. rewrite Forall_forall in Hs. by apply Hs.
Qed.

Lemma digits_value_nonneg s : Forall (fun c => is_digit base c = true) s -> 0 <= digits_value base s.
Proof.
  induction s as [|c s IH] using rev_ind; [done|]. intros [Hs Hc]%Forall_app. inversion Hc as [|? ? Hc' _]; subst.
  apply is_digit_spec in Hc'. rewrite digits_value_app. specialize (IH Hs). nia.
Qed.

Lemma to_radix_read max n : 0 <= n <= max -> from_str_radix base max (to_radix base n) = Some n.
Proof.
  intros Hn. rewrite from_str_radix_digits by (apply to_radix_nonempty || apply to_radix_digits; lia).
  rewrite to_radix_value by lia. by rewrite (proj2 (Z.leb_le _ _)) by lia.
Qed.

Lemma forallb_digits s : forallb (is_digit base) s = true <-> Forall (fun c => is_digit base c = true) s.
Proof. rewrite forallb_forall, Forall_forall. by setoid_rewrite list_elem_of_In. Qed.
End radix.

Example plus_sign_read : from_str_radix 10 255 [43; 52; 50] = Some 42 /\ from_str_radix 10 255 [43] = None.
Proof. done. Qed.
