(* ===== verification/Pax.v ===== *)
(** * PAX records: [crates/graphforge-storage/src/project_portable/pax.rs].

    A [str] is the list of its UTF-8 bytes, since the code cuts it at byte offsets; a cut is
    refused inside a character.  Errors carry their detail; their code is always
    [InvalidStructure].  [None] stands for a loop that has not ended: the loop of [record] is
    given two turns more than the digits of the body's length, and always ends. *)

From stdpp Require Import base list strings.
From Stdlib Require Import ZArith Lia.
From S2P Require Import Prelude Numerals.

Definition USTAR_MAX_ENTRY_BYTES : Z := 8 ^ 11 - 1.

Record PaxHeader := {
  path : list Z;
  size : option Z;
}.

(** Production always uses the width of the field. *)
Definition ustar_size_limit : Z := USTAR_MAX_ENTRY_BYTES.

Definition to_string (n : Z) : list Z := to_radix 10 n.

(** [format!(" {keyword}={value}\n")] *)
Definition record_body (keyword value : list Z) : list Z := [32] ++ keyword ++ [61] ++ value ++ [10].

Fixpoint record_loop (fuel : nat) (body : list Z) (digits : Z) : option (list Z) :=
  match fuel with
  | O => None
  | S fuel =>
      let length := digits + lenZ body in
      let actual_digits := lenZ (to_string length) in
      if actual_digits =? digits then Some (to_string length ++ body)
      else record_loop fuel body actual_digits
  end.

Definition record (keyword value : list Z) : option (list Z) :=
  let body := record_body keyword value in
  record_loop (2 + length (to_string (lenZ body))) body 1.

Definition path_keyword : list Z := bytes_of "path".
Definition size_keyword : list Z := bytes_of "size".

Definition encode (path : list Z) (size : Z) : option (list Z) :=
  data ← record path_keyword path;
  if ustar_size_limit <? size then
    more ← record size_keyword (to_string size);
    Some (data ++ more)
  else Some data.

(** ** Text at byte offsets *)

(** [str::is_char_boundary] at the start of what follows. *)
Definition boundary (rest : list Z) : bool :=
  match rest with
  | [] => true
  | b :: _ => negb ((128 <=? b) && (b <=? 191))
  end.

(** [text.split_at_checked(n)] *)
Definition split_at_checked (text : list Z) (n : Z) : option (list Z * list Z) :=
  if (n <=? lenZ text) && boundary (drop (Z.to_nat n) text)
  then Some (take (Z.to_nat n) text, drop (Z.to_nat n) text) else None.

(** [text.get(n..)] *)
Definition get_from (n : nat) (text : list Z) : option (list Z) := snd <$> split_at_checked text (Z.of_nat n).

(** [text.find(c)] for an ASCII character. *)
Fixpoint find_byte (c : Z) (text : list Z) : option nat :=
  match text with
  | [] => None
  | b :: text' => if b =? c then Some 0%nat else S <$> find_byte c text'
  end.

Definition strip_prefix (p text : list Z) : option (list Z) :=
  if decide (take (length p) text = p) then Some (drop (length p) text) else None.

(** [text.strip_suffix(c)] for an ASCII character. *)
Definition strip_suffix (c : Z) (text : list Z) : option (list Z) :=
  match reverse text with
  | b :: front => if b =? c then Some (reverse front) else None
  | [] => None
  end.

(** ** Reading *)

(** What stands between the keyword and the newline. *)
Definition record_value (record_text keyword : list Z) (space : nat) : option (list Z) :=
  record ← strip_suffix 10 record_text;
  body ← get_from (S space) record;
  body ← strip_prefix keyword body;
  strip_prefix [61] body.

Definition next_record (text keyword : list Z) : option (result string (list Z * list Z)) :=
  match find_byte 32 text with
  | None => Some (Err "PAX record")
  | Some space =>
      let digits := take space text in
      if bool_decide (digits = []) || negb (forallb (is_digit 10) digits) then Some (Err "PAX length")
      else
        match from_str_radix 10 usize_max digits with
        | None => Some (Err "PAX length")
        | Some length =>
            match split_at_checked text length with
            | None => Some (Err "PAX length")
            | Some (record_text, rest) =>
                match record_value record_text keyword space with
                | None => Some (Err "PAX record")
                | Some value =>
                    canonical ← record keyword value;
                    Some (if decide (canonical = record_text) then Ok (value, rest)
                          else Err "non-canonical PAX record")
                end
            end
        end
  end.

(** [value.parse::<u64>().ok().filter(..)] *)
Definition canonical_decimal (value : list Z) : option Z :=
  n ← from_str_radix 10 u64_max value;
  if forallb (is_digit 10) value && bool_decide (to_string n = value) then Some n else None.

Definition parse (text : list Z) : option (result string PaxHeader) :=
  r ← next_record text path_keyword;
  match r with
  | Err e => Some (Err e)
  | Ok (path, []) => Some (Ok {| path := path; size := None |})
  | Ok (path, rest) =>
      r ← next_record rest size_keyword;
      match r with
      | Err e => Some (Err e)
      | Ok (value, []) =>
          Some (match canonical_decimal value with
                | None => Err "PAX size is not a canonical decimal"
                | Some size =>
                    if size <=? ustar_size_limit then Err "PAX size fits the ustar size field"
                    else Ok {| path := path; size := Some size |}
                end)
      | Ok _ => Some (Err "unsupported PAX record")
      end
  end.

Definition entry_size (field : Z) (pax_size : option Z) : result string Z :=
  match pax_size with
  | Some size => if field =? 0 then Ok size else Err "PAX size contradicts the ustar size field"
  | None => if ustar_size_limit <? field then Err "entry size requires a PAX size record" else Ok field
  end.

(** ** Records *)

Lemma digits_mono n m : 0 <= n <= m -> (length (to_string n) <= length (to_string m))%nat.
Proof.
  intros Hn. assert (Hm : to_string m <> []) by (apply (to_radix_nonempty 10)).
  assert (H1 : (1 <= length (to_string m))%nat) by (destruct (to_string m); [done|cbn; lia]).
  apply (to_radix_length 10); [lia|lia|done|]. eapply Z.le_lt_trans; [apply Hn|].
  apply (to_radix_length 10); [lia|lia|done|done].
Qed.

Lemma digits_pos n : 1 <= lenZ (to_string n).
Proof. pose proof (to_radix_nonempty 10 n). unfold to_string. destruct (to_radix 10 n); [done|cbn; lia]. Qed.

(** Adding at most one more than the digits of a number adds at most one digit. *)
Lemma digits_add n d : 0 <= n -> 0 <= d <= lenZ (to_string n) + 1 -> lenZ (to_string (d + n)) <= lenZ (to_string n) + 1.
Proof.
  intros Hn Hd. set (k := length (to_string n)) in *. pose proof (digits_pos n) as Hk. fold k in Hk.
  assert (Hlt : n < 10 ^ Z.of_nat k) by (apply (to_radix_length 10); [lia|done|lia|done]).
  assert (length (to_string (d + n)) <= S k)%nat; [|lia]. apply (to_radix_length 10); [lia|lia|lia|].
  rewrite Nat2Z.inj_succ, Z.pow_succ_r by lia.
  assert (Z.of_nat k < 10 ^ Z.of_nat k) by (apply Z.pow_gt_lin_r; lia). lia.
Qed.

Lemma record_loop_spec fuel body d :
  1 <= d <= lenZ (to_string (d + lenZ body)) -> d <= lenZ (to_string (lenZ body)) + 1 ->
  lenZ (to_string (lenZ body)) + 1 - d < Z.of_nat fuel ->
  exists r, record_loop fuel body d = Some r /\ r = to_string (lenZ r) ++ body /\
    lenZ r <= lenZ body + lenZ (to_string (lenZ body)) + 1.
Proof.
  revert d. induction fuel as [|fuel IH]; intros d Hd Hmax Hf; [lia|]. cbn [record_loop].
  pose proof (digits_add (lenZ body) d ltac:(lia) ltac:(lia)) as Hadd.
  destruct (Z.eqb_spec (lenZ (to_string (d + lenZ body))) d) as [Heq|Hne].
  - eexists. split; [done|]. rewrite length_app. split; [f_equal; f_equal; lia|lia].
  - apply IH; [|lia|lia]. split; [lia|]. apply Nat2Z.inj_le, digits_mono. lia.
Qed.

Lemma record_bound keyword value :
  exists r, record keyword value = Some r /\ r = to_string (lenZ r) ++ record_body keyword value /\
    lenZ r <= lenZ (record_body keyword value) + lenZ (to_string (lenZ (record_body keyword value))) + 1.
Proof.
  apply record_loop_spec.
  - split; [lia|]. apply digits_pos.
  - pose proof (digits_pos (lenZ (record_body keyword value))). lia.
  - lia.
Qed.

Lemma record_spec keyword value :
  exists r, record keyword value = Some r /\ r = to_string (lenZ r) ++ record_body keyword value.
Proof. destruct (record_bound keyword value) as (r&?&?&_). eauto. Qed.

Lemma find_byte_app c s t : Forall (fun b => b <> c) s -> find_byte c (s ++ c :: t) = Some (length s).
Proof.
  induction 1 as [|b s Hb Hs IH]; cbn; [by rewrite Z.eqb_refl|].
  rewrite (proj2 (Z.eqb_neq _ _)) by done. by rewrite IH.
Qed.

Lemma strip_suffix_app c s : strip_suffix c (s ++ [c]) = Some s.
Proof. unfold strip_suffix. rewrite reverse_snoc, Z.eqb_refl. by rewrite reverse_involutive. Qed.

Lemma strip_prefix_app p s : strip_prefix p (p ++ s) = Some s.
Proof. unfold strip_prefix. by rewrite take_app_length, drop_app_length, decide_True. Qed.

Lemma split_at_app s t : boundary t = true -> split_at_checked (s ++ t) (lenZ s) = Some (s, t).
Proof.
  intros Hb. unfold split_at_checked. rewrite Nat2Z.id, take_app_length, drop_app_length, Hb, length_app.
  destruct (Z.leb_spec (lenZ s) (Z.of_nat (length s + length t))); [done|lia].
Qed.

(** A record written at the start of a text is read back. *)
Lemma next_record_written keyword value r rest :
  record keyword value = Some r -> lenZ r <= usize_max -> boundary rest = true -> boundary keyword = true -> keyword <> [] ->
  next_record (r ++ rest) keyword = Some (Ok (value, rest)).
Proof.
  intros Hr Hlen Hb Hk Hk0. destruct (record_spec keyword value) as (r'&Hr'&Heq). rewrite Hr in Hr'. injection Hr' as <-.
  pose proof (to_radix_digits 10 ltac:(lia) (lenZ r) ltac:(lia)) as Hd. fold (to_string (lenZ r)) in Hd.
  set (digits := to_string (lenZ r)) in *.
  assert (Hspace : find_byte 32 (r ++ rest) = Some (length digits)).
  { rewrite Heq at 1. unfold record_body. rewrite <-!app_assoc. apply find_byte_app.
    eapply Forall_impl; [exact Hd|]. intros b Hb'. apply is_digit_spec in Hb'; lia. }
  assert (Htake : take (length digits) (r ++ rest) = digits).
  { rewrite Heq at 1. rewrite <-app_assoc. apply take_app_length. }
  unfold next_record. rewrite Hspace, Htake.
  assert (Hne : digits <> []) by apply (to_radix_nonempty 10).
  rewrite bool_decide_eq_false_2 by done.
  rewrite (proj2 (forallb_digits 10 digits) Hd). cbn [orb negb]. unfold digits at 1.
  unfold to_string. rewrite (to_radix_read 10) by lia. rewrite split_at_app by done.
  assert (Hstrip : strip_suffix 10 r = Some (digits ++ [32] ++ keyword ++ [61] ++ value)).
  { rewrite Heq at 1. unfold record_body. rewrite !app_assoc. rewrite <-!app_assoc. rewrite !app_assoc. apply strip_suffix_app. }
  unfold record_value. rewrite Hstrip. cbn [mbind option_bind].
  assert (Hget : get_from (S (length digits)) (digits ++ [32] ++ keyword ++ [61] ++ value) = Some (keyword ++ [61] ++ value)).
  { unfold get_from. replace (digits ++ [32] ++ keyword ++ [61] ++ value) with ((digits ++ [32]) ++ keyword ++ [61] ++ value) by (by rewrite <-app_assoc).
    replace (Z.of_nat (S (length digits))) with (lenZ (digits ++ [32])) by (rewrite length_app; cbn; lia).
    rewrite split_at_app; [done|]. by destruct keyword. }
  rewrite Hget. cbn [mbind option_bind]. rewrite strip_prefix_app. cbn [mbind option_bind]. rewrite strip_prefix_app, Hr. cbn [mbind option_bind].
  by rewrite decide_True.
Qed.

(** Only a written record is accepted. *)
Lemma next_record_canonical text keyword value rest :
  next_record text keyword = Some (Ok (value, rest)) -> boundary rest = true /\
  exists r, record keyword value = Some r /\ text = r ++ rest.
Proof.
  unfold next_record. intros H. repeat (case_match; try discriminate H).
  match goal with H : split_at_checked _ _ = Some _ |- _ => rename H into Hs end.
  destruct (record keyword _) as [r|] eqn:Er; [|done]. cbn in H.
  match type of H with context [decide ?P] => destruct (decide P) as [->|] end; [|done]. injection H as -> ->.
  unfold split_at_checked in Hs. match type of Hs with (if ?c then _ else _) = _ => destruct c eqn:E end; [|done].
  apply andb_prop in E as [_ Hb]. injection Hs as <- <-. split; [done|]. eexists. split; [exact Er|]. by rewrite take_drop.
Qed.

Lemma next_record_total text keyword : is_Some (next_record text keyword).
Proof.
  unfold next_record. repeat case_match; try done. destruct (record_spec keyword l1) as (r&Hr&_).
  rewrite Hr. by eexists.
Qed.

Lemma encode_total p n : is_Some (encode p n).
Proof.
  unfold encode. destruct (record_spec path_keyword p) as (r&Hr&_), (record_spec size_keyword (to_string n)) as (r'&Hr'&_).
  rewrite Hr. cbn [mbind option_bind]. destruct (_ <? _); [rewrite Hr'|]; by eexists.
Qed.

Lemma canonical_decimal_iff value n : canonical_decimal value = Some n <-> 0 <= n <= u64_max /\ value = to_string n.
Proof.
  unfold canonical_decimal. split.
  - destruct (from_str_radix 10 u64_max value) as [m|] eqn:E; [|done]. cbn [mbind option_bind].
    destruct (forallb (is_digit 10) value) eqn:Ed; [|done]. destruct (bool_decide_reflect (to_string m = value)) as [Hm|]; [|done].
    cbn. intros [= <-]. apply forallb_digits in Ed. split; [|done].
    rewrite from_str_radix_digits in E; [|intros ->; by apply (to_radix_nonempty 10 m)|done].
    pose proof (digits_value_nonneg 10 ltac:(lia) value Ed).
    destruct (Z.leb_spec (digits_value 10 value) u64_max); [|done]. by injection E as <-.
  - intros [Hn ->]. unfold to_string. rewrite (to_radix_read 10) by lia. cbn [mbind option_bind].
    rewrite bool_decide_true by done. by rewrite (proj2 (forallb_digits 10 _)) by (apply to_radix_digits; lia).
Qed.

(** What the writer writes is read back. *)
Lemma parse_encode p n text : 0 <= n <= u64_max -> encode p n = Some text -> lenZ text <= usize_max ->
  parse text = Some (Ok {| path := p; size := if ustar_size_limit <? n then Some n else None |}).
Proof.
  intros Hn Henc Hlen. unfold encode in Henc.
  destruct (record_spec path_keyword p) as (r&Hr&_). rewrite Hr in Henc. cbn [mbind option_bind] in Henc. unfold parse.
    destruct (ustar_size_limit <? n) eqn:El.
    + destruct (record_spec size_keyword (to_string n)) as (r'&Hr'&Heq'). rewrite Hr' in Henc. injection Henc as <-.
      rewrite length_app in Hlen.
      assert (Hb : boundary r' = true).
      { rewrite Heq'. pose proof (to_radix_digits 10 ltac:(lia) (lenZ r') ltac:(lia)) as Hd. fold (to_string (lenZ r')) in Hd.
        destruct Hd as [|c s Hc _]; [done|]. apply is_digit_spec in Hc. cbn.
        destruct (Z.leb_spec 128 c); [lia|done]. }
      rewrite (next_record_written path_keyword p r r') by (done || lia). cbn [mbind option_bind].
      destruct r' as [|b r'].
      { symmetry in Heq'. apply app_nil in Heq' as [Heq' _]. by apply to_radix_nonempty in Heq'. }
      rewrite <-(app_nil_r (b :: r')), (next_record_written size_keyword (to_string n) (b :: r') []) by (done || lia).
      cbn [mbind option_bind]. rewrite (proj2 (canonical_decimal_iff _ n)) by done.
      apply Z.ltb_lt in El. rewrite (proj2 (Z.leb_gt _ _)) by lia. done.
    + injection Henc as <-. rewrite <-(app_nil_r r), (next_record_written path_keyword p r []) by (done || lia). done.
Qed.

Lemma parse_total text : is_Some (parse text).
Proof.
  unfold parse. destruct (next_record_total text path_keyword) as [r ->]. cbn [mbind option_bind].
  destruct r as [[p [|b rest]]|e]; [by eexists| |by eexists].
  destruct (next_record_total (b :: rest) size_keyword) as [r ->]. cbn [mbind option_bind].
  destruct r as [[v [|b' rest']]|e]; by eexists.
Qed.

(** Only what the writer writes is read. *)
Lemma parse_sound text h : parse text = Some (Ok h) -> exists n, 0 <= n <= u64_max /\
  encode (path h) n = Some text /\ size h = if ustar_size_limit <? n then Some n else None.
Proof.
  unfold parse. destruct (next_record text path_keyword) as [[[p rest]|e]|] eqn:E1; cbn [mbind option_bind]; [|done|done].
  apply next_record_canonical in E1 as (_&r&Hr&->). destruct rest as [|b rest].
  { intros [= <-]. exists 0. cbn [path size]. unfold encode. rewrite Hr. cbn. split; [done|]. by rewrite app_nil_r. }
  destruct (next_record (b :: rest) size_keyword) as [[[v rest']|e]|] eqn:E2; cbn [mbind option_bind]; [|done|done].
  apply next_record_canonical in E2 as (_&r'&Hr'&->). destruct rest' as [|b' rest']; [|done].
  destruct (canonical_decimal v) as [n|] eqn:Ev; [|done]. apply canonical_decimal_iff in Ev as [Hn ->].
  destruct (Z.leb_spec n ustar_size_limit) as [|Hlt]; [done|]. intros [= <-]. exists n. cbn [path size].
  unfold encode. rewrite Hr. cbn [mbind option_bind]. rewrite (proj2 (Z.ltb_lt _ _) Hlt), Hr'. cbn [mbind option_bind].
  by rewrite app_nil_r.
Qed.

(** The bytes a header needs beside its path. *)
Definition PAX_RECORD_OVERHEAD_BYTES : Z := 64.

Lemma digits_of_u64 n k : 0 <= n < 10 ^ Z.of_nat k -> (1 <= k)%nat -> lenZ (to_string n) <= Z.of_nat k.
Proof. intros Hn Hk. apply Nat2Z.inj_le, (to_radix_length 10); lia. Qed.

(** The overhead that the reader allows is enough for every path and size. *)
Lemma encode_length p n text : 0 <= n <= u64_max -> lenZ p <= usize_max -> encode p n = Some text ->
  lenZ text <= lenZ p + PAX_RECORD_OVERHEAD_BYTES.
Proof.
  intros Hn Hp. assert (H20 : 10 ^ Z.of_nat 20 = 100000000000000000000) by reflexivity.
  assert (H2 : 10 ^ Z.of_nat 2 = 100) by reflexivity. unfold encode, PAX_RECORD_OVERHEAD_BYTES. destruct (record_bound path_keyword p) as (r&->&_&Hr). cbn [mbind option_bind].
  assert (Hbody : lenZ (record_body path_keyword p) = lenZ p + 7) by (unfold record_body; rewrite !length_app; cbn [length path_keyword bytes_of]; cbn; lia).
  rewrite Hbody in Hr.
  pose proof (digits_of_u64 (lenZ p + 7) 20 ltac:(unfold usize_max, u64_max in Hp; lia) ltac:(lia)) as Hd.
  destruct (_ <? _); [|intros [= <-]; lia].
  destruct (record_bound size_keyword (to_string n)) as (r'&->&_&Hr'). cbn [mbind option_bind]. intros [= <-].
  assert (Hbody' : lenZ (record_body size_keyword (to_string n)) = lenZ (to_string n) + 7) by (unfold record_body; rewrite !length_app; cbn; lia).
  rewrite Hbody' in Hr'. pose proof (digits_of_u64 n 20 ltac:(unfold u64_max in Hn; lia) ltac:(lia)) as Hn'.
  pose proof (digits_of_u64 (lenZ (to_string n) + 7) 2 ltac:(lia) ltac:(lia)) as Hd'.
  rewrite length_app. lia.
Qed.

(** ** Properties *)

(** C9 The reader of a PAX header accepts exactly what the writer writes.  On every text the
    parser ends, and it returns a header exactly when the text is the encoding of the header's
    path and of some length of at most 64 bits: the recorded length when there is one, and a
    length the ustar field can carry when there is none. *)
Theorem pax_exact text : lenZ text <= usize_max ->
  is_Some (parse text) /\ forall h, parse text = Some (Ok h) <-> exists n, 0 <= n <= u64_max /\
    encode (path h) n = Some text /\ size h = if ustar_size_limit <? n then Some n else None.
Proof.
  intros Hlen. split; [apply parse_total|]. intros h. split; [apply parse_sound|].
  intros (n&Hn&Henc&Hsize). destruct h as [p sz]. cbn [path size] in *. subst sz. by apply parse_encode.
Qed.

Definition sample_text : list Z := bytes_of "15 path=data/x
19 size=8589934592
".

Lemma pax_exact_witness :
  encode (bytes_of "data/x") 8589934592 = Some sample_text /\
  parse sample_text = Some (Ok {| path := bytes_of "data/x"; size := Some 8589934592 |}).
Proof.
  assert (He : encode (bytes_of "data/x") 8589934592 = Some sample_text) by (vm_compute; reflexivity).
  split; [exact He|]. assert (Hl : lenZ sample_text <= usize_max) by (vm_compute; discriminate).
  destruct (pax_exact sample_text Hl) as [_ Hiff].
  apply (proj2 (Hiff {| path := bytes_of "data/x"; size := Some 8589934592 |})). exists 8589934592.
  split; [unfold u64_max; lia|]. split; [exact He|reflexivity].
Defined.
