(* ===== verification/Portable.v ===== *)
(** * Portable packages: what the writer and the reader of a bundle share.

    The error type and the limits of [crates/graphforge-core/src/portable.rs] and the small
    functions of [crates/graphforge-storage/src/project_portable.rs] that both sides use.  Text is
    the list of its UTF-8 bytes.  [Stuck] stands for a panic and for a loop whose turns have run
    out; the theorems show that neither happens. *)

From stdpp Require Import base list strings.
From Stdlib Require Import ZArith Lia.
From S2P Require Import Prelude Text Utf8.

Inductive PortableErrorCode :=
| Cancelled
| LimitExceeded
| Io
| InvalidStructure
| InvalidPath
| DuplicateEntry
| UnsupportedFuture
| UnsupportedProjectFormat
| Incompatible
| DigestMismatch
| ConcurrentMutation
| UnsupportedFilesystem
| InsufficientSpace.

#[global] Instance PortableErrorCode_eq_dec : EqDecision PortableErrorCode.
Proof. solve_decision. Defined.

(** The members an import fills in for diagnosis are left out. *)
Record PortableError := {
  code : PortableErrorCode;
  entry : option (list Z);
  detail : string;
}.

#[global] Instance PortableError_eq_dec : EqDecision PortableError.
Proof. solve_decision. Defined.

(** [PortableError::new] *)
Definition error_new (c : PortableErrorCode) (d : string) : PortableError :=
  {| code := c; entry := None; detail := d |}.

(** [PortableError::at]: at most 4096 characters of the path are kept. *)
Definition error_at (c : PortableErrorCode) (path : list Z) (d : string) : PortableError :=
  {| code := c; entry := (fun chars => utf8 (take 4096 chars)) <$> from_utf8 path; detail := d |}.

(** ** Outcomes *)

Inductive outcome (A : Type) : Type :=
| Done (a : A)
| Fail (e : PortableError)
| Stuck.
Arguments Done {A} a.
Arguments Fail {A} e.
Arguments Stuck {A}.

#[global] Instance outcome_ret : MRet outcome := fun A a => Done a.
#[global] Instance outcome_bind : MBind outcome := fun A B f m =>
  match m with Done a => f a | Fail e => Fail e | Stuck => Stuck end.

Definition of_result {A} (r : result PortableError A) : outcome A :=
  match r with Ok a => Done a | Err e => Fail e end.

(** [guard?] *)
Definition check (refused : bool) (e : PortableError) : result PortableError unit :=
  if refused then Err e else Ok tt.

Lemma outcome_bind_Done {A B} (m : outcome A) (f : A -> outcome B) b :
  (m ≫= f) = Done b <-> exists a, m = Done a /\ f a = Done b.
Proof. destruct m as [a|e|]; cbn; split; [by eauto|by intros (?&[= ->]&?)|done|by intros (?&?&?)|done|by intros (?&?&?)]. Qed.

Lemma of_result_Done {A} (r : result PortableError A) a : of_result r = Done a <-> r = Ok a.
Proof. destruct r; cbn; split; congruence. Qed.

Lemma check_Ok refused e u : check refused e = Ok u <-> refused = false.
Proof. destruct refused, u; by cbn. Qed.

(** Take an equation [m = Done _] apart into its steps. *)
Ltac inv_outcome :=
  repeat match goal with
  | H : Done _ = Done _ |- _ => injection H as H; try subst
  | H : Fail _ = Done _ |- _ => discriminate H
  | H : Stuck = Done _ |- _ => discriminate H
  | H : (_ ≫= _) = Done _ |- _ => apply outcome_bind_Done in H; destruct H as (?&?&H)
  | H : of_result _ = Done _ |- _ => apply of_result_Done in H
  | H : check _ _ = Ok _ |- _ => apply check_Ok in H
  | u : unit |- _ => destruct u
  end.

(** ** The order of strings: byte by byte *)

Fixpoint bytes_le (a b : list Z) : Prop :=
  match a, b with
  | [], _ => True
  | _ :: _, [] => False
  | x :: a, y :: b => x < y \/ (x = y /\ bytes_le a b)
  end.

#[global] Instance bytes_le_dec : RelDecision bytes_le.
Proof. intros a. induction a as [|x a IH]; intros [|y b]; cbn; try apply _. Defined.

#[global] Instance ord_bytes : Ord (list Z).
Proof.
  refine {| ord_le := bytes_le |}.
  - intros a. induction a as [|x a IH]; cbn; [done|]. by right.
  - intros a. induction a as [|x a IH]; intros [|y b] [|z c]; cbn; try done.
    intros [?|[-> ?]] [?|[-> ?]]; [left; lia|left; lia|left; lia|right]. eauto.
  - intros a. induction a as [|x a IH]; intros [|y b]; cbn; try done.
    intros [?|[-> ?]] [?|[? ?]]; try lia. f_equal. by apply IH.
  - intros a. induction a as [|x a IH]; intros [|y b]; cbn; try (by left); try (by right).
    destruct (Z.lt_total x y) as [?|[->|?]]; [by left; left| |by right; left].
    destruct (IH b); [left|right]; by right.
Defined.

(** ** Limits *)

Record PortableLimits := {
  max_components : Z;
  max_entries : Z;
  max_entry_bytes : Z;
  max_total_bytes : Z;
  max_manifest_bytes : Z;
  max_semantic_manifest_bytes : Z;
  max_tag_manifest_bytes : Z;
  max_retained_control_bytes : Z;
  max_parquet_walk_bytes : Z;
  max_parquet_footer_bytes : Z;
  max_research_version_bytes : Z;
  max_path_bytes : Z;
  copy_buffer_bytes : Z;
}.

Definition PORTABLE_MANIFEST_BYTES_PER_ENTRY : Z := 512.
Definition PRODUCER_MAX_GRAPH_FILES : Z := 100000.

Definition semantic_manifest_bound (limits : PortableLimits) (entries : Z) : Z :=
  Z.min (saturating_add (max_manifest_bytes limits) (saturating_mul entries PORTABLE_MANIFEST_BYTES_PER_ENTRY))
    (max_semantic_manifest_bytes limits).

Definition next_power_of_two (n : Z) : Z := 2 ^ Z.log2_up n.

Definition default_limits : PortableLimits := {|
  max_components := 10000;
  max_entries := 1000000;
  max_entry_bytes := 16 * 1024 ^ 4;
  max_total_bytes := 1024 * 1024 ^ 4;
  max_manifest_bytes := 16 * 1024 * 1024;
  max_semantic_manifest_bytes := next_power_of_two (PRODUCER_MAX_GRAPH_FILES * PORTABLE_MANIFEST_BYTES_PER_ENTRY);
  max_tag_manifest_bytes := 4 * 1024 * 1024;
  max_retained_control_bytes := 256 * 1024 * 1024;
  max_parquet_walk_bytes := 64 * 1024 * 1024;
  max_parquet_footer_bytes := 16 * 1024 * 1024;
  max_research_version_bytes := u64_max;
  max_path_bytes := 4096;
  copy_buffer_bytes := 1024 * 1024;
|}.

(** The comment beside the default: 64 MiB. *)
Example default_semantic_manifest : max_semantic_manifest_bytes default_limits = 64 * 1024 * 1024.
Proof. done. Qed.

(** ** Hexadecimal digests *)

Definition hex_digit (n : Z) : Z := if n <? 10 then 48 + n else 87 + n.
Definition hex_byte (b : Z) : list Z := [hex_digit (Z.shiftr b 4); hex_digit (Z.land b 15)].
Definition hex (bytes : list Z) : list Z := bytes ≫= hex_byte.

(** The text of a SHA-256 digest: 64 lower-case hexadecimal digits. *)
Definition is_ascii_hexdigit (b : Z) : bool :=
  ((48 <=? b) && (b <=? 57)) || ((65 <=? b) && (b <=? 70)) || ((97 <=? b) && (b <=? 102)).
Definition is_ascii_uppercase (b : Z) : bool := (65 <=? b) && (b <=? 90).
Definition sha (s : list Z) : bool :=
  (lenZ s =? 64) && forallb (fun b => is_ascii_hexdigit b && negb (is_ascii_uppercase b)) s.

Lemma hex_length bytes : length (hex bytes) = (2 * length bytes)%nat.
Proof. induction bytes as [|b bytes IH]; [done|]. unfold hex in *. rewrite bind_cons. cbn. lia. Qed.

Lemma hex_byte_spec b : is_byte b ->
  forallb (fun c => is_ascii_hexdigit c && negb (is_ascii_uppercase c) && (0 <? c) && (c <? 128)) (hex_byte b) = true.
Proof.
  revert b. apply (byte_cases (fun b => forallb
    (fun c => is_ascii_hexdigit c && negb (is_ascii_uppercase c) && (0 <? c) && (c <? 128)) (hex_byte b))).
  vm_compute. reflexivity.
Qed.

Lemma hex_digits bytes : Forall is_byte bytes ->
  Forall (fun c => is_ascii_hexdigit c = true /\ is_ascii_uppercase c = false /\ 0 < c < 128) (hex bytes).
Proof.
  induction 1 as [|b bytes Hb Hbs IH]; [constructor|]. unfold hex in *. rewrite bind_cons. apply Forall_app. split; [|done].
  pose proof (hex_byte_spec b Hb) as H. apply Forall_forall. intros c Hc. rewrite forallb_forall in H. specialize (H c (proj1 (list_elem_of_In _ _) Hc)).
  rewrite !andb_true_iff, negb_true_iff, !Z.ltb_lt in H. tauto.
Qed.

Lemma sha_hex digest : Forall is_byte digest -> length digest = 32%nat -> sha (hex digest) = true.
Proof.
  intros Hb Hl. unfold sha. rewrite hex_length, Hl. apply andb_true_iff. split; [done|].
  apply forallb_forall. intros c Hc%list_elem_of_In. pose proof (hex_digits digest Hb) as H. rewrite Forall_forall in H.
  destruct (H c Hc) as (->&->&_). done.
Qed.
