(* ===== verification/Tar.v ===== *)
(** * The tar framing of a bundle: headers.

    The writer is [header] and [raw_header] with their helpers in
    [crates/graphforge-storage/src/project_portable_export/transport.rs]; the reader is
    [parse_octal], [cstr], [header_path], [verify_canonical_header_path], [canonical_ustar_split]
    and [verify_header] of [crates/graphforge-storage/src/project_portable.rs].  What the writer
    appends to the file is the list of bytes returned; a write that fails is not modelled.  SHA-256
    is a parameter. *)

From stdpp Require Import base list strings sets.
From Stdlib Require Import ZArith Lia.
From S2P Require Import Prelude Text Utf8 Numerals Pax Portable.

(** The mode of an entry, [0o644]. *)
Definition mode : Z := 6 * 64 + 4 * 8 + 4.

(** ** The writer *)

(** [b[i..i + s.len()].copy_from_slice(s)] *)
Definition splice (b : list Z) (i : nat) (s : list Z) : list Z := take i b ++ s ++ drop (i + length s) b.

(** [put(&mut b[i..i + w], s)]: panics when [s] is longer than the field. *)
Definition put (b : list Z) (i w : nat) (s : list Z) : outcome (list Z) :=
  if (length s <=? w)%nat then Done (splice b i s) else Stuck.

(** [format!("{n:0w$o}")] *)
Definition octal (w : nat) (n : Z) : list Z :=
  let s := to_radix 8 n in replicate (w - length s) 48 ++ s.

(** [oct(&mut b[i..i + width], n)] *)
Definition oct (b : list Z) (i width : nat) (n : Z) : outcome (list Z) :=
  let w := (width - 1)%nat in
  let s := octal w n in
  if (w <? length s)%nat then Fail (error_new LimitExceeded "tar field overflow")
  else Done (splice b i (s ++ [0])).

Definition sum_bytes (b : list Z) : Z := foldr Z.add 0 b.

Definition raw_header (name prefix : list Z) (size kind : Z) : outcome (list Z) :=
  let b := replicate 512 0 in
  b ← put b 0 100 name;
  b ← oct b 100 8 mode;
  b ← oct b 108 8 0;
  b ← oct b 116 8 0;
  b ← oct b 124 12 size;
  b ← oct b 136 12 0;
  let b := splice b 148 (replicate 8 32) in
  let b := splice b 156 [kind] in
  b ← put b 257 6 (bytes_of "ustar" ++ [0]);
  b ← put b 263 2 (bytes_of "00");
  b ← put b 345 155 prefix;
  let sum := octal 6 (sum_bytes b) ++ [0; 32] in
  if (length sum =? 8)%nat then Done (splice b 148 sum) else Stuck.

(** The byte offsets of [text.match_indices('/')]. *)
Fixpoint slashes (text : list Z) : list nat :=
  match text with
  | [] => []
  | b :: text' => (if b =? 47 then [0%nat] else []) ++ (S <$> slashes text')
  end.

(** The first turn of [for (i, _) in p.match_indices('/').rev()] that returns. *)
Fixpoint split_at_slash (p : list Z) (indices : list nat) : result PortableError (list Z * list Z) :=
  match indices with
  | [] => Err (error_new InvalidPath "path cannot fit ustar")
  | i :: indices =>
      let pre := take i p in
      let name := drop i p in
      if (length pre <=? 155)%nat && (length name - 1 <=? 100)%nat then Ok (drop 1 name, pre)
      else split_at_slash p indices
  end.

Definition split (p : list Z) : result PortableError (list Z * list Z) :=
  if (length p <=? 100)%nat then Ok (p, []) else split_at_slash p (reverse (slashes p)).

Definition padding (length : Z) : Z := (512 - length mod 512) mod 512.
Definition pad (length : Z) : list Z := replicate (Z.to_nat (padding length)) 0.

Section sha256.
Context (sha256 : list Z -> list Z).

Definition suffix_of (path : list Z) : list Z := take 16 (hex (sha256 path)).

Definition header (path : list Z) (size : Z) : outcome (list Z) :=
  let oversized := ustar_size_limit <? size in
  let long :=
    let suffix := suffix_of path in
    match encode path size with
    | None => Stuck
    | Some body =>
        first ← raw_header (bytes_of "PaxHeaders/" ++ suffix) [] (lenZ body) 120;
        let field := if oversized then 0 else size in
        second ← raw_header (bytes_of "PaxFiles/" ++ suffix) [] field 48;
        Done (first ++ body ++ pad (lenZ body) ++ second)
    end in
  if oversized then long
  else match split path with Ok (name, prefix) => raw_header name prefix size 48 | Err _ => long end.
End sha256.

(** ** The reader *)

(** [h[i..i + n]] *)
Definition slice (h : list Z) (i n : nat) : list Z := take n (drop i h).

(** [text.trim_matches(['\0', ' '])] *)
Fixpoint trim_start (text : list Z) : list Z :=
  match text with
  | b :: text' => if (b =? 0) || (b =? 32) then trim_start text' else text
  | [] => []
  end.
Definition trim_matches (text : list Z) : list Z := reverse (trim_start (reverse (trim_start text))).

Definition parse_octal (field : list Z) : result PortableError Z :=
  if match field with b :: _ => negb (Z.land b 0x80 =? 0) | [] => false end
  then Err (error_new InvalidStructure "base-256 numeric field")
  else
    match from_utf8 field with
    | None => Err (error_new InvalidStructure "numeric field")
    | Some _ =>
        let s := trim_matches field in
        ok_or (from_str_radix 8 u64_max (if decide (s = []) then [48] else s)) (error_new InvalidStructure "numeric field")
    end.

Definition cstr (field : list Z) : result PortableError (list Z) :=
  let end_ := match find_byte 0 field with Some i => i | None => length field end in
  match from_utf8 (take end_ field) with
  | None => Err (error_new InvalidPath "tar path UTF-8")
  | Some _ => Ok (take end_ field)
  end.

Definition header_path (h : list Z) : result PortableError (list Z) :=
  n ← cstr (slice h 0 100);
  p ← cstr (slice h 345 155);
  Ok (if decide (p = []) then n else p ++ [47] ++ n).

(** [filter_map(..)] of [canonical_ustar_split]. *)
Definition ustar_parts (path : list Z) (i : nat) : option (list Z * list Z) :=
  let p := take i path in
  let n := drop 1 (drop i path) in
  if (length p <=? 155)%nat && (length n <=? 100)%nat then Some (p, n) else None.

Definition canonical_ustar_split (path : list Z) : option (list Z * list Z) :=
  if (length path <=? 100)%nat then Some ([], path) else last (omap (ustar_parts path) (slashes path)).

Definition verify_canonical_header_path (h path : list Z) (used_pax : bool) : result PortableError unit :=
  if used_pax then Ok tt
  else
    '(prefix, name) ← ok_or (canonical_ustar_split path) (error_at InvalidStructure path "missing required PAX header");
    n ← cstr (slice h 0 100);
    different ← (if decide (n = name) then p ← cstr (slice h 345 155); Ok (negb (bool_decide (p = prefix))) else Ok true);
    check different (error_at InvalidStructure path "non-canonical ustar path split").

(** [a || parse_octal(field)? != n || ..]: the first true condition ends the evaluation. *)
Definition or_field (a : bool) (field : list Z) (n : Z) (rest : result PortableError bool) : result PortableError bool :=
  if a then Ok true
  else x ← parse_octal field; if x =? n then rest else Ok true.

(** The bytes with the checksum field read as spaces. *)
Definition checksum_of (h : list Z) : Z :=
  sum_bytes (imap (fun i b => if (148 <=? i)%nat && (i <? 156)%nat then 32 else b) h).

Definition verify_header (h : list Z) : result PortableError unit :=
  refused ← or_field
    (negb (bool_decide (slice h 257 6 = bytes_of "ustar" ++ [0])) || negb (bool_decide (slice h 263 2 = bytes_of "00")))
    (slice h 100 8) mode
    (or_field false (slice h 108 8) 0
    (or_field false (slice h 116 8) 0
    (or_field false (slice h 136 12) 0
      (Ok (existsb (fun b => negb (b =? 0)) (slice h 265 64))))));
  _ ← check refused (error_new InvalidStructure "non-canonical tar header");
  expected ← parse_octal (slice h 148 8);
  check (negb (checksum_of h =? expected)) (error_new DigestMismatch "tar header checksum").

(** ** Fields *)

Lemma concat_at (fs : list (list Z)) k f :
  fs !! k = Some f -> concat fs = concat (take k fs) ++ f ++ concat (drop (S k) fs).
Proof. intros Hk. rewrite <-(take_drop_middle fs k f Hk) at 1. by rewrite concat_app. Qed.

Lemma concat_insert (fs : list (list Z)) k f g :
  fs !! k = Some f -> concat (<[k := g]> fs) = concat (take k fs) ++ g ++ concat (drop (S k) fs).
Proof.
  intros Hk. rewrite (concat_at _ k g) by (apply list_lookup_insert_eq; by eapply lookup_lt_Some).
  rewrite take_insert_ge by lia. by rewrite drop_insert_lt by lia.
Qed.

(** Writing inside a field changes that field only. *)
Lemma splice_field fs k f i s :
  fs !! k = Some f -> length (concat (take k fs)) = i -> (length s <= length f)%nat ->
  splice (concat fs) i s = concat (<[k := s ++ drop (length s) f]> fs).
Proof.
  intros Hk <- Hs. rewrite (concat_insert _ _ f) by done. unfold splice. rewrite (concat_at fs k f Hk).
  rewrite take_app_length. rewrite <-drop_drop, drop_app_length, drop_app_le by done. by rewrite <-!app_assoc.
Qed.

Lemma slice_field fs k f i n :
  fs !! k = Some f -> length (concat (take k fs)) = i -> length f = n -> slice (concat fs) i n = f.
Proof. intros Hk <- <-. unfold slice. rewrite (concat_at fs k f Hk). by rewrite drop_app_length, take_app_length. Qed.

Lemma put_field fs k i w s :
  fs !! k = Some (replicate w 0) -> length (concat (take k fs)) = i -> (length s <= w)%nat ->
  put (concat fs) i w s = Done (concat (<[k := s ++ replicate (w - length s) 0]> fs)).
Proof.
  intros Hk Hi Hs. unfold put. rewrite (proj2 (Nat.leb_le _ _)) by done.
  rewrite (splice_field fs k (replicate w 0)) by (rewrite ?length_replicate; done). by rewrite drop_replicate.
Qed.

Lemma octal_length w n : 0 <= n < 8 ^ Z.of_nat w -> (1 <= w)%nat -> length (octal w n) = w.
Proof.
  intros Hn Hw. unfold octal. rewrite length_app, length_replicate.
  assert (length (to_radix 8 n) <= w)%nat by (apply (to_radix_length 8); lia). lia.
Qed.

Lemma oct_field fs k i w n :
  fs !! k = Some (replicate (S w) 0) -> length (concat (take k fs)) = i -> 0 <= n < 8 ^ Z.of_nat w -> (1 <= w)%nat ->
  oct (concat fs) i (S w) n = Done (concat (<[k := octal w n ++ [0]]> fs)).
Proof.
  intros Hk Hi Hn Hw. unfold oct. replace (S w - 1)%nat with w by lia. rewrite octal_length by done.
  rewrite (proj2 (Nat.ltb_ge _ _)) by done.
  rewrite (splice_field fs k (replicate (S w) 0)) by (rewrite ?length_app, ?octal_length, ?length_replicate by done; cbn; try done; lia).
  rewrite drop_replicate, length_app, octal_length by done. cbn [length].
  replace (S w - (w + 1))%nat with 0%nat by lia. by rewrite app_nil_r.
Qed.

(** The fields of a header in order, the checksum field apart. *)
Definition fields (name prefix : list Z) (size kind : Z) (sum : list Z) : list (list Z) :=
  [name ++ replicate (100 - length name) 0; octal 7 mode ++ [0]; octal 7 0 ++ [0]; octal 7 0 ++ [0];
   octal 11 size ++ [0]; octal 11 0 ++ [0]; sum; [kind]; replicate 100 0; bytes_of "ustar" ++ [0]; bytes_of "00";
   replicate 64 0; replicate 16 0; prefix ++ replicate (155 - length prefix) 0; replicate 12 0].

Definition checksum_text (name prefix : list Z) (size kind : Z) : list Z :=
  octal 6 (sum_bytes (concat (fields name prefix size kind (replicate 8 32)))) ++ [0; 32].

Lemma sum_bytes_app s t : sum_bytes (s ++ t) = sum_bytes s + sum_bytes t.
Proof. unfold sum_bytes. induction s as [|b s IH]; cbn; [done|]. lia. Qed.

Lemma sum_bytes_bound s : Forall is_byte s -> 0 <= sum_bytes s <= 255 * lenZ s.
Proof. induction 1 as [|b s Hb Hs IH]; cbn; [done|]. unfold is_byte in Hb. unfold sum_bytes in IH. lia. Qed.

Lemma octal_digits w n : 0 <= n -> Forall (fun c => is_digit 8 c = true) (octal w n).
Proof. intros Hn. apply Forall_app. split; [by apply Forall_replicate|]. by apply to_radix_digits. Qed.

Lemma digit_byte c : is_digit 8 c = true -> 0 < c < 128 /\ c <> 32.
Proof. intros H%is_digit_spec. lia. Qed.

Lemma octal_bytes w n : 0 <= n -> Forall is_byte (octal w n).
Proof. intros Hn. eapply Forall_impl; [by apply octal_digits|]. intros c [Hc _]%digit_byte. unfold is_byte. lia. Qed.

Lemma zeros_bytes n : Forall is_byte (replicate n 0).
Proof. by apply Forall_replicate. Qed.

Section layout.
Context (name prefix : list Z) (size kind : Z).
Context (Hname : Forall is_byte name) (Hprefix : Forall is_byte prefix) (Hkind : is_byte kind).
Context (Hn : (length name <= 100)%nat) (Hp : (length prefix <= 155)%nat) (Hsize : 0 <= size < 8 ^ 11).

Lemma lengths7 n : 0 <= n < 8 ^ 7 -> length (octal 7 n ++ [0]) = 8%nat.
Proof. intros H. by rewrite length_app, octal_length by (done || lia). Qed.
Lemma lengths11 n : 0 <= n < 8 ^ 11 -> length (octal 11 n ++ [0]) = 12%nat.
Proof. intros H. by rewrite length_app, octal_length by (done || lia). Qed.
Lemma name_field_length : length (name ++ replicate (100 - length name) 0) = 100%nat.
Proof. rewrite length_app, length_replicate. lia. Qed.
Lemma prefix_field_length : length (prefix ++ replicate (155 - length prefix) 0) = 155%nat.
Proof. rewrite length_app, length_replicate. lia. Qed.

Lemma fields_lengths sum : length sum = 8%nat ->
  length <$> fields name prefix size kind sum = [100; 8; 8; 8; 12; 12; 8; 1; 100; 6; 2; 64; 16; 155; 12]%nat.
Proof.
  intros Hsum. unfold fields. cbn [fmap list_fmap]. rewrite name_field_length, prefix_field_length, Hsum.
  rewrite lengths11 by done. done.
Qed.

Lemma length_concat (fs : list (list Z)) : length (concat fs) = foldr Nat.add 0%nat (length <$> fs).
Proof. induction fs as [|f fs IH]; [done|]. cbn [concat fmap list_fmap foldr]. rewrite length_app. by rewrite IH. Qed.

Lemma offset_fields sum k : length sum = 8%nat ->
  length (concat (take k (fields name prefix size kind sum))) =
  foldr Nat.add 0%nat (take k [100; 8; 8; 8; 12; 12; 8; 1; 100; 6; 2; 64; 16; 155; 12]%nat).
Proof. intros Hsum. by rewrite length_concat, fmap_take, fields_lengths. Qed.

Lemma fields_bytes sum : Forall is_byte sum -> Forall is_byte (concat (fields name prefix size kind sum)).
Proof.
  intros Hsum. apply Forall_concat. unfold fields.
  assert (H0 : Forall is_byte [0]) by (by repeat constructor). assert (Hk : Forall is_byte [kind]) by (by apply Forall_singleton).
  repeat match goal with
  | |- Forall (Forall _) (_ :: _) => apply Forall_cons_2
  | |- Forall _ [] => apply Forall_nil_2
  | |- Forall _ (_ ++ _) => apply Forall_app_2
  | |- Forall _ (replicate _ _) => apply zeros_bytes
  | |- Forall _ (octal _ _) => apply octal_bytes; unfold mode; lia
  | |- Forall _ (bytes_of _) => apply bytes_of_bytes
  | |- _ => assumption
  end.
Qed.

Lemma checksum_text_length : length (checksum_text name prefix size kind) = 8%nat.
Proof.
  unfold checksum_text. set (b := concat _). assert (Hb : 0 <= sum_bytes b <= 255 * lenZ b).
  { apply sum_bytes_bound, fields_bytes. by apply Forall_replicate. }
  assert (Hl : length b = 512%nat). { unfold b. rewrite length_concat, fields_lengths; done. }
  rewrite length_app, octal_length; [done| |lia]. rewrite Hl in Hb. change (8 ^ Z.of_nat 6) with 262144. lia.
Qed.

(** The offset of a field in a list of fields whose first is the name. *)
Local Ltac offset :=
  first [reflexivity | rewrite length_concat; cbn [take fmap list_fmap]; rewrite ?name_field_length, ?lengths7, ?lengths11 by (done || lia); reflexivity].

(** A header is the concatenation of its fields. *)
Lemma raw_header_fields :
  raw_header name prefix size kind = Done (concat (fields name prefix size kind (checksum_text name prefix size kind))).
Proof.
  assert (Hm : 0 <= mode < 8 ^ Z.of_nat 7) by (split; [done|reflexivity]).
  assert (H7 : 0 <= 0 < 8 ^ Z.of_nat 7) by (split; [done|reflexivity]).
  assert (H11 : 0 <= 0 < 8 ^ Z.of_nat 11) by (split; [done|reflexivity]).
  unfold raw_header.
  replace (replicate 512 0) with (concat ((fun n => replicate n 0) <$> [100; 8; 8; 8; 12; 12; 8; 1; 100; 6; 2; 64; 16; 155; 12]%nat)) by done.
  cbn [fmap list_fmap].
  rewrite (put_field _ 0) by done. cbn [mbind outcome_bind insert list_insert].
  rewrite (oct_field _ 1) by (done || offset || lia). cbn [mbind outcome_bind insert list_insert].
  rewrite (oct_field _ 2) by (done || offset || lia). cbn [mbind outcome_bind insert list_insert].
  rewrite (oct_field _ 3) by (done || offset || lia). cbn [mbind outcome_bind insert list_insert].
  rewrite (oct_field _ 4) by (done || offset || lia). cbn [mbind outcome_bind insert list_insert].
  rewrite (oct_field _ 5) by (done || offset || lia). cbn [mbind outcome_bind insert list_insert].
  rewrite (splice_field _ 6 (replicate 8 0)) by (done || offset || (cbn; lia)). cbn [mbind outcome_bind insert list_insert].
  rewrite (splice_field _ 7 (replicate 1 0)) by (done || offset || (cbn; lia)). cbn [mbind outcome_bind insert list_insert].
  rewrite (put_field _ 9) by (done || offset || (cbn; lia)). cbn [mbind outcome_bind insert list_insert].
  rewrite (put_field _ 10) by (done || offset || (cbn; lia)). cbn [mbind outcome_bind insert list_insert].
  rewrite (put_field _ 13) by (done || offset || lia). cbn [mbind outcome_bind insert list_insert].
  match goal with |- context [sum_bytes ?b] => change b with (concat (fields name prefix size kind (replicate 8 32))) end.
  fold (checksum_text name prefix size kind). rewrite checksum_text_length. cbn [Nat.eqb].
  rewrite (splice_field _ 6 (replicate 8 32)) by (done || (rewrite offset_fields by done; reflexivity) || (rewrite checksum_text_length; done)).
  rewrite checksum_text_length. change (drop 8 (replicate 8 32)) with (@nil Z). by rewrite app_nil_r.
Qed.
End layout.

(** ** Reading a written header *)

Lemma trim_start_app t s : Forall (fun b => b = 0 \/ b = 32) t -> trim_start (t ++ s) = trim_start s.
Proof. induction 1 as [|b t Hb Ht IH]; [done|]. cbn. destruct Hb as [-> | ->]; done. Qed.

Lemma trim_start_digits s : Forall (fun c => is_digit 8 c = true) s -> trim_start s = s.
Proof.
  destruct 1 as [|b t Hb Ht]; [done|]. cbn. apply digit_byte in Hb as [Hb Hb'].
  by rewrite (proj2 (Z.eqb_neq b 0)), (proj2 (Z.eqb_neq b 32)) by lia.
Qed.

(** A number written with leading zeros and closed with NUL and spaces is read back. *)
Lemma parse_octal_field w n tail :
  0 <= n < 8 ^ Z.of_nat w -> n <= u64_max -> (1 <= w)%nat -> Forall (fun b => b = 0 \/ b = 32) tail ->
  parse_octal (octal w n ++ tail) = Ok n.
Proof.
  intros Hn Hmax Hw Htail. pose proof (octal_digits w n ltac:(lia)) as Hd.
  assert (Hs : is_str (octal w n ++ tail)).
  { apply is_str_ascii, Forall_app. split.
    - eapply Forall_impl; [exact Hd|]. intros c [Hc _]%digit_byte. lia.
    - eapply Forall_impl; [exact Htail|]. cbn. lia. }
  assert (Htrim : trim_matches (octal w n ++ tail) = octal w n).
  { unfold trim_matches. destruct (octal w n) as [|c s] eqn:E.
    { pose proof (octal_length w n Hn Hw) as Hl. rewrite E in Hl. cbn in Hl. lia. }
    assert (Hst : trim_start ((c :: s) ++ tail) = (c :: s) ++ tail).
    { inversion Hd as [|? ? Hc _]; subst. cbn. apply digit_byte in Hc as [Hc Hc'].
      by rewrite (proj2 (Z.eqb_neq c 0)), (proj2 (Z.eqb_neq c 32)) by lia. }
    rewrite Hst, reverse_app, trim_start_app by (by apply Forall_reverse).
    rewrite trim_start_digits by (by apply Forall_reverse). apply reverse_involutive. }
  destruct (octal w n) as [|c s] eqn:E.
  { pose proof (octal_length w n Hn Hw) as Hl. rewrite E in Hl. cbn in Hl. lia. }
  unfold parse_octal. rewrite Htrim. destruct Hs as [cs ->]. cbn [app].
  assert (Hc : (Z.land c 0x80 =? 0) = true).
  { inversion Hd as [|? ? Hc _]; subst. apply is_digit_spec in Hc. clear -Hc.
    assert (Hb : is_byte c) by (unfold is_byte; lia).
    pose proof (byte_cases (fun c => (c <? 48) || (56 <=? c) || (Z.land c 0x80 =? 0)) eq_refl c Hb) as H. cbn beta in H.
    rewrite (proj2 (Z.ltb_ge c 48)), (proj2 (Z.leb_gt 56 c)) in H by lia. exact H. }
  rewrite Hc. cbn [negb]. rewrite decide_False by done. rewrite <-E in *.
  rewrite from_str_radix_digits by (done || by rewrite E). unfold octal. rewrite digits_value_zeros, to_radix_value by lia.
  by rewrite (proj2 (Z.leb_le _ _)) by done.
Qed.

(** Text without a zero byte is read back from its field. *)
Lemma cstr_field s k : is_str s -> Forall (fun b => b <> 0) s -> cstr (s ++ replicate k 0) = Ok s.
Proof.
  intros [cs Hs] H0. unfold cstr. destruct k as [|k].
  - rewrite app_nil_r. assert (Hf : find_byte 0 s = None).
    { clear Hs. induction H0 as [|b s Hb H0 IH]; [done|]. cbn. by rewrite (proj2 (Z.eqb_neq b 0)), IH by done. }
    by rewrite Hf, firstn_all, Hs.
  - cbn [replicate]. rewrite find_byte_app by done. by rewrite take_app_length, Hs.
Qed.

(** The checksum of a header does not depend on its checksum field. *)
Lemma checksum_of_split pre c post : length pre = 148%nat -> length c = 8%nat ->
  checksum_of (pre ++ c ++ post) = sum_bytes (pre ++ replicate 8 32 ++ post).
Proof.
  intros Hpre Hc. unfold checksum_of. rewrite !imap_app, !sum_bytes_app. f_equal; [|f_equal].
  - f_equal. rewrite <-(list_fmap_id pre) at 2. rewrite <-imap_const. apply imap_ext. intros i x Hi%lookup_lt_Some. cbn beta.
    destruct (Nat.leb_spec 148 i); [lia|done].
  - do 9 (destruct c as [|? c]; try discriminate Hc). cbn [imap]. rewrite Hpre. done.
  - f_equal. rewrite <-(list_fmap_id post) at 2. rewrite <-imap_const. apply imap_ext. intros i x _. unfold compose.
    destruct (Nat.ltb_spec (length pre + (length c + i)) 156); [lia|]. by rewrite andb_false_r.
Qed.

(** ** Cutting a path for the header *)

Lemma slashes_spec p i : i ∈ slashes p <-> p !! i = Some 47.
Proof.
  revert i. induction p as [|b p IH]; intros i; cbn [slashes]; [rewrite lookup_nil; set_solver|].
  rewrite elem_of_app, list_elem_of_fmap. destruct i as [|i]; cbn [lookup list_lookup].
  - destruct (Z.eqb_spec b 47) as [->|Hb]; split; [done|set_solver| |congruence].
    intros [?|(?&?&?)]; [set_solver|done].
  - rewrite <-IH. destruct (b =? 47); split; [|set_solver| |set_solver]; intros [H|(?&[= ->]&?)]; set_solver.
Qed.

(** The writer and the reader cut a path at the same slash. *)
Lemma split_canonical p :
  canonical_ustar_split p = match split p with Ok (name, prefix) => Some (prefix, name) | Err _ => None end.
Proof.
  unfold canonical_ustar_split, split. destruct (length p <=? 100)%nat; [done|].
  generalize (slashes p). intros l. induction l as [|i l IH] using rev_ind; [done|].
  rewrite omap_app, reverse_snoc. cbn [split_at_slash].
  change (omap (ustar_parts p) [i]) with (match ustar_parts p i with Some x => [x] | None => [] end).
  assert (Hparts : ustar_parts p i = if (length (take i p) <=? 155)%nat && (length (drop i p) - 1 <=? 100)%nat
    then Some (take i p, drop 1 (drop i p)) else None) by (unfold ustar_parts; by rewrite (length_drop _ 1)).
  rewrite Hparts. destruct ((length (take i p) <=? 155)%nat && _); [by rewrite last_snoc|]. by rewrite app_nil_r.
Qed.

Lemma split_at_slash_Ok p l name prefix : split_at_slash p l = Ok (name, prefix) ->
  exists i, i ∈ l /\ prefix = take i p /\ name = drop 1 (drop i p) /\ (length prefix <= 155)%nat /\ (length name <= 100)%nat.
Proof.
  induction l as [|i l IH]; [done|]. cbn [split_at_slash]. destruct (_ && _) eqn:E.
  - intros [= <- <-]. apply andb_prop in E as [E1%Nat.leb_le E2%Nat.leb_le]. exists i. split; [set_solver|].
    split; [done|]. split; [done|]. split; [done|]. rewrite length_drop. lia.
  - intros (i'&?&?)%IH. exists i'. split; [set_solver|done].
Qed.

(** What the two fields of a cut path stand for. *)
Definition joined (name prefix : list Z) : list Z := if decide (prefix = []) then name else prefix ++ [47] ++ name.

Lemma split_joined p name prefix :
  split p = Ok (name, prefix) -> head p <> Some 47 ->
  joined name prefix = p /\ (length name <= 100)%nat /\ (length prefix <= 155)%nat.
Proof.
  unfold split, joined. destruct (Nat.leb_spec (length p) 100) as [Hl|Hl].
  - intros [= <- <-] _. rewrite decide_True by done. cbn. split; [done|]. lia.
  - intros (i&Hi&->&->&Hp&Hn)%split_at_slash_Ok Hh. rewrite elem_of_reverse in Hi. apply slashes_spec in Hi.
    rewrite drop_drop. rewrite decide_False.
    + split; [|by rewrite drop_drop in Hn]. cbn [app]. rewrite Nat.add_1_r. by apply take_drop_middle.
    + intros H%(f_equal length). rewrite length_take in H. apply lookup_lt_Some in Hi as Hi'. cbn in H.
      destruct i; [|lia]. destruct p; [done|]. by injection Hi as ->.
Qed.

Lemma joined_parts p name prefix : joined name prefix = p ->
  (is_str p -> is_str name /\ is_str prefix) /\ (forall P : Z -> Prop, Forall P p -> Forall P name /\ Forall P prefix).
Proof.
  unfold joined. intros <-. destruct (decide (prefix = [])) as [->|].
  - split; [|by intros P]. intros H. split; [done|]. by exists [].
  - split.
    + by intros [H1 H2]%is_str_cut.
    + intros P [H1 [_ H2]%Forall_cons]%Forall_app. done.
Qed.

(** First bytes of the retired format: [b"graphforge-exp\0\n"]. *)
Definition RETIRED_PROJECT_SIGNATURE : list Z := bytes_of "graphforge-exp" ++ [0; 10].

Lemma not_retired name k post : Forall (fun b => b <> 0) name -> (length name + k = 100)%nat ->
  take 16 ((name ++ replicate k 0) ++ post) <> RETIRED_PROJECT_SIGNATURE.
Proof.
  intros H0 Hl H. assert (H14 : take 16 ((name ++ replicate k 0) ++ post) !! 14%nat = Some 0) by (by rewrite H).
  assert (H15 : take 16 ((name ++ replicate k 0) ++ post) !! 15%nat = Some 10) by (by rewrite H). clear H.
  rewrite lookup_take_lt in H14, H15 by lia. rewrite lookup_app_l in H14, H15 by (rewrite length_app, length_replicate; lia).
  apply lookup_app_Some in H14 as [H14|[H14 _]].
  - rewrite Forall_lookup in H0. by apply H0 in H14.
  - rewrite lookup_app_r in H15 by lia. apply lookup_replicate in H15 as [? _]. done.
Qed.

Section read.
Context (name prefix : list Z) (size kind : Z).
Context (Hname : is_str name) (Hprefix : is_str prefix) (Hkind : is_byte kind).
Context (Hname0 : Forall (fun b => b <> 0) name) (Hprefix0 : Forall (fun b => b <> 0) prefix).
Context (Hn : (length name <= 100)%nat) (Hp : (length prefix <= 155)%nat) (Hsize : 0 <= size < 8 ^ 11).

Let h : list Z := concat (fields name prefix size kind (checksum_text name prefix size kind)).

Lemma raw_header_is : raw_header name prefix size kind = Done h.
Proof. by apply raw_header_fields; try apply is_str_bytes. Qed.

Lemma sum_length : length (checksum_text name prefix size kind) = 8%nat.
Proof. by apply checksum_text_length; try apply is_str_bytes. Qed.

Lemma header_slice k f i n :
  fields name prefix size kind (checksum_text name prefix size kind) !! k = Some f ->
  foldr Nat.add 0%nat (take k [100; 8; 8; 8; 12; 12; 8; 1; 100; 6; 2; 64; 16; 155; 12]%nat) = i -> length f = n ->
  slice h i n = f.
Proof. intros Hk <- Hf. apply (slice_field _ k); [done| |done]. apply offset_fields; try done. apply sum_length. Qed.

Lemma header_length : length h = 512%nat.
Proof. unfold h. rewrite length_concat, fields_lengths by (done || apply sum_length). done. Qed.

Lemma header_kind : h !! 156%nat = Some kind.
Proof.
  pose proof (header_slice 7 [kind] 156 1 eq_refl eq_refl eq_refl) as H. unfold slice in H.
  assert (Hd : take 1 (drop 156 h) !! 0%nat = Some kind) by (by rewrite H).
  by rewrite lookup_take_lt, lookup_drop in Hd by lia.
Qed.

Lemma header_name : cstr (slice h 0 100) = Ok name.
Proof. erewrite (header_slice 0) by (done || (rewrite length_app, length_replicate; lia)). by apply cstr_field. Qed.

Lemma header_prefix : cstr (slice h 345 155) = Ok prefix.
Proof. erewrite (header_slice 13) by (done || (rewrite length_app, length_replicate; lia)). by apply cstr_field. Qed.

Lemma number_field k w n i :
  fields name prefix size kind (checksum_text name prefix size kind) !! k = Some (octal w n ++ [0]) ->
  foldr Nat.add 0%nat (take k [100; 8; 8; 8; 12; 12; 8; 1; 100; 6; 2; 64; 16; 155; 12]%nat) = i ->
  0 <= n < 8 ^ Z.of_nat w -> n <= u64_max -> (1 <= w)%nat -> parse_octal (slice h i (S w)) = Ok n.
Proof.
  intros Hk Hi Hr Hu Hw. erewrite (header_slice k) by (done || (rewrite length_app, octal_length by done; cbn; lia)).
  apply parse_octal_field; try done. apply Forall_singleton. by left.
Qed.

Lemma header_size : parse_octal (slice h 124 12) = Ok size.
Proof. apply (number_field 4 11); try done; [unfold u64_max; lia|lia]. Qed.

Lemma header_checksum : checksum_of h = sum_bytes (concat (fields name prefix size kind (replicate 8 32))).
Proof.
  unfold h. erewrite (concat_at (fields _ _ _ _ (checksum_text _ _ _ _)) 6) by done.
  rewrite checksum_of_split by (apply sum_length || (rewrite offset_fields by (done || apply sum_length); done)).
  by erewrite (concat_at (fields _ _ _ _ (replicate 8 32)) 6) by done.
Qed.

Lemma header_verified : verify_header h = Ok tt.
Proof.
  unfold verify_header. rewrite (header_slice 9 (bytes_of "ustar" ++ [0]) 257 6), (header_slice 10 (bytes_of "00") 263 2),
    (header_slice 11 (replicate 64 0) 265 64) by done.
  rewrite !bool_decide_true by done. unfold or_field. cbn [negb orb].
  rewrite (number_field 1 7 mode 100), (number_field 2 7 0 108), (number_field 3 7 0 116), (number_field 5 11 0 136)
    by (done || lia).
  cbn [mbind result_bind]. rewrite Z.eqb_refl. cbn [mbind result_bind existsb replicate check Z.eqb negb orb].
  rewrite (header_slice 6 (checksum_text name prefix size kind) 148 8) by (done || apply sum_length).
  assert (Hb : Forall is_byte (concat (fields name prefix size kind (replicate 8 32)))).
  { apply fields_bytes; [by apply is_str_bytes|by apply is_str_bytes|done..|by apply Forall_replicate]. }
  apply sum_bytes_bound in Hb. rewrite length_concat, fields_lengths in Hb by done. cbn [foldr Nat.add] in Hb.
  unfold checksum_text. rewrite parse_octal_field; [|change (8 ^ Z.of_nat 6) with 262144; lia|unfold u64_max; lia|lia|].
  - cbn [mbind result_bind]. by rewrite header_checksum, Z.eqb_refl.
  - apply Forall_cons; split; [by left|]. apply Forall_singleton. by right.
Qed.

Lemma header_not_zero : h <> replicate 512 0.
Proof.
  intros H. pose proof (header_slice 9 (bytes_of "ustar" ++ [0]) 257 6 eq_refl eq_refl eq_refl) as Hs. rewrite H in Hs. discriminate Hs.
Qed.

Lemma header_not_retired : take 16 h <> RETIRED_PROJECT_SIGNATURE.
Proof. unfold h. cbn [fields concat]. apply not_retired; [done|]. lia. Qed.
End read.

(** What the reader finds in a header. *)
Record reads_as (h name prefix : list Z) (size kind : Z) : Prop := {
  reads_length : length h = 512%nat;
  reads_verified : verify_header h = Ok tt;
  reads_kind : h !! 156%nat = Some kind;
  reads_size : parse_octal (slice h 124 12) = Ok size;
  reads_name : cstr (slice h 0 100) = Ok name;
  reads_prefix : cstr (slice h 345 155) = Ok prefix;
  reads_not_end : h <> replicate 512 0;
  reads_not_retired : take 16 h <> RETIRED_PROJECT_SIGNATURE;
}.

Lemma raw_header_reads name prefix size kind :
  is_str name -> is_str prefix -> is_byte kind -> Forall (fun b => b <> 0) name -> Forall (fun b => b <> 0) prefix ->
  (length name <= 100)%nat -> (length prefix <= 155)%nat -> 0 <= size < 8 ^ 11 ->
  exists h, raw_header name prefix size kind = Done h /\ reads_as h name prefix size kind.
Proof.
  intros. eexists. split; [by apply raw_header_is|]. split; [by apply header_length|by apply header_verified|by apply header_kind|
    by apply header_size|by apply header_name|by apply header_prefix|by apply header_not_zero|by apply header_not_retired].
Qed.

Lemma reads_path h name prefix size kind : reads_as h name prefix size kind -> header_path h = Ok (joined name prefix).
Proof. intros H. unfold header_path. rewrite (reads_name _ _ _ _ _ H). cbn [mbind result_bind]. by rewrite (reads_prefix _ _ _ _ _ H). Qed.

Lemma reads_canonical h name prefix size kind path :
  reads_as h name prefix size kind -> split path = Ok (name, prefix) -> verify_canonical_header_path h path false = Ok tt.
Proof.
  intros H Hs. unfold verify_canonical_header_path. rewrite split_canonical, Hs. cbn [ok_or mbind result_bind].
  rewrite (reads_name _ _ _ _ _ H). cbn [mbind result_bind]. rewrite decide_True by done. rewrite (reads_prefix _ _ _ _ _ H).
  cbn [mbind result_bind]. by rewrite bool_decide_true.
Qed.

(** The header of an entry whose path and size fit. *)
Lemma ustar_header_reads sha256 path size name prefix :
  is_str path -> Forall (fun b => b <> 0) path -> head path <> Some 47 -> 0 <= size <= ustar_size_limit ->
  split path = Ok (name, prefix) ->
  joined name prefix = path /\ exists h, header sha256 path size = Done h /\ reads_as h name prefix size 48.
Proof.
  intros Hs H0 Hh Hsize Hsplit. destruct (split_joined path name prefix Hsplit Hh) as (Hj&Hn&Hp). split; [done|].
  destruct (joined_parts _ _ _ Hj) as [Hstr Hall]. destruct (Hstr Hs) as [Hs1 Hs2], (Hall _ H0) as [H1 H2].
  unfold header. rewrite (proj2 (Z.ltb_ge _ _)), Hsplit by lia. apply raw_header_reads; try done.
  unfold ustar_size_limit, USTAR_MAX_ENTRY_BYTES in Hsize. lia.
Qed.

(** ** Headers the reader accepts beside the canonical one

    The reader does not look at the link name, at the bytes between the device numbers and the
    prefix, at the last twelve bytes or behind a NUL in a text field, and reads a number with
    spaces or a plus sign.  Only the digest of the whole file tells such a header apart. *)

Definition sample_header : list Z := match raw_header (bytes_of "data/a") [] 2 48 with Done h => h | _ => [] end.
Definition with_link_name : list Z :=
  let h := splice sample_header 157 [120] in splice h 148 (octal 6 (checksum_of h) ++ [0; 32]).
Definition with_signed_size : list Z :=
  let h := splice sample_header 124 [43] in splice h 148 (octal 6 (checksum_of h) ++ [0; 32]).

(** The reader accepts headers other than the one the writer writes: a header with a link name and
    one with a signed size field pass the verification and stand for the same path and size. *)
Example other_headers_accepted :
  Forall (fun h => h <> sample_header /\ verify_header h = Ok tt /\ header_path h = Ok (bytes_of "data/a") /\
    parse_octal (slice h 124 12) = Ok 2 /\ verify_canonical_header_path h (bytes_of "data/a") false = Ok tt)
    [with_link_name; with_signed_size].
Proof. apply Forall_cons. split; [|apply Forall_singleton]; (split; [vm_compute; discriminate|]); vm_compute; done. Qed.
