(* ===== verification/PortablePath.v ===== *)
(** * Portable paths: [path_violation], [path_collision_key] and [PathSet] of
    [crates/graphforge-storage/src/project_portable.rs].

    Unicode normalization and case folding come from other packages and are parameters on
    characters; the path functions of the standard library are those of Unix. *)

From stdpp Require Import base list strings sets gmap.
From Stdlib Require Import ZArith Lia.
From S2P Require Import Prelude Text Utf8 Portable Tar.

Definition MAX_COMPONENT_BYTES : Z := 255.

(** The characters of a string. *)
Definition chars (s : list Z) : list Z := match from_utf8 s with Some cs => cs | None => [] end.

(** [s.split(c)] for an ASCII character: one piece more than separators. *)
Fixpoint split_on (c : Z) (s : list Z) : list (list Z) :=
  match s with
  | [] => [[]]
  | b :: s' =>
      if b =? c then [] :: split_on c s'
      else match split_on c s' with
           | piece :: rest => (b :: piece) :: rest
           | [] => [[b]]
           end
  end.

(** [s.trim_end_matches(c)] *)
Fixpoint trim_left (c : Z) (s : list Z) : list Z :=
  match s with
  | b :: s' => if b =? c then trim_left c s' else s
  | [] => []
  end.
Definition trim_end_matches (c : Z) (s : list Z) : list Z := reverse (trim_left c (reverse s)).

Definition to_ascii_lowercase (b : Z) : Z := if (65 <=? b) && (b <=? 90) then b + 32 else b.
Definition eq_ignore_ascii_case (s t : list Z) : bool :=
  bool_decide (to_ascii_lowercase <$> s = to_ascii_lowercase <$> t).

Definition is_windows_device_name (component : list Z) : bool :=
  let base := trim_end_matches 32 (match split_on 46 component with piece :: _ => piece | [] => component end) in
  if existsb (fun name => eq_ignore_ascii_case base (bytes_of name)) ["CON"; "PRN"; "AUX"; "NUL"]%string then true
  else
    match chars base with
    | [a; b; c; digit] =>
        let name := utf8 [a; b; c] in
        (eq_ignore_ascii_case name (bytes_of "COM") || eq_ignore_ascii_case name (bytes_of "LPT")) &&
        (((49 <=? digit) && (digit <=? 57)) || (digit =? 0xb9) || (digit =? 0xb2) || (digit =? 0xb3))
    | _ => false
    end.

(** The characters that Windows forbids: less and greater than, colon, quotation mark, bar,
    question mark and asterisk. *)
Definition forbidden : list Z := [60; 62; 58; 34; 124; 63; 42].

Definition ends_with (cs s : list Z) : bool :=
  match last s with Some b => bool_decide (b ∈ cs) | None => false end.

Definition component_violation (component : list Z) : option string :=
  if MAX_COMPONENT_BYTES <? lenZ component then Some "path component exceeds 255 bytes"
  else if existsb (fun b => bool_decide (b ∈ forbidden)) component
  then Some "path component has a character that Windows forbids"
  else if ends_with [32; 46] component then Some "path component ends with a space or a dot"
  else if is_windows_device_name component then Some "path component is a Windows reserved device name"
  else None.

(** [Path::components] *)
Inductive Component :=
| RootDir
| CurDir
| ParentDir
| Normal (name : list Z).

Definition is_absolute (path : list Z) : bool := match path with 47 :: _ => true | _ => false end.

(** A separator at the start is the root, empty pieces vanish, and a dot counts only where the
    path starts with it. *)
Definition component_of (first : bool) (piece : list Z) : option Component :=
  if decide (piece = []) then None
  else if decide (piece = [46]) then (if first then Some CurDir else None)
  else if decide (piece = [46; 46]) then Some ParentDir
  else Some (Normal piece).
Definition components (path : list Z) : list Component :=
  (if is_absolute path then [RootDir] else []) ++
  match split_on 47 path with
  | piece :: rest => omap (component_of true) [piece] ++ omap (component_of false) rest
  | [] => []
  end.
Definition is_normal (c : Component) : bool := match c with Normal _ => true | _ => false end.

(** [iter.find_map(f)] *)
Fixpoint find_map {A B} (f : A -> option B) (l : list A) : option B :=
  match l with
  | [] => None
  | x :: l => match f x with Some y => Some y | None => find_map f l end
  end.

Record PathSet := {
  files : gset (list Z);
  directories : gset (list Z);
}.
Definition empty_set : PathSet := {| files := ∅; directories := ∅ |}.

(** The directories of a key: what precedes each slash. *)
Definition directories_of (key : list Z) : list (list Z) := (fun slash => take slash key) <$> slashes key.

Section unicode.
Context (nfc nfd fold_string : list Z -> list Z).

Definition path_violation (path : list Z) (max : Z) : option string :=
  if bool_decide (path = []) || (max <? lenZ path) ||
     existsb (fun b => (b =? 0) || (b <? 0x20) || (b =? 0x7f)) path ||
     bool_decide (92 ∈ path) || negb (bool_decide (utf8 (nfc (chars path)) = path)) || is_absolute path ||
     existsb (fun c => bool_decide (c = []) || bool_decide (c = [46]) || bool_decide (c = [46; 46])) (split_on 47 path) ||
     existsb (fun c => negb (is_normal c)) (components path)
  then Some "unsafe/non-canonical path"
  else find_map component_violation (split_on 47 path).

Definition validate_path (path : list Z) (max : Z) : result PortableError unit :=
  match path_violation path max with
  | Some detail => Err (error_at InvalidPath path detail)
  | None => Ok tt
  end.

Definition path_collision_key (path : list Z) : list Z :=
  let decomposed := nfd (chars path) in
  utf8 ((fun c => if c =? 0x131 then 105 else c) <$> nfd (fold_string decomposed)).

(** The loop over the slashes of a key: whether a directory is a file, and the directories
    recorded. *)
Definition record_directories (set : PathSet) (conflict : bool) (key : list Z) : bool * gset (list Z) :=
  foldl (fun '(conflict, dirs) directory => (conflict || bool_decide (directory ∈ files set), {[directory]} ∪ dirs))
    (conflict, directories set) (directories_of key).

(** The set itself is dropped with the error. *)
Definition admit_path (set : PathSet) (path : list Z) : result PortableError PathSet :=
  let key := path_collision_key path in
  if decide (key ∈ files set) then Err (error_at DuplicateEntry path "duplicate/case-fold collision")
  else
    let '(conflict, dirs) := record_directories set (bool_decide (key ∈ directories set)) key in
    if conflict then Err (error_at DuplicateEntry path "file/directory path collision")
    else Ok {| files := {[key]} ∪ files set; directories := dirs |}.

Fixpoint admit_all (set : PathSet) (paths : list (list Z)) : result PortableError PathSet :=
  match paths with
  | [] => Ok set
  | path :: paths => set ← admit_path set path; admit_all set paths
  end.

Definition validate_path_set (paths : list (list Z)) : result PortableError unit :=
  _ ← admit_all empty_set paths; Ok tt.

Definition require_canonical_order (paths : list (list Z)) : result PortableError unit :=
  check (existsb (fun '(a, b) => bool_decide (ord_le b a)) (zip paths (drop 1 paths)))
    (error_new InvalidStructure "bundle entries are not canonical order").

End unicode.

(** ** Sets of paths *)

Section sets.
Context (nfd fold_string : list Z -> list Z).
#[local] Abbreviation path_collision_key := (path_collision_key nfd fold_string).
#[local] Abbreviation admit_path := (admit_path nfd fold_string).
#[local] Abbreviation admit_all := (admit_all nfd fold_string).
#[local] Abbreviation validate_path_set := (validate_path_set nfd fold_string).

Lemma directories_of_spec d k : d ∈ directories_of k <-> (d ++ [47]) `prefix_of` k.
Proof.
  unfold directories_of. rewrite list_elem_of_fmap. setoid_rewrite slashes_spec. split.
  - intros (i&->&Hi). exists (drop (S i) k). rewrite <-app_assoc. symmetry. by apply take_drop_middle.
  - intros [t ->]. exists (length d). rewrite <-app_assoc. rewrite take_app_length. split; [done|].
    by rewrite lookup_app_r, Nat.sub_diag by lia.
Qed.

Lemma not_own_directory k : k ∉ directories_of k.
Proof. rewrite directories_of_spec. intros H%prefix_length. rewrite length_app in H. cbn in H. lia. Qed.

(** No two keys are equal and none is a directory of another. *)
Definition compatible (keys : list (list Z)) : Prop :=
  NoDup keys /\ forall k1 k2, k1 ∈ keys -> k2 ∈ keys -> k1 ∉ directories_of k2.

Definition represents (set : PathSet) (keys : list (list Z)) : Prop :=
  (forall k, k ∈ files set <-> k ∈ keys) /\ (forall d, d ∈ directories set <-> exists k, k ∈ keys /\ d ∈ directories_of k).

Lemma record_directories_spec set c key conflict dirs : record_directories set c key = (conflict, dirs) ->
  (conflict = false <-> c = false /\ forall d, d ∈ directories_of key -> d ∉ files set) /\
  (forall d, d ∈ dirs <-> d ∈ directories_of key \/ d ∈ directories set).
Proof.
  unfold record_directories. generalize (directories_of key) (directories set). intros l. revert c.
  induction l as [|d l IH]; intros c dirs0; cbn [foldl].
  - intros [= <- <-]. set_solver.
  - intros H. destruct (IH _ _ H) as [H1 H2]. split.
    + rewrite H1, orb_false_iff, bool_decide_eq_false. setoid_rewrite elem_of_cons. naive_solver.
    + intros d'. rewrite H2, elem_of_union, elem_of_singleton, elem_of_cons. tauto.
Qed.

Lemma admit_path_iff set path keys : represents set keys -> compatible keys ->
  match admit_path set path with
  | Ok set' => compatible (keys ++ [path_collision_key path]) /\ represents set' (keys ++ [path_collision_key path])
  | Err e => ~ compatible (keys ++ [path_collision_key path]) /\ code e = DuplicateEntry
  end.
Proof.
  intros [Hf Hd] [Hnd Hc]. unfold admit_path. set (key := path_collision_key path).
  assert (Hold : forall k, k ∈ keys -> k ∈ keys ++ [key]) by (intros k Hk; apply elem_of_app; by left).
  assert (Hnew : key ∈ keys ++ [key]) by (apply elem_of_app; right; by apply list_elem_of_singleton).
  destruct (decide (key ∈ files set)) as [Hin|Hin].
  { split; [|done]. intros [H _]. apply NoDup_app in H as (_&H&_). apply (H key); [by apply Hf|by apply list_elem_of_singleton]. }
  destruct (record_directories set _ key) as [conflict dirs] eqn:E. apply record_directories_spec in E as [E1 E2].
  rewrite bool_decide_eq_false in E1. destruct conflict.
  - split; [|done]. intros [_ H]. apply (fun h => diff_true_false (proj2 E1 h)). split.
    + intros (k&Hk&Hk')%Hd. by apply (H key k); auto.
    + intros d Hd' Hfile%Hf. by apply (H d key); auto.
  - destruct (proj1 E1 eq_refl) as [H1 H2]. split; [split|split].
    + apply NoDup_app. split; [done|]. split; [|apply NoDup_singleton]. rewrite Hf in Hin. by intros k Hk ->%list_elem_of_singleton.
    + intros k1 k2 [Hk1|Hk1%list_elem_of_singleton]%elem_of_app [Hk2|Hk2%list_elem_of_singleton]%elem_of_app; subst k1 || idtac; subst k2 || idtac.
      * by apply Hc.
      * intros Hdir%H2. by apply Hdir, Hf.
      * intros Hdir. apply H1, Hd. eauto.
      * apply not_own_directory.
    + cbn [files]. intros k. rewrite elem_of_union, elem_of_singleton, Hf, elem_of_app, list_elem_of_singleton. tauto.
    + cbn [directories]. intros d. rewrite E2, Hd. setoid_rewrite elem_of_app. setoid_rewrite list_elem_of_singleton. naive_solver.
Qed.

Lemma compatible_app_l keys l : compatible (keys ++ l) -> compatible keys.
Proof. intros [H1 H2]. split; [by apply NoDup_app in H1 as (?&_)|]. intros k1 k2 Hk1 Hk2. apply H2; apply elem_of_app; by left. Qed.

Lemma admit_all_iff set paths keys : represents set keys -> compatible keys ->
  match admit_all set paths with
  | Ok set' => compatible (keys ++ (path_collision_key <$> paths)) /\ represents set' (keys ++ (path_collision_key <$> paths))
  | Err e => ~ compatible (keys ++ (path_collision_key <$> paths)) /\ code e = DuplicateEntry
  end.
Proof.
  revert set keys. induction paths as [|p paths IH]; intros set keys Hr Hc; cbn [admit_all fmap list_fmap].
  { by rewrite app_nil_r. }
  pose proof (admit_path_iff set p keys Hr Hc) as Hp. destruct (admit_path set p) as [set'|e]; cbn [mbind result_bind].
  - destruct Hp as [Hc' Hr']. specialize (IH set' _ Hr' Hc'). by rewrite <-app_assoc in IH.
  - destruct Hp as [Hp He]. split; [|done]. rewrite cons_middle, app_assoc. by intros H%compatible_app_l.
Qed.

Lemma represents_empty : represents empty_set [].
Proof. unfold represents. cbn. set_solver. Qed.

Lemma compatible_nil : compatible [].
Proof. split; [constructor|]. set_solver. Qed.

Lemma validate_path_set_spec paths :
  match validate_path_set paths with
  | Ok _ => compatible (path_collision_key <$> paths)
  | Err e => ~ compatible (path_collision_key <$> paths) /\ code e = DuplicateEntry
  end.
Proof.
  unfold validate_path_set. pose proof (admit_all_iff empty_set paths [] represents_empty compatible_nil) as H.
  destruct (admit_all empty_set paths); cbn [mbind result_bind]; [by destruct H|done].
Qed.

(** C8 The set rule of a package is exact: a list of paths is admitted exactly when no two of them
    are one path on a file system that ignores case and normalization, and none is a directory
    of another there; every refusal is a duplicate entry.  The verdict does not depend on the
    order in which the paths are admitted. *)
Theorem path_set_exact paths :
  (validate_path_set paths = Ok tt <->
    NoDup (path_collision_key <$> paths) /\
    forall p q, p ∈ paths -> q ∈ paths -> ~ (path_collision_key p ++ [47]) `prefix_of` path_collision_key q) /\
  (forall e, validate_path_set paths = Err e -> code e = DuplicateEntry) /\
  (forall paths', paths ≡ₚ paths' -> is_ok (validate_path_set paths') = is_ok (validate_path_set paths)).
Proof.
  pose proof validate_path_set_spec as Hiff.
  split; [|split].
  - assert (Hc : compatible (path_collision_key <$> paths) <-> NoDup (path_collision_key <$> paths) /\
      forall p q, p ∈ paths -> q ∈ paths -> ~ (path_collision_key p ++ [47]) `prefix_of` path_collision_key q).
    { unfold compatible. setoid_rewrite directories_of_spec. setoid_rewrite list_elem_of_fmap.
      split; intros [H1 H2]; (split; [done|]); [intros p q Hp Hq; apply H2; eauto|]. intros ? ? (p&->&Hp) (q&->&Hq). by apply H2. }
    rewrite <-Hc. specialize (Hiff paths). destruct (validate_path_set paths) as [[]|e]; [done|]. split; [done|]. by intros H%Hiff.
  - intros e He. specialize (Hiff paths). rewrite He in Hiff. apply Hiff.
  - intros paths' Hp. pose proof (Hiff paths) as H1. pose proof (Hiff paths') as H2.
    assert (Hc : compatible (path_collision_key <$> paths) <-> compatible (path_collision_key <$> paths')).
    { unfold compatible. setoid_rewrite Hp. reflexivity. }
    destruct (validate_path_set paths), (validate_path_set paths'); cbn; try done; naive_solver.
Qed.

End sets.

(** ** Accepted paths *)

Section accepted.
Context (nfc : list Z -> list Z).

Lemma split_on_nonempty c s : split_on c s <> [].
Proof. destruct s as [|b s]; cbn; [done|]. destruct (b =? c); [done|]. by destruct (split_on c s). Qed.

(** The rule on components makes the last condition of the guard redundant. *)
Lemma components_normal path : is_absolute path = false ->
  existsb (fun c => bool_decide (c = []) || bool_decide (c = [46]) || bool_decide (c = [46; 46])) (split_on 47 path) = false ->
  components path = Normal <$> split_on 47 path.
Proof.
  intros Ha He. unfold components. rewrite Ha. cbn [app].
  assert (Hall : Forall (fun c => c <> [] /\ c <> [46] /\ c <> [46; 46]) (split_on 47 path)).
  { apply Forall_forall. intros c Hc. apply not_true_iff_false in He. rewrite existsb_exists in He.
    split_and!; intros ->; apply He; eexists; (split; [apply list_elem_of_In; exact Hc|]); done. }
  clear He. assert (Hpiece : forall first c, c <> [] /\ c <> [46] /\ c <> [46; 46] -> component_of first c = Some (Normal c)).
  { intros first c (H1&H2&H3). unfold component_of. by rewrite !decide_False. }
  destruct (split_on 47 path) as [|c rest]; [done|]. apply Forall_cons in Hall as [Hc Hrest].
  cbn [omap list_omap]. rewrite (Hpiece true c Hc). cbn [app fmap list_fmap]. f_equal.
  induction Hrest as [|x rest Hx Hrest IH]; [done|]. cbn [omap list_omap]. rewrite (Hpiece false x Hx). cbn [fmap list_fmap]. by f_equal.
Qed.

Lemma path_violation_None path max : path_violation nfc path max = None ->
  path <> [] /\ lenZ path <= max /\ Forall (fun b => b <> 0 /\ 32 <= b /\ b <> 127 /\ b <> 92) path /\ head path <> Some 47 /\
  components path = Normal <$> split_on 47 path /\ Forall (fun c => component_violation c = None) (split_on 47 path).
Proof.
  unfold path_violation. intros H. match type of H with (if ?g then _ else _) = _ => destruct g eqn:Eg; [done|] end.
  rewrite !orb_false_iff in Eg. destruct Eg as (((((((H1&H2)&H3)&H4)&_)&H6)&H7)&_).
  apply bool_decide_eq_false in H1, H4. apply Z.ltb_ge in H2. split; [done|]. split; [done|]. split; [|split; [|split]].
  - apply Forall_forall. intros b Hb. apply not_true_iff_false in H3. rewrite existsb_exists in H3.
    assert (Hb3 : (b =? 0) || (b <? 0x20) || (b =? 0x7f) = false).
    { apply not_true_iff_false. intros Ht. apply H3. exists b. split; [by apply list_elem_of_In|done]. }
    rewrite !orb_false_iff, !Z.eqb_neq, Z.ltb_ge in Hb3. split_and!; try tauto. intros ->. done.
  - destruct path as [|b path]; [done|]. intros [= ->]. done.
  - by apply components_normal.
  - clear -H. induction (split_on 47 path) as [|c l IH]; [constructor|]. cbn [find_map] in H.
    destruct (component_violation c) eqn:E; [done|]. constructor; auto.
Qed.
End accepted.
