(* ===== verification/Inventory.v ===== *)
(** * The payload inventory of a package, [manifest-sha256.txt].

    The writer is [render_inventory] of
    [crates/graphforge-storage/src/project_portable_export/transport.rs], which emits the rows in
    batches; the reader is [InventoryCheck] of
    [crates/graphforge-storage/src/project_portable/inventory.rs], which is fed the bytes in chunks
    and holds one row. *)

From stdpp Require Import base list strings sets sorting.
From Stdlib Require Import ZArith Lia.
From S2P Require Import Prelude Text Utf8 Pax Portable Tar PortablePath.

Definition INVENTORY_PATH : list Z := bytes_of "manifest-sha256.txt".
Definition INVENTORY_BATCH_BYTES : Z := 64 * 1024.

(** An entry read from a bundle; the metadata of a source file is absent there. *)
Record Entry := {
  entry_path : list Z;
  entry_length : Z;
  entry_digest : list Z;
  entry_bytes : option (list Z);
  entry_offset : option Z;
}.

(** ** The writer *)

Definition row_text (path digest : list Z) : list Z := hex digest ++ [32; 32] ++ path ++ [10].

(** What reaches the sink, batch by batch, and the length returned. *)
Fixpoint render_loop (rows : list (list Z * list Z)) (batch : list Z) (length_ : Z) : outcome (list (list Z) * Z) :=
  match rows with
  | [] => Done (if decide (batch = []) then [] else [batch], length_)
  | (path, digest) :: rows =>
      let row := 64 + 2 + lenZ path + 1 in
      if length_ + row <=? u64_max then
        let full := negb (bool_decide (batch = [])) && (INVENTORY_BATCH_BYTES <? lenZ batch + row) in
        '(batches, total) ← render_loop rows ((if full then [] else batch) ++ row_text path digest) (length_ + row);
        Done ((if full then [batch] else []) ++ batches, total)
      else Fail (error_new LimitExceeded "payload inventory size overflow")
  end.
Definition render_inventory (rows : list (list Z * list Z)) : outcome (list (list Z) * Z) := render_loop rows [] 0.

(** ** The reader *)

Record InventoryCheck := {
  preceding : list Entry;
  check_max_path_bytes : Z;
  next : nat;
  previous : option nat;
  row : list Z;
  length_read : Z;
  failure : option PortableError;
}.

Definition new_check (preceding : list Entry) (max_path_bytes : Z) : InventoryCheck := {|
  preceding := preceding; check_max_path_bytes := max_path_bytes; next := 0; previous := None;
  row := []; length_read := 0; failure := None |}.

Definition structure (d : string) : PortableError := error_at InvalidStructure INVENTORY_PATH d.
Definition mismatch : PortableError := error_at DigestMismatch INVENTORY_PATH "data inventory manifest".

(** [text.split_once(pattern)] *)
Fixpoint split_once (pattern text : list Z) : option (list Z * list Z) :=
  match strip_prefix pattern text with
  | Some rest => Some ([], rest)
  | None =>
      match text with
      | [] => None
      | b :: text' => '(before, rest) ← split_once pattern text'; Some (b :: before, rest)
      end
  end.

Definition is_data (path : list Z) : bool := bool_decide (take 5 path = bytes_of "data/").

(** The entries skipped by the loop over paths outside [data/]. *)
Fixpoint skipped (entries : list Entry) : nat :=
  match entries with
  | e :: entries' => if is_data (entry_path e) then 0%nat else S (skipped entries')
  | [] => 0%nat
  end.

Definition with_row (c : InventoryCheck) (r : list Z) : InventoryCheck := {|
  preceding := preceding c; check_max_path_bytes := check_max_path_bytes c; next := next c; previous := previous c;
  row := r; length_read := length_read c; failure := failure c |}.
Definition with_failure (c : InventoryCheck) (e : PortableError) : InventoryCheck := {|
  preceding := preceding c; check_max_path_bytes := check_max_path_bytes c; next := next c; previous := previous c;
  row := row c; length_read := length_read c; failure := Some e |}.
Definition with_length (c : InventoryCheck) (n : Z) : InventoryCheck := {|
  preceding := preceding c; check_max_path_bytes := check_max_path_bytes c; next := next c; previous := previous c;
  row := row c; length_read := n; failure := failure c |}.
Definition with_position (c : InventoryCheck) (p : option nat) (n : nat) : InventoryCheck := {|
  preceding := preceding c; check_max_path_bytes := check_max_path_bytes c; next := n; previous := p;
  row := row c; length_read := length_read c; failure := failure c |}.

(** [previous >= Some(path)], where nothing is below every path. *)
Definition not_after (previous : option (list Z)) (path : list Z) : bool :=
  match previous with Some p => bool_decide (ord_le path p) | None => false end.

Section unicode.
Context (nfc : list Z -> list Z).

(** The result and the state left; the index of the previous row is always in range, and reading
    it out of range would panic. *)
Definition check_row (c : InventoryCheck) : outcome InventoryCheck :=
  if decide (13 ∈ row c) then Fail (structure "tag manifest line ending")
  else
    match from_utf8 (row c) with
    | None => Fail (structure "tag manifest UTF-8")
    | Some _ =>
        match split_once [32; 32] (row c) with
        | None => Fail (structure "tag manifest record")
        | Some (digest, path) =>
            _ ← of_result (validate_path nfc path (check_max_path_bytes c));
            previous_path ← match previous c with
                            | None => Done None
                            | Some index => match preceding c !! index with Some e => Done (Some (entry_path e)) | None => Stuck end
                            end;
            if negb (sha digest) || not_after previous_path path then Fail (structure "tag manifest order/duplicate")
            else
              let next := (next c + skipped (drop (next c) (preceding c)))%nat in
              match preceding c !! next with
              | None => Fail mismatch
              | Some e =>
                  if decide (entry_path e = path /\ hex (entry_digest e) = digest)
                  then Done (with_position c (Some next) (S next))
                  else Fail mismatch
              end
        end
    end.

(** The end of a row: a failure is kept, and the row is cleared.  After a failure the position is
    never read. *)
Definition complete_row (c : InventoryCheck) : option InventoryCheck :=
  match check_row c with
  | Done c' => Some (with_row c' [])
  | Fail e => Some (with_row (with_failure c e) [])
  | Stuck => None
  end.

(** Longest admissible row without its LF: digest, two spaces, path. *)
Definition row_max (c : InventoryCheck) : Z := 64 + 2 + check_max_path_bytes c.

Fixpoint update_loop (fuel : nat) (c : InventoryCheck) (bytes : list Z) : option InventoryCheck :=
  match failure c, bytes with
  | Some _, _ => Some c
  | None, [] => Some c
  | None, _ :: _ =>
      match fuel with
      | O => None
      | S fuel =>
          let '(part, complete) := match find_byte 10 bytes with
                                   | Some end_ => (take end_ bytes, true)
                                   | None => (bytes, false)
                                   end in
          if row_max c <? lenZ (row c) + lenZ part then Some (with_failure c (structure "tag manifest record length"))
          else
            let c := with_row c (row c ++ part) in
            let bytes := drop (length part + (if complete then 1 else 0)) bytes in
            if complete then c ← complete_row c; update_loop fuel c bytes
            else update_loop fuel c bytes
      end
  end.

Definition update (c : InventoryCheck) (bytes : list Z) : option InventoryCheck :=
  update_loop (length bytes) (with_length c (saturating_add (length_read c) (lenZ bytes))) bytes.

Definition finish (c : InventoryCheck) : result PortableError unit :=
  match failure c with
  | Some e => Err e
  | None =>
      if (length_read c =? 0) || negb (bool_decide (row c = [])) then Err (structure "tag manifest termination")
      else if existsb (fun e => is_data (entry_path e)) (drop (next c) (preceding c)) then Err mismatch
      else Ok tt
  end.

(** The chunks of one inventory in order, then its end. *)
Fixpoint feed (c : InventoryCheck) (chunks : list (list Z)) : option InventoryCheck :=
  match chunks with
  | [] => Some c
  | bytes :: chunks => c ← update c bytes; feed c chunks
  end.
Definition check_inventory (entries : list Entry) (max_path_bytes : Z) (chunks : list (list Z)) : option (result PortableError unit) :=
  c ← feed (new_check entries max_path_bytes) chunks; Some (finish c).

(** ** Rows *)

Lemma split_once_sound pattern text a b : split_once pattern text = Some (a, b) -> text = a ++ pattern ++ b.
Proof.
  revert a. induction text as [|x text IH]; intros a; cbn [split_once]; unfold strip_prefix.
  - destruct (decide _) as [E|]; [|done]. rewrite take_nil in E. intros [= <- <-]. rewrite <-E. by rewrite drop_nil.
  - destruct (decide _) as [E|]; [intros [= <- <-]; cbn [app]|].
    { transitivity (take (length pattern) (x :: text) ++ drop (length pattern) (x :: text)); [by rewrite take_drop|by rewrite E]. }
    destruct (split_once pattern text) as [[a' b']|]; [|done]. cbn. intros [= <- <-]. cbn. f_equal. by apply IH.
Qed.

Lemma split_once_first s p : 32 ∉ s -> split_once [32; 32] (s ++ [32; 32] ++ p) = Some (s, p).
Proof.
  induction s as [|x s IH]; intros Hs; [by destruct p|]. rewrite not_elem_of_cons in Hs. destruct Hs as [Hx Hs].
  change ((x :: s) ++ [32; 32] ++ p) with (x :: (s ++ [32; 32] ++ p)). cbn [split_once]. unfold strip_prefix at 1.
  cbn [length take]. rewrite decide_False by (intros [= -> _]; done). by rewrite IH.
Qed.

(** The row of an entry without its line feed. *)
Definition row_of (e : Entry) : list Z := hex (entry_digest e) ++ [32; 32] ++ entry_path e.

Lemma row_text_of e : row_text (entry_path e) (entry_digest e) = row_of e ++ [10].
Proof. unfold row_text, row_of. by rewrite <-!app_assoc. Qed.

Definition data_entries (es : list Entry) : list Entry := base.filter (fun e => is_data (entry_path e) = true) es.

(** The inventory of the entries read so far. *)
Definition inventory_text (es : list Entry) : list Z :=
  concat ((fun e => row_text (entry_path e) (entry_digest e)) <$> data_entries es).

Lemma skipped_spec es :
  match data_entries es with
  | [] => es !! skipped es = None
  | d :: rest => es !! skipped es = Some d /\ data_entries (drop (S (skipped es)) es) = rest
  end.
Proof.
  unfold data_entries. induction es as [|e es IH]; [done|]. rewrite filter_cons. cbn [skipped].
  destruct (is_data (entry_path e)) eqn:E; [by rewrite decide_True|]. rewrite decide_False by done. apply IH.
Qed.

(** What the admission of an entry ensures. *)
Definition admitted (max : Z) (e : Entry) : Prop :=
  is_str (entry_path e) /\ validate_path nfc (entry_path e) max = Ok tt /\
  Forall is_byte (entry_digest e) /\ length (entry_digest e) = 32%nat.

Section exact.
Context (es : list Entry) (max : Z).
Context (Hadmitted : Forall (admitted max) (data_entries es)).
Context (Hsorted : StronglySorted ord_lt (entry_path <$> data_entries es)).

Lemma validated path : validate_path nfc path max = Ok tt -> path_violation nfc path max = None.
Proof. unfold validate_path. by destruct (path_violation nfc path max). Qed.

Lemma row_facts e : admitted max e ->
  is_str (row_of e) /\ (13 ∉ row_of e) /\ (10 ∉ row_of e) /\ lenZ (row_of e) <= 64 + 2 + max /\
  split_once [32; 32] (row_of e) = Some (hex (entry_digest e), entry_path e).
Proof.
  intros (Hs&Hv%validated&Hb&Hl). apply path_violation_None in Hv as (_&Hlen&Hc&_).
  pose proof (hex_digits _ Hb) as Hhex. rewrite Forall_forall in Hc, Hhex.
  assert (Hno : forall b, b < 32 -> b ∉ row_of e).
  { intros b Hlt. unfold row_of. intros [Hin|[Hin|Hin]%elem_of_app]%elem_of_app.
    - destruct (Hhex b Hin) as (Hd&_). unfold is_ascii_hexdigit in Hd.
      rewrite !orb_true_iff, !andb_true_iff, !Z.leb_le in Hd. lia.
    - rewrite !elem_of_cons, elem_of_nil in Hin. lia.
    - apply Hc in Hin. lia. }
  split_and!; [| apply Hno; lia | apply Hno; lia | |].
  - unfold row_of. apply is_str_app; [|apply is_str_app; [|done]].
    + apply is_str_ascii, Forall_forall. intros b Hin. destruct (Hhex b Hin) as (_&_&?). lia.
    + by eexists.
  - unfold row_of. rewrite !length_app, hex_length, Hl. cbn [length]. lia.
  - apply split_once_first. intros Hin. destruct (Hhex 32 Hin) as (Hd&_). done.
Qed.

(** The position of the check after the rows of [done]. *)
Definition at_position (c : InventoryCheck) (done rest : list Entry) : Prop :=
  preceding c = es /\ check_max_path_bytes c = max /\ failure c = None /\
  data_entries es = done ++ rest /\ data_entries (drop (next c) es) = rest /\
  match last done with
  | None => previous c = None
  | Some d => exists i, previous c = Some i /\ es !! i = Some d
  end.

Lemma position_ordered c done d rest : at_position c done (d :: rest) ->
  exists p, match previous c with
            | None => Done None
            | Some index => match preceding c !! index with Some e => Done (Some (entry_path e)) | None => Stuck end
            end = Done p /\ not_after p (entry_path d) = false.
Proof.
  intros (->&_&_&Hdata&_&Hprev). destruct (last done) as [l|] eqn:El.
  - destruct Hprev as (i&->&->). eexists. split; [done|]. cbn. apply bool_decide_eq_false. intros Hle.
    apply last_Some in El as [l' ->]. rewrite Hdata, !fmap_app, <-app_assoc in Hsorted.
    apply StronglySorted_app_1_r in Hsorted. cbn in Hsorted. apply StronglySorted_inv in Hsorted as [_ Hall].
    apply Forall_cons in Hall as [[H1 H2] _]. apply H2. by apply ord_antisymm.
  - rewrite Hprev. by eexists.
Qed.

(** A row is accepted exactly when it is the next row of the inventory. *)
Lemma check_row_spec c done rest : at_position c done rest ->
  (exists d rest', rest = d :: rest' /\ row c = row_of d /\
    exists i, check_row c = Done (with_position c (Some i) (S i)) /\ at_position (with_position c (Some i) (S i)) (done ++ [d]) rest') \/
  (exists e, check_row c = Fail e) /\ forall d rest', rest = d :: rest' -> row c <> row_of d.
Proof.
  intros Hpos. pose proof Hpos as (Hes&Hmax&Hf&Hdata&Hnext&Hprev).
  assert (Hcase : (exists d rest', rest = d :: rest' /\ row c = row_of d) \/ forall d rest', rest = d :: rest' -> row c <> row_of d).
  { destruct rest as [|d rest']; [by right|]. destruct (decide (row c = row_of d)); [by left; exists d, rest'|right; by intros ? ? [= <- <-]]. }
  destruct Hcase as [(d&rest'&->&Hrow)|Hno].
  - left. exists d, rest'. split; [done|]. split; [done|].
    assert (Hadm : admitted max d).
    { rewrite Hdata in Hadmitted. apply Forall_app in Hadmitted as [_ H]. by apply Forall_cons in H as [? _]. }
    destruct (row_facts d Hadm) as ([cs Hs]&H13&_&_&Hsplit). pose proof (skipped_spec (drop (next c) es)) as Hsk.
    rewrite Hnext in Hsk. destruct Hsk as [Hsk1 Hsk2]. rewrite lookup_drop in Hsk1. rewrite drop_drop in Hsk2.
    exists (next c + skipped (drop (next c) es))%nat. split.
    + unfold check_row. rewrite Hrow, decide_False, Hs, Hsplit, Hmax by done. destruct Hadm as (_&Hv&Hb&Hl).
      rewrite Hv. cbn [of_result mbind outcome_bind]. destruct (position_ordered c done d rest' Hpos) as (p&Hp&Hna).
      rewrite Hp. cbn [mbind outcome_bind]. rewrite sha_hex, Hna by done. cbn [negb orb]. rewrite Hes, Hsk1.
      by rewrite decide_True.
    + split_and!; try done; cbn.
      * by rewrite <-app_assoc.
      * by rewrite <-Nat.add_succ_r.
      * rewrite last_snoc. eauto.
  - right. split; [|done].
    unfold check_row. destruct (decide (13 ∈ row c)); [by eexists|]. destruct (from_utf8 (row c)); [|by eexists].
    destruct (split_once [32; 32] (row c)) as [[digest path]|] eqn:Esp; [|by eexists]. apply split_once_sound in Esp.
    rewrite Hmax. destruct (validate_path nfc path max) as [[]|]; [|by eexists]. cbn [of_result mbind outcome_bind].
    assert (Hp : exists p, match previous c with None => Done None
      | Some index => match preceding c !! index with Some e => Done (Some (entry_path e)) | None => Stuck end end = Done p).
    { destruct (last done) as [d0|]; [|rewrite Hprev; by eexists]. destruct Hprev as (i&->&Hi). rewrite Hes, Hi. by eexists. }
    destruct Hp as [p ->]. cbn [mbind outcome_bind]. destruct (_ || _); [by eexists|]. rewrite Hes.
    pose proof (skipped_spec (drop (next c) es)) as Hsk. rewrite Hnext in Hsk. rewrite <-lookup_drop.
    destruct rest as [|d rest']; [rewrite Hsk; by eexists|]. destruct Hsk as [-> _].
    destruct (decide _) as [[<- <-]|]; [|by eexists]. exfalso. by apply (Hno d rest').
Qed.

(** ** Lines *)

Lemma line_prefix a m w z : 10 ∉ a -> a ++ m = w ++ 10 :: z -> (length a <= length w)%nat.
Proof.
  intros Ha H. apply app_eq_inv in H as [(k&->&Hk)|(k&->&Hk)]; [|rewrite length_app; lia].
  destruct k as [|x k]; [rewrite app_nil_r; lia|]. injection Hk as <- ->. exfalso. apply Ha, elem_of_app. right. apply elem_of_cons. by left.
Qed.

Lemma line_eq a x w z : 10 ∉ a -> 10 ∉ w -> a ++ 10 :: x = w ++ 10 :: z -> a = w.
Proof.
  intros Ha Hw H. pose proof (line_prefix a _ w z Ha H). pose proof (line_prefix w _ a x Hw (eq_sym H)).
  apply app_inj_1 in H as [? _]; [done|lia].
Qed.

Lemma find_byte_Some c s i : find_byte c s = Some i -> exists rest, s = take i s ++ c :: rest /\ (c ∉ take i s) /\ length (take i s) = i.
Proof.
  revert i. induction s as [|b s IH]; intros i; [done|]. cbn [find_byte]. destruct (Z.eqb_spec b c) as [->|Hb].
  - intros [= <-]. exists s. split; [done|]. split; [apply not_elem_of_nil|done].
  - destruct (find_byte c s) as [j|] eqn:E; [|done]. intros [= <-]. destruct (IH j eq_refl) as (rest&H1&H2&H3). exists rest.
    cbn [take length app]. split; [by f_equal|]. split; [|by f_equal]. apply not_elem_of_cons. done.
Qed.

Lemma find_byte_None c s : find_byte c s = None -> c ∉ s.
Proof.
  induction s as [|b s IH]; [intros _; apply not_elem_of_nil|]. cbn [find_byte]. destruct (Z.eqb_spec b c) as [->|Hb]; [done|].
  destruct (find_byte c s); [done|]. intros _. apply not_elem_of_cons. auto.
Qed.

(** ** Feeding *)

Definition rows (l : list Entry) : list Z := concat ((fun e => row_text (entry_path e) (entry_digest e)) <$> l).

Lemma rows_app l1 l2 : rows (l1 ++ l2) = rows l1 ++ rows l2.
Proof. unfold rows. by rewrite fmap_app, concat_app. Qed.

Lemma rows_cons e l : rows (e :: l) = row_of e ++ 10 :: rows l.
Proof. unfold rows. cbn [fmap list_fmap concat]. rewrite row_text_of. by rewrite <-app_assoc. Qed.

(** The check after the text [t]: it has failed and [t] does not begin the inventory, or it
    stands inside the row that [t] ends with. *)
Definition state_of (t : list Z) (c : InventoryCheck) : Prop :=
  (is_Some (failure c) /\ forall u, t ++ u <> inventory_text es) \/
  exists done rest, at_position c done rest /\ t = rows done ++ row c /\ 10 ∉ row c.

Context (Hmax : 0 <= max).

Lemma rest_admitted c done d rest : at_position c done (d :: rest) -> admitted max d.
Proof.
  intros (_&_&_&Hdata&_). rewrite Hdata in Hadmitted. apply Forall_app in Hadmitted as [_ H]. by apply Forall_cons in H as [? _].
Qed.

(** What follows the rows already read, if the text goes on as the inventory does. *)
Lemma inventory_rest c done rest x : at_position c done rest -> rows done ++ x = inventory_text es -> x = rows rest.
Proof.
  intros (_&_&_&Hdata&_) H. unfold inventory_text in H. rewrite Hdata in H. change (rows done ++ x = rows (done ++ rest)) in H.
  rewrite rows_app in H. by apply app_inv_head in H.
Qed.

Lemma overlong_row c done rest part more u : at_position c done rest -> 10 ∉ row c ++ part ->
  row_max c < lenZ (row c) + lenZ part -> ((rows done ++ row c) ++ part ++ more) ++ u <> inventory_text es.
Proof.
  intros Hpos H10 Hlong H. rewrite <-!app_assoc in H. apply (inventory_rest c done rest) in H; [|done].
  pose proof Hpos as (_&Hm&_). unfold row_max in Hlong. rewrite Hm in Hlong. destruct rest as [|d rest].
  - destruct (row c), part; cbn in *; try discriminate H; lia.
  - destruct (row_facts d (rest_admitted _ _ _ _ Hpos)) as (_&_&_&Hlen&_). rewrite rows_cons, app_assoc in H.
    apply line_prefix in H; [|done]. rewrite length_app in H. lia.
Qed.

Lemma wrong_row c done rest more u : at_position c done rest -> 10 ∉ row c ->
  (forall d rest', rest = d :: rest' -> row c <> row_of d) -> ((rows done ++ row c) ++ 10 :: more) ++ u <> inventory_text es.
Proof.
  intros Hpos H10 Hno H. rewrite <-!app_assoc in H. apply (inventory_rest c done rest) in H; [|done]. destruct rest as [|d rest].
  - by destruct (row c).
  - destruct (row_facts d (rest_admitted _ _ _ _ Hpos)) as (_&_&Hd&_). rewrite rows_cons in H. cbn [app] in H.
    apply line_eq in H; [|done|done]. by apply (Hno d rest).
Qed.

Lemma update_loop_spec fuel c bytes t : (length bytes <= fuel)%nat -> state_of t c ->
  exists c', update_loop fuel c bytes = Some c' /\ state_of (t ++ bytes) c' /\ length_read c' = length_read c.
Proof.
  revert c bytes t. induction fuel as [|fuel IH]; intros c bytes t Hf Hst.
  { destruct bytes; [|cbn in Hf; lia]. exists c. rewrite app_nil_r. split; [|done]. cbn. by destruct (failure c). }
  destruct Hst as [[[e He] Hbad]|(done&rest&Hpos&->&H10)].
  { exists c. cbn [update_loop]. rewrite He. split; [done|]. split; [|done]. left. split; [by eexists|].
    intros u. rewrite <-app_assoc. apply Hbad. }
  pose proof Hpos as (_&_&Hfail&_). cbn [update_loop]. rewrite Hfail.
  destruct bytes as [|b bytes]; [exists c; rewrite app_nil_r; split; [done|]; split; [|done]; right; by exists done, rest|].
  set (bs := b :: bytes) in *. assert (Hne : bs <> []) by done. clearbody bs. clear b bytes.
  assert (Hpos' : forall r, at_position (with_row c r) done rest) by (intros r; exact Hpos).
  destruct (find_byte 10 bs) as [i|] eqn:Efind.
  - apply find_byte_Some in Efind as (more&Hbs&Hpart&Hi). set (part := take i bs) in *. clearbody part. subst bs.
    assert (H10' : 10 ∉ row c ++ part) by (rewrite not_elem_of_app; done).
    destruct (Z.ltb_spec (row_max c) (lenZ (row c) + lenZ part)) as [Hlong|Hshort].
    { eexists. split; [done|]. split; [|done]. left. split; [by eexists|]. intros u. by apply (overlong_row c done rest). }
    replace (drop (length part + 1) (part ++ 10 :: more)) with more by (by rewrite <-drop_drop, drop_app_length).
    assert (Hmore : (length more <= fuel)%nat) by (rewrite length_app in Hf; cbn in Hf; lia).
    set (c1 := with_row c (row c ++ part)). unfold complete_row.
    destruct (check_row_spec c1 done rest (Hpos' _)) as [(d&rest'&->&Hrow&k&Hcheck&Hpos2)|[[e He] Hno]].
    + rewrite Hcheck. cbn [mbind option_bind].
      destruct (IH (with_row (with_position c1 (Some k) (S k)) []) more ((rows done ++ row c) ++ part ++ [10]) Hmore) as (c'&H1&H2&H3).
      { right. exists (done ++ [d]), rest'. split; [exact Hpos2|]. split; [|cbn; apply not_elem_of_nil]. cbn [row with_row] in *.
        rewrite rows_app, app_nil_r, rows_cons, <-Hrow. change (rows []) with (@nil Z). change (row c1) with (row c ++ part). by rewrite <-!app_assoc. }
      exists c'. split; [exact H1|]. split; [|exact H3]. rewrite <-!app_assoc in H2. rewrite <-app_assoc. exact H2.
    + rewrite He. cbn [mbind option_bind].
      destruct (IH (with_row (with_failure c1 e) []) more ((rows done ++ row c) ++ part ++ [10]) Hmore) as (c'&H1&H2&H3).
      { left. split; [by eexists|]. intros u. pose proof (wrong_row c1 done rest [] u (Hpos' _) H10' Hno) as H.
        change (row c1) with (row c ++ part) in H. rewrite <-!app_assoc in H. rewrite <-!app_assoc. exact H. }
      exists c'. split; [exact H1|]. split; [|exact H3]. rewrite <-!app_assoc in H2. rewrite <-app_assoc. exact H2.
  - apply find_byte_None in Efind. assert (H10' : 10 ∉ row c ++ bs) by (rewrite not_elem_of_app; done).
    destruct (Z.ltb_spec (row_max c) (lenZ (row c) + lenZ bs)) as [Hlong|Hshort].
    { eexists. split; [done|]. split; [|done]. left. split; [by eexists|]. intros u.
      pose proof (overlong_row c done rest bs [] u Hpos H10' Hlong) as H. by rewrite app_nil_r in H. }
    rewrite Nat.add_0_r, drop_all. exists (with_row c (row c ++ bs)). split; [destruct fuel; cbn; by rewrite Hfail|].
    split; [|done]. right. exists done, rest. split; [exact (Hpos' _)|]. split; [by rewrite <-app_assoc|done].
Qed.

Lemma feed_spec chunks c t : state_of t c -> 0 <= length_read c -> (length_read c = 0 <-> t = []) ->
  exists c', feed c chunks = Some c' /\ state_of (t ++ concat chunks) c' /\ (length_read c' = 0 <-> t ++ concat chunks = []).
Proof.
  revert c t. induction chunks as [|bytes chunks IH]; intros c t Hst Hpos Hlen; cbn [feed concat].
  { exists c. by rewrite app_nil_r. }
  unfold update. set (n := saturating_add (length_read c) (lenZ bytes)).
  destruct (update_loop_spec (length bytes) (with_length c n) bytes t) as (c1&H1&H2&H3); [done|exact Hst|].
  rewrite H1. cbn [mbind option_bind]. rewrite app_assoc. apply IH; [done| |].
  - rewrite H3. cbn. unfold n, saturating_add, usize_max, u64_max. lia.
  - rewrite H3. cbn [length_read with_length]. unfold n, saturating_add, usize_max, u64_max. rewrite app_nil.
    destruct bytes; cbn [length]; [rewrite <-Hlen; split; [intros; split; [lia|done]|lia]|split; [lia|by intros [_ ?]]].
Qed.

Lemma inventory_finish_spec t c : state_of t c -> (length_read c = 0 <-> t = []) ->
  finish c = Ok tt <-> t = inventory_text es /\ t <> [].
Proof.
  intros [[[e He] Hbad]|(done&rest&Hpos&Ht&H10)] Hlen; unfold finish.
  { rewrite He. split; [done|]. intros [-> _]. exfalso. apply (Hbad []). by rewrite app_nil_r. }
  pose proof Hpos as (Hes&_&->&Hdata&Hnext&_). rewrite Hes.
  assert (Hex : existsb (fun e => is_data (entry_path e)) (drop (next c) es) = false <-> rest = []).
  { rewrite <-Hnext. unfold data_entries. generalize (drop (next c) es). intros l. induction l as [|e l IH]; [done|].
    cbn [existsb]. rewrite filter_cons. destruct (is_data (entry_path e)); [by rewrite decide_True|]. by rewrite decide_False. }
  assert (Hinv : inventory_text es = rows done ++ rows rest) by (unfold inventory_text; rewrite Hdata; apply rows_app).
  split.
  - destruct (Z.eqb_spec (length_read c) 0) as [|Hl]; [done|]. cbn [orb].
    destruct (bool_decide_reflect (row c = [])) as [Hr|]; [|done]. cbn [negb].
    destruct (existsb _ _); [done|]. rewrite (proj1 Hex eq_refl) in Hinv. intros _. split; [by rewrite Hinv, Ht, Hr|by rewrite <-Hlen].
  - intros [Heq Hne]. rewrite Ht, Hinv in Heq. apply app_inv_head in Heq. destruct rest as [|d rest].
    + rewrite Heq, bool_decide_true by done. rewrite (proj2 (Z.eqb_neq _ _)) by (by rewrite Hlen). cbn [orb negb].
      by rewrite (proj2 Hex).
    + exfalso. apply H10. rewrite Heq, rows_cons. apply elem_of_app. right. apply elem_of_cons. by left.
Qed.
End exact.

(** ** Rendering *)

Lemma row_text_length path digest : length digest = 32%nat -> lenZ (row_text path digest) = 64 + 2 + lenZ path + 1.
Proof. intros Hd. unfold row_text. rewrite !length_app, hex_length, Hd. cbn [length]. lia. Qed.

Lemma render_loop_spec max l batch n : 0 <= max ->
  Forall (fun r => lenZ r.1 <= max /\ length r.2 = 32%nat) l ->
  n + lenZ (concat ((fun r => row_text r.1 r.2) <$> l)) <= u64_max ->
  lenZ batch <= Z.max INVENTORY_BATCH_BYTES (67 + max) ->
  exists batches, render_loop l batch n = Done (batches, n + lenZ (concat ((fun r => row_text r.1 r.2) <$> l))) /\
    concat batches = batch ++ concat ((fun r => row_text r.1 r.2) <$> l) /\
    Forall (fun b => lenZ b <= Z.max INVENTORY_BATCH_BYTES (67 + max)) batches.
Proof.
  intros Hmax Hl. revert batch n. induction Hl as [|[path digest] l [Hp Hd] Hl IH]; intros batch n Hn Hb; cbn [fmap list_fmap concat fst snd] in *.
  - exists (if decide (batch = []) then [] else [batch]). cbn [render_loop length]. rewrite Z.add_0_r. split; [done|].
    destruct (decide (batch = [])) as [->|]; cbn [concat]; rewrite ?app_nil_r; (split; [done|]); [constructor|]. by apply Forall_singleton.
  - cbn [render_loop]. rewrite length_app in Hn. pose proof (row_text_length path digest Hd) as Hrow.
    rewrite (proj2 (Z.leb_le _ _)) by lia.
    set (full := negb (bool_decide (batch = [])) && (INVENTORY_BATCH_BYTES <? lenZ batch + (64 + 2 + lenZ path + 1))).
    destruct (IH ((if full then [] else batch) ++ row_text path digest) (n + (64 + 2 + lenZ path + 1))) as (bs&H1&H2&H3).
    + lia.
    + rewrite length_app, Nat2Z.inj_add, Hrow. destruct full eqn:Ef; cbn [length]; [lia|]. apply andb_false_iff in Ef as [Ef|Ef].
      * apply negb_false_iff, bool_decide_eq_true in Ef as ->. cbn [length]. lia.
      * apply Z.ltb_ge in Ef. lia.
    + rewrite H1. cbn [mbind outcome_bind]. eexists. split; [|split].
      * rewrite length_app. rewrite (Nat2Z.inj_add (length (row_text path digest))), Hrow. by rewrite !Z.add_assoc.
      * rewrite concat_app, H2. destruct full; cbn [concat app]; by rewrite ?app_nil_r, ?app_assoc.
      * apply Forall_app. split; [|done]. destruct full; [by apply Forall_singleton|constructor].
Qed.

(** A check that starts anew always ends, and accepts the inventory of the entries only. *)
Lemma feed_new es max chunks :
  0 <= max -> Forall (admitted max) (data_entries es) -> StronglySorted ord_lt (entry_path <$> data_entries es) ->
  exists c, feed (new_check es max) chunks = Some c /\
    (finish c = Ok tt <-> concat chunks = inventory_text es /\ concat chunks <> []).
Proof.
  intros Hmax Hadm Hsorted.
  destruct (feed_spec es max Hadm Hsorted Hmax chunks (new_check es max) []) as (c&Hc&Hst&Hl); [|done|done|].
  { right. exists [], (data_entries es). repeat split; try done. apply not_elem_of_nil. }
  exists c. split; [done|]. exact (inventory_finish_spec es max _ c Hst Hl).
Qed.

Definition rows_of (es : list Entry) : list (list Z * list Z) := (fun e => (entry_path e, entry_digest e)) <$> data_entries es.

(** C7 The streamed inventory is exact.  For entries in canonical order that the reader has
    admitted, the check accepts a text exactly when it is the one inventory of the [data/]
    entries, whatever the chunks it arrives in, and the writer renders that text, with its
    length, in batches that never exceed the batch size or one row. *)
Theorem inventory_exact es max :
  0 <= max -> Forall (admitted max) (data_entries es) -> StronglySorted ord_lt (entry_path <$> data_entries es) ->
  data_entries es <> [] -> lenZ (inventory_text es) <= u64_max ->
  (forall chunks, exists verdict, check_inventory es max chunks = Some verdict /\
    (verdict = Ok tt <-> concat chunks = inventory_text es)) /\
  exists batches, render_inventory (rows_of es) = Done (batches, lenZ (inventory_text es)) /\
    concat batches = inventory_text es /\ Forall (fun b => lenZ b <= Z.max INVENTORY_BATCH_BYTES (67 + max)) batches.
Proof.
  intros Hmax Hadm Hsorted Hdata Hlen.
  assert (Hne : inventory_text es <> []).
  { unfold inventory_text. destruct (data_entries es); [done|]. cbn [fmap list_fmap concat]. unfold row_text.
    rewrite <-!app_assoc. by intros [_ [? _]%app_nil]%app_nil. }
  split.
  - intros chunks. unfold check_inventory.
    destruct (feed_new es max chunks Hmax Hadm Hsorted) as (c&Hc&Hiff). rewrite Hc. eexists. split; [done|]. rewrite Hiff. split; [by intros [? _]|].
    intros ->. done.
  - assert (Htext : inventory_text es = concat ((fun r => row_text r.1 r.2) <$> rows_of es)).
    { unfold inventory_text, rows_of. by rewrite <-list_fmap_compose. }
    unfold render_inventory. rewrite Htext in Hlen |- *.
    destruct (render_loop_spec max (rows_of es) [] 0 Hmax) as (bs&H1&H2&H3); [| |cbn; lia|by exists bs].
    + unfold rows_of. apply Forall_fmap. eapply Forall_impl; [exact Hadm|]. intros e (_&Hv%validated&_&Hd). cbn. split; [|done].
      by apply path_violation_None in Hv as (_&?&_).
    + lia.
Qed.
End unicode.

Definition sample_entry (path : string) (n : Z) : Entry := {|
  entry_path := bytes_of path; entry_length := n; entry_digest := replicate 32 n; entry_bytes := None; entry_offset := None |}.
Definition sample_entries : list Entry := [sample_entry "bagit.txt" 1; sample_entry "data/a" 2; sample_entry "data/b c" 3].

Lemma inventory_exact_witness :
  data_entries sample_entries = [sample_entry "data/a" 2; sample_entry "data/b c" 3] /\
  exists verdict, check_inventory (fun s => s) sample_entries 4096 [inventory_text sample_entries] = Some verdict /\
    (verdict = Ok tt <-> concat [inventory_text sample_entries] = inventory_text sample_entries).
Proof.
  assert (Hd : data_entries sample_entries = [sample_entry "data/a" 2; sample_entry "data/b c" 3]) by (vm_compute; reflexivity).
  split; [exact Hd|].
  assert (Hadm : Forall (admitted (fun s => s) 4096) (data_entries sample_entries)).
  { rewrite Hd. apply Forall_cons. split; [|apply Forall_singleton]; (split; [vm_compute; eauto|]; split; [vm_compute; reflexivity|];
      split; [apply Forall_replicate; unfold is_byte; lia|reflexivity]). }
  assert (Hsort : StronglySorted ord_lt (entry_path <$> data_entries sample_entries)).
  { rewrite Hd. apply SSorted_cons; [apply SSorted_cons; [apply SSorted_nil|constructor]|]. apply Forall_singleton.
    split; [vm_compute; tauto|discriminate]. }
  assert (Hlen : lenZ (inventory_text sample_entries) <= u64_max) by (vm_compute; discriminate).
  destruct (inventory_exact (fun s => s) sample_entries 4096 ltac:(lia) Hadm Hsort ltac:(rewrite Hd; discriminate) Hlen) as [H _].
  exact (H [inventory_text sample_entries]).
Defined.
