(* ===== verification/Bundle.v ===== *)
(** * Bundles: writing and scanning a whole package.

    The writer is [entries], [tag_manifest], [stream] and [bundle] of
    [crates/graphforge-storage/src/project_portable_export/transport.rs]; the reader is
    [read_bundle] and the functions it calls in
    [crates/graphforge-storage/src/project_portable.rs], as [verify_portable] runs it on a file:
    without a cancellation flag, a sink, the writer's evidence or a page walk.  A file is the list
    of its bytes; the only read error is its end.  SHA-256, the checksum of the exporter, the
    parser of UUIDs and the Unicode tables are parameters. *)

From stdpp Require Import base list strings sets sorting.
From Stdlib Require Import ZArith Lia.
From S2P Require Import Prelude Text Utf8 Numerals Pax Portable Tar PortablePath Inventory.

Definition MANIFEST_PATH : list Z := bytes_of "data/graphforge-project.json".
Definition RUNTIME_MAP_PATH : list Z :=
  bytes_of "data/components/compatibility/graphforge-runtime-map/runtime-generation.json".
Definition ONTOLOGY_COMPOSITION_PATH : list Z :=
  bytes_of "data/components/compatibility/graphforge-ontology-composition/composition.json".
Definition BAGIT : list Z := bytes_of "BagIt-Version: 1.0
Tag-File-Character-Encoding: UTF-8
".
Definition BAG_INFO : list Z := bytes_of "Bag-Software-Agent: GraphForge portable
Bagging-Date: 1970-01-01
".
Definition BAGIT_PATH : list Z := bytes_of "bagit.txt".
Definition BAG_INFO_PATH : list Z := bytes_of "bag-info.txt".
Definition TAG_MANIFEST_PATH : list Z := bytes_of "tagmanifest-sha256.txt".
Definition MAX_WORKSPACE_SAVED_QUERIES_BYTES : Z := 1024 * 1024.

Definition starts_with (prefix s : list Z) : bool := bool_decide (take (length prefix) s = prefix).

(** ** Limits on an entry *)

Record Census := {
  census_entries : Z;
  census_total : Z;
}.
Definition empty_census : Census := {| census_entries := 0; census_total := 0 |}.

Definition enforce_length (path : list Z) (length_ total : Z) (limits : PortableLimits) : result PortableError Z :=
  if max_entry_bytes limits <? length_ then Err (error_at LimitExceeded path "entry size")
  else if u64_max <? total + length_ then Err (error_new LimitExceeded "total overflow")
  else if max_total_bytes limits <? total + length_ then Err (error_new LimitExceeded "declared total")
  else Ok (total + length_).

Definition census_admit (census : Census) (path : list Z) (size : Z) (limits : PortableLimits) : result PortableError Census :=
  let entries := saturating_add (census_entries census) 1 in
  if max_entries limits <? entries then Err (error_at LimitExceeded path "entry count")
  else total ← enforce_length path size (census_total census) limits; Ok {| census_entries := entries; census_total := total |}.

(** Whether a payload is kept: [None] when it is not. *)
Definition retain_payload (length_ : Z) (limit : option Z) (path : list Z) : result PortableError bool :=
  match limit with
  | None => Ok false
  | Some limit =>
      if limit <? length_ then Err (error_at LimitExceeded path "retained control entry exceeds limit")
      else if usize_max <? length_ then Err (error_at LimitExceeded path "retained tag does not fit address space")
      else Ok true
  end.

Definition retained_limit (path : list Z) (limits : PortableLimits) (package_entries : Z) : option Z :=
  if decide (path = MANIFEST_PATH) then Some (semantic_manifest_bound limits package_entries)
  else if decide (path = RUNTIME_MAP_PATH \/ path = ONTOLOGY_COMPOSITION_PATH) then Some (max_manifest_bytes limits)
  else if decide (path = BAGIT_PATH \/ path = BAG_INFO_PATH \/ path = TAG_MANIFEST_PATH) then Some (max_tag_manifest_bytes limits)
  else None.

Definition pooled_limit (path : list Z) (limits : PortableLimits) : option Z :=
  rest ← strip_prefix (bytes_of "data/components/") path;
  kind ← head (split_on 47 rest);
  if decide (kind = bytes_of "ontology" \/ kind = bytes_of "schema" \/ kind = bytes_of "compatibility")
  then Some (max_manifest_bytes limits)
  else if decide (kind = bytes_of "settings") then Some MAX_WORKSPACE_SAVED_QUERIES_BYTES
  else None.

(** The limit of an entry and what is left of the pool. *)
Definition choose_limit (path : list Z) (size : Z) (limits : PortableLimits) (package_entries pool : Z) : option Z * Z :=
  match retained_limit path limits package_entries with
  | Some limit => (Some limit, pool)
  | None =>
      match pooled_limit path limits with
      | None => (None, pool)
      | Some cap => if (size <=? cap) && (size <=? pool) then (Some size, pool - size) else (None, pool)
      end
  end.

(** ** Reading *)

(** [reader.read_exact] of [n] bytes: what was read and what follows. *)
Definition read_exact (n : Z) (stream : list Z) (d : string) : result PortableError (list Z * list Z) :=
  if lenZ stream <? n then Err (error_new InvalidStructure d)
  else Ok (take (Z.to_nat n) stream, drop (Z.to_nat n) stream).

Definition read_padding (size : Z) (stream : list Z) : result PortableError (list Z) :=
  '(p, stream) ← read_exact (padding size) stream "truncated padding";
  _ ← check (existsb (fun b => negb (b =? 0)) p) (error_new InvalidStructure "non-zero padding");
  Ok stream.

Definition read_payload (size max : Z) (stream : list Z) : result PortableError (list Z * list Z) :=
  if max <? size then Err (error_new LimitExceeded "PAX record")
  else if usize_max <? size then Err (error_new LimitExceeded "PAX record does not fit address space")
  else
    '(v, stream) ← read_exact size stream "truncated payload";
    stream ← read_padding size stream;
    Ok (v, stream).

Record BundleScan := {
  scan_entries : list Entry;
  transport_digest : list Z;
  scan_inventory : option (result PortableError unit);
}.

(** The variables of [read_bundle]; [stream] is what is left to read. *)
Record Scan := {
  stream : list Z;
  entries : list Entry;
  census : Census;
  path_set : PathSet;
  inventory_verdict : option (result PortableError unit);
  pending_pax : option (PaxHeader * list Z);
  retained_pool : Z;
  position : Z;
}.

Inductive turn_result :=
| Continue (st : Scan)
| Break (st : Scan).

Definition of_pax {A} (r : option (result string A)) : outcome A :=
  match r with
  | None => Stuck
  | Some (Ok a) => Done a
  | Some (Err d) => Fail (error_new InvalidStructure d)
  end.

Definition lift {A} (o : option A) : outcome A := match o with Some a => Done a | None => Stuck end.


Section bundle.
Context (sha256 : list Z -> list Z) (parse_uuid : list Z -> option (list Z)).
Context (nfc nfd fold_string : list Z -> list Z).

(** ** Reserved paths *)

Definition RETAINED : list Z := bytes_of "data/components/research/research-retained/".
Definition EVIDENCE : list Z := bytes_of "data/components/research/research-retained-evidence/".

(** [parse_uuid] gives the canonical text of the UUID it reads. *)
Definition object_path (version digest : list Z) (evidence_only : bool) : list Z :=
  (if evidence_only then EVIDENCE else RETAINED) ++ version ++ [47] ++ digest.

Definition is_lower_hex (b : Z) : bool := ((48 <=? b) && (b <=? 57)) || ((97 <=? b) && (b <=? 102)).

Definition object_key (path : list Z) : option (list Z * list Z * bool) :=
  find_map (fun '(prefix, evidence_only) =>
      rest ← strip_prefix prefix path;
      '(version, digest) ← split_once [47] rest;
      version ← parse_uuid version;
      if (lenZ digest =? 64) && forallb is_lower_hex digest && bool_decide (object_path version digest evidence_only = path)
      then Some (version, digest, evidence_only) else None)
    [(RETAINED, false); (EVIDENCE, true)].

Definition is_evidence_only (path : list Z) : bool :=
  match object_key path with Some (_, _, true) => true | _ => false end.

Definition check_reserved_path (path : list Z) : result PortableError unit :=
  check (starts_with EVIDENCE path && negb (is_evidence_only path))
    (error_at InvalidStructure path "research evidence directory holds only canonical evidence objects").

(** ** Payloads *)

(** The copy loop: the chunks of the payload in order. *)
Fixpoint payload_loop (fuel : nat) (buffer left : Z) (stream payload : list Z) (inventory : option InventoryCheck) :
    outcome (list Z * list Z * option InventoryCheck) :=
  if left <=? 0 then Done (payload, stream, inventory)
  else
    match fuel with
    | O => Stuck
    | S fuel =>
        let chunk_len := Z.min left buffer in
        '(chunk, stream) ← of_result (read_exact chunk_len stream "truncated payload");
        inventory ← match inventory with
                    | None => Done None
                    | Some c => c ← lift (update nfc c chunk); Done (Some c)
                    end;
        payload_loop fuel buffer (left - chunk_len) stream (payload ++ chunk) inventory
    end.

Definition hash_payload (size buffer : Z) (retain_limit : option Z) (inventory : option InventoryCheck) (path stream : list Z) :
    outcome (list Z * option (list Z) * option InventoryCheck * list Z) :=
  keep ← of_result (retain_payload size retain_limit path);
  '(payload, stream, inventory) ← payload_loop (S (length stream)) buffer size stream [] inventory;
  stream ← of_result (read_padding size stream);
  Done (sha256 payload, (if (keep : bool) then Some payload else None), inventory, stream).

(** ** The loop of [read_bundle] *)

Definition read_header (first : bool) (stream : list Z) : result PortableError (list Z * list Z) :=
  if first then
    '(start, stream) ← read_exact 16 stream "bundle header";
    _ ← check (bool_decide (start = RETIRED_PROJECT_SIGNATURE)) (error_new UnsupportedProjectFormat "unsupported project format");
    '(rest, stream) ← read_exact 496 stream "bundle header";
    Ok (start ++ rest, stream)
  else read_exact 512 stream "bundle header".

Definition after (pos size : Z) : Z := saturating_add pos (saturating_add size (padding size)).

(** The end blocks. *)
Definition read_end (trailing : PortableError) (stream : list Z) : result PortableError (list Z) :=
  '(second, stream) ← read_exact 512 stream "second end block";
  _ ← check (negb (bool_decide (second = replicate 512 0))) (error_new InvalidStructure "invalid end marker");
  match stream with [] => Ok [] | _ :: _ => Err trailing end.

(** A PAX header: the records announced for the next entry.  The sum of [max_path_bytes] and the
    overhead of 64 bytes is taken not to overflow: a limit that large is not modelled. *)
Definition pax_turn (limits : PortableLimits) (st : Scan) (stream raw_path : list Z) (field_size : Z) : outcome turn_result :=
  _ ← of_result (check (bool_decide (is_Some (pending_pax st)) || negb (starts_with (bytes_of "PaxHeaders/") raw_path))
    (error_new InvalidStructure "invalid PAX sequence"));
  '(bytes, stream) ← of_result (read_payload field_size (max_path_bytes limits + PAX_RECORD_OVERHEAD_BYTES) stream);
  _ ← of_result (check (bool_decide (from_utf8 bytes = None)) (error_new InvalidPath "PAX path is not UTF-8"));
  records ← of_pax (parse bytes);
  let suffix := suffix_of sha256 (path records) in
  _ ← of_result (check (negb (bool_decide (raw_path = bytes_of "PaxHeaders/" ++ suffix)))
    (error_new InvalidStructure "non-canonical PAX header name"));
  Done (Continue {| stream := stream; entries := entries st; census := census st; path_set := path_set st;
    inventory_verdict := inventory_verdict st; pending_pax := Some (records, suffix); retained_pool := retained_pool st;
    position := after (saturating_add (position st) 512) field_size |}).

(** The path and size of a regular entry. *)
Definition resolve_entry (pending : option (PaxHeader * list Z)) (raw_path : list Z) (field_size : Z) :
    result PortableError (list Z * Z) :=
  match pending with
  | Some (records, suffix) =>
      _ ← check (negb (bool_decide (raw_path = bytes_of "PaxFiles/" ++ suffix)))
        (error_at InvalidStructure (path records) "non-canonical PAX placeholder");
      _ ← check (bool_decide (size records = None) && bool_decide (is_Some (canonical_ustar_split (path records))))
        (error_at InvalidStructure (path records) "unnecessary PAX header");
      n ← map_err (error_new InvalidStructure) (entry_size field_size (size records));
      Ok (path records, n)
  | None => n ← map_err (error_new InvalidStructure) (entry_size field_size None); Ok (raw_path, n)
  end.

Definition last_path (es : list Entry) : option (list Z) := entry_path <$> last es.

(** A regular entry. *)
Definition entry_turn (limits : PortableLimits) (st : Scan) (header stream raw_path : list Z) (field_size : Z) :
    outcome turn_result :=
  '(entry_path, size) ← of_result (resolve_entry (pending_pax st) raw_path field_size);
  _ ← of_result (verify_canonical_header_path header entry_path (bool_decide (is_Some (pending_pax st))));
  _ ← of_result (validate_path nfc entry_path (max_path_bytes limits));
  _ ← of_result (check_reserved_path entry_path);
  _ ← of_result (check (not_after (last_path (entries st)) entry_path)
    (error_at InvalidStructure entry_path "bundle entries are not canonical order"));
  paths ← of_result (admit_path nfd fold_string (path_set st) entry_path);
  census ← of_result (census_admit (census st) entry_path size limits);
  let offset := saturating_add (position st) 512 in
  let inventory := if decide (entry_path = INVENTORY_PATH) then Some (new_check (entries st) (max_path_bytes limits)) else None in
  let '(retain_limit, pool) := choose_limit entry_path size limits (lenZ (entries st) + 3) (retained_pool st) in
  '(digest, bytes, inventory, stream) ← hash_payload size (copy_buffer_bytes limits) retain_limit inventory entry_path stream;
  let verdict := match inventory with Some c => Some (finish c) | None => inventory_verdict st end in
  Done (Continue {| stream := stream;
    entries := entries st ++ [{| entry_path := entry_path; entry_length := size; entry_digest := digest;
                                 entry_bytes := bytes; entry_offset := Some offset |}];
    census := census; path_set := paths; inventory_verdict := verdict; pending_pax := None; retained_pool := pool;
    position := after offset size |}).

Definition turn (limits : PortableLimits) (trailing : PortableError) (st : Scan) : outcome turn_result :=
  let first := bool_decide (entries st = []) && negb (bool_decide (is_Some (pending_pax st))) in
  '(header, stream) ← of_result (read_header first (stream st));
  if decide (header = replicate 512 0) then
    stream ← of_result (read_end trailing stream);
    Done (Break {| stream := stream; entries := entries st; census := census st; path_set := path_set st;
      inventory_verdict := inventory_verdict st; pending_pax := pending_pax st; retained_pool := retained_pool st;
      position := saturating_add (position st) 512 |})
  else
    _ ← of_result (verify_header header);
    let kind := header !! 156%nat in
    field_size ← of_result (parse_octal (slice header 124 12));
    raw_path ← of_result (header_path header);
    if decide (kind = Some 120) then pax_turn limits st stream raw_path field_size
    else
      _ ← of_result (check (negb (bool_decide (kind = Some 48))) (error_new InvalidStructure "non-regular tar entry"));
      entry_turn limits st header stream raw_path field_size.

Fixpoint read_loop (fuel : nat) (limits : PortableLimits) (trailing : PortableError) (st : Scan) : outcome Scan :=
  match fuel with
  | O => Stuck
  | S fuel =>
      r ← turn limits trailing st;
      match r with Continue st => read_loop fuel limits trailing st | Break st => Done st end
  end.

Definition initial (limits : PortableLimits) (source : list Z) : Scan := {|
  stream := source; entries := []; census := empty_census; path_set := empty_set; inventory_verdict := None;
  pending_pax := None; retained_pool := max_retained_control_bytes limits; position := 0 |}.

(** [read_exact_hash] adds every byte it reads to the transport hash: what has been hashed at
    the end is the source without what is left of it. *)
Definition consumed (source rest : list Z) : list Z := take (length source - length rest) source.

Lemma consumed_all source : consumed source [] = source.
Proof. unfold consumed. rewrite Nat.sub_0_r. by apply take_ge. Qed.

Definition read_bundle (limits : PortableLimits) (trailing : PortableError) (source : list Z) : outcome BundleScan :=
  if copy_buffer_bytes limits =? 0 then Fail (error_new LimitExceeded "copy buffer is zero")
  else
    st ← read_loop (S (length source)) limits trailing (initial limits source);
    _ ← of_result (check (bool_decide (is_Some (pending_pax st))) (error_new InvalidStructure "orphan PAX header"));
    Done {| scan_entries := entries st; transport_digest := hex (sha256 (consumed source (stream st))); scan_inventory := inventory_verdict st |}.

(** ** Writing *)

Context (checksum : list Z -> Z).

(** Where the bytes of a planned file come from: held in the plan, or read from an open file. *)
Inductive PlannedSource :=
| Control (bytes : list Z)
| Opened (content : list Z).

Record PlannedFile := {
  source : PlannedSource;
  file_path : list Z;
  file_length : Z;
  file_digest : list Z;
  file_checksum : option Z;
}.

Record InventoryIdentity := {
  inventory_length : Z;
  inventory_digest : list Z;
  inventory_checksum : Z;
}.

Inductive Src :=
| Bytes (b : list Z)
| File (f : PlannedFile)
| Inventory (identity : InventoryIdentity).

Definition src_len (s : Src) : Z :=
  match s with Bytes b => lenZ b | File f => file_length f | Inventory i => inventory_length i end.
Definition src_digest (s : Src) : list Z :=
  match s with Bytes b => sha256 b | File f => file_digest f | Inventory i => inventory_digest i end.

Definition payload_rows (items : list (list Z * Src)) : list (list Z * list Z) :=
  (fun i => (i.1, src_digest i.2)) <$> base.filter (fun i => starts_with (bytes_of "data/") i.1 = true) items.

(** The bytes passed to the sink and their identity. *)
Definition stream_inventory (rows : list (list Z * list Z)) : outcome (list Z * InventoryIdentity) :=
  '(batches, length_) ← render_inventory rows;
  let bytes := concat batches in
  Done (bytes, {| inventory_length := length_; inventory_digest := sha256 bytes; inventory_checksum := checksum bytes |}).

Fixpoint tag_manifest (rows : list (list Z * list Z)) (limit_bytes : Z) (o : list Z) : outcome (list Z) :=
  match rows with
  | [] => Done o
  | (p, d) :: rows =>
      let row_bytes := 64 + 2 + lenZ p + 1 in
      if u64_max <? row_bytes then Fail (error_new LimitExceeded "tag manifest size overflow")
      else if limit_bytes <? saturating_add (lenZ o) row_bytes
      then Fail (error_new LimitExceeded "tag manifest exceeds configured limit")
      else tag_manifest rows limit_bytes (o ++ row_text p d)
  end.

Record PortableExportPlan := {
  files : list PlannedFile;
  manifest : list Z;
}.

Definition plan_entries (plan : PortableExportPlan) (max_tag_manifest_bytes : Z) : outcome (list (list Z * Src)) :=
  let v := sort_by_key fst ((MANIFEST_PATH, Bytes (manifest plan)) :: ((fun f => (file_path f, File f)) <$> files plan)) in
  '(_, inventory) ← stream_inventory (payload_rows v);
  let tags := [(BAG_INFO_PATH, Bytes BAG_INFO); (BAGIT_PATH, Bytes BAGIT); (INVENTORY_PATH, Inventory inventory)] in
  tag ← tag_manifest ((fun i => (i.1, src_digest i.2)) <$> tags) max_tag_manifest_bytes [];
  Done (v ++ tags ++ [(TAG_MANIFEST_PATH, Bytes tag)]).

(** What [stream] writes for a planned file.  An open source is read up to one byte more than
    planned. *)
Definition stream_file (f : PlannedFile) : outcome (list Z) :=
  match source f with
  | Control bytes =>
      if negb (lenZ bytes =? file_length f) || negb (bool_decide (sha256 bytes = file_digest f))
      then Fail (error_new ConcurrentMutation "planned control identity changed")
      else Done bytes
  | Opened content =>
      if u64_max <? file_length f + 1 then Fail (error_new LimitExceeded "planned source length overflow")
      else
        let read := take (Z.to_nat (file_length f + 1)) content in
        let changed := match file_checksum f with
                       | None => negb (bool_decide (sha256 read = file_digest f))
                       | Some expected => negb (expected =? checksum read)
                       end in
        if negb (lenZ read =? file_length f) || changed
        then Fail (error_new ConcurrentMutation "source changed during export")
        else Done read
  end.

(** The payload of an item, rendered or read while it is written. *)
Definition src_payload (items : list (list Z * Src)) (s : Src) : outcome (list Z) :=
  match s with
  | Bytes b => Done b
  | File f => stream_file f
  | Inventory expected =>
      '(bytes, written) ← stream_inventory (payload_rows items);
      if decide (inventory_length written = inventory_length expected /\ inventory_digest written = inventory_digest expected /\
                 inventory_checksum written = inventory_checksum expected)
      then Done bytes
      else Fail (error_new ConcurrentMutation "payload inventory changed while writing")
  end.

Fixpoint write_items (all items : list (list Z * Src)) : outcome (list Z) :=
  match items with
  | [] => Done (replicate 1024 0)
  | (path, src) :: items =>
      h ← header sha256 path (src_len src);
      payload ← src_payload all src;
      rest ← write_items all items;
      Done (h ++ payload ++ pad (src_len src) ++ rest)
  end.

Definition bundle (plan : PortableExportPlan) (max_tag_manifest_bytes : Z) : outcome (list Z) :=
  items ← plan_entries plan max_tag_manifest_bytes;
  let items := sort_by_key fst items in
  write_items items items.
End bundle.
