(* ===== verification/BagTags.v ===== *)
(** * The BagIt tags of a package: [crates/graphforge-storage/src/project_portable/bag_tags.rs] and
    [parse_digest_manifest] and [validate_bag_manifests] of
    [crates/graphforge-storage/src/project_portable.rs].

    The files the semantic manifest declares are given as paths, lengths and digest texts; reading
    that manifest from JSON is not modelled. *)

From stdpp Require Import base list strings sets sorting gmap.
From Stdlib Require Import ZArith Lia.
From S2P Require Import Prelude Text Utf8 Pax Portable Tar PortablePath Inventory Bundle.

Abbreviation EntryMap := (gmap (list Z) Entry).

(** [entries.iter().map(|e| (e.path.as_str(), e)).collect()]: a later entry replaces an earlier. *)
Definition entry_map (es : list Entry) : EntryMap := list_to_map (reverse ((fun e => (entry_path e, e)) <$> es)).

(** The keys of a [BTreeMap] in order. *)
Definition keys {A} (m : gmap (list Z) A) : list (list Z) := sort_by_key id (map_to_list m).*1.

(** ** The tag files *)

Definition bag_agent (bytes : list Z) : option (list Z) :=
  line ← head (split_on 10 bytes);
  strip_prefix (bytes_of "Bag-Software-Agent: ") line.

Definition is_ascii_whitespace (b : Z) : bool := bool_decide (b ∈ [32; 9; 10; 12; 13]).

Definition refuse_other_producer_revision (map : EntryMap) (path current : list Z) : result PortableError unit :=
  match bag_agent current with
  | None => Ok tt
  | Some current =>
      match (e ← map !! path; bytes ← entry_bytes e; bag_agent bytes) with
      | None => Ok tt
      | Some agent =>
          let revision := rest ← strip_prefix current agent; strip_prefix [45] rest in
          match revision with
          | Some token =>
              check (negb (bool_decide (token = [])) && negb (existsb is_ascii_whitespace token))
                (error_at Incompatible path "package was written by a different GraphForge producer revision")
          | None => Ok tt
          end
      end
  end.

Definition constant_time_eq (a b : list Z) : bool :=
  if negb (lenZ a =? lenZ b) then false
  else foldl (fun x '(a, b) => Z.lor x (Z.lxor a b)) 0 (zip a b) =? 0.

(** ** The tag manifest *)

(** [line.strip_suffix('\r')], which [str::lines] applies to a line that ends with LF. *)
Definition strip_cr (line : list Z) : list Z := match strip_suffix 13 line with Some l => l | None => line end.

(** [text.lines()] *)
Definition lines (text : list Z) : list (list Z) :=
  let pieces := reverse (split_on 10 text) in
  match pieces with
  | [] => []
  | final :: ended => (strip_cr <$> reverse ended) ++ (if decide (final = []) then [] else [final])
  end.

Definition tag_path_max : Z := 4096.

Section tags.
Context (sha256 nfc : list Z -> list Z).

Definition require_exact (map : EntryMap) (path expected : list Z) : result PortableError unit :=
  e ← ok_or (map !! path) (error_at InvalidStructure path "missing tag");
  check (negb (entry_length e =? lenZ expected) || negb (bool_decide (entry_digest e = sha256 expected)))
    (error_at DigestMismatch path "tag bytes").

Definition require_bag_tags (map : EntryMap) (bagit bag_info : list Z) : result PortableError unit :=
  _ ← require_exact map BAGIT_PATH bagit;
  _ ← refuse_other_producer_revision map BAG_INFO_PATH bag_info;
  require_exact map BAG_INFO_PATH bag_info.

Fixpoint parse_lines (path : list Z) (ls : list (list Z)) (previous : option (list Z)) (acc : gmap (list Z) (list Z)) :
    result PortableError (gmap (list Z) (list Z)) :=
  match ls with
  | [] => Ok acc
  | line :: ls =>
      match split_once [32; 32] line with
      | None => Err (error_at InvalidStructure path "tag manifest record")
      | Some (digest, p) =>
          _ ← validate_path nfc p tag_path_max;
          if negb (sha digest) || not_after previous p || bool_decide (is_Some (acc !! p))
          then Err (error_at InvalidStructure path "tag manifest order/duplicate")
          else parse_lines path ls (Some p) (<[p := digest]> acc)
      end
  end.

Definition parse_digest_manifest (bytes path : list Z) : result PortableError (gmap (list Z) (list Z)) :=
  if bool_decide (last bytes = Some 10) then
    match from_utf8 bytes with
    | None => Err (error_at InvalidStructure path "tag manifest UTF-8")
    | Some _ => parse_lines path (lines bytes) None ∅
    end
  else Err (error_at InvalidStructure path "tag manifest termination").

(** ** All manifests *)

Fixpoint check_declared (map : EntryMap) (declared : list (list Z * (Z * list Z))) : result PortableError unit :=
  match declared with
  | [] => Ok tt
  | (path, (length_, digest)) :: declared =>
      e ← ok_or (map !! path) (error_at InvalidStructure path "declared payload missing");
      _ ← check (negb (entry_length e =? length_) || negb (constant_time_eq (hex (entry_digest e)) digest))
        (error_at DigestMismatch path "payload digest/length");
      check_declared map declared
  end.

(** The first key that a rule refuses. *)
Fixpoint check_keys (refused : list Z -> bool) (e : list Z -> PortableError) (ks : list (list Z)) : result PortableError unit :=
  match ks with
  | [] => Ok tt
  | k :: ks => _ ← check (refused k) (e k); check_keys refused e ks
  end.

Definition read_entry_bytes_from_map (map : EntryMap) (path : list Z) : result PortableError (list Z) :=
  ok_or (e ← map !! path; entry_bytes e) (error_at InvalidStructure path "tag bytes unavailable").

(** [map[p]] panics on a missing path. *)
Definition expected_tag (map : EntryMap) (path : list Z) : outcome (list Z * list Z) :=
  match map !! path with Some e => Done (path, hex (entry_digest e)) | None => Stuck end.

Definition validate_bag_manifests (map : EntryMap) (files : list (list Z * (Z * list Z)))
    (inventory : option (result PortableError unit)) : outcome unit :=
  let declared : gmap (list Z) (Z * list Z) := list_to_map (reverse files) in
  _ ← of_result (check_declared map (sort_by_key fst (map_to_list declared)));
  _ ← of_result (check_keys (fun p => starts_with (bytes_of "data/components/") p && bool_decide (declared !! p = None))
    (fun p => error_at InvalidStructure p "extra payload") (keys map));
  _ ← of_result (check_keys (fun p => bool_decide (map !! p = None)) (fun p => error_at InvalidStructure p "missing tag manifest")
    [INVENTORY_PATH; TAG_MANIFEST_PATH]);
  verdict ← of_result (ok_or inventory (error_at InvalidStructure INVENTORY_PATH "tag bytes unavailable"));
  _ ← of_result verdict;
  bytes ← of_result (read_entry_bytes_from_map map TAG_MANIFEST_PATH);
  tag_manifest ← of_result (parse_digest_manifest bytes TAG_MANIFEST_PATH);
  a ← expected_tag map BAG_INFO_PATH;
  b ← expected_tag map BAGIT_PATH;
  c ← expected_tag map INVENTORY_PATH;
  let expected_tags : gmap (list Z) (list Z) := list_to_map [a; b; c] in
  _ ← of_result (check (negb (bool_decide (tag_manifest = expected_tags)))
    (error_at DigestMismatch TAG_MANIFEST_PATH "tag inventory manifest"));
  of_result (check (existsb (fun p => negb (starts_with (bytes_of "data/") p) && bool_decide (expected_tags !! p = None) &&
      negb (bool_decide (p = TAG_MANIFEST_PATH))) (keys map))
    (error_new InvalidStructure "unmanifested extra entry")).

End tags.

(** ** Maps and keys *)

Lemma entry_map_lookup es p e : NoDup (entry_path <$> es) -> entry_map es !! p = Some e <-> e ∈ es /\ entry_path e = p.
Proof.
  intros Hnd. unfold entry_map. rewrite <-elem_of_list_to_map.
  - rewrite elem_of_reverse, list_elem_of_fmap. split; [by intros (?&[= -> ->]&?)|]. intros [? <-]. by exists e.
  - rewrite reverse_Permutation, <-list_fmap_compose. exact Hnd.
Qed.

Lemma elem_of_keys {A} (m : gmap (list Z) A) p : p ∈ keys m <-> is_Some (m !! p).
Proof.
  unfold keys. rewrite sort_by_key_perm, list_elem_of_fmap. split.
  - intros ([q x]&->&H%elem_of_map_to_list). by exists x.
  - intros [x H]. exists (p, x). split; [done|]. by apply elem_of_map_to_list.
Qed.

Lemma check_keys_Ok refused e ks : check_keys refused e ks = Ok tt <-> Forall (fun k => refused k = false) ks.
Proof.
  induction ks as [|k ks IH]; cbn [check_keys]; [split; [constructor|done]|].
  rewrite Forall_cons. destruct (refused k); cbn; [split; [done|by intros []]|]. rewrite IH. tauto.
Qed.

Lemma check_declared_Ok map declared :
  (forall p n d, (p, (n, d)) ∈ declared -> exists e, map !! p = Some e /\ entry_length e = n /\ constant_time_eq (hex (entry_digest e)) d = true) ->
  check_declared map declared = Ok tt.
Proof.
  induction declared as [|[p [n d]] declared IH]; intros H; [done|]. cbn [check_declared].
  destruct (H p n d) as (e&He&Hn&Hd); [apply elem_of_cons; by left|]. rewrite He. cbn [ok_or mbind result_bind].
  rewrite (proj2 (Z.eqb_eq _ _) Hn), Hd. cbn. apply IH. intros p' n' d' Hin. apply H. apply elem_of_cons. by right.
Qed.

Lemma constant_time_eq_spec a b : Forall (fun x => 0 <= x) a -> Forall (fun x => 0 <= x) b -> constant_time_eq a b = true <-> a = b.
Proof.
  intros Ha Hb. unfold constant_time_eq. destruct (Z.eqb_spec (lenZ a) (lenZ b)) as [Hl|Hl]; cbn [negb]; [|split; [done|by intros ->]].
  apply Nat2Z.inj in Hl. rewrite Z.eqb_eq.
  assert (Hfold : forall acc, 0 <= acc -> foldl (fun x '(a, b) => Z.lor x (Z.lxor a b)) acc (zip a b) = 0 <-> acc = 0 /\ a = b).
  { revert b Hb Hl. induction Ha as [|x a Hx Ha IH]; intros b Hb Hl acc Hacc; [destruct b; [|done]; cbn; tauto|].
    destruct b as [|y b]; [done|]. apply Forall_cons in Hb as [Hy Hb]. cbn [zip zip_with foldl].
    assert (0 <= Z.lxor x y) by (apply Z.lxor_nonneg; lia). rewrite IH; [|done|by injection Hl|apply Z.lor_nonneg; lia].
    rewrite Z.lor_eq_0_iff, Z.lxor_eq_0_iff. split; [intros [[-> ->] ->]|intros [-> [= -> ->]]]; done. }
  rewrite Hfold by done. tauto.
Qed.

(** ** The tag manifest *)

Lemma split_on_line c a t : c ∉ a -> split_on c (a ++ c :: t) = a :: split_on c t.
Proof.
  induction a as [|x a IH]; intros Ha; cbn [app split_on]; [by rewrite Z.eqb_refl|]. apply not_elem_of_cons in Ha as [Hx Ha].
  rewrite (proj2 (Z.eqb_neq _ _)) by done. by rewrite IH.
Qed.

Lemma lines_cons a t : 10 ∉ a -> lines (a ++ 10 :: t) = strip_cr a :: lines t.
Proof.
  intros Ha. unfold lines. rewrite split_on_line by done. rewrite reverse_cons. destruct (reverse (split_on 10 t)) as [|f e] eqn:E.
  - apply (f_equal reverse) in E. rewrite reverse_involutive in E. by apply split_on_nonempty in E.
  - cbn [app]. by rewrite reverse_snoc.
Qed.

Lemma strip_cr_id a : 13 ∉ a -> strip_cr a = a.
Proof.
  intros Ha. unfold strip_cr, strip_suffix. destruct (reverse a) as [|b front] eqn:E; [done|].
  destruct (Z.eqb_spec b 13) as [->|]; [|done]. exfalso. apply Ha. rewrite <-elem_of_reverse, E. apply elem_of_cons. by left.
Qed.

Section manifest.
Context (nfc : list Z -> list Z).

Lemma path_violation_max p m m' : path_violation nfc p m = None -> lenZ p <= m' -> path_violation nfc p m' = None.
Proof.
  intros H Hm. unfold path_violation in *. match type of H with (if ?g then _ else _) = _ => destruct g eqn:Eg; [done|] end.
  rewrite !orb_false_iff in Eg. destruct Eg as (((((((H1&_)&H3)&H4)&H5)&H6)&H7)&H8).
  by rewrite H1, H3, H4, H5, H6, H7, H8, (proj2 (Z.ltb_ge _ _) Hm).
Qed.

(** A row of the tag manifest: its path is admitted and its digest has the shape of SHA-256. *)
Definition tag_row_ok (max : Z) (r : list Z * list Z) : Prop :=
  is_str r.1 /\ path_violation nfc r.1 max = None /\ lenZ r.1 <= tag_path_max /\ Forall is_byte r.2 /\ length r.2 = 32%nat.

Lemma row_ok_facts max r : tag_row_ok max r -> let line := hex r.2 ++ [32; 32] ++ r.1 in
  row_text r.1 r.2 = line ++ [10] /\ is_str line /\ (10 ∉ line) /\ (13 ∉ line) /\
  split_once [32; 32] line = Some (hex r.2, r.1) /\ validate_path nfc r.1 tag_path_max = Ok tt /\ sha (hex r.2) = true.
Proof.
  intros (Hs&Hv&Hl&Hb&Hd). cbn zeta.
  set (e := {| entry_path := r.1; entry_length := 0; entry_digest := r.2; entry_bytes := None; entry_offset := None |}).
  assert (Hval : validate_path nfc r.1 tag_path_max = Ok tt) by (unfold validate_path; by rewrite (path_violation_max r.1 max)).
  destruct (row_facts nfc tag_path_max e) as (H1&H2&H3&_&H4); [by repeat split|].
  split; [apply (row_text_of e)|]. split; [exact H1|]. split; [exact H3|]. split; [exact H2|]. split; [exact H4|]. split; [done|]. by apply sha_hex.
Qed.

Lemma parse_lines_rows max rs path previous acc : Forall (tag_row_ok max) rs -> StronglySorted ord_lt rs.*1 ->
  match previous with Some p => Forall (ord_lt p) rs.*1 | None => True end -> Forall (fun r => acc !! r.1 = None) rs ->
  parse_lines nfc path (lines (concat ((fun r => row_text r.1 r.2) <$> rs))) previous acc =
  Ok (foldl (fun m r => <[r.1 := hex r.2]> m) acc rs).
Proof.
  revert previous acc. induction rs as [|r rs IH]; intros previous acc Hok Hsort Hprev Hacc; [done|].
  cbn [fmap list_fmap concat foldl] in *. apply Forall_cons in Hok as [Hr Hok]. apply Forall_cons in Hacc as [Ha Hacc].
  apply StronglySorted_inv in Hsort as [Hsort Hlt]. destruct (row_ok_facts max r Hr) as (->&_&H10&H13&Hsplit&Hval&Hsha).
  rewrite <-app_assoc. change ([10] ++ ?t) with (10 :: t). rewrite lines_cons by exact H10. rewrite strip_cr_id by exact H13. cbn [parse_lines].
  rewrite Hsplit, Hval, Hsha. cbn [mbind result_bind negb orb]. rewrite Ha, bool_decide_false by (by intros []).
  assert (Hna : not_after previous r.1 = false).
  { destruct previous as [q|]; [|done]. apply Forall_cons in Hprev as [[H1 H2] _]. apply bool_decide_eq_false. intros H. apply H2. by apply ord_antisymm. }
  rewrite Hna. cbn [orb]. apply IH; [done|done|done|]. apply Forall_forall. intros x Hx. rewrite lookup_insert_ne.
  - rewrite Forall_forall in Hacc. by apply Hacc.
  - rewrite Forall_fmap, Forall_forall in Hlt. intros Heq. by destruct (Hlt x Hx) as [_ Hne].
Qed.

Lemma parse_rows max rs path : rs <> [] -> Forall (tag_row_ok max) rs -> StronglySorted ord_lt rs.*1 ->
  parse_digest_manifest nfc (concat ((fun r => row_text r.1 r.2) <$> rs)) path = Ok (foldl (fun m r => <[r.1 := hex r.2]> m) ∅ rs).
Proof.
  intros Hne Hok Hsort. unfold parse_digest_manifest.
  assert (Hlast : last (concat ((fun r => row_text r.1 r.2) <$> rs)) = Some 10).
  { destruct rs as [|r rs _] using rev_ind; [done|]. rewrite fmap_app, concat_app. cbn. rewrite app_nil_r. unfold row_text.
    rewrite !app_assoc. by rewrite last_snoc. }
  assert (Hstr : is_str (concat ((fun r => row_text r.1 r.2) <$> rs))).
  { clear -Hok. induction Hok as [|r rs Hr _ IH]; [by exists []|]. cbn [fmap list_fmap concat]. apply is_str_app; [|done].
    destruct (row_ok_facts max r Hr) as (->&H&_). apply is_str_app; [done|]. by eexists. }
  rewrite bool_decide_true by done. destruct Hstr as [cs ->]. apply (parse_lines_rows max); [done|done|done|].
  apply Forall_forall. intros x _. apply lookup_empty.
Qed.
End manifest.

(** ** A tag manifest the documentation excludes

    The rows of the tag manifest share the syntax of the inventory, where a carriage return is
    refused; here a carriage return before a line feed is dropped. *)
Definition crlf_tag_manifest : list Z := hex (replicate 32 7) ++ [32; 32] ++ bytes_of "bagit.txt" ++ [13; 10].

(** A row of the tag manifest may end in CR LF: it is read as the row without the carriage return,
    while the inventory check refuses such a row. *)
Example carriage_return_accepted :
  parse_digest_manifest (fun s => s) crlf_tag_manifest TAG_MANIFEST_PATH =
    Ok {[bytes_of "bagit.txt" := hex (replicate 32 7)]} /\
  check_inventory (fun s => s)
    [{| entry_path := bytes_of "data/a"; entry_length := 0; entry_digest := replicate 32 7; entry_bytes := None; entry_offset := None |}] 4096
    [hex (replicate 32 7) ++ [32; 32] ++ bytes_of "data/a" ++ [13; 10]] = Some (Err (structure "tag manifest line ending")).
Proof. split; vm_compute; reflexivity. Qed.
