(* ===== verification/BundleCorrect.v ===== *)
(** * A bundle that was written is read back.

    Lemmas on the turns of [read_bundle] over what [write_items] writes, the round trip of a list
    of items and the round trip of an export plan. *)

From stdpp Require Import base list strings sets sorting gmap.
From Stdlib Require Import ZArith Lia.
From S2P Require Import Prelude Text Utf8 Numerals Pax Portable Tar PortablePath Inventory Bundle BagTags.

(** ** Reading what follows *)

Lemma read_exact_app a b d : read_exact (lenZ a) (a ++ b) d = Ok (a, b).
Proof.
  unfold read_exact. rewrite length_app, (proj2 (Z.ltb_ge _ _)) by lia.
  by rewrite Nat2Z.id, take_app_length, drop_app_length.
Qed.

Lemma read_header_app first h rest : length h = 512%nat -> take 16 h <> RETIRED_PROJECT_SIGNATURE ->
  read_header first (h ++ rest) = Ok (h, rest).
Proof.
  intros Hl Hr. unfold read_header. destruct first; [|change 512 with (Z.of_nat 512); rewrite <-Hl; apply read_exact_app].
  rewrite <-(take_drop 16 h), <-app_assoc. set (a := take 16 h) in *. set (b := drop 16 h).
  assert (Ha : lenZ a = 16) by (unfold a; rewrite length_take; lia).
  assert (Hb : lenZ b = 496) by (unfold b; rewrite length_drop; lia).
  rewrite <-Ha, read_exact_app. cbn [mbind result_bind]. rewrite bool_decide_false by done. cbn [check mbind result_bind].
  by rewrite <-Hb, read_exact_app.
Qed.

Lemma pad_length n : lenZ (pad n) = padding n.
Proof.
  unfold pad. rewrite length_replicate, Z2Nat.id; [done|]. unfold padding. apply Z.mod_pos_bound. lia.
Qed.

Lemma read_padding_pad n rest : read_padding n (pad n ++ rest) = Ok rest.
Proof.
  unfold read_padding. rewrite <-pad_length, read_exact_app. cbn [mbind result_bind].
  assert (He : existsb (fun b => negb (b =? 0)) (pad n) = false).
  { unfold pad. by induction (Z.to_nat (padding n)). }
  by rewrite He.
Qed.

Lemma read_payload_app b max rest : lenZ b <= max -> lenZ b <= usize_max ->
  read_payload (lenZ b) max (b ++ pad (lenZ b) ++ rest) = Ok (b, rest).
Proof.
  intros H1 H2. unfold read_payload. rewrite !(proj2 (Z.ltb_ge _ _)) by lia. rewrite read_exact_app. cbn [mbind result_bind].
  by rewrite read_padding_pad.
Qed.

Section correct.
Context (sha256 : list Z -> list Z) (parse_uuid : list Z -> option (list Z)).
Context (nfc nfd fold_string : list Z -> list Z) (checksum : list Z -> Z).
Context (Hsha : forall s, Forall is_byte (sha256 s) /\ length (sha256 s) = 32%nat).

(** ** Payloads *)

Lemma payload_loop_ok fuel buffer b rest acc inv : 1 <= buffer -> (length b <= fuel)%nat ->
  match inv with Some c => forall chunks, is_Some (feed nfc c chunks) | None => True end ->
  exists inv', payload_loop nfc fuel buffer (lenZ b) (b ++ rest) acc inv = Done (acc ++ b, rest, inv') /\
    match inv, inv' with
    | None, None => True
    | Some c, Some c' => exists chunks, concat chunks = b /\ feed nfc c chunks = Some c'
    | _, _ => False
    end.
Proof.
  intros Hbuf. revert b acc inv. induction fuel as [|fuel IH]; intros b acc inv Hf Hinv.
  { destruct b; [|cbn in Hf; lia]. cbn. exists inv. rewrite app_nil_r. split; [done|]. destruct inv; [|done]. by exists []. }
  cbn [payload_loop]. destruct (Z.leb_spec (lenZ b) 0) as [Hb|Hb].
  { destruct b; [|cbn in Hb; lia]. exists inv. rewrite app_nil_r. split; [done|]. destruct inv; [|done]. by exists []. }
  set (n := Z.min (lenZ b) buffer). set (chunk := take (Z.to_nat n) b). set (b' := drop (Z.to_nat n) b).
  assert (Hsplit : b = chunk ++ b') by (unfold chunk, b'; by rewrite take_drop).
  assert (Hn : n = lenZ chunk) by (unfold chunk; rewrite length_take; lia).
  assert (Hb' : (length b' <= fuel)%nat) by (unfold b'; rewrite length_drop; lia).
  assert (Hleft : lenZ b - n = lenZ b') by (rewrite Hn, Hsplit, length_app; lia).
  rewrite Hleft. clearbody n chunk b'. subst n b. rewrite <-app_assoc, read_exact_app. cbn [of_result mbind outcome_bind].
  destruct inv as [c|].
  - destruct (Hinv [chunk]) as [c1 Hc1]. cbn [feed] in Hc1. destruct (update nfc c chunk) as [c2|] eqn:Eu; [|done]. cbn in Hc1. injection Hc1 as ->.
    cbn [lift mbind outcome_bind]. destruct (IH b' (acc ++ chunk) (Some c1)) as (inv'&H1&H2); [done| |].
    { intros chunks. specialize (Hinv (chunk :: chunks)). cbn [feed] in Hinv. by rewrite Eu in Hinv. }
    exists inv'. rewrite H1, <-app_assoc. split; [done|]. destruct inv' as [c'|]; [|done]. destruct H2 as (chunks&<-&H2).
    exists (chunk :: chunks). split; [done|]. cbn [feed]. by rewrite Eu.
  - cbn [mbind outcome_bind]. destruct (IH b' (acc ++ chunk) None) as (inv'&H1&H2); [done|done|].
    exists inv'. by rewrite H1, <-app_assoc.
Qed.

Lemma hash_payload_ok buffer b rest limit keep inv p : 1 <= buffer ->
  retain_payload (lenZ b) limit p = Ok keep ->
  match inv with Some c => forall chunks, is_Some (feed nfc c chunks) | None => True end ->
  exists inv', hash_payload sha256 nfc (lenZ b) buffer limit inv p (b ++ pad (lenZ b) ++ rest) =
      Done (sha256 b, (if keep then Some b else None), inv', rest) /\
    match inv, inv' with
    | None, None => True
    | Some c, Some c' => exists chunks, concat chunks = b /\ feed nfc c chunks = Some c'
    | _, _ => False
    end.
Proof.
  intros Hbuf Hkeep Hinv. unfold hash_payload. rewrite Hkeep. cbn [of_result mbind outcome_bind].
  destruct (payload_loop_ok (S (length (b ++ pad (lenZ b) ++ rest))) buffer b (pad (lenZ b) ++ rest) [] inv) as (inv'&H1&H2);
    [done|rewrite length_app; lia|done|].
  exists inv'. rewrite H1. cbn [mbind outcome_bind]. rewrite read_padding_pad. cbn [of_result mbind outcome_bind app]. done.
Qed.

(** ** Headers *)

Lemma suffix_facts p : Forall (fun b => 0 < b < 128) (suffix_of sha256 p) /\ length (suffix_of sha256 p) = 16%nat.
Proof.
  destruct (Hsha p) as [Hb Hl]. unfold suffix_of. split.
  - apply Forall_take. eapply Forall_impl; [by apply hex_digits|]. intros c (_&_&?). done.
  - rewrite length_take, hex_length, Hl. done.
Qed.

Lemma placeholder_reads tag p n kind : Forall (fun b => 0 < b < 128) tag -> (length tag <= 80)%nat -> is_byte kind -> 0 <= n < 8 ^ 11 ->
  exists h, raw_header (tag ++ suffix_of sha256 p) [] n kind = Done h /\ reads_as h (tag ++ suffix_of sha256 p) [] n kind.
Proof.
  intros Ht Hl Hk Hn. destruct (suffix_facts p) as [Hs Hsl].
  assert (Hall : Forall (fun b => 0 < b < 128) (tag ++ suffix_of sha256 p)) by (apply Forall_app; done).
  apply raw_header_reads; try done.
  - apply is_str_ascii. eapply Forall_impl; [exact Hall|]. cbn. lia.
  - by exists [].
  - eapply Forall_impl; [exact Hall|]. cbn. lia.
  - rewrite length_app, Hsl. lia.
  - cbn. lia.
Qed.

(** The headers of an entry: one, or a PAX header, its records and a placeholder. *)
Inductive written_header (p : list Z) (n : Z) : list Z -> Prop :=
| one_header h name prefix :
    reads_as h name prefix n 48 -> joined name prefix = p -> split p = Ok (name, prefix) -> n <= ustar_size_limit ->
    written_header p n h
| pax_headers first body second :
    encode p n = Some body -> lenZ body <= lenZ p + PAX_RECORD_OVERHEAD_BYTES ->
    reads_as first (bytes_of "PaxHeaders/" ++ suffix_of sha256 p) [] (lenZ body) 120 ->
    reads_as second (bytes_of "PaxFiles/" ++ suffix_of sha256 p) [] (if ustar_size_limit <? n then 0 else n) 48 ->
    (n <= ustar_size_limit -> canonical_ustar_split p = None) ->
    written_header p n (first ++ body ++ pad (lenZ body) ++ second).

Lemma header_written p n :
  is_str p -> Forall (fun b => b <> 0) p -> head p <> Some 47 -> 0 <= n <= u64_max ->
  lenZ p + PAX_RECORD_OVERHEAD_BYTES <= ustar_size_limit ->
  exists h, header sha256 p n = Done h /\ written_header p n h.
Proof.
  intros Hs H0 Hh Hn Hp.
  assert (Hlong : n <= ustar_size_limit -> is_ok (split p) = false -> canonical_ustar_split p = None).
  { intros _. rewrite split_canonical. by destruct (split p). }
  assert (Hpax : (n <= ustar_size_limit -> canonical_ustar_split p = None) -> exists h,
    match encode p n with
    | None => Stuck
    | Some body =>
        first ← raw_header (bytes_of "PaxHeaders/" ++ suffix_of sha256 p) [] (lenZ body) 120;
        second ← raw_header (bytes_of "PaxFiles/" ++ suffix_of sha256 p) [] (if ustar_size_limit <? n then 0 else n) 48;
        Done (first ++ body ++ pad (lenZ body) ++ second)
    end = Done h /\ written_header p n h).
  { intros Hc. destruct (encode_total p n) as [body Hbody]. rewrite Hbody.
    assert (Hlen : lenZ body <= lenZ p + PAX_RECORD_OVERHEAD_BYTES).
    { apply (encode_length p n); [done| |done]. unfold ustar_size_limit, USTAR_MAX_ENTRY_BYTES, PAX_RECORD_OVERHEAD_BYTES in Hp.
      unfold usize_max, u64_max. lia. }
    destruct (placeholder_reads (bytes_of "PaxHeaders/") p (lenZ body) 120) as (first&Hf&Hfr);
      [by repeat constructor|cbn; lia|done|unfold ustar_size_limit, USTAR_MAX_ENTRY_BYTES in Hp; lia|].
    destruct (placeholder_reads (bytes_of "PaxFiles/") p (if ustar_size_limit <? n then 0 else n) 48) as (second&Hsec&Hsr);
      [by repeat constructor|cbn; lia|done|destruct (Z.ltb_spec ustar_size_limit n); unfold ustar_size_limit, USTAR_MAX_ENTRY_BYTES in *; lia|].
    rewrite Hf. cbn [mbind outcome_bind]. rewrite Hsec. cbn [mbind outcome_bind]. eexists. split; [done|]. by apply pax_headers. }
  unfold header. destruct (Z.ltb_spec ustar_size_limit n) as [Hbig|Hsmall].
  - apply Hpax. intros. unfold ustar_size_limit in *. lia.
  - destruct (split p) as [[name prefix]|e] eqn:E.
    + destruct (ustar_header_reads sha256 p n name prefix Hs H0 Hh ltac:(lia) E) as (Hj&h&Hhd&Hr).
      exists h. unfold header in Hhd. rewrite (proj2 (Z.ltb_ge _ _) Hsmall), E in Hhd. split; [done|]. by eapply one_header.
    + apply Hpax. intros _. by apply Hlong.
Qed.

(** ** Turns *)

Context (limits : PortableLimits) (trailing : PortableError).
Context (Hbuffer : 1 <= copy_buffer_bytes limits).

Abbreviation one_turn := (turn sha256 parse_uuid nfc nfd fold_string limits trailing).
Abbreviation regular := (entry_turn sha256 parse_uuid nfc nfd fold_string limits).

Lemma turn_header st h rest name prefix n kind : reads_as h name prefix n kind -> stream st = h ++ rest ->
  one_turn st = if decide (kind = 120) then pax_turn sha256 limits st rest (joined name prefix) n
    else (_ ← of_result (check (negb (bool_decide (Some kind = Some 48))) (error_new InvalidStructure "non-regular tar entry"));
          regular st h rest (joined name prefix) n).
Proof.
  intros Hr Hst. unfold turn. rewrite Hst. rewrite read_header_app by apply Hr. cbn [of_result mbind outcome_bind].
  rewrite decide_False by apply Hr. rewrite (reads_verified _ _ _ _ _ Hr), (reads_size _ _ _ _ _ Hr), (reads_path _ _ _ _ _ Hr), (reads_kind _ _ _ _ _ Hr).
  cbn [of_result mbind outcome_bind]. destruct (decide (kind = 120)) as [->|Hk]; [by rewrite decide_True|].
  rewrite decide_False by congruence. done.
Qed.

Lemma turn_end st : pending_pax st = None -> stream st = replicate 1024 0 -> exists st',
  one_turn st = Done (Break st') /\ entries st' = entries st /\ inventory_verdict st' = inventory_verdict st /\ pending_pax st' = None /\
  stream st' = [].
Proof.
  intros Hp Hs. unfold turn. rewrite Hs. change (replicate 1024 0) with (replicate 512 0 ++ replicate 512 0).
  rewrite read_header_app by done. cbn [of_result mbind outcome_bind]. rewrite decide_True by done.
  assert (He : read_end trailing (replicate 512 0) = Ok []) by reflexivity.
  rewrite He. cbn [of_result mbind outcome_bind]. eexists. split; [done|]. done.
Qed.

Lemma encode_str p n text : is_str p -> 0 <= n -> encode p n = Some text -> is_str text.
Proof.
  assert (Hstr : forall k, 0 <= k -> is_str (to_string k)).
  { intros k Hk. apply is_str_ascii. eapply Forall_impl; [by apply to_radix_digits|]. intros c Hc%is_digit_spec. lia. }
  assert (Hrec : forall kw v, is_str kw -> is_str v -> exists r, record kw v = Some r /\ is_str r).
  { intros kw v Hk Hv. destruct (record_spec kw v) as (r&Hr&Heq). exists r. split; [done|]. rewrite Heq. unfold record_body.
    repeat apply is_str_app; try done; [apply Hstr; lia|by eexists..]. }
  intros Hp Hn. unfold encode. destruct (Hrec path_keyword p) as (r&->&Hr); [by eexists|done|]. cbn [mbind option_bind].
  destruct (_ <? _); [|by intros [= <-]]. destruct (Hrec size_keyword (to_string n)) as (r'&->&Hr'); [by eexists|by apply Hstr|].
  cbn. intros [= <-]. by apply is_str_app.
Qed.

Definition with_pending (st : Scan) (stream' : list Z) (pending : PaxHeader * list Z) (pos : Z) : Scan := {|
  stream := stream'; entries := entries st; census := census st; path_set := path_set st;
  inventory_verdict := inventory_verdict st; pending_pax := Some pending; retained_pool := retained_pool st; position := pos |}.

Lemma pax_turn_ok st rest p n body :
  pending_pax st = None -> is_str p -> 0 <= n <= u64_max -> encode p n = Some body ->
  lenZ body <= max_path_bytes limits + PAX_RECORD_OVERHEAD_BYTES -> lenZ body <= usize_max ->
  pax_turn sha256 limits st (body ++ pad (lenZ body) ++ rest) (joined (bytes_of "PaxHeaders/" ++ suffix_of sha256 p) []) (lenZ body) =
  Done (Continue (with_pending st rest ({| path := p; size := if ustar_size_limit <? n then Some n else None |}, suffix_of sha256 p)
    (after (saturating_add (position st) 512) (lenZ body)))).
Proof.
  intros Hpend Hp Hn Henc Hmax Hu. unfold pax_turn, joined. rewrite decide_True, Hpend by done.
  assert (Hsw : starts_with (bytes_of "PaxHeaders/") (bytes_of "PaxHeaders/" ++ suffix_of sha256 p) = true).
  { unfold starts_with. by rewrite take_app_length, bool_decide_true. }
  rewrite Hsw, bool_decide_false by (by intros []). cbn [negb orb check of_result mbind outcome_bind].
  rewrite read_payload_app by done. cbn [of_result mbind outcome_bind].
  destruct (encode_str p n body Hp ltac:(lia) Henc) as [cs Hcs]. rewrite Hcs, bool_decide_false by done. cbn [check of_result mbind outcome_bind].
  rewrite (parse_encode p n body Hn Henc Hu). cbn [of_pax mbind outcome_bind path]. rewrite bool_decide_true by done. done.
Qed.

Lemma resolve_pax p n : 0 <= n -> (n <= ustar_size_limit -> canonical_ustar_split p = None) ->
  resolve_entry (Some ({| path := p; size := if ustar_size_limit <? n then Some n else None |}, suffix_of sha256 p))
    (joined (bytes_of "PaxFiles/" ++ suffix_of sha256 p) []) (if ustar_size_limit <? n then 0 else n) = Ok (p, n).
Proof.
  intros Hn Hc. change (joined ?x []) with x. unfold resolve_entry.
  rewrite (bool_decide_eq_true_2 (bytes_of "PaxFiles/" ++ _ = _)) by done. cbn [negb check mbind result_bind path size].
  destruct (Z.ltb_spec ustar_size_limit n) as [Hbig|Hsmall]; [done|].
  rewrite Hc by done. rewrite (bool_decide_eq_false_2 (is_Some None)) by (by intros [? ?]). rewrite andb_false_r. cbn [check mbind result_bind].
  unfold entry_size. by rewrite (proj2 (Z.ltb_ge _ _)) by done.
Qed.

(** What a regular entry adds to the scan. *)
Record adds (st st' : Scan) (p b rest : list Z) (set : PathSet) (counted : Census) : Prop := {
  adds_stream : stream st' = rest;
  adds_entry : exists bytes, entries st' = entries st ++ [{| entry_path := p; entry_length := lenZ b; entry_digest := sha256 b;
    entry_bytes := bytes; entry_offset := Some (saturating_add (position st) 512) |}] /\
    (bytes = Some b \/ bytes = None /\ retained_limit p limits (lenZ (entries st) + 3) = None);
  adds_census : census st' = counted;
  adds_paths : path_set st' = set;
  adds_pending : pending_pax st' = None;
  adds_position : position st' = after (saturating_add (position st) 512) (lenZ b);
  adds_verdict :
    if decide (p = INVENTORY_PATH)
    then exists chunks c, concat chunks = b /\ feed nfc (new_check (entries st) (max_path_bytes limits)) chunks = Some c /\
      inventory_verdict st' = Some (finish c)
    else inventory_verdict st' = inventory_verdict st;
}.

Lemma entry_turn_ok st h rest raw field p b set counted :
  resolve_entry (pending_pax st) raw field = Ok (p, lenZ b) ->
  verify_canonical_header_path h p (bool_decide (is_Some (pending_pax st))) = Ok tt ->
  path_violation nfc p (max_path_bytes limits) = None -> check_reserved_path parse_uuid p = Ok tt ->
  not_after (last_path (entries st)) p = false -> admit_path nfd fold_string (path_set st) p = Ok set ->
  census_admit (census st) p (lenZ b) limits = Ok counted ->
  (forall limit, retained_limit p limits (lenZ (entries st) + 3) = Some limit -> lenZ b <= limit) -> lenZ b <= usize_max ->
  (p = INVENTORY_PATH -> forall chunks, is_Some (feed nfc (new_check (entries st) (max_path_bytes limits)) chunks)) ->
  exists st', regular st h (b ++ pad (lenZ b) ++ rest) raw field = Done (Continue st') /\ adds st st' p b rest set counted.
Proof.
  intros Hres Hver Hviol Hreserved Horder Hset Hcensus Hlimit Hu Hfeed. unfold entry_turn.
  rewrite Hres. cbn [of_result mbind outcome_bind]. rewrite Hver. cbn [of_result mbind outcome_bind].
  unfold validate_path. rewrite Hviol. cbn [of_result mbind outcome_bind]. rewrite Hreserved. cbn [of_result mbind outcome_bind].
  rewrite Horder. cbn [check of_result mbind outcome_bind]. rewrite Hset. cbn [of_result mbind outcome_bind].
  rewrite Hcensus. cbn [of_result mbind outcome_bind].
  destruct (choose_limit p (lenZ b) limits (lenZ (entries st) + 3) (retained_pool st)) as [limit pool] eqn:Echoose.
  assert (Hkeep : exists keep, retain_payload (lenZ b) limit p = Ok keep /\
    (keep = true \/ keep = false /\ retained_limit p limits (lenZ (entries st) + 3) = None)).
  { unfold retain_payload. destruct limit as [limit|].
    2: { exists false. split; [done|]. right. split; [done|]. unfold choose_limit in Echoose. by destruct (retained_limit _ _ _). }
    assert (Hle : lenZ b <= limit).
    { unfold choose_limit in Echoose. destruct (retained_limit _ _ _) as [l|] eqn:El; [injection Echoose as <- _; by apply Hlimit|].
      destruct (pooled_limit _ _); [|done]. destruct (_ && _); [|done]. injection Echoose as <- _. lia. }
    rewrite !(proj2 (Z.ltb_ge _ _)) by lia. exists true. by split; [|left]. }
  destruct Hkeep as (keep&Hkeep&Hretained).
  set (inv := if decide (p = INVENTORY_PATH) then _ else None).
  destruct (hash_payload_ok (copy_buffer_bytes limits) b rest limit keep inv p Hbuffer Hkeep) as (inv'&Hhash&Hinv).
  { unfold inv. destruct (decide (p = INVENTORY_PATH)); [by apply Hfeed|done]. }
  rewrite Hhash. cbn [mbind outcome_bind]. eexists. split; [done|]. split; try done.
  - cbn [entries]. eexists. split; [done|]. destruct Hretained as [-> |[-> ?]]; [by left|by right].
  - cbn [inventory_verdict]. unfold inv in Hinv. destruct (decide (p = INVENTORY_PATH)).
    + destruct inv' as [c|]; [|done]. destruct Hinv as (chunks&?&?). by exists chunks, c.
    + by destruct inv'.
Qed.

(** ** The scan of a list of items *)

(** An item: a path and its payload. *)
Abbreviation item := (list Z * list Z)%type.

Definition total (items : list item) : Z := foldr (fun i n => lenZ i.2 + n) 0 items.

(** Whether an entry is a fixed control does not depend on its place. *)
Lemma retained_anywhere p n m : retained_limit p limits n = None -> retained_limit p limits m = None.
Proof. unfold retained_limit. by repeat case_decide. Qed.

(** What the reader requires of the items of a bundle. *)
Record admissible (items : list item) : Prop := {
  adm_paths : Forall (fun i => is_str i.1 /\ path_violation nfc i.1 (max_path_bytes limits) = None /\
    check_reserved_path parse_uuid i.1 = Ok tt) items;
  adm_sorted : StronglySorted ord_lt (fst <$> items);
  adm_set : validate_path_set nfd fold_string (fst <$> items) = Ok tt;
  adm_count : lenZ items <= max_entries limits <= u64_max;
  adm_sizes : Forall (fun i => lenZ i.2 <= max_entry_bytes limits) items;
  adm_total : total items <= max_total_bytes limits <= u64_max;
  adm_retained : forall i p b limit, items !! i = Some (p, b) -> retained_limit p limits (Z.of_nat i + 3) = Some limit -> lenZ b <= limit;
  adm_header : 0 <= max_path_bytes limits /\ max_path_bytes limits + PAX_RECORD_OVERHEAD_BYTES <= ustar_size_limit;
}.

(** The bytes of a bundle of items. *)
Inductive frames : list item -> list Z -> Prop :=
| frames_nil : frames [] (replicate 1024 0)
| frames_cons p b items h rest :
    written_header p (lenZ b) h -> frames items rest -> frames ((p, b) :: items) (h ++ b ++ pad (lenZ b) ++ rest).

(** An entry that describes an item of the bundle [text]. *)
Definition describes (text : list Z) (i : item) (e : Entry) : Prop :=
  entry_path e = i.1 /\ entry_length e = lenZ i.2 /\ entry_digest e = sha256 i.2 /\
  (entry_bytes e = Some i.2 \/ entry_bytes e = None /\ retained_limit i.1 limits 0 = None) /\
  exists offset, entry_offset e = Some (Z.of_nat offset) /\ slice text offset (length i.2) = i.2.

Definition data_items (items : list item) : list item := base.filter (fun i => is_data i.1 = true) items.
Definition items_inventory (items : list item) : list Z :=
  concat ((fun i => row_text i.1 (sha256 i.2)) <$> data_items items).

(** The verdict on the inventory, once it has been read. *)
Definition verdict_ok (items : list item) (v : option (result PortableError unit)) : Prop :=
  forall before b later, items = before ++ (INVENTORY_PATH, b) :: later -> data_items before <> [] ->
    (v = Some (Ok tt) <-> b = items_inventory before).

Record ready (text : list Z) (done : list item) (st : Scan) : Prop := {
  ready_position : exists pre, text = pre ++ stream st /\ position st = lenZ pre;
  ready_entries : Forall2 (describes text) done (entries st);
  ready_census : census st = {| census_entries := lenZ done; census_total := total done |};
  ready_paths : represents (path_set st) (path_collision_key nfd fold_string <$> (fst <$> done));
  ready_verdict : verdict_ok done (inventory_verdict st);
}.

Lemma Forall_data (P : item -> Prop) l : Forall P l -> Forall P (data_items l).
Proof. rewrite !Forall_forall. intros H i [_ Hi]%list_elem_of_filter. by apply H. Qed.

Lemma total_app l1 l2 : total (l1 ++ l2) = total l1 + total l2.
Proof. unfold total. induction l1 as [|i l1 IH]; cbn; [done|]. rewrite IH. lia. Qed.

Lemma total_nonneg l : 0 <= total l.
Proof. unfold total. induction l as [|i l IH]; cbn; lia. Qed.

Lemma describes_paths text done es : Forall2 (describes text) done es -> entry_path <$> es = fst <$> done.
Proof. induction 1 as [|i e done es (H&_) _ IH]; [done|]. cbn. by rewrite H, IH. Qed.

Lemma describes_data text done es : Forall2 (describes text) done es -> Forall2 (describes text) (data_items done) (data_entries es).
Proof.
  unfold data_items, data_entries. induction 1 as [|i e done es Hd _ IH]; [constructor|]. rewrite !filter_cons.
  assert (entry_path e = i.1) as -> by apply Hd. destruct (decide (is_data i.1 = true)); [by constructor|done].
Qed.

Lemma describes_inventory text done es : Forall2 (describes text) done es -> inventory_text es = items_inventory done.
Proof.
  intros H%describes_data. unfold inventory_text, items_inventory. f_equal.
  induction H as [|i e l l' (Hp&_&Hd&_) _ IH]; [done|]. cbn [fmap list_fmap]. by rewrite Hp, Hd, IH.
Qed.

Lemma frames_cons_inv p b rem t : frames ((p, b) :: rem) t ->
  exists h rest, t = h ++ b ++ pad (lenZ b) ++ rest /\ written_header p (lenZ b) h /\ frames rem rest.
Proof. inversion 1; subst; eauto. Qed.

Lemma frames_nil_inv t : frames [] t -> t = replicate 1024 0.
Proof. by inversion 1. Qed.

Section items.
Context (items : list item) (text : list Z) (Hadm : admissible items) (Htext : lenZ text <= u64_max).

Lemma item_facts done p b rem : items = done ++ (p, b) :: rem ->
  is_str p /\ path_violation nfc p (max_path_bytes limits) = None /\ check_reserved_path parse_uuid p = Ok tt.
Proof. intros ->. pose proof (adm_paths _ Hadm) as H. apply Forall_app in H as [_ H]. by apply Forall_cons in H as [? _]. Qed.

Lemma prefix_sorted done rem : items = done ++ rem -> StronglySorted ord_lt (fst <$> done).
Proof. intros ->. pose proof (adm_sorted _ Hadm) as H. rewrite fmap_app in H. by apply StronglySorted_app_1_l in H. Qed.

Lemma filter_sorted (l : list item) : StronglySorted ord_lt (fst <$> l) -> StronglySorted ord_lt (fst <$> data_items l).
Proof.
  induction l as [|i l IH]; intros H; [constructor|]. cbn in H. apply StronglySorted_inv in H as [H1 H2].
  unfold data_items. rewrite filter_cons. destruct (decide _); [|by apply IH]. cbn. constructor; [by apply IH|].
  rewrite Forall_fmap in H2. apply Forall_fmap, Forall_data. exact H2.
Qed.

Lemma entries_admitted done rem es : items = done ++ rem -> Forall2 (describes text) done es ->
  Forall (admitted nfc (max_path_bytes limits)) (data_entries es) /\ StronglySorted ord_lt (entry_path <$> data_entries es).
Proof.
  intros Hit Hes. pose proof (describes_data _ _ _ Hes) as Hd. split.
  - assert (Hall : Forall (fun i => is_str i.1 /\ path_violation nfc i.1 (max_path_bytes limits) = None) (data_items done)).
    { apply Forall_data. pose proof (adm_paths _ Hadm) as H. rewrite Hit in H. apply Forall_app in H as [H _].
      eapply Forall_impl; [exact H|]. by intros i (?&?&_). }
    clear Hes. induction Hd as [|i e l es' (Hp&_&Hdig&_) _ IH]; [constructor|]. apply Forall_cons in Hall as [[H1 H2] Hall].
    constructor; [|auto]. unfold admitted, validate_path. rewrite Hp, Hdig, H2. destruct (Hsha i.2). done.
  - rewrite (describes_paths _ _ _ Hd). by eapply filter_sorted, prefix_sorted.
Qed.

Lemma order_ok done p b rem es : items = done ++ (p, b) :: rem -> Forall2 (describes text) done es ->
  not_after (last_path es) p = false.
Proof.
  intros Hit Hes. unfold last_path, not_after. rewrite <-fmap_last, (describes_paths _ _ _ Hes).
  destruct (last (fst <$> done)) as [q|] eqn:El; [|done]. apply last_Some in El as [l Hl].
  pose proof (adm_sorted _ Hadm) as H. rewrite Hit, fmap_app, Hl, <-app_assoc in H. apply StronglySorted_app_1_r in H. cbn in H.
  apply StronglySorted_inv in H as [_ H]. apply Forall_cons in H as [[H1 H2] _]. apply bool_decide_eq_false. intros H3.
  apply H2. by apply ord_antisymm.
Qed.

Lemma admit_ok done p b rem set : items = done ++ (p, b) :: rem ->
  represents set (path_collision_key nfd fold_string <$> (fst <$> done)) ->
  exists set', admit_path nfd fold_string set p = Ok set' /\
    represents set' (path_collision_key nfd fold_string <$> (fst <$> done ++ [(p, b)])).
Proof.
  intros Hit Hr. pose proof (validate_path_set_spec nfd fold_string items.*1) as Hc. rewrite (adm_set _ Hadm) in Hc.
  rewrite Hit, cons_middle, app_assoc, !fmap_app in Hc. apply compatible_app_l in Hc. pose proof Hc as Hc'. apply compatible_app_l in Hc.
  pose proof (admit_path_iff nfd fold_string set p _ Hr Hc) as H. destruct (admit_path nfd fold_string set p) as [set'|e].
  - exists set'. split; [done|]. rewrite fmap_app, fmap_app. apply H.
  - destruct H as [H _]. done.
Qed.

Lemma census_ok done p b rem : items = done ++ (p, b) :: rem ->
  census_admit {| census_entries := lenZ done; census_total := total done |} p (lenZ b) limits =
  Ok {| census_entries := lenZ (done ++ [(p, b)]); census_total := total (done ++ [(p, b)]) |} /\ lenZ b <= u64_max.
Proof.
  intros Hit. pose proof (adm_count _ Hadm) as Hc. pose proof (adm_total _ Hadm) as Ht. pose proof (adm_sizes _ Hadm) as Hs.
  rewrite Hit in Hc, Ht, Hs. apply Forall_app in Hs as [_ [Hs _]%Forall_cons]. cbn [snd] in Hs. rewrite total_app in Ht. cbn in Ht.
  fold (total rem) in Ht. pose proof (total_nonneg done). pose proof (total_nonneg rem). rewrite length_app in Hc. cbn [length] in Hc.
  unfold census_admit, enforce_length. cbn [census_entries census_total].
  assert (Hsat : saturating_add (lenZ done) 1 = lenZ (done ++ [(p, b)])).
  { unfold saturating_add. rewrite length_app. cbn [length]. unfold usize_max. lia. }
  rewrite Hsat. rewrite (proj2 (Z.ltb_ge (max_entries limits) _)) by (rewrite length_app; cbn [length]; lia).
  rewrite !(proj2 (Z.ltb_ge _ _)) by lia. cbn [mbind result_bind]. rewrite total_app. cbn [total foldr snd].
  split; [by rewrite Z.add_0_r|lia].
Qed.

Lemma padding_bound n : 0 <= padding n < 512.
Proof. unfold padding. apply Z.mod_pos_bound. lia. Qed.

(** The position stays the number of bytes read. *)
Lemma after_exact pos n rest : pos + 512 + n + padding n + rest <= u64_max -> 0 <= pos -> 0 <= n -> 0 <= rest ->
  saturating_add pos 512 = pos + 512 /\ after (saturating_add pos 512) n = pos + 512 + n + padding n.
Proof.
  intros H Hp Hn Hr. pose proof (padding_bound n). unfold after, saturating_add, usize_max. unfold u64_max in *. lia.
Qed.

Lemma inventory_unread done p b rem before b' later : items = done ++ (p, b) :: rem ->
  done = before ++ (INVENTORY_PATH, b') :: later -> p <> INVENTORY_PATH.
Proof.
  intros Hit Hdone ->. pose proof (adm_sorted _ Hadm) as H. rewrite Hit, Hdone, <-app_assoc, fmap_app in H.
  apply StronglySorted_app_1_r in H. cbn in H. apply StronglySorted_inv in H as [_ H]. rewrite fmap_app in H.
  apply Forall_app in H as [_ [[_ H] _]%Forall_cons]. done.
Qed.

(** The verdict after one more entry. *)
Lemma verdict_step done p b rem es v v' : items = done ++ (p, b) :: rem -> Forall2 (describes text) done es -> verdict_ok done v ->
  (if decide (p = INVENTORY_PATH)
   then exists chunks c, concat chunks = b /\ feed nfc (new_check es (max_path_bytes limits)) chunks = Some c /\ v' = Some (finish c)
   else v' = v) ->
  verdict_ok (done ++ [(p, b)]) v'.
Proof.
  intros Hit Hes Hv Hv' before b' later Heq Hdata.
  destruct (decide (p = INVENTORY_PATH)) as [->|Hp].
  - assert (Hlast : before = done /\ b' = b).
    { destruct later as [|i later _] using rev_ind; [apply app_inj_tail in Heq as [Hd Hb]; split; congruence|].
      rewrite app_comm_cons, app_assoc in Heq. apply app_inj_tail in Heq as [Heq _]. by apply (inventory_unread _ _ _ _ _ _ _ Hit) in Heq. }
    destruct Hlast as [-> ->]. destruct Hv' as (chunks&c&Hb&Hfeed&->).
    destruct (entries_admitted done _ es Hit Hes) as [H1 H2].
    destruct (feed_new nfc es (max_path_bytes limits) chunks (proj1 (adm_header _ Hadm)) H1 H2) as (c'&Hc'&Hiff).
    rewrite Hfeed in Hc'. injection Hc' as <-. rewrite (describes_inventory _ _ _ Hes), Hb in Hiff.
    split; [intros [= H]; by apply Hiff in H as [? _]|]. intros Heq'. f_equal. apply Hiff. split; [done|]. rewrite Heq'.
    unfold items_inventory. destruct (data_items done); [done|]. cbn. unfold row_text. rewrite <-!app_assoc. by intros [_ [? _]%app_nil]%app_nil.
  - subst v'. destruct later as [|i later _] using rev_ind; [apply app_inj_tail in Heq as [_ Heq]; congruence|].
    rewrite app_comm_cons, app_assoc in Heq. apply app_inj_tail in Heq as [Heq _]. by eapply Hv.
Qed.

(** A regular header and its payload, read with or without records announced for it. *)
Lemma entry_step done p b rem st h rest name prefix n :
  items = done ++ (p, b) :: rem -> ready text done st -> stream st = h ++ b ++ pad (lenZ b) ++ rest ->
  reads_as h name prefix n 48 -> resolve_entry (pending_pax st) (joined name prefix) n = Ok (p, lenZ b) ->
  verify_canonical_header_path h p (bool_decide (is_Some (pending_pax st))) = Ok tt ->
  exists st', one_turn st = Done (Continue st') /\ ready text (done ++ [(p, b)]) st' /\ pending_pax st' = None /\ stream st' = rest.
Proof.
  intros Hit Hready Hstream Hreads Hres Hver. destruct (item_facts done p b rem Hit) as (Hs&Hviol&Hreserved).
  pose proof (ready_entries _ _ _ Hready) as Hes. destruct (entries_admitted done _ _ Hit Hes) as [Ha1 Ha2].
  destruct (admit_ok done p b rem _ Hit (ready_paths _ _ _ Hready)) as (set&Hset&Hset').
  destruct (census_ok done p b rem Hit) as [Hcensus Hb]. rewrite <-(ready_census _ _ _ Hready) in Hcensus.
  destruct (entry_turn_ok st h rest (joined name prefix) n p b set _ Hres Hver Hviol Hreserved (order_ok _ _ _ _ _ Hit Hes) Hset Hcensus)
    as (st'&Hturn&Hadds).
  { intros limit. rewrite <-(Forall2_length _ _ _ Hes). apply (adm_retained _ Hadm (length done) p b).
    by rewrite Hit, lookup_app_r, Nat.sub_diag by lia. }
  { exact Hb. }
  { intros _ chunks. destruct (feed_new nfc (entries st) (max_path_bytes limits) chunks (proj1 (adm_header _ Hadm)) Ha1 Ha2) as (c&?&_).
    by exists c. }
  exists st'. split.
  { rewrite (turn_header st h _ name prefix n 48 Hreads Hstream). rewrite decide_False by done.
    rewrite bool_decide_true by done. cbn [negb check of_result mbind outcome_bind]. exact Hturn. }
  destruct Hadds as [H1 (bytes&H2&Hbytes) H3 H4 H5 H6 H7]. split; [|done].
  destruct (ready_position _ _ _ Hready) as (pre&Hpre&Hpos). rewrite Hstream in Hpre.
  assert (Hlen : lenZ text = lenZ pre + 512 + lenZ b + padding (lenZ b) + lenZ rest).
  { rewrite Hpre, !length_app, (reads_length _ _ _ _ _ Hreads). pose proof (pad_length (lenZ b)). lia. }
  rewrite Hpos in *. destruct (after_exact (lenZ pre) (lenZ b) (lenZ rest)) as [Ho1 Ho2]; [lia|lia|lia|lia|]. split.
  - exists (pre ++ h ++ b ++ pad (lenZ b)). split; [by rewrite H1, Hpre, <-!app_assoc|].
    rewrite H6, Ho2, !length_app, (reads_length _ _ _ _ _ Hreads). pose proof (pad_length (lenZ b)). lia.
  - rewrite H2. apply Forall2_app; [done|]. constructor; [|constructor]. split; [done|]. split; [done|]. split; [done|]. cbn [entry_offset entry_bytes fst snd].
    split; [destruct Hbytes as [->|[-> Hr]]; [by left|right; split; [done|by eapply retained_anywhere]]|].
    exists (length (pre ++ h)). split.
    + rewrite Ho1, length_app, (reads_length _ _ _ _ _ Hreads). f_equal. lia.
    + rewrite Hpre. unfold slice. rewrite app_assoc, drop_app_length. cbn [snd]. by rewrite take_app_length.
  - done.
  - by rewrite H4.
  - eapply verdict_step; [done|exact Hes|apply (ready_verdict _ _ _ Hready)|exact H7].
Qed.

Abbreviation loop := (fun fuel st => read_loop sha256 parse_uuid nfc nfd fold_string fuel limits trailing st).

Lemma item_step done p b rem st : items = done ++ (p, b) :: rem -> ready text done st -> pending_pax st = None ->
  frames ((p, b) :: rem) (stream st) ->
  exists k st', (k <= 2)%nat /\ (forall fuel, loop (k + fuel)%nat st = loop fuel st') /\
    ready text (done ++ [(p, b)]) st' /\ pending_pax st' = None /\ frames rem (stream st').
Proof.
  intros Hit Hready Hpend Hframes. apply frames_cons_inv in Hframes as (h&rest&Hstream&Hh&Hrest).
  destruct (census_ok done p b rem Hit) as [_ Hb]. destruct (item_facts done p b rem Hit) as (Hs&Hviol&_).
  destruct Hh as [h name prefix Hreads Hj Hsplit Hn|first body second Henc Hbody Hfirst Hsecond Hcan].
  - destruct (entry_step done p b rem st h rest name prefix (lenZ b) Hit Hready) as (st'&Hturn&H1&H2&H3); try done.
    + rewrite Hpend, Hj. unfold resolve_entry, entry_size. by rewrite (proj2 (Z.ltb_ge _ _)).
    + rewrite Hpend, bool_decide_false by (by intros []). by eapply reads_canonical.
    + exists 1%nat, st'. split; [lia|]. split; [|by rewrite H3]. intros fuel. cbn [Nat.add read_loop]. by rewrite Hturn.
  - destruct (adm_header _ Hadm) as [Hmax Hlimit]. apply path_violation_None in Hviol as (_&Hplen&_).
    assert (Hu : lenZ body <= usize_max).
    { unfold ustar_size_limit, USTAR_MAX_ENTRY_BYTES in Hlimit. unfold usize_max, u64_max. lia. }
    rewrite <-!app_assoc in Hstream.
    pose proof (turn_header st first _ _ _ _ _ Hfirst Hstream) as Hturn1. rewrite decide_True in Hturn1 by done.
    rewrite (pax_turn_ok st (second ++ b ++ pad (lenZ b) ++ rest) p (lenZ b) body Hpend Hs ltac:(lia) Henc ltac:(lia) Hu) in Hturn1.
    set (st1 := with_pending _ _ _ _) in Hturn1.
    assert (Hready1 : ready text done st1).
    { destruct Hready as [(pre&Hpre&Hpos) H2 H3 H4 H5]. split; [|done|done|done|done].
      exists (pre ++ first ++ body ++ pad (lenZ body)). rewrite Hstream in Hpre. cbn [stream with_pending st1 position].
      split; [rewrite Hpre; by rewrite <-!app_assoc|]. rewrite Hpos.
      assert (Hlen : lenZ text = lenZ pre + 512 + lenZ body + padding (lenZ body) + lenZ (second ++ b ++ pad (lenZ b) ++ rest)).
      { rewrite Hpre, !length_app, (reads_length _ _ _ _ _ Hfirst). pose proof (pad_length (lenZ body)). lia. }
      destruct (after_exact (lenZ pre) (lenZ body) (lenZ (second ++ b ++ pad (lenZ b) ++ rest))) as [_ ->]; [lia|lia|lia|lia|].
      rewrite !length_app, (reads_length _ _ _ _ _ Hfirst). pose proof (pad_length (lenZ body)). lia. }
    destruct (entry_step done p b rem st1 second rest _ _ _ Hit Hready1 eq_refl Hsecond) as (st'&Hturn2&H1&H2&H3).
    + apply resolve_pax; [lia|done].
    + done.
    + exists 2%nat, st'. split; [lia|]. split; [|by rewrite H3]. intros fuel. cbn [Nat.add read_loop]. rewrite Hturn1.
      cbn [mbind outcome_bind]. by rewrite Hturn2.
Qed.

Lemma loop_ok rem done st fuel : items = done ++ rem -> ready text done st -> pending_pax st = None -> frames rem (stream st) ->
  (2 * length rem + 1 <= fuel)%nat ->
  exists st', loop fuel st = Done st' /\ Forall2 (describes text) items (entries st') /\
    verdict_ok items (inventory_verdict st') /\ pending_pax st' = None /\ stream st' = [].
Proof.
  revert done st fuel. induction rem as [|[p b] rem IH]; intros done st fuel Hit Hready Hpend Hframes Hfuel.
  - apply frames_nil_inv in Hframes. destruct fuel as [|fuel]; [cbn in Hfuel; lia|].
    destruct (turn_end st Hpend Hframes) as (st'&Hturn&H1&H2&H3). exists st'. cbn [read_loop]. rewrite Hturn. cbn [mbind outcome_bind].
    rewrite app_nil_r in Hit. rewrite H1, H2, Hit. split; [done|]. split; [apply Hready|]. split; [apply Hready|done].
  - destruct (item_step done p b rem st Hit Hready Hpend Hframes) as (k&st'&Hk&Hloop&H1&H2&H3). cbn [length] in Hfuel.
    destruct (IH (done ++ [(p, b)]) st' (fuel - k)%nat) as (st''&H4&H5); [by rewrite <-app_assoc|done|done|done|lia|].
    exists st''. split; [|done]. replace fuel with (k + (fuel - k))%nat by lia. by rewrite Hloop.
Qed.

Lemma frames_length rem t : frames rem t -> (2 * length rem + 1 <= length t)%nat.
Proof.
  induction 1 as [|p b rem h rest Hh _ IH]; [rewrite length_replicate; cbn; lia|]. rewrite !length_app. cbn [length].
  assert (512 <= length h)%nat; [|lia]. destruct Hh as [h name prefix Hr|first body second _ _ Hr].
  - by rewrite (reads_length _ _ _ _ _ Hr).
  - rewrite length_app, (reads_length _ _ _ _ _ Hr). lia.
Qed.

Lemma read_frames : frames items text -> exists scan,
  read_bundle sha256 parse_uuid nfc nfd fold_string limits trailing text = Done scan /\
  Forall2 (describes text) items (scan_entries scan) /\ verdict_ok items (scan_inventory scan) /\
  transport_digest scan = hex (sha256 text).
Proof.
  intros Hframes. unfold read_bundle. rewrite (proj2 (Z.eqb_neq _ _)) by lia.
  destruct (loop_ok items [] (initial limits text) (S (length text)) eq_refl) as (st&Hst&H1&H2&H3&H4); [|done|exact Hframes| |].
  - split; [by exists []|constructor|done|apply (represents_empty nfd fold_string)|]. intros before b later Heq. by destruct before.
  - pose proof (frames_length _ _ Hframes). lia.
  - rewrite Hst. cbn [mbind outcome_bind]. rewrite H3, bool_decide_false by (by intros []). cbn [check of_result mbind outcome_bind].
    eexists. split; [done|]. split_and!; [done..|]. cbn [transport_digest]. by rewrite H4, consumed_all.
Qed.
End items.

(** ** The package of a plan *)

Definition tag_rows (tags : list item) : list Z := concat ((fun i => row_text i.1 (sha256 i.2)) <$> tags).

(** The items with the manifest and the files only, and the items of the whole package. *)
Definition content_items (plan : PortableExportPlan) (contents : list (list Z)) : list item :=
  sort_by_key fst ((MANIFEST_PATH, manifest plan) :: zip (file_path <$> files plan) contents).
Definition tag_items (plan : PortableExportPlan) (contents : list (list Z)) : list item :=
  [(BAG_INFO_PATH, BAG_INFO); (BAGIT_PATH, BAGIT); (INVENTORY_PATH, items_inventory (content_items plan contents))].
Definition package_items (plan : PortableExportPlan) (contents : list (list Z)) : list item :=
  sort_by_key fst (content_items plan contents ++ tag_items plan contents ++
    [(TAG_MANIFEST_PATH, tag_rows (tag_items plan contents))]).

(** The files of the plan have their planned contents when they are read. *)
Definition unchanged (f : PlannedFile) (content : list Z) : Prop :=
  stream_file sha256 checksum f = Done content /\ file_digest f = sha256 content.

(** An item to write and the item it stands for. *)
Definition stands_for (all : list (list Z * Src)) (s : list Z * Src) (i : item) : Prop :=
  s.1 = i.1 /\ src_len s.2 = lenZ i.2 /\ src_digest sha256 s.2 = sha256 i.2 /\ src_payload sha256 checksum all s.2 = Done i.2.

Lemma sort_Forall2 {A B} (R : (list Z * A) -> (list Z * B) -> Prop) l1 l2 :
  (forall x y, R x y -> x.1 = y.1) -> Forall2 R l1 l2 -> Forall2 R (sort_by_key fst l1) (sort_by_key fst l2).
Proof.
  intros HR H. assert (Hins : forall x y k1 k2, R x y -> Forall2 R k1 k2 -> Forall2 R (insert_by_key fst x k1) (insert_by_key fst y k2)).
  { intros x y k1 k2 Hxy Hk. induction Hk as [|a b k1 k2 Hab Hk IH]; cbn [insert_by_key]; [by repeat constructor|].
    rewrite (HR x y Hxy), (HR a b Hab). destruct (decide _); by repeat constructor. }
  induction H as [|x y l1 l2 Hxy H IH]; [constructor|]. cbn [sort_by_key foldr]. by apply Hins.
Qed.

Lemma stream_file_length f content : stream_file sha256 checksum f = Done content -> lenZ content = file_length f.
Proof.
  unfold stream_file. destruct (source f) as [bytes|bytes].
  - destruct (Z.eqb_spec (lenZ bytes) (file_length f)) as [He|]; [|done]. cbn [negb orb]. destruct (negb _); [done|]. by intros [= <-].
  - destruct (_ <? _); [done|]. set (read := take _ bytes). destruct (Z.eqb_spec (lenZ read) (file_length f)) as [He|]; [|done].
    cbn [negb orb]. match goal with |- (if ?c then _ else _) = _ -> _ => destruct c; [done|] end. by intros [= <-].
Qed.

Lemma contents_stand_for plan contents all : Forall2 unchanged (files plan) contents ->
  Forall2 (stands_for all)
    (sort_by_key fst ((MANIFEST_PATH, Bytes (manifest plan)) :: ((fun f => (file_path f, File f)) <$> files plan)))
    (content_items plan contents).
Proof.
  intros H. apply sort_Forall2; [by intros x y (?&_)|]. constructor; [done|].
  induction H as [|f c fs cs [Hf Hd] _ IH]; [constructor|]. cbn [fmap list_fmap zip zip_with]. constructor; [|done].
  unfold stands_for. cbn [fst snd src_len src_digest src_payload]. rewrite (stream_file_length f c Hf). done.
Qed.

(** What the inventory says of an item. *)
Definition same_row (s : list Z * Src) (i : item) : Prop := s.1 = i.1 /\ src_digest sha256 s.2 = sha256 i.2.

Lemma rows_stand_for ss its : Forall2 same_row ss its ->
  payload_rows sha256 ss = (fun i => (i.1, sha256 i.2)) <$> data_items its.
Proof.
  unfold payload_rows, data_items. induction 1 as [|s i ss its [H1 H2] _ IH]; [done|]. rewrite !filter_cons. rewrite H1.
  change (starts_with (bytes_of "data/") i.1) with (is_data i.1). destruct (decide (is_data i.1 = true)); [|done].
  cbn [fmap list_fmap]. rewrite H1, H2. by f_equal.
Qed.

Lemma inventory_identity_of its : lenZ (items_inventory its) <= u64_max ->
  stream_inventory sha256 checksum ((fun i => (i.1, sha256 i.2)) <$> data_items its) =
  Done (items_inventory its, {| inventory_length := lenZ (items_inventory its); inventory_digest := sha256 (items_inventory its);
    inventory_checksum := checksum (items_inventory its) |}).
Proof.
  intros Hlen. set (rows := (fun i => (i.1, sha256 i.2)) <$> data_items its).
  assert (Htext : items_inventory its = concat ((fun r => row_text r.1 r.2) <$> rows)).
  { unfold items_inventory, rows. by rewrite <-list_fmap_compose. }
  destruct (render_loop_spec (foldr (fun r n => lenZ r.1 + n) 0 rows) rows [] 0) as (bs&H1&H2&_).
  - clear. induction rows as [|r rows IH]; cbn; lia.
  - assert (Hdig : Forall (fun r => length r.2 = 32%nat) rows) by (apply Forall_fmap, Forall_true; intros i; cbn; apply Hsha).
    clear -Hdig. induction Hdig as [|r rows Hr _ IH]; [constructor|]. cbn [foldr].
    assert (0 <= foldr (fun r n => lenZ r.1 + n) 0 rows) by (clear; induction rows as [|? ? IH]; cbn; lia).
    constructor; [split; [lia|done]|]. eapply Forall_impl; [exact IH|]. cbn. intros x [Hx ?]. split; [lia|done].
  - rewrite <-Htext. lia.
  - cbn. unfold INVENTORY_BATCH_BYTES. lia.
  - unfold stream_inventory, render_inventory. rewrite H1. cbn [mbind outcome_bind]. rewrite H2. cbn [app]. rewrite <-Htext. done.
Qed.

Lemma tag_manifest_ok rows limit o : limit <= u64_max -> Forall (fun r => length r.2 = 32%nat) rows ->
  lenZ o + lenZ (concat ((fun r => row_text r.1 r.2) <$> rows)) <= limit ->
  tag_manifest rows limit o = Done (o ++ concat ((fun r => row_text r.1 r.2) <$> rows)).
Proof.
  intros Hlim Hrows. revert o. induction Hrows as [|[p d] rows Hd _ IH]; intros o Ho; cbn [tag_manifest fmap list_fmap concat fst snd] in *.
  - by rewrite app_nil_r.
  - rewrite length_app in Ho. pose proof (row_text_length p d Hd) as Hrow. rewrite (proj2 (Z.ltb_ge _ _)) by lia.
    rewrite (proj2 (Z.ltb_ge _ _)) by (unfold saturating_add; lia). rewrite IH; [by rewrite <-app_assoc|]. rewrite length_app. lia.
Qed.

Lemma contents_rows all ss its : Forall2 (stands_for all) ss its -> Forall2 same_row ss its.
Proof. intros H. eapply Forall2_impl; [exact H|]. by intros s i (?&_&?&_). Qed.

(** The tags are no payload, so both lists have one inventory. *)
Lemma data_of_package plan contents : data_items (package_items plan contents) = data_items (content_items plan contents).
Proof.
  unfold package_items, data_items. rewrite filter_sort_by_key, !filter_app. unfold tag_items.
  rewrite !(filter_cons (fun i : item => is_data i.1 = true)), !decide_False, filter_nil by done. rewrite !app_nil_r.
  unfold content_items. rewrite filter_sort_by_key. apply sort_by_key_id, sort_by_key_sorted.
Qed.

Lemma items_inventory_data its its' : data_items its = data_items its' -> items_inventory its = items_inventory its'.
Proof. unfold items_inventory. by intros ->. Qed.

Lemma write_frames all ss its : Forall2 (stands_for all) ss its -> Forall (fun i => lenZ i.2 <= u64_max) its ->
  Forall (fun i => is_str i.1 /\ path_violation nfc i.1 (max_path_bytes limits) = None) its ->
  max_path_bytes limits + PAX_RECORD_OVERHEAD_BYTES <= ustar_size_limit ->
  exists text, write_items sha256 checksum all ss = Done text /\ frames its text.
Proof.
  intros H Hsizes Hpaths Hmax. induction H as [|[p src] [p' b] ss its (Hp&Hlen&_&Hpay) _ IH].
  { exists (replicate 1024 0). split; [done|constructor]. }
  cbn [fst snd] in *. subst p'. apply Forall_cons in Hsizes as [Hb Hsizes]. apply Forall_cons in Hpaths as [[Hs Hv] Hpaths]. cbn [fst snd] in *.
  destruct (IH Hsizes Hpaths) as (rest&Hw&Hf). apply path_violation_None in Hv as (_&Hl&Hc&Hh&_).
  destruct (header_written p (lenZ b)) as (h&Hhd&Hwr); [done| |done|lia|lia|].
  { eapply Forall_impl; [exact Hc|]. by intros x (?&_). }
  cbn [write_items]. rewrite Hlen, Hhd. cbn [mbind outcome_bind]. rewrite Hpay. cbn [mbind outcome_bind]. rewrite Hw. cbn [mbind outcome_bind].
  eexists. split; [done|]. by constructor.
Qed.

Lemma total_item its p b : (p, b) ∈ its -> lenZ b <= total its.
Proof.
  induction its as [|i its IH]; [by intros ?%elem_of_nil|]. intros [<-|Hin]%elem_of_cons; cbn; fold (total its).
  - pose proof (total_nonneg its). lia.
  - specialize (IH Hin). lia.
Qed.

(** A path of the payload precedes the inventory. *)
Lemma data_before_inventory p : is_data p = true -> ord_le p INVENTORY_PATH.
Proof.
  unfold is_data. intros H%bool_decide_eq_true. do 5 (destruct p as [|? p]; [discriminate H|]). injection H as -> -> -> -> ->.
  left. done.
Qed.

(** The inventory of a package is the one of the entries that precede it. *)
Lemma package_inventory its : StronglySorted ord_lt (fst <$> its) -> forall b, (INVENTORY_PATH, b) ∈ its ->
  exists before later, its = before ++ (INVENTORY_PATH, b) :: later /\ data_items before = data_items its.
Proof.
  intros Hsort b (before&later&->)%list_elem_of_split. exists before, later. split; [done|].
  rewrite fmap_app in Hsort. apply StronglySorted_app_1_r in Hsort. cbn in Hsort. apply StronglySorted_inv in Hsort as [_ Hsort].
  unfold data_items. rewrite filter_app, filter_cons, decide_False by done.
  assert (Hl : base.filter (fun i : item => is_data i.1 = true) later = []).
  { induction later as [|i later IH]; [done|]. cbn in Hsort. apply Forall_cons in Hsort as [[H1 H2] Hsort]. rewrite filter_cons.
    rewrite decide_False; [by apply IH|]. intros Hd%data_before_inventory. apply H2. by apply ord_antisymm. }
  by rewrite Hl, app_nil_r.
Qed.

Lemma inventory_in_package plan contents :
  (INVENTORY_PATH, items_inventory (content_items plan contents)) ∈ package_items plan contents.
Proof.
  unfold package_items. rewrite sort_by_key_perm. apply elem_of_app. right. apply elem_of_app. left. unfold tag_items.
  do 2 (apply elem_of_cons; right). by apply list_elem_of_singleton.
Qed.

Lemma bundle_written plan contents max_tag :
  Forall2 unchanged (files plan) contents -> admissible (package_items plan contents) ->
  lenZ (tag_rows (tag_items plan contents)) <= max_tag <= u64_max ->
  exists text, bundle sha256 checksum plan max_tag = Done text /\ frames (package_items plan contents) text.
Proof.
  intros Hfiles Hadm Htag. set (inv := items_inventory (content_items plan contents)).
  pose proof (inventory_in_package plan contents) as Hin. fold inv in Hin.
  pose proof (adm_total _ Hadm) as Htotal. pose proof (total_item _ _ _ Hin) as Hinv.
  set (vs := sort_by_key fst ((MANIFEST_PATH, Bytes (manifest plan)) :: ((fun f => (file_path f, File f)) <$> files plan))).
  set (identity := {| inventory_length := lenZ inv; inventory_digest := sha256 inv; inventory_checksum := checksum inv |}).
  set (tag := tag_rows (tag_items plan contents)).
  set (ss := vs ++ [(BAG_INFO_PATH, Bytes BAG_INFO); (BAGIT_PATH, Bytes BAGIT); (INVENTORY_PATH, Inventory identity)] ++ [(TAG_MANIFEST_PATH, Bytes tag)]).
  assert (Hentries : plan_entries sha256 checksum plan max_tag = Done ss).
  { unfold plan_entries. fold vs. rewrite (rows_stand_for vs (content_items plan contents)) by (by apply (contents_rows []), contents_stand_for).
    rewrite inventory_identity_of by (fold inv; lia). cbn [mbind outcome_bind]. fold inv identity.
    rewrite tag_manifest_ok; [done|lia| |exact (proj1 Htag)]. apply Forall_fmap. repeat (constructor; [cbn; apply Hsha|]). constructor. }
  assert (Hrows : payload_rows sha256 (sort_by_key fst ss) = (fun i => (i.1, sha256 i.2)) <$> data_items (package_items plan contents)).
  { apply rows_stand_for, sort_Forall2; [by intros x y (?&_)|]. unfold ss. apply Forall2_app; [by apply (contents_rows []), contents_stand_for|].
    by repeat constructor. }
  rewrite data_of_package in Hrows.
  assert (Hall : forall all, payload_rows sha256 all = (fun i => (i.1, sha256 i.2)) <$> data_items (content_items plan contents) ->
    Forall2 (stands_for all) (sort_by_key fst ss) (package_items plan contents)).
  { clear Hrows. intros all Hrows. apply sort_Forall2; [by intros x y (?&_)|]. unfold ss.
    apply Forall2_app; [by apply contents_stand_for|]. constructor; [done|]. constructor; [done|]. constructor; [|by repeat constructor].
    split; [done|]. split; [done|]. split; [done|].
    cbn [snd src_payload]. rewrite Hrows, inventory_identity_of by (fold inv; lia). cbn [mbind outcome_bind]. by rewrite decide_True. }
  destruct (write_frames (sort_by_key fst ss) (sort_by_key fst ss) (package_items plan contents) (Hall _ Hrows)) as (text&Hwrite&Hframes).
  { apply Forall_forall. intros [p b] Hb%total_item. cbn [snd]. lia. }
  { eapply Forall_impl; [exact (adm_paths _ Hadm)|]. by intros i (?&?&_). }
  { apply Hadm. }
  exists text. split; [unfold bundle; rewrite Hentries; exact Hwrite|exact Hframes].
Qed.

(** The inventory of the package is the one of the entries before it. *)
Lemma verdict_of_package plan contents v : admissible (package_items plan contents) -> verdict_ok (package_items plan contents) v ->
  v = Some (Ok tt).
Proof.
  intros Hadm Hverdict.
  destruct (package_inventory _ (adm_sorted _ Hadm) _ (inventory_in_package plan contents)) as (before&later&Hsplit&Hdata).
  rewrite data_of_package in Hdata. apply (Hverdict before _ later Hsplit).
  - rewrite Hdata. assert (Hman : (MANIFEST_PATH, manifest plan) ∈ data_items (content_items plan contents)).
    { unfold data_items. apply list_elem_of_filter. split; [done|]. unfold content_items. rewrite sort_by_key_perm. apply elem_of_cons. by left. }
    intros Hnil. rewrite Hnil in Hman. by apply elem_of_nil in Hman.
  - symmetry. by apply items_inventory_data.
Qed.

(** ** The tags of the package *)

(** What the semantic manifest declares of the files of a plan. *)
Definition declared_files (plan : PortableExportPlan) : list (list Z * (Z * list Z)) :=
  (fun f => (file_path f, (file_length f, hex (file_digest f)))) <$> files plan.

Section tags.
Context (plan : PortableExportPlan) (contents : list (list Z)) (text : list Z) (es : list Entry).
Context (Hadm : admissible (package_items plan contents)).
Context (Hes : Forall2 (describes text) (package_items plan contents) es).

Lemma sorted_nodup (l : list (list Z)) : StronglySorted ord_lt l -> NoDup l.
Proof.
  induction 1 as [|x l _ IH Hx]; constructor; [|done]. intros Hin. rewrite Forall_forall in Hx. by destruct (Hx x Hin) as [_ ?].
Qed.

Lemma paths_nodup : NoDup (entry_path <$> es).
Proof. rewrite (describes_paths _ _ _ Hes). apply sorted_nodup, Hadm. Qed.

Lemma found p b : (p, b) ∈ package_items plan contents -> exists e, entry_map es !! p = Some e /\ describes text (p, b) e.
Proof.
  intros (i&Hi)%list_elem_of_lookup. destruct (Forall2_lookup_l _ _ _ _ _ Hes Hi) as (e&He&Hd). exists e. split; [|done].
  apply entry_map_lookup; [apply paths_nodup|]. split; [by apply list_elem_of_lookup_2 in He|apply Hd].
Qed.

(** The paths of a package: the manifest, the files and the four tags. *)
Lemma package_paths p b : (p, b) ∈ package_items plan contents <->
  (p, b) = (MANIFEST_PATH, manifest plan) \/ (p, b) ∈ zip (file_path <$> files plan) contents \/
  (p, b) ∈ tag_items plan contents \/ (p, b) = (TAG_MANIFEST_PATH, tag_rows (tag_items plan contents)).
Proof.
  unfold package_items, content_items. rewrite sort_by_key_perm, !elem_of_app, sort_by_key_perm, elem_of_cons, list_elem_of_singleton. tauto.
Qed.

Lemma known_path p : is_Some (entry_map es !! p) ->
  p = MANIFEST_PATH \/ p ∈ file_path <$> files plan \/ p ∈ [BAG_INFO_PATH; BAGIT_PATH; INVENTORY_PATH] \/ p = TAG_MANIFEST_PATH.
Proof.
  intros [e [He <-]%entry_map_lookup]; [|apply paths_nodup]. apply list_elem_of_lookup in He as [i Hi].
  destruct (Forall2_lookup_r _ _ _ _ _ Hes Hi) as ([p b]&Hp%list_elem_of_lookup_2&(->&_)). cbn [fst].
  apply package_paths in Hp as [[= -> _]|[Hp|[Hp|[= -> _]]]]; [by left| | |by do 3 right].
  - right. left. apply list_elem_of_lookup in Hp as [k Hk]. rewrite lookup_zip_with_Some in Hk. destruct Hk as (x&y&[= -> ->]&Hk&_).
    by apply list_elem_of_lookup_2 in Hk.
  - right. right. left. unfold tag_items in Hp. rewrite !elem_of_cons, elem_of_nil in Hp. destruct Hp as [[= -> _]|[[= -> _]|[[= -> _]|[]]]]; set_solver.
Qed.

Lemma tag_found p b : (p, b) ∈ tag_items plan contents -> exists e, entry_map es !! p = Some e /\ describes text (p, b) e.
Proof. intros H. apply found, package_paths. auto. Qed.

Lemma required_tags : require_bag_tags sha256 (entry_map es) BAGIT BAG_INFO = Ok tt.
Proof.
  destruct (tag_found BAGIT_PATH BAGIT) as (e1&He1&_&Hl1&Hd1&_); [unfold tag_items; set_solver|].
  destruct (tag_found BAG_INFO_PATH BAG_INFO) as (e2&He2&_&Hl2&Hd2&Hb2&_); [unfold tag_items; set_solver|].
  unfold require_bag_tags, require_exact. rewrite He1, He2. cbn [ok_or mbind result_bind fst snd] in *.
  rewrite Hl1, Hl2, Hd1, Hd2, !Z.eqb_refl, !bool_decide_true by done. cbn [negb orb check mbind result_bind].
  assert (Hr : refuse_other_producer_revision (entry_map es) BAG_INFO_PATH BAG_INFO = Ok tt).
  { unfold refuse_other_producer_revision. rewrite He2. cbn [mbind option_bind].
    destruct Hb2 as [->|[-> _]]; [vm_compute; reflexivity|]. by destruct (bag_agent BAG_INFO). }
  by rewrite Hr.
Qed.

Context (Hfiles : Forall2 unchanged (files plan) contents).
Context (Hcomponents : Forall (fun f => starts_with (bytes_of "data/components/") (file_path f) = true) (files plan)).

Lemma declared_ok :
  check_declared (entry_map es) (sort_by_key fst (map_to_list (list_to_map (reverse (declared_files plan)) : gmap (list Z) (Z * list Z)))) = Ok tt.
Proof.
  apply check_declared_Ok. intros p n d Hin. rewrite sort_by_key_perm in Hin. apply elem_of_map_to_list, elem_of_list_to_map_2 in Hin.
  rewrite elem_of_reverse in Hin. unfold declared_files in Hin. apply list_elem_of_fmap in Hin as (f&[= -> -> ->]&Hf).
  apply list_elem_of_lookup in Hf as [i Hi]. destruct (Forall2_lookup_l _ _ _ _ _ Hfiles Hi) as (c&Hc&Hstream&Hdig).
  destruct (found (file_path f) c) as (e&He&_&Hl&Hd&_).
  { apply package_paths. right. left. apply (list_elem_of_lookup_2 _ i). rewrite lookup_zip_with, list_lookup_fmap, Hi, Hc. done. }
  exists e. cbn [fst snd] in *. split; [done|]. split; [rewrite Hl; by apply stream_file_length|]. rewrite Hd, <-Hdig.
  assert (Hhex : Forall (fun x => 0 <= x) (hex (file_digest f))).
  { rewrite Hdig. eapply Forall_impl; [apply hex_digits, Hsha|]. intros x (_&_&?). lia. }
  by apply constant_time_eq_spec.
Qed.

Lemma no_extra_payload :
  check_keys (fun p => starts_with (bytes_of "data/components/") p &&
      bool_decide ((list_to_map (reverse (declared_files plan)) : gmap (list Z) (Z * list Z)) !! p = None))
    (fun p => error_at InvalidStructure p "extra payload") (keys (entry_map es)) = Ok tt.
Proof.
  apply check_keys_Ok, Forall_forall. intros p Hp. apply elem_of_keys, known_path in Hp as [->|[Hp|[Hp| ->]]]; [done| | |done].
  - apply andb_false_iff. right. apply bool_decide_eq_false. rewrite <-not_elem_of_list_to_map.
    intros H. apply H. rewrite fmap_reverse, elem_of_reverse. unfold declared_files. rewrite <-list_fmap_compose. exact Hp.
  - rewrite !elem_of_cons, elem_of_nil in Hp. destruct Hp as [->|[->|[->|[]]]]; done.
Qed.

Lemma tags_ordered : StronglySorted ord_lt [BAG_INFO_PATH; BAGIT_PATH; INVENTORY_PATH].
Proof.
  repeat (apply SSorted_cons || apply SSorted_nil); repeat (apply Forall_cons; split); try apply Forall_nil_2;
    (split; [apply (bool_decide_eq_true_1 (ord_le _ _)); vm_compute; reflexivity|vm_compute; discriminate]).
Qed.

Lemma tag_manifest_read :
  parse_digest_manifest nfc (tag_rows (tag_items plan contents)) TAG_MANIFEST_PATH =
  Ok (foldl (fun m r => <[r.1 := hex r.2]> m) ∅ ((fun i => (i.1, sha256 i.2)) <$> tag_items plan contents)).
Proof.
  unfold tag_rows. change (fun i : item => row_text i.1 (sha256 i.2)) with ((fun r => row_text r.1 r.2) ∘ (fun i : item => (i.1, sha256 i.2))).
  rewrite list_fmap_compose. apply (parse_rows nfc (max_path_bytes limits)); [done| |].
  - apply Forall_fmap, Forall_forall. intros i Hi. assert (Hlen : lenZ i.1 <= tag_path_max).
    { unfold tag_items in Hi. rewrite !elem_of_cons, elem_of_nil in Hi. destruct Hi as [->|[->|[->|[]]]]; vm_compute; discriminate. }
    pose proof (adm_paths _ Hadm) as H. rewrite Forall_forall in H. destruct (H i) as (H1&H2&_).
    { destruct i. apply package_paths. auto. }
    unfold tag_row_ok. cbn. destruct (Hsha i.2). done.
  - rewrite <-list_fmap_compose. exact tags_ordered.
Qed.

(** The checks on the tags of the package accept it. *)
Lemma validated_manifests :
  validate_bag_manifests nfc (entry_map es) (declared_files plan) (Some (Ok tt)) = Done tt.
Proof.
  unfold validate_bag_manifests. rewrite declared_ok. cbn [of_result mbind outcome_bind]. rewrite no_extra_payload. cbn [of_result mbind outcome_bind].
  destruct (tag_found BAG_INFO_PATH BAG_INFO) as (e1&He1&_&_&Hd1&_); [unfold tag_items; set_solver|].
  destruct (tag_found BAGIT_PATH BAGIT) as (e2&He2&_&_&Hd2&_); [unfold tag_items; set_solver|].
  destruct (tag_found INVENTORY_PATH (items_inventory (content_items plan contents))) as (e3&He3&_&_&Hd3&_); [unfold tag_items; set_solver|].
  destruct (found TAG_MANIFEST_PATH (tag_rows (tag_items plan contents))) as (e4&He4&_&_&_&Hb4&_); [apply package_paths; auto|].
  cbn [check_keys]. rewrite He3, He4, !bool_decide_false by done. cbn [check ok_or of_result mbind result_bind outcome_bind].
  unfold read_entry_bytes_from_map. rewrite He4. cbn [mbind option_bind]. destruct Hb4 as [->|[_ Hn]]; [|discriminate Hn].
  cbn [ok_or of_result mbind outcome_bind fst snd]. rewrite tag_manifest_read. cbn [of_result mbind outcome_bind].
  unfold expected_tag. rewrite He1, He2, He3. cbn [mbind outcome_bind]. rewrite Hd1, Hd2, Hd3. cbn [snd].
  set (tags := foldl _ ∅ _). set (expected := list_to_map _).
  assert (Heq : tags = expected).
  { unfold tags, expected, tag_items. cbn [fmap list_fmap foldl fst snd list_to_map foldr]. rewrite !(insert_insert_ne _ INVENTORY_PATH) by done.
    by rewrite (insert_insert_ne _ BAGIT_PATH) by done. }
  rewrite Heq, bool_decide_true by done. cbn [negb check of_result mbind outcome_bind].
  match goal with |- of_result (check ?g _) = _ => assert (Hg : g = false); [|by rewrite Hg] end.
  apply not_true_iff_false. rewrite existsb_exists. intros (p&Hp%list_elem_of_In&H). rewrite !andb_true_iff, !negb_true_iff in H.
  destruct H as [[H1 H2] H3]. apply bool_decide_eq_true in H2. apply bool_decide_eq_false in H3.
  apply elem_of_keys, known_path in Hp as [->|[Hp|[Hp| ->]]]; [done| | |done].
  - apply list_elem_of_fmap in Hp as (f&->&Hf). rewrite Forall_forall in Hcomponents. specialize (Hcomponents f Hf).
    unfold starts_with in H1, Hcomponents. apply bool_decide_eq_true in Hcomponents. apply bool_decide_eq_false in H1. apply H1.
    apply (f_equal (take 5)) in Hcomponents. by rewrite take_take in Hcomponents.
  - rewrite !elem_of_cons, elem_of_nil in Hp. destruct Hp as [->|[->|[->|[]]]]; discriminate H2.
Qed.
End tags.

(** C5 A bundle that was exported is read back.  Under the documented shape of SHA-256, a plan whose
    files are unchanged and whose package the reader's limits, path rule and set rule admit is
    written without an error, and the scan of that file under those limits returns one entry for
    each item of the package in canonical order, with its path, its length, the digest of its
    payload, the bytes of every fixed control, and the offset at which the payload lies in the
    file; the streamed inventory is found exact, the transport digest is that of the whole file,
    and the checks on the tags and on the declared files accept the entries. *)
Theorem bundle_roundtrip plan contents max_tag :
  Forall2 unchanged (files plan) contents -> admissible (package_items plan contents) ->
  lenZ (tag_rows (tag_items plan contents)) <= max_tag <= u64_max ->
  Forall (fun f => starts_with (bytes_of "data/components/") (file_path f) = true) (files plan) ->
  exists text, bundle sha256 checksum plan max_tag = Done text /\
    (lenZ text <= u64_max -> exists scan,
      read_bundle sha256 parse_uuid nfc nfd fold_string limits trailing text = Done scan /\
      Forall2 (describes text) (package_items plan contents) (scan_entries scan) /\
      scan_inventory scan = Some (Ok tt) /\ transport_digest scan = hex (sha256 text) /\
      require_bag_tags sha256 (entry_map (scan_entries scan)) BAGIT BAG_INFO = Ok tt /\
      validate_bag_manifests nfc (entry_map (scan_entries scan)) (declared_files plan) (scan_inventory scan) = Done tt).
Proof.
  intros Hfiles Hadm Htag Hcomponents. destruct (bundle_written plan contents max_tag Hfiles Hadm Htag) as (text&Hbundle&Hframes).
  exists text. split; [done|]. intros Htext.
  destruct (read_frames (package_items plan contents) text Hadm Htext Hframes) as (scan&Hscan&Hdesc&Hverdict&Hdigest).
  assert (Hinv : scan_inventory scan = Some (Ok tt)) by (by eapply verdict_of_package).
  exists scan. split; [done|]. split; [done|]. split; [done|]. split; [done|]. rewrite Hinv.
  split; [by eapply required_tags|by eapply validated_manifests].
Qed.
End correct.

(** ** A concrete package *)

(** A stand-in with the shape of SHA-256. *)
Definition sample_hash (s : list Z) : list Z := replicate 32 (sum_bytes s mod 256).
Definition sample_plan : PortableExportPlan := {|
  files := [{| source := Control [1; 2; 3]; file_path := bytes_of "data/components/graph-data/y.txt"; file_length := 3;
               file_digest := sample_hash [1; 2; 3]; file_checksum := None |};
            {| source := Opened [7; 8]; file_path := bytes_of "data/components/" ++ replicate 120 97; file_length := 2;
               file_digest := sample_hash [7; 8]; file_checksum := Some 15 |}];
  manifest := bytes_of "{}" |}.
Definition sample_contents : list (list Z) := [[1; 2; 3]; [7; 8]].
Definition sample_package : list (list Z * list Z) := package_items sample_hash sample_plan sample_contents.

Lemma sample_hash_shape s : Forall is_byte (sample_hash s) /\ length (sample_hash s) = 32%nat.
Proof.
  unfold sample_hash. rewrite length_replicate. split; [|done]. apply Forall_replicate. unfold is_byte.
  pose proof (Z.mod_pos_bound (sum_bytes s) 256). lia.
Qed.

Lemma sample_admissible : admissible (fun _ => None) (fun s => s) (fun s => s) (fun s => s) default_limits sample_package.
Proof.
  split.
  - assert (H : forallb (fun i => bool_decide (is_str i.1) && bool_decide (path_violation (fun s => s) i.1 4096 = None) &&
      bool_decide (check_reserved_path (fun _ => None) i.1 = Ok tt)) sample_package = true) by (vm_compute; reflexivity).
    apply Forall_forall. intros i Hi%list_elem_of_In. rewrite forallb_forall in H. specialize (H i Hi).
    rewrite !andb_true_iff, !bool_decide_eq_true in H. tauto.
  - assert (H : forallb (fun p => bool_decide (ord_le p.1 p.2) && negb (bool_decide (p.1 = p.2)))
      (zip sample_package.*1 (drop 1 sample_package.*1)) = true) by (vm_compute; reflexivity).
    revert H. generalize (fst <$> sample_package). intros l H. apply Sorted_StronglySorted; [intros ? ? ?; apply ord_lt_trans|].
    induction l as [|a [|b l] IH]; [constructor|repeat constructor|]. cbn [drop zip zip_with forallb fst snd] in H. apply andb_prop in H as [H1 H2].
    constructor; [by apply IH|]. constructor. rewrite andb_true_iff, negb_true_iff, bool_decide_eq_true, bool_decide_eq_false in H1. exact H1.
  - vm_compute. reflexivity.
  - vm_compute. split; discriminate.
  - assert (H : forallb (fun i => lenZ i.2 <=? max_entry_bytes default_limits) sample_package = true) by (vm_compute; reflexivity).
    apply Forall_forall. intros i Hi%list_elem_of_In. rewrite forallb_forall in H. apply Z.leb_le. by apply H.
  - vm_compute. split; discriminate.
  - assert (H : forallb (fun i => lenZ i.2 <=? 4194304) sample_package = true) by (vm_compute; reflexivity).
    intros k p b limit Hk Hl. rewrite forallb_forall in H. apply list_elem_of_lookup_2, list_elem_of_In in Hk.
    specialize (H _ Hk). apply Z.leb_le in H. cbn [snd] in H. unfold retained_limit in Hl.
    destruct (decide _); [|destruct (decide _); [|destruct (decide _); [|done]]]; injection Hl as <-; cbn [max_manifest_bytes max_tag_manifest_bytes default_limits];
      [|lia|lia].
    unfold semantic_manifest_bound, saturating_add, saturating_mul, usize_max, u64_max.
    cbn [max_manifest_bytes max_semantic_manifest_bytes default_limits]. change (next_power_of_two _) with 67108864.
    unfold PORTABLE_MANIFEST_BYTES_PER_ENTRY. lia.
  - vm_compute. split; discriminate.
Qed.

Lemma bundle_roundtrip_witness :
  exists text, bundle sample_hash sum_bytes sample_plan 4194304 = Done text /\
    (lenZ text <= u64_max -> exists scan,
      read_bundle sample_hash (fun _ => None) (fun s => s) (fun s => s) (fun s => s) default_limits (error_new Io "trailing") text = Done scan /\
      Forall2 (describes sample_hash default_limits text) sample_package (scan_entries scan) /\
      scan_inventory scan = Some (Ok tt) /\ transport_digest scan = hex (sample_hash text) /\
      require_bag_tags sample_hash (entry_map (scan_entries scan)) BAGIT BAG_INFO = Ok tt /\
      validate_bag_manifests (fun s => s) (entry_map (scan_entries scan)) (declared_files sample_plan) (scan_inventory scan) = Done tt).
Proof.
  apply (bundle_roundtrip sample_hash (fun _ => None) (fun s => s) (fun s => s) (fun s => s) sum_bytes sample_hash_shape
    default_limits (error_new Io "trailing") ltac:(vm_compute; discriminate) sample_plan sample_contents 4194304).
  - constructor; [split; vm_compute; reflexivity|]. constructor; [split; vm_compute; reflexivity|]. constructor.
  - exact sample_admissible.
  - vm_compute. split; discriminate.
  - repeat (apply Forall_cons; split); [vm_compute; reflexivity|vm_compute; reflexivity|apply Forall_nil_2; exact I].
Defined.
