(* ===== verification/BundleSafe.v ===== *)
(** * What the scan of any file guarantees.

    [read_bundle] on arbitrary bytes: it ends, and what it accepts satisfies the path rule, the set
    rule, the limits and the canonical order, with every entry found in the file. *)

From stdpp Require Import base list strings sets sorting.
From Stdlib Require Import ZArith Lia.
From S2P Require Import Prelude Text Utf8 Numerals Pax Portable Tar PortablePath Inventory Bundle.

(** The outcome is not stuck, and a result satisfies [P]. *)
Definition post {A} (m : outcome A) (P : A -> Prop) : Prop :=
  match m with Done a => P a | Fail _ => True | Stuck => False end.

Lemma post_bind {A B} (m : outcome A) (f : A -> outcome B) P : post m (fun a => post (f a) P) -> post (m ≫= f) P.
Proof. by destruct m. Qed.

Lemma post_result {A} (r : result PortableError A) (P : A -> Prop) : (forall a, r = Ok a -> P a) -> post (of_result r) P.
Proof. destruct r; cbn; auto. Qed.

Lemma post_mono {A} (m : outcome A) (P Q : A -> Prop) : post m P -> (forall a, P a -> Q a) -> post m Q.
Proof. destruct m; cbn; auto. Qed.

Lemma read_exact_Ok n s d a b : 0 <= n -> read_exact n s d = Ok (a, b) -> s = a ++ b /\ lenZ a = n.
Proof.
  intros Hn. unfold read_exact. destruct (Z.ltb_spec (lenZ s) n); [done|]. intros [= <- <-]. rewrite take_drop, length_take. split; [done|]. lia.
Qed.

Lemma read_header_Ok first s h rest : read_header first s = Ok (h, rest) -> s = h ++ rest /\ length h = 512%nat.
Proof.
  unfold read_header. destruct first.
  - intros ([a s1]&H1%read_exact_Ok&H)%bind_Ok; [|done]. apply bind_unit_Ok in H as [_ H].
    apply bind_Ok in H as ([b s2]&H2%read_exact_Ok&[= <- <-]); [|done]. destruct H1 as [-> ?], H2 as [-> ?].
    rewrite <-app_assoc, length_app. split; [done|lia].
  - intros [-> ?]%read_exact_Ok; [|done]. split; [done|lia].
Qed.

Lemma read_padding_Ok n s rest : read_padding n s = Ok rest -> exists p, s = p ++ rest /\ lenZ p = padding n.
Proof.
  unfold read_padding. intros ([p s']&H&H')%bind_Ok. apply bind_unit_Ok in H' as [_ [= <-]].
  apply read_exact_Ok in H as [-> Hl]; [by exists p|]. unfold padding. apply Z.mod_pos_bound. lia.
Qed.

Lemma read_payload_Ok n max s v rest : 0 <= n -> read_payload n max s = Ok (v, rest) ->
  exists p, s = v ++ p ++ rest /\ lenZ v = n /\ lenZ p = padding n.
Proof.
  intros Hn. unfold read_payload. destruct (_ <? _); [done|]. destruct (_ <? _); [done|].
  intros ([v' s']&[-> Hv]%read_exact_Ok&H)%bind_Ok; [|done]. apply bind_Ok in H as (s''&(p&->&Hp)%read_padding_Ok&[= <- <-]). by exists p.
Qed.

Lemma cstr_Ok field s : cstr field = Ok s -> is_str s.
Proof.
  unfold cstr. set (t := take _ field). destruct (from_utf8 t) as [cs|] eqn:E; [|done]. intros [= <-]. by exists cs.
Qed.

Lemma header_path_Ok h p : header_path h = Ok p -> is_str p.
Proof.
  unfold header_path. intros (n&Hn%cstr_Ok&H)%bind_Ok. apply bind_Ok in H as (q&Hq%cstr_Ok&[= <-]).
  destruct (decide (q = [])); [done|]. apply is_str_app; [done|]. apply (is_str_app [47]); [by eexists|done].
Qed.

Lemma from_str_radix_bounds max s n : from_str_radix 8 max s = Some n -> 0 <= n <= max.
Proof.
  unfold from_str_radix. set (digits := match s with 43 :: ((_ :: _) as rest) => rest | _ => s end). destruct digits as [|c l] eqn:E; [done|].
  destruct (forallb (is_digit 8) (c :: l)) eqn:Ed; [|done]. destruct (Z.leb_spec (digits_value 8 (c :: l)) max); [|done].
  intros [= <-]. apply forallb_digits in Ed. split; [|done]. by apply digits_value_nonneg.
Qed.

Lemma parse_octal_bounds field n : parse_octal field = Ok n -> 0 <= n <= u64_max.
Proof.
  unfold parse_octal. match goal with |- (if ?c then _ else _) = _ -> _ => destruct c; [done|] end.
  destruct (from_utf8 field); [|done]. intros H%ok_or_Ok. by eapply from_str_radix_bounds.
Qed.

(** The path of an accepted PAX header is a string. *)
Lemma parse_str text h : is_str text -> parse text = Some (Ok h) ->
  is_str (path h) /\ forall n, size h = Some n -> 0 <= n <= u64_max.
Proof.
  intros Hs (n&Hn&Henc&Hsize)%parse_sound. split.
  - unfold encode in Henc. destruct (record_spec path_keyword (path h)) as (r&Hr&Heq). rewrite Hr in Henc. cbn [mbind option_bind] in Henc.
    assert (Htext : exists more, text = r ++ more).
    { destruct (_ <? _); [|injection Henc as <-; exists []; by rewrite app_nil_r].
      destruct (record size_keyword (to_string n)) as [r'|]; [|done]. cbn in Henc. injection Henc as <-. by exists r'. }
    destruct Htext as [more ->]. rewrite Heq in Hs. unfold record_body in Hs. rewrite <-!app_assoc in Hs.
    assert (Hs' : is_str ((to_string (lenZ r) ++ [32] ++ path_keyword) ++ 61 :: (path h ++ 10 :: more))) by (by rewrite <-!app_assoc).
    apply is_str_cut in Hs' as [_ Hs']; [|done]. by apply is_str_cut in Hs' as [? _].
  - rewrite Hsize. intros m. destruct (_ <? _); [|done]. by intros [= <-].
Qed.

Section safe.
Context (sha256 : list Z -> list Z) (parse_uuid : list Z -> option (list Z)).
Context (nfc nfd fold_string : list Z -> list Z).
Context (Hsha : forall s, Forall is_byte (sha256 s) /\ length (sha256 s) = 32%nat).

(** ** Payloads *)

Definition fed (inv inv' : option InventoryCheck) (payload : list Z) : Prop :=
  match inv, inv' with
  | None, None => True
  | Some c, Some c' => exists chunks, concat chunks = payload /\ feed nfc c chunks = Some c'
  | _, _ => False
  end.

Lemma payload_loop_post fuel buffer left s acc inv : 1 <= buffer -> 0 <= left -> (length s < fuel)%nat ->
  match inv with Some c => forall chunks, is_Some (feed nfc c chunks) | None => True end ->
  post (payload_loop nfc fuel buffer left s acc inv) (fun '(payload, rest, inv') =>
    exists data, payload = acc ++ data /\ s = data ++ rest /\ lenZ data = left /\ fed inv inv' data).
Proof.
  intros Hbuf. revert left s acc inv. induction fuel as [|fuel IH]; intros left s acc inv Hleft Hf Hinv; [lia|].
  cbn [payload_loop]. destruct (Z.leb_spec left 0).
  { cbn [post]. exists []. rewrite app_nil_r. split; [done|]. split; [done|]. split; [cbn; lia|]. destruct inv; [|done]. by exists []. }
  apply post_bind, post_result. intros [chunk rest] [-> Hc]%read_exact_Ok; [|lia]. rewrite length_app in Hf.
  destruct inv as [c|].
  - destruct (Hinv [chunk]) as [c1 Hc1]. cbn [feed] in Hc1. destruct (update nfc c chunk) as [c2|] eqn:Eu; [|done]. cbn in Hc1. injection Hc1 as ->.
    cbn [lift mbind outcome_bind]. eapply post_mono; [apply IH; [lia|lia|]|].
    { intros chunks. specialize (Hinv (chunk :: chunks)). cbn [feed] in Hinv. by rewrite Eu in Hinv. }
    intros [[payload rest'] inv'] (data&->&->&Hd&Hfed). exists (chunk ++ data). rewrite <-!app_assoc, length_app. split; [done|]. split; [done|].
    split; [lia|]. destruct inv' as [c'|]; [|done]. destruct Hfed as (chunks&<-&Hfed). exists (chunk :: chunks). split; [done|]. cbn [feed]. by rewrite Eu.
  - cbn [mbind outcome_bind]. eapply post_mono; [apply IH; [lia|lia|done]|].
    intros [[payload rest'] inv'] (data&->&->&Hd&Hfed). exists (chunk ++ data). rewrite <-!app_assoc, length_app. split; [done|]. split; [done|].
    split; [lia|]. by destruct inv'.
Qed.

Lemma hash_payload_post buffer n limit s inv p : 1 <= buffer -> 0 <= n ->
  match inv with Some c => forall chunks, is_Some (feed nfc c chunks) | None => True end ->
  post (hash_payload sha256 nfc n buffer limit inv p s) (fun '(digest, bytes, inv', rest) =>
    exists data pads, s = data ++ pads ++ rest /\ lenZ data = n /\ lenZ pads = padding n /\ digest = sha256 data /\
      (bytes = None \/ bytes = Some data) /\ fed inv inv' data).
Proof.
  intros Hbuf Hn Hinv. unfold hash_payload. apply post_bind, post_result. intros keep _. apply post_bind.
  eapply post_mono; [apply payload_loop_post; [done|done|lia|done]|].
  intros [[payload rest] inv'] (data&->&->&Hd&Hfed). cbn [app]. apply post_bind, post_result. intros rest' (pads&->&Hp)%read_padding_Ok.
  cbn [post]. exists data, pads. split; [done|]. split; [done|]. split; [done|]. split; [done|]. split; [|done]. destruct keep; auto.
Qed.

(** ** The invariant of the scan *)

Context (limits : PortableLimits) (trailing : PortableError) (text : list Z).

(** The fields of the limits are unsigned machine integers. *)
Record limits_ok : Prop := {
  limits_buffer : 0 <= copy_buffer_bytes limits;
  limits_path : 0 <= max_path_bytes limits;
  limits_entries : 0 <= max_entries limits;
  limits_total : 0 <= max_total_bytes limits;
}.

Definition payload_of (e : Entry) : list Z :=
  match entry_offset e with Some offset => slice text (Z.to_nat offset) (Z.to_nat (entry_length e)) | None => [] end.

(** An accepted entry: an admitted path, and a payload that lies in the file. *)
Record accepted (e : Entry) : Prop := {
  accepted_str : is_str (entry_path e);
  accepted_path : path_violation nfc (entry_path e) (max_path_bytes limits) = None;
  accepted_reserved : check_reserved_path parse_uuid (entry_path e) = Ok tt;
  accepted_length : lenZ (payload_of e) = entry_length e;
  accepted_size : entry_length e <= max_entry_bytes limits;
  accepted_digest : entry_digest e = sha256 (payload_of e);
  accepted_bytes : entry_bytes e = None \/ entry_bytes e = Some (payload_of e);
}.

Definition lengths (es : list Entry) : Z := foldr (fun e n => entry_length e + n) 0 es.

(** An exact inventory: it was read after the entries it lists. *)
Definition inventory_found (es : list Entry) : Prop :=
  exists before e later, es = before ++ e :: later /\ entry_path e = INVENTORY_PATH /\ payload_of e = inventory_text before.

Record scanning (st : Scan) : Prop := {
  scan_position : exists pre, text = pre ++ stream st /\ position st = lenZ pre /\ lenZ (entries st) <= lenZ pre;
  scan_accepted : Forall accepted (entries st);
  scan_sorted : StronglySorted ord_lt (entry_path <$> entries st);
  scan_set : represents (path_set st) (path_collision_key nfd fold_string <$> (entry_path <$> entries st));
  scan_compatible : compatible (path_collision_key nfd fold_string <$> (entry_path <$> entries st));
  scan_census : census st = {| census_entries := lenZ (entries st); census_total := lengths (entries st) |};
  scan_count : lenZ (entries st) <= max_entries limits;
  scan_total : lengths (entries st) <= max_total_bytes limits;
  scan_pending : forall h s, pending_pax st = Some (h, s) -> is_str (path h) /\ forall n, size h = Some n -> 0 <= n <= u64_max;
  scan_verdict : inventory_verdict st = Some (Ok tt) -> inventory_found (entries st);
}.

Lemma accepted_admitted e : accepted e -> admitted nfc (max_path_bytes limits) e.
Proof.
  intros He. unfold admitted, validate_path. rewrite (accepted_path _ He), (accepted_digest _ He). destruct (Hsha (payload_of e)).
  split; [apply He|done].
Qed.

Lemma scanning_inventory st chunks : limits_ok -> scanning st ->
  exists c, feed nfc (new_check (entries st) (max_path_bytes limits)) chunks = Some c /\
    (finish c = Ok tt <-> concat chunks = inventory_text (entries st) /\ concat chunks <> []).
Proof.
  intros Hl Hst. apply feed_new; [apply Hl| |].
  - apply Forall_forall. intros e [_ He]%list_elem_of_filter. pose proof (scan_accepted _ Hst) as Ha. rewrite Forall_forall in Ha.
    by apply accepted_admitted, Ha.
  - pose proof (scan_sorted _ Hst) as Hs. unfold data_entries. revert Hs. generalize (entries st). intros l Hs.
    induction l as [|e l IH]; [constructor|]. cbn in Hs. apply StronglySorted_inv in Hs as [H1 H2]. rewrite filter_cons.
    destruct (decide _); [|by apply IH]. cbn. constructor; [by apply IH|]. rewrite Forall_fmap in H2. apply Forall_fmap, Forall_forall.
    intros x [_ Hx]%list_elem_of_filter. rewrite Forall_forall in H2. by apply H2.
Qed.

Lemma lengths_app l1 l2 : lengths (l1 ++ l2) = lengths l1 + lengths l2.
Proof. unfold lengths. induction l1 as [|e l1 IH]; cbn; [done|]. rewrite IH. lia. Qed.

Lemma resolve_Ok pending raw field p n :
  (forall h s, pending = Some (h, s) -> is_str (path h) /\ forall n, size h = Some n -> 0 <= n <= u64_max) ->
  is_str raw -> 0 <= field <= u64_max -> resolve_entry pending raw field = Ok (p, n) -> is_str p /\ 0 <= n <= u64_max.
Proof.
  intros Hpend Hraw Hfield. unfold resolve_entry, entry_size. destruct pending as [[h s]|].
  - destruct (Hpend h s eq_refl) as [Hp Hn]. intros [_ H]%bind_unit_Ok. apply bind_unit_Ok in H as [_ H].
    apply bind_Ok in H as (m&Hm%map_err_Ok&[= <- <-]). split; [done|]. destruct (size h) as [k|]; destruct (_ : bool); naive_solver.
  - intros (m&Hm%map_err_Ok&[= <- <-])%bind_Ok. split; [done|]. destruct (_ <? _); [done|]. by injection Hm as <-.
Qed.

Lemma census_admit_Ok st p n c : scanning st -> lenZ (entries st) + 1 <= u64_max -> census_admit (census st) p n limits = Ok c ->
  c = {| census_entries := lenZ (entries st) + 1; census_total := lengths (entries st) + n |} /\
  lenZ (entries st) + 1 <= max_entries limits /\ n <= max_entry_bytes limits /\ lengths (entries st) + n <= max_total_bytes limits.
Proof.
  intros Hst Hlen. unfold census_admit. rewrite (scan_census _ Hst). cbn [census_entries census_total].
  assert (Hsat : saturating_add (lenZ (entries st)) 1 = lenZ (entries st) + 1) by (unfold saturating_add, usize_max; lia).
  rewrite Hsat. destruct (Z.ltb_spec (max_entries limits) (lenZ (entries st) + 1)); [done|].
  intros (total&Ht&[= <-])%bind_Ok. unfold enforce_length in Ht.
  destruct (Z.ltb_spec (max_entry_bytes limits) n); [done|]. destruct (_ <? _); [done|].
  destruct (Z.ltb_spec (max_total_bytes limits) (lengths (entries st) + n)); [done|]. injection Ht as <-. done.
Qed.

Lemma sorted_snoc (l : list (list Z)) x : StronglySorted ord_lt l -> not_after (last l) x = false -> StronglySorted ord_lt (l ++ [x]).
Proof.
  intros Hl Hx. apply StronglySorted_app. split_and!; [|done|by repeat constructor]. intros a b Ha ->%list_elem_of_singleton.
  destruct (last l) as [m|] eqn:Em; [|by apply last_None in Em as ->; apply elem_of_nil in Ha].
  cbn [not_after] in Hx. apply bool_decide_eq_false in Hx. assert (Hm : ord_lt m x).
  { destruct (ord_total m x) as [H|H]; [|done]. split; [done|]. intros ->. apply Hx, ord_refl. }
  apply last_Some in Em as [l' ->]. apply elem_of_app in Ha as [Ha| ->%list_elem_of_singleton]; [|done].
  eapply ord_lt_trans; [|exact Hm]. apply StronglySorted_app in Hl as (Hl&_&_). apply Hl; [done|]. by apply list_elem_of_singleton.
Qed.

Context (Htext : lenZ text <= u64_max) (Hlimits : limits_ok) (Hbuffer : 1 <= copy_buffer_bytes limits).

Lemma after_position pos n rest : pos + 512 + n + padding n + rest <= u64_max -> 0 <= pos -> 0 <= n -> 0 <= rest ->
  saturating_add pos 512 = pos + 512 /\ after (saturating_add pos 512) n = pos + 512 + n + padding n.
Proof.
  intros H Hp Hn Hr. assert (0 <= padding n) by (unfold padding; apply Z.mod_pos_bound; lia).
  unfold after, saturating_add, usize_max. unfold u64_max in *. lia.
Qed.

Lemma pax_turn_post st h rest raw field : scanning st -> stream st = h ++ rest -> length h = 512%nat -> 0 <= field ->
  post (pax_turn sha256 limits st rest raw field) (fun r =>
    match r with Continue st' => scanning st' /\ (length (stream st') < length (stream st))%nat | Break _ => False end).
Proof.
  intros Hst Hs Hh Hf. unfold pax_turn. apply post_bind, post_result. intros _ _. apply post_bind, post_result.
  intros [bytes rest'] (pads&->&Hb&Hp)%read_payload_Ok; [|done]. apply post_bind, post_result. intros u Hutf. apply check_Ok in Hutf.
  apply bool_decide_eq_false in Hutf. apply post_bind. destruct (parse_total bytes) as [r Hr]. rewrite Hr. destruct r as [records|e]; [|done].
  cbn [of_pax post]. apply post_bind, post_result. intros _ _. cbn [post stream].
  destruct (scan_position _ Hst) as (pre&Hpre&Hpos&Hcount). rewrite Hs in Hpre |- *. split; [|rewrite !length_app; lia].
  assert (Hlen : lenZ text = lenZ pre + 512 + field + padding field + lenZ rest') by (rewrite Hpre, !length_app; lia).
  destruct (after_position (lenZ pre) field (lenZ rest')) as [_ Hafter]; [lia|lia|lia|lia|].
  destruct Hst as [_ H2 H3 H4 H5 H6 H7 H8 _ H10]. split; try done; cbn [stream position entries pending_pax].
  - exists (pre ++ h ++ bytes ++ pads). rewrite Hpos, Hafter, Hpre, !length_app, <-!app_assoc. split; [done|]. split; lia.
  - intros h' s' [= <- _]. apply (parse_str bytes records); [by apply not_eq_None_Some|done].
Qed.

(** One more accepted entry keeps the invariant. *)
Lemma scanning_snoc st st' pre h data pads rest p bytes set : scanning st ->
  text = pre ++ h ++ data ++ pads ++ rest -> position st = lenZ pre -> lenZ (entries st) <= lenZ pre -> length h = 512%nat ->
  lenZ pads = padding (lenZ data) ->
  is_str p -> path_violation nfc p (max_path_bytes limits) = None -> check_reserved_path parse_uuid p = Ok tt ->
  not_after (last_path (entries st)) p = false -> admit_path nfd fold_string (path_set st) p = Ok set ->
  census_admit (census st) p (lenZ data) limits = Ok (census st') -> (bytes = None \/ bytes = Some data) ->
  stream st' = rest -> path_set st' = set -> pending_pax st' = None -> position st' = after (saturating_add (position st) 512) (lenZ data) ->
  entries st' = entries st ++ [{| entry_path := p; entry_length := lenZ data; entry_digest := sha256 data; entry_bytes := bytes;
                                  entry_offset := Some (saturating_add (position st) 512) |}] ->
  (inventory_verdict st' = Some (Ok tt) -> inventory_verdict st = Some (Ok tt) \/
    (p = INVENTORY_PATH /\ data = inventory_text (entries st))) ->
  scanning st'.
Proof.
  intros Hst Htxt Hpos Hcount Hh Hpads Hs Hviol Hres Hord Hset Hcensus Hbytes H1 H2 H3 H4 H5 Hverdict.
  assert (Hlen : lenZ text = lenZ pre + 512 + lenZ data + padding (lenZ data) + lenZ rest) by (rewrite Htxt, !length_app; lia).
  rewrite Hpos in H4, H5. destruct (after_position (lenZ pre) (lenZ data) (lenZ rest)) as [Hoff Hafter]; [lia|lia|lia|lia|].
  rewrite Hafter in H4. rewrite Hoff in H5. set (e := {| entry_path := p |}) in H5.
  assert (Hpay : payload_of e = data).
  { unfold payload_of, e. cbn [entry_offset entry_length]. rewrite Nat2Z.id. replace (Z.to_nat (lenZ pre + 512)) with (length (pre ++ h)) by (rewrite length_app; lia).
    rewrite Htxt. unfold slice. rewrite app_assoc, drop_app_length. by rewrite take_app_length. }
  apply census_admit_Ok in Hcensus as (Hc1&Hc2&Hc3&Hc4); [|done|lia].
  pose proof (admit_path_iff nfd fold_string (path_set st) p _ (scan_set _ Hst) (scan_compatible _ Hst)) as Hadmit. rewrite Hset in Hadmit.
  destruct Hadmit as [Hcomp Hrep].
  split.
  - exists (pre ++ h ++ data ++ pads). rewrite H1, H4, H5, Htxt, !length_app, <-!app_assoc. cbn [length]. split; [done|]. split; lia.
  - rewrite H5. apply Forall_app. split; [apply Hst|]. apply Forall_singleton. split; rewrite ?Hpay; done.
  - rewrite H5, fmap_app. cbn [fmap list_fmap]. apply sorted_snoc; [apply Hst|]. unfold last_path in Hord. by rewrite <-fmap_last in Hord.
  - rewrite H2, H5, !fmap_app. exact Hrep.
  - rewrite H5, !fmap_app. exact Hcomp.
  - rewrite Hc1, H5, length_app, lengths_app. cbn [length lengths foldr e entry_length]. f_equal; lia.
  - rewrite H5, length_app. cbn [length]. lia.
  - rewrite H5, lengths_app. cbn [lengths foldr e entry_length]. lia.
  - by rewrite H3.
  - intros [Hv|[-> Hd]]%Hverdict; unfold inventory_found; rewrite H5.
    + destruct (scan_verdict _ Hst Hv) as (before&e'&later&->&Hp'&Hd'). exists before, e', (later ++ [e]). split; [by rewrite <-app_assoc|done].
    + exists (entries st), e, []. split; [done|]. split; [done|]. by rewrite Hpay.
Qed.

Lemma entry_turn_post st h rest raw field : scanning st -> stream st = h ++ rest -> length h = 512%nat -> is_str raw -> 0 <= field <= u64_max ->
  post (entry_turn sha256 parse_uuid nfc nfd fold_string limits st h rest raw field) (fun r =>
    match r with Continue st' => scanning st' /\ (length (stream st') < length (stream st))%nat | Break _ => False end).
Proof.
  intros Hst Hs Hh Hraw Hf. unfold entry_turn. apply post_bind, post_result.
  intros [p n] [Hp Hn]%resolve_Ok; [|by apply Hst|done|done]. apply post_bind, post_result. intros _ _.
  apply post_bind, post_result. intros u1 Hviol. apply post_bind, post_result. intros [] Hres.
  apply post_bind, post_result. intros u2 Hord. apply check_Ok in Hord. apply post_bind, post_result. intros set Hset.
  apply post_bind, post_result. intros counted Hcensus. destruct (choose_limit _ _ _ _ _) as [limit pool]. apply post_bind.
  eapply post_mono; [apply hash_payload_post; [done|lia|]|].
  { destruct (decide _); [|done]. intros chunks. destruct (scanning_inventory st chunks Hlimits Hst) as (c&?&_). by exists c. }
  intros [[[digest bytes] inv] rest'] (data&pads&->&Hdata&Hpads&->&Hbytes&Hfed). cbn [post]. split.
  - destruct (scan_position _ Hst) as (pre&Hpre&Hpos&Hcount). rewrite Hs in Hpre. rewrite <-Hdata in *.
    eapply (scanning_snoc st _ pre h data pads rest' p bytes set); try done.
    + unfold validate_path in Hviol. by destruct (path_violation nfc p (max_path_bytes limits)).
    + cbn [inventory_verdict]. destruct (decide (p = INVENTORY_PATH)) as [->|]; cbn [fed] in Hfed.
      * destruct inv as [c|]; [|done]. destruct Hfed as (chunks&<-&Hfeed). intros [= Hfin]. right. split; [done|].
        destruct (scanning_inventory st chunks Hlimits Hst) as (c'&Hc'&Hiff). rewrite Hfeed in Hc'. injection Hc' as <-. by apply Hiff.
      * destruct inv; [done|]. by left.
  - cbn [stream]. rewrite Hs, !length_app. lia.
Qed.

Lemma read_end_Ok s rest : read_end trailing s = Ok rest -> rest = [].
Proof.
  unfold read_end. intros ([second s']&_&(u&_&H)%bind_Ok)%bind_Ok. destruct s'; [by injection H as <-|done].
Qed.

Lemma turn_post st : scanning st ->
  post (turn sha256 parse_uuid nfc nfd fold_string limits trailing st) (fun r =>
    match r with
    | Continue st' => scanning st' /\ (length (stream st') < length (stream st))%nat
    | Break st' => entries st' = entries st /\ inventory_verdict st' = inventory_verdict st /\ pending_pax st' = pending_pax st /\
        stream st' = []
    end).
Proof.
  intros Hst. unfold turn. apply post_bind, post_result. intros [h rest] [Hs Hh]%read_header_Ok. destruct (decide _).
  { apply post_bind, post_result. by intros s' ->%read_end_Ok. }
  apply post_bind, post_result. intros _ _. apply post_bind, post_result. intros field Hfield%parse_octal_bounds.
  apply post_bind, post_result. intros raw Hraw%header_path_Ok. destruct (decide _).
  - eapply post_mono; [apply (pax_turn_post st h); [done|done|done|lia]|]. intros [st'|st']; [done|by intros []].
  - apply post_bind, post_result. intros _ _. eapply post_mono; [apply (entry_turn_post st h); done|]. intros [st'|st']; [done|by intros []].
Qed.

Lemma read_loop_post fuel st : scanning st -> (length (stream st) < fuel)%nat ->
  post (read_loop sha256 parse_uuid nfc nfd fold_string fuel limits trailing st) (fun st' => exists last,
    scanning last /\ entries st' = entries last /\ inventory_verdict st' = inventory_verdict last /\ stream st' = []).
Proof.
  revert st. induction fuel as [|fuel IH]; intros st Hst Hf; [lia|]. cbn [read_loop]. apply post_bind.
  eapply post_mono; [by apply turn_post|]. intros [st'|st'].
  - intros [Hst' Hlt]. apply IH; [done|lia].
  - intros (H1&H2&_&H3). cbn [post]. by exists st.
Qed.

Lemma initial_scanning : scanning (initial limits text).
Proof.
  destruct Hlimits. split; [by exists []|apply Forall_nil_2|apply SSorted_nil|apply (represents_empty nfd fold_string)|
    apply compatible_nil|done|done|done|done|done].
Qed.
End safe.

(** C6 Scanning any file is safe.  Under the documented shape of SHA-256, on every input whose length fits
    64 bits and under every limits, the scan ends with a value or an error; when it returns entries,
    each has an admitted path and a payload that lies in the file at its offset, with its length and
    digest and the bytes retained; the paths are in strict order and pass the set rule; the count and the
    total are within the limits; and an inventory found exact is the text of the [data/] entries that
    precede it. *)
Theorem scan_sound sha256 parse_uuid nfc nfd fold_string limits trailing text :
  (forall s, Forall is_byte (sha256 s) /\ length (sha256 s) = 32%nat) -> lenZ text <= u64_max -> limits_ok limits ->
  match read_bundle sha256 parse_uuid nfc nfd fold_string limits trailing text with
  | Stuck => False
  | Fail _ => True
  | Done scan =>
      Forall (accepted sha256 parse_uuid nfc limits text) (scan_entries scan) /\
      StronglySorted ord_lt (entry_path <$> scan_entries scan) /\
      validate_path_set nfd fold_string (entry_path <$> scan_entries scan) = Ok tt /\
      lenZ (scan_entries scan) <= max_entries limits /\ lengths (scan_entries scan) <= max_total_bytes limits /\
      (scan_inventory scan = Some (Ok tt) -> inventory_found text (scan_entries scan)) /\
      transport_digest scan = hex (sha256 text)
  end.
Proof.
  intros Hsha Htext Hlimits. unfold read_bundle. destruct (Z.eqb_spec (copy_buffer_bytes limits) 0); [done|].
  pose proof (limits_buffer _ Hlimits).
  change (post (st ← read_loop sha256 parse_uuid nfc nfd fold_string (S (length text)) limits trailing (initial limits text);
    _ ← of_result (check (bool_decide (is_Some (pending_pax st))) (error_new InvalidStructure "orphan PAX header"));
    Done {| scan_entries := entries st; transport_digest := hex (sha256 (consumed text (stream st))); scan_inventory := inventory_verdict st |}) (fun scan =>
      Forall (accepted sha256 parse_uuid nfc limits text) (scan_entries scan) /\
      StronglySorted ord_lt (entry_path <$> scan_entries scan) /\
      validate_path_set nfd fold_string (entry_path <$> scan_entries scan) = Ok tt /\
      lenZ (scan_entries scan) <= max_entries limits /\ lengths (scan_entries scan) <= max_total_bytes limits /\
      (scan_inventory scan = Some (Ok tt) -> inventory_found text (scan_entries scan)) /\
      transport_digest scan = hex (sha256 text))).
  apply post_bind. eapply post_mono; [apply (read_loop_post sha256 parse_uuid nfc nfd fold_string Hsha limits trailing text Htext Hlimits)|].
  - lia.
  - by apply initial_scanning.
  - cbn. lia.
  - intros st (last&Hst&He&Hv&Hend). rewrite Hend, consumed_all. apply post_bind, post_result. intros _ _. cbn [post scan_entries scan_inventory transport_digest].
    rewrite He, Hv. destruct Hst as [_ H2 H3 _ H5 _ H7 H8 _ H10]. do 2 (split; [done|]). split; [|done].
    pose proof (validate_path_set_spec nfd fold_string (entry_path <$> entries last)) as Hspec.
    destruct (validate_path_set _ _ _) as [[]|e]; [done|]. by destruct Hspec.
Qed.

(** A stand-in with the shape of SHA-256, and a bundle of one entry. *)
Definition small_hash (s : list Z) : list Z := replicate 32 (sum_bytes s mod 256).
Definition small_text : list Z :=
  match write_items small_hash sum_bytes [] [(bytes_of "data/a", Bytes [1; 2])] with Done t => t | _ => [] end.

Lemma scan_sound_witness : exists scan,
  read_bundle small_hash (fun _ => None) (fun s => s) (fun s => s) (fun s => s) default_limits (error_new Io "trailing") small_text = Done scan /\
  length (scan_entries scan) = 1%nat /\
  Forall (accepted small_hash (fun _ => None) (fun s => s) default_limits small_text) (scan_entries scan).
Proof.
  assert (Hd : exists scan,
    read_bundle small_hash (fun _ => None) (fun s => s) (fun s => s) (fun s => s) default_limits (error_new Io "trailing") small_text = Done scan /\
    length (scan_entries scan) = 1%nat) by (vm_compute; eexists; split; reflexivity).
  assert (Hshape : forall s, Forall is_byte (small_hash s) /\ length (small_hash s) = 32%nat).
  { intros s. unfold small_hash. rewrite length_replicate. split; [|reflexivity]. apply Forall_replicate. unfold is_byte.
    pose proof (Z.mod_pos_bound (sum_bytes s) 256). lia. }
  pose proof (scan_sound small_hash (fun _ => None) (fun s => s) (fun s => s) (fun s => s) default_limits (error_new Io "trailing") small_text
    Hshape ltac:(vm_compute; discriminate) ltac:(split; vm_compute; discriminate)) as H.
  destruct Hd as (scan&E&Hl). rewrite E in H. exists scan. split; [exact E|]. split; [exact Hl|apply H].
Defined.
