(* ===== verification/TypeIds.v ===== *)
(** * Type and property identities: [crates/graphforge-value/src/ids.rs].

    An identity of a catalog is an unsigned 32-bit integer below a limit.  In a type column the two
    upper bits say whether the rest is an ontology, a runtime entity or a runtime relation identity;
    the decoders refuse integers that are not an identity of their domain. *)

From stdpp Require Import base list.
From Stdlib Require Import ZArith Lia.
From S2P Require Import Prelude.

Definition TYPE_LOCAL_ID_LIMIT : Z := Z.shiftl 1 30.
Definition ENTITY_TAG : Z := Z.shiftl 1 30.
Definition RELATION_TAG : Z := Z.shiftl 1 31.
Definition TAG_MASK : Z := Z.lor ENTITY_TAG RELATION_TAG.
Definition LOCAL_MASK : Z := TYPE_LOCAL_ID_LIMIT - 1.

Inductive TypeIdKind := KOntology | KRuntimeEntity | KRuntimeRelation | KRuntimeProperty | KOntologyProperty.

Inductive CatalogIdError :=
| OutOfRange (kind : TypeIdKind) (value : Z)
| ConflictingTags (encoded : Z)
| WrongDomain (expected actual : TypeIdKind).

#[global] Instance TypeIdKind_eq_dec : EqDecision TypeIdKind.
Proof. solve_decision. Defined.
#[global] Instance CatalogIdError_eq_dec : EqDecision CatalogIdError.
Proof. solve_decision. Defined.

(** ** Checked integers, one type per domain *)

Record RuntimeEntityId := RuntimeEntity_ { entity_get : Z }.
Record RuntimeRelationId := RuntimeRelation_ { relation_get : Z }.
Record RuntimePropId := RuntimeProp_ { prop_get : Z }.

#[global] Instance RuntimeEntityId_eq_dec : EqDecision RuntimeEntityId.
Proof. solve_decision. Defined.
#[global] Instance RuntimeRelationId_eq_dec : EqDecision RuntimeRelationId.
Proof. solve_decision. Defined.
#[global] Instance RuntimePropId_eq_dec : EqDecision RuntimePropId.
Proof. solve_decision. Defined.

Definition runtime_entity_new (value : Z) : result CatalogIdError RuntimeEntityId :=
  if value <? TYPE_LOCAL_ID_LIMIT then Ok (RuntimeEntity_ value) else Err (OutOfRange KRuntimeEntity value).

Definition runtime_relation_new (value : Z) : result CatalogIdError RuntimeRelationId :=
  if value <? TYPE_LOCAL_ID_LIMIT then Ok (RuntimeRelation_ value) else Err (OutOfRange KRuntimeRelation value).

Definition runtime_prop_new (value : Z) : result CatalogIdError RuntimePropId :=
  if value <? u32_max then Ok (RuntimeProp_ value) else Err (OutOfRange KRuntimeProperty value).

(** ** The integer of a type column *)

(** [TypeId] and [PropId] of the core crate are their integers. *)
Inductive TypeIdentity :=
| Ontology (id : Z)
| RuntimeEntity (id : RuntimeEntityId)
| RuntimeRelation (id : RuntimeRelationId).

Record TaggedTypeId := Tagged { identity : TypeIdentity }.

Definition tagged_ontology (id : Z) : result CatalogIdError TaggedTypeId :=
  if id <? TYPE_LOCAL_ID_LIMIT then Ok (Tagged (Ontology id)) else Err (OutOfRange KOntology id).

Definition tagged_decode (encoded : Z) : result CatalogIdError TaggedTypeId :=
  let local := Z.land encoded LOCAL_MASK in
  let tag := Z.land encoded TAG_MASK in
  if tag =? 0 then Ok (Tagged (Ontology local))
  else if tag =? ENTITY_TAG then Ok (Tagged (RuntimeEntity (RuntimeEntity_ local)))
  else if tag =? RELATION_TAG then Ok (Tagged (RuntimeRelation (RuntimeRelation_ local)))
  else Err (ConflictingTags encoded).

Definition tagged_encode (t : TaggedTypeId) : Z :=
  match identity t with
  | Ontology id => id
  | RuntimeEntity id => Z.lor ENTITY_TAG (entity_get id)
  | RuntimeRelation id => Z.lor RELATION_TAG (relation_get id)
  end.

Definition tagged_kind (t : TaggedTypeId) : TypeIdKind :=
  match identity t with
  | Ontology _ => KOntology
  | RuntimeEntity _ => KRuntimeEntity
  | RuntimeRelation _ => KRuntimeRelation
  end.

Definition ontology_id (t : TaggedTypeId) : option Z :=
  match identity t with Ontology id => Some id | _ => None end.

Definition runtime_entity_id (t : TaggedTypeId) : option RuntimeEntityId :=
  match identity t with RuntimeEntity id => Some id | _ => None end.

Definition runtime_relation_id (t : TaggedTypeId) : option RuntimeRelationId :=
  match identity t with RuntimeRelation id => Some id | _ => None end.

(** ** Identities of entity labels and of relation types *)

Record EntityTypeId := EntityType_ { entity_tagged : TaggedTypeId }.
Record RelationTypeId := RelationType_ { relation_tagged : TaggedTypeId }.

Definition entity_ontology (id : Z) : result CatalogIdError EntityTypeId :=
  match tagged_ontology id with Ok id => Ok (EntityType_ id) | Err error => Err error end.
Definition relation_ontology (id : Z) : result CatalogIdError RelationTypeId :=
  match tagged_ontology id with Ok id => Ok (RelationType_ id) | Err error => Err error end.

Definition entity_runtime (id : RuntimeEntityId) : EntityTypeId := EntityType_ (Tagged (RuntimeEntity id)).
Definition relation_runtime (id : RuntimeRelationId) : RelationTypeId := RelationType_ (Tagged (RuntimeRelation id)).

Definition entity_decode (encoded : Z) : result CatalogIdError EntityTypeId :=
  match tagged_decode encoded with
  | Err error => Err error
  | Ok decoded =>
      match tagged_kind decoded with
      | KRuntimeRelation => Err (WrongDomain KRuntimeEntity KRuntimeRelation)
      | _ => Ok (EntityType_ decoded)
      end
  end.

Definition relation_decode (encoded : Z) : result CatalogIdError RelationTypeId :=
  match tagged_decode encoded with
  | Err error => Err error
  | Ok decoded =>
      match tagged_kind decoded with
      | KRuntimeEntity => Err (WrongDomain KRuntimeRelation KRuntimeEntity)
      | _ => Ok (RelationType_ decoded)
      end
  end.

Definition entity_encode (id : EntityTypeId) : Z := tagged_encode (entity_tagged id).
Definition relation_encode (id : RelationTypeId) : Z := tagged_encode (relation_tagged id).

Inductive EntityTypeSelection := AllEntities | KnownEntity (id : EntityTypeId) | MissingEntity.
Inductive RelationTypeSelection := AllRelations | KnownRelation (id : RelationTypeId) | MissingRelation.

Definition known_entity (s : EntityTypeSelection) : option EntityTypeId :=
  match s with KnownEntity id => Some id | AllEntities | MissingEntity => None end.
Definition known_relation (s : RelationTypeSelection) : option RelationTypeId :=
  match s with KnownRelation id => Some id | AllRelations | MissingRelation => None end.

(** ** The primary label of a node *)

Record PrimaryEntityTypeId := Primary { label : option EntityTypeId }.

Definition primary_decode (encoded : Z) : result CatalogIdError PrimaryEntityTypeId :=
  if encoded =? u32_max then Ok (Primary None)
  else match entity_decode encoded with Ok id => Ok (Primary (Some id)) | Err error => Err error end.

Definition primary_encode (p : PrimaryEntityTypeId) : Z :=
  match label p with Some id => entity_encode id | None => u32_max end.

(** ** Properties *)

Inductive PropertyIdentity := OntologyProp (id : Z) | RuntimeProp (id : RuntimePropId).
Record PropertyId := Property_ { property_identity : PropertyIdentity }.
Inductive PropertyWire := WireOntology (id : Z) | WireRuntime (id : Z).

Definition property_ontology (id : Z) : result CatalogIdError PropertyId :=
  if id =? u32_max then Err (OutOfRange KOntologyProperty id) else Ok (Property_ (OntologyProp id)).

Definition property_runtime (id : RuntimePropId) : PropertyId := Property_ (RuntimeProp id).

Definition property_ontology_id (p : PropertyId) : option Z :=
  match property_identity p with OntologyProp id => Some id | RuntimeProp _ => None end.
Definition property_runtime_id (p : PropertyId) : option RuntimePropId :=
  match property_identity p with RuntimeProp id => Some id | OntologyProp _ => None end.

Definition property_of_wire (w : PropertyWire) : result CatalogIdError PropertyId :=
  match w with
  | WireOntology id => property_ontology id
  | WireRuntime id => property_runtime <$> runtime_prop_new id
  end.

Definition wire_of_property (p : PropertyId) : PropertyWire :=
  match property_identity p with
  | OntologyProp id => WireOntology id
  | RuntimeProp id => WireRuntime (prop_get id)
  end.

(** ** What the constructors guarantee *)

Definition in_u32 (z : Z) : Prop := 0 <= z <= u32_max.
Definition local_id (z : Z) : Prop := 0 <= z < TYPE_LOCAL_ID_LIMIT.

(** The identities the public constructors give. *)
Definition tagged_wf (t : TaggedTypeId) : Prop :=
  match identity t with
  | Ontology id => local_id id
  | RuntimeEntity id => local_id (entity_get id)
  | RuntimeRelation id => local_id (relation_get id)
  end.

Definition entity_wf (id : EntityTypeId) : Prop := tagged_wf (entity_tagged id) /\ tagged_kind (entity_tagged id) <> KRuntimeRelation.
Definition relation_wf (id : RelationTypeId) : Prop := tagged_wf (relation_tagged id) /\ tagged_kind (relation_tagged id) <> KRuntimeEntity.
Definition primary_wf (p : PrimaryEntityTypeId) : Prop := match label p with Some id => entity_wf id | None => True end.

(** ** Bits *)

Lemma land_shifted a n b : 0 <= n -> 0 <= b < 2 ^ n -> Z.land (Z.shiftl a n) b = 0.
Proof.
  intros Hn Hb. apply Z.bits_inj'. intros k Hk. rewrite Z.land_spec, Z.bits_0. destruct (Z.lt_ge_cases k n).
  - by rewrite Z.shiftl_spec_low.
  - replace b with (b mod 2 ^ n) by (apply Z.mod_small; lia). rewrite Z.mod_pow2_bits_high by lia. apply andb_false_r.
Qed.

(** Tagging adds. *)
Lemma lor_shifted a n b : 0 <= n -> 0 <= b < 2 ^ n -> Z.lor (Z.shiftl a n) b = a * 2 ^ n + b.
Proof. intros Hn Hb. pose proof (Z.add_lor_land (Z.shiftl a n) b) as H. rewrite land_shifted, Z.shiftl_mul_pow2 in * by done. lia. Qed.

Lemma local_bits n : Z.land n LOCAL_MASK = n mod 2 ^ 30.
Proof. change LOCAL_MASK with (Z.ones 30). by apply Z.land_ones. Qed.

Lemma tag_bits n : in_u32 n -> Z.land n TAG_MASK = n / 2 ^ 30 * 2 ^ 30.
Proof.
  intros [H1 H2]. unfold u32_max in H2. rewrite (Z.div_mod n (2 ^ 30)) at 1 by done.
  replace (2 ^ 30 * (n / 2 ^ 30)) with (n / 2 ^ 30 * 2 ^ 30) by lia. pose proof (Z.mod_pos_bound n (2 ^ 30) ltac:(done)) as Hm.
  rewrite <-lor_shifted by lia. rewrite Z.land_lor_distr_l. change TAG_MASK with (Z.shiftl (Z.ones 2) 30).
  rewrite <-Z.shiftl_land, Z.land_ones, Z.mod_small by (first [lia|split; [apply Z.div_pos; lia|apply Z.div_lt_upper_bound; lia]]).
  rewrite (Z.land_comm (n mod _)), land_shifted, Z.lor_0_r, Z.shiftl_mul_pow2 by lia. done.
Qed.

Lemma tagged_encode_sum t : tagged_wf t ->
  exists tag local, tagged_encode t = tag * 2 ^ 30 + local /\ local_id local /\
    match identity t with
    | Ontology id => tag = 0 /\ id = local
    | RuntimeEntity id => tag = 1 /\ entity_get id = local
    | RuntimeRelation id => tag = 2 /\ relation_get id = local
    end.
Proof.
  unfold tagged_wf, tagged_encode. destruct t as [[id|[id]|[id]]]; cbn [identity entity_get relation_get]; intros H.
  - exists 0, id. by split.
  - exists 1, id. split; [by apply lor_shifted|done].
  - exists 2, id. split; [|done]. change RELATION_TAG with (Z.shiftl 2 30). by apply lor_shifted.
Qed.

Lemma split_unique tag local tag' local' : local_id local -> local_id local' ->
  tag * 2 ^ 30 + local = tag' * 2 ^ 30 + local' -> tag = tag' /\ local = local'.
Proof. unfold local_id. change TYPE_LOCAL_ID_LIMIT with (2 ^ 30). lia. Qed.

(** Decoding by the quotient and the rest. *)
Lemma tagged_decode_sum tag local : 0 <= tag < 4 -> local_id local ->
  tagged_decode (tag * 2 ^ 30 + local) =
    if tag =? 0 then Ok (Tagged (Ontology local))
    else if tag =? 1 then Ok (Tagged (RuntimeEntity (RuntimeEntity_ local)))
    else if tag =? 2 then Ok (Tagged (RuntimeRelation (RuntimeRelation_ local)))
    else Err (ConflictingTags (tag * 2 ^ 30 + local)).
Proof.
  intros Ht Hl. change TYPE_LOCAL_ID_LIMIT with (2 ^ 30) in *. unfold local_id, tagged_decode in *. change TYPE_LOCAL_ID_LIMIT with (2 ^ 30) in *.
  assert (Hu : in_u32 (tag * 2 ^ 30 + local)) by (unfold in_u32, u32_max; lia).
  rewrite local_bits, tag_bits by done. rewrite Z.div_add_l, Z.div_small, Z.add_0_r by lia.
  rewrite Z.add_comm, Z.mod_add, Z.mod_small by lia.
  assert (tag = 0 \/ tag = 1 \/ tag = 2 \/ tag = 3) as [->|[->|[->| ->]]] by lia; reflexivity.
Qed.

Lemma u32_split n : in_u32 n -> exists tag local, n = tag * 2 ^ 30 + local /\ 0 <= tag < 4 /\ local_id local.
Proof.
  unfold in_u32, u32_max. intros H. exists (n / 2 ^ 30), (n mod 2 ^ 30). pose proof (Z.mod_pos_bound n (2 ^ 30) ltac:(done)).
  pose proof (Z.div_mod n (2 ^ 30) ltac:(done)). unfold local_id. change TYPE_LOCAL_ID_LIMIT with (2 ^ 30). lia.
Qed.

Lemma tagged_decode_iff n t : in_u32 n -> tagged_decode n = Ok t <-> tagged_wf t /\ tagged_encode t = n.
Proof.
  intros (tag&local&->&Ht&Hl)%u32_split. rewrite tagged_decode_sum by done. split.
  - assert (tag = 0 \/ tag = 1 \/ tag = 2 \/ tag = 3) as [->|[->|[->| ->]]] by lia; cbn; intros [= <-]; (split; [done|]).
    + done.
    + by apply (lor_shifted 1 30).
    + by apply (lor_shifted 2 30).
  - intros [Hwf He]. destruct (tagged_encode_sum t Hwf) as (tag'&local'&E&Hl'&Hid). rewrite E in He.
    apply split_unique in He as [<- <-]; [|done..]. destruct t as [[id|[id]|[id]]]; cbn in Hid; destruct Hid as [-> ->]; reflexivity.
Qed.

Lemma tagged_decode_err n e : in_u32 n -> tagged_decode n = Err e <-> e = ConflictingTags n /\ 3 * 2 ^ 30 <= n.
Proof.
  intros (tag&local&->&Ht&Hl)%u32_split. rewrite tagged_decode_sum by done. unfold local_id in Hl. change TYPE_LOCAL_ID_LIMIT with (2 ^ 30) in Hl.
  assert (tag = 0 \/ tag = 1 \/ tag = 2 \/ tag = 3) as [->|[->|[->| ->]]] by lia; cbn [Z.eqb]; split; try discriminate; try lia.
  - intros [= <-]. split; [done|lia].
  - by intros [-> _].
Qed.

Lemma entity_decode_iff n id : in_u32 n -> entity_decode n = Ok id <-> entity_wf id /\ entity_encode id = n.
Proof.
  intros Hn. unfold entity_decode, entity_wf, entity_encode. destruct id as [t]. cbn [entity_tagged].
  pose proof (tagged_decode_iff n t Hn) as Ht. split.
  - destruct (tagged_decode n) as [d|]; [|done]. destruct (tagged_kind d) eqn:E; intros [= ->]; rewrite E; naive_solver.
  - intros [[H1 H2] H3]. rewrite (proj2 Ht (conj H1 H3)). by destruct (tagged_kind t).
Qed.

Lemma relation_decode_iff n id : in_u32 n -> relation_decode n = Ok id <-> relation_wf id /\ relation_encode id = n.
Proof.
  intros Hn. unfold relation_decode, relation_wf, relation_encode. destruct id as [t]. cbn [relation_tagged].
  pose proof (tagged_decode_iff n t Hn) as Ht. split.
  - destruct (tagged_decode n) as [d|]; [|done]. destruct (tagged_kind d) eqn:E; intros [= ->]; rewrite E; naive_solver.
  - intros [[H1 H2] H3]. rewrite (proj2 Ht (conj H1 H3)). by destruct (tagged_kind t).
Qed.

(** No label encodes as the absence of one. *)
Lemma entity_encode_max id : entity_wf id -> entity_encode id <> u32_max.
Proof.
  intros [Hwf _] E. destruct (tagged_encode_sum _ Hwf) as (tag&local&Hs&Hl&Hid). unfold entity_encode in E. rewrite E in Hs.
  unfold local_id in Hl. change TYPE_LOCAL_ID_LIMIT with (2 ^ 30) in Hl. unfold u32_max in Hs.
  assert (tag <= 2) by (destruct (identity (entity_tagged id)); lia). lia.
Qed.

Lemma primary_decode_iff n p : in_u32 n -> primary_decode n = Ok p <-> primary_wf p /\ primary_encode p = n.
Proof.
  intros Hn. unfold primary_decode, primary_wf, primary_encode. destruct p as [[id|]]; cbn [label]; destruct (Z.eqb_spec n u32_max) as [->|Hne].
  - split; [done|]. intros [H1 H2]. by apply entity_encode_max in H1.
  - rewrite <-entity_decode_iff by done. destruct (entity_decode n); naive_solver.
  - done.
  - split; [by destruct (entity_decode n)|]. by intros [_ ?].
Qed.

(** ** Property *)

(** C13 Encoded identities are exact.  On every 32-bit integer the decoder of a type column accepts
    exactly the integers that encode an identity, and gives that identity back; it refuses exactly
    the integers with both tags.  The decoders of entity, relation and primary label columns do the
    same for their domains.  A property read from its wire form is written to that form again. *)
Theorem type_ids_exact n : in_u32 n ->
  (forall t, tagged_decode n = Ok t <-> tagged_wf t /\ tagged_encode t = n) /\
  (forall e, tagged_decode n = Err e <-> e = ConflictingTags n /\ 3 * 2 ^ 30 <= n) /\
  (forall id, entity_decode n = Ok id <-> entity_wf id /\ entity_encode id = n) /\
  (forall id, relation_decode n = Ok id <-> relation_wf id /\ relation_encode id = n) /\
  (forall p, primary_decode n = Ok p <-> primary_wf p /\ primary_encode p = n) /\
  (forall w p, w = WireOntology n \/ w = WireRuntime n -> property_of_wire w = Ok p <-> n <> u32_max /\ wire_of_property p = w).
Proof.
  intros Hn. split; [intros t; by apply tagged_decode_iff|]. split; [intros e; by apply tagged_decode_err|].
  split; [intros id; by apply entity_decode_iff|]. split; [intros id; by apply relation_decode_iff|].
  split; [intros p; by apply primary_decode_iff|]. intros w p Hw. unfold in_u32 in Hn.
  destruct Hw as [-> | ->]; cbn [property_of_wire]; unfold property_ontology, runtime_prop_new, property_runtime, wire_of_property.
  - destruct (Z.eqb_spec n u32_max), p as [[id|[id]]]; cbn [property_identity]; split; naive_solver.
  - destruct (Z.ltb_spec n u32_max), p as [[id|[id]]]; cbn [fmap result_fmap property_identity prop_get];
      (split; [intros [= <-]; (split; [lia|done])|intros [H1 [= ->]]; first [done|lia]]).
Qed.

Lemma type_ids_exact_witness :
  relation_decode 2147483655 = Ok (relation_runtime (RuntimeRelation_ 7)) /\
  entity_decode 2147483655 = Err (WrongDomain KRuntimeEntity KRuntimeRelation) /\ relation_encode (relation_runtime (RuntimeRelation_ 7)) = 2147483655.
Proof.
  assert (Hn : in_u32 2147483655) by (split; vm_compute; discriminate).
  assert (Hd : relation_decode 2147483655 = Ok (relation_runtime (RuntimeRelation_ 7))) by (vm_compute; reflexivity).
  split; [exact Hd|]. split; [vm_compute; reflexivity|].
  destruct (type_ids_exact 2147483655 Hn) as (_&_&_&Hr&_). exact (proj2 (proj1 (Hr _) Hd)).
Defined.
