(* ===== verification/Catalog.v ===== *)
(** * The runtime catalog: [RuntimeCatalogData] of [crates/graphforge-value/src/catalog.rs].

    The catalog gives names of labels, relation types and properties stable integer identities.  The
    hash maps are finite maps; a string is the list of its characters.  An Arrow batch is whether its
    schema is the catalog's and its rows, a null cell being [None]: under that schema Arrow gives
    the columns the types the code asks for.  [None] as the result of an operation is a panic. *)

From stdpp Require Import base list gmap strings.
From Stdlib Require Import ZArith Lia.
From S2P Require Import Prelude Text TypeIds.

(** ** Data *)

Inductive EntryKind := EntityType | RelationType | Property.

Inductive CatalogIdentity :=
| IdEntity (id : RuntimeEntityId)
| IdRelation (id : RuntimeRelationId)
| IdProperty (id : RuntimePropId).

#[global] Instance EntryKind_eq_dec : EqDecision EntryKind.
Proof. solve_decision. Defined.
#[global] Instance CatalogIdentity_eq_dec : EqDecision CatalogIdentity.
Proof. solve_decision. Defined.

(** [GfError::Storage] with what its message says. *)
Inductive CatalogError :=
| Storage (message : string)
| InvalidIdentity (error : CatalogIdError)
| ExhaustedRange (error : CatalogIdError)
| UnknownKind (other : str).

Definition checked (kind : EntryKind) (raw : Z) : result CatalogError CatalogIdentity :=
  map_err InvalidIdentity
    match kind with
    | EntityType => IdEntity <$> runtime_entity_new raw
    | RelationType => IdRelation <$> runtime_relation_new raw
    | Property => IdProperty <$> runtime_prop_new raw
    end.

Definition kind (i : CatalogIdentity) : EntryKind :=
  match i with IdEntity _ => EntityType | IdRelation _ => RelationType | IdProperty _ => Property end.

Definition get (i : CatalogIdentity) : Z :=
  match i with IdEntity id => entity_get id | IdRelation id => relation_get id | IdProperty id => prop_get id end.

Record CatalogEntry := {
  entry_identity : CatalogIdentity;
  name : str;
  observation_count : Z;
  first_seen : Z;
  last_seen : Z;
  owner_label : option str;
}.

Record RuntimeCatalogData := {
  entity_types : gmap str nat;
  relation_types : gmap str nat;
  properties : gmap (str * option str) nat;
  entries : list CatalogEntry;
  next_type_id : Z;
  next_prop_id : Z;
}.

Definition new : RuntimeCatalogData := {|
  entity_types := ∅; relation_types := ∅; properties := ∅; entries := []; next_type_id := 0; next_prop_id := 0 |}.

(** What an entry is found under: the key of one of the three maps. *)
Inductive Key :=
| KEntity (name : str)
| KRelation (name : str)
| KProperty (name : str) (owner : option str).

#[global] Instance Key_eq_dec : EqDecision Key.
Proof. solve_decision. Defined.

Definition catalog_key (e : CatalogEntry) : Key :=
  match kind (entry_identity e) with
  | EntityType => KEntity (name e)
  | RelationType => KRelation (name e)
  | Property => KProperty (name e) (owner_label e)
  end.

Definition lookup_index (c : RuntimeCatalogData) (k : Key) : option nat :=
  match k with
  | KEntity n => entity_types c !! n
  | KRelation n => relation_types c !! n
  | KProperty n o => properties c !! (n, o)
  end.

(** The maps' [insert], and the push on the entries that goes with it. *)
Definition append_entry (c : RuntimeCatalogData) (e : CatalogEntry) : RuntimeCatalogData :=
  let idx := length (entries c) in
  {| entity_types := match catalog_key e with KEntity n => <[n := idx]> (entity_types c) | _ => entity_types c end;
     relation_types := match catalog_key e with KRelation n => <[n := idx]> (relation_types c) | _ => relation_types c end;
     properties := match catalog_key e with KProperty n o => <[(n, o) := idx]> (properties c) | _ => properties c end;
     entries := entries c ++ [e]; next_type_id := next_type_id c; next_prop_id := next_prop_id c |}.

Definition with_next (c : RuntimeCatalogData) (next : Z * Z) : RuntimeCatalogData :=
  {| entity_types := entity_types c; relation_types := relation_types c; properties := properties c;
     entries := entries c; next_type_id := next.1; next_prop_id := next.2 |}.

Definition with_entries (c : RuntimeCatalogData) (es : list CatalogEntry) : RuntimeCatalogData :=
  {| entity_types := entity_types c; relation_types := relation_types c; properties := properties c;
     entries := es; next_type_id := next_type_id c; next_prop_id := next_prop_id c |}.

(** ** Interning *)

Abbreviation outcome A := (option (result CatalogError A * RuntimeCatalogData)).

(** An entry that is already there is counted and dated. *)
Definition observe_entry (idx : nat) (now observations : Z) (c : RuntimeCatalogData) : outcome CatalogEntry :=
  entry ← entries c !! idx;
  if u64_max <? observation_count entry + observations
  then Some (Err (Storage "runtime_catalog observation count overflow"), c)
  else
    let entry := {| entry_identity := entry_identity entry; name := name entry;
                    observation_count := observation_count entry + observations;
                    first_seen := first_seen entry; last_seen := now; owner_label := owner_label entry |} in
    Some (Ok entry, with_entries c (<[idx := entry]> (entries c))).

Definition intern_label_observed_at (n : str) (now observations : Z) (c : RuntimeCatalogData) : outcome RuntimeEntityId :=
  match entity_types c !! n with
  | Some idx =>
      '(r, c) ← observe_entry idx now observations c;
      match r with
      | Err e => Some (Err e, c)
      | Ok entry => match entry_identity entry with IdEntity id => Some (Ok id, c) | _ => None end
      end
  | None =>
      match runtime_entity_new (next_type_id c) with
      | Err error => Some (Err (ExhaustedRange error), c)
      | Ok id =>
          Some (Ok id, append_entry (with_next c (next_type_id c + 1, next_prop_id c))
            {| entry_identity := IdEntity id; name := n; observation_count := observations;
               first_seen := now; last_seen := now; owner_label := None |})
      end
  end.

Definition intern_label_at (n : str) (now : Z) (c : RuntimeCatalogData) : outcome RuntimeEntityId :=
  intern_label_observed_at n now 1 c.

Definition intern_relation_type_observed_at (n : str) (now observations : Z) (c : RuntimeCatalogData) :
    outcome RuntimeRelationId :=
  match relation_types c !! n with
  | Some idx =>
      '(r, c) ← observe_entry idx now observations c;
      match r with
      | Err e => Some (Err e, c)
      | Ok entry => match entry_identity entry with IdRelation id => Some (Ok id, c) | _ => None end
      end
  | None =>
      match runtime_relation_new (next_type_id c) with
      | Err error => Some (Err (ExhaustedRange error), c)
      | Ok id =>
          Some (Ok id, append_entry (with_next c (next_type_id c + 1, next_prop_id c))
            {| entry_identity := IdRelation id; name := n; observation_count := observations;
               first_seen := now; last_seen := now; owner_label := None |})
      end
  end.

Definition intern_relation_type_at (n : str) (now : Z) (c : RuntimeCatalogData) : outcome RuntimeRelationId :=
  intern_relation_type_observed_at n now 1 c.

Definition intern_property_at (n : str) (owner : option str) (now : Z) (c : RuntimeCatalogData) : outcome RuntimePropId :=
  match properties c !! (n, owner) with
  | Some idx =>
      '(r, c) ← observe_entry idx now 1 c;
      match r with
      | Err e => Some (Err e, c)
      | Ok entry => match entry_identity entry with IdProperty id => Some (Ok id, c) | _ => None end
      end
  | None =>
      match runtime_prop_new (next_prop_id c) with
      | Err error => Some (Err (ExhaustedRange error), c)
      | Ok id =>
          Some (Ok id, append_entry (with_next c (next_type_id c, next_prop_id c + 1))
            {| entry_identity := IdProperty id; name := n; observation_count := 1;
               first_seen := now; last_seen := now; owner_label := owner |})
      end
  end.

(** ** Queries *)

Definition entry_count (c : RuntimeCatalogData) : Z := lenZ (entries c).

Definition latest_observation_micros (c : RuntimeCatalogData) : option Z :=
  match last_seen <$> entries c with
  | [] => None
  | first :: rest => Some (foldl Z.max first rest)
  end.

Definition retained_identifier_bytes (c : RuntimeCatalogData) : Z :=
  foldl (fun bytes e => saturating_add (saturating_add bytes (str_len (name e))) (from_option str_len 0 (owner_label e))) 0 (entries c).

Definition contains_entity_type (c : RuntimeCatalogData) (n : str) : bool := bool_decide (is_Some (entity_types c !! n)).
Definition contains_relation_type (c : RuntimeCatalogData) (n : str) : bool := bool_decide (is_Some (relation_types c !! n)).
Definition contains_property (c : RuntimeCatalogData) (n : str) (owner : option str) : bool :=
  bool_decide (is_Some (properties c !! (n, owner))).

(** The names of a map, in the order of the finite map; the source leaves the order unspecified. *)
Definition entity_type_list (c : RuntimeCatalogData) : list str := (map_to_list (entity_types c)).*1.
Definition relation_type_list (c : RuntimeCatalogData) : list str := (map_to_list (relation_types c)).*1.
Definition properties_for (c : RuntimeCatalogData) (owner : str) : list str :=
  (fun p => p.1.1) <$> filter (fun p => p.1.2 = Some owner) (map_to_list (properties c)).

(** The first entry of a kind with an identity. *)
Definition name_by_id (c : RuntimeCatalogData) (k : EntryKind) (raw : Z) : option str :=
  (fun p => name p.2) <$> list_find (fun e => kind (entry_identity e) = k /\ get (entry_identity e) = raw) (entries c).

Definition property_name (c : RuntimeCatalogData) (id : RuntimePropId) : option str := name_by_id c Property (prop_get id).
Definition relation_type_name (c : RuntimeCatalogData) (id : RuntimeRelationId) : option str := name_by_id c RelationType (relation_get id).
Definition entity_type_name (c : RuntimeCatalogData) (id : RuntimeEntityId) : option str := name_by_id c EntityType (entity_get id).

Definition property_names (c : RuntimeCatalogData) : list (RuntimePropId * str) :=
  omap (fun e => match entry_identity e with IdProperty id => Some (id, name e) | _ => None end) (entries c).
Definition relation_type_names_with_ids (c : RuntimeCatalogData) : list (RuntimeRelationId * str) :=
  omap (fun e => match entry_identity e with IdRelation id => Some (id, name e) | _ => None end) (entries c).
Definition entity_type_names_with_ids (c : RuntimeCatalogData) : list (RuntimeEntityId * str) :=
  omap (fun e => match entry_identity e with IdEntity id => Some (id, name e) | _ => None end) (entries c).

(** ** Batches *)

Record Row := {
  row_kind : option str;
  row_name : option str;
  row_id : option Z;
  row_count : option Z;
  row_first : option Z;
  row_last : option Z;
  row_owner : option str;
}.

Record RecordBatch := {
  schema_canonical : bool;
  rows : list Row;
}.

Definition kind_text (k : EntryKind) : str :=
  bytes_of match k with EntityType => "entity_type" | RelationType => "relation_type" | Property => "property" end.

Definition catalog_row (e : CatalogEntry) : Row := {|
  row_kind := Some (kind_text (kind (entry_identity e)));
  row_name := Some (name e);
  row_id := Some (get (entry_identity e));
  row_count := Some (observation_count e);
  row_first := Some (first_seen e);
  row_last := Some (last_seen e);
  row_owner := owner_label e |}.

Definition to_record_batch (c : RuntimeCatalogData) : RecordBatch := {| schema_canonical := true; rows := catalog_row <$> entries c |}.

(** A null in a required column. *)
Definition has_null (r : Row) : bool :=
  bool_decide (row_kind r = None) || bool_decide (row_name r = None) || bool_decide (row_id r = None) ||
  bool_decide (row_count r = None) || bool_decide (row_first r = None) || bool_decide (row_last r = None).

Definition parse_kind (text : str) : result CatalogError EntryKind :=
  if decide (text = kind_text EntityType) then Ok EntityType
  else if decide (text = kind_text RelationType) then Ok RelationType
  else if decide (text = kind_text Property) then Ok Property
  else Err (UnknownKind text).

(** The next identity of a kind, types sharing one counter, and the counters after it. *)
Definition next_of (next : Z * Z) (k : EntryKind) : Z :=
  match k with EntityType | RelationType => next.1 | Property => next.2 end.
Definition next_after (next : Z * Z) (k : EntryKind) : Z * Z :=
  match k with EntityType | RelationType => (next.1 + 1, next.2) | Property => (next.1, next.2 + 1) end.

Definition duplicate_message (k : EntryKind) : string :=
  match k with
  | EntityType => "runtime_catalog contains duplicate entity type"
  | RelationType => "runtime_catalog contains duplicate relation type"
  | Property => "runtime_catalog contains duplicate property"
  end.

(** A row of a batch without nulls; the defaults are never used. *)
Definition decode_row (r : Row) (st : RuntimeCatalogData * (Z * Z)) : result CatalogError (RuntimeCatalogData * (Z * Z)) :=
  let '(catalog, next) := st in
  kind ← parse_kind (default [] (row_kind r));
  let n := default [] (row_name r) in
  let runtime_id := default 0 (row_id r) in
  let observation_count := default 0 (row_count r) in
  let first_seen := default 0 (row_first r) in
  let last_seen := default 0 (row_last r) in
  let owner_label := row_owner r in
  if bool_decide (n = []) || (observation_count =? 0) || (last_seen <? first_seen) ||
     (negb (bool_decide (kind = Property)) && bool_decide (is_Some owner_label))
  then Err (Storage "runtime_catalog row is not canonical")
  else if negb (runtime_id =? next_of next kind)
  then Err (Storage "runtime_catalog IDs are not unique and contiguous in insertion order")
  else if u32_max <? next_of next kind + 1
  then Err (Storage "runtime_catalog persisted ID exceeds supported range")
  else
    identity ← checked kind runtime_id;
    let e := {| entry_identity := identity; name := n; observation_count := observation_count;
                first_seen := first_seen; last_seen := last_seen; owner_label := owner_label |} in
    match lookup_index catalog (catalog_key e) with
    | Some _ => Err (Storage (duplicate_message kind))
    | None => Ok (append_entry catalog e, next_after next kind)
    end.

Fixpoint decode_rows (rs : list Row) (st : RuntimeCatalogData * (Z * Z)) : result CatalogError (RuntimeCatalogData * (Z * Z)) :=
  match rs with
  | [] => Ok st
  | r :: rs => st ← decode_row r st; decode_rows rs st
  end.

Definition decode_batch (b : RecordBatch) (st : RuntimeCatalogData * (Z * Z)) : result CatalogError (RuntimeCatalogData * (Z * Z)) :=
  if negb (schema_canonical b) then Err (Storage "runtime_catalog schema is not canonical")
  else if existsb has_null (rows b) then Err (Storage "runtime_catalog required column contains null")
  else decode_rows (rows b) st.

Fixpoint decode_batches (bs : list RecordBatch) (st : RuntimeCatalogData * (Z * Z)) : result CatalogError (RuntimeCatalogData * (Z * Z)) :=
  match bs with
  | [] => Ok st
  | b :: bs => st ← decode_batch b st; decode_batches bs st
  end.

Definition decode_record_batches_at (bs : list RecordBatch) (initial_type_id initial_prop_id : Z) : result CatalogError RuntimeCatalogData :=
  '(catalog, next) ← decode_batches bs (new, (initial_type_id, initial_prop_id));
  Ok (with_next catalog next).

Definition from_record_batches (bs : list RecordBatch) : result CatalogError RuntimeCatalogData := decode_record_batches_at bs 0 0.
Definition from_record_batch (b : RecordBatch) : result CatalogError RuntimeCatalogData := from_record_batches [b].

Definition extend_from_record_batch (b : RecordBatch) (c : RuntimeCatalogData) : result CatalogError unit * RuntimeCatalogData :=
  match decode_record_batches_at [b] (next_type_id c) (next_prop_id c) with
  | Err e => (Err e, c)
  | Ok incoming =>
      if existsb (fun e => bool_decide (is_Some (lookup_index c (catalog_key e)))) (entries incoming)
      then (Err (Storage "runtime_catalog contains a duplicate persisted entry"), c)
      else (Ok tt, foldl append_entry (with_next c (next_type_id incoming, next_prop_id incoming)) (entries incoming))
  end.

(** ** Invariant *)

Definition limit_of (k : EntryKind) : Z := match k with Property => u32_max | _ => TYPE_LOCAL_ID_LIMIT end.

(** What an entry holds in memory. *)
Definition entry_ok (e : CatalogEntry) : Prop :=
  0 <= get (entry_identity e) < limit_of (kind (entry_identity e)) /\ 0 <= observation_count e <= u64_max /\
  (kind (entry_identity e) = Property \/ owner_label e = None).

(** Identities count up from the counters, per space, in the order of the entries. *)
Fixpoint ids_from (next : Z * Z) (es : list CatalogEntry) : Prop :=
  match es with
  | [] => True
  | e :: es => get (entry_identity e) = next_of next (kind (entry_identity e)) /\ ids_from (next_after next (kind (entry_identity e))) es
  end.

Definition counters (next : Z * Z) (es : list CatalogEntry) : Z * Z :=
  foldl (fun next e => next_after next (kind (entry_identity e))) next es.

(** The three maps find every entry under its key, and nothing else. *)
Definition indexed (c : RuntimeCatalogData) : Prop :=
  forall k i, lookup_index c k = Some i <-> catalog_key <$> entries c !! i = Some k.

Record wf (c : RuntimeCatalogData) : Prop := {
  wf_indexed : indexed c;
  wf_ids : ids_from (0, 0) (entries c);
  wf_next : (next_type_id c, next_prop_id c) = counters (0, 0) (entries c);
  wf_entries : Forall entry_ok (entries c);
}.

Lemma ids_from_app next es fs : ids_from next (es ++ fs) <-> ids_from next es /\ ids_from (counters next es) fs.
Proof. revert next. induction es as [|e es IH]; intros next; cbn; [tauto|]. rewrite IH. unfold counters. tauto. Qed.

Lemma counters_app next es fs : counters next (es ++ fs) = counters (counters next es) fs.
Proof. apply foldl_app. Qed.

Lemma counters_le next es : next.1 <= (counters next es).1 /\ next.2 <= (counters next es).2.
Proof.
  revert next. induction es as [|e es IH]; intros next; [cbn; lia|]. cbn [counters foldl]. specialize (IH (next_after next (kind (entry_identity e)))).
  unfold counters in IH. destruct (kind (entry_identity e)); cbn [next_after fst snd] in *; lia.
Qed.

(** Two entries with one identity are one entry. *)
Lemma ids_from_inj next es i j d e : ids_from next es -> es !! i = Some d -> es !! j = Some e ->
  entry_identity d = entry_identity e -> i = j.
Proof.
  assert (Hlt : forall next es i e, ids_from next es -> es !! i = Some e -> next_of next (kind (entry_identity e)) <= get (entry_identity e)).
  { clear. intros next es. revert next. induction es as [|f es IH]; intros next i e; [done|]. intros [Hf Hes] Hi. destruct i as [|i]; cbn in Hi; [simplify_eq; lia|].
    specialize (IH _ _ _ Hes Hi). destruct (kind (entry_identity f)), (kind (entry_identity e)); cbn [next_after next_of fst snd] in *; lia. }
  assert (Hstep : forall next f es i e, ids_from (next_after next (kind (entry_identity f))) es -> get (entry_identity f) = next_of next (kind (entry_identity f)) ->
    es !! i = Some e -> entry_identity f = entry_identity e -> False).
  { clear -Hlt. intros next f es i e Hes Hf Hi E. specialize (Hlt _ _ _ _ Hes Hi). rewrite <-E in Hlt.
    destruct (kind (entry_identity f)); cbn [next_after next_of fst snd] in *; lia. }
  revert next i j. induction es as [|f es IH]; intros next i j; [done|]. intros [Hf Hes] Hi Hj E.
  destruct i as [|i], j as [|j]; cbn in Hi, Hj; simplify_eq; try done.
  - exfalso. by eapply Hstep.
  - exfalso. by eapply Hstep.
  - f_equal. by eapply IH.
Qed.

(** ** The maps *)

Lemma lookup_append c e k : lookup_index (append_entry c e) k = if decide (catalog_key e = k) then Some (length (entries c)) else lookup_index c k.
Proof.
  unfold append_entry, lookup_index. cbn [entity_types relation_types properties]. destruct (catalog_key e) as [n|n|n o], k as [m|m|m p];
    case_decide; simplify_eq; try done; try (by rewrite lookup_insert_eq); apply lookup_insert_ne; congruence.
Qed.

Lemma indexed_append c e : indexed c -> lookup_index c (catalog_key e) = None -> indexed (append_entry c e).
Proof.
  intros Hc Hnew k i. rewrite lookup_append. cbn [entries append_entry]. rewrite fmap_Some. split.
  - case_decide as E.
    + intros [= <-]. exists e. by rewrite list_lookup_middle.
    + intros (f&Hf&Hk)%Hc%fmap_Some. exists f. split; [by apply lookup_app_l_Some|done].
  - intros (f&[Hf|[Hl Hf]]%lookup_app_Some&->).
    + assert (Hi : lookup_index c (catalog_key f) = Some i) by (apply Hc; by rewrite Hf). rewrite decide_False; [done|]. intros E. by rewrite E, Hi in Hnew.
    + destruct (i - length (entries c))%nat eqn:Ei; [|done]. cbn in Hf. simplify_eq. rewrite decide_True by done. f_equal. lia.
Qed.

Lemma indexed_new : indexed new.
Proof. intros [n|n|n o] i; cbn; split; done. Qed.

Lemma indexed_nodup c : indexed c -> NoDup (catalog_key <$> entries c).
Proof.
  intros Hc. apply NoDup_alt. intros i j k Hi Hj. rewrite list_lookup_fmap in Hi, Hj. apply Hc in Hi, Hj. congruence.
Qed.

Lemma indexed_None c k : indexed c -> lookup_index c k = None <-> k ∉ catalog_key <$> entries c.
Proof.
  intros Hc. rewrite list_elem_of_lookup, eq_None_not_Some. apply not_iff_compat. unfold is_Some. apply exist_proper. intros i. by rewrite (Hc k i), list_lookup_fmap.
Qed.

(** The entries and the counters determine the catalog. *)
Lemma indexed_eq c d : indexed c -> indexed d -> entries c = entries d -> next_type_id c = next_type_id d -> next_prop_id c = next_prop_id d -> c = d.
Proof.
  intros Hc Hd E. assert (H : forall k, lookup_index c k = lookup_index d k).
  { intros k. apply option_eq. intros i. by rewrite (Hc k i), (Hd k i), E. }
  destruct c, d; cbn in *. intros. subst. f_equal; apply map_eq; intros n.
  - apply (H (KEntity n)).
  - apply (H (KRelation n)).
  - destruct n as [n o]. apply (H (KProperty n o)).
Qed.

Lemma indexed_appends c es : indexed c -> NoDup (catalog_key <$> entries c ++ es) ->
  indexed (foldl append_entry c es) /\ entries (foldl append_entry c es) = entries c ++ es /\
  next_type_id (foldl append_entry c es) = next_type_id c /\ next_prop_id (foldl append_entry c es) = next_prop_id c.
Proof.
  revert c. induction es as [|e es IH]; intros c Hc Hdup; cbn [foldl]; [by rewrite app_nil_r|].
  assert (Hnew : lookup_index c (catalog_key e) = None).
  { apply indexed_None; [done|]. rewrite fmap_app, fmap_cons in Hdup. apply NoDup_app in Hdup as (_&H&_). intros Hin. apply (H _ Hin). by left. }
  destruct (IH (append_entry c e)) as (H1&H2&H3&H4); [by apply indexed_append| |].
  - cbn [entries append_entry]. by rewrite <-app_assoc.
  - cbn [entries append_entry next_type_id next_prop_id] in *. by rewrite <-app_assoc in H2.
Qed.

(** ** Decoding *)

(** What the decoder asks of a row beyond the types of the columns. *)
Definition persistable (e : CatalogEntry) : Prop := name e <> [] /\ observation_count e <> 0 /\ first_seen e <= last_seen e.

(** The values of the integer columns. *)
Definition typed_row (r : Row) : Prop :=
  (forall z, row_id r = Some z -> in_u32 z) /\ (forall z, row_count r = Some z -> 0 <= z <= u64_max).
Definition typed (b : RecordBatch) : Prop := Forall typed_row (rows b).

Lemma parse_kind_iff t k : parse_kind t = Ok k <-> t = kind_text k.
Proof.
  unfold parse_kind. split.
  - repeat case_decide; by intros [= <-].
  - intros ->. destruct k; vm_compute; done.
Qed.

Lemma checked_iff k raw i : checked k raw = Ok i <-> kind i = k /\ get i = raw /\ raw < limit_of k.
Proof.
  unfold checked, runtime_entity_new, runtime_relation_new, runtime_prop_new, limit_of.
  destruct k, i as [[z]|[z]|[z]]; cbn [kind get entity_get relation_get prop_get];
    match goal with |- context[raw <? ?l] => destruct (Z.ltb_spec raw l) end; cbn [fmap result_fmap map_err];
    (split; [intros [= <-]; done|]); intros (?&?&?); subst; try done; lia.
Qed.

Lemma limit_u32 k : limit_of k <= u32_max.
Proof. destruct k; vm_compute; congruence. Qed.

Lemma decode_row_iff r c next st : has_null r = false -> typed_row r ->
  decode_row r (c, next) = Ok st <->
  exists e, r = catalog_row e /\ entry_ok e /\ persistable e /\ get (entry_identity e) = next_of next (kind (entry_identity e)) /\
    lookup_index c (catalog_key e) = None /\ st = (append_entry c e, next_after next (kind (entry_identity e))).
Proof.
  unfold has_null. destruct r as [[k|] [n|] [i|] [o|] [f|] [l|] w]; try discriminate. intros _ [Hi Ho]. specialize (Hi _ eq_refl). specialize (Ho _ eq_refl).
  unfold in_u32 in Hi. cbn [row_kind row_name row_id row_count row_first row_last row_owner decode_row default from_option id]. split.
  - intros (kd&Hk%parse_kind_iff&H)%bind_Ok. apply guard_Ok in H as [Hcanon H]. apply guard_Ok in H as [Hid H]. apply guard_Ok in H as [_ H].
    apply bind_Ok in H as (i0&(Hkd&Hget&Hlim)%checked_iff&H). subst k kd. apply negb_false_iff, Z.eqb_eq in Hid.
    rewrite !orb_false_iff, bool_decide_eq_false, Z.eqb_neq, Z.ltb_ge, andb_false_iff, negb_false_iff, bool_decide_eq_true, bool_decide_eq_false in Hcanon.
    destruct Hcanon as [[[Hn Hc] Hfl] Hw]. destruct (lookup_index c _) eqn:El; [done|]. injection H as <-. eexists. split; [|split; [|split; [|split; [|split; [exact El|]]]]].
    + unfold catalog_row. cbn. by rewrite Hget.
    + unfold entry_ok. cbn. split; [lia|]. split; [lia|]. destruct Hw as [?|Hw]; [by left|]. right. by apply eq_None_not_Some.
    + done.
    + cbn. lia.
    + done.
  - intros (e&Hr&(Hlim&Hcount&Hown)&(Hn&Hc&Hfl)&Hget&El&->). injection Hr as -> -> -> -> -> -> ->.
    rewrite (proj2 (parse_kind_iff _ _) eq_refl). cbn [mbind result_bind]. pose proof (limit_u32 (kind (entry_identity e))).
    rewrite bool_decide_eq_false_2, (proj2 (Z.eqb_neq _ _) Hc), (proj2 (Z.ltb_ge _ _) Hfl) by done. cbn [orb].
    replace (_ && _) with false.
    2:{ destruct Hown as [-> | ->]; [done|]. symmetry. apply andb_false_r. }
    rewrite <-Hget, Z.eqb_refl. cbn [negb]. rewrite (proj2 (Z.ltb_ge _ _)) by lia.
    rewrite (proj2 (checked_iff _ _ (entry_identity e))) by (split; [done|split; [done|lia]]). cbn [mbind result_bind].
    assert (Ee : {| entry_identity := entry_identity e; name := name e; observation_count := observation_count e; first_seen := first_seen e;
      last_seen := last_seen e; owner_label := owner_label e |} = e) by by destruct e.
    rewrite Ee, El. done.
Qed.

(** The entries that a decoder at [next] accepts after the entries [es0]. *)
Definition accepts (next : Z * Z) (es0 es : list CatalogEntry) : Prop :=
  Forall entry_ok es /\ Forall persistable es /\ ids_from next es /\ NoDup (catalog_key <$> es0 ++ es).

Lemma accepts_cons next es0 e es : accepts next es0 (e :: es) ->
  accepts next es0 [e] /\ accepts (next_after next (kind (entry_identity e))) (es0 ++ [e]) es.
Proof.
  unfold accepts. rewrite !Forall_cons, <-app_assoc. cbn [app ids_from]. intros ([??]&[??]&[??]&Hd). split; [|done].
  split; [auto|]. split; [auto|]. split; [done|].
  assert (E : es0 ++ e :: es = (es0 ++ [e]) ++ es) by by rewrite <-app_assoc. rewrite E, fmap_app in Hd. by apply NoDup_app in Hd as [? _].
Qed.

Lemma accepts_app next es0 es fs : accepts next es0 es -> accepts (counters next es) (es0 ++ es) fs -> accepts next es0 (es ++ fs).
Proof. unfold accepts. rewrite !Forall_app, ids_from_app, app_assoc. tauto. Qed.

Lemma accepts_split next es0 es fs : accepts next es0 (es ++ fs) -> accepts next es0 es /\ accepts (counters next es) (es0 ++ es) fs.
Proof.
  unfold accepts. rewrite !Forall_app, ids_from_app, app_assoc. intros ([??]&[??]&[??]&Hd).
  assert (NoDup (catalog_key <$> es0 ++ es)) by (rewrite fmap_app in Hd; by apply NoDup_app in Hd as [? _]). tauto.
Qed.

Lemma decode_rows_iff rs c next st : existsb has_null rs = false -> Forall typed_row rs -> indexed c ->
  decode_rows rs (c, next) = Ok st <->
  exists es, rs = catalog_row <$> es /\ accepts next (entries c) es /\ st = (foldl append_entry c es, counters next es).
Proof.
  revert c next. induction rs as [|r rs IH]; intros c next Hnull Hty Hc.
  - split.
    + intros [= <-]. exists []. split; [done|]. split; [|done]. unfold accepts. rewrite app_nil_r. cbn. split; [done|]. split; [done|]. split; [done|]. by apply indexed_nodup.
    + intros (es&Hes&_&->). symmetry in Hes. apply fmap_nil_inv in Hes. by subst.
  - cbn [existsb] in Hnull. apply orb_false_iff in Hnull as [Hr Hnull]. apply Forall_cons in Hty as [Htr Hty]. cbn [decode_rows]. rewrite bind_Ok. split.
    + intros ([c1 next1]&(e&->&Hok&Hp&Hid&Hnew&[= -> ->])%decode_row_iff&H); [|done..].
      apply IH in H as (es&->&(H1&H2&H3&H4)&->); [|done..|by apply indexed_append]. exists (e :: es). split; [done|]. split; [|done].
      split; [by constructor|]. split; [by constructor|]. split; [done|]. cbn [entries append_entry] in H4. by rewrite <-app_assoc in H4.
    + intros ([|e es]&Hes&Hacc&->); [done|]. injection Hes as -> ->. apply accepts_cons in Hacc as [He Hes].
      destruct He as ([Hok _]%Forall_cons&[Hp _]%Forall_cons&[Hid _]&Hdup).
      assert (Hnew : lookup_index c (catalog_key e) = None).
      { apply indexed_None; [done|]. rewrite fmap_app in Hdup. apply NoDup_app in Hdup as (_&H&_). intros Hin. apply (H _ Hin). by left. }
      exists (append_entry c e, next_after next (kind (entry_identity e))). split; [apply decode_row_iff; [done|done|]; by exists e|].
      apply IH; [done|done|by apply indexed_append|]. by exists es.
Qed.

Lemma decode_batches_iff bs c next st : Forall typed bs -> indexed c ->
  decode_batches bs (c, next) = Ok st <->
  exists es, Forall (fun b => schema_canonical b = true) bs /\ bs ≫= rows = catalog_row <$> es /\ accepts next (entries c) es /\
    st = (foldl append_entry c es, counters next es).
Proof.
  revert c next. induction bs as [|b bs IH]; intros c next Hty Hc.
  - pose proof (decode_rows_iff [] c next st eq_refl (Forall_nil_2 _) Hc) as H. cbn [decode_rows] in H. cbn [decode_batches mbind list_bind]. rewrite H. apply exist_proper. intros es. split; [by split|by intros [_ ?]].
  - apply Forall_cons in Hty as [Htb Hty]. cbn [decode_batches]. rewrite bind_Ok. split.
    + intros ([c1 next1]&H1&H2). unfold decode_batch in H1. apply guard_Ok in H1 as [Hs%negb_false_iff H1]. apply guard_Ok in H1 as [Hnull H1].
      apply decode_rows_iff in H1 as (es&Hrows&Hacc&[= -> ->]); [|done..]. pose proof Hacc as (_&_&_&Hdup). destruct (indexed_appends c es Hc Hdup) as (Hi&He&_).
      apply IH in H2 as (fs&Hss&Hbs&Hacc2&->); [|done..]. exists (es ++ fs). split; [by constructor|]. split; [by rewrite bind_cons, Hrows, Hbs, fmap_app|].
      rewrite He in Hacc2. split; [by apply accepts_app|]. by rewrite foldl_app, counters_app.
    + intros (es&[Hs Hss]%Forall_cons&Hrows&Hacc&->). rewrite bind_cons in Hrows. symmetry in Hrows. apply fmap_app_inv in Hrows as (fs&gs&Hfs&Hgs&->).
      apply accepts_split in Hacc as [Hacc Hacc2]. pose proof Hacc as (_&_&_&Hdup). destruct (indexed_appends c fs Hc Hdup) as (Hi&He&_).
      exists (foldl append_entry c fs, counters next fs). split.
      * unfold decode_batch. rewrite Hs. cbn [negb].
        assert (Hnull : existsb has_null (rows b) = false) by (rewrite Hfs; clear; induction fs; done). rewrite Hnull. apply decode_rows_iff; [done|done|done|]. by exists fs.
      * apply IH; [done|done|]. exists gs. rewrite He, foldl_app, counters_app. done.
Qed.

(** ** Interning keeps the invariant *)

(** One call of an interning method. *)
Inductive Op :=
| Label (n : str) (observations : Z)
| Relation (n : str) (observations : Z)
| Prop_ (n : str) (owner : option str).

Definition op_kind (op : Op) : EntryKind := match op with Label _ _ => EntityType | Relation _ _ => RelationType | Prop_ _ _ => Property end.
Definition op_name (op : Op) : str := match op with Label n _ | Relation n _ | Prop_ n _ => n end.
Definition op_owner (op : Op) : option str := match op with Prop_ _ o => o | _ => None end.
Definition op_count (op : Op) : Z := match op with Label _ o | Relation _ o => o | Prop_ _ _ => 1 end.
Definition op_key (op : Op) : Key := match op with Label n _ => KEntity n | Relation n _ => KRelation n | Prop_ n o => KProperty n o end.

Definition retag {A} (f : A -> CatalogIdentity) (o : outcome A) : outcome CatalogIdentity :=
  match o with None => None | Some (Ok a, c) => Some (Ok (f a), c) | Some (Err e, c) => Some (Err e, c) end.

Definition intern (op : Op) (now : Z) (c : RuntimeCatalogData) : outcome CatalogIdentity :=
  match op with
  | Label n o => retag IdEntity (intern_label_observed_at n now o c)
  | Relation n o => retag IdRelation (intern_relation_type_observed_at n now o c)
  | Prop_ n o => retag IdProperty (intern_property_at n o now c)
  end.

(** The entry under a key. *)
Definition entry_of (c : RuntimeCatalogData) (k : Key) : option CatalogEntry := i ← lookup_index c k; entries c !! i.

Lemma ids_from_identities next es fs : entry_identity <$> es = entry_identity <$> fs ->
  (ids_from next es <-> ids_from next fs) /\ counters next es = counters next fs.
Proof.
  revert next fs. induction es as [|e es IH]; intros next [|f fs] E; try done. injection E as Ee E. destruct (IH (next_after next (kind (entry_identity e))) fs E) as [H1 H2].
  unfold counters in *. cbn [ids_from foldl]. rewrite <-Ee. tauto.
Qed.

Lemma same_key e e' : entry_identity e' = entry_identity e -> name e' = name e -> owner_label e' = owner_label e -> catalog_key e' = catalog_key e.
Proof. unfold catalog_key. by intros -> -> ->. Qed.

Lemma wf_set c i e e' : wf c -> entries c !! i = Some e -> entry_identity e' = entry_identity e -> name e' = name e -> owner_label e' = owner_label e ->
  entry_ok e' -> wf (with_entries c (<[i := e']> (entries c))).
Proof.
  intros [Hx Hi Hn He] Hl E1 E2 E3 Hok.
  assert (Hk : catalog_key <$> <[i := e']> (entries c) = catalog_key <$> entries c).
  { rewrite list_fmap_insert, (same_key e e') by done. apply list_insert_id. by rewrite list_lookup_fmap, Hl. }
  assert (Hids : entry_identity <$> <[i := e']> (entries c) = entry_identity <$> entries c).
  { rewrite list_fmap_insert, E1. apply list_insert_id. by rewrite list_lookup_fmap, Hl. }
  destruct (ids_from_identities (0, 0) _ _ Hids) as [H1 H2]. split; cbn [entries with_entries next_type_id next_prop_id].
  - intros k j. cbn [entries with_entries]. rewrite <-list_lookup_fmap, Hk, list_lookup_fmap. apply Hx.
  - by apply H1.
  - by rewrite H2.
  - by apply Forall_insert.
Qed.

Lemma wf_push c e : wf c -> lookup_index c (catalog_key e) = None -> entry_ok e ->
  get (entry_identity e) = next_of (next_type_id c, next_prop_id c) (kind (entry_identity e)) ->
  wf (append_entry (with_next c (next_after (next_type_id c, next_prop_id c) (kind (entry_identity e)))) e).
Proof.
  intros [Hx Hi Hn He] Hnew Hok Hid. split; cbn [entries append_entry with_next next_type_id next_prop_id].
  - by apply indexed_append.
  - apply ids_from_app. split; [done|]. rewrite <-Hn. by split.
  - rewrite counters_app, <-Hn. cbn. by destruct (kind (entry_identity e)).
  - apply Forall_app. by split; [|constructor].
Qed.

Lemma wf_new : wf new.
Proof. split; [apply indexed_new|done..]. Qed.

Definition entry_observed (e : CatalogEntry) (now observations : Z) : CatalogEntry := {|
  entry_identity := entry_identity e; name := name e; observation_count := observation_count e + observations;
  first_seen := first_seen e; last_seen := now; owner_label := owner_label e |}.

Definition entry_new (op : Op) (id : CatalogIdentity) (now : Z) : CatalogEntry := {|
  entry_identity := id; name := op_name op; observation_count := op_count op; first_seen := now; last_seen := now; owner_label := op_owner op |}.

(** The three methods are one algorithm. *)
Lemma intern_found op now c i e : lookup_index c (op_key op) = Some i -> entries c !! i = Some e -> kind (entry_identity e) = op_kind op ->
  intern op now c = Some (if u64_max <? observation_count e + op_count op then (Err (Storage "runtime_catalog observation count overflow"), c)
    else (Ok (entry_identity e), with_entries c (<[i := entry_observed e now (op_count op)]> (entries c)))).
Proof.
  intros Hl He Hk. destruct op; cbn [op_key lookup_index op_kind op_count intern] in *;
    unfold intern_label_observed_at, intern_relation_type_observed_at, intern_property_at, observe_entry, entry_observed; rewrite Hl; cbn [mbind option_bind]; rewrite He;
    cbn [mbind option_bind]; case_match; cbn [mbind option_bind retag entry_identity]; try done; by destruct (entry_identity e).
Qed.

Lemma intern_absent op now c : lookup_index c (op_key op) = None ->
  let next := (next_type_id c, next_prop_id c) in
  exists r, intern op now c = Some r /\
    match r.1 with
    | Ok id => kind id = op_kind op /\ get id = next_of next (op_kind op) /\ get id < limit_of (op_kind op) /\
        r.2 = append_entry (with_next c (next_after next (op_kind op))) (entry_new op id now)
    | Err e => limit_of (op_kind op) <= next_of next (op_kind op) /\ (exists d, e = ExhaustedRange d) /\ r.2 = c
    end.
Proof.
  intros Hl next. destruct op; cbn [op_key lookup_index op_kind intern] in *;
    unfold intern_label_observed_at, intern_relation_type_observed_at, intern_property_at; rewrite Hl;
    unfold runtime_entity_new, runtime_relation_new, runtime_prop_new;
    match goal with |- context[?a <? ?b] => destruct (Z.ltb_spec a b) end; (eexists; split; [reflexivity|]); cbn; eauto.
Qed.

Lemma wf_found c k i : wf c -> lookup_index c k = Some i -> exists e, entries c !! i = Some e /\ catalog_key e = k /\ entry_ok e.
Proof.
  intros Hc Hl. apply (wf_indexed _ Hc) in Hl. apply fmap_Some in Hl as (e&He&->). exists e. split; [done|]. split; [done|].
  exact (proj1 (Forall_lookup _ _) (wf_entries _ Hc) _ _ He).
Qed.

Lemma key_kind e op : catalog_key e = op_key op -> kind (entry_identity e) = op_kind op /\ name e = op_name op.
Proof. unfold catalog_key. destruct op, (kind (entry_identity e)); intros [= ?]; done. Qed.

Lemma entry_new_key op id now : kind id = op_kind op -> catalog_key (entry_new op id now) = op_key op.
Proof. unfold catalog_key, entry_new. cbn. intros ->. by destruct op. Qed.

Lemma counters_nonneg c : wf c -> 0 <= next_type_id c /\ 0 <= next_prop_id c.
Proof. intros Hc. pose proof (counters_le (0, 0) (entries c)) as H. rewrite <-(wf_next _ Hc) in H. exact H. Qed.

Lemma entry_of_iff c k e : wf c -> entry_of c k = Some e <-> exists i, entries c !! i = Some e /\ catalog_key e = k.
Proof.
  intros Hc. unfold entry_of. rewrite bind_Some. split.
  - intros (i&Hl&He). exists i. split; [done|]. apply (wf_indexed _ Hc) in Hl. rewrite He in Hl. by injection Hl.
  - intros (i&He&Hk). exists i. split; [|done]. apply (wf_indexed _ Hc). by rewrite He, <-Hk.
Qed.

Definition name_of (c : RuntimeCatalogData) (i : CatalogIdentity) : option str :=
  match i with IdEntity id => entity_type_name c id | IdRelation id => relation_type_name c id | IdProperty id => property_name c id end.

Lemma name_of_eq c i : name_of c i = name_by_id c (kind i) (get i).
Proof. by destruct i. Qed.

Lemma identity_eq i j : kind i = kind j -> get i = get j -> i = j.
Proof. destruct i as [[x]|[x]|[x]], j as [[y]|[y]|[y]]; cbn; intros; congruence. Qed.

(** An identity resolves to the name it was given to. *)
Lemma name_of_entry c k e : wf c -> entry_of c k = Some e -> name_of c (entry_identity e) = Some (name e).
Proof.
  intros Hc (i&Hi&Hk)%entry_of_iff; [|done]. rewrite name_of_eq. unfold name_by_id. apply fmap_Some. exists (i, e). split; [|done].
  apply list_find_Some. split; [done|]. split; [done|]. intros j d Hj Hlt [E1 E2].
  pose proof (ids_from_inj _ _ _ _ _ _ (wf_ids _ Hc) Hj Hi (identity_eq _ _ E1 E2)). lia.
Qed.

Lemma identities_distinct c k1 k2 e1 e2 : wf c -> entry_of c k1 = Some e1 -> entry_of c k2 = Some e2 -> entry_identity e1 = entry_identity e2 -> k1 = k2.
Proof.
  intros Hc (i&Hi&<-)%entry_of_iff (j&Hj&<-)%entry_of_iff E; [|done..]. pose proof (ids_from_inj _ _ _ _ _ _ (wf_ids _ Hc) Hi Hj E). by simplify_eq.
Qed.

(** What one call does to the catalog seen as a map from keys to entries. *)
Definition interned (op : Op) (now : Z) (c : RuntimeCatalogData) (r : result CatalogError CatalogIdentity) (c' : RuntimeCatalogData) : Prop :=
  match r with
  | Ok id =>
      entry_of c' (op_key op) = Some (match entry_of c (op_key op) with
                                      | Some old => entry_observed old now (op_count op)
                                      | None => entry_new op id now
                                      end) /\
      entry_identity <$> entry_of c' (op_key op) = Some id /\
      (forall k, k <> op_key op -> entry_of c' k = entry_of c k)
  | Err error =>
      c' = c /\
      match entry_of c (op_key op) with
      | Some old => u64_max < observation_count old + op_count op
      | None => next_of (next_type_id c, next_prop_id c) (op_kind op) = limit_of (op_kind op)
      end
  end.

Lemma next_le_limit c k : wf c -> next_of (next_type_id c, next_prop_id c) k <= limit_of k.
Proof.
  intros [_ Hi Hn He]. rewrite Hn. clear Hn. induction (entries c) as [|e es IH] using rev_ind; [destruct k; vm_compute; congruence|].
  apply ids_from_app in Hi as [Hi [Hid _]]. apply Forall_app in He as [He [Hok _]%Forall_cons]. specialize (IH Hi He). rewrite counters_app.
  destruct Hok as [Hr _]. cbn. revert Hid Hr. destruct (kind (entry_identity e)), k; cbn [next_after next_of fst snd limit_of] in *; lia.
Qed.

Lemma intern_spec op now c : wf c -> 0 <= op_count op <= u64_max ->
  exists r c', intern op now c = Some (r, c') /\ wf c' /\ interned op now c r c'.
Proof.
  intros Hc Hop. destruct (lookup_index c (op_key op)) as [i|] eqn:Hl.
  - destruct (wf_found c _ i Hc Hl) as (e&He&Hk&Hok). destruct (key_kind _ _ Hk) as [Hkind Hname].
    rewrite (intern_found op now c i e Hl He Hkind). assert (Hold : entry_of c (op_key op) = Some e) by (apply entry_of_iff; eauto).
    destruct (Z.ltb_spec u64_max (observation_count e + op_count op)) as [Hov|Hov].
    + exists (Err (Storage "runtime_catalog observation count overflow")), c. split; [done|]. split; [done|]. split; [done|]. by rewrite Hold.
    + eexists (Ok _), _. split; [reflexivity|]. destruct Hok as (Hr&Hn&Ho).
      assert (Hwf : wf (with_entries c (<[i := entry_observed e now (op_count op)]> (entries c)))).
      { eapply wf_set; try done. split; [done|]. split; [cbn; lia|done]. }
      assert (Hnew : entry_of (with_entries c (<[i := entry_observed e now (op_count op)]> (entries c))) (op_key op) = Some (entry_observed e now (op_count op))).
      { apply entry_of_iff; [done|]. exists i. split; [|done]. cbn. rewrite list_lookup_insert_eq; [done|by eapply lookup_lt_Some]. }
      split; [done|]. unfold interned. rewrite Hold. split; [done|]. split; [by rewrite Hnew|].
      intros k Hne. unfold entry_of. change (lookup_index (with_entries _ _) k) with (lookup_index c k). destruct (lookup_index c k) as [j|] eqn:Hj; [|done].
      cbn. rewrite list_lookup_insert_ne; [done|]. intros ->. destruct (wf_found c _ j Hc Hj) as (d&Hd&Hkd&_). by simplify_eq.
  - assert (Hold : entry_of c (op_key op) = None) by (unfold entry_of; by rewrite Hl).
    destruct (intern_absent op now c Hl) as ([[id|e] c']&Hrun&H); cbn [fst snd] in H.
    + destruct H as (Hk&Hg&Hlim&->). eexists _, _. split; [exact Hrun|]. pose proof (counters_nonneg c Hc).
      assert (Hwf : wf (append_entry (with_next c (next_after (next_type_id c, next_prop_id c) (op_kind op))) (entry_new op id now))).
      { rewrite <-Hk. change id with (entry_identity (entry_new op id now)) at 1. apply wf_push; [done|by rewrite entry_new_key| |by cbn; rewrite Hk].
        split; [cbn; rewrite Hk; split; [rewrite Hg; destruct (op_kind op); cbn; lia|done]|]. split; [done|]. cbn. rewrite Hk. destruct op; auto. }
      split; [done|]. unfold interned. rewrite Hold.
      assert (Hnew : entry_of (append_entry (with_next c (next_after (next_type_id c, next_prop_id c) (op_kind op))) (entry_new op id now)) (op_key op) = Some (entry_new op id now)).
      { apply entry_of_iff; [done|]. exists (length (entries c)). split; [cbn; by rewrite list_lookup_middle|by apply entry_new_key]. }
      split; [done|]. split; [by rewrite Hnew|]. intros k Hne. unfold entry_of. rewrite lookup_append, entry_new_key, decide_False by congruence.
      change (lookup_index (with_next _ _) k) with (lookup_index c k). destruct (lookup_index c k) as [j|] eqn:Hj; [|done].
      destruct (wf_found c _ j Hc Hj) as (d&Hd&_). cbn. rewrite Hd. by apply lookup_app_l_Some.
    + destruct H as (Hlim&_&->). eexists _, _. split; [exact Hrun|]. split; [done|]. split; [done|]. rewrite Hold. pose proof (next_le_limit c (op_kind op) Hc). lia.
Qed.

(** ** Loading and extending *)

Lemma load_iff bs c : Forall typed bs ->
  from_record_batches bs = Ok c <->
  Forall (fun b => schema_canonical b = true) bs /\ bs ≫= rows = rows (to_record_batch c) /\ wf c /\ Forall persistable (entries c).
Proof.
  intros Hty. unfold from_record_batches, decode_record_batches_at. rewrite bind_Ok. split.
  - intros ([d next]&(es&Hs&Hrows&Hacc&[= -> ->])%decode_batches_iff&[= <-]); [|done|apply indexed_new]. cbn [entries new app] in Hacc.
    destruct Hacc as (H1&H2&H3&H4). destruct (indexed_appends new es indexed_new H4) as (Hi&He&_). cbn [entries new app] in He.
    split; [done|]. split; [cbn; by rewrite He|]. cbn [entries with_next]. rewrite He. split; [|done]. split; cbn [entries with_next next_type_id next_prop_id]; rewrite ?He; try done.
    by destruct (counters (0, 0) es).
  - intros (Hs&Hrows&Hc&Hp). pose proof (indexed_nodup c (wf_indexed _ Hc)) as Hdup.
    exists (foldl append_entry new (entries c), counters (0, 0) (entries c)). split.
    + apply decode_batches_iff; [done|apply indexed_new|]. exists (entries c). split; [done|]. split; [done|]. split; [|done].
      destruct Hc as [_ Hi _ He]. by split.
    + destruct (indexed_appends new (entries c) indexed_new Hdup) as (Hi&He&_). f_equal. rewrite <-(wf_next _ Hc). apply indexed_eq; try done. exact (wf_indexed _ Hc).
Qed.

(** The check for persisted duplicates. *)
Lemma no_duplicates c es : indexed c ->
  existsb (fun e => bool_decide (is_Some (lookup_index c (catalog_key e)))) es = false <->
  forall k, k ∈ catalog_key <$> entries c -> k ∉ catalog_key <$> es.
Proof.
  intros Hc. rewrite <-not_true_iff_false, existsb_exists. split.
  - intros H k Hk (e&->&Hin)%list_elem_of_fmap. apply H. exists e. split; [by apply list_elem_of_In|]. apply bool_decide_eq_true.
    apply not_eq_None_Some. rewrite indexed_None by done. by intros Hn.
  - intros H (e&Hin%list_elem_of_In&Hb%bool_decide_eq_true). apply not_eq_None_Some in Hb. rewrite indexed_None in Hb by done. apply Hb. intros Hk.
    apply (H _ Hk). by apply list_elem_of_fmap_2.
Qed.

Lemma extend_iff b c c' : typed b -> wf c -> 
  extend_from_record_batch b c = (Ok tt, c') <->
  exists es, schema_canonical b = true /\ rows b = catalog_row <$> es /\ Forall persistable es /\ wf c' /\ entries c' = entries c ++ es.
Proof.
  intros Hty Hc. unfold extend_from_record_batch, decode_record_batches_at.
  pose proof (fun st => decode_batches_iff [b] new (next_type_id c, next_prop_id c) st ltac:(by constructor) indexed_new) as Hd.
  cbn [entries new app mbind list_bind] in Hd. split.
  - destruct (decode_batches [b] _) as [[d next]|e] eqn:E; cbn [mbind result_bind]; [|done].
    destruct (proj1 (Hd _) eq_refl) as (es&[Hs _]%Forall_cons&Hrows&(H1&H2&H3&H4)&[= -> ->]). rewrite app_nil_r in Hrows.
    destruct (indexed_appends new es indexed_new H4) as (_&He&_). cbn [entries new app with_next] in He |- *. rewrite He. destruct (existsb _ es) eqn:Edup; [done|]. intros [= <-].
    assert (Hdup : NoDup (catalog_key <$> entries c ++ es)).
    { rewrite fmap_app. apply NoDup_app. split; [by apply indexed_nodup, wf_indexed|]. split; [|done]. by apply no_duplicates; [apply (wf_indexed _ Hc)|]. }
    match goal with |- context[foldl append_entry ?c1 es] => destruct (indexed_appends c1 es (wf_indexed _ Hc) Hdup) as (Hi&He2&Hn1&Hn2) end.
    exists es. split; [done|]. split; [done|]. split; [done|]. split; [|done]. cbn [entries with_next] in He2. split; [done|rewrite He2..].
    + apply ids_from_app. split; [apply Hc|]. by rewrite <-(wf_next _ Hc).
    + rewrite Hn1, Hn2, counters_app, <-(wf_next _ Hc). cbn. by destruct (counters _ es).
    + apply Forall_app. split; [apply Hc|done].
  - intros (es&Hs&Hrows&Hp&Hc'&He'). pose proof Hc' as [Hx Hi Hn Hall]. rewrite He' in *. apply ids_from_app in Hi as [_ Hi]. rewrite <-(wf_next _ Hc) in Hi.
    apply Forall_app in Hall as [_ Hall]. pose proof (indexed_nodup c' Hx) as Hdup. rewrite He' in Hdup.
    assert (Hdup2 : NoDup (catalog_key <$> es)) by (rewrite fmap_app in Hdup; by apply NoDup_app in Hdup as (_&_&?)).
    rewrite (proj2 (Hd (foldl append_entry new es, counters (next_type_id c, next_prop_id c) es))); cbn [mbind result_bind].
    2:{ exists es. split; [by constructor|]. split; [by rewrite app_nil_r|]. done. }
    destruct (indexed_appends new es indexed_new Hdup2) as (_&He&_). cbn [entries new app with_next] in He |- *. rewrite He.
    replace (existsb _ es) with false.
    2:{ symmetry. apply no_duplicates; [apply (wf_indexed _ Hc)|]. rewrite fmap_app in Hdup. by apply NoDup_app in Hdup as (_&?&_). }
    match goal with |- context[foldl append_entry ?c1 es] => destruct (indexed_appends c1 es (wf_indexed _ Hc) Hdup) as (Hi1&He2&Hn1&Hn2) end.
    f_equal. cbn [entries with_next next_type_id next_prop_id] in *. rewrite counters_app, <-(wf_next _ Hc) in Hn. 
    apply indexed_eq; [done|done|by rewrite He2|by rewrite Hn1, <-Hn|by rewrite Hn2, <-Hn].
Qed.

Lemma extend_err b c e c' : extend_from_record_batch b c = (Err e, c') -> c' = c.
Proof. unfold extend_from_record_batch. repeat case_match; by intros [= _ <-]. Qed.

(** ** Runs *)

(** The catalogs a program reaches: an empty or a loaded one, after calls and appended batches. *)
Inductive reachable : RuntimeCatalogData -> Prop :=
| reach_new : reachable new
| reach_load bs c : Forall typed bs -> from_record_batches bs = Ok c -> reachable c
| reach_intern op now c r c' : reachable c -> 0 <= op_count op <= u64_max -> intern op now c = Some (r, c') -> reachable c'
| reach_extend b c r c' : reachable c -> typed b -> extend_from_record_batch b c = (r, c') -> reachable c'.

Lemma reachable_wf c : reachable c -> wf c.
Proof.
  induction 1 as [|bs c Hty H|op now c r c' _ IH Hop H|b c r c' _ IH Hty H].
  - apply wf_new.
  - by apply load_iff in H as (_&_&?&_).
  - destruct (intern_spec op now c IH Hop) as (r1&c1&H1&H2&_). by simplify_eq.
  - destruct r as [[]|e].
    + by apply extend_iff in H as (es&_&_&_&?&_).
    + apply extend_err in H. by subst.
Qed.

Lemma catalog_row_inj d e : catalog_row d = catalog_row e -> d = e.
Proof.
  destruct d as [i ?????], e as [j ?????]. unfold catalog_row. cbn. intros [= Hk -> Hg -> -> -> ->]. f_equal. apply identity_eq; [|done].
  by destruct (kind i), (kind j).
Qed.

Lemma typed_rows c : wf c -> typed (to_record_batch c).
Proof.
  intros Hc. unfold typed, to_record_batch. cbn [rows]. apply Forall_fmap. eapply Forall_impl; [apply (wf_entries _ Hc)|]. intros e (H1&H2&_).
  pose proof (limit_u32 (kind (entry_identity e))). split; cbn; intros z [= <-]; [unfold in_u32; lia|done].
Qed.

(** Appending a batch is loading everything at once. *)
Lemma extend_load b c c' : typed b -> wf c -> Forall persistable (entries c) ->
  extend_from_record_batch b c = (Ok tt, c') <-> from_record_batches [to_record_batch c; b] = Ok c'.
Proof.
  intros Hty Hc Hp. assert (Hb : Forall typed [to_record_batch c; b]) by (apply Forall_cons_2; [by apply typed_rows|by apply Forall_cons_2]).
  rewrite extend_iff, load_iff by done. cbn [mbind list_bind]. rewrite app_nil_r. split.
  - intros (es&Hs&Hrows&Hpe&Hc'&He). split; [by repeat constructor|]. cbn [rows to_record_batch]. rewrite He, fmap_app, Hrows. split; [done|]. split; [done|].
    by apply Forall_app.
  - intros ([_ [Hs _]%Forall_cons]%Forall_cons&Hrows&Hc'&Hp'). cbn [rows to_record_batch] in Hrows. symmetry in Hrows. apply fmap_app_inv in Hrows as (fs&es&Hfs&Hes&He).
    assert (entries c = fs) as <- by (apply (list_fmap_eq_inj catalog_row); [intros ??; apply catalog_row_inj|done]).
    exists es. rewrite He in Hp'. apply Forall_app in Hp' as [_ ?]. done.
Qed.

Lemma latest_max c t e : latest_observation_micros c = Some t -> e ∈ entries c -> last_seen e <= t.
Proof.
  unfold latest_observation_micros. intros Ht He. apply (list_elem_of_fmap_2 last_seen) in He. destruct (last_seen <$> entries c) as [|x xs]; [done|]. injection Ht as <-.
  assert (H : forall xs x, x <= foldl Z.max x xs).
  { clear. induction xs as [|y xs IH]; intros x; cbn; [lia|]. specialize (IH (x `max` y)). lia. }
  revert x He. induction xs as [|y xs IH]; intros x He; cbn.
  - apply list_elem_of_singleton in He. lia.
  - apply elem_of_cons in He as [->|He]; [etrans; [|apply H]; lia|]. apply elem_of_cons in He as [->|He]; [etrans; [|apply H]; lia|].
    apply IH. by right.
Qed.

(** A call with a name, an observation and a time that is not before the others keeps rows that can be read back. *)
Lemma intern_persistable op now c r c' : wf c -> op_name op <> [] -> 1 <= op_count op <= u64_max ->
  (forall t, latest_observation_micros c = Some t -> t <= now) -> intern op now c = Some (r, c') ->
  Forall persistable (entries c) -> Forall persistable (entries c').
Proof.
  intros Hc Hn Ho Hnow Hrun Hp. destruct (lookup_index c (op_key op)) as [i|] eqn:Hl.
  - destruct (wf_found c _ i Hc Hl) as (e&He&Hk&Hok). destruct (key_kind _ _ Hk) as [Hkind _]. rewrite (intern_found op now c i e Hl He Hkind) in Hrun.
    case_match; simplify_eq; [done|]. cbn [entries with_entries]. apply Forall_insert; [done|].
    destruct (proj1 (Forall_lookup _ _) Hp _ _ He) as (H1&H2&H3). destruct Hok as (_&H4&_). split; [done|]. cbn. split; [lia|].
    destruct (latest_observation_micros c) as [t|] eqn:Et.
    + pose proof (latest_max c t e Et (list_elem_of_lookup_2 _ _ _ He)). specialize (Hnow t eq_refl). lia.
    + unfold latest_observation_micros in Et. destruct (entries c); [done|discriminate].
  - destruct (intern_absent op now c Hl) as ([[id|e] c1]&H1&H2); cbn [fst snd] in H2; rewrite Hrun in H1; simplify_eq.
    + destruct H2 as (_&_&_&->). cbn [entries append_entry with_next]. apply Forall_app. split; [done|]. apply Forall_singleton.
      split; [done|]. cbn. split; [lia|done].
    + by destruct H2 as (_&_&->).
Qed.

(** ** Properties *)

(** C11 Identities are stable.  On every catalog a program can reach, interning does not panic.  It
    returns the identity of the entry under its key, which is the entry already there, with the
    observations added and the last sighting set, or a new entry; every other key keeps its entry,
    so an identity that was given is never changed.  It fails only when the count or the range of
    identities is exhausted, and then leaves the catalog as it was.  Afterwards every identity
    resolves to the name it was given for, and no two keys share one. *)
Theorem catalog_interning c op now : reachable c -> 0 <= op_count op <= u64_max ->
  exists r c', intern op now c = Some (r, c') /\ interned op now c r c' /\
    (forall k e, entry_of c' k = Some e -> name_of c' (entry_identity e) = Some (name e)) /\
    (forall k1 k2 e1 e2, entry_of c' k1 = Some e1 -> entry_of c' k2 = Some e2 -> entry_identity e1 = entry_identity e2 -> k1 = k2).
Proof.
  intros Hc%reachable_wf Hop. destruct (intern_spec op now c Hc Hop) as (r&c'&Hrun&Hc'&H). exists r, c'. split; [done|]. split; [done|].
  split; [intros k e; by apply name_of_entry|intros ????; by apply identities_distinct].
Qed.

(** A known name sighted again: its entry is the only one that changes. *)
Lemma reobserved c op now e : wf c -> Forall persistable (entries c) -> entry_of c (op_key op) = Some e ->
  1 <= op_count op <= u64_max -> observation_count e + op_count op <= u64_max ->
  exists c', intern op now c = Some (Ok (entry_identity e), c') /\ wf c' /\
    (Forall persistable (entries c') <-> first_seen e <= now).
Proof.
  intros Hc Hp He Hop Hfit. destruct (intern_spec op now c Hc) as (r&c'&Hrun&Hc'&_); [lia|].
  apply bind_Some in He as (i&Hl&Hi). destruct (wf_found c _ i Hc Hl) as (e'&He'&Hk&_).
  assert (e' = e) as -> by congruence.
  pose proof Hrun as Hfound. rewrite (intern_found op now c i e Hl He') in Hfound by (by apply key_kind).
  destruct (Z.ltb_spec u64_max (observation_count e + op_count op)); [lia|]. injection Hfound as <- <-.
  eexists. split; [exact Hrun|]. split; [done|]. cbn [entries with_entries].
  pose proof (Forall_lookup_1 _ _ _ _ Hp He') as (Hname&Hcount&_). pose proof (lookup_lt_Some _ _ _ He') as Hlt.
  assert (Hcnt : 0 <= observation_count e).
  { pose proof (Forall_lookup_1 _ _ _ _ (wf_entries _ Hc) He') as (_&Hn&_). lia. }
  split.
  - intros Hall. eapply Forall_lookup_1 in Hall as (_&_&Hle); [|by apply list_lookup_insert_eq]. done.
  - intros Hle. apply Forall_insert; [done|]. split_and!; cbn; [done|lia|done].
Qed.

(** C12 A stored catalog is read back.  A catalog that a program can reach is what a sequence of
    batches decodes to exactly when the batches have the catalog's schema, hold the rows the catalog
    is written as, however they are cut, and the rows have names, observations and ordered times.
    Appending a batch gives what loading everything at once gives, and a refused batch leaves the
    catalog as it was.  Calls with a name, an observation and a time not before the latest one keep
    the rows readable. *)
Theorem catalog_persistence c : reachable c ->
  (forall bs, Forall typed bs -> from_record_batches bs = Ok c <->
    Forall (fun b => schema_canonical b = true) bs /\ bs ≫= rows = rows (to_record_batch c) /\ Forall persistable (entries c)) /\
  (Forall persistable (entries c) -> forall b, typed b ->
    (forall c', extend_from_record_batch b c = (Ok tt, c') <-> from_record_batches [to_record_batch c; b] = Ok c') /\
    (forall e c', extend_from_record_batch b c = (Err e, c') -> c' = c)) /\
  (Forall persistable (entries c) -> forall op now r c', op_name op <> [] -> 1 <= op_count op <= u64_max ->
    (forall t, latest_observation_micros c = Some t -> t <= now) -> intern op now c = Some (r, c') -> Forall persistable (entries c')).
Proof.
  intros Hc%reachable_wf. split; [|split].
  - intros bs Hty. rewrite load_iff by done. tauto.
  - intros Hp b Hty. split; [intros c'; by apply extend_load|intros e c'; apply extend_err].
  - intros Hp op now r c' H1 H2 H3 H4. by eapply intern_persistable.
Qed.

(** C40 A name sighted again stays readable exactly when the clock has not stepped back behind
    its first sighting.  On any reachable catalog whose rows are readable, sighting a known
    name succeeds at any time, as long as its count fits; the rows of the catalog reached, cut
    into batches in any way, decode to that catalog when the time is not before the first
    sighting, and are refused when it is. *)
Theorem catalog_clock_regression c op now e :
  reachable c -> Forall persistable (entries c) -> entry_of c (op_key op) = Some e ->
  1 <= op_count op <= u64_max -> observation_count e + op_count op <= u64_max ->
  exists c', intern op now c = Some (Ok (entry_identity e), c') /\
    forall bs, Forall typed bs -> Forall (fun b => schema_canonical b = true) bs ->
      bs ≫= rows = rows (to_record_batch c') ->
      (first_seen e <= now -> from_record_batches bs = Ok c') /\
      (now < first_seen e -> exists err, from_record_batches bs = Err err).
Proof.
  intros Hc%reachable_wf Hp He Hop Hfit.
  destruct (reobserved c op now e Hc Hp He Hop Hfit) as (c'&Hrun&Hwf&Hread). exists c'. split; [done|].
  intros bs Hty Hs Hrows. split.
  - intros Hle. apply load_iff; [done|]. split_and!; try done. by apply Hread.
  - intros Hlt. destruct (from_record_batches bs) as [d|err] eqn:Ed; [|by exists err]. exfalso.
    apply load_iff in Ed as (_&Hd&_&Hpd); [|done]. rewrite Hrows in Hd.
    assert (entries c' = entries d) as Heq by (eapply list_fmap_eq_inj; [exact catalog_row_inj|exact Hd]).
    rewrite <-Heq in Hpd. apply Hread in Hpd. lia.
Qed.

(** ** Runs of the model *)

Fixpoint run (ops : list (Op * Z)) (c : RuntimeCatalogData) : option RuntimeCatalogData :=
  match ops with
  | [] => Some c
  | (op, now) :: ops => match intern op now c with Some (_, c) => run ops c | None => None end
  end.

Definition sample_ops : list (Op * Z) :=
  [(Label (bytes_of "Person") 1, 1); (Relation (bytes_of "Person") 2, 2); (Prop_ (bytes_of "name") (Some (bytes_of "Person")), 3);
   (Prop_ (bytes_of "name") None, 4); (Label (bytes_of "Person") 3, 9)].

Definition sample_catalog : RuntimeCatalogData := default new (run sample_ops new).

Lemma run_reachable ops c c' : reachable c -> Forall (fun p => 0 <= op_count p.1 <= u64_max) ops -> run ops c = Some c' -> reachable c'.
Proof.
  revert c. induction ops as [|[op now] ops IH]; intros c Hc; cbn [run]; [by intros _ [= <-]|]. intros [Hop Hops]%Forall_cons.
  destruct (intern op now c) as [[r c1]|] eqn:E; [|done]. apply IH; [|done]. by eapply reach_intern.
Qed.

Lemma sample_reachable : reachable sample_catalog.
Proof.
  apply (run_reachable sample_ops new); [apply reach_new| |vm_compute; reflexivity].
  repeat apply Forall_cons_2; try apply Forall_nil_2; split; vm_compute; discriminate.
Qed.

Lemma catalog_interning_witness :
  exists c', intern (Relation (bytes_of "KNOWS") 1) 10 sample_catalog = Some (Ok (IdRelation (RuntimeRelation_ 2)), c') /\
    name_of c' (IdProperty (RuntimeProp_ 1)) = Some (bytes_of "name").
Proof.
  destruct (catalog_interning sample_catalog (Relation (bytes_of "KNOWS") 1) 10 sample_reachable ltac:(split; vm_compute; discriminate))
    as (r&c'&Hrun&_&Hname&_).
  exists c'. assert (E : intern (Relation (bytes_of "KNOWS") 1) 10 sample_catalog = Some (r, c')) by exact Hrun.
  vm_compute in E. injection E as Hr Hc'. subst r c'. split; [vm_compute; reflexivity|].
  exact (Hname (KProperty (bytes_of "name") None) {| entry_identity := IdProperty (RuntimeProp_ 1); name := bytes_of "name";
    observation_count := 1; first_seen := 4; last_seen := 4; owner_label := None |} eq_refl).
Defined.

Lemma sample_persistable : Forall persistable (entries sample_catalog).
Proof.
  let es := eval vm_compute in (entries sample_catalog) in change (entries sample_catalog) with es.
  repeat apply Forall_cons_2; try apply Forall_nil_2; (split; [discriminate|split; [discriminate|cbn; lia]]).
Qed.

Lemma catalog_persistence_witness : from_record_batches ((fun r => {| schema_canonical := true; rows := [r] |}) <$> rows (to_record_batch sample_catalog)) = Ok sample_catalog.
Proof.
  destruct (catalog_persistence sample_catalog sample_reachable) as [H _]. apply H.
  - let rs := eval vm_compute in (rows (to_record_batch sample_catalog)) in change (rows (to_record_batch sample_catalog)) with rs. cbn [fmap list_fmap].
    repeat apply Forall_cons_2; try apply Forall_nil_2; (split; cbn; intros z [= <-]; split; vm_compute; discriminate).
  - split; [repeat constructor|]. split; [vm_compute; reflexivity|].
    let es := eval vm_compute in (entries sample_catalog) in change (entries sample_catalog) with es.
    repeat apply Forall_cons_2; try apply Forall_nil_2; (split; [discriminate|split; [discriminate|cbn; lia]]).
Defined.

(** One such run. *)
Example clock_step_back :
  let n := bytes_of "Person" in
  match run [(Label n 1, 5); (Label n 1, 3)] new with
  | Some c => from_record_batch (to_record_batch c) = Err (Storage "runtime_catalog row is not canonical")
  | None => False
  end.
Proof. vm_compute. reflexivity. Qed.

Lemma catalog_clock_regression_witness :
  exists c', intern (Label (bytes_of "Person") 1) 0 sample_catalog = Some (Ok (IdEntity (RuntimeEntity_ 0)), c') /\
    exists err, from_record_batches [to_record_batch c'] = Err err.
Proof.
  destruct (catalog_clock_regression sample_catalog (Label (bytes_of "Person") 1) 0
    {| entry_identity := IdEntity (RuntimeEntity_ 0); name := bytes_of "Person"; observation_count := 4;
       first_seen := 1; last_seen := 9; owner_label := None |}) as (c'&Hi&Hread);
    [apply sample_reachable|apply sample_persistable|by vm_compute|split; vm_compute; discriminate|vm_compute; discriminate|].
  exists c'. split; [exact Hi|]. vm_compute in Hi. injection Hi as <-.
  apply (Hread [_]); [|by repeat constructor|reflexivity|cbn; lia].
  repeat apply Forall_cons_2; try apply Forall_nil_2; (split; cbn; intros z [= <-]; split; vm_compute; discriminate).
Defined.
