(* ===== verification/Bipartite.v ===== *)
(** * Bipartite projections: [crates/graphforge-exec/src/algorithm_analyze_bipartite.rs] and
    [crates/graphforge-exec/src/algorithm_partition.rs].

    A UUID is its integer, a [BTreeSet] the ascending list of its elements and a [BTreeMap] a finite
    map with ascending keys.  Partition names are the bytes of their text. *)

From stdpp Require Import base list gmap sets sorting relations strings.
From Stdlib Require Import ZArith Lia.
From S2P Require Import Prelude Membership Numerals Portable Control.

(** [collect::<BTreeSet<_>>()] and [BTreeMap::keys] *)
Definition btree_set {A} `{EqDecision A} `{Ord A} (l : list A) : list A := dedup (sort_by_key id l).
Definition btree_keys {B} (m : gmap Key B) : list Key := sort_by_key id (map_to_list m).*1.

(** ** Partition mappings *)

Inductive PartitionValue :=
| PString (value : list Z)
| PInteger (value : Z)
| PNull
| PUnsupported (value_type : string).

Inductive PartitionMappingError :=
| MissingValue (node_uuid : Key)
| NullValue (node_uuid : Key)
| UnsupportedValue (node_uuid : Key) (value_type : string)
| DuplicateNode (node_uuid : Key)
| OutsideProjection (node_uuid : Key).

Abbreviation PartitionId := (list Z).
Abbreviation ResolvedPartitionMap := (gmap Key PartitionId).

(** [i64::to_string] *)
Definition integer_text (value : Z) : list Z := if value <? 0 then 45 :: to_radix 10 (- value) else to_radix 10 value.

Definition partition_of (node_uuid : Key) (value : PartitionValue) : result PartitionMappingError PartitionId :=
  match value with
  | PString value => Ok value
  | PInteger value => Ok (integer_text value)
  | PNull => Err (NullValue node_uuid)
  | PUnsupported value_type => Err (UnsupportedValue node_uuid value_type)
  end.

Fixpoint assign_partitions (selected : list Key) (values : list (Key * PartitionValue)) (assignments : ResolvedPartitionMap) :
    result PartitionMappingError ResolvedPartitionMap :=
  match values with
  | [] => Ok assignments
  | (node_uuid, value) :: values =>
      if negb (bool_decide (node_uuid ∈ selected)) then Err (OutsideProjection node_uuid)
      else if bool_decide (is_Some (assignments !! node_uuid)) then Err (DuplicateNode node_uuid)
      else
        partition ← partition_of node_uuid value;
        assign_partitions selected values (<[node_uuid := partition]> assignments)
  end.

Definition try_new (selected_nodes : list Key) (values : list (Key * PartitionValue)) : result PartitionMappingError ResolvedPartitionMap :=
  let selected := btree_set selected_nodes in
  assignments ← assign_partitions selected values ∅;
  match list_find (fun node_uuid => assignments !! node_uuid = None) selected with
  | Some (_, node_uuid) => Err (MissingValue node_uuid)
  | None => Ok assignments
  end.

(** ** The projection *)

Record BipartiteEdge := {
  edge : Key;
  source : Key;
  target : Key;
}.

Record BipartiteProjection := {
  left_nodes : list Key;
  right_nodes : list Key;
  projection_edges : list BipartiteEdge;
}.

Definition execution {A} (message : string) : K A := k_err (Execution message).

Section bipartite.
Context (cancelled : nat -> bool) (limits : AlgorithmLimits).

(** [adjacency.get_mut(&node).expect(..).push(neighbor)] *)
Definition push_neighbor (adjacency : gmap Key (list Key)) (node neighbor : Key) : option (gmap Key (list Key)) :=
  row ← adjacency !! node; Some (<[node := row ++ [neighbor]]> adjacency).

Fixpoint add_edges (nodes : list Key) (edges : list BipartiteEdge) (adjacency : gmap Key (list Key)) : K (gmap Key (list Key)) :=
  match edges with
  | [] => mret adjacency
  | e :: edges =>
      check_cancelled cancelled ;;
      if negb (bool_decide (source e ∈ nodes)) || negb (bool_decide (target e ∈ nodes))
      then execution "edge endpoint is outside the selected projection"
      else if source e =? target e then execution "selected graph is not bipartite: self-loop"
      else
        adjacency ← k_some (push_neighbor adjacency (source e) (target e));
        adjacency ← k_some (push_neighbor adjacency (target e) (source e));
        add_edges nodes edges adjacency
  end.

(** *** Inferred sides *)

(** The loop over the neighbours of a node of [side]. *)
Fixpoint visit_neighbors (side : bool) (row : list Key) (sides : gmap Key bool) (queue : list Key) : K (gmap Key bool * list Key) :=
  match row with
  | [] => mret (sides, queue)
  | neighbor :: row =>
      match sides !! neighbor with
      | Some neighbor_side =>
          if Bool.eqb neighbor_side side then execution "selected graph is not bipartite: odd cycle"
          else visit_neighbors side row sides queue
      | None => visit_neighbors side row (<[neighbor := negb side]> sides) (queue ++ [neighbor])
      end
  end.

Fixpoint search (fuel : nat) (adjacency : gmap Key (list Key)) (sides : gmap Key bool) (queue : list Key) : K (gmap Key bool) :=
  match queue with
  | [] => mret sides
  | node :: queue =>
      match fuel with
      | O => k_some None
      | S fuel =>
          check_cancelled cancelled ;;
          side ← k_some (sides !! node);
          row ← k_some (adjacency !! node);
          '(sides, queue) ← visit_neighbors side row sides queue;
          search fuel adjacency sides queue
      end
  end.

Fixpoint infer (adjacency : gmap Key (list Key)) (keys : list Key) (sides : gmap Key bool) : K (gmap Key bool) :=
  match keys with
  | [] => mret sides
  | start :: keys =>
      if bool_decide (is_Some (sides !! start)) then infer adjacency keys sides
      else
        sides ← search (size adjacency) adjacency (<[start := false]> sides) [start];
        infer adjacency keys sides
  end.

Definition inferred_sides (adjacency : gmap Key (list Key)) : K (gmap Key bool) := infer adjacency (btree_keys adjacency) ∅.

(** *** Explicit sides *)

Definition incomplete : AlgorithmError := Execution "partition mapping is incomplete".

Fixpoint lookup_all (mapping : ResolvedPartitionMap) (nodes : list Key) : result AlgorithmError (list PartitionId) :=
  match nodes with
  | [] => Ok []
  | node :: nodes =>
      partition ← ok_or (mapping !! node) incomplete;
      partitions ← lookup_all mapping nodes;
      Ok (partition :: partitions)
  end.

Fixpoint assign_sides (mapping : ResolvedPartitionMap) (left : option PartitionId) (nodes : list Key) (sides : gmap Key bool) :
    result AlgorithmError (gmap Key bool) :=
  match nodes with
  | [] => Ok sides
  | node :: nodes =>
      partition ← ok_or (mapping !! node) incomplete;
      assign_sides mapping left nodes (<[node := from_option (fun left => bool_decide (partition <> left)) false left]> sides)
  end.

Fixpoint check_edges (sides : gmap Key bool) (edges : list BipartiteEdge) : K unit :=
  match edges with
  | [] => mret tt
  | e :: edges =>
      s ← k_some (sides !! source e);
      t ← k_some (sides !! target e);
      if Bool.eqb s t then execution "selected edge connects nodes in the same partition" else check_edges sides edges
  end.

Definition explicit_sides (nodes : list Key) (edges : list BipartiteEdge) (mapping : ResolvedPartitionMap) : K (gmap Key bool) :=
  if negb (bool_decide (btree_keys mapping = nodes))
  then execution "partition mapping does not exactly match the selected projection"
  else
    let edge_nodes := btree_set (edges ≫= fun e => [source e; target e]) in
    partitions ← k_try (btree_set <$> lookup_all mapping edge_nodes);
    if negb (bool_decide (edge_nodes = [])) && negb (length partitions =? 2)%nat
    then execution "edge-bearing projection must contain exactly two partitions"
    else
      let left := head partitions in
      sides ← k_try (assign_sides mapping left nodes ∅);
      check_edges sides edges ;;
      mret sides.

(** *** The whole function *)

Fixpoint split_nodes (sides : gmap Key bool) (nodes : list Key) : option (list Key * list Key) :=
  match nodes with
  | [] => Some ([], [])
  | node :: nodes =>
      side ← sides !! node;
      '(ls, rs) ← split_nodes sides nodes;
      Some (if (side : bool) then (ls, node :: rs) else (node :: ls, rs))
  end.

Definition swapped (e : BipartiteEdge) : BipartiteEdge := {| edge := edge e; source := target e; target := source e |}.

Fixpoint orient (sides : gmap Key bool) (edges : list BipartiteEdge) : option (list BipartiteEdge) :=
  match edges with
  | [] => Some []
  | e :: edges =>
      side ← sides !! source e;
      oriented ← orient sides edges;
      Some ((if (side : bool) then swapped e else e) :: oriented)
  end.

Definition edge_order (e : BipartiteEdge) : Key * (Key * Key) := (source e, (target e, edge e)).

Definition resolve_bipartite_projection (nodes : list Key) (edges : list BipartiteEdge) (partitions : option ResolvedPartitionMap) :
    K BipartiteProjection :=
  checkpoint cancelled limits ;;
  let node_count := length nodes in
  let nodes := btree_set nodes in
  if negb (length nodes =? node_count)%nat then execution "selected projection contains duplicate node UUIDs"
  else
    adjacency ← add_edges nodes edges (foldl (fun adjacency node => <[node := []]> adjacency) ∅ nodes);
    let adjacency := btree_set <$> adjacency in
    sides ← match partitions with
            | Some mapping => explicit_sides nodes edges mapping
            | None => inferred_sides adjacency
            end;
    '(ls, rs) ← k_some (split_nodes sides nodes);
    oriented ← k_some (orient sides edges);
    mret {| left_nodes := ls; right_nodes := rs; projection_edges := sort_by_key edge_order oriented |}.
End bipartite.

(** ** Sets and adjacency *)

Lemma btree_set_sorted {A} `{EqDecision A} `{Ord A} (l : list A) : StronglySorted ord_lt (btree_set l).
Proof. apply sort_dedup_spec. Qed.

Lemma elem_of_btree_set {A} `{EqDecision A} `{Ord A} (l : list A) x : x ∈ btree_set l <-> x ∈ l.
Proof. apply sort_dedup_spec. Qed.

Lemma ord_lt_irrefl {A} `{Ord A} (l : list A) : StronglySorted ord_lt l -> NoDup l.
Proof.
  induction 1 as [|x l _ IH Hx]; constructor; [|done]. rewrite Forall_forall in Hx. intros Hin. by destruct (Hx x Hin).
Qed.

(** The set has as many elements as the list exactly when none is repeated. *)
Lemma btree_set_length {A} `{EqDecision A} `{Ord A} (l : list A) : length (btree_set l) = length l <-> NoDup l.
Proof.
  assert (Hnd : NoDup (btree_set l)) by apply ord_lt_irrefl, btree_set_sorted. split.
  - intros Hl. assert (Hp : btree_set l ≡ₚ l); [|by rewrite Hp in Hnd]. apply submseteq_length_Permutation; [|lia].
    apply NoDup_submseteq; [done|]. intros x. apply elem_of_btree_set.
  - intros Hl. apply Permutation_length, NoDup_Permutation; [done|done|]. intros x. apply elem_of_btree_set.
Qed.

Lemma elem_of_btree_keys {B} (m : gmap Key B) k : k ∈ btree_keys m <-> is_Some (m !! k).
Proof.
  unfold btree_keys. rewrite (sort_by_key_perm id), list_elem_of_fmap. split.
  - intros ([k' x]&->&H%elem_of_map_to_list). by exists x.
  - intros [x Hx]. exists (k, x). split; [done|]. by apply elem_of_map_to_list.
Qed.

Lemma btree_keys_sorted {B} (m : gmap Key B) : StronglySorted ord_lt (btree_keys m).
Proof.
  assert (Hs : StronglySorted ord_le (btree_keys m)) by (eapply StronglySorted_impl; [|apply (sort_by_key_sorted id)]; done).
  assert (Hnd : NoDup (btree_keys m)) by (unfold btree_keys; rewrite (sort_by_key_perm id); apply NoDup_fst_map_to_list).
  revert Hnd. induction Hs as [|x l _ IH Hx]; intros Hnd; constructor; apply NoDup_cons in Hnd as [Hn Hnd]; [by apply IH|].
  rewrite Forall_forall in *. intros y Hy. split; [by apply Hx|]. by intros ->.
Qed.

(** ** Colourings *)

(** The two nodes of an edge, in either order. *)
Definition joins (edges : list BipartiteEdge) (a b : Key) : Prop :=
  exists e, e ∈ edges /\ ((source e = a /\ target e = b) \/ (source e = b /\ target e = a)).

Definition colours (edges : list BipartiteEdge) (f : Key -> bool) : Prop := Forall (fun e => f (source e) <> f (target e)) edges.

Lemma joins_sym edges a b : joins edges a b -> joins edges b a.
Proof. intros (e&He&H). exists e. tauto. Qed.

Lemma joins_colours edges f a b : colours edges f -> joins edges a b -> f b = negb (f a).
Proof.
  unfold colours. rewrite Forall_forall. intros Hf (e&He&H). specialize (Hf e He). destruct H as [[<- <-]|[<- <-]]; destruct (f (source e)), (f (target e)); done.
Qed.

Lemma joined_sym edges a b : rtc (joins edges) a b -> rtc (joins edges) b a.
Proof. induction 1 as [|a b c H _ IH]; [done|]. eapply rtc_r; [exact IH|by apply joins_sym]. Qed.

(** The rows list the neighbours of every node. *)
Definition rows_of_edges (nodes : list Key) (edges : list BipartiteEdge) (adjacency : gmap Key (list Key)) : Prop :=
  forall n, match adjacency !! n with
            | Some row => n ∈ nodes /\ forall m, m ∈ row <-> joins edges n m
            | None => n ∉ nodes
            end.

Lemma empty_rows nodes : rows_of_edges nodes [] (foldl (fun adjacency node => <[node := []]> adjacency) ∅ nodes).
Proof.
  assert (H : forall ns (a : gmap Key (list Key)) n, foldl (fun adjacency node => <[node := []]> adjacency) a ns !! n =
    if decide (n ∈ ns) then Some [] else a !! n).
  { clear. induction ns as [|x ns IH]; intros a n; cbn [foldl]; [by rewrite decide_False by apply not_elem_of_nil|]. rewrite IH.
    destruct (decide (n ∈ ns)); [by rewrite decide_True by (by right)|]. destruct (decide (n = x)) as [->|Hne].
    - rewrite decide_True by (by left). apply lookup_insert_eq.
    - rewrite decide_False by (rewrite elem_of_cons; tauto). by apply lookup_insert_ne. }
  intros n. rewrite H, lookup_empty. case_decide; [|done]. split; [done|]. intros m. split; [by intros ?%not_elem_of_nil|]. by intros (e&?%not_elem_of_nil&_).
Qed.

(** What makes the edges and nodes an input of the search. *)
Definition edges_ok (nodes : list Key) (edges : list BipartiteEdge) : Prop :=
  Forall (fun e => source e ∈ nodes /\ target e ∈ nodes /\ source e <> target e) edges.

Lemma edges_ok_set nodes edges : edges_ok (btree_set nodes) edges <-> edges_ok nodes edges.
Proof. unfold edges_ok. apply Forall_iff. intros e. by rewrite !elem_of_btree_set. Qed.

Lemma rows_push nodes edges adjacency e : rows_of_edges nodes edges adjacency -> source e ∈ nodes -> target e ∈ nodes -> source e <> target e ->
  exists a1 a2, push_neighbor adjacency (source e) (target e) = Some a1 /\ push_neighbor a1 (target e) (source e) = Some a2 /\
    rows_of_edges nodes (edges ++ [e]) a2.
Proof.
  intros Hrows Hs Ht Hne. unfold push_neighbor. pose proof (Hrows (source e)) as H1. pose proof (Hrows (target e)) as H2.
  destruct (adjacency !! source e) as [r1|] eqn:E1; [|done]. destruct (adjacency !! target e) as [r2|] eqn:E2; [|done].
  eexists _, _. split; [reflexivity|]. rewrite lookup_insert_ne, E2 by done. split; [reflexivity|].
  assert (Hj : forall a b, joins (edges ++ [e]) a b <-> joins edges a b \/ (source e = a /\ target e = b) \/ (source e = b /\ target e = a)).
  { clear. intros a b. unfold joins. setoid_rewrite elem_of_app. setoid_rewrite list_elem_of_singleton. split.
    - intros (f&[Hf| ->]&H); [left; by exists f|by right].
    - intros [(f&Hf&H)|H]; [exists f; auto|exists e; auto]. }
  intros n. destruct (decide (n = target e)) as [->|Hn2]; [|destruct (decide (n = source e)) as [->|Hn1]].
  - rewrite lookup_insert_eq. split; [done|]. intros m. rewrite elem_of_app, list_elem_of_singleton, Hj, (proj2 H2 m). intuition congruence.
  - rewrite lookup_insert_ne, lookup_insert_eq by done. split; [done|]. intros m. rewrite elem_of_app, list_elem_of_singleton, Hj, (proj2 H1 m). intuition congruence.
  - rewrite !lookup_insert_ne by done. specialize (Hrows n). destruct (adjacency !! n); [|done]. destruct Hrows as [? Hr]. split; [done|].
    intros m. rewrite Hj, Hr. intuition congruence.
Qed.

Section runs.
Context (cancelled : nat -> bool).

Lemma add_edges_spec nodes todo edges adjacency : rows_of_edges nodes edges adjacency ->
  (edges_ok nodes todo -> exists a, gives cancelled (add_edges cancelled nodes todo adjacency) (Ok a) /\ rows_of_edges nodes (edges ++ todo) a) /\
  (~ edges_ok nodes todo -> exists e, gives cancelled (add_edges cancelled nodes todo adjacency) (Err e)).
Proof.
  revert edges adjacency. induction todo as [|e todo IH]; intros edges adjacency Hrows; cbn [add_edges].
  { rewrite app_nil_r. split; [|intros []; constructor]. intros _. exists adjacency. split; [apply gives_ret|done]. }
  destruct (decide (source e ∈ nodes)) as [Hs|Hs], (decide (target e ∈ nodes)) as [Ht|Ht].
  2-4: split; [intros [H _]%Forall_cons; tauto|intros _; eexists; gives_step; rewrite ?bool_decide_eq_true_2, ?bool_decide_eq_false_2 by done; cbn; apply gives_err].
  destruct (Z.eqb_spec (source e) (target e)) as [Hl|Hl].
  { split; [intros [H _]%Forall_cons; tauto|]. intros _. eexists. gives_step. rewrite !bool_decide_eq_true_2 by done. cbn. apply gives_err. }
  destruct (rows_push nodes edges adjacency e Hrows Hs Ht Hl) as (a1&a2&E1&E2&H2). destruct (IH _ _ H2) as [IH1 IH2]. rewrite <-app_assoc in IH1. split.
  - intros [_ Hok]%Forall_cons. destruct (IH1 Hok) as (a&Ha&Hr). exists a. split; [|done]. gives_step. rewrite !bool_decide_eq_true_2 by done. cbn [negb orb].
    rewrite E1. gives_step. rewrite E2. by gives_step.
  - intros Hok. destruct IH2 as (err&Herr); [intros H; apply Hok; by constructor|]. exists err. gives_step. rewrite !bool_decide_eq_true_2 by done. cbn [negb orb].
    rewrite E1. gives_step. rewrite E2. by gives_step.
Qed.
End runs.

(** ** The search *)

Section search.
Context (cancelled : nat -> bool) (nodes : list Key) (edges : list BipartiteEdge) (adjacency : gmap Key (list Key)).
Context (Hnodes : NoDup nodes) (Hedges : edges_ok nodes edges) (Hrows : rows_of_edges nodes edges adjacency).

Lemma joins_nodes a b : joins edges a b -> a ∈ nodes /\ b ∈ nodes.
Proof. intros (e&He&H). destruct (proj1 (Forall_forall _ _) Hedges e He) as (?&?&_). destruct H as [[<- <-]|[<- <-]]; done. Qed.

(** A node has the side of its distance to the least node of its component, in every colouring. *)
Definition rooted (sides : gmap Key bool) (n : Key) (b : bool) : Prop :=
  exists root, sides !! root = Some false /\ rtc (joins edges) root n /\ (forall m, rtc (joins edges) m n -> root <= m) /\
    forall f, colours edges f -> f n = xorb (f root) b.

Record searching (sides : gmap Key bool) (queue : list Key) : Prop := {
  s_nodes : forall n, is_Some (sides !! n) -> n ∈ nodes;
  s_queue : Forall (fun n => is_Some (sides !! n)) queue;
  s_closed : forall n b, sides !! n = Some b -> n ∉ queue -> forall m, joins edges n m -> sides !! m = Some (negb b);
  s_rooted : forall n b, sides !! n = Some b -> rooted sides n b;
}.

Definition unvisited (sides : gmap Key bool) : nat := length (filter (fun n => sides !! n = None) nodes).

Lemma unvisited_fresh sides sides' fresh : sides ⊆ sides' -> NoDup fresh ->
  (forall n, n ∈ fresh -> n ∈ nodes /\ sides !! n = None /\ is_Some (sides' !! n)) -> (unvisited sides' + length fresh <= unvisited sides)%nat.
Proof.
  intros Hsub Hnd Hf. unfold unvisited. rewrite <-length_app. apply submseteq_length, NoDup_submseteq.
  - apply NoDup_app. split; [by apply NoDup_filter|]. split; [|done]. intros n [H1 _]%list_elem_of_filter (_&_&[b Hb])%Hf. congruence.
  - intros n [[H1 H2]%list_elem_of_filter|(H1&H2&_)%Hf]%elem_of_app; apply list_elem_of_filter; (split; [|done]); [|done].
    destruct (sides !! n) eqn:E; [|done]. by rewrite (lookup_weaken _ _ _ _ E Hsub) in H1.
Qed.

(** What a pass over a row does. *)
Record visited (side : bool) (row : list Key) (sides sides' : gmap Key bool) (fresh : list Key) : Prop := {
  v_row : forall m, m ∈ row -> sides' !! m = Some (negb side);
  v_sub : sides ⊆ sides';
  v_new : forall m b, sides' !! m = Some b -> sides !! m = Some b \/ (m ∈ fresh /\ b = negb side);
  v_fresh : forall m, m ∈ fresh -> m ∈ row /\ sides !! m = None /\ is_Some (sides' !! m);
  v_nodup : NoDup fresh;
}.

Lemma visit_neighbors_spec side row sides queue :
  ((exists m, m ∈ row /\ sides !! m = Some side) /\ exists e, gives cancelled (visit_neighbors side row sides queue) (Err e)) \/
  (exists sides' fresh, gives cancelled (visit_neighbors side row sides queue) (Ok (sides', queue ++ fresh)) /\ visited side row sides sides' fresh).
Proof.
  revert sides queue. induction row as [|x row IH]; intros sides queue; cbn [visit_neighbors].
  { right. exists sides, []. rewrite app_nil_r. split; [apply gives_ret|]. split; [by intros m ?%not_elem_of_nil|done|by left|by intros m ?%not_elem_of_nil|constructor]. }
  destruct (sides !! x) as [b|] eqn:Ex.
  - destruct (Bool.eqb_spec b side) as [->|Hne].
    { left. split; [exists x; split; [by left|done]|]. eexists. apply gives_err. }
    assert (b = negb side) as -> by by destruct b, side.
    destruct (IH sides queue) as [[(m&Hm&E) H]|(sides'&fresh&H&[H1 H2 H3 H4 H5])].
    + left. split; [exists m; split; [by right|done]|done].
    + right. exists sides', fresh. split; [done|]. split; [|done|done| |done].
      * intros m [->|Hm]%elem_of_cons; [by eapply lookup_weaken|by apply H1].
      * intros m Hm. destruct (H4 m Hm) as (?&?&?). split; [by right|done].
  - destruct (IH (<[x := negb side]> sides) (queue ++ [x])) as [[(m&Hm&E) H]|(sides'&fresh&H&[H1 H2 H3 H4 H5])].
    + left. split; [|done]. exists m. split; [by right|]. apply lookup_insert_Some in E as [[_ E]|[_ E]]; [by destruct side|done].
    + right. exists sides', (x :: fresh). rewrite <-app_assoc in H. split; [done|].
      assert (Hx : sides' !! x = Some (negb side)) by (eapply lookup_weaken; [|done]; apply lookup_insert_eq).
      split.
      * intros m [->|Hm]%elem_of_cons; [done|by apply H1].
      * etrans; [|done]. by apply insert_subseteq.
      * intros m b Hb. destruct (H3 m b Hb) as [[[<- <-]|[_ ?]]%lookup_insert_Some|[? ?]]; [right; split; [by left|done]|by left|right; split; [by right|done]].
      * intros m [->|Hm]%elem_of_cons; [split; [by left|split; [done|by eexists]]|]. destruct (H4 m Hm) as (?&[? _]%lookup_insert_None&?).
        split; [by right|done].
      * constructor; [|done]. intros Hm. destruct (H4 x Hm) as (_&[? ?]%lookup_insert_None&_). done.
Qed.

Lemma rooted_mono sides sides' n b : sides ⊆ sides' -> rooted sides n b -> rooted sides' n b.
Proof. intros Hs (root&H1&H2&H3). exists root. split; [by eapply lookup_weaken|done]. Qed.

(** The sides of two connected nodes are relative to one root. *)
Lemma rooted_agree sides n m b d f : rooted sides n b -> rooted sides m d -> rtc (joins edges) n m -> colours edges f -> f n = xorb (f m) (xorb b d).
Proof.
  intros (r1&_&R1&M1&C1) (r2&_&R2&M2&C2) Hc Hf.
  assert (r1 = r2) as ->.
  { apply Z.le_antisymm; [apply M1|apply M2].
    - etrans; [exact R2|]. by apply joined_sym.
    - etrans; [exact R1|]. done. }
  rewrite (C1 f Hf), (C2 f Hf). by destruct (f r2), b, d.
Qed.

(** A neighbour on the same side excludes a colouring. *)
Lemma conflict sides queue n m b : searching sides queue -> sides !! n = Some b -> sides !! m = Some b -> joins edges n m -> ~ exists f, colours edges f.
Proof.
  intros Hs Hn Hm Hj (f&Hf). pose proof (rooted_agree sides n m b b f (s_rooted _ _ Hs _ _ Hn) (s_rooted _ _ Hs _ _ Hm) (rtc_once _ _ Hj) Hf) as E.
  rewrite (joins_colours _ _ _ _ Hf Hj) in E. by destruct (f n), b.
Qed.

Lemma searching_visited sides n queue side row sides' fresh : searching sides (n :: queue) -> sides !! n = Some side -> adjacency !! n = Some row ->
  visited side row sides sides' fresh -> searching sides' (queue ++ fresh).
Proof.
  intros Hs Hn Hr Hv. pose proof (Hrows n) as Hrow. rewrite Hr in Hrow. destruct Hrow as [_ Hrow]. pose proof (v_sub _ _ _ _ _ Hv) as Hsub. split.
  - intros m [b Hb]. destruct (v_new _ _ _ _ _ Hv m b Hb) as [H|[H _]]; [by apply (s_nodes _ _ Hs); exists b|].
    apply (v_fresh _ _ _ _ _ Hv) in H as [H _]. apply Hrow in H. by apply joins_nodes in H as [_ ?].
  - apply Forall_app. split.
    + pose proof (s_queue _ _ Hs) as [_ Hq]%Forall_cons. eapply Forall_impl; [exact Hq|]. intros m [b Hb]. exists b. by eapply lookup_weaken.
    + apply Forall_forall. intros m Hm. by apply (v_fresh _ _ _ _ _ Hv) in Hm as (_&_&?).
  - intros m b Hb Hm k Hk. rewrite elem_of_app in Hm. destruct (v_new _ _ _ _ _ Hv m b Hb) as [H|[H _]]; [|tauto]. destruct (decide (m = n)) as [->|Hne].
    + rewrite Hn in H. injection H as <-. by apply (v_row _ _ _ _ _ Hv), Hrow.
    + eapply lookup_weaken; [|exact Hsub]. eapply (s_closed _ _ Hs); [done| |done]. rewrite elem_of_cons. tauto.
  - intros m b Hb. destruct (v_new _ _ _ _ _ Hv m b Hb) as [H|[H ->]]; [eapply rooted_mono; [done|by apply (s_rooted _ _ Hs)]|].
    apply (v_fresh _ _ _ _ _ Hv) in H as (H%Hrow&_&_). destruct (s_rooted _ _ Hs _ _ Hn) as (root&R1&R2&R3&R4). exists root.
    split; [by eapply lookup_weaken|]. split; [by eapply rtc_r|]. split.
    + intros k Hk. apply R3. eapply rtc_r; [exact Hk|by apply joins_sym].
    + intros f Hf. rewrite (joins_colours _ _ _ _ Hf H), (R4 f Hf). by destruct (f root), side.
Qed.

Lemma search_spec fuel sides queue : searching sides queue -> (length queue + unvisited sides <= fuel)%nat ->
  (exists sides', gives cancelled (search cancelled fuel adjacency sides queue) (Ok sides') /\ searching sides' [] /\ sides ⊆ sides') \/
  ((exists e, gives cancelled (search cancelled fuel adjacency sides queue) (Err e)) /\ ~ exists f, colours edges f).
Proof.
  revert sides queue. induction fuel as [|fuel IH]; intros sides [|n queue] Hs Hf; cbn [search].
  1,3: left; exists sides; split; [apply gives_ret|done].
  { cbn [length] in Hf. lia. }
  pose proof (s_queue _ _ Hs) as [[side Hn] _]%Forall_cons. pose proof (Hrows n) as Hrow.
  destruct (adjacency !! n) as [row|] eqn:Er; [|by destruct Hrow; apply (s_nodes _ _ Hs); exists side].
  destruct (visit_neighbors_spec side row sides queue) as [[(m&Hm&E) [e He]]|(sides'&fresh&Hrun&Hv)].
  - right. split; [|by apply (conflict sides (n :: queue) n m side Hs Hn E), Hrow]. exists e. gives_step. rewrite Hn. gives_step. gives_step. by apply gives_bind_err.
  - assert (Hs' : searching sides' (queue ++ fresh)) by by eapply searching_visited.
    assert (Hm : (length (queue ++ fresh) + unvisited sides' <= fuel)%nat).
    { assert (Hu : (unvisited sides' + length fresh <= unvisited sides)%nat); [|rewrite length_app; cbn [length] in Hf; lia].
      apply unvisited_fresh; [apply Hv|apply Hv|]. intros k Hk. destruct (v_fresh _ _ _ _ _ Hv k Hk) as (_&H1&H2).
      split; [by apply (s_nodes _ _ Hs')|done]. }
    destruct (IH sides' (queue ++ fresh) Hs' Hm) as [(s2&H2&Hs2&Hsub)|[[e He] Hno]].
    + left. exists s2. split; [|split; [done|etrans; [apply Hv|done]]]. gives_step. rewrite Hn. gives_step. gives_step. eapply gives_bind; [exact Hrun|]. exact H2.
    + right. split; [|done]. exists e. gives_step. rewrite Hn. gives_step. gives_step. eapply gives_bind; [exact Hrun|]. exact He.
Qed.

(** Connected nodes are visited together once the queue is empty. *)
Lemma searching_connected sides a b : searching sides [] -> is_Some (sides !! a) -> rtc (joins edges) a b -> is_Some (sides !! b).
Proof.
  intros Hs Ha Hab. induction Hab as [|a c b H _ IH]; [done|]. apply IH. destruct Ha as [s Ha]. exists (negb s).
  eapply (s_closed _ _ Hs); [done|apply not_elem_of_nil|done].
Qed.

Lemma searching_start sides start keys : searching sides [] -> sides !! start = None -> start ∈ nodes -> StronglySorted ord_lt (start :: keys) ->
  (forall n, n ∈ nodes -> n ∈ start :: keys \/ is_Some (sides !! n)) -> searching (<[start := false]> sides) [start].
Proof.
  intros Hs Hstart Hin Hsorted Hkeys.
  assert (Hsub : sides ⊆ <[start := false]> sides) by by apply insert_subseteq. split.
  - intros n [b [[<- _]|[_ Hb]]%lookup_insert_Some]; [done|]. apply (s_nodes _ _ Hs). by exists b.
  - apply Forall_singleton. rewrite lookup_insert_eq. by eexists.
  - intros n b [[<- _]|[Hne Hb]]%lookup_insert_Some Hq m Hm; [rewrite list_elem_of_singleton in Hq; done|].
    eapply lookup_weaken; [|exact Hsub]. eapply (s_closed _ _ Hs); [done|apply not_elem_of_nil|done].
  - intros n b [[<- <-]|[Hne Hb]]%lookup_insert_Some; [|eapply rooted_mono; [done|by apply (s_rooted _ _ Hs)]].
    exists start. split; [apply lookup_insert_eq|]. split; [done|]. split; [|intros f _; by destruct (f start)].
    intros m Hm. assert (Hno : ~ is_Some (sides !! m)).
    { intros H. apply (searching_connected _ _ _ Hs H) in Hm. rewrite Hstart in Hm. by destruct Hm. }
    assert (Hmn : m ∈ nodes). { apply rtc_inv in Hm as [->|(k&Hk&_)]; [done|]. by apply joins_nodes in Hk as [? _]. }
    destruct (Hkeys m Hmn) as [Hk|]; [|done]. apply elem_of_cons in Hk as [->|Hk]; [lia|].
    inversion Hsorted as [|? ? _ Hall]; subst. rewrite Forall_forall in Hall. by destruct (Hall m Hk).
Qed.

Lemma size_adjacency : size adjacency = length nodes.
Proof.
  rewrite <-size_dom, <-(size_list_to_set (C := gset Key)) by done. f_equal. apply set_eq. intros n. rewrite elem_of_dom, elem_of_list_to_set.
  pose proof (Hrows n) as H. destruct (adjacency !! n).
  - split; [by intros _; apply H|by eexists].
  - split; [by intros []|done].
Qed.

Lemma infer_spec keys sides : searching sides [] -> StronglySorted ord_lt keys -> (forall n, n ∈ keys -> n ∈ nodes) ->
  (forall n, n ∈ nodes -> n ∈ keys \/ is_Some (sides !! n)) ->
  (exists sides', gives cancelled (infer cancelled adjacency keys sides) (Ok sides') /\ searching sides' [] /\ forall n, n ∈ nodes -> is_Some (sides' !! n)) \/
  ((exists e, gives cancelled (infer cancelled adjacency keys sides) (Err e)) /\ ~ exists f, colours edges f).
Proof.
  revert sides. induction keys as [|start keys IH]; intros sides Hs Hsorted Hin Hkeys; cbn [infer].
  { left. exists sides. split; [apply gives_ret|]. split; [done|]. intros n Hn. by destruct (Hkeys n Hn) as [?%not_elem_of_nil|?]. }
  inversion Hsorted as [|? ? Hsorted' _]; subst. assert (Hin' : forall n, n ∈ keys -> n ∈ nodes) by (intros n Hn; apply Hin; by right).
  case_bool_decide as Hstart.
  - apply IH; [done|done|done|]. intros n Hn. destruct (Hkeys n Hn) as [[->|?]%elem_of_cons|?]; auto.
  - apply eq_None_not_Some in Hstart. assert (Hst : start ∈ nodes) by (apply Hin; left).
    pose proof (searching_start sides start keys Hs Hstart Hst Hsorted Hkeys) as Hs1.
    assert (Hf : (length [start] + unvisited (<[start := false]> sides) <= size adjacency)%nat).
    { assert (Hu : (unvisited (<[start := false]> sides) + length [start] <= unvisited sides)%nat).
      { apply unvisited_fresh; [by apply insert_subseteq|apply NoDup_singleton|]. intros n ->%list_elem_of_singleton. split; [done|]. split; [done|].
        rewrite lookup_insert_eq. by eexists. }
      rewrite size_adjacency. unfold unvisited at 2 in Hu. pose proof (length_filter (fun n => sides !! n = None) nodes). lia. }
    destruct (search_spec _ _ _ Hs1 Hf) as [(s1&Hrun&Hs2&Hsub)|[[e He] Hno]].
    + assert (Hk1 : forall n, n ∈ nodes -> n ∈ keys \/ is_Some (s1 !! n)).
      { intros n Hn. destruct (Hkeys n Hn) as [[->|?]%elem_of_cons|[b Hb]]; [right|by left|right].
        - exists false. eapply lookup_weaken; [apply lookup_insert_eq|done].
        - exists b. eapply lookup_weaken; [|exact Hsub]. rewrite lookup_insert_ne; [done|]. by intros ->; rewrite Hstart in Hb. }
      destruct (IH s1 Hs2 Hsorted' Hin' Hk1) as [(s2&H2&?&?)|[[e He] ?]].
      * left. exists s2. split; [|done]. by eapply gives_bind.
      * right. split; [|done]. exists e. by eapply gives_bind.
    + right. split; [|done]. exists e. by apply gives_bind_err.
Qed.

Lemma inferred_spec :
  (exists sides, gives cancelled (inferred_sides cancelled adjacency) (Ok sides) /\ searching sides [] /\ forall n, n ∈ nodes -> is_Some (sides !! n)) \/
  ((exists e, gives cancelled (inferred_sides cancelled adjacency) (Err e)) /\ ~ exists f, colours edges f).
Proof.
  assert (Hk : forall n, n ∈ btree_keys adjacency <-> n ∈ nodes).
  { intros n. rewrite elem_of_btree_keys. pose proof (Hrows n) as H. destruct (adjacency !! n).
    - split; [by intros _; apply H|by eexists].
    - split; [by intros []|done]. }
  apply infer_spec.
  - split; [by intros n [b Hb]|constructor|done|done].
  - apply btree_keys_sorted.
  - apply Hk.
  - intros n Hn. left. by apply Hk.
Qed.
End search.

(** ** Explicit partitions *)

(** Ascending lists with the same elements are equal. *)
Lemma ascending_eq {A} `{EqDecision A} `{Ord A} (l k : list A) : StronglySorted ord_lt l -> StronglySorted ord_lt k -> (forall x, x ∈ l <-> x ∈ k) -> l = k.
Proof.
  intros Hl Hk Hx. apply (StronglySorted_unique_strong ord_le).
  - intros x y _ _. apply ord_antisymm.
  - eapply StronglySorted_impl; [|exact Hl]. by intros ?? [? _].
  - eapply StronglySorted_impl; [|exact Hk]. by intros ?? [? _].
  - apply NoDup_Permutation; [by apply ord_lt_irrefl..|done].
Qed.

(** Every edge joins the partitions [l] and [r]. *)
Definition between (mapping : ResolvedPartitionMap) (l r : PartitionId) (e : BipartiteEdge) : Prop :=
  (mapping !! source e = Some l /\ mapping !! target e = Some r) \/ (mapping !! source e = Some r /\ mapping !! target e = Some l).

Definition exact_mapping (nodes : list Key) (mapping : ResolvedPartitionMap) : Prop := forall n, is_Some (mapping !! n) <-> n ∈ nodes.

Lemma lookup_all_spec mapping ns : (forall n, n ∈ ns -> is_Some (mapping !! n)) ->
  exists ps, lookup_all mapping ns = Ok ps /\ forall p, p ∈ ps <-> exists n, n ∈ ns /\ mapping !! n = Some p.
Proof.
  induction ns as [|n ns IH]; intros Hns; cbn [lookup_all].
  - exists []. split; [done|]. intros p. split; [by intros ?%not_elem_of_nil|by intros (n&?%not_elem_of_nil&_)].
  - destruct (Hns n ltac:(left)) as [q Hq]. destruct IH as (ps&->&Hps); [intros m Hm; apply Hns; by right|]. rewrite Hq. exists (q :: ps). split; [done|].
    intros p. rewrite elem_of_cons, Hps. split.
    + intros [->|(m&Hm&E)]; [exists n; split; [by left|done]|exists m; split; [by right|done]].
    + intros (m&[->|Hm]%elem_of_cons&E); [left; congruence|right; by exists m].
Qed.

Lemma assign_sides_spec mapping first ns sides : (forall n, n ∈ ns -> is_Some (mapping !! n)) ->
  exists sides', assign_sides mapping first ns sides = Ok sides' /\
    forall n p, n ∈ ns -> mapping !! n = Some p -> sides' !! n = Some (from_option (fun l => bool_decide (p <> l)) false first).
Proof.
  intros Hns. enough (H : exists sides', assign_sides mapping first ns sides = Ok sides' /\
    forall n p, mapping !! n = Some p -> (n ∈ ns -> sides' !! n = Some (from_option (fun l => bool_decide (p <> l)) false first)) /\ (n ∉ ns -> sides' !! n = sides !! n)).
  { destruct H as (s&Hs&H). exists s. split; [done|]. intros n p Hn Hp. by apply (H n p Hp). }
  revert sides. induction ns as [|n ns IH]; intros sides; cbn [assign_sides].
  { exists sides. split; [done|]. intros n p _. split; [by intros ?%not_elem_of_nil|done]. }
  destruct (Hns n ltac:(left)) as [q Hq]. rewrite Hq. cbn [ok_or mbind result_bind].
  destruct (IH ltac:(intros m Hm; apply Hns; by right) (<[n := from_option (fun l => bool_decide (q <> l)) false first]> sides)) as (s&->&Hs).
  exists s. split; [done|]. intros m p Hp. destruct (Hs m p Hp) as [H1 H2]. rewrite elem_of_cons. split.
  - intros [->|Hm]; [|by apply H1]. destruct (decide (n ∈ ns)) as [Hm|Hm]; [by apply H1|]. rewrite (H2 Hm), lookup_insert_eq. by simplify_eq.
  - intros Hm. rewrite H2 by tauto. apply lookup_insert_ne. naive_solver.
Qed.

Lemma check_edges_spec cancelled sides edges : (forall e, e ∈ edges -> is_Some (sides !! source e) /\ is_Some (sides !! target e)) ->
  (Forall (fun e => sides !! source e <> sides !! target e) edges -> gives cancelled (check_edges sides edges) (Ok tt)) /\
  (~ Forall (fun e => sides !! source e <> sides !! target e) edges -> exists err, gives cancelled (check_edges sides edges) (Err err)).
Proof.
  induction edges as [|e edges IH]; intros Hin; cbn [check_edges]; [split; [intros _; apply gives_ret|by intros []]|].
  destruct (Hin e ltac:(left)) as [[s Hs] [t Ht]]. destruct IH as [IH1 IH2]; [intros d Hd; apply Hin; by right|]. split.
  - intros [Hne Hall]%Forall_cons. rewrite Hs, Ht in *. gives_step. gives_step. destruct (Bool.eqb_spec s t) as [->|_]; [done|by apply IH1].
  - intros Hno. rewrite Hs, Ht. destruct (Bool.eqb_spec s t) as [->|Hne].
    + eexists. gives_step. gives_step. rewrite Bool.eqb_reflx. apply gives_err.
    + destruct IH2 as [err Herr]; [intros H; apply Hno; constructor; [|done]; congruence|]. exists err. gives_step. gives_step.
      by rewrite (proj2 (Bool.eqb_false_iff s t)).
Qed.

Lemma nonempty_elem {A} (l : list A) : l <> [] -> exists x, x ∈ l.
Proof. destruct l as [|x l]; [done|]. exists x. left. Qed.

Section explicit.
Context (cancelled : nat -> bool) (nodes : list Key) (edges : list BipartiteEdge) (mapping : ResolvedPartitionMap).
Context (Hedges : edges_ok nodes edges) (Hex : exact_mapping nodes mapping).

Let ends : list Key := btree_set (edges ≫= fun e => [source e; target e]).

Lemma elem_of_ends n : n ∈ ends <-> exists e, e ∈ edges /\ (n = source e \/ n = target e).
Proof.
  unfold ends. rewrite elem_of_btree_set, list_elem_of_bind. apply exist_proper. intros e. rewrite elem_of_cons, list_elem_of_singleton. tauto.
Qed.

Lemma edge_nodes e : e ∈ edges -> source e ∈ nodes /\ target e ∈ nodes.
Proof. intros He. by destruct (proj1 (Forall_forall _ _) Hedges e He) as (?&?&_). Qed.

Lemma ends_mapped n : n ∈ ends -> is_Some (mapping !! n).
Proof. intros (e&He&H)%elem_of_ends. apply Hex. destruct (edge_nodes e He). by destruct H as [-> | ->]. Qed.

Lemma ends_nonempty : edges <> [] -> ends <> [].
Proof.
  intros (e&He)%nonempty_elem E. apply (not_elem_of_nil (source e)). rewrite <-E. apply elem_of_ends. eauto.
Qed.

(** The partitions of the nodes that have an edge. *)
Context (ps : list PartitionId) (Hps : forall p, p ∈ ps <-> exists n, n ∈ ends /\ mapping !! n = Some p).

Lemma partitions_two l r : edges <> [] -> l <> r -> Forall (between mapping l r) edges -> length (btree_set ps) = 2%nat.
Proof.
  intros Hne Hlr Hb. rewrite Forall_forall in Hb. change 2%nat with (length [l; r]). apply Permutation_length, NoDup_Permutation.
  - apply ord_lt_irrefl, btree_set_sorted.
  - apply NoDup_cons. split; [by rewrite list_elem_of_singleton|apply NoDup_singleton].
  - intros p. rewrite elem_of_btree_set, Hps, elem_of_cons, list_elem_of_singleton. split.
    + intros (n&(e&He&H)%elem_of_ends&Hn). specialize (Hb e He). unfold between in Hb. destruct H as [-> | ->]; naive_solver.
    + intros Hp. destruct (nonempty_elem edges Hne) as [e He].
      assert (Hs : source e ∈ ends) by (apply elem_of_ends; eauto). assert (Ht : target e ∈ ends) by (apply elem_of_ends; eauto).
      destruct (Hb e He) as [[H1 H2]|[H1 H2]], Hp as [->| ->]; eauto.
Qed.

Lemma edge_partitions l r e : btree_set ps = [l; r] -> e ∈ edges ->
  exists p q, mapping !! source e = Some p /\ mapping !! target e = Some q /\ (p = l \/ p = r) /\ (q = l \/ q = r).
Proof.
  intros Eps He. assert (H : forall n, n ∈ ends -> exists p, mapping !! n = Some p /\ (p = l \/ p = r)).
  { intros n Hn. destruct (ends_mapped n Hn) as [p Hp]. exists p. split; [done|].
    assert (Hin : p ∈ [l; r]) by (rewrite <-Eps; apply elem_of_btree_set, Hps; eauto). by rewrite elem_of_cons, list_elem_of_singleton in Hin. }
  destruct (H (source e)) as (p&Hp&?); [apply elem_of_ends; eauto|]. destruct (H (target e)) as (q&Hq&?); [apply elem_of_ends; eauto|]. by exists p, q.
Qed.

(** With the sides of the partitions [l] and [r], an edge inside a side is one inside a partition. *)
Lemma sides_differ l r (sides : gmap Key bool) : btree_set ps = [l; r] -> l <> r -> (forall n, n ∈ nodes -> sides !! n = Some (bool_decide (mapping !! n <> Some l))) ->
  (Forall (fun e => sides !! source e <> sides !! target e) edges <-> exists l' r', l' <> r' /\ Forall (between mapping l' r') edges) /\
  (Forall (fun e => sides !! source e <> sides !! target e) edges -> Forall (between mapping l r) edges).
Proof.
  intros Eps Hlr Hside. rewrite !Forall_forall. assert (Hdir : (forall e, e ∈ edges -> sides !! source e <> sides !! target e) -> forall e, e ∈ edges -> between mapping l r e).
  { intros Hd e He. specialize (Hd e He). destruct (edge_nodes e He). rewrite !Hside in Hd by done.
    destruct (edge_partitions l r e Eps He) as (p&q&Hp&Hq&Hpl&Hql). unfold between. rewrite Hp, Hq in *.
    destruct Hpl as [->| ->], Hql as [->| ->]; auto; by destruct Hd. }
  split; [split|done].
  - intros Hd. exists l, r. rewrite Forall_forall. auto.
  - intros (l'&r'&Hne&Hb) e He. rewrite Forall_forall in Hb. specialize (Hb e He). destruct (edge_nodes e He). rewrite !Hside by done.
    destruct (edge_partitions l r e Eps He) as (p&q&Hp&Hq&Hpl&Hql). unfold between in Hb. rewrite Hp, Hq in *. assert (p <> q) by naive_solver.
    intros [= E]. revert E. repeat case_bool_decide; destruct Hpl as [->| ->], Hql as [->| ->]; naive_solver.
Qed.
End explicit.

(** What the explicit mode computes. *)
Definition explicit_result (nodes : list Key) (edges : list BipartiteEdge) (mapping : ResolvedPartitionMap) (sides : gmap Key bool) : Prop :=
  (forall n, n ∈ nodes -> is_Some (sides !! n)) /\ exact_mapping nodes mapping /\
  exists l r, l <> r /\ Forall (fun e => between mapping l r e /\ ord_lt l r /\ sides !! source e = Some (bool_decide (mapping !! source e <> Some l)) /\
    sides !! target e = Some (bool_decide (mapping !! target e <> Some l))) edges.

Lemma explicit_spec cancelled nodes edges mapping : StronglySorted ord_lt nodes -> edges_ok nodes edges ->
  (exists sides, gives cancelled (explicit_sides nodes edges mapping) (Ok sides) /\ explicit_result nodes edges mapping sides) \/
  ((exists e, gives cancelled (explicit_sides nodes edges mapping) (Err e)) /\ ~ (exact_mapping nodes mapping /\ exists l r, l <> r /\ Forall (between mapping l r) edges)).
Proof.
  intros Hnodes Hedges. unfold explicit_sides. destruct (decide (btree_keys mapping = nodes)) as [Hk|Hk].
  2:{ right. rewrite bool_decide_eq_false_2 by done. split; [eexists; apply gives_err|]. intros [Hex _]. apply Hk, ascending_eq; [apply btree_keys_sorted|done|].
      intros n. rewrite elem_of_btree_keys. apply Hex. }
  rewrite bool_decide_eq_true_2 by done. cbn [negb]. assert (Hex : exact_mapping nodes mapping) by (intros n; by rewrite <-elem_of_btree_keys, Hk).
  set (ends := btree_set (edges ≫= fun e => [source e; target e])).
  destruct (lookup_all_spec mapping ends (ends_mapped nodes edges mapping Hedges Hex)) as (ps&Hall&Hps). rewrite Hall. cbn [fmap result_fmap].
  destruct (assign_sides_spec mapping (head (btree_set ps)) nodes ∅ (fun n Hn => proj2 (Hex n) Hn)) as (sides&Hsides&Hs).
  assert (Htot : forall n, n ∈ nodes -> is_Some (sides !! n)) by (intros n Hn; destruct (proj2 (Hex n) Hn) as [p Hp]; rewrite (Hs n p Hn Hp); by eexists).
  destruct (decide (edges = [])) as [->|Hne].
  { left. exists sides. split; [|split; [done|split; [done|by exists [], [0]]]]. gives_step. cbn [negb bool_decide andb]. rewrite Hsides. gives_step.
    eapply gives_bind; apply gives_ret. }
  assert (Hends : ends <> []) by by apply ends_nonempty. destruct (decide (length (btree_set ps) = 2%nat)) as [H2|H2].
  2:{ right. split; [|intros (_&l&r&Hlr&Hb); by eapply H2, partitions_two]. eexists. gives_step.
      rewrite (bool_decide_eq_false_2 (ends = [])), (proj2 (Nat.eqb_neq _ _) H2) by done. cbn. apply gives_err. }
  pose proof (btree_set_sorted ps) as Hsort. destruct (btree_set ps) as [|l [|r [|? ?]]] eqn:Eps; try discriminate H2.
  assert (Hlr : ord_lt l r) by (inversion Hsort as [|? ? _ Hl]; subst; by apply Forall_cons in Hl as [? _]).
  assert (Hside : forall n, n ∈ nodes -> sides !! n = Some (bool_decide (mapping !! n <> Some l))).
  { intros n Hn. destruct (proj2 (Hex n) Hn) as [p Hp]. rewrite (Hs n p Hn Hp). cbn. f_equal. rewrite Hp. apply bool_decide_ext. naive_solver. }
  destruct (sides_differ nodes edges mapping Hedges Hex ps Hps l r sides Eps (proj2 Hlr) Hside) as [Hiff Hdir].
  destruct (check_edges_spec cancelled sides edges) as [Hok Hbad].
  { intros e He. destruct (edge_nodes nodes edges Hedges e He). auto. }
  destruct (decide (Forall (fun e => sides !! source e <> sides !! target e) edges)) as [Hd|Hd].
  - left. exists sides. split; [|split; [done|split; [done|exists l, r; split; [by destruct Hlr|]]]].
    + gives_step. rewrite (bool_decide_eq_false_2 (ends = [])) by done. cbn [negb andb length Nat.eqb head] in *. rewrite Hsides. gives_step.
      eapply gives_bind; [by apply Hok|apply gives_ret].
    + specialize (Hdir Hd). rewrite Forall_forall in *. intros e He. destruct (edge_nodes nodes edges Hedges e He). rewrite !Hside by done. auto.
  - right. split; [|intros [_ H]; by apply Hd, Hiff]. destruct (Hbad Hd) as [err Herr]. exists err. gives_step.
    rewrite (bool_decide_eq_false_2 (ends = [])) by done. cbn [negb andb length Nat.eqb head] in *. rewrite Hsides. gives_step. by apply gives_bind_err.
Qed.

(** A validated mapping is exact, and gives every node the partition of its value. *)
Lemma assign_partitions_spec selected values m0 m : assign_partitions selected values m0 = Ok m ->
  m0 ⊆ m /\ (forall n v, (n, v) ∈ values -> n ∈ selected /\ exists p, partition_of n v = Ok p /\ m !! n = Some p) /\
  (forall n, is_Some (m !! n) -> is_Some (m0 !! n) \/ n ∈ selected).
Proof.
  revert m0. induction values as [|[n v] values IH]; intros m0; cbn [assign_partitions].
  { intros [= <-]. split; [done|]. split; [by intros n v ?%not_elem_of_nil|by left]. }
  intros [Hn%negb_false_iff%bool_decide_eq_true H]%guard_Ok. apply guard_Ok in H as [Hnew%bool_decide_eq_false H].
  apply bind_Ok in H as (p&Hp&H). apply IH in H as (H1&H2&H3).
  assert (Hm : m !! n = Some p) by (eapply lookup_weaken; [apply lookup_insert_eq|done]). split; [|split].
  - etrans; [|exact H1]. apply insert_subseteq. by apply eq_None_not_Some.
  - intros k w [[= -> ->]|Hk]%elem_of_cons; [|by apply H2]. split; [done|]. by exists p.
  - intros k Hk. destruct (H3 k Hk) as [[q [[-> _]|[_ Hq]]%lookup_insert_Some]|?]; [by right|left; by exists q|by right].
Qed.

Lemma try_new_exact nodes values mapping : try_new nodes values = Ok mapping ->
  exact_mapping nodes mapping /\ forall n v, (n, v) ∈ values -> exists p, partition_of n v = Ok p /\ mapping !! n = Some p.
Proof.
  unfold try_new. intros (m&Hm&H)%bind_Ok. destruct (list_find _ _) as [[i n]|] eqn:E; [done|]. injection H as ->.
  apply list_find_None in E. rewrite Forall_forall in E. apply assign_partitions_spec in Hm as (_&H2&H3). split.
  - intros n. split.
    + intros Hn. destruct (H3 n Hn) as [[q Hq]|Hs]; [done|by apply elem_of_btree_set].
    + intros Hn. apply not_eq_None_Some, E, elem_of_btree_set, Hn.
  - intros n v Hv. by apply H2.
Qed.

(** ** The projection of given sides *)

(** The nodes in two ascending lists, and every edge once, directed from the left to the right, in order. *)
Record valid_projection (nodes : list Key) (edges : list BipartiteEdge) (p : BipartiteProjection) : Prop := {
  vp_nodes : left_nodes p ++ right_nodes p ≡ₚ nodes;
  vp_left : StronglySorted ord_lt (left_nodes p);
  vp_right : StronglySorted ord_lt (right_nodes p);
  vp_edges : exists es, Forall2 (fun e e' => e' = e \/ e' = swapped e) edges es /\ projection_edges p ≡ₚ es;
  vp_order : StronglySorted (key_le edge_order) (projection_edges p);
  vp_sides : Forall (fun e => source e ∈ left_nodes p /\ target e ∈ right_nodes p) (projection_edges p);
}.

Lemma split_nodes_spec sides ns : (forall n, n ∈ ns -> is_Some (sides !! n)) ->
  split_nodes sides ns = Some (filter (fun n => sides !! n = Some false) ns, filter (fun n => sides !! n = Some true) ns).
Proof.
  induction ns as [|n ns IH]; intros Hns; [done|]. destruct (Hns n ltac:(left)) as [b Hb]. cbn [split_nodes]. rewrite Hb. cbn [mbind option_bind].
  rewrite IH by (intros m Hm; apply Hns; by right). cbn [mbind option_bind]. rewrite !filter_cons. destruct b; rewrite !Hb; by repeat case_decide.
Qed.

Definition oriented (sides : gmap Key bool) (e : BipartiteEdge) : BipartiteEdge := if default false (sides !! source e) then swapped e else e.

Lemma orient_spec sides edges : (forall e, e ∈ edges -> is_Some (sides !! source e)) -> orient sides edges = Some (oriented sides <$> edges).
Proof.
  induction edges as [|e edges IH]; intros He; [done|]. destruct (He e ltac:(left)) as [b Hb]. cbn [orient fmap list_fmap]. rewrite Hb. cbn [mbind option_bind].
  rewrite IH by (intros d Hd; apply He; by right). unfold oriented at 2. by rewrite Hb.
Qed.

Lemma sorted_filter {A} (R : relation A) (P : A -> Prop) `{forall x, Decision (P x)} l : StronglySorted R l -> StronglySorted R (filter P l).
Proof.
  induction 1 as [|x l _ IH Hx]; [constructor|]. rewrite filter_cons. case_decide; [|done]. constructor; [done|]. rewrite Forall_forall in *.
  intros y [_ Hy]%list_elem_of_filter. by apply Hx.
Qed.

Section project.
Context (nodes : list Key) (edges : list BipartiteEdge) (sides : gmap Key bool).
Context (Hnodes : NoDup nodes) (Hedges : edges_ok nodes edges) (Htot : forall n, n ∈ nodes -> is_Some (sides !! n)).
Context (Hproper : forall e b, e ∈ edges -> sides !! source e = Some b -> sides !! target e = Some (negb b)).

Definition project : BipartiteProjection := {|
  left_nodes := filter (fun n => sides !! n = Some false) (btree_set nodes);
  right_nodes := filter (fun n => sides !! n = Some true) (btree_set nodes);
  projection_edges := sort_by_key edge_order (oriented sides <$> edges) |}.

Lemma project_valid : valid_projection nodes edges project.
Proof.
  pose proof (ord_lt_irrefl _ (btree_set_sorted nodes)) as Hnd. split; cbn [left_nodes right_nodes projection_edges project].
  - apply NoDup_Permutation; [|done|].
    + apply NoDup_app. split; [by apply NoDup_filter|]. split; [|by apply NoDup_filter]. intros n [H1 _]%list_elem_of_filter [H2 _]%list_elem_of_filter. congruence.
    + intros n. rewrite elem_of_app, !list_elem_of_filter, elem_of_btree_set. split; [tauto|]. intros Hn. destruct (Htot n Hn) as [[] Hb]; auto.
  - apply sorted_filter, btree_set_sorted.
  - apply sorted_filter, btree_set_sorted.
  - exists (oriented sides <$> edges). split; [|apply sort_by_key_perm]. apply Forall2_fmap_r, Forall_Forall2_diag, Forall_true.
    intros e. unfold compose, oriented. case_match; auto.
  - apply sort_by_key_sorted.
  - rewrite sort_by_key_perm. apply Forall_fmap, Forall_forall. intros e He. destruct (proj1 (Forall_forall _ _) Hedges e He) as (Hs&Ht&_).
    destruct (Htot _ Hs) as [b Hb]. pose proof (Hproper e b He Hb) as Hb'. unfold compose, oriented. rewrite Hb. cbn [default].
    rewrite !list_elem_of_filter, !elem_of_btree_set. destruct b; cbn [swapped source target]; done.
Qed.
End project.

(** ** Properties *)

(** The inputs that have a projection. *)
Definition admissible (nodes : list Key) (edges : list BipartiteEdge) (partitions : option ResolvedPartitionMap) : Prop :=
  NoDup nodes /\ Forall (fun e => source e ∈ nodes /\ target e ∈ nodes) edges /\
  match partitions with
  | None => exists f, colours edges f
  | Some mapping => exact_mapping nodes mapping /\ exists l r, l <> r /\ Forall (between mapping l r) edges
  end.

(** Which of the two orientations is taken: the least node of every component is on the left, or the lesser partition is. *)
Definition canonical (nodes : list Key) (edges : list BipartiteEdge) (partitions : option ResolvedPartitionMap) (p : BipartiteProjection) : Prop :=
  match partitions with
  | None => forall n, n ∈ nodes -> exists root, root ∈ left_nodes p /\ rtc (joins edges) root n /\ forall m, rtc (joins edges) m n -> root <= m
  | Some mapping => Forall (fun e => exists l r, mapping !! source e = Some l /\ mapping !! target e = Some r /\ ord_lt l r) (projection_edges p)
  end.

Definition sides_of (cancelled : nat -> bool) (nodes : list Key) (edges : list BipartiteEdge) (partitions : option ResolvedPartitionMap)
    (adjacency : gmap Key (list Key)) : K (gmap Key bool) :=
  match partitions with
  | Some mapping => explicit_sides nodes edges mapping
  | None => inferred_sides cancelled adjacency
  end.

Lemma admissible_edges nodes edges partitions : admissible nodes edges partitions -> edges_ok nodes edges.
Proof.
  intros (_&Hin&H). unfold edges_ok. rewrite Forall_forall in *. intros e He. destruct (Hin e He). split; [done|]. split; [done|]. intros E.
  destruct partitions as [mapping|].
  - destruct H as (_&l&r&Hlr&Hb). rewrite Forall_forall in Hb. specialize (Hb e He). unfold between in Hb. rewrite E in Hb. naive_solver.
  - destruct H as (f&Hf). unfold colours in Hf. rewrite Forall_forall in Hf. by specialize (Hf e He); rewrite E in Hf.
Qed.

Lemma sorted_rows nodes edges adjacency : rows_of_edges nodes edges adjacency -> rows_of_edges nodes edges (btree_set <$> adjacency).
Proof.
  intros H n. specialize (H n). rewrite lookup_fmap. destruct (adjacency !! n) as [row|]; cbn [fmap option_fmap option_map]; [|done].
  destruct H as [? H]. split; [done|]. intros m. by rewrite elem_of_btree_set.
Qed.

(** The sides of either mode, or why there are none. *)
Lemma sides_spec cancelled nodes edges partitions adjacency : NoDup nodes -> edges_ok nodes edges -> rows_of_edges (btree_set nodes) edges adjacency ->
  (exists sides, gives cancelled (sides_of cancelled (btree_set nodes) edges partitions (btree_set <$> adjacency)) (Ok sides) /\
     (forall n, n ∈ nodes -> is_Some (sides !! n)) /\ (forall e b, e ∈ edges -> sides !! source e = Some b -> sides !! target e = Some (negb b)) /\
     admissible nodes edges partitions /\ canonical nodes edges partitions (project nodes edges sides)) \/
  ((exists e, gives cancelled (sides_of cancelled (btree_set nodes) edges partitions (btree_set <$> adjacency)) (Err e)) /\ ~ admissible nodes edges partitions).
Proof.
  intros Hnd Hedges Hrows%sorted_rows. pose proof (elem_of_btree_set nodes) as Hx.
  assert (Hedges' : edges_ok (btree_set nodes) edges) by by apply edges_ok_set.
  assert (Hin : Forall (fun e => source e ∈ nodes /\ target e ∈ nodes) edges) by (eapply Forall_impl; [exact Hedges|]; by intros e (?&?&_)).
  destruct partitions as [mapping|]; cbn [sides_of].
  - destruct (explicit_spec cancelled (btree_set nodes) edges mapping (btree_set_sorted nodes) Hedges') as [(sides&Hrun&Htot&Hex&l&r&Hlr&Hall)|[He Hno]].
    + left. exists sides. split; [done|]. split; [intros n Hn; by apply Htot, Hx|]. rewrite Forall_forall in Hall. split; [|split].
      * intros e b He Hb. destruct (Hall e He) as (Hbt&_&Hs&Ht). rewrite Hs in Hb. injection Hb as <-. rewrite Ht. f_equal.
        destruct Hbt as [[H1 H2]|[H1 H2]]; rewrite H1, H2; repeat case_bool_decide; naive_solver.
      * split; [done|]. split; [done|]. split; [intros n; by rewrite <-Hx|]. exists l, r. split; [done|]. rewrite Forall_forall. by intros e (?&_)%Hall.
      * cbn [canonical projection_edges project]. rewrite sort_by_key_perm. apply Forall_fmap, Forall_forall. intros e He.
        destruct (Hall e He) as (Hbt&Hlt&Hs&_). exists l, r. unfold compose, oriented. rewrite Hs. cbn [default].
        destruct Hbt as [[H1 H2]|[H1 H2]]; rewrite H1;
          [rewrite bool_decide_eq_false_2 by (by intros [])|rewrite bool_decide_eq_true_2 by congruence]; cbn [swapped source target]; done.
    + right. split; [done|]. intros (_&_&Hex&H). apply Hno. split; [intros n; by rewrite Hx|done].
  - destruct (inferred_spec cancelled (btree_set nodes) edges (btree_set <$> adjacency) (ord_lt_irrefl _ (btree_set_sorted nodes)) Hedges' Hrows)
      as [(sides&Hrun&Hs&Htot)|[He Hno]]; [|right; split; [done|by intros (_&_&?)]].
    assert (Hproper : forall e b, e ∈ edges -> sides !! source e = Some b -> sides !! target e = Some (negb b)).
    { intros e b He Hb. eapply (s_closed _ _ _ _ Hs); [done|apply not_elem_of_nil|]. exists e. auto. }
    left. exists sides. split; [done|]. split; [intros n Hn; by apply Htot, Hx|]. split; [done|]. split.
    + split; [done|]. split; [done|]. exists (fun n => default false (sides !! n)). apply Forall_forall. intros e He. rewrite Forall_forall in Hin.
      destruct (Hin e He) as [[b Hb]%Hx%Htot _]. rewrite Hb, (Hproper e b He Hb). by destruct b.
    + intros n [b Hb]%Hx%Htot. destruct (s_rooted _ _ _ _ Hs n b Hb) as (root&H1&H2&H3&_). exists root. split; [|done]. cbn.
      rewrite list_elem_of_filter. split; [done|]. apply (s_nodes _ _ _ _ Hs). by exists false.
Qed.

(** C10 Bipartite projections are exact.  Within the limit of iterations, a run does not panic and,
    unless it is cancelled, it returns a projection exactly when the nodes are distinct, the edges
    join them, and the graph has a two-colouring or, for given partitions, every edge joins the same
    two.  The projection holds every node in one of two ascending lists and every edge, parallel ones
    too, directed from the left to the right and sorted; the least node of every component, or the
    lesser partition, is on the left. *)
Theorem bipartite_exact cancelled limits nodes edges partitions c : 0 <= iterations c < l_iterations limits ->
  exists r c', resolve_bipartite_projection cancelled limits nodes edges partitions c = Some (r, c') /\
    ((r = Err Cancelled /\ exists k, cancelled k = true) \/
     match r with
     | Ok p => admissible nodes edges partitions /\ valid_projection nodes edges p /\ canonical nodes edges partitions p
     | Err _ => ~ admissible nodes edges partitions
     end).
Proof.
  intros Hc. unfold resolve_bipartite_projection. unfold mbind at 1, k_bind at 1. unfold checkpoint. unfold mbind at 1, k_bind at 1, check_cancelled at 1.
  destruct (cancelled (polls c)) eqn:Ec; [eexists _, _; split; [reflexivity|]; left; eauto|]. cbn [iterations polls states].
  rewrite (proj2 (Z.ltb_ge _ _)) by lia. match goal with |- context[(if _ then _ else _) ?c1] => generalize c1 end. clear c Hc Ec. intros c.
  enough (H : exists r, gives cancelled (if negb (length (btree_set nodes) =? length nodes)%nat then execution "selected projection contains duplicate node UUIDs" else
    adjacency ← add_edges cancelled (btree_set nodes) edges (foldl (fun adjacency node => <[node := []]> adjacency) ∅ (btree_set nodes));
    sides ← sides_of cancelled (btree_set nodes) edges partitions (btree_set <$> adjacency);
    '(ls, rs) ← k_some (split_nodes sides (btree_set nodes)); oriented ← k_some (orient sides edges);
    mret {| left_nodes := ls; right_nodes := rs; projection_edges := sort_by_key edge_order oriented |}) r /\
    match r with
    | Ok p => admissible nodes edges partitions /\ valid_projection nodes edges p /\ canonical nodes edges partitions p
    | Err _ => ~ admissible nodes edges partitions
    end).
  { destruct H as (r&Hg&Hr). destruct (Hg c) as [c' [E|[E Hk]]]; [exists r, c'; auto|exists (Err Cancelled), c'; auto]. }
  destruct (decide (length (btree_set nodes) = length nodes)) as [Hl|Hl].
  2:{ rewrite (proj2 (Nat.eqb_neq _ _) Hl). eexists. split; [apply gives_err|]. intros [H _]. by apply Hl, btree_set_length. }
  rewrite (proj2 (Nat.eqb_eq _ _) Hl). cbn [negb]. apply btree_set_length in Hl as Hnd. pose proof (elem_of_btree_set nodes) as Hx.
  destruct (add_edges_spec cancelled (btree_set nodes) edges [] _ (empty_rows (btree_set nodes))) as [Hok Hbad].
  destruct (decide (edges_ok (btree_set nodes) edges)) as [Hedges|Hedges].
  2:{ destruct (Hbad Hedges) as [e He]. exists (Err e). split; [by apply gives_bind_err|]. intros H%admissible_edges. by apply Hedges, edges_ok_set. }
  destruct (Hok Hedges) as (adjacency&Hrun&Hrows). cbn [app] in Hrows. assert (Hedges' : edges_ok nodes edges) by by apply edges_ok_set.
  destruct (sides_spec cancelled nodes edges partitions adjacency Hnd Hedges' Hrows) as [(sides&Hs&Htot&Hproper&Hadm&Hcan)|[[e He] Hno]].
  - exists (Ok (project nodes edges sides)). split; [|split; [done|split; [by apply project_valid|done]]]. eapply gives_bind; [exact Hrun|]. cbn beta.
    eapply gives_bind; [exact Hs|]. cbn beta. rewrite split_nodes_spec by (intros n Hn; by apply Htot, Hx). gives_step.
    rewrite orient_spec by (intros e He; apply Htot; by destruct (proj1 (Forall_forall _ _) Hedges' e He)). gives_step. apply gives_ret.
  - exists (Err e). split; [|done]. eapply gives_bind; [exact Hrun|]. by apply gives_bind_err.
Qed.

(** Two components, one with a parallel edge, and an isolated node. *)
Definition sample_edge (e s t : Z) : BipartiteEdge := {| edge := e; source := s; target := t |}.
Definition sample_edges : list BipartiteEdge := [sample_edge 1 2 1; sample_edge 3 2 1; sample_edge 2 6 5; sample_edge 4 2 3].

Lemma bipartite_exact_witness : exists p c',
  resolve_bipartite_projection (fun _ => false) Control.default_limits [9; 1; 2; 3; 5; 6] sample_edges None new_control = Some (Ok p, c') /\
  left_nodes p = [1; 3; 5; 9] /\ right_nodes p = [2; 6] /\ admissible [9; 1; 2; 3; 5; 6] sample_edges None /\
  valid_projection [9; 1; 2; 3; 5; 6] sample_edges p.
Proof.
  destruct (bipartite_exact (fun _ => false) Control.default_limits [9; 1; 2; 3; 5; 6] sample_edges None new_control
    ltac:(split; vm_compute; congruence)) as (r&c'&Hrun&H).
  assert (E : resolve_bipartite_projection (fun _ => false) Control.default_limits [9; 1; 2; 3; 5; 6] sample_edges None new_control = Some (r, c')) by exact Hrun.
  vm_compute in E. injection E as Er Ec. destruct H as [[Hr _]|H]; [rewrite <-Er in Hr; discriminate Hr|].
  destruct r as [p|e]; [|discriminate Er]. exists p, c'. split; [exact Hrun|]. injection Er as Ep. rewrite <-Ep at 1 2.
  split; [reflexivity|]. split; [reflexivity|]. split; [exact (proj1 H)|exact (proj1 (proj2 H))].
Defined.

(** A triangle has no projection. *)
Example triangle_refused :
  fst <$> resolve_bipartite_projection (fun _ => false) Control.default_limits [1; 2; 3] [sample_edge 1 1 2; sample_edge 2 2 3; sample_edge 3 3 1] None new_control =
  Some (Err (Execution "selected graph is not bipartite: odd cycle")).
Proof. vm_compute. reflexivity. Qed.
